(* ===== verification/_CoqProject ===== *)
-Q . S2P
Prelude.v
Bytes.v
ValidTime.v
Allen.v
Hash32.v
Keys.v
Registry.v
Locks.v
Props.v
Rows.v
Pages.v
ValueKeys.v
Floats.v
NumEqual.v
Fenwick.v
SortedChunks.v
ChunkCounts.v
Postings.v
PropertyIndex.v
OrderedPages.v
NodeIndexes.v
IndexPurge.v
CompositeIndex.v
OrderedMerge.v
AdjSets.v
TemporalIndex.v
Integrity.v
AsOf.v
Retention.v
RetentionMarks.v
RetentionPurge.v
Clock.v
TxWrites.v
Heap.v
Chain.v
Supersession.v
Resolver.v
Effective.v
Funnel.v
Pinned.v
Cascade.v
CascadeReads.v
Compaction.v
CompactionReads.v
LowestPin.v
MemRows.v
MemStore.v
MemHistory.v
MemPurge.v
MemInv.v
MemStoreOk.v
MemSteps.v
MemPurgeOk.v
MemDoors.v
MemReads.v
MemoryStore.v
BitPack.v
IntCol.v
SegFormat.v
