(* ===== verification/Prelude.v ===== *)
(** * A verification development of rho-tkg, a bitemporal knowledge graph

    rho-tkg keeps every node and relationship as a chain of versions, each with
    a valid interval (when the fact held in the world) and transaction stamps
    (when the graph recorded, superseded or deleted it).  A read names a valid
    instant or window and a transaction pin; the answer must be what the graph
    believed at the pin.  This library models the part of the program that
    decides such reads and the stamps they rely on, translated from the Go
    sources, and proves it correct.

    ** Files, and the code they model

    - [Prelude]: int64 arithmetic, stable sorting by a comparator, binary
      search, key orders; shared lemmas, the [tkg] hint database and tactics.
    - [Bytes]: byte strings, big-endian integers and the order of strings.
    - [ValidTime] (pkg/types/temporal.go, valid_axis.go, storeutil/
      temporal_filter.go, store/opts.go): [TemporalMetadata], the legacy and the
      literal valid axis, the effective start of a row and the predicates a
      store evaluates.
    - [Allen] (pkg/types/allen.go): the thirteen interval relations, sets of
      them as uint16 masks, the composition table that [init] builds.
    - [Hash32] (pkg/internal/hash32): 32-byte hashes and their hex strings.
    - [Registry] (internal/registry): the label, relationship-type and
      property-key registries that give names 16-bit tokens, and concurrent
      callers of [GetOrCreate] as a step relation.
    - [Locks] (internal/locks): shards, stripes, the ordered lock calls, and
      threads that interleave them.
    - [Keys] (storeutil/keys.go, temporal_index_key.go, property_index_key.go,
      entity_index_key.go, unique_owner_key.go, badger/badgerstore_entity_
      index.go, badgerstore_flush_staged.go): the byte layout of every key of the
      disk store, and the equality walk over persisted index entries.
    - [Pages] (storeutil/pagination.go): keyset pagination.
    - [Props] (pkg/types/propertyslice.go, temporal_value.go, shadow.go,
      property_registry.go): property values, their validation,
      canonicalisation and copies, and the key-sorted property slice.
    - [ValueKeys] (pkg/types/propertyslice.go): the index key of a scalar and of
      a list's elements, and the equality of compare-and-set.
    - [Floats], [NumEqual] (pkg/types/property_equal.go): floats as integers of
      one unit, so that rounding is exact arithmetic; the equality and the order
      of numbers across widths and the keys of all equal forms.
    - [Fenwick], [SortedChunks], [ChunkCounts] (internal/index/sorted_chunks.go):
      the chunked sorted set, its counted mode and the tree of chunk totals.
    - [Postings] (internal/index/sorted_postings.go, id_set.go): posting lists,
      unions of them read in batches, builds, ID sets.
    - [PropertyIndex], [OrderedPages] (internal/index/property_index*.go): one
      property index with its ordered views, range counts and ordered pages.
    - [NodeIndexes] (property_index.go, rel_property_index.go,
      property_index_equal_count.go): the indexes of a store told of its nodes
      and relationships, and equality lookups through them.
    - [IndexPurge] (property_index.go, property_index_value_stats.go): taking a
      lost entity out of every index, and the statistics of value keys.
    - [CompositeIndex] (internal/index/composite_property_index.go): indexes over
      tuples of properties and the lookups of queries by several.
    - [OrderedMerge] (internal/index/ordered_merge.go): the merge of the ordered
      walks of a composite store's parts.
    - [TemporalIndex] (internal/index/temporal_index.go): the envelope index and
      its lazily built, pruned stabbing tree.
    - [Integrity] (internal/integrity, pkg/types/property_hash.go): the byte
      string a row's content hash is taken of.
    - [Rows] (pkg/types/node.go, relationship.go, compact.go, integrity.go):
      nodes and relationships with their metadata and compact form.  The class
      [EntityRow] is the interface the chain code uses (TemporalRow of the
      source), with its laws in [EntityRowOK]; both row types are instances.
    - [AsOf] (storeutil/asof_select.go): the row an as-of read answers.
    - [Clock] (core/context.go, instant_floor.go): the lock-free transaction
      clock, as a sequential function and as a step relation over threads, where
      the load, the swap and the store of the exhausted mark are separate steps.
    - [TxWrites] (core/temporal.go, tx_order.go, version_alloc.go): the stamps a
      write sets, the checks of caller-given instants, version allocation.
    - [Heap] (core/effective_timeline.go, effHeap): the binary heap of the
      sweep.
    - [Chain] (core/chain_resolver.go, temporal.go): write order, the
      transaction-time filter, lives and retractions, bounds, resolver order.
    - [Supersession] (core/chain_supersession.go): where a newer write ends an
      older belief, by a monotone stack with galloping searches.
    - [Resolver] (core/temporal.go): the point resolver and its two arms.
    - [Effective] (core/effective_timeline.go): the sweep that computes the
      whole effective timeline of an entity at a pin.
    - [Funnel] (core/chain_resolver.go): the doors over a chain (point, any
      version, interval, Allen relation, as-of), the void mask of excised spans.

    - [Cascade], [CascadeReads] (core/temporal_cascade.go, cascade_meta.go,
      excise.go, interval_withtx.go): bounded corrections and excisions, the
      rows they append, and what reads see after them.
    - [Compaction], [CompactionReads] (core/compaction.go, integrity.go,
      store/memory/memorystore_compaction.go): the trim of old history behind a
      sealed stub, its plan, its chunked run and gates, and what reads see after
      it.
    - [Pinned]: the chain code together with the write stamps: reads at a
      transaction pin are repeatable under later writes.
    - [Retention], [RetentionMarks], [RetentionPurge] (core/retention.go,
      retention_rel.go, retention_purge.go, retention_purge_rel.go): the
      watermarks of retention purges, the gates of the read doors, the purge doors
      with their chunked loop and replay, and a graph that purges, reopens, resets
      and imports as a step relation.  The store's chunk and its record for
      replicas are arguments.
    - [LowestPin] (core/lowest_answered_pin.go): the lowest pin an entity's point
      reads answer at, over the gates of [Compaction] and [Retention].

    - [AdjSets], [MemRows], [MemStore], [MemHistory], [MemPurge] (store/memory,
      store/invariants.go): the in-memory store: adjacency sets, its state, the
      writes of current rows, the version history with the ex-adjacency, and the
      chunks of retention purges.  [MemInv], [MemStoreOk], [MemSteps],
      [MemPurgeOk], [MemDoors] carry the invariant through them, [MemReads] the
      adjacency reads, and [MemoryStore] joins the doors into a step relation and
      states what the store's users rely on.

    - [BitPack], [IntCol], [SegFormat] (internal/segment/bitpack.go, intcol.go,
      format.go): the column-segment codec: bit packing, integer columns with
      their page transforms, header, footer and section directory.

    The node and relationship functions of the core are textual mirrors; each
    pair is one definition over [EntityRow], and the relationship names are its
    instances.

    ** What the theorems show

    Reads: a point read at a pin is repeatable under later writes, a delete that
    clamps a scheduled close or falls on a recorded close excepted; the sweep, the
    point resolver and the supersession walk are each proved equal to a declarative
    rule (the newest belief covering the instant wins, on the positional arm the
    latest position; a void winner means absent), the sweep refines the point door
    at every instant, and the interval door and void mask are characterised exactly.
    Writes: transaction instants below the clock's ceiling are unique under every
    interleaving, and the ceiling is answered again once it was handed out; delete
    instants are clear of closes; tombstones rewind exactly, but for a clamped close,
    which they open; as-of answers do not depend on later writes; versions and stamps
    of re-imports continue the chain.  Data: the Allen table is sound and tight, hash strings round-trip,
    compact rows answer like the rows they were made from, labels stay a set, a
    property slice is a finite map, registries keep names and tokens in
    bijection under concurrent callers.  Locks: ordered lock calls never
    deadlock; the lock order of [GetOrCreateByKey] can.  Corrections change the
    belief inside their interval and nowhere else, by the resolver's reference rule
    (a run shows the positional arm leave it), and leave earlier pins as they were;
    compaction keeps hash links, protected tags and, where it trims no tombstone,
    every as-of answer its gates let through (a run shows a trimmed tombstone bring
    an entity back).
    Retention: the gates of scans and points refuse the reads they guard below a
    purge's boundary, in every state reached with failures and cancellations
    anywhere, and refuse nothing else from the epoch on; watermarks survive export and import; the lowest answered
    pin is exact.
    Memory store: every reached store is in order (rows, indexes, adjacency,
    ordinals, history found from both ends), a write that fails changes nothing,
    adjacency reads and degrees are exact, versions read back, and a purge removes
    exactly what qualifies.
    Segments: packing, columns, header and footer round-trip, and what the
    parsers accept is in bounds, so damaged or hostile bytes fail closed.
    Keys: distinct records have distinct store keys, and a prefix scan meets
    exactly its records; pages compose to the whole listing.
    Indexes: chunked sets refine sorted lists, counted ones multisets; a
    property index refines a map from entities to value keys, its pages, counts
    (by the float64 a value rounds to; two gaps of the guard against imprecise
    integers are shown on runs) and lookups are exact; a composite index that is
    complete answers like a scan (one asked while it is built does not, shown on a
    run); the ordered merge hands out every row in order; the temporal index refines
    a map of envelopes and misses no candidate.
    Values: the keys of a number are those of the stored numbers of its exact
    value, in every width.  Hashes: equal hashed strings mean equal contents but
    for the ambiguity shown.

    ** Conventions

    Instants are [Z]; where the source's int64 arithmetic can wrap, the wrap is
    written out ([i64]).  The wall clock is a function from the number of the
    reading to its value.  A pointer used as a map key or compared ([lifeEnds],
    [origin], the merge of pieces) is modelled by row equality; a row carries an
    address ([addr]) that a copy changes, as a fresh allocation would.
    Floats are their bits, and their values integers of 2^-1074; the shortest
    decimal rendering and its parser (strconv) are arguments with the hypotheses
    that parsing undoes rendering.  Counts of indexes are unbounded.
    Sorting is stable; where the source sorts unstably the ties are equal or
    indistinguishable, except equal-instant deletes in [dropRetractedLives],
    where the model keeps the chain's order.

    Loops are structural, or carry fuel that is an upper bound of their rounds:
    [search_loop] the length of the range, [gallop] the start index, [sift_up]
    and [sift_down] the heap's length, [pop_ended] the heap's length,
    [clear_loop] one more than the number of rows, [flush_loop] and [tail_loop]
    the eight bytes of a word, [blank_loop] the length of the name,
    [compact_chunks] the number of entities, [fillSubMax] and [stabAt] the
    length of the range, [prefix_loop] and [fenAdd_loop] the length of the tree,
    [chunk_up] and [append_loop] the number of keys, [union_loop] one more than
    the number of IDs, [digits] the 20 digits of a uint64, [merge_loop] one more than
    the number of rows; the theorems about them hold for the fuel the definitions
    pass, so none is vacuous when fuel runs out.  [purge_chunks] takes its fuel as an
    argument: one round per 256 purgeable nodes, and at least one, suffices.

    ** Not modelled

    The segment reader, writer and string columns; the whole-axis mode of the
    cascade and the plans that avoid the history read; the badger, tiered and
    sharded stores with their wire formats; of the in-memory store the batched
    create of nodes, its temporal, high-frequency and vector indexes, planner
    statistics, change log, lazily built sidecars, declared bulk types and scans by
    label, type and time (the configuration modelled has none of these); vector,
    document-value and statistics indexes; the orchestration of writes and
    transactions by the core, events, import and export but for the watermarks,
    unique constraints beyond their locks and the release of owned values; the caches
    and pages over effective timelines; equality of lists, maps and structs, calendar
    granularity, and the read doors that only fetch chains from a store.  SHA-256,
    the registered property types and the Snowflake bit layout of IDs are arguments
    or classes ([Layout]).  Nil pointers are not modelled. *)

From stdpp Require Export base list numbers strings sets sorting relations.
From Stdlib Require Export ZArith Lia Sorting.Sorted Sorting.Permutation.

Create HintDb tkg.

Declare Scope tkg_scope.
Delimit Scope tkg_scope with tkg.
#[global] Open Scope Z_scope.
#[global] Arguments Nat.div : simpl never.
#[global] Arguments Nat.modulo : simpl never.

(** ** Machine integers

    Go integers of a fixed width are [Z] with the wrap-around written out.
    [u64 z] and [i64 z] are the conversions to [uint64] and [int64]; on both
    sides addition and subtraction wrap modulo [2^64]. *)

Definition MinInt64 : Z := - 2 ^ 63.

Definition MaxInt64 : Z := 2 ^ 63 - 1.

Definition u64 (z : Z) : Z := z mod 2 ^ 64.

Definition i64 (z : Z) : Z := (z + 2 ^ 63) mod 2 ^ 64 - 2 ^ 63.

Definition in_i64 (z : Z) : Prop := MinInt64 <= z <= MaxInt64.

Notation "x +i64 y" := (i64 (x + y)) (at level 50, left associativity) : tkg_scope.
Notation "x -i64 y" := (i64 (x - y)) (at level 50, left associativity) : tkg_scope.

Lemma i64_range z : in_i64 (i64 z).
Proof. unfold in_i64, i64, MinInt64, MaxInt64. pose proof (Z.mod_pos_bound (z + 2 ^ 63) (2 ^ 64)). lia. Qed.

Lemma i64_id z : in_i64 z -> i64 z = z.
Proof.
  unfold in_i64, i64, MinInt64, MaxInt64. intros.
  rewrite Z.mod_small; lia.
Qed.

Lemma u64_range z : 0 <= u64 z < 2 ^ 64.
Proof. unfold u64. apply Z.mod_pos_bound. lia. Qed.

(** [int64(uint64(z))] and the congruence that makes wrapping arithmetic
    associative: two integers with the same residue have the same [int64]. *)
Lemma i64_congr x y : x mod 2 ^ 64 = y mod 2 ^ 64 -> i64 x = i64 y.
Proof.
  intros H. unfold i64. f_equal.
  rewrite (Z.add_mod x), (Z.add_mod y), H by lia. done.
Qed.

Lemma i64_mod z : i64 z mod 2 ^ 64 = z mod 2 ^ 64.
Proof.
  unfold i64. rewrite Zminus_mod, Z.mod_mod by lia.
  rewrite <- Zminus_mod. f_equal. lia.
Qed.

Lemma i64_u64 z : i64 (u64 z) = i64 z.
Proof. apply i64_congr. unfold u64. by rewrite Z.mod_mod by lia. Qed.

Lemma i64_add_l x y : i64 (i64 x + y) = i64 (x + y).
Proof.
  apply i64_congr.
  rewrite (Z.add_mod (i64 x)), i64_mod, <- Z.add_mod by lia. done.
Qed.

Lemma i64_add_r x y : i64 (x + i64 y) = i64 (x + y).
Proof. by rewrite Z.add_comm, i64_add_l, Z.add_comm. Qed.

(** ** Sorting

    [sort_by lt] models [slices.SortStableFunc] and [sort.SliceStable]: a
    stable sort by the strict order [lt].  Where the source calls the unstable
    [slices.SortFunc], rows that compare equal are either equal or compared
    further by position, so the order of ties is not observable. *)

Fixpoint insert_by {A} (lt : A -> A -> bool) (x : A) (l : list A) : list A :=
  match l with
  | [] => [x]
  | y :: l' => if lt y x then y :: insert_by lt x l' else x :: l
  end.

Fixpoint sort_by {A} (lt : A -> A -> bool) (l : list A) : list A :=
  match l with
  | [] => []
  | x :: l' => insert_by lt x (sort_by lt l')
  end.

(** [slices.IsSortedFunc]: no element is below its predecessor. *)
Fixpoint is_sorted_by {A} (lt : A -> A -> bool) (l : list A) : bool :=
  match l with
  | x :: ((y :: _) as l') => negb (lt y x) && is_sorted_by lt l'
  | _ => true
  end.

(** [slices.Compact]: drop the later ones of equal neighbours. *)
Fixpoint compact_list (l : list Z) : list Z :=
  match l with
  | x :: ((y :: _) as l') => if x =? y then compact_list l' else x :: compact_list l'
  | _ => l
  end.

(** What a comparator must satisfy for a sort to be specified. *)
Class StrictWeak {A} (lt : A -> A -> bool) : Prop := {
  sw_irrefl : forall x, lt x x = false;
  sw_trans : forall x y z, lt x y = true -> lt y z = true -> lt x z = true;
  sw_incomp : forall x y z, lt x y = true -> lt z y = true \/ lt x z = true;
}.

(** The order a sorted list has: nothing later is below anything earlier. *)
Definition ordered_by {A} (lt : A -> A -> bool) : list A -> Prop :=
  StronglySorted (fun x y => lt y x = false).

Section Sorting.
Context {A : Type} (lt : A -> A -> bool).

Lemma insert_by_perm x l : insert_by lt x l ≡ₚ x :: l.
Proof.
  induction l as [|y l IH]; simpl; [done|].
  destruct (lt y x); [|done]. rewrite IH. constructor.
Qed.

Lemma sort_by_perm l : sort_by lt l ≡ₚ l.
Proof. induction l as [|x l IH]; simpl; [done|]. by rewrite insert_by_perm, IH. Qed.

Lemma elem_of_sort_by x l : x ∈ sort_by lt l <-> x ∈ l.
Proof. by rewrite sort_by_perm. Qed.

Lemma length_sort_by l : length (sort_by lt l) = length l.
Proof. by rewrite sort_by_perm. Qed.

Context `{!StrictWeak lt}.

Lemma sw_asym x y : lt x y = true -> lt y x = false.
Proof.
  intros H. destruct (lt y x) eqn:E; [|done].
  pose proof (sw_trans _ _ _ H E) as C. by rewrite sw_irrefl in C.
Qed.

(** Incomparability is transitive, in the form the sort proofs use it. *)
Lemma sw_le_trans x y z : lt y x = false -> lt z y = false -> lt z x = false.
Proof.
  intros H1 H2. destruct (lt z x) eqn:E; [|done].
  destruct (sw_incomp _ _ y E) as [H|H]; congruence.
Qed.

Lemma ordered_insert x l : ordered_by lt l -> ordered_by lt (insert_by lt x l).
Proof.
  unfold ordered_by. induction l as [|y l IH]; intros Hs; simpl; [repeat constructor|].
  apply StronglySorted_inv in Hs as [Hs Hy].
  destruct (lt y x) eqn:E.
  - constructor; [by apply IH|].
    rewrite insert_by_perm. constructor; [by apply sw_asym|done].
  - constructor; [by constructor|]. constructor; [done|].
    eapply Forall_impl; [exact Hy|]. simpl. intros z Hz. by apply (sw_le_trans x y z).
Qed.

Lemma sort_by_ordered l : ordered_by lt (sort_by lt l).
Proof. induction l; simpl; [constructor|]. by apply ordered_insert. Qed.

(** A sorted list is left as it is: the guarded sorts of the source
    ([if !IsSorted ... Sort]) are the unguarded sort. *)
Lemma is_sorted_by_ordered l : is_sorted_by lt l = true <-> ordered_by lt l.
Proof.
  unfold ordered_by. split.
  - induction l as [|x [|y l] IH]; simpl; intros H; [repeat constructor..|].
    apply andb_prop in H as [H1%negb_true_iff H2]. specialize (IH H2).
    constructor; [done|]. constructor; [done|].
    apply StronglySorted_inv in IH as [_ IH].
    eapply Forall_impl; [exact IH|]. simpl. intros z Hz. by apply (sw_le_trans x y z).
  - induction 1 as [|x l Hs IH Hf]; [done|]. destruct l as [|y l]; [done|].
    change (negb (lt y x) && is_sorted_by lt (y :: l) = true).
    apply Forall_cons in Hf as [-> _]. by rewrite IH.
Qed.

Lemma insert_by_le x l : Forall (fun y => lt y x = false) l -> insert_by lt x l = x :: l.
Proof. destruct 1 as [|y l Hy _]; simpl; [done|]. by rewrite Hy. Qed.

Lemma sort_by_id l : ordered_by lt l -> sort_by lt l = l.
Proof.
  induction 1 as [|x l _ IH Hf]; simpl; [done|].
  rewrite IH. by apply insert_by_le.
Qed.

(** Stability, as commutation with filtering. *)
Lemma filter_insert_by (P : A -> Prop) `{!forall x, Decision (P x)} x l :
  ordered_by lt l ->
  filter P (insert_by lt x l) =
    if decide (P x) then insert_by lt x (filter P l) else filter P l.
Proof.
  induction 1 as [|y l Hs IH Hf]; simpl.
  - rewrite filter_cons. by case_decide.
  - rewrite (filter_cons P y l). destruct (lt y x) eqn:E.
    + rewrite filter_cons, IH. repeat case_decide; simpl; rewrite ?E; done.
    + rewrite !filter_cons. repeat case_decide; simpl; rewrite ?E; try done.
      symmetry. apply insert_by_le, Forall_forall.
      intros z Hz. apply list_elem_of_filter in Hz as [_ Hz].
      rewrite Forall_forall in Hf. specialize (Hf z).
      apply (sw_le_trans x y z); auto.
Qed.
End Sorting.

Lemma sort_by_filter {A} (lt : A -> A -> bool) `{!StrictWeak lt}
    (P : A -> Prop) `{!forall x, Decision (P x)} l :
  filter P (sort_by lt l) = sort_by lt (filter P l).
Proof.
  induction l as [|x l IH]; simpl; [done|].
  rewrite filter_insert_by by (try apply _; by apply sort_by_ordered).
  rewrite filter_cons, IH. by case_decide.
Qed.

Lemma sort_by_map {A B} (f : A -> B) (lt : B -> B -> bool) l :
  map f (sort_by (fun x y => lt (f x) (f y)) l) = sort_by lt (map f l).
Proof.
  assert (forall x k, map f (insert_by (fun x y => lt (f x) (f y)) x k)
                      = insert_by lt (f x) (map f k)) as Hi.
  { intros x k. induction k as [|y k IH]; simpl; [done|].
    destruct (lt (f y) (f x)); simpl; by rewrite ?IH. }
  induction l as [|x l IH]; simpl; [done|]. by rewrite Hi, IH.
Qed.

(** Only the order of the elements that occur matters. *)
Lemma insert_by_ext {A} (lt1 lt2 : A -> A -> bool) x l :
  (forall y, y ∈ l -> lt1 y x = lt2 y x) -> insert_by lt1 x l = insert_by lt2 x l.
Proof.
  induction l as [|y l IH]; intros H; simpl; [done|].
  rewrite (H y) by set_solver. destruct (lt2 y x); [|done].
  rewrite IH; [done|]. set_solver.
Qed.

Lemma sort_by_ext {A} (lt1 lt2 : A -> A -> bool) l :
  (forall x y, x ∈ l -> y ∈ l -> lt1 x y = lt2 x y) -> sort_by lt1 l = sort_by lt2 l.
Proof.
  induction l as [|x l IH]; intros H; simpl; [done|].
  rewrite IH by set_solver. apply insert_by_ext.
  intros y Hy. rewrite elem_of_sort_by in Hy. apply H; set_solver.
Qed.

(** Elements that sort before all others can be sorted apart. *)
Lemma sort_by_app {A} (lt : A -> A -> bool) l k :
  (forall x y, x ∈ l -> y ∈ k -> lt y x = true) -> sort_by lt (l ++ k) = sort_by lt k ++ sort_by lt l.
Proof.
  assert (forall x (u w : list A), (forall y, y ∈ u -> lt y x = true) ->
            insert_by lt x (u ++ w) = u ++ insert_by lt x w) as Hi.
  { intros x u w. induction u as [|y u IH]; intros Hu; simpl; [done|].
    rewrite (Hu y) by set_solver. rewrite IH; [done|]. set_solver. }
  induction l as [|x l IH]; intros H; simpl; [by rewrite app_nil_r|].
  rewrite IH by set_solver. rewrite Hi; [done|].
  intros y Hy. rewrite elem_of_sort_by in Hy. apply H; set_solver.
Qed.

(** Strongly sorted lists by index, split and extended at the end. *)
Lemma StronglySorted_nth {A} (R : A -> A -> Prop) (l : list A) d x y :
  StronglySorted R l -> (x < y < length l)%nat -> R (nth x l d) (nth y l d).
Proof.
  intros Hs. revert x y. induction Hs as [|z l _ IH Hf]; intros x y Hxy; simpl in Hxy; [lia|].
  destruct x as [|x], y as [|y]; [lia| |lia|apply IH; lia].
  rewrite Forall_forall in Hf. apply Hf, list_elem_of_In. simpl. apply nth_In. lia.
Qed.

Lemma StronglySorted_app_inv {A} (R : A -> A -> Prop) l1 l2 :
  StronglySorted R (l1 ++ l2) -> StronglySorted R l1 /\ StronglySorted R l2 /\
    forall x y, x ∈ l1 -> y ∈ l2 -> R x y.
Proof.
  induction l1 as [|z l1 IH]; simpl; intros Hs.
  - split_and!; [constructor|done|]. intros x y Hx. by apply not_elem_of_nil in Hx.
  - apply StronglySorted_inv in Hs as [Hs Hf]. destruct (IH Hs) as (H1 & H2 & H3).
    rewrite Forall_app in Hf. destruct Hf as [Hf1 Hf2]. split_and!; [by constructor|done|].
    intros x y Hx Hy. apply elem_of_cons in Hx as [->|Hx]; [|auto]. rewrite Forall_forall in Hf2. auto.
Qed.

Lemma StronglySorted_snoc {A} (R : A -> A -> Prop) l x :
  StronglySorted R l -> (forall y, y ∈ l -> R y x) -> StronglySorted R (l ++ [x]).
Proof.
  induction 1 as [|z l Hs IH Hf]; intros Hx; simpl; [repeat constructor|].
  constructor; [apply IH; intros; apply Hx; by right|].
  apply Forall_app. split; [done|]. constructor; [apply Hx; left|constructor].
Qed.

Lemma StronglySorted_rev {A} (R : A -> A -> Prop) l : StronglySorted R l -> StronglySorted (fun x y => R y x) (rev l).
Proof.
  induction 1 as [|x l _ IH Hf]; simpl; [constructor|]. apply StronglySorted_snoc; [done|].
  intros y Hy. rewrite Forall_forall in Hf. apply Hf. by rewrite list_elem_of_In, in_rev, <- list_elem_of_In.
Qed.

Lemma StronglySorted_weaken {A} (R R' : A -> A -> Prop) l : (forall x y, R x y -> R' x y) -> StronglySorted R l -> StronglySorted R' l.
Proof. intros Himp. induction 1 as [|x l Hl IH Hx]; constructor; [done|]. eapply Forall_impl; [exact Hx|]. apply Himp. Qed.

Lemma ordered_nth {A} (lt : A -> A -> bool) `{!StrictWeak lt} (l : list A) d x y :
  ordered_by lt l -> (x <= y < length l)%nat -> lt (nth y l d) (nth x l d) = false.
Proof.
  intros Ho Hxy. destruct (decide (x = y)) as [->|]; [apply sw_irrefl|].
  apply (StronglySorted_nth (fun u v => lt v u = false)); [done|lia].
Qed.

Lemma lookup_map_seq {A} (f : nat -> A) n i : (i < n)%nat -> map f (seq 0 n) !! i = Some (f i).
Proof. intros Hi. change (map f (seq 0 n)) with (f <$> seq 0 n). by rewrite list_lookup_fmap, lookup_seq_lt. Qed.

(** Boolean filters. *)
Lemma elem_of_Lfilter {A} (f : A -> bool) x l : x ∈ List.filter f l <-> x ∈ l /\ f x = true.
Proof. by rewrite !list_elem_of_In, filter_In. Qed.

Lemma Lfilter_none {A} (f : A -> bool) l : (forall x, x ∈ l -> f x = false) -> List.filter f l = [].
Proof.
  induction l as [|x l IH]; intros H; simpl; [done|].
  rewrite (H x) by left. apply IH. intros. apply H. by right.
Qed.

Lemma Lfilter_all {A} (f : A -> bool) l : (forall x, x ∈ l -> f x = true) -> List.filter f l = l.
Proof.
  induction l as [|x l IH]; intros H; simpl; [done|].
  rewrite (H x) by left. f_equal. apply IH. intros. apply H. by right.
Qed.

Lemma Lfilter_twice {A} (f g : A -> bool) l : List.filter f (List.filter g l) = List.filter (fun x => g x && f x) l.
Proof. induction l as [|x l IH]; [done|]. simpl. destruct (g x); simpl; [destruct (f x)|]; by rewrite IH. Qed.

(** A comparison by an integer key, and the lexicographic one by two keys. *)
Definition lt_key {A} (k : A -> Z) (x y : A) : bool := k x <? k y.

Definition lt_key2 {A} (k1 k2 : A -> Z) (x y : A) : bool :=
  if k1 x =? k1 y then k2 x <? k2 y else k1 x <? k1 y.

#[export] Instance lt_key_sw {A} (k : A -> Z) : StrictWeak (lt_key k).
Proof. unfold lt_key. split; intros; lia. Qed.

#[export] Instance lt_key2_sw {A} (k1 k2 : A -> Z) : StrictWeak (lt_key2 k1 k2).
Proof.
  unfold lt_key2. split; intros;
    repeat match goal with H : context [if ?b then _ else _] |- _ => destruct b eqn:? | |- context [if ?b then _ else _] => destruct b eqn:? end; lia.
Qed.

(** Sorting integers: strictly ascending once the duplicates are dropped. *)
Lemma compact_list_elem x l : x ∈ compact_list l <-> x ∈ l.
Proof.
  induction l as [|y [|z l] IH]; simpl; [done..|].
  destruct (Z.eqb_spec y z) as [->|]; rewrite ?elem_of_cons, IH, ?elem_of_cons; tauto.
Qed.

Lemma compact_list_sorted l :
  ordered_by Z.ltb l -> StronglySorted Z.lt (compact_list l).
Proof.
  induction 1 as [|x l Hs IH Hf]; [constructor|].
  destruct l as [|y l]; [repeat constructor|].
  change (StronglySorted Z.lt (if x =? y then compact_list (y :: l) else x :: compact_list (y :: l))).
  destruct (Z.eqb_spec x y); [done|]. constructor; [done|].
  apply Forall_forall. intros z Hz. rewrite compact_list_elem in Hz.
  apply StronglySorted_inv in Hs as [_ Hs].
  rewrite Forall_cons in Hf. destruct Hf as [Hxy Hf].
  apply elem_of_cons in Hz as [->|Hz]; [lia|].
  rewrite Forall_forall in Hs. specialize (Hs z Hz). lia.
Qed.

#[export] Instance Zltb_sw : StrictWeak Z.ltb.
Proof. split; intros; lia. Qed.

Lemma sort_Z_strict (l : list Z) : NoDup l -> StronglySorted Z.lt (sort_by Z.ltb l).
Proof.
  intros Hnd. pose proof (sort_by_ordered Z.ltb l) as Ho. rewrite <- (sort_by_perm Z.ltb l) in Hnd.
  induction Ho as [|x l' _ IH Hx]; [constructor|]. apply NoDup_cons in Hnd as [Hn Hnd]. constructor; [by apply IH|].
  rewrite Forall_forall in Hx |- *. intros y Hy. specialize (Hx y Hy). assert (x <> y) by (by intros ->). lia.
Qed.

(** ** Binary search

    [search_loop] is the loop of [sort.Search] over the half-open index range
    [i, j): the first index at which the monotone [f] holds.  Its fuel is the
    length of the range, which every iteration shortens. *)

Fixpoint search_loop (fuel : nat) (f : nat -> bool) (i j : nat) : nat :=
  match fuel with
  | O => i
  | S fuel' =>
      if (i <? j)%nat then
        let h := ((i + j) / 2)%nat in
        if f h then search_loop fuel' f i h else search_loop fuel' f (S h) j
      else i
  end.

Definition Search (n : nat) (f : nat -> bool) : nat := search_loop n f 0 n.

Lemma search_loop_spec fuel f i j :
  (i <= j)%nat -> (j - i <= fuel)%nat ->
  (forall a b, (i <= a <= b)%nat -> (b < j)%nat -> f a = true -> f b = true) ->
  let r := search_loop fuel f i j in
  (i <= r <= j)%nat /\ (forall k, (i <= k < r)%nat -> f k = false) /\
  (forall k, (r <= k < j)%nat -> f k = true).
Proof.
  revert i j. induction fuel as [|fuel IH]; intros i j Hij Hfuel Hmono;
    cbn [search_loop]; cbv zeta.
  - repeat split; intros; lia.
  - destruct (Nat.ltb_spec i j) as [Hlt|]; [|repeat split; intros; lia].
    pose proof (Nat.div_mod_eq (i + j) 2). pose proof (Nat.mod_upper_bound (i + j) 2).
    set (h := ((i + j) / 2)%nat) in *. assert (i <= h < j)%nat by lia.
    destruct (f h) eqn:E.
    + destruct (IH i h) as (Ha & Hb & Hc); [lia..|intros; eapply Hmono; eauto; lia|].
      split; [lia|]. split; [done|]. intros k Hk.
      destruct (Nat.lt_ge_cases k h); [apply Hc; lia|]. apply (Hmono h k); auto; lia.
    + destruct (IH (S h) j) as (Ha & Hb & Hc); [lia..|intros; eapply Hmono; eauto; lia|].
      split; [lia|]. split; [|done]. intros k Hk.
      destruct (Nat.lt_ge_cases h k); [apply Hb; lia|].
      destruct (f k) eqn:Ek; [|done]. rewrite (Hmono k h) in E; [done|lia|lia|done].
Qed.

Lemma Search_spec n f :
  (forall a b, (a <= b)%nat -> (b < n)%nat -> f a = true -> f b = true) ->
  let r := Search n f in
  (r <= n)%nat /\ (forall k, (k < r)%nat -> f k = false) /\
  (forall k, (r <= k < n)%nat -> f k = true).
Proof.
  intros H. destruct (search_loop_spec n f 0 n) as (Ha & Hb & Hc); [lia..|intros a b ? ? Hf; apply (H a b); [lia|lia|exact Hf]|].
  unfold Search. split; [lia|]. split; intros k Hk; [apply Hb|apply Hc]; lia.
Qed.

Lemma search_loop_le fuel f : forall i j, (i <= j)%nat -> (search_loop fuel f i j <= j)%nat.
Proof.
  induction fuel as [|fuel IH]; intros i j Hij; cbn [search_loop]; [done|]. destruct (Nat.ltb_spec i j) as [Hlt|]; [|done].
  pose proof (Nat.div_mod_eq (i + j) 2). pose proof (Nat.mod_upper_bound (i + j) 2). cbv zeta. set (h := ((i + j) / 2)%nat) in *.
  destruct (f h); [specialize (IH i h)|specialize (IH (S h) j)]; lia.
Qed.

Lemma Search_le n f : (Search n f <= n)%nat.
Proof. apply search_loop_le. lia. Qed.

(** ** Bytes

    A byte is a [Z] in [0, 256); a Go string or [[]byte] is the list of its
    bytes. *)

Definition bytes := list Z.

Definition is_byte (b : Z) : Prop := 0 <= b < 256.

(** Bit fields that do not overlap: [|] is [+]. *)
Lemma land_shiftl_small hi lo k : 0 <= k -> 0 <= lo < 2 ^ k -> Z.land (Z.shiftl hi k) lo = 0.
Proof.
  intros Hk Hlo. apply Z.bits_inj'. intros n Hn. rewrite Z.land_spec, Z.bits_0.
  destruct (Z.lt_ge_cases n k); [by rewrite Z.shiftl_spec_low|].
  rewrite <- (Z.mod_small lo (2 ^ k)), Z.mod_pow2_bits_high, andb_false_r by lia. done.
Qed.

Lemma lor_shiftl_add hi lo k :
  0 <= k -> 0 <= lo < 2 ^ k -> Z.lor (Z.shiftl hi k) lo = hi * 2 ^ k + lo.
Proof.
  intros Hk Hlo. pose proof (Z.add_lor_land (Z.shiftl hi k) lo) as H.
  rewrite land_shiftl_small, Z.shiftl_mul_pow2 in * by lia. lia.
Qed.

(** The bytes of a string literal. *)
Fixpoint bytes_of_string (s : string) : bytes :=
  match s with
  | EmptyString => []
  | String c s' => Z.of_N (Ascii.N_of_ascii c) :: bytes_of_string s'
  end.

(** Prove [Forall P l] of a literal list element by element. *)
Ltac forall_literal tac := repeat (apply Forall_cons_2; [tac|]); apply Forall_nil_2.

#[export] Hint Resolve i64_range u64_range sort_by_perm sort_by_ordered : tkg.
#[export] Hint Rewrite @length_sort_by i64_u64 i64_add_l i64_add_r : tkg.
