(* ===== verification/Bytes.v ===== *)
(** * Byte strings: big-endian integers and the order of strings

    What the key encodings, the registries, the hash preimages and the property
    slice share: [encoding/binary]'s big-endian integers and Go's [<] on strings
    (the order of [bytes.Compare] and of the key-value store). *)

From S2P Require Import Prelude.

(** ** Big-endian integers *)

(** [BigEndian.PutUint16/32/64]: the low [n] bytes of [z]. *)
Fixpoint be_bytes (n : nat) (z : Z) : bytes :=
  match n with O => [] | S n' => be_bytes n' (z / 256) ++ [z mod 256] end.

(** [BigEndian.Uint16/32/64]: the number the bytes spell. *)
Definition be_int (v : bytes) : Z := fold_left (fun acc b => acc * 256 + b) v 0.

Lemma length_be_bytes n z : length (be_bytes n z) = n.
Proof. revert z. induction n as [|n IH]; intros z; [done|]. simpl. rewrite length_app, IH. simpl. lia. Qed.

Lemma be_bytes_inj n x y : 0 <= x < 256 ^ Z.of_nat n -> 0 <= y < 256 ^ Z.of_nat n -> be_bytes n x = be_bytes n y -> x = y.
Proof.
  revert x y. induction n as [|n IH]; intros x y Hx Hy; [simpl in *; lia|].
  rewrite Nat2Z.inj_succ, Z.pow_succ_r in Hx, Hy by lia. cbn [be_bytes]. intros [E1 E2]%app_inj_tail.
  assert (x / 256 = y / 256).
  { apply IH; [| |done]; (split; [apply Z.div_pos; lia|apply Z.div_lt_upper_bound; lia]). }
  rewrite (Z.div_mod x 256), (Z.div_mod y 256) by lia. congruence.
Qed.

Lemma app_inj_len {A} (a b c d : list A) : length a = length c -> a ++ b = c ++ d -> a = c /\ b = d.
Proof. intros Hl E. by apply app_inj_1 in E. Qed.

Lemma u64_inj x y : in_i64 x -> in_i64 y -> u64 x = u64 y -> x = y.
Proof. intros Hx Hy E. rewrite <- (i64_id x), <- (i64_id y) by done. by apply i64_congr. Qed.

Lemma be_bytes_byte n z : Forall is_byte (be_bytes n z).
Proof.
  revert z. induction n as [|n IH]; intros z; [constructor|]. cbn [be_bytes]. apply Forall_app. split; [apply IH|].
  constructor; [|constructor]. unfold is_byte. pose proof (Z.mod_pos_bound z 256). lia.
Qed.

Lemma be_int_snoc l b : be_int (l ++ [b]) = be_int l * 256 + b.
Proof. unfold be_int. by rewrite fold_left_app. Qed.

Lemma be_int_app a b : be_int (a ++ b) = be_int a * 256 ^ Z.of_nat (length b) + be_int b.
Proof.
  induction b as [|x b IH] using rev_ind; [rewrite app_nil_r; cbn; lia|].
  rewrite app_assoc, !be_int_snoc, IH, length_app. cbn [length]. rewrite Nat2Z.inj_add, Z.pow_add_r by lia. lia.
Qed.

Lemma be_int_range l : Forall is_byte l -> 0 <= be_int l < 256 ^ Z.of_nat (length l).
Proof.
  induction l as [|x l IH] using rev_ind; intros Hb; [cbn; lia|]. apply Forall_app in Hb as [Hl Hx].
  rewrite Forall_singleton in Hx. unfold is_byte in Hx. specialize (IH Hl).
  rewrite be_int_snoc, length_app, Nat2Z.inj_add, Z.pow_add_r by lia. cbn [length]. change (256 ^ Z.of_nat 1) with 256. lia.
Qed.

Lemma be_int_bytes n z : 0 <= z < 256 ^ Z.of_nat n -> be_int (be_bytes n z) = z.
Proof.
  revert z. induction n as [|n IH]; intros z Hz; [cbn in *; lia|]. cbn [be_bytes].
  rewrite Nat2Z.inj_succ, Z.pow_succ_r in Hz by lia.
  rewrite be_int_snoc, IH by (split; [apply Z.div_pos; lia|apply Z.div_lt_upper_bound; lia]).
  rewrite (Z.div_mod z 256) at 3 by lia. lia.
Qed.

Lemma be_bytes_int l : Forall is_byte l -> be_bytes (length l) (be_int l) = l.
Proof.
  induction l as [|x l IH] using rev_ind; intros Hb; [done|]. apply Forall_app in Hb as [Hl Hx].
  rewrite Forall_singleton in Hx. unfold is_byte in Hx. rewrite length_app, Nat.add_1_r, be_int_snoc. cbn [be_bytes].
  rewrite Z.div_add_l, Z.div_small, Z.add_0_r, IH by (done || lia). rewrite Z.add_comm, Z.mod_add, Z.mod_small by lia. done.
Qed.

(** ** The order of strings *)

(** Go's [<] on strings. *)
Fixpoint str_lt (a b : bytes) : bool :=
  match a, b with
  | _, [] => false
  | [], _ :: _ => true
  | x :: a', y :: b' => if x =? y then str_lt a' b' else x <? y
  end.

Lemma str_lt_irrefl a : str_lt a a = false.
Proof. induction a as [|x a IH]; simpl; [done|]. by rewrite Z.eqb_refl. Qed.

Lemma str_lt_trans a b c : str_lt a b = true -> str_lt b c = true -> str_lt a c = true.
Proof.
  revert b c. induction a as [|x a IH]; intros [|y b] [|z c]; simpl; try done.
  destruct (Z.eqb_spec x y), (Z.eqb_spec y z), (Z.eqb_spec x z); try lia. apply IH.
Qed.

Lemma str_lt_total a b : str_lt a b = false -> a = b \/ str_lt b a = true.
Proof.
  revert b. induction a as [|x a IH]; intros [|y b]; simpl; try (by auto).
  destruct (Z.eqb_spec x y), (Z.eqb_spec y x); try lia.
  intros [->|]%IH; subst; auto.
Qed.

#[export] Instance str_lt_sw {A} (f : A -> bytes) : StrictWeak (fun x y => str_lt (f x) (f y)).
Proof.
  split; [intros; apply str_lt_irrefl|intros x y z; apply str_lt_trans|].
  intros x y z Hxy. destruct (str_lt (f z) (f y)) eqn:E; [by left|right].
  destruct (str_lt_total _ _ E) as [->|]; [done|]. by eapply str_lt_trans.
Qed.

Lemma str_lt_prefix p a b : str_lt (p ++ a) (p ++ b) = str_lt a b.
Proof. induction p as [|x p IH]; [done|]. simpl. by rewrite Z.eqb_refl. Qed.

(** Strings whose first parts have the same length. *)
Lemma str_lt_fixed a b r s :
  length a = length b -> str_lt (a ++ r) (b ++ s) = str_lt a b || (bool_decide (a = b) && str_lt r s).
Proof.
  revert b. induction a as [|x a IH]; intros [|y b] Hl; try done. cbn [app str_lt].
  destruct (Z.eqb_spec x y) as [->|Hne].
  - rewrite IH by (simpl in Hl; lia). f_equal. f_equal. apply bool_decide_ext. naive_solver.
  - rewrite (bool_decide_eq_false_2 (x :: a = y :: b)) by congruence. by rewrite orb_false_r.
Qed.

(** On strings of one length the order is that of the numbers they spell. *)
Lemma str_lt_be_int a b :
  Forall is_byte a -> Forall is_byte b -> length a = length b -> str_lt a b = (be_int a <? be_int b).
Proof.
  revert b. induction a as [|x a IH]; intros [|y b] Ha Hb Hl; try done. apply Forall_cons in Ha as [Hx Ha], Hb as [Hy Hb].
  cbn [str_lt]. change (x :: a) with ([x] ++ a). change (y :: b) with ([y] ++ b). rewrite !be_int_app.
  injection Hl as Hl. pose proof (be_int_range a Ha). pose proof (be_int_range b Hb). rewrite Hl in *.
  change (be_int [x]) with (0 * 256 + x). change (be_int [y]) with (0 * 256 + y).
  set (B := 256 ^ Z.of_nat (length b)) in *. destruct (Z.eqb_spec x y) as [->|Hne].
  - rewrite IH by done. destruct (Z.ltb_spec (be_int a) (be_int b)), (Z.ltb_spec ((0 * 256 + y) * B + be_int a) ((0 * 256 + y) * B + be_int b)); lia.
  - destruct (Z.ltb_spec x y), (Z.ltb_spec ((0 * 256 + x) * B + be_int a) ((0 * 256 + y) * B + be_int b)); try done; nia.
Qed.

Lemma str_lt_be n x y :
  0 <= x < 256 ^ Z.of_nat n -> 0 <= y < 256 ^ Z.of_nat n -> str_lt (be_bytes n x) (be_bytes n y) = (x <? y).
Proof.
  intros Hx Hy. rewrite str_lt_be_int by (apply be_bytes_byte || by rewrite !length_be_bytes). by rewrite !be_int_bytes.
Qed.
