(* ===== verification/ValidTime.v ===== *)
(** * Valid time and transaction time of one row

    The temporal metadata of a stored row ([types.TemporalMetadata]), the valid
    axis of a store ([types.ValidAxis]: how a stored bound reads as an
    instant) and the entity-level temporal predicates the stores push down
    ([storeutil/temporal_filter.go]), with the presence rules of
    [store.QueryOpts] they read. *)

From S2P Require Import Prelude.

(** An [Instant] is an int64 of Unix milliseconds. *)
Notation Instant := Z (only parsing).

Notation EntityID := Z (only parsing).

Definition UnboundedValidFrom : Instant := MinInt64.

Definition InfiniteValidTo : Instant := MaxInt64.

Record TemporalMetadata := mkTM {
  ValidFrom : Instant;
  ValidTo : Instant;
  TxFrom : Instant;
  TxTo : Instant;
  CreatedAt : Instant;
  UpdatedAt : Instant;
  DeletedAt : Instant;
  CreatedBy : string;
  UpdatedBy : string;
  baseEntityID : EntityID;
  Retracted : bool;
  Void : bool;
  DeleteKeptValidTo : bool;
}.

#[export] Instance TemporalMetadata_eq_dec : EqDecision TemporalMetadata.
Proof. solve_decision. Defined.

(** The zero value of the struct, and the field assignments the code makes on
    a private copy of a row's metadata. *)
Definition zeroTM : TemporalMetadata :=
  mkTM 0 0 0 0 0 0 0 "" "" 0 false false false.

Definition set_ValidFrom (v : Instant) (tm : TemporalMetadata) :=
  mkTM v (ValidTo tm) (TxFrom tm) (TxTo tm) (CreatedAt tm) (UpdatedAt tm) (DeletedAt tm)
    (CreatedBy tm) (UpdatedBy tm) (baseEntityID tm) (Retracted tm) (Void tm) (DeleteKeptValidTo tm).

Definition set_ValidTo (v : Instant) (tm : TemporalMetadata) :=
  mkTM (ValidFrom tm) v (TxFrom tm) (TxTo tm) (CreatedAt tm) (UpdatedAt tm) (DeletedAt tm)
    (CreatedBy tm) (UpdatedBy tm) (baseEntityID tm) (Retracted tm) (Void tm) (DeleteKeptValidTo tm).

Definition set_TxFrom (v : Instant) (tm : TemporalMetadata) :=
  mkTM (ValidFrom tm) (ValidTo tm) v (TxTo tm) (CreatedAt tm) (UpdatedAt tm) (DeletedAt tm)
    (CreatedBy tm) (UpdatedBy tm) (baseEntityID tm) (Retracted tm) (Void tm) (DeleteKeptValidTo tm).

Definition set_TxTo (v : Instant) (tm : TemporalMetadata) :=
  mkTM (ValidFrom tm) (ValidTo tm) (TxFrom tm) v (CreatedAt tm) (UpdatedAt tm) (DeletedAt tm)
    (CreatedBy tm) (UpdatedBy tm) (baseEntityID tm) (Retracted tm) (Void tm) (DeleteKeptValidTo tm).

Definition set_UpdatedAt (v : Instant) (tm : TemporalMetadata) :=
  mkTM (ValidFrom tm) (ValidTo tm) (TxFrom tm) (TxTo tm) (CreatedAt tm) v (DeletedAt tm)
    (CreatedBy tm) (UpdatedBy tm) (baseEntityID tm) (Retracted tm) (Void tm) (DeleteKeptValidTo tm).

(** The three assignments that end or rewind a delete. *)
Definition set_delete (at_ : Instant) (retracted kept : bool) (tm : TemporalMetadata) :=
  mkTM (ValidFrom tm) (ValidTo tm) (TxFrom tm) (TxTo tm) (CreatedAt tm) (UpdatedAt tm) at_
    (CreatedBy tm) (UpdatedBy tm) (baseEntityID tm) retracted (Void tm) kept.

Definition BaseEntityID (tm : option TemporalMetadata) : EntityID :=
  match tm with None => 0 | Some tm => baseEntityID tm end.

Definition SetBaseEntityID (id : EntityID) (tm : option TemporalMetadata) : option TemporalMetadata :=
  match tm with
  | None => None
  | Some tm =>
      Some (mkTM (ValidFrom tm) (ValidTo tm) (TxFrom tm) (TxTo tm) (CreatedAt tm) (UpdatedAt tm)
              (DeletedAt tm) (CreatedBy tm) (UpdatedBy tm) id (Retracted tm) (Void tm)
              (DeleteKeptValidTo tm))
  end.

(** [TemporalMetadata.UntimedValidFrom]: TxFrom, then UpdatedAt, then mint. *)
Definition UntimedValidFrom (tm : option TemporalMetadata) (mint : Instant) : Instant :=
  match tm with
  | Some tm =>
      if negb (TxFrom tm =? 0) then TxFrom tm
      else if negb (UpdatedAt tm =? 0) then UpdatedAt tm
      else mint
  | None => mint
  end.

Definition DeleteWroteValidTo (tm : option TemporalMetadata) : bool :=
  match tm with
  | Some tm => negb (DeletedAt tm =? 0) && negb (DeleteKeptValidTo tm) && (ValidTo tm =? DeletedAt tm)
  | None => false
  end.

(** ** The valid axis *)

Record ValidAxis := mkAxis {
  unclaimed : Instant;
  openEnd : Instant;
  noClaimStart : Instant;
}.

Definition LegacyValidAxis : ValidAxis := mkAxis 0 0 0.

Definition LiteralValidAxis : ValidAxis :=
  mkAxis InfiniteValidTo InfiniteValidTo UnboundedValidFrom.

(** The two axes a store can have: the axis is fixed when the store opens. *)
Definition axis_ok (a : ValidAxis) : Prop := a = LegacyValidAxis \/ a = LiteralValidAxis.

Definition ValidAxis_Literal (a : ValidAxis) : bool := negb (openEnd a =? 0).

Definition ValidAxis_OpenEnd (a : ValidAxis) : Instant := openEnd a.

Definition ValidAxis_NoClaimStart (a : ValidAxis) : Instant := noClaimStart a.

Definition ValidAxis_Open (a : ValidAxis) (vt : Instant) : bool := vt =? openEnd a.

Definition ValidAxis_End (a : ValidAxis) (vt : Instant) : Instant :=
  if vt =? openEnd a then InfiniteValidTo else vt.

Definition ValidAxis_Claimed (a : ValidAxis) (vf : Instant) : bool := negb (vf =? unclaimed a).

Definition ValidAxis_Start (a : ValidAxis) (tm : option TemporalMetadata) (mint : Instant) : Instant :=
  match tm with
  | Some m => if negb (ValidFrom m =? unclaimed a) then ValidFrom m else UntimedValidFrom tm mint
  | None => UntimedValidFrom tm mint
  end.

Definition ValidAxis_ValidToAtTxTime (a : ValidAxis) (tm : option TemporalMetadata) (pin : Instant) : Instant :=
  match tm with
  | None => openEnd a
  | Some m =>
      if DeletedAt m =? 0 then ValidTo m
      else if DeletedAt m >? pin then
        if DeleteWroteValidTo tm then openEnd a else ValidTo m
      else if DeleteKeptValidTo m then DeletedAt m
      else ValidTo m
  end.

(** [TemporalMetadata]'s own forms are the legacy axis's. *)
Definition EffectiveValidFrom (tm : option TemporalMetadata) (mint : Instant) : Instant :=
  ValidAxis_Start LegacyValidAxis tm mint.

Definition ValidToAtTxTime (tm : option TemporalMetadata) (pin : Instant) : Instant :=
  ValidAxis_ValidToAtTxTime LegacyValidAxis tm pin.

(** ** Query options: the presence rule of the time filters *)

Record QueryOpts := mkOpts {
  o_ValidAt : Instant;
  o_ValidStart : Instant;
  o_ValidEnd : Instant;
  o_ValidAtSet : bool;
  o_ValidWindowSet : bool;
  o_TxAtSet : bool;
  o_TxPinSet : bool;
  o_TxAt : Instant;
  o_TxPin : Instant;
}.

Definition HasValidAt (o : QueryOpts) : bool := o_ValidAtSet o || negb (o_ValidAt o =? 0).

Definition HasValidInterval (o : QueryOpts) : bool :=
  o_ValidWindowSet o || (negb (o_ValidStart o =? 0) && negb (o_ValidEnd o =? 0)).

Definition HasValidTimeFilter (o : QueryOpts) : bool := HasValidAt o || HasValidInterval o.

Definition HasTxAt (o : QueryOpts) : bool := o_TxAtSet o || negb (o_TxAt o =? 0).

Definition HasTxPin (o : QueryOpts) : bool := o_TxPinSet o || negb (o_TxPin o =? 0).

Definition HasValidBound (o : QueryOpts) : bool :=
  o_ValidWindowSet o || negb (o_ValidStart o =? 0) || negb (o_ValidEnd o =? 0).

Definition HasTimeCoordinate (o : QueryOpts) : bool :=
  HasValidAt o || HasValidBound o || HasTxAt o || HasTxPin o.

(** [core.pinInstant] and what it feeds: the pin the code below reads, where 0
    means "no pin". *)
Definition pinInstant (at_ : Instant) (present : bool) : Instant :=
  if negb present then 0 else if at_ =? 0 then -1 else at_.

Definition txAtOf (o : QueryOpts) : Instant := pinInstant (o_TxAt o) (HasTxAt o).

Definition txPinOf (o : QueryOpts) : Instant := pinInstant (o_TxPin o) (HasTxPin o).

Definition effectiveTxPin (o : QueryOpts) : Instant :=
  if HasTxPin o then txPinOf o else txAtOf o.

Definition hasTemporalFilter (o : QueryOpts) : bool :=
  HasValidTimeFilter o || HasTxAt o || HasTxPin o.

Definition recordedPin (pin : Instant) : Instant := pinInstant pin true.

(** ** The entity-level predicates *)

(** The mint instant of an ID: [Layout.CreatedAt] is the snowflake library's,
    in Unix milliseconds. *)
Class Layout := CreatedAtMillis : Z -> Z.

Definition MintInstantMillis `{Layout} (id : Z) : Z :=
  if id <=? 0 then 0 else CreatedAtMillis id.

Definition SnowflakeInstant `{Layout} (id : Z) : Instant := MintInstantMillis id.

Definition EntityValidFrom `{Layout} (a : ValidAxis) (id : Z) (tm : option TemporalMetadata) : Instant :=
  ValidAxis_Start a tm (SnowflakeInstant id).

Definition EntityUntimedValidFrom `{Layout} (id : Z) (tm : option TemporalMetadata) : Instant :=
  UntimedValidFrom tm (SnowflakeInstant id).

Definition IntervalCovers (a : ValidAxis) (from to at_ : Instant) : bool :=
  (from <=? at_) && (ValidAxis_Open a to || (to >? at_)).

Definition IntervalMeets (a : ValidAxis) (from to start end_ : Instant) : bool :=
  (from <? end_) && (ValidAxis_Open a to || (to >? start)).

Definition EnvelopeOverlaps (a : ValidAxis) (from to : Instant) (o : QueryOpts) : bool :=
  if HasValidAt o then IntervalCovers a from to (o_ValidAt o)
  else if HasValidInterval o then IntervalMeets a from to (o_ValidStart o) (o_ValidEnd o)
  else true.

Definition MatchesTemporalFilterFrom (a : ValidAxis) (from : Instant) (tm : option TemporalMetadata)
    (o : QueryOpts) : bool :=
  let to := match tm with Some m => ValidTo m | None => ValidAxis_OpenEnd a end in
  if HasValidAt o then IntervalCovers a from to (o_ValidAt o)
  else if HasValidInterval o then
    if o_ValidStart o >=? o_ValidEnd o then false
    else IntervalMeets a from to (o_ValidStart o) (o_ValidEnd o)
  else true.

Definition MatchesTemporalFilter `{Layout} (a : ValidAxis) (id : Z) (tm : option TemporalMetadata)
    (o : QueryOpts) : bool :=
  MatchesTemporalFilterFrom a (EntityValidFrom a id tm) tm o.

Definition MatchesPointInTime `{Layout} (a : ValidAxis) (id : Z) (tm : option TemporalMetadata)
    (t : Instant) : bool :=
  let from := EntityValidFrom a id tm in
  if from >? t then false
  else match tm with
       | Some m => ValidAxis_Open a (ValidTo m) || (ValidTo m >? t)
       | None => true
       end.

Definition MatchesInterval `{Layout} (a : ValidAxis) (id : Z) (tm : option TemporalMetadata)
    (start end_ : Instant) : bool :=
  let from := EntityValidFrom a id tm in
  if from >=? end_ then false
  else match tm with
       | Some m => ValidAxis_Open a (ValidTo m) || (ValidTo m >? start)
       | None => true
       end.

(** ** Lemmas *)

(** Reduce the axis and interval tests to integer comparisons. *)
Ltac unfold_axis :=
  unfold IntervalCovers, IntervalMeets, ValidAxis_Open, ValidAxis_OpenEnd, ValidAxis_End,
    ValidAxis_Claimed, ValidAxis_Literal, ValidAxis_NoClaimStart in *.

(** The instant a point test compares with: on either axis an instant of the
    valid-time domain lies in a row's interval exactly when it lies between the
    row's start and [ValidAxis.End]. *)
Lemma IntervalCovers_End a from to at_ :
  axis_ok a -> at_ < InfiniteValidTo ->
  IntervalCovers a from to at_ = (from <=? at_) && (at_ <? ValidAxis_End a to).
Proof. unfold_axis. intros _ H. destruct (Z.eqb_spec to (openEnd a)); simpl; lia. Qed.

(** Rows of an entity whose valid interval lies in the envelope. *)
Definition in_envelope (a : ValidAxis) (efrom eto from to : Instant) : Prop :=
  efrom <= from /\ (ValidAxis_Open a eto = true \/ (ValidAxis_Open a to = false /\ to <= eto)).

(** The store push-down and the point predicate are one rule: the
    [QueryOpts] filter with a point answers [MatchesPointInTime], the one with
    a non-empty window answers [MatchesInterval]. *)
Theorem temporal_filter_doors_agree `{Layout} a id tm o :
  MatchesTemporalFilter a id tm o =
    if HasValidAt o then MatchesPointInTime a id tm (o_ValidAt o)
    else if HasValidInterval o then
      (o_ValidStart o <? o_ValidEnd o) && MatchesInterval a id tm (o_ValidStart o) (o_ValidEnd o)
    else true.
Proof.
  unfold MatchesTemporalFilter, MatchesTemporalFilterFrom, MatchesPointInTime, MatchesInterval.
  unfold_axis. set (from := EntityValidFrom a id tm).
  destruct (HasValidAt o), (HasValidInterval o); destruct tm as [m|]; simpl;
    repeat case_match; lia.
Qed.

(** The envelope prune drops no matching row: where some row inside the
    envelope passes the filter, the envelope overlaps it. *)
Theorem envelope_prune_sound a efrom eto from tm o :
  in_envelope a efrom eto from (match tm with Some m => ValidTo m | None => openEnd a end) ->
  MatchesTemporalFilterFrom a from tm o = true ->
  EnvelopeOverlaps a efrom eto o = true.
Proof.
  unfold in_envelope, MatchesTemporalFilterFrom, EnvelopeOverlaps. unfold_axis.
  intros [Hf He]. destruct (HasValidAt o), (HasValidInterval o);
    destruct tm as [m|]; simpl in *; repeat case_match; lia.
Qed.

Lemma envelope_prune_sound_witness :
  EnvelopeOverlaps LegacyValidAxis 5 20 (mkOpts 12 0 0 false false false false 0 0) = true.
Proof.
  apply (envelope_prune_sound LegacyValidAxis 5 20 10 (Some (set_ValidTo 15 zeroTM))).
  - split; [vm_compute; discriminate|]. right. split; [reflexivity|vm_compute; discriminate].
  - reflexivity.
Defined.
