(* ===== verification/Allen.v ===== *)
(** * Allen's interval algebra (pkg/types/allen.go)

    The thirteen relations, the classifier of two half-open intervals, the
    bitset of relations and the composition table, which the package builds at
    start-up from the intervals of a seven-point line.  The theorems show that
    the table is exactly the composition of the algebra over all integer
    intervals: sound (nothing is missing) and tight (nothing is superfluous). *)

From S2P Require Import Prelude ValidTime.

Inductive AllenRelation :=
  | Before | After | Meets | MetBy | Overlaps | OverlappedBy | Starts | StartedBy
  | During | Contains | Finishes | FinishedBy | Equals.

#[export] Instance AllenRelation_eq_dec : EqDecision AllenRelation.
Proof. solve_decision. Defined.

(** The constants in declaration order, and their values [iota + 1]. *)
Definition allRelationsList : list AllenRelation :=
  [Before; After; Meets; MetBy; Overlaps; OverlappedBy; Starts; StartedBy;
   During; Contains; Finishes; FinishedBy; Equals].

Definition relValue (r : AllenRelation) : Z :=
  match r with
  | Before => 1 | After => 2 | Meets => 3 | MetBy => 4 | Overlaps => 5 | OverlappedBy => 6
  | Starts => 7 | StartedBy => 8 | During => 9 | Contains => 10 | Finishes => 11
  | FinishedBy => 12 | Equals => 13
  end.

Definition allenRelationCount : Z := 13.

Definition allenRelationMask : Z := 2 ^ allenRelationCount - 1.

Definition AllenRelation_String (r : AllenRelation) : string :=
  match r with
  | Before => "Before" | After => "After" | Meets => "Meets" | MetBy => "MetBy"
  | Overlaps => "Overlaps" | OverlappedBy => "OverlappedBy" | Starts => "Starts"
  | StartedBy => "StartedBy" | During => "During" | Contains => "Contains"
  | Finishes => "Finishes" | FinishedBy => "FinishedBy" | Equals => "Equals"
  end.

Definition AllenRelation_Symbol (r : AllenRelation) : string :=
  match r with
  | Before => "<" | After => ">" | Meets => "m" | MetBy => "mi" | Overlaps => "o"
  | OverlappedBy => "oi" | Starts => "s" | StartedBy => "si" | During => "d"
  | Contains => "di" | Finishes => "f" | FinishedBy => "fi" | Equals => "="
  end.

Definition AllenRelation_Inverse (r : AllenRelation) : AllenRelation :=
  match r with
  | Before => After | After => Before | Meets => MetBy | MetBy => Meets
  | Overlaps => OverlappedBy | OverlappedBy => Overlaps | Starts => StartedBy
  | StartedBy => Starts | During => Contains | Contains => During
  | Finishes => FinishedBy | FinishedBy => Finishes | Equals => Equals
  end.

(** ** The classifier *)

Definition relate (aStart aEnd bStart bEnd : Instant) : AllenRelation :=
  if aEnd <? bStart then Before
  else if bEnd <? aStart then After
  else if aEnd =? bStart then Meets
  else if bEnd =? aStart then MetBy
  else if (aStart =? bStart) && (aEnd =? bEnd) then Equals
  else if (aStart =? bStart) && (aEnd <? bEnd) then Starts
  else if (aStart =? bStart) && (aEnd >? bEnd) then StartedBy
  else if (aEnd =? bEnd) && (aStart >? bStart) then Finishes
  else if (aEnd =? bEnd) && (aStart <? bStart) then FinishedBy
  else if (aStart >? bStart) && (aEnd <? bEnd) then During
  else if (aStart <? bStart) && (aEnd >? bEnd) then Contains
  else if aStart <? bStart then Overlaps
  else OverlappedBy.

Inductive AllenError := ErrOpenInterval | ErrInvalidInterval.

Definition Relate (aStart aEnd bStart bEnd : Instant) : AllenRelation + AllenError :=
  if (aStart =? 0) || (aEnd =? 0) || (bStart =? 0) || (bEnd =? 0) then inr ErrOpenInterval
  else if (aStart >=? aEnd) || (bStart >=? bEnd) then inr ErrInvalidInterval
  else inl (relate aStart aEnd bStart bEnd).

Definition RelateOpen (aStart aEnd bStart bEnd : Instant) : AllenRelation + AllenError :=
  if (aStart =? 0) || (bStart =? 0) then inr ErrOpenInterval
  else
    let aEnd := if aEnd =? 0 then MaxInt64 else aEnd in
    let bEnd := if bEnd =? 0 then MaxInt64 else bEnd in
    if (aStart >=? aEnd) || (bStart >=? bEnd) then inr ErrInvalidInterval
    else inl (relate aStart aEnd bStart bEnd).

(** The two classifiers on a store's valid axis (valid_axis.go). *)
Definition ValidAxis_RelateVersion (a : ValidAxis) (vStart vEnd qStart qEnd : Instant)
    : AllenRelation + AllenError :=
  if (vStart =? unclaimed a) || (qStart =? 0) then inr ErrOpenInterval
  else
    let vEnd := ValidAxis_End a vEnd in
    let qEnd := if qEnd =? 0 then InfiniteValidTo else qEnd in
    if (vStart >=? vEnd) || (qStart >=? qEnd) then inr ErrInvalidInterval
    else inl (relate vStart vEnd qStart qEnd).

Definition ValidAxis_Relate (a : ValidAxis) (aStart aEnd bStart bEnd : Instant)
    : AllenRelation + AllenError :=
  if (aStart =? unclaimed a) || (bStart =? unclaimed a) || (aEnd =? openEnd a) || (bEnd =? openEnd a)
  then inr ErrOpenInterval
  else if (aStart >=? aEnd) || (bStart >=? bEnd) then inr ErrInvalidInterval
  else inl (relate aStart aEnd bStart bEnd).

(** ** Relation sets

    [AllenRelationSet] is a uint16: bit [i] stands for the relation of value
    [i + 1]. *)
Definition AllenRelationSet := Z.

Definition AllenRelation_Set (r : AllenRelation) : AllenRelationSet := Z.shiftl 1 (relValue r - 1).

Definition AllenRelationSet_Contains (s : AllenRelationSet) (r : AllenRelation) : bool :=
  negb (Z.land s (AllenRelation_Set r) =? 0).

Definition AllenRelationSet_Add (s : AllenRelationSet) (r : AllenRelation) : AllenRelationSet :=
  Z.land (Z.lor s (AllenRelation_Set r)) allenRelationMask.

Definition AllenRelationSet_Union (s other : AllenRelationSet) : AllenRelationSet :=
  Z.land (Z.lor s other) allenRelationMask.

Definition AllenRelationSet_Intersection (s other : AllenRelationSet) : AllenRelationSet :=
  Z.land (Z.land s other) allenRelationMask.

Definition AllenRelationSet_IsEmpty (s : AllenRelationSet) : bool := Z.land s allenRelationMask =? 0.

(** The popcount loop [for bits != 0 { n++; bits &= bits - 1 }]: one round per
    set bit, at most 16 of them. *)
Fixpoint popcount_loop (fuel : nat) (bits n : Z) : Z :=
  match fuel with
  | O => n
  | S fuel' => if bits =? 0 then n else popcount_loop fuel' (Z.land bits (bits - 1)) (n + 1)
  end.

Definition AllenRelationSet_Len (s : AllenRelationSet) : Z :=
  popcount_loop 16 (Z.land s allenRelationMask) 0.

Definition AllenRelationSet_ToSlice (s : AllenRelationSet) : list AllenRelation :=
  filter (fun r => AllenRelationSet_Contains s r = true) allRelationsList.

(** [strings.Join] of the names between braces. *)
Definition AllenRelationSet_String (s : AllenRelationSet) : string :=
  if AllenRelationSet_IsEmpty s then "{}"
  else ("{" +:+ String.concat ", " (map AllenRelation_String (AllenRelationSet_ToSlice s)) +:+ "}")%string.

Definition AllenRelationSet_InverseSet (s : AllenRelationSet) : AllenRelationSet :=
  fold_left (fun inv r => if AllenRelationSet_Contains s r
                          then AllenRelationSet_Add inv (AllenRelation_Inverse r) else inv)
    allRelationsList 0.

Definition AllRelations : AllenRelationSet := fold_left AllenRelationSet_Add allRelationsList 0.

(** ** The composition table *)

(** The 21 intervals of the points 1..7, in the order [init] appends them. *)
Definition tableIntervals : list (Z * Z) :=
  flat_map (fun s => map (fun e => (s, e)) (seqZ (s + 1) (7 - s))) (seqZ 1 7).

(** [init]: every triple of those intervals adds one relation to one cell; a
    table is the function from a pair of relations to its cell. *)
Definition compositionTable : AllenRelation -> AllenRelation -> AllenRelationSet :=
  fold_left (fun table (abc : (Z * Z) * (Z * Z) * (Z * Z)) =>
      let '((a, b), c) := abc in
      let ab := relate a.1 a.2 b.1 b.2 in
      let bc := relate b.1 b.2 c.1 c.2 in
      let ac := relate a.1 a.2 c.1 c.2 in
      fun r1 r2 => if decide (r1 = ab /\ r2 = bc) then AllenRelationSet_Add (table ab bc) ac
                   else table r1 r2)
    (flat_map (fun a => flat_map (fun b => map (fun c => ((a, b), c)) tableIntervals) tableIntervals)
       tableIntervals)
    (fun _ _ => 0).

Definition Compose (r1 r2 : AllenRelation) : AllenRelationSet := compositionTable r1 r2.

Definition ComposeSets (a b : AllenRelationSet) : AllenRelationSet :=
  fold_left (fun result r1 =>
      if AllenRelationSet_Contains a r1 then
        fold_left (fun result r2 =>
            if AllenRelationSet_Contains b r2 then AllenRelationSet_Union result (Compose r1 r2)
            else result)
          allRelationsList result
      else result)
    allRelationsList 0.

(** ** Relation sets as sets *)

(** The set operations' bit position of a relation. *)
Lemma relValue_range r : 0 <= relValue r - 1 < allenRelationCount.
Proof. destruct r; vm_compute; split; congruence. Qed.

Lemma relValue_inj r1 r2 : relValue r1 = relValue r2 -> r1 = r2.
Proof. destruct r1, r2; vm_compute; congruence. Qed.

Lemma land_bit_testbit s k : 0 <= k -> negb (Z.land s (Z.shiftl 1 k) =? 0) = Z.testbit s k.
Proof.
  intros Hk.
  assert (Z.land s (Z.shiftl 1 k) = if Z.testbit s k then 2 ^ k else 0) as ->.
  { apply Z.bits_inj'. intros n Hn. rewrite Z.land_spec, Z.shiftl_spec by lia.
    destruct (Z.eq_dec n k) as [->|Hne].
    - rewrite Z.sub_diag. destruct (Z.testbit s k); [by rewrite Z.pow2_bits_true|by rewrite Z.testbit_0_l].
    - assert (Z.testbit 1 (n - k) = false) as ->.
      { destruct (Z.lt_ge_cases n k); [apply Z.testbit_neg_r; lia|].
        change 1 with (2 ^ 0). apply Z.pow2_bits_false. lia. }
      rewrite andb_false_r. destruct (Z.testbit s k); [rewrite Z.pow2_bits_false by lia|rewrite Z.testbit_0_l]; done. }
  destruct (Z.testbit s k); [|done].
  pose proof (Z.pow_pos_nonneg 2 k). destruct (Z.eqb_spec (2 ^ k) 0); [lia|done].
Qed.

Lemma Contains_testbit s r :
  AllenRelationSet_Contains s r = Z.testbit s (relValue r - 1).
Proof. apply land_bit_testbit. pose proof (relValue_range r). lia. Qed.

Lemma mask_testbit r : Z.testbit allenRelationMask (relValue r - 1) = true.
Proof.
  pose proof (relValue_range r). unfold allenRelationMask.
  change (2 ^ allenRelationCount - 1) with (Z.ones 13).
  apply Z.ones_spec_low. unfold allenRelationCount in *. lia.
Qed.

Lemma Contains_Set r r' :
  Z.testbit (AllenRelation_Set r) (relValue r' - 1) = bool_decide (r = r').
Proof.
  pose proof (relValue_range r). pose proof (relValue_range r').
  unfold AllenRelation_Set. rewrite Z.shiftl_spec by lia. case_bool_decide as E.
  - subst. by rewrite Z.sub_diag.
  - assert (relValue r <> relValue r') by (intros E'; by apply relValue_inj in E').
    destruct (Z.lt_ge_cases (relValue r' - 1) (relValue r - 1)); [apply Z.testbit_neg_r; lia|].
    change 1 with (2 ^ 0) at 1. apply Z.pow2_bits_false. lia.
Qed.

Lemma Contains_Add s r r' :
  AllenRelationSet_Contains (AllenRelationSet_Add s r) r' =
  AllenRelationSet_Contains s r' || bool_decide (r = r').
Proof.
  rewrite !Contains_testbit. unfold AllenRelationSet_Add.
  by rewrite Z.land_spec, Z.lor_spec, Contains_Set, mask_testbit, andb_true_r.
Qed.

Lemma Contains_Union s1 s2 r :
  AllenRelationSet_Contains (AllenRelationSet_Union s1 s2) r =
  AllenRelationSet_Contains s1 r || AllenRelationSet_Contains s2 r.
Proof.
  rewrite !Contains_testbit. unfold AllenRelationSet_Union.
  by rewrite Z.land_spec, Z.lor_spec, mask_testbit, andb_true_r.
Qed.

Lemma Contains_Intersection s1 s2 r :
  AllenRelationSet_Contains (AllenRelationSet_Intersection s1 s2) r =
  AllenRelationSet_Contains s1 r && AllenRelationSet_Contains s2 r.
Proof.
  rewrite !Contains_testbit. unfold AllenRelationSet_Intersection.
  by rewrite !Z.land_spec, mask_testbit, andb_true_r.
Qed.

Lemma Contains_empty r : AllenRelationSet_Contains 0 r = false.
Proof. rewrite Contains_testbit. apply Z.testbit_0_l. Qed.

Lemma allRelationsList_all r : r ∈ allRelationsList.
Proof. destruct r; vm_compute; repeat constructor. Qed.

(** ** Compression: a classification only depends on the order of the bounds *)

(** [f] keeps the order of the listed points. *)
Definition keeps_order (f : Z -> Z) (pts : list Z) : Prop :=
  forall x y, x ∈ pts -> y ∈ pts -> (x < y <-> f x < f y).

Lemma keeps_order_tests f pts x y :
  keeps_order f pts -> x ∈ pts -> y ∈ pts ->
  (f x <? f y) = (x <? y) /\ (f x >? f y) = (x >? y) /\ (f x =? f y) = (x =? y).
Proof. intros H Hx Hy. pose proof (H x y Hx Hy). pose proof (H y x Hy Hx). lia. Qed.

Lemma relate_compress f pts a b c d :
  keeps_order f pts -> a ∈ pts -> b ∈ pts -> c ∈ pts -> d ∈ pts ->
  relate (f a) (f b) (f c) (f d) = relate a b c d.
Proof.
  intros H Ha Hb Hc Hd. unfold relate.
  pose proof (keeps_order_tests f pts) as T.
  destruct (T b c H Hb Hc) as (-> & _ & ->), (T d a H Hd Ha) as (-> & _ & ->),
    (T a c H Ha Hc) as (-> & -> & ->), (T b d H Hb Hd) as (-> & -> & ->). done.
Qed.

(** One more than the number of listed points below [x]. *)
Definition rank_in (pts : list Z) (x : Z) : Z := 1 + Z.of_nat (length (filter (fun y : Z => (y < x)%Z) pts)).

Lemma rank_keeps_order pts : keeps_order (rank_in pts) pts.
Proof.
  assert (forall x y (l : list Z), x <= y ->
    (length (filter (fun z : Z => (z < x)%Z) l) <= length (filter (fun z : Z => (z < y)%Z) l))%nat) as Hmono.
  { intros x y l Hxy. induction l as [|z l IH]; [done|]. rewrite !filter_cons.
    repeat case_decide; simpl; lia. }
  assert (forall x y (l : list Z), x < y -> x ∈ l ->
    (length (filter (fun z : Z => (z < x)%Z) l) < length (filter (fun z : Z => (z < y)%Z) l))%nat) as Hstrict.
  { intros x y l Hxy. induction l as [|z l IH]; intros Hin; [by apply not_elem_of_nil in Hin|].
    rewrite !filter_cons. specialize (Hmono x y l).
    apply elem_of_cons in Hin as [->|Hin%IH]; repeat case_decide; simpl; lia. }
  intros x y Hx Hy. unfold rank_in. split; intros H.
  - specialize (Hstrict x y pts H Hx). lia.
  - destruct (Z.lt_ge_cases x y); [done|]. specialize (Hmono y x pts). lia.
Qed.

Lemma rank_in_range pts x : x ∈ pts -> 1 <= rank_in pts x <= Z.of_nat (length pts).
Proof.
  intros Hx. unfold rank_in.
  assert (length (filter (fun y : Z => (y < x)%Z) pts) < length pts)%nat; [|lia].
  induction pts as [|z l IH]; [by apply not_elem_of_nil in Hx|].
  rewrite filter_cons. pose proof (length_filter (fun y : Z => (y < x)%Z) l).
  apply elem_of_cons in Hx as [->|Hx%IH]; case_decide; simpl; lia.
Qed.

(** ** The table *)

Definition tableTriples : list ((Z * Z) * (Z * Z) * (Z * Z)) :=
  flat_map (fun a => flat_map (fun b => map (fun c => ((a, b), c)) tableIntervals) tableIntervals)
    tableIntervals.

Lemma elem_of_tableIntervals s e : (s, e) ∈ tableIntervals <-> 1 <= s < e /\ e <= 7.
Proof.
  unfold tableIntervals. rewrite list_elem_of_In, in_flat_map. split.
  - intros (s' & H1 & H2). rewrite in_map_iff in H2. destruct H2 as (e' & [= -> ->] & H2).
    rewrite <- list_elem_of_In, elem_of_seqZ in H1, H2. lia.
  - intros H. exists s. rewrite in_map_iff. split; [|exists e; split; [done|]];
      rewrite <- list_elem_of_In, elem_of_seqZ; lia.
Qed.

Lemma elem_of_tableTriples a b c :
  ((a, b), c) ∈ tableTriples <-> a ∈ tableIntervals /\ b ∈ tableIntervals /\ c ∈ tableIntervals.
Proof.
  unfold tableTriples. rewrite !list_elem_of_In, in_flat_map. split.
  - intros (a' & Ha & H). apply in_flat_map in H as (b' & Hb & H).
    apply in_map_iff in H as (c' & [= -> -> ->] & Hc). done.
  - intros (Ha & Hb & Hc). exists a. split; [done|]. apply in_flat_map. exists b. split; [done|].
    apply in_map_iff. eauto.
Qed.

Lemma Compose_spec r1 r2 r :
  AllenRelationSet_Contains (Compose r1 r2) r = true <->
  exists a b c, a ∈ tableIntervals /\ b ∈ tableIntervals /\ c ∈ tableIntervals /\
    relate a.1 a.2 b.1 b.2 = r1 /\ relate b.1 b.2 c.1 c.2 = r2 /\ relate a.1 a.2 c.1 c.2 = r.
Proof.
  unfold Compose, compositionTable. fold tableTriples.
  set (step := fun table abc => _).
  assert (forall l table,
    AllenRelationSet_Contains (fold_left step l table r1 r2) r = true <->
    AllenRelationSet_Contains (table r1 r2) r = true \/
    exists a b c, ((a, b), c) ∈ l /\
      relate a.1 a.2 b.1 b.2 = r1 /\ relate b.1 b.2 c.1 c.2 = r2 /\ relate a.1 a.2 c.1 c.2 = r) as Hfold.
  { induction l as [|[[a b] c] l IH]; intros table; simpl; [set_solver|].
    rewrite IH. unfold step. case_decide as E.
    - destruct E as [-> ->]. rewrite Contains_Add, orb_true_iff, bool_decide_eq_true. split.
      + intros [[?| <-]|(a' & b' & c' & Hin & ?)]; [by left|right..].
        * exists a, b, c. split; [constructor|done].
        * exists a', b', c'. split; [by constructor|done].
      + intros [?|(a' & b' & c' & Hin & ?)]; [by left; left|].
        apply elem_of_cons in Hin as [[= -> -> ->]|Hin]; [left; right; tauto|right; eauto 10].
    - split; (intros [?|(a' & b' & c' & Hin & ?)]; [by left|right]); exists a', b', c'.
      + split; [by constructor|done].
      + apply elem_of_cons in Hin as [[= -> -> ->]|Hin]; [|done]. destruct E. destruct_and!. by split. }
  rewrite Hfold, Contains_empty. split.
  - intros [?|(a & b & c & H%elem_of_tableTriples & ?)]; [done|]. exists a, b, c. tauto.
  - intros (a & b & c & ? & ? & ? & ?). right. exists a, b, c. by rewrite elem_of_tableTriples.
Qed.

(** The table is read through [Compose_spec] from here on. *)
#[global] Opaque compositionTable.

(** ** Properties *)

(** What the thirteen relations say of two intervals. *)
Definition holds_rel (r : AllenRelation) (a b c d : Z) : Prop :=
  match r with
  | Before => b < c
  | After => d < a
  | Meets => b = c
  | MetBy => d = a
  | Overlaps => a < c /\ c < b /\ b < d
  | OverlappedBy => c < a /\ a < d /\ d < b
  | Starts => a = c /\ b < d
  | StartedBy => a = c /\ d < b
  | During => c < a /\ b < d
  | Contains => a < c /\ d < b
  | Finishes => b = d /\ c < a
  | FinishedBy => b = d /\ a < c
  | Equals => a = c /\ b = d
  end.

Lemma relate_holds a b c d : a < b -> c < d -> holds_rel (relate a b c d) a b c d.
Proof.
  intros. unfold relate.
  repeat match goal with |- context [if ?t then _ else _] => destruct t eqn:? end; simpl; lia.
Qed.

Lemma holds_rel_unique r r' a b c d :
  a < b -> c < d -> holds_rel r a b c d -> holds_rel r' a b c d -> r = r'.
Proof. intros. destruct r, r'; simpl in *; first [done | lia]. Qed.

(** The thirteen relations are jointly exhaustive and pairwise disjoint on
    non-empty intervals, and [relate] names the one that holds. *)
Theorem relate_exact r a b c d :
  a < b -> c < d -> (relate a b c d = r <-> holds_rel r a b c d).
Proof.
  intros Hab Hcd. split; [intros <-; by apply relate_holds|].
  intros H. apply (holds_rel_unique _ _ a b c d); auto. by apply relate_holds.
Qed.

Lemma relate_exact_witness : relate 1 4 2 9 = Overlaps.
Proof. apply (relate_exact Overlaps 1 4 2 9); [lia|lia|]. simpl. lia. Defined.

(** Swapping the arguments of the classifier inverts the relation. *)
Theorem relate_inverse a b c d :
  a < b -> c < d -> relate c d a b = AllenRelation_Inverse (relate a b c d).
Proof.
  intros Hab Hcd. apply (holds_rel_unique _ _ c d a b); auto using relate_holds.
  pose proof (relate_holds a b c d Hab Hcd) as H.
  destruct (relate a b c d); simpl in *; lia.
Qed.

Lemma relate_inverse_witness : relate 2 9 1 4 = AllenRelation_Inverse (relate 1 4 2 9).
Proof. apply (relate_inverse 1 4 2 9); lia. Defined.

(** C33: the composition table is sound over all integer intervals, although
    [init] only enumerates the intervals of seven points: whatever relation A
    has to C is in the cell of A's relation to B and B's to C. *)
Theorem Compose_sound a b c d e f :
  a < b -> c < d -> e < f ->
  AllenRelationSet_Contains (Compose (relate a b c d) (relate c d e f)) (relate a b e f) = true.
Proof.
  intros Hab Hcd Hef. apply Compose_spec.
  set (pts := [a; b; c; d; e; f]). set (g := rank_in pts).
  pose proof (rank_keeps_order pts) as Hg. fold g in Hg.
  assert (forall x, x ∈ pts -> 1 <= g x <= 6) as Hr by (intros; by apply rank_in_range).
  assert (forall x y, x ∈ pts -> y ∈ pts -> x < y -> (g x, g y) ∈ tableIntervals) as Hin.
  { intros x y Hx Hy Hxy. apply elem_of_tableIntervals.
    pose proof (Hr x Hx). pose proof (Hr y Hy). apply (Hg x y Hx Hy) in Hxy. lia. }
  exists (g a, g b), (g c, g d), (g e, g f). simpl.
  repeat split; try (apply Hin; [unfold pts; set_solver..|done]);
    apply (relate_compress g pts); unfold pts; set_solver.
Qed.

Lemma Compose_sound_witness :
  AllenRelationSet_Contains (Compose (relate 10 40 20 900) (relate 20 900 900 1000)) (relate 10 40 900 1000) = true.
Proof. apply Compose_sound; lia. Defined.

(** The composition table is tight: every relation in a cell is realised by
    three intervals. *)
Theorem Compose_tight r1 r2 r :
  AllenRelationSet_Contains (Compose r1 r2) r = true ->
  exists a b c d e f, a < b /\ c < d /\ e < f /\
    relate a b c d = r1 /\ relate c d e f = r2 /\ relate a b e f = r.
Proof.
  intros ([a b] & [c d] & [e f] & Ha & Hc & He & H)%Compose_spec.
  apply elem_of_tableIntervals in Ha, Hc, He.
  exists a, b, c, d, e, f. repeat split; first [lia|apply H].
Qed.

Lemma Compose_tight_witness :
  exists a b c d e f, a < b /\ c < d /\ e < f /\
    relate a b c d = Overlaps /\ relate c d e f = During /\ relate a b e f = Starts.
Proof. apply (Compose_tight Overlaps During Starts). vm_compute. reflexivity. Defined.

(** A loop over relations that adds to a set: what ends up in the set. *)
Lemma Contains_fold {A} (f : AllenRelationSet -> A -> AllenRelationSet) (Q : A -> bool) r l acc :
  (forall acc x, AllenRelationSet_Contains (f acc x) r = AllenRelationSet_Contains acc r || Q x) ->
  AllenRelationSet_Contains (fold_left f l acc) r = AllenRelationSet_Contains acc r || existsb Q l.
Proof.
  intros Hf. revert acc. induction l as [|x l IH]; intros acc; simpl.
  - by rewrite orb_false_r.
  - by rewrite IH, Hf, orb_assoc.
Qed.

Lemma existsb_all (Q : AllenRelation -> bool) :
  existsb Q allRelationsList = true <-> exists r, Q r = true.
Proof.
  rewrite existsb_exists. split; intros (r & H); [naive_solver|].
  exists r. split; [|done]. apply list_elem_of_In, allRelationsList_all.
Qed.

(** Composing two relation sets is the union of the compositions of their
    members. *)
Theorem ComposeSets_spec s1 s2 r :
  AllenRelationSet_Contains (ComposeSets s1 s2) r = true <->
  exists r1 r2, AllenRelationSet_Contains s1 r1 = true /\ AllenRelationSet_Contains s2 r2 = true /\
    AllenRelationSet_Contains (Compose r1 r2) r = true.
Proof.
  unfold ComposeSets.
  rewrite (Contains_fold _ (fun r1 => AllenRelationSet_Contains s1 r1 &&
    existsb (fun r2 => AllenRelationSet_Contains s2 r2 && AllenRelationSet_Contains (Compose r1 r2) r)
      allRelationsList)).
  - rewrite Contains_empty, orb_false_l, existsb_all.
    split.
    + intros (r1 & [H1 (r2 & [H2 H3]%andb_true_iff)%existsb_all]%andb_true_iff). eauto.
    + intros (r1 & r2 & H1 & H2 & H3). exists r1. apply andb_true_iff. split; [exact H1|].
      apply existsb_all. exists r2. apply andb_true_iff. split; [exact H2|exact H3].
  - intros acc r1. destruct (AllenRelationSet_Contains s1 r1); [rewrite andb_true_l|by rewrite orb_false_r].
    apply Contains_fold. intros acc' r2.
    destruct (AllenRelationSet_Contains s2 r2); [apply Contains_Union|by rewrite orb_false_r].
Qed.

(** [InverseSet] is the set of inverses. *)
Theorem InverseSet_spec s r :
  AllenRelationSet_Contains (AllenRelationSet_InverseSet s) r =
  AllenRelationSet_Contains s (AllenRelation_Inverse r).
Proof.
  unfold AllenRelationSet_InverseSet.
  rewrite (Contains_fold _ (fun r' => AllenRelationSet_Contains s r' && bool_decide (AllenRelation_Inverse r' = r))).
  - rewrite Contains_empty. rewrite orb_false_l. apply eq_true_iff_eq. rewrite existsb_all.
    split.
    + intros (r' & [H <-%bool_decide_eq_true]%andb_true_iff). by destruct r'.
    + intros H. exists (AllenRelation_Inverse r). rewrite H. by destruct r.
  - intros acc r'. destruct (AllenRelationSet_Contains s r'); [apply Contains_Add|by rewrite orb_false_r].
Qed.

(** On the legacy axis the axis-aware classifiers are the package-level
    ones: [RelateVersion] is [RelateOpen] and [ValidAxis.Relate] is [Relate]. *)
Theorem legacy_axis_relates a b c d :
  ValidAxis_RelateVersion LegacyValidAxis a b c d = RelateOpen a b c d /\
  ValidAxis_Relate LegacyValidAxis a b c d = Relate a b c d.
Proof.
  unfold ValidAxis_RelateVersion, ValidAxis_Relate, RelateOpen, Relate, ValidAxis_End, InfiniteValidTo.
  simpl. split; [done|]. destruct (a =? 0), (b =? 0), (c =? 0), (d =? 0); reflexivity.
Qed.

Lemma Contains_masked s r :
  AllenRelationSet_Contains (Z.land s allenRelationMask) r = AllenRelationSet_Contains s r.
Proof. by rewrite !Contains_testbit, Z.land_spec, mask_testbit, andb_true_r. Qed.

Lemma Len_below_mask :
  Forall (fun m => popcount_loop 16 m 0 = Z.of_nat (length (AllenRelationSet_ToSlice m))) (seqZ 0 8192).
Proof. apply (bool_decide_unpack _). vm_compute. exact I. Qed.

(** The popcount loop of [Len] terminates within its sixteen rounds with the
    number of relations [ToSlice] lists, for every uint16. *)
Theorem Len_is_cardinality s :
  AllenRelationSet_Len s = Z.of_nat (length (AllenRelationSet_ToSlice s)).
Proof.
  assert (AllenRelationSet_ToSlice s = AllenRelationSet_ToSlice (Z.land s allenRelationMask)) as ->.
  { apply list_filter_iff. intros r. by rewrite Contains_masked. }
  pose proof Len_below_mask as H. rewrite Forall_forall in H. apply H, elem_of_seqZ.
  change allenRelationMask with (Z.ones 13). rewrite Z.land_ones by lia.
  pose proof (Z.mod_pos_bound s (2 ^ 13)). lia.
Qed.
