(* ===== verification/Hash32.v ===== *)
(** * Hash strings (pkg/internal/hash32)

    The one conversion between an integrity hash's public form, 64 lowercase
    hex characters, and its 32 raw bytes.  The theorems show that the
    conversion is a bijection between the canonical strings and the 32-byte
    arrays, and that nothing else decodes. *)

From S2P Require Import Prelude.

(** [nibble]: the value of a lowercase hex digit; None is the source's
    [(0, false)]. *)
Definition nibble (c : Z) : option Z :=
  if (c >=? 48) && (c <=? 57) then Some (c - 48)
  else if (c >=? 97) && (c <=? 102) then Some (c - 97 + 10)
  else None.

(** The loop of [Decode] over the pairs of characters. *)
Fixpoint decode_pairs (s : bytes) : option bytes :=
  match s with
  | c1 :: c2 :: s' =>
      match nibble c1, nibble c2, decode_pairs s' with
      | Some hi, Some lo, Some rest => Some (Z.lor (Z.shiftl hi 4) lo :: rest)
      | _, _, _ => None
      end
  | _ => Some []
  end.

(** [Decode s dst]: the filled array, or None when [s] is not canonical. *)
Definition hash32_Decode (s : bytes) : option bytes :=
  if negb (length s =? 64)%nat then None else decode_pairs s.

Definition hash32_Canonical (s : bytes) : bool :=
  match hash32_Decode s with Some _ => true | None => false end.

(** [encoding/hex]'s lowercase table and [hex.Encode]. *)
Definition hexdigit (n : Z) : Z := if n <? 10 then 48 + n else 97 + (n - 10).

Fixpoint hex_Encode (b : bytes) : bytes :=
  match b with
  | [] => []
  | x :: b' => hexdigit (Z.shiftr x 4) :: hexdigit (Z.land x 15) :: hex_Encode b'
  end.

Definition hash32_String (b : bytes) : bytes := hex_Encode (take 32 b).

(** ** Digits *)

Lemma nibble_hexdigit n : 0 <= n < 16 -> nibble (hexdigit n) = Some n.
Proof.
  intros H. unfold nibble, hexdigit.
  destruct (Z.ltb_spec n 10); repeat case_match; try lia; f_equal; lia.
Qed.

Lemma nibble_inv c n : nibble c = Some n -> 0 <= n < 16 /\ hexdigit n = c.
Proof.
  unfold nibble, hexdigit. intros H. repeat case_match; simplify_eq; lia.
Qed.

(** The two halves of a byte and their reassembly. *)
Lemma byte_halves x :
  is_byte x -> 0 <= Z.shiftr x 4 < 16 /\ 0 <= Z.land x 15 < 16 /\
    Z.lor (Z.shiftl (Z.shiftr x 4) 4) (Z.land x 15) = x.
Proof.
  unfold is_byte. intros H. change 15 with (Z.ones 4). rewrite Z.land_ones, Z.shiftr_div_pow2 by lia.
  assert (x / 2 ^ 4 < 16) by (apply Z.div_lt_upper_bound; lia).
  assert (0 <= x / 2 ^ 4) by (apply Z.div_pos; lia).
  pose proof (Z.mod_pos_bound x (2 ^ 4)). rewrite lor_shiftl_add by lia.
  pose proof (Z.div_mod x (2 ^ 4)). lia.
Qed.

Lemma nibbles_join hi lo :
  0 <= hi < 16 -> 0 <= lo < 16 ->
  let x := Z.lor (Z.shiftl hi 4) lo in
  is_byte x /\ Z.shiftr x 4 = hi /\ Z.land x 15 = lo.
Proof.
  intros Hhi Hlo. cbv zeta. rewrite lor_shiftl_add by lia.
  unfold is_byte. rewrite Z.shiftr_div_pow2 by lia. change 15 with (Z.ones 4). rewrite Z.land_ones by lia.
  rewrite Z.div_add_l, Z.div_small by lia. rewrite Z.add_comm, Z.mod_add, Z.mod_small by lia. lia.
Qed.

(** ** The conversion *)

Lemma length_hex_Encode b : length (hex_Encode b) = (2 * length b)%nat.
Proof. induction b; simpl; lia. Qed.

Lemma decode_pairs_hex b : Forall is_byte b -> decode_pairs (hex_Encode b) = Some b.
Proof.
  induction 1 as [|x b Hx _ IH]; simpl; [done|].
  destruct (byte_halves x Hx) as (Hhi & Hlo & E).
  by rewrite !nibble_hexdigit, IH, E.
Qed.

Lemma decode_pairs_inv n s b :
  length s = (2 * n)%nat -> decode_pairs s = Some b ->
  hex_Encode b = s /\ Forall is_byte b /\ length b = n.
Proof.
  revert s b. induction n as [|n IH]; intros s b Hlen Hdec.
  { destruct s; simpl in *; [by simplify_eq|lia]. }
  destruct s as [|c1 [|c2 s]]; simpl in Hlen; [lia..|]. simpl in Hdec.
  destruct (nibble c1) as [hi|] eqn:E1; [|done]. destruct (nibble c2) as [lo|] eqn:E2; [|done].
  destruct (decode_pairs s) as [rest|] eqn:E; [|done]. simplify_eq.
  apply nibble_inv in E1 as [H1 E1], E2 as [H2 E2].
  destruct (IH s rest) as (<- & Hb & <-); [lia|done|].
  destruct (nibbles_join hi lo H1 H2) as (Hx & Ehi & Elo). simpl.
  rewrite Ehi, Elo, E1, E2. split; [done|]. split; [by constructor|done].
Qed.

(** A 32-byte hash survives the trip through its string: [Decode] of
    [String] is the array. *)
Theorem hash32_decode_string b :
  length b = 32%nat -> Forall is_byte b -> hash32_Decode (hash32_String b) = Some b.
Proof.
  intros Hlen Hb. unfold hash32_Decode, hash32_String.
  rewrite take_ge, length_hex_Encode, Hlen by lia. by apply decode_pairs_hex.
Qed.

Lemma hash32_decode_string_witness :
  hash32_Decode (hash32_String (replicate 32 171)) = Some (replicate 32 171).
Proof.
  apply hash32_decode_string; [reflexivity|]. apply Forall_replicate. unfold is_byte. lia.
Defined.

Lemma hash32_decode_inv s b :
  hash32_Decode s = Some b -> hash32_String b = s /\ length b = 32%nat /\ Forall is_byte b.
Proof.
  unfold hash32_Decode, hash32_String. intros H.
  destruct (Nat.eqb_spec (length s) 64) as [Hl|]; simpl in H; [|done].
  destruct (decode_pairs_inv 32 s b) as (E & Hb & Hn); [lia|done|].
  by rewrite take_ge by lia.
Qed.

(** Only a canonical string decodes, and re-encoding what it decoded to
    gives the string back, so rows keep 32 raw bytes without loss. *)
Theorem hash32_string_decode s b :
  hash32_Decode s = Some b -> hash32_String b = s /\ length b = 32%nat /\ Forall is_byte b.
Proof. apply hash32_decode_inv. Qed.

Lemma hash32_string_decode_witness :
  hash32_String (replicate 32 10) = flat_map (fun _ => [48; 97]) (replicate 32 0) /\
  length (replicate 32 10) = 32%nat /\ Forall is_byte (replicate 32 10).
Proof.
  apply (hash32_string_decode (flat_map (fun _ => [48; 97]) (replicate 32 0))). vm_compute. reflexivity.
Defined.
