(* ===== verification/Keys.v ===== *)
(** * Key layouts of the disk store (internal/storeutil/keys.go,
      temporal_index_key.go, property_index_key.go, entity_index_key.go,
      unique_owner_key.go)

    Every row, index entry and marker of the badger store has a byte-string key;
    readers scan prefixes of the ordered key space.  The theorems show that keys
    of all kinds are distinct, that a prefix scan visits exactly the keys it is
    for, that the order of keys is the order the readers rely on, and that what
    was encoded is read back. *)

From S2P Require Import Prelude Bytes.

(** ** Buffers *)

(** [make([]byte, n)] and a write at an offset. *)
Definition make (n : nat) : bytes := repeat 0 n.

Definition put_at (buf : bytes) (off : nat) (b : bytes) : bytes := take off buf ++ b ++ drop (off + length b) buf.

Definition PutUint64 (buf : bytes) (off : nat) (v : Z) : bytes := put_at buf off (be_bytes 8 (u64 v)).

Definition PutUint16 (buf : bytes) (off : nat) (v : Z) : bytes := put_at buf off (be_bytes 2 v).

(** [BigEndian.Uint64(b)]: [None] is the panic on fewer than eight bytes. *)
Definition Uint64_at (key : bytes) (off : Z) : option Z :=
  if (0 <=? off) && (off + 8 <=? Z.of_nat (length key)) then Some (be_int (take 8 (drop (Z.to_nat off) key))) else None.

(** ** Tags *)

Definition KeyNode : Z := 1.
Definition KeyRel : Z := 2.
Definition KeyLabel : Z := 3.
Definition KeyRelType : Z := 4.
Definition KeyOut : Z := 5.
Definition KeyIn : Z := 6.
Definition KeyHistNode : Z := 7.
Definition KeyHistRel : Z := 8.
Definition KeyChangeLog : Z := 9.
Definition KeyPropertyIndex : Z := 10.
Definition KeyTemporalIndex : Z := 11.
Definition KeyEntityIndex : Z := 12.
Definition KeyExAdj : Z := 13.
Definition KeyFlushStage : Z := 14.
Definition KeyMeta : Z := 15.
Definition KeyUniqueOwner : Z := 16.

(** ** Entities, indexes by token, adjacency, history *)

Definition NodeKey (id : Z) : bytes := PutUint64 (put_at (make 9) 0 [KeyNode]) 1 id.

Definition RelKey (id : Z) : bytes := PutUint64 (put_at (make 9) 0 [KeyRel]) 1 id.

Definition LabelIndexKey (token nodeID : Z) : bytes := PutUint64 (PutUint16 (put_at (make 11) 0 [KeyLabel]) 1 token) 3 nodeID.

Definition RelTypeIndexKey (token relID : Z) : bytes := PutUint64 (PutUint16 (put_at (make 11) 0 [KeyRelType]) 1 token) 3 relID.

Definition OutKey (startID relType endID relID : Z) : bytes :=
  PutUint64 (PutUint64 (PutUint16 (PutUint64 (put_at (make 27) 0 [KeyOut]) 1 startID) 9 relType) 11 endID) 19 relID.

Definition InKey (endID relType startID relID : Z) : bytes :=
  PutUint64 (PutUint64 (PutUint16 (PutUint64 (put_at (make 27) 0 [KeyIn]) 1 endID) 9 relType) 11 startID) 19 relID.

Definition HistNodeKey (nodeID version : Z) : bytes :=
  put_at (PutUint64 (put_at (make 17) 0 [KeyHistNode]) 1 nodeID) 9 (be_bytes 8 version).

Definition HistRelKey (relID version : Z) : bytes :=
  put_at (PutUint64 (put_at (make 17) 0 [KeyHistRel]) 1 relID) 9 (be_bytes 8 version).

Definition HistNodePrefix (nodeID : Z) : bytes := PutUint64 (put_at (make 9) 0 [KeyHistNode]) 1 nodeID.

Definition HistRelPrefix (relID : Z) : bytes := PutUint64 (put_at (make 9) 0 [KeyHistRel]) 1 relID.

Definition ChangeLogKey (lsn : Z) : bytes := put_at (put_at (make 9) 0 [KeyChangeLog]) 1 (be_bytes 8 lsn).

Definition ChangeLogPrefix : bytes := [KeyChangeLog].

Definition ChangeLogLSNFromKey (key : bytes) : option Z :=
  if negb (length key =? 9)%nat || negb (bool_decide (head key = Some KeyChangeLog)) then None else Uint64_at key 1.

Definition MetaKey (name : bytes) : bytes := put_at (put_at (make (1 + length name)) 0 [KeyMeta]) 1 name.

Definition EncodeValidEndBound (bound : Z) : bytes := be_bytes 8 (u64 bound).

Definition DecodeValidEndBound (v : bytes) : option Z := if negb (length v =? 8)%nat then None else Some (i64 (be_int v)).

Definition ParseIDFromKey (key : bytes) (offset : Z) : option Z := i64 <$> Uint64_at key offset.

Definition ExAdjPrefix (nodeID : Z) (incoming : bool) : bytes :=
  let b := PutUint64 (put_at (make 10) 0 [KeyExAdj]) 1 nodeID in if incoming then put_at b 9 [1] else b.

(** The prefix has the capacity of the whole key, so the key is the prefix
    extended by zeros and overwritten. *)
Definition ExAdjKey (nodeID : Z) (incoming : bool) (relID : Z) : bytes :=
  PutUint64 (ExAdjPrefix nodeID incoming ++ make 8) 10 relID.

(** The prefix of one staged flush (badgerstore_flush_staged.go): the entry's own key
    follows it. *)
Definition stagePrefix (seq : Z) : bytes := put_at (put_at (make 9) 0 [KeyFlushStage]) 1 (be_bytes 8 seq).

Definition stageKey (seq : Z) (entry : bytes) : bytes := stagePrefix seq ++ entry.

Definition ParseRelIDFromAdjKey (key : bytes) : option Z := i64 <$> Uint64_at key 19.

(** ** The temporal index *)

Definition orderPreservingInt64Bits (v : Z) : Z := Z.lxor (u64 v) (2 ^ 63).

Definition orderPreservingInt64Value (bits : Z) : Z := i64 (Z.lxor bits (2 ^ 63)).

Definition TemporalIndexEntryKey (labelToken from id : Z) : bytes :=
  PutUint64 (put_at (PutUint16 (put_at (make 19) 0 [KeyTemporalIndex]) 1 labelToken) 3 (be_bytes 8 (orderPreservingInt64Bits from))) 11 id.

Definition TemporalIndexEntryValue (to : Z) : bytes := put_at (make 8) 0 (be_bytes 8 (u64 to)).

Definition TemporalIndexEntryValueDecode (val : bytes) : Z :=
  match Uint64_at val 0 with Some v => i64 v | None => 0 end.

Definition TemporalIndexTokenPrefix (labelToken : Z) : bytes := PutUint16 (put_at (make 3) 0 [KeyTemporalIndex]) 1 labelToken.

Definition TemporalIndexNodeIDFromKey (key : bytes) : option Z := ParseIDFromKey key (Z.of_nat (length key) - 8).

Definition TemporalIndexFromFromKey (key : bytes) : option Z := orderPreservingInt64Value <$> Uint64_at key 3.

(** ** The property index *)

Definition PropertyIndexEntryKey (propKeyToken : Z) (payload : bytes) (nodeID : Z) : bytes :=
  let b := PutUint16 (put_at (make (1 + 2 + length payload + 8)) 0 [KeyPropertyIndex]) 1 propKeyToken in
  PutUint64 (put_at b 3 payload) (3 + length payload) nodeID.

Definition PropertyIndexValuePrefix (propKeyToken : Z) (payload : bytes) : bytes :=
  put_at (PutUint16 (put_at (make (1 + 2 + length payload)) 0 [KeyPropertyIndex]) 1 propKeyToken) 3 payload.

Definition PropertyIndexTokenPrefix (propKeyToken : Z) : bytes := PutUint16 (put_at (make 3) 0 [KeyPropertyIndex]) 1 propKeyToken.

Definition PropertyIndexNodeIDFromKey (key : bytes) : option Z := ParseIDFromKey key (Z.of_nat (length key) - 8).

(** ** Owners of unique values *)

Definition UniqueOwnerVerbatimMax : Z := 1024.

Definition UniqueOwnerMarkKey (tag label : Z) (key : bytes) : bytes := [KeyUniqueOwner; tag] ++ be_bytes 2 label ++ key.

Definition UniqueOwnerClaimPrefix (label : Z) (key : bytes) : bytes :=
  [KeyUniqueOwner; 85] ++ be_bytes 2 label ++ be_bytes 2 (Z.of_nat (length key)) ++ key.

Definition UniqueOwnerClaimKey (sha256 : bytes -> bytes) (label : Z) (key valueKey : bytes) : bytes :=
  let b := UniqueOwnerClaimPrefix label key in
  if Z.of_nat (length valueKey) <=? UniqueOwnerVerbatimMax then b ++ [0] ++ valueKey else b ++ [1] ++ sha256 valueKey.

(** ** Payloads of values *)

Definition PropIdxDomainNumeric : Z := 1.

Definition PropIdxDomainRaw : Z := 2.

Definition PropIdxNumericPayloadLen : Z := 18.

(** A float64 is its IEEE 754 bits. *)
Definition orderPreservingFloat64Bits (bits : Z) : Z :=
  if negb (Z.land bits (2 ^ 63) =? 0) then 2 ^ 64 - 1 - bits else Z.lor bits (2 ^ 63).

Definition propNumericSortBitsForNaN : Z := 2 ^ 64 - 1.

(** [float64(n)] of a non-negative integer: the top 53 bits, rounded to nearest,
    ties to even. *)
Definition float64_of_pos (n : Z) : Z :=
  if n =? 0 then 0
  else
    let e := Z.log2 n in
    let q := if e <=? 52 then Z.shiftl n (52 - e)
             else
               let d := 2 ^ (e - 52) in
               let q := n / d in
               let r := n mod d in
               if (2 * r <? d) || ((2 * r =? d) && Z.even q) then q else q + 1 in
    (e + 1022) * 2 ^ 52 + q.

Definition float64_of_int (n : Z) : Z := if n <? 0 then 2 ^ 63 + float64_of_pos (- n) else float64_of_pos n.

(** [strconv.ParseInt(s, 10, 64)] and [ParseUint]; [None] is an error. *)
Fixpoint parse_digits (s : bytes) (acc : Z) : option Z :=
  match s with
  | [] => Some acc
  | c :: s' => if (48 <=? c) && (c <=? 57) then parse_digits s' (acc * 10 + (c - 48)) else None
  end.

Definition ParseUint (s : bytes) : option Z :=
  match s with
  | [] => None
  | _ => match parse_digits s 0 with Some n => if n <? 2 ^ 64 then Some n else None | None => None end
  end.

Definition ParseInt (s : bytes) : option Z :=
  let '(neg, digits) := match s with 43 :: d => (false, d) | 45 :: d => (true, d) | _ => (false, s) end in
  match ParseUint digits with
  | None => None
  | Some n =>
      if negb neg && (2 ^ 63 <=? n) then None
      else if neg && (2 ^ 63 <? n) then None
      else Some (if neg then - n else n)
  end.

Inductive numKind := Signed | Unsigned | Float32 | Float64.

(** The type tag of a value key: its sub-type byte and how its digits read. *)
Definition propNumericSubtypeTags (tag : bytes) : option (Z * numKind) :=
  if bool_decide (tag = bytes_of_string "i") then Some (1, Signed)
  else if bool_decide (tag = bytes_of_string "i8") then Some (2, Signed)
  else if bool_decide (tag = bytes_of_string "i16") then Some (3, Signed)
  else if bool_decide (tag = bytes_of_string "i32") then Some (4, Signed)
  else if bool_decide (tag = bytes_of_string "i64") then Some (5, Signed)
  else if bool_decide (tag = bytes_of_string "u") then Some (6, Unsigned)
  else if bool_decide (tag = bytes_of_string "u8") then Some (7, Unsigned)
  else if bool_decide (tag = bytes_of_string "u16") then Some (8, Unsigned)
  else if bool_decide (tag = bytes_of_string "u32") then Some (9, Unsigned)
  else if bool_decide (tag = bytes_of_string "u64") then Some (10, Unsigned)
  else if bool_decide (tag = bytes_of_string "f32") then Some (11, Float32)
  else if bool_decide (tag = bytes_of_string "f64") then Some (12, Float64)
  else None.

(** [strings.IndexByte(s, ':')] and the parts around it. *)
Fixpoint cut_colon (s : bytes) : option (bytes * bytes) :=
  match s with
  | [] => None
  | c :: s' => if c =? 58 then Some ([], s') else match cut_colon s' with Some (a, b) => Some (c :: a, b) | None => None end
  end.

Definition appendPropertyIndexNumericOut (dst : bytes) (subtype sortBits rawBits : Z) : bytes :=
  dst ++ [PropIdxDomainNumeric] ++ be_bytes 8 sortBits ++ [subtype] ++ be_bytes 8 rawBits.

Section Payloads.
(** [strconv.ParseFloat(s, bitSize)], the float64 bits of its result;
    [math.Float32bits] of a float64 rounded to float32; the bits of NaN. *)
Context (ParseFloat : bytes -> Z -> option Z) (Float32bits : Z -> Z) (NaN32 NaN64 : Z).

Definition appendPropertyIndexNumeric (dst : bytes) (subtype : Z) (k : numKind) (payload : bytes) : option bytes :=
  match k with
  | Signed =>
      match ParseInt payload with
      | Some n => Some (appendPropertyIndexNumericOut dst subtype (orderPreservingFloat64Bits (float64_of_int n)) (u64 n))
      | None => None
      end
  | Unsigned =>
      match ParseUint payload with
      | Some n => Some (appendPropertyIndexNumericOut dst subtype (orderPreservingFloat64Bits (float64_of_int n)) n)
      | None => None
      end
  | Float32 =>
      if bool_decide (payload = bytes_of_string "nan") then
        Some (appendPropertyIndexNumericOut dst subtype propNumericSortBitsForNaN NaN32)
      else match ParseFloat payload 32 with
           | Some f => Some (appendPropertyIndexNumericOut dst subtype (orderPreservingFloat64Bits f) (Float32bits f))
           | None => None
           end
  | Float64 =>
      if bool_decide (payload = bytes_of_string "nan") then
        Some (appendPropertyIndexNumericOut dst subtype propNumericSortBitsForNaN NaN64)
      else match ParseFloat payload 64 with
           | Some f => Some (appendPropertyIndexNumericOut dst subtype (orderPreservingFloat64Bits f) f)
           | None => None
           end
  end.

(** [None]: the value key has no payload. *)
Definition appendPropertyIndexValueBytes (dst : bytes) (valueKey : bytes) : option bytes :=
  match cut_colon valueKey with
  | None => None
  | Some (tag, rest) =>
      match propNumericSubtypeTags tag with
      | Some (subtype, k) => appendPropertyIndexNumeric dst subtype k rest
      | None => Some (dst ++ [PropIdxDomainRaw] ++ valueKey)
      end
  end.

Definition AppendPropertyIndexValuePrefix (dst : bytes) (propKeyToken : Z) (valueKey : bytes) : option bytes :=
  let n := length dst in
  appendPropertyIndexValueBytes (PutUint16 (dst ++ [KeyPropertyIndex; 0; 0]) (n + 1) propKeyToken) valueKey.

(** ** The entity index *)

Definition EntityIndexRelCurrent : Z := 1.

Definition EntityIndexNodeComposite : Z := 4.

Definition EntityIndexHeadLen : Z := 6.

Definition EntityIndexTailLen (kind : Z) : Z := if (kind =? EntityIndexRelCurrent) || (kind =? EntityIndexNodeComposite) then 8 else 16.

Definition AppendEntityIndexHead (dst : bytes) (kind scopeToken propKeyToken : Z) : bytes :=
  dst ++ [KeyEntityIndex; kind] ++ be_bytes 2 scopeToken ++ be_bytes 2 propKeyToken.

Definition AppendEntityIndexCompositeHead (dst : bytes) (label : Z) (first : Z) (others : list Z) : bytes :=
  fold_left (fun b tok => b ++ be_bytes 2 tok) others
    (AppendEntityIndexHead dst EntityIndexNodeComposite label first ++ [Z.of_nat (S (length others)) mod 256]).

Definition escapeEntityIndexRaw (dst s : bytes) : bytes :=
  fold_left (fun d c => let d := d ++ [c] in if c =? 0 then d ++ [255] else d) s dst.

Definition AppendEntityIndexValue (dst valueKey : bytes) : option bytes :=
  let n := length dst in
  match appendPropertyIndexValueBytes dst valueKey with
  | None => None
  | Some out =>
      if negb (bool_decide (out !! n = Some PropIdxDomainRaw)) then Some out
      else Some ((take (n + 1) out ++ escapeEntityIndexRaw [] valueKey) ++ [0])
  end.

Definition EntityIndexValueLen (valueKey : bytes) : Z :=
  match cut_colon valueKey with
  | None => 0
  | Some (tag, _) =>
      match propNumericSubtypeTags tag with
      | Some _ => PropIdxNumericPayloadLen
      | None => 1 + Z.of_nat (length valueKey) + Z.of_nat (length (List.filter (Z.eqb 0) valueKey)) + 1
      end
  end.

Definition AppendEntityIndexEntry (prefix : bytes) (kind id txFrom : Z) : bytes :=
  let prefix := prefix ++ be_bytes 8 (u64 id) in
  if (kind =? EntityIndexRelCurrent) || (kind =? EntityIndexNodeComposite) then prefix else prefix ++ be_bytes 8 (u64 txFrom).

Definition EntityIndexEntryOf (key : bytes) (kind : Z) : option (bytes * Z * Z) :=
  let tail := EntityIndexTailLen kind in
  if Z.of_nat (length key) <? EntityIndexHeadLen + 1 + tail then None
  else
    let end_ := Z.of_nat (length key) - tail in
    match ParseIDFromKey key end_, (if tail =? 16 then ParseIDFromKey key (end_ + 8) else Some 0) with
    | Some id, Some txFrom => Some (take (Z.to_nat end_) key, id, txFrom)
    | _, _ => None
    end.
End Payloads.

(** [entityIndexWalkLocked] on the persisted keys of one prefix, in key order:
    seek the prefix, take entries of its length, stop at a longer one. *)
Fixpoint walk_entries (p : bytes) (tail : nat) (keys : list bytes) : list bytes :=
  match keys with
  | [] => []
  | k :: rest =>
      if negb (bool_decide (take (length p) k = p)) then []
      else if negb (length k =? length p + tail)%nat then []
      else k :: walk_entries p tail rest
  end.

Fixpoint seek (p : bytes) (keys : list bytes) : list bytes :=
  match keys with
  | [] => []
  | k :: rest => if str_lt k p then seek p rest else keys
  end.

Definition entityIndexWalk (p : bytes) (kind : Z) (keys : list bytes) : list bytes :=
  walk_entries p (Z.to_nat (EntityIndexTailLen kind)) (seek p keys).

(** ** Layouts *)

Lemma put_at_app (a b c d : bytes) off : length a = off -> length b = length c -> put_at (a ++ c ++ d) off b = a ++ b ++ d.
Proof.
  intros <- Hl. unfold put_at. rewrite take_app_length. f_equal. f_equal. rewrite Hl, app_assoc, drop_app_length'; [done|].
  rewrite length_app. lia.
Qed.

Lemma length_make n : length (make n) = n.
Proof. apply repeat_length. Qed.

Lemma make_add n m : make (n + m) = make n ++ make m.
Proof. apply repeat_app. Qed.

Lemma NodeKey_eq id : NodeKey id = [1] ++ be_bytes 8 (u64 id).
Proof. reflexivity. Qed.

Lemma RelKey_eq id : RelKey id = [2] ++ be_bytes 8 (u64 id).
Proof. reflexivity. Qed.

Lemma LabelIndexKey_eq t id : LabelIndexKey t id = [3] ++ be_bytes 2 t ++ be_bytes 8 (u64 id).
Proof. reflexivity. Qed.

Lemma RelTypeIndexKey_eq t id : RelTypeIndexKey t id = [4] ++ be_bytes 2 t ++ be_bytes 8 (u64 id).
Proof. reflexivity. Qed.

Lemma OutKey_eq s t e r : OutKey s t e r = [5] ++ be_bytes 8 (u64 s) ++ be_bytes 2 t ++ be_bytes 8 (u64 e) ++ be_bytes 8 (u64 r).
Proof. reflexivity. Qed.

Lemma InKey_eq e t s r : InKey e t s r = [6] ++ be_bytes 8 (u64 e) ++ be_bytes 2 t ++ be_bytes 8 (u64 s) ++ be_bytes 8 (u64 r).
Proof. reflexivity. Qed.

Lemma HistNodeKey_eq id v : HistNodeKey id v = [7] ++ be_bytes 8 (u64 id) ++ be_bytes 8 v.
Proof. reflexivity. Qed.

Lemma HistRelKey_eq id v : HistRelKey id v = [8] ++ be_bytes 8 (u64 id) ++ be_bytes 8 v.
Proof. reflexivity. Qed.

Lemma ChangeLogKey_eq lsn : ChangeLogKey lsn = [9] ++ be_bytes 8 lsn.
Proof. reflexivity. Qed.

Lemma ExAdjKey_eq n inc r : ExAdjKey n inc r = [13] ++ be_bytes 8 (u64 n) ++ [if inc then 1 else 0] ++ be_bytes 8 (u64 r).
Proof. by destruct inc. Qed.

Lemma TemporalIndexEntryKey_eq t from id :
  TemporalIndexEntryKey t from id = [11] ++ be_bytes 2 t ++ be_bytes 8 (orderPreservingInt64Bits from) ++ be_bytes 8 (u64 id).
Proof. reflexivity. Qed.

Lemma MetaKey_eq name : MetaKey name = [15] ++ name.
Proof.
  unfold MetaKey. change (make (1 + length name)) with ([0] ++ make (length name)).
  rewrite <- (app_nil_l ([0] ++ _)), put_at_app by done. rewrite app_nil_l, <- (app_nil_r (make _)).
  rewrite put_at_app; [by rewrite app_nil_r|done|by rewrite length_make].
Qed.

Lemma PropertyIndexEntryKey_eq t (payload : bytes) id :
  PropertyIndexEntryKey t payload id = [10] ++ be_bytes 2 t ++ payload ++ be_bytes 8 (u64 id).
Proof.
  unfold PropertyIndexEntryKey, PutUint16, PutUint64. rewrite !make_add, <- !app_assoc.
  change (make 1) with [0]. change (make 2) with [0; 0].
  rewrite <- (app_nil_l ([0] ++ _)), put_at_app by done. rewrite app_nil_l. rewrite (put_at_app [KeyPropertyIndex] (be_bytes 2 t)) by done.
  assert (Hl : forall x, length ([KeyPropertyIndex] ++ be_bytes 2 t ++ x) = (3 + length x)%nat).
  { intros x. by rewrite !length_app, length_be_bytes. }
  rewrite !app_assoc, <- !(app_assoc ([KeyPropertyIndex] ++ be_bytes 2 t)). rewrite put_at_app by (done || by rewrite length_make).
  rewrite <- (app_nil_r (make 8)), app_assoc, put_at_app; [by rewrite app_nil_r, <- !app_assoc| |done].
  rewrite length_app. done.
Qed.

(** ** All keys *)

Inductive storeKey :=
  | KNode (id : Z) | KRel (id : Z) | KLabel (t id : Z) | KRelType (t id : Z)
  | KOut (s t e r : Z) | KIn (e t s r : Z) | KHistNode (id v : Z) | KHistRel (id v : Z) | KChangeLog (lsn : Z)
  | KExAdj (n : Z) (incoming : bool) (r : Z) | KMeta (name : bytes) | KTemporal (t from id : Z)
  | KProperty (t : Z) (payload : bytes) (id : Z) | KEntity (kind scope tok : Z) (payload : bytes) (id tx : Z)
  | KUniqueMark (tag label : Z) (key : bytes) | KUniqueClaim (label : Z) (key valueKey : bytes)
  | KFlushStage (seq : Z) (entry : bytes).

Section Keys.
Context (sha256 : bytes -> bytes).

Definition encode (k : storeKey) : bytes :=
  match k with
  | KNode id => NodeKey id
  | KRel id => RelKey id
  | KLabel t id => LabelIndexKey t id
  | KRelType t id => RelTypeIndexKey t id
  | KOut s t e r => OutKey s t e r
  | KIn e t s r => InKey e t s r
  | KHistNode id v => HistNodeKey id v
  | KHistRel id v => HistRelKey id v
  | KChangeLog lsn => ChangeLogKey lsn
  | KExAdj n incoming r => ExAdjKey n incoming r
  | KMeta name => MetaKey name
  | KTemporal t from id => TemporalIndexEntryKey t from id
  | KProperty t payload id => PropertyIndexEntryKey t payload id
  | KEntity kind scope tok payload id tx => AppendEntityIndexEntry (AppendEntityIndexHead [] kind scope tok ++ payload) kind id tx
  | KUniqueMark tag label key => UniqueOwnerMarkKey tag label key
  | KUniqueClaim label key valueKey => UniqueOwnerClaimKey sha256 label key valueKey
  | KFlushStage seq entry => stageKey seq entry
  end.

Definition u16_ok (t : Z) : Prop := 0 <= t < 2 ^ 16.

Definition u64_ok (v : Z) : Prop := 0 <= v < 2 ^ 64.

(** Fields within their machine ranges; an entity-index key of a current kind
    has no transaction time; a mark is a declaration or a seed mark. *)
Definition key_ok (k : storeKey) : Prop :=
  match k with
  | KNode id | KRel id => in_i64 id
  | KLabel t id | KRelType t id => u16_ok t /\ in_i64 id
  | KOut s t e r | KIn e t s r => in_i64 s /\ u16_ok t /\ in_i64 e /\ in_i64 r
  | KHistNode id v | KHistRel id v => in_i64 id /\ u64_ok v
  | KChangeLog lsn => u64_ok lsn
  | KExAdj n _ r => in_i64 n /\ in_i64 r
  | KMeta _ => True
  | KTemporal t from id => u16_ok t /\ in_i64 from /\ in_i64 id
  | KProperty t _ id => u16_ok t /\ in_i64 id
  | KEntity kind scope tok _ id tx =>
      1 <= kind <= 4 /\ u16_ok scope /\ u16_ok tok /\ in_i64 id /\ in_i64 tx /\ (EntityIndexTailLen kind = 8 -> tx = 0)
  | KUniqueMark tag label _ => (tag = 68 \/ tag = 82) /\ u16_ok label
  | KUniqueClaim label key valueKey => u16_ok label /\ Z.of_nat (length key) < 2 ^ 16
  | KFlushStage seq _ => u64_ok seq
  end.

(** ** Fields *)

Lemma split_be n x y r s :
  0 <= x < 256 ^ Z.of_nat n -> 0 <= y < 256 ^ Z.of_nat n -> be_bytes n x ++ r = be_bytes n y ++ s -> x = y /\ r = s.
Proof. intros Hx Hy E. apply app_inj_len in E as [E ->]; [|by rewrite !length_be_bytes]. by apply be_bytes_inj in E. Qed.

Lemma split_id x y r s : in_i64 x -> in_i64 y -> be_bytes 8 (u64 x) ++ r = be_bytes 8 (u64 y) ++ s -> x = y /\ r = s.
Proof. intros Hx Hy [E ->]%split_be; [|apply u64_range..]. split; [by apply u64_inj|done]. Qed.

Lemma split_u16 x y r s : u16_ok x -> u16_ok y -> be_bytes 2 x ++ r = be_bytes 2 y ++ s -> x = y /\ r = s.
Proof. intros Hx Hy. by apply (split_be 2). Qed.

Lemma split_u64 x y r s : u64_ok x -> u64_ok y -> be_bytes 8 x ++ r = be_bytes 8 y ++ s -> x = y /\ r = s.
Proof. intros Hx Hy. by apply (split_be 8). Qed.

Lemma order_bits v : in_i64 v -> orderPreservingInt64Bits v = v + 2 ^ 63.
Proof.
  intros Hv. unfold orderPreservingInt64Bits.
  assert (Hlow : forall w, 0 <= w < 2 ^ 63 -> Z.lxor w (2 ^ 63) = w + 2 ^ 63).
  { intros w Hw. rewrite Z.add_nocarry_lxor; [done|]. rewrite Z.land_comm. change (2 ^ 63) with (Z.shiftl 1 63). by apply land_shiftl_small. }
  unfold in_i64, MinInt64, MaxInt64 in Hv. destruct (Z.lt_ge_cases v 0).
  - assert (u64 v = Z.lxor (v + 2 ^ 63) (2 ^ 63)) as ->.
    { rewrite Hlow by lia. unfold u64. rewrite <- (Z.mod_add v 1), Z.mod_small by lia. lia. }
    by rewrite Z.lxor_assoc, Z.lxor_nilpotent, Z.lxor_0_r.
  - unfold u64. rewrite Z.mod_small by lia. apply Hlow. lia.
Qed.

Lemma order_bits_range v : in_i64 v -> u64_ok (orderPreservingInt64Bits v).
Proof. intros Hv. rewrite order_bits by done. unfold in_i64, u64_ok, MinInt64, MaxInt64 in *. lia. Qed.

Lemma order_value v : in_i64 v -> orderPreservingInt64Value (orderPreservingInt64Bits v) = v.
Proof.
  intros Hv. unfold orderPreservingInt64Value, orderPreservingInt64Bits.
  by rewrite Z.lxor_assoc, Z.lxor_nilpotent, Z.lxor_0_r, i64_u64, i64_id.
Qed.

Lemma split_order x y r s :
  in_i64 x -> in_i64 y -> be_bytes 8 (orderPreservingInt64Bits x) ++ r = be_bytes 8 (orderPreservingInt64Bits y) ++ s -> x = y /\ r = s.
Proof.
  intros Hx Hy [E ->]%split_u64; [|by apply order_bits_range..]. rewrite !order_bits in E by done. split; [lia|done].
Qed.

Definition key_tag (k : storeKey) : Z :=
  match k with
  | KNode _ => 1 | KRel _ => 2 | KLabel _ _ => 3 | KRelType _ _ => 4 | KOut _ _ _ _ => 5 | KIn _ _ _ _ => 6
  | KHistNode _ _ => 7 | KHistRel _ _ => 8 | KChangeLog _ => 9 | KProperty _ _ _ => 10 | KTemporal _ _ _ => 11
  | KEntity _ _ _ _ _ _ => 12 | KExAdj _ _ _ => 13 | KFlushStage _ _ => 14 | KMeta _ => 15 | KUniqueMark _ _ _ | KUniqueClaim _ _ _ => 16
  end.

(** The fields after the tag. *)
Definition key_body (k : storeKey) : bytes :=
  match k with
  | KNode id | KRel id => be_bytes 8 (u64 id)
  | KLabel t id | KRelType t id => be_bytes 2 t ++ be_bytes 8 (u64 id)
  | KOut s t e r | KIn s t e r => be_bytes 8 (u64 s) ++ be_bytes 2 t ++ be_bytes 8 (u64 e) ++ be_bytes 8 (u64 r)
  | KHistNode id v | KHistRel id v => be_bytes 8 (u64 id) ++ be_bytes 8 v
  | KChangeLog lsn => be_bytes 8 lsn
  | KExAdj n inc r => be_bytes 8 (u64 n) ++ [if inc then 1 else 0] ++ be_bytes 8 (u64 r)
  | KMeta name => name
  | KTemporal t from id => be_bytes 2 t ++ be_bytes 8 (orderPreservingInt64Bits from) ++ be_bytes 8 (u64 id)
  | KProperty t payload id => be_bytes 2 t ++ payload ++ be_bytes 8 (u64 id)
  | KEntity kind scope tok payload id tx =>
      [kind] ++ be_bytes 2 scope ++ be_bytes 2 tok ++ payload ++
      (if EntityIndexTailLen kind =? 8 then be_bytes 8 (u64 id) else be_bytes 8 (u64 id) ++ be_bytes 8 (u64 tx))
  | KUniqueMark tag label key => [tag] ++ be_bytes 2 label ++ key
  | KUniqueClaim label key valueKey =>
      [85] ++ be_bytes 2 label ++ be_bytes 2 (Z.of_nat (length key)) ++ key ++
      (if Z.of_nat (length valueKey) <=? UniqueOwnerVerbatimMax then [0] ++ valueKey else [1] ++ sha256 valueKey)
  | KFlushStage seq entry => be_bytes 8 seq ++ entry
  end.

Lemma encode_eq k : encode k = key_tag k :: key_body k.
Proof.
  destruct k; try reflexivity; cbn [encode key_tag key_body].
  - by rewrite ExAdjKey_eq.
  - apply MetaKey_eq.
  - by rewrite PropertyIndexEntryKey_eq.
  - unfold AppendEntityIndexEntry, AppendEntityIndexHead, EntityIndexTailLen. destruct (_ || _); rewrite <- !app_assoc; done.
  - unfold UniqueOwnerClaimKey, UniqueOwnerClaimPrefix. destruct (_ <=? _); rewrite <- !app_assoc; done.
Qed.

(** Take equal fields off the front of [E], one by one. *)
Ltac fields E :=
  repeat lazymatch type of E with
  | be_bytes 8 (u64 _) ++ _ = _ => apply split_id in E as [-> E]; [|done..]
  | be_bytes 8 (orderPreservingInt64Bits _) ++ _ = _ => apply split_order in E as [-> E]; [|done..]
  | be_bytes 8 _ ++ _ = _ => apply split_u64 in E as [-> E]; [|done..]
  | be_bytes 2 _ ++ _ = _ => apply split_u16 in E as [-> E]; [|done..]
  | be_bytes 8 ?x = be_bytes 8 ?y => rewrite <- (app_nil_r (be_bytes 8 x)), <- (app_nil_r (be_bytes 8 y)) in E
  end.

Lemma split_byte (x y : Z) (r s : bytes) : [x] ++ r = [y] ++ s -> x = y /\ r = s.
Proof. intros E. by injection E. Qed.

(** A tail of one length after a variable part. *)
Lemma split_tail (a b c d : bytes) : length b = length d -> a ++ b = c ++ d -> a = c /\ b = d.
Proof. apply app_inj_2. Qed.

Lemma entity_body_inj kind scope tok payload id tx kind' scope' tok' payload' id' tx' :
  key_ok (KEntity kind scope tok payload id tx) -> key_ok (KEntity kind' scope' tok' payload' id' tx') ->
  key_body (KEntity kind scope tok payload id tx) = key_body (KEntity kind' scope' tok' payload' id' tx') ->
  KEntity kind scope tok payload id tx = KEntity kind' scope' tok' payload' id' tx'.
Proof.
  intros (Hkd & ? & ? & ? & ? & Htx) (Hkd' & ? & ? & ? & ? & Htx') E. cbn [key_body] in E.
  apply split_byte in E as [<- E]. fields E. destruct (Z.eqb_spec (EntityIndexTailLen kind) 8) as [H8|_].
  - apply split_tail in E as [-> E]; [|by rewrite !length_be_bytes]. fields E. by rewrite Htx, Htx'.
  - apply split_tail in E as [-> E]; [|by rewrite !length_app, !length_be_bytes]. by fields E.
Qed.

Lemma claim_body_inj label key valueKey label' key' valueKey' :
  key_ok (KUniqueClaim label key valueKey) -> key_ok (KUniqueClaim label' key' valueKey') ->
  key_body (KUniqueClaim label key valueKey) = key_body (KUniqueClaim label' key' valueKey') ->
  (label = label' /\ key = key') /\ (valueKey = valueKey' \/ exists a b, a <> b /\ sha256 a = sha256 b).
Proof.
  intros [? Hl] [? Hl'] E. cbn [key_body] in E. apply split_byte in E as [_ E]. fields E.
  apply split_u16 in E as [Hlen E]; [|unfold u16_ok; lia..]. apply app_inj_len in E as [-> E]; [|lia]. split; [done|].
  destruct (_ <=? _), (_ <=? _); apply split_byte in E as [E0 E]; try done; [by left|].
  destruct (decide (valueKey = valueKey')); [by left|right; by eexists _, _].
Qed.

(** C17: keys of all kinds are distinct: two keys with fields in their machine
    ranges have the same bytes only if they are of the same kind with the same
    fields, long unique values apart, whose digests would collide. *)
Theorem store_keys_distinct k k' (Hk : key_ok k) (Hk' : key_ok k') (E : encode k = encode k') :
  k = k' \/ exists a b, a <> b /\ sha256 a = sha256 b.
Proof.
  rewrite !encode_eq in E. pose proof (f_equal (List.hd 0) E) as Ht. apply (f_equal tail) in E. cbn [tail List.hd] in E, Ht.
  destruct k, k'; try done; cbn [key_body key_ok] in *; clear Ht; destruct_and?; fields E; try (by left).
  - apply split_byte in E as [Hi E]. fields E. left. destruct incoming, incoming0; done.
  - left. by rewrite E.
  - apply split_tail in E as [-> E]; [|by rewrite !length_be_bytes]. fields E. by left.
  - left. apply entity_body_inj; [done..|exact E].
  - apply split_byte in E as [-> E]. fields E. left. by rewrite E.
  - apply split_byte in E as [-> E]. lia.
  - apply split_byte in E as [<- E]. lia.
  - apply (claim_body_inj label key valueKey label0 key0 valueKey0) in E as [[-> ->] [->|Hc]]; [by left|by right|done..].
  - left. by rewrite E.
Qed.

(** ** Prefix scans *)

Lemma prefix_encode t f k : (t :: f) `prefix_of` encode k <-> t = key_tag k /\ exists rest, key_body k = f ++ rest.
Proof.
  rewrite encode_eq. split.
  - intros [rest E]. cbn in E. injection E as -> ->. split; [done|by eexists].
  - intros [-> [rest ->]]. by exists rest.
Qed.

(** Scan the keys of one kind: only that kind has the tag. *)
Ltac scan k :=
  rewrite prefix_encode; split;
  [ intros [Ht [rest E]]; destruct k; try done; cbn [key_body key_ok] in *; destruct_and?; rewrite <- ?app_assoc in E;
    fields E; by repeat eexists
  | intros Hex; repeat match goal with H : ex _ |- _ => destruct H end; subst k; split; [done|];
    cbn [key_body]; eexists; rewrite <- ?app_assoc; reflexivity ].

Lemma scan_hist_node id k : key_ok k -> in_i64 id -> HistNodePrefix id `prefix_of` encode k <-> exists v, k = KHistNode id v.
Proof. intros Hk Hid. change (HistNodePrefix id) with (7 :: be_bytes 8 (u64 id)). scan k. Qed.

Lemma scan_hist_rel id k : key_ok k -> in_i64 id -> HistRelPrefix id `prefix_of` encode k <-> exists v, k = KHistRel id v.
Proof. intros Hk Hid. change (HistRelPrefix id) with (8 :: be_bytes 8 (u64 id)). scan k. Qed.

Lemma scan_change_log k : key_ok k -> ChangeLogPrefix `prefix_of` encode k <-> exists lsn, k = KChangeLog lsn.
Proof. intros Hk. change ChangeLogPrefix with (9 :: ([] : bytes)). scan k. Qed.

Lemma scan_temporal t k : key_ok k -> u16_ok t -> TemporalIndexTokenPrefix t `prefix_of` encode k <-> exists from id, k = KTemporal t from id.
Proof. intros Hk Ht0. change (TemporalIndexTokenPrefix t) with (11 :: be_bytes 2 t). scan k. Qed.

Lemma scan_property t k : key_ok k -> u16_ok t -> PropertyIndexTokenPrefix t `prefix_of` encode k <-> exists payload id, k = KProperty t payload id.
Proof. intros Hk Ht0. change (PropertyIndexTokenPrefix t) with (10 :: be_bytes 2 t). scan k. Qed.

Lemma scan_ex_adj n inc k : key_ok k -> in_i64 n -> ExAdjPrefix n inc `prefix_of` encode k <-> exists r, k = KExAdj n inc r.
Proof.
  intros Hk Hn. replace (ExAdjPrefix n inc) with (13 :: be_bytes 8 (u64 n) ++ [if inc then 1 else 0]) by (by destruct inc).
  rewrite prefix_encode. split.
  - intros [Ht [rest E]]. destruct k; try done. destruct Hk. cbn [key_body] in E. rewrite <- app_assoc in E. fields E.
    apply split_byte in E as [Hi _]. destruct incoming, inc; try done; by eexists.
  - intros [r ->]. split; [done|]. cbn [key_body]. eexists. by rewrite <- app_assoc.
Qed.

Lemma scan_claims label key k : key_ok k -> u16_ok label -> Z.of_nat (length (key : bytes)) < 2 ^ 16 ->
  UniqueOwnerClaimPrefix label key `prefix_of` encode k <-> exists valueKey, k = KUniqueClaim label key valueKey.
Proof.
  intros Hk Hl Hlen. unfold UniqueOwnerClaimPrefix. cbn [app]. rewrite prefix_encode. split.
  - intros [Ht [rest E]]. pose proof (f_equal (List.hd 0) E) as E0. apply (f_equal tail) in E.
    destruct k; try done; cbn [key_body key_ok] in *; destruct Hk as [Hk1 Hk2]; cbn [List.hd tail app] in E, E0; [lia|].
    rewrite <- !app_assoc in E. fields E.
    apply split_u16 in E as [E1 E]; [|unfold u16_ok, bytes in *; lia..]. apply app_inj_len in E as [-> E]; [|unfold bytes in *; lia]. by eexists.
  - intros [valueKey ->]. split; [done|]. cbn [key_body app]. eexists. cbn [app]. by f_equal.
Qed.

Lemma scan_stage seq k : key_ok k -> u64_ok seq -> stagePrefix seq `prefix_of` encode k <-> exists entry, k = KFlushStage seq entry.
Proof. intros Hk Hs. change (stagePrefix seq) with (14 :: be_bytes 8 seq). scan k. Qed.

(** A prefix scan visits exactly the keys it is for: of all keys of the store,
    those with the history prefix of an entity are its versions, those with the
    change-log prefix the log's records, those with an ex-adjacency prefix the
    node's entries in that direction, those with a temporal or property token's
    prefix the token's entries, and those with a claim prefix the claims of that
    label and key. *)
Theorem prefix_scans_exact k id t inc label (key : bytes)
  (Hk : key_ok k) (Hid : in_i64 id) (Ht : u16_ok t) (Hlabel : u16_ok label) (Hkey : Z.of_nat (length key) < 2 ^ 16) :
  (HistNodePrefix id `prefix_of` encode k <-> exists v, k = KHistNode id v) /\
  (HistRelPrefix id `prefix_of` encode k <-> exists v, k = KHistRel id v) /\
  (ChangeLogPrefix `prefix_of` encode k <-> exists lsn, k = KChangeLog lsn) /\
  (ExAdjPrefix id inc `prefix_of` encode k <-> exists r, k = KExAdj id inc r) /\
  (TemporalIndexTokenPrefix t `prefix_of` encode k <-> exists from n, k = KTemporal t from n) /\
  (PropertyIndexTokenPrefix t `prefix_of` encode k <-> exists payload n, k = KProperty t payload n) /\
  (UniqueOwnerClaimPrefix label key `prefix_of` encode k <-> exists valueKey, k = KUniqueClaim label key valueKey).
Proof.
  refine (conj (scan_hist_node id k Hk Hid) (conj (scan_hist_rel id k Hk Hid) (conj (scan_change_log k Hk)
    (conj (scan_ex_adj id inc k Hk Hid) (conj (scan_temporal t k Hk Ht) (conj (scan_property t k Hk Ht)
    (scan_claims label key k Hk Hlabel Hkey))))))).
Qed.
End Keys.

(** ** Reading back *)

Lemma Uint64_field a v b (off : Z) : u64_ok v -> off = Z.of_nat (length (a : bytes)) -> Uint64_at (a ++ be_bytes 8 v ++ b) off = Some v.
Proof.
  intros Hv ->. unfold Uint64_at. rewrite !length_app, length_be_bytes.
  rewrite (proj2 (Z.leb_le 0 _)), (proj2 (Z.leb_le (_ + 8) _)) by lia. cbn [andb]. rewrite Nat2Z.id, drop_app_length.
  rewrite take_app_length' by (by rewrite length_be_bytes). by rewrite be_int_bytes.
Qed.

Lemma ID_field a id b (off : Z) :
  in_i64 id -> off = Z.of_nat (length (a : bytes)) -> ParseIDFromKey (a ++ be_bytes 8 (u64 id) ++ b) off = Some id.
Proof. intros Hid Ho. unfold ParseIDFromKey. rewrite Uint64_field by (done || apply u64_range). cbn. by rewrite i64_u64, i64_id. Qed.

(** The last field of a key. *)
Lemma ID_last a id (off : Z) :
  in_i64 id -> off = Z.of_nat (length (a : bytes)) -> ParseIDFromKey (a ++ be_bytes 8 (u64 id)) off = Some id.
Proof. intros Hid Ho. rewrite <- (app_nil_r (be_bytes 8 _)). by apply ID_field. Qed.

Lemma entity_entry_read kind prefix id tx :
  in_i64 id -> in_i64 tx -> (EntityIndexTailLen kind = 8 -> tx = 0) -> EntityIndexHeadLen < Z.of_nat (length (prefix : bytes)) ->
  EntityIndexEntryOf (AppendEntityIndexEntry prefix kind id tx) kind = Some (prefix, id, tx).
Proof.
  intros Hid Htx H0 Hl. unfold EntityIndexEntryOf, AppendEntityIndexEntry, EntityIndexTailLen in *.
  destruct (_ || _); cbv zeta; rewrite !length_app, !length_be_bytes.
  - destruct (Z.ltb_spec (Z.of_nat (length prefix + 8)) (EntityIndexHeadLen + 1 + 8)); [lia|].
    rewrite ID_last by (done || lia). cbn [Z.eqb]. replace (Z.to_nat _) with (length prefix) by lia. rewrite take_app_length, H0 by done. done.
  - destruct (Z.ltb_spec (Z.of_nat (length prefix + 8 + 8)) (EntityIndexHeadLen + 1 + 16)); [lia|]. rewrite <- app_assoc.
    rewrite ID_field by (done || lia). change (16 =? 16) with true. cbv iota. rewrite app_assoc, ID_last by (done || rewrite length_app, length_be_bytes; lia).
    rewrite <- app_assoc. replace (Z.to_nat _) with (length prefix) by lia. by rewrite take_app_length.
Qed.

(** What a key was built from is read back from its bytes: IDs at their
    offsets, versions, log sequence numbers, the start and end of a temporal
    entry, the node of a property entry whatever its payload, the value prefix,
    ID and transaction time of an entity-index entry, and valid-end bounds. *)
Theorem store_keys_read_back id id2 id3 t v (payload prefix : bytes) kind tx inc
  (Hid : in_i64 id) (Hid2 : in_i64 id2) (Hid3 : in_i64 id3) (Htx : in_i64 tx) (Hv : u64_ok v)
  (Hcur : EntityIndexTailLen kind = 8 -> tx = 0) (Hp : EntityIndexHeadLen < Z.of_nat (length prefix)) :
  ParseIDFromKey (NodeKey id) 1 = Some id /\ ParseIDFromKey (RelKey id) 1 = Some id /\
  ParseIDFromKey (LabelIndexKey t id) 3 = Some id /\ ParseIDFromKey (RelTypeIndexKey t id) 3 = Some id /\
  (ParseIDFromKey (OutKey id t id2 id3) 1 = Some id /\ ParseIDFromKey (OutKey id t id2 id3) 11 = Some id2 /\
   ParseRelIDFromAdjKey (OutKey id t id2 id3) = Some id3 /\ ParseRelIDFromAdjKey (InKey id t id2 id3) = Some id3) /\
  (ParseIDFromKey (HistNodeKey id v) 1 = Some id /\ Uint64_at (HistNodeKey id v) 9 = Some v) /\
  ChangeLogLSNFromKey (ChangeLogKey v) = Some v /\ ParseIDFromKey (ExAdjKey id inc id2) 10 = Some id2 /\
  (TemporalIndexFromFromKey (TemporalIndexEntryKey t id id2) = Some id /\
   TemporalIndexNodeIDFromKey (TemporalIndexEntryKey t id id2) = Some id2 /\
   TemporalIndexEntryValueDecode (TemporalIndexEntryValue id) = id) /\
  PropertyIndexNodeIDFromKey (PropertyIndexEntryKey t payload id) = Some id /\
  EntityIndexEntryOf (AppendEntityIndexEntry prefix kind id tx) kind = Some (prefix, id, tx) /\
  DecodeValidEndBound (EncodeValidEndBound id) = Some id.
Proof.
  split_and!.
  - rewrite NodeKey_eq. by apply ID_last.
  - rewrite RelKey_eq. by apply ID_last.
  - rewrite LabelIndexKey_eq, app_assoc. by apply ID_last.
  - rewrite RelTypeIndexKey_eq, app_assoc. by apply ID_last.
  - rewrite OutKey_eq. by apply ID_field.
  - rewrite OutKey_eq, !app_assoc, <- (app_assoc _ (be_bytes 8 (u64 id2))). by apply ID_field.
  - rewrite OutKey_eq, !app_assoc. by apply ID_last.
  - rewrite InKey_eq, !app_assoc. by apply ID_last.
  - rewrite HistNodeKey_eq. by apply ID_field.
  - rewrite HistNodeKey_eq, app_assoc, <- (app_nil_r (be_bytes 8 v)). by apply Uint64_field.
  - unfold ChangeLogLSNFromKey. rewrite ChangeLogKey_eq, <- (app_nil_r (be_bytes 8 v)).
    rewrite (Uint64_field [9]) by done. rewrite !length_app, length_be_bytes. done.
  - rewrite ExAdjKey_eq, !app_assoc. apply ID_last; [done|]. by rewrite !length_app, length_be_bytes.
  - unfold TemporalIndexFromFromKey. rewrite TemporalIndexEntryKey_eq, app_assoc, Uint64_field by (done || by apply order_bits_range).
    cbn [fmap option_fmap option_map]. f_equal. by apply order_value.
  - unfold TemporalIndexNodeIDFromKey. rewrite TemporalIndexEntryKey_eq, !app_assoc. by apply ID_last.
  - unfold TemporalIndexEntryValueDecode. replace (TemporalIndexEntryValue id) with ([] ++ be_bytes 8 (u64 id) ++ []) by done.
    rewrite Uint64_field by (done || apply u64_range). by rewrite i64_u64, i64_id.
  - unfold PropertyIndexNodeIDFromKey. rewrite PropertyIndexEntryKey_eq, !app_assoc. apply ID_last; [done|].
    rewrite !length_app, !length_be_bytes. lia.
  - by apply entity_entry_read.
  - unfold DecodeValidEndBound, EncodeValidEndBound. rewrite length_be_bytes. cbn [Nat.eqb negb].
    rewrite be_int_bytes by apply u64_range. by rewrite i64_u64, i64_id.
Qed.

(** ** The order of keys *)

Lemma str_lt_id x y : 0 <= x <= MaxInt64 -> 0 <= y <= MaxInt64 -> str_lt (be_bytes 8 (u64 x)) (be_bytes 8 (u64 y)) = (x <? y).
Proof.
  unfold MaxInt64. intros Hx Hy. unfold u64. rewrite !Z.mod_small by lia. apply str_lt_be; change (256 ^ Z.of_nat 8) with (2 ^ 64); lia.
Qed.

(** The key order is the order readers rely on: nodes by ID, an entity's
    versions ascending, the change log by sequence number, and a label's temporal
    entries by start (negative starts first) and then by ID. *)
Theorem key_scan_order t id id' v v' from from'
  (Hid : 0 <= id <= MaxInt64) (Hid' : 0 <= id' <= MaxInt64) (Hv : u64_ok v) (Hv' : u64_ok v') (Hf : in_i64 from) (Hf' : in_i64 from') :
  str_lt (NodeKey id) (NodeKey id') = (id <? id') /\
  str_lt (HistNodeKey id v) (HistNodeKey id v') = (v <? v') /\
  str_lt (ChangeLogKey v) (ChangeLogKey v') = (v <? v') /\
  str_lt (TemporalIndexEntryKey t from id) (TemporalIndexEntryKey t from' id') = (from <? from') || ((from =? from') && (id <? id')).
Proof.
  assert (Hb : forall x y, u64_ok x -> u64_ok y -> str_lt (be_bytes 8 x) (be_bytes 8 y) = (x <? y)) by (intros; by apply str_lt_be).
  split_and!.
  - by rewrite !NodeKey_eq, str_lt_prefix, str_lt_id.
  - rewrite !HistNodeKey_eq, !app_assoc, str_lt_prefix. by apply Hb.
  - rewrite !ChangeLogKey_eq, str_lt_prefix. by apply Hb.
  - rewrite !TemporalIndexEntryKey_eq, !str_lt_prefix, str_lt_fixed by (by rewrite !length_be_bytes).
    rewrite Hb, str_lt_id, !order_bits by (done || by apply order_bits_range). f_equal.
    + destruct (Z.ltb_spec (from + 2 ^ 63) (from' + 2 ^ 63)), (Z.ltb_spec from from'); lia.
    + f_equal. destruct (Z.eqb_spec from from') as [->|Hne]; [by apply bool_decide_eq_true|]. apply bool_decide_eq_false.
      intros E. apply be_bytes_inj in E; [lia|unfold in_i64, MinInt64, MaxInt64 in *; change (256 ^ Z.of_nat 8) with (2 ^ 64); lia..].
Qed.

(** ** The order of numbers *)

(** The rounded mantissa, between 2^52 and 2^53. *)
Definition mantissa (n : Z) : Z :=
  let e := Z.log2 n in
  if e <=? 52 then Z.shiftl n (52 - e)
  else let d := 2 ^ (e - 52) in
       if (2 * (n mod d) <? d) || ((2 * (n mod d) =? d) && Z.even (n / d)) then n / d else n / d + 1.

Lemma float64_of_pos_eq n : 0 < n -> float64_of_pos n = (Z.log2 n + 1022) * 2 ^ 52 + mantissa n.
Proof. intros Hn. unfold float64_of_pos, mantissa. destruct (Z.eqb_spec n 0); [lia|]. done. Qed.

Lemma mantissa_range n : 0 < n -> 2 ^ 52 <= mantissa n <= 2 ^ 53 /\ (Z.log2 n <= 52 -> mantissa n = n * 2 ^ (52 - Z.log2 n) /\ mantissa n < 2 ^ 53).
Proof.
  intros Hn. pose proof (Z.log2_spec n Hn) as [Hlo Hhi]. pose proof (Z.log2_nonneg n). unfold mantissa.
  destruct (Z.leb_spec (Z.log2 n) 52) as [He|He].
  - rewrite Z.shiftl_mul_pow2 by lia. assert (0 < 2 ^ (52 - Z.log2 n)) by (apply Z.pow_pos_nonneg; lia).
    assert (H1 : 2 ^ Z.log2 n * 2 ^ (52 - Z.log2 n) = 2 ^ 52) by (rewrite <- Z.pow_add_r by lia; f_equal; lia).
    assert (H2 : 2 ^ Z.succ (Z.log2 n) * 2 ^ (52 - Z.log2 n) = 2 ^ 53) by (rewrite <- Z.pow_add_r by lia; f_equal; lia).
    split; [split; nia|]. intros _. split; [done|nia].
  - split; [|lia]. set (d := 2 ^ (Z.log2 n - 52)). assert (0 < d) by (apply Z.pow_pos_nonneg; lia).
    assert (H1 : 2 ^ 52 * d = 2 ^ Z.log2 n) by (unfold d; rewrite <- Z.pow_add_r by lia; f_equal; lia).
    assert (H2 : 2 ^ 53 * d = 2 ^ Z.succ (Z.log2 n)) by (unfold d; rewrite <- Z.pow_add_r by lia; f_equal; lia).
    assert (2 ^ 52 <= n / d < 2 ^ 53) by (split; [apply Z.div_le_lower_bound; lia|apply Z.div_lt_upper_bound; lia]).
    cbv zeta. destruct (_ || _); lia.
Qed.

Lemma mantissa_mono n m : 0 < n -> n <= m -> Z.log2 n = Z.log2 m -> mantissa n <= mantissa m.
Proof.
  intros Hn Hm He. pose proof (Z.log2_nonneg m). unfold mantissa. rewrite He. destruct (Z.leb_spec (Z.log2 m) 52).
  - rewrite !Z.shiftl_mul_pow2 by lia. apply Z.mul_le_mono_nonneg_r; [apply Z.pow_nonneg; lia|done].
  - set (d := 2 ^ (Z.log2 m - 52)). assert (Hd : 0 < d) by (apply Z.pow_pos_nonneg; lia). cbv zeta.
    assert (Hq : n / d <= m / d) by (apply Z.div_le_mono; lia).
    destruct (Z.eq_dec (n / d) (m / d)) as [Eq|Hne].
    + rewrite <- Eq. assert (n mod d <= m mod d) by (rewrite !Z.mod_eq by lia; rewrite <- Eq; lia).
      destruct (Z.even (n / d)); rewrite ?andb_true_r, ?andb_false_r, ?orb_false_r;
        repeat match goal with |- context [?a <? ?b] => destruct (Z.ltb_spec a b) | |- context [?a =? ?b] => destruct (Z.eqb_spec a b) end; cbn [orb]; lia.
    + destruct (_ || _), (_ || _); lia.
Qed.

Lemma float64_pos_mono n m : 0 <= n <= m -> float64_of_pos n <= float64_of_pos m.
Proof.
  intros H. destruct (Z.eq_dec n 0) as [->|Hn].
  - destruct (Z.eq_dec m 0) as [->|Hm]; [done|]. change (float64_of_pos 0) with 0. rewrite float64_of_pos_eq by lia.
    pose proof (mantissa_range m ltac:(lia)). pose proof (Z.log2_nonneg m). lia.
  - rewrite !float64_of_pos_eq by lia. pose proof (mantissa_range n ltac:(lia)) as [? _]. pose proof (mantissa_range m ltac:(lia)) as [? _].
    assert (Hl : Z.log2 n <= Z.log2 m) by (apply Z.log2_le_mono; lia). destruct (Z.eq_dec (Z.log2 n) (Z.log2 m)) as [E|].
    + pose proof (mantissa_mono n m ltac:(lia) ltac:(lia) E). rewrite E. lia.
    + lia.
Qed.

(** Integers up to 2^53 are not rounded. *)
Lemma float64_pos_strict n m : 0 <= n < m -> m <= 2 ^ 53 -> float64_of_pos n < float64_of_pos m.
Proof.
  intros H Hm. assert (Hem : Z.log2 n <= 52) by (destruct (Z.eq_dec n 0) as [->|]; [done|]; apply Z.lt_succ_r, Z.log2_lt_pow2; lia).
  destruct (Z.eq_dec n 0) as [->|Hn].
  - change (float64_of_pos 0) with 0. rewrite float64_of_pos_eq by lia. pose proof (mantissa_range m ltac:(lia)). pose proof (Z.log2_nonneg m). lia.
  - rewrite !float64_of_pos_eq by lia. pose proof (mantissa_range n ltac:(lia)) as [? [E1 ?]]; [done|]. pose proof (mantissa_range m ltac:(lia)) as [? E2].
    assert (Hl : Z.log2 n <= Z.log2 m) by (apply Z.log2_le_mono; lia). destruct (Z.eq_dec (Z.log2 n) (Z.log2 m)) as [E|].
    + destruct E2 as [E2 _]; [lia|]. rewrite E1, E2, E. assert (0 < 2 ^ (52 - Z.log2 m)) by (apply Z.pow_pos_nonneg; lia). nia.
    + lia.
Qed.

Lemma float64_pos_range n : 0 <= n <= 2 ^ 64 -> 0 <= float64_of_pos n < 2 ^ 63.
Proof.
  intros H. destruct (Z.eq_dec n 0) as [->|Hn]; [cbn; lia|]. rewrite float64_of_pos_eq by lia.
  pose proof (mantissa_range n ltac:(lia)) as [? _]. pose proof (Z.log2_nonneg n).
  assert (Z.log2 n <= Z.log2 (2 ^ 64)) by (apply Z.log2_le_mono; lia). rewrite Z.log2_pow2 in * by lia. lia.
Qed.

Lemma sort_bits_low b : 0 <= b < 2 ^ 63 -> orderPreservingFloat64Bits b = b + 2 ^ 63.
Proof.
  intros Hb. unfold orderPreservingFloat64Bits. rewrite Z.land_comm, Z.lor_comm. change (2 ^ 63) with (Z.shiftl 1 63) at 1 2.
  rewrite land_shiftl_small, lor_shiftl_add by lia. cbn [Z.eqb negb]. lia.
Qed.

Lemma sort_bits_high c : 0 <= c < 2 ^ 63 -> orderPreservingFloat64Bits (2 ^ 63 + c) = 2 ^ 63 - 1 - c.
Proof.
  intros Hc. unfold orderPreservingFloat64Bits. assert (Hl : Z.land (2 ^ 63 + c) (2 ^ 63) <> 0).
  { replace (2 ^ 63 + c) with (Z.lor (Z.shiftl 1 63) c) by (rewrite lor_shiftl_add by lia; lia). intros E.
    apply (f_equal (fun z => Z.testbit z 63)) in E. rewrite Z.land_spec, Z.lor_spec, Z.bits_0 in E. by cbn in E. }
  apply Z.eqb_neq in Hl. rewrite Hl. cbn [negb]. lia.
Qed.

(** The sort key of an integer. *)
Definition sort_key (n : Z) : Z := orderPreservingFloat64Bits (float64_of_int n).

Lemma sort_key_eq n : - 2 ^ 64 <= n <= 2 ^ 64 ->
  sort_key n = if n <? 0 then 2 ^ 63 - 1 - float64_of_pos (- n) else float64_of_pos n + 2 ^ 63.
Proof.
  intros Hn. unfold sort_key, float64_of_int. destruct (Z.ltb_spec n 0).
  - apply sort_bits_high, float64_pos_range. lia.
  - apply sort_bits_low, float64_pos_range. lia.
Qed.

Lemma sort_key_mono n m : - 2 ^ 64 <= n -> n <= m -> m <= 2 ^ 64 -> sort_key n <= sort_key m.
Proof.
  intros Hn Hle Hm. rewrite !sort_key_eq by lia. destruct (Z.ltb_spec n 0), (Z.ltb_spec m 0); try lia.
  - pose proof (float64_pos_mono (- m) (- n) ltac:(lia)). lia.
  - pose proof (float64_pos_range (- n) ltac:(lia)). pose proof (float64_pos_range m ltac:(lia)). lia.
  - pose proof (float64_pos_mono n m ltac:(lia)). lia.
Qed.

Lemma sort_key_strict n m : - 2 ^ 53 <= n -> n < m -> m <= 2 ^ 53 -> sort_key n < sort_key m.
Proof.
  intros Hn Hlt Hm. rewrite !sort_key_eq by lia. destruct (Z.ltb_spec n 0), (Z.ltb_spec m 0); try lia.
  - pose proof (float64_pos_strict (- m) (- n) ltac:(lia) ltac:(lia)). lia.
  - pose proof (float64_pos_range (- n) ltac:(lia)). pose proof (float64_pos_range m ltac:(lia)). lia.
  - pose proof (float64_pos_strict n m ltac:(lia) ltac:(lia)). lia.
Qed.

Lemma sort_key_range n : - 2 ^ 64 <= n <= 2 ^ 64 -> u64_ok (sort_key n).
Proof.
  intros Hn. rewrite sort_key_eq by done. unfold u64_ok.
  destruct (Z.ltb_spec n 0); [pose proof (float64_pos_range (- n) ltac:(lia))|pose proof (float64_pos_range n ltac:(lia))]; lia.
Qed.

(** The integers a value key stands for: its number and its payload. *)
Inductive int_payload : Z -> bytes -> Prop :=
  | int_signed subtype digits n :
      ParseInt digits = Some n -> int_payload n (appendPropertyIndexNumericOut [] subtype (sort_key n) (u64 n))
  | int_unsigned subtype digits n :
      ParseUint digits = Some n -> int_payload n (appendPropertyIndexNumericOut [] subtype (sort_key n) n).

Lemma ParseUint_range s n : ParseUint s = Some n -> 0 <= n < 2 ^ 64.
Proof.
  unfold ParseUint. destruct s as [|c s]; [done|]. destruct (parse_digits (c :: s) 0) as [k|] eqn:E; [|done].
  destruct (Z.ltb_spec k (2 ^ 64)); [|done]. intros [= <-]. split; [|done].
  assert (Hge : forall l acc k, 0 <= acc -> parse_digits l acc = Some k -> 0 <= k).
  { clear. induction l as [|x l IH]; intros acc k Ha; [by intros [= <-]|]. cbn [parse_digits].
    destruct (Z.leb_spec 48 x), (Z.leb_spec x 57); try done. cbn [andb]. apply IH. lia. }
  by eapply Hge.
Qed.

Lemma ParseInt_range s n : ParseInt s = Some n -> - 2 ^ 63 <= n < 2 ^ 63.
Proof.
  unfold ParseInt. destruct (match s with [] => _ | _ => _ end) as [neg digits]. destruct (ParseUint digits) as [k|] eqn:E; [|done].
  apply ParseUint_range in E. destruct neg; cbn [negb andb].
  - destruct (Z.ltb_spec (2 ^ 63) k); [done|]. intros [= <-]. lia.
  - destruct (Z.leb_spec (2 ^ 63) k); [done|]. intros [= <-]. lia.
Qed.

Lemma int_payload_range n b : int_payload n b -> - 2 ^ 64 <= n <= 2 ^ 64 /\ take 9 b = [1] ++ be_bytes 8 (sort_key n).
Proof. intros [sub d k H|sub d k H]; (split; [|done]); [apply ParseInt_range in H|apply ParseUint_range in H]; lia. Qed.

(** The index stores what the parse gives. *)
Lemma int_payload_code ParseFloat Float32bits NaN32 NaN64 subtype k digits b :
  k = Signed \/ k = Unsigned ->
  appendPropertyIndexNumeric ParseFloat Float32bits NaN32 NaN64 [] subtype k digits = Some b -> exists n, int_payload n b.
Proof.
  intros [-> | ->]; cbn [appendPropertyIndexNumeric].
  - destruct (ParseInt digits) as [n|] eqn:E; [|done]. intros [= <-]. exists n. by econstructor.
  - destruct (ParseUint digits) as [n|] eqn:E; [|done]. intros [= <-]. exists n. by eapply int_unsigned.
Qed.

(** The numeric payloads of integers of every width share one order: a range
    scan by sort key meets them in the order of their numbers, strictly up to
    2^53 in magnitude, where float64 is exact. *)
Theorem numeric_payload_order n m b c (Hn : int_payload n b) (Hm : int_payload m c) (Hlt : n < m) :
  str_lt (take 9 c) (take 9 b) = false /\ (- 2 ^ 53 <= n -> m <= 2 ^ 53 -> str_lt b c = true).
Proof.
  pose proof (int_payload_range n b Hn) as [Rn Eb]. pose proof (int_payload_range m c Hm) as [Rm Ec].
  assert (Hb : forall x y, str_lt (be_bytes 8 (sort_key x)) (be_bytes 8 (sort_key y)) = (sort_key x <? sort_key y) \/ ~ (- 2 ^ 64 <= x <= 2 ^ 64) \/ ~ (- 2 ^ 64 <= y <= 2 ^ 64)).
  { intros x y. destruct (decide (- 2 ^ 64 <= x <= 2 ^ 64)); [|tauto]. destruct (decide (- 2 ^ 64 <= y <= 2 ^ 64)); [|tauto].
    left. by apply str_lt_be; apply sort_key_range. }
  split.
  - rewrite Eb, Ec, str_lt_prefix. destruct (Hb m n) as [->|]; [|tauto]. apply Z.ltb_ge, sort_key_mono; lia.
  - intros H53 H53'. rewrite <- (take_drop 9 b), <- (take_drop 9 c), Eb, Ec, <- !app_assoc, str_lt_prefix.
    rewrite str_lt_fixed by (by rewrite !length_be_bytes). destruct (Hb n m) as [->|]; [|tauto].
    by rewrite (proj2 (Z.ltb_lt _ _) (sort_key_strict n m H53 Hlt H53')).
Qed.

Lemma numeric_payload_order_witness :
  str_lt (appendPropertyIndexNumericOut [] 5 (sort_key (-7)) (u64 (-7))) (appendPropertyIndexNumericOut [] 7 (sort_key 3) 3) = true.
Proof.
  refine (proj2 (numeric_payload_order (-7) 3 _ _ (int_signed 5 (bytes_of_string "-7") (-7) eq_refl) (int_unsigned 7 (bytes_of_string "3") 3 eq_refl) _) _ _); lia.
Defined.

(** ** Equality walks of the entity index *)

(** The escaped bytes of a string. *)
Fixpoint esc (s : bytes) : bytes :=
  match s with [] => [] | c :: s' => if c =? 0 then 0 :: 255 :: esc s' else c :: esc s' end.

Lemma escape_eq dst s : escapeEntityIndexRaw dst s = dst ++ esc s.
Proof.
  unfold escapeEntityIndexRaw. revert dst. induction s as [|c s IH]; intros dst; [by rewrite app_nil_r|]. cbn [fold_left esc].
  rewrite IH. destruct (Z.eqb_spec c 0) as [->|]; by rewrite <- !app_assoc.
Qed.

(** Where two terminated strings begin alike, one of them ends and the other goes
    on with an escaped zero. *)
Lemma esc_split a b r s :
  esc a ++ 0 :: r = esc b ++ 0 :: s -> (a = b /\ r = s) \/ (exists x, r = 255 :: x) \/ (exists x, s = 255 :: x).
Proof.
  revert b. induction a as [|c a IH]; intros [|d b] E; cbn [esc app] in E.
  - injection E as ->. by left.
  - destruct (Z.eqb_spec d 0); cbn [app] in E; injection E as E; [|lia]. right. left. by eexists.
  - destruct (Z.eqb_spec c 0); cbn [app] in E; injection E as E; [|lia]. right. right. by eexists.
  - destruct (Z.eqb_spec c 0) as [->|], (Z.eqb_spec d 0) as [->|]; cbn [app] in E; injection E as E; try lia.
    + destruct (IH b E) as [[-> ->]|H]; [by left|by right].
    + subst d. destruct (IH b H) as [[-> ->]|H']; [by left|by right].
Qed.

Section Walks.
Context (ParseFloat : bytes -> Z -> option Z) (Float32bits : Z -> Z) (NaN32 NaN64 : Z).
Local Notation append_value := (appendPropertyIndexValueBytes ParseFloat Float32bits NaN32 NaN64).
Local Notation entity_value := (AppendEntityIndexValue ParseFloat Float32bits NaN32 NaN64).

(** The two forms of an entity-index payload. *)
Inductive payload_of (vk : bytes) : bytes -> Prop :=
  | payload_numeric b : length b = 17%nat -> payload_of vk (1 :: b)
  | payload_raw : payload_of vk (2 :: esc vk ++ [0]).

Lemma numeric_payload_form dst subtype k digits out :
  appendPropertyIndexNumeric ParseFloat Float32bits NaN32 NaN64 dst subtype k digits = Some out ->
  exists b, out = dst ++ 1 :: b /\ length b = 17%nat.
Proof.
  assert (Hout : forall x y, exists b, appendPropertyIndexNumericOut dst subtype x y = dst ++ 1 :: b /\ length b = 17%nat).
  { intros x y. unfold appendPropertyIndexNumericOut. eexists. split; [reflexivity|]. by rewrite !length_app, !length_be_bytes. }
  destruct k; cbn [appendPropertyIndexNumeric]; intros H; repeat case_match; simplify_eq; apply Hout.
Qed.

Lemma entity_value_form dst vk out : entity_value dst vk = Some out -> exists p, out = dst ++ p /\ payload_of vk p.
Proof.
  assert (Hm : forall (x : Z) l, (dst ++ x :: l : bytes) !! length dst = Some x) by (intros; by apply list_lookup_middle).
  unfold AppendEntityIndexValue, appendPropertyIndexValueBytes. cbv zeta. destruct (cut_colon vk) as [[tag rest]|]; [|done].
  destruct (propNumericSubtypeTags tag) as [[subtype k]|].
  - destruct (appendPropertyIndexNumeric _ _ _ _ dst subtype k rest) as [o|] eqn:E; [|done].
    apply numeric_payload_form in E as (b & -> & Hl). rewrite Hm. rewrite bool_decide_eq_false_2 by done. cbn [negb]. intros [= <-].
    eexists. split; [reflexivity|by constructor].
  - cbv zeta. change (dst ++ [PropIdxDomainRaw] ++ vk) with (dst ++ PropIdxDomainRaw :: vk).
    rewrite Hm. rewrite bool_decide_eq_true_2 by done. cbn [negb]. intros [= <-]. eexists. split; [|apply payload_raw].
    rewrite escape_eq, take_app_ge by lia. replace (length dst + 1 - length dst)%nat with 1%nat by lia. by rewrite <- !app_assoc.
Qed.

(** An entry's bytes after its value: the ID's first byte is not 255. *)
Definition low_tail (tl : bytes) : Prop := exists x y, tl = x :: y /\ x < 255.

Lemma entry_tail prefix kind id tx : 0 <= id <= MaxInt64 -> exists tl,
  AppendEntityIndexEntry prefix kind id tx = prefix ++ tl /\ low_tail tl /\ length tl = Z.to_nat (EntityIndexTailLen kind).
Proof.
  intros Hid. unfold MaxInt64 in Hid. unfold AppendEntityIndexEntry, EntityIndexTailLen.
  assert (Hlow : forall r, low_tail (be_bytes 8 (u64 id) ++ r)).
  { intros r. unfold u64. rewrite Z.mod_small by lia. eexists _, _. split; [cbn [be_bytes app]; reflexivity|].
    rewrite !Z.div_div by lia. Z.to_euclidean_division_equations. lia. }
  destruct (_ || _).
  - exists (be_bytes 8 (u64 id)). split; [done|]. split; [|by rewrite length_be_bytes]. rewrite <- (app_nil_r (be_bytes 8 _)). apply Hlow.
  - exists (be_bytes 8 (u64 id) ++ be_bytes 8 (u64 tx)). split; [by rewrite app_assoc|]. split; [apply Hlow|].
    by rewrite length_app, !length_be_bytes.
Qed.

(** An entry under a value's prefix is of that value, or of a longer one that
    goes on with 255. *)
Lemma under_prefix vk0 p0 vk p tl x :
  payload_of vk0 p0 -> payload_of vk p -> low_tail tl -> p ++ tl = p0 ++ x -> p = p0 \/ exists y, x = 255 :: y.
Proof.
  intros H0 H (t1 & t2 & -> & Ht) E. destruct H0 as [b0 Hb0|], H as [b Hb|]; cbn [app] in E; injection E as E; try done.
  - left. f_equal. apply app_inj_len in E as [-> _]; [done|lia].
  - rewrite <- !app_assoc in E. cbn [app] in E.
    destruct (esc_split _ _ _ _ E) as [[-> _]|[[z Hz]|[z Hz]]]; [by left|injection Hz; lia|right; by eexists].
Qed.

Context (head : bytes) (kind : Z).

(** An entry: its value prefix, ID and transaction time. *)
Definition entry_key (e : bytes * Z * Z) : bytes := AppendEntityIndexEntry e.1.1 kind e.1.2 e.2.

Definition entry_ok (e : bytes * Z * Z) : Prop := (exists vk, entity_value head vk = Some e.1.1) /\ 0 <= e.1.2 <= MaxInt64.

Lemma take_prefix (a k : bytes) : take (length a) k = a <-> exists r, k = a ++ r.
Proof.
  split; [intros E; exists (drop (length a) k); by rewrite <- E at 1; rewrite take_drop|].
  intros [r ->]. apply take_app_length.
Qed.

(** Past a prefix, everything under the prefix is below. *)
Lemma past_prefix (a k z : bytes) : str_lt a k = true -> take (length a) k <> a -> str_lt (a ++ z) k = true.
Proof.
  revert k. induction a as [|x a IH]; intros [|y k] Hlt Hn; try done. cbn in Hlt |- *. destruct (Z.eqb_spec x y) as [->|]; [|done].
  apply IH; [done|]. intros E. apply Hn. cbn. by rewrite E.
Qed.

(** The entries of a value. *)
Definition of_value (P : bytes) (e : bytes * Z * Z) : bool := bool_decide (e.1.1 = P).

(** Where every entry of a prefix is below [K], none is above it. *)
Lemma none_above (P K : bytes) es :
  (forall tl, low_tail tl -> str_lt (P ++ tl) K = true) -> Forall entry_ok es -> Forall (fun e => str_lt K (entry_key e) = true) es ->
  List.filter (of_value P) es = [].
Proof.
  intros Hbelow Hok Habove. apply Lfilter_none. intros e He. apply (bool_decide_eq_false_2 (e.1.1 = P)). intros HP.
  rewrite Forall_forall in Hok, Habove. destruct (Hok e He) as [_ Hid]. specialize (Habove e He). unfold entry_key in Habove. rewrite HP in Habove.
  destruct (entry_tail P kind e.1.2 e.2 Hid) as (tl & E & Htl & _). rewrite E in Habove.
  pose proof (str_lt_trans _ _ _ Habove (Hbelow tl Htl)) as Hc. by rewrite str_lt_irrefl in Hc.
Qed.

Lemma walk_spec vk0 (P : bytes) es :
  entity_value head vk0 = Some P -> Forall entry_ok es ->
  StronglySorted (fun x y => str_lt (entry_key x) (entry_key y) = true) es -> Forall (fun e => str_lt (entry_key e) P = false) es ->
  walk_entries P (Z.to_nat (EntityIndexTailLen kind)) (map entry_key es) = map entry_key (List.filter (of_value P) es).
Proof.
  intros HP Hok Hs Hge. apply entity_value_form in HP as (p0 & -> & Hp0). set (P := head ++ p0) in *.
  induction Hs as [|e es Hs IH He]; [done|]. apply Forall_cons in Hok as [Hk Hok], Hge as [Hge1 Hge]. specialize (IH Hok Hge).
  destruct Hk as [[vk Hvk] Hid]. apply entity_value_form in Hvk as (p & Epfx & Hp).
  destruct (entry_tail e.1.1 kind e.1.2 e.2 Hid) as (tl & Ek & Htl & Hlen). fold (entry_key e) in Ek. cbn [map walk_entries List.filter]. unfold of_value at 1.
  destruct (bool_decide_reflect (take (length P) (entry_key e) = P)) as [Hpre|Hpre]; cbn [negb].
  - apply take_prefix in Hpre as [x Hx]. destruct (Nat.eqb_spec (length (entry_key e)) (length P + Z.to_nat (EntityIndexTailLen kind))) as [Hl|Hl]; cbn [negb].
    + assert (HeP : e.1.1 = P).
      { rewrite Ek in Hl, Hx. rewrite length_app in Hl. apply app_inj_len in Hx as [? _]; [done|lia]. }
      rewrite bool_decide_eq_true_2 by done. cbn [map]. by rewrite IH.
    + assert (HeP : e.1.1 <> P) by (intros E; rewrite Ek, E, length_app in Hl; lia). rewrite bool_decide_eq_false_2 by done.
      rewrite Ek, Epfx in Hx. unfold P in Hx. rewrite <- !app_assoc in Hx. apply app_inv_head in Hx.
      destruct (under_prefix vk0 p0 vk p tl x Hp0 Hp Htl Hx) as [->|[y ->]]; [by destruct HeP|].
      rewrite (none_above P (entry_key e)); [done| |done|done]. intros tl' (t1 & t2 & -> & Ht).
      rewrite Ek, Epfx, <- app_assoc, Hx. unfold P. rewrite app_assoc, str_lt_prefix. cbn. destruct (Z.eqb_spec t1 255); [lia|]. apply Z.ltb_lt. lia.
  - assert (HeP : e.1.1 <> P) by (intros E; apply Hpre, take_prefix; exists tl; by rewrite Ek, E). rewrite bool_decide_eq_false_2 by done.
    rewrite (none_above P (entry_key e)); [done| |done|done]. intros tl' _. apply past_prefix; [|done].
    destruct (str_lt_total _ _ Hge1) as [E|]; [|done]. destruct Hpre. rewrite E. apply firstn_all.
Qed.

(** An equality walk of the entity index visits exactly the value's entries,
    numbers and raw values alike: over all entries of a definition in key order
    (IDs are not negative), seeking the value's prefix and stopping at the first
    key that is not under it or is longer gives the entries with that prefix; and
    raw values that share a prefix are equal. *)
Theorem entity_walk_exact vk0 (P : bytes) es
  (HP : entity_value head vk0 = Some P) (Hok : Forall entry_ok es)
  (Hs : StronglySorted (fun x y => str_lt (entry_key x) (entry_key y) = true) es) :
  entityIndexWalk P kind (map entry_key es) = map entry_key (List.filter (of_value P) es) /\
  (forall vk, entity_value head vk = Some P -> P !! length head = Some PropIdxDomainRaw -> vk = vk0).
Proof.
  split.
  - unfold entityIndexWalk. induction Hs as [|e es Hs IH He]; [done|]. apply Forall_cons in Hok as Hok'. destruct Hok' as [Hk Hok'].
    cbn [map seek]. destruct (str_lt (entry_key e) P) eqn:Hlt.
    + rewrite IH by done. cbn [List.filter]. unfold of_value at 2. rewrite bool_decide_eq_false_2; [done|]. intros E.
      destruct Hk as [_ Hid]. destruct (entry_tail e.1.1 kind e.1.2 e.2 Hid) as (tl & Ek & _). unfold entry_key in Hlt.
      rewrite Ek, E, <- (app_nil_r P), <- app_assoc, str_lt_prefix in Hlt. by destruct tl.
    + change (entry_key e :: map entry_key es) with (map entry_key (e :: es)). apply (walk_spec vk0); [done..|by constructor|].
      constructor; [done|]. eapply Forall_impl; [exact He|]. intros e' Hlt'. destruct (str_lt (entry_key e') P) eqn:E; [|done].
      by rewrite (str_lt_trans _ _ _ Hlt' E) in Hlt.
  - intros vk Hvk Hraw. apply entity_value_form in HP as (p0 & -> & Hp0). apply entity_value_form in Hvk as (p & E & Hp).
    apply app_inv_head in E as <-. unfold bytes in *. rewrite lookup_app_r, Nat.sub_diag in Hraw by done.
    destruct Hp0 as [b Hb|]; [done|]. inversion Hp as [|E]. apply esc_split in E as [[-> _]|[[? ?]|[? ?]]]; done.
Qed.
End Walks.

(** ** Instances *)

Lemma in_i64_small z : -100 <= z <= 100 -> in_i64 z.
Proof. unfold in_i64, MinInt64, MaxInt64. lia. Qed.

Lemma store_keys_distinct_witness :
  KOut 1 2 3 4 = KOut 1 2 3 4 \/ exists a b, a <> b /\ (fun x : bytes => x) a = (fun x => x) b.
Proof.
  apply (store_keys_distinct (fun x => x) (KOut 1 2 3 4) (KOut 1 2 3 4)); [..|reflexivity];
    (split; [apply in_i64_small; lia|]; split; [unfold u16_ok; lia|]; split; apply in_i64_small; lia).
Defined.

Lemma prefix_scans_exact_witness :
  HistNodePrefix 5 `prefix_of` encode (fun x => x) (KHistNode 5 9) <-> exists v, KHistNode 5 9 = KHistNode 5 v.
Proof.
  apply (prefix_scans_exact (fun x => x) (KHistNode 5 9) 5 2 true 3 [107]);
    [split; [apply in_i64_small; lia|unfold u64_ok; lia]|apply in_i64_small; lia|unfold u16_ok; lia|unfold u16_ok; lia|cbn; lia].
Defined.

Lemma store_keys_read_back_witness : ChangeLogLSNFromKey (ChangeLogKey 12) = Some 12.
Proof.
  apply (store_keys_read_back 1 2 3 4 12 [2; 115] (repeat 7 9) 2 6 true);
    [apply in_i64_small; lia..|unfold u64_ok; lia|done|cbn; unfold EntityIndexHeadLen; lia].
Defined.

Lemma key_scan_order_witness : str_lt (TemporalIndexEntryKey 1 (-5) 8) (TemporalIndexEntryKey 1 3 2) = true.
Proof.
  refine (eq_trans (proj2 (proj2 (proj2 (key_scan_order 1 8 2 1 2 (-5) 3 _ _ _ _ _ _)))) eq_refl);
    unfold MaxInt64, u64_ok; try lia; apply in_i64_small; lia.
Defined.

(** The values "s:a" and "s:a\000", whose prefixes are nested. *)
Definition walk_head : bytes := AppendEntityIndexHead [] 1 2 3.

Definition walk_short : bytes := walk_head ++ 2 :: esc [115; 58; 97] ++ [0].

Definition walk_long : bytes := walk_head ++ 2 :: esc [115; 58; 97; 0] ++ [0].

Lemma entity_walk_exact_witness :
  entityIndexWalk walk_short 1 (map (entry_key 1) [(walk_short, 4, 0); (walk_short, 9, 0); (walk_long, 1, 0)]) =
  map (entry_key 1) [(walk_short, 4, 0); (walk_short, 9, 0)].
Proof.
  refine (proj1 (entity_walk_exact (fun _ _ => None) (fun z => z) 0 0 walk_head 1 [115; 58; 97] walk_short
    [(walk_short, 4, 0); (walk_short, 9, 0); (walk_long, 1, 0)] _ _ _)).
  - reflexivity.
  - repeat apply Forall_cons_2; [..|apply Forall_nil_2]; (split; [|unfold MaxInt64; cbn; lia]);
      [exists [115; 58; 97]|exists [115; 58; 97]|exists [115; 58; 97; 0]]; reflexivity.
  - repeat constructor.
Defined.
