(* ===== verification/Registry.v ===== *)
(** * Token registries (internal/registry)

    Labels, relationship types and property keys are stored as 16-bit tokens;
    a registry maps names to tokens and back.  The three registries are mirrors
    (the property-key one is soft when full and more lenient on import), so they
    are one record with one definition per operation. Token 0 is never handed
    out.  [GetOrCreate] is a double-checked lock; its two steps are also modelled
    as a step relation over concurrent callers. *)

From stdpp Require Import gmap.
From S2P Require Import Prelude.

(** ** Names *)

(** [utf8.DecodeRuneInString] on a non-empty string: the rune and its size;
    U+FFFD with size 1 for an invalid or cut sequence. *)
Definition runeError : Z := 65533.

Definition in_range (lo hi b : Z) : bool := (lo <=? b) && (b <=? hi).

Definition DecodeRuneInString (s : bytes) : Z * nat :=
  match s with
  | [] => (runeError, 0%nat)
  | p0 :: rest =>
      if p0 <? 128 then (p0, 1%nat)
      else if in_range 194 223 p0 then
        match rest with
        | b1 :: _ => if in_range 128 191 b1 then (Z.land p0 31 * 64 + Z.land b1 63, 2%nat) else (runeError, 1%nat)
        | _ => (runeError, 1%nat)
        end
      else if in_range 224 239 p0 then
        let lo := if p0 =? 224 then 160 else 128 in
        let hi := if p0 =? 237 then 159 else 191 in
        match rest with
        | b1 :: b2 :: _ =>
            if in_range lo hi b1 && in_range 128 191 b2
            then (Z.land p0 15 * 4096 + Z.land b1 63 * 64 + Z.land b2 63, 3%nat) else (runeError, 1%nat)
        | _ => (runeError, 1%nat)
        end
      else if in_range 240 244 p0 then
        let lo := if p0 =? 240 then 144 else 128 in
        let hi := if p0 =? 244 then 143 else 191 in
        match rest with
        | b1 :: b2 :: b3 :: _ =>
            if in_range lo hi b1 && in_range 128 191 b2 && in_range 128 191 b3
            then (Z.land p0 7 * 262144 + Z.land b1 63 * 4096 + Z.land b2 63 * 64 + Z.land b3 63, 4%nat) else (runeError, 1%nat)
        | _ => (runeError, 1%nat)
        end
      else (runeError, 1%nat)
  end.

(** [unicode.IsSpace]. *)
Definition IsSpace (r : Z) : bool :=
  if r <=? 255 then in_range 9 13 r || (r =? 32) || (r =? 133) || (r =? 160)
  else (r =? 5760) || in_range 8192 8202 r || (r =? 8232) || (r =? 8233) || (r =? 8239) || (r =? 8287) || (r =? 12288).

Fixpoint blank_loop (fuel : nat) (name : bytes) : bool :=
  match fuel, name with
  | _, [] => true
  | O, _ => true
  | S fuel, c :: rest =>
      if c <? 128 then
        if negb (c =? 32) && ((c <? 9) || (c >? 13)) then false else blank_loop fuel rest
      else
        let '(r, size) := DecodeRuneInString name in
        if negb (IsSpace r) then false else blank_loop fuel (drop size name)
  end.

Definition isBlankName (name : bytes) : bool :=
  match name with [] => true | _ => blank_loop (length name) name end.

(** ** The registry *)

Definition TokenCapacityMax : Z := 65535.

Definition wrap16 (z : Z) : Z := z mod 2 ^ 16.

(** [toToken] is [None] for the nil map of the zero value. *)
Record LabelRegistry := mkReg {
  initialized : bool;
  toToken : option (gmap bytes Z);
  toLabel : list bytes;
  nextToken : Z;
}.

Definition NewLabelRegistry : LabelRegistry := mkReg true (Some ∅) [[]] 1.

Definition zeroRegistry : LabelRegistry := mkReg false None [] 0.

(** The tokens of the names [suffix] from index [base] on. *)
Definition append_tokens (base : nat) (suffix : list bytes) (m : gmap bytes Z) : gmap bytes Z :=
  fold_left (fun m iv => <[iv.2 := wrap16 (Z.of_nat (base + iv.1))]> m) (imap pair suffix) m.

(** The index of every name but the reserved one. *)
Definition token_map (names : list bytes) : gmap bytes Z := append_tokens 1 (tail names) ∅.

Definition ensureInitialized (r : LabelRegistry) : LabelRegistry :=
  if initialized r then r
  else
    let names := match toLabel r with [] => [[]] | l => l end in
    let toks := match toToken r with Some m => m | None => token_map names end in
    let next := if (nextToken r =? 0) && (0 <? Z.of_nat (length names)) then wrap16 (Z.of_nat (length names)) else nextToken r in
    mkReg true (Some toks) names next.

Inductive registryError :=
  | ErrEmptyName
  | ErrRegistryFull
  | ErrRegistryNotEmpty
  | ErrEmptyNames
  | ErrReservedName
  | ErrOverCapacity
  | ErrBlankEntry (index : nat)
  | ErrDuplicateName (name : bytes)
  | ErrNameInPrefix (name : bytes).

Definition tokens (r : LabelRegistry) : gmap bytes Z := match toToken r with Some m => m | None => ∅ end.

Definition Lookup (r : LabelRegistry) (name : bytes) : option Z := tokens (ensureInitialized r) !! name.

(** Go's [names[i]], within bounds. *)
Definition name_at (names : list bytes) (i : Z) : bytes := match names !! Z.to_nat i with Some n => n | None => [] end.

Definition Resolve (r : LabelRegistry) (token : Z) : bytes :=
  let r := ensureInitialized r in
  if token >=? Z.of_nat (length (toLabel r)) then [] else name_at (toLabel r) token.

Definition ResolveAll (r : LabelRegistry) (toks : list Z) : list bytes :=
  let r := ensureInitialized r in
  map (fun tok => if tok <? Z.of_nat (length (toLabel r)) then name_at (toLabel r) tok else []) toks.

Definition Len (r : LabelRegistry) : Z := Z.of_nat (length (toLabel (ensureInitialized r))) - 1.

(** The write-locked half: the double check, then the allocation. *)
Definition create_locked (r : LabelRegistry) (name : bytes) : (Z + registryError) * LabelRegistry :=
  match tokens r !! name with
  | Some tok => (inl tok, r)
  | None =>
      if Z.of_nat (length (toLabel r)) >? TokenCapacityMax then (inr ErrRegistryFull, r)
      else
        let tok := nextToken r in
        (inl tok, mkReg (initialized r) (Some (<[name := tok]> (tokens r))) (toLabel r ++ [name]) (wrap16 (tok + 1)))
  end.

Definition GetOrCreate (r : LabelRegistry) (name : bytes) : (Z + registryError) * LabelRegistry :=
  if isBlankName name then (inr ErrEmptyName, r)
  else
    let r := ensureInitialized r in
    match tokens r !! name with
    | Some tok => (inl tok, r)
    | None => create_locked r name
    end.

(** The property-key registry answers token 0 when it is full. *)
Definition PropertyKey_GetOrCreate (r : LabelRegistry) (key : bytes) : (Z + registryError) * LabelRegistry :=
  match GetOrCreate r key with
  | (inr ErrRegistryFull, r) => (inl 0, r)
  | res => res
  end.

Definition ExportNames (r : LabelRegistry) : list bytes := toLabel (ensureInitialized r).

(** The names from index [i] on; [seen] are the ones before. *)
Fixpoint check_import (blank : bytes -> bool) (i : nat) (seen : gset bytes) (names : list bytes) : option registryError :=
  match names with
  | [] => None
  | n :: rest =>
      if blank n then Some (ErrBlankEntry i)
      else if bool_decide (n ∈ seen) then Some (ErrDuplicateName n)
      else check_import blank (S i) ({[n]} ∪ seen) rest
  end.

(** [ImportNames]; [blank] is the registry's test of an entry. *)
Definition import_names (blank : bytes -> bool) (r : LabelRegistry) (names : list bytes) :
    option registryError * LabelRegistry :=
  let r := ensureInitialized r in
  match names with
  | [] => (Some ErrEmptyNames, r)
  | n0 :: rest =>
      if negb (bool_decide (n0 = [])) then (Some ErrReservedName, r)
      else if Z.of_nat (length names) - 1 >? TokenCapacityMax then (Some ErrOverCapacity, r)
      else match check_import blank 1 ∅ rest with
           | Some e => (Some e, r)
           | None =>
               if (1 <? length (toLabel r))%nat then (Some ErrRegistryNotEmpty, r)
               else (None, mkReg true (Some (token_map names)) names (wrap16 (Z.of_nat (length names))))
           end
  end.

Definition ImportNames : LabelRegistry -> list bytes -> option registryError * LabelRegistry := import_names isBlankName.

Definition PropertyKey_ImportNames : LabelRegistry -> list bytes -> option registryError * LabelRegistry :=
  import_names (fun n => bool_decide (n = [])).

(** Back to [snapshot], when the registry is that snapshot and then [allocated]. *)
Definition RollbackNames (r : LabelRegistry) (snapshot allocated : list bytes) : (bool + registryError) * LabelRegistry :=
  let r := ensureInitialized r in
  match snapshot with
  | [] => (inr ErrEmptyNames, r)
  | s0 :: _ =>
      if negb (bool_decide (s0 = [])) then (inr ErrReservedName, r)
      else if negb (length (toLabel r) =? length snapshot + length allocated)%nat then (inl false, r)
      else if negb (bool_decide (take (length snapshot) (toLabel r) = snapshot)) then (inl false, r)
      else if negb (bool_decide (drop (length snapshot) (toLabel r) = allocated)) then (inl false, r)
      else (inl true, mkReg true (Some (token_map snapshot)) snapshot (wrap16 (Z.of_nat (length snapshot))))
  end.

Fixpoint check_suffix (pset : gset bytes) (i : nat) (sset : gset bytes) (suffix : list bytes) : option registryError :=
  match suffix with
  | [] => None
  | n :: rest =>
      if isBlankName n then Some (ErrBlankEntry i)
      else if bool_decide (n ∈ sset) then Some (ErrDuplicateName n)
      else if bool_decide (n ∈ pset) then Some (ErrNameInPrefix n)
      else check_suffix pset (S i) ({[n]} ∪ sset) rest
  end.

Definition AppendNames (r : LabelRegistry) (prefix suffix : list bytes) : (bool + registryError) * LabelRegistry :=
  let r := ensureInitialized r in
  match prefix with
  | [] => (inr ErrEmptyNames, r)
  | p0 :: prest =>
      if negb (bool_decide (p0 = [])) then (inr ErrReservedName, r)
      else if bool_decide (suffix = []) then (inl true, r)
      else if Z.of_nat (length prefix) - 1 + Z.of_nat (length suffix) >? TokenCapacityMax then (inr ErrOverCapacity, r)
      else match check_suffix (list_to_set prest) 0 ∅ suffix with
           | Some e => (inr e, r)
           | None =>
               if negb (bool_decide (toLabel r = prefix)) then (inl false, r)
               else
                 let names := toLabel r ++ suffix in
                 (inl true, mkReg true (Some (append_tokens (length (toLabel r)) suffix (tokens r))) names
                    (wrap16 (Z.of_nat (length names))))
           end
  end.

(** ** The other two registries

    The relationship-type registry is the label registry under other names, and
    so are the property-key operations that are not given above. *)

Definition RelType_NewRegistry : LabelRegistry := NewLabelRegistry.

Definition RelType_GetOrCreate : LabelRegistry -> bytes -> (Z + registryError) * LabelRegistry := GetOrCreate.

Definition RelType_Resolve : LabelRegistry -> Z -> bytes := Resolve.

Definition RelType_ResolveAll : LabelRegistry -> list Z -> list bytes := ResolveAll.

Definition RelType_Lookup : LabelRegistry -> bytes -> option Z := Lookup.

Definition RelType_Len : LabelRegistry -> Z := Len.

Definition RelType_ExportNames : LabelRegistry -> list bytes := ExportNames.

Definition RelType_ImportNames : LabelRegistry -> list bytes -> option registryError * LabelRegistry := ImportNames.

Definition RelType_RollbackNames : LabelRegistry -> list bytes -> list bytes -> (bool + registryError) * LabelRegistry := RollbackNames.

Definition RelType_AppendNames : LabelRegistry -> list bytes -> list bytes -> (bool + registryError) * LabelRegistry := AppendNames.

Definition PropertyKey_NewRegistry : LabelRegistry := NewLabelRegistry.

Definition PropertyKey_Resolve : LabelRegistry -> Z -> bytes := Resolve.

Definition PropertyKey_Lookup : LabelRegistry -> bytes -> option Z := Lookup.

Definition PropertyKey_Len : LabelRegistry -> Z := Len.

Definition PropertyKey_ExportNames : LabelRegistry -> list bytes := ExportNames.

Definition PropertyKey_AppendNames : LabelRegistry -> list bytes -> list bytes -> (bool + registryError) * LabelRegistry := AppendNames.

(** ** Names and tokens *)

Lemma append_tokens_snoc base suffix n m :
  append_tokens base (suffix ++ [n]) m = <[n := wrap16 (Z.of_nat (base + length suffix))]> (append_tokens base suffix m).
Proof. unfold append_tokens. rewrite imap_app, fold_left_app. simpl. by rewrite Nat.add_0_r. Qed.

Lemma append_tokens_lookup base suffix m n t :
  NoDup suffix ->
  append_tokens base suffix m !! n = Some t <->
  (exists i, suffix !! i = Some n /\ t = wrap16 (Z.of_nat (base + i))) \/ (n ∉ suffix /\ m !! n = Some t).
Proof.
  induction suffix as [|x suffix IH] using rev_ind; intros Hnd.
  { unfold append_tokens. simpl. split; [right; split; [by intros ?%elem_of_nil|done]|intros [(i & Hi & _)|[_ Hm]]; done]. }
  apply NoDup_app in Hnd as (Hnd & Hdisj & _). specialize (IH Hnd). rewrite append_tokens_snoc.
  assert (Hx : x ∉ suffix) by (intros Hx; apply (Hdisj x Hx); by left).
  rewrite lookup_insert_Some, IH, not_elem_of_app, list_elem_of_singleton. split.
  - intros [[-> <-]|[Hne [(i & Hi & ->)|[Hn Hm]]]].
    + left. exists (length suffix). by rewrite list_lookup_middle.
    + left. exists i. by rewrite (lookup_app_l_Some _ _ _ _ Hi).
    + right. auto.
  - intros [(i & Hi & ->)|[[Hn Hne] Hm]]; [|right; auto].
    apply lookup_app_Some in Hi as [Hi|[Hge Hi]].
    + right. split; [intros ->; apply Hx; by eapply list_elem_of_lookup_2|left; eauto].
    + apply list_lookup_singleton_Some in Hi as [Hz ->]. left. split; [done|]. do 2 f_equal. lia.
Qed.

(** The invariant of an initialised registry: the reserved name first, no name
    twice, and the token of a name is its index. *)
Record registry_wf (r : LabelRegistry) : Prop := {
  rw_init : initialized r = true;
  rw_head : head (toLabel r) = Some [];
  rw_nodup : NoDup (toLabel r);
  rw_len : Z.of_nat (length (toLabel r)) <= 2 ^ 16;
  rw_map : toToken r <> None;
  rw_tokens : forall n t, tokens r !! n = Some t <-> 1 <= t /\ toLabel r !! Z.to_nat t = Some n;
  rw_next : nextToken r = wrap16 (Z.of_nat (length (toLabel r)));
}.

Lemma wrap16_id z : 0 <= z < 2 ^ 16 -> wrap16 z = z.
Proof. apply Z.mod_small. Qed.

Lemma wf_ensure r : registry_wf r -> ensureInitialized r = r.
Proof. intros Hwf. unfold ensureInitialized. by rewrite (rw_init r Hwf). Qed.

(** Tokens read off a list of names. *)
Lemma names_wf names :
  head names = Some [] -> NoDup names -> Z.of_nat (length names) <= 2 ^ 16 ->
  registry_wf (mkReg true (Some (token_map names)) names (wrap16 (Z.of_nat (length names)))).
Proof.
  intros Hh Hnd Hl. destruct names as [|n0 rest]; [done|]. injection Hh as ->. split; try done.
  intros n t. unfold tokens. cbn [toToken toLabel]. unfold token_map. cbn [tail].
  apply NoDup_cons in Hnd as [Hn0 Hnd]. rewrite append_tokens_lookup by done. rewrite lookup_empty. cbn [length] in Hl. split.
  - intros [(i & Hi & ->)|[_ [=]]]. pose proof (lookup_lt_Some _ _ _ Hi). unfold bytes in *. rewrite wrap16_id by lia.
    split; [lia|]. replace (Z.to_nat (Z.of_nat (1 + i))) with (S i) by lia. done.
  - intros [Ht Hi]. left. replace (Z.to_nat t) with (S (Z.to_nat t - 1)) in Hi by lia. cbn in Hi.
    pose proof (lookup_lt_Some _ _ _ Hi). unfold bytes in *. exists (Z.to_nat t - 1)%nat. split; [done|]. rewrite wrap16_id by lia. lia.
Qed.

Lemma new_registry_wf : registry_wf NewLabelRegistry.
Proof. apply (names_wf [[]]); [done|repeat constructor; by intros ?%elem_of_nil|done]. Qed.

Lemma zero_registry_wf : registry_wf (ensureInitialized zeroRegistry).
Proof. exact new_registry_wf. Qed.

Lemma blank_nil n : isBlankName n = false -> n <> [].
Proof. by intros Hb ->. Qed.

Lemma fresh_name r n : registry_wf r -> tokens r !! n = None -> n <> [] -> n ∉ toLabel r.
Proof.
  intros Hwf Hn Hne Hin. apply list_elem_of_lookup_1 in Hin as [i Hi]. destruct i as [|i].
  - destruct (toLabel r) eqn:E; [done|]. pose proof (rw_head r Hwf) as Hh. rewrite E in Hh. cbn in *. by simplify_eq.
  - assert (tokens r !! n = Some (Z.of_nat (S i))); [|congruence]. apply (rw_tokens r Hwf). split; [lia|]. by rewrite Nat2Z.id.
Qed.

Lemma create_locked_wf r n : registry_wf r -> isBlankName n = false -> registry_wf (snd (create_locked r n)).
Proof.
  intros Hwf Hb. unfold create_locked. destruct (tokens r !! n) as [tok|] eqn:E; [done|].
  destruct (Z.gtb_spec (Z.of_nat (length (toLabel r))) TokenCapacityMax) as [|Hl]; [done|]. unfold TokenCapacityMax in Hl.
  pose proof (fresh_name r n Hwf E (blank_nil n Hb)) as Hfr. destruct Hwf as [Hi Hh Hnd Hlen Hm Ht Hn]. cbn [snd].
  assert (Hpos : (0 < length (toLabel r))%nat) by (destruct (toLabel r); [done|simpl; lia]).
  split; unfold tokens at 1; cbn [initialized toLabel toToken nextToken].
  - done.
  - rewrite head_app. destruct (toLabel r); done.
  - apply NoDup_app. split_and!; [done| |apply NoDup_singleton]. intros x Hx ->%list_elem_of_singleton. done.
  - rewrite length_app. simpl. lia.
  - done.
  - intros m t. rewrite lookup_insert_Some, Ht, Hn, wrap16_id by lia. rewrite lookup_app_Some, list_lookup_singleton_Some. split.
    + intros [[-> <-]|[Hne [Hge Hlk]]]; [|by auto]. split; [lia|]. right. rewrite Nat2Z.id. split; [lia|split; [lia|done]].
    + intros [Hge [Hlk|(H1 & H2 & ->)]]; [|left; split; [done|lia]].
      right. split; [|done]. intros ->. apply Hfr. by eapply list_elem_of_lookup_2.
  - rewrite Hn, length_app. simpl. unfold wrap16. rewrite Zplus_mod_idemp_l. f_equal. lia.
Qed.

Lemma GetOrCreate_wf r n : registry_wf r -> registry_wf (snd (GetOrCreate r n)).
Proof.
  intros Hwf. unfold GetOrCreate. destruct (isBlankName n) eqn:Eb; [done|]. rewrite (wf_ensure r Hwf).
  destruct (tokens r !! n); [done|]. by apply create_locked_wf.
Qed.

Lemma check_import_ok blank i seen names :
  check_import blank i seen names = None <->
  Forall (fun n => blank n = false) names /\ NoDup names /\ Forall (fun n => n ∉ seen) names.
Proof.
  revert i seen. induction names as [|n rest IH]; intros i seen; cbn [check_import].
  { split; [intros _; split_and!; constructor|done]. }
  rewrite !Forall_cons, NoDup_cons. destruct (blank n) eqn:Eb; [split; [done|intros (([=] & _) & _)]|].
  case_bool_decide as Hs; [split; [done|intros (_ & _ & ? & _); done]|]. rewrite IH. split.
  - intros (H1 & H2 & H3). rewrite Forall_forall in H3. split_and!; [done|done| |done|done|].
    + intros Hin. apply (H3 n Hin), elem_of_union_l. by apply elem_of_singleton.
    + apply Forall_forall. intros x Hx Hin. apply (H3 x Hx). by apply elem_of_union_r.
  - intros ((_ & H1) & (H2 & H3) & (_ & H4)). rewrite Forall_forall in H4. split_and!; [done|done|].
    apply Forall_forall. intros x Hx. specialize (H4 x Hx). intros [->%elem_of_singleton|?]%elem_of_union; done.
Qed.

Lemma check_suffix_ok pset i sset suffix :
  check_suffix pset i sset suffix = None <->
  Forall (fun n => isBlankName n = false /\ n ∉ pset) suffix /\ NoDup suffix /\ Forall (fun n => n ∉ sset) suffix.
Proof.
  revert i sset. induction suffix as [|n rest IH]; intros i sset; cbn [check_suffix].
  { split; [intros _; split_and!; constructor|done]. }
  rewrite !Forall_cons, NoDup_cons. destruct (isBlankName n) eqn:Eb; [split; [done|intros ((([=] & _) & _) & _)]|].
  case_bool_decide as Hs; [split; [done|intros (_ & _ & ? & _); done]|].
  case_bool_decide as Hp; [split; [done|intros (((_ & ?) & _) & _); done]|]. rewrite IH. split.
  - intros (H1 & H2 & H3). rewrite Forall_forall in H3. split_and!; [done..| |done|done|].
    + intros Hin. apply (H3 n Hin), elem_of_union_l. by apply elem_of_singleton.
    + apply Forall_forall. intros x Hx Hin. apply (H3 x Hx). by apply elem_of_union_r.
  - intros ((_ & H1) & (H2 & H3) & (_ & H4)). rewrite Forall_forall in H4. split_and!; [done|done|].
    apply Forall_forall. intros x Hx. specialize (H4 x Hx). intros [->%elem_of_singleton|?]%elem_of_union; done.
Qed.

Lemma import_wf blank r names : blank [] = true -> registry_wf r -> registry_wf (snd (import_names blank r names)).
Proof.
  intros Hb Hwf. unfold import_names. rewrite (wf_ensure r Hwf). destruct names as [|n0 rest]; [done|].
  case_bool_decide as H0; [|done]. cbn [negb]. destruct (Z.gtb_spec (Z.of_nat (length (n0 :: rest)) - 1) TokenCapacityMax) as [|Hl]; [done|].
  destruct (check_import blank 1 ∅ rest) eqn:Ec; [done|]. destruct (1 <? _)%nat; [done|]. subst n0.
  apply check_import_ok in Ec as (Hbl & Hnd & _). unfold TokenCapacityMax in Hl. apply names_wf; [done| |unfold bytes in *; lia].
  apply NoDup_cons. split; [|done]. intros Hin. rewrite Forall_forall in Hbl. specialize (Hbl [] Hin). congruence.
Qed.

Lemma rollback_wf r snapshot allocated : registry_wf r -> registry_wf (snd (RollbackNames r snapshot allocated)).
Proof.
  intros Hwf. unfold RollbackNames. rewrite (wf_ensure r Hwf). destruct snapshot as [|s0 rest] eqn:Es; [done|]. rewrite <- Es.
  case_bool_decide as H0; [|done]. cbn [negb]. destruct (_ =? _)%nat eqn:El; [|done]. cbn [negb].
  case_bool_decide as Ht; [|done]. case_bool_decide; [|done]. cbn [negb snd]. apply Nat.eqb_eq in El.
  pose proof (rw_nodup r Hwf) as Hnd. pose proof (rw_len r Hwf) as Hlen.
  apply names_wf; [by subst| |unfold bytes in *; lia]. rewrite <- Ht. by eapply sublist_NoDup, sublist_take.
Qed.

Lemma append_wf r prefix suffix : registry_wf r -> registry_wf (snd (AppendNames r prefix suffix)).
Proof.
  intros Hwf. unfold AppendNames. rewrite (wf_ensure r Hwf). destruct prefix as [|p0 prest]; [done|].
  case_bool_decide as H0; [|done]. cbn [negb]. case_bool_decide; [done|].
  destruct (Z.gtb_spec (Z.of_nat (length (p0 :: prest)) - 1 + Z.of_nat (length suffix)) TokenCapacityMax) as [|Hl]; [done|].
  destruct (check_suffix _ 0 ∅ suffix) eqn:Ec; [done|]. case_bool_decide as Hp; [|done]. cbn [negb snd].
  apply check_suffix_ok in Ec as (Hs & Hnd & _). rewrite Forall_forall in Hs. unfold TokenCapacityMax in Hl.
  assert (Hfresh : forall n, n ∈ suffix -> n ∉ toLabel r).
  { intros n Hn Hin. destruct (Hs n Hn) as [Hb Hps]. rewrite Hp in Hin. apply elem_of_cons in Hin as [->|Hin].
    - subst. by apply blank_nil in Hb.
    - apply Hps. by apply elem_of_list_to_set. }
  rewrite <- Hp in Hl. destruct Hwf as [Hi Hh Hndr Hlen Hm Ht Hn].
  split; unfold tokens at 1; cbn [initialized toLabel toToken nextToken]; try done.
  - rewrite head_app. destruct (toLabel r); done.
  - apply NoDup_app. split_and!; [done| |done]. intros x Hx Hx'. by apply (Hfresh x).
  - rewrite length_app. lia.
  - intros n t. rewrite append_tokens_lookup, Ht, lookup_app_Some by done. split.
    + intros [(i & Hlk & ->)|[Hns [Hge Hlk]]]; [|by auto]. pose proof (lookup_lt_Some _ _ _ Hlk). rewrite wrap16_id by lia.
      assert ((0 < length (toLabel r))%nat) by (destruct (toLabel r); [done|simpl; lia]).
      rewrite Nat2Z.id. split; [lia|]. right. split; [lia|]. by replace (length (toLabel r) + i - length (toLabel r))%nat with i by lia.
    + intros [Hge [Hlk|[Hle Hlk]]].
      * right. split; [|done]. intros Hn'. apply (Hfresh n Hn'). by eapply list_elem_of_lookup_2.
      * left. exists (Z.to_nat t - length (toLabel r))%nat. pose proof (lookup_lt_Some _ _ _ Hlk). split; [done|].
        rewrite wrap16_id by lia. lia.
Qed.

(** The operations of the registries. *)
Inductive registry_step (r : LabelRegistry) : LabelRegistry -> Prop :=
  | step_get n : registry_step r (snd (GetOrCreate r n))
  | step_key n : registry_step r (snd (PropertyKey_GetOrCreate r n))
  | step_import names : registry_step r (snd (ImportNames r names))
  | step_key_import names : registry_step r (snd (PropertyKey_ImportNames r names))
  | step_rollback snapshot allocated : registry_step r (snd (RollbackNames r snapshot allocated))
  | step_append prefix suffix : registry_step r (snd (AppendNames r prefix suffix)).

Lemma key_get_snd r n : snd (PropertyKey_GetOrCreate r n) = snd (GetOrCreate r n).
Proof. unfold PropertyKey_GetOrCreate. destruct (GetOrCreate r n) as [[|[]] ?]; done. Qed.

Lemma step_wf r r' : registry_wf r -> registry_step r r' -> registry_wf r'.
Proof.
  intros Hwf []; rewrite ?key_get_snd; auto using GetOrCreate_wf, rollback_wf, append_wf; by apply import_wf.
Qed.

Lemma reachable_wf r : rtc registry_step NewLabelRegistry r -> registry_wf r.
Proof.
  remember NewLabelRegistry as r0 eqn:E. assert (Hwf : registry_wf r0) by (subst; apply new_registry_wf). clear E.
  induction 1 as [|x y z Hxy _ IH]; [done|]. apply IH. by eapply step_wf.
Qed.

Lemma Resolve_lookup r t (n : bytes) : registry_wf r -> 0 <= t -> n <> [] -> Resolve r t = n <-> toLabel r !! Z.to_nat t = Some n.
Proof.
  intros Hwf Ht Hn. unfold Resolve, name_at. rewrite (wf_ensure r Hwf).
  destruct (Z.geb_spec t (Z.of_nat (length (toLabel r)))) as [Hge|Hlt].
  - rewrite lookup_ge_None_2 by lia. split; [by intros <-|done].
  - destruct (lookup_lt_is_Some_2 (toLabel r) (Z.to_nat t)) as [m Hm]; [lia|]. rewrite Hm. split; [by intros ->|by intros [= ->]].
Qed.

(** A registry is determined by its names. *)
Lemma wf_names r : registry_wf r ->
  mkReg true (Some (token_map (toLabel r))) (toLabel r) (wrap16 (Z.of_nat (length (toLabel r)))) = r.
Proof.
  intros Hwf. pose proof (names_wf (toLabel r) (rw_head r Hwf) (rw_nodup r Hwf) (rw_len r Hwf)) as Hnw.
  destruct Hwf as [Hi _ _ _ Hm Ht Hn]. pose proof (rw_tokens _ Hnw) as Hnt. unfold tokens in Hnt, Ht. cbn [toToken toLabel] in Hnt.
  destruct r as [init toks names next]. cbn [initialized toToken toLabel nextToken] in *. subst init next.
  destruct toks as [toks|]; [|done]. do 2 f_equal. apply map_eq. intros m. apply option_eq. intros t. by rewrite Ht, Hnt.
Qed.

Lemma rollback_exact r r' allocated :
  registry_wf r -> registry_wf r' -> toLabel r' = toLabel r ++ allocated -> RollbackNames r' (toLabel r) allocated = (inl true, r).
Proof.
  intros Hwf Hwf' Hr'. unfold RollbackNames. rewrite (wf_ensure r' Hwf'). pose proof (wf_names r Hwf) as Hr.
  pose proof (rw_head r Hwf) as Hh. set (s := toLabel r) in *. destruct s as [|s0 rest] eqn:Es; [done|]. injection Hh as ->.
  rewrite bool_decide_eq_true_2 by done. rewrite <- Es in *. cbn [negb].
  assert (Hl : length (toLabel r') = (length s + length allocated)%nat) by (rewrite Hr'; apply length_app). rewrite Hl, Nat.eqb_refl.
  assert (Ht : take (length s) (toLabel r') = s) by (rewrite Hr'; apply take_app_length).
  assert (Hd : drop (length s) (toLabel r') = allocated) by (rewrite Hr'; apply drop_app_length).
  rewrite Ht, Hd, !bool_decide_eq_true_2 by done. cbn [negb]. by rewrite Hr.
Qed.

(** C28: in every reachable registry tokens and names are in bijection: a name
    has at most one token, it lies in 1..65535 and resolves back to the name,
    a non-empty resolved name has that token, and there are at most 65535
    names; token 0 resolves to nothing. *)
Theorem registry_bijection r :
  rtc registry_step NewLabelRegistry r ->
  (forall n t, Lookup r n = Some t -> 1 <= t <= TokenCapacityMax /\ Resolve r t = n /\ n <> []) /\
  (forall (n : bytes) t, 0 <= t -> n <> [] -> Resolve r t = n -> Lookup r n = Some t) /\
  Resolve r 0 = [] /\ 0 <= Len r <= TokenCapacityMax.
Proof.
  intros Hwf%reachable_wf. unfold Lookup, Len, TokenCapacityMax. rewrite (wf_ensure r Hwf). destruct (Hwf) as [_ Hh Hnd Hlen _ Ht _].
  assert (Hlk0 : toLabel r !! 0%nat = Some ([] : bytes)) by (destruct (toLabel r); [done|]; cbn in *; congruence).
  assert (Hne : forall (n : bytes) t, 1 <= t -> toLabel r !! Z.to_nat t = Some n -> n <> []).
  { intros n t Hge Hlk ->. pose proof (NoDup_lookup _ _ _ _ Hnd Hlk Hlk0). lia. }
  split_and!.
  - intros n t Hlk. apply Ht in Hlk as [Hge Hlk]. pose proof (lookup_lt_Some _ _ _ Hlk). specialize (Hne n t Hge Hlk).
    split_and!; [lia|lia| |done]. by apply Resolve_lookup; [|lia|..].
  - intros n t Hge Hn Hr. apply Resolve_lookup in Hr; [|done..]. apply Ht. split; [|done].
    destruct (decide (t = 0)) as [->|]; [|lia]. change (Z.to_nat 0) with 0%nat in Hr. rewrite Hlk0 in Hr. by injection Hr as <-.
  - unfold Resolve. rewrite (wf_ensure r Hwf). destruct (_ >=? _); [done|]. unfold name_at. change (Z.to_nat 0) with 0%nat. by rewrite Hlk0.
  - apply lookup_lt_Some in Hlk0. lia.
  - lia.
Qed.

(** What is left to allocate. *)
Definition full (r : LabelRegistry) : Prop := Len r = TokenCapacityMax.

(** C29: [GetOrCreate] on a reachable registry, branch by branch: a blank name is
    refused with [ErrEmptyName] and an unknown name with [ErrRegistryFull] exactly
    when all 65535 tokens are taken, the registry unchanged in both cases; else
    the answer is the name's token from then on, every other name keeps what it
    had, and rolling back a name this call allocated gives the registry back. *)
Theorem get_or_create_exact r n :
  rtc registry_step NewLabelRegistry r ->
  match GetOrCreate r n with
  | (inr e, r') => r' = r /\ ((e = ErrEmptyName /\ isBlankName n = true) \/
                              (e = ErrRegistryFull /\ isBlankName n = false /\ Lookup r n = None /\ full r))
  | (inl t, r') =>
      isBlankName n = false /\ Lookup r' n = Some t /\ Resolve r' t = n /\
      (forall m, m <> n -> Lookup r' m = Lookup r m) /\
      match Lookup r n with
      | Some t0 => t = t0 /\ r' = r
      | None => ~ full r /\ RollbackNames r' (ExportNames r) [n] = (inl true, r)
      end
  end.
Proof.
  intros Hwf%reachable_wf. pose proof (GetOrCreate_wf r n Hwf) as Hwf'. unfold GetOrCreate, full, Lookup, Len, ExportNames in *.
  rewrite (wf_ensure r Hwf) in *. destruct (isBlankName n) eqn:Eb; [split; [done|by left]|].
  destruct (tokens r !! n) as [t|] eqn:El.
  { cbn [snd] in Hwf'. rewrite (wf_ensure r Hwf'), El. split_and!; try done.
    apply (rw_tokens r Hwf) in El as [Hge Hlk]. apply Resolve_lookup; [done|lia|by apply blank_nil|done]. }
  unfold create_locked in *. rewrite El in *. unfold TokenCapacityMax in *.
  destruct (Z.gtb_spec (Z.of_nat (length (toLabel r))) 65535) as [Hgt|Hle].
  { split; [done|]. right. pose proof (rw_len r Hwf). split_and!; [done..|lia]. }
  cbn [snd] in Hwf'. set (r' := mkReg _ _ _ _) in *. rewrite (wf_ensure r' Hwf').
  assert (Hlk : tokens r' !! n = Some (nextToken r)) by (unfold r', tokens; cbn [toToken]; by rewrite lookup_insert_eq).
  split_and!; [done|done| | |lia|].
  - apply (rw_tokens r' Hwf') in Hlk as [Hge Hlk]. apply Resolve_lookup; [done|lia|by apply blank_nil|done].
  - intros m Hm. unfold r', tokens at 1. cbn [toToken]. by rewrite lookup_insert_ne.
  - by apply rollback_exact.
Qed.

Lemma wf_tail_names r : registry_wf r -> toLabel r = [] :: tail (toLabel r) /\ NoDup (tail (toLabel r)) /\ [] ∉ tail (toLabel r).
Proof.
  intros Hwf. pose proof (rw_head r Hwf) as Hh. pose proof (rw_nodup r Hwf) as Hnd. destruct (toLabel r) as [|n0 rest]; [done|].
  injection Hh as ->. by apply NoDup_cons in Hnd as [? ?].
Qed.

Lemma import_export blank r :
  registry_wf r -> Forall (fun n => blank n = false) (tail (toLabel r)) ->
  import_names blank NewLabelRegistry (toLabel r) = (None, r).
Proof.
  intros Hwf Hb. destruct (wf_tail_names r Hwf) as (Hn & Hnd & H0). pose proof (rw_len r Hwf) as Hl. pose proof (wf_names r Hwf) as Hr.
  unfold import_names. change (ensureInitialized NewLabelRegistry) with NewLabelRegistry. set (names := toLabel r) in *.
  rewrite Hn. rewrite bool_decide_eq_true_2 by done. rewrite <- Hn. cbn [negb]. unfold TokenCapacityMax.
  destruct (Z.gtb_spec (Z.of_nat (length names) - 1) 65535); [lia|].
  rewrite (proj2 (check_import_ok blank 1 ∅ (tail names))); [cbn [NewLabelRegistry toLabel length Nat.ltb Nat.leb]; by rewrite Hr|].
  split_and!; [done|done|]. apply Forall_forall. intros n _. apply not_elem_of_empty.
Qed.

Lemma append_exact r suffix :
  registry_wf r -> NoDup (toLabel r ++ suffix) -> Z.of_nat (length (toLabel r ++ suffix)) <= 2 ^ 16 ->
  Forall (fun n => isBlankName n = false) suffix ->
  exists r', AppendNames r (toLabel r) suffix = (inl true, r') /\ toLabel r' = toLabel r ++ suffix.
Proof.
  intros Hwf (_ & Hdisj & Hnds)%NoDup_app Hl Hb. destruct (wf_tail_names r Hwf) as (Hn & Hnd & H0). rewrite length_app in Hl.
  destruct (AppendNames r (toLabel r) suffix) as [res r'] eqn:E. exists r'. revert E.
  unfold AppendNames. rewrite (wf_ensure r Hwf). rewrite Hn at 1. rewrite bool_decide_eq_true_2 by done. cbn [negb].
  case_bool_decide as Hs; [intros [= <- <-]; subst; by rewrite app_nil_r|]. unfold TokenCapacityMax.
  destruct (Z.gtb_spec (Z.of_nat (length (toLabel r)) - 1 + Z.of_nat (length suffix)) 65535); [lia|].
  rewrite (proj2 (check_suffix_ok (list_to_set (tail (toLabel r))) 0 ∅ suffix)).
  - rewrite bool_decide_eq_true_2 by done. cbn [negb]. by intros [= <- <-].
  - split_and!; [|done|apply Forall_forall; intros n _; apply not_elem_of_empty].
    rewrite Forall_forall in Hb |- *. intros n Hin. split; [by apply Hb|]. rewrite elem_of_list_to_set. intros Hin'.
    apply (Hdisj n); [|done]. rewrite Hn. by right.
Qed.

(** A registry survives persistence and replication: importing the exported
    names into a fresh registry restores it exactly (a label or type registry
    where no name is blank, which its own operations guarantee; a property-key
    registry always), and a registry that appends the names another one has
    beyond its own becomes that registry. *)
Theorem registry_export_import r r2 suffix :
  rtc registry_step NewLabelRegistry r -> rtc registry_step NewLabelRegistry r2 ->
  PropertyKey_ImportNames NewLabelRegistry (ExportNames r) = (None, r) /\
  (Forall (fun n => isBlankName n = false) (tail (ExportNames r)) -> ImportNames NewLabelRegistry (ExportNames r) = (None, r)) /\
  (ExportNames r2 = ExportNames r ++ suffix -> Forall (fun n => isBlankName n = false) suffix ->
   AppendNames r (ExportNames r) suffix = (inl true, r2)).
Proof.
  intros Hwf%reachable_wf Hwf2%reachable_wf. unfold ExportNames. rewrite (wf_ensure r Hwf), (wf_ensure r2 Hwf2).
  destruct (wf_tail_names r Hwf) as (Hn & Hnd & H0). split_and!.
  - apply import_export; [done|]. apply Forall_forall. intros n Hin. apply bool_decide_eq_false. by intros ->.
  - by apply import_export.
  - intros Hr2 Hb. pose proof (rw_nodup r2 Hwf2) as Hnd2. pose proof (rw_len r2 Hwf2) as Hl2. rewrite Hr2 in Hnd2, Hl2.
    destruct (append_exact r suffix Hwf Hnd2 Hl2 Hb) as (r3 & H1 & H2). pose proof (append_wf r (toLabel r) suffix Hwf) as Hwf3.
    rewrite H1 in *. cbn [snd] in Hwf3. f_equal.
    rewrite <- (wf_names r3 Hwf3), <- (wf_names r2 Hwf2), H2, Hr2. done.
Qed.

(** ** Concurrent callers *)

(** A call of [GetOrCreate]: not started, past the read-locked miss, returned. *)
Inductive call := Calling (n : bytes) | Missed (n : bytes) | Returned (n : bytes) (res : Z + registryError).

(** The read-locked step, the write-locked step, and a replica's growth in
    between; each runs under the registry's lock. *)
Inductive call_step : LabelRegistry * list call -> LabelRegistry * list call -> Prop :=
  | call_blank r cs i n :
      cs !! i = Some (Calling n) -> isBlankName n = true ->
      call_step (r, cs) (r, <[i := Returned n (inr ErrEmptyName)]> cs)
  | call_hit r cs i n t :
      cs !! i = Some (Calling n) -> isBlankName n = false -> tokens r !! n = Some t ->
      call_step (r, cs) (r, <[i := Returned n (inl t)]> cs)
  | call_miss r cs i n :
      cs !! i = Some (Calling n) -> isBlankName n = false -> tokens r !! n = None ->
      call_step (r, cs) (r, <[i := Missed n]> cs)
  | call_create r cs i n :
      cs !! i = Some (Missed n) ->
      call_step (r, cs) (snd (create_locked r n), <[i := Returned n (fst (create_locked r n))]> cs)
  | call_append r cs prefix suffix :
      call_step (r, cs) (snd (AppendNames r prefix suffix), cs).

Definition call_ok (r : LabelRegistry) (c : call) : Prop :=
  match c with
  | Calling _ => True
  | Missed n => isBlankName n = false
  | Returned n (inl t) => tokens r !! n = Some t
  | Returned n (inr _) => True
  end.

Lemma create_locked_grows r n m t : tokens r !! m = Some t -> tokens (snd (create_locked r n)) !! m = Some t.
Proof.
  intros Hm. unfold create_locked. destruct (tokens r !! n) eqn:En; [done|]. destruct (_ >? _); [done|].
  cbn [snd]. unfold tokens at 1. cbn [toToken]. rewrite lookup_insert_ne; [done|congruence].
Qed.

Lemma create_locked_answer r n t : fst (create_locked r n) = inl t -> tokens (snd (create_locked r n)) !! n = Some t.
Proof.
  unfold create_locked. destruct (tokens r !! n) as [t0|] eqn:En; [cbn; congruence|]. destruct (_ >? _); [done|].
  cbn [fst snd]. intros [= <-]. unfold tokens at 1. cbn [toToken]. by rewrite lookup_insert_eq.
Qed.

Lemma append_grows r prefix suffix m t :
  registry_wf r -> tokens r !! m = Some t -> tokens (snd (AppendNames r prefix suffix)) !! m = Some t.
Proof.
  intros Hwf Hm. pose proof (append_wf r prefix suffix Hwf) as Hwf'. apply (rw_tokens _ Hwf'). apply (rw_tokens r Hwf) in Hm as [Hge Hlk].
  split; [done|]. unfold AppendNames in *. rewrite (wf_ensure r Hwf) in *. destruct prefix as [|p0 prest]; [done|].
  destruct (negb _); [done|]. case_bool_decide; [done|]. destruct (_ >? _); [done|]. destruct (check_suffix _ _ _ _); [done|].
  case_bool_decide; [|done]. cbn [negb snd toLabel] in *. by apply lookup_app_l_Some.
Qed.

Lemma calls_update r r' cs i c :
  (forall m t, tokens r !! m = Some t -> tokens r' !! m = Some t) -> Forall (call_ok r) cs -> call_ok r' c ->
  Forall (call_ok r') (<[i := c]> cs).
Proof.
  intros Hgrow Hcs Hc. apply Forall_insert; [|done]. eapply Forall_impl; [exact Hcs|]. intros [n|n|n [t|e]]; simpl; auto.
Qed.

Lemma call_step_ok r cs r' cs' :
  call_step (r, cs) (r', cs') -> registry_wf r -> Forall (call_ok r) cs -> registry_wf r' /\ Forall (call_ok r') cs'.
Proof.
  intros Hs Hwf Hcs. inversion Hs as [r0 cs0 i n Hi Hb|r0 cs0 i n t Hi Hb Ht|r0 cs0 i n Hi Hb Ht|r0 cs0 i n Hi|r0 cs0 prefix suffix]; subst.
  - split; [done|]. by eapply calls_update.
  - split; [done|]. by eapply calls_update.
  - split; [done|]. by eapply calls_update.
  - assert (Hb : isBlankName n = false) by exact (proj1 (Forall_lookup _ _) Hcs i _ Hi).
    split; [by apply create_locked_wf|]. apply (calls_update r); [intros; by apply create_locked_grows|done|].
    destruct (fst (create_locked r n)) as [t|e] eqn:E; [by apply create_locked_answer|done].
  - split; [by apply append_wf|]. eapply Forall_impl; [exact Hcs|]. intros [n|n|n [t|e]]; simpl; auto. by apply append_grows.
Qed.

Lemma calls_invariant s s' :
  rtc call_step s s' -> registry_wf s.1 /\ Forall (call_ok s.1) s.2 -> registry_wf s'.1 /\ Forall (call_ok s'.1) s'.2.
Proof.
  induction 1 as [|[r1 cs1] [r2 cs2] s3 Hstep _ IH]; [done|]. intros [Hwf Hcs]. apply IH. by eapply call_step_ok.
Qed.

(** C30: under every interleaving of concurrent [GetOrCreate] calls, with a
    replica's growth in between, two calls that returned tokens returned the same
    token exactly when they named the same name, and the registry resolves each
    returned token to the name of its call. *)
Theorem concurrent_tokens_consistent r0 names r cs i j n m t u :
  rtc registry_step NewLabelRegistry r0 -> rtc call_step (r0, map Calling names) (r, cs) ->
  cs !! i = Some (Returned n (inl t)) -> cs !! j = Some (Returned m (inl u)) ->
  (t = u <-> n = m) /\ Lookup r n = Some t /\ Resolve r t = n.
Proof.
  intros Hwf0%reachable_wf Hrun Hi Hj.
  assert (Hinv : registry_wf r /\ Forall (call_ok r) cs).
  { apply (calls_invariant _ _ Hrun). split; [done|]. by apply Forall_map, Forall_true. }
  destruct Hinv as [Hwf Hcs]. rewrite Forall_lookup in Hcs. pose proof (Hcs i _ Hi) as Hn. pose proof (Hcs j _ Hj) as Hm. simpl in Hn, Hm.
  pose proof (rw_tokens r Hwf n t) as Htn. pose proof (rw_tokens r Hwf m u) as Htm. apply Htn in Hn as [Hgn Hln]. apply Htm in Hm as [Hgm Hlm].
  split_and!.
  - split; [intros <-; congruence|]. intros <-. pose proof (NoDup_lookup _ _ _ _ (rw_nodup r Hwf) Hln Hlm). lia.
  - unfold Lookup. rewrite (wf_ensure r Hwf). by apply Htn.
  - apply Resolve_lookup; [done|lia| |done]. intros ->. destruct (wf_tail_names r Hwf) as (Ht & _ & H0).
    rewrite Ht in Hln. replace (Z.to_nat t) with (S (Z.to_nat t - 1)) in Hln by lia. apply H0. by eapply list_elem_of_lookup_2.
Qed.

(** ** Runs *)

Definition two_labels : LabelRegistry :=
  Eval vm_compute in snd (GetOrCreate (snd (GetOrCreate NewLabelRegistry [65])) [66]).

Lemma two_labels_reachable : rtc registry_step NewLabelRegistry two_labels.
Proof. eapply rtc_l; [apply (step_get _ [65])|]. eapply rtc_l; [apply (step_get _ [66])|]. apply rtc_refl. Qed.

Lemma registry_bijection_witness : Lookup two_labels [66] = Some 2 /\ Resolve two_labels 2 = [66].
Proof.
  split; [|exact (proj1 (proj2 (proj1 (registry_bijection two_labels two_labels_reachable) [66] 2 eq_refl)))]. reflexivity.
Defined.

Lemma get_or_create_exact_witness :
  fst (GetOrCreate two_labels [67]) = inl 3 /\ RollbackNames (snd (GetOrCreate two_labels [67])) (ExportNames two_labels) [[67]] = (inl true, two_labels).
Proof.
  split; [reflexivity|]. exact (proj2 (proj2 (proj2 (proj2 (proj2 (get_or_create_exact two_labels [67] two_labels_reachable)))))).
Defined.

Lemma registry_export_import_witness :
  PropertyKey_ImportNames NewLabelRegistry (ExportNames two_labels) = (None, two_labels) /\
  AppendNames NewLabelRegistry (ExportNames NewLabelRegistry) [[65]; [66]] = (inl true, two_labels).
Proof.
  split.
  - exact (proj1 (registry_export_import two_labels two_labels [] two_labels_reachable two_labels_reachable)).
  - apply (registry_export_import NewLabelRegistry two_labels [[65]; [66]] (rtc_refl _ _) two_labels_reachable); [reflexivity|].
    repeat constructor.
Defined.

(** Two callers of one name, both past the miss before either allocates. *)
Definition race_end : LabelRegistry * list call :=
  (snd (GetOrCreate NewLabelRegistry [65]), [Returned [65] (inl 1); Returned [65] (inl 1)]).

Lemma race_run : rtc call_step (NewLabelRegistry, map Calling [[65]; [65]]) race_end.
Proof.
  eapply rtc_l; [apply (call_miss _ _ 0%nat [65]); reflexivity|]. eapply rtc_l; [apply (call_miss _ _ 1%nat [65]); reflexivity|].
  eapply rtc_l; [apply (call_create _ _ 0%nat [65]); reflexivity|]. eapply rtc_l; [apply (call_create _ _ 1%nat [65]); reflexivity|].
  apply rtc_refl.
Qed.

Lemma concurrent_tokens_consistent_witness : Lookup race_end.1 [65] = Some 1 /\ Resolve race_end.1 1 = [65].
Proof.
  exact (proj2 (concurrent_tokens_consistent NewLabelRegistry [[65]; [65]] _ _ 0%nat 1%nat [65] [65] 1 1 (rtc_refl _ _) race_run
    eq_refl eq_refl)).
Defined.

(** [AppendNames] with nothing to append reports success without comparing
    the registry with the caller's prefix. *)
Theorem append_empty_unchecked r prefix :
  AppendNames r ([] :: prefix) [] = (inl true, ensureInitialized r) /\
  AppendNames two_labels [[]; [67]] [] = (inl true, two_labels) /\
  fst (AppendNames two_labels [[]; [67]] [[68]]) = inl false.
Proof. split; [reflexivity|]. split; reflexivity. Qed.
