(* ===== verification/Locks.v ===== *)
(** * Entity and value locks (internal/locks)

    Writers lock the entities they touch, then the value stripes of the unique
    constraints they check; both are pools of 256 mutexes.  A lock call is the
    list of mutexes it takes, in order; threads interleave freely, a thread that
    wants a mutex another one holds waits.  The calls that take all their
    mutexes at once take them in ascending order, and the theorems show that
    threads doing so never deadlock.  [GetOrCreateByKey] takes its key's stripe
    first and the others later, which is not ascending. *)

From stdpp Require Import gmap relations.
From S2P Require Import Prelude ValidTime.

(** ** Shards and stripes *)

Definition ShardCount : Z := 256.

Section Shards.
(** The timestamp field of a snowflake ID. *)
Context (Time : Z -> Z).

Definition ShardIndex (id : Z) : Z := Z.land (Time id mod 256) (ShardCount - 1).

(** The distinct shards, ascending. *)
Definition uniqueSortedShards (ids : list Z) : list Z := sort_by Z.ltb (elements (list_to_set (map ShardIndex ids) : gset Z)).

Definition LockTwo (a b : Z) : list Z :=
  let sa := ShardIndex a in
  let sb := ShardIndex b in
  if sa =? sb then [sa] else if sa >? sb then [sb; sa] else [sa; sb].

(** The loop that moves greater shards up; [rev shards] is scanned. *)
Fixpoint insert_from_end (s : Z) (rshards : list Z) : list Z :=
  match rshards with
  | x :: rest => if x >? s then x :: insert_from_end s rest else s :: rshards
  | [] => [s]
  end.

Definition insertUniqueShard (s : Z) (shards : list Z) : list Z :=
  if bool_decide (s ∈ shards) then shards else rev (insert_from_end s (rev shards)).

Definition uniqueSortedThreeShards (a b c : Z) : list Z :=
  insertUniqueShard (ShardIndex c) (insertUniqueShard (ShardIndex b) [ShardIndex a]).
End Shards.

Definition fnvOffset64 : Z := 14695981039346656037.

Definition fnvPrime64 : Z := 1099511628211.

Definition fnv_byte (h b : Z) : Z := u64 (Z.lxor h b * fnvPrime64).

Definition ValueStripe (labelToken keyToken : Z) (value : bytes) : Z :=
  let h := fnv_byte fnvOffset64 (labelToken mod 256) in
  let h := fnv_byte h (Z.shiftr labelToken 8 mod 256) in
  let h := fnv_byte h (keyToken mod 256) in
  let h := fnv_byte h (Z.shiftr keyToken 8 mod 256) in
  Z.land (fold_left fnv_byte value h) (ShardCount - 1).

Definition uniqueSortedStripes (stripes : list Z) : list Z := sort_by Z.ltb (remove_dups stripes).

(** The stripes a call takes besides those it holds. *)
Definition LockStripesExcept (stripes held : list Z) : list Z :=
  List.filter (fun s => negb (bool_decide (s ∈ held))) (uniqueSortedStripes stripes).

(** ** Threads *)

(** Entity shards are the mutexes 0..255, value stripes 256..511. *)
Inductive instr := Acquire (k : Z) | Release (k : Z).

Record thread := mkThread { th_code : list instr; th_held : list Z }.

Definition lock_all (ks : list Z) : list instr := map Acquire ks.

Definition unlock_all (ks : list Z) : list instr := map Release (rev ks).

Definition value_lock (s : Z) : Z := ShardCount + s.

(** A write of the entities [ids] that checks the stripes [stripes], as a node
    update: the entity lock on entry, then the value stripes, released in reverse
    by the deferred calls. *)
Definition write_code (Time : Z -> Z) (ids stripes : list Z) : list instr :=
  let es := uniqueSortedShards Time ids in
  let vs := map value_lock (uniqueSortedStripes stripes) in
  lock_all es ++ lock_all vs ++ unlock_all vs ++ unlock_all es.

(** [GetOrCreateByKey] on a miss: the key's stripe, then the create's stripes
    except it. *)
Definition get_or_create_code (stripe : Z) (stripes : list Z) : list instr :=
  let more := map value_lock (LockStripesExcept stripes [stripe]) in
  lock_all [value_lock stripe] ++ lock_all more ++ unlock_all more ++ unlock_all [value_lock stripe].

Inductive lock_step (ts : list thread) : list thread -> Prop :=
  | step_acquire i k code held :
      ts !! i = Some (mkThread (Acquire k :: code) held) -> Forall (fun t => k ∉ th_held t) ts ->
      lock_step ts (<[i := mkThread code (k :: held)]> ts)
  | step_release i k code held :
      ts !! i = Some (mkThread (Release k :: code) held) ->
      lock_step ts (<[i := mkThread code (List.filter (fun h => negb (h =? k)) held)]> ts).

Definition started (codes : list (list instr)) : list thread := map (fun c => mkThread c []) codes.

Definition finished (ts : list thread) : Prop := Forall (fun t => th_code t = [] /\ th_held t = []) ts.

Definition work (ts : list thread) : nat := sum_list_with (fun t => length (th_code t)) ts.

(** ** Ascending order *)

(** An ascending list without repetition is determined by its elements. *)
Lemma strict_unique (l k : list Z) :
  StronglySorted Z.lt l -> StronglySorted Z.lt k -> (forall x, x ∈ l <-> x ∈ k) -> l = k.
Proof.
  intros Hl. revert k. induction Hl as [|x l Hl IH Hx]; intros k Hk Heq.
  - destruct k as [|y k]; [done|]. exfalso. assert (y ∈ []) by (apply Heq; left). by apply (not_elem_of_nil y).
  - destruct Hk as [|y k Hk Hy]; [exfalso; apply (not_elem_of_nil x), Heq; left|].
    rewrite Forall_forall in Hx, Hy. assert (x = y) as <-.
    { assert (Hxy : x ∈ y :: k) by (apply Heq; left). assert (Hyx : y ∈ x :: l) by (apply Heq; left).
      apply elem_of_cons in Hxy as [->|Hxy]; [done|]. apply elem_of_cons in Hyx as [->|Hyx]; [done|].
      specialize (Hx y Hyx). specialize (Hy x Hxy). lia. }
    f_equal. apply IH; [done|]. intros z. specialize (Heq z). rewrite !elem_of_cons in Heq. split; intros Hz.
    + destruct (proj1 Heq (or_intror Hz)) as [->|]; [|done]. specialize (Hx x Hz). lia.
    + destruct (proj2 Heq (or_intror Hz)) as [->|]; [|done]. specialize (Hy x Hz). lia.
Qed.

Lemma uniqueSortedShards_spec Time ids :
  StronglySorted Z.lt (uniqueSortedShards Time ids) /\ (forall s, s ∈ uniqueSortedShards Time ids <-> exists id, id ∈ ids /\ s = ShardIndex Time id).
Proof.
  unfold uniqueSortedShards. split; [apply sort_Z_strict, NoDup_elements|]. intros s.
  rewrite elem_of_sort_by, elem_of_elements, elem_of_list_to_set, (list_elem_of_fmap (ShardIndex Time)). naive_solver.
Qed.

Lemma ShardIndex_range Time id : 0 <= ShardIndex Time id < ShardCount.
Proof.
  unfold ShardIndex, ShardCount. change (256 - 1) with (Z.ones 8). rewrite Z.land_ones by lia. apply Z.mod_pos_bound. lia.
Qed.

Lemma uniqueSortedStripes_spec stripes :
  StronglySorted Z.lt (uniqueSortedStripes stripes) /\ (forall s, s ∈ uniqueSortedStripes stripes <-> s ∈ stripes).
Proof.
  unfold uniqueSortedStripes. split; [apply sort_Z_strict, NoDup_remove_dups|]. intros s. by rewrite elem_of_sort_by, elem_of_remove_dups.
Qed.

Lemma insert_from_end_spec s l :
  s ∉ l -> StronglySorted Z.gt l -> StronglySorted Z.gt (insert_from_end s l) /\ forall x, x ∈ insert_from_end s l <-> x = s \/ x ∈ l.
Proof.
  intros Hs. induction 1 as [|y l Hl IH Hy]; cbn [insert_from_end].
  { split; [repeat constructor|]. intros x. rewrite list_elem_of_singleton. split; [by left|by intros [|?%elem_of_nil]]. }
  destruct (Z.gtb_spec y s) as [Hgt|Hle].
  - destruct IH as [H1 H2]; [set_solver|]. split.
    + constructor; [done|]. rewrite Forall_forall in Hy |- *. intros x [->|Hx]%H2; [lia|by apply Hy].
    + intros x. rewrite elem_of_cons, H2, elem_of_cons. tauto.
  - assert (y <> s) by (intros ->; apply Hs; left). split.
    + constructor; [by constructor|]. constructor; [lia|]. rewrite Forall_forall in Hy |- *. intros x Hx. specialize (Hy x Hx). lia.
    + intros x. by rewrite !elem_of_cons.
Qed.

Lemma insertUniqueShard_spec s l :
  StronglySorted Z.lt l -> StronglySorted Z.lt (insertUniqueShard s l) /\ forall x, x ∈ insertUniqueShard s l <-> x = s \/ x ∈ l.
Proof.
  intros Hl. unfold insertUniqueShard. case_bool_decide as Hs; [split; [done|]; intros x; split; [by right|by intros [->|]]|].
  assert (Hrev : forall (m : list Z) x, x ∈ rev m <-> x ∈ m) by (intros m x; by rewrite !list_elem_of_In, <- in_rev).
  destruct (insert_from_end_spec s (rev l)) as [H1 H2]; [by rewrite Hrev| |].
  - apply StronglySorted_rev in Hl. eapply StronglySorted_weaken; [|exact Hl]. simpl. lia.
  - split; [|intros x; by rewrite Hrev, H2, Hrev]. apply StronglySorted_rev in H1. eapply StronglySorted_weaken; [|exact H1]. simpl. lia.
Qed.

(** The specialised lock calls for two and three entities take exactly the
    mutexes the general call takes, in the same ascending order, each once. *)
Theorem small_lock_calls_agree Time a b c :
  LockTwo Time a b = uniqueSortedShards Time [a; b] /\ uniqueSortedThreeShards Time a b c = uniqueSortedShards Time [a; b; c].
Proof.
  split.
  - destruct (uniqueSortedShards_spec Time [a; b]) as [Hs Hm]. apply strict_unique; [|done|].
    + unfold LockTwo. destruct (Z.eqb_spec (ShardIndex Time a) (ShardIndex Time b)); [repeat constructor|].
      destruct (Z.gtb_spec (ShardIndex Time a) (ShardIndex Time b)); repeat constructor; lia.
    + intros x. rewrite Hm. unfold LockTwo. destruct (Z.eqb_spec (ShardIndex Time a) (ShardIndex Time b)) as [E|];
        [|destruct (_ >? _)]; rewrite ?elem_of_cons, ?list_elem_of_singleton; set_solver.
  - destruct (uniqueSortedShards_spec Time [a; b; c]) as [Hs Hm].
    destruct (insertUniqueShard_spec (ShardIndex Time b) [ShardIndex Time a]) as [H1 H2]; [repeat constructor|].
    destruct (insertUniqueShard_spec (ShardIndex Time c) _ H1) as [H3 H4]. apply strict_unique; [done..|].
    intros x. unfold uniqueSortedThreeShards. rewrite Hm, H4, H2. set_solver.
Qed.

(** ** Ordered threads *)

(** The rest of a thread's code takes only mutexes above all it holds, releases
    only what it holds, and ends with none. *)
Fixpoint ordered (held : list Z) (code : list instr) : Prop :=
  match code with
  | [] => held = []
  | Acquire k :: rest => Forall (fun h => h < k) held /\ ordered (k :: held) rest
  | Release k :: rest => k ∈ held /\ ordered (List.filter (fun h => negb (h =? k)) held) rest
  end.

Lemma ordered_lock_all ks : forall held rest,
  StronglySorted Z.lt ks -> (forall h k, h ∈ held -> k ∈ ks -> h < k) -> ordered (rev ks ++ held) rest ->
  ordered held (lock_all ks ++ rest).
Proof.
  induction ks as [|k ks IH]; intros held rest Hs Hb Hr; [done|]. apply StronglySorted_inv in Hs as [Hs Hk]. split.
  - apply Forall_forall. intros h Hh. apply Hb; [done|left].
  - apply IH; [done| |].
    + intros h x [->|Hh]%elem_of_cons Hx; [by rewrite Forall_forall in Hk; apply Hk|]. apply Hb; [done|by right].
    + cbn [rev] in Hr. by rewrite <- app_assoc in Hr.
Qed.

Lemma filter_absent k (l : list Z) : k ∉ l -> List.filter (fun h => negb (h =? k)) l = l.
Proof.
  induction l as [|x l IH]; intros Hn; [done|]. apply not_elem_of_cons in Hn as [Hx Hl]. cbn.
  destruct (Z.eqb_spec x k); [by subst|]. by rewrite IH.
Qed.

Lemma ordered_unlock_all ks held rest :
  NoDup (rev ks ++ held) -> ordered held rest -> ordered (rev ks ++ held) (unlock_all ks ++ rest).
Proof.
  unfold unlock_all. induction (rev ks) as [|k r IH]; intros Hnd Hr; [done|]. apply NoDup_cons in Hnd as [Hn Hnd].
  split; [left|]. cbn [List.filter app]. rewrite Z.eqb_refl, filter_absent by done. by apply IH.
Qed.

Lemma strict_NoDup l : StronglySorted Z.lt l -> NoDup l.
Proof.
  induction 1 as [|x l _ IH Hx]; constructor; [|done]. intros Hin. rewrite Forall_forall in Hx. specialize (Hx x Hin). lia.
Qed.

Lemma NoDup_rev_list (l : list Z) : NoDup l -> NoDup (rev l).
Proof. intros H. by rewrite <- (Permutation_rev l). Qed.

(** One bracket of lock calls around another. *)
Lemma ordered_nested es vs :
  StronglySorted Z.lt es -> StronglySorted Z.lt vs -> (forall e v, e ∈ es -> v ∈ vs -> e < v) ->
  ordered [] (lock_all es ++ lock_all vs ++ unlock_all vs ++ unlock_all es).
Proof.
  intros He Hv Hlt. apply strict_NoDup in He as He'. apply strict_NoDup in Hv as Hv'.
  assert (Hrev : forall (m : list Z) x, x ∈ rev m -> x ∈ m) by (intros m x; by rewrite !list_elem_of_In, <- in_rev).
  apply ordered_lock_all; [done|intros h k Hh; by apply elem_of_nil in Hh|]. rewrite app_nil_r.
  apply ordered_lock_all; [done|intros h k Hh%Hrev Hk; by apply Hlt|]. apply ordered_unlock_all.
  - apply NoDup_app. split; [by apply NoDup_rev_list|]. split; [|by apply NoDup_rev_list].
    intros x Hx%Hrev Hx'%Hrev. specialize (Hlt x x Hx' Hx). lia.
  - rewrite <- (app_nil_r (rev es)), <- (app_nil_r (unlock_all es)). apply ordered_unlock_all; [|done].
    rewrite app_nil_r. by apply NoDup_rev_list.
Qed.

Lemma value_lock_sorted l : StronglySorted Z.lt l -> StronglySorted Z.lt (map value_lock l).
Proof.
  induction 1 as [|x l Hl IH Hx]; [constructor|]. cbn [map]. constructor; [done|]. rewrite Forall_forall in Hx |- *.
  intros v (s & -> & Hs)%(list_elem_of_fmap value_lock). specialize (Hx s Hs). unfold value_lock. lia.
Qed.

Lemma write_code_ordered Time ids stripes : Forall (fun s => 0 <= s) stripes -> ordered [] (write_code Time ids stripes).
Proof.
  intros Hpos. destruct (uniqueSortedShards_spec Time ids) as [He Hem]. destruct (uniqueSortedStripes_spec stripes) as [Hv Hvm].
  apply ordered_nested; [done| |].
  - by apply value_lock_sorted.
  - intros e v (id & _ & ->)%Hem (s & -> & Hs)%(list_elem_of_fmap value_lock). pose proof (ShardIndex_range Time id).
    apply Hvm in Hs. rewrite Forall_forall in Hpos. specialize (Hpos s Hs). unfold value_lock. lia.
Qed.

Definition exclusive (ts : list thread) : Prop :=
  forall i j ti tj k, i <> j -> ts !! i = Some ti -> ts !! j = Some tj -> k ∈ th_held ti -> k ∉ th_held tj.

Definition threads_ok (ts : list thread) : Prop := Forall (fun t => ordered (th_held t) (th_code t)) ts /\ exclusive ts.

(** A step that gives a thread only mutexes it held or nobody held. *)
Lemma exclusive_insert ts i t t' :
  exclusive ts -> ts !! i = Some t ->
  (forall k, k ∈ th_held t' -> k ∈ th_held t \/ Forall (fun u => k ∉ th_held u) ts) -> exclusive (<[i := t']> ts).
Proof.
  intros Hex Hi Hk. assert (Hboth : forall j u k, j <> i -> ts !! j = Some u -> k ∈ th_held t' -> k ∉ th_held u).
  { intros j u k Hne Hj [Ho|Hf]%Hk; [by eapply (Hex i j)|]. rewrite Forall_lookup in Hf. by eapply Hf. }
  intros a b ta tb k Hne [(-> & <- & _)|(Hia & Ha)]%list_lookup_insert_Some [(-> & <- & _)|(Hib & Hb)]%list_lookup_insert_Some Hin Hin'; [done|..].
  - by eapply Hboth.
  - by eapply Hboth.
  - by eapply (Hex a b).
Qed.

Lemma lock_step_ok ts ts' : threads_ok ts -> lock_step ts ts' -> threads_ok ts'.
Proof.
  intros [Ho Hex] Hst. rewrite Forall_lookup in Ho. destruct Hst as [i k code held Hi Hf|i k code held Hi].
  all: destruct (Ho i _ Hi) as [H1 H2]; split; [apply Forall_insert; [by apply Forall_lookup|done]|].
  all: eapply exclusive_insert; [done|exact Hi|]; cbn; intros h Hh.
  - apply elem_of_cons in Hh as [->|Hh]; [by right|by left].
  - left. rewrite list_elem_of_In, filter_In, <- list_elem_of_In in Hh. tauto.
Qed.

Lemma lock_step_work ts ts' : lock_step ts ts' -> (work ts' < work ts)%nat.
Proof.
  assert (Hins : forall i t t', ts !! i = Some t -> (length (th_code t') < length (th_code t))%nat -> (work (<[i := t']> ts) < work ts)%nat).
  { unfold work. clear. induction ts as [|u ts IH]; intros [|i] t t' Hi Hlt; simplify_eq/=; [lia|]. specialize (IH i t t' Hi Hlt). lia. }
  intros [i k code held Hi Hf|i k code held Hi]; (eapply Hins; [exact Hi|]; cbn; lia).
Qed.

Definition wanted (t : thread) : option Z := match th_code t with Acquire k :: _ => Some k | _ => None end.

Lemma list_max_Z (l : list Z) : l <> [] -> exists m, m ∈ l /\ forall x, x ∈ l -> x <= m.
Proof.
  induction l as [|x l IH]; [done|]. intros _. destruct l as [|y l]; [exists x; split; [left|]; intros z; rewrite list_elem_of_singleton; lia|].
  destruct IH as (m & Hm & Hmax); [done|]. exists (Z.max x m). split.
  - destruct (Z.max_spec x m) as [[_ ->]|[_ ->]]; [by right|left].
  - intros z [->|Hz]%elem_of_cons; [lia|]. specialize (Hmax z Hz). lia.
Qed.

Definition releasing (t : thread) : bool := match th_code t with Release _ :: _ => true | _ => false end.

(** The thread that wants the highest mutex can take it. *)
Lemma ordered_progress ts : threads_ok ts -> finished ts \/ exists ts', lock_step ts ts'.
Proof.
  intros [Ho _]. rewrite Forall_lookup in Ho. destruct (list_find (fun t => releasing t = true) ts) as [[i t]|] eqn:Hf.
  { apply list_find_Some in Hf as (Hi & Hrel & _). right. destruct t as [[|[k|k] rest] held]; try done. eexists. by eapply step_release. }
  apply list_find_None in Hf. rewrite Forall_lookup in Hf. destruct (decide (omap wanted ts = [])) as [Hw|Hw].
  - left. apply Forall_lookup. intros i [[|[k|k] rest] held] Hi; [by specialize (Ho i _ Hi)| |by destruct (Hf i _ Hi)].
    assert (Hin : k ∈ omap wanted ts) by (apply list_elem_of_omap; eexists; split; [by eapply list_elem_of_lookup_2|done]).
    rewrite Hw in Hin. by apply elem_of_nil in Hin.
  - right. destruct (list_max_Z _ Hw) as (m & Hm & Hmax).
    apply list_elem_of_omap in Hm as ([[|[k|k] rest] held] & [i Hi]%list_elem_of_lookup & Ht); [done| |done]. injection Ht as <-.
    eexists. eapply step_acquire; [exact Hi|]. apply Forall_lookup. intros j [[|[w|w] urest] uheld] Hj Hin; cbn in Hin.
    + specialize (Ho j _ Hj). cbn in Ho. subst. by apply elem_of_nil in Hin.
    + destruct (Ho j _ Hj) as [Hlt _]. rewrite Forall_forall in Hlt. specialize (Hlt k Hin).
      assert (w <= k); [|lia]. apply Hmax, list_elem_of_omap. eexists. split; [by eapply list_elem_of_lookup_2|done].
    + by destruct (Hf j _ Hj).
Qed.

Lemma ordered_finish ts : threads_ok ts -> exists ts', rtc lock_step ts ts' /\ finished ts'.
Proof.
  induction ts as [ts IH] using (well_founded_induction (well_founded_ltof _ work)). intros Hok.
  destruct (ordered_progress ts Hok) as [Hf|[ts1 Hst]]; [by exists ts|].
  destruct (IH ts1) as (ts2 & Hr & Hf); [by apply lock_step_work|by eapply lock_step_ok|]. exists ts2. split; [by eapply rtc_l|done].
Qed.

Lemma started_ok codes : Forall (ordered []) codes -> threads_ok (started codes).
Proof.
  intros Ho. split.
  - apply Forall_map. eapply Forall_impl; [exact Ho|]. done.
  - intros i j ti tj k _ Hi _ Hin. apply list_lookup_fmap_Some in Hi as (c & -> & _). by apply elem_of_nil in Hin.
Qed.

(** C16: writers that lock the entities they touch and then the value stripes they
    check, each in one call, never deadlock: in every state their interleaving
    can reach, no mutex is held by two of them, some writer can go on unless all
    have finished with every mutex released, each step uses up work, and a
    finished state is reachable. *)
Theorem locks_never_deadlock Time (ops : list (list Z * list Z)) ts
  (Hstripes : Forall (fun op => Forall (fun s => 0 <= s) op.2) ops)
  (Hrun : rtc lock_step (started (map (fun op => write_code Time op.1 op.2) ops)) ts) :
  exclusive ts /\ (finished ts \/ exists ts', lock_step ts ts') /\
  (forall ts', lock_step ts ts' -> (work ts' < work ts)%nat) /\ exists ts', rtc lock_step ts ts' /\ finished ts'.
Proof.
  assert (Hok : threads_ok ts).
  { assert (H0 : threads_ok (started (map (fun op => write_code Time op.1 op.2) ops))).
    - apply started_ok, Forall_map. eapply Forall_impl; [exact Hstripes|]. intros op Hop. by apply write_code_ordered.
    - revert H0. induction Hrun as [|x y z Hxy _ IH]; [done|]. intros Hx. by apply IH, (lock_step_ok x). }
  split; [apply Hok|]. split; [by apply ordered_progress|]. split; [apply lock_step_work|by apply ordered_finish].
Qed.

Lemma locks_never_deadlock_witness :
  exists ts', rtc lock_step (started [write_code (fun x => x) [5; 3] [9; 2; 9]; write_code (fun x => x) [3; 5] [2]]) ts' /\ finished ts'.
Proof.
  apply (locks_never_deadlock (fun x => x) [([5; 3], [9; 2; 9]); ([3; 5], [2])]); [repeat constructor; lia|apply rtc_refl].
Defined.

Lemma LockStripes_pair s1 s2 : s1 < s2 ->
  uniqueSortedStripes [s1; s2] = [s1; s2] /\ LockStripesExcept [s1; s2] [s1] = [s2] /\ LockStripesExcept [s1; s2] [s2] = [s1].
Proof.
  intros Hlt. assert (Hu : uniqueSortedStripes [s1; s2] = [s1; s2]).
  { destruct (uniqueSortedStripes_spec [s1; s2]) as [Hs Hm]. apply strict_unique; [done| |done]. repeat constructor; lia. }
  unfold LockStripesExcept. rewrite Hu. split; [done|]. cbn [List.filter].
  assert (E1 : bool_decide (s1 ∈ [s1]) = true) by (apply bool_decide_eq_true; left).
  assert (E2 : bool_decide (s2 ∈ [s2]) = true) by (apply bool_decide_eq_true; left).
  assert (E3 : bool_decide (s1 ∈ [s2]) = false) by (apply bool_decide_eq_false; rewrite list_elem_of_singleton; lia).
  assert (E4 : bool_decide (s2 ∈ [s1]) = false) by (apply bool_decide_eq_false; rewrite list_elem_of_singleton; lia).
  by rewrite E1, E2, E3, E4.
Qed.

(** Two threads that each want what the other holds are stuck. *)
Lemma crossed_stuck a b ca cb :
  let ts := [mkThread (Acquire b :: ca) [a]; mkThread (Acquire a :: cb) [b]] in ~ finished ts /\ forall ts', ~ lock_step ts ts'.
Proof.
  split; [by intros [[? _] _]%Forall_cons|]. intros ts' Hst. destruct Hst as [i k code held Hi Hf|i k code held Hi].
  - rewrite !Forall_cons in Hf. destruct Hf as (Ha & Hb & _). cbn in Ha, Hb. rewrite list_elem_of_singleton in Ha, Hb.
    destruct i as [|[|i]]; simplify_eq/=.
  - destruct i as [|[|i]]; simplify_eq/=.
Qed.

Lemma crossed_reached a b ca cb : a <> b ->
  rtc lock_step (started [Acquire a :: Acquire b :: ca; Acquire b :: Acquire a :: cb])
    [mkThread (Acquire b :: ca) [a]; mkThread (Acquire a :: cb) [b]].
Proof.
  intros Hne. eapply rtc_l; [apply (step_acquire _ 0 a (Acquire b :: ca) []); [done|]|].
  { repeat constructor; cbn; apply not_elem_of_nil. }
  eapply rtc_l; [apply (step_acquire _ 1 b (Acquire a :: cb) []); [done|]|apply rtc_refl].
  repeat constructor; cbn; [by rewrite list_elem_of_singleton|apply not_elem_of_nil].
Qed.

(** Two calls of [GetOrCreateByKey] that look up one value of a constrained
    pair each and create with both can wait for each other for ever: each holds
    the stripe it looked up, neither is finished, and no step is left.  So can a
    call that looks up the greater stripe and an ordinary create of both. *)
Theorem get_or_create_deadlock s1 s2 (Hlt : s1 < s2) :
  (exists ts, rtc lock_step (started [get_or_create_code s1 [s1; s2]; get_or_create_code s2 [s1; s2]]) ts /\
    ~ finished ts /\ forall ts', ~ lock_step ts ts') /\
  (exists ts, rtc lock_step (started [get_or_create_code s2 [s1; s2]; write_code (fun x => x) [] [s1; s2]]) ts /\
    ~ finished ts /\ forall ts', ~ lock_step ts ts').
Proof.
  destruct (LockStripes_pair s1 s2 Hlt) as (Hu & H1 & H2). unfold write_code, get_or_create_code. rewrite Hu, H1, H2.
  assert (Hne : value_lock s1 <> value_lock s2) by (unfold value_lock; lia).
  split; (eexists; split; [apply crossed_reached; congruence|apply crossed_stuck]).
Qed.

Lemma get_or_create_deadlock_witness :
  exists ts, rtc lock_step (started [get_or_create_code 3 [3; 7]; get_or_create_code 7 [3; 7]]) ts /\
    ~ finished ts /\ forall ts', ~ lock_step ts ts'.
Proof. apply (get_or_create_deadlock 3 7); lia. Defined.
