(* ===== verification/Props.v ===== *)
(** * Properties (pkg/types/propertyslice.go, temporal_value.go, shadow.go)

    A row's properties are a slice of key/value entries sorted by key.  Values
    are Go's [any]: [value] has one constructor per type the code tells apart.
    A value is immutable here, so a deep copy is the value itself except where
    it runs a registered struct's own [DeepCopyValue], which is a parameter.
    The theorems show that the operations are those of a finite map from keys
    to canonical values, and that the two bulk constructors are repeated [Set]. *)

From stdpp Require Import gmap.
From S2P Require Import Prelude Bytes.

(** ** Values *)

(** The numeric scalar types ([uint8] is also [byte]). *)
Inductive numType := TInt | TInt8 | TInt16 | TInt32 | TInt64 | TUint | TUint8 | TUint16 | TUint32 | TUint64 | TFloat32 | TFloat64.

(** The slice types without nested values other than strings. *)
Inductive sliceType := SInt | SInt64 | SFloat32 | SFloat64 | SByte | SBool.

(** A struct or a pointer to one: the element type, the runtime form, which of
    the two contracts that form satisfies, and the contents. *)
Record structValue := mkStruct {
  sv_type : bytes; sv_pointer : bool; sv_nil : bool; sv_hashable : bool; sv_copyable : bool; sv_payload : Z;
}.

(** [None] inside a slice or map is Go's nil of that type. A [time.Time] is
    known by its RFC 3339 rendering. *)
Inductive value :=
  | VNil
  | VBool (b : bool)
  | VString (s : bytes)
  | VNum (ty : numType) (bits : Z)
  | VTemporal (kind : Z) (rendering : bytes)
  | VTime (rfc3339 : bytes)
  | VStrings (o : option (list bytes))
  | VNums (ty : sliceType) (o : option (list Z))
  | VAnys (o : option (list value))
  | VMap (o : option (list (bytes * value)))
  | VMapString (o : option (list (bytes * bytes)))
  | VStruct (s : structValue)
  | VOtherMap (ty : bytes)
  | VOther (ty : bytes).

#[export] Instance numType_eq_dec : EqDecision numType.
Proof. solve_decision. Defined.

#[export] Instance sliceType_eq_dec : EqDecision sliceType.
Proof. solve_decision. Defined.

#[export] Instance structValue_eq_dec : EqDecision structValue.
Proof. solve_decision. Defined.

#[export] Instance value_eq_dec : EqDecision value.
Proof.
  refine (fix go (x y : value) {struct x} : {x = y} + {x <> y} :=
    let Hgo : EqDecision value := go in
    match x, y with
    | VNil, VNil => left eq_refl
    | VBool a, VBool b => cast_if (decide (a = b))
    | VString a, VString b => cast_if (decide (a = b))
    | VNum t a, VNum t' b => cast_if_and (decide (t = t')) (decide (a = b))
    | VTemporal k a, VTemporal k' b => cast_if_and (decide (k = k')) (decide (a = b))
    | VTime a, VTime b => cast_if (decide (a = b))
    | VStrings a, VStrings b => cast_if (decide (a = b))
    | VNums t a, VNums t' b => cast_if_and (decide (t = t')) (decide (a = b))
    | VAnys a, VAnys b => cast_if (decide (a = b))
    | VMap a, VMap b => cast_if (decide (a = b))
    | VMapString a, VMapString b => cast_if (decide (a = b))
    | VStruct a, VStruct b => cast_if (decide (a = b))
    | VOtherMap a, VOtherMap b => cast_if (decide (a = b))
    | VOther a, VOther b => cast_if (decide (a = b))
    | _, _ => right _
    end); clear Hgo go; abstract congruence.
Defined.

(** ** Keys *)

Definition IsShadowKey (key : bytes) : bool := bool_decide (take 4 key = bytes_of_string "tkg_").

Inductive propError :=
  | ErrEmptyPropertyKey
  | ErrReservedPrefix (key : bytes)
  | ErrUnsupportedValueType
  | ErrUnsupportedMapType
  | ErrMaxDepthExceeded
  | ErrInvalidTemporalValue.

(** ** Validation *)

Definition maxPropertyDepth : Z := 32.

Definition maxTemporalKind : Z := 5.

Definition maxTemporalValueLen : Z := 128.

(** [None] is success. *)
Definition TemporalValue_Validate (kind : Z) (rendering : bytes) : option propError :=
  if kind >? maxTemporalKind then Some ErrInvalidTemporalValue
  else if bool_decide (rendering = []) then Some ErrInvalidTemporalValue
  else if Z.of_nat (length rendering) >? maxTemporalValueLen then Some ErrInvalidTemporalValue
  else None.

Definition canonicalizeTemporalValue (v : value) : value :=
  match v with VTime rendering => VTemporal 4 rendering | _ => v end.

Definition isScalarPropertyValue (v : value) : bool :=
  match v with VNil | VBool _ | VString _ | VNum _ _ => true | _ => false end.

(** The first error of a loop. *)
Definition first_error {A} (f : A -> option propError) : list A -> option propError :=
  fix go l := match l with [] => None | x :: l' => match f x with Some e => Some e | None => go l' end end.

(** Copy every element of a container; [None] when a copy panics. *)
Definition copy_all {A} (f : A -> option A) : list A -> option (list A) :=
  fix go l := match l with
              | [] => Some []
              | x :: l' => match f x, go l' with Some y, Some k => Some (y :: k) | _, _ => None end
              end.

Notation PropertySlice := (list (bytes * value)).

Section Values.
(** The registered element types, and the structs' own [DeepCopyValue]
    ([None]: it panicked). *)
Context (registry : list bytes) (DeepCopyValue : structValue -> option value).

Definition isRegisteredPropertyStructType (s : structValue) : bool :=
  if sv_pointer s && sv_nil s then false
  else if bool_decide (sv_type s ∈ registry) then sv_hashable s && sv_copyable s else false.

Fixpoint validateReflectValue (v : value) (depth : Z) : option propError :=
  if depth >? maxPropertyDepth then Some ErrMaxDepthExceeded
  else match v with
       | VAnys (Some l) => first_error (fun x => validateReflectValue x (depth + 1)) l
       | VMap (Some m) => first_error (fun kv => validateReflectValue kv.2 (depth + 1)) m
       | VTemporal kind rendering => TemporalValue_Validate kind rendering
       | VStruct s => if isRegisteredPropertyStructType s then None else Some ErrUnsupportedValueType
       | VOtherMap _ => Some ErrUnsupportedMapType
       | VTime _ | VOther _ => Some ErrUnsupportedValueType
       | _ => None
       end.

Definition ValidatePropertyValue (v : value) : option propError :=
  if isScalarPropertyValue v then None
  else match v with
       | VTemporal kind rendering => TemporalValue_Validate kind rendering
       | VTime _ => None
       | _ => validateReflectValue v 0
       end.

(** ** Copies *)

Definition preserveDeepCopyPointerShape (original : structValue) (copied : value) : value :=
  match copied with
  | VStruct s =>
      if negb (sv_pointer original) then
        if negb (sv_pointer s) then copied
        else if sv_nil s || negb (bool_decide (sv_type s = sv_type original)) then copied
        else VStruct (mkStruct (sv_type s) false false (sv_hashable original) (sv_copyable original) (sv_payload s))
      else if sv_pointer s then copied
      else if negb (bool_decide (sv_type s = sv_type original)) then copied
      else VStruct (mkStruct (sv_type s) true false (sv_hashable original) (sv_copyable original) (sv_payload s))
  | _ => copied
  end.

Fixpoint deepCopyValue (v : value) (depth : Z) : option value :=
  if depth >? maxPropertyDepth then Some v
  else match v with
       | VAnys (Some l) => match copy_all (fun x => deepCopyValue x (depth + 1)) l with
                           | Some k => Some (VAnys (Some k))
                           | None => None
                           end
       | VMap (Some m) =>
           match copy_all (fun kv => match deepCopyValue kv.2 (depth + 1) with
                                     | Some x => Some (kv.1, x)
                                     | None => None
                                     end) m with
           | Some k => Some (VMap (Some k))
           | None => None
           end
       | VStruct s =>
           if isRegisteredPropertyStructType s then
             match DeepCopyValue s with Some c => Some (preserveDeepCopyPointerShape s c) | None => None end
           else Some v
       | _ => Some v
       end.

Fixpoint propertyValueHashNeedsRecover (v : value) (depth : Z) : bool :=
  if depth >? maxPropertyDepth then true
  else match v with
       | VNil | VBool _ | VString _ | VNum _ _ | VStrings _ | VNums _ _ | VMapString _ => false
       | VAnys None | VMap None => false
       | VAnys (Some l) => existsb (fun x => propertyValueHashNeedsRecover x (depth + 1)) l
       | VMap (Some m) => existsb (fun kv => propertyValueHashNeedsRecover kv.2 (depth + 1)) m
       | _ => true
       end.

(** [RegisteredPropertyStructWireType]: the type name and whether the runtime
    form is a pointer. *)
Definition RegisteredPropertyStructWireType (v : value) : option (bytes * bool) :=
  match v with
  | VStruct s => if isRegisteredPropertyStructType s then Some (sv_type s, sv_pointer s) else None
  | _ => None
  end.

(** The elements of two containers, in step. *)
Definition first_error2 {A B} (f : A -> B -> option propError) : list A -> list B -> option propError :=
  fix go l k := match l, k with
                | x :: l', y :: k' => match f x y with Some e => Some e | None => go l' k' end
                | _, _ => None
                end.

Fixpoint validateCustomCopyShape (original copied : value) (depth : Z) : option propError :=
  if depth >? maxPropertyDepth then None
  else match RegisteredPropertyStructWireType original with
       | Some orig =>
           if bool_decide (RegisteredPropertyStructWireType copied = Some orig) then None
           else Some ErrUnsupportedValueType
       | None =>
           match original with
           | VAnys o =>
               let orig := default [] o in
               match copied with
               | VAnys o' =>
                   let cp := default [] o' in
                   if negb (length cp =? length orig)%nat then Some ErrUnsupportedValueType
                   else match o with
                        | Some l => first_error2 (fun x y => validateCustomCopyShape x y (depth + 1)) l cp
                        | None => None
                        end
               | _ => Some ErrUnsupportedValueType
               end
           | VMap o =>
               let orig := default [] o in
               match copied with
               | VMap o' =>
                   let cp := default [] o' in
                   if negb (length cp =? length orig)%nat then Some ErrUnsupportedValueType
                   else match o with
                        | Some m =>
                            first_error (fun kv =>
                              match List.find (fun e => bool_decide (e.1 = kv.1)) cp with
                              | Some e => validateCustomCopyShape kv.2 e.2 (depth + 1)
                              | None => Some ErrUnsupportedValueType
                              end) m
                        | None => None
                        end
               | _ => Some ErrUnsupportedValueType
               end
           | _ => None
           end
       end.

Definition copyValidatedPropertyValue (v : value) : value + propError :=
  if isScalarPropertyValue v then inl v
  else match v with
       | VTemporal _ _ => inl v
       | _ =>
           match deepCopyValue v 0 with
           | None => inr ErrUnsupportedValueType
           | Some copied =>
               match ValidatePropertyValue copied with
               | Some e => inr e
               | None =>
                   if negb (bool_decide (registry = [])) && propertyValueHashNeedsRecover v 0 then
                     match validateCustomCopyShape v copied 0 with Some e => inr e | None => inl copied end
                   else inl copied
               end
           end
       end.

(** [canonicalPropertyValue], which [Set] and [NewPropertySlice] repeat. *)
Definition canonicalPropertyValue (v : value) : value + propError :=
  let v := canonicalizeTemporalValue v in
  match ValidatePropertyValue v with
  | Some e => inr e
  | None => copyValidatedPropertyValue v
  end.

(** The canonical form of a key and value, or why they are refused. *)
Definition check_entry (key : bytes) (v : value) : value + propError :=
  if bool_decide (key = []) then inr ErrEmptyPropertyKey
  else if IsShadowKey key then inr (ErrReservedPrefix key)
  else canonicalPropertyValue v.

(** ** The slice *)

Definition key_at (ps : PropertySlice) (i : nat) : bytes := match ps !! i with Some p => p.1 | None => [] end.

Definition searchKey (ps : PropertySlice) (key : bytes) : nat :=
  Search (length ps) (fun i => negb (str_lt (key_at ps i) key)).

Definition found_at (ps : PropertySlice) (key : bytes) : bool :=
  let i := searchKey ps key in (i <? length ps)%nat && bool_decide (key_at ps i = key).

Definition PropertySlice_Set (ps : PropertySlice) (key : bytes) (v : value) : PropertySlice + propError :=
  match check_entry key v with
  | inr e => inr e
  | inl copied =>
      let i := searchKey ps key in
      if found_at ps key then inl (<[i := (key, copied)]> ps)
      else inl (take i ps ++ (key, copied) :: drop i ps)
  end.

Definition borrow (ps : PropertySlice) (key : bytes) : option value :=
  if found_at ps key then snd <$> ps !! searchKey ps key else None.

(** [Get]: a registered struct's panicking copy is the caller's panic. *)
Definition PropertySlice_Get (ps : PropertySlice) (key : bytes) : option (option value) :=
  match borrow ps key with
  | Some v => match deepCopyValue v 0 with Some c => Some (Some c) | None => None end
  | None => Some None
  end.

Definition PropertySlice_Delete (ps : PropertySlice) (key : bytes) : (bool * PropertySlice) + propError :=
  if IsShadowKey key then inr (ErrReservedPrefix key)
  else
    let i := searchKey ps key in
    if found_at ps key then inl (true, take i ps ++ drop (S i) ps) else inl (false, ps).

Definition PropertySlice_Len (ps : PropertySlice) : Z := Z.of_nat (length ps).

(** Canonicalize every entry, stopping at the first refusal. *)
Fixpoint canon_entries (check : bytes -> value -> value + propError) (l : PropertySlice) : PropertySlice + propError :=
  match l with
  | [] => inl []
  | (k, v) :: l' =>
      match check k v with
      | inr e => inr e
      | inl v' => match canon_entries check l' with inl l'' => inl ((k, v') :: l'') | inr e => inr e end
      end
  end.

Definition by_key (x y : bytes * value) : bool := str_lt x.1 y.1.

(** [NewPropertySlice] of a map, its entries in iteration order. *)
Definition NewPropertySlice (m : PropertySlice) : PropertySlice + propError :=
  match canon_entries check_entry m with
  | inl ps => inl (sort_by by_key ps)
  | inr e => inr e
  end.

(** The loop that checks the keys and whether they ascend strictly. *)
Fixpoint key_scan (prev : option bytes) (sortedUnique : bool) (ps : PropertySlice) : bool + propError :=
  match ps with
  | [] => inl sortedUnique
  | (k, _) :: ps' =>
      if bool_decide (k = []) then inr ErrEmptyPropertyKey
      else if IsShadowKey k then inr (ErrReservedPrefix k)
      else key_scan (Some k) (sortedUnique && match prev with Some p => str_lt p k | None => true end) ps'
  end.

(** [latest[p.Key] = p.Value] for every entry, then the keys sorted. *)
Definition latest (ps : PropertySlice) : PropertySlice :=
  fold_left (fun acc p => List.filter (fun q => negb (bool_decide (q.1 = p.1))) acc ++ [p]) ps [].

Definition canonicalPropertySlice (ps : PropertySlice) : PropertySlice + propError :=
  match ps with
  | [] => inl []
  | _ =>
      match key_scan None true ps with
      | inr e => inr e
      | inl true => canon_entries (fun _ => canonicalPropertyValue) ps
      | inl false => canon_entries (fun _ => canonicalPropertyValue) (sort_by by_key (latest ps))
      end
  end.
End Values.

(** ** The order of keys *)

#[export] Instance by_key_sw : StrictWeak by_key.
Proof. apply (str_lt_sw (fst (B := value))). Qed.

(** ** The slice as a finite map *)

(** The invariant: keys ascend strictly. *)
Definition keys_sorted : PropertySlice -> Prop := StronglySorted (fun x y => str_lt x.1 y.1 = true).

Definition as_map (ps : PropertySlice) : gmap bytes value := list_to_map ps.

Lemma keys_sorted_nodup ps : keys_sorted ps -> NoDup ps.*1.
Proof.
  induction 1 as [|x ps _ IH Hf]; simpl; constructor; [|done].
  intros (y & Hxy & Hy)%list_elem_of_fmap. rewrite Forall_forall in Hf. specialize (Hf y Hy).
  by rewrite Hxy, str_lt_irrefl in Hf.
Qed.

(** The search splits the slice at the key. *)
Lemma searchKey_split ps key :
  keys_sorted ps ->
  exists l r, ps = l ++ r /\ searchKey ps key = length l /\
    Forall (fun p => str_lt p.1 key = true) l /\ Forall (fun p => str_lt p.1 key = false) r.
Proof.
  intros Hs. unfold searchKey.
  destruct (Search_spec (length ps) (fun i => negb (str_lt (key_at ps i) key))) as (Hn & Hlo & Hhi).
  - intros a b Hab Hb Ha. destruct (decide (a = b)) as [->|]; [done|].
    apply negb_true_iff in Ha. apply negb_true_iff. destruct (str_lt (key_at ps b) key) eqn:E; [|done].
    destruct (lookup_lt_is_Some_2 ps a) as [x Hx]; [lia|]. destruct (lookup_lt_is_Some_2 ps b) as [y Hy]; [lia|].
    unfold key_at in *. rewrite Hx in Ha. rewrite Hy in E.
    pose proof (StronglySorted_nth _ ps x a b Hs ltac:(lia)) as Hxy.
    rewrite (nth_lookup_Some _ _ _ _ Hx), (nth_lookup_Some _ _ _ _ Hy) in Hxy.
    by rewrite (str_lt_trans _ _ _ Hxy E) in Ha.
  - set (i := Search _ _) in *. clearbody i. exists (take i ps), (drop i ps).
    rewrite take_drop, length_take_le by done. split_and!; [done|done| |].
    + apply Forall_lookup. intros k p Hk. apply lookup_take_Some in Hk as [Hk Hki].
      specialize (Hlo k Hki). unfold key_at in Hlo. rewrite Hk in Hlo. by apply negb_false_iff.
    + apply Forall_lookup. intros k p Hk. rewrite lookup_drop in Hk. pose proof (lookup_lt_Some _ _ _ Hk).
      specialize (Hhi (i + k)%nat ltac:(lia)). unfold key_at in Hhi. rewrite Hk in Hhi. by apply negb_true_iff.
Qed.

(** Where the key is, or where it goes. *)
Lemma search_cases ps key :
  keys_sorted ps ->
  exists l r, ps = l ++ r /\ searchKey ps key = length l /\ Forall (fun p => str_lt p.1 key = true) l /\
    ((exists v r', r = (key, v) :: r' /\ found_at ps key = true /\ as_map ps !! key = Some v) \/
     (Forall (fun p => str_lt key p.1 = true) r /\ found_at ps key = false /\ as_map ps !! key = None)).
Proof.
  intros Hs. destruct (searchKey_split ps key Hs) as (l & r & -> & Hi & Hl & Hr). exists l, r. split_and!; [done..|].
  unfold found_at. rewrite Hi. apply StronglySorted_app_inv in Hs as Hs'. destruct Hs' as (_ & Hsr & _).
  assert (key_at (l ++ r) (length l) = match r with p :: _ => p.1 | [] => [] end) as ->.
  { unfold key_at. rewrite lookup_app_r, Nat.sub_diag by lia. by destruct r. }
  assert (Forall (fun p => str_lt key p.1 = true) r -> as_map (l ++ r) !! key = None) as Hnone.
  { intros Hf. apply not_elem_of_list_to_map_1. rewrite fmap_app, elem_of_app. intros [Hin|Hin];
      apply list_elem_of_fmap in Hin as (p & Hp & Hin); rewrite Forall_forall in Hl, Hf.
    - specialize (Hl p Hin). by rewrite Hp, str_lt_irrefl in Hl.
    - specialize (Hf p Hin). by rewrite Hp, str_lt_irrefl in Hf. }
  destruct r as [|[k v] r].
  { right. split_and!; [constructor| |apply Hnone; constructor]. rewrite app_nil_r, Nat.ltb_irrefl. done. }
  replace (length l <? length (l ++ (k, v) :: r))%nat with true by (rewrite length_app; simpl; symmetry; apply Nat.ltb_lt; lia).
  simpl. apply Forall_cons in Hr as [Hk Hr]. simpl in Hk. case_bool_decide as Heq.
  - subst k. left. exists v, r. split_and!; [done..|]. apply elem_of_list_to_map_1; [by apply keys_sorted_nodup|].
    apply elem_of_app. right. left.
  - right. assert (str_lt key k = true) as Hlt by (destruct (str_lt_total _ _ Hk); [done|done]).
    assert (Forall (fun p => str_lt key p.1 = true) ((k, v) :: r)) as Hf.
    { constructor; [done|]. apply StronglySorted_inv in Hsr as [_ Hsr].
      eapply Forall_impl; [exact Hsr|]. simpl. intros p Hp. by eapply str_lt_trans. }
    split_and!; [done|done|by apply Hnone].
Qed.

Lemma keys_sorted_insert l key v r :
  keys_sorted (l ++ r) -> Forall (fun p => str_lt p.1 key = true) l -> Forall (fun p => str_lt key p.1 = true) r ->
  keys_sorted (l ++ (key, v) :: r).
Proof.
  intros Hs Hl Hr. unfold keys_sorted in *. induction Hl as [|x l Hx _ IH]; simpl in *; [by constructor|].
  apply StronglySorted_inv in Hs as [Hs Hf]. constructor; [by apply IH|].
  apply Forall_app in Hf as [Hf1 Hf2]. apply Forall_app. split; [done|]. by constructor.
Qed.

Lemma keys_sorted_tail l p r : keys_sorted (l ++ p :: r) -> keys_sorted (l ++ r) /\ Forall (fun q => str_lt p.1 q.1 = true) r.
Proof.
  unfold keys_sorted. induction l as [|x l IH]; simpl; intros Hs; apply StronglySorted_inv in Hs as [Hs Hf]; [done|].
  destruct (IH Hs) as [H1 H2]. split; [|done]. constructor; [done|].
  apply Forall_app in Hf as [Hf1 Hf2]. apply Forall_cons in Hf2 as [_ Hf2]. apply Forall_app. done.
Qed.

Lemma as_map_middle l key v r : key ∉ l.*1 -> as_map (l ++ (key, v) :: r) = <[key := v]> (as_map (l ++ r)).
Proof.
  intros Hn. unfold as_map. induction l as [|[k w] l IH]; [done|]. simpl in *.
  rewrite not_elem_of_cons in Hn. destruct Hn as [Hne Hn]. rewrite (IH Hn).
  by rewrite insert_insert_ne.
Qed.

Lemma keys_below_notin key (l : PropertySlice) : Forall (fun p => str_lt p.1 key = true) l -> key ∉ l.*1.
Proof.
  intros Hl (p & Hp & Hin)%list_elem_of_fmap. rewrite Forall_forall in Hl. specialize (Hl p Hin).
  by rewrite Hp, str_lt_irrefl in Hl.
Qed.

(** ** The operations are those of a finite map *)

Section Refinement.
Context (registry : list bytes) (DeepCopyValue : structValue -> option value).
Notation check := (check_entry registry DeepCopyValue).
Notation set_ := (PropertySlice_Set registry DeepCopyValue).

Lemma borrow_lookup ps key : keys_sorted ps -> borrow ps key = as_map ps !! key.
Proof.
  intros Hs. unfold borrow. destruct (search_cases ps key Hs) as (l & r & -> & Hi & _ & [(v & r' & -> & -> & ->)|(_ & -> & ->)]);
    [|done]. rewrite Hi. by rewrite list_lookup_middle.
Qed.

Lemma set_spec ps key v c :
  keys_sorted ps -> check key v = inl c ->
  exists ps', set_ ps key v = inl ps' /\ keys_sorted ps' /\ as_map ps' = <[key := c]> (as_map ps).
Proof.
  intros Hs Hc. unfold PropertySlice_Set. rewrite Hc.
  destruct (search_cases ps key Hs) as (l & r & -> & Hi & Hl & Hr). cbv zeta. rewrite Hi.
  assert (key ∉ l.*1) as Hn by (by apply keys_below_notin).
  destruct Hr as [(w & r' & -> & -> & _)|(Hr & -> & _)]; eexists; (split; [reflexivity|]).
  - rewrite insert_app_r_alt, Nat.sub_diag by lia. simpl. apply keys_sorted_tail in Hs as [Hs Hr']. split.
    + by apply keys_sorted_insert.
    + rewrite !as_map_middle by done. by rewrite insert_insert_eq.
  - rewrite take_app_length, drop_app_length. split; [by apply keys_sorted_insert|by apply as_map_middle].
Qed.

Lemma delete_spec ps key :
  keys_sorted ps -> IsShadowKey key = false ->
  exists ps', PropertySlice_Delete ps key = inl (bool_decide (is_Some (as_map ps !! key)), ps') /\
    keys_sorted ps' /\ as_map ps' = delete key (as_map ps).
Proof.
  intros Hs Hk. unfold PropertySlice_Delete. rewrite Hk.
  destruct (search_cases ps key Hs) as (l & r & -> & Hi & Hl & Hr). cbv zeta. rewrite Hi.
  assert (key ∉ l.*1) as Hn by (by apply keys_below_notin).
  destruct Hr as [(w & r' & -> & -> & ->)|(Hr & -> & Hm)]; eexists; (split; [by rewrite ?Hm; repeat case_bool_decide; (reflexivity || (exfalso; eauto using is_Some_None))|]).
  - rewrite take_app_length, drop_app_ge by lia. replace (S (length l) - length l)%nat with 1%nat by lia. simpl.
    rewrite drop_0. apply keys_sorted_tail in Hs as [Hs Hr']. split; [done|].
    rewrite as_map_middle by done. rewrite delete_insert_id; [done|].
    apply not_elem_of_list_to_map_1. rewrite fmap_app, elem_of_app. intros [|Hin]; [done|].
    apply list_elem_of_fmap in Hin as (p & Hp & Hin). rewrite Forall_forall in Hr'. specialize (Hr' p Hin).
    simpl in Hr'. by rewrite Hp, str_lt_irrefl in Hr'.
  - split; [done|]. symmetry. by apply delete_id.
Qed.

(** A sorted slice is determined by its map. *)
Lemma keys_sorted_unique ps ps' : keys_sorted ps -> keys_sorted ps' -> as_map ps = as_map ps' -> ps = ps'.
Proof.
  intros H1 H2 Heq. apply list_to_map_inj in Heq; [|by apply keys_sorted_nodup..].
  revert ps' H2 Heq. induction H1 as [|x ps Hs IH Hf]; intros ps' H2 Heq.
  { by apply Permutation_nil_l in Heq as ->. }
  destruct H2 as [|y ps' Hs' Hf']; [by apply Permutation_nil_r in Heq|].
  assert (x = y) as ->.
  { rewrite Forall_forall in Hf, Hf'.
    assert (x ∈ y :: ps') as Hx by (rewrite <- Heq; left). assert (y ∈ x :: ps) as Hy by (rewrite Heq; left).
    apply elem_of_cons in Hx as [|Hx]; [done|]. apply elem_of_cons in Hy as [|Hy]; [done|].
    pose proof (str_lt_trans _ _ _ (Hf y Hy) (Hf' x Hx)) as C. by rewrite str_lt_irrefl in C. }
  f_equal. apply IH; [done|]. by apply (Permutation_cons_inv (a := y)).
Qed.

(** Repeated [Set]. *)
Fixpoint set_all (ps : PropertySlice) (entries : PropertySlice) : PropertySlice + propError :=
  match entries with
  | [] => inl ps
  | (k, v) :: rest => match set_ ps k v with inl ps' => set_all ps' rest | inr e => inr e end
  end.

Definition insert_all (m : gmap bytes value) (entries : PropertySlice) : gmap bytes value :=
  fold_left (fun m p => <[p.1 := p.2]> m) entries m.

Lemma set_all_canon ps entries :
  keys_sorted ps ->
  match canon_entries check entries with
  | inl out => exists ps', set_all ps entries = inl ps' /\ keys_sorted ps' /\ as_map ps' = insert_all (as_map ps) out
  | inr e => set_all ps entries = inr e
  end.
Proof.
  revert ps. induction entries as [|[k v] rest IH]; intros ps Hs; cbn [canon_entries set_all]; [by exists ps|].
  destruct (check k v) as [c|e] eqn:Hc.
  - destruct (set_spec ps k v c Hs Hc) as (ps' & -> & Hs' & Hm). specialize (IH ps' Hs').
    destruct (canon_entries check rest) as [out|e]; [|done]. destruct IH as (p & -> & Hp & Heq).
    exists p. split_and!; [done..|]. rewrite Heq. unfold insert_all. simpl. by rewrite Hm.
  - unfold PropertySlice_Set. by rewrite Hc.
Qed.

Lemma canon_entries_keys f entries out : canon_entries f entries = inl out -> out.*1 = entries.*1.
Proof.
  revert out. induction entries as [|[k v] rest IH]; intros out; cbn [canon_entries]; [by intros [= <-]|].
  destruct (f k v); [|done]. destruct (canon_entries f rest) as [o|]; [|done]. intros [= <-]. rewrite !fmap_cons. f_equal. by apply IH.
Qed.

Lemma insert_all_nodup m (l : PropertySlice) : NoDup l.*1 -> insert_all m l = list_to_map l ∪ m.
Proof.
  revert m. induction l as [|[k v] l IH]; intros m Hn; [symmetry; apply (left_id_L ∅ (∪))|].
  simpl in Hn. apply NoDup_cons in Hn as [Hk Hn]. change (insert_all (<[k := v]> m) l = <[k := v]> (list_to_map l) ∪ m).
  rewrite (IH _ Hn), <- insert_union_l, insert_union_r; [done|]. by apply not_elem_of_list_to_map_1.
Qed.

Lemma sorted_of_ordered (l : PropertySlice) : ordered_by by_key l -> NoDup l.*1 -> keys_sorted l.
Proof.
  unfold keys_sorted. induction 1 as [|x l Hs IH Hf]; intros Hn; [constructor|]. simpl in Hn.
  apply NoDup_cons in Hn as [Hk Hn]. constructor; [by apply IH|]. apply Forall_forall. intros y Hy.
  rewrite Forall_forall in Hf. destruct (str_lt_total _ _ (Hf y Hy)) as [Heq|]; [|done].
  exfalso. apply Hk. rewrite <- Heq. by apply list_elem_of_fmap_2.
Qed.

Lemma sort_entries_map (l : PropertySlice) :
  NoDup l.*1 -> keys_sorted (sort_by by_key l) /\ as_map (sort_by by_key l) = list_to_map l.
Proof.
  intros Hn. pose proof (sort_by_perm by_key l) as Hp. split.
  - apply sorted_of_ordered; [apply sort_by_ordered, _|]. by rewrite Hp.
  - unfold as_map. apply list_to_map_proper; [by rewrite Hp|done].
Qed.
(** ** Bulk constructors *)

(** Canonicalizing succeeds when every entry does, and is then a map. *)
Definition entry_ok (f : bytes -> value -> value + propError) (p : bytes * value) : Prop :=
  match f p.1 p.2 with inl _ => True | inr _ => False end.

Definition canon_entry (f : bytes -> value -> value + propError) (p : bytes * value) : bytes * value :=
  (p.1, match f p.1 p.2 with inl c => c | inr _ => p.2 end).

Lemma canon_entries_map f l : Forall (entry_ok f) l -> canon_entries f l = inl (canon_entry f <$> l).
Proof.
  induction 1 as [|[k v] l Hp _ IH]; [done|]. cbn [canon_entries]. unfold entry_ok in Hp. simpl in Hp.
  destruct (f k v) as [c|] eqn:E; [|done]. rewrite IH, fmap_cons. f_equal. f_equal. unfold canon_entry. simpl. by rewrite E.
Qed.

Lemma canon_entries_ok f l out : canon_entries f l = inl out -> Forall (entry_ok f) l.
Proof.
  revert out. induction l as [|[k v] l IH]; intros out; cbn [canon_entries]; [constructor|].
  destruct (f k v) as [c|] eqn:E; [|done]. destruct (canon_entries f l) as [o|]; [|done]. intros _.
  constructor; [unfold entry_ok; simpl; by rewrite E|by eapply IH].
Qed.

Lemma latest_snoc l p : latest (l ++ [p]) = List.filter (fun q => negb (bool_decide (q.1 = p.1))) (latest l) ++ [p].
Proof. unfold latest. by rewrite fold_left_app. Qed.

Lemma filter_key_nodup k (l : PropertySlice) :
  NoDup l.*1 -> let l' := List.filter (fun q => negb (bool_decide (q.1 = k))) l in
  NoDup l'.*1 /\ k ∉ l'.*1 /\ list_to_map l' =@{gmap bytes value} delete k (list_to_map l).
Proof.
  induction l as [|[x v] l IH]; intros Hn; [cbn; split_and!; [constructor|apply not_elem_of_nil|by rewrite delete_empty]|].
  simpl in Hn. apply NoDup_cons in Hn as [Hx Hn]. destruct (IH Hn) as (H1 & H2 & H3). cbv zeta in *. cbn [List.filter fst].
  destruct (bool_decide (x = k)) eqn:E; simpl.
  - apply bool_decide_eq_true in E as ->. split_and!; [done..|]. rewrite H3. by rewrite delete_insert_eq.
  - apply bool_decide_eq_false in E. split_and!.
    + constructor; [|done]. intros (p & Hp & Hin)%list_elem_of_fmap. apply elem_of_Lfilter in Hin as [Hin _].
      apply Hx. rewrite Hp. by apply list_elem_of_fmap_2.
    + rewrite not_elem_of_cons. done.
    + rewrite H3. by rewrite delete_insert_ne.
Qed.

(** The latest entry of every key, whatever is done to the values. *)
Lemma latest_map (h : bytes * value -> bytes * value) l :
  (forall p, (h p).1 = p.1) ->
  NoDup (h <$> latest l).*1 /\ list_to_map (h <$> latest l) =@{gmap bytes value} insert_all ∅ (h <$> l) /\
  forall p, p ∈ latest l -> p ∈ l.
Proof.
  intros Hh. induction l as [|p l IH] using rev_ind; [split_and!; [constructor|done|done]|].
  destruct IH as (H1 & H2 & H3). rewrite latest_snoc.
  assert (h <$> List.filter (fun q => negb (bool_decide (q.1 = p.1))) (latest l) =
          List.filter (fun q => negb (bool_decide (q.1 = p.1))) (h <$> latest l)) as Hcomm.
  { clear -Hh. induction (latest l) as [|x k IH]; [done|]. cbn. rewrite Hh. destruct (negb _); cbn; by rewrite IH. }
  destruct (filter_key_nodup p.1 _ H1) as (F1 & F2 & F3). cbv zeta in *.
  rewrite fmap_app, Hcomm. split_and!.
  - rewrite fmap_app. apply NoDup_app. split_and!; [done| |apply NoDup_singleton].
    intros x Hx Hp. apply list_elem_of_singleton in Hp as ->. by rewrite Hh in Hx.
  - rewrite fmap_app. unfold insert_all in *. rewrite fold_left_app, <- H2. cbn.
    pose proof (Hh p) as Hp. destruct (h p) as [hk hv]. simpl in Hp. subst hk.
    rewrite list_to_map_snoc by done. by rewrite F3, insert_delete_eq.
  - intros q Hq. apply elem_of_app in Hq as [Hq|Hq]; apply elem_of_app; [left|by right].
    apply elem_of_Lfilter in Hq as [Hq _]. by apply H3.
Qed.

(** Whether the keys ascend strictly, from [prev] on. *)
Fixpoint ascends (prev : option bytes) (l : PropertySlice) : bool :=
  match l with
  | [] => true
  | (k, _) :: l' => match prev with Some p => str_lt p k | None => true end && ascends (Some k) l'
  end.

Lemma key_scan_ok prev su l : Forall (entry_ok check) l -> key_scan prev su l = inl (su && ascends prev l).
Proof.
  intros Hok. revert prev su. induction Hok as [|[k v] l Hp _ IH]; intros prev su; cbn [key_scan ascends].
  { by rewrite andb_true_r. }
  unfold entry_ok, check_entry in Hp. simpl in Hp. destruct (bool_decide (k = [])); [done|].
  destruct (IsShadowKey k); [done|]. by rewrite IH, andb_assoc.
Qed.

Lemma ascends_sorted prev l :
  ascends prev l = true ->
  keys_sorted l /\ match prev with Some k => Forall (fun p => str_lt k p.1 = true) l | None => True end.
Proof.
  revert prev. induction l as [|[k v] l IH]; intros prev; cbn [ascends].
  { intros _. split; [constructor|]. by destruct prev. }
  intros [Hp Hl]%andb_prop. destruct (IH _ Hl) as [Hs Hf]. split; [by constructor|].
  destruct prev as [p|]; [|done]. constructor; [done|].
  eapply Forall_impl; [exact Hf|]. simpl. intros q. by apply str_lt_trans.
Qed.

Notation canon := (fun _ : bytes => canonicalPropertyValue registry DeepCopyValue).

Lemma check_canon p : entry_ok check p -> entry_ok canon p /\ canon_entry canon p = canon_entry check p.
Proof.
  unfold entry_ok, canon_entry, check_entry. destruct (bool_decide _); [done|]. by destruct (IsShadowKey _).
Qed.

Lemma check_canon_all l :
  Forall (entry_ok check) l -> Forall (entry_ok canon) l /\ canon_entry canon <$> l = canon_entry check <$> l.
Proof.
  induction 1 as [|p l Hp _ [IH1 IH2]]; [done|]. destruct (check_canon p Hp) as [H1 H2].
  split; [by constructor|]. cbn. f_equal; done.
Qed.

Lemma canonical_is_set_all ps out : set_all [] ps = inl out -> canonicalPropertySlice registry DeepCopyValue ps = inl out.
Proof.
  intros Hset. assert (keys_sorted []) as Hnil by constructor. pose proof (set_all_canon [] ps Hnil) as Hc.
  destruct (canon_entries check ps) as [o|] eqn:Ec; [|congruence].
  apply canon_entries_ok in Ec as Hok. rewrite (canon_entries_map _ _ Hok) in Ec. injection Ec as <-.
  destruct Hc as (ps' & Hps & Hs & Hm). rewrite Hset in Hps. injection Hps as <-.
  destruct (check_canon_all ps Hok) as [Hok' Heq]. unfold canonicalPropertySlice.
  destruct ps as [|p0 ps0]; [simpl in Hset; congruence|]. set (ps := p0 :: ps0) in *.
  rewrite (key_scan_ok None true ps Hok). change (true && ascends None ps) with (ascends None ps). destruct (ascends None ps) eqn:Ea.
  - apply ascends_sorted in Ea as [Hsorted _]. rewrite (canon_entries_map _ _ Hok'), Heq. f_equal.
    assert ((canon_entry check <$> ps).*1 = ps.*1) as Hk by (rewrite <- list_fmap_compose; done).
    apply keys_sorted_unique; [|done|].
    + clear -Hsorted. unfold keys_sorted in *. induction Hsorted as [|x l _ IH Hf]; cbn; constructor; [done|].
      rewrite Forall_fmap. done.
    + rewrite Hm, insert_all_nodup by (rewrite Hk; by apply keys_sorted_nodup). symmetry. apply (right_id_L ∅ (∪)).
  - destruct (latest_map (canon_entry check) ps) as (L1 & L2 & L3); [done|].
    assert (Forall (entry_ok check) (sort_by by_key (latest ps))) as Hl.
    { rewrite (sort_by_perm by_key (latest ps)). apply Forall_forall. intros p Hp.
      rewrite Forall_forall in Hok. by apply Hok, L3. }
    destruct (check_canon_all _ Hl) as [Hl' Hleq]. rewrite (canon_entries_map _ _ Hl'), Hleq. f_equal.
    change (canon_entry check <$> sort_by by_key (latest ps)) with
      (map (canon_entry check) (sort_by (fun x y => by_key (canon_entry check x) (canon_entry check y)) (latest ps))).
    rewrite sort_by_map. destruct (sort_entries_map (canon_entry check <$> latest ps) L1) as [S1 S2].
    apply keys_sorted_unique; [done..|]. etrans; [exact S2|]. rewrite Hm. exact L2.
Qed.

Lemma new_is_set_all m : NoDup m.*1 -> NewPropertySlice registry DeepCopyValue m = set_all [] m.
Proof.
  intros Hn. unfold NewPropertySlice. assert (keys_sorted []) as Hnil by constructor. pose proof (set_all_canon [] m Hnil) as Hc.
  destruct (canon_entries check m) as [o|e] eqn:Ec; [|done]. destruct Hc as (ps & -> & Hs & Hm). f_equal.
  apply canon_entries_keys in Ec. rewrite <- Ec in Hn. destruct (sort_entries_map o Hn) as [S1 S2].
  apply keys_sorted_unique; [done..|]. rewrite S2, Hm, insert_all_nodup by done. symmetry. apply (right_id_L ∅ (∪)).
Qed.
End Refinement.

(** C12: a property slice is a finite map kept sorted by key: after [Set] the
    slice is still sorted and holds the canonical value under its key and
    everything else as before, [Set] refuses exactly the keys and values the
    entry check refuses, [Delete] removes the key and reports whether it was
    there, and a read finds exactly what the map holds. *)
Theorem property_slice_refines_map registry DeepCopyValue (ps : PropertySlice) key v :
  keys_sorted ps ->
  match PropertySlice_Set registry DeepCopyValue ps key v with
  | inl ps' => exists c, check_entry registry DeepCopyValue key v = inl c /\ keys_sorted ps' /\ as_map ps' = <[key := c]> (as_map ps)
  | inr e => check_entry registry DeepCopyValue key v = inr e
  end /\
  match PropertySlice_Delete ps key with
  | inl (found, ps') => keys_sorted ps' /\ as_map ps' = delete key (as_map ps) /\ found = bool_decide (is_Some (as_map ps !! key))
  | inr e => IsShadowKey key = true /\ e = ErrReservedPrefix key
  end /\
  borrow ps key = as_map ps !! key.
Proof.
  intros Hs. split_and!; [| |by apply borrow_lookup].
  - destruct (check_entry registry DeepCopyValue key v) as [c|e] eqn:Hc.
    + destruct (set_spec registry DeepCopyValue ps key v c Hs Hc) as (ps' & -> & ? & ?). by exists c.
    + unfold PropertySlice_Set. by rewrite Hc.
  - destruct (IsShadowKey key) eqn:Hk; [unfold PropertySlice_Delete; by rewrite Hk|].
    by destruct (delete_spec ps key Hs Hk) as (ps' & -> & ? & ?).
Qed.

(** A struct's [DeepCopyValue] that returns an equal value. *)
Definition struct_copy (s : structValue) : option value := Some (VStruct s).

Definition demo_props : PropertySlice := [(bytes_of_string "age", VNum TInt 7); (bytes_of_string "name", VString [65])].

Lemma property_slice_refines_map_witness :
  let k := bytes_of_string "city" in
  match PropertySlice_Set [] struct_copy demo_props k (VTime [50; 48]) with
  | inl ps' => exists c, check_entry [] struct_copy k (VTime [50; 48]) = inl c /\ keys_sorted ps' /\ as_map ps' = <[k := c]> (as_map demo_props)
  | inr e => False
  end.
Proof.
  intros k. refine (proj1 (property_slice_refines_map [] struct_copy demo_props k (VTime [50; 48]) _)).
  unfold demo_props, keys_sorted. repeat constructor.
Defined.

(** The bulk constructors are repeated [Set]: [NewPropertySlice] of a map
    gives the slice (or the first refusal) that setting its entries one by one
    gives, in any iteration order, and wherever setting the entries of a slice
    in order succeeds, [canonicalPropertySlice] (which keeps the latest entry of a
    key) gives the same slice, by either of its paths. *)
Theorem property_bulk_is_repeated_set registry DeepCopyValue (entries : PropertySlice) :
  (NoDup entries.*1 -> NewPropertySlice registry DeepCopyValue entries = set_all registry DeepCopyValue [] entries) /\
  forall out, set_all registry DeepCopyValue [] entries = inl out ->
    canonicalPropertySlice registry DeepCopyValue entries = inl out.
Proof. split; [apply new_is_set_all|apply canonical_is_set_all]. Qed.

Lemma property_bulk_is_repeated_set_witness :
  let entries := [(bytes_of_string "b", VBool true); (bytes_of_string "a", VTime [50; 48])] in
  NewPropertySlice [] struct_copy entries = set_all [] struct_copy [] entries /\
  canonicalPropertySlice [] struct_copy entries = NewPropertySlice [] struct_copy entries.
Proof.
  intros entries. destruct (property_bulk_is_repeated_set [] struct_copy entries) as [H1 H2].
  split; [|by apply H2]. apply H1. vm_compute. repeat constructor; set_solver.
Defined.

(** ** Copies *)

(** Induction over a value and everything nested in it. *)
Lemma value_nested_ind (P : value -> Prop) :
  (forall l, Forall P l -> P (VAnys (Some l))) ->
  (forall m, Forall (fun kv => P kv.2) m -> P (VMap (Some m))) ->
  (forall v, match v with VAnys (Some _) | VMap (Some _) => True | _ => P v end) ->
  forall v, P v.
Proof.
  intros Hl Hm Hleaf. fix IH 1. intros v. pose proof (Hleaf v) as Hv.
  destruct v as [| | | | | | | |[l|]|[m|]| | | |]; try exact Hv; clear Hv.
  - apply Hl. induction l as [|x l IHl]; constructor; [apply IH|exact IHl].
  - apply Hm. induction m as [|[k x] m IHm]; constructor; [apply IH|exact IHm].
Qed.

Lemma copy_all_id {A} (f : A -> option A) l : Forall (fun x => f x = Some x) l -> copy_all f l = Some l.
Proof. induction 1 as [|x l Hx _ IH]; [done|]. cbn. by rewrite Hx, IH. Qed.

Section Copies.
Context (registry : list bytes) (DeepCopyValue : structValue -> option value).
(** The DeepCopier contract: an equal, independent clone of the same kind. *)
Hypothesis faithful : forall s, DeepCopyValue s = Some (VStruct s).

Lemma preserve_same s : preserveDeepCopyPointerShape s (VStruct s) = VStruct s.
Proof. unfold preserveDeepCopyPointerShape. by destruct (sv_pointer s). Qed.

Lemma deepCopyValue_id v : forall depth, deepCopyValue registry DeepCopyValue v depth = Some v.
Proof.
  revert v. apply (value_nested_ind (fun v => forall depth, deepCopyValue registry DeepCopyValue v depth = Some v));
    [intros l IH depth|intros m IH depth|intros v].
  - cbn [deepCopyValue]. destruct (depth >? _); [done|]. rewrite copy_all_id; [done|].
    eapply Forall_impl; [exact IH|]. simpl. auto.
  - cbn [deepCopyValue]. destruct (depth >? _); [done|]. rewrite copy_all_id; [done|].
    eapply Forall_impl; [exact IH|]. intros [k x] Hx. simpl in *. by rewrite Hx.
  - destruct v as [| | | | | | | |[|]|[|]| | | |]; try done; intros depth; cbn [deepCopyValue];
      (destruct (depth >? _); [done|]); try done.
    destruct (isRegisteredPropertyStructType registry s); [|done]. by rewrite faithful, preserve_same.
Qed.

Lemma check_entry_value key v c :
  check_entry registry DeepCopyValue key v = inl c -> c = canonicalizeTemporalValue v.
Proof.
  unfold check_entry, canonicalPropertyValue, copyValidatedPropertyValue. rewrite deepCopyValue_id. intros H.
  repeat (match type of H with context [if ?b then _ else _] => destruct b | context [match ?x with _ => _ end] => destruct x eqn:? end;
          simplify_eq); congruence.
Qed.
End Copies.

(** Reading back a property gives the value that was set (a top-level
    [time.Time] as the zoned temporal value it is stored as), and no other key
    changes, where registered structs honour the DeepCopier contract. *)
Theorem property_set_get registry DeepCopyValue (ps ps' : PropertySlice) key v :
  (forall s, DeepCopyValue s = Some (VStruct s)) ->
  keys_sorted ps -> PropertySlice_Set registry DeepCopyValue ps key v = inl ps' ->
  PropertySlice_Get registry DeepCopyValue ps' key = Some (Some (canonicalizeTemporalValue v)) /\
  forall other, other <> key ->
    PropertySlice_Get registry DeepCopyValue ps' other = PropertySlice_Get registry DeepCopyValue ps other.
Proof.
  intros Hf Hs Hset. destruct (check_entry registry DeepCopyValue key v) as [c|e] eqn:Hc;
    [|unfold PropertySlice_Set in Hset; by rewrite Hc in Hset].
  destruct (set_spec registry DeepCopyValue ps key v c Hs Hc) as (p & Hp & Hs' & Hm). rewrite Hp in Hset. injection Hset as ->.
  unfold PropertySlice_Get. split.
  - rewrite borrow_lookup, Hm, lookup_insert_eq, (deepCopyValue_id _ _ Hf) by done.
    by rewrite (check_entry_value _ _ Hf key v c Hc).
  - intros other Hne. by rewrite !borrow_lookup, Hm, lookup_insert_ne by done.
Qed.

Lemma property_set_get_witness :
  let k := bytes_of_string "city" in
  let v := VMap (Some [([1], VAnys (Some [VStruct (mkStruct [9] true false true true 3)]))]) in
  match PropertySlice_Set [[9]] struct_copy demo_props k v with
  | inl ps' => PropertySlice_Get [[9]] struct_copy ps' k = Some (Some v)
  | inr _ => False
  end.
Proof.
  intros k v. destruct (PropertySlice_Set [[9]] struct_copy demo_props k v) as [ps'|] eqn:E; [|discriminate E].
  refine (proj1 (property_set_get [[9]] struct_copy demo_props ps' k v _ _ E)); [done|].
  unfold demo_props, keys_sorted. repeat constructor.
Defined.
