(* ===== verification/Rows.v ===== *)
(** * Stored rows: nodes and relationships (pkg/types/node.go, relationship.go, compact.go)

    A row is one stored version of an entity.  A frozen first version keeps its
    metadata in the compact form ([nodeMeta], [relMeta]); every accessor
    rebuilds the public structs from it.  The property storage is a parameter
    [P] of the row types: no operation modelled here reads a property.

    [EntityRow] is the interface the chain resolver sees (the source's
    [TemporalRow] and [chainRow] constraints together with the start rule
    [ValidAxis.NodeStart] / [RelStart]); [EntityRowOK] is what a row promises. *)

From S2P Require Import Prelude ValidTime Hash32.

(** ** Pointers

    Rows are compared by pointer.  A stored row has an address of its own;
    [DeepCopy] allocates a fresh one, at most one per row in one read. *)
Inductive addr := Alloc (n : Z) | CopyOf (a : addr).

#[export] Instance addr_eq_dec : EqDecision addr.
Proof. solve_decision. Defined.

(** ** The interface *)

Class EntityRow (T : Type) := {
  row_eq_dec :: EqDecision T;
  RowID : T -> Z;
  Version : T -> Z;
  Temporal : T -> option TemporalMetadata;
  TemporalByValue : T -> option TemporalMetadata;
  RowStart : ValidAxis -> T -> Instant;
  RowMint : T -> Instant;
  (** [DeepCopy], then an in-place edit of the copy's temporal metadata. *)
  copyWithTemporal : (TemporalMetadata -> TemporalMetadata) -> T -> T;
  row_wf : T -> Prop;
}.

Class EntityRowOK (T : Type) `{!EntityRow T} : Prop := {
  row_start_rule : forall a r, row_wf r -> RowStart a r = ValidAxis_Start a (Temporal r) (RowMint r);
  by_value : forall r, row_wf r -> TemporalByValue r = Temporal r;
  copy_temporal : forall f r, row_wf r -> Temporal (copyWithTemporal f r) = f <$> Temporal r;
  copy_version : forall f r, Version (copyWithTemporal f r) = Version r;
  copy_mint : forall f r, RowMint (copyWithTemporal f r) = RowMint r;
  copy_wf : forall f r, row_wf r -> row_wf (copyWithTemporal f r);
}.

(** ** Integrity metadata (types/integrity.go) *)

Record NodeIntegrity := mkNI {
  ni_Hash : bytes;
  ni_PrevHash : bytes;
  ni_AuthorID : bytes;
  ni_Signature : option bytes;
  ni_AuthorizedBy : bytes;
  ni_AuthorizationLevel : Z;
}.

Record RelIntegrity := mkRI {
  ri_Hash : bytes;
  ri_PrevHash : bytes;
  ri_FromNodeHash : bytes;
  ri_ToNodeHash : bytes;
  ri_AuthorID : bytes;
  ri_Signature : option bytes;
  ri_AuthorizedBy : bytes;
  ri_AuthorizationLevel : Z;
}.

#[export] Instance NodeIntegrity_eq_dec : EqDecision NodeIntegrity.
Proof. solve_decision. Defined.

#[export] Instance RelIntegrity_eq_dec : EqDecision RelIntegrity.
Proof. solve_decision. Defined.

(** ** Compact metadata (types/compact.go) *)

Record nodeMeta := mkNodeMeta {
  nm_validFrom : Instant;
  nm_validTo : Instant;
  nm_txFrom : Instant;
  nm_hash : bytes;
}.

Record relMeta := mkRelMeta {
  rm_validFrom : Instant;
  rm_validTo : Instant;
  rm_txFrom : Instant;
  rm_hash : bytes;
  rm_fromNodeHash : bytes;
  rm_toNodeHash : bytes;
  rm_noHash : bool;
}.

#[export] Instance nodeMeta_eq_dec : EqDecision nodeMeta.
Proof. solve_decision. Defined.

#[export] Instance relMeta_eq_dec : EqDecision relMeta.
Proof. solve_decision. Defined.

Definition temporalFitsCompact (tm : TemporalMetadata) : bool :=
  (TxTo tm =? 0) && (CreatedAt tm =? 0) && (UpdatedAt tm =? 0) && (DeletedAt tm =? 0) &&
  bool_decide (CreatedBy tm = ""%string) && bool_decide (UpdatedBy tm = ""%string) &&
  (baseEntityID tm =? 0) && negb (Retracted tm) && negb (Void tm) && negb (DeleteKeptValidTo tm).

Definition compactTemporal (validFrom validTo txFrom : Instant) : TemporalMetadata :=
  set_TxFrom txFrom (set_ValidTo validTo (set_ValidFrom validFrom zeroTM)).

Definition compactNodeMeta (tm : option TemporalMetadata) (ig : option NodeIntegrity) : option nodeMeta :=
  match tm, ig with
  | Some tm, Some ig =>
      if negb (temporalFitsCompact tm) || negb (bool_decide (ni_PrevHash ig = [])) ||
         negb (bool_decide (ni_AuthorID ig = [])) || negb (bool_decide (ni_Signature ig = None)) ||
         negb (bool_decide (ni_AuthorizedBy ig = [])) || negb (ni_AuthorizationLevel ig =? 0)
      then None
      else Some (mkNodeMeta (ValidFrom tm) (ValidTo tm) (TxFrom tm) (ni_Hash ig))
  | _, _ => None
  end.

Definition compactRelMeta (tm : option TemporalMetadata) (ig : option RelIntegrity) : option relMeta :=
  match tm, ig with
  | Some tm, Some ig =>
      if negb (temporalFitsCompact tm) || negb (bool_decide (ri_PrevHash ig = [])) ||
         negb (bool_decide (ri_AuthorID ig = [])) || negb (bool_decide (ri_Signature ig = None)) ||
         negb (bool_decide (ri_AuthorizedBy ig = [])) || negb (ri_AuthorizationLevel ig =? 0)
      then None
      else if bool_decide (ri_Hash ig = [])
      then Some (mkRelMeta (ValidFrom tm) (ValidTo tm) (TxFrom tm) (replicate 32 0)
                   (ri_FromNodeHash ig) (ri_ToNodeHash ig) true)
      else match hash32_Decode (ri_Hash ig) with
           | Some h => Some (mkRelMeta (ValidFrom tm) (ValidTo tm) (TxFrom tm) h
                               (ri_FromNodeHash ig) (ri_ToNodeHash ig) false)
           | None => None
           end
  | _, _ => None
  end.

Definition relMeta_integrity (m : relMeta) : RelIntegrity :=
  mkRI (if rm_noHash m then [] else hash32_String (rm_hash m)) [] (rm_fromNodeHash m) (rm_toNodeHash m)
    [] None [] 0.

Definition nodeMeta_integrity (m : nodeMeta) : NodeIntegrity := mkNI (nm_hash m) [] [] None [] 0.

(** ** Nodes *)

Record Node {P : Type} := mkNode {
  n_addr : addr;
  n_id : Z;
  n_properties : P;
  n_extraLabels : list Z;
  n_temporal : option TemporalMetadata;
  n_integrity : option NodeIntegrity;
  n_meta : option nodeMeta;
  n_version : Z;
  n_primaryLabel : Z;
  n_frozen : bool;
  n_sharedProps : bool;
  n_ordinal : Z;
}.
Arguments Node : clear implicits.

#[export] Instance Node_eq_dec {P} `{EqDecision P} : EqDecision (Node P).
Proof. solve_decision. Defined.

Section NodeOps.
Context {P : Type} (empty : P).
Implicit Types n : Node P.

(** The de-duplication loop shared by [NewNode] and [SetLabelTokensRaw]. *)
Fixpoint dedup_labels (primary : Z) (seen : list Z) (extras : list Z) : list Z :=
  match extras with
  | [] => []
  | t :: rest =>
      if t =? primary then dedup_labels primary seen rest
      else if bool_decide (t ∈ seen) then dedup_labels primary seen rest
      else t :: dedup_labels primary (t :: seen) rest
  end.

Definition NewNode (a : addr) (id primaryLabel : Z) (extraLabels : list Z) : Node P :=
  mkNode P a id empty (dedup_labels primaryLabel [] extraLabels) None None None 0 primaryLabel false false 0.

Definition AllLabelTokens n : list Z := n_primaryLabel n :: n_extraLabels n.

Definition HasLabelTokenRaw (tok : Z) n : bool :=
  if tok =? 0 then false
  else if n_primaryLabel n =? tok then true
  else existsb (fun t => t =? tok) (n_extraLabels n).

Definition LabelTokenCount n : nat := (1 + length (n_extraLabels n))%nat.

Definition LabelTokenRawAt (i : Z) n : Z :=
  if i <? 0 then 0
  else if i =? 0 then n_primaryLabel n
  else nth (Z.to_nat (i - 1)) (n_extraLabels n) 0.

Definition NodeFreeze n : Node P :=
  mkNode P (n_addr n) (n_id n) (n_properties n) (n_extraLabels n) (n_temporal n) (n_integrity n)
    (n_meta n) (n_version n) (n_primaryLabel n) true (n_sharedProps n) (n_ordinal n).

Definition with_labels (primary : Z) (extras : list Z) n : Node P :=
  mkNode P (n_addr n) (n_id n) (n_properties n) extras (n_temporal n) (n_integrity n)
    (n_meta n) (n_version n) primary (n_frozen n) (n_sharedProps n) (n_ordinal n).

(** The void and bool mutators panic on a frozen row: [None] is the panic. *)
Definition NodeSetVersion (v : Z) n : option (Node P) :=
  if n_frozen n then None
  else Some (mkNode P (n_addr n) (n_id n) (n_properties n) (n_extraLabels n) (n_temporal n)
               (n_integrity n) (n_meta n) v (n_primaryLabel n) (n_frozen n) (n_sharedProps n) (n_ordinal n)).

Definition NodeSetTemporal (tm : option TemporalMetadata) n : option (Node P) :=
  if n_frozen n then None
  else Some (mkNode P (n_addr n) (n_id n) (n_properties n) (n_extraLabels n) tm
               (n_integrity n) (n_meta n) (n_version n) (n_primaryLabel n) (n_frozen n) (n_sharedProps n) (n_ordinal n)).

Definition NodeSetIntegrity (ig : option NodeIntegrity) n : option (Node P) :=
  if n_frozen n then None
  else Some (mkNode P (n_addr n) (n_id n) (n_properties n) (n_extraLabels n) (n_temporal n)
               ig (n_meta n) (n_version n) (n_primaryLabel n) (n_frozen n) (n_sharedProps n) (n_ordinal n)).

Definition AddLabelTokenRaw (tok : Z) n : option (bool * Node P) :=
  if tok =? 0 then Some (false, n)
  else if n_frozen n then None
  else if n_primaryLabel n =? tok then Some (false, n)
  else if existsb (fun t => t =? tok) (n_extraLabels n) then Some (false, n)
  else Some (true, with_labels (n_primaryLabel n) (n_extraLabels n ++ [tok]) n).

(** [append(s[:i], s[i+1:]...)] at the first element that satisfies [f]:
    the element and the rest, None when there is none. *)
Fixpoint remove_first (f : Z -> bool) (l : list Z) : option (Z * list Z) :=
  match l with
  | [] => None
  | t :: rest =>
      if f t then Some (t, rest)
      else match remove_first f rest with Some (x, r) => Some (x, t :: r) | None => None end
  end.

Definition RemoveLabelTokenRaw (tok : Z) n : option (bool * Node P) :=
  if tok =? 0 then Some (false, n)
  else if n_frozen n then None
  else if negb (n_primaryLabel n =? tok) then
    match remove_first (fun t => t =? tok) (n_extraLabels n) with
    | Some (_, rest) => Some (true, with_labels (n_primaryLabel n) rest n)
    | None => Some (false, n)
    end
  else
    match remove_first (fun t => negb (t =? 0)) (n_extraLabels n) with
    | Some (p, rest) => Some (true, with_labels p rest n)
    | None => Some (false, n)
    end.

Definition SetLabelTokensRaw (primary : Z) (extras : list Z) n : option (Node P) :=
  if n_frozen n then None else Some (with_labels primary (dedup_labels primary [] extras) n).

(** Accessors of the temporal metadata. *)
Definition NodeTemporal n : option TemporalMetadata :=
  if n_frozen n && bool_decide (is_Some (n_temporal n)) then n_temporal n
  else match n_meta n with
       | Some m => Some (compactTemporal (nm_validFrom m) (nm_validTo m) (nm_txFrom m))
       | None => n_temporal n
       end.

Definition NodeTemporalByValue n : option TemporalMetadata :=
  match n_meta n with
  | Some m => Some (compactTemporal (nm_validFrom m) (nm_validTo m) (nm_txFrom m))
  | None => n_temporal n
  end.

Definition NodeValidRange n : option (Instant * Instant) :=
  match n_meta n with
  | Some m => Some (nm_validFrom m, nm_validTo m)
  | None => match n_temporal n with Some tm => Some (ValidFrom tm, ValidTo tm) | None => None end
  end.

Definition NodeTxStamps n : Instant * Instant * Instant :=
  match n_meta n with
  | Some m => (nm_txFrom m, 0, 0)
  | None => match n_temporal n with
            | Some tm => (TxFrom tm, TxTo tm, DeletedAt tm)
            | None => (0, 0, 0)
            end
  end.

Definition NodeIntegrityOf n : option NodeIntegrity :=
  match n_meta n with
  | Some m => Some (nodeMeta_integrity m)
  | None => n_integrity n
  end.

Definition NodeDeepCopy n : Node P :=
  match n_meta n with
  | Some m =>
      mkNode P (CopyOf (n_addr n)) (n_id n) (n_properties n) (n_extraLabels n)
        (Some (compactTemporal (nm_validFrom m) (nm_validTo m) (nm_txFrom m)))
        (Some (nodeMeta_integrity m)) None (n_version n) (n_primaryLabel n) false false (n_ordinal n)
  | None =>
      mkNode P (CopyOf (n_addr n)) (n_id n) (n_properties n) (n_extraLabels n) (n_temporal n)
        (n_integrity n) None (n_version n) (n_primaryLabel n) false false (n_ordinal n)
  end.

(** The frozen copy, and the source with its [sharedProps] mark. *)
Definition NodeCompactFrozenCopy (a : addr) n : Node P * Node P :=
  let '(tm, ig, meta) :=
    match n_meta n with
    | Some m => (None, None, Some m)
    | None => match compactNodeMeta (n_temporal n) (n_integrity n) with
              | Some m => (None, None, Some m)
              | None => (n_temporal n, n_integrity n, None)
              end
    end in
  (mkNode P a (n_id n) (n_properties n) (n_extraLabels n) tm ig meta (n_version n)
     (n_primaryLabel n) true false (n_ordinal n),
   if n_frozen n then n
   else mkNode P (n_addr n) (n_id n) (n_properties n) (n_extraLabels n) (n_temporal n) (n_integrity n)
          (n_meta n) (n_version n) (n_primaryLabel n) (n_frozen n) true (n_ordinal n)).

(** The invariant of compact.go: [meta != nil] implies frozen, no temporal and
    no integrity object. *)
Definition node_wf n : Prop :=
  is_Some (n_meta n) -> n_frozen n = true /\ n_temporal n = None /\ n_integrity n = None.

Context `{Layout}.

Definition ValidAxis_NodeStart (a : ValidAxis) n : Instant :=
  let rest :=
    let '(tx, _, _) := NodeTxStamps n in
    if negb (tx =? 0) then tx
    else UntimedValidFrom (match n_meta n with Some _ => None | None => n_temporal n end)
           (MintInstantMillis (n_id n)) in
  match NodeValidRange n with
  | Some (vf, _) => if negb (vf =? unclaimed a) then vf else rest
  | None => rest
  end.

Definition NodeEffectiveValidFrom n : Instant := ValidAxis_NodeStart LegacyValidAxis n.
End NodeOps.

(** ** Relationships *)

Record Relationship {P : Type} := mkRel {
  r_addr : addr;
  r_id : Z;
  r_startID : Z;
  r_endID : Z;
  r_properties : P;
  r_temporal : option TemporalMetadata;
  r_integrity : option RelIntegrity;
  r_meta : option relMeta;
  r_version : Z;
  r_relType : Z;
  r_frozen : bool;
  r_sharedProps : bool;
  r_ordinal : Z;
  r_startOrdinal : Z;
  r_endOrdinal : Z;
}.
Arguments Relationship : clear implicits.

#[export] Instance Relationship_eq_dec {P} `{EqDecision P} : EqDecision (Relationship P).
Proof. solve_decision. Defined.

Section RelOps.
Context {P : Type} (empty : P).
Implicit Types r : Relationship P.

Definition NewRelationship (a : addr) (id relType startID endID : Z) : Relationship P :=
  mkRel P a id startID endID empty None None None 0 relType false false 0 0 0.

Definition HasTypeTokenRaw (tok : Z) r : bool := negb (tok =? 0) && (r_relType r =? tok).

Definition with_rel (tm : option TemporalMetadata) (ig : option RelIntegrity) (v relType : Z)
    (frozen shared : bool) r : Relationship P :=
  mkRel P (r_addr r) (r_id r) (r_startID r) (r_endID r) (r_properties r) tm ig (r_meta r) v relType
    frozen shared (r_ordinal r) (r_startOrdinal r) (r_endOrdinal r).

Definition SetTypeTokenRaw (tok : Z) r : option (Relationship P) :=
  if r_frozen r then None
  else Some (with_rel (r_temporal r) (r_integrity r) (r_version r) tok (r_frozen r) (r_sharedProps r) r).

Definition RelFreeze r : Relationship P :=
  with_rel (r_temporal r) (r_integrity r) (r_version r) (r_relType r) true (r_sharedProps r) r.

Definition RelSetVersion (v : Z) r : option (Relationship P) :=
  if r_frozen r then None
  else Some (with_rel (r_temporal r) (r_integrity r) v (r_relType r) (r_frozen r) (r_sharedProps r) r).

Definition RelSetTemporal (tm : option TemporalMetadata) r : option (Relationship P) :=
  if r_frozen r then None
  else Some (with_rel tm (r_integrity r) (r_version r) (r_relType r) (r_frozen r) (r_sharedProps r) r).

Definition RelSetIntegrity (ig : option RelIntegrity) r : option (Relationship P) :=
  if r_frozen r then None
  else Some (with_rel (r_temporal r) ig (r_version r) (r_relType r) (r_frozen r) (r_sharedProps r) r).

Definition RelTemporal r : option TemporalMetadata :=
  if r_frozen r && bool_decide (is_Some (r_temporal r)) then r_temporal r
  else match r_meta r with
       | Some m => Some (compactTemporal (rm_validFrom m) (rm_validTo m) (rm_txFrom m))
       | None => r_temporal r
       end.

Definition RelTemporalByValue r : option TemporalMetadata :=
  match r_meta r with
  | Some m => Some (compactTemporal (rm_validFrom m) (rm_validTo m) (rm_txFrom m))
  | None => r_temporal r
  end.

Definition RelValidRange r : option (Instant * Instant) :=
  match r_meta r with
  | Some m => Some (rm_validFrom m, rm_validTo m)
  | None => match r_temporal r with Some tm => Some (ValidFrom tm, ValidTo tm) | None => None end
  end.

Definition RelTxStamps r : Instant * Instant * Instant :=
  match r_meta r with
  | Some m => (rm_txFrom m, 0, 0)
  | None => match r_temporal r with
            | Some tm => (TxFrom tm, TxTo tm, DeletedAt tm)
            | None => (0, 0, 0)
            end
  end.

Definition RelIntegrityOf r : option RelIntegrity :=
  match r_meta r with
  | Some m => Some (relMeta_integrity m)
  | None => r_integrity r
  end.

Definition RelDeepCopy r : Relationship P :=
  let '(tm, ig) :=
    match r_meta r with
    | Some m => (Some (compactTemporal (rm_validFrom m) (rm_validTo m) (rm_txFrom m)),
                 Some (relMeta_integrity m))
    | None => (r_temporal r, r_integrity r)
    end in
  mkRel P (CopyOf (r_addr r)) (r_id r) (r_startID r) (r_endID r) (r_properties r) tm ig None
    (r_version r) (r_relType r) false false (r_ordinal r) (r_startOrdinal r) (r_endOrdinal r).

Definition RelCompactFrozenCopy (a : addr) r : Relationship P * Relationship P :=
  let '(tm, ig, meta) :=
    match r_meta r with
    | Some m => (None, None, Some m)
    | None => match compactRelMeta (r_temporal r) (r_integrity r) with
              | Some m => (None, None, Some m)
              | None => (r_temporal r, r_integrity r, None)
              end
    end in
  (mkRel P a (r_id r) (r_startID r) (r_endID r) (r_properties r) tm ig meta (r_version r)
     (r_relType r) true false (r_ordinal r) (r_startOrdinal r) (r_endOrdinal r),
   if r_frozen r then r
   else with_rel (r_temporal r) (r_integrity r) (r_version r) (r_relType r) (r_frozen r) true r).

Definition rel_wf r : Prop :=
  is_Some (r_meta r) -> r_frozen r = true /\ r_temporal r = None /\ r_integrity r = None.

Context `{Layout}.

Definition ValidAxis_RelStart (a : ValidAxis) r : Instant :=
  let rest :=
    let '(tx, _, _) := RelTxStamps r in
    if negb (tx =? 0) then tx
    else UntimedValidFrom (match r_meta r with Some _ => None | None => r_temporal r end)
           (MintInstantMillis (r_id r)) in
  match RelValidRange r with
  | Some (vf, _) => if negb (vf =? unclaimed a) then vf else rest
  | None => rest
  end.

Definition RelEffectiveValidFrom r : Instant := ValidAxis_RelStart LegacyValidAxis r.
End RelOps.

(** ** The instances of the interface *)

Section Instances.
Context {P : Type} `{EqDecision P} `{Layout}.

#[export] Instance Node_EntityRow : EntityRow (Node P) := {
  RowID := n_id;
  Version := n_version;
  Temporal := NodeTemporal;
  TemporalByValue := NodeTemporalByValue;
  RowStart := ValidAxis_NodeStart;
  RowMint n := SnowflakeInstant (n_id n);
  copyWithTemporal f n :=
    let c := NodeDeepCopy n in
    mkNode P (n_addr c) (n_id c) (n_properties c) (n_extraLabels c) (f <$> n_temporal c) (n_integrity c)
      (n_meta c) (n_version c) (n_primaryLabel c) (n_frozen c) (n_sharedProps c) (n_ordinal c);
  row_wf := node_wf;
}.

#[export] Instance Rel_EntityRow : EntityRow (Relationship P) := {
  RowID := r_id;
  Version := r_version;
  Temporal := RelTemporal;
  TemporalByValue := RelTemporalByValue;
  RowStart := ValidAxis_RelStart;
  RowMint r := SnowflakeInstant (r_id r);
  copyWithTemporal f r :=
    let c := RelDeepCopy r in
    mkRel P (r_addr c) (r_id c) (r_startID c) (r_endID c) (r_properties c) (f <$> r_temporal c)
      (r_integrity c) (r_meta c) (r_version c) (r_relType c) (r_frozen c) (r_sharedProps c) (r_ordinal c)
      (r_startOrdinal c) (r_endOrdinal c);
  row_wf := rel_wf;
}.

(** Both row kinds start where the axis's start rule says, from either form of
    their metadata. *)
#[export] Instance Node_EntityRowOK : EntityRowOK (Node P).
Proof.
  split; simpl.
  - intros a n Hwf. unfold ValidAxis_NodeStart, ValidAxis_Start, NodeTemporal, NodeValidRange, NodeTxStamps,
      UntimedValidFrom, SnowflakeInstant.
    destruct (n_meta n) as [m|] eqn:E.
    + destruct Hwf as (Hf & Ht & _); [by rewrite E|]. rewrite Hf, Ht. simpl.
      destruct (nm_validFrom m =? unclaimed a), (nm_txFrom m =? 0); reflexivity.
    + destruct (n_temporal n) as [tm|]; destruct (n_frozen n); simpl; try done;
        destruct (ValidFrom tm =? unclaimed a), (TxFrom tm =? 0); reflexivity.
  - intros n Hwf. unfold NodeTemporalByValue, NodeTemporal. destruct (n_meta n) as [m|] eqn:E.
    + destruct Hwf as (-> & -> & _); [by rewrite E|]. done.
    + by destruct (n_frozen n && _).
  - intros f n Hwf. unfold NodeTemporal, NodeDeepCopy. destruct (n_meta n) as [m|] eqn:E; simpl.
    + destruct Hwf as (-> & -> & _); [by rewrite E|]. done.
    + by destruct (n_temporal n), (n_frozen n).
  - intros f n. unfold NodeDeepCopy. by destruct (n_meta n).
  - intros f n. unfold NodeDeepCopy. by destruct (n_meta n).
  - intros f n _. unfold node_wf, NodeDeepCopy. destruct (n_meta n); simpl; by intros [? ?].
Qed.

#[export] Instance Rel_EntityRowOK : EntityRowOK (Relationship P).
Proof.
  split; simpl.
  - intros a r Hwf. unfold ValidAxis_RelStart, ValidAxis_Start, RelTemporal, RelValidRange, RelTxStamps,
      UntimedValidFrom, SnowflakeInstant.
    destruct (r_meta r) as [m|] eqn:E.
    + destruct Hwf as (Hf & Ht & _); [by rewrite E|]. rewrite Hf, Ht. simpl.
      destruct (rm_validFrom m =? unclaimed a), (rm_txFrom m =? 0); reflexivity.
    + destruct (r_temporal r) as [tm|]; destruct (r_frozen r); simpl; try done;
        destruct (ValidFrom tm =? unclaimed a), (TxFrom tm =? 0); reflexivity.
  - intros r Hwf. unfold RelTemporalByValue, RelTemporal. destruct (r_meta r) as [m|] eqn:E.
    + destruct Hwf as (-> & -> & _); [by rewrite E|]. done.
    + by destruct (r_frozen r && _).
  - intros f r Hwf. unfold RelTemporal, RelDeepCopy. destruct (r_meta r) as [m|] eqn:E; simpl.
    + destruct Hwf as (-> & -> & _); [by rewrite E|]. done.
    + by destruct (r_temporal r), (r_frozen r).
  - intros f r. unfold RelDeepCopy. by destruct (r_meta r).
  - intros f r. unfold RelDeepCopy. by destruct (r_meta r).
  - intros f r _. unfold rel_wf, RelDeepCopy. destruct (r_meta r); simpl; by intros [? ?].
Qed.
End Instances.

(** ** The compact form is an exact re-encoding *)

Lemma temporalFitsCompact_exact tm :
  temporalFitsCompact tm = true -> compactTemporal (ValidFrom tm) (ValidTo tm) (TxFrom tm) = tm.
Proof.
  unfold temporalFitsCompact. rewrite !andb_true_iff, !Z.eqb_eq, !negb_true_iff, !bool_decide_eq_true.
  destruct tm; simpl. intros. destruct_and!. by subst.
Qed.

Lemma compactNodeMeta_exact tm ig m :
  compactNodeMeta tm ig = Some m ->
  tm = Some (compactTemporal (nm_validFrom m) (nm_validTo m) (nm_txFrom m)) /\
  ig = Some (nodeMeta_integrity m).
Proof.
  unfold compactNodeMeta. destruct tm as [tm|], ig as [ig|]; try done.
  destruct (negb _ || _ || _ || _ || _ || _) eqn:E; [done|]. intros [= <-]. simpl.
  rewrite !orb_false_iff, !negb_false_iff, !bool_decide_eq_true, Z.eqb_eq in E. destruct_and!.
  rewrite temporalFitsCompact_exact by done. destruct ig; simpl in *; subst. done.
Qed.

Lemma compactRelMeta_exact tm ig m :
  compactRelMeta tm ig = Some m ->
  tm = Some (compactTemporal (rm_validFrom m) (rm_validTo m) (rm_txFrom m)) /\
  ig = Some (relMeta_integrity m).
Proof.
  unfold compactRelMeta. destruct tm as [tm|], ig as [ig|]; try done.
  destruct (negb _ || _ || _ || _ || _ || _) eqn:E; [done|].
  rewrite !orb_false_iff, !negb_false_iff, !bool_decide_eq_true, Z.eqb_eq in E. destruct_and!.
  destruct ig as [h ph fh th au sg ab al]; simpl in *. subst. case_bool_decide as Eh.
  - subst. intros [= <-]. simpl. by rewrite temporalFitsCompact_exact.
  - destruct (hash32_Decode h) as [b|] eqn:Ed; [|done]. intros [= <-]. simpl.
    apply hash32_decode_inv in Ed as [Ed _]. rewrite temporalFitsCompact_exact by done.
    unfold relMeta_integrity. simpl. by rewrite Ed.
Qed.

(** What a caller can observe of a node row, the pointer apart. *)
Definition node_view {P} (n : Node P) :=
  (n_id n, n_properties n, AllLabelTokens n, NodeTemporal n, NodeTemporalByValue n, NodeValidRange n,
   NodeTxStamps n, NodeIntegrityOf n, n_version n, n_frozen n, n_ordinal n).

Definition rel_view {P} (r : Relationship P) :=
  (r_id r, r_startID r, r_endID r, r_properties r, RelTemporal r, RelTemporalByValue r, RelValidRange r,
   RelTxStamps r, RelIntegrityOf r, r_version r, r_relType r, r_frozen r,
   (r_ordinal r, r_startOrdinal r, r_endOrdinal r)).

(** [CompactFrozenCopy] answers every accessor of a node exactly as
    [DeepCopy] followed by [Freeze] does, keeps the compact-form invariant, and
    leaves the source as it was but for its [sharedProps] mark. *)
Theorem node_compact_copy_exact {P} (a : addr) (n : Node P) :
  node_wf n ->
  let (cp, src) := NodeCompactFrozenCopy a n in
  node_view cp = node_view (NodeFreeze (NodeDeepCopy n)) /\ node_wf cp /\
  node_view src = node_view n /\ (n_frozen n = false -> n_sharedProps src = true).
Proof.
  intros Hwf. unfold NodeCompactFrozenCopy, node_view, node_wf, NodeDeepCopy, NodeFreeze, NodeTemporal,
    NodeTemporalByValue, NodeValidRange, NodeTxStamps, NodeIntegrityOf, AllLabelTokens.
  destruct (n_meta n) as [m|] eqn:E; simpl.
  - destruct Hwf as (Hf & Ht & Hi); [by rewrite E|].
    rewrite Hf, Ht, E. by split_and!; rewrite ?Hf.
  - destruct (compactNodeMeta (n_temporal n) (n_integrity n)) as [m|] eqn:Ec; simpl.
    + apply compactNodeMeta_exact in Ec as [Ht Hi]. rewrite Ht, Hi.
      destruct (n_frozen n) eqn:Ef; rewrite ?E, ?Ef, ?Ht, ?Hi; split_and!; by rewrite ?Ef, ?Ht, ?Hi.
    + destruct (n_frozen n) eqn:Ef; rewrite ?E, ?Ef; split_and!; try done; by intros [? ?].
Qed.

Lemma node_compact_copy_exact_witness :
  let n := mkNode unit (Alloc 1) 7 tt [3] (Some (set_TxFrom 5 zeroTM)) (Some (mkNI [97] [] [] None [] 0))
             None 0 2 false false 0 in
  let (cp, src) := NodeCompactFrozenCopy (Alloc 2) n in
  node_view cp = node_view (NodeFreeze (NodeDeepCopy n)) /\ node_wf cp /\
  node_view src = node_view n /\ (n_frozen n = false -> n_sharedProps src = true).
Proof. intros n. apply (node_compact_copy_exact (Alloc 2) n). by intros [? ?]. Defined.

(** The relationship counterpart: the 32-byte hash, the two endpoint hashes
    and the three instants rebuild every accessor. *)
Theorem rel_compact_copy_exact {P} (a : addr) (r : Relationship P) :
  rel_wf r ->
  let (cp, src) := RelCompactFrozenCopy a r in
  rel_view cp = rel_view (RelFreeze (RelDeepCopy r)) /\ rel_wf cp /\
  rel_view src = rel_view r /\ (r_frozen r = false -> r_sharedProps src = true).
Proof.
  intros Hwf. unfold RelCompactFrozenCopy, rel_view, rel_wf, RelDeepCopy, RelFreeze, with_rel, RelTemporal,
    RelTemporalByValue, RelValidRange, RelTxStamps, RelIntegrityOf.
  destruct (r_meta r) as [m|] eqn:E; simpl.
  - destruct Hwf as (Hf & Ht & Hi); [by rewrite E|].
    rewrite Hf, Ht, E. by split_and!; rewrite ?Hf.
  - destruct (compactRelMeta (r_temporal r) (r_integrity r)) as [m|] eqn:Ec; simpl.
    + apply compactRelMeta_exact in Ec as [Ht Hi]. rewrite Ht, Hi.
      destruct (r_frozen r) eqn:Ef; rewrite ?E, ?Ef, ?Ht, ?Hi; split_and!; by rewrite ?Ef, ?Ht, ?Hi.
    + destruct (r_frozen r) eqn:Ef; rewrite ?E, ?Ef; split_and!; try done; by intros [? ?].
Qed.

Lemma rel_compact_copy_exact_witness :
  let r := mkRel unit (Alloc 1) 7 1 2 tt (Some (set_TxFrom 5 zeroTM))
             (Some (mkRI [] [] [97] [98] [] None [] 0)) None 0 3 false false 0 0 0 in
  let (cp, src) := RelCompactFrozenCopy (Alloc 2) r in
  rel_view cp = rel_view (RelFreeze (RelDeepCopy r)) /\ rel_wf cp /\
  rel_view src = rel_view r /\ (r_frozen r = false -> r_sharedProps src = true).
Proof. intros r. apply (rel_compact_copy_exact (Alloc 2) r). by intros [? ?]. Defined.

(** ** Labels *)

(** The label invariant of a node: the extras repeat neither each other nor
    the primary label. *)
Definition labels_ok {P} (n : Node P) : Prop := NoDup (AllLabelTokens n).

Lemma dedup_labels_spec primary seen extras :
  NoDup (dedup_labels primary seen extras) /\
  forall t, t ∈ dedup_labels primary seen extras <-> t ∈ extras /\ t <> primary /\ t ∉ seen.
Proof.
  revert seen. induction extras as [|x extras IH]; intros seen; simpl.
  { split; [constructor|]. intros t. set_solver. }
  destruct (Z.eqb_spec x primary) as [->|Hp].
  { destruct (IH seen) as [Hn Hin]. split; [done|]. intros t. rewrite Hin. set_solver. }
  case_bool_decide as Hs.
  { destruct (IH seen) as [Hn Hin]. split; [done|]. intros t. rewrite Hin. set_solver. }
  destruct (IH (x :: seen)) as [Hn Hin]. split.
  - constructor; [|done]. rewrite Hin. set_solver.
  - intros t. rewrite elem_of_cons, Hin. set_unfold.
    destruct (decide (t = x)) as [->|]; naive_solver.
Qed.

Lemma existsb_eqb_elem tok l : existsb (fun t => t =? tok) l = true <-> tok ∈ l.
Proof.
  rewrite existsb_exists, list_elem_of_In. split.
  - intros (t & Hin & ->%Z.eqb_eq). done.
  - intros H. exists tok. by rewrite Z.eqb_refl.
Qed.

Lemma HasLabelTokenRaw_elem {P} tok (n : Node P) :
  HasLabelTokenRaw tok n = true <-> tok <> 0 /\ tok ∈ AllLabelTokens n.
Proof.
  unfold HasLabelTokenRaw, AllLabelTokens. rewrite elem_of_cons.
  destruct (Z.eqb_spec tok 0); [naive_solver|].
  destruct (Z.eqb_spec (n_primaryLabel n) tok); [naive_solver|].
  rewrite existsb_eqb_elem. naive_solver.
Qed.

Lemma remove_first_spec f l x rest :
  remove_first f l = Some (x, rest) -> f x = true /\ l ≡ₚ x :: rest.
Proof.
  revert rest. induction l as [|y l IH]; intros rest; simpl; [done|].
  destruct (f y) eqn:E; [by intros [= -> ->]|].
  destruct (remove_first f l) as [[x' r]|]; [|done]. intros [= -> <-].
  destruct (IH r) as [Hf Hp]; [done|]. split; [done|]. rewrite Hp. constructor.
Qed.

Lemma remove_first_none f l : remove_first f l = None -> forall x, x ∈ l -> f x = false.
Proof.
  induction l as [|y l IH]; simpl; intros H x Hx; [by apply not_elem_of_nil in Hx|].
  destruct (f y) eqn:E; [done|]. destruct (remove_first f l) as [[? ?]|]; [done|].
  apply elem_of_cons in Hx as [->|Hx]; auto.
Qed.

(** Construction and replacement establish the label invariant, with the
    primary label and the distinct extras as the label set. *)
Theorem set_labels_spec {P} (empty : P) a id primary extras (n : Node P) :
  let m := NewNode empty a id primary extras in
  labels_ok m /\ (forall t, t ∈ AllLabelTokens m <-> t ∈ primary :: extras) /\
  (n_frozen n = false -> exists n', SetLabelTokensRaw primary extras n = Some n' /\
    AllLabelTokens n' = AllLabelTokens m) /\
  (n_frozen n = true -> SetLabelTokensRaw primary extras n = None).
Proof.
  destruct (dedup_labels_spec primary [] extras) as [Hn Hin].
  unfold labels_ok, AllLabelTokens, SetLabelTokensRaw. simpl. split_and!.
  - constructor; [|done]. rewrite Hin. naive_solver.
  - intros t. rewrite !elem_of_cons, Hin. destruct (decide (t = primary)); set_solver.
  - intros ->. by eexists.
  - by intros ->.
Qed.

(** Adding a label to a thawed node keeps the invariant and adds exactly
    that token, reporting whether it was absent. *)
Theorem add_label_spec {P} tok (n : Node P) :
  labels_ok n -> n_frozen n = false -> tok <> 0 ->
  exists n', AddLabelTokenRaw tok n = Some (negb (HasLabelTokenRaw tok n), n') /\ labels_ok n' /\
    forall t, HasLabelTokenRaw t n' = true <-> HasLabelTokenRaw t n = true \/ t = tok.
Proof.
  intros Hok Hf Htok. unfold AddLabelTokenRaw. rewrite Hf.
  destruct (Z.eqb_spec tok 0); [done|].
  destruct (HasLabelTokenRaw tok n) eqn:E.
  - exists n. split; [|split; [done|intros t; naive_solver]].
    apply HasLabelTokenRaw_elem in E as [_ E]. unfold AllLabelTokens in E.
    destruct (Z.eqb_spec (n_primaryLabel n) tok); [done|].
    rewrite (proj2 (existsb_eqb_elem tok (n_extraLabels n))); [done|set_solver].
  - assert (tok ∉ AllLabelTokens n) as Hnot.
    { intros Hin. assert (HasLabelTokenRaw tok n = true) by (by apply HasLabelTokenRaw_elem). congruence. }
    unfold AllLabelTokens in Hnot.
    destruct (Z.eqb_spec (n_primaryLabel n) tok); [set_solver|].
    destruct (existsb _ (n_extraLabels n)) eqn:Ex; [apply existsb_eqb_elem in Ex; set_solver|].
    eexists. split; [reflexivity|]. split.
    + unfold labels_ok, AllLabelTokens in *. simpl. rewrite app_comm_cons, NoDup_app. split_and!; [done| |apply NoDup_singleton].
      intros x Hx ->%list_elem_of_singleton. done.
    + intros t. rewrite !HasLabelTokenRaw_elem. unfold AllLabelTokens. simpl.
      rewrite !elem_of_cons, elem_of_app, list_elem_of_singleton. naive_solver.
Qed.

Lemma add_label_spec_witness :
  let n := NewNode tt (Alloc 1) 7 2 [3] in
  exists n', AddLabelTokenRaw 5 n = Some (negb (HasLabelTokenRaw 5 n), n') /\ labels_ok n' /\
    forall t, HasLabelTokenRaw t n' = true <-> HasLabelTokenRaw t n = true \/ t = 5.
Proof.
  intros n. apply (add_label_spec 5 n); [|reflexivity|lia].
  apply (bool_decide_unpack _). vm_compute. exact I.
Defined.

(** Removing a label from a thawed node keeps the invariant: it either
    removes exactly that token, leaving a non-zero primary label, or refuses
    and leaves the node as it was because the label is absent or no other
    non-zero label could become primary. *)
Theorem remove_label_spec {P} tok (n : Node P) :
  labels_ok n -> n_frozen n = false -> tok <> 0 -> n_primaryLabel n <> 0 ->
  exists b n', RemoveLabelTokenRaw tok n = Some (b, n') /\ labels_ok n' /\
    if b then AllLabelTokens n ≡ₚ tok :: AllLabelTokens n' /\ n_primaryLabel n' <> 0
    else n' = n /\ (tok ∉ AllLabelTokens n \/
                   n_primaryLabel n = tok /\ Forall (fun t => t = 0) (n_extraLabels n)).
Proof.
  intros Hok Hf Htok Hprim. unfold RemoveLabelTokenRaw. rewrite Hf.
  destruct (Z.eqb_spec tok 0); [done|]. unfold labels_ok, AllLabelTokens in *.
  destruct (Z.eqb_spec (n_primaryLabel n) tok) as [Ep|Ep]; simpl;
    destruct (remove_first _ (n_extraLabels n)) as [[x rest]|] eqn:E.
  - apply remove_first_spec in E as [Hx%negb_true_iff%Z.eqb_neq HP]. eexists true, _. split; [done|]. simpl.
    rewrite HP in Hok. apply NoDup_cons in Hok as [_ Hok]. rewrite HP, Ep. done.
  - exists false, n. split; [done|]. split; [done|]. split; [done|]. right. split; [done|].
    apply Forall_forall. intros t Ht. pose proof (remove_first_none _ _ E t Ht). simpl in *. lia.
  - apply remove_first_spec in E as [Hx%Z.eqb_eq HP]. subst x. eexists true, _. split; [done|]. simpl.
    assert (n_primaryLabel n :: n_extraLabels n ≡ₚ tok :: n_primaryLabel n :: rest) as HP'.
    { rewrite HP. constructor. }
    rewrite HP' in Hok. apply NoDup_cons in Hok as [_ Hok]. done.
  - exists false, n. split; [done|]. split; [done|]. split; [done|]. left.
    rewrite elem_of_cons. intros [->|Ht]; [done|].
    pose proof (remove_first_none _ _ E tok Ht). simpl in *. lia.
Qed.

Lemma remove_label_spec_witness :
  let n := NewNode tt (Alloc 1) 7 2 [3; 5] in
  exists b n', RemoveLabelTokenRaw 2 n = Some (b, n') /\ labels_ok n' /\
    if b then AllLabelTokens n ≡ₚ 2 :: AllLabelTokens n' /\ n_primaryLabel n' <> 0
    else n' = n /\ (2 ∉ AllLabelTokens n \/
                   n_primaryLabel n = 2 /\ Forall (fun t => t = 0) (n_extraLabels n)).
Proof.
  intros n. apply (remove_label_spec 2 n); [|reflexivity|lia|vm_compute; discriminate].
  apply (bool_decide_unpack _). vm_compute. exact I.
Defined.

(** ** Concrete rows, for the witnesses: every ID minted at its own value. *)

Definition demo_layout : Layout := fun id => id.

Definition demo_row (n version : Z) (tm : TemporalMetadata) : Node unit :=
  mkNode unit (Alloc n) 7 tt [] (Some tm) None None version 2 false false 0.

(** Metadata with the six instants the chain rules read. *)
Definition demo_tm (vf vt txf txt del : Instant) : TemporalMetadata :=
  mkTM vf vt txf txt 0 0 del "" "" 0 false false false.
