(* ===== verification/Pages.v ===== *)
(** * Pagination (internal/storeutil/pagination.go)

    Doors that list entities page their answer by a cursor: the last ID of the
    page before.  The variants for IDs, nodes and relationships are one
    definition over the element's ID.  The theorems characterise a page and show
    that following the cursor visits every element once, in order. *)

From S2P Require Import Prelude Rows.

Section Pages.
Context {A : Type} (id : A -> Z).

(** [after] 0 starts from the beginning, [limit] 0 takes all. *)
Definition PaginateIDs (l : list A) (after : Z) (limit : Z) : list A :=
  match l with
  | [] => []
  | _ =>
      let start := if after >? 0 then Search (length l) (fun i => match l !! i with Some x => id x >? after | None => false end) else 0%nat in
      if (length l <=? start)%nat then []
      else
        let remaining := drop start l in
        if (limit >? 0) && (limit <? Z.of_nat (length remaining)) then take (Z.to_nat limit) remaining else remaining
  end.

(** The position after the cursor's element, by a scan. *)
Fixpoint after_cursor (after : Z) (l : list A) (i : nat) : option nat :=
  match l with
  | [] => None
  | x :: l' => if id x =? after then Some (S i) else after_cursor after l' (S i)
  end.

Definition PaginateNodesInOrder (l : list A) (after : Z) (limit : Z) : list A :=
  match l with
  | [] => []
  | _ =>
      match (if after >? 0 then after_cursor after l 0 else Some 0%nat) with
      | None => []
      | Some start =>
          if (length l <=? start)%nat then []
          else
            let out := drop start l in
            if (limit >? 0) && (limit <? Z.of_nat (length out)) then take (Z.to_nat limit) out else out
      end
  end.

Definition SortByID (l : list A) : list A := sort_by (fun x y => id x <? id y) l.

(** A client that follows the cursor until a page is empty. *)
Fixpoint follow (page : Z -> list A) (fuel : nat) (after : Z) : list A :=
  match fuel with
  | O => []
  | S fuel' => match last (page after) with Some x => page after ++ follow page fuel' (id x) | None => [] end
  end.
End Pages.

Definition PaginateNodes {P} : list (Node P) -> Z -> Z -> list (Node P) := PaginateIDs n_id.

Definition PaginateRels {P} : list (Relationship P) -> Z -> Z -> list (Relationship P) := PaginateIDs r_id.

Definition PaginateNodeIDs : list Z -> Z -> Z -> list Z := PaginateIDs (fun x => x).

Definition PaginateRelIDs : list Z -> Z -> Z -> list Z := PaginateIDs (fun x => x).

Definition SortNodesByID {P} : list (Node P) -> list (Node P) := SortByID n_id.

Definition SortRelsByID {P} : list (Relationship P) -> list (Relationship P) := SortByID r_id.

(** ** A page *)

Section Spec.
Context {A : Type} (id : A -> Z).

Definition ascending (l : list A) : Prop := StronglySorted (fun x y => id x < id y) l.

(** At most [limit] elements, all for 0. *)
Definition first_page (limit : Z) (l : list A) : list A := if limit >? 0 then take (Z.to_nat limit) l else l.

Definition after_id (after : Z) (l : list A) : list A := List.filter (fun x => id x >? after) l.

Lemma cut_page limit (l : list A) :
  (if (limit >? 0) && (limit <? Z.of_nat (length l)) then take (Z.to_nat limit) l else l) = first_page limit l.
Proof.
  unfold first_page. destruct (limit >? 0); [|done]. cbn [andb]. destruct (Z.ltb_spec limit (Z.of_nat (length l))); [done|].
  symmetry. apply take_ge. lia.
Qed.

(** An ascending list splits at the cursor. *)
Lemma ascending_split l after : ascending l -> exists lo, l = lo ++ after_id after l /\ Forall (fun x => id x <= after) lo.
Proof.
  induction 1 as [|x l Hl IH Hx]; [by exists []|]. unfold after_id. cbn [List.filter]. destruct (Z.gtb_spec (id x) after).
  - exists []. split; [|constructor]. cbn [app]. f_equal. symmetry. rewrite Forall_forall in Hx.
    clear IH Hl. induction l as [|y l IHl]; [done|]. cbn [List.filter]. destruct (Z.gtb_spec (id y) after).
    + f_equal. apply IHl. intros z Hz. apply Hx. by right.
    + specialize (Hx y ltac:(left)). lia.
  - destruct IH as (lo & E & Hlo). exists (x :: lo). split; [cbn; by f_equal|]. by constructor.
Qed.

Lemma page_exact l after limit : ascending l -> Forall (fun x => 0 < id x) l -> 0 <= after ->
  PaginateIDs id l after limit = first_page limit (after_id after l).
Proof.
  intros Hs Hpos Ha. destruct (ascending_split l after Hs) as (lo & E & Hlo).
  assert (Hstart : (if after >? 0 then Search (length l) (fun i => match l !! i with Some x => id x >? after | None => false end) else 0%nat) = length lo).
  { destruct (Z.gtb_spec after 0) as [Hgt|Hle].
    - set (f := fun i => match l !! i with Some x => id x >? after | None => false end).
      assert (Hf : forall i, (i < length l)%nat -> f i = (length lo <=? i)%nat).
      { intros i Hi. unfold f. destruct (lookup_lt_is_Some_2 l i Hi) as [x Hx]. rewrite Hx. rewrite E in Hx.
        apply lookup_app_Some in Hx as [Hx|[Hge Hx]].
        - pose proof (lookup_lt_Some _ _ _ Hx). rewrite Forall_lookup in Hlo. specialize (Hlo i x Hx).
          destruct (Z.gtb_spec (id x) after), (Nat.leb_spec (length lo) i); lia.
        - apply list_elem_of_lookup_2, list_elem_of_In, filter_In in Hx as [_ ->]. symmetry. by apply Nat.leb_le. }
      assert (Hlen : (length lo <= length l)%nat) by (rewrite E, length_app; lia).
      destruct (Search_spec (length l) f) as (Hn & Hlow & Hhigh).
      + intros a b Hab Hb Ha'. rewrite Hf in * by lia. apply Nat.leb_le in Ha'. apply Nat.leb_le. lia.
      + destruct (Nat.lt_trichotomy (Search (length l) f) (length lo)) as [Hlt|[|Hgt']]; [|done|].
        * specialize (Hhigh (Search (length l) f) ltac:(lia)). rewrite Hf in Hhigh by lia. apply Nat.leb_le in Hhigh. lia.
        * specialize (Hlow (length lo) ltac:(lia)). rewrite Hf in Hlow by lia. apply Nat.leb_gt in Hlow. lia.
    - destruct lo as [|x lo]; [done|]. apply Forall_cons in Hlo as [? _]. rewrite E in Hpos. apply Forall_cons in Hpos as [? _]. lia. }
  unfold PaginateIDs. rewrite Hstart. destruct l as [|x l]; [unfold first_page, after_id; cbn; destruct (limit >? 0); by rewrite ?take_nil|]. rewrite cut_page.
  assert (Hd : drop (length lo) (x :: l) = after_id after (x :: l)) by (rewrite E at 1; apply drop_app_length).
  rewrite Hd. destruct (Nat.leb_spec (length (x :: l)) (length lo)) as [Hl|Hl]; [|done].
  assert (after_id after (x :: l) = []) as ->; [|unfold first_page; destruct (limit >? 0); by rewrite ?take_nil].
  apply nil_length_inv. apply (f_equal length) in E. rewrite length_app in E. lia.
Qed.

Lemma after_cursor_spec after l : forall i, NoDup (map id l) ->
  after_cursor id after l i = None /\ after ∉ map id l \/
  exists lo x hi, l = lo ++ x :: hi /\ id x = after /\ after_cursor id after l i = Some (i + S (length lo))%nat.
Proof.
  induction l as [|x l IH]; intros i Hnd; [left; split; [done|apply not_elem_of_nil]|]. apply NoDup_cons in Hnd as [_ Hnd]. cbn [after_cursor].
  destruct (Z.eqb_spec (id x) after) as [<-|Hne]; [right; exists [], x, l; split_and!; [done..|f_equal; cbn; lia]|].
  destruct (IH (S i) Hnd) as [[-> Hn]|(lo & y & hi & -> & Hy & ->)]; [left|right].
  - split; [done|]. cbn. by apply not_elem_of_cons.
  - exists (x :: lo), y, hi. split_and!; [done..|f_equal; cbn; lia].
Qed.

(** The elements after the cursor's, in the list's own order. *)
Lemma page_in_order l after limit lo x hi :
  NoDup (map id l) -> l = lo ++ x :: hi -> id x = after -> 0 < after ->
  PaginateNodesInOrder id l after limit = first_page limit hi.
Proof.
  intros Hnd El Hx Hpos. unfold PaginateNodesInOrder. destruct l as [|y l]; [by destruct lo|]. rewrite El in Hnd |- *.
  rewrite (proj2 (Z.gtb_lt after 0)) by done.
  destruct (after_cursor_spec after (lo ++ x :: hi) 0 Hnd) as [[_ Hn]|(lo' & x' & hi' & E & Hx' & ->)].
  { destruct Hn. rewrite map_app, <- Hx. apply elem_of_app. right. left. }
  assert (Hlen : length lo' = length lo).
  { assert (H1 : map id (lo ++ x :: hi) !! length lo = Some after) by (rewrite map_app; cbn [map]; rewrite list_lookup_middle; [congruence|by rewrite length_map]).
    assert (H2 : map id (lo ++ x :: hi) !! length lo' = Some after) by (rewrite E, map_app; cbn [map]; rewrite list_lookup_middle; [congruence|by rewrite length_map]).
    by apply (NoDup_lookup _ _ _ _ Hnd H2 H1). }
  rewrite Hlen. cbn [Nat.add]. assert (Hd : drop (S (length lo)) (lo ++ x :: hi) = hi).
  { change (x :: hi) with ([x] ++ hi). rewrite app_assoc. apply drop_app_length'. rewrite length_app. cbn. lia. }
  rewrite Hd, cut_page. destruct (Nat.leb_spec (length (lo ++ x :: hi)) (S (length lo))) as [Hl|]; [|done].
  rewrite length_app in Hl. destruct hi; [|cbn in Hl; lia]. unfold first_page. destruct (limit >? 0); by rewrite ?take_nil.
Qed.

(** ** Following the cursor *)

Lemma first_page_cons limit x l : exists page rest, first_page limit (x :: l) = x :: page /\ x :: l = (x :: page) ++ rest /\
  (rest = [] \/ 0 < limit).
Proof.
  unfold first_page. destruct (Z.gtb_spec limit 0) as [Hl|].
  - exists (take (Z.to_nat limit - 1) l), (drop (Z.to_nat limit - 1) l). split_and!; [|cbn; by rewrite take_drop|by right].
    replace (Z.to_nat limit) with (S (Z.to_nat limit - 1)) by lia. cbn. do 2 f_equal. lia.
  - exists l, []. by rewrite app_nil_r; split_and!; [..|left].
Qed.

Lemma last_app_cons {B} (x : B) l : exists l' y, x :: l = l' ++ [y] /\ last (x :: l) = Some y.
Proof. destruct (exists_last (l := x :: l)) as (l' & y & E); [done|]. exists l', y. rewrite E. by rewrite last_snoc. Qed.

(** If each page is the front of what follows the cursor, following it gives
    everything. *)
Lemma follow_all page limit (l : list A) :
  Forall (fun x => 0 < id x) l ->
  (forall lo x hi, l = lo ++ x :: hi -> page (id x) = first_page limit hi) ->
  forall fuel lo hi after, l = lo ++ hi -> (length hi < fuel)%nat ->
    page after = first_page limit hi -> follow id page fuel after = hi.
Proof.
  intros Hpos Hpage. induction fuel as [|fuel IH]; intros lo hi after El Hf Hp; [lia|]. cbn [follow]. rewrite Hp.
  destruct hi as [|x hi]; [unfold first_page; destruct (limit >? 0); by rewrite ?take_nil|].
  destruct (first_page_cons limit x hi) as (pg & rest & -> & Ehi & Hrest). destruct (last_app_cons x pg) as (l' & y & Ey & ->).
  rewrite Ehi. f_equal. apply (IH (lo ++ x :: pg)); [by rewrite El, Ehi, <- app_assoc| |].
  - apply (f_equal length) in Ehi. rewrite length_app in Ehi. cbn in Hf, Ehi. lia.
  - apply (Hpage (lo ++ l')). rewrite El, Ehi, Ey, <- !app_assoc. done.
Qed.

Lemma after_zero l : Forall (fun x => 0 < id x) l -> after_id 0 l = l.
Proof.
  unfold after_id. induction 1 as [|x l Hx _ IH]; [done|]. cbn [List.filter]. destruct (Z.gtb_spec (id x) 0); [|lia]. by rewrite IH.
Qed.

Lemma ascending_after lo x hi : ascending (lo ++ x :: hi) -> after_id (id x) (lo ++ x :: hi) = hi.
Proof.
  intros Hs. apply StronglySorted_app_inv in Hs as (_ & Hx & Hlo). apply StronglySorted_inv in Hx as [Hhi Hx].
  unfold after_id. rewrite List.filter_app, Lfilter_none.
  - cbn [app List.filter]. destruct (Z.gtb_spec (id x) (id x)); [lia|]. clear Hlo Hhi. induction Hx as [|y hi Hy _ IH]; [done|].
    cbn [List.filter]. destruct (Z.gtb_spec (id y) (id x)); [|lia]. by rewrite IH.
  - intros y Hy. specialize (Hlo y x Hy ltac:(left)). destruct (Z.gtb_spec (id y) (id x)); [lia|done].
Qed.
End Spec.

(** C18: paging is exact: on elements with ascending positive IDs a page is the
    first [limit] of those after the cursor, and a client that follows the cursor
    to an empty page gets every element once, in order, within one request more
    than there are elements; the same holds of a list in any other order without
    repeated IDs. *)
Theorem paging_complete {A} (id : A -> Z) l after limit
  (Hpos : Forall (fun x => 0 < id x) l) (Hafter : 0 <= after) :
  (ascending id l ->
    PaginateIDs id l after limit = first_page limit (List.filter (fun x => id x >? after) l) /\
    follow id (fun c => PaginateIDs id l c limit) (S (length l)) 0 = l) /\
  (NoDup (map id l) -> follow id (fun c => PaginateNodesInOrder id l c limit) (S (length l)) 0 = l).
Proof.
  split.
  - intros Hs. split; [by apply page_exact|]. apply (follow_all id _ limit l Hpos) with (lo := []); [|done|lia|].
    + intros lo x hi El. assert (0 < id x) by (rewrite El in Hpos; apply Forall_app in Hpos as [_ Hpos]; by apply Forall_cons in Hpos as [? _]).
      rewrite page_exact by (done || lia). f_equal. rewrite El. apply ascending_after. by rewrite <- El.
    + rewrite page_exact by done. by rewrite after_zero.
  - intros Hnd. apply (follow_all id _ limit l Hpos) with (lo := []); [|done|lia|].
    + intros lo x hi El. eapply page_in_order; [done|exact El|done|].
      rewrite El in Hpos. apply Forall_app in Hpos as [_ Hpos]. by apply Forall_cons in Hpos as [? _].
    + unfold PaginateNodesInOrder. destruct l; [unfold first_page; destruct (limit >? 0); by rewrite ?take_nil|]. cbn [Z.gtb Z.compare].
      rewrite drop_0, cut_page. done.
Qed.

Lemma paging_complete_witness : follow (fun x => x) (fun c => PaginateNodeIDs [2; 5; 9] c 2) 4 0 = [2; 5; 9].
Proof.
  refine (proj2 (proj1 (paging_complete (fun x => x) [2; 5; 9] 0 2 _ _) _)); [forall_literal lia|lia|].
  repeat (apply SSorted_cons; [|forall_literal lia]). apply SSorted_nil.
Defined.
