(* ===== verification/ValueKeys.v ===== *)
(** * Index keys of property values (pkg/types/propertyslice.go)

    Every index keys a scalar by a string: a tag of its type, a colon and its
    rendering; a list is keyed by its elements in an Elements index.  The theorems
    show that two scalars have one key exactly when compare-and-set calls them
    equal, that an integer's key gives the integer back, and that the match test of
    the index reads agrees with the keys the index was told.

    Integers are the two's complement bits of their width and floats their IEEE 754
    bits, as in a row's properties; shortest float formatting and float parsing
    ([strconv]) are arguments. *)

From stdpp Require Import gmap.
From S2P Require Import Prelude Bytes Props Keys.

(** ** Decimal renderings ([strconv.AppendInt], [AppendUint], base 10) *)

(** The digits of [n] before [acc]; 20 digits hold a uint64. *)
Fixpoint digits (fuel : nat) (n : Z) (acc : bytes) : bytes :=
  match fuel with
  | O => acc
  | S fuel' =>
      let acc := (48 + n mod 10) :: acc in
      if n <? 10 then acc else digits fuel' (n / 10) acc
  end.

Definition FormatUint (n : Z) : bytes := digits 20 n [].

Definition FormatInt (n : Z) : bytes := if n <? 0 then 45 :: FormatUint (- n) else FormatUint n.

(** ** Numbers of a property *)

(** [int64(x)] of a signed integer of [w] bits. *)
Definition signed (w bits : Z) : Z := if bits <? 2 ^ (w - 1) then bits else bits - 2 ^ w.

(** Bits of a float are of a width: 32 or 64. *)
Definition float_exp_bits (w : Z) : Z := if w =? 32 then 8 else 11.

Definition float_mant_bits (w : Z) : Z := if w =? 32 then 23 else 52.

Definition float_magnitude (w bits : Z) : Z := bits mod 2 ^ (w - 1).

Definition float_inf (w : Z) : Z := (2 ^ float_exp_bits w - 1) * 2 ^ float_mant_bits w.

Definition float_is_zero (w bits : Z) : bool := float_magnitude w bits =? 0.

Definition float_is_nan (w bits : Z) : bool := float_inf w <? float_magnitude w bits.

(** ** Keys of scalars *)

Section ValueKeys.
(** [strconv.AppendFloat(nil, x, 'g', -1, w)]. *)
Context (FormatFloat : Z -> Z -> bytes).

Definition appendIntKey (prefix : bytes) (v : Z) : bytes := prefix ++ FormatInt v.

Definition appendUintKey (prefix : bytes) (v : Z) : bytes := prefix ++ FormatUint v.

Definition appendFloatKey (prefix : bytes) (bits bitSize : Z) : bytes := prefix ++ FormatFloat bitSize bits.

Definition IndexablePropertyValueKey (v : value) : bytes :=
  match v with
  | VString s => bytes_of_string "s:" ++ s
  | VTemporal kind s => bytes_of_string "tv:" ++ FormatUint kind ++ [58] ++ s
  | VNum TInt n => appendIntKey (bytes_of_string "i:") (signed 64 n)
  | VNum TInt8 n => appendIntKey (bytes_of_string "i8:") (signed 8 n)
  | VNum TInt16 n => appendIntKey (bytes_of_string "i16:") (signed 16 n)
  | VNum TInt32 n => appendIntKey (bytes_of_string "i32:") (signed 32 n)
  | VNum TInt64 n => appendIntKey (bytes_of_string "i64:") (signed 64 n)
  | VNum TUint n => appendUintKey (bytes_of_string "u:") n
  | VNum TUint8 n => appendUintKey (bytes_of_string "u8:") n
  | VNum TUint16 n => appendUintKey (bytes_of_string "u16:") n
  | VNum TUint32 n => appendUintKey (bytes_of_string "u32:") n
  | VNum TUint64 n => appendUintKey (bytes_of_string "u64:") n
  | VNum TFloat32 n =>
      if float_is_zero 32 n then bytes_of_string "f32:0"
      else if float_is_nan 32 n then bytes_of_string "f32:nan"
      else appendFloatKey (bytes_of_string "f32:") n 32
  | VNum TFloat64 n =>
      if float_is_zero 64 n then bytes_of_string "f64:0"
      else if float_is_nan 64 n then bytes_of_string "f64:nan"
      else appendFloatKey (bytes_of_string "f64:") n 64
  | VBool b => if b then bytes_of_string "b:true" else bytes_of_string "b:false"
  | _ => []
  end.

(** ** Keys of elements *)

Definition isIndexableList (v : value) : bool :=
  match v with
  | VAnys _ | VStrings _ => true
  | VNums ty _ => match ty with SByte => false | _ => true end
  | _ => false
  end.

Definition elementKeyDedupLinear : nat := 16.

(** The elements of a list as scalars. *)
Definition slice_scalar (ty : sliceType) (n : Z) : value :=
  match ty with
  | SInt => VNum TInt n | SInt64 => VNum TInt64 n | SFloat32 => VNum TFloat32 n | SFloat64 => VNum TFloat64 n
  | SByte => VNum TUint8 n | SBool => VBool (negb (n =? 0))
  end.

Context {S : Type}.
Implicit Types (fn : S -> bytes -> S * bool) (st : S).

(** [many] is nil until the seventeenth distinct key. *)
Fixpoint forEachElementKey fn (elems : list value) (seen : list bytes) (many : option (gset bytes)) st : S * bool :=
  match elems with
  | [] => (st, true)
  | e :: elems' =>
      let vk := IndexablePropertyValueKey e in
      if bool_decide (vk = []) then forEachElementKey fn elems' seen many st
      else
        let next seen many := let '(st, on) := fn st vk in if on then forEachElementKey fn elems' seen many st else (st, false) in
        match many with
        | Some m => if bool_decide (vk ∈ m) then forEachElementKey fn elems' seen many st else next seen (Some ({[vk]} ∪ m))
        | None =>
            if bool_decide (vk ∈ seen) then forEachElementKey fn elems' seen many st
            else if (length seen <? elementKeyDedupLinear)%nat then next (seen ++ [vk]) None
            else next seen (Some ({[vk]} ∪ list_to_set seen))
        end
  end.

(** A nil slice has no elements. *)
Definition list_elems (v : value) : list value :=
  match v with
  | VAnys o => default [] o
  | VStrings o => map VString (default [] o)
  | VNums SByte _ => []
  | VNums ty o => map (slice_scalar ty) (default [] o)
  | _ => []
  end.

Definition ForEachIndexableElementKey (v : value) fn st : S * bool :=
  let vk := IndexablePropertyValueKey v in
  if negb (bool_decide (vk = [])) then fn st vk
  else if isIndexableList v then forEachElementKey fn (list_elems v) [] None st
  else (st, true).

(** ** Keys of a property *)

Definition indexableValueKey (ps : PropertySlice) (key : bytes) : bytes * bool :=
  match borrow ps key with Some v => (IndexablePropertyValueKey v, true) | None => ([], false) end.

Definition propertyIndexKeys (ps : PropertySlice) (key : bytes) (elements : bool) fn st : S :=
  match borrow ps key with
  | None => st
  | Some v =>
      if negb elements then
        let vk := IndexablePropertyValueKey v in
        if negb (bool_decide (vk = [])) then fst (fn st vk) else st
      else fst (ForEachIndexableElementKey v fn st)
  end.

(** [elements] is nil for scalars only; [fn] also gets the property's key. *)
Fixpoint forEachIndexKey (ps : PropertySlice) (elements : option (bytes -> bool)) (fn : S -> bytes -> bytes -> S * bool) st : S :=
  match ps with
  | [] => st
  | (key, v) :: ps' =>
      let vk := IndexablePropertyValueKey v in
      if negb (bool_decide (vk = [])) then
        let '(st, on) := fn st key vk in if on then forEachIndexKey ps' elements fn st else st
      else if match elements with Some f => isIndexableList v && f key | None => false end then
        let '(st, on) := ForEachIndexableElementKey v (fun st vk => fn st key vk) st in
        if on then forEachIndexKey ps' elements fn st else st
      else forEachIndexKey ps' elements fn st
  end.
End ValueKeys.

Section Match.
Context (FormatFloat : Z -> Z -> bytes).

Definition search_body (targetKey : bytes) (_ : bool) (vk : bytes) : bool * bool :=
  let found := bool_decide (vk = targetKey) in (found, negb found).

Definition IndexableValueHasKey (v : value) (elements : bool) (targetKey : bytes) : bool :=
  if bool_decide (targetKey = []) then false
  else
    let vk := IndexablePropertyValueKey FormatFloat v in
    if negb (bool_decide (vk = [])) || negb elements then bool_decide (vk = targetKey)
    else fst (ForEachIndexableElementKey FormatFloat v (search_body targetKey) false).

Definition hasIndexKey (ps : PropertySlice) (key : bytes) (elements : bool) (targetKey : bytes) : bool :=
  match borrow ps key with Some v => IndexableValueHasKey v elements targetKey | None => false end.
End Match.

(** ** Equality of scalars ([PropertyValueEqual] on them) *)

Definition floatPropertyValueEqual (w a b : Z) : bool :=
  (negb (float_is_nan w a) && negb (float_is_nan w b) && ((a =? b) || (float_is_zero w a && float_is_zero w b)))
  || (float_is_nan w a && float_is_nan w b).

(** Values of one type; lists, maps and structs are not scalars. *)
Definition scalarEqual (cur expected : value) : bool :=
  match cur, expected with
  | VString a, VString b => bool_decide (a = b)
  | VTemporal k a, VTemporal k' b => (k =? k') && bool_decide (a = b)
  | VNum TFloat32 a, VNum TFloat32 b => floatPropertyValueEqual 32 a b
  | VNum TFloat64 a, VNum TFloat64 b => floatPropertyValueEqual 64 a b
  | VNum t a, VNum t' b => bool_decide (t = t') && (a =? b)
  | VBool a, VBool b => Bool.eqb a b
  | _, _ => false
  end.

(** ** Decimals read back *)

Lemma parse_render fuel : forall n acc, 0 <= n < 10 ^ Z.of_nat fuel -> parse_digits (digits fuel n acc) 0 = parse_digits acc n.
Proof.
  induction fuel as [|fuel IH]; intros n acc Hn; [cbn in Hn; assert (n = 0) as -> by lia; done|]. cbn [digits].
  rewrite Nat2Z.inj_succ, Z.pow_succ_r in Hn by lia. pose proof (Z.mod_pos_bound n 10). pose proof (Z.div_mod n 10).
  assert (Hd : forall a, parse_digits ((48 + n mod 10) :: acc) a = parse_digits acc (a * 10 + n mod 10)).
  { intros a. cbn [parse_digits]. replace ((48 <=? 48 + n mod 10) && (48 + n mod 10 <=? 57)) with true by lia. f_equal. lia. }
  destruct (Z.ltb_spec n 10).
  - rewrite Hd, Z.mod_small by lia. f_equal.
  - rewrite IH, Hd by (split; [apply Z.div_pos|apply Z.div_lt_upper_bound]; lia). f_equal. lia.
Qed.

(** A rendering starts with a digit. *)
Lemma digits_head fuel : forall n c acc, 48 <= c <= 57 -> exists d l, digits fuel n (c :: acc) = d :: l /\ 48 <= d <= 57.
Proof.
  induction fuel as [|fuel IH]; intros n c acc Hc; [by exists c, acc|]. cbn [digits]. pose proof (Z.mod_pos_bound n 10). destruct (n <? 10).
  - exists (48 + n mod 10), (c :: acc). split; [done|lia].
  - apply IH. lia.
Qed.

Lemma FormatUint_head n : exists d l, FormatUint n = d :: l /\ 48 <= d <= 57.
Proof.
  unfold FormatUint. change (digits 20 n []) with (if n <? 10 then [48 + n mod 10] else digits 19 (n / 10) [48 + n mod 10]). pose proof (Z.mod_pos_bound n 10).
  destruct (n <? 10); [exists (48 + n mod 10), []; split; [done|lia]|]. apply digits_head. lia.
Qed.

Lemma ParseUint_Format n : 0 <= n < 2 ^ 64 -> ParseUint (FormatUint n) = Some n.
Proof.
  intros Hn. destruct (FormatUint_head n) as (d & l & E & _). unfold ParseUint. rewrite E, <- E. unfold FormatUint. rewrite parse_render by lia. cbn [parse_digits].
  by replace (n <? 2 ^ 64) with true by lia.
Qed.

Lemma ParseInt_digit d l : 48 <= d <= 57 -> ParseInt (d :: l) = match ParseUint (d :: l) with Some n => if 2 ^ 63 <=? n then None else Some n | None => None end.
Proof. intros Hd. destruct d as [|p|p]; try lia. repeat (destruct p as [p|p|]; try lia; try reflexivity). Qed.

Lemma ParseInt_Format n : in_i64 n -> ParseInt (FormatInt n) = Some n.
Proof.
  unfold in_i64, MinInt64, MaxInt64. intros Hn. unfold FormatInt. destruct (Z.ltb_spec n 0).
  - unfold ParseInt. rewrite ParseUint_Format by lia. cbn [negb andb]. replace (2 ^ 63 <? - n) with false by lia. f_equal. lia.
  - destruct (FormatUint_head n) as (d & l & E & Hd). rewrite E, ParseInt_digit, <- E, ParseUint_Format by (done || lia). by replace (2 ^ 63 <=? n) with false by lia.
Qed.

(** ** Tags and payloads *)

Definition no_colon (s : bytes) : Prop := Forall (fun c => c <> 58) s.

Lemma cut_colon_app tag p : no_colon tag -> cut_colon (tag ++ 58 :: p) = Some (tag, p).
Proof. induction 1 as [|c tag Hc _ IH]; [done|]. cbn [app cut_colon]. replace (c =? 58) with false by lia. by rewrite IH. Qed.

(** Numbers are bits of their width. *)
Definition num_fits (ty : numType) (n : Z) : Prop :=
  0 <= n < 2 ^ match ty with TInt8 | TUint8 => 8 | TInt16 | TUint16 => 16 | TInt32 | TUint32 | TFloat32 => 32 | _ => 64 end.

Definition scalar_fits (v : value) : Prop :=
  match v with VNum ty n => num_fits ty n | VTemporal kind _ => 0 <= kind < 256 | _ => True end.

Definition float_bits (w n : Z) : Prop := (w = 32 \/ w = 64) /\ 0 <= n < 2 ^ w.

Definition num_name (ty : numType) : bytes :=
  bytes_of_string match ty with
    | TInt => "i" | TInt8 => "i8" | TInt16 => "i16" | TInt32 => "i32" | TInt64 => "i64"
    | TUint => "u" | TUint8 => "u8" | TUint16 => "u16" | TUint32 => "u32" | TUint64 => "u64"
    | TFloat32 => "f32" | TFloat64 => "f64"
    end%string.

Lemma signed_range w n : 0 < w -> 0 <= n < 2 ^ w -> - 2 ^ (w - 1) <= signed w n < 2 ^ (w - 1).
Proof. intros Hw Hn. unfold signed. assert (2 ^ w = 2 * 2 ^ (w - 1)) by (rewrite <- Z.pow_succ_r by lia; f_equal; lia). destruct (Z.ltb_spec n (2 ^ (w - 1))); lia. Qed.

Lemma signed_inj w a b : 0 < w -> 0 <= a < 2 ^ w -> 0 <= b < 2 ^ w -> signed w a = signed w b -> a = b.
Proof.
  intros Hw Ha Hb. unfold signed. assert (2 ^ w = 2 * 2 ^ (w - 1)) by (rewrite <- Z.pow_succ_r by lia; f_equal; lia).
  destruct (Z.ltb_spec a (2 ^ (w - 1))), (Z.ltb_spec b (2 ^ (w - 1))); lia.
Qed.

Lemma FormatInt_inj a b : in_i64 a -> in_i64 b -> FormatInt a = FormatInt b -> a = b.
Proof. intros Ha Hb E. apply (f_equal ParseInt) in E. rewrite !ParseInt_Format in E by done. congruence. Qed.

Lemma FormatUint_inj a b : 0 <= a < 2 ^ 64 -> 0 <= b < 2 ^ 64 -> FormatUint a = FormatUint b -> a = b.
Proof. intros Ha Hb E. apply (f_equal ParseUint) in E. rewrite !ParseUint_Format in E by done. congruence. Qed.

Lemma signed_i64 w n : 0 < w <= 64 -> 0 <= n < 2 ^ w -> in_i64 (signed w n).
Proof.
  intros Hw Hn. pose proof (signed_range w n ltac:(lia) Hn). pose proof (Z.pow_le_mono_r 2 (w - 1) 63 ltac:(lia) ltac:(lia)). unfold in_i64, MinInt64, MaxInt64. lia.
Qed.

Lemma signed_payload w a b : 0 < w <= 64 -> 0 <= a < 2 ^ w -> 0 <= b < 2 ^ w -> FormatInt (signed w a) = FormatInt (signed w b) <-> a = b.
Proof.
  intros Hw Ha Hb. split; [|by intros ->]. intros E. apply (signed_inj w); [lia|done|done|]. apply FormatInt_inj; [by apply signed_i64|by apply signed_i64|done].
Qed.

Lemma digits_no_colon fuel : forall n acc, no_colon acc -> no_colon (digits fuel n acc).
Proof.
  induction fuel as [|fuel IH]; intros n acc Ha; [done|]. cbn [digits]. pose proof (Z.mod_pos_bound n 10). destruct (n <? 10); [|apply IH]; constructor; done || lia.
Qed.

Section Keys.
Context (FormatFloat : Z -> Z -> bytes) (ParseFloat : Z -> bytes -> option Z).

(** What [strconv] promises of a width: formatting reads back, and the two special
    renderings parse to zero and to a NaN. *)
Hypothesis format_parses : forall w n, float_bits w n -> float_is_nan w n = false -> ParseFloat w (FormatFloat w n) = Some n.
Hypothesis zero_parses : forall w, w = 32 \/ w = 64 -> ParseFloat w (bytes_of_string "0") = Some 0.
Hypothesis nan_parses : forall w, w = 32 \/ w = 64 -> exists n, ParseFloat w (bytes_of_string "nan") = Some n /\ float_is_nan w n = true.

Notation key := (IndexablePropertyValueKey FormatFloat).

Definition float_payload (w n : Z) : bytes :=
  if float_is_zero w n then bytes_of_string "0" else if float_is_nan w n then bytes_of_string "nan" else FormatFloat w n.

Definition payload (ty : numType) (n : Z) : bytes :=
  match ty with
  | TInt | TInt64 => FormatInt (signed 64 n) | TInt8 => FormatInt (signed 8 n) | TInt16 => FormatInt (signed 16 n) | TInt32 => FormatInt (signed 32 n)
  | TFloat32 => float_payload 32 n | TFloat64 => float_payload 64 n
  | _ => FormatUint n
  end.

(** A scalar's tag and payload. *)
Definition tagged (v : value) : option (bytes * bytes) :=
  match v with
  | VString s => Some (bytes_of_string "s", s)
  | VTemporal kind s => Some (bytes_of_string "tv", FormatUint kind ++ [58] ++ s)
  | VNum ty n => Some (num_name ty, payload ty n)
  | VBool b => Some (bytes_of_string "b", bytes_of_string (if b then "true" else "false")%string)
  | _ => None
  end.

Lemma key_tagged v : key v = match tagged v with Some (t, p) => t ++ 58 :: p | None => [] end.
Proof.
  destruct v as [|b|s|ty n|k s| | | | | | | | |]; try done; [by destruct b|]. unfold IndexablePropertyValueKey, tagged, payload, float_payload. destruct ty; try done.
  - by destruct (float_is_zero 32 n), (float_is_nan 32 n).
  - by destruct (float_is_zero 64 n), (float_is_nan 64 n).
Qed.

Lemma tagged_no_colon v t p : tagged v = Some (t, p) -> no_colon t.
Proof. destruct v as [|b|s|ty n|k s| | | | | | | | |]; try done; cbn [tagged]; intros [= <- <-]; try destruct ty; cbn; repeat (constructor; [done|]); constructor. Qed.

(** Equal keys have equal tags and payloads. *)
Lemma key_eq_tagged v w : tagged v <> None -> key v = key w <-> tagged v = tagged w.
Proof.
  intros Hv. rewrite !key_tagged. destruct (tagged v) as [[t p]|] eqn:Ev; [|done]. destruct (tagged w) as [[t' p']|] eqn:Ew.
  - split; [|by intros [= <- <-]]. intros E. apply (f_equal cut_colon) in E. by rewrite !cut_colon_app in E by eauto using tagged_no_colon.
  - split; [|done]. intros E. by destruct t.
Qed.

Lemma float_payload_eq w a b : float_bits w a -> float_bits w b -> float_payload w a = float_payload w b <-> floatPropertyValueEqual w a b = true.
Proof.
  intros Ha Hb. pose proof (proj1 Ha) as Hw. assert (Hz : float_is_nan w 0 = false) by (by destruct Hw as [->| ->]).
  unfold float_payload, floatPropertyValueEqual. destruct (nan_parses w Hw) as (nan & Hn & Hnan).
  assert (Hzn : forall n, float_is_zero w n = true -> float_is_nan w n = false).
  { intros n. unfold float_is_zero, float_is_nan in *. rewrite Z.eqb_eq. intros ->. exact Hz. }
  assert (Hpz : forall n, float_bits w n -> float_is_zero w n = false -> float_is_nan w n = false -> FormatFloat w n <> bytes_of_string "0").
  { intros n Hb' H1 H2 E. apply (f_equal (ParseFloat w)) in E. rewrite format_parses, zero_parses in E by done. injection E as ->. unfold float_is_zero, float_magnitude in H1. by rewrite Zmod_0_l in H1. }
  assert (Hpn : forall n, float_bits w n -> float_is_nan w n = false -> FormatFloat w n <> bytes_of_string "nan").
  { intros n Hb' H2 E. apply (f_equal (ParseFloat w)) in E. rewrite format_parses, Hn in E by done. injection E as ->. congruence. }
  assert (Hff : float_is_nan w a = false -> float_is_nan w b = false -> FormatFloat w a = FormatFloat w b <-> a = b).
  { intros Na Nb. split; [|by intros ->]. intros E. apply (f_equal (ParseFloat w)) in E. rewrite !format_parses in E by done. congruence. }
  destruct (float_is_zero w a) eqn:Za; [rewrite (Hzn a Za)|destruct (float_is_nan w a) eqn:Na]; (destruct (float_is_zero w b) eqn:Zb; [rewrite (Hzn b Zb)|destruct (float_is_nan w b) eqn:Nb]);
    cbn [negb andb orb]; rewrite ?orb_true_r, ?orb_false_r, ?Z.eqb_eq.
  - done.
  - done.
  - split; [by intros E; destruct (Hpz b Hb Zb Nb)|intros ->; congruence].
  - done.
  - done.
  - split; [by intros E; destruct (Hpn b Hb Nb)|done].
  - split; [by intros E; destruct (Hpz a Ha Za Na)|intros ->; congruence].
  - split; [by intros E; destruct (Hpn a Ha Na)|done].
  - by apply Hff.
Qed.

Lemma key_iff_equal v w : scalar_fits v -> scalar_fits w -> key v <> [] -> key v = key w <-> scalarEqual v w = true.
Proof.
  intros Hv Hw Hk. assert (Ht : tagged v <> None) by (intros E; by rewrite key_tagged, E in Hk). rewrite (key_eq_tagged v w Ht). clear Hk.
  assert (Hname : forall t t', num_name t = num_name t' -> t = t') by (by intros [] []).
  destruct v as [|b|s|ty n|k s| | | | | | | | |], w as [|b'|s'|ty' n'|k' s'| | | | | | | | |]; try done; cbn [tagged scalarEqual].
  all: try (split; [intros E; injection E; intros; try destruct ty; try destruct ty'; discriminate|by try destruct ty; try destruct ty']).
  all: try (split; [done|by destruct ty]).
  - by destruct b, b'.
  - rewrite bool_decide_eq_true. split; congruence.
  - destruct (decide (ty = ty')) as [<-|Hne].
    + transitivity (match ty with TFloat32 => floatPropertyValueEqual 32 n n' = true | TFloat64 => floatPropertyValueEqual 64 n n' = true | _ => n = n' end).
      * transitivity (payload ty n = payload ty n'); [split; [by intros [= E]|by intros ->]|]. cbn [scalar_fits] in Hv, Hw. unfold num_fits in Hv, Hw.
        destruct ty; cbn [payload]; (by apply signed_payload; lia) || (by apply float_payload_eq; split; auto) || (split; [intros E; apply FormatUint_inj; [lia|lia|done]|by intros ->]).
      * destruct ty; try done; rewrite bool_decide_eq_true_2 by done; cbn [andb]; by rewrite Z.eqb_eq.
    + split; [intros E; injection E as E _; by apply Hname in E|]. destruct ty, ty'; try done.
  - rewrite andb_true_iff, Z.eqb_eq, bool_decide_eq_true. cbn [scalar_fits] in Hv, Hw. split; [|by intros [-> ->]]. intros E. injection E as E.
    assert (Hc : forall n, no_colon (FormatUint n)) by (intros; apply digits_no_colon; constructor).
    apply (f_equal cut_colon) in E. cbn [app] in E. rewrite !cut_colon_app in E by done. injection E as E ->. split; [|done]. apply FormatUint_inj; [lia|lia|done].
Qed.

(** Two scalars have the same index key exactly when compare-and-set calls them
    equal: one type, and equal contents, where the two zeros of a float are one and
    all NaNs are one.  So an equality lookup by key neither merges values that
    differ nor splits values that are equal. *)
Theorem value_key_exact v w : scalar_fits v -> scalar_fits w -> key v <> [] -> key v = key w <-> scalarEqual v w = true.
Proof. apply key_iff_equal. Qed.
End Keys.

(** A float syntax that reads back: the bits in decimal after an x. *)
Definition demo_format (w n : Z) : bytes := 120 :: FormatUint n.

Definition demo_parse (w : Z) (s : bytes) : option Z :=
  if bool_decide (s = bytes_of_string "0") then Some 0
  else if bool_decide (s = bytes_of_string "nan") then Some (float_inf w + 1)
  else match s with 120 :: d => ParseUint d | _ => None end.

Lemma demo_format_parses w n : float_bits w n -> float_is_nan w n = false -> demo_parse w (demo_format w n) = Some n.
Proof. intros [Hw Hn] _. unfold demo_parse, demo_format. rewrite !bool_decide_eq_false_2 by done. apply ParseUint_Format. destruct Hw as [->| ->]; lia. Qed.

Lemma demo_zero_parses w : w = 32 \/ w = 64 -> demo_parse w (bytes_of_string "0") = Some 0.
Proof. done. Qed.

Lemma demo_nan_parses w : w = 32 \/ w = 64 -> exists n, demo_parse w (bytes_of_string "nan") = Some n /\ float_is_nan w n = true.
Proof. intros Hw. exists (float_inf w + 1). by destruct Hw as [->| ->]. Qed.

Lemma value_key_exact_witness :
  let key := IndexablePropertyValueKey demo_format in
  (key (VNum TFloat64 0) = key (VNum TFloat64 (2 ^ 63)) <-> scalarEqual (VNum TFloat64 0) (VNum TFloat64 (2 ^ 63)) = true) /\
  (key (VNum TInt8 255) = key (VNum TInt 1) <-> scalarEqual (VNum TInt8 255) (VNum TInt 1) = true) /\
  scalarEqual (VNum TFloat64 0) (VNum TFloat64 (2 ^ 63)) = true.
Proof.
  split; [|split; [|reflexivity]]; apply (value_key_exact demo_format demo_parse demo_format_parses demo_zero_parses demo_nan_parses); try (cbn; unfold num_fits; lia); vm_compute; done.
Defined.

(** ** Elements *)

(** The callback on each key until it stops. *)
Fixpoint visit {S : Type} (fn : S -> bytes -> S * bool) (st : S) (l : list bytes) : S * bool :=
  match l with
  | [] => (st, true)
  | vk :: l' => let '(st, on) := fn st vk in if on then visit fn st l' else (st, false)
  end.

(** The first occurrence of every key; elements without a key are skipped. *)
Fixpoint first_keys (known : gset bytes) (l : list bytes) : list bytes :=
  match l with
  | [] => []
  | vk :: l' => if bool_decide (vk = [] \/ vk ∈ known) then first_keys known l' else vk :: first_keys ({[vk]} ∪ known) l'
  end.

Lemma first_keys_elem l : forall known vk, vk ∈ first_keys known l <-> vk ∈ l /\ vk <> [] /\ vk ∉ known.
Proof.
  induction l as [|k l IH]; intros known vk; cbn [first_keys].
  - split; [intros H; by apply not_elem_of_nil in H|]. intros [H _]. by apply not_elem_of_nil in H.
  - case_bool_decide as E; [rewrite IH, elem_of_cons; naive_solver|]. rewrite elem_of_cons, IH, elem_of_cons. destruct (decide (vk = k)) as [->|]; set_solver.
Qed.

Lemma first_keys_nodup l : forall known, NoDup (first_keys known l).
Proof.
  induction l as [|k l IH]; intros known; cbn [first_keys]; [constructor|]. case_bool_decide; [apply IH|]. apply NoDup_cons. split; [|apply IH].
  rewrite first_keys_elem. set_solver.
Qed.

Section Elements.
Context (FormatFloat : Z -> Z -> bytes).

Notation key := (IndexablePropertyValueKey FormatFloat).

Lemma forEachElementKey_visits {S} (fn : S -> bytes -> S * bool) elems : forall seen many st,
  forEachElementKey FormatFloat fn elems seen many st = visit fn st (first_keys (match many with Some m => m | None => list_to_set seen end) (map key elems)).
Proof.
  induction elems as [|e elems IH]; intros seen many st; [done|]. cbn [forEachElementKey map first_keys]. destruct (decide (key e = [])) as [E|E].
  { rewrite (bool_decide_eq_true_2 (key e = [])) by done. rewrite bool_decide_eq_true_2 by by left. apply IH. }
  rewrite (bool_decide_eq_false_2 (key e = [])) by done. destruct many as [m|].
  - destruct (decide (key e ∈ m)); [rewrite !bool_decide_eq_true_2 by (done || by right); apply IH|]. rewrite !bool_decide_eq_false_2 by naive_solver.
    cbn [visit]. destruct (fn st (key e)) as [st' []]; [apply IH|done].
  - destruct (decide (key e ∈ seen)); [rewrite !bool_decide_eq_true_2 by (done || set_solver); apply IH|]. rewrite !bool_decide_eq_false_2 by set_solver.
    cbn [visit]. destruct (_ <? _)%nat; destruct (fn st (key e)) as [st' []]; try done; rewrite IH; try done.
    do 2 f_equal. apply leibniz_equiv. set_solver.
Qed.

(** The keys of a property's value. *)
Definition value_keys (v : value) (elements : bool) : list bytes :=
  if bool_decide (key v = []) then (if elements then first_keys ∅ (map key (list_elems v)) else []) else [key v].

Lemma not_list_elems v : isIndexableList v = false -> list_elems v = [].
Proof. by destruct v as [| | | | | | |[]| | | | | |]. Qed.

Lemma element_keys_visited {S} v (fn : S -> bytes -> S * bool) st : ForEachIndexableElementKey FormatFloat v fn st = visit fn st (value_keys v true).
Proof.
  unfold ForEachIndexableElementKey, value_keys. case_bool_decide; cbn [negb].
  - destruct (isIndexableList v) eqn:E; [apply forEachElementKey_visits|]. by rewrite (not_list_elems v E).
  - cbn [visit]. by destruct (fn st _) as [? []].
Qed.

Lemma visit_collect l : forall acc, visit (fun ks vk => (ks ++ [vk], true)) acc l = (acc ++ l, true).
Proof. induction l as [|k l IH]; intros acc; cbn [visit]; [by rewrite app_nil_r|]. rewrite IH, <- app_assoc. done. Qed.

Lemma visit_search target l : fst (visit (search_body target) false l) = bool_decide (target ∈ l).
Proof.
  induction l as [|k l IH]; [by rewrite bool_decide_eq_false_2 by apply not_elem_of_nil|]. cbn [visit]. unfold search_body at 1. destruct (decide (k = target)) as [->|E].
  - rewrite (bool_decide_eq_true_2 (target = target)) by done. cbn [negb fst]. by rewrite bool_decide_eq_true_2 by left.
  - rewrite (bool_decide_eq_false_2 (k = target)) by done. cbn [negb]. rewrite IH. apply bool_decide_ext. rewrite elem_of_cons. naive_solver.
Qed.

(** The keys a property index is told for an entity's property (the scalar's key,
    or with Elements every element's) are distinct and not empty, and the match
    test of the index reads accepts a target key exactly when it is one of them. *)
Theorem index_match_exact ps propertyKey elements :
  let told := propertyIndexKeys FormatFloat ps propertyKey elements (fun ks vk => (ks ++ [vk], true)) [] in
  NoDup told /\ [] ∉ told /\ forall target, hasIndexKey FormatFloat ps propertyKey elements target = bool_decide (target ∈ told).
Proof.
  cbv zeta. unfold propertyIndexKeys, hasIndexKey. destruct (borrow ps propertyKey) as [v|].
  2:{ split; [constructor|]. split; [apply not_elem_of_nil|]. intros target. by rewrite bool_decide_eq_false_2 by apply not_elem_of_nil. }
  assert (Hk : (if negb elements then if negb (bool_decide (key v = [])) then fst (([] : list bytes) ++ [key v], true) else []
                else fst (ForEachIndexableElementKey FormatFloat v (fun ks vk => (ks ++ [vk], true)) [])) = value_keys v elements).
  { rewrite element_keys_visited, visit_collect. unfold value_keys. destruct elements; [done|]. by case_bool_decide. }
  rewrite Hk. assert (Hv : NoDup (value_keys v elements) /\ [] ∉ value_keys v elements).
  { unfold value_keys. case_bool_decide as E; [destruct elements; [split; [apply first_keys_nodup|rewrite first_keys_elem; tauto]|split; [constructor|apply not_elem_of_nil]]|].
    split; [apply NoDup_singleton|]. rewrite list_elem_of_singleton. congruence. }
  split; [apply Hv|]. split; [apply Hv|]. intros target. unfold IndexableValueHasKey. destruct (decide (target = [])) as [->|Et].
  { rewrite (bool_decide_eq_true_2 _ eq_refl). symmetry. apply bool_decide_eq_false_2, Hv. }
  rewrite (bool_decide_eq_false_2 (target = [])) by done.
  rewrite element_keys_visited, visit_search. unfold value_keys. case_bool_decide as E; cbn [negb orb].
  - destruct elements; cbn [negb]; [done|]. rewrite !bool_decide_eq_false_2; [done|apply not_elem_of_nil|congruence].
  - apply bool_decide_ext. rewrite list_elem_of_singleton. naive_solver.
Qed.
End Elements.
