(* ===== verification/Floats.v ===== *)
(** * Floats as integers of one unit

    The bits of an IEEE 754 float of either width, read as an exact number: every
    finite float64 and float32 is an integer multiple of 2^-1074, the least
    float64.  An infinity reads as the power of two after the largest finite float
    of its width, so the order of the numbers is the order of the floats.
    Conversions round to nearest, ties to even; the lemmas show when they are
    exact. *)

From S2P Require Import Prelude Bytes Keys ValueKeys.

(** Units per one. *)
Definition unit_one : Z := 2 ^ 1074.

(** The number of a magnitude (the bits without the sign) with [mb] mantissa bits,
    in the least float of its width. *)
Definition float_units (mb mag : Z) : Z :=
  let e := mag / 2 ^ mb in
  let m := mag mod 2 ^ mb in
  if e =? 0 then m else (2 ^ mb + m) * 2 ^ (e - 1).

(** [N / d] to the nearest integer, ties to even. *)
Definition rne (N d : Z) : Z :=
  let q := N / d in
  let r := N mod d in
  if (2 * r <? d) || ((2 * r =? d) && Z.even q) then q else q + 1.

(** The magnitude nearest to [N] in units 2^-sh of the width's least float. *)
Definition float_round (mb sh N : Z) : Z :=
  let k := Z.max 0 (Z.log2 N - sh - mb) in
  k * 2 ^ mb + rne N (2 ^ (k + sh)).

Definition with_sign (neg : bool) (u : Z) : Z := if neg then - u else u.

Definition float_neg (w bits : Z) : bool := 2 ^ (w - 1) <=? bits.

(** Units per least float of the width. *)
Definition float_scale (w : Z) : Z := if w =? 32 then 2 ^ 925 else 1.

Definition float_val (w bits : Z) : Z := with_sign (float_neg w bits) (float_units (float_mant_bits w) (float_magnitude w bits) * float_scale w).

Definition float_is_inf (w bits : Z) : bool := float_magnitude w bits =? float_inf w.

(** The sign and the magnitude put together. *)
Definition float_make (w : Z) (neg : bool) (mag : Z) : Z := (if neg then 2 ^ (w - 1) else 0) + mag.

(** [float64(x)] of a float32: exact. *)
Definition widen (bits : Z) : Z :=
  float_make 64 (float_neg 32 bits)
    (if float_is_nan 32 bits then float_inf 64 + 1
     else if float_is_inf 32 bits then float_inf 64
     else float_round 52 0 (float_units 23 (float_magnitude 32 bits) * 2 ^ 925)).

(** [float32(f)] of a float64: rounded, past the largest float32 an infinity. *)
Definition narrow (bits : Z) : Z :=
  float_make 32 (float_neg 64 bits)
    (if float_is_nan 64 bits then float_inf 32 + 1
     else Z.min (float_inf 32) (float_round 23 925 (float_units 52 (float_magnitude 64 bits)))).

(** What a float stands for. *)
Inductive num := NNaN | NInf (neg : bool) | NFin (u : Z).

#[export] Instance num_eq_dec : EqDecision num.
Proof. solve_decision. Defined.

Definition float_num (w bits : Z) : num :=
  if float_is_nan w bits then NNaN else if float_is_inf w bits then NInf (float_neg w bits) else NFin (float_val w bits).

(** ** Magnitudes *)

Lemma units_split mb k q : 0 <= mb -> 0 <= k -> 0 <= q <= 2 ^ (mb + 1) -> (k = 0 \/ 2 ^ mb <= q) ->
  float_units mb (k * 2 ^ mb + q) = q * 2 ^ k.
Proof.
  intros Hmb Hk Hq Hkq. pose proof (Z.pow_pos_nonneg 2 mb ltac:(lia) Hmb) as Hp. rewrite Z.pow_add_r, Z.pow_1_r in Hq by lia. unfold float_units.
  destruct (Z.lt_ge_cases q (2 ^ mb)) as [Hlt|Hge].
  - assert (k = 0) as -> by lia. rewrite Z.mul_0_l, Z.add_0_l, Z.div_small, Z.mod_small by lia. cbn. lia.
  - assert (Hcase : (q = 2 * 2 ^ mb) \/ q < 2 * 2 ^ mb) by lia. destruct Hcase as [->|Hq2].
    + replace (k * 2 ^ mb + 2 * 2 ^ mb) with ((k + 2) * 2 ^ mb) by lia. rewrite Z.div_mul, Z.mod_mul by lia. replace (k + 2 =? 0) with false by lia.
      replace (k + 2 - 1) with (Z.succ k) by lia. rewrite Z.pow_succ_r by lia. lia.
    + replace (k * 2 ^ mb + q) with ((q - 2 ^ mb) + (k + 1) * 2 ^ mb) by lia. rewrite Z.div_add, Z.mod_add, Z.div_small, Z.mod_small by lia.
      replace (0 + (k + 1) =? 0) with false by lia. replace (0 + (k + 1) - 1) with k by lia. f_equal. lia.
Qed.

Lemma rne_exact N d : 0 < d -> N mod d = 0 -> rne N d = N / d.
Proof. intros Hd Hr. unfold rne. rewrite Hr. by replace (2 * 0 <? d) with true by lia. Qed.

Lemma rne_0 d : 0 < d -> rne 0 d = 0.
Proof. intros Hd. rewrite rne_exact by (done || apply Zmod_0_l). apply Zdiv_0_l. Qed.

Lemma rne_range N d : 0 < d -> N / d <= rne N d <= N / d + 1.
Proof. intros Hd. unfold rne. destruct (_ || _); lia. Qed.

Lemma rne_scale N d c : 0 < d -> 0 < c -> rne (N * c) (d * c) = rne N d.
Proof.
  intros Hd Hc. unfold rne. rewrite Z.div_mul_cancel_r, Z.mul_mod_distr_r by lia. set (r := N mod d).
  assert ((2 * (r * c) <? d * c) = (2 * r <? d)) as -> by (destruct (Z.ltb_spec (2 * r) d); [apply Z.ltb_lt|apply Z.ltb_ge]; nia).
  by assert ((2 * (r * c) =? d * c) = (2 * r =? d)) as -> by (destruct (Z.eqb_spec (2 * r) d); [apply Z.eqb_eq|apply Z.eqb_neq]; nia).
Qed.

(** What rounding gives, as a multiple of a power of two. *)
Lemma round_value mb N : 0 <= mb -> 0 <= N ->
  let k := Z.max 0 (Z.log2 N - mb) in float_units mb (float_round mb 0 N) = rne N (2 ^ k) * 2 ^ k.
Proof.
  intros Hmb HN. cbv zeta. unfold float_round. rewrite Z.sub_0_r, Z.add_0_r. set (k := Z.max 0 (Z.log2 N - mb)). assert (Hk : 0 <= k) by lia.
  pose proof (Z.pow_pos_nonneg 2 k ltac:(lia) Hk) as Hd. pose proof (rne_range N (2 ^ k) Hd) as Hr. destruct (Z.eq_dec N 0) as [->|Hn].
  { replace k with 0 by (unfold k; cbn [Z.log2]; lia). rewrite rne_exact by done. rewrite Z.div_0_l by lia. apply units_split; [lia|lia| |by left]. split; [lia|]. apply Z.pow_nonneg. lia. }
  pose proof (Z.log2_spec N ltac:(lia)) as [H1 H2]. assert (Hq0 : 0 <= N / 2 ^ k) by (apply Z.div_pos; lia).
  assert (Hqlt : N / 2 ^ k < 2 ^ (mb + 1)).
  { apply Z.div_lt_upper_bound; [lia|]. rewrite <- Z.pow_add_r by lia. eapply Z.lt_le_trans; [exact H2|]. apply Z.pow_le_mono_r; lia. }
  apply units_split; [lia|done|lia|]. destruct (Z.eq_dec k 0) as [->|Hk0]; [by left|]. right. assert (k = Z.log2 N - mb) as Ek by lia.
  assert (2 ^ mb <= N / 2 ^ k); [|lia]. apply Z.div_le_lower_bound; [lia|]. rewrite <- Z.pow_add_r by lia. etransitivity; [|exact H1]. apply Z.pow_le_mono_r; lia.
Qed.

(** A number of at most [mb + 1] significant bits is a float. *)
Lemma round_exact mb m j : 0 <= mb -> 0 <= m < 2 ^ (mb + 1) -> 0 <= j -> float_units mb (float_round mb 0 (m * 2 ^ j)) = m * 2 ^ j.
Proof.
  intros Hmb Hm Hj. pose proof (Z.pow_pos_nonneg 2 j ltac:(lia) Hj) as Hpj. rewrite round_value by lia. set (k := Z.max 0 (Z.log2 (m * 2 ^ j) - mb)). assert (Hk : 0 <= k) by lia.
  pose proof (Z.pow_pos_nonneg 2 k ltac:(lia) Hk) as Hd. assert (Hdiv : (m * 2 ^ j) mod 2 ^ k = 0).
  { destruct (Z.eq_dec m 0) as [->|Hm0]; [by rewrite Z.mul_0_l, Z.mod_0_l by lia|]. assert (Hle : k <= j).
    { unfold k. rewrite Z.log2_mul_pow2 by lia. assert (Z.log2 m <= mb) by (assert (Z.log2 m < mb + 1) by (apply Z.log2_lt_pow2; lia); lia). lia. }
    replace j with ((j - k) + k) by lia. rewrite Z.pow_add_r, Z.mul_assoc by lia. apply Z.mod_mul. lia. }
  rewrite rne_exact by done. pose proof (Z.div_mod (m * 2 ^ j) (2 ^ k) ltac:(lia)). lia.
Qed.

Lemma units_form mb mag : 0 <= mb -> 0 <= mag -> exists m j, 0 <= m < 2 ^ (mb + 1) /\ 0 <= j /\ float_units mb mag = m * 2 ^ j.
Proof.
  intros Hmb Hmag. pose proof (Z.pow_pos_nonneg 2 mb ltac:(lia) Hmb) as Hp. pose proof (Z.mod_pos_bound mag (2 ^ mb) Hp). unfold float_units.
  rewrite Z.pow_add_r, Z.pow_1_r by lia. destruct (Z.eqb_spec (mag / 2 ^ mb) 0).
  - exists (mag mod 2 ^ mb), 0. split; [lia|]. split; [lia|]. cbn. lia.
  - exists (2 ^ mb + mag mod 2 ^ mb), (mag / 2 ^ mb - 1). pose proof (Z.div_pos mag (2 ^ mb) Hmag Hp). split; [lia|]. split; [lia|done].
Qed.

Lemma units_nonneg mb mag : 0 <= mb -> 0 <= mag -> 0 <= float_units mb mag.
Proof. intros Hmb Hmag. destruct (units_form mb mag Hmb Hmag) as (m & j & Hm & Hj & ->). pose proof (Z.pow_nonneg 2 j). nia. Qed.

Lemma units_step mb mag : 0 <= mb -> 0 <= mag -> float_units mb mag < float_units mb (mag + 1).
Proof.
  intros Hmb Hmag. pose proof (Z.pow_pos_nonneg 2 mb ltac:(lia) Hmb) as Hp. set (k := Z.max 0 (mag / 2 ^ mb - 1)). set (q := mag - k * 2 ^ mb).
  pose proof (Z.div_mod mag (2 ^ mb) ltac:(lia)) as Hdm. pose proof (Z.mod_pos_bound mag (2 ^ mb) Hp) as Hm. pose proof (Z.div_pos mag (2 ^ mb) Hmag Hp).
  assert (Hq : 0 <= q < 2 ^ (mb + 1)) by (rewrite Z.pow_add_r, Z.pow_1_r by lia; unfold q, k; nia). assert (Hkq : k = 0 \/ 2 ^ mb <= q) by (unfold q, k; nia).
  replace mag with (k * 2 ^ mb + q) by (unfold q; lia). replace (k * 2 ^ mb + q + 1) with (k * 2 ^ mb + (q + 1)) by lia.
  rewrite !units_split by (try lia; unfold k; lia). pose proof (Z.pow_pos_nonneg 2 k ltac:(lia) ltac:(lia)). nia.
Qed.

Lemma units_mono mb a b : 0 <= mb -> 0 <= a -> a < b -> float_units mb a < float_units mb b.
Proof.
  intros Hmb Ha. set (n := b - a - 1). replace b with (a + 1 + n) by lia. intros Hlt. assert (Hn : 0 <= n) by lia. clearbody n. clear Hlt b. revert n Hn.
  apply natlike_ind; [rewrite Z.add_0_r; by apply units_step|]. intros n Hn IH. eapply Z.lt_trans; [exact IH|]. replace (a + 1 + Z.succ n) with (a + 1 + n + 1) by lia.
  apply units_step; lia.
Qed.

Lemma units_inj mb a b : 0 <= mb -> 0 <= a -> 0 <= b -> float_units mb a = float_units mb b -> a = b.
Proof.
  intros Hmb Ha Hb E. destruct (Z.lt_trichotomy a b) as [H|[H|H]]; [|done|].
  - pose proof (units_mono mb a b Hmb Ha H). lia.
  - pose proof (units_mono mb b a Hmb Hb H). lia.
Qed.

Lemma round_nonneg mb sh N : 0 <= mb -> 0 <= sh -> 0 <= N -> 0 <= float_round mb sh N.
Proof.
  intros Hmb Hsh HN. unfold float_round. set (k := Z.max 0 (Z.log2 N - sh - mb)). pose proof (Z.pow_pos_nonneg 2 (k + sh) ltac:(lia) ltac:(lia)).
  pose proof (rne_range N (2 ^ (k + sh)) ltac:(lia)). pose proof (Z.div_pos N (2 ^ (k + sh)) HN ltac:(lia)). pose proof (Z.pow_nonneg 2 mb). nia.
Qed.

(** A float rounds to itself. *)
Lemma round_units mb mag : 0 <= mb -> 0 <= mag -> float_round mb 0 (float_units mb mag) = mag.
Proof.
  intros Hmb Hmag. pose proof (units_nonneg mb mag Hmb Hmag). apply (units_inj mb); [done|by apply round_nonneg|done|].
  destruct (units_form mb mag Hmb Hmag) as (m & j & Hm & Hj & ->). by apply round_exact.
Qed.

Lemma round_shift mb sh N : 0 <= mb -> 0 <= sh -> 0 <= N -> float_round mb sh (N * 2 ^ sh) = float_round mb 0 N.
Proof.
  intros Hmb Hsh HN. pose proof (Z.pow_pos_nonneg 2 sh ltac:(lia) Hsh) as Hp. destruct (Z.eq_dec N 0) as [->|Hn].
  { unfold float_round. rewrite Z.mul_0_l. change (Z.log2 0) with 0. replace (Z.max 0 (0 - sh - mb)) with 0 by lia. replace (Z.max 0 (0 - 0 - mb)) with 0 by lia.
    by rewrite !rne_0 by (apply Z.pow_pos_nonneg; lia). }
  unfold float_round. rewrite Z.log2_mul_pow2 by lia. replace (sh + Z.log2 N - sh - mb) with (Z.log2 N - 0 - mb) by lia. set (k := Z.max 0 (Z.log2 N - 0 - mb)).
  f_equal. rewrite Z.add_0_r, Z.pow_add_r by lia. apply rne_scale; [|done]. apply Z.pow_pos_nonneg; lia.
Qed.

(** ** Conversions *)

Lemma mag_range w bits : 0 < w -> 0 <= float_magnitude w bits < 2 ^ (w - 1).
Proof. intros Hw. apply Z.mod_pos_bound. apply Z.pow_pos_nonneg; lia. Qed.

Lemma make_parts w neg mag : 0 < w -> 0 <= mag < 2 ^ (w - 1) ->
  float_neg w (float_make w neg mag) = neg /\ float_magnitude w (float_make w neg mag) = mag /\ 0 <= float_make w neg mag < 2 ^ w.
Proof.
  intros Hw Hm. unfold float_neg, float_magnitude, float_make. assert (2 ^ w = 2 * 2 ^ (w - 1)) by (rewrite <- Z.pow_succ_r by lia; f_equal; lia). destruct neg.
  - split; [lia|]. split; [|lia]. replace (2 ^ (w - 1) + mag) with (mag + 1 * 2 ^ (w - 1)) by lia. rewrite Z.mod_add, Z.mod_small by lia. done.
  - split; [lia|]. split; [|lia]. rewrite Z.add_0_l, Z.mod_small by lia. done.
Qed.

Lemma make_num w neg mag : w = 32 \/ w = 64 -> 0 <= mag < 2 ^ (w - 1) ->
  float_num w (float_make w neg mag) =
    if float_inf w <? mag then NNaN else if mag =? float_inf w then NInf neg else NFin (with_sign neg (float_units (float_mant_bits w) mag * float_scale w)).
Proof.
  intros Hw Hm. destruct (make_parts w neg mag ltac:(lia) Hm) as (E1 & E2 & _). unfold float_num, float_is_nan, float_is_inf, float_val. by rewrite E1, E2.
Qed.

(** Every finite float32 is a float64 below the infinity. *)
Lemma f32_in_f64 mag : 0 <= mag < float_inf 32 ->
  exists mag', 0 <= mag' < float_inf 64 /\ float_units 52 mag' = float_units 23 mag * 2 ^ 925 /\ float_round 52 0 (float_units 23 mag * 2 ^ 925) = mag'.
Proof.
  intros Hm. destruct (units_form 23 mag ltac:(lia) ltac:(lia)) as (m & j & Hmm & Hj & E). set (N := float_units 23 mag * 2 ^ 925).
  assert (HN : N = m * 2 ^ (j + 925)) by (unfold N; rewrite E, Z.pow_add_r by lia; lia). exists (float_round 52 0 N).
  assert (Hv : float_units 52 (float_round 52 0 N) = N).
  { rewrite HN. apply round_exact; [lia| |lia]. split; [lia|]. eapply Z.lt_trans; [apply Hmm|]. apply Z.pow_lt_mono_r; lia. }
  assert (H0 : 0 <= N) by (rewrite HN; pose proof (Z.pow_nonneg 2 (j + 925)); nia). pose proof (round_nonneg 52 0 N ltac:(lia) ltac:(lia) H0) as Hr.
  split; [split; [done|]|done]. destruct (Z.lt_ge_cases (float_round 52 0 N) (float_inf 64)) as [|Hge]; [done|exfalso].
  assert (Hle : float_units 52 (float_inf 64) <= N).
  { rewrite <- Hv. destruct (Z.eq_dec (float_inf 64) (float_round 52 0 N)) as [<-|]; [done|]. apply Z.lt_le_incl, units_mono; [lia|done|lia]. }
  pose proof (units_mono 23 mag (float_inf 32) ltac:(lia) ltac:(lia) ltac:(lia)) as Hlt. assert (N < float_units 23 (float_inf 32) * 2 ^ 925) by (unfold N; apply Z.mul_lt_mono_pos_r; [lia|done]).
  assert (float_units 23 (float_inf 32) * 2 ^ 925 < float_units 52 (float_inf 64)) by (vm_compute; reflexivity). lia.
Qed.

Lemma bits_make w bits : 0 < w -> 0 <= bits < 2 ^ w -> bits = float_make w (float_neg w bits) (float_magnitude w bits).
Proof.
  intros Hw Hb. unfold float_make, float_neg, float_magnitude. assert (2 ^ w = 2 * 2 ^ (w - 1)) by (rewrite <- Z.pow_succ_r by lia; f_equal; lia).
  destruct (Z.leb_spec (2 ^ (w - 1)) bits).
  - replace bits with ((bits - 2 ^ (w - 1)) + 1 * 2 ^ (w - 1)) at 2 by lia. rewrite Z.mod_add, Z.mod_small by lia. lia.
  - rewrite Z.mod_small by lia. lia.
Qed.

(** A float converts to the other width as the number it stands for. *)
Lemma widen_num b : float_num 64 (widen b) = float_num 32 b.
Proof.
  unfold widen. pose proof (mag_range 32 b ltac:(lia)) as Hm. unfold float_num at 2, float_is_nan, float_is_inf.
  destruct (Z.ltb_spec (float_inf 32) (float_magnitude 32 b)) as [Hn|Hn].
  { rewrite make_num by (auto || (vm_compute; split; congruence)). done. }
  destruct (Z.eqb_spec (float_magnitude 32 b) (float_inf 32)) as [Hi|Hi].
  { rewrite make_num by (auto || (vm_compute; split; congruence)). done. }
  destruct (f32_in_f64 (float_magnitude 32 b) ltac:(lia)) as (mag' & Hmag & Hu & ->). rewrite make_num by (auto || (assert (float_inf 64 < 2 ^ (64 - 1)) by (vm_compute; reflexivity); lia)).
  replace (float_inf 64 <? mag') with false by lia. replace (mag' =? float_inf 64) with false by lia. unfold float_val. f_equal. f_equal. cbn [float_mant_bits float_scale Z.eqb]. 
  change (float_mant_bits 64) with 52. change (float_scale 64) with 1. change (float_mant_bits 32) with 23. change (float_scale 32) with (2 ^ 925). rewrite Hu. lia.
Qed.

Lemma mant_pos w : 0 <= float_mant_bits w.
Proof. unfold float_mant_bits. destruct (w =? 32); lia. Qed.

Lemma scale_pos w : 0 < float_scale w.
Proof. unfold float_scale. destruct (w =? 32); lia. Qed.

(** Equal numbers of one width are one float, signed zeros apart. *)
Lemma num_inj w a b : w = 32 \/ w = 64 -> 0 <= a < 2 ^ w -> 0 <= b < 2 ^ w -> float_num w a <> NNaN -> float_num w a = float_num w b -> floatPropertyValueEqual w a b = true.
Proof.
  intros Hw Ha Hb Hn E. unfold float_num in *. unfold floatPropertyValueEqual. destruct (float_is_nan w a) eqn:Na; [done|]. destruct (float_is_nan w b) eqn:Nb; [by destruct (float_is_inf w a)|].
  cbn [negb andb orb]. rewrite orb_false_r. rewrite (bits_make w a) at 1 by lia. rewrite (bits_make w b) at 1 by lia. unfold float_is_inf, float_is_zero in *.
  pose proof (mag_range w a ltac:(lia)). pose proof (mag_range w b ltac:(lia)). unfold float_val in E. set (A := float_magnitude w a) in *. set (B := float_magnitude w b) in *.
  destruct (Z.eqb_spec A (float_inf w)) as [EA|EA], (Z.eqb_spec B (float_inf w)) as [EB|EB]; try done.
  - injection E as E. rewrite EA, EB, E, Z.eqb_refl. done.
  - injection E as E. pose proof (mant_pos w). pose proof (units_nonneg (float_mant_bits w) A ltac:(lia) ltac:(lia)). pose proof (units_nonneg (float_mant_bits w) B ltac:(lia) ltac:(lia)).
    pose proof (scale_pos w). assert (Hz : float_units (float_mant_bits w) 0 = 0) by (by destruct Hw as [->| ->]). unfold with_sign in E.
    assert (HAB : A = B).
    { apply (units_inj (float_mant_bits w)); [lia|lia|lia|]. destruct (float_neg w a), (float_neg w b); nia. }
    rewrite HAB in *. destruct (float_neg w a) eqn:Sa, (float_neg w b) eqn:Sb; rewrite ?Z.eqb_refl; try done.
    + assert (float_units (float_mant_bits w) B = 0) as Hu by nia. assert (B = 0) as -> by (apply (units_inj (float_mant_bits w)); lia). by rewrite orb_true_r.
    + assert (float_units (float_mant_bits w) B = 0) as Hu by nia. assert (B = 0) as -> by (apply (units_inj (float_mant_bits w)); lia). by rewrite orb_true_r.
Qed.

Lemma equal_num w a b : w = 32 \/ w = 64 -> float_num w a <> NNaN -> floatPropertyValueEqual w a b = true -> float_num w a = float_num w b.
Proof.
  intros Hw Hn. unfold floatPropertyValueEqual, float_num in *. destruct (float_is_nan w a); [done|]. destruct (float_is_nan w b); [done|]. cbn [negb andb orb]. rewrite orb_false_r, orb_true_iff.
  intros [->%Z.eqb_eq|[Ha Hb]%andb_prop]; [done|]. unfold float_is_zero, float_is_inf, float_val in *. apply Z.eqb_eq in Ha, Hb. rewrite Ha, Hb.
  by destruct Hw as [->| ->], (float_neg _ a), (float_neg _ b).
Qed.

Lemma narrow_range f : 0 <= narrow f < 2 ^ 32 /\ (float_num 64 f <> NNaN -> float_num 32 (narrow f) <> NNaN).
Proof.
  unfold narrow. pose proof (mag_range 64 f ltac:(lia)) as Hm. pose proof (units_nonneg 52 (float_magnitude 64 f) ltac:(lia) ltac:(lia)) as Hu.
  pose proof (round_nonneg 23 925 _ ltac:(lia) ltac:(lia) Hu) as Hr. assert (Hinf : 0 < float_inf 32 /\ float_inf 32 + 1 < 2 ^ (32 - 1)) by (vm_compute; done).
  set (mag := if float_is_nan 64 f then float_inf 32 + 1 else _). assert (Hmag : 0 <= mag < 2 ^ (32 - 1)) by (unfold mag; destruct (float_is_nan 64 f); lia).
  split; [by apply make_parts|]. unfold float_num at 1. destruct (float_is_nan 64 f) eqn:E; [done|]. intros _. rewrite make_num by auto. unfold mag.
  replace (float_inf 32 <? _) with false by lia. by destruct (_ =? _).
Qed.

(** Narrowing is exact on the numbers float32 has. *)
Lemma narrow_num f b : float_num 64 f <> NNaN -> float_num 64 f = float_num 32 b -> float_num 32 (narrow f) = float_num 32 b.
Proof.
  intros Hn E. unfold narrow. pose proof (mag_range 64 f ltac:(lia)) as Hf. pose proof (mag_range 32 b ltac:(lia)) as Hb. assert (Hinf : 0 < float_inf 32 < 2 ^ (32 - 1)) by (vm_compute; done).
  unfold float_num at 1 in Hn. destruct (float_is_nan 64 f) eqn:Ef; [done|]. clear Hn. rewrite <- E. unfold float_num in E. rewrite Ef in E. unfold float_num at 2. rewrite Ef.
  destruct (float_is_inf 64 f) eqn:Ei.
  - unfold float_is_inf in Ei. apply Z.eqb_eq in Ei. rewrite Ei. assert (float_inf 32 <= float_round 23 925 (float_units 52 (float_inf 64))) as Hr by (vm_compute; congruence).
    rewrite Z.min_l by done. rewrite make_num by auto with lia. by replace (float_inf 32 <? float_inf 32) with false by lia; rewrite Z.eqb_refl.
  - unfold float_is_nan, float_is_inf in E. destruct (Z.ltb_spec (float_inf 32) (float_magnitude 32 b)); [done|]. destruct (Z.eqb_spec (float_magnitude 32 b) (float_inf 32)); [done|].
    injection E as E. unfold float_val in E |- *. change (float_mant_bits 64) with 52 in *. change (float_scale 64) with 1 in *. change (float_mant_bits 32) with 23 in *. change (float_scale 32) with (2 ^ 925) in *.
    set (F := float_magnitude 64 f) in *. set (B := float_magnitude 32 b) in *. pose proof (units_nonneg 52 F ltac:(lia) ltac:(lia)). pose proof (units_nonneg 23 B ltac:(lia) ltac:(lia)).
    assert (HF : float_units 52 F = float_units 23 B * 2 ^ 925) by (unfold with_sign in E; destruct (float_neg 64 f), (float_neg 32 b); nia).
    rewrite HF, round_shift, round_units, Z.min_r by lia. rewrite make_num by (auto || lia). replace (float_inf 32 <? B) with false by lia. replace (B =? float_inf 32) with false by lia.
    change (float_mant_bits 32) with 23. change (float_scale 32) with (2 ^ 925). by rewrite Z.mul_1_r.
Qed.

(** ** Integers *)

Lemma pos_round n : 0 <= n -> float64_of_pos n = float_round 52 0 (n * unit_one).
Proof.
  intros Hn. unfold float64_of_pos. destruct (Z.eqb_spec n 0) as [->|H0]; [vm_compute; reflexivity|]. unfold float_round, unit_one. rewrite Z.log2_mul_pow2 by lia.
  set (e := Z.log2 n). pose proof (Z.log2_nonneg n : 0 <= e) as He. replace (Z.max 0 (1074 + e - 0 - 52)) with (e + 1022) by lia. rewrite Z.add_0_r. cbv zeta. f_equal.
  destruct (Z.leb_spec e 52) as [Hle|Hgt].
  - rewrite Z.shiftl_mul_pow2 by lia. replace (n * 2 ^ 1074) with (n * 2 ^ (52 - e) * 2 ^ (e + 1022)) by (rewrite <- Z.mul_assoc, <- Z.pow_add_r by lia; do 2 f_equal; lia).
    assert (0 < 2 ^ (e + 1022)) by (apply Z.pow_pos_nonneg; lia). rewrite rne_exact by (done || (apply Z.mod_mul; lia)). by rewrite Z.div_mul by lia.
  - replace (e + 1022) with ((e - 52) + 1074) by lia. rewrite Z.pow_add_r by lia. rewrite rne_scale by (apply Z.pow_pos_nonneg; lia). done.
Qed.

(** The float64 of a 64-bit integer is a whole number, and the integer where float64
    has it. *)
Lemma int_num n : - 2 ^ 64 < n < 2 ^ 64 -> exists v, float_num 64 (float64_of_int n) = NFin (v * unit_one) /\ 0 <= float64_of_int n < 2 ^ 64 /\
  (forall b, float_num 64 b = NFin (n * unit_one) -> v = n).
Proof.
  intros Hn. set (a := Z.abs n). assert (Hmk : float64_of_int n = float_make 64 (n <? 0) (float_round 52 0 (a * unit_one))).
  { unfold float64_of_int, float_make, a. destruct (Z.ltb_spec n 0); rewrite pos_round by lia; [rewrite Z.abs_neq by lia|rewrite Z.abs_eq by lia]; done. }
  assert (Ha : 0 <= a < 2 ^ 64) by lia. assert (HU : 0 < unit_one) by done. set (N := a * unit_one) in *. assert (HN : 0 <= N) by nia.
  set (k := Z.max 0 (Z.log2 N - 52)). pose proof (round_value 52 N ltac:(lia) HN) as Hv. cbv zeta in Hv. fold k in Hv. set (q := rne N (2 ^ k)) in *.
  assert (Hlog : Z.log2 N <= 63 + 1074).
  { destruct (Z.eq_dec a 0) as [Ez|]; [unfold N; rewrite Ez; done|]. unfold N, unit_one. rewrite Z.log2_mul_pow2 by lia. assert (Z.log2 a < 64) by (apply Z.log2_lt_pow2; lia). lia. }
  assert (Hk : 0 <= k <= 1085) by lia. pose proof (Z.pow_pos_nonneg 2 k ltac:(lia) ltac:(lia)) as Hpk. pose proof (rne_range N (2 ^ k) Hpk) as Hq. fold q in Hq.
  assert (Hq53 : 0 <= q <= 2 ^ 53).
  { pose proof (Z.div_pos N (2 ^ k) HN Hpk). assert (N / 2 ^ k < 2 ^ 53); [|lia]. apply Z.div_lt_upper_bound; [lia|]. rewrite <- Z.pow_add_r by lia.
    destruct (Z.eq_dec N 0) as [->|]; [apply Z.pow_pos_nonneg; lia|]. eapply Z.lt_le_trans; [apply Z.log2_spec; lia|]. apply Z.pow_le_mono_r; lia. }
  assert (Hmag : float_round 52 0 N = k * 2 ^ 52 + q) by (unfold float_round, q; rewrite Z.sub_0_r, Z.add_0_r; done).
  assert (Hmr : 0 <= float_round 52 0 N < float_inf 64) by (rewrite Hmag; change (float_inf 64) with (2047 * 2 ^ 52); lia). clear Hmag.
  assert (Hw : exists c, q * 2 ^ k = c * unit_one).
  { destruct (Z.eq_dec a 0) as [Ez|Ez]; [exists 0; unfold q, N; rewrite Ez, Z.mul_0_l, rne_0 by done; done|].
    assert (Ek : k = 1022 + Z.log2 a) by (unfold k, N, unit_one; rewrite Z.log2_mul_pow2 by lia; pose proof (Z.log2_nonneg a); lia). destruct (Z.le_gt_cases k 1074) as [Hle|Hgt].
    - exists a. unfold q, N, unit_one. assert (E : a * 2 ^ 1074 = a * 2 ^ (1074 - k) * 2 ^ k) by (rewrite <- Z.mul_assoc, <- Z.pow_add_r by lia; do 2 f_equal; lia).
      rewrite E, rne_exact, Z.div_mul by (lia || (apply Z.mod_mul; lia)). done.
    - exists (q * 2 ^ (k - 1074)). unfold unit_one. rewrite <- Z.mul_assoc, <- Z.pow_add_r by lia. do 2 f_equal. lia. }
  destruct Hw as [c Hc]. exists (if n <? 0 then - c else c). rewrite Hmk. destruct (make_parts 64 (n <? 0) (float_round 52 0 N) ltac:(lia) ltac:(change (float_inf 64) with (2047 * 2 ^ 52) in Hmr; lia)) as (_ & _ & Hr).
  split; [|split; [done|]].
  - rewrite make_num by (auto || (change (float_inf 64) with (2047 * 2 ^ 52) in Hmr; lia)). replace (float_inf 64 <? float_round 52 0 N) with false by lia. replace (float_round 52 0 N =? float_inf 64) with false by lia.
    change (float_mant_bits 64) with 52. change (float_scale 64) with 1. rewrite Hv, Hc, Z.mul_1_r. unfold with_sign. f_equal. destruct (n <? 0); lia.
  - intros b Hb. unfold float_num in Hb. destruct (float_is_nan 64 b); [done|]. destruct (float_is_inf 64 b); [done|]. injection Hb as Hb. unfold float_val in Hb.
    change (float_mant_bits 64) with 52 in Hb. change (float_scale 64) with 1 in Hb. pose proof (mag_range 64 b ltac:(lia)) as Hm. pose proof (units_nonneg 52 _ ltac:(lia) (proj1 Hm)).
    assert (EN : N = float_units 52 (float_magnitude 64 b)) by (clear -Hb H HU; unfold N, a, with_sign in *; destruct (Z.abs_spec n) as [[? ->]|[? ->]], (float_neg 64 b); nia).
    rewrite EN, round_units, <- EN, Hc in Hv by lia. unfold N, a in Hv. assert (Z.abs n = c) by nia. destruct (Z.ltb_spec n 0); lia.
Qed.
