(* ===== verification/NumEqual.v ===== *)
(** * Property equality of numbers (pkg/types/property_equal.go)

    The equality doors compare numbers by their exact value across every stored
    width: a lookup value is expanded into the keys of all its equal forms.  The
    theorems show that the forms are exactly the values of the same number, that
    the comparison with a float bound is exact, and that the canonical key of the
    unique constraints is one per integer. *)

From S2P Require Import Prelude Bytes Props Keys ValueKeys Floats.

(** ** Floats as the code uses them *)

Definition f_lt (a b : Z) : bool := negb (float_is_nan 64 a) && negb (float_is_nan 64 b) && (float_val 64 a <? float_val 64 b).

Definition f_eq (a b : Z) : bool := negb (float_is_nan 64 a) && negb (float_is_nan 64 b) && (float_val 64 a =? float_val 64 b).

Definition f_ge (a b : Z) : bool := f_lt b a || f_eq a b.

Definition twoTo63 : Z := float64_of_int (2 ^ 63).

Definition twoTo64 : Z := float64_of_int (2 ^ 64).

Definition f_minus_twoTo63 : Z := float64_of_int (- 2 ^ 63).

(** [int64(f)] and [uint64(f)] of a float in their range. *)
Definition trunc_int (f : Z) : Z := Z.quot (float_val 64 f) unit_one.

(** [f == math.Trunc(f)]. *)
Definition f_whole (f : Z) : bool := float_val 64 f =? trunc_int f * unit_one.

(** An integer as the bits of a type. *)
Definition int_bits (w i : Z) : Z := i mod 2 ^ w.

(** ** Equal forms *)

Definition appendFloatWidths (out : list value) (f : Z) : list value :=
  let out := out ++ [VNum TFloat64 f] in
  let f32 := narrow f in
  if f_eq (widen f32) f then out ++ [VNum TFloat32 f32] else out.

Definition appendSignedWidths (out : list value) (i : Z) : list value :=
  let out := out ++ [VNum TInt64 (int_bits 64 i)] in
  let out := if (MinInt64 <=? i) && (i <=? MaxInt64) then out ++ [VNum TInt (int_bits 64 i)] else out in
  let out := if (- 2 ^ 31 <=? i) && (i <=? 2 ^ 31 - 1) then out ++ [VNum TInt32 (int_bits 32 i)] else out in
  let out := if (- 2 ^ 15 <=? i) && (i <=? 2 ^ 15 - 1) then out ++ [VNum TInt16 (int_bits 16 i)] else out in
  if (- 2 ^ 7 <=? i) && (i <=? 2 ^ 7 - 1) then out ++ [VNum TInt8 (int_bits 8 i)] else out.

Definition appendUnsignedWidths (out : list value) (u : Z) : list value :=
  let out := out ++ [VNum TUint64 u] in
  let out := if u <=? 2 ^ 64 - 1 then out ++ [VNum TUint u] else out in
  let out := if u <=? 2 ^ 32 - 1 then out ++ [VNum TUint32 (int_bits 32 u)] else out in
  let out := if u <=? 2 ^ 16 - 1 then out ++ [VNum TUint16 (int_bits 16 u)] else out in
  if u <=? 2 ^ 8 - 1 then out ++ [VNum TUint8 (int_bits 8 u)] else out.

Definition equalUint (u : Z) : list value :=
  let out := if u <=? MaxInt64 then appendSignedWidths [] u else [] in
  let out := appendUnsignedWidths out u in
  let f := float64_of_int u in
  if f_lt f twoTo64 && (trunc_int f =? u) then appendFloatWidths out f else out.

Definition equalInt (i : Z) : list value :=
  if 0 <=? i then equalUint i
  else
    let out := appendSignedWidths [] i in
    let f := float64_of_int i in
    if f_ge f f_minus_twoTo63 && (trunc_int f =? i) then appendFloatWidths out f else out.

Definition equalFloat (f : Z) : list value :=
  if float_is_nan 64 f then []
  else
    let out := appendFloatWidths [] f in
    if float_is_inf 64 f || negb (f_whole f) then out
    else if f_lt f 0 && f_ge f f_minus_twoTo63 then appendSignedWidths out (trunc_int f)
    else if f_ge f 0 && f_lt f twoTo64 then
      let u := trunc_int f in
      appendUnsignedWidths (if u <=? MaxInt64 then appendSignedWidths out u else out) u
    else out.

Section Equal.
Context (FormatFloat : Z -> Z -> bytes).

Definition EqualIndexValues (v : value) : list value :=
  match v with
  | VNil => []
  | VNum TInt n | VNum TInt64 n => equalInt (signed 64 n)
  | VNum TInt8 n => equalInt (signed 8 n)
  | VNum TInt16 n => equalInt (signed 16 n)
  | VNum TInt32 n => equalInt (signed 32 n)
  | VNum TFloat32 n => equalFloat (widen n)
  | VNum TFloat64 n => equalFloat n
  | VNum _ n => equalUint n
  | _ => if bool_decide (IndexablePropertyValueKey FormatFloat v = []) then [] else [v]
  end.

(** A nil slice is the empty one. *)
Definition EqualIndexKeys (v : value) : list bytes := map (IndexablePropertyValueKey FormatFloat) (EqualIndexValues v).

(** [NumericFloat64]: only whether it is a number. *)
Definition is_number (v : value) : bool := match v with VNum _ _ => true | _ => false end.

Definition NumericEqual (a b : value) : bool :=
  if negb (is_number b) then false else bool_decide (IndexablePropertyValueKey FormatFloat b ∈ EqualIndexKeys a).
End Equal.

(** ** Comparing with a bound *)

Definition compareFloat (a f : Z) : option Z :=
  if float_is_nan 64 a then None else if f_lt a f then Some (-1) else if f_lt f a then Some 1 else Some 0.

Definition compareInt (i f : Z) : Z :=
  if f_ge f twoTo63 then -1
  else if f_lt f f_minus_twoTo63 then 1
  else
    let ti := trunc_int f in
    if i <? ti then -1 else if i >? ti then 1
    else if float_val 64 f >? ti * unit_one then -1 else if float_val 64 f <? ti * unit_one then 1 else 0.

Definition compareUint (u f : Z) : Z :=
  if f_lt f 0 then 1
  else if f_ge f twoTo64 then -1
  else
    let tu := trunc_int f in
    if u <? tu then -1 else if u >? tu then 1
    else if float_val 64 f >? tu * unit_one then -1 else 0.

Definition CompareNumber (v : value) (f : Z) : option Z :=
  if float_is_nan 64 f then None
  else match v with
       | VNum TFloat32 n => compareFloat (widen n) f
       | VNum TFloat64 n => compareFloat n f
       | VNum TInt n | VNum TInt64 n => Some (compareInt (signed 64 n) f)
       | VNum TInt8 n => Some (compareInt (signed 8 n) f)
       | VNum TInt16 n => Some (compareInt (signed 16 n) f)
       | VNum TInt32 n => Some (compareInt (signed 32 n) f)
       | VNum _ n => Some (compareUint n f)
       | _ => None
       end.

(** ** One key per integer *)

Definition CanonicalIndexKey (vk : bytes) : bytes :=
  match cut_colon vk with
  | None => vk
  | Some (prefix, digits) =>
      if bool_decide (prefix = bytes_of_string "i") || bool_decide (prefix = bytes_of_string "i8")
         || bool_decide (prefix = bytes_of_string "i16") || bool_decide (prefix = bytes_of_string "i32") then
        match ParseInt digits with Some i => appendIntKey (bytes_of_string "i64:") i | None => vk end
      else if bool_decide (prefix = bytes_of_string "u") || bool_decide (prefix = bytes_of_string "u8") || bool_decide (prefix = bytes_of_string "u16")
              || bool_decide (prefix = bytes_of_string "u32") || bool_decide (prefix = bytes_of_string "u64") then
        match ParseUint digits with
        | Some u => if u <=? MaxInt64 then appendIntKey (bytes_of_string "i64:") u else appendUintKey (bytes_of_string "u64:") u
        | None => vk
        end
      else vk
  end.

(** ** The number of a value *)

Definition int_of (ty : numType) (n : Z) : option Z :=
  match ty with
  | TInt | TInt64 => Some (signed 64 n) | TInt8 => Some (signed 8 n) | TInt16 => Some (signed 16 n) | TInt32 => Some (signed 32 n)
  | TFloat32 | TFloat64 => None
  | _ => Some n
  end.

Definition num_of (ty : numType) (n : Z) : num :=
  match int_of ty n with
  | Some i => NFin (i * unit_one)
  | None => float_num (if bool_decide (ty = TFloat32) then 32 else 64) n
  end.

(** The integers of a type. *)
Definition in_type (ty : numType) (i : Z) : Prop :=
  match ty with
  | TInt | TInt64 => - 2 ^ 63 <= i < 2 ^ 63 | TInt8 => - 2 ^ 7 <= i < 2 ^ 7 | TInt16 => - 2 ^ 15 <= i < 2 ^ 15 | TInt32 => - 2 ^ 31 <= i < 2 ^ 31
  | TUint | TUint64 => 0 <= i < 2 ^ 64 | TUint8 => 0 <= i < 2 ^ 8 | TUint16 => 0 <= i < 2 ^ 16 | TUint32 => 0 <= i < 2 ^ 32
  | _ => False
  end.

Lemma unit_pos : 0 < unit_one.
Proof. done. Qed.

Lemma unit_cancel a b : a * unit_one = b * unit_one -> a = b.
Proof. pose proof unit_pos. nia. Qed.

#[global] Opaque unit_one.

Lemma int_of_range ty n i : num_fits ty n -> int_of ty n = Some i -> in_type ty i.
Proof.
  unfold num_fits. destruct ty; cbn [int_of in_type]; intros Hf E; try discriminate E; injection E as <-; first
    [exact Hf | exact (signed_range 64 n ltac:(lia) Hf) | exact (signed_range 8 n ltac:(lia) Hf) | exact (signed_range 16 n ltac:(lia) Hf) | exact (signed_range 32 n ltac:(lia) Hf)].
Qed.

Lemma signed_bits w i : 0 < w -> - 2 ^ (w - 1) <= i < 2 ^ (w - 1) -> signed w (int_bits w i) = i /\ 0 <= int_bits w i < 2 ^ w.
Proof.
  intros Hw Hi. unfold signed, int_bits. assert (H2 : 2 ^ w = 2 * 2 ^ (w - 1)) by (rewrite <- Z.pow_succ_r by lia; f_equal; lia). split; [|apply Z.mod_pos_bound; lia].
  destruct (Z.lt_ge_cases i 0).
  - replace (i mod 2 ^ w) with (i + 2 ^ w) by (apply (Z.mod_unique _ _ (-1)); lia). destruct (Z.ltb_spec (i + 2 ^ w) (2 ^ (w - 1))); lia.
  - rewrite Z.mod_small by lia. destruct (Z.ltb_spec i (2 ^ (w - 1))); lia.
Qed.

(** A list of forms of one number. *)
Definition forms_of (x : num) (l : list value) : Prop := forall w, w ∈ l -> exists ty n, w = VNum ty n /\ num_fits ty n /\ num_of ty n = x.

Definition has_type (l : list value) (ty : numType) : Prop := exists n, VNum ty n ∈ l.

Lemma forms_app x a b : forms_of x a -> forms_of x b -> forms_of x (a ++ b).
Proof. intros Ha Hb w [Hw|Hw]%elem_of_app; eauto. Qed.

Lemma forms_one x ty n : num_fits ty n -> num_of ty n = x -> forms_of x [VNum ty n].
Proof. intros Hf Hn w ->%list_elem_of_singleton. eauto. Qed.

Lemma forms_nil x : forms_of x [].
Proof. intros w Hw. by apply not_elem_of_nil in Hw. Qed.

Lemma has_app_l l l' ty : has_type l ty -> has_type (l ++ l') ty.
Proof. intros [n Hn]. exists n. apply elem_of_app. by left. Qed.

Lemma has_app_r l l' ty : has_type l' ty -> has_type (l ++ l') ty.
Proof. intros [n Hn]. exists n. apply elem_of_app. by right. Qed.

Lemma has_one ty n : has_type [VNum ty n] ty.
Proof. exists n. apply list_elem_of_here. Qed.


(** The widths as one concatenation. *)
Definition only (b : bool) (v : value) : list value := if b then [v] else [].

Lemma signed_widths out i : appendSignedWidths out i = out ++ [VNum TInt64 (int_bits 64 i)] ++ only ((MinInt64 <=? i) && (i <=? MaxInt64)) (VNum TInt (int_bits 64 i))
  ++ only ((- 2 ^ 31 <=? i) && (i <=? 2 ^ 31 - 1)) (VNum TInt32 (int_bits 32 i)) ++ only ((- 2 ^ 15 <=? i) && (i <=? 2 ^ 15 - 1)) (VNum TInt16 (int_bits 16 i))
  ++ only ((- 2 ^ 7 <=? i) && (i <=? 2 ^ 7 - 1)) (VNum TInt8 (int_bits 8 i)).
Proof. unfold appendSignedWidths, only. repeat case_match; by rewrite <- ?app_assoc, ?app_nil_r. Qed.

Lemma unsigned_widths out u : appendUnsignedWidths out u = out ++ [VNum TUint64 u] ++ only (u <=? 2 ^ 64 - 1) (VNum TUint u)
  ++ only (u <=? 2 ^ 32 - 1) (VNum TUint32 (int_bits 32 u)) ++ only (u <=? 2 ^ 16 - 1) (VNum TUint16 (int_bits 16 u)) ++ only (u <=? 2 ^ 8 - 1) (VNum TUint8 (int_bits 8 u)).
Proof. unfold appendUnsignedWidths, only. repeat case_match; by rewrite <- ?app_assoc, ?app_nil_r. Qed.

Lemma float_widths out f : appendFloatWidths out f = out ++ [VNum TFloat64 f] ++ only (f_eq (widen (narrow f)) f) (VNum TFloat32 (narrow f)).
Proof. unfold appendFloatWidths, only. case_match; by rewrite <- ?app_assoc, ?app_nil_r. Qed.

Lemma forms_only x (b : bool) v : (b = true -> forms_of x [v]) -> forms_of x (only b v).
Proof. destruct b; [auto|intros _; apply forms_nil]. Qed.

Lemma has_only (b : bool) ty n : b = true -> has_type (only b (VNum ty n)) ty.
Proof. intros ->. apply has_one. Qed.

Lemma signed_form ty w i : 0 < w -> - 2 ^ (w - 1) <= i < 2 ^ (w - 1) -> (forall n, 0 <= n < 2 ^ w -> num_fits ty n) -> (forall n, int_of ty n = Some (signed w n)) ->
  forms_of (NFin (i * unit_one)) [VNum ty (int_bits w i)].
Proof.
  intros Hw Hi Hf E. destruct (signed_bits w i Hw Hi) as [E1 E2]. apply forms_one; [by apply Hf|]. unfold num_of. by rewrite E, E1.
Qed.

Lemma unsigned_form ty w u : 0 <= u < 2 ^ w -> (forall n, 0 <= n < 2 ^ w -> num_fits ty n) -> (forall n, int_of ty n = Some n) ->
  forms_of (NFin (u * unit_one)) [VNum ty (int_bits w u)].
Proof. intros Hu Hf E. unfold int_bits. rewrite Z.mod_small by done. apply forms_one; [by apply Hf|]. unfold num_of. by rewrite E. Qed.

Lemma signed_forms out i : in_i64 i -> forms_of (NFin (i * unit_one)) out -> forms_of (NFin (i * unit_one)) (appendSignedWidths out i).
Proof.
  unfold in_i64, MinInt64, MaxInt64. intros Hi Hout. rewrite signed_widths.
  apply forms_app; [done|]. apply forms_app; [apply (signed_form _ 64); done || lia|]. apply forms_app; [apply forms_only; intros _; apply (signed_form _ 64); done || lia|].
  apply forms_app; [apply forms_only; intros Hb; apply (signed_form _ 32); done || lia|]. apply forms_app; apply forms_only; intros Hb; [apply (signed_form _ 16)|apply (signed_form _ 8)]; done || lia.
Qed.

Lemma unsigned_forms out u : 0 <= u < 2 ^ 64 -> forms_of (NFin (u * unit_one)) out -> forms_of (NFin (u * unit_one)) (appendUnsignedWidths out u).
Proof.
  intros Hu Hout. rewrite unsigned_widths. assert (H64 : int_bits 64 u = u) by (unfold int_bits; by rewrite Z.mod_small).
  apply forms_app; [done|]. apply forms_app; [rewrite <- H64 at 2; by apply (unsigned_form _ 64)|]. apply forms_app; [apply forms_only; intros _; rewrite <- H64 at 2; by apply (unsigned_form _ 64)|].
  apply forms_app; [apply forms_only; intros Hb; apply (unsigned_form _ 32); done || lia|]. apply forms_app; apply forms_only; intros Hb; [apply (unsigned_form _ 16)|apply (unsigned_form _ 8)]; done || lia.
Qed.

(** ** Floats in order *)

Lemma num_not_nan f : float_num 64 f <> NNaN <-> float_is_nan 64 f = false.
Proof. unfold float_num. destruct (float_is_nan 64 f); [done|]. by destruct (float_is_inf 64 f). Qed.

Lemma f_lt_val a b : float_num 64 a <> NNaN -> float_num 64 b <> NNaN -> f_lt a b = (float_val 64 a <? float_val 64 b).
Proof. intros Ha%num_not_nan Hb%num_not_nan. unfold f_lt. by rewrite Ha, Hb. Qed.

Lemma f_eq_val a b : float_num 64 a <> NNaN -> float_num 64 b <> NNaN -> f_eq a b = (float_val 64 a =? float_val 64 b).
Proof. intros Ha%num_not_nan Hb%num_not_nan. unfold f_eq. by rewrite Ha, Hb. Qed.

Lemma f_ge_val a b : float_num 64 a <> NNaN -> float_num 64 b <> NNaN -> f_ge a b = (float_val 64 b <=? float_val 64 a).
Proof.
  intros Ha Hb. unfold f_ge. rewrite f_lt_val, f_eq_val by done. destruct (Z.ltb_spec (float_val 64 b) (float_val 64 a)), (Z.eqb_spec (float_val 64 a) (float_val 64 b)); cbn [orb]; symmetry;
    try apply Z.leb_le; try apply Z.leb_gt; lia.
Qed.

Lemma num_val f x : float_num 64 f = NFin x -> float_val 64 f = x.
Proof. unfold float_num. destruct (float_is_nan 64 f); [done|]. destruct (float_is_inf 64 f); [done|]. by intros [= ->]. Qed.

(** An infinity is beyond every finite float. *)
Definition inf_val : Z := float_units 52 (float_inf 64).

Lemma num_cases f : float_num 64 f <> NNaN ->
  (exists neg, float_num 64 f = NInf neg /\ float_val 64 f = with_sign neg inf_val) \/ (float_num 64 f = NFin (float_val 64 f) /\ - inf_val < float_val 64 f < inf_val).
Proof.
  intros Hn%num_not_nan. unfold float_num. rewrite Hn. unfold float_is_nan in Hn. pose proof (mag_range 64 f ltac:(lia)) as Hm. unfold float_is_inf, float_val, inf_val.
  change (float_mant_bits 64) with 52. change (float_scale 64) with 1. rewrite !Z.mul_1_r. destruct (Z.eqb_spec (float_magnitude 64 f) (float_inf 64)) as [E|E].
  - left. exists (float_neg 64 f). by rewrite E.
  - right. split; [done|]. pose proof (units_mono 52 (float_magnitude 64 f) (float_inf 64) ltac:(lia) ltac:(lia) ltac:(lia)). pose proof (units_nonneg 52 (float_magnitude 64 f) ltac:(lia) ltac:(lia)).
    unfold with_sign. destruct (float_neg 64 f); lia.
Qed.

Lemma inf_val_pos : 2 ^ 65 * unit_one < inf_val.
Proof. vm_compute. reflexivity. Qed.

#[global] Opaque inf_val.

(** Comparing floats compares their numbers. *)
Lemma f_eq_num a b : float_num 64 a <> NNaN -> float_num 64 b <> NNaN -> f_eq a b = true <-> float_num 64 a = float_num 64 b.
Proof.
  intros Ha Hb. rewrite f_eq_val, Z.eqb_eq by done. pose proof inf_val_pos. pose proof unit_pos.
  destruct (num_cases a Ha) as [(na & -> & ->)|[-> Va]], (num_cases b Hb) as [(nb & -> & ->)|[-> Vb]]; unfold with_sign.
  - destruct na, nb; split; (done || lia).
  - split; [destruct na; lia|done].
  - split; [destruct nb; lia|done].
  - split; congruence.
Qed.

Lemma power_vals : float_val 64 twoTo63 = 2 ^ 63 * unit_one /\ float_val 64 twoTo64 = 2 ^ 64 * unit_one /\ float_val 64 f_minus_twoTo63 = - 2 ^ 63 * unit_one /\ float_val 64 0 = 0.
Proof. split_and!; vm_compute; reflexivity. Qed.

Lemma power_nums : float_num 64 twoTo63 <> NNaN /\ float_num 64 twoTo64 <> NNaN /\ float_num 64 f_minus_twoTo63 <> NNaN /\ float_num 64 0 <> NNaN.
Proof. split_and!; apply num_not_nan; vm_compute; reflexivity. Qed.

Lemma trunc_whole f i : float_val 64 f = i * unit_one -> trunc_int f = i /\ f_whole f = true.
Proof.
  intros E. pose proof unit_pos. assert (Ht : trunc_int f = i) by (unfold trunc_int; rewrite E; apply Z.quot_mul; lia). split; [done|]. unfold f_whole. rewrite Ht, E. apply Z.eqb_refl.
Qed.

Lemma float_forms out f x : 0 <= f < 2 ^ 64 -> float_num 64 f = x -> x <> NNaN -> forms_of x out -> forms_of x (appendFloatWidths out f).
Proof.
  intros Hf Hx Hn Hout. rewrite float_widths. apply forms_app; [done|]. apply forms_app; [by apply forms_one|]. apply forms_only. intros E. destruct (narrow_range f) as [Hr Hnn].
  apply forms_one; [done|]. cbn [num_of]. unfold num_of. cbn [int_of]. rewrite bool_decide_eq_true_2 by done. rewrite <- widen_num, <- Hx. apply f_eq_num; [rewrite widen_num; apply Hnn| |done]; congruence.
Qed.

Lemma has_signed out i ty : in_i64 i -> match ty with TInt | TInt64 | TInt8 | TInt16 | TInt32 => in_type ty i | _ => False end -> has_type (appendSignedWidths out i) ty.
Proof.
  unfold in_i64, MinInt64, MaxInt64. intros Hi Ht. rewrite signed_widths. apply has_app_r. destruct ty; try done; cbn [in_type] in Ht.
  - apply has_app_r, has_app_l, has_only. unfold MinInt64, MaxInt64. lia.
  - do 4 apply has_app_r. apply has_only. lia.
  - do 3 apply has_app_r. apply has_app_l, has_only. lia.
  - do 2 apply has_app_r. apply has_app_l, has_only. lia.
  - apply has_app_l, has_one.
Qed.

Lemma has_unsigned out u ty : 0 <= u < 2 ^ 64 -> match ty with TUint | TUint64 | TUint8 | TUint16 | TUint32 => in_type ty u | _ => False end -> has_type (appendUnsignedWidths out u) ty.
Proof.
  intros Hu Ht. rewrite unsigned_widths. apply has_app_r. destruct ty; try done; cbn [in_type] in Ht.
  - apply has_app_r, has_app_l, has_only. lia.
  - do 4 apply has_app_r. apply has_only. lia.
  - do 3 apply has_app_r. apply has_app_l, has_only. lia.
  - do 2 apply has_app_r. apply has_app_l, has_only. lia.
  - apply has_app_l, has_one.
Qed.

Lemma has_float out f ty n : ty = TFloat32 \/ ty = TFloat64 -> num_fits ty n -> float_num 64 f <> NNaN -> num_of ty n = float_num 64 f -> has_type (appendFloatWidths out f) ty.
Proof.
  intros Ht Hfit Hn E. rewrite float_widths. apply has_app_r. destruct Ht as [->| ->]; [|apply has_app_l, has_one]. apply has_app_r, has_only.
  apply f_eq_num; [rewrite widen_num; by apply narrow_range|done|]. rewrite widen_num, <- E. apply narrow_num; [done|]. by rewrite <- E.
Qed.

(** ** Forms of an integer *)

(** The number of a value of a float type, as a float64. *)
Lemma float_type_num ty n : ty = TFloat32 \/ ty = TFloat64 -> exists b, float_num 64 b = num_of ty n.
Proof. intros [->| ->]; [exists (widen n); apply widen_num|by exists n]. Qed.

Definition float_type (ty : numType) : bool := match ty with TFloat32 | TFloat64 => true | _ => false end.

(** Forms of [x] in exactly the types that have it. *)
Definition all_forms (x : num) (l : list value) : Prop := forms_of x l /\ forall ty n, num_fits ty n -> num_of ty n = x -> has_type l ty.

Lemma int_num_of ty n i : num_fits ty n -> float_type ty = false -> num_of ty n = NFin (i * unit_one) -> in_type ty i.
Proof.
  intros Hf Ht. unfold num_of. destruct (int_of ty n) as [j|] eqn:E; [|by destruct ty]. intros [= Ej%unit_cancel]. subst j. by apply (int_of_range ty n).
Qed.

Lemma equalUint_forms u : 0 <= u < 2 ^ 64 -> all_forms (NFin (u * unit_one)) (equalUint u).
Proof.
  intros Hu. unfold equalUint. cbv zeta. set (out := if u <=? MaxInt64 then _ else _). destruct (int_num u ltac:(lia)) as (v & Hv & Hr & Hex). set (f := float64_of_int u) in *.
  destruct power_vals as (_ & P64 & _). destruct power_nums as (_ & N64 & _). pose proof unit_pos. destruct (trunc_whole f v (num_val f _ Hv)) as [Ht _].
  rewrite f_lt_val, P64, (num_val f _ Hv), Ht by congruence.
  assert (Hout : forms_of (NFin (u * unit_one)) out).
  { unfold out. destruct (Z.leb_spec u MaxInt64); [|apply forms_nil]. apply signed_forms; [unfold in_i64, MinInt64; lia|apply forms_nil]. }
  pose proof (unsigned_forms out u Hu Hout) as Huns. split.
  - destruct ((v * unit_one <? 2 ^ 64 * unit_one) && (v =? u)) eqn:E; [|done]. apply andb_prop in E as [_ ->%Z.eqb_eq]. by apply float_forms.
  - intros ty n Hfit Hn. assert (Hint : float_type ty = false -> has_type (appendUnsignedWidths out u) ty).
    { intros Hty. pose proof (int_num_of ty n u Hfit Hty Hn) as Hin. destruct ty; try done; cbn [in_type] in Hin; try (by apply has_unsigned).
      all: rewrite unsigned_widths; apply has_app_l; unfold out; assert (u <=? MaxInt64 = true) as -> by (unfold MaxInt64; lia); apply has_signed; [unfold in_i64, MinInt64, MaxInt64; lia|exact Hin]. }
    destruct (float_type ty) eqn:Ety.
    + assert (Hf2 : ty = TFloat32 \/ ty = TFloat64) by (by destruct ty; auto). destruct (float_type_num ty n Hf2) as [b Hb]. assert (v = u) as -> by (apply (Hex b); congruence).
      assert (u * unit_one <? 2 ^ 64 * unit_one = true) as -> by (apply Z.ltb_lt; nia). rewrite Z.eqb_refl. cbn [andb]. apply (has_float _ _ ty n Hf2 Hfit); congruence.
    + destruct (_ && _); [rewrite float_widths; apply has_app_l|]; by apply Hint.
Qed.

Lemma equalInt_forms i : in_i64 i -> all_forms (NFin (i * unit_one)) (equalInt i).
Proof.
  unfold in_i64, MinInt64, MaxInt64. intros Hi. unfold equalInt. destruct (Z.leb_spec 0 i) as [H0|H0]; [apply equalUint_forms; lia|]. cbv zeta.
  destruct (int_num i ltac:(lia)) as (v & Hv & Hr & Hex). set (f := float64_of_int i) in *. destruct power_vals as (_ & _ & P63 & _). destruct power_nums as (_ & _ & N63 & _). pose proof unit_pos.
  destruct (trunc_whole f v (num_val f _ Hv)) as [Ht _]. rewrite f_ge_val, P63, (num_val f _ Hv), Ht by congruence.
  assert (Hs : forms_of (NFin (i * unit_one)) (appendSignedWidths [] i)) by (apply signed_forms; [done|apply forms_nil]). split.
  - destruct ((- 2 ^ 63 * unit_one <=? v * unit_one) && (v =? i)) eqn:E; [|done]. apply andb_prop in E as [_ ->%Z.eqb_eq]. by apply float_forms.
  - intros ty n Hfit Hn. destruct (float_type ty) eqn:Ety.
    + assert (Hf2 : ty = TFloat32 \/ ty = TFloat64) by (by destruct ty; auto). destruct (float_type_num ty n Hf2) as [b Hb]. assert (v = i) as -> by (apply (Hex b); congruence).
      assert (- 2 ^ 63 * unit_one <=? i * unit_one = true) as -> by (apply Z.leb_le; nia). rewrite Z.eqb_refl. cbn [andb]. apply (has_float _ _ ty n Hf2 Hfit); congruence.
    + pose proof (int_num_of ty n i Hfit Ety Hn) as Hin. assert (Hint : has_type (appendSignedWidths [] i) ty) by (destruct ty; try done; cbn [in_type] in Hin; (by apply has_signed) || lia).
      destruct (_ && _); [rewrite float_widths; by apply has_app_l|done].
Qed.

(** ** Forms of a float *)

Lemma whole_forms out t : forms_of (NFin (t * unit_one)) out ->
  (forall ty n, float_type ty = true -> num_fits ty n -> num_of ty n = NFin (t * unit_one) -> has_type out ty) ->
  all_forms (NFin (t * unit_one))
    (if (t <? 0) && (- 2 ^ 63 <=? t) then appendSignedWidths out t
     else if (0 <=? t) && (t <? 2 ^ 64) then appendUnsignedWidths (if t <=? MaxInt64 then appendSignedWidths out t else out) t
     else out).
Proof.
  intros Hout Hfl. unfold MaxInt64. set (l := if (t <? 0) && _ then _ else _). assert (Hl : forms_of (NFin (t * unit_one)) l /\ forall ty, has_type out ty -> has_type l ty).
  { unfold l. destruct (Z.ltb_spec t 0), (Z.leb_spec (- 2 ^ 63) t), (Z.leb_spec 0 t), (Z.ltb_spec t (2 ^ 64)); cbn [andb]; try lia; try done.
    - split; [apply signed_forms; [unfold in_i64, MinInt64, MaxInt64; lia|done]|]. intros ty. rewrite signed_widths. apply has_app_l.
    - split; [apply unsigned_forms; [lia|]; destruct (Z.leb_spec t (2 ^ 63 - 1)); [apply signed_forms; [unfold in_i64, MinInt64, MaxInt64; lia|done]|done]|].
      intros ty Hty. rewrite unsigned_widths. apply has_app_l. destruct (t <=? 2 ^ 63 - 1); [rewrite signed_widths; by apply has_app_l|done]. }
  split; [apply Hl|]. intros ty n Hfit Hnum. destruct (float_type ty) eqn:Ety; [apply Hl; by apply (Hfl ty n)|]. pose proof (int_num_of ty n t Hfit Ety Hnum) as Hin. unfold l. clear Hl l.
  destruct (Z.ltb_spec t 0), (Z.leb_spec (- 2 ^ 63) t), (Z.leb_spec 0 t), (Z.ltb_spec t (2 ^ 64)); cbn [andb]; try lia; destruct ty; try done; cbn [in_type] in Hin; try lia;
    try (apply has_signed; [unfold in_i64, MinInt64, MaxInt64; lia|exact Hin]); try (apply has_unsigned; [lia|exact Hin]).
  all: rewrite unsigned_widths; apply has_app_l; assert (t <=? 2 ^ 63 - 1 = true) as -> by lia; apply has_signed; [unfold in_i64, MinInt64, MaxInt64; lia|exact Hin].
Qed.

Lemma equalFloat_forms f : 0 <= f < 2 ^ 64 -> float_num 64 f <> NNaN -> all_forms (float_num 64 f) (equalFloat f).
Proof.
  intros Hf Hn. unfold equalFloat. pose proof Hn as Hnan%num_not_nan. rewrite Hnan. cbv zeta. set (out := appendFloatWidths [] f).
  assert (Hout : forms_of (float_num 64 f) out) by (apply float_forms; done || apply forms_nil). destruct power_vals as (_ & P64 & P63 & P0). destruct power_nums as (_ & N64 & N63 & N0).
  rewrite f_ge_val, (f_ge_val f 0), !f_lt_val, P64, P63, P0 by done. pose proof unit_pos. pose proof inf_val_pos.
  assert (Hfl : forall ty n, float_type ty = true -> num_fits ty n -> num_of ty n = float_num 64 f -> has_type out ty).
  { intros ty n Ety Hfit Hnum. apply (has_float _ _ ty n); [by destruct ty; auto|done|done|done]. }
  destruct (num_cases f Hn) as [(neg & E & _)|[E Hb]].
  - assert (float_is_inf 64 f = true) as -> by (unfold float_num in E; rewrite Hnan in E; by destruct (float_is_inf 64 f)). cbn [orb]. split; [done|]. intros ty n Hfit Hnum.
    destruct (float_type ty) eqn:Ety; [by apply (Hfl ty n)|]. rewrite E in Hnum. unfold num_of in Hnum. destruct (int_of ty n) eqn:Ei; [done|by destruct ty].
  - assert (float_is_inf 64 f = false) as -> by (unfold float_num in E; rewrite Hnan in E; by destruct (float_is_inf 64 f)). cbn [orb]. destruct (f_whole f) eqn:Ew; cbn [negb].
    + unfold f_whole in Ew. apply Z.eqb_eq in Ew. set (t := trunc_int f) in *. clearbody t. rewrite E, Ew in Hout, Hfl |- *.
      assert (H1 : (t * unit_one <? 0) = (t <? 0)) by (destruct (Z.ltb_spec t 0); [apply Z.ltb_lt|apply Z.ltb_ge]; nia).
      assert (H2 : (- 2 ^ 63 * unit_one <=? t * unit_one) = (- 2 ^ 63 <=? t)) by (destruct (Z.leb_spec (- 2 ^ 63) t); [apply Z.leb_le|apply Z.leb_gt]; nia).
      assert (H3 : (0 <=? t * unit_one) = (0 <=? t)) by (destruct (Z.leb_spec 0 t); [apply Z.leb_le|apply Z.leb_gt]; nia).
      assert (H4 : (t * unit_one <? 2 ^ 64 * unit_one) = (t <? 2 ^ 64)) by (destruct (Z.ltb_spec t (2 ^ 64)); [apply Z.ltb_lt|apply Z.ltb_ge]; nia).
      rewrite H1, H2, H3, H4. clear H1 H2 H3 H4. by apply whole_forms.
    + split; [done|]. intros ty n Hfit Hnum. destruct (float_type ty) eqn:Ety; [by apply (Hfl ty n)|]. exfalso. rewrite E in Hnum. unfold num_of in Hnum.
      destruct (int_of ty n) as [i|] eqn:Ei; [|by destruct ty]. injection Hnum as Hnum. destruct (trunc_whole f i) as [_ Hw]; [done|congruence].
Qed.

(** ** Equal numbers *)

Lemma scalar_num ty n ty' n' : num_of ty n <> NNaN -> scalarEqual (VNum ty n) (VNum ty' n') = true -> num_of ty n = num_of ty' n'.
Proof.
  intros Hn E. assert (Hsame : float_type ty = false -> float_type ty' = false -> ty = ty' /\ n = n').
  { intros H1 H2. destruct ty, ty'; try done; cbn [scalarEqual] in E; apply andb_prop in E as [E1%bool_decide_eq_true E2%Z.eqb_eq]; done. }
  destruct (float_type ty) eqn:E1, (float_type ty') eqn:E2.
  - destruct ty, ty'; try done; cbn [scalarEqual num_of] in *; [apply (equal_num 32)|apply (equal_num 64)]; auto.
  - by destruct ty, ty'.
  - by destruct ty, ty'.
  - by destruct (Hsame eq_refl eq_refl) as [-> ->].
Qed.

Lemma num_scalar ty n n' : num_fits ty n -> num_fits ty n' -> num_of ty n <> NNaN -> num_of ty n = num_of ty n' -> scalarEqual (VNum ty n) (VNum ty n') = true.
Proof.
  intros Hf Hf' Hn E. unfold num_fits in *. unfold num_of in E, Hn. destruct ty; cbn [int_of scalarEqual] in *; try (injection E as E%unit_cancel);
    try (rewrite bool_decide_eq_true_2 by done; cbn [andb]; apply Z.eqb_eq); try (by apply (num_inj 32); auto); try (by apply (num_inj 64); auto); try done.
  - by apply (signed_inj 64).
  - by apply (signed_inj 8).
  - by apply (signed_inj 16).
  - by apply (signed_inj 32).
  - by apply (signed_inj 64).
Qed.

Lemma widen_range b : 0 <= widen b < 2 ^ 64.
Proof.
  unfold widen. pose proof (mag_range 32 b ltac:(lia)) as Hm. assert (Hi : 0 < float_inf 64 /\ float_inf 64 + 1 < 2 ^ (64 - 1)) by (vm_compute; done).
  apply make_parts; [lia|]. unfold float_is_nan, float_is_inf. destruct (Z.ltb_spec (float_inf 32) (float_magnitude 32 b)); [lia|]. destruct (Z.eqb_spec (float_magnitude 32 b) (float_inf 32)); [lia|].
  destruct (f32_in_f64 (float_magnitude 32 b) ltac:(lia)) as (mag' & Hmag & _ & ->). lia.
Qed.

Section Equality.
Context (FormatFloat : Z -> Z -> bytes) (ParseFloat : Z -> bytes -> option Z).
Hypothesis format_parses : forall w n, float_bits w n -> float_is_nan w n = false -> ParseFloat w (FormatFloat w n) = Some n.
Hypothesis zero_parses : forall w, w = 32 \/ w = 64 -> ParseFloat w (bytes_of_string "0") = Some 0.
Hypothesis nan_parses : forall w, w = 32 \/ w = 64 -> exists n, ParseFloat w (bytes_of_string "nan") = Some n /\ float_is_nan w n = true.

Notation key := (IndexablePropertyValueKey FormatFloat).

Lemma value_forms ty n : num_fits ty n -> num_of ty n <> NNaN -> all_forms (num_of ty n) (EqualIndexValues FormatFloat (VNum ty n)).
Proof.
  unfold num_fits. intros Hf Hn. unfold num_of in *. destruct ty; cbn [int_of EqualIndexValues] in *;
    try (apply equalInt_forms; first [exact (signed_i64 64 n ltac:(lia) Hf)|exact (signed_i64 8 n ltac:(lia) Hf)|exact (signed_i64 16 n ltac:(lia) Hf)|exact (signed_i64 32 n ltac:(lia) Hf)]); try (apply equalUint_forms; lia).
  - rewrite bool_decide_eq_true_2 in Hn |- * by done. rewrite <- widen_num in Hn |- *. by apply equalFloat_forms; [apply widen_range|].
  - rewrite bool_decide_eq_false_2 in Hn |- * by done. by apply equalFloat_forms.
Qed.

Lemma nan_forms ty n : num_of ty n = NNaN -> EqualIndexValues FormatFloat (VNum ty n) = [].
Proof.
  unfold num_of. destruct ty; cbn [int_of EqualIndexValues]; try done.
  - rewrite bool_decide_eq_true_2 by done. rewrite <- widen_num. intros H. unfold equalFloat. destruct (float_is_nan 64 (widen n)) eqn:E; [done|]. by apply num_not_nan in E.
  - rewrite bool_decide_eq_false_2 by done. intros H. unfold equalFloat. destruct (float_is_nan 64 n) eqn:E; [done|]. by apply num_not_nan in E.
Qed.

Lemma num_key_not_nil ty n : key (VNum ty n) <> [].
Proof. rewrite key_tagged. cbn [tagged]. by destruct ty. Qed.

(** The equality of the doors: numbers by value, other scalars as stored. *)
Definition prop_equal (v w : value) : Prop :=
  match v, w with
  | VNum ty n, VNum ty' n' => num_of ty n = num_of ty' n' /\ num_of ty n <> NNaN
  | VNum _ _, _ => False
  | _, _ => scalarEqual v w = true
  end.

Lemma number_keys ty n w : num_fits ty n -> scalar_fits w -> key w ∈ EqualIndexKeys FormatFloat (VNum ty n) <-> prop_equal (VNum ty n) w.
Proof.
  intros Hf Hw. unfold EqualIndexKeys. destruct (decide (num_of ty n = NNaN)) as [Hnan|Hn].
  { rewrite (nan_forms _ _ Hnan). cbn [map]. split; [intros E; by apply not_elem_of_nil in E|]. by destruct w; cbn [prop_equal]; [..|intros [_ ?]| | | | | | | | | |]. }
  destruct (value_forms ty n Hf Hn) as [Hforms Hhas]. rewrite list_elem_of_fmap. split.
  - intros (x & Hk & Hx). destruct (Hforms x Hx) as (ty2 & n2 & -> & Hf2 & Hn2).
    assert (E : scalarEqual (VNum ty2 n2) w = true) by (apply (key_iff_equal FormatFloat ParseFloat format_parses zero_parses nan_parses); [done|done|apply num_key_not_nil|done]).
    destruct w as [|b|s|ty' n'|k s| | | | | | | | |]; try (by destruct ty2). cbn [prop_equal]. split; [|done]. rewrite <- Hn2. apply scalar_num; [congruence|done].
  - destruct w as [|b|s|ty' n'|k s| | | | | | | | |]; try done. cbn [prop_equal scalar_fits] in *. intros [E _]. destruct (Hhas ty' n' Hw (eq_sym E)) as [n2 Hin].
    destruct (Hforms _ Hin) as (ty3 & n3 & E3 & Hf3 & Hn3). injection E3 as <- <-. exists (VNum ty' n2). split; [|done].
    symmetry. apply (key_iff_equal FormatFloat ParseFloat format_parses zero_parses nan_parses); [done|done|apply num_key_not_nil|]. apply num_scalar; congruence.
Qed.

Lemma equal_keys_exact v w : scalar_fits v -> scalar_fits w -> key w <> [] -> key w ∈ EqualIndexKeys FormatFloat v <-> prop_equal v w.
Proof.
  intros Hv Hw Hne. destruct (is_number v) eqn:Env; [destruct v; try done; by apply number_keys|].
  assert (Hk : EqualIndexKeys FormatFloat v = if bool_decide (key v = []) then [] else [key v]) by (unfold EqualIndexKeys; destruct v; try done; cbn [EqualIndexValues]; by case_bool_decide).
  assert (Hp : prop_equal v w <-> scalarEqual v w = true) by (by destruct v). rewrite Hk, Hp. case_bool_decide as E.
  - split; [intros H; by apply not_elem_of_nil in H|]. intros H. exfalso. rewrite key_tagged in E. by destruct v as [|b|s|ty n|k s| | | | | | | | |].
  - rewrite list_elem_of_singleton. rewrite <- (key_iff_equal FormatFloat ParseFloat format_parses zero_parses nan_parses v w Hv Hw E). split; congruence.
Qed.

(** C24: The keys an equality door looks a number up under are those of exactly the
    stored numbers of the same exact value, of any integer or float width: nothing
    is rounded (2^53+1 is not the float 2^53), a float32 counts as its exact
    widening, the two zeros are equal, infinities equal themselves, and a NaN
    matches nothing. *)
Theorem equal_forms_exact ty n ty' n' : num_fits ty n -> num_fits ty' n' ->
  key (VNum ty' n') ∈ EqualIndexKeys FormatFloat (VNum ty n) <-> num_of ty n = num_of ty' n' /\ num_of ty n <> NNaN.
Proof. intros Hf Hf'. by apply (number_keys ty n (VNum ty' n')). Qed.

(** The keys are distinct: every form has its own type. *)
Definition form_type (v : value) : option numType := match v with VNum ty _ => Some ty | _ => None end.

Lemma key_type v w : key v = key w -> is_number v = true -> form_type v = form_type w.
Proof.
  intros E Hv. destruct v as [| | |ty n| | | | | | | | | |]; try done. assert (Ht : tagged FormatFloat (VNum ty n) <> None) by done. apply (key_eq_tagged FormatFloat _ w Ht) in E. cbn [tagged] in E.
  destruct w as [|b|s|ty' n'|k s| | | | | | | | |]; try (by destruct ty); try done. cbn [form_type]. cbn [tagged] in E. injection E as E _. f_equal. by destruct ty, ty'.
Qed.

Lemma distinct_types l : Forall (fun v => is_number v = true) l -> NoDup (map form_type l) -> NoDup (map key l).
Proof.
  induction l as [|v l IH]; intros Hn Hnd; [constructor|]. apply Forall_cons in Hn as [Hv Hn]. cbn [map] in *. apply NoDup_cons in Hnd as [Hx Hnd]. apply NoDup_cons. split; [|by apply IH].
  intros (w & E & Hw)%list_elem_of_fmap. apply Hx, list_elem_of_fmap. exists w. split; [by apply key_type|done].
Qed.

Definition signed_types : list (option numType) := map Some [TInt64; TInt; TInt32; TInt16; TInt8].
Definition unsigned_types : list (option numType) := map Some [TUint64; TUint; TUint32; TUint16; TUint8].
Definition float_types : list (option numType) := map Some [TFloat64; TFloat32].

Lemma only_type b ty n : map form_type (only b (VNum ty n)) `sublist_of` [Some ty].
Proof. destruct b; [done|apply sublist_nil_l]. Qed.

Lemma signed_types_of out i t : map form_type out `sublist_of` t -> map form_type (appendSignedWidths out i) `sublist_of` t ++ signed_types.
Proof.
  intros H. rewrite signed_widths, !map_app. apply sublist_app; [done|]. change signed_types with ([Some TInt64] ++ [Some TInt] ++ [Some TInt32] ++ [Some TInt16] ++ [Some TInt8]).
  repeat apply sublist_app; done || apply only_type.
Qed.

Lemma unsigned_types_of out u t : map form_type out `sublist_of` t -> map form_type (appendUnsignedWidths out u) `sublist_of` t ++ unsigned_types.
Proof.
  intros H. rewrite unsigned_widths, !map_app. apply sublist_app; [done|]. change unsigned_types with ([Some TUint64] ++ [Some TUint] ++ [Some TUint32] ++ [Some TUint16] ++ [Some TUint8]).
  repeat apply sublist_app; done || apply only_type.
Qed.

Lemma float_types_of out f t : map form_type out `sublist_of` t -> map form_type (appendFloatWidths out f) `sublist_of` t ++ float_types.
Proof.
  intros H. rewrite float_widths, !map_app. apply sublist_app; [done|]. change float_types with ([Some TFloat64] ++ [Some TFloat32]). repeat apply sublist_app; done || apply only_type.
Qed.

Definition int_first : list (option numType) := ((([] ++ signed_types) ++ unsigned_types) ++ float_types).
Definition float_first : list (option numType) := ((([] ++ float_types) ++ signed_types) ++ unsigned_types).

Lemma equalUint_types u : map form_type (equalUint u) `sublist_of` int_first.
Proof.
  unfold equalUint, int_first. cbv zeta. set (out := if u <=? MaxInt64 then _ else _). assert (Hout : map form_type out `sublist_of` [] ++ signed_types).
  { unfold out. destruct (u <=? MaxInt64); [by apply signed_types_of|apply sublist_nil_l]. }
  destruct (_ && _); [apply float_types_of|apply sublist_inserts_r]; by apply unsigned_types_of.
Qed.

Lemma equal_types ty n : exists t, t ∈ [int_first; float_first] /\ map form_type (EqualIndexValues FormatFloat (VNum ty n)) `sublist_of` t.
Proof.
  assert (HI : forall i, map form_type (equalInt i) `sublist_of` int_first).
  { intros i. unfold equalInt. destruct (0 <=? i); [apply equalUint_types|]. cbv zeta. unfold int_first. pose proof (signed_types_of [] i [] ltac:(done)) as Hs.
    destruct (_ && _); [apply float_types_of|apply sublist_inserts_r]; by apply sublist_inserts_r. }
  assert (HF : forall f, map form_type (equalFloat f) `sublist_of` float_first).
  { intros f. unfold equalFloat, float_first. destruct (float_is_nan 64 f); [apply sublist_nil_l|]. cbv zeta. pose proof (float_types_of [] f [] ltac:(done)) as Hf. set (out := appendFloatWidths [] f) in *.
    destruct (_ || _); [by apply sublist_inserts_r, sublist_inserts_r|]. destruct (_ && _); [apply sublist_inserts_r; by apply signed_types_of|].
    destruct (_ && _); [|by apply sublist_inserts_r, sublist_inserts_r]. apply unsigned_types_of. destruct (_ <=? _); [by apply signed_types_of|by apply sublist_inserts_r]. }
  destruct ty; cbn [EqualIndexValues]; first [exists int_first; split; [left|apply HI || apply equalUint_types]|exists float_first; split; [right; left|apply HF]].
Qed.

Lemma forms_numbers x l : forms_of x l -> Forall (fun v => is_number v = true) l.
Proof. intros H. apply Forall_forall. intros v Hv. by destruct (H v Hv) as (ty & n & -> & _). Qed.

Lemma equal_keys_nodup v : scalar_fits v -> NoDup (EqualIndexKeys FormatFloat v).
Proof.
  intros Hf. unfold EqualIndexKeys. destruct (is_number v) eqn:Env.
  - destruct v as [| | |ty n| | | | | | | | | |]; try done. destruct (decide (num_of ty n = NNaN)) as [E|E]; [rewrite (nan_forms ty n E); constructor|].
    apply distinct_types; [eapply forms_numbers, value_forms; done|]. destruct (equal_types ty n) as (t & Ht & Hs). eapply sublist_NoDup; [|exact Hs].
    apply elem_of_cons in Ht as [->|Ht]; [|apply list_elem_of_singleton in Ht as ->]; apply (bool_decide_eq_true_1 (NoDup _)); vm_compute; reflexivity.
  - destruct v; try done; cbn [EqualIndexValues]; try case_bool_decide; cbn [map]; (apply NoDup_singleton || constructor).
Qed.
End Equality.

Lemma equal_forms_exact_witness :
  (IndexablePropertyValueKey demo_format (VNum TFloat32 (float_make 32 false (128 * 2 ^ 23 + 2 ^ 22))) ∈ EqualIndexKeys demo_format (VNum TInt8 3) <->
    num_of TInt8 3 = num_of TFloat32 (float_make 32 false (128 * 2 ^ 23 + 2 ^ 22)) /\ num_of TInt8 3 <> NNaN) /\
  num_of TInt8 3 = num_of TFloat32 (float_make 32 false (128 * 2 ^ 23 + 2 ^ 22)) /\ num_of TInt64 (2 ^ 53 + 1) <> num_of TFloat64 (float64_of_int (2 ^ 53)).
Proof.
  split; [|split; [vm_compute; reflexivity|vm_compute; discriminate]].
  apply (equal_forms_exact demo_format demo_parse demo_format_parses demo_zero_parses demo_nan_parses); unfold num_fits; vm_compute; split; congruence.
Defined.

(** ** Comparisons are exact *)

(** The place of a number in the order. *)
Definition place (x : num) : Z := match x with NFin u => u | NInf neg => with_sign neg inf_val | NNaN => 0 end.

Lemma place_val f : float_num 64 f <> NNaN -> float_val 64 f = place (float_num 64 f).
Proof. intros Hn. destruct (num_cases f Hn) as [(neg & -> & ->)|[-> _]]; done. Qed.

Lemma sgn_cases a b c : (a < b -> c = -1) -> (a = b -> c = 0) -> (b < a -> c = 1) -> c = Z.sgn (a - b).
Proof.
  intros H1 H2 H3. destruct (Z.lt_trichotomy a b) as [H|[H|H]].
  - rewrite Z.sgn_neg by lia. auto.
  - rewrite H, Z.sub_diag. auto.
  - rewrite Z.sgn_pos by lia. auto.
Qed.

(** The truncated quotient and what it leaves. *)
Lemma trunc_spec f : exists r, float_val 64 f = trunc_int f * unit_one + r /\ - unit_one < r < unit_one /\ (0 <= float_val 64 f -> 0 <= r) /\ (float_val 64 f <= 0 -> r <= 0).
Proof.
  pose proof unit_pos as HU. set (v := float_val 64 f). exists (Z.rem v unit_one). unfold trunc_int. fold v. pose proof (Z.quot_rem' v unit_one). split; [lia|].
  assert (H0 : v = 0 -> Z.rem v unit_one = 0) by (intros ->; apply Z.rem_0_l; lia). clearbody v. destruct (Z.le_ge_cases 0 v).
  - pose proof (Z.rem_bound_pos v unit_one ltac:(lia) HU). split_and!; try lia.
  - pose proof (Z.rem_bound_pos (- v) unit_one ltac:(lia) HU) as Hr. rewrite Z.rem_opp_l in Hr by lia. split_and!; lia.
Qed.

Lemma compareInt_exact i f : in_i64 i -> float_num 64 f <> NNaN -> compareInt i f = Z.sgn (i * unit_one - float_val 64 f).
Proof.
  unfold in_i64, MinInt64, MaxInt64. intros Hi Hn. destruct power_vals as (P63 & _ & M63 & _). destruct power_nums as (N1 & _ & N2 & _). pose proof unit_pos as HU. unfold compareInt.
  rewrite f_ge_val, f_lt_val, P63, M63 by done. destruct (trunc_spec f) as (r & Hv & Hr & Hpos & Hneg). set (v := float_val 64 f) in *. set (t := trunc_int f) in *. clearbody v t.
  apply sgn_cases; intros Hc; destruct (Z.leb_spec (2 ^ 63 * unit_one) v), (Z.ltb_spec v (- 2 ^ 63 * unit_one)), (Z.ltb_spec i t); try nia; try done; rewrite Z.gtb_ltb;
    destruct (Z.ltb_spec t i); try nia; try done; rewrite Z.gtb_ltb; destruct (Z.ltb_spec (t * unit_one) v), (Z.ltb_spec v (t * unit_one)); nia || done.
Qed.

Lemma compareUint_exact u f : 0 <= u < 2 ^ 64 -> float_num 64 f <> NNaN -> compareUint u f = Z.sgn (u * unit_one - float_val 64 f).
Proof.
  intros Hu Hn. destruct power_vals as (_ & P64 & _ & P0). destruct power_nums as (_ & N1 & _ & N2). pose proof unit_pos as HU. unfold compareUint.
  rewrite f_ge_val, f_lt_val, P64, P0 by done. destruct (trunc_spec f) as (r & Hv & Hr & Hpos & Hneg). set (v := float_val 64 f) in *. set (t := trunc_int f) in *. clearbody v t.
  apply sgn_cases; intros Hc; destruct (Z.ltb_spec v 0), (Z.leb_spec (2 ^ 64 * unit_one) v), (Z.ltb_spec u t); try nia; try done; rewrite Z.gtb_ltb;
    destruct (Z.ltb_spec t u); try nia; try done; rewrite Z.gtb_ltb; destruct (Z.ltb_spec (t * unit_one) v); nia || done.
Qed.

(** The sign of the difference; none with a NaN. *)
Definition num_compare (x y : num) : option Z :=
  match x, y with NNaN, _ | _, NNaN => None | _, _ => Some (Z.sgn (place x - place y)) end.

Lemma num_compare_fin u f : float_num 64 f <> NNaN -> num_compare (NFin u) (float_num 64 f) = Some (Z.sgn (u - float_val 64 f)).
Proof. intros Hn. rewrite (place_val f Hn). unfold num_compare. by destruct (float_num 64 f). Qed.

Lemma compareFloat_exact a f : float_num 64 f <> NNaN -> compareFloat a f = num_compare (float_num 64 a) (float_num 64 f).
Proof.
  intros Hn. unfold compareFloat. destruct (decide (float_num 64 a = NNaN)) as [Ha|Ha].
  - rewrite Ha. destruct (float_is_nan 64 a) eqn:E; [done|]. by apply num_not_nan in E.
  - assert (float_is_nan 64 a = false) as -> by by apply num_not_nan. rewrite !f_lt_val, (place_val a Ha), (place_val f Hn) by done. unfold num_compare.
    set (p := place (float_num 64 a)). set (q := place (float_num 64 f)).
    assert (Hs : (if p <? q then Some (-1) else if q <? p then Some 1 else Some 0) = Some (Z.sgn (p - q))).
    { destruct (Z.ltb_spec p q); [by rewrite Z.sgn_neg by lia|]. destruct (Z.ltb_spec q p); [by rewrite Z.sgn_pos by lia|]. by replace (p - q) with 0 by lia. }
    rewrite Hs. clearbody p q. by destruct (float_num 64 a), (float_num 64 f).
Qed.

(** CompareNumber compares a stored number of any width with a float bound as exact
    numbers, the infinities beyond all others: an integer past 2^53 is not rounded
    first.  It declines exactly for a NaN on either side. *)
Theorem compare_number_exact ty n f : num_fits ty n -> CompareNumber (VNum ty n) f = num_compare (num_of ty n) (float_num 64 f).
Proof.
  unfold num_fits. intros Hf. unfold CompareNumber. destruct (decide (float_num 64 f = NNaN)) as [Hn|Hn].
  { rewrite Hn. destruct (float_is_nan 64 f) eqn:E; [by destruct (num_of ty n)|]. by apply num_not_nan in E. }
  assert (float_is_nan 64 f = false) as -> by by apply num_not_nan. unfold num_of. destruct ty; cbn [int_of].
  all: try (rewrite num_compare_fin by done; f_equal; first [apply compareUint_exact; [lia|done]|apply compareInt_exact; [|done]]; first
    [exact (signed_i64 64 n ltac:(lia) Hf)|exact (signed_i64 8 n ltac:(lia) Hf)|exact (signed_i64 16 n ltac:(lia) Hf)|exact (signed_i64 32 n ltac:(lia) Hf)]).
  - rewrite bool_decide_eq_true_2 by done. rewrite <- widen_num. by apply compareFloat_exact.
  - rewrite bool_decide_eq_false_2 by done. by apply compareFloat_exact.
Qed.

Lemma compare_number_exact_witness : CompareNumber (VNum TInt64 (2 ^ 53 + 1)) (float64_of_int (2 ^ 53)) = Some 1.
Proof. rewrite compare_number_exact by (unfold num_fits; lia). vm_compute. reflexivity. Defined.

(** ** The canonical key *)

Definition canonical_int_key (i : Z) : bytes := if i <=? MaxInt64 then appendIntKey (bytes_of_string "i64:") i else appendUintKey (bytes_of_string "u64:") i.

Lemma canonical_key FormatFloat ty n i : num_fits ty n -> int_of ty n = Some i -> CanonicalIndexKey (IndexablePropertyValueKey FormatFloat (VNum ty n)) = canonical_int_key i.
Proof.
  unfold num_fits. intros Hf Hi. rewrite key_tagged. cbn [tagged]. unfold CanonicalIndexKey, canonical_int_key.
  rewrite cut_colon_app by (destruct ty; repeat (constructor; [done|]); constructor). destruct ty; cbn [int_of payload] in *; try discriminate Hi; injection Hi as <-.
  all: try (rewrite ParseUint_Format by lia; reflexivity).
  all: try (match goal with Hf : 0 <= ?n < _ |- context [signed ?w ?n] => pose proof (signed_i64 w n ltac:(lia) Hf) as Hr end; replace (signed _ n <=? MaxInt64) with true by (unfold in_i64, MaxInt64, MinInt64 in *; lia);
            rewrite ParseInt_Format by exact Hr; reflexivity).
Qed.

Lemma canonical_inj i j : in_i64 i \/ 0 <= i < 2 ^ 64 -> in_i64 j \/ 0 <= j < 2 ^ 64 -> canonical_int_key i = canonical_int_key j -> i = j.
Proof.
  unfold canonical_int_key, in_i64, MinInt64, MaxInt64, appendIntKey, appendUintKey. intros Hi Hj E.
  destruct (Z.leb_spec i (2 ^ 63 - 1)), (Z.leb_spec j (2 ^ 63 - 1)); try (by discriminate E); injection E as E.
  - apply FormatInt_inj; [..|done]; unfold in_i64, MinInt64, MaxInt64; lia.
  - apply FormatUint_inj; [lia|lia|done].
Qed.

(** CanonicalIndexKey, under which the unique constraints hold a value, gives two
    integers of any widths one key exactly when they are the same integer. *)
Theorem canonical_key_exact FormatFloat ty n i ty' n' i' : num_fits ty n -> num_fits ty' n' -> int_of ty n = Some i -> int_of ty' n' = Some i' ->
  let canonical v := CanonicalIndexKey (IndexablePropertyValueKey FormatFloat v) in canonical (VNum ty n) = canonical (VNum ty' n') <-> i = i'.
Proof.
  intros Hf Hf' Hi Hi'. cbv beta zeta. rewrite (canonical_key _ ty n i), (canonical_key _ ty' n' i') by done. split; [|by intros ->].
  assert (Hr : forall t x, in_type t x -> in_i64 x \/ 0 <= x < 2 ^ 64) by (intros [] x; unfold in_i64, MinInt64, MaxInt64; cbn [in_type]; intros; try done; lia).
  apply canonical_inj; eauto using int_of_range.
Qed.

Lemma canonical_key_exact_witness :
  let canonical v := CanonicalIndexKey (IndexablePropertyValueKey demo_format v) in canonical (VNum TUint8 200) = canonical (VNum TInt16 200) <-> 200 = 200.
Proof. apply (canonical_key_exact demo_format TUint8 200 200 TInt16 200 200); try reflexivity; unfold num_fits; lia. Defined.
