(* ===== verification/Fenwick.v ===== *)
(** * The Fenwick tree of chunk totals (internal/index/sorted_chunks.go)

    [fen] is a 1-based array over the totals of the chunks: [fen[j]] holds the
    sum of the totals of the [lowbit j] chunks that end at [j], so a prefix sum
    reads one slot per set bit and an update writes one slot per ancestor.  The
    counts are numbers of index entries in memory, far below 2^63. *)

From S2P Require Import Prelude.

(** [i & -i] *)
Definition lowbit (i : Z) : Z := Z.land i (- i).

Definition fen_at (fen : list Z) (i : Z) : Z := nth (Z.to_nat i) fen 0.

Definition fen_add (fen : list Z) (i d : Z) : list Z := <[Z.to_nat i := fen_at fen i + d]> fen.

(** Every round lowers [i], so [i] rounds are enough. *)
Fixpoint prefix_loop (fuel : nat) (fen : list Z) (i s : Z) : Z :=
  match fuel with
  | O => s
  | S fuel' => if i >? 0 then prefix_loop fuel' fen (i - lowbit i) (s + fen_at fen i) else s
  end.

Definition prefixTotal (fen : list Z) (i : nat) : Z := prefix_loop i fen (Z.of_nat i) 0.

(** Every round raises [i] towards the array's length. *)
Fixpoint fenAdd_loop (fuel : nat) (fen : list Z) (i d : Z) : list Z :=
  match fuel with
  | O => fen
  | S fuel' => if i <? Z.of_nat (length fen) then fenAdd_loop fuel' (fen_add fen i d) (i + lowbit i) d else fen
  end.

Definition fenAdd (fen : list Z) (i : nat) (d : Z) : list Z := fenAdd_loop (length fen) fen (Z.of_nat i + 1) d.

(** One round of the rebuild, at the 1-based slot [j]. *)
Definition rebuild_step (n : Z) (fen : list Z) (j t : Z) : list Z :=
  let fen := fen_add fen j t in
  let p := j + lowbit j in
  if p <? n then fen_add fen p (fen_at fen j) else fen.

Fixpoint rebuild_loop (n : Z) (fen : list Z) (j : Z) (tot : list Z) : list Z :=
  match tot with
  | [] => fen
  | t :: tot' => rebuild_loop n (rebuild_step n fen j t) (j + 1) tot'
  end.

Definition rebuildFenwick (tot : list Z) : list Z :=
  let n := (length tot + 1)%nat in
  rebuild_loop (Z.of_nat n) (repeat 0 n) 1 tot.

(** ** The lowest set bit *)

Lemma land_double x y : Z.land (2 * x) (2 * y) = 2 * Z.land x y.
Proof.
  assert (E : forall z, 2 * z = Z.shiftl z 1) by (intros z; rewrite Z.shiftl_mul_pow2 by lia; lia).
  rewrite !E. symmetry. apply Z.shiftl_land.
Qed.

Lemma lowbit_odd q : lowbit (2 * q + 1) = 1.
Proof.
  unfold lowbit. replace (- (2 * q + 1)) with (2 * Z.lnot q + 1) by (unfold Z.lnot; lia).
  apply Z.bits_inj'. intros n Hn. rewrite Z.land_spec. destruct (Z.eq_dec n 0) as [->|Hne].
  - by rewrite !Z.testbit_odd_0.
  - replace n with (Z.succ (n - 1)) by lia. rewrite !Z.testbit_odd_succ by lia. rewrite Z.lnot_spec by lia.
    rewrite (Z.bits_above_log2 1) by (cbn; lia). apply andb_negb_r.
Qed.

Lemma lowbit_pow a q : 0 <= a -> lowbit (2 ^ a * (2 * q + 1)) = 2 ^ a.
Proof.
  intros Ha. revert a Ha. apply natlike_ind; [rewrite Z.pow_0_r, Z.mul_1_l; apply lowbit_odd|]. intros a Ha IH.
  rewrite Z.pow_succ_r by done. rewrite <- Z.mul_assoc. unfold lowbit in *.
  replace (- (2 * (2 ^ a * (2 * q + 1)))) with (2 * - (2 ^ a * (2 * q + 1))) by lia. by rewrite land_double, IH.
Qed.

(** A positive number is an odd number times a power of two. *)
Lemma odd_part i : 0 < i -> exists a q, 0 <= a /\ 0 <= q /\ 0 < 2 ^ a /\ i = 2 ^ a * (2 * q + 1) /\ lowbit i = 2 ^ a.
Proof.
  intros Hi. assert (exists a q, 0 <= a /\ 0 <= q /\ i = 2 ^ a * (2 * q + 1)) as (a & q & Ha & Hq & ->).
  { revert Hi. induction i as [i IH] using (well_founded_induction (Z.lt_wf 0)). intros Hi. destruct (Z.Even_or_Odd i) as [[m Hm]|[m Hm]].
    - destruct (IH m) as (a & q & Ha & Hq & E); [lia|lia|]. exists (Z.succ a), q. rewrite Z.pow_succ_r by done. split_and!; [lia|done|lia].
    - exists 0, m. rewrite Z.pow_0_r. split_and!; lia. }
  exists a, q. rewrite lowbit_pow by done. split_and!; try done. by apply Z.pow_pos_nonneg.
Qed.

Lemma lowbit_range i : 0 < i -> 0 < lowbit i <= i.
Proof. intros (a & q & Ha & Hq & Hp & E & ->)%odd_part. rewrite E. nia. Qed.

(** The powers of two of two numbers divide one another. *)
Lemma pow_le_split a b : 0 <= a <= b -> exists c, 0 < c /\ 2 ^ b = 2 ^ a * c /\ (a < b -> exists d, c = 2 * d).
Proof.
  intros H. exists (2 ^ (b - a)). split; [apply Z.pow_pos_nonneg; lia|]. split; [rewrite <- Z.pow_add_r by lia; f_equal; lia|].
  intros Hlt. exists (2 ^ (b - a - 1)). rewrite <- Z.pow_succ_r by lia. f_equal. lia.
Qed.

(** Slot [j] covers the totals above [j - lowbit j] up to [j]. *)
Definition covers (j i : Z) : Prop := j - lowbit j < i <= j.

Lemma covers_skip j i : 0 < i -> 0 < j -> covers j i -> i <> j -> i + lowbit i <= j.
Proof.
  intros Hi Hj [H1 H2] Hne. destruct (odd_part i Hi) as (a & p & Ha & Hp & Hpa & Ei & Li). destruct (odd_part j Hj) as (b & q & Hb & Hq & Hpb & Ej & Lj).
  rewrite Lj in H1. rewrite Li. destruct (Z.le_gt_cases b a) as [Hba|Hab].
  - destruct (pow_le_split b a ltac:(lia)) as (c & Hc & Ec & _). exfalso. rewrite Ec, <- Z.mul_assoc in Ei. set (m := c * (2 * p + 1)) in *.
    assert (2 * q < m) by (apply (Z.mul_lt_mono_pos_l (2 ^ b)); lia). assert (m < 2 * q + 1) by (apply (Z.mul_lt_mono_pos_l (2 ^ b)); lia). lia.
  - destruct (pow_le_split a b ltac:(lia)) as (c & Hc & Ec & _). rewrite Ec, <- Z.mul_assoc in Ej. set (m := c * (2 * q + 1)) in *.
    assert (2 * p + 1 < m) by (apply (Z.mul_lt_mono_pos_l (2 ^ a)); lia). assert (2 ^ a * (2 * p + 1 + 1) <= 2 ^ a * m) by (apply Z.mul_le_mono_pos_l; lia). lia.
Qed.

(** The slots that cover [i]: its own, and those of its parent. *)
Lemma covers_parent j i : 0 < i -> 0 < j -> covers j i <-> j = i \/ covers j (i + lowbit i).
Proof.
  intros Hi Hj. pose proof (lowbit_range i Hi). pose proof (lowbit_range j Hj). split.
  - intros Hc. destruct (Z.eq_dec i j) as [->|Hne]; [by left|right]. pose proof (covers_skip j i Hi Hj Hc Hne). destruct Hc. split; lia.
  - intros [->|[H1 H2]]; [split; lia|]. split; [|lia].
    destruct (odd_part i Hi) as (a & p & Ha & Hp & Hpa & Ei & Li). destruct (odd_part j Hj) as (b & q & Hb & Hq & Hpb & Ej & Lj). rewrite Li, Lj in *.
    destruct (Z.le_gt_cases b a) as [Hba|Hab].
    + destruct (pow_le_split b a ltac:(lia)) as (c & Hc & Ec & _). exfalso. rewrite Ec in Ei, H1, H2.
      assert (c * (2 * p + 2) = 2 * q + 1) by nia. lia.
    + destruct (pow_le_split a b ltac:(lia)) as (c & Hc & Ec & Hd). destruct (Hd Hab) as [d ->]. rewrite Ec in *.
      assert (2 * p + 2 > 4 * d * q) by nia. assert (2 * p + 1 > 4 * d * q) by lia. nia.
Qed.

(** Below a slot and its lowest bit lies the previous child of its parent. *)
Lemma previous_child c : 0 < c -> let p := c + lowbit c in
  2 * lowbit c <= lowbit p /\ (c - lowbit c = p - lowbit p \/ (0 < c - lowbit c /\ (c - lowbit c) + lowbit (c - lowbit c) = p)).
Proof.
  intros Hc. destruct (odd_part c Hc) as (a & q & Ha & Hq & Hp & Ec & Lc). cbv zeta. rewrite Lc.
  assert (E2 : 2 ^ Z.succ a = 2 * 2 ^ a) by by rewrite Z.pow_succ_r.
  assert (Hdvd : 2 * 2 ^ a <= lowbit (c + 2 ^ a)).
  { destruct (odd_part (c + 2 ^ a) ltac:(lia)) as (b & r & Hb & Hr & Hpb & Ep & ->). destruct (Z.le_gt_cases b a) as [Hba|Hab].
    - destruct (pow_le_split b a ltac:(lia)) as (d & Hd & Ed & _). exfalso. rewrite Ed in *. assert (d * (2 * q + 2) = 2 * r + 1) by nia. lia.
    - destruct (pow_le_split a b ltac:(lia)) as (d & Hd & Ed & Hx). destruct (Hx Hab) as [e ->]. nia. }
  split; [done|]. destruct (Z.Even_or_Odd q) as [[s ->]|[s ->]].
  - left. replace (c + 2 ^ a) with (2 ^ Z.succ a * (2 * s + 1)) by lia. rewrite lowbit_pow by lia. lia.
  - right. replace (c - 2 ^ a) with (2 ^ Z.succ a * (2 * s + 1)) by lia. rewrite lowbit_pow by lia. nia.
Qed.

(** ** The array *)

(** The sum of the first [i] totals. *)
Definition psum (tot : list Z) (i : Z) : Z := foldr Z.add 0 (take (Z.to_nat i) tot).

Definition fen_slot (tot fen : list Z) (j : Z) : Prop := fen_at fen j = psum tot j - psum tot (j - lowbit j).

Definition fen_ok (tot fen : list Z) : Prop :=
  length fen = (length tot + 1)%nat /\ forall j, 1 <= j <= Z.of_nat (length tot) -> fen_slot tot fen j.

Lemma length_fen_add fen i d : length (fen_add fen i d) = length fen.
Proof. apply length_insert. Qed.

Lemma fen_at_add fen i d j : 0 <= i < Z.of_nat (length fen) -> 0 <= j ->
  fen_at (fen_add fen i d) j = if j =? i then fen_at fen i + d else fen_at fen j.
Proof.
  intros Hi Hj. unfold fen_add, fen_at. rewrite !nth_lookup. destruct (Z.eqb_spec j i) as [->|Hne].
  - rewrite list_lookup_insert_eq by lia. done.
  - by rewrite list_lookup_insert_ne by lia.
Qed.

Lemma psum_0 tot : psum tot 0 = 0.
Proof. done. Qed.

Lemma foldr_add_app l r : foldr Z.add 0 (l ++ r) = foldr Z.add 0 l + foldr Z.add 0 r.
Proof. induction l as [|x l IH]; cbn [app foldr]; [lia|]. rewrite IH. lia. Qed.

Lemma psum_succ tot j t : 1 <= j -> tot !! Z.to_nat (j - 1) = Some t -> psum tot j = psum tot (j - 1) + t.
Proof.
  intros Hj Ht. unfold psum. replace (Z.to_nat j) with (S (Z.to_nat (j - 1))) by lia. rewrite (take_S_r _ _ t Ht), foldr_add_app. cbn [foldr]. lia.
Qed.

(** Adding to one total changes the prefix sums that reach it. *)
Lemma psum_update tot i t d j : tot !! i = Some t -> 0 <= j ->
  psum (<[i := t + d]> tot) j = psum tot j + if Z.of_nat i <? j then d else 0.
Proof.
  intros Hi Hj. unfold psum. destruct (Z.ltb_spec (Z.of_nat i) j) as [Hlt|Hge].
  - rewrite <- (take_drop_middle tot i t Hi) at 2. pose proof (lookup_lt_Some _ _ _ Hi).
    replace (<[i := t + d]> tot) with (take i tot ++ (t + d) :: drop (S i) tot) by (symmetry; apply insert_take_drop; lia).
    assert (Hl : length (take i tot) = i) by (rewrite length_take; lia).
    replace (Z.to_nat j) with (length (take i tot) + S (Z.to_nat j - i - 1))%nat by lia.
    rewrite !take_app_add. cbn [take]. rewrite !foldr_add_app. cbn [foldr]. lia.
  - rewrite take_insert_ge by lia. lia.
Qed.

Lemma prefix_loop_exact tot fen fuel : forall i s, fen_ok tot fen -> 0 <= i <= Z.of_nat (length tot) -> i <= Z.of_nat fuel ->
  prefix_loop fuel fen i s = s + psum tot i.
Proof.
  induction fuel as [|fuel IH]; intros i s Hok Hi Hf; cbn [prefix_loop].
  { replace i with 0 by lia. rewrite psum_0. lia. }
  destruct (Z.gtb_spec i 0) as [Hpos|]; [|replace i with 0 by lia; rewrite psum_0; lia].
  pose proof (lowbit_range i Hpos). rewrite IH by (done || lia). destruct Hok as [_ Hs]. rewrite (Hs i) by lia. lia.
Qed.

Lemma prefixTotal_exact tot fen i : fen_ok tot fen -> (i <= length tot)%nat -> prefixTotal fen i = psum tot (Z.of_nat i).
Proof. intros Hok Hi. unfold prefixTotal. rewrite (prefix_loop_exact tot) by (done || lia). lia. Qed.

Lemma fenAdd_loop_exact d fuel : forall fen i, 0 < i -> Z.of_nat (length fen) - i <= Z.of_nat fuel ->
  length (fenAdd_loop fuel fen i d) = length fen /\
  (forall j, 0 < j < Z.of_nat (length fen) -> (covers j i -> fen_at (fenAdd_loop fuel fen i d) j = fen_at fen j + d) /\
                                            (~ covers j i -> fen_at (fenAdd_loop fuel fen i d) j = fen_at fen j)).
Proof.
  induction fuel as [|fuel IH]; intros fen i Hi Hf; cbn [fenAdd_loop].
  { split; [done|]. intros j Hj. split; [|done]. intros [? ?]. lia. }
  destruct (Z.ltb_spec i (Z.of_nat (length fen))) as [Hlt|Hge].
  2:{ split; [done|]. intros j Hj. split; [|done]. intros [? ?]. lia. }
  pose proof (lowbit_range i Hi). destruct (IH (fen_add fen i d) (i + lowbit i)) as [IHl IHj]; [lia|rewrite length_fen_add; lia|].
  rewrite length_fen_add in *. split; [done|]. intros j Hj. destruct (IHj j Hj) as [H1 H2]. rewrite fen_at_add in H1, H2 by lia.
  rewrite (covers_parent j i) by lia. destruct (Z.eqb_spec j i) as [->|Hne].
  - assert (~ covers i (i + lowbit i)) by (intros [? ?]; lia). split; [|tauto]. intros _. by apply H2.
  - split; [intros [->|Hc]; [done|by apply H1]|]. intros Hn. apply H2. tauto.
Qed.

Lemma covers_dec j i : {covers j i} + {~ covers j i}.
Proof. unfold covers. destruct (Z_lt_dec (j - lowbit j) i), (Z_le_dec i j); [left|right..]; tauto || lia. Qed.

Lemma fenAdd_ok tot fen i t d : fen_ok tot fen -> tot !! i = Some t -> fen_ok (<[i := t + d]> tot) (fenAdd fen i d).
Proof.
  intros [Hlen Hs] Hi. pose proof (lookup_lt_Some _ _ _ Hi). destruct (fenAdd_loop_exact d (length fen) fen (Z.of_nat i + 1)) as [Hl Hj]; [lia|lia|].
  split; [unfold fenAdd; rewrite Hl, length_insert; done|]. rewrite length_insert. intros j Hj1. destruct (Hj j ltac:(lia)) as [H1 H2]. unfold fenAdd.
  unfold fen_slot. pose proof (lowbit_range j ltac:(lia)). rewrite !(psum_update tot i t d) by (done || lia). specialize (Hs j Hj1). unfold fen_slot in Hs.
  destruct (covers_dec j (Z.of_nat i + 1)) as [Hc|Hc].
  - rewrite (H1 Hc), Hs. destruct Hc. destruct (Z.ltb_spec (Z.of_nat i) j), (Z.ltb_spec (Z.of_nat i) (j - lowbit j)); lia.
  - rewrite (H2 Hc), Hs. unfold covers in Hc. destruct (Z.ltb_spec (Z.of_nat i) j), (Z.ltb_spec (Z.of_nat i) (j - lowbit j)); lia.
Qed.

(** ** Rebuilding *)

(** After the slots up to [i]: those are final, a later slot holds the totals up
    to its last child done. *)
Definition partial (tot fen : list Z) (i j x : Z) : Prop :=
  (x = j - lowbit j \/ (0 < x <= i /\ x + lowbit x = j)) /\ (forall y, 0 < y <= i -> y + lowbit y = j -> y <= x) /\
  fen_at fen j = psum tot x - psum tot (j - lowbit j).

Definition rebuilt (tot fen : list Z) (i : Z) : Prop :=
  length fen = (length tot + 1)%nat /\
  forall j, 1 <= j <= Z.of_nat (length tot) -> (j <= i -> fen_slot tot fen j) /\ (i < j -> exists x, partial tot fen i j x).

(** The last child of [c] below it is [c - 1]. *)
Lemma last_child tot fen c x : 1 <= c -> partial tot fen (c - 1) c x -> x = c - 1.
Proof.
  intros Hc (Hx & Hmax & _). destruct (odd_part c ltac:(lia)) as (a & q & Ha & Hq & Hp & Ec & Lc). destruct (Z.eq_dec a 0) as [->|Hne].
  - rewrite Z.pow_0_r in *. destruct Hx as [->|[Hx1 Hx2]]; [lia|]. pose proof (lowbit_range x ltac:(lia)).
    assert (Hcov : covers c x). { apply (covers_parent c x); [lia|lia|]. right. split; lia. } destruct Hcov. lia.
  - destruct (pow_le_split 1 a ltac:(lia)) as (e & He & Ee & _). rewrite Z.pow_1_r in Ee.
    assert (Hodd : lowbit (c - 1) = 1). { replace (c - 1) with (2 * (e * (2 * q + 1) - 1) + 1) by lia. apply lowbit_odd. }
    assert (c - 1 <= x). { apply Hmax; [nia|]. rewrite Hodd. lia. }
    destruct Hx as [->|[? ?]]; [rewrite Lc, Ee in *; lia|lia].
Qed.

Lemma rebuild_step_ok tot fen c t : rebuilt tot fen (c - 1) -> 1 <= c -> tot !! Z.to_nat (c - 1) = Some t ->
  rebuilt tot (rebuild_step (Z.of_nat (length tot + 1)) fen c t) c.
Proof.
  intros [Hlen Hr] Hc Ht. pose proof (lookup_lt_Some _ _ _ Ht). pose proof (lowbit_range c ltac:(lia)) as Hlb. unfold rebuild_step.
  set (fen1 := fen_add fen c t). assert (Hl1 : length fen1 = length fen) by apply length_fen_add.
  assert (Hown : fen_slot tot fen1 c).
  { destruct (Hr c ltac:(lia)) as [_ Hp]. destruct (Hp ltac:(lia)) as [x Hx]. pose proof (last_child tot fen c x Hc Hx) as ->. destruct Hx as (_ & _ & Hx).
    unfold fen_slot, fen1. rewrite fen_at_add, Z.eqb_refl by lia. rewrite Hx, (psum_succ tot c t) by done. lia. }
  assert (Hother : forall j, 1 <= j <= Z.of_nat (length tot) -> j <> c -> fen_at fen1 j = fen_at fen j).
  { intros j Hj Hne. unfold fen1. rewrite fen_at_add by lia. by destruct (Z.eqb_spec j c). }
  destruct (previous_child c ltac:(lia)) as [Hdbl Hprev]. cbv zeta in Hprev. set (p := c + lowbit c) in *.
  assert (Hpart : forall j, 1 <= j <= Z.of_nat (length tot) -> c < j -> j <> p -> exists x, partial tot fen1 c j x).
  { intros j Hj Hcj Hjp. destruct (Hr j Hj) as [_ Hp]. destruct (Hp ltac:(lia)) as [x (Hx & Hmax & Hv)]. exists x. split_and!.
    - destruct Hx as [->|[? ?]]; [by left|right; lia].
    - intros y Hy Hyj. apply Hmax; [|done]. destruct (Z.eq_dec y c) as [->|]; [done|lia].
    - rewrite Hother by lia. done. }
  destruct (Z.ltb_spec p (Z.of_nat (length tot + 1))) as [Hlt|Hge]; (split; [rewrite ?length_fen_add; lia|]); intros j Hj.
  - split; intros Hjc.
    + unfold fen_slot. rewrite fen_at_add by lia. destruct (Z.eqb_spec j p); [lia|]. destruct (Z.eq_dec j c) as [->|]; [done|].
      rewrite Hother by lia. apply (Hr j Hj). lia.
    + destruct (Z.eq_dec j p) as [->|Hne].
      2:{ destruct (Hpart j Hj Hjc Hne) as [x (Hx & Hmax & Hv)]. exists x. split_and!; [done|done|]. rewrite fen_at_add by lia. by destruct (Z.eqb_spec j p). }
      destruct (Hr p Hj) as [_ Hp]. destruct (Hp ltac:(lia)) as [x (Hx & Hmax & Hv)].
      assert (x = c - lowbit c) as ->.
      { assert (c - lowbit c <= x).
        { destruct Hprev as [E|[Hpos E]]; [|apply Hmax; [lia|done]]. destruct Hx as [->|[Hx1 Hx2]]; [lia|].
          assert (Hcov : covers p x) by (apply (covers_parent p x); [lia|lia|]; right; pose proof (lowbit_range p); split; lia). destruct Hcov. lia. }
        destruct Hx as [->|[Hx1 Hx2]]; [lia|]. destruct (Z.le_gt_cases x (c - lowbit c)); [lia|].
        pose proof (covers_skip c x ltac:(lia) ltac:(lia) ltac:(split; lia) ltac:(lia)). lia. }
      exists c. split_and!; [right; lia|intros; lia|]. rewrite fen_at_add, Z.eqb_refl by lia. rewrite Hother by lia. rewrite Hown, Hv. lia.
  - split; intros Hjc.
    + destruct (Z.eq_dec j c) as [->|]; [done|]. unfold fen_slot. rewrite Hother by lia. apply (Hr j Hj). lia.
    + apply Hpart; lia.
Qed.

Lemma rebuild_loop_ok tot rest : forall fen j, 1 <= j -> rebuilt tot fen (j - 1) -> rest = drop (Z.to_nat (j - 1)) tot ->
  j - 1 <= Z.of_nat (length tot) -> fen_ok tot (rebuild_loop (Z.of_nat (length tot + 1)) fen j rest).
Proof.
  induction rest as [|t rest IH]; intros fen j Hj Hr Hd Hle; cbn [rebuild_loop].
  - destruct Hr as [Hlen Hr]. split; [done|]. intros k Hk. apply (Hr k Hk). apply (f_equal length) in Hd. rewrite length_drop in Hd. cbn in Hd. lia.
  - assert (Ht : tot !! Z.to_nat (j - 1) = Some t) by (rewrite <- (Nat.add_0_r (Z.to_nat (j - 1))), <- lookup_drop, <- Hd; done).
    pose proof (lookup_lt_Some _ _ _ Ht). apply IH; [lia| | |lia].
    + replace (j + 1 - 1) with j by lia. by apply rebuild_step_ok.
    + replace (Z.to_nat (j + 1 - 1)) with (S (Z.to_nat (j - 1))) by lia. rewrite (drop_S _ _ _ Ht) in Hd. by injection Hd.
Qed.

Lemma rebuildFenwick_ok tot : fen_ok tot (rebuildFenwick tot).
Proof.
  apply rebuild_loop_ok; [lia| |by rewrite drop_0|lia]. split; [apply repeat_length|]. intros j Hj. split; [lia|]. intros _.
  exists (j - lowbit j). split_and!; [by left|intros; lia|]. unfold fen_at. rewrite nth_repeat. lia.
Qed.
