(* ===== verification/SortedChunks.v ===== *)
(** * Chunked sorted sets (internal/index/sorted_chunks.go, id_set.go, sorted_postings.go)

    A set of distinct ordered keys kept as a list of sorted chunks: the ordered
    views of the property indexes, the posting lists and the ID sets.  Chunks
    split above twice [orderedKeyChunk] keys and merge when they shrink.  The
    theorems show that the chunks refine a strictly ascending list: every
    operation does to it what its name says, and every walk visits what it should. *)

From S2P Require Import Prelude.

(** ** Keys: [cmp.Ordered] without NaN, which the callers exclude *)

Class KeyOrder (K : Type) := {
  key_eq_dec :: EqDecision K;
  kltb : K -> K -> bool;
}.

Class KeyOrderOK (K : Type) `{!KeyOrder K} : Prop := {
  k_irrefl : forall x, kltb x x = false;
  k_trans : forall x y z, kltb x y = true -> kltb y z = true -> kltb x z = true;
  k_total : forall x y, kltb x y = false -> kltb y x = false -> x = y;
}.

#[export] Instance Z_keys : KeyOrder Z := {| kltb := Z.ltb |}.

#[export] Instance Z_keys_ok : KeyOrderOK Z.
Proof. split; cbn; intros; lia. Qed.

Definition orderedKeyChunk : nat := 512.

Lemma chunk_pos : (1 <= orderedKeyChunk)%nat.
Proof. unfold orderedKeyChunk. lia. Qed.

#[global] Opaque orderedKeyChunk.

Record chunkCounts := mkCounts {
  cnt : list (list Z);
  tot : list Z;
  fen : list Z;
}.

Record sortedChunks {K : Type} := mkChunks {
  chunks : list (list K);
  sc_n : nat;
  counts : option chunkCounts;
}.
Arguments sortedChunks : clear implicits.
Arguments mkChunks {K} _ _ _.

(** ** Operations in set mode *)

Section Ops.
Context {K : Type} `{!KeyOrder K}.
Implicit Types (k : K) (o : sortedChunks K) (c ks : list K).

(** [chunks[i]], in range where it is read. *)
Definition chunk_at o (i : nat) : list K := nth i (chunks o) [].

(** [c[len(c)-1] >= k]; a chunk is never empty. *)
Definition reaches k c : bool := match last c with Some x => negb (kltb x k) | None => false end.

Definition chunkIdx o k : nat := Search (length (chunks o)) (fun i => reaches k (chunk_at o i)).

(** [slices.BinarySearch]: the first position whose key is not below [k], and
    whether [k] is there. *)
Definition BinarySearch c k : nat * bool :=
  let pos := Search (length c) (fun i => match c !! i with Some x => negb (kltb x k) | None => true end) in
  (pos, match c !! pos with Some x => bool_decide (x = k) | None => false end).

Definition set_chunks (cs : list (list K)) (n : nat) o : sortedChunks K := mkChunks cs n (counts o).

(** Split an overlong chunk in place. *)
Definition put_chunk (ci : nat) c (cs : list (list K)) : list (list K) :=
  if (2 * orderedKeyChunk <? length c)%nat then
    let mid := Nat.div2 (length c) in
    take ci cs ++ take mid c :: drop mid c :: drop (S ci) cs
  else <[ci := c]> cs.

Definition sc_insert k o : sortedChunks K :=
  if (length (chunks o) =? 0)%nat then set_chunks [[k]] (sc_n o + 1) o
  else
    let ci := chunkIdx o k in
    let ci := if (ci =? length (chunks o))%nat then (ci - 1)%nat else ci in
    let c := chunk_at o ci in
    let pos := fst (BinarySearch c k) in
    set_chunks (put_chunk ci (take pos c ++ k :: drop pos c) (chunks o)) (sc_n o + 1) o.

Fixpoint chunk_up (fuel : nat) (sorted : list K) : list (list K) :=
  match fuel, sorted with
  | S fuel', _ :: _ => take orderedKeyChunk sorted :: chunk_up fuel' (drop orderedKeyChunk sorted)
  | _, _ => []
  end.

Definition newSortedChunksFrom (sorted : list K) : sortedChunks K := mkChunks (chunk_up (length sorted) sorted) (length sorted) None.

(** [k > last[len(last)-1]] for the last chunk. *)
Definition past_last k o : bool :=
  match last (chunks o) with Some c => match last c with Some x => kltb x k | None => false end | None => false end.

Definition last_full o : bool := match last (chunks o) with Some c => (orderedKeyChunk <=? length c)%nat | None => false end.

Definition sc_add k o : sortedChunks K :=
  if (0 <? length (chunks o))%nat && last_full o && past_last k o then set_chunks (chunks o ++ [[k]]) (sc_n o + 1) o
  else sc_insert k o.

Definition sc_above k o : bool := if (length (chunks o) =? 0)%nat then true else past_last k o.

Definition sc_has k o : bool :=
  let ci := chunkIdx o k in
  if (ci =? length (chunks o))%nat then false else snd (BinarySearch (chunk_at o ci) k).

(** One round of the loop: the last chunk filled up, after a new one where there
    is none or the last is full. *)
Definition fill_last ks (cs : list (list K)) : list (list K) * list K :=
  let cs := match last cs with
            | None => [[]]
            | Some c => if (orderedKeyChunk <=? length c)%nat then cs ++ [[]] else cs
            end in
  let n := length cs in
  let c := nth (n - 1) cs [] in
  let t := Nat.min (orderedKeyChunk - length c) (length ks) in
  (<[(n - 1)%nat := c ++ take t ks]> cs, drop t ks).

Fixpoint append_loop (fuel : nat) ks (cs : list (list K)) : list (list K) :=
  match fuel, ks with
  | S fuel', _ :: _ => let '(cs, ks) := fill_last ks cs in append_loop fuel' ks cs
  | _, _ => cs
  end.

Definition appendRun ks o : sortedChunks K := set_chunks (append_loop (length ks) ks (chunks o)) (sc_n o + length ks) o.

Fixpoint putSorted ks (added : nat) o : sortedChunks K * nat :=
  match ks with
  | [] => (o, added)
  | k :: ks' =>
      if sc_above k o then (appendRun ks o, added + length ks)%nat
      else if negb (sc_has k o) then putSorted ks' (added + 1) (sc_insert k o)
      else putSorted ks' added o
  end.

Fixpoint insertSorted ks o : sortedChunks K :=
  match ks with
  | [] => o
  | k :: ks' => if sc_above k o then appendRun ks o else insertSorted ks' (sc_insert k o)
  end.

Definition sc_put k o : sortedChunks K * bool :=
  if (0 <? length (chunks o))%nat && past_last k o then (sc_add k o, true)
  else if sc_has k o then (o, false)
  else (sc_insert k o, true).

Definition mergeIfUndersized (ci : nat) (cs : list (list K)) : list (list K) :=
  let c := nth ci cs [] in
  if (Nat.div2 orderedKeyChunk <=? length c)%nat then cs
  else if (ci + 1 <? length cs)%nat && (length c + length (nth (ci + 1) cs []) <=? 2 * orderedKeyChunk)%nat then
    delete (ci + 1)%nat (<[ci := c ++ nth (ci + 1) cs []]> cs)
  else if (0 <? ci)%nat && (length (nth (ci - 1) cs []) + length c <=? 2 * orderedKeyChunk)%nat then
    delete ci (<[(ci - 1)%nat := nth (ci - 1) cs [] ++ c]> cs)
  else cs.

Definition sc_remove k o : sortedChunks K * bool :=
  let ci := chunkIdx o k in
  if (ci =? length (chunks o))%nat then (o, false)
  else
    let c := chunk_at o ci in
    let '(pos, found) := BinarySearch c k in
    if negb found then (o, false)
    else
      let c := delete pos c in
      let cs := <[ci := c]> (chunks o) in
      if (length c =? 0)%nat then (set_chunks (delete ci cs) (sc_n o - 1) o, true)
      else (set_chunks (mergeIfUndersized ci cs) (sc_n o - 1) o, true).

(** ** Walks: a callback with its own state that says whether to go on *)

Context {S : Type}.
Implicit Types (fn : S -> K -> S * bool) (s : S).

Fixpoint walk fn s ks : S * bool :=
  match ks with
  | [] => (s, true)
  | k :: ks' => let '(s, on) := fn s k in if on then walk fn s ks' else (s, false)
  end.

Fixpoint walk_chunks fn s (cs : list (list K)) : S :=
  match cs with
  | [] => s
  | c :: cs' => let '(s, on) := walk fn s c in if on then walk_chunks fn s cs' else s
  end.

Definition forEachFrom (lo : K) fn s o : S :=
  let start := chunkIdx o lo in
  match drop start (chunks o) with
  | [] => s
  | c :: cs => walk_chunks fn s (drop (fst (BinarySearch c lo)) c :: cs)
  end.

Definition forEachDownFrom (hi : K) fn s o : S :=
  let start := chunkIdx o hi in
  let cs := rev (take (start + 1) (chunks o)) in
  match cs with
  | [] => s
  | c :: cs =>
      let '(p, found) := BinarySearch c hi in
      walk_chunks fn s (rev (take (if found then p + 1 else p) c) :: map (@rev K) cs)
  end.

Definition forEachDownAll fn s o : S := walk_chunks fn s (map (@rev K) (rev (chunks o))).
End Ops.

(** ** Searching a sorted list *)

Lemma Search_split {A} (l : list A) (f : nat -> bool) (g : A -> bool) :
  (forall i x, l !! i = Some x -> f i = g x) -> StronglySorted (fun x y => g x = true -> g y = true) l ->
  exists l1 l2, l = l1 ++ l2 /\ Search (length l) f = length l1 /\ Forall (fun x => g x = false) l1 /\ Forall (fun x => g x = true) l2.
Proof.
  intros Hf Hs. destruct (Search_spec (length l) f) as (Hn & Hlo & Hhi).
  - intros a b Hab Hb Ha. destruct (decide (a = b)) as [->|]; [done|].
    destruct (lookup_lt_is_Some_2 l a) as [x Hx]; [lia|]. destruct (lookup_lt_is_Some_2 l b) as [y Hy]; [lia|].
    rewrite (Hf _ _ Hx) in Ha. rewrite (Hf _ _ Hy). pose proof (StronglySorted_nth _ l x a b Hs ltac:(lia)) as Hxy.
    rewrite (nth_lookup_Some _ _ _ _ Hx), (nth_lookup_Some _ _ _ _ Hy) in Hxy. by apply Hxy.
  - set (i := Search _ _) in *. clearbody i. exists (take i l), (drop i l). rewrite take_drop, length_take_le by done. split_and!; [done|done| |].
    + apply Forall_lookup. intros k x [Hk Hki]%lookup_take_Some. rewrite <- (Hf _ _ Hk). by apply Hlo.
    + apply Forall_lookup. intros k x Hk. rewrite lookup_drop in Hk. rewrite <- (Hf _ _ Hk). apply Hhi.
      pose proof (lookup_lt_Some _ _ _ Hk). lia.
Qed.

(** ** The invariant *)

Section Invariant.
Context {K : Type} `{!KeyOrder K, !KeyOrderOK K}.
Implicit Types (k x : K) (o : sortedChunks K) (c l r ks : list K) (cs : list (list K)).

Notation klt := (fun x y : K => kltb x y = true).
Notation below k := (Forall (fun x => kltb x k = true)).
Notation from k := (Forall (fun x => kltb x k = false)).

#[export] Instance kltb_sw : StrictWeak (@kltb K _).
Proof.
  split; [apply k_irrefl|apply k_trans|]. intros x y z Hxy. destruct (kltb z y) eqn:E1; [by left|]. right.
  destruct (kltb x z) eqn:E2; [done|]. destruct (kltb y z) eqn:E3.
  - by rewrite (k_trans x y z Hxy E3) in E2.
  - by rewrite (k_total y z E3 E1), E2 in Hxy.
Qed.

(** The set a structure stands for, as its strictly ascending list. *)
Definition keys o : list K := concat (chunks o).

Record cs_ok cs : Prop := {
  cs_nonempty : Forall (fun c => c <> []) cs;
  cs_size : Forall (fun c => (length c <= 2 * orderedKeyChunk)%nat) cs;
  cs_sorted : StronglySorted klt (concat cs);
}.

Record sc_ok o : Prop := { ok_chunks : cs_ok (chunks o); ok_n : sc_n o = length (keys o) }.

Lemma sorted_from k l : StronglySorted klt l -> StronglySorted (fun x y => negb (kltb x k) = true -> negb (kltb y k) = true) l.
Proof.
  apply StronglySorted_weaken. intros x y Hxy Hx. apply negb_true_iff in Hx. apply negb_true_iff.
  destruct (kltb y k) eqn:E; [|done]. by rewrite (k_trans _ _ _ Hxy E) in Hx.
Qed.

Lemma BinarySearch_split c k : StronglySorted klt c ->
  exists l r, c = l ++ r /\ below k l /\ from k r /\ BinarySearch c k = (length l, match r with x :: _ => bool_decide (x = k) | [] => false end).
Proof.
  intros Hs. destruct (Search_split c (fun i => match c !! i with Some x => negb (kltb x k) | None => true end) (fun x => negb (kltb x k))) as (l & r & Hc & Hi & Hl & Hr).
  { by intros i x ->. } { by apply sorted_from. }
  exists l, r. split_and!; [done| | |].
  - eapply Forall_impl; [exact Hl|]. intros x. apply negb_false_iff.
  - eapply Forall_impl; [exact Hr|]. intros x. apply negb_true_iff.
  - unfold BinarySearch. rewrite Hi. f_equal. subst c. rewrite lookup_app_r, Nat.sub_diag by lia. by destruct r.
Qed.

(** A chunk is below [k] exactly when its last key is. *)
Lemma reaches_false k c : c <> [] -> StronglySorted klt c -> reaches k c = false -> below k c.
Proof.
  intros Hne Hs Hr. destruct (exists_last Hne) as (l & x & ->). unfold reaches in Hr. rewrite last_snoc in Hr. apply negb_false_iff in Hr.
  apply StronglySorted_app_inv in Hs as (_ & _ & Hs). apply Forall_app. split; [|by constructor].
  apply Forall_forall. intros y Hy. eapply k_trans; [|exact Hr]. apply Hs; [done|left].
Qed.

Lemma reaches_true k c : reaches k c = true -> exists l x, c = l ++ [x] /\ kltb x k = false.
Proof.
  unfold reaches. destruct (last c) as [x|] eqn:E; [|done]. intros Hx. apply last_Some in E as [l ->]. exists l, x. split; [done|]. by apply negb_true_iff.
Qed.

Lemma from_later k l : forall x, StronglySorted klt (x :: l) -> kltb x k = false -> from k l.
Proof.
  intros x Hs Hx. apply StronglySorted_inv in Hs as [_ Hf]. eapply Forall_impl; [exact Hf|]. cbn. intros y Hy.
  destruct (kltb y k) eqn:E; [|done]. by rewrite (k_trans _ _ _ Hy E) in Hx.
Qed.

Lemma chunks_monotone k cs : Forall (fun c => c <> []) cs -> StronglySorted klt (concat cs) ->
  StronglySorted (fun c d => reaches k c = true -> reaches k d = true) cs.
Proof.
  induction cs as [|c cs IH]; intros Hne Hs; [constructor|]. apply Forall_cons in Hne as [Hc Hne]. cbn [concat] in Hs.
  apply StronglySorted_app_inv in Hs as (_ & Hs & Hlt). constructor; [by apply IH|]. apply Forall_forall. intros d Hd (l & x & -> & Hx)%reaches_true.
  rewrite Forall_forall in Hne. destruct (exists_last (Hne d Hd)) as (l' & y & ->). unfold reaches. rewrite last_snoc. apply negb_true_iff.
  destruct (kltb y k) eqn:E; [|done]. rewrite <- Hx. symmetry. eapply k_trans; [|exact E]. apply Hlt; [set_solver|].
  apply list_elem_of_In, in_concat. exists (l' ++ [y]). split; [by apply list_elem_of_In|]. apply list_elem_of_In. set_solver.
Qed.

Lemma concat_below k cs : Forall (fun c => c <> []) cs -> StronglySorted klt (concat cs) -> Forall (fun c => reaches k c = false) cs -> below k (concat cs).
Proof.
  induction cs as [|c cs IH]; intros Hne Hs Hr; [constructor|]. apply Forall_cons in Hne as [Hc Hne]. apply Forall_cons in Hr as [Hrc Hr].
  cbn [concat] in *. apply StronglySorted_app_inv in Hs as (H1 & H2 & _). apply Forall_app. split; [by apply reaches_false|by apply IH].
Qed.

(** Where a key is, or where it goes. *)
Lemma find_key o k : cs_ok (chunks o) ->
  (chunkIdx o k = length (chunks o) /\ below k (keys o)) \/
  (exists pre l x r post, chunks o = pre ++ (l ++ x :: r) :: post /\ chunkIdx o k = length pre /\
     BinarySearch (l ++ x :: r) k = (length l, bool_decide (x = k)) /\ below k (concat pre ++ l) /\ kltb x k = false /\
     StronglySorted klt (x :: r ++ concat post) /\ keys o = (concat pre ++ l) ++ x :: r ++ concat post).
Proof.
  intros [Hne _ Hs]. unfold chunkIdx, keys, chunk_at.
  destruct (Search_split (chunks o) (fun i => reaches k (nth i (chunks o) [])) (reaches k)) as (pre & suf & Hcs & Hi & Hpre & Hsuf).
  { intros i c Hc. by rewrite (nth_lookup_Some _ _ _ _ Hc). } { by apply chunks_monotone. }
  rewrite Hi, Hcs in *. clear Hi Hcs. apply Forall_app in Hne as [Hne1 Hne2]. rewrite concat_app in Hs.
  destruct (StronglySorted_app_inv _ _ _ Hs) as (Hs1 & Hs2 & Hlt). pose proof (concat_below k pre Hne1 Hs1 Hpre) as Hb.
  destruct suf as [|c post]; [left; by rewrite app_nil_r|right]. apply Forall_cons in Hsuf as [Hc _]. cbn [concat] in Hs2.
  destruct (StronglySorted_app_inv _ _ _ Hs2) as (Hsc & _ & _). destruct (BinarySearch_split c k Hsc) as (l & [|x r] & -> & Hl & Hr & HB).
  - apply reaches_true in Hc as (l' & x & Hl' & Hx). rewrite app_nil_r in Hl'. subst l. apply Forall_app in Hl as [_ Hl]. apply Forall_cons in Hl as [Hl _]. congruence.
  - exists pre, l, x, r, post. apply Forall_cons in Hr as [Hx _]. rewrite <- app_assoc in Hs2. apply StronglySorted_app_inv in Hs2 as (_ & Hs2 & _).
    split_and!; [done|done|done|by apply Forall_app|done|done|]. rewrite concat_app. cbn [concat]. by rewrite <- !app_assoc.
Qed.

Lemma above_from x k l : kltb k x = true -> StronglySorted klt (x :: l) -> Forall (fun y => kltb k y = true) (x :: l).
Proof.
  intros Hx Hs. constructor; [done|]. apply StronglySorted_inv in Hs as [_ Hf]. eapply Forall_impl; [exact Hf|]. cbn. intros y Hy. by eapply k_trans.
Qed.

Lemma insert_by_split k l r : below k l -> from k r -> insert_by kltb k (l ++ r) = l ++ k :: r.
Proof.
  induction 1 as [|x l Hx _ IH]; intros Hr; cbn [app insert_by]; [|by rewrite Hx, IH].
  by apply insert_by_le.
Qed.

Lemma not_in_below k l : below k l -> k ∉ l.
Proof. rewrite Forall_forall. intros Hb Hin. specialize (Hb k Hin). by rewrite k_irrefl in Hb. Qed.

Lemma sorted_insert k l : StronglySorted klt l -> k ∉ l -> StronglySorted klt (insert_by kltb k l).
Proof.
  induction l as [|x l IH]; intros Hs Hn; cbn [insert_by]; [repeat constructor|]. apply not_elem_of_cons in Hn as [Hne Hn].
  destruct (kltb x k) eqn:E.
  - apply StronglySorted_inv in Hs as [Hs Hf]. constructor; [by apply IH|]. rewrite (insert_by_perm kltb k l). by constructor.
  - constructor; [done|]. apply above_from; [|done]. destruct (kltb k x) eqn:E2; [done|]. destruct Hne. by apply k_total.
Qed.

(** The key is there exactly when the search finds it. *)
Lemma found_iff k l x r : below k l -> kltb x k = false -> StronglySorted klt (x :: r) -> x = k <-> k ∈ l ++ x :: r.
Proof.
  intros Hl Hx Hs. split; [intros ->; set_solver|]. intros [Hin|Hin]%elem_of_app; [by apply not_in_below in Hl|].
  apply elem_of_cons in Hin as [->|Hin]; [done|]. apply StronglySorted_inv in Hs as [_ Hf]. rewrite Forall_forall in Hf. specialize (Hf k Hin). congruence.
Qed.

Lemma chunk_in_range {A} (pre post : list A) (d : A) : (length pre =? length (pre ++ d :: post))%nat = false.
Proof. apply Nat.eqb_neq. rewrite length_app. cbn. lia. Qed.

Lemma has_exact o k : cs_ok (chunks o) -> sc_has k o = bool_decide (k ∈ keys o).
Proof.
  intros Hok. unfold sc_has. destruct (find_key o k Hok) as [[-> Hb]|(pre & l & x & r & post & Hcs & Hi & HB & Hl & Hx & Hr & ->)].
  - rewrite Nat.eqb_refl. symmetry. apply bool_decide_eq_false_2. by apply not_in_below.
  - rewrite Hi. unfold chunk_at. rewrite Hcs, chunk_in_range, nth_middle, HB. cbn [snd]. apply bool_decide_ext. by apply found_iff.
Qed.

(** ** Insertion *)

Lemma list_insert_middle {A} (pre post : list A) (d e : A) : <[length pre := e]> (pre ++ d :: post) = pre ++ e :: post.
Proof. rewrite <- (Nat.add_0_r (length pre)). by rewrite insert_app_r. Qed.

Lemma put_chunk_concat pre c d post : concat (put_chunk (length pre) d (pre ++ c :: post)) = concat pre ++ d ++ concat post.
Proof.
  unfold put_chunk. destruct (_ <? _)%nat.
  - rewrite take_app_length, drop_app_ge by lia. replace (S (length pre) - length pre)%nat with 1%nat by lia. cbn [drop].
    rewrite concat_app. cbn [concat]. by rewrite (app_assoc (take _ d)), take_drop.
  - rewrite list_insert_middle, concat_app. done.
Qed.

Lemma put_chunk_shape pre c d post : (length d <= 2 * orderedKeyChunk + 1)%nat -> d <> [] ->
  Forall (fun c => c <> []) (pre ++ c :: post) -> Forall (fun c => (length c <= 2 * orderedKeyChunk)%nat) (pre ++ c :: post) ->
  Forall (fun c => c <> []) (put_chunk (length pre) d (pre ++ c :: post)) /\
  Forall (fun c => (length c <= 2 * orderedKeyChunk)%nat) (put_chunk (length pre) d (pre ++ c :: post)).
Proof.
  intros Hd Hne Hn Hs. pose proof chunk_pos. rewrite !Forall_app, !Forall_cons in Hn, Hs. destruct Hn as (N1 & _ & N2), Hs as (S1 & _ & S2). unfold put_chunk.
  destruct (Nat.ltb_spec (2 * orderedKeyChunk) (length d)) as [Hlt|Hge].
  - rewrite take_app_length, drop_app_ge by lia. replace (S (length pre) - length pre)%nat with 1%nat by lia. cbn [drop].
    rewrite !Forall_app, !Forall_cons. pose proof (Nat.div2_odd (length d)). destruct (Nat.odd (length d)); cbn [Nat.b2n] in *.
    all: assert (take (Nat.div2 (length d)) d <> [] /\ drop (Nat.div2 (length d)) d <> []) as [Ht Hdr] by
      (split; intros E; apply (f_equal length) in E; rewrite ?length_take, ?length_drop in E; cbn in E; lia).
    all: rewrite length_take, length_drop; split_and!; try done; lia.
  - rewrite list_insert_middle, !Forall_app, !Forall_cons. split_and!; done || lia.
Qed.

(** The chunk an absent key goes to, split where it goes. *)
Lemma insert_place o k : cs_ok (chunks o) -> k ∉ keys o -> length (chunks o) <> 0%nat -> exists pre l r post,
  chunks o = pre ++ (l ++ r) :: post /\
  (if (chunkIdx o k =? length (chunks o))%nat then (chunkIdx o k - 1)%nat else chunkIdx o k) = length pre /\
  fst (BinarySearch (l ++ r) k) = length l /\ below k (concat pre ++ l) /\ from k (r ++ concat post).
Proof.
  intros Hok Hn Hz. pose proof Hok as [_ _ Hs].
  assert (Hsplit : exists pre c post, chunks o = pre ++ c :: post /\
    (if (chunkIdx o k =? length (chunks o))%nat then (chunkIdx o k - 1)%nat else chunkIdx o k) = length pre /\
    below k (concat pre) /\ Forall (fun y => kltb k y = true) (concat post)).
  { destruct (find_key o k Hok) as [[Hi Hb]|(pre & l & x & r & post & Hcs & Hi & HB & Hl & Hx & Hr & Hk)].
    - assert (Hc : chunks o <> []) by (intros E; by rewrite E in Hz). destruct (exists_last Hc) as (pre & c & Hcs). exists pre, c, []. rewrite Hi, Nat.eqb_refl, Hcs, length_app. cbn [length].
      unfold keys in Hb. rewrite Hcs, concat_app in Hb. apply Forall_app in Hb as [Hb _]. split_and!; [done|lia|done|constructor].
    - exists pre, (l ++ x :: r), post. rewrite Hi, Hcs, chunk_in_range. apply Forall_app in Hl as [Hl _]. split_and!; [done|done|done|].
      rewrite Hk in Hn. assert (kltb k x = true) as Hkx.
      { destruct (kltb k x) eqn:E; [done|]. destruct Hn. rewrite (k_total _ _ Hx E). set_solver. }
      pose proof (above_from x k _ Hkx Hr) as Ha. apply Forall_cons in Ha as [_ Ha]. by apply Forall_app in Ha as [_ Ha]. }
  destruct Hsplit as (pre & c & post & Hcs & Hi & Hpre & Hpost). rewrite Hcs, concat_app in Hs. cbn [concat] in Hs.
  destruct (StronglySorted_app_inv _ _ _ Hs) as (_ & Hs2 & _). destruct (StronglySorted_app_inv _ _ _ Hs2) as (Hsc & _ & _).
  destruct (BinarySearch_split c k Hsc) as (l & r & -> & Hl & Hr & HB). exists pre, l, r, post. rewrite HB. split_and!; [done|done|done|by apply Forall_app|].
  apply Forall_app. split; [done|]. eapply Forall_impl; [exact Hpost|]. cbn. intros y. apply (sw_asym kltb).
Qed.

Lemma insert_keys o k : cs_ok (chunks o) -> k ∉ keys o -> keys (sc_insert k o) = insert_by kltb k (keys o) /\ cs_ok (chunks (sc_insert k o)).
Proof.
  intros Hok Hn. unfold sc_insert. destruct (Nat.eqb_spec (length (chunks o)) 0) as [Hz|Hz].
  { apply length_zero_iff_nil in Hz. unfold keys. rewrite Hz. split; [done|]. pose proof chunk_pos. split; cbn; repeat constructor; done || (cbn; lia). }
  destruct (insert_place o k Hok Hn Hz) as (pre & l & r & post & Hcs & Hi & HB & Hl & Hr). destruct Hok as [Hne Hsz Hs].
  cbv zeta. rewrite Hi. unfold chunk_at, set_chunks, keys in *. cbn [chunks]. rewrite Hcs in *. rewrite nth_middle, HB, take_app_length, drop_app_length, put_chunk_concat.
  assert (Hins : concat pre ++ (l ++ k :: r) ++ concat post = insert_by kltb k (concat (pre ++ (l ++ r) :: post))).
  { rewrite concat_app. cbn [concat]. rewrite <- !app_assoc, app_assoc, (app_assoc (concat pre) l). by rewrite insert_by_split. }
  split; [done|]. rewrite Forall_app, Forall_cons in Hsz. destruct Hsz as (? & Hlen & ?). rewrite length_app in Hlen.
  destruct (put_chunk_shape pre (l ++ r) (l ++ k :: r) post) as [H1 H2]; [rewrite length_app; cbn [length]; lia|by destruct l|done|by apply Forall_app; split; [|constructor; [rewrite length_app|]]|].
  split; [done|done|]. rewrite put_chunk_concat, Hins. by apply sorted_insert.
Qed.

(** ** Appending *)

Lemma insert_by_end k l : below k l -> insert_by kltb k l = l ++ [k].
Proof. intros Hb. rewrite <- (app_nil_r l) at 1. by rewrite insert_by_split. Qed.

Lemma past_last_below k o : cs_ok (chunks o) -> past_last k o = true -> below k (keys o).
Proof.
  intros [Hne _ Hs]. unfold past_last, keys in *. destruct (last (chunks o)) as [c|] eqn:Ec; [|done]. apply last_Some in Ec as [pre Hcs].
  destruct (last c) as [x|] eqn:Ex; [|done]. apply last_Some in Ex as [l ->]. intros Hx. rewrite Hcs, concat_app in *. cbn [concat] in *. rewrite app_nil_r in *.
  rewrite app_assoc in *. apply StronglySorted_app_inv in Hs as (_ & _ & Hlt). apply Forall_app. split; [|by repeat constructor].
  apply Forall_forall. intros y Hy. eapply k_trans; [|exact Hx]. apply Hlt; [done|left].
Qed.

Lemma above_below k o : cs_ok (chunks o) -> sc_above k o = true -> below k (keys o).
Proof.
  intros Hok. unfold sc_above. destruct (Nat.eqb_spec (length (chunks o)) 0) as [Hz|]; [|by apply past_last_below].
  apply length_zero_iff_nil in Hz. unfold keys. rewrite Hz. constructor.
Qed.

Lemma snoc_sorted k l : StronglySorted klt l -> below k l -> StronglySorted klt (l ++ [k]).
Proof. intros Hs Hb. rewrite <- insert_by_end by done. apply sorted_insert; [done|]. by apply not_in_below. Qed.

Lemma add_keys o k : cs_ok (chunks o) -> k ∉ keys o -> keys (sc_add k o) = insert_by kltb k (keys o) /\ cs_ok (chunks (sc_add k o)).
Proof.
  intros Hok Hn. unfold sc_add. destruct (_ && _ && past_last k o) eqn:E; [|by apply insert_keys]. apply andb_true_iff in E as [_ E].
  pose proof (past_last_below k o Hok E) as Hb. pose proof chunk_pos. destruct Hok as [Hne Hsz Hs]. unfold keys in *. cbn [set_chunks chunks].
  rewrite concat_app. cbn [concat app]. rewrite insert_by_end by done. split; [done|]. split.
  - apply Forall_app. split; [done|]. by repeat constructor.
  - apply Forall_app. split; [done|]. constructor; [cbn [length]; lia|constructor].
  - rewrite concat_app. cbn [concat app]. by apply snoc_sorted.
Qed.

Definition shape_ok cs : Prop := Forall (fun c => c <> []) cs /\ Forall (fun c => (length c <= 2 * orderedKeyChunk)%nat) cs.

Lemma shape_replace pre c d post : shape_ok (pre ++ c :: post) -> d <> [] -> (length d <= 2 * orderedKeyChunk)%nat -> shape_ok (pre ++ d :: post).
Proof. unfold shape_ok. rewrite !Forall_app, !Forall_cons. naive_solver. Qed.

Lemma fill_last_ok ks cs : shape_ok cs -> ks <> [] ->
  let '(cs', ks') := fill_last ks cs in shape_ok cs' /\ concat cs' ++ ks' = concat cs ++ ks /\ (length ks' < length ks)%nat.
Proof.
  intros Hsh Hks. unfold fill_last. pose proof chunk_pos.
  set (cs1 := match last cs with None => [[]] | Some c => if (orderedKeyChunk <=? length c)%nat then cs ++ [[]] else cs end).
  assert (H1 : exists pre c, cs1 = pre ++ [c] /\ concat cs1 = concat cs /\ shape_ok pre /\ (length c < orderedKeyChunk)%nat).
  { unfold cs1. destruct (last cs) as [c|] eqn:E.
    - apply last_Some in E as [pre ->]. destruct (Nat.leb_spec orderedKeyChunk (length c)).
      + exists (pre ++ [c]), []. rewrite concat_app. cbn [concat length]. by rewrite !app_nil_r.
      + exists pre, c. unfold shape_ok in Hsh. rewrite !Forall_app in Hsh. by destruct Hsh as [[? _] [? _]].
    - apply last_None in E as ->. exists [], []. split_and!; [done|done|by split; constructor|cbn [length]; lia]. }
  destruct H1 as (pre & c & -> & Hc & Hpre & Hlen). cbv zeta. rewrite length_app. cbn [length].
  replace (length pre + 1 - 1)%nat with (length pre) by lia. rewrite nth_middle, list_insert_middle, <- Hc, !concat_app. cbn [concat]. rewrite !app_nil_r.
  destruct ks as [|k ks]; [done|]. set (t := Nat.min _ _). assert (1 <= t <= orderedKeyChunk - length c)%nat by (unfold t; cbn [length]; lia). split_and!.
  - apply (conj (A := Forall _ (pre ++ [c ++ take t (k :: ks)]))).
    + apply Forall_app. split; [apply Hpre|]. constructor; [|constructor]. destruct t; [lia|]. by destruct c.
    + apply Forall_app. split; [apply Hpre|]. constructor; [|constructor]. rewrite length_app, length_take. lia.
  - by rewrite <- !app_assoc, take_drop.
  - rewrite length_drop. cbn [length]. lia.
Qed.

Lemma append_loop_ok fuel : forall ks cs, shape_ok cs -> (length ks <= fuel)%nat ->
  shape_ok (append_loop fuel ks cs) /\ concat (append_loop fuel ks cs) = concat cs ++ ks.
Proof.
  induction fuel as [|fuel IH]; intros ks cs Hsh Hf; cbn [append_loop].
  { destruct ks; [by rewrite app_nil_r|cbn in Hf; lia]. }
  destruct ks as [|k ks]; [by rewrite app_nil_r|]. pose proof (fill_last_ok (k :: ks) cs Hsh ltac:(done)) as H.
  destruct (fill_last (k :: ks) cs) as [cs' ks']. destruct H as (H1 & H2 & H3). rewrite <- H2. apply IH; [done|]. cbn [length] in *. lia.
Qed.

Lemma appendRun_keys ks o : cs_ok (chunks o) -> StronglySorted klt (keys o ++ ks) -> keys (appendRun ks o) = keys o ++ ks /\ cs_ok (chunks (appendRun ks o)).
Proof.
  intros [H1 H2 H3] Hs. destruct (append_loop_ok (length ks) ks (chunks o) (conj H1 H2) ltac:(done)) as [[Ha Hb] Hc].
  unfold keys, appendRun in *. cbn [set_chunks chunks]. split; [done|]. split; [done|done|by rewrite Hc].
Qed.

Lemma chunk_up_ok fuel : forall ks, (length ks <= fuel)%nat -> shape_ok (chunk_up fuel ks) /\ concat (chunk_up fuel ks) = ks.
Proof.
  pose proof chunk_pos. induction fuel as [|fuel IH]; intros ks Hf; cbn [chunk_up].
  { destruct ks; [by repeat constructor|cbn in Hf; lia]. }
  destruct ks as [|k ks]; [by repeat constructor|]. destruct (IH (drop orderedKeyChunk (k :: ks))) as [[H1 H2] H3].
  { rewrite length_drop. cbn [length] in *. lia. }
  cbn [concat]. rewrite H3, take_drop. split; [|done]. split; constructor; [|done| |done].
  - destruct orderedKeyChunk; [lia|done].
  - rewrite length_take. lia.
Qed.

Lemma newSortedChunksFrom_ok ks : StronglySorted klt ks -> sc_ok (newSortedChunksFrom ks) /\ keys (newSortedChunksFrom ks) = ks.
Proof.
  intros Hs. destruct (chunk_up_ok (length ks) ks ltac:(done)) as [[H1 H2] H3]. unfold newSortedChunksFrom, keys. cbn [chunks].
  split; [|done]. split; [|unfold keys; cbn [chunks sc_n]; by rewrite H3]. split; cbn [chunks]; [done|done|by rewrite H3].
Qed.

(** ** Removal *)

Lemma delete_middle {A} (pre post : list A) (d : A) : delete (length pre) (pre ++ d :: post) = pre ++ post.
Proof. induction pre as [|y pre IH]; cbn; [done|]. by rewrite <- IH. Qed.

Lemma delete_next {A} (pre post : list A) (d e : A) : delete (length pre + 1)%nat (pre ++ d :: e :: post) = pre ++ d :: post.
Proof. induction pre as [|y pre IH]; cbn; [done|]. by rewrite <- IH. Qed.

Lemma merge_ok pre c post : shape_ok (pre ++ c :: post) ->
  shape_ok (mergeIfUndersized (length pre) (pre ++ c :: post)) /\ concat (mergeIfUndersized (length pre) (pre ++ c :: post)) = concat (pre ++ c :: post).
Proof.
  intros Hsh. unfold mergeIfUndersized. rewrite nth_middle. destruct (_ <=? length c)%nat; [done|].
  destruct ((length pre + 1 <? length (pre ++ c :: post))%nat && _) eqn:E1.
  { apply andb_true_iff in E1 as [Hlt%Nat.ltb_lt Hle%Nat.leb_le]. destruct post as [|d post]; [rewrite length_app in Hlt; cbn in Hlt; lia|].
    assert (Hd : nth (length pre + 1) (pre ++ c :: d :: post) [] = d) by (rewrite app_nth2_plus; done). rewrite Hd in Hle |- *.
    rewrite list_insert_middle. rewrite delete_next.
    split.
    - unfold shape_ok in *. rewrite !Forall_app, !Forall_cons, length_app in *. destruct Hsh as [(? & ? & ? & ?) (? & ? & ? & ?)]. split_and!; try done. by destruct c.
    - rewrite !concat_app. cbn [concat]. by rewrite <- !app_assoc. }
  destruct ((0 <? length pre)%nat && _) eqn:E2; [|done]. apply andb_true_iff in E2 as [Hlt%Nat.ltb_lt Hle%Nat.leb_le].
  assert (Hne : pre <> []) by (intros ->; cbn in Hlt; lia). destruct (exists_last Hne) as (pre' & d & ->). rewrite length_app in *. cbn [length] in *.
  replace (length pre' + 1 - 1)%nat with (length pre') in * by lia. rewrite <- app_assoc in *. cbn [app] in *. rewrite nth_middle in *. rewrite list_insert_middle.
  rewrite delete_next.
  split.
  - unfold shape_ok in *. rewrite !Forall_app, !Forall_cons, length_app in *. destruct Hsh as [(? & ? & ? & ?) (? & ? & ? & ?)]. split_and!; try done. by destruct d.
  - rewrite !concat_app. cbn [concat]. by rewrite <- !app_assoc.
Qed.

(** The list without the key. *)
Definition without k l : list K := List.filter (fun y => negb (bool_decide (y = k))) l.

Lemma without_absent k l : k ∉ l -> without k l = l.
Proof.
  unfold without. induction l as [|x l IH]; intros Hn; [done|]. apply not_elem_of_cons in Hn as [Hne Hn]. cbn [List.filter].
  rewrite bool_decide_eq_false_2 by done. cbn [negb]. by rewrite IH.
Qed.

Lemma sorted_not_later k l : StronglySorted klt (k :: l) -> k ∉ l.
Proof. intros [_ Hf]%StronglySorted_inv Hin. rewrite Forall_forall in Hf. specialize (Hf k Hin). by rewrite k_irrefl in Hf. Qed.

Lemma without_split k l r : below k l -> StronglySorted klt (k :: r) -> without k (l ++ k :: r) = l ++ r.
Proof.
  intros Hl Hr. unfold without. rewrite List.filter_app. cbn [List.filter]. rewrite bool_decide_eq_true_2 by done. cbn [negb].
  change (without k l ++ without k r = l ++ r). rewrite !without_absent; [done|by apply sorted_not_later|by apply not_in_below].
Qed.

Lemma sorted_without k l : StronglySorted klt l -> StronglySorted klt (without k l).
Proof.
  unfold without. induction 1 as [|x l _ IH Hf]; cbn [List.filter]; [constructor|]. destruct (negb _); [|done]. constructor; [done|].
  apply Forall_forall. intros y [Hy _]%elem_of_Lfilter. rewrite Forall_forall in Hf. by apply Hf.
Qed.

Lemma remove_keys o k : sc_ok o ->
  let '(o', found) := sc_remove k o in sc_ok o' /\ keys o' = without k (keys o) /\ found = bool_decide (k ∈ keys o).
Proof.
  intros [Hok Hn]. unfold sc_remove. destruct (find_key o k Hok) as [[Hi Hb]|(pre & l & x & r & post & Hcs & Hi & HB & Hl & Hx & Hr & Hk)].
  { rewrite Hi, Nat.eqb_refl. pose proof (not_in_below _ _ Hb). rewrite without_absent, bool_decide_eq_false_2 by done. done. }
  rewrite Hi. unfold chunk_at. rewrite Hcs, chunk_in_range, nth_middle, HB, <- Hcs.
  assert (Hin := found_iff k (concat pre ++ l) x (r ++ concat post) Hl Hx Hr). rewrite <- Hk in Hin.
  case_bool_decide as Exk; cbn [negb].
  2:{ rewrite without_absent, bool_decide_eq_false_2 by (intros ?; tauto). done. }
  subst x. rewrite (bool_decide_eq_true_2 (k ∈ keys o)) by tauto. rewrite delete_middle.
  assert (Hw : without k (keys o) = (concat pre ++ l) ++ r ++ concat post) by (rewrite Hk; by apply without_split).
  assert (Hlen : (sc_n o - 1)%nat = length (without k (keys o))).
  { rewrite Hn, Hw, Hk, !length_app. cbn [length]. rewrite length_app. lia. }
  destruct Hok as [Hne Hsz Hs]. assert (Hsw := sorted_without k _ Hs). change (concat (chunks o)) with (keys o) in Hsw.
  rewrite Hcs in Hne, Hsz |- *. rewrite list_insert_middle. destruct (Nat.eqb_spec (length (l ++ r)) 0) as [Hz|Hz].
  - apply length_zero_iff_nil, app_eq_nil in Hz as [-> ->]. rewrite delete_middle. unfold keys in *. cbn [set_chunks chunks app] in *. rewrite app_nil_r in Hw.
    assert (E : concat (pre ++ post) = without k (concat (chunks o))) by (rewrite Hw; apply concat_app).
    split_and!; [|done|done]. split; unfold keys; cbn [set_chunks chunks sc_n]; [|by rewrite E]. rewrite Forall_app, Forall_cons in Hne, Hsz. destruct Hne as (? & _ & ?), Hsz as (? & _ & ?).
    split; [by apply Forall_app|by apply Forall_app|by rewrite E].
  - assert (Hsh : shape_ok (pre ++ (l ++ r) :: post)).
    { apply (shape_replace pre (l ++ k :: r)); [done|by intros E; rewrite E in Hz|].
      rewrite Forall_app, Forall_cons in Hsz. destruct Hsz as (_ & Hle & _). rewrite length_app in *. cbn [length] in Hle. lia. }
    destruct (merge_ok pre (l ++ r) post Hsh) as [[M1 M2] M3]. unfold keys in *. cbn [set_chunks chunks] in *.
    assert (E : concat (pre ++ (l ++ r) :: post) = without k (concat (chunks o))).
    { rewrite Hw, concat_app. cbn [concat]. by rewrite <- !app_assoc. }
    rewrite E in M3. split_and!; [|done|done]. split; unfold keys; cbn [set_chunks chunks sc_n]; [|by rewrite M3]. split; [done|done|by rewrite M3].
Qed.

(** ** Putting *)

Definition put_list l k : list K := if decide (k ∈ l) then l else insert_by kltb k l.

Lemma length_insert_by k l : length (insert_by kltb k l) = S (length l).
Proof. by rewrite (insert_by_perm kltb k l). Qed.

Lemma insert_ok o k : sc_ok o -> k ∉ keys o -> sc_ok (sc_insert k o) /\ keys (sc_insert k o) = insert_by kltb k (keys o).
Proof.
  intros [Hok Hn] Hk. destruct (insert_keys o k Hok Hk) as [H1 H2]. split; [|done]. split; [done|]. rewrite H1, length_insert_by, <- Hn.
  unfold sc_insert. case_match; cbn [set_chunks sc_n]; lia.
Qed.

Lemma add_ok o k : sc_ok o -> k ∉ keys o -> sc_ok (sc_add k o) /\ keys (sc_add k o) = insert_by kltb k (keys o).
Proof.
  intros [Hok Hn] Hk. destruct (add_keys o k Hok Hk) as [H1 H2]. split; [|done]. split; [done|]. rewrite H1, length_insert_by, <- Hn.
  unfold sc_add. case_match; [cbn [set_chunks sc_n]; lia|]. unfold sc_insert. case_match; cbn [set_chunks sc_n]; lia.
Qed.

Lemma put_ok o k : sc_ok o ->
  let '(o', added) := sc_put k o in sc_ok o' /\ keys o' = put_list (keys o) k /\ added = bool_decide (k ∉ keys o).
Proof.
  intros Hok. unfold sc_put, put_list. destruct (_ && past_last k o) eqn:E.
  - apply andb_true_iff in E as [_ E]. pose proof (not_in_below _ _ (past_last_below k o (ok_chunks _ Hok) E)) as Hn.
    destruct (add_ok o k Hok Hn) as [H1 H2]. rewrite decide_False, bool_decide_eq_true_2 by done. done.
  - rewrite (has_exact o k) by apply Hok. destruct (decide (k ∈ keys o)) as [Hin|Hn].
    + rewrite bool_decide_eq_true_2, bool_decide_eq_false_2 by tauto. done.
    + rewrite bool_decide_eq_false_2, bool_decide_eq_true_2 by tauto. by destruct (insert_ok o k Hok Hn).
Qed.

Lemma put_above_all ks : forall l, StronglySorted klt (l ++ ks) -> fold_left put_list ks l = l ++ ks.
Proof.
  induction ks as [|k ks IH]; intros l Hs; [by rewrite app_nil_r|]. cbn [fold_left].
  assert (Hb : below k l). { apply StronglySorted_app_inv in Hs as (_ & _ & Hs). apply Forall_forall. intros x Hx. apply Hs; [done|left]. }
  assert (E : put_list l k = l ++ [k]). { unfold put_list. rewrite decide_False by by apply not_in_below. by apply insert_by_end. }
  rewrite E, IH; rewrite <- app_assoc; done.
Qed.

Lemma above_sorted k ks o : cs_ok (chunks o) -> sc_above k o = true -> StronglySorted klt (k :: ks) -> StronglySorted klt (keys o ++ k :: ks).
Proof.
  intros Hok Ha Hs. pose proof (above_below k o Hok Ha) as Hb. apply StronglySorted_app_2; [|apply Hok|done].
  intros x y Hx [->|Hy]%elem_of_cons; rewrite Forall_forall in Hb; [by apply Hb|]. apply StronglySorted_inv in Hs as [_ Hf]. rewrite Forall_forall in Hf.
  eapply k_trans; [by apply Hb|by apply Hf].
Qed.

Lemma appendRun_ok ks o : sc_ok o -> StronglySorted klt (keys o ++ ks) -> sc_ok (appendRun ks o) /\ keys (appendRun ks o) = keys o ++ ks.
Proof.
  intros [Hok Hn] Hs. destruct (appendRun_keys ks o Hok Hs) as [H1 H2]. split; [|done]. split; [done|]. rewrite H1, length_app, <- Hn. done.
Qed.

Lemma put_list_length l k : (length l <= length (put_list l k))%nat.
Proof. unfold put_list. case_decide; [done|]. rewrite length_insert_by. lia. Qed.

Lemma puts_length ks : forall l, (length l <= length (fold_left put_list ks l))%nat.
Proof. induction ks as [|k ks IH]; intros l; [done|]. cbn [fold_left]. pose proof (put_list_length l k). specialize (IH (put_list l k)). lia. Qed.

Lemma putSorted_ok ks : forall added o, sc_ok o -> StronglySorted klt ks ->
  let '(o', n) := putSorted ks added o in
  sc_ok o' /\ keys o' = fold_left put_list ks (keys o) /\ n = (added + (length (keys o') - length (keys o)))%nat.
Proof.
  induction ks as [|k ks IH]; intros added o Hok Hs; cbn [putSorted]; [split_and!; [done|done|lia]|].
  destruct (sc_above k o) eqn:Ea.
  { assert (Hsk := above_sorted k ks o (ok_chunks _ Hok) Ea Hs). destruct (appendRun_ok (k :: ks) o Hok Hsk) as [H1 H2].
    rewrite H2. split_and!; [done|by rewrite put_above_all|rewrite length_app; lia]. }
  apply StronglySorted_inv in Hs as [Hs _]. rewrite has_exact by apply Hok. cbn [fold_left]. unfold put_list at 2. destruct (decide (k ∈ keys o)) as [Hin|Hn].
  - rewrite bool_decide_eq_true_2 by done. cbn [negb]. apply (IH added o Hok Hs).
  - rewrite bool_decide_eq_false_2 by done. cbn [negb]. destruct (insert_ok o k Hok Hn) as [H1 H2]. specialize (IH (added + 1)%nat _ H1 Hs).
    destruct (putSorted ks (added + 1) (sc_insert k o)) as [o' n]. rewrite H2 in IH. destruct IH as (? & Hk & ->). split_and!; [done|done|].
    pose proof (puts_length ks (insert_by kltb k (keys o))). rewrite Hk, length_insert_by in *. lia.
Qed.

Lemma insertSorted_ok ks : forall o, sc_ok o -> StronglySorted klt ks -> (forall k, k ∈ ks -> k ∉ keys o) ->
  sc_ok (insertSorted ks o) /\ keys (insertSorted ks o) = fold_left put_list ks (keys o).
Proof.
  induction ks as [|k ks IH]; intros o Hok Hs Hn; cbn [insertSorted]; [done|]. destruct (sc_above k o) eqn:Ea.
  { assert (Hsk := above_sorted k ks o (ok_chunks _ Hok) Ea Hs). rewrite put_above_all by done. by apply appendRun_ok. }
  pose proof (sorted_not_later k ks Hs) as Hk. apply StronglySorted_inv in Hs as [Hs _]. destruct (insert_ok o k Hok (Hn k ltac:(left))) as [H1 H2].
  cbn [fold_left]. unfold put_list at 2. rewrite decide_False by (apply Hn; left). rewrite <- H2. apply IH; [done|done|].
  intros y Hy. rewrite H2, (insert_by_perm kltb k (keys o)). apply not_elem_of_cons. split; [by intros ->|]. apply Hn. by right.
Qed.

(** ** Walks *)

Context {S : Type}.
Implicit Types (fn : S -> K -> S * bool) (s : S).

Lemma walk_app fn l r : forall s, walk fn s (l ++ r) = let '(s', on) := walk fn s l in if on then walk fn s' r else (s', false).
Proof. induction l as [|x l IH]; intros s; [done|]. cbn [app walk]. destruct (fn s x) as [s' []]; [apply IH|done]. Qed.

Lemma walk_chunks_concat fn cs : forall s, walk_chunks fn s cs = fst (walk fn s (concat cs)).
Proof.
  induction cs as [|c cs IH]; intros s; [done|]. cbn [walk_chunks concat]. rewrite walk_app. destruct (walk fn s c) as [s' []]; [apply IH|done].
Qed.

Definition at_least (lo : K) l : list K := List.filter (fun x => negb (kltb x lo)) l.
Definition at_most (hi : K) l : list K := List.filter (fun x => negb (kltb hi x)) l.

Lemma filter_none (f : K -> bool) l : Forall (fun x => f x = false) l -> List.filter f l = [].
Proof. induction 1 as [|x l Hx _ IH]; [done|]. cbn [List.filter]. by rewrite Hx. Qed.

Lemma filter_all (f : K -> bool) l : Forall (fun x => f x = true) l -> List.filter f l = l.
Proof. induction 1 as [|x l Hx _ IH]; [done|]. cbn [List.filter]. by rewrite Hx, IH. Qed.

Lemma forEachFrom_exact lo fn s o : cs_ok (chunks o) -> forEachFrom lo fn s o = fst (walk fn s (at_least lo (keys o))).
Proof.
  intros Hok. unfold forEachFrom, at_least. destruct (find_key o lo Hok) as [[Hi Hb]|(pre & l & x & r & post & Hcs & Hi & HB & Hl & Hx & Hr & Hk)].
  - rewrite Hi, drop_all, filter_none; [done|]. eapply Forall_impl; [exact Hb|]. cbn. by intros y ->.
  - rewrite Hi, Hcs, drop_app_length, HB. cbn [fst]. rewrite drop_app_length, walk_chunks_concat, Hk, List.filter_app. cbn [concat].
    rewrite filter_none by (eapply Forall_impl; [exact Hl|]; cbn; by intros y ->). rewrite (filter_all _ (x :: r ++ concat post)); [done|].
    constructor; [by rewrite Hx|]. eapply Forall_impl; [exact (from_later lo _ x Hr Hx)|]. cbn. by intros y ->.
Qed.

Lemma concat_rev cs : concat (map (@rev K) (rev cs)) = rev (concat cs).
Proof. induction cs as [|c cs IH]; [done|]. cbn [rev concat]. rewrite map_app, concat_app, IH, rev_app_distr. cbn. by rewrite app_nil_r. Qed.

Lemma forEachDownAll_exact fn s o : forEachDownAll fn s o = fst (walk fn s (rev (keys o))).
Proof. unfold forEachDownAll. by rewrite walk_chunks_concat, concat_rev. Qed.

Lemma at_most_below hi l : below hi l -> at_most hi l = l.
Proof. intros Hb. apply filter_all. eapply Forall_impl; [exact Hb|]. cbn. intros x Hx. by rewrite (sw_asym kltb x hi). Qed.

Lemma at_most_from hi x r : kltb x hi = false -> StronglySorted klt (x :: r) -> at_most hi (x :: r) = if decide (x = hi) then [x] else [].
Proof.
  intros Hx Hs. unfold at_most. cbn [List.filter]. case_decide as E.
  - subst x. rewrite k_irrefl. cbn [negb]. f_equal. apply filter_none. apply StronglySorted_inv in Hs as [_ Hf].
    eapply Forall_impl; [exact Hf|]. cbn. by intros y ->.
  - assert (kltb hi x = true) as Hlt by (destruct (kltb hi x) eqn:E2; [done|]; destruct E; by apply k_total). rewrite Hlt. cbn [negb].
    apply filter_none. pose proof (above_from x hi r Hlt Hs) as Ha. apply Forall_cons in Ha as [_ Ha]. eapply Forall_impl; [exact Ha|]. cbn. by intros y ->.
Qed.

Lemma forEachDownFrom_exact hi fn s o : cs_ok (chunks o) -> forEachDownFrom hi fn s o = fst (walk fn s (rev (at_most hi (keys o)))).
Proof.
  intros Hok. unfold forEachDownFrom. destruct (find_key o hi Hok) as [[Hi Hb]|(pre & l & x & r & post & Hcs & Hi & HB & Hl & Hx & Hr & Hk)].
  - rewrite Hi, take_ge by lia. rewrite at_most_below by done. unfold keys in *. destruct (chunks o) as [|c0 cs0] eqn:Ec using rev_ind; [done|].
    rewrite rev_app_distr. cbn [rev app]. rewrite concat_app in Hb. apply Forall_app in Hb as [_ Hb]. cbn [concat] in Hb. rewrite app_nil_r in Hb.
    destruct Hok as [_ _ Hs]. rewrite ?Ec, concat_app in Hs. apply StronglySorted_app_inv in Hs as (_ & Hs & _). cbn [concat] in Hs. rewrite app_nil_r in Hs.
    destruct (BinarySearch_split c0 hi Hs) as (l & [|x r] & -> & Hl & Hr & ->).
    + rewrite app_nil_r, take_ge by lia. rewrite walk_chunks_concat. cbn [concat]. rewrite concat_rev, concat_app, rev_app_distr. cbn [concat]. by rewrite app_nil_r.
    + apply Forall_app in Hb as [_ Hb]. apply Forall_cons in Hb as [Hb _]. apply Forall_cons in Hr as [Hr _]. congruence.
  - rewrite Hi, Hcs, take_app_ge by lia. replace (length pre + 1 - length pre)%nat with 1%nat by lia. rewrite (firstn_cons 0), take_0, rev_app_distr. cbn [rev app]. rewrite HB.
    rewrite walk_chunks_concat. cbn [concat]. rewrite concat_rev, Hk. unfold at_most. rewrite List.filter_app. fold (at_most hi (concat pre ++ l)). fold (at_most hi (x :: r ++ concat post)).
    rewrite at_most_below, at_most_from by done. rewrite !rev_app_distr, <- rev_app_distr. case_bool_decide as E.
    + rewrite decide_True by done. replace (take (length l + 1) (l ++ x :: r)) with (l ++ [x]); [by rewrite !rev_app_distr, <- !app_assoc|].
      rewrite take_app_ge by lia. by replace (length l + 1 - length l)%nat with 1%nat by lia.
    + rewrite decide_False by done. by rewrite take_app_length, !rev_app_distr.
Qed.
End Invariant.

(** ** The set *)

Section Refinement.
Context {K : Type} `{!KeyOrder K, !KeyOrderOK K}.
Implicit Types (k : K) (o : sortedChunks K) (ks : list K).

Definition emptyChunks : sortedChunks K := mkChunks [] 0 None.

(** A chunked set is its strictly ascending list of keys.  From the empty set or
    a set built from ascending keys, has is membership, put and remove insert and
    drop exactly their key and report whether they did, the batch forms are the
    puts one by one and count the new keys, and the walks visit, up or down from
    a bound and until the callback stops, exactly the keys on that side of it;
    the length is kept and no chunk outgrows twice the chunk size. *)
Theorem sorted_chunks_refine o : sc_ok o ->
  sc_n o = length (keys o) /\ StronglySorted (fun x y => kltb x y = true) (keys o) /\
  Forall (fun c => (1 <= length c <= 2 * orderedKeyChunk)%nat) (chunks o) /\
  (forall k, sc_has k o = bool_decide (k ∈ keys o)) /\
  (forall k, let '(o', added) := sc_put k o in sc_ok o' /\ keys o' = put_list (keys o) k /\ added = bool_decide (k ∉ keys o)) /\
  (forall k, let '(o', found) := sc_remove k o in sc_ok o' /\ keys o' = without k (keys o) /\ found = bool_decide (k ∈ keys o)) /\
  (forall ks, StronglySorted (fun x y => kltb x y = true) ks ->
     let '(o', n) := putSorted ks 0 o in sc_ok o' /\ keys o' = fold_left put_list ks (keys o) /\ n = (length (keys o') - length (keys o))%nat) /\
  (forall ks, StronglySorted (fun x y => kltb x y = true) ks -> (forall k, k ∈ ks -> k ∉ keys o) ->
     sc_ok (insertSorted ks o) /\ keys (insertSorted ks o) = fold_left put_list ks (keys o)) /\
  (forall S k (fn : S -> K -> S * bool) s,
     forEachFrom k fn s o = fst (walk fn s (at_least k (keys o))) /\
     forEachDownFrom k fn s o = fst (walk fn s (rev (at_most k (keys o)))) /\
     forEachDownAll fn s o = fst (walk fn s (rev (keys o)))).
Proof.
  intros Hok. pose proof (ok_chunks _ Hok) as Hcs. split_and!.
  - apply Hok.
  - apply Hcs.
  - apply Forall_forall. intros c Hc. destruct Hcs as [Hne Hsz _]. rewrite Forall_forall in Hne, Hsz. specialize (Hne c Hc). specialize (Hsz c Hc).
    destruct c; [done|cbn [length] in *; lia].
  - intros k. by apply has_exact.
  - intros k. by apply put_ok.
  - intros k. by apply remove_keys.
  - intros ks Hs. pose proof (putSorted_ok ks 0 o Hok Hs) as H. by destruct (putSorted ks 0 o).
  - intros ks Hs Hn. by apply insertSorted_ok.
  - intros S k fn s. split_and!; [by apply forEachFrom_exact|by apply forEachDownFrom_exact|apply forEachDownAll_exact].
Qed.

Lemma empty_ok : sc_ok emptyChunks /\ keys emptyChunks = [].
Proof. split; [|done]. split; [|done]. split; constructor. Qed.
End Refinement.

Lemma sorted_chunks_refine_witness :
  let o := fst (putSorted [3; 7; 9] 0 (fst (sc_put 5 (newSortedChunksFrom [1; 4])))) in
  sc_ok o /\ keys o = [1; 3; 4; 5; 7; 9] /\ sc_has 4 o = true /\ keys (fst (sc_remove 4 o)) = [1; 3; 5; 7; 9] /\
  forEachDownFrom 6 (fun s k => (s ++ [k], (length s <? 2)%nat)) [] o = [5; 4; 3].
Proof.
  intros o. assert (Hok : sc_ok o).
  { assert (H1 : sc_ok (newSortedChunksFrom [1; 4])) by (apply newSortedChunksFrom_ok; repeat constructor).
    destruct (sorted_chunks_refine _ H1) as (_ & _ & _ & _ & Hput & _). specialize (Hput 5).
    unfold o. destruct (sc_put 5 (newSortedChunksFrom [1; 4])) as [o1 b]. destruct Hput as [H2 _].
    destruct (sorted_chunks_refine _ H2) as (_ & _ & _ & _ & _ & _ & Hps & _). specialize (Hps [3; 7; 9] ltac:(repeat constructor)). cbn [fst].
    destruct (putSorted [3; 7; 9] 0 o1). apply Hps. }
  split; [exact Hok|]. split; [vm_compute; reflexivity|]. destruct (sorted_chunks_refine o Hok) as (_ & _ & _ & Hhas & _).
  split; [rewrite Hhas; vm_compute; reflexivity|]. split; vm_compute; reflexivity.
Defined.
