(* ===== verification/ChunkCounts.v ===== *)
(** * Counted chunks (internal/index/sorted_chunks.go, counted mode)

    A counted structure keeps a multiplicity per key, the total of each chunk and
    a Fenwick tree over the totals.  The theorem shows that it refines a multiset:
    addCount moves one multiplicity and keeps it at least 0, and countRange is the
    sum of the multiplicities of the keys in the range. *)

From S2P Require Import Prelude Fenwick SortedChunks.

(** ** Operations *)

Definition sumZ (l : list Z) : Z := foldr Z.add 0 l.

(** [slices.Insert(l, i, x)] and [slices.Delete(l, i, i+1)] in range. *)
Definition insert_at {A} (i : nat) (x : A) (l : list A) : list A := take i l ++ x :: drop i l.

Definition counts_of {K} (o : sortedChunks K) : chunkCounts := default (mkCounts [] [] []) (counts o).

Section Ops.
Context {K : Type} `{!KeyOrder K}.
Implicit Types (k : K) (o : sortedChunks K).

Definition insertCounted k (c : Z) o : sortedChunks K :=
  let cc := counts_of o in
  if (length (chunks o) =? 0)%nat then
    let tot' := tot cc ++ [c] in
    mkChunks (chunks o ++ [[k]]) (sc_n o + 1) (Some (mkCounts (cnt cc ++ [[c]]) tot' (rebuildFenwick tot')))
  else
    let ci := chunkIdx o k in
    let ci := if (ci =? length (chunks o))%nat then (ci - 1)%nat else ci in
    let pos := fst (BinarySearch (chunk_at o ci) k) in
    let full := insert_at pos k (chunk_at o ci) in
    let fc := insert_at pos c (nth ci (cnt cc) []) in
    let t := nth ci (tot cc) 0 + c in
    if (length full <=? 2 * orderedKeyChunk)%nat then
      mkChunks (<[ci := full]> (chunks o)) (sc_n o + 1)
        (Some (mkCounts (<[ci := fc]> (cnt cc)) (<[ci := t]> (tot cc)) (fenAdd (fen cc) ci c)))
    else
      let mid := Nat.div2 (length full) in
      let rc := drop mid fc in
      let rt := sumZ rc in
      let tot' := insert_at (ci + 1) rt (<[ci := t - rt]> (tot cc)) in
      mkChunks (insert_at (ci + 1) (drop mid full) (<[ci := take mid full]> (chunks o))) (sc_n o + 1)
        (Some (mkCounts (insert_at (ci + 1) rc (<[ci := take mid fc]> (cnt cc))) tot' (rebuildFenwick tot'))).

(** The chunk that takes in its right neighbour, where there is one to merge. *)
Definition merge_at (ci : nat) (cs : list (list K)) : option nat :=
  let c := nth ci cs [] in
  if (Nat.div2 orderedKeyChunk <=? length c)%nat then None
  else if (ci + 1 <? length cs)%nat && (length c + length (nth (ci + 1) cs []) <=? 2 * orderedKeyChunk)%nat then Some ci
  else if (0 <? ci)%nat && (length (nth (ci - 1) cs []) + length c <=? 2 * orderedKeyChunk)%nat then Some (ci - 1)%nat
  else None.

(** [l[at] += l[at+1]] and the slot after it dropped. *)
Definition join_at {A} (f : A -> A -> A) (d : A) (at_ : nat) (l : list A) : list A :=
  delete (at_ + 1)%nat (<[at_ := f (nth at_ l d) (nth (at_ + 1) l d)]> l).

Definition mergeCountedIfUndersized (ci : nat) o : option (sortedChunks K) :=
  let cc := counts_of o in
  match merge_at ci (chunks o) with
  | None => None
  | Some at_ =>
      let tot' := join_at Z.add 0 at_ (tot cc) in
      Some (mkChunks (join_at app [] at_ (chunks o)) (sc_n o) (Some (mkCounts (join_at app [] at_ (cnt cc)) tot' (rebuildFenwick tot'))))
  end.

Definition removeCountedAt (ci pos : nat) o : sortedChunks K :=
  let cc := counts_of o in
  let c := nth pos (nth ci (cnt cc) []) 0 in
  let chunks' := <[ci := delete pos (chunk_at o ci)]> (chunks o) in
  let cnt' := <[ci := delete pos (nth ci (cnt cc) [])]> (cnt cc) in
  let tot' := <[ci := nth ci (tot cc) 0 - c]> (tot cc) in
  if (length (delete pos (chunk_at o ci)) =? 0)%nat then
    mkChunks (delete ci chunks') (sc_n o - 1) (Some (mkCounts (delete ci cnt') (delete ci tot') (rebuildFenwick (delete ci tot'))))
  else
    let o' := mkChunks chunks' (sc_n o - 1) (Some (mkCounts cnt' tot' (fen cc))) in
    match mergeCountedIfUndersized ci o' with
    | Some o'' => o''
    | None => mkChunks chunks' (sc_n o - 1) (Some (mkCounts cnt' tot' (fenAdd (fen cc) ci (- c))))
    end.

(** The counts appear with the first call that changes something. *)
Definition counting o : sortedChunks K := mkChunks (chunks o) (sc_n o) (Some (counts_of o)).

Definition addCount k (d : Z) o : sortedChunks K :=
  if d =? 0 then o
  else
    let o := counting o in
    let cc := counts_of o in
    let ci := chunkIdx o k in
    let absent := if d >? 0 then insertCounted k d o else o in
    if (ci <? length (chunks o))%nat then
      let '(pos, found) := BinarySearch (chunk_at o ci) k in
      if found then
        let c := nth pos (nth ci (cnt cc) []) 0 in
        if c + d <=? 0 then removeCountedAt ci pos o
        else mkChunks (chunks o) (sc_n o)
               (Some (mkCounts (<[ci := <[pos := c + d]> (nth ci (cnt cc) [])]> (cnt cc)) (<[ci := nth ci (tot cc) 0 + d]> (tot cc)) (fenAdd (fen cc) ci d)))
      else absent
    else absent.

Definition locate o k (past : bool) : nat * nat :=
  let ci := chunkIdx o k in
  if (ci =? length (chunks o))%nat then (ci, 0%nat)
  else
    let '(pos, found) := BinarySearch (chunk_at o ci) k in
    (ci, if found && past then (pos + 1)%nat else pos).

(** From the nearer end of the chunk. *)
Definition countBefore o (ci pos : nat) : Z :=
  let cc := counts_of o in
  if (ci =? length (chunks o))%nat then prefixTotal (fen cc) ci
  else
    let cs := nth ci (cnt cc) [] in
    let part := if (pos <=? Nat.div2 (length cs))%nat then sumZ (take pos cs)
                else foldl Z.sub (nth ci (tot cc) 0) (drop pos cs) in
    prefixTotal (fen cc) ci + part.

(** A NaN bound is [None]. *)
Definition countRange o (lo hi : option K) (inclLo inclHi : bool) : Z :=
  match counts o, lo, hi with
  | Some cc, Some lo, Some hi =>
      if kltb hi lo || (bool_decide (lo = hi) && (negb inclLo || negb inclHi)) then 0
      else
        let '(ciS, posS) := locate o lo (negb inclLo) in
        let '(ciE, posE) := locate o hi inclHi in
        if (ciS =? ciE)%nat then
          if (ciS <? length (cnt cc))%nat && (posS <? posE)%nat then sumZ (take (posE - posS) (drop posS (nth ciS (cnt cc) []))) else 0
        else Z.max (countBefore o ciE posE - countBefore o ciS posS) 0
  | _, _, _ => 0
  end.
End Ops.

(** ** Editing the middle of a list *)

Lemma concat_map_map {A B} (f : A -> B) (ls : list (list A)) : concat (map (map f) ls) = map f (concat ls).
Proof. symmetry. apply concat_map. Qed.

Lemma insert_at_split {A} (l r : list A) (x : A) : insert_at (length l) x (l ++ r) = l ++ x :: r.
Proof. unfold insert_at. by rewrite take_app_length, drop_app_length. Qed.

Lemma insert_at_next {A} (l r : list A) (x y : A) : insert_at (length l + 1) y (l ++ x :: r) = l ++ x :: y :: r.
Proof.
  replace (length l + 1)%nat with (length (l ++ [x])) by (rewrite length_app; done). replace (l ++ x :: r) with ((l ++ [x]) ++ r) by by rewrite <- app_assoc.
  rewrite insert_at_split. by rewrite <- app_assoc.
Qed.

Lemma join_at_split {A} (f : A -> A -> A) (d x y : A) (l r : list A) : join_at f d (length l) (l ++ x :: y :: r) = l ++ f x y :: r.
Proof.
  unfold join_at. rewrite nth_middle, app_nth2_plus. cbn [nth]. by rewrite list_insert_middle, delete_next.
Qed.

Lemma map_split_app {A B} (f : A -> B) (l : list A) (a b : list B) : map f l = a ++ b -> exists l1 l2, l = l1 ++ l2 /\ map f l1 = a /\ map f l2 = b.
Proof. intros H. apply map_eq_app in H as (l1 & l2 & -> & <- & <-). by exists l1, l2. Qed.

Lemma map_split_cons {A B} (f : A -> B) (l : list A) (b : B) (r : list B) : map f l = b :: r -> exists x l', l = x :: l' /\ f x = b /\ map f l' = r.
Proof. intros H. apply map_eq_cons in H as (x & l' & -> & <- & <-). by exists x, l'. Qed.

Lemma nth_map_middle {A B} (g : A -> B) (P : list A) c Q d : nth (length P) (map g (P ++ c :: Q)) d = g c.
Proof. rewrite map_app. cbn [map]. rewrite <- (length_map g P). apply nth_middle. Qed.

Lemma insert_map_middle {A B} (g : A -> B) (P : list A) c Q y : <[length P := y]> (map g (P ++ c :: Q)) = map g P ++ y :: map g Q.
Proof. rewrite map_app. cbn [map]. rewrite <- (length_map g P). apply list_insert_middle. Qed.

Lemma insert_at_next_map {A B} (g : A -> B) (P : list A) (x y : B) r : insert_at (length P + 1) y (map g P ++ x :: r) = map g P ++ x :: y :: r.
Proof. rewrite <- (length_map g P). apply insert_at_next. Qed.

Lemma split_two {A} (l : list A) i : (i + 1 < length l)%nat -> exists a x y b, l = a ++ x :: y :: b /\ length a = i.
Proof.
  intros Hi. destruct (lookup_lt_is_Some_2 l i) as [x Hx]; [lia|]. destruct (lookup_lt_is_Some_2 l (S i)) as [y Hy]; [lia|].
  exists (take i l), x, y, (drop (S (S i)) l). rewrite <- (drop_S l y (S i) Hy), <- (drop_S l x i Hx), take_drop, length_take. split; [done|lia].
Qed.

Lemma map_join_at {A B} (g : A -> B) f f' d d' i l : (forall x y, g (f x y) = f' (g x) (g y)) -> (i + 1 < length l)%nat ->
  map g (join_at f d i l) = join_at f' d' i (map g l).
Proof.
  intros Hg Hi. destruct (split_two l i Hi) as (a & x & y & b & -> & <-). rewrite join_at_split, !map_app. cbn [map].
  rewrite <- (length_map g a). rewrite join_at_split. by rewrite Hg.
Qed.

Lemma concat_join_at {A} i (l : list (list A)) : (i + 1 < length l)%nat -> concat (join_at app [] i l) = concat l.
Proof.
  intros Hi. destruct (split_two l i Hi) as (a & x & y & b & -> & <-). rewrite join_at_split, !concat_app. cbn [concat]. by rewrite <- app_assoc.
Qed.

Lemma filter_prefix {A} (f : A -> bool) (a b : list A) : Forall (fun x => f x = true) a -> Forall (fun x => f x = false) b -> List.filter f (a ++ b) = a.
Proof.
  intros Ha Hb. rewrite List.filter_app. replace (List.filter f b) with (@nil A).
  - rewrite app_nil_r. induction Ha as [|x a Hx _ IH]; [done|]. cbn [List.filter]. by rewrite Hx, IH.
  - induction Hb as [|x b Hx _ IH]; [done|]. cbn [List.filter]. by rewrite Hx.
Qed.

(** ** The multiset a counted structure stands for *)

Section Counted.
Context {K : Type} `{!KeyOrder K, !KeyOrderOK K}.
Implicit Types (k x : K) (o : sortedChunks K) (l r : list (K * Z)) (cells : list (list (K * Z))).

(** Every key with its multiplicity, ascending. *)
Definition entries o : list (K * Z) := zip (keys o) (concat (cnt (counts_of o))).

Definition mult l x : Z := sumZ (map snd (List.filter (fun p => bool_decide (p.1 = x)) l)).

Definition tsum l : Z := sumZ (map snd l).

(** The structure with these cells; the tree is not read before the first insert. *)
Definition counted o cells : Prop :=
  exists fen, o = mkChunks (map (map fst) cells) (length (concat cells)) (Some (mkCounts (map (map snd) cells) (map tsum cells) fen)) /\
    (cells <> [] -> fen_ok (map tsum cells) fen) /\ cs_ok (map (map fst) cells) /\ Forall (fun p => 0 < p.2) (concat cells).

Lemma sumZ_app (a b : list Z) : sumZ (a ++ b) = sumZ a + sumZ b.
Proof. apply foldr_add_app. Qed.

Lemma tsum_app l r : tsum (l ++ r) = tsum l + tsum r.
Proof. unfold tsum. by rewrite map_app, sumZ_app. Qed.

Lemma mult_app l r x : mult (l ++ r) x = mult l x + mult r x.
Proof. unfold mult. by rewrite List.filter_app, map_app, sumZ_app. Qed.

Lemma mult_cons p l x : mult (p :: l) x = (if bool_decide (p.1 = x) then p.2 else 0) + mult l x.
Proof. unfold mult. cbn [List.filter]. by case_bool_decide. Qed.

Lemma mult_absent l x : x ∉ map fst l -> mult l x = 0.
Proof.
  induction l as [|p l IH]; intros Hn; [done|]. cbn [map] in Hn. apply not_elem_of_cons in Hn as [Hne Hn]. rewrite mult_cons, IH by done.
  by rewrite bool_decide_eq_false_2 by done.
Qed.

Lemma mult_pos l x : Forall (fun p => 0 < p.2) l -> 0 <= mult l x /\ (x ∈ map fst l <-> 0 < mult l x).
Proof.
  induction 1 as [|p l Hp _ IH]; cbn [map].
  - split; [done|]. split; [by intros ?%not_elem_of_nil|]. unfold mult. cbn. lia.
  - rewrite mult_cons, elem_of_cons. destruct IH as [H1 H2]. case_bool_decide as E; [split; [lia|]; split; [intros _; lia|intros _; by left]|].
    split; [lia|]. rewrite H2. split; [intros [->|]; [done|lia]|]. right. lia.
Qed.

Lemma counted_entries o cells : counted o cells -> entries o = concat cells /\ keys o = map fst (concat cells).
Proof.
  intros (fen & -> & _). unfold entries, keys, counts_of. cbn. rewrite !concat_map_map. split; [|done].
  induction (concat cells) as [|[k c] l IH]; [done|]. cbn [map zip zip_with]. cbn [fst snd]. by f_equal.
Qed.

(** The chunks of the counted operations are those of the set operations. *)
Lemma insertCounted_chunks k c o : chunks (insertCounted k c o) = chunks (sc_insert k o).
Proof.
  unfold insertCounted, sc_insert. destruct (Nat.eqb_spec (length (chunks o)) 0) as [Hz|Hz].
  { apply length_zero_iff_nil in Hz. cbn. by rewrite Hz. }
  cbv zeta. set (ci := if (chunkIdx o k =? length (chunks o))%nat then (chunkIdx o k - 1)%nat else chunkIdx o k). assert (Hci : (ci < length (chunks o))%nat).
  { unfold ci. destruct (Nat.eqb_spec (chunkIdx o k) (length (chunks o))); [lia|]. unfold chunkIdx in *.
    pose proof (Search_le (length (chunks o)) (fun i => reaches k (chunk_at o i))). lia. }
  clearbody ci. cbn [set_chunks chunks]. unfold put_chunk. fold (insert_at (BinarySearch (chunk_at o ci) k).1 k (chunk_at o ci)).
  set (full := insert_at _ _ _). destruct (Nat.leb_spec (length full) (2 * orderedKeyChunk)), (Nat.ltb_spec (2 * orderedKeyChunk) (length full)); try lia; [done|].
  cbn [chunks]. rewrite insert_take_drop by lia. rewrite <- (length_take_le (chunks o) ci) at 1 by lia. by rewrite insert_at_next.
Qed.

Lemma tot_middle pre c post fen d : fen_ok (map tsum (pre ++ c :: post)) fen ->
  nth (length pre) (map tsum (pre ++ c :: post)) 0 = tsum c /\
  fen_ok (map tsum pre ++ (tsum c + d) :: map tsum post) (fenAdd fen (length pre) d).
Proof.
  intros Hf. rewrite map_app in *. cbn [map] in *. rewrite <- (length_map tsum pre) at 1 2. rewrite nth_middle. split; [done|].
  rewrite <- (list_insert_middle (map tsum pre) (map tsum post) (tsum c) (tsum c + d)). rewrite length_map. apply fenAdd_ok; [done|].
  rewrite lookup_app_r, length_map, Nat.sub_diag by (rewrite length_map; lia). done.
Qed.

Lemma cells_split cells (pre : list (list K)) (c : list K) post : map (map fst) cells = pre ++ c :: post ->
  exists P C Q, cells = P ++ C :: Q /\ map (map fst) P = pre /\ map fst C = c /\ map (map fst) Q = post.
Proof.
  intros (P & X & -> & HP & HX)%map_split_app. apply map_split_cons in HX as (C & Q & -> & HC & HQ). by exists P, C, Q.
Qed.

(** Inserting an absent key. *)
Lemma insertCounted_ok k c o cells : counted o cells -> 0 < c -> k ∉ map fst (concat cells) ->
  exists cells' A B, counted (insertCounted k c o) cells' /\ concat cells = A ++ B /\ concat cells' = A ++ (k, c) :: B.
Proof.
  intros Hc Hpos Hn. pose proof (proj2 (counted_entries o cells Hc)) as Hk. pose proof Hc as (fen & Ho & Hf & Hcs & Hp).
  assert (Hok' : cs_ok (chunks (insertCounted k c o))).
  { rewrite insertCounted_chunks. apply insert_keys; [by subst o|by rewrite Hk]. }
  revert Hok'. unfold insertCounted. destruct (Nat.eqb_spec (length (chunks o)) 0) as [Hz|Hz]; intros Hok'.
  { subst o. cbn [chunks] in *. apply length_zero_iff_nil in Hz. rewrite Hz in *. apply map_eq_nil in Hz as ->. exists [[(k, c)]], [], []. split_and!; [|done|done].
    assert (E : map tsum [[(k, c)]] = [c]) by (unfold tsum; cbn; f_equal; lia). exists (rebuildFenwick [c]). rewrite E. split_and!; [done|intros _; apply rebuildFenwick_ok|done|by repeat constructor]. }
  destruct (insert_place o k) as (pre & l & r & post & Hsp & Hi & HB & Hl & Hr); [by subst o|by rewrite Hk|done|]. revert Hok'. cbv zeta. rewrite Hi. clear Hi.
  subst o. unfold counts_of, chunk_at. cbn [chunks counts from_option id cnt tot SortedChunks.fen sc_n] in *.
  destruct (cells_split _ _ _ _ Hsp) as (P & C & Q & -> & HP & HC & HQ). apply map_split_app in HC as (L & R & -> & HL & HR).
  assert (EP : length pre = length P) by (rewrite <- HP; apply length_map). assert (EL : length l = length L) by (rewrite <- HL; apply length_map).
  set (N := L ++ (k, c) :: R). rewrite EP. rewrite !(nth_map_middle (map fst)), !(nth_map_middle (map snd)), !(nth_map_middle tsum).
  assert (HB' : fst (BinarySearch (map fst (L ++ R)) k) = length L) by (by rewrite map_app, HL, HR, HB).
  assert (E1 : insert_at (length L) k (map fst (L ++ R)) = map fst N) by (unfold N; rewrite !map_app, <- (length_map fst L); apply insert_at_split).
  assert (E2 : insert_at (length L) c (map snd (L ++ R)) = map snd N) by (unfold N; rewrite !map_app, <- (length_map snd L); apply insert_at_split).
  assert (Et : tsum (L ++ R) + c = tsum N).
  { unfold N. rewrite !tsum_app. change (tsum ((k, c) :: R)) with (c + tsum R). lia. }
  rewrite HB', E1, E2, Et, !insert_map_middle, length_map.
  assert (Hnonempty : P ++ (L ++ R) :: Q <> []) by by destruct P. destruct (tot_middle P (L ++ R) Q fen c (Hf Hnonempty)) as [_ Hfen]. rewrite Et in Hfen.
  assert (Hlen : forall X, concat X = concat P ++ N ++ concat Q -> (length (concat (P ++ (L ++ R) :: Q)) + 1)%nat = length (concat X)).
  { intros X ->. unfold N. rewrite concat_app. cbn [concat]. rewrite !length_app. cbn [length]. lia. }
  assert (Hpos' : Forall (fun p => 0 < p.2) (concat P ++ N ++ concat Q)).
  { unfold N. rewrite concat_app in Hp. cbn [concat] in Hp. rewrite !Forall_app, Forall_cons in *. naive_solver. }
  assert (HAB : concat (P ++ (L ++ R) :: Q) = (concat P ++ L) ++ R ++ concat Q) by (rewrite concat_app; cbn [concat]; by rewrite <- !app_assoc).
  assert (HN : concat P ++ N ++ concat Q = (concat P ++ L) ++ (k, c) :: R ++ concat Q) by (unfold N; by rewrite <- !app_assoc).
  destruct (Nat.leb_spec (length N) (2 * orderedKeyChunk)) as [Hle|Hgt]; cbn [chunks]; intros Hok'.
  - exists (P ++ N :: Q), (concat P ++ L), (R ++ concat Q). assert (Hcc : concat (P ++ N :: Q) = concat P ++ N ++ concat Q) by by rewrite concat_app.
    split_and!; [|done|by rewrite Hcc]. exists (fenAdd fen (length P) c). rewrite !map_app. cbn [map]. split_and!; [|done| |by rewrite Hcc].
    + f_equal. by apply Hlen.
    + done.
  - set (mid := Nat.div2 (length N)) in *. exists (P ++ take mid N :: drop mid N :: Q), (concat P ++ L), (R ++ concat Q).
    assert (Hcc : concat (P ++ take mid N :: drop mid N :: Q) = concat P ++ N ++ concat Q) by (rewrite concat_app; cbn [concat]; by rewrite (app_assoc (take mid N)), take_drop).
    split_and!; [|done|by rewrite Hcc]. rewrite !insert_at_next_map, !skipn_map, !firstn_map in *.
    assert (Hrt : tsum N - sumZ (map snd (drop mid N)) = tsum (take mid N)).
    { change (sumZ (map snd (drop mid N))) with (tsum (drop mid N)). rewrite <- (take_drop mid N) at 1. rewrite tsum_app. lia. }
    rewrite Hrt in *. change (sumZ (map snd (drop mid N))) with (tsum (drop mid N)) in *.
    eexists. rewrite !map_app. cbn [map]. split_and!; [|intros _; apply rebuildFenwick_ok| |by rewrite Hcc].
    + f_equal. by apply Hlen.
    + done.
Qed.

Lemma merge_same ci (cs : list (list K)) :
  mergeIfUndersized ci cs = match merge_at ci cs with Some at_ => join_at app [] at_ cs | None => cs end.
Proof.
  unfold mergeIfUndersized, merge_at, join_at. destruct (_ <=? length (nth ci cs []))%nat; [done|]. destruct ((ci + 1 <? length cs)%nat && _); [done|].
  destruct ((0 <? ci)%nat && _) eqn:E; [|done]. apply andb_true_iff in E as [E%Nat.ltb_lt _]. by replace (ci - 1 + 1)%nat with ci by lia.
Qed.

Lemma merge_at_range ci (cs : list (list K)) at_ : (ci < length cs)%nat -> merge_at ci cs = Some at_ -> (at_ + 1 < length cs)%nat.
Proof.
  unfold merge_at. intros Hci. destruct (_ <=? length (nth ci cs []))%nat; [done|]. destruct ((ci + 1 <? length cs)%nat && _) eqn:E.
  - apply andb_true_iff in E as [E%Nat.ltb_lt _]. by intros [= <-].
  - destruct ((0 <? ci)%nat && _) eqn:E2; [|done]. apply andb_true_iff in E2 as [E2%Nat.ltb_lt _]. intros [= <-]. lia.
Qed.

(** Removing the key at a position. *)
Lemma removeCountedAt_ok o P L k c R Q : counted o (P ++ (L ++ (k, c) :: R) :: Q) ->
  exists cells', counted (removeCountedAt (length P) (length L) o) cells' /\ concat cells' = (concat P ++ L) ++ R ++ concat Q.
Proof.
  intros (fen & Ho & Hf & Hcs & Hp). set (C := L ++ (k, c) :: R) in *. assert (Hne : P ++ C :: Q <> []) by by destruct P.
  destruct (tot_middle P C Q fen (- c) (Hf Hne)) as [_ Hfen]. assert (Et : tsum C + - c = tsum (L ++ R)).
  { unfold C. rewrite !tsum_app. change (tsum ((k, c) :: R)) with (c + tsum R). lia. }
  rewrite Et in Hfen. assert (Hcc : concat (P ++ C :: Q) = (concat P ++ L) ++ (k, c) :: R ++ concat Q).
  { rewrite concat_app. cbn [concat]. unfold C. by rewrite <- !app_assoc. }
  assert (Hpos' : Forall (fun p => 0 < p.2) ((concat P ++ L) ++ R ++ concat Q)).
  { rewrite Hcc in Hp. rewrite Forall_app, Forall_cons in Hp. apply Forall_app. naive_solver. }
  assert (Hlen : forall X, concat X = (concat P ++ L) ++ R ++ concat Q -> (length (concat (P ++ C :: Q)) - 1)%nat = length (concat X)).
  { intros X ->. rewrite Hcc, !length_app. cbn [length]. rewrite !length_app. lia. }
  assert (Hdel : forall (g : K * Z -> K), delete (length L) (map g C) = map g (L ++ R)).
  { intros g. unfold C. rewrite !map_app. cbn [map]. rewrite <- (length_map g L). apply delete_middle. }
  assert (Hdel2 : delete (length L) (map snd C) = map snd (L ++ R)).
  { unfold C. rewrite !map_app. cbn [map]. rewrite <- (length_map snd L). apply delete_middle. }
  assert (Hc : nth (length L) (map snd C) 0 = c).
  { unfold C. rewrite map_app. cbn [map]. rewrite <- (length_map snd L). apply nth_middle. }
  subst o. unfold removeCountedAt, counts_of, chunk_at. cbn [chunks counts from_option id cnt tot SortedChunks.fen sc_n].
  rewrite !(nth_map_middle (map fst)), !(nth_map_middle (map snd)), !(nth_map_middle tsum), Hdel, Hdel2, Hc, !insert_map_middle, length_map.
  replace (tsum C - c) with (tsum (L ++ R)) by lia. destruct Hcs as [N1 S1 Srt]. rewrite concat_map_map, Hcc in Srt.
  assert (Hsorted : StronglySorted (fun x y => kltb x y = true) (map fst ((concat P ++ L) ++ R ++ concat Q))).
  { rewrite map_app in *. cbn [map] in *. apply StronglySorted_app in Srt as (H1 & H2 & H3). apply StronglySorted_inv in H3 as [H3 _]. apply StronglySorted_app.
    split_and!; [|done|done]. intros x y Hx Hy. apply H1; [done|by right]. }
  rewrite map_app in N1, S1. cbn [map] in N1, S1. rewrite Forall_app, Forall_cons in N1, S1. destruct N1 as (NP & _ & NQ), S1 as (SP & SC & SQ).
  destruct (Nat.eqb_spec (length (L ++ R)) 0) as [Hz|Hz].
  - apply length_zero_iff_nil, app_eq_nil in Hz as [-> ->]. exists (P ++ Q). rewrite !app_nil_r in *. cbn [app] in *.
    assert (E : concat (P ++ Q) = concat P ++ concat Q) by apply concat_app. split; [|done].
    assert (Hd : forall B (g : list (K * Z) -> B) z, delete (length P) (map g P ++ z :: map g Q) = map g (P ++ Q)).
    { intros B g z. rewrite map_app, <- (length_map g P). apply delete_middle. }
    rewrite !Hd. eexists. split_and!; [f_equal; by apply Hlen|intros _; apply rebuildFenwick_ok| |by rewrite E].
    split; [rewrite map_app; by apply Forall_app|rewrite map_app; by apply Forall_app|by rewrite concat_map_map, E].
  - set (X := P ++ (L ++ R) :: Q).
    assert (HX : forall B (g : list (K * Z) -> B), map g P ++ g (L ++ R) :: map g Q = map g X) by (intros B g; unfold X; by rewrite map_app).
    assert (HcX : concat X = (concat P ++ L) ++ R ++ concat Q) by (unfold X; rewrite concat_app; cbn [concat]; by rewrite <- !app_assoc).
    rewrite (HX _ (map fst)), (HX _ (map snd)), (HX _ tsum) in *.
    assert (Hsh : shape_ok (map (map fst) X)).
    { unfold X. rewrite map_app. cbn [map]. apply (shape_replace _ (map fst C)); [split; apply Forall_app; (split; [done|]); constructor; done || (unfold C; by destruct L)| |].
      - intros E. apply map_eq_nil in E. by rewrite E in Hz.
      - unfold C in SC. rewrite length_map, length_app in *. cbn [length] in SC. lia. }
    unfold mergeCountedIfUndersized, counts_of. cbn [chunks counts from_option id cnt tot sc_n].
    destruct (merge_at (length P) (map (map fst) X)) as [at_|] eqn:Em.
    + assert (Hr : (at_ + 1 < length X)%nat).
      { apply merge_at_range in Em; [by rewrite length_map in Em|]. unfold X. rewrite length_map, length_app. cbn [length]. lia. }
      exists (join_at app [] at_ X). rewrite concat_join_at by done. split; [|done].
      rewrite <- (map_join_at (map fst) app app [] []), <- (map_join_at (map snd) app app [] []), <- (map_join_at tsum app Z.add [] 0) by (done || intros; apply map_app || apply tsum_app).
      eexists. split_and!; [f_equal; apply Hlen; by rewrite concat_join_at|intros _; apply rebuildFenwick_ok| |by rewrite concat_join_at, HcX].
      destruct (merge_ok (map (map fst) P) (map fst (L ++ R)) (map (map fst) Q)) as [[M1 M2] M3]; [by rewrite (HX _ (map fst))|].
      rewrite (HX _ (map fst)), length_map, merge_same, Em in M1, M2.
      rewrite (map_join_at (map fst) app app [] []) by (done || intros; apply map_app).
      split; [done|done|]. rewrite concat_join_at by by rewrite length_map. by rewrite concat_map_map, HcX.
    + exists X. split; [|done]. eexists. split_and!; [f_equal; by apply Hlen|intros _; exact Hfen| |by rewrite HcX].
      split; [apply Hsh|apply Hsh|by rewrite concat_map_map, HcX].
Qed.

(** Changing the multiplicity of a stored key. *)
Lemma updateCounted_ok o P L k c R Q d : counted o (P ++ (L ++ (k, c) :: R) :: Q) -> 0 < c + d ->
  let cc := counts_of o in
  let ci := length P in
  counted (mkChunks (chunks o) (sc_n o)
    (Some (mkCounts (<[ci := <[length L := c + d]> (nth ci (cnt cc) [])]> (cnt cc)) (<[ci := nth ci (tot cc) 0 + d]> (tot cc)) (fenAdd (fen cc) ci d))))
    (P ++ (L ++ (k, c + d) :: R) :: Q).
Proof.
  intros (fen & -> & Hf & Hcs & Hp) Hpos. set (C := L ++ (k, c) :: R) in *. set (N := L ++ (k, c + d) :: R).
  assert (Hne : P ++ C :: Q <> []) by by destruct P. destruct (tot_middle P C Q fen d (Hf Hne)) as [_ Hfen].
  unfold counts_of. cbn [chunks counts from_option id cnt tot SortedChunks.fen sc_n]. cbv zeta.
  rewrite !(nth_map_middle (map snd)), !(nth_map_middle tsum), !insert_map_middle.
  assert (Et : tsum C + d = tsum N).
  { unfold C, N. rewrite !tsum_app. change (tsum ((k, c) :: R)) with (c + tsum R). change (tsum ((k, c + d) :: R)) with (c + d + tsum R). lia. }
  assert (Es : <[length L := c + d]> (map snd C) = map snd N).
  { unfold C, N. rewrite !map_app. cbn [map snd]. rewrite <- (length_map snd L). apply list_insert_middle. }
  assert (Ek : map fst C = map fst N) by (unfold C, N; by rewrite !map_app).
  rewrite Et, Es in *. exists (fenAdd fen (length P) d). rewrite !map_app in *. cbn [map] in *. rewrite Ek in *. split_and!; [|done|done|].
  - f_equal. rewrite !concat_app. cbn [concat]. unfold C, N. rewrite !length_app. done.
  - unfold C, N in *. rewrite concat_app in *. cbn [concat] in *. rewrite !Forall_app, !Forall_cons in *. naive_solver.
Qed.

Lemma found_cell o cells k : counted o cells ->
  (chunkIdx o k = length (chunks o) /\ k ∉ map fst (concat cells)) \/
  (exists P L x c R Q, cells = P ++ (L ++ (x, c) :: R) :: Q /\ chunkIdx o k = length P /\ (length P < length (chunks o))%nat /\
     BinarySearch (chunk_at o (length P)) k = (length L, bool_decide (x = k)) /\ (x = k <-> k ∈ map fst (concat cells)) /\
     Forall (fun p => kltb p.1 k = true) (concat P ++ L) /\ Forall (fun p => kltb p.1 k = false) ((x, c) :: R ++ concat Q) /\
     Forall (fun p => kltb k p.1 = true) (R ++ concat Q)).
Proof.
  intros Hc. pose proof (counted_entries o cells Hc) as [_ Hk]. pose proof Hc as (fen & Ho & _ & Hcs & _).
  destruct (find_key o k) as [[Hi Hb]|(pre & l & x & r & post & Hsp & Hi & HB & Hl & Hx & Hr & Hkk)]; [by subst o| |].
  - left. split; [done|]. rewrite <- Hk. by apply not_in_below.
  - right. rewrite Ho in Hsp. cbn [chunks] in Hsp. destruct (cells_split _ _ _ _ Hsp) as (P & C & Q & -> & HP & HC & HQ).
    apply map_split_app in HC as (L & X & -> & HL & HX). apply map_split_cons in HX as ([x' c] & R & -> & <- & HR). cbn [fst] in *.
    assert (EP : length pre = length P) by (rewrite <- HP; apply length_map). assert (EL : length l = length L) by (rewrite <- HL; apply length_map).
    exists P, L, x', c, R, Q. split_and!.
    + done.
    + by rewrite <- EP.
    + rewrite Ho. cbn [chunks]. rewrite length_map, length_app. cbn [length]. lia.
    + rewrite Ho. unfold chunk_at. cbn [chunks]. rewrite (nth_map_middle (map fst)), map_app. cbn [map fst]. by rewrite HL, HR, HB, EL.
    + rewrite <- Hk, Hkk. by apply found_iff.
    + rewrite <- HL, <- HP, concat_map_map, <- map_app in Hl. by rewrite Forall_map in Hl.
    + assert (Hfr := from_later k _ x' Hr Hx). constructor; [done|]. rewrite <- HR, <- HQ, concat_map_map, <- map_app in Hfr. by rewrite Forall_map in Hfr.
    + apply StronglySorted_inv in Hr as [_ Hr]. assert (Ha : Forall (fun y => kltb k y = true) (r ++ concat post)).
      { eapply Forall_impl; [exact Hr|]. cbn. intros y Hy. destruct (kltb k y) eqn:E; [done|]. destruct (kltb k x') eqn:E2.
        - by rewrite (k_trans _ _ _ E2 Hy) in E.
        - by rewrite (k_total _ _ E2 Hx), Hy in E. }
      rewrite <- HR, <- HQ, concat_map_map, <- map_app in Ha. by rewrite Forall_map in Ha.
Qed.

Lemma mult_edit A B k c c' x : k ∉ map fst (A ++ B) ->
  mult (A ++ (k, c) :: B) k = c /\ (x <> k -> mult (A ++ (k, c) :: B) x = mult (A ++ (k, c') :: B) x /\ mult (A ++ (k, c) :: B) x = mult (A ++ B) x).
Proof.
  intros Hn. rewrite map_app, elem_of_app in Hn. rewrite !mult_app, !mult_cons. cbn [fst snd]. rewrite bool_decide_eq_true_2 by done.
  rewrite (mult_absent A k), (mult_absent B k) by tauto. split; [lia|]. intros Hx. rewrite bool_decide_eq_false_2 by done. lia.
Qed.

Lemma counted_nodup o A k c B cells : counted o cells -> concat cells = A ++ (k, c) :: B -> k ∉ map fst (A ++ B).
Proof.
  intros (fen & _ & _ & [_ _ Hs] & _) E. rewrite concat_map_map, E, map_app in Hs. cbn [map fst] in Hs. apply StronglySorted_app in Hs as (H1 & _ & H2).
  rewrite map_app, elem_of_app. intros [Hin|Hin].
  - specialize (H1 k k Hin ltac:(left)). by rewrite k_irrefl in H1.
  - by apply sorted_not_later in H2.
Qed.

Lemma addCount_ok o cells k d : counted (counting o) cells -> d <> 0 ->
  exists cells', counted (addCount k d o) cells' /\
    forall x, mult (concat cells') x = if bool_decide (x = k) then Z.max 0 (mult (concat cells) k + d) else mult (concat cells) x.
Proof.
  intros Hc Hd. unfold addCount. destruct (Z.eqb_spec d 0) as [|_]; [done|]. cbv zeta. set (o1 := counting o) in *. clearbody o1. pose proof Hc as (fen & _ & _ & _ & Hp).
  assert (Habs : k ∉ map fst (concat cells) -> exists cells', counted (if d >? 0 then insertCounted k d o1 else o1) cells' /\
    forall x, mult (concat cells') x = if bool_decide (x = k) then Z.max 0 (mult (concat cells) k + d) else mult (concat cells) x).
  { intros Hn. rewrite (mult_absent _ k Hn). destruct (Z.gtb_spec d 0).
    - destruct (insertCounted_ok k d o1 cells Hc ltac:(lia) Hn) as (cells' & A & B & Hc' & E & E'). exists cells'. split; [done|]. intros x. rewrite E in Hn. rewrite E, E'.
      destruct (mult_edit A B k d d x Hn) as [M1 M2]. case_bool_decide as Ex; [subst x; rewrite M1; lia|]. by apply M2.
    - exists cells. split; [done|]. intros x. case_bool_decide as Ex; [subst x; rewrite mult_absent by done; lia|done]. }
  destruct (found_cell o1 cells k Hc) as [[Hi Hn]|(P & L & x & c & R & Q & Hcells & Hi & Hlt & HB & Hin & Hl & Hr & _)].
  { rewrite Hi, Nat.ltb_irrefl. by apply Habs. }
  rewrite Hi. destruct (Nat.ltb_spec (length P) (length (chunks o1))); [|lia]. rewrite HB. case_bool_decide as Ex; [|by apply Habs; tauto]. subst x.
  assert (E : concat cells = (concat P ++ L) ++ (k, c) :: R ++ concat Q) by (rewrite Hcells, concat_app; cbn [concat]; by rewrite <- !app_assoc).
  pose proof (counted_nodup _ _ _ _ _ _ Hc E) as Hn.
  assert (Hcnt : nth (length L) (nth (length P) (cnt (counts_of o1)) []) 0 = c).
  { destruct Hc as (fen' & -> & _). unfold counts_of. cbn [counts from_option id cnt]. rewrite Hcells, (nth_map_middle (map snd)), map_app. cbn [map snd].
    rewrite <- (length_map snd L). apply nth_middle. }
  rewrite Hcnt. destruct (Z.leb_spec (c + d) 0) as [Hle|Hgt].
  - rewrite Hcells in Hc. destruct (removeCountedAt_ok o1 P L k c R Q Hc) as (cells' & Hc' & E'). exists cells'. split; [done|]. intros x. rewrite E, E'.
    destruct (mult_edit _ _ k c c x Hn) as [M1 M2]. rewrite M1. case_bool_decide as Ex; [subst x; rewrite mult_absent by done; lia|]. symmetry. by apply M2.
  - rewrite Hcells in Hc. eexists. split; [exact (updateCounted_ok o1 P L k c R Q d Hc Hgt)|]. intros x. rewrite concat_app. cbn [concat]. rewrite <- app_assoc, app_assoc. cbn [app]. rewrite E.
    destruct (mult_edit (concat P ++ L) (R ++ concat Q) k c (c + d) x Hn) as [M1 M2]. destruct (mult_edit (concat P ++ L) (R ++ concat Q) k (c + d) c x Hn) as [M3 _].
    rewrite M1. case_bool_decide as Ex; [subst x; rewrite M3; lia|]. symmetry. by apply M2.
Qed.

(** ** Counting a range *)

(** The key lies before the position of [k] ([past]: before or at [k]). *)
Definition before k (past : bool) (p : K * Z) : bool := if past then negb (kltb k p.1) else kltb p.1 k.

(** A position splits the cells into those before it and the rest. *)
Definition at_position o cells (ci pos : nat) (A : list (K * Z)) : Prop :=
  (ci = length (chunks o) /\ pos = 0%nat /\ A = concat cells) \/
  (exists P L R Q, cells = P ++ (L ++ R) :: Q /\ ci = length P /\ pos = length L /\ A = concat P ++ L).

Lemma locate_exact o cells k past : counted o cells ->
  let '(ci, pos) := locate o k past in at_position o cells ci pos (List.filter (before k past) (concat cells)).
Proof.
  intros Hc. unfold locate. destruct (found_cell o cells k Hc) as [[Hi Hn]|(P & L & x & c & R & Q & -> & Hi & Hlt & HB & _ & Hl & Hr & Hgt)].
  - rewrite Hi, Nat.eqb_refl. left. split_and!; [done|done|]. destruct Hc as (fen & Ho & _ & Hcs & _).
    destruct (find_key o k) as [[_ Hb]|(pre & l & x & r & post & Hsp & Hi2 & _)]; [by subst o| |].
    + rewrite Ho in Hb. unfold keys in Hb. cbn [chunks] in Hb. rewrite concat_map_map, Forall_map in Hb.
      rewrite <- (app_nil_r (concat cells)) at 1. apply filter_prefix; [|done]. eapply Forall_impl; [exact Hb|]. cbn. intros p Hpk. unfold before.
      destruct past; [|done]. by rewrite (sw_asym kltb p.1 k).
    + rewrite Hsp, Hi2, length_app in Hi. cbn [length] in Hi. lia.
  - rewrite Hi. destruct (Nat.eqb_spec (length P) (length (chunks o))); [lia|]. rewrite HB. right.
    assert (E : concat (P ++ (L ++ (x, c) :: R) :: Q) = (concat P ++ L) ++ (x, c) :: R ++ concat Q) by (rewrite concat_app; cbn [concat]; by rewrite <- !app_assoc).
    rewrite E. assert (Hbl : Forall (fun p => before k past p = true) (concat P ++ L)).
    { eapply Forall_impl; [exact Hl|]. cbn. intros p Hpk. unfold before. destruct past; [|done]. by rewrite (sw_asym kltb p.1 k). }
    assert (Hba : Forall (fun p => before k past p = false) (R ++ concat Q)).
    { eapply Forall_impl; [exact Hgt|]. cbn. intros p Hpk. unfold before. destruct past; [by rewrite Hpk|by apply (sw_asym kltb)]. }
    apply Forall_cons in Hr as [Hx _]. cbn in Hx. case_bool_decide as Ex; destruct past; cbn [andb].
    + subst x. exists P, (L ++ [(k, c)]), R, Q. rewrite length_app, <- app_assoc. cbn [length app]. split_and!; [done|done|done|].
      replace ((concat P ++ L) ++ (k, c) :: R ++ concat Q) with ((concat P ++ L ++ [(k, c)]) ++ R ++ concat Q) by by rewrite <- !app_assoc. apply filter_prefix; [|done].
      rewrite app_assoc. apply Forall_app. split; [done|]. repeat constructor. unfold before. cbn. by rewrite k_irrefl.
    + exists P, L, ((x, c) :: R), Q. split_and!; [done|done|done|]. apply filter_prefix; [done|]. by constructor.
    + exists P, L, ((x, c) :: R), Q. split_and!; [done|done|done|]. apply filter_prefix; [done|]. constructor; [|done]. unfold before. cbn.
      destruct (kltb k x) eqn:E2; [done|]. destruct Ex. by apply k_total.
    + exists P, L, ((x, c) :: R), Q. split_and!; [done|done|done|]. apply filter_prefix; [done|]. by constructor.
Qed.

Lemma foldl_sub (l : list Z) : forall t, foldl Z.sub t l = t - sumZ l.
Proof. induction l as [|x l IH]; intros t; cbn [foldl sumZ foldr]; [lia|]. rewrite IH. unfold sumZ. lia. Qed.

Lemma psum_cells P Q : psum (map tsum (P ++ Q)) (Z.of_nat (length P)) = tsum (concat P).
Proof.
  unfold psum. rewrite Nat2Z.id, map_app, <- (length_map tsum P), take_app_length. induction P as [|c P IH]; [done|]. cbn [map foldr concat]. by rewrite tsum_app, IH.
Qed.

Lemma countBefore_exact o cells ci pos A : counted o cells -> cells <> [] -> at_position o cells ci pos A -> countBefore o ci pos = tsum A.
Proof.
  intros (fen & -> & Hf & _) Hne [(-> & -> & ->)|(P & L & R & Q & -> & -> & -> & ->)]; unfold countBefore, counts_of; cbn [chunks counts from_option id cnt tot SortedChunks.fen].
  - rewrite Nat.eqb_refl, length_map. rewrite (prefixTotal_exact (map tsum cells)) by (auto; by rewrite length_map).
    rewrite <- (app_nil_r cells) at 1. by rewrite psum_cells.
  - rewrite length_map, length_app. cbn [length]. destruct (Nat.eqb_spec (length P) (length P + S (length Q))); [lia|].
    rewrite (nth_map_middle (map snd)), (nth_map_middle tsum). rewrite (prefixTotal_exact (map tsum (P ++ (L ++ R) :: Q))) by (auto; rewrite length_map, length_app; lia).
    rewrite psum_cells, (tsum_app (concat P) L). f_equal. rewrite map_app. destruct (_ <=? _)%nat.
    + by rewrite <- (length_map snd L), take_app_length.
    + rewrite <- (length_map snd L), drop_app_length, foldl_sub, tsum_app. unfold tsum. lia.
Qed.

Definition in_range (lo hi : K) (inclLo inclHi : bool) (p : K * Z) : bool := before hi inclHi p && negb (before lo (negb inclLo) p).

Lemma tsum_nonneg l : Forall (fun p => 0 < p.2) l -> 0 <= tsum l.
Proof. induction 1 as [|p l Hp _ IH]; [done|]. change (tsum (p :: l)) with (p.2 + tsum l). lia. Qed.

Lemma range_difference lo hi il ih l : (forall p, before lo (negb il) p = true -> before hi ih p = true) ->
  tsum (List.filter (in_range lo hi il ih) l) = tsum (List.filter (before hi ih) l) - tsum (List.filter (before lo (negb il)) l).
Proof.
  intros Himp. induction l as [|p l IH]; [done|]. cbn [List.filter]. specialize (Himp p). unfold in_range at 1.
  destruct (before lo (negb il) p); [rewrite (Himp eq_refl)|destruct (before hi ih p)]; cbn [andb negb].
  - change (tsum (p :: List.filter (before hi ih) l)) with (p.2 + tsum (List.filter (before hi ih) l)). change (tsum (p :: List.filter (before lo (negb il)) l)) with (p.2 + tsum (List.filter (before lo (negb il)) l)). lia.
  - change (tsum (p :: List.filter (before hi ih) l)) with (p.2 + tsum (List.filter (before hi ih) l)). change (tsum (p :: List.filter (in_range lo hi il ih) l)) with (p.2 + tsum (List.filter (in_range lo hi il ih) l)). lia.
  - done.
Qed.

Lemma slice_sum (u m v : list Z) : sumZ (take (length (u ++ m) - length u) (drop (length u) ((u ++ m) ++ v))) = sumZ (u ++ m) - sumZ u.
Proof.
  rewrite length_app, <- app_assoc, drop_app_length. replace (length u + length m - length u)%nat with (length m) by lia. rewrite take_app_length, sumZ_app. lia.
Qed.

(** A prefix of the cells inside another. *)
Lemma prefix_in {T} (a b u v : list T) : a ++ b = u ++ v -> (length u <= length a)%nat -> exists m, a = u ++ m.
Proof.
  intros E Hle. exists (drop (length u) a). rewrite <- (take_drop (length u) a) at 1. f_equal.
  assert (H : take (length u) (a ++ b) = u) by (rewrite E; apply take_app_length). by rewrite take_app_le in H.
Qed.

Lemma tsum_filter_le l (f g : K * Z -> bool) : Forall (fun p => 0 < p.2) l -> (forall p, f p = true -> g p = true) ->
  tsum (List.filter f l) <= tsum (List.filter g l) /\ (length (List.filter f l) <= length (List.filter g l))%nat.
Proof.
  intros Hp Hfg. induction Hp as [|p l Hp _ [IH1 IH2]]; [done|]. cbn [List.filter]. specialize (Hfg p).
  destruct (f p); [rewrite (Hfg eq_refl)|destruct (g p)]; cbn [length].
  - change (tsum (p :: List.filter f l)) with (p.2 + tsum (List.filter f l)). change (tsum (p :: List.filter g l)) with (p.2 + tsum (List.filter g l)). lia.
  - change (tsum (p :: List.filter g l)) with (p.2 + tsum (List.filter g l)). lia.
  - lia.
Qed.

Lemma range_nested lo hi il ih p : kltb hi lo || (bool_decide (lo = hi) && (negb il || negb ih)) = false ->
  before lo (negb il) p = true -> before hi ih p = true.
Proof.
  intros H. apply orb_false_iff in H as [Hhl Heq]. unfold before. case_bool_decide as E.
  - subst hi. cbn [andb] in Heq. apply orb_false_iff in Heq as [->%negb_false_iff ->%negb_false_iff]. cbn [negb]. intros Hlt. by rewrite (sw_asym kltb p.1 lo).
  - assert (Hlt : kltb lo hi = true) by (destruct (kltb lo hi) eqn:E2; [done|]; destruct E; by apply k_total).
    destruct il; cbn [negb]; intros Hp.
    + assert (Hph := k_trans _ _ _ Hp Hlt). destruct ih; [by rewrite (sw_asym kltb p.1 hi)|done].
    + apply negb_true_iff in Hp. assert (Hph : kltb p.1 hi = true) by (destruct (sw_incomp (lt := kltb) lo hi p.1 Hlt); congruence).
      destruct ih; [by rewrite (sw_asym kltb p.1 hi)|done].
Qed.

Lemma range_empty lo hi il ih l : kltb hi lo || (bool_decide (lo = hi) && (negb il || negb ih)) = true -> List.filter (in_range lo hi il ih) l = [].
Proof.
  intros H. induction l as [|p l IH]; [done|]. cbn [List.filter]. replace (in_range lo hi il ih p) with false; [done|]. symmetry. unfold in_range, before.
  apply orb_true_iff in H as [Hhl|[->%bool_decide_eq_true H]%andb_true_iff].
  - apply andb_false_iff. destruct (sw_incomp (lt := kltb) hi lo p.1 Hhl) as [Hp|Hp].
    + right. destruct il; cbn [negb]; [by rewrite Hp|]. by rewrite (sw_asym kltb p.1 lo).
    + left. destruct ih; [by rewrite Hp|]. by apply (sw_asym kltb).
  - destruct il, ih; cbn [negb orb] in *; try done.
    + by destruct (kltb p.1 hi).
    + by destruct (kltb hi p.1).
    + destruct (kltb hi p.1) eqn:E; cbn [negb andb]; [by rewrite (sw_asym kltb hi p.1)|by rewrite andb_false_r].
Qed.

Lemma countRange_exact o cells lo hi il ih : counted o cells ->
  countRange o (Some lo) (Some hi) il ih = tsum (List.filter (in_range lo hi il ih) (concat cells)).
Proof.
  intros Hc. pose proof Hc as (fen & Ho & _ & _ & Hp). unfold countRange. rewrite Ho at 1. cbn [counts].
  destruct (kltb hi lo || _) eqn:Eg; [by rewrite range_empty|]. pose proof (fun p => range_nested lo hi il ih p Eg) as Hnest.
  rewrite (range_difference lo hi il ih) by done. destruct (tsum_filter_le (concat cells) _ _ Hp Hnest) as [Hle Hlen].
  pose proof (locate_exact o cells lo (negb il) Hc) as HS. pose proof (locate_exact o cells hi ih Hc) as HE.
  destruct (locate o lo (negb il)) as [ciS posS], (locate o hi ih) as [ciE posE]. set (AS := List.filter (before lo (negb il)) (concat cells)) in *. set (AE := List.filter (before hi ih) (concat cells)) in *.
  destruct (Nat.eqb_spec ciS ciE) as [->|Hne].
  - cbn [cnt]. destruct HS as [(-> & -> & ES)|(P & L & R & Q & Hcells & -> & -> & ES)], HE as [(E1 & -> & EE)|(P' & L' & R' & Q' & Hcells' & E1 & -> & EE)].
    + rewrite ES, EE, Ho. cbn [chunks]. rewrite !length_map, Nat.ltb_irrefl. cbn [andb]. lia.
    + rewrite Ho in E1. cbn [chunks] in E1. rewrite Hcells', length_map, length_app in E1. cbn [length] in E1. lia.
    + rewrite Ho in E1. cbn [chunks] in E1. rewrite Hcells, length_map, length_app in E1. cbn [length] in E1. lia.
    + rewrite Hcells in Hcells'. apply app_inj_1 in Hcells' as [<- Hcells']; [|done]. injection Hcells' as HLR <-.
      rewrite Hcells, (nth_map_middle (map snd)), length_map, length_app. cbn [length]. rewrite ES, EE, !length_app in Hlen.
      destruct (Nat.ltb_spec (length P) (length P + S (length Q))); [|lia]. cbn [andb].
      destruct (prefix_in L' R' L R (eq_sym HLR) ltac:(lia)) as [M ->]. rewrite HLR, !map_app, <- (length_map snd L), <- (length_map snd (L ++ M)), map_app.
      rewrite ES, EE, app_assoc, (tsum_app (concat P ++ L) M).
      destruct (Nat.ltb_spec (length (map snd L)) (length (map snd L ++ map snd M))) as [Hlt|Hge].
      * rewrite slice_sum, sumZ_app. unfold tsum. lia.
      * rewrite length_app in Hge. assert (length (map snd M) = 0%nat) as ->%length_zero_iff_nil%map_eq_nil by lia. unfold tsum at 2. cbn. lia.
  - assert (Hcells : cells <> []).
    { intros ->. apply Hne. destruct HS as [(-> & _)|(P & L & R & Q & E & _)]; [|by destruct P]. destruct HE as [(-> & _)|(P & L & R & Q & E & _)]; [done|by destruct P]. }
    rewrite (countBefore_exact o cells ciE posE AE), (countBefore_exact o cells ciS posS AS) by done. lia.
Qed.

(** ** The multiset *)

(** What the operations keep; before the first count there are no keys. *)
Definition count_ok o : Prop := exists cells, counted (counting o) cells /\ (counts o = None -> cells = []).

Lemma counting_some o cc : counts o = Some cc -> counting o = o.
Proof. destruct o as [cs n c]. unfold counting, counts_of. cbn. by intros ->. Qed.

Lemma entries_counting o : entries (counting o) = entries o.
Proof. done. Qed.

Lemma addCount_counts k d o cells : counted (addCount k d o) cells -> counts (addCount k d o) <> None.
Proof. by intros (fen & -> & _). Qed.

Lemma addCount_exact o k d : count_ok o -> count_ok (addCount k d o) /\
  forall x, mult (entries (addCount k d o)) x = if bool_decide (x = k) then Z.max 0 (mult (entries o) k + d) else mult (entries o) x.
Proof.
  intros (cells & Hc & Hnone). pose proof (counted_entries _ _ Hc) as [He _]. rewrite entries_counting in He. pose proof Hc as (fen & _ & _ & _ & Hp).
  destruct (Z.eq_dec d 0) as [->|Hd].
  - unfold addCount. cbn. split; [by exists cells|]. intros x. case_bool_decide as E; [|done]. subst x. rewrite He. destruct (mult_pos (concat cells) k Hp). lia.
  - destruct (addCount_ok o cells k d Hc Hd) as (cells' & Hc' & Hm). destruct (counts (addCount k d o)) as [cc|] eqn:E; [|by apply addCount_counts in Hc'].
    split; [|by rewrite He, (proj1 (counted_entries _ _ Hc'))]. exists cells'. rewrite (counting_some _ _ E). split; [done|congruence].
Qed.

Lemma count_range_ok o lo hi il ih : count_ok o -> countRange o (Some lo) (Some hi) il ih = tsum (List.filter (in_range lo hi il ih) (entries o)).
Proof.
  intros (cells & Hc & Hnone). rewrite <- (entries_counting o), (proj1 (counted_entries _ _ Hc)). destruct (counts o) as [cc|] eqn:E.
  - rewrite (counting_some _ _ E) in Hc. by apply countRange_exact.
  - rewrite (Hnone eq_refl). unfold countRange. by rewrite E.
Qed.

Lemma count_range_nan o b il ih : countRange o None b il ih = 0 /\ countRange o b None il ih = 0.
Proof. unfold countRange. destruct (counts o), b; done. Qed.

(** C21: A counted structure is a multiset of keys.  From the empty one, addCount adds
    its amount to the key's multiplicity, never below 0, and leaves every other
    key's alone; the stored keys are those with a positive multiplicity; and
    countRange, read from the Fenwick tree and two half chunks, is the sum of the
    multiplicities of the keys between the bounds, 0 for a NaN bound. *)
Theorem counted_chunks_refine o : count_ok o ->
  (forall k, k ∈ keys o <-> 0 < mult (entries o) k) /\
  (forall k d, count_ok (addCount k d o) /\
     forall x, mult (entries (addCount k d o)) x = if bool_decide (x = k) then Z.max 0 (mult (entries o) k + d) else mult (entries o) x) /\
  (forall lo hi inclLo inclHi, countRange o (Some lo) (Some hi) inclLo inclHi =
     tsum (List.filter (in_range lo hi inclLo inclHi) (entries o))) /\
  (forall b inclLo inclHi, countRange o None b inclLo inclHi = 0 /\ countRange o b None inclLo inclHi = 0).
Proof.
  intros Hok. pose proof Hok as (cells & Hc & _). split_and!.
  - intros k. pose proof (counted_entries _ _ Hc) as [He Hk]. rewrite entries_counting in He. change (keys (counting o)) with (keys o) in Hk.
    destruct Hc as (fen & _ & _ & _ & Hp). rewrite He, Hk. by apply (mult_pos (concat cells) k).
  - intros k d. by apply addCount_exact.
  - intros lo hi il ih. by apply count_range_ok.
  - intros b il ih. apply count_range_nan.
Qed.

Lemma count_ok_empty : count_ok emptyChunks.
Proof.
  exists []. split; [|done]. exists []. split_and!; [done|done| |constructor]. split; constructor.
Qed.
End Counted.

Lemma counted_chunks_refine_witness :
  let o := addCount 4 (-2) (addCount 9 1 (addCount 4 3 (addCount 7 5 (emptyChunks (K := Z))))) in
  mult (entries o) 4 = 1 /\ countRange o (Some 4) (Some 9) true false = 6 /\ keys o = [4; 7; 9].
Proof.
  pose proof (counted_chunks_refine (K := Z) _ count_ok_empty) as (_ & H1 & _). destruct (H1 7 5) as [O1 _].
  destruct (proj1 (proj2 (counted_chunks_refine _ O1)) 4 3) as [O2 _]. destruct (proj1 (proj2 (counted_chunks_refine _ O2)) 9 1) as [O3 _].
  destruct (proj1 (proj2 (counted_chunks_refine _ O3)) 4 (-2)) as [O4 M]. split; [rewrite M; vm_compute; reflexivity|].
  split; [rewrite (proj1 (proj2 (proj2 (counted_chunks_refine _ O4)))); vm_compute; reflexivity|vm_compute; reflexivity].
Defined.
