(* ===== verification/Postings.v ===== *)
(** * Posting lists and ID sets (internal/index/sorted_postings.go, id_set.go)

    The IDs that hold one value of an index, kept as a chunked sorted set and read
    in keyset pages, and the union of several lists read as one.  A nil list reads
    as empty.  The theorem shows that a union's pages and its batched walk give the
    sorted union, each ID once. *)

From stdpp Require Import gmap.
From S2P Require Import Prelude SortedChunks.

Notation IDPostings := (sortedChunks Z).

(** ** One posting list *)

Definition IDPostings_Len (p : option IDPostings) : nat := match p with Some s => sc_n s | None => 0%nat end.

Definition IDPostings_Has (p : option IDPostings) (id : Z) : bool := match p with Some s => sc_has id s | None => false end.

Definition IDPostings_add (id : Z) (s : IDPostings) : IDPostings * bool := sc_put id s.

Definition IDPostings_remove (id : Z) (s : IDPostings) : IDPostings * bool := sc_remove id s.

(** A range-over-func loop: the body is a callback with state that says whether
    to go on. *)
Definition IDPostings_After {S} (p : option IDPostings) (after : Z) (yield : S -> Z -> S * bool) (s : S) : S :=
  match p with
  | None => s
  | Some o => forEachFrom after (fun s id => if id =? after then (s, true) else yield s id) s o
  end.

Definition IDPostings_All {S} (p : option IDPostings) (yield : S -> Z -> S * bool) (s : S) : S := IDPostings_After p 0 yield s.

(** The body of AppendAfter's loop over (dst, n). *)
Definition append_body (limit : Z) (s : list Z * Z) (id : Z) : (list Z * Z) * bool :=
  let n := s.2 + 1 in ((s.1 ++ [id], n), negb ((limit >? 0) && (n >=? limit))).

Definition IDPostings_AppendAfter (p : option IDPostings) (dst : list Z) (after limit : Z) : list Z :=
  (IDPostings_After p after (append_body limit) (dst, 0)).1.

(** ** Unions *)

Definition unionBatch : Z := 64.

Definition postingsUnionBatchCap : Z := 2 ^ 14.

Definition PostingsUnion_Len (u : list IDPostings) : nat := fold_left (fun n p => (n + IDPostings_Len (Some p))%nat) u 0%nat.

Definition PostingsUnion_AppendAfter (u : list IDPostings) (dst : list Z) (after limit : Z) : list Z :=
  let start := length dst in
  let all := fold_left (fun dst p => IDPostings_AppendAfter (Some p) dst after limit) u dst in
  let page := compact_list (sort_by Z.ltb (drop start all)) in
  let page := if (limit >? 0) && (Z.of_nat (length page) >? limit) then take (Z.to_nat limit) page else page in
  take start all ++ page.

(** A full batch moves the cursor past at least one ID: one round more than there
    are IDs is enough. *)
Fixpoint union_loop {S} (fuel : nat) (u : list IDPostings) (after size : Z) (yield : S -> Z -> S * bool) (s : S) : S :=
  match fuel with
  | O => s
  | Datatypes.S fuel' =>
      let batch := PostingsUnion_AppendAfter u [] after size in
      let '(s, on) := walk yield s batch in
      if negb on then s
      else if Z.of_nat (length batch) <? size then s
      else union_loop fuel' u (List.last batch 0) (Z.min (2 * size) postingsUnionBatchCap) yield s
  end.

Definition PostingsUnion_After {S} (u : list IDPostings) (after : Z) (yield : S -> Z -> S * bool) (s : S) : S :=
  union_loop (PostingsUnion_Len u + 1) u after unionBatch yield s.

(** ** Builds *)

Record PostingsBuild := mkBuild { b_keys : gmap bytes (list Z); b_elements : bool }.

Definition NewPostingsBuild (elements : bool) : PostingsBuild := mkBuild ∅ elements.

Definition PostingsBuild_AddKey (id : Z) (vk : bytes) (b : PostingsBuild) : PostingsBuild :=
  if bool_decide (vk = []) then b else mkBuild (<[vk := default [] (b_keys b !! vk) ++ [id]]> (b_keys b)) (b_elements b).

(** The pairs Range hands out, in the order the map is ranged over. *)
Definition build_pairs (order : list bytes) (b : PostingsBuild) : list (bytes * list Z) :=
  omap (fun vk => (fun ids => (vk, compact_list (sort_by Z.ltb ids))) <$> b_keys b !! vk) order.

(** ** ID sets *)

Notation IDSet := (sortedChunks Z).

Definition NewIDSetFrom (sorted : list Z) : IDSet := newSortedChunksFrom sorted.

Definition IDSet_Has (s : IDSet) (id : Z) : bool := sc_has id s.

Definition IDSet_Add (id : Z) (s : IDSet) : IDSet * bool := sc_put id s.

Definition IDSet_Remove (id : Z) (s : IDSet) : IDSet * bool := sc_remove id s.

Definition IDSet_Len (s : IDSet) : nat := sc_n s.

Definition Ascend {S} (fn : S -> Z -> S * bool) (st : S) (s : IDSet) : S := forEachFrom MinInt64 fn st s.

Definition IDSet_Clone (s : IDSet) : IDSet := NewIDSetFrom (Ascend (fun ids id => (ids ++ [id], true)) [] s).

(** ** One list *)

Definition ascending : list Z -> Prop := StronglySorted Z.lt.

Definition ids_after (after : Z) (l : list Z) : list Z := List.filter (fun id => after <? id) l.

(** The first [limit] elements; all when [limit] is not positive. *)
Definition limited {A} (limit : Z) (l : list A) : list A := if limit >? 0 then take (Z.to_nat limit) l else l.

(** The IDs of an optional list. *)
Definition ids_of_list (p : option IDPostings) : list Z := match p with Some s => keys s | None => [] end.

Definition list_ok (p : option IDPostings) : Prop := match p with Some s => sc_ok s | None => True end.

Lemma keys_ascending s : sc_ok s -> ascending (keys s).
Proof. intros [[_ _ Hs] _]. eapply StronglySorted_weaken; [|exact Hs]. cbn. intros. lia. Qed.

Lemma walk_skip {S} (after : Z) (fn : S -> Z -> S * bool) l : forall s,
  walk (fun s id => if id =? after then (s, true) else fn s id) s l = walk fn s (List.filter (fun id => negb (id =? after)) l).
Proof.
  induction l as [|x l IH]; intros s; [done|]. cbn [walk List.filter]. destruct (x =? after); cbn [negb]; [apply IH|].
  cbn [walk]. destruct (fn s x) as [s' []]; [apply IH|done].
Qed.

Lemma After_exact {S} p after (yield : S -> Z -> S * bool) s : list_ok p ->
  IDPostings_After p after yield s = fst (walk yield s (ids_after after (ids_of_list p))).
Proof.
  intros Hok. destruct p as [o|]; [|done]. cbn [IDPostings_After ids_of_list]. rewrite forEachFrom_exact by apply Hok. rewrite walk_skip. do 2 f_equal.
  unfold at_least, ids_after. induction (keys o) as [|x l IH]; [done|]. cbn [List.filter]. change (@kltb Z _ x after) with (x <? after).
  destruct (Z.ltb_spec x after); cbn [negb List.filter].
  - destruct (Z.ltb_spec after x); [lia|done].
  - destruct (Z.eqb_spec x after); cbn [negb]; destruct (Z.ltb_spec after x); try lia; [done|by f_equal].
Qed.

Lemma append_walk limit l : forall dst n, 0 <= n -> (limit >? 0) && (n >=? limit) = false ->
  (walk (append_body limit) (dst, n) l).1.1 = dst ++ (if limit >? 0 then take (Z.to_nat (limit - n)) l else l).
Proof.
  induction l as [|x l IH]; intros dst n Hn Hlim; cbn [walk append_body fst snd].
  { destruct (limit >? 0); rewrite ?take_nil, app_nil_r; done. }
  destruct ((limit >? 0) && (n + 1 >=? limit)) eqn:E; cbn [negb].
  - cbn [fst]. apply andb_true_iff in E as [El%Z.gtb_lt En%Z.geb_le]. destruct (Z.gtb_spec limit 0); [|lia]. cbn [andb] in Hlim. destruct (Z.geb_spec n limit); [done|].
    replace (Z.to_nat (limit - n)) with 1%nat by lia. by rewrite firstn_cons, take_0.
  - rewrite IH by (done || lia). rewrite <- app_assoc. cbn [app]. f_equal. destruct (Z.gtb_spec limit 0); [|done]. cbn [andb] in *.
    destruct (Z.geb_spec n limit); [done|]. replace (Z.to_nat (limit - n)) with (S (Z.to_nat (limit - (n + 1)))) by lia. done.
Qed.

Lemma AppendAfter_exact p dst after limit : list_ok p ->
  IDPostings_AppendAfter p dst after limit = dst ++ limited limit (ids_after after (ids_of_list p)).
Proof.
  intros Hok. unfold IDPostings_AppendAfter. rewrite After_exact by done. rewrite append_walk.
  - unfold limited. by rewrite Z.sub_0_r.
  - lia.
  - destruct (Z.gtb_spec limit 0); [|done]. cbn [andb]. destruct (Z.geb_spec 0 limit); [lia|done].
Qed.

(** ** The union *)

Definition merged (ls : list (list Z)) : list Z := compact_list (sort_by Z.ltb (concat ls)).

Lemma merged_ascending ls : ascending (merged ls).
Proof. apply compact_list_sorted, sort_by_ordered; apply _. Qed.

Lemma elem_of_merged ls x : x ∈ merged ls <-> exists l, l ∈ ls /\ x ∈ l.
Proof.
  unfold merged. rewrite compact_list_elem, elem_of_sort_by, list_elem_of_In, in_concat. split; intros (l & H1 & H2); exists l; by rewrite ?list_elem_of_In in *.
Qed.

Lemma ascending_cons x l : ascending (x :: l) <-> Forall (fun y => x < y) l /\ ascending l.
Proof. apply StronglySorted_cons. Qed.

(** What is among the first [n] of the union is among the first [n] of its list. *)
Lemma rank_le n : forall U L x, ascending U -> ascending L -> (forall y, y ∈ L -> y ∈ U) -> x ∈ take n U -> x ∈ L -> x ∈ take n L.
Proof.
  induction n as [|n IH]; intros U L x HU HL Hsub Hx HxL; [by apply not_elem_of_nil in Hx|].
  destruct U as [|u U]; [by apply not_elem_of_nil in Hx|]. destruct L as [|y L]; [done|]. cbn [take] in *.
  apply ascending_cons in HU as [Hu HU]. apply ascending_cons in HL as [Hy HL]. rewrite Forall_forall in Hu, Hy.
  assert (Hsub' : forall z, z ∈ L -> z ∈ U).
  { intros z Hz. assert (Hzu : z ∈ u :: U) by (apply Hsub; by right). apply elem_of_cons in Hzu as [->|]; [|done].
    assert (Hyu : y ∈ u :: U) by (apply Hsub; left). specialize (Hy u Hz). apply elem_of_cons in Hyu as [->|Hyu]; [lia|]. specialize (Hu y Hyu). lia. }
  apply elem_of_cons in HxL as [->|HxL]; [left|]. right. apply (IH U L x); [done..| |done].
  apply elem_of_cons in Hx as [->|Hx]; [|done]. assert (Hyu : y ∈ u :: U) by (apply Hsub; left). specialize (Hy u HxL).
  apply elem_of_cons in Hyu as [->|Hyu]; [lia|]. specialize (Hu y Hyu). lia.
Qed.

(** A subset that has the first [n] begins with them. *)
Lemma take_subset n : forall U V, ascending U -> ascending V -> (forall y, y ∈ V -> y ∈ U) -> (forall y, y ∈ take n U -> y ∈ V) -> take n V = take n U.
Proof.
  induction n as [|n IH]; intros U V HU HV Hsub Hfirst; [by rewrite !take_0|]. destruct U as [|u U].
  { destruct V as [|v V]; [done|]. assert (Hv : v ∈ @nil Z) by (apply Hsub; left). by apply not_elem_of_nil in Hv. }
  assert (Hu : u ∈ V) by (apply Hfirst; left). destruct V as [|v V]; [by apply not_elem_of_nil in Hu|].
  apply ascending_cons in HU as [HuU HU]. apply ascending_cons in HV as [HvV HV]. rewrite Forall_forall in HuU, HvV.
  assert (v = u) as ->.
  { assert (Hv : v ∈ u :: U) by (apply Hsub; left). apply elem_of_cons in Hv as [->|Hv]; [done|]. specialize (HuU v Hv).
    apply elem_of_cons in Hu as [->|Hu]; [done|]. specialize (HvV u Hu). lia. }
  cbn [take]. f_equal. apply IH; [done|done| |].
  - intros y Hy. assert (Hyu : y ∈ u :: U) by (apply Hsub; by right). apply elem_of_cons in Hyu as [->|]; [|done]. specialize (HvV u Hy). lia.
  - intros y Hy. assert (Hyv : y ∈ u :: V) by (apply Hfirst; by right). apply elem_of_cons in Hyv as [->|]; [|done]. apply elem_of_take in Hy as (i & Hi & _). apply list_elem_of_lookup_2 in Hi. specialize (HuU u Hi). lia.
Qed.

Lemma limited_elem limit (l : list Z) x : x ∈ limited limit l -> x ∈ l.
Proof. unfold limited. destruct (limit >? 0); [|done]. intros (i & Hi & _)%elem_of_take. by apply list_elem_of_lookup_2 in Hi. Qed.

Lemma filter_ascending (f : Z -> bool) l : ascending l -> ascending (List.filter f l).
Proof.
  induction 1 as [|x l _ IH Hf]; cbn [List.filter]; [constructor|]. destruct (f x); [|done]. constructor; [done|].
  apply Forall_forall. intros y [Hy _]%elem_of_Lfilter. rewrite Forall_forall in Hf. by apply Hf.
Qed.

(** Merging the first [limit] of every list gives the first [limit] of the union. *)
Lemma merged_limited limit ls : Forall ascending ls -> limited limit (merged (map (limited limit) ls)) = limited limit (merged ls).
Proof.
  intros Hls. destruct (Z.gtb_spec limit 0) as [Hpos|Hneg].
  - unfold limited at 1 3. destruct (Z.gtb_spec limit 0); [|lia]. apply take_subset; [apply merged_ascending..| |].
    + intros y (l & (l0 & -> & Hl0)%list_elem_of_fmap & Hy)%elem_of_merged. apply elem_of_merged. exists l0. split; [done|]. by apply limited_elem in Hy.
    + intros y Hy. assert (Hyu : y ∈ merged ls) by (apply elem_of_take in Hy as (i & Hi & _); by apply list_elem_of_lookup_2 in Hi).
      apply elem_of_merged in Hyu as (l & Hl & Hyl). apply elem_of_merged. exists (limited limit l). split; [apply list_elem_of_fmap; by exists l|].
      unfold limited. destruct (Z.gtb_spec limit 0); [|lia]. rewrite Forall_forall in Hls.
      apply (rank_le _ (merged ls) l y); [apply merged_ascending|by apply Hls| |done|done]. intros z Hz. apply elem_of_merged. by exists l.
  - unfold limited. destruct (Z.gtb_spec limit 0); [lia|]. f_equal. clear. induction ls as [|l ls IH]; [done|]. cbn [map]. by f_equal.
Qed.

Definition union_ok (u : list IDPostings) : Prop := Forall sc_ok u.

(** The IDs of a union above a cursor. *)
Definition union_ids (u : list IDPostings) (after : Z) : list Z := merged (map (fun p => ids_after after (keys p)) u).

Lemma union_fold u after limit : forall dst, union_ok u ->
  fold_left (fun dst p => IDPostings_AppendAfter (Some p) dst after limit) u dst =
  dst ++ concat (map (limited limit) (map (fun p => ids_after after (keys p)) u)).
Proof.
  induction u as [|p u IH]; intros dst Hu; cbn [fold_left map concat]; [by rewrite app_nil_r|]. apply Forall_cons in Hu as [Hp Hu].
  rewrite IH by done. rewrite AppendAfter_exact by done. by rewrite <- app_assoc.
Qed.

Lemma union_lists_ascending u after : union_ok u -> Forall ascending (map (fun p => ids_after after (keys p)) u).
Proof. intros Hu. apply Forall_map. eapply Forall_impl; [exact Hu|]. cbn. intros p Hp. by apply filter_ascending, keys_ascending. Qed.

Lemma union_page_exact u dst after limit : union_ok u -> PostingsUnion_AppendAfter u dst after limit = dst ++ limited limit (union_ids u after).
Proof.
  intros Hu. unfold PostingsUnion_AppendAfter. rewrite union_fold by done. rewrite take_app_length, drop_app_length. f_equal.
  set (lim := map (limited limit) _). change (compact_list (sort_by Z.ltb (concat lim))) with (merged lim). unfold union_ids.
  rewrite <- merged_limited by by apply union_lists_ascending. fold lim. unfold limited. destruct (Z.gtb_spec limit 0); cbn [andb]; [|done].
  destruct (Z.gtb_spec (Z.of_nat (length (merged lim))) limit); [done|]. rewrite take_ge by lia. done.
Qed.

Lemma ids_after_after a b l : a <= b -> ids_after b (ids_after a l) = ids_after b l.
Proof.
  intros Hab. unfold ids_after. induction l as [|x l IH]; [done|]. cbn [List.filter]. destruct (Z.ltb_spec a x); cbn [List.filter].
  - destruct (b <? x); by rewrite IH.
  - destruct (Z.ltb_spec b x); [lia|done].
Qed.

Lemma ascending_ext U V : ascending U -> ascending V -> (forall x, x ∈ U <-> x ∈ V) -> U = V.
Proof.
  intros HU HV Hx. set (n := (length U + length V)%nat). rewrite <- (take_ge U n), <- (take_ge V n) by (unfold n; lia). symmetry. apply take_subset; [done|done|by intros y Hy; apply Hx|].
  intros y (i & Hi & _)%elem_of_take. apply Hx. by apply list_elem_of_lookup_2 in Hi.
Qed.

Lemma elem_of_union_ids u after x : x ∈ union_ids u after <-> after < x /\ exists p, p ∈ u /\ x ∈ keys p.
Proof.
  unfold union_ids. rewrite elem_of_merged. split.
  - intros (l & (p & -> & Hp)%list_elem_of_fmap & Hx). apply elem_of_Lfilter in Hx as [Hx Ha%Z.ltb_lt]. split; [done|]. by exists p.
  - intros [Ha (p & Hp & Hx)]. exists (ids_after after (keys p)). split; [apply list_elem_of_fmap; by exists p|]. apply elem_of_Lfilter. split; [done|]. by apply Z.ltb_lt.
Qed.

(** After the last ID of a full page the rest of the union follows. *)
Lemma union_rest u after n b : union_ok u -> take n (union_ids u after) <> [] -> List.last (take n (union_ids u after)) 0 = b ->
  after < b /\ drop n (union_ids u after) = union_ids u b.
Proof.
  intros Hu Hne Hb. pose proof (merged_ascending (map (fun p => ids_after after (keys p)) u)) as Hasc. fold (union_ids u after) in Hasc. set (U := union_ids u after) in *.
  destruct (exists_last Hne) as (l & x & Hl). rewrite Hl, last_last in Hb. subst x.
  assert (HU : U = (l ++ [b]) ++ drop n U) by (rewrite <- Hl; by rewrite take_drop). rewrite HU in Hasc. apply StronglySorted_app in Hasc as (Hlt & Hl1 & Hd).
  apply StronglySorted_app in Hl1 as (Hlb & _ & _).
  assert (Hab : after < b). { assert (b ∈ U) as Hin by (rewrite HU; set_solver). by apply elem_of_union_ids in Hin as [? _]. }
  split; [done|]. apply ascending_ext; [done|apply merged_ascending|]. intros x. rewrite elem_of_union_ids. split.
  - intros Hx. assert (x ∈ U) as Hin by (rewrite HU; set_solver). apply elem_of_union_ids in Hin as [_ Hp]. split; [|done]. apply Hlt; [set_solver|done].
  - intros [Hbx Hp]. assert (x ∈ U) as Hin by (apply elem_of_union_ids; split; [lia|done]). rewrite HU in Hin. apply elem_of_app in Hin as [Hin|]; [|done].
    apply elem_of_app in Hin as [Hin|Hin]; [specialize (Hlb x b Hin ltac:(left)); lia|]. apply list_elem_of_singleton in Hin. lia.
Qed.

Lemma union_loop_exact {S} u (yield : S -> Z -> S * bool) fuel : forall after size s, union_ok u -> 0 < size ->
  (length (union_ids u after) < fuel)%nat -> union_loop fuel u after size yield s = fst (walk yield s (union_ids u after)).
Proof.
  induction fuel as [|fuel IH]; intros after size s Hu Hsz Hf; [lia|]. cbn [union_loop]. rewrite union_page_exact by done. cbn [app].
  unfold limited. destruct (Z.gtb_spec size 0); [|lia]. set (U := union_ids u after) in *. set (n := Z.to_nat size).
  replace (walk yield s U) with (walk yield s (take n U ++ drop n U)) by by rewrite take_drop. rewrite walk_app. destruct (walk yield s (take n U)) as [s' []]; cbn [negb]; [|done].
  rewrite length_take. destruct (Z.ltb_spec (Z.of_nat (n `min` length U)) size) as [Hlt|Hge].
  - assert (length U < n)%nat by (unfold n in *; lia). by rewrite drop_ge by lia.
  - assert (Hn : (n <= length U)%nat) by (unfold n in *; lia).
    assert (Hne : take n U <> []) by (intros E; apply (f_equal length) in E; rewrite length_take in E; cbn in E; unfold n in *; lia).
    destruct (union_rest u after n _ Hu Hne eq_refl) as [Hab Hd]. fold U in Hd. rewrite Hd. apply IH; [done|unfold postingsUnionBatchCap; lia|].
    rewrite <- Hd, length_drop. unfold n in *. lia.
Qed.

Lemma merged_length ls : (length (merged ls) <= length (concat ls))%nat.
Proof.
  unfold merged. transitivity (length (sort_by Z.ltb (concat ls))); [|by rewrite length_sort_by]. generalize (sort_by Z.ltb (concat ls)). intros l.
  induction l as [|x [|y l] IH]; [done|done|]. cbn [compact_list] in *. destruct (x =? y); cbn [length] in *; lia.
Qed.

Lemma union_len u : union_ok u -> PostingsUnion_Len u = length (concat (map keys u)).
Proof.
  intros Hu. unfold PostingsUnion_Len. assert (H : forall n, fold_left (fun n p => (n + IDPostings_Len (Some p))%nat) u n = (n + length (concat (map keys u)))%nat).
  { induction Hu as [|p u Hp _ IH]; intros n; cbn [fold_left map concat]; [cbn; lia|]. rewrite IH. cbn [IDPostings_Len]. rewrite (ok_n _ Hp), length_app. lia. }
  apply H.
Qed.

(** A union of posting lists reads as one sorted set.  Its page above a cursor is
    the first limit IDs above it that some list holds, ascending and each once,
    although only the first limit of every list are read; the batched walk, whose
    batches double, visits all of them in that order until the callback stops;
    and the reported length is an upper bound that is 0 exactly when it is empty. *)
Theorem postings_union_exact u after : union_ok u ->
  ascending (union_ids u after) /\ (forall x, x ∈ union_ids u after <-> after < x /\ exists p, p ∈ u /\ x ∈ keys p) /\
  (forall dst limit, PostingsUnion_AppendAfter u dst after limit = dst ++ limited limit (union_ids u after)) /\
  (forall S (yield : S -> Z -> S * bool) s, PostingsUnion_After u after yield s = fst (walk yield s (union_ids u after))) /\
  (length (union_ids u after) <= PostingsUnion_Len u)%nat /\ (PostingsUnion_Len u = 0%nat <-> forall p x, p ∈ u -> x ∉ keys p).
Proof.
  intros Hu. assert (Hlen : (length (union_ids u after) <= PostingsUnion_Len u)%nat).
  { rewrite union_len by done. etransitivity; [apply merged_length|]. clear Hu. induction u as [|p u IH]; [done|]. cbn [map concat]. rewrite !length_app.
    assert (length (ids_after after (keys p)) <= length (keys p))%nat by apply List.filter_length_le. lia. }
  split_and!; [apply merged_ascending|intros x; apply elem_of_union_ids|intros dst limit; by apply union_page_exact| |done|split].
  - intros S yield s. unfold PostingsUnion_After. apply union_loop_exact; [done|done|lia].
  - rewrite union_len by done. intros Hz%length_zero_iff_nil p x Hp Hx. assert (Hin : x ∈ concat (map keys u)); [|rewrite Hz in Hin; by apply not_elem_of_nil in Hin].
    apply list_elem_of_In, in_concat. exists (keys p). split; apply list_elem_of_In; [apply list_elem_of_fmap; by exists p|done].
  - rewrite union_len by done. intros Hn. destruct (concat (map keys u)) as [|x l] eqn:E; [done|]. exfalso. assert (Hin : x ∈ concat (map keys u)) by (rewrite E; left).
    apply list_elem_of_In, in_concat in Hin as (l' & Hl' & Hx). apply list_elem_of_In, list_elem_of_fmap in Hl' as (p & -> & Hp). apply list_elem_of_In in Hx. by apply (Hn p x).
Qed.

Lemma postings_union_exact_witness :
  let u := [NewIDSetFrom [2; 5; 9]; NewIDSetFrom [5; 7]] in
  PostingsUnion_AppendAfter u [1] 2 2 = [1; 5; 7] /\ PostingsUnion_After u 0 (fun s id => (s ++ [id], true)) [] = [2; 5; 7; 9].
Proof.
  intros u. assert (Hu : union_ok u) by (apply Forall_cons; split; [|apply Forall_singleton]; apply newSortedChunksFrom_ok; repeat constructor).
  split; [rewrite (proj1 (proj2 (proj2 (postings_union_exact u 2 Hu)))); vm_compute; reflexivity|].
  rewrite (proj1 (proj2 (proj2 (proj2 (postings_union_exact u 0 Hu))))). vm_compute. reflexivity.
Defined.

(** ** ID sets *)

Lemma walk_collect l : forall acc, walk (fun (ids : list Z) id => (ids ++ [id], true)) acc l = (acc ++ l, true).
Proof. induction l as [|x l IH]; intros acc; cbn [walk]; [by rewrite app_nil_r|]. by rewrite IH, <- app_assoc. Qed.

(** A clone holds the same IDs, in exact chunks. *)
Lemma clone_exact s : sc_ok s -> Forall (fun id => MinInt64 <= id) (keys s) -> sc_ok (IDSet_Clone s) /\ keys (IDSet_Clone s) = keys s.
Proof.
  intros Hok Hmin. unfold IDSet_Clone, Ascend, NewIDSetFrom. rewrite forEachFrom_exact by apply Hok. rewrite walk_collect. cbn [fst app].
  unfold at_least. rewrite (filter_all (fun x => negb (kltb x MinInt64)) (keys s)); [apply newSortedChunksFrom_ok, Hok|].
  eapply Forall_impl; [exact Hmin|]. cbn. intros x Hx. apply negb_true_iff. lia.
Qed.
