(* ===== verification/PropertyIndex.v ===== *)
(** * The property index (internal/index/property_index*.go)

    An index of one label or relationship type and one property: per value key the
    posting list of its holders ([pi_Entries]), an ordered view of the numeric
    values (the float64 sort keys and a bucket of IDs per key; with range counts
    the multiplicities of the keys) and one of the strings.  The theorems show that
    the posting lists, the views, the range counts and the ordered pages describe
    the map from entities to value keys the index was told about.

    A float64 is represented by its place in the order of the floats (its
    order-preserving bits, with the two zeros, which are equal, in one place). *)

From stdpp Require Import gmap.
From S2P Require Import Prelude Bytes Keys Fenwick SortedChunks ChunkCounts Postings.

#[export] Instance bytes_keys : KeyOrder bytes := {| kltb := str_lt |}.

#[export] Instance bytes_keys_ok : KeyOrderOK bytes.
Proof.
  split; cbn; [apply str_lt_irrefl|apply str_lt_trans|]. intros x y H1 H2. destruct (str_lt_total x y H1) as [|H3]; [done|congruence].
Qed.

(** ** Sort keys of value keys *)

Definition float_rank (bits : Z) : Z := orderPreservingFloat64Bits (if bits =? 2 ^ 63 then 0 else bits).

(** The rank of an infinity, and the neighbours of a rank ([math.Nextafter]): the
    rank below zero's is the negative zero's, which is zero. *)
Definition rank_inf : Z := float_rank (2047 * 2 ^ 52).
Definition rank_neg_inf : Z := float_rank (2 ^ 63 + 2047 * 2 ^ 52).
Definition rank_zero : Z := float_rank 0.

Definition next_down (r : Z) : Z := if r <=? rank_neg_inf then r else if r =? rank_zero then r - 2 else r - 1.
Definition next_up (r : Z) : Z := if rank_inf <=? r then r else if r =? rank_zero - 2 then r + 2 else r + 1.

Definition exactInt64FromVK (vk : bytes) : option Z :=
  match cut_colon vk with
  | None => None
  | Some (prefix, payload) =>
      match propNumericSubtypeTags prefix with
      | Some (_, Signed) => ParseInt payload
      | Some (_, Unsigned) => match ParseUint payload with Some n => if n >? MaxInt64 then None else Some n | None => None end
      | _ => None
      end
  end.

Definition isNumericImprecise (vk : bytes) : bool :=
  match exactInt64FromVK vk with
  | Some v => (v >? 2 ^ 53) || (v <? - 2 ^ 53)
  | None => false
  end.

Definition stringSortKey (vk : bytes) : option bytes :=
  match vk with 115 :: 58 :: s => Some s | _ => None end.

(** The value key of a string. *)
Definition str_vk (s : bytes) : bytes := 115 :: 58 :: s.

(** Right to left: the last byte below 0xFF is raised and the rest cut. *)
Fixpoint successor_of_reversed (rb : bytes) : option bytes :=
  match rb with
  | [] => None
  | b :: rb' => if b <? 255 then Some (rev rb' ++ [b + 1]) else successor_of_reversed rb'
  end.

Definition prefixSuccessor (p : bytes) : option bytes := successor_of_reversed (rev p).

(** ** The emitter of the ordered pages

    A page is its list of (sort key, ID); the cursor is its last pair. *)

Section Emit.
Context {K : Type} `{!KeyOrder K}.

(** The body of the loop over one bucket: the page and whether it is full. *)
Definition emit_body (k : K) (limit : Z) (s : list (K * Z) * bool) (id : Z) : (list (K * Z) * bool) * bool :=
  let page := s.1 ++ [(k, id)] in
  let full := Z.of_nat (length page) >=? limit in
  ((page, full), negb full).

Definition emitKey (bucket : K -> option IDPostings) (after : option (K * Z)) (limit : Z) (page : list (K * Z)) (k : K) : list (K * Z) * bool :=
  let from := match after with Some (v, id) => if bool_decide (k = v) then id else 0 | None => 0 end in
  let '(page, full) := IDPostings_After (bucket k) from (emit_body k limit) (page, false) in
  (page, negb full).

Definition page_result (after : option (K * Z)) (limit : Z) (page : list (K * Z)) : list (K * Z) * option (K * Z) * bool :=
  (page, match last page with Some c => Some c | None => after end, Z.of_nat (length page) <? limit).
End Emit.

(** ** State *)

Record PropertyIndex := mkPI {
  pi_Entries : gmap bytes IDPostings;
  pi_Mutated : option (gset Z);
  numKeys : sortedChunks Z;
  numBuckets : gmap Z IDPostings;
  strKeys : sortedChunks bytes;
  numImpreciseCount : Z;
  rangeCounts : bool;
  elements : bool;
  onDisk : bool;
}.

Definition NewPropertyIndex : PropertyIndex := mkPI ∅ None emptyChunks ∅ emptyChunks 0 false false false.

Definition NewPropertyIndexWith (rc el : bool) : PropertyIndex := mkPI ∅ None emptyChunks ∅ emptyChunks 0 rc el false.

Definition NewPropertyIndexOnDisk (el : bool) : PropertyIndex := mkPI ∅ None emptyChunks ∅ emptyChunks 0 false el true.

Definition set_entries (m : gmap bytes IDPostings) (pi : PropertyIndex) : PropertyIndex :=
  mkPI m (pi_Mutated pi) (numKeys pi) (numBuckets pi) (strKeys pi) (numImpreciseCount pi) (rangeCounts pi) (elements pi) (onDisk pi).

Definition set_mutated (m : option (gset Z)) (pi : PropertyIndex) : PropertyIndex :=
  mkPI (pi_Entries pi) m (numKeys pi) (numBuckets pi) (strKeys pi) (numImpreciseCount pi) (rangeCounts pi) (elements pi) (onDisk pi).

Definition set_view (ks : sortedChunks Z) (bs : gmap Z IDPostings) (pi : PropertyIndex) : PropertyIndex :=
  mkPI (pi_Entries pi) (pi_Mutated pi) ks bs (strKeys pi) (numImpreciseCount pi) (rangeCounts pi) (elements pi) (onDisk pi).

Definition set_strs (ks : sortedChunks bytes) (pi : PropertyIndex) : PropertyIndex :=
  mkPI (pi_Entries pi) (pi_Mutated pi) (numKeys pi) (numBuckets pi) ks (numImpreciseCount pi) (rangeCounts pi) (elements pi) (onDisk pi).

Definition set_imprecise (n : Z) (pi : PropertyIndex) : PropertyIndex :=
  mkPI (pi_Entries pi) (pi_Mutated pi) (numKeys pi) (numBuckets pi) (strKeys pi) n (rangeCounts pi) (elements pi) (onDisk pi).

Definition mark (id : Z) (pi : PropertyIndex) : PropertyIndex := set_mutated ((fun m => {[id]} ∪ m) <$> pi_Mutated pi) pi.

Definition orderedViews (pi : PropertyIndex) : bool := negb (elements pi).

Definition serves (pi : PropertyIndex) : bool := negb (elements pi) && bool_decide (pi_Mutated pi = None) && negb (onDisk pi).

(** The nil maps of the source are empty ones; the cached value statistics are
    dropped by every write and are not state of their own. *)
Definition addOrderedStr (vk : bytes) (pi : PropertyIndex) : PropertyIndex :=
  match stringSortKey vk with Some s => set_strs (sc_insert s (strKeys pi)) pi | None => pi end.

Definition removeOrderedStr (vk : bytes) (pi : PropertyIndex) : PropertyIndex :=
  match stringSortKey vk with Some s => set_strs (fst (sc_remove s (strKeys pi))) pi | None => pi end.

Definition noteNumericPrecision (vk : bytes) (pi : PropertyIndex) : PropertyIndex :=
  if isNumericImprecise vk then set_imprecise (numImpreciseCount pi + 1) pi else pi.

Definition noteNumericPrecisionRemoved (vk : bytes) (pi : PropertyIndex) : PropertyIndex :=
  if isNumericImprecise vk && (numImpreciseCount pi >? 0) then set_imprecise (numImpreciseCount pi - 1) pi else pi.

Definition dropKey (vk : bytes) (pi : PropertyIndex) : PropertyIndex :=
  let pi := set_entries (delete vk (pi_Entries pi)) pi in
  if orderedViews pi then removeOrderedStr vk pi else pi.

Section Index.
(** [strconv.ParseFloat(s, 64)]: the bits of its result, never a NaN on the
    payloads of the value keys, whose NaN is spelt "nan". *)
Context (ParseFloat : bytes -> option Z).

Definition numericSortKey (vk : bytes) : option Z :=
  match cut_colon vk with
  | None => None
  | Some (prefix, payload) =>
      match propNumericSubtypeTags prefix with
      | Some (_, Signed) => (fun n => float_rank (float64_of_int n)) <$> ParseInt payload
      | Some (_, Unsigned) => (fun n => float_rank (float64_of_int n)) <$> ParseUint payload
      | Some (_, _) => if bool_decide (payload = bytes_of_string "nan") then None else float_rank <$> ParseFloat payload
      | None => None
      end
  end.

(** ** Writes *)

Definition addOrderedCounted (id k : Z) (pi : PropertyIndex) : PropertyIndex :=
  let bucket := default emptyChunks (numBuckets pi !! k) in
  let '(bucket, added) := IDPostings_add id bucket in
  set_view (if added then addCount k 1 (numKeys pi) else numKeys pi) (<[k := bucket]> (numBuckets pi)) pi.

Definition addOrdered (id : Z) (vk : bytes) (pi : PropertyIndex) : PropertyIndex :=
  match numericSortKey vk with
  | None => pi
  | Some k =>
      let pi :=
        if rangeCounts pi then addOrderedCounted id k pi
        else match numBuckets pi !! k with
             | Some bucket => set_view (numKeys pi) (<[k := fst (IDPostings_add id bucket)]> (numBuckets pi)) pi
             | None => set_view (sc_insert k (numKeys pi)) (<[k := fst (IDPostings_add id emptyChunks)]> (numBuckets pi)) pi
             end in
      noteNumericPrecision vk pi
  end.

Definition AddKey (id : Z) (vk : bytes) (pi : PropertyIndex) : PropertyIndex :=
  if bool_decide (vk = []) then pi
  else
    let '(set, pi) :=
      match pi_Entries pi !! vk with
      | Some s => (s, pi)
      | None => (emptyChunks, if orderedViews pi then addOrderedStr vk pi else pi)
      end in
    let pi := set_entries (<[vk := fst (IDPostings_add id set)]> (pi_Entries pi)) pi in
    let pi := if orderedViews pi then addOrdered id vk pi else pi in
    mark id pi.

Definition removeOrdered (id : Z) (vk : bytes) (pi : PropertyIndex) : PropertyIndex :=
  match numericSortKey vk with
  | None => pi
  | Some k =>
      match numBuckets pi !! k with
      | None => pi
      | Some bucket =>
          let '(bucket, found) := IDPostings_remove id bucket in
          let pi :=
            if rangeCounts pi then
              set_view (if found then addCount k (-1) (numKeys pi) else numKeys pi)
                (if (IDPostings_Len (Some bucket) =? 0)%nat then delete k (numBuckets pi) else <[k := bucket]> (numBuckets pi)) pi
            else if (IDPostings_Len (Some bucket) =? 0)%nat then set_view (fst (sc_remove k (numKeys pi))) (delete k (numBuckets pi)) pi
            else set_view (numKeys pi) (<[k := bucket]> (numBuckets pi)) pi in
          noteNumericPrecisionRemoved vk pi
      end
  end.

Definition removeKey (id : Z) (vk : bytes) (pi : PropertyIndex) : PropertyIndex :=
  if bool_decide (vk = []) then pi
  else
    let pi :=
      match pi_Entries pi !! vk with
      | Some set =>
          let set := fst (IDPostings_remove id set) in
          let pi := set_entries (<[vk := set]> (pi_Entries pi)) pi in
          if (IDPostings_Len (Some set) =? 0)%nat then dropKey vk pi else pi
      | None => pi
      end in
    let pi := if orderedViews pi then removeOrdered id vk pi else pi in
    mark id pi.

(** [handled] are the IDs concurrent writes took care of during the build. *)
Fixpoint finish_ids (handled : option (gset Z)) (alive : Z -> option bool) (vk : bytes) (ids : list Z) (pi : PropertyIndex) : PropertyIndex * bool :=
  match ids with
  | [] => (pi, true)
  | id :: ids' =>
      if match handled with Some h => bool_decide (id ∈ h) | None => false end then finish_ids handled alive vk ids' pi
      else match alive id with
           | None => (pi, false)
           | Some ok => finish_ids handled alive vk ids' (if ok then AddKey id vk pi else pi)
           end
  end.

Fixpoint finish_pairs (handled : option (gset Z)) (alive : Z -> option bool) (pairs : list (bytes * list Z)) (pi : PropertyIndex) : PropertyIndex * bool :=
  match pairs with
  | [] => (pi, true)
  | (vk, ids) :: pairs' =>
      let '(pi, ok) := finish_ids handled alive vk ids pi in
      if ok then finish_pairs handled alive pairs' pi else (pi, false)
  end.

(** [alive] answers [None] with an error; false is the build's error. *)
Definition FinishBuild (order : list bytes) (b : PostingsBuild) (alive : Z -> option bool) (pi : PropertyIndex) : PropertyIndex * bool :=
  let handled := pi_Mutated pi in
  let '(pi, ok) := finish_pairs handled alive (build_pairs order b) (set_mutated None pi) in
  if ok then (pi, true) else (set_mutated handled pi, false).

(** ** Reads *)

Definition Postings (vk : bytes) (pi : PropertyIndex) : option IDPostings := if bool_decide (vk = []) then None else pi_Entries pi !! vk.

(** The walk's callback: 0 marks a key past the range. *)
Definition cardinality_body (pi : PropertyIndex) (min max : Z) (inclMin inclMax : bool) (count k : Z) : Z * bool :=
  if negb inclMin && (k =? min) then (count, true)
  else if (if inclMax then k >? max else k >=? max) then (count, false)
  else (count + Z.of_nat (IDPostings_Len (numBuckets pi !! k)), true).

Definition RangeCardinality (min max : option Z) (inclMin inclMax : bool) (pi : PropertyIndex) : option Z :=
  if negb (serves pi) || (numImpreciseCount pi >? 0) then None
  else if rangeCounts pi then Some (countRange (numKeys pi) min max inclMin inclMax)
  else match min, max with
       | Some lo, Some hi => Some (forEachFrom lo (cardinality_body pi lo hi inclMin inclMax) 0 (numKeys pi))
       | _, _ => Some 0
       end.

Definition collect (p : option IDPostings) (ids : list Z) : list Z := IDPostings_All p (fun ids id => (ids ++ [id], true)) ids.

Definition RangeNodeIDs (min max : Z) (pi : PropertyIndex) : option (list Z) :=
  if negb (serves pi) then None
  else if (sc_n (numKeys pi) =? 0)%nat then Some []
  else
    let lo := next_down min in
    let hi := next_up max in
    Some (forEachFrom lo (fun ids k => if k >? hi then (ids, false) else (collect (numBuckets pi !! k) ids, true)) [] (numKeys pi)).

Definition strPostings (s : bytes) (pi : PropertyIndex) : option IDPostings := pi_Entries pi !! str_vk s.

Definition PrefixNodeIDs (prefix : bytes) (pi : PropertyIndex) : option (list Z) :=
  if negb (serves pi) then None
  else if (sc_n (strKeys pi) =? 0)%nat then Some []
  else
    let upper := prefixSuccessor prefix in
    Some (forEachFrom prefix (fun ids k =>
            if match upper with Some u => negb (str_lt k u) | None => false end then (ids, false) else (collect (strPostings k pi) ids, true)) [] (strKeys pi)).

Definition rangeOrderedPage (min max : Z) (desc : bool) (after : option (Z * Z)) (limit : Z) (pi : PropertyIndex) :
    option (list (Z * Z) * option (Z * Z) * bool) :=
  if negb (serves pi) then None
  else if (limit <=? 0) || (sc_n (numKeys pi) =? 0)%nat then Some ([], None, true)
  else
    let lo := next_down min in
    let hi := next_up max in
    let emit := emitKey (fun k => numBuckets pi !! k) after limit in
    let page :=
      if negb desc then
        let start := match after with Some (v, _) => if v >? lo then v else lo | None => lo end in
        forEachFrom start (fun page k => if k >? hi then (page, false) else emit page k) [] (numKeys pi)
      else
        let start := match after with Some (v, _) => if v <? hi then v else hi | None => hi end in
        forEachDownFrom start (fun page k => if k <? lo then (page, false) else emit page k) [] (numKeys pi) in
    Some (page_result after limit page).

Definition prefixOrderedPage (prefix : bytes) (desc : bool) (after : option (bytes * Z)) (limit : Z) (pi : PropertyIndex) :
    option (list (bytes * Z) * option (bytes * Z) * bool) :=
  if negb (serves pi) then None
  else if (limit <=? 0) || (sc_n (strKeys pi) =? 0)%nat then Some ([], None, true)
  else
    let upper := prefixSuccessor prefix in
    let past k := match upper with Some u => negb (str_lt k u) | None => false end in
    let emit := emitKey (fun k => strPostings k pi) after limit in
    let page :=
      if negb desc then
        let start := match after with Some (v, _) => if str_lt prefix v then v else prefix | None => prefix end in
        forEachFrom start (fun page k => if past k then (page, false) else emit page k) [] (strKeys pi)
      else
        let down page k :=
          if past k then (page, true)
          else if str_lt k prefix then (page, false)
          else if match after with Some (v, _) => str_lt v k | None => false end then (page, true)
          else emit page k in
        match upper with
        | Some u => forEachDownFrom u down [] (strKeys pi)
        | None => forEachDownAll down [] (strKeys pi)
        end in
    Some (page_result after limit page).

(** ** Batches *)

(** No later ID at or below its predecessor. *)
Fixpoint strictly_ascending (ids : list Z) : bool :=
  match ids with
  | x :: ((y :: _) as ids') => negb (y <=? x) && strictly_ascending ids'
  | _ => true
  end.

Definition sortedDistinct (ids : list Z) : list Z := if strictly_ascending ids then ids else compact_list (sort_by Z.ltb ids).

(** One value key of a batch: the index, the new strings and the IDs per sort key. *)
Definition addKeys_step (st : PropertyIndex * list bytes * gmap Z (list Z)) (p : bytes * list Z) : PropertyIndex * list bytes * gmap Z (list Z) :=
  let '(pi, newStrs, nums) := st in
  let '(vk, ids0) := p in
  let ids := sortedDistinct ids0 in
  let ordered := orderedViews pi in
  let '(set, newStrs) :=
    match pi_Entries pi !! vk with
    | Some s => (s, newStrs)
    | None => (emptyChunks, match stringSortKey vk with Some s => if ordered then newStrs ++ [s] else newStrs | None => newStrs end)
    end in
  let pi := set_entries (<[vk := fst (putSorted ids 0 set)]> (pi_Entries pi)) pi in
  let pi := set_mutated ((fun m => list_to_set ids ∪ m) <$> pi_Mutated pi) pi in
  if negb ordered then (pi, newStrs, nums)
  else match numericSortKey vk with
       | None => (pi, newStrs, nums)
       | Some k =>
           let pi := if isNumericImprecise vk then set_imprecise (numImpreciseCount pi + Z.of_nat (length ids0)) pi else pi in
           (pi, newStrs, <[k := default [] (nums !! k) ++ ids]> nums)
       end.

(** One sort key of a batch: the index and the new sort keys. *)
Definition addOrderedKeys_step (st : PropertyIndex * list Z) (p : Z * list Z) : PropertyIndex * list Z :=
  let '(pi, newKeys) := st in
  let '(k, ids0) := p in
  let ids := sortedDistinct ids0 in
  let newKeys := if bool_decide (numBuckets pi !! k = None) && negb (rangeCounts pi) then newKeys ++ [k] else newKeys in
  let '(bucket, added) := putSorted ids 0 (default emptyChunks (numBuckets pi !! k)) in
  let ks := if rangeCounts pi && (0 <? added)%nat then addCount k (Z.of_nat added) (numKeys pi) else numKeys pi in
  (set_view ks (<[k := bucket]> (numBuckets pi)) pi, newKeys).

Definition addOrderedKeys (nums : list (Z * list Z)) (pi : PropertyIndex) : PropertyIndex :=
  let '(pi, newKeys) := fold_left addOrderedKeys_step nums (pi, []) in
  match newKeys with
  | [] => pi
  | _ => set_view (insertSorted (sort_by Z.ltb newKeys) (numKeys pi)) (numBuckets pi) pi
  end.

(** [pairs] is the batch's map in the order it is ranged over; [ranged] is the
    order of the second loop's map. *)
Definition addKeys (ranged : gmap Z (list Z) -> list (Z * list Z)) (pairs : list (bytes * list Z)) (pi : PropertyIndex) : PropertyIndex :=
  let '(pi, newStrs, nums) := fold_left addKeys_step pairs (pi, [], ∅) in
  let pi := match newStrs with
            | [] => pi
            | _ => set_strs (insertSorted (sort_by str_lt newStrs) (strKeys pi)) pi
            end in
  if bool_decide (nums = ∅) then pi else addOrderedKeys (ranged nums) pi.
End Index.

(** ** Families of posting lists *)

(** The list under every key holds the IDs that [R] relates to it; there are no
    empty lists. *)
Definition familyR {A} `{Countable A} (F : gmap A IDPostings) (R : Z -> A -> Prop) : Prop :=
  forall a, match F !! a with
            | Some s => sc_ok s /\ keys s <> [] /\ forall id, id ∈ keys s <-> R id a
            | None => forall id, ~ R id a
            end.

Lemma familyR_list {A} `{Countable A} (F : gmap A IDPostings) R a : familyR F R ->
  sc_ok (default emptyChunks (F !! a)) /\ forall id, id ∈ keys (default emptyChunks (F !! a)) <-> R id a.
Proof.
  intros HF. specialize (HF a). destruct (F !! a) as [s|]; cbn [from_option]; [by destruct HF as (? & _ & ?)|]. split; [apply empty_ok|].
  intros id. change (keys emptyChunks) with (@nil Z). split; [intros Hx; by apply not_elem_of_nil in Hx|]. intros E. by apply HF in E.
Qed.

Lemma familyR_ext {A} `{Countable A} (F : gmap A IDPostings) R R' : familyR F R -> (forall id a, R' id a <-> R id a) -> familyR F R'.
Proof.
  intros HF HR a. specialize (HF a). destruct (F !! a) as [s|].
  - destruct HF as (H1 & H2 & H3). refine (conj H1 (conj H2 _)). intros id. by rewrite H3, HR.
  - intros id. rewrite HR. apply HF.
Qed.

Lemma elem_of_put_list (l : list Z) k x : x ∈ put_list l k <-> x = k \/ x ∈ l.
Proof.
  unfold put_list. case_decide as Hk; [split; [by right|intros [->|]; done]|]. rewrite (insert_by_perm kltb k l). apply elem_of_cons.
Qed.

Lemma elem_of_without {K} `{!KeyOrder K} k x (l : list K) : x ∈ without k l <-> x ∈ l /\ x <> k.
Proof. unfold without. rewrite elem_of_Lfilter, negb_true_iff, bool_decide_eq_false. done. Qed.

Lemma familyR_add {A} `{Countable A} (F : gmap A IDPostings) R R' id a : familyR F R -> (forall x b, R' x b <-> (x = id /\ b = a) \/ R x b) ->
  familyR (<[a := fst (IDPostings_add id (default emptyChunks (F !! a)))]> F) R'.
Proof.
  intros HF HR b. destruct (decide (b = a)) as [->|Hne].
  - rewrite lookup_insert_eq. destruct (familyR_list F R a HF) as [Hok Hin]. pose proof (put_ok _ id Hok) as Hp. unfold IDPostings_add.
    destruct (sc_put id _) as [s added]. cbn [fst]. destruct Hp as (Hs & Hk & _). split_and!; [done| |].
    + intros E. assert (Hi : id ∈ keys s) by (rewrite Hk; apply elem_of_put_list; by left). rewrite E in Hi. by apply not_elem_of_nil in Hi.
    + intros x. rewrite Hk, elem_of_put_list, Hin, HR. naive_solver.
  - rewrite lookup_insert_ne by done. specialize (HF b). destruct (F !! b) as [s|].
    + destruct HF as (H1 & H2 & H3). refine (conj H1 (conj H2 _)). intros x. rewrite H3, HR. naive_solver.
    + intros x. rewrite HR. naive_solver.
Qed.

Lemma length_without (l : list Z) id : ascending l -> id ∈ l -> S (length (without id l)) = length l.
Proof.
  intros Has Hids. induction l as [|x l IH]; [by apply not_elem_of_nil in Hids|]. apply ascending_cons in Has as [Hx Has]. unfold without. cbn [List.filter]. case_bool_decide as E; cbn [negb length].
  - subst x. f_equal. change (length (without id l) = length l). rewrite without_absent; [done|]. intros Hin. rewrite Forall_forall in Hx. specialize (Hx id Hin). lia.
  - apply elem_of_cons in Hids as [->|Hids]; [done|]. by rewrite <- (IH Has Hids).
Qed.

Lemma familyR_remove {A} `{Countable A} (F : gmap A IDPostings) R R' id a s : familyR F R -> F !! a = Some s -> R id a ->
  (forall x b, R' x b <-> R x b /\ ~ (x = id /\ b = a)) ->
  let s' := fst (IDPostings_remove id s) in
  familyR (if (IDPostings_Len (Some s') =? 0)%nat then delete a F else <[a := s']> F) R' /\
  snd (IDPostings_remove id s) = true /\ IDPostings_Len (Some s') = length (keys s') /\ S (length (keys s')) = length (keys s) /\ sc_ok s'.
Proof.
  intros HF Ha Hid HR. pose proof (HF a) as Hs. rewrite Ha in Hs. destruct Hs as (Hok & Hne & Hin). unfold IDPostings_remove. pose proof (remove_keys s id Hok) as Hr.
  destruct (sc_remove id s) as [s' found]. cbn [fst snd]. destruct Hr as (Hs' & Hk & ->). assert (Hids : id ∈ keys s) by by apply Hin.
  assert (Hlen : S (length (keys s')) = length (keys s)) by (rewrite Hk; by apply length_without; [apply keys_ascending|]).
  split_and!; [|by apply bool_decide_eq_true_2|apply Hs'|done|done].
  assert (Hother : forall b, b <> a -> match F !! b with Some t => sc_ok t /\ keys t <> [] /\ (forall x, x ∈ keys t <-> R' x b) | None => forall x, ~ R' x b end).
  { intros b Hb. specialize (HF b). destruct (F !! b) as [t|].
    - destruct HF as (H1 & H2 & H3). refine (conj H1 (conj H2 _)). intros x. rewrite H3, HR. naive_solver.
    - intros x. rewrite HR. naive_solver. }
  assert (Helem : forall x, x ∈ keys s' <-> R' x a) by (intros x; rewrite Hk, elem_of_without, Hin, HR; naive_solver).
  cbn [IDPostings_Len]. rewrite (ok_n _ Hs'). intros b. destruct (Nat.eqb_spec (length (keys s')) 0) as [Hz|Hz].
  - destruct (decide (b = a)) as [->|Hb]; [rewrite lookup_delete_eq|rewrite lookup_delete_ne by done; by apply Hother].
    intros x Hx. apply Helem in Hx. apply length_zero_iff_nil in Hz. rewrite Hz in Hx. by apply not_elem_of_nil in Hx.
  - destruct (decide (b = a)) as [->|Hb]; [rewrite lookup_insert_eq|rewrite lookup_insert_ne by done; by apply Hother].
    refine (conj Hs' (conj _ Helem)). intros E. by rewrite E in Hz.
Qed.

(** The lists of a function from IDs to keys. *)
Definition family {A} `{Countable A} (F : gmap A IDPostings) (h : Z -> option A) : Prop := familyR F (fun id a => h id = Some a).

Lemma family_empty {A} `{Countable A} : family (∅ : gmap A IDPostings) (fun _ => None).
Proof. intros a. by rewrite lookup_empty. Qed.

Lemma family_ext {A} `{Countable A} (F : gmap A IDPostings) h h' : family F h -> (forall x, h' x = h x) -> family F h'.
Proof. intros HF Hh. apply (familyR_ext _ _ _ HF). intros x a. by rewrite Hh. Qed.

Lemma family_list {A} `{Countable A} (F : gmap A IDPostings) h a : family F h ->
  sc_ok (default emptyChunks (F !! a)) /\ forall id, id ∈ keys (default emptyChunks (F !! a)) <-> h id = Some a.
Proof. apply familyR_list. Qed.

Lemma family_add {A} `{Countable A} (F : gmap A IDPostings) h h' id a : family F h -> h id = None \/ h id = Some a ->
  (forall x, h' x = if bool_decide (x = id) then Some a else h x) ->
  family (<[a := fst (IDPostings_add id (default emptyChunks (F !! a)))]> F) h'.
Proof. intros HF Hid Hh. apply (familyR_add _ _ _ _ _ HF). intros x b. rewrite Hh. case_bool_decide; naive_solver. Qed.

Lemma family_remove {A} `{Countable A} (F : gmap A IDPostings) h h' id a s : family F h -> F !! a = Some s -> h id = Some a ->
  (forall x, h' x = if bool_decide (x = id) then None else h x) ->
  let s' := fst (IDPostings_remove id s) in
  family (if (IDPostings_Len (Some s') =? 0)%nat then delete a F else <[a := s']> F) h' /\
  snd (IDPostings_remove id s) = true /\ IDPostings_Len (Some s') = length (keys s') /\ S (length (keys s')) = length (keys s) /\ sc_ok s'.
Proof. intros HF Ha Hid Hh. apply (familyR_remove F _ _ id a s HF Ha Hid). intros x b. rewrite Hh. case_bool_decide; naive_solver. Qed.

(** ** The invariant *)

Section Invariant.
Context (ParseFloat : bytes -> option Z).

Notation numKey := (numericSortKey ParseFloat).

(** The number of entities whose integer is beyond 2^53. *)
Definition imprecise_holders (m : gmap Z bytes) : nat := size (filter (fun p : Z * bytes => isNumericImprecise p.2 = true) m).

(** The sort keys of the numeric view and the size of their buckets. *)
Definition view_ok (rc : bool) (ks : sortedChunks Z) (bs : gmap Z IDPostings) : Prop :=
  if rc then count_ok ks /\ forall k, mult (entries ks) k = Z.of_nat (IDPostings_Len (bs !! k))
  else sc_ok ks /\ forall k, k ∈ keys ks <-> is_Some (bs !! k).

(** What a plain index knows of the map from entities to value keys. *)
Record pi_ok (pi : PropertyIndex) (m : gmap Z bytes) : Prop := {
  po_plain : elements pi = false;
  po_nonempty : forall id, m !! id <> Some [];
  po_entries : family (pi_Entries pi) (fun id => m !! id);
  po_buckets : family (numBuckets pi) (fun id => m !! id ≫= numKey);
  po_view : view_ok (rangeCounts pi) (numKeys pi) (numBuckets pi);
  po_strs : sc_ok (strKeys pi) /\ forall s, s ∈ keys (strKeys pi) <-> is_Some (pi_Entries pi !! str_vk s);
  po_imprecise : Z.of_nat (imprecise_holders m) <= numImpreciseCount pi;
}.

Lemma stringSortKey_spec vk s : stringSortKey vk = Some s <-> vk = str_vk s.
Proof.
  unfold stringSortKey, str_vk. destruct vk as [|a vk]; [done|]. split.
  - intros E. destruct a as [|p|p]; try done. repeat (destruct p as [p|p|]; try done). destruct vk as [|b vk]; [done|].
    destruct b as [|p|p]; try done. repeat (destruct p as [p|p|]; try done). by injection E as ->.
  - by intros [= -> ->].
Qed.

Lemma imprecise_numeric vk : isNumericImprecise vk = true -> is_Some (numKey vk).
Proof.
  unfold isNumericImprecise, exactInt64FromVK, numericSortKey. destruct (cut_colon vk) as [[prefix payload]|]; [|done].
  destruct (propNumericSubtypeTags prefix) as [[t []]|]; try done.
  - destruct (ParseInt payload); [|done]. eauto.
  - destruct (ParseUint payload); [|done]. eauto.
Qed.

(** ** The string view *)

Lemma addOrderedStr_ok vk pi : sc_ok (strKeys pi) -> (forall s, s ∈ keys (strKeys pi) <-> is_Some (pi_Entries pi !! str_vk s)) -> pi_Entries pi !! vk = None ->
  let pi' := addOrderedStr vk pi in
  sc_ok (strKeys pi') /\ (forall s, s ∈ keys (strKeys pi') <-> str_vk s = vk \/ is_Some (pi_Entries pi !! str_vk s)) /\
  pi' = set_strs (strKeys pi') pi.
Proof.
  intros Hok Hin Hn. unfold addOrderedStr. destruct (stringSortKey vk) as [s|] eqn:E.
  - apply stringSortKey_spec in E as ->. assert (Hs : s ∉ keys (strKeys pi)) by (rewrite Hin, Hn; by intros [? ?]).
    destruct (insert_ok (strKeys pi) s Hok Hs) as [H1 H2]. cbv zeta. cbn [set_strs strKeys]. refine (conj H1 (conj _ eq_refl)).
    intros x. rewrite H2, (insert_by_perm kltb s (keys (strKeys pi))), elem_of_cons, Hin. unfold str_vk. naive_solver.
  - cbv zeta. refine (conj Hok (conj _ _)); [|by destruct pi]. intros s. rewrite Hin. split; [by right|]. intros [E2|]; [|done].
    assert (stringSortKey vk = Some s) by by apply stringSortKey_spec. congruence.
Qed.

Lemma dropKey_ok vk pi : elements pi = false -> sc_ok (strKeys pi) -> (forall s, s ∈ keys (strKeys pi) <-> is_Some (pi_Entries pi !! str_vk s)) ->
  let pi' := dropKey vk pi in
  pi_Entries pi' = delete vk (pi_Entries pi) /\ sc_ok (strKeys pi') /\ (forall s, s ∈ keys (strKeys pi') <-> is_Some (pi_Entries pi' !! str_vk s)) /\
  pi' = set_strs (strKeys pi') (set_entries (delete vk (pi_Entries pi)) pi).
Proof.
  intros Hel Hok Hin. unfold dropKey, orderedViews. cbn [set_entries elements]. rewrite Hel. cbn [negb]. unfold removeOrderedStr.
  destruct (stringSortKey vk) as [s|] eqn:E; cbv zeta.
  - apply stringSortKey_spec in E as ->. cbn [set_entries set_strs strKeys pi_Entries]. pose proof (remove_keys (strKeys pi) s Hok) as Hr.
    destruct (sc_remove s (strKeys pi)) as [ks found]. cbn [fst]. destruct Hr as (H1 & H2 & _). refine (conj eq_refl (conj H1 (conj _ eq_refl))).
    intros x. rewrite H2, elem_of_without, Hin. destruct (decide (x = s)) as [->|Hne]; [rewrite lookup_delete_eq|rewrite lookup_delete_ne by (unfold str_vk; congruence)].
    + split; [tauto|]. by intros [? ?].
    + tauto.
  - cbn [set_entries strKeys pi_Entries]. refine (conj eq_refl (conj Hok (conj _ _))); [|by destruct pi]. intros s. rewrite Hin.
    rewrite lookup_delete_ne; [done|]. intros E2. assert (stringSortKey vk = Some s) by by apply stringSortKey_spec. congruence.
Qed.

(** ** The numeric view *)

Lemma len_put (s : IDPostings) id : sc_ok s ->
  IDPostings_Len (Some (fst (IDPostings_add id s))) = (IDPostings_Len (Some s) + if snd (IDPostings_add id s) then 1 else 0)%nat.
Proof.
  intros Hok. unfold IDPostings_add. pose proof (put_ok s id Hok) as Hp. destruct (sc_put id s) as [s' added]. destruct Hp as (Hs' & Hk & ->).
  cbn [fst snd IDPostings_Len]. rewrite (ok_n _ Hs'), (ok_n _ Hok), Hk. unfold put_list. destruct (decide (id ∈ keys s)).
  - rewrite bool_decide_eq_false_2 by tauto. lia.
  - rewrite bool_decide_eq_true_2 by tauto. rewrite length_insert_by. lia.
Qed.

Lemma addCount_view ks bs k d s : view_ok true ks bs -> Z.of_nat (IDPostings_Len (Some s)) = Z.max 0 (Z.of_nat (IDPostings_Len (bs !! k)) + d) ->
  view_ok true (addCount k d ks) (<[k := s]> bs) /\ (IDPostings_Len (Some s) = 0%nat -> view_ok true (addCount k d ks) (delete k bs)).
Proof.
  intros [Hc Hm] Hlen. destruct (addCount_exact ks k d Hc) as [Hc' Hm']. split; [|intros Hz].
  - split; [done|]. intros x. rewrite Hm'. case_bool_decide as E; [subst x; by rewrite lookup_insert_eq, Hm, Hlen|]. by rewrite lookup_insert_ne, Hm by done.
  - split; [done|]. intros x. rewrite Hm'. case_bool_decide as E; [subst x; rewrite lookup_delete_eq, Hm; cbn [IDPostings_Len]; lia|]. by rewrite lookup_delete_ne, Hm by done.
Qed.

Lemma imprecise_insert id vk m : m !! id = None \/ m !! id = Some vk ->
  Z.of_nat (imprecise_holders (<[id := vk]> m)) <= Z.of_nat (imprecise_holders m) + if isNumericImprecise vk then 1 else 0.
Proof.
  intros Hid. unfold imprecise_holders. rewrite map_filter_insert. cbn [snd]. case_decide as E.
  - rewrite E, map_size_insert. case_match; unfold Datatypes.id; lia.
  - rewrite map_filter_delete. rewrite map_size_delete. case_match; unfold Datatypes.id; case_match; lia.
Qed.

Lemma imprecise_delete id vk m : m !! id = Some vk ->
  Z.of_nat (imprecise_holders (delete id m)) = Z.of_nat (imprecise_holders m) - if isNumericImprecise vk then 1 else 0.
Proof.
  intros Hid. unfold imprecise_holders. rewrite map_filter_delete, map_size_delete. set (F := filter _ m).
  destruct (isNumericImprecise vk) eqn:E.
  - assert (HF : F !! id = Some vk) by (apply map_lookup_filter_Some; done). rewrite HF. assert (size F <> 0%nat) by (apply map_size_non_empty_iff; intros E2; rewrite E2 in HF; done). lia.
  - assert (HF : F !! id = None); [|rewrite HF; unfold Datatypes.id; lia]. apply map_lookup_filter_None. right. intros y Hy. cbn. congruence.
Qed.

Lemma view_put rc ks bs id k : view_ok rc ks bs -> sc_ok (default emptyChunks (bs !! k)) ->
  let bucket := default emptyChunks (bs !! k) in
  view_ok rc (if rc then (if snd (IDPostings_add id bucket) then addCount k 1 ks else ks) else (if bs !! k then ks else sc_insert k ks))
    (<[k := fst (IDPostings_add id bucket)]> bs).
Proof.
  intros Hv Hok. cbv zeta. pose proof (len_put _ id Hok) as Hlen. assert (Hd : IDPostings_Len (Some (default emptyChunks (bs !! k))) = IDPostings_Len (bs !! k)) by by destruct (bs !! k).
  rewrite Hd in Hlen. destruct rc.
  - destruct (snd (IDPostings_add id _)).
    + apply addCount_view; [done|]. rewrite Hlen. lia.
    + destruct Hv as [Hc Hm]. split; [done|]. intros x. rewrite Hm. destruct (decide (x = k)) as [->|]; [rewrite lookup_insert_eq; f_equal; lia|by rewrite lookup_insert_ne].
  - destruct Hv as [Hc Hm]. destruct (bs !! k) as [b|] eqn:Eb.
    + split; [done|]. intros x. rewrite Hm. destruct (decide (x = k)) as [->|]; [rewrite Eb, lookup_insert_eq; split; by eexists|by rewrite lookup_insert_ne].
    + assert (Hk : k ∉ keys ks) by (rewrite Hm, Eb; by intros [? ?]). destruct (insert_ok ks k Hc Hk) as [H1 H2]. split; [done|]. intros x.
      rewrite H2, (insert_by_perm kltb k (keys ks)), elem_of_cons, Hm. destruct (decide (x = k)) as [->|]; [rewrite lookup_insert_eq; split; [by eexists|by left]|rewrite lookup_insert_ne by done; tauto].
Qed.

Lemma addOrdered_ok id vk pi m : pi_ok pi m -> m !! id = None \/ m !! id = Some vk ->
  let pi' := addOrdered ParseFloat id vk pi in
  family (numBuckets pi') (fun x => <[id := vk]> m !! x ≫= numKey) /\ view_ok (rangeCounts pi) (numKeys pi') (numBuckets pi') /\
  Z.of_nat (imprecise_holders (<[id := vk]> m)) <= numImpreciseCount pi' /\
  pi' = set_imprecise (numImpreciseCount pi') (set_view (numKeys pi') (numBuckets pi') pi).
Proof.
  intros [Hel Hne He Hb Hv Hs Hi] Hid. cbv zeta. unfold addOrdered. pose proof (imprecise_insert id vk m Hid) as Himp.
  destruct (numKey vk) as [k|] eqn:Ek.
  - assert (Hfam : family (<[k := fst (IDPostings_add id (default emptyChunks (numBuckets pi !! k)))]> (numBuckets pi)) (fun x => <[id := vk]> m !! x ≫= numKey)).
    { apply (family_add _ _ _ _ _ Hb).
      - destruct Hid as [->| ->]; [by left|by right].
      - intros x. case_bool_decide as E; [subst x; rewrite lookup_insert_eq; exact Ek|by rewrite lookup_insert_ne]. }
    pose proof (view_put (rangeCounts pi) (numKeys pi) (numBuckets pi) id k Hv (proj1 (family_list _ _ k Hb))) as Hview. cbv zeta in Hview.
    set (p1 := if rangeCounts pi then addOrderedCounted id k pi else _).
    assert (Hp1 : p1 = set_view (if rangeCounts pi then (if snd (IDPostings_add id (default emptyChunks (numBuckets pi !! k))) then addCount k 1 (numKeys pi) else numKeys pi) else (if numBuckets pi !! k then numKeys pi else sc_insert k (numKeys pi)))
                          (<[k := fst (IDPostings_add id (default emptyChunks (numBuckets pi !! k)))]> (numBuckets pi)) pi).
    { unfold p1, addOrderedCounted. destruct (rangeCounts pi); [by destruct (IDPostings_add id _)|]. by destruct (numBuckets pi !! k). }
    rewrite Hp1. unfold noteNumericPrecision. destruct (isNumericImprecise vk); cbn [set_view set_imprecise numBuckets numKeys numImpreciseCount];
      refine (conj Hfam (conj Hview (conj _ _))); done || lia.
  - assert (isNumericImprecise vk = false) as Hni.
    { destruct (isNumericImprecise vk) eqn:E; [|done]. apply imprecise_numeric in E as [? E]. congruence. }
    rewrite Hni in Himp. refine (conj _ (conj Hv (conj _ _))); [|lia|by destruct pi].
    apply (family_ext _ _ _ Hb). intros x. destruct (decide (x = id)) as [->|]; [|by rewrite lookup_insert_ne]. rewrite lookup_insert_eq. cbn. rewrite Ek.
    destruct Hid as [->| ->]; [done|]. cbn. by rewrite Ek.
Qed.

(** ** AddKey and removeKey *)

Lemma AddKey_ok id (vk : bytes) pi m : pi_ok pi m -> vk <> [] -> m !! id = None \/ m !! id = Some vk -> pi_ok (AddKey ParseFloat id vk pi) (<[id := vk]> m).
Proof.
  intros Hok Hvk Hid. pose proof Hok as [Hel Hne He Hb Hv [Hs Hsin] Hi]. unfold AddKey. rewrite bool_decide_eq_false_2 by done.
  assert (Hfam : family (<[vk := fst (IDPostings_add id (default emptyChunks (pi_Entries pi !! vk)))]> (pi_Entries pi)) (fun x => <[id := vk]> m !! x)).
  { apply (family_add _ _ _ _ _ He Hid). intros x. case_bool_decide as E; [subst x; by rewrite lookup_insert_eq|by rewrite lookup_insert_ne]. }
  set (p1 := match pi_Entries pi !! vk with Some s => (s, pi) | None => (emptyChunks, if orderedViews pi then addOrderedStr vk pi else pi) end).
  assert (Hp1 : p1.1 = default emptyChunks (pi_Entries pi !! vk) /\ sc_ok (strKeys p1.2) /\
                (forall s, s ∈ keys (strKeys p1.2) <-> str_vk s = vk \/ is_Some (pi_Entries pi !! str_vk s)) /\ p1.2 = set_strs (strKeys p1.2) pi).
  { unfold p1, orderedViews. rewrite Hel. destruct (pi_Entries pi !! vk) as [t|] eqn:Et; cbn [negb fst snd].
    - refine (conj eq_refl (conj Hs (conj _ _))); [|by destruct pi]. intros s. rewrite Hsin. split; [by right|]. intros [<-|]; [|done]. rewrite Et. by eexists.
    - refine (conj eq_refl _). by apply addOrderedStr_ok. }
  clearbody p1. destruct p1 as [set1 pi1]. cbn [fst snd] in Hp1. destruct Hp1 as (-> & Hs1 & Hsin1 & Hpi1). set (s1 := strKeys pi1) in *. clearbody s1. subst pi1.
  cbn [set_strs pi_Entries set_entries]. set (pi2 := set_entries _ _).
  pose proof (addOrdered_ok id vk pi m Hok Hid) as Ho. cbv zeta in Ho. unfold orderedViews. cbn [pi2 set_entries set_strs elements]. rewrite Hel. cbn [negb].
  assert (Hcomm : addOrdered ParseFloat id vk pi2 = set_entries (pi_Entries pi2) (set_strs s1 (addOrdered ParseFloat id vk pi))).
  { unfold pi2. clear. destruct pi as [E M nk nb sk ni rc el od]. unfold addOrdered, noteNumericPrecision, addOrderedCounted. destruct (numKey vk) as [k|]; [|done].
    cbn [set_entries set_strs set_view rangeCounts numBuckets numKeys]. destruct rc; [destruct (IDPostings_add id _)|destruct (nb !! k)]; by destruct (isNumericImprecise vk). }
  rewrite Hcomm. set (q := addOrdered ParseFloat id vk pi) in *. destruct Ho as (Hb' & Hv' & Hi' & Hq). clearbody q. rewrite Hq in *. clear Hq Hcomm.
  unfold mark. split; cbn [set_mutated set_entries set_strs set_imprecise set_view pi_Entries numBuckets numKeys strKeys rangeCounts elements numImpreciseCount pi2] in *; try done.
  - intros x. destruct (decide (x = id)) as [->|]; [rewrite lookup_insert_eq; congruence|by rewrite lookup_insert_ne].
  - split; [done|]. intros s. rewrite Hsin1. destruct (decide (str_vk s = vk)) as [<-|]; [rewrite lookup_insert_eq; split; [by eexists|by left]|rewrite lookup_insert_ne by done; tauto].
Qed.

Lemma view_remove rc ks bs k s s' : view_ok rc ks bs -> bs !! k = Some s -> IDPostings_Len (Some s) = S (IDPostings_Len (Some s')) ->
  view_ok rc (if rc then addCount k (-1) ks else if (IDPostings_Len (Some s') =? 0)%nat then fst (sc_remove k ks) else ks)
    (if (IDPostings_Len (Some s') =? 0)%nat then delete k bs else <[k := s']> bs).
Proof.
  intros Hv Hk Hlen. destruct rc.
  - destruct (addCount_view ks bs k (-1) s' Hv) as [H1 H2]; [rewrite Hk; lia|]. destruct (Nat.eqb_spec (IDPostings_Len (Some s')) 0); [by apply H2|done].
  - destruct Hv as [Hc Hm]. destruct (Nat.eqb_spec (IDPostings_Len (Some s')) 0).
    + pose proof (remove_keys ks k Hc) as Hr. destruct (sc_remove k ks) as [ks' found]. cbn [fst]. destruct Hr as (H1 & H2 & _). split; [done|]. intros x.
      rewrite H2, elem_of_without, Hm. destruct (decide (x = k)) as [->|]; [rewrite lookup_delete_eq; split; [tauto|by intros [? ?]]|rewrite lookup_delete_ne by done; tauto].
    + split; [done|]. intros x. rewrite Hm. destruct (decide (x = k)) as [->|]; [rewrite Hk, lookup_insert_eq; split; by eexists|by rewrite lookup_insert_ne].
Qed.

Lemma removeOrdered_ok id vk pi m : pi_ok pi m -> m !! id = Some vk ->
  let pi' := removeOrdered ParseFloat id vk pi in
  family (numBuckets pi') (fun x => delete id m !! x ≫= numKey) /\ view_ok (rangeCounts pi) (numKeys pi') (numBuckets pi') /\
  Z.of_nat (imprecise_holders (delete id m)) <= numImpreciseCount pi' /\
  pi' = set_imprecise (numImpreciseCount pi') (set_view (numKeys pi') (numBuckets pi') pi).
Proof.
  intros [Hel Hne He Hb Hv Hs Hi] Hid. cbv zeta. unfold removeOrdered. pose proof (imprecise_delete id vk m Hid) as Himp.
  assert (Hh : forall x, delete id m !! x ≫= numKey = if bool_decide (x = id) then None else m !! x ≫= numKey).
  { intros x. case_bool_decide as E; [subst x; by rewrite lookup_delete_eq|by rewrite lookup_delete_ne]. }
  destruct (numKey vk) as [k|] eqn:Ek.
  - assert (Hidk : m !! id ≫= numKey = Some k) by by rewrite Hid. pose proof (Hb k) as Hbk. destruct (numBuckets pi !! k) as [s|] eqn:Es; [|by apply Hbk in Hidk].
    destruct (family_remove _ _ _ id k s Hb Es Hidk Hh) as (Hfam & Hfound & Hlen & Hlen2 & Hok').
    assert (Hlens : IDPostings_Len (Some s) = S (IDPostings_Len (Some (IDPostings_remove id s).1))) by (rewrite Hlen, Hlen2; by destruct Hbk as ([_ ?] & _)).
    pose proof (view_remove (rangeCounts pi) _ _ k s _ Hv Es Hlens) as Hview.
    destruct (IDPostings_remove id s) as [s' found]. cbn [fst snd] in *. subst found.
    set (p1 := if rangeCounts pi then _ else _).
    assert (Hp1 : p1 = set_view (if rangeCounts pi then addCount k (-1) (numKeys pi) else if (IDPostings_Len (Some s') =? 0)%nat then fst (sc_remove k (numKeys pi)) else numKeys pi)
                          (if (IDPostings_Len (Some s') =? 0)%nat then delete k (numBuckets pi) else <[k := s']> (numBuckets pi)) pi).
    { unfold p1. destruct (rangeCounts pi); [done|]. by destruct (_ =? 0)%nat. }
    rewrite Hp1. unfold noteNumericPrecisionRemoved. cbn [set_view numImpreciseCount]. destruct (isNumericImprecise vk) eqn:Ei; cbn [andb].
    + destruct (Z.gtb_spec (numImpreciseCount pi) 0); cbn [set_view set_imprecise numBuckets numKeys numImpreciseCount]; refine (conj Hfam (conj Hview (conj _ _))); done || lia.
    + cbn [set_view set_imprecise numBuckets numKeys numImpreciseCount]; refine (conj Hfam (conj Hview (conj _ _))); done || lia.
  - assert (isNumericImprecise vk = false) as Hni.
    { destruct (isNumericImprecise vk) eqn:E; [|done]. apply imprecise_numeric in E as [? E]. congruence. }
    rewrite Hni in Himp. refine (conj _ (conj Hv (conj _ _))); [|lia|by destruct pi].
    apply (family_ext _ _ _ Hb). intros x. rewrite Hh. case_bool_decide as E; [subst x|done]. by rewrite Hid.
Qed.

Lemma removeKey_ok id (vk : bytes) pi m : pi_ok pi m -> m !! id = Some vk -> pi_ok (removeKey ParseFloat id vk pi) (delete id m).
Proof.
  intros Hok Hid. pose proof Hok as [Hel Hne He Hb Hv [Hs Hsin] Hi]. unfold removeKey. rewrite bool_decide_eq_false_2 by (intros ->; by apply Hne in Hid).
  assert (Hh : forall x, delete id m !! x = if bool_decide (x = id) then None else m !! x).
  { intros x. case_bool_decide as E; [subst x; by rewrite lookup_delete_eq|by rewrite lookup_delete_ne]. }
  pose proof (He vk) as Hevk. destruct (pi_Entries pi !! vk) as [s|] eqn:Es; [|by apply Hevk in Hid].
  destruct (family_remove _ _ _ id vk s He Es Hid Hh) as (Hfam & _). set (s' := (IDPostings_remove id s).1) in *.
  set (p1 := if (IDPostings_Len (Some s') =? 0)%nat then _ else _).
  assert (Hp1 : pi_Entries p1 = (if (IDPostings_Len (Some s') =? 0)%nat then delete vk (pi_Entries pi) else <[vk := s']> (pi_Entries pi)) /\
                sc_ok (strKeys p1) /\ (forall t, t ∈ keys (strKeys p1) <-> is_Some (pi_Entries p1 !! str_vk t)) /\ p1 = set_strs (strKeys p1) (set_entries (pi_Entries p1) pi)).
  { unfold p1. destruct (IDPostings_Len (Some s') =? 0)%nat.
    - assert (Hin' : forall t, t ∈ keys (strKeys (set_entries (<[vk := s']> (pi_Entries pi)) pi)) <-> is_Some (pi_Entries (set_entries (<[vk := s']> (pi_Entries pi)) pi) !! str_vk t)).
      { intros t. cbn. rewrite Hsin. destruct (decide (str_vk t = vk)) as [<-|]; [rewrite lookup_insert_eq, Es; split; by eexists|by rewrite lookup_insert_ne]. }
      destruct (dropKey_ok vk (set_entries (<[vk := s']> (pi_Entries pi)) pi) Hel Hs Hin') as (D1 & D2 & D3 & D4). cbn [set_entries pi_Entries] in D1, D4. rewrite delete_insert_eq in D1, D4.
      refine (conj D1 (conj D2 (conj D3 _))). rewrite D1. exact D4.
    - cbn [set_entries pi_Entries strKeys]. refine (conj eq_refl (conj Hs (conj _ _))); [|by destruct pi]. intros t. rewrite Hsin.
      destruct (decide (str_vk t = vk)) as [<-|]; [rewrite lookup_insert_eq, Es; split; by eexists|by rewrite lookup_insert_ne]. }
  clearbody p1. destruct Hp1 as (P1 & P2 & P3 & P4). set (s1 := strKeys p1) in *. set (e1 := pi_Entries p1) in *. clearbody s1 e1. subst p1. rewrite P1 in *. clear P1 e1.
  pose proof (removeOrdered_ok id vk pi m Hok Hid) as Ho. cbv zeta in Ho. unfold orderedViews. cbn [set_entries set_strs elements]. rewrite Hel. cbn [negb].
  assert (Hcomm : forall e, removeOrdered ParseFloat id vk (set_strs s1 (set_entries e pi)) = set_entries e (set_strs s1 (removeOrdered ParseFloat id vk pi))).
  { clear. intros e. destruct pi as [E M nk nb sk ni rc el od]. unfold removeOrdered, noteNumericPrecisionRemoved. destruct (numKey vk) as [k|]; [|done].
    cbn [set_entries set_strs set_view rangeCounts numBuckets numKeys]. destruct (nb !! k) as [b|]; [|done]. destruct (IDPostings_remove id b) as [b' f].
    destruct rc; [|destruct (_ =? 0)%nat]; cbn [set_view set_strs set_entries numImpreciseCount]; repeat case_match; reflexivity. }
  rewrite Hcomm. set (q := removeOrdered ParseFloat id vk pi) in *. destruct Ho as (Hb' & Hv' & Hi' & Hq). clearbody q. rewrite Hq in *. clear Hq Hcomm.
  unfold mark. split; cbn [set_mutated set_entries set_strs set_imprecise set_view pi_Entries numBuckets numKeys strKeys rangeCounts elements numImpreciseCount] in *; try done.
  intros x. rewrite Hh. case_bool_decide; [done|apply Hne].
Qed.

(** ** Counting a range *)

Definition between (lo hi : Z) (inclLo inclHi : bool) (k : Z) : bool :=
  (if inclLo then lo <=? k else lo <? k) && (if inclHi then k <=? hi else k <? hi).

Definition has_key (P : Z -> bool) (p : Z * bytes) : bool := match numKey p.2 with Some k => P k | None => false end.

(** How many entities have a numeric value whose sort key satisfies [P]. *)
Definition holders (m : gmap Z bytes) (P : Z -> bool) : Z := Z.of_nat (length (List.filter (has_key P) (map_to_list m))).

Definition bucket_len (pi : PropertyIndex) (k : Z) : Z := Z.of_nat (IDPostings_Len (numBuckets pi !! k)).

Lemma sumZ_cons (x : Z) (l : list Z) : sumZ (x :: l) = x + sumZ l.
Proof. reflexivity. Qed.

Lemma filter_split {A} (f g h : A -> bool) l : (forall x, h x = f x || g x) -> (forall x, f x && g x = false) ->
  length (List.filter h l) = (length (List.filter f l) + length (List.filter g l))%nat.
Proof.
  intros Hh Hd. induction l as [|x l IH]; [done|]. cbn [List.filter]. specialize (Hh x). specialize (Hd x). rewrite Hh. destruct (f x), (g x); cbn [orb andb length] in *; try done; lia.
Qed.

Lemma NoDup_map_fst_filter (f : Z * bytes -> bool) l : NoDup (map fst l) -> NoDup (map fst (List.filter f l)).
Proof.
  induction l as [|p l IH]; [done|]. cbn [map List.filter]. intros [Hn Hnd]%NoDup_cons. destruct (f p); [|by apply IH]. cbn [map]. apply NoDup_cons. split; [|by apply IH].
  intros (q & Eq & Hq)%list_elem_of_fmap. apply Hn, list_elem_of_fmap. exists q. split; [done|]. by apply elem_of_Lfilter in Hq as [Hq _].
Qed.

Lemma bucket_len_exact pi m k : pi_ok pi m -> bucket_len pi k = holders m (fun x => x =? k).
Proof.
  intros Hok. unfold bucket_len, holders. f_equal. pose proof (po_buckets _ _ Hok k) as Hb.
  assert (Hin : forall id, id ∈ map fst (List.filter (has_key (fun x => x =? k)) (map_to_list m)) <-> m !! id ≫= numKey = Some k).
  { intros id. rewrite list_elem_of_fmap. split.
    - intros ([id' vk] & -> & Hp). apply elem_of_Lfilter in Hp as [Hp Hk]. apply elem_of_map_to_list in Hp. cbn. rewrite Hp. unfold has_key in Hk. cbn in *.
      destruct (numKey vk); [|done]. apply Z.eqb_eq in Hk. by subst.
    - intros Hid. destruct (m !! id) as [vk|] eqn:Em; [|done]. exists (id, vk). split; [done|]. apply elem_of_Lfilter. split; [by apply elem_of_map_to_list|].
      unfold has_key. cbn in *. rewrite Hid. apply Z.eqb_refl. }
  rewrite <- (length_map fst). destruct (numBuckets pi !! k) as [s|].
  - destruct Hb as (Hs & _ & Hids). cbn [IDPostings_Len]. rewrite (ok_n _ Hs). apply Permutation_length, list.NoDup_Permutation.
    + pose proof (keys_ascending s Hs) as Ha. clear -Ha. induction Ha as [|x l _ IH Hf]; [constructor|]. apply NoDup_cons. split; [|done]. intros Hx. rewrite Forall_forall in Hf. specialize (Hf x Hx). lia.
    + apply NoDup_map_fst_filter, NoDup_fst_map_to_list.
    + intros id. by rewrite Hids, Hin.
  - cbn [IDPostings_Len]. destruct (map fst _) as [|id l]; [done|]. exfalso. apply (Hb id), Hin. left.
Qed.

(** The buckets of distinct keys partition the holders. *)
Lemma buckets_sum pi m P K : pi_ok pi m -> NoDup K -> (forall k, is_Some (numBuckets pi !! k) -> P k = true -> k ∈ K) ->
  sumZ (map (bucket_len pi) (List.filter P K)) = holders m P.
Proof.
  intros Hok HK Hcov. assert (Hsum : forall J, NoDup J -> sumZ (map (bucket_len pi) (List.filter P J)) = holders m (fun k => bool_decide (k ∈ J) && P k)).
  { induction J as [|k J IH]; intros HJ.
    - cbn. unfold holders. symmetry. assert (E : forall l, length (List.filter (has_key (fun k => bool_decide (k ∈ @nil Z) && P k)) l) = 0%nat); [|by rewrite E].
      induction l as [|p l IHl]; [done|]. cbn [List.filter]. unfold has_key at 1. destruct (numKey p.2) as [x|]; [|done].
      by rewrite (bool_decide_eq_false_2 (x ∈ @nil Z)) by apply not_elem_of_nil.
    - apply NoDup_cons in HJ as [Hk HJ]. specialize (IH HJ). cbn [List.filter]. unfold holders in *.
      rewrite (filter_split (has_key (fun x => (x =? k) && P k)) (has_key (fun x => bool_decide (x ∈ J) && P x)) (has_key (fun x => bool_decide (x ∈ k :: J) && P x))).
      + destruct (P k) eqn:Ek.
        * cbn [map]. rewrite sumZ_cons, IH, (bucket_len_exact pi m k Hok). unfold holders.
          replace (List.filter (has_key (fun x => (x =? k) && true)) (map_to_list m)) with (List.filter (has_key (fun x => x =? k)) (map_to_list m)); [lia|].
          apply List.filter_ext. intros p. unfold has_key. destruct (numKey p.2); [by rewrite andb_true_r|done].
        * rewrite IH. replace (List.filter (has_key (fun x => (x =? k) && false)) (map_to_list m)) with (@nil (Z * bytes)); [done|].
          clear. symmetry. induction (map_to_list m) as [|p l IHl]; [done|]. cbn [List.filter]. unfold has_key at 1. destruct (numKey p.2); [rewrite andb_false_r|]; done.
      + intros p. unfold has_key. destruct (numKey p.2) as [x|]; [|done]. destruct (Z.eqb_spec x k) as [->|Hne].
        * rewrite (bool_decide_eq_true_2 (k ∈ k :: J)) by left. rewrite (bool_decide_eq_false_2 (k ∈ J)) by done. by destruct (P k).
        * cbn [andb orb]. f_equal. apply bool_decide_ext. rewrite elem_of_cons. tauto.
      + intros p. unfold has_key. destruct (numKey p.2) as [x|]; [|done]. destruct (Z.eqb_spec x k) as [->|Hne]; [|done].
        rewrite (bool_decide_eq_false_2 (k ∈ J)) by done. apply andb_false_r. }
  rewrite (Hsum K HK). unfold holders. do 2 f_equal. apply filter_ext_in. intros [id vk] Hp%list_elem_of_In. apply elem_of_map_to_list in Hp. unfold has_key. cbn [snd].
  destruct (numKey vk) as [k|] eqn:Ek; [|done]. destruct (P k) eqn:EP; [|apply andb_false_r]. rewrite bool_decide_eq_true_2; [done|]. apply Hcov; [|done].
  pose proof (po_buckets _ _ Hok k) as Hb. destruct (numBuckets pi !! k) as [s|]; [by eexists|]. exfalso. apply (Hb id). by rewrite Hp.
Qed.

(** The walk of the plain view adds up the buckets of the range. *)
Lemma walk_cardinality pi lo hi il ih l : ascending l -> Forall (fun k => lo <= k) l -> forall c,
  fst (walk (cardinality_body pi lo hi il ih) c l) = c + sumZ (map (bucket_len pi) (List.filter (between lo hi il ih) l)).
Proof.
  intros Ha. induction l as [|k l IH]; intros Hlo c; [cbn; lia|]. apply ascending_cons in Ha as [Hk Ha]. apply Forall_cons in Hlo as [Hle Hlo].
  cbn [walk]. unfold cardinality_body at 1. destruct (negb il && (k =? lo)) eqn:E1.
  - rewrite IH by done. cbn [List.filter]. apply andb_prop in E1 as [E1 E2]. unfold between at 2. destruct il; [done|]. by replace (lo <? k) with false by lia.
  - destruct (if ih then k >? hi else k >=? hi) eqn:E2.
    + cbn [fst]. rewrite (filter_none (between lo hi il ih)); [cbn; lia|]. apply Forall_cons. rewrite Forall_forall in Hk |- *. unfold between. split; [|intros x Hx; specialize (Hk x Hx)];
        apply andb_false_iff; right; destruct ih; lia.
    + rewrite IH by done. cbn [List.filter]. assert (between lo hi il ih k = true) as ->.
      { unfold between. apply andb_true_intro. destruct il, ih; cbn [negb andb] in E1; lia. }
      cbn [map]. rewrite sumZ_cons. unfold bucket_len at 2. lia.
Qed.

Lemma in_range_between lo hi il ih (p : Z * Z) : in_range lo hi il ih p = between lo hi il ih p.1.
Proof. unfold in_range, before, between. destruct il, ih; cbn [kltb negb Z_keys]; destruct p as [k c]; cbn [fst]; lia. Qed.

Lemma mult_nodup (l : list (Z * Z)) p : NoDup (map fst l) -> p ∈ l -> mult l p.1 = p.2.
Proof.
  induction l as [|q l IH]; [intros _ Hp; by apply not_elem_of_nil in Hp|]. cbn [map]. intros [Hq Hnd]%NoDup_cons Hp. rewrite mult_cons.
  apply elem_of_cons in Hp as [->|Hp].
  - rewrite bool_decide_eq_true_2, mult_absent by done. lia.
  - rewrite bool_decide_eq_false_2, IH by done || (intros E; apply Hq; rewrite E; apply list_elem_of_fmap; by exists p). lia.
Qed.

Lemma tsum_by_mult (f : Z -> bool) (g : Z -> Z) l : (forall p, p ∈ l -> g p.1 = p.2) ->
  tsum (List.filter (fun p : Z * Z => f p.1) l) = sumZ (map g (List.filter f (map fst l))).
Proof.
  induction l as [|p l IH]; intros Hg; [done|]. assert (IH' := IH (fun q Hq => Hg q ltac:(by right))). cbn [map List.filter]. destruct (f p.1); [|done].
  unfold tsum in *. cbn [map]. rewrite !sumZ_cons, IH', (Hg p) by left. done.
Qed.

Lemma ascending_nodup l : ascending l -> NoDup l.
Proof.
  induction 1 as [|x l _ IH Hf]; [constructor|]. apply NoDup_cons. split; [|done]. intros Hx. rewrite Forall_forall in Hf. specialize (Hf x Hx). lia.
Qed.

(** The keys of the counted view and of its entries. *)
Lemma count_keys (o : sortedChunks Z) : count_ok o -> keys o = map fst (entries o) /\ NoDup (keys o) /\ forall k, k ∈ keys o <-> 0 < mult (entries o) k.
Proof.
  intros (cells & Hc & _). pose proof (counted_entries _ _ Hc) as [He Hk]. rewrite entries_counting in He. change (keys (counting o)) with (keys o) in Hk.
  destruct Hc as (fen & _ & _ & [_ _ Hs] & Hp). rewrite concat_map_map in Hs. rewrite He, Hk. split; [done|]. split; [|intros k; by apply (mult_pos (concat cells) k)].
  clear -Hs. induction Hs as [|x l _ IH Hf]; [constructor|]. apply NoDup_cons. split; [|done]. intros Hx. rewrite Forall_forall in Hf. specialize (Hf x Hx). cbn in Hf. lia.
Qed.

(** Both views count the holders of the range. *)
Lemma view_count pi m lo hi il ih : pi_ok pi m ->
  (if rangeCounts pi then countRange (numKeys pi) (Some lo) (Some hi) il ih
   else forEachFrom lo (cardinality_body pi lo hi il ih) 0 (numKeys pi)) = holders m (between lo hi il ih).
Proof.
  intros Hok. pose proof (po_view _ _ Hok) as Hv. destruct (rangeCounts pi).
  - destruct Hv as [Hc Hm]. destruct (count_keys _ Hc) as (Hk & Hnd & Hin). rewrite (count_range_ok _ lo hi il ih Hc).
    rewrite (List.filter_ext _ (fun p => between lo hi il ih p.1)) by (intros p; apply in_range_between).
    rewrite (tsum_by_mult (between lo hi il ih) (bucket_len pi)); [rewrite <- Hk; apply (buckets_sum pi m _ (keys (numKeys pi)) Hok Hnd)|].
    + intros k [s Hs] _. apply Hin. rewrite Hm, Hs. pose proof (po_buckets _ _ Hok k) as Hb. rewrite Hs in Hb. destruct Hb as (Hsok & Hne & _).
      cbn [IDPostings_Len]. rewrite (ok_n _ Hsok). destruct (keys s); [done|cbn [length]; lia].
    + intros p Hp. unfold bucket_len. rewrite <- Hm. apply mult_nodup; [by rewrite <- Hk|done].
  - destruct Hv as [Hs Hin]. pose proof (keys_ascending _ Hs) as Ha. rewrite (forEachFrom_exact _ _ _ _ (ok_chunks _ Hs)), walk_cardinality.
    + unfold at_least. rewrite <- (buckets_sum pi m _ (List.filter (fun x => negb (kltb x lo)) (keys (numKeys pi))) Hok); [done| |].
      * by apply ascending_nodup, filter_ascending.
      * intros k Hk Hb. apply elem_of_Lfilter. split; [by apply Hin|]. cbn. unfold between in Hb. destruct il; lia.
    + by apply filter_ascending.
    + apply Forall_forall. intros k Hk. apply elem_of_Lfilter in Hk as [_ Hk]. cbn in Hk. lia.
Qed.

(** C22: RangeCardinality of an index that describes the map [m] from entities to value
    keys is, with and without range counts, the number of entities whose numeric
    sort key, the float64 its value rounds to, lies between the bounds, 0 with a NaN
    bound; it declines exactly when the index is being built, has no ordered views,
    is on disk, or its count of integers beyond 2^53 is above 0.  Nothing is asked of
    that count, so the answer is one by sort key where the count misses an integer. *)
Theorem range_cardinality_exact n pi m min max inclMin inclMax : pi_ok (set_imprecise n pi) m ->
  RangeCardinality min max inclMin inclMax pi =
    if serves pi && (numImpreciseCount pi <=? 0)
    then Some match min, max with Some lo, Some hi => holders m (between lo hi inclMin inclMax) | _, _ => 0 end
    else None.
Proof.
  intros Hok. unfold RangeCardinality. destruct (serves pi); cbn [negb orb andb]; [|done]. destruct (Z.gtb_spec (numImpreciseCount pi) 0) as [H|H].
  - by replace (numImpreciseCount pi <=? 0) with false by lia.
  - replace (numImpreciseCount pi <=? 0) with true by lia. destruct min as [lo|], max as [hi|].
    + pose proof (view_count (set_imprecise n pi) m lo hi inclMin inclMax Hok) as E. cbn [set_imprecise rangeCounts numKeys numBuckets] in E. rewrite <- E. by destruct (rangeCounts pi).
    + rewrite (proj2 (count_range_nan (numKeys pi) (Some lo) inclMin inclMax)). by destruct (rangeCounts pi).
    + rewrite (proj1 (count_range_nan (numKeys pi) (Some hi) inclMin inclMax)). by destruct (rangeCounts pi).
    + rewrite (proj1 (count_range_nan (numKeys pi) None inclMin inclMax)). by destruct (rangeCounts pi).
Qed.

Lemma New_ok rc : pi_ok (NewPropertyIndexWith rc false) ∅.
Proof.
  split; cbn [NewPropertyIndexWith elements pi_Entries numBuckets numKeys strKeys rangeCounts numImpreciseCount]; try done.
  - apply (family_ext _ _ _ family_empty). intros id. apply lookup_empty.
  - apply (family_ext _ _ _ family_empty). intros id. by rewrite lookup_empty.
  - destruct rc; cbn [view_ok].
    + split; [apply count_ok_empty|]. intros k. by rewrite lookup_empty.
    + split; [apply empty_ok|]. intros k. rewrite lookup_empty. split; [intros H; by apply not_elem_of_nil in H|by intros [? ?]].
  - split; [apply empty_ok|]. intros k. rewrite lookup_empty. split; [intros H; by apply not_elem_of_nil in H|by intros [? ?]].
Qed.
End Invariant.

(** A small index: three numbers and a string. *)
Definition no_floats (s : bytes) : option Z := None.

Definition demo_index (rc : bool) : PropertyIndex :=
  let add id vk pi := AddKey no_floats id (bytes_of_string vk) pi in
  add 4 "s:ant"%string (add 3 "i64:5"%string (add 2 "i64:9"%string (add 1 "i64:5"%string (NewPropertyIndexWith rc false)))).

Definition demo_map : gmap Z bytes :=
  <[4 := bytes_of_string "s:ant"]> (<[3 := bytes_of_string "i64:5"]> (<[2 := bytes_of_string "i64:9"]> (<[1 := bytes_of_string "i64:5"]> ∅))).

Lemma demo_ok rc : pi_ok no_floats (demo_index rc) demo_map.
Proof. unfold demo_index, demo_map. repeat (apply AddKey_ok; [|done|by left]). apply New_ok. Qed.

Definition rank (n : Z) : Z := float_rank (float64_of_int n).

(** The index with any count of imprecise integers that is not too low for it. *)
Lemma demo_imprecise_ok : pi_ok no_floats (set_imprecise 7 (demo_index true)) demo_map.
Proof.
  destruct (demo_ok true) as [H1 H2 H3 H4 H5 H6 H7]. split; [exact H1|exact H2|exact H3|exact H4|exact H5|exact H6|].
  cbn [set_imprecise numImpreciseCount]. apply Z.leb_le. vm_compute. reflexivity.
Qed.

Lemma range_cardinality_exact_witness : RangeCardinality (Some (rank 5)) (Some (rank 8)) true true (demo_index true) = Some 2.
Proof.
  rewrite (range_cardinality_exact no_floats 7 (demo_index true) demo_map _ _ _ _ demo_imprecise_ok). vm_compute. reflexivity.
Defined.

(** The guard against integers whose sort key is not their value has two gaps, in
    which RangeCardinality answers a wrong count instead of declining.  An unsigned
    value past MaxInt64 is not counted as imprecise: 2^64-1 alone in the index is
    counted in the range from 2^64.  And a removal decrements the count although
    its ID was not in the bucket: while the index is built, adding 2^53+1 for
    entity 1 and removing the same value for entity 2, which the build has not
    reached, leaves an index that counts entity 1 in the range up to 2^53. *)
Theorem range_count_guard_gaps :
  let vk := bytes_of_string "u64:18446744073709551615" in
  let pi := AddKey no_floats 1 vk NewPropertyIndex in
  let vk2 := bytes_of_string "i64:9007199254740993" in
  let building := set_mutated (Some ∅) NewPropertyIndex in
  let built := FinishBuild no_floats [] (NewPostingsBuild false) (fun _ => Some true) (removeKey no_floats 2 vk2 (AddKey no_floats 1 vk2 building)) in
  RangeCardinality (Some (rank (2 ^ 64))) (Some rank_inf) true true pi = Some 1 /\
  exactInt64FromVK vk2 = Some (2 ^ 53 + 1) /\ snd built = true /\
  RangeCardinality (Some (rank 0)) (Some (rank (2 ^ 53))) true true (fst built) = Some 1.
Proof. vm_compute. done. Qed.
