(* ===== verification/OrderedPages.v ===== *)
(** * Ordered pages of a property index (property_index_range.go, _string_range.go)

    RangeOrderedPage and PrefixOrderedPage list the entities of a value range in
    the order of their values, a page at a time, resuming after a cursor.  The
    theorems show that every page is the next stretch of one ordered sequence of
    all holders in the range, so that following the cursors visits each once. *)

From stdpp Require Import gmap.
From S2P Require Import Prelude Bytes Keys Fenwick SortedChunks ChunkCounts Postings PropertyIndex.

(** ** The sequence of a page *)

Section Sequence.
Context {K : Type} `{HK : KeyOrderOK K}.
Implicit Types (k : K) (ks : list K) (p q : K * Z) (L : list (K * Z)) (after : option (K * Z)).

Definition precedes (desc : bool) k k' : bool := if desc then kltb k' k else kltb k k'.

Definition page_lt (desc : bool) p q : bool := precedes desc p.1 q.1 || (bool_decide (p.1 = q.1) && (p.2 <? q.2)).

(** What is left of the sequence after a cursor. *)
Definition follows (desc : bool) after p : bool := match after with Some c => page_lt desc c p | None => true end.

Definition pairs_at (bucket : K -> option IDPostings) k : list (K * Z) := map (pair k) (ids_of_list (bucket k)).

Definition pairs_in (bucket : K -> option IDPostings) ks : list (K * Z) := concat (map (pairs_at bucket) ks).

Lemma precedes_irrefl desc k : precedes desc k k = false.
Proof. unfold precedes. destruct desc; apply k_irrefl. Qed.

Lemma precedes_trans desc k1 k2 k3 : precedes desc k1 k2 = true -> precedes desc k2 k3 = true -> precedes desc k1 k3 = true.
Proof. unfold precedes. destruct desc; eauto using k_trans. Qed.

Lemma precedes_total desc k k' : precedes desc k k' = false -> precedes desc k' k = false -> k = k'.
Proof. unfold precedes. destruct desc; eauto using k_total. Qed.

Lemma page_lt_spec desc p q : page_lt desc p q = true <-> precedes desc p.1 q.1 = true \/ p.1 = q.1 /\ p.2 < q.2.
Proof. unfold page_lt. rewrite orb_true_iff, andb_true_iff, bool_decide_eq_true, Z.ltb_lt. done. Qed.

Lemma page_lt_irrefl desc p : page_lt desc p p = false.
Proof. unfold page_lt. rewrite precedes_irrefl, Z.ltb_irrefl. apply andb_false_r. Qed.

Lemma page_lt_trans desc p q r : page_lt desc p q = true -> page_lt desc q r = true -> page_lt desc p r = true.
Proof.
  rewrite !page_lt_spec. intros [H1|[H1 H1']] [H2|[H2 H2']].
  - left. eauto using precedes_trans.
  - left. by rewrite <- H2.
  - left. by rewrite H1.
  - right. split; [congruence|lia].
Qed.

Lemma page_lt_asym desc p q : page_lt desc p q = true -> page_lt desc q p = false.
Proof. intros H. destruct (page_lt desc q p) eqn:E; [|done]. by rewrite <- (page_lt_irrefl desc p), (page_lt_trans _ _ _ _ H E). Qed.

Lemma pairs_in_elem bucket ks k id : (k, id) ∈ pairs_in bucket ks <-> k ∈ ks /\ id ∈ ids_of_list (bucket k).
Proof.
  unfold pairs_in, pairs_at. induction ks as [|k' ks IH]; cbn [map concat].
  - split; [intros H; by apply not_elem_of_nil in H|]. intros [H _]. by apply not_elem_of_nil in H.
  - rewrite elem_of_app, IH, elem_of_cons, list_elem_of_fmap. naive_solver.
Qed.

Lemma pairs_in_sorted desc bucket ks : StronglySorted (fun k k' => precedes desc k k' = true) ks -> (forall k, list_ok (bucket k)) ->
  StronglySorted (fun p q => page_lt desc p q = true) (pairs_in bucket ks).
Proof.
  intros Hs Hok. induction Hs as [|k ks _ IH Hf]; [constructor|]. change (pairs_in bucket (k :: ks)) with (pairs_at bucket k ++ pairs_in bucket ks).
  apply StronglySorted_app. refine (conj _ (conj _ IH)).
  - intros [k1 id1] [k2 id2] H1 H2. unfold pairs_at in H1. apply list_elem_of_fmap in H1 as (id & [= -> ->] & _). apply pairs_in_elem in H2 as [H2 _].
    rewrite Forall_forall in Hf. apply page_lt_spec. left. by apply Hf.
  - unfold pairs_at. specialize (Hok k). destruct (bucket k) as [s|]; [|constructor]. cbn [ids_of_list]. pose proof (keys_ascending s Hok) as Ha.
    clear -Ha. induction Ha as [|x l _ IH Hx]; [constructor|]. cbn [map]. constructor; [done|]. apply Forall_forall. intros q (y & -> & Hy)%list_elem_of_fmap.
    rewrite Forall_forall in Hx. apply page_lt_spec. right. split; [done|]. by apply Hx.
Qed.

(** The rest after a full page's last pair is what the page left. *)
Lemma rest_after_page desc after n c L : StronglySorted (fun p q => page_lt desc p q = true) L ->
  last (take n (List.filter (follows desc after) L)) = Some c ->
  List.filter (follows desc (Some c)) L = drop n (List.filter (follows desc after) L).
Proof.
  intros Hs Hc. set (rest := List.filter (follows desc after) L) in *. assert (Hrest : StronglySorted (fun p q => page_lt desc p q = true) rest).
  { unfold rest. clear -Hs. induction Hs as [|p l _ IH Hf]; [constructor|]. cbn [List.filter]. destruct (follows desc after p); [|done]. constructor; [done|].
    apply Forall_forall. intros q [Hq _]%elem_of_Lfilter. rewrite Forall_forall in Hf. by apply Hf. }
  assert (Hcut : List.filter (follows desc (Some c)) L = List.filter (follows desc (Some c)) rest).
  { assert (Hin : c ∈ rest) by (apply last_Some_elem_of, elem_of_take in Hc as (i & Hi & _); by apply list_elem_of_lookup_2 in Hi). apply elem_of_Lfilter in Hin as [_ Hin]. unfold rest. rewrite Lfilter_twice.
    apply List.filter_ext. intros q. destruct (follows desc (Some c) q) eqn:E; [|by rewrite andb_false_r]. rewrite andb_true_r. symmetry.
    destruct after as [a|]; [|done]. cbn [follows] in *. eauto using page_lt_trans. }
  rewrite Hcut. rewrite <- (take_drop n rest) in Hrest at 1. rewrite <- (take_drop n rest) at 1. rewrite List.filter_app.
  apply StronglySorted_app in Hrest as (H1 & H2 & _). apply last_Some in Hc as [l' Hc]. rewrite Hc in H1, H2 |- *. apply StronglySorted_app in H2 as (H2 & _ & _).
  rewrite Lfilter_none, Lfilter_all; [done| |].
  - intros q Hq. apply H1; [apply elem_of_app; right; by left|done].
  - intros q [Hq|Hq]%elem_of_app; cbn [follows]; [apply page_lt_asym, H2; [done|by left]|]. apply list_elem_of_singleton in Hq as ->. apply page_lt_irrefl.
Qed.

(** ** The emitter *)

Lemma emit_walk k limit l : forall page, Z.of_nat (length page) < limit ->
  walk (emit_body k limit) (page, false) l =
    let all := page ++ map (pair k) l in
    let full := limit <=? Z.of_nat (length all) in
    ((take (Z.to_nat limit) all, full), negb full).
Proof.
  induction l as [|id l IH]; intros page Hp; cbn [walk map].
  - rewrite app_nil_r, take_ge by lia. cbv zeta. by replace (limit <=? Z.of_nat (length page)) with false by lia.
  - cbv zeta. unfold emit_body at 1. cbn [fst]. rewrite length_app. cbn [length].
    replace (page ++ (k, id) :: map (pair k) l) with ((page ++ [(k, id)]) ++ map (pair k) l) by by rewrite <- app_assoc.
    destruct (Z.geb_spec (Z.of_nat (length page + 1)) limit) as [Hf|Hf]; cbn [negb].
    + assert (length (page ++ [(k, id)]) = Z.to_nat limit) as Hlen by (rewrite length_app; cbn [length]; lia). rewrite take_app_length' by done.
      rewrite length_app, Hlen. destruct (Z.leb_spec limit (Z.of_nat (Z.to_nat limit + length (map (pair k) l)))); [done|lia].
    + rewrite IH by (rewrite length_app; cbn [length]; lia). done.
Qed.

(** The IDs of a key that the cursor leaves. *)
Definition left_at (bucket : K -> option IDPostings) after k : list (K * Z) :=
  let from := match after with Some (v, id) => if bool_decide (k = v) then id else 0 | None => 0 end in
  map (pair k) (ids_after from (ids_of_list (bucket k))).

Lemma emitKey_exact bucket after limit page k : list_ok (bucket k) -> Z.of_nat (length page) < limit ->
  emitKey bucket after limit page k =
    let all := page ++ left_at bucket after k in (take (Z.to_nat limit) all, Z.of_nat (length all) <? limit).
Proof.
  intros Hok Hp. unfold emitKey. rewrite After_exact by done. rewrite emit_walk by done. cbv zeta. cbn [fst]. fold (left_at bucket after k).
  f_equal. rewrite Z.ltb_antisym. done.
Qed.

Lemma emit_keys bucket after limit ks : (forall k, list_ok (bucket k)) -> forall page, Z.of_nat (length page) < limit ->
  fst (walk (emitKey bucket after limit) page ks) = take (Z.to_nat limit) (page ++ concat (map (left_at bucket after) ks)).
Proof.
  intros Hok. induction ks as [|k ks IH]; intros page Hp; cbn [walk map concat].
  - rewrite app_nil_r, take_ge by lia. done.
  - rewrite emitKey_exact by done. cbv zeta. rewrite app_assoc. set (all := page ++ left_at bucket after k). destruct (Z.ltb_spec (Z.of_nat (length all)) limit).
    + rewrite take_ge by lia. by apply IH.
    + cbn [fst]. by rewrite take_app_le by lia.
Qed.

(** A body that skips ([Some true]), stops ([Some false]) or works, and does not
    work once it stopped, works on the keys it is meant for. *)
Lemma walk_verdict {S} (v : K -> option bool) (fn body : S -> K -> S * bool) ks :
  (forall s k, body s k = match v k with Some on => (s, on) | None => fn s k end) ->
  StronglySorted (fun k k' => v k = Some false -> v k' <> None) ks ->
  forall s, fst (walk body s ks) = fst (walk fn s (List.filter (fun k => match v k with None => true | Some _ => false end) ks)).
Proof.
  intros Hb. induction 1 as [|k ks _ IH Hf]; intros s; [done|]. cbn [walk List.filter]. rewrite Hb. destruct (v k) as [[]|] eqn:E.
  - apply IH.
  - rewrite Lfilter_none; [done|]. intros x Hx. rewrite Forall_forall in Hf. specialize (Hf x Hx eq_refl). by destruct (v x).
  - cbn [walk]. destruct (fn s k) as [s' []]; [apply IH|done].
Qed.

Definition not_before (desc : bool) after k : bool := match after with Some (v, _) => negb (precedes desc k v) | None => true end.

(** Emitting the keys not before the cursor lists the rest of the sequence. *)
Lemma page_rest desc bucket after limit ks : (forall k, list_ok (bucket k)) -> (forall k, Forall (fun id => 0 < id) (ids_of_list (bucket k))) -> 0 < limit ->
  fst (walk (emitKey bucket after limit) [] (List.filter (not_before desc after) ks)) =
    take (Z.to_nat limit) (List.filter (follows desc after) (pairs_in bucket ks)).
Proof.
  intros Hok Hpos Hl. rewrite emit_keys by done. cbn [app]. f_equal. unfold pairs_in. induction ks as [|k ks IH]; [done|]. cbn [List.filter map concat].
  rewrite List.filter_app, <- IH. assert (Hk : List.filter (follows desc after) (pairs_at bucket k) = if not_before desc after k then left_at bucket after k else []).
  { specialize (Hpos k). unfold pairs_at, left_at, not_before. clear IH. set (ids := ids_of_list (bucket k)) in *. clearbody ids. destruct after as [[v i]|].
    - destruct (precedes desc k v) eqn:E; cbn [negb].
      + apply Lfilter_none. intros p (id & -> & _)%list_elem_of_fmap. cbn [follows]. apply page_lt_asym, page_lt_spec. by left.
      + case_bool_decide as Ev.
        * subst v. unfold ids_after. clear -HK. induction ids as [|id ids IH]; [done|]. cbn [map List.filter]. cbn [follows]. unfold page_lt at 1. cbn [fst snd].
          rewrite precedes_irrefl, bool_decide_eq_true_2 by done. cbn [orb andb]. destruct (i <? id); [cbn [map]; by f_equal|done].
        * unfold ids_after. rewrite !Lfilter_all; [done| |].
          -- intros id Hid. rewrite Forall_forall in Hpos. specialize (Hpos id Hid). lia.
          -- intros p (id & -> & _)%list_elem_of_fmap. cbn [follows]. apply page_lt_spec. left. cbn [fst]. destruct (precedes desc v k) eqn:E2; [done|].
             destruct Ev. by apply (precedes_total desc).
    - unfold ids_after. rewrite !Lfilter_all; [done| |done]. intros id Hid. rewrite Forall_forall in Hpos. specialize (Hpos id Hid). lia. }
  rewrite Hk. destruct (not_before desc after k); cbn [map concat app]; done.
Qed.

Definition rest (desc : bool) L after : list (K * Z) := List.filter (follows desc after) L.

(** [page] serves one sequence: the pairs of [P], each once, in page order.  A page
    is the next [limit] pairs after the cursor, done says that fewer were left,
    and the returned cursor leaves what the page did not list. *)
Definition pages_exact (desc : bool) (page : option (K * Z) -> Z -> option (list (K * Z) * option (K * Z) * bool)) (P : K -> Z -> Prop) : Prop :=
  exists L, StronglySorted (fun p q => page_lt desc p q = true) L /\ (forall k id, (k, id) ∈ L <-> P k id) /\
    forall after limit, 0 < limit -> exists next,
      page after limit = Some (take (Z.to_nat limit) (rest desc L after), next, Z.of_nat (length (rest desc L after)) <? limit) /\
      (limit <= Z.of_nat (length (rest desc L after)) -> rest desc L next = drop (Z.to_nat limit) (rest desc L after)).

Definition directed {A} (desc : bool) (l : list A) : list A := if desc then rev l else l.

Lemma directed_elem {A} desc (l : list A) x : x ∈ directed desc l <-> x ∈ l.
Proof. destruct desc; cbn [directed]; [|done]. by rewrite !list_elem_of_In, <- in_rev. Qed.

Lemma directed_filter {A} desc (f : A -> bool) (l : list A) : List.filter f (directed desc l) = directed desc (List.filter f l).
Proof. destruct desc; cbn [directed]; [apply filter_rev|done]. Qed.

Lemma directed_sorted desc (R : K -> bool) ks : StronglySorted (fun k k' => kltb k k' = true) ks -> StronglySorted (fun k k' => precedes desc k k' = true) (directed desc (List.filter R ks)).
Proof.
  intros Hs. assert (Hf : StronglySorted (fun k k' => kltb k k' = true) (List.filter R ks)).
  { induction Hs as [|k l _ IH Hf]; [constructor|]. cbn [List.filter]. destruct (R k); [|done]. constructor; [done|]. apply Forall_forall. intros x [Hx _]%elem_of_Lfilter.
    rewrite Forall_forall in Hf. by apply Hf. }
  destruct desc; cbn [directed]; [|done]. by apply (StronglySorted_rev _ _ Hf).
Qed.

(** A page of the bucketed keys [ks], from what its walk visits. *)
Lemma pages_of_walk desc bucket ks (R : K -> bool) (P : K -> Z -> Prop) page : StronglySorted (fun k k' => kltb k k' = true) ks ->
  (forall k, list_ok (bucket k)) -> (forall k, Forall (fun id => 0 < id) (ids_of_list (bucket k))) ->
  (forall k id, P k id <-> k ∈ ks /\ R k = true /\ id ∈ ids_of_list (bucket k)) ->
  (forall after limit, 0 < limit ->
     page after limit =
       if (length ks =? 0)%nat then Some ([], None, true)
       else Some (page_result after limit (fst (walk (emitKey bucket after limit) [] (List.filter (not_before desc after) (directed desc (List.filter R ks))))))) ->
  pages_exact desc page P.
Proof.
  intros Hs Hok Hpos HP Hpage. set (L := pairs_in bucket (directed desc (List.filter R ks))). assert (HL : StronglySorted (fun p q => page_lt desc p q = true) L).
  { by apply pairs_in_sorted; [apply directed_sorted|]. }
  exists L. refine (conj HL (conj _ _)).
  - intros k id. unfold L. rewrite pairs_in_elem, directed_elem, elem_of_Lfilter, HP. tauto.
  - intros after limit Hl. rewrite Hpage by done. destruct (Nat.eqb_spec (length ks) 0) as [Hz|Hz].
    + apply length_zero_iff_nil in Hz. assert (L = []) as -> by (unfold L; subst ks; by destruct desc). exists None. cbn [rest List.filter]. rewrite take_nil. split; [|by rewrite drop_nil].
      do 2 f_equal. cbn. symmetry. by apply Z.ltb_lt.
    + unfold page_result. rewrite page_rest by done. fold L. fold (rest desc L after). set (P' := take _ (rest desc L after)). assert ((Z.of_nat (length P') <? limit) = (Z.of_nat (length (rest desc L after)) <? limit)) as ->.
      { unfold P'. rewrite length_take. set (n := length (rest desc L after)). destruct (Z.ltb_spec (Z.of_nat n) limit); [apply Z.ltb_lt|apply Z.ltb_ge]; lia. }
      eexists. split; [done|].
      intros Hfull. destruct (last P') as [c|] eqn:Ec; [by apply rest_after_page|]. apply last_None in Ec. unfold P' in Ec. apply (f_equal length) in Ec. rewrite length_take in Ec. cbn in Ec. lia.
Qed.
End Sequence.

(** ** Pages of the numeric view *)

(** Case analysis on the comparisons of a goal. *)
Ltac zcases :=
  cbn [kltb Z_keys];
  repeat match goal with
         | |- context [if Z.gtb ?a ?b then _ else _] => rewrite (Z.gtb_ltb a b)
         | |- context [if Z.ltb ?a ?b then _ else _] => destruct (Z.ltb_spec a b)
         | |- context [Z.ltb ?a ?b] => destruct (Z.ltb_spec a b)
         | |- context [Z.leb ?a ?b] => destruct (Z.leb_spec a b)
         | |- context [Z.gtb ?a ?b] => rewrite (Z.gtb_ltb a b)
         end; cbn [negb andb orb]; done || lia.

Section Pages.
Context (ParseFloat : bytes -> option Z).

Notation numKey := (numericSortKey ParseFloat).

Lemma view_keys pi m : pi_ok ParseFloat pi m ->
  cs_ok (chunks (numKeys pi)) /\ sc_n (numKeys pi) = length (keys (numKeys pi)) /\ forall k, k ∈ keys (numKeys pi) <-> is_Some (numBuckets pi !! k).
Proof.
  intros Hok. pose proof (po_view _ _ _ Hok) as Hv. destruct (rangeCounts pi).
  - destruct Hv as [Hc Hm]. destruct (count_keys _ Hc) as (_ & _ & Hin). destruct Hc as (cells & (fen & Ho & _ & Hcs & _) & _).
    assert (chunks (numKeys pi) = map (map fst) cells) as Hch by by injection Ho. assert (sc_n (numKeys pi) = length (concat cells)) as Hn by by injection Ho.
    split; [by rewrite Hch|]. split; [unfold keys; by rewrite Hn, Hch, concat_map_map, length_map|]. intros k. rewrite Hin, Hm.
    pose proof (po_buckets _ _ _ Hok k) as Hb. destruct (numBuckets pi !! k) as [s|]; cbn [IDPostings_Len]; [|split; [lia|by intros [? ?]]].
    destruct Hb as (Hsok & Hne & _). rewrite (ok_n _ Hsok). split; [by eexists|]. intros _. destruct (keys s); [done|cbn [length]; lia].
  - destruct Hv as [Hs Hin]. split; [apply Hs|]. split; [apply Hs|done].
Qed.

(** The lists of a family whose IDs are positive. *)
Lemma family_lists {A} `{Countable A} (F : gmap A IDPostings) h : family F h -> (forall id a, h id = Some a -> 0 < id) ->
  (forall a, list_ok (F !! a)) /\ (forall a, Forall (fun id => 0 < id) (ids_of_list (F !! a))) /\ (forall a id, id ∈ ids_of_list (F !! a) <-> h id = Some a).
Proof.
  intros HF Hpos. assert (Hin : forall a id, id ∈ ids_of_list (F !! a) <-> h id = Some a).
  { intros a id. specialize (HF a). destruct (F !! a) as [s|]; cbn [ids_of_list]; [apply HF|]. split; [intros E; by apply not_elem_of_nil in E|]. intros E. by apply HF in E. }
  split_and!; [| |done].
  - intros a. specialize (HF a). by destruct (F !! a); [apply HF|].
  - intros a. apply Forall_forall. intros id Hid. apply Hin in Hid. eauto.
Qed.

Definition positive (m : gmap Z bytes) : Prop := forall id vk, m !! id = Some vk -> 0 < id.

Lemma keys_weaken (R : Z -> Z -> Prop) o f : cs_ok (chunks o) -> (forall x y, x < y -> R x y) -> StronglySorted R (List.filter f (keys o)).
Proof.
  intros [_ _ Hs] HR. assert (Ha : ascending (keys o)) by (eapply StronglySorted_weaken; [|exact Hs]; cbn; intros; lia).
  eapply StronglySorted_weaken; [exact HR|]. by apply filter_ascending.
Qed.

Lemma keys_weaken_rev (R : Z -> Z -> Prop) o f : cs_ok (chunks o) -> (forall x y, y < x -> R x y) -> StronglySorted R (List.filter f (rev (keys o))).
Proof.
  intros Hs HR. rewrite filter_rev. eapply StronglySorted_weaken; [|apply StronglySorted_rev, (keys_weaken Z.lt o f Hs); done]. cbn. auto.
Qed.

(** C23: The pages of RangeOrderedPage, ascending or descending, are the stretches of
    one sequence: every entity whose numeric value is in the range (its bounds
    widened to the neighbouring floats) with its sort key, by value and then by
    ID.  Each page lists the next [limit] pairs after its cursor, says done when
    fewer were left, and returns the cursor that leaves the rest. *)
Theorem range_pages_exact pi m min max desc : pi_ok ParseFloat pi m -> positive m -> serves pi = true ->
  pages_exact desc (fun after limit => rangeOrderedPage min max desc after limit pi)
    (fun k id => m !! id ≫= numKey = Some k /\ next_down min <= k <= next_up max).
Proof.
  intros Hok Hpos Hsv. destruct (view_keys pi m Hok) as (Hcs & Hn & Hin).
  destruct (family_lists _ _ (po_buckets _ _ _ Hok)) as (H1 & H2 & H3); [intros id a Ha; destruct (m !! id) as [vk|] eqn:E; [by apply Hpos in E|done]|].
  apply (pages_of_walk desc (fun k => numBuckets pi !! k) (keys (numKeys pi)) (fun k => (next_down min <=? k) && (k <=? next_up max))); [apply Hcs|done|done| |].
  - intros k id. rewrite <- H3, Hin, andb_true_iff, !Z.leb_le. split; [|tauto]. intros [Hid [Hr1 Hr2]]. split_and!; try done. by destruct (numBuckets pi !! k); [eexists|apply not_elem_of_nil in Hid].
  - intros after limit Hl. unfold rangeOrderedPage. rewrite Hsv, Hn. replace (limit <=? 0) with false by lia. cbn [negb orb]. destruct (length (keys (numKeys pi)) =? 0)%nat; [done|].
    do 2 f_equal. rewrite directed_filter. destruct desc; cbn [negb directed].
    + rewrite (forEachDownFrom_exact _ _ _ _ Hcs). rewrite (walk_verdict (fun k => if k <? next_down min then Some false else None) (emitKey (fun k => numBuckets pi !! k) after limit));
        [|by intros; case_match|].
      * do 2 f_equal. unfold at_most. rewrite !filter_rev, !Lfilter_twice. f_equal. apply List.filter_ext. intros k. cbn.
        destruct after as [[v i]|]; cbn [not_before precedes]; zcases.
      * unfold at_most. rewrite <- filter_rev. apply keys_weaken_rev; [done|]. intros x y Hxy. zcases.
    + rewrite (forEachFrom_exact _ _ _ _ Hcs). rewrite (walk_verdict (fun k => if k >? next_up max then Some false else None) (emitKey (fun k => numBuckets pi !! k) after limit));
        [|by intros; case_match|].
      * do 2 f_equal. unfold at_least. rewrite !Lfilter_twice. apply List.filter_ext. intros k. cbn. destruct after as [[v i]|]; cbn [not_before precedes]; zcases.
      * apply keys_weaken; [done|]. intros x y Hxy. zcases.
Qed.

(** ** Pages of the string view *)

Definition HasPrefix (p k : bytes) : bool := bool_decide (take (length p) k = p).

Lemma successor_snoc b l : successor_of_reversed (l ++ [b]) =
  match successor_of_reversed l with Some u => Some (b :: u) | None => if b <? 255 then Some [b + 1] else None end.
Proof.
  induction l as [|c l IH]; cbn [app successor_of_reversed]; [done|]. destruct (c <? 255); [|done]. by rewrite rev_app_distr.
Qed.

Lemma successor_cons b p : prefixSuccessor (b :: p) =
  match prefixSuccessor p with Some u => Some (b :: u) | None => if b <? 255 then Some [b + 1] else None end.
Proof. apply successor_snoc. Qed.

(** The strings from the prefix up to its successor are those that start with it. *)
Lemma prefix_range p : forall k, Forall is_byte p -> Forall is_byte k ->
  negb (str_lt k p) && match prefixSuccessor p with Some u => str_lt k u | None => true end = HasPrefix p k.
Proof.
  induction p as [|b p IH]; intros k Hp Hk; [unfold HasPrefix; rewrite bool_decide_eq_true_2 by done; by destruct k|]. apply Forall_cons in Hp as [Hb Hp]. rewrite successor_cons. unfold HasPrefix.
  destruct k as [|c k]; [done|]. apply Forall_cons in Hk as [Hc Hk]. specialize (IH k Hp Hk). unfold HasPrefix in IH. cbn [str_lt length take].
  assert (Hcut : bool_decide (c :: take (length p) k = b :: p) = (c =? b) && bool_decide (take (length p) k = p)).
  { destruct (Z.eqb_spec c b) as [->|]; cbn [andb]; [apply bool_decide_ext; split; congruence|]. apply bool_decide_eq_false_2. congruence. }
  change (take (S (length p)) (c :: k)) with (c :: take (length p) k). rewrite Hcut. unfold is_byte in *. destruct (Z.eqb_spec c b) as [->|Hne]; cbn [andb].
  - rewrite <- IH. f_equal. destruct (prefixSuccessor p); cbn [str_lt]; [by rewrite Z.eqb_refl|]. destruct (Z.ltb_spec b 255); [|done]. cbn [str_lt].
    destruct (Z.eqb_spec b (b + 1)), (Z.ltb_spec b (b + 1)); done || lia.
  - destruct (Z.ltb_spec c b); [done|]. cbn [negb andb]. destruct (prefixSuccessor p); cbn [str_lt].
    + destruct (Z.eqb_spec c b), (Z.ltb_spec c b); done || lia.
    + destruct (Z.ltb_spec b 255); [|lia]. cbn [str_lt]. destruct (Z.eqb_spec c (b + 1)); [by destruct k|]. apply Z.ltb_ge. lia.
Qed.

Definition past_prefix_end (prefix k : bytes) : bool := match prefixSuccessor prefix with Some u => negb (str_lt k u) | None => false end.

Lemma past_end_mono prefix (x y : bytes) : str_lt x y = true -> past_prefix_end prefix x = true -> past_prefix_end prefix y = true.
Proof.
  unfold past_prefix_end. destruct (prefixSuccessor prefix) as [u|]; [|done]. rewrite !negb_true_iff. intros Hxy Hx.
  destruct (str_lt y u) eqn:E; [|done]. by rewrite (str_lt_trans _ _ _ Hxy E) in Hx.
Qed.

Lemma str_lt_asym (x y : bytes) : str_lt x y = true -> str_lt y x = false.
Proof. intros H. destruct (str_lt y x) eqn:E; [|done]. by rewrite <- (str_lt_irrefl x), (str_lt_trans _ _ _ H E). Qed.

(** Not below the larger of two strings. *)
Lemma not_below_max (k lo v : bytes) : negb (str_lt k (if str_lt lo v then v else lo)) = negb (str_lt k lo) && negb (str_lt k v).
Proof.
  destruct (str_lt lo v) eqn:E.
  - destruct (str_lt k v) eqn:E2; [by rewrite andb_false_r|]. destruct (str_lt k lo) eqn:E3; [|done]. by rewrite (str_lt_trans _ _ _ E3 E) in E2.
  - destruct (str_lt k lo) eqn:E2; [done|]. destruct (str_lt k v) eqn:E3; [|done]. destruct (str_lt_total _ _ E2) as [<-|E4]; [congruence|].
    by rewrite (str_lt_trans _ _ _ E4 E3) in E.
Qed.

(** The descending walk's verdict on a key. *)
Definition down_verdict (prefix : bytes) (after : option (bytes * Z)) (k : bytes) : option bool :=
  if past_prefix_end prefix k then Some true
  else if str_lt k prefix then Some false
  else if match after with Some (v, _) => str_lt v k | None => false end then Some true else None.

Lemma down_sorted prefix after f (ks : list bytes) : StronglySorted (fun k k' => str_lt k k' = true) ks ->
  StronglySorted (fun k k' => down_verdict prefix after k = Some false -> down_verdict prefix after k' <> None) (rev (List.filter f ks)).
Proof.
  intros Hs. pose proof (directed_sorted (K := bytes) true f ks Hs) as Hd. cbn [directed] in Hd. eapply StronglySorted_weaken; [|exact Hd]. cbn. unfold down_verdict. intros x y Hxy.
  destruct (past_prefix_end prefix x); [done|]. destruct (str_lt x prefix) eqn:E; [|by case_match]. intros _.
  destruct (past_prefix_end prefix y); [done|]. by rewrite (str_lt_trans _ _ _ Hxy E).
Qed.

(** The ascending walk stops at the end of the prefix. *)
Definition up_verdict (prefix k : bytes) : option bool := if past_prefix_end prefix k then Some false else None.

Lemma up_sorted prefix f (ks : list bytes) : StronglySorted (fun k k' => str_lt k k' = true) ks ->
  StronglySorted (fun k k' => up_verdict prefix k = Some false -> up_verdict prefix k' <> None) (List.filter f ks).
Proof.
  intros Hs. pose proof (directed_sorted (K := bytes) false f ks Hs) as Hd. cbn [directed] in Hd. eapply StronglySorted_weaken; [|exact Hd]. cbn. unfold up_verdict. intros x y Hxy.
  destruct (past_prefix_end prefix x) eqn:E; [|done]. by rewrite (past_end_mono _ _ _ Hxy E).
Qed.

Lemma up_selects prefix after (k : bytes) :
  negb (str_lt k match after with Some (v, _) => if str_lt prefix v then v else prefix | None => prefix end) && match up_verdict prefix k with None => true | Some _ => false end =
  (negb (str_lt k prefix) && negb (past_prefix_end prefix k)) && not_before (K := bytes) false after k.
Proof.
  unfold up_verdict, not_before. destruct after as [[v i]|]; [rewrite not_below_max|]; cbn [precedes kltb bytes_keys]; destruct (past_prefix_end prefix k), (str_lt k prefix); cbn [negb andb]; try done.
  - by rewrite andb_false_r.
  - by rewrite andb_true_r.
Qed.

Lemma down_selects prefix after (k : bytes) :
  match down_verdict prefix after k with None => true | Some _ => false end =
  (negb (str_lt k prefix) && negb (past_prefix_end prefix k)) && not_before (K := bytes) true after k.
Proof.
  unfold down_verdict, not_before. destruct (past_prefix_end prefix k), (str_lt k prefix); cbn [negb andb]; try done. destruct after as [[v i]|]; [|done].
  cbn [precedes kltb bytes_keys]. by destruct (str_lt v k).
Qed.

Lemma down_walk {S} prefix after (o : sortedChunks bytes) (fn body : S -> bytes -> S * bool) (s : S) : sc_ok o ->
  (forall s k, body s k = match down_verdict prefix after k with Some on => (s, on) | None => fn s k end) ->
  match prefixSuccessor prefix with Some u => forEachDownFrom u body s o | None => forEachDownAll body s o end =
  fst (walk fn s (List.filter (fun k => match down_verdict prefix after k with None => true | Some _ => false end) (rev (keys o)))).
Proof.
  intros Hs Hb. pose proof (cs_sorted _ (ok_chunks _ Hs)) as Hk. fold (keys o) in Hk. destruct (prefixSuccessor prefix) as [u|] eqn:Eu.
  - rewrite (forEachDownFrom_exact _ _ _ _ (ok_chunks _ Hs)), (walk_verdict _ fn body _ Hb) by (apply down_sorted, Hk). do 2 f_equal.
    unfold at_most. rewrite !filter_rev, Lfilter_twice. f_equal. apply List.filter_ext. intros k. unfold down_verdict, past_prefix_end. rewrite Eu. cbn [kltb bytes_keys].
    destruct (str_lt k u) eqn:E; cbn [negb]; [by rewrite (str_lt_asym _ _ E)|apply andb_false_r].
  - rewrite forEachDownAll_exact. pose proof (down_sorted prefix after (fun _ => true) (keys o) Hk) as Hd. rewrite Lfilter_all in Hd by done.
    by rewrite (walk_verdict _ fn body _ Hb Hd).
Qed.

(** Every value key of the map is made of bytes. *)
Definition byte_values (m : gmap Z bytes) : Prop := forall id vk, m !! id = Some vk -> Forall is_byte vk.

(** The pages of PrefixOrderedPage, ascending or descending, are the stretches of
    one sequence: every entity whose value is a string with the prefix, by value
    and then by ID.  The upper bound the walks use, the successor of the prefix
    (none when it is all 0xFF), cuts exactly the strings that do not start with
    it. *)
Theorem prefix_pages_exact pi m prefix desc : pi_ok ParseFloat pi m -> positive m -> byte_values m -> Forall is_byte prefix -> serves pi = true ->
  pages_exact desc (fun after limit => prefixOrderedPage prefix desc after limit pi)
    (fun s id => m !! id = Some (str_vk s) /\ HasPrefix prefix s = true).
Proof.
  intros Hok Hpos Hby Hpre Hsv. destruct (po_strs _ _ _ Hok) as [Hs Hin].
  destruct (family_lists _ _ (po_entries _ _ _ Hok)) as (H1 & H2 & H3); [by intros id a Ha; apply Hpos in Ha|].
  set (R := fun k => negb (str_lt k prefix) && negb (past_prefix_end prefix k)).
  apply (pages_of_walk desc (fun k => strPostings k pi) (keys (strKeys pi)) R); [apply Hs|intros k; apply H1|intros k; apply H2| |].
  - intros k id. unfold strPostings. rewrite H3, Hin. assert (HR : Forall is_byte k -> R k = HasPrefix prefix k).
    { intros Hk. rewrite <- (prefix_range prefix k Hpre Hk). unfold R, past_prefix_end. by destruct (prefixSuccessor prefix); rewrite ?negb_involutive. }
    split.
    + intros [Hid Hp]. pose proof (Hby _ _ Hid) as Hb. apply Forall_cons in Hb as [_ Hb]. apply Forall_cons in Hb as [_ Hb]. rewrite HR by done.
      split_and!; [|done|done]. apply H3 in Hid. by destruct (pi_Entries pi !! str_vk k); [eexists|apply not_elem_of_nil in Hid].
    + intros (_ & Hr & Hid). pose proof (Hby _ _ Hid) as Hb. apply Forall_cons in Hb as [_ Hb]. apply Forall_cons in Hb as [_ Hb]. by rewrite <- HR.
  - intros after limit Hl. unfold prefixOrderedPage. rewrite Hsv, (ok_n _ Hs). replace (limit <=? 0) with false by lia. cbn [negb orb].
    destruct (length (keys (strKeys pi)) =? 0)%nat; [done|]. do 2 f_equal. fold (past_prefix_end prefix). rewrite directed_filter. destruct desc; cbn [negb directed].
    + rewrite (down_walk prefix after (strKeys pi) (emitKey (fun k => strPostings k pi) after limit)); [|done|].
      * rewrite !filter_rev, Lfilter_twice. do 3 f_equal. apply List.filter_ext. intros k. apply down_selects.
      * intros page k. unfold down_verdict, past_prefix_end. repeat case_match; done.
    + rewrite (forEachFrom_exact _ _ _ _ (ok_chunks _ Hs)). rewrite (walk_verdict (up_verdict prefix) (emitKey (fun k => strPostings k pi) after limit)).
      * do 2 f_equal. unfold at_least. rewrite !Lfilter_twice. apply List.filter_ext. intros k. apply up_selects.
      * intros page k. unfold up_verdict, past_prefix_end. by case_match.
      * apply up_sorted, Hs.
Qed.
End Pages.

Lemma demo_positive : positive demo_map.
Proof. change (map_Forall (fun id (_ : bytes) => 0 < id) demo_map). unfold demo_map. repeat (apply map_Forall_insert_2; [lia|]). apply map_Forall_empty. Qed.

Lemma demo_bytes : byte_values demo_map.
Proof.
  change (map_Forall (fun (_ : Z) (vk : bytes) => Forall is_byte vk) demo_map). unfold demo_map.
  repeat (apply map_Forall_insert_2; [cbn; repeat (apply Forall_cons; split; [unfold is_byte; lia|]); constructor|]). apply map_Forall_empty.
Qed.

Lemma range_pages_exact_witness :
  pages_exact true (fun after limit => rangeOrderedPage (rank 5) (rank 9) true after limit (demo_index false))
    (fun k id => demo_map !! id ≫= numericSortKey no_floats = Some k /\ next_down (rank 5) <= k <= next_up (rank 9)) /\
  rangeOrderedPage (rank 5) (rank 9) true (Some (rank 9, 2)) 1 (demo_index false) = Some ([(rank 5, 1)], Some (rank 5, 1), false).
Proof. split; [apply (range_pages_exact no_floats _ demo_map _ _ _ (demo_ok false) demo_positive); vm_compute|vm_compute]; reflexivity. Defined.

Lemma prefix_pages_exact_witness :
  pages_exact false (fun after limit => prefixOrderedPage (bytes_of_string "an") false after limit (demo_index false))
    (fun s id => demo_map !! id = Some (str_vk s) /\ HasPrefix (bytes_of_string "an") s = true) /\
  prefixOrderedPage (bytes_of_string "an") false None 7 (demo_index false) = Some ([(bytes_of_string "ant", 4)], Some (bytes_of_string "ant", 4), true).
Proof.
  split; [|vm_compute; reflexivity]. apply (prefix_pages_exact no_floats _ demo_map _ _ (demo_ok false) demo_positive demo_bytes).
  - cbn. repeat (apply Forall_cons; split; [unfold is_byte; lia|]). constructor.
  - vm_compute. reflexivity.
Defined.
