(* ===== verification/NodeIndexes.v ===== *)
(** * The property indexes of a store (property_index.go, rel_property_index.go, _batch.go)

    A store keeps one index per label (or relationship type) and property key, and
    tells all of them about every entity it writes or deletes.  The theorems show
    that the indexes describe the entities told, list elements included, and that
    an equality lookup through them finds exactly the entities whose property
    equals the value. *)

From stdpp Require Import gmap.
From S2P Require Import Prelude Bytes Props Rows Keys ValueKeys Floats NumEqual Fenwick SortedChunks ChunkCounts Postings PropertyIndex.

(** ** Maintenance *)

Section Maintenance.
Context (FormatFloat : Z -> Z -> bytes) (ParseFloat : bytes -> option Z).

(** A label or type token and a property key. *)
Notation indexKey := (Z * bytes)%type.
Implicit Types (idxs : gmap indexKey PropertyIndex) (idx : PropertyIndex) (props : PropertySlice).

(** The loop's body: what one index is told of an entity that carries its token. *)
Definition index_entity (fn : PropertyIndex -> bytes -> PropertyIndex) props (propertyKey : bytes) idx : PropertyIndex :=
  if negb (elements idx) then
    let vk := fst (indexableValueKey FormatFloat props propertyKey) in
    if bool_decide (vk = []) then idx else fn idx vk
  else propertyIndexKeys FormatFloat props propertyKey true (fun idx vk => (fn idx vk, true)) idx.

(** The callbacks change the index they are given only, so the order in which the
    map of indexes is ranged over does not matter. *)
Definition forEachNodeIndexKey idxs (n : Node PropertySlice) (fn : PropertyIndex -> bytes -> PropertyIndex) : gmap indexKey PropertyIndex :=
  map_imap (fun (key : indexKey) idx => Some (if negb (HasLabelTokenRaw key.1 n) then idx else index_entity fn (n_properties n) key.2 idx)) idxs.

Definition AddNodeToPropertyIndexes idxs (n : Node PropertySlice) (id : Z) : gmap indexKey PropertyIndex :=
  forEachNodeIndexKey idxs n (fun idx vk => if negb (onDisk idx) then AddKey ParseFloat id vk idx else idx).

Definition RemoveNodeFromPropertyIndexes idxs (n : Node PropertySlice) (id : Z) : gmap indexKey PropertyIndex :=
  forEachNodeIndexKey idxs n (fun idx vk => if negb (onDisk idx) then removeKey ParseFloat id vk idx else idx).

Definition forEachRelIndexKey idxs (r : Relationship PropertySlice) (fn : PropertyIndex -> bytes -> PropertyIndex) : gmap indexKey PropertyIndex :=
  map_imap (fun (key : indexKey) idx => Some (if negb (key.1 =? r_relType r) then idx else index_entity fn (r_properties r) key.2 idx)) idxs.

Definition AddRelToPropertyIndexes idxs (r : Relationship PropertySlice) (id : Z) : gmap indexKey PropertyIndex :=
  forEachRelIndexKey idxs r (fun idx vk => if negb (onDisk idx) then AddKey ParseFloat id vk idx else idx).

(** Unlike for nodes, an index on disk, which has no entries, is told too. *)
Definition RemoveRelFromPropertyIndexes idxs (r : Relationship PropertySlice) (id : Z) : gmap indexKey PropertyIndex :=
  forEachRelIndexKey idxs r (fun idx vk => removeKey ParseFloat id vk idx).
End Maintenance.

(** ** Equality lookups *)

(** The three sets PostingsOfKeys returns. *)
Inductive PostingsSet := NoPostings | OneList (p : IDPostings) | UnionOf (u : list IDPostings).

(** Two keys have one list only when they are the same key. *)
Fixpoint lists_of_keys (keys seen : list bytes) (idx : PropertyIndex) : list IDPostings :=
  match keys with
  | [] => []
  | k :: keys' =>
      match pi_Entries idx !! k with
      | Some p => if (0 <? IDPostings_Len (Some p))%nat && negb (bool_decide (k ∈ seen)) then p :: lists_of_keys keys' (k :: seen) idx else lists_of_keys keys' seen idx
      | None => lists_of_keys keys' seen idx
      end
  end.

Definition PostingsOfKeys (keys : list bytes) (idx : PropertyIndex) : PostingsSet :=
  match lists_of_keys keys [] idx with [] => NoPostings | [p] => OneList p | lists => UnionOf lists end.

Definition PostingsSet_AppendAfter (s : PostingsSet) (dst : list Z) (after limit : Z) : list Z :=
  match s with
  | NoPostings => IDPostings_AppendAfter None dst after limit
  | OneList p => IDPostings_AppendAfter (Some p) dst after limit
  | UnionOf u => PostingsUnion_AppendAfter u dst after limit
  end.

(** [None]: the index cannot say. *)
Definition EqualCount (FormatFloat : Z -> Z -> bytes) (v : value) (idx : PropertyIndex) : option Z :=
  if negb (serves idx) then None
  else match v with
       | VTemporal _ _ => None
       | VNil => Some 0
       | _ =>
           let keys := EqualIndexKeys FormatFloat v in
           if bool_decide (keys = []) && bool_decide (IndexablePropertyValueKey FormatFloat v = []) then None
           else Some (fold_left (fun count k => count + Z.of_nat (IDPostings_Len (pi_Entries idx !! k))) keys 0)
       end.

(** ** What an index is told *)

(** What the indexes see of a node or relationship. *)
Record entity := mkEntity { covers : Z -> bool; e_props : PropertySlice }.

Definition node_entity (n : Node PropertySlice) : entity := mkEntity (fun tok => HasLabelTokenRaw tok n) (n_properties n).

Definition rel_entity (r : Relationship PropertySlice) : entity := mkEntity (fun tok => tok =? r_relType r) (r_properties r).

Section Told.
Context (FormatFloat : Z -> Z -> bytes) (ParseFloat : bytes -> option Z).

Definition props_keys (props : PropertySlice) (propertyKey : bytes) (els : bool) : list bytes :=
  match borrow props propertyKey with Some v => value_keys FormatFloat v els | None => [] end.

(** The value keys of an entity in the index of a token and a property. *)
Definition told (e : entity) (key : Z * bytes) (els : bool) : list bytes :=
  if covers e key.1 then props_keys (e_props e) key.2 els else [].

Lemma index_entity_fold fn props propertyKey idx : index_entity FormatFloat fn props propertyKey idx = fold_left fn (props_keys props propertyKey (elements idx)) idx.
Proof.
  unfold index_entity, indexableValueKey, propertyIndexKeys, props_keys. destruct (borrow props propertyKey) as [v|]; [|by destruct (elements idx)]. cbn [fst].
  destruct (elements idx); cbn [negb].
  - rewrite element_keys_visited. generalize (value_keys FormatFloat v true) as l. intros l. revert idx. induction l as [|vk l IH]; intros idx; [done|]. apply IH.
  - unfold value_keys. by case_bool_decide.
Qed.

Lemma value_keys_ok v els : NoDup (value_keys FormatFloat v els) /\ [] ∉ value_keys FormatFloat v els.
Proof.
  unfold value_keys. case_bool_decide as E; [destruct els; [split; [apply first_keys_nodup|rewrite first_keys_elem; tauto]|split; [constructor|apply not_elem_of_nil]]|].
  split; [apply NoDup_singleton|]. rewrite list_elem_of_singleton. congruence.
Qed.

Lemma told_ok e key els : NoDup (told e key els) /\ [] ∉ told e key els.
Proof.
  unfold told, props_keys. destruct (covers e key.1); [destruct (borrow (e_props e) key.2); [apply value_keys_ok|]|]; split; constructor || apply not_elem_of_nil.
Qed.

Lemma told_scalar e key : told e key false = match told e key false with vk :: _ => [vk] | [] => [] end.
Proof. unfold told, props_keys, value_keys. destruct (covers e key.1); [|done]. destruct (borrow (e_props e) key.2); [|done]. by case_bool_decide. Qed.

(** ** Element indexes *)

Definition el_ok (idx : PropertyIndex) (R : Z -> bytes -> Prop) : Prop := elements idx = true /\ familyR (pi_Entries idx) R.

(** No write changes what kind of index it is. *)
Definition flags (idx : PropertyIndex) : bool * bool := (elements idx, onDisk idx).

Lemma strs_flags vk idx : flags (addOrderedStr vk idx) = flags idx /\ flags (removeOrderedStr vk idx) = flags idx.
Proof. unfold addOrderedStr, removeOrderedStr. by destruct (stringSortKey vk). Qed.

Lemma precision_flags vk idx : flags (noteNumericPrecision vk idx) = flags idx /\ flags (noteNumericPrecisionRemoved vk idx) = flags idx.
Proof. unfold noteNumericPrecision, noteNumericPrecisionRemoved. by destruct (isNumericImprecise vk), (numImpreciseCount idx >? 0). Qed.

Lemma addOrdered_flags id vk idx : flags (addOrdered ParseFloat id vk idx) = flags idx.
Proof.
  unfold addOrdered. destruct (numericSortKey ParseFloat vk) as [k|]; [|done]. rewrite (proj1 (precision_flags _ _)).
  unfold addOrderedCounted. destruct (rangeCounts idx); [by destruct (IDPostings_add _ _)|by destruct (numBuckets idx !! k)].
Qed.

Lemma removeOrdered_flags id vk idx : flags (removeOrdered ParseFloat id vk idx) = flags idx.
Proof.
  unfold removeOrdered. destruct (numericSortKey ParseFloat vk) as [k|]; [|done]. destruct (numBuckets idx !! k) as [bucket|]; [|done].
  destruct (IDPostings_remove id bucket) as [b found]. rewrite (proj2 (precision_flags _ _)). destruct (rangeCounts idx); [done|by destruct (_ =? 0)%nat].
Qed.

Lemma AddKey_flags id vk idx : elements (AddKey ParseFloat id vk idx) = elements idx /\ onDisk (AddKey ParseFloat id vk idx) = onDisk idx.
Proof.
  cut (flags (AddKey ParseFloat id vk idx) = flags idx); [by intros [= -> ->]|]. unfold AddKey. case_bool_decide; [done|].
  assert (Hset : forall s idx', flags idx' = flags idx -> flags (mark id (let pi := set_entries s idx' in if orderedViews pi then addOrdered ParseFloat id vk pi else pi)) = flags idx).
  { intros s idx' E. cbv zeta. destruct (orderedViews _); [|exact E]. rewrite <- E. exact (addOrdered_flags id vk (set_entries s idx')). }
  destruct (pi_Entries idx !! vk); cbn beta iota zeta; apply Hset; [done|]. destruct (orderedViews idx); [apply strs_flags|done].
Qed.

Lemma removeKey_flags id vk idx : elements (removeKey ParseFloat id vk idx) = elements idx /\ onDisk (removeKey ParseFloat id vk idx) = onDisk idx.
Proof.
  cut (flags (removeKey ParseFloat id vk idx) = flags idx); [by intros [= -> ->]|]. unfold removeKey. case_bool_decide; [done|].
  assert (Hset : forall idx', flags idx' = flags idx -> flags (mark id (if orderedViews idx' then removeOrdered ParseFloat id vk idx' else idx')) = flags idx).
  { intros idx' E. destruct (orderedViews idx'); [|exact E]. rewrite <- E. exact (removeOrdered_flags id vk idx'). }
  apply Hset. destruct (pi_Entries idx !! vk) as [s|]; [|done]. cbn beta iota zeta. destruct (_ =? 0)%nat; [|done]. unfold dropKey. cbv zeta.
  destruct (orderedViews _); [|done]. by rewrite (proj2 (strs_flags _ _)).
Qed.

Lemma el_add id (vk : bytes) idx R : el_ok idx R -> vk <> [] -> el_ok (AddKey ParseFloat id vk idx) (fun x b => (x = id /\ b = vk) \/ R x b).
Proof.
  intros [He HF] Hvk. split; [by rewrite (proj1 (AddKey_flags id vk idx))|]. unfold AddKey, orderedViews. rewrite bool_decide_eq_false_2 by done.
  pose proof (familyR_add _ _ (fun x b => (x = id /\ b = vk) \/ R x b) id vk HF ltac:(done)) as HA.
  destruct idx as [E M nk nb sk ni rc el od]. cbn [elements pi_Entries] in *. subst el. destruct (E !! vk); exact HA.
Qed.

Lemma el_remove id (vk : bytes) idx R : el_ok idx R -> vk <> [] -> R id vk -> el_ok (removeKey ParseFloat id vk idx) (fun x b => R x b /\ ~ (x = id /\ b = vk)).
Proof.
  intros [He HF] Hvk Hid. split; [by rewrite (proj1 (removeKey_flags id vk idx))|]. unfold removeKey, orderedViews. rewrite bool_decide_eq_false_2 by done.
  pose proof (HF vk) as Hs. destruct (pi_Entries idx !! vk) as [s|] eqn:Es; [|by apply Hs in Hid].
  destruct (familyR_remove _ _ (fun x b => R x b /\ ~ (x = id /\ b = vk)) id vk s HF Es Hid ltac:(done)) as [HR _]. cbv zeta in HR.
  clear Hs HF. destruct idx as [E M nk nb sk ni rc el od]. cbn [elements pi_Entries] in *. subst el. unfold dropKey, orderedViews. cbn [negb set_entries pi_Entries elements].
  destruct (_ =? 0)%nat; cbn [set_entries pi_Entries mark set_mutated]; [rewrite delete_insert_eq|]; exact HR.
Qed.

Lemma el_ext idx R R' : el_ok idx R -> (forall id vk, R' id vk <-> R id vk) -> el_ok idx R'.
Proof. intros [He HF] HR. split; [done|]. by apply (familyR_ext _ _ _ HF). Qed.

Lemma el_add_all id ks : forall idx R, el_ok idx R -> [] ∉ ks -> el_ok (fold_left (fun idx vk => AddKey ParseFloat id vk idx) ks idx) (fun x b => (x = id /\ b ∈ ks) \/ R x b).
Proof.
  induction ks as [|vk ks IH]; intros idx R Hok Hne; cbn [fold_left].
  - apply (el_ext _ _ _ Hok). intros x b. rewrite elem_of_nil. tauto.
  - apply not_elem_of_cons in Hne as [Hvk Hne]. eapply el_ext; [apply (IH _ _ (el_add id vk idx R Hok (not_eq_sym Hvk)) Hne)|]. intros x b. rewrite elem_of_cons. naive_solver.
Qed.

Lemma el_remove_all id ks : forall idx R, el_ok idx R -> [] ∉ ks -> NoDup ks -> (forall vk, vk ∈ ks -> R id vk) ->
  el_ok (fold_left (fun idx vk => removeKey ParseFloat id vk idx) ks idx) (fun x b => R x b /\ ~ (x = id /\ b ∈ ks)).
Proof.
  induction ks as [|vk ks IH]; intros idx R Hok Hne Hnd Hin; cbn [fold_left].
  - apply (el_ext _ _ _ Hok). intros x b. rewrite elem_of_nil. tauto.
  - apply not_elem_of_cons in Hne as [Hvk Hne]. apply NoDup_cons in Hnd as [Hk Hnd]. eapply el_ext.
    + apply (IH _ _ (el_remove id vk idx R Hok (not_eq_sym Hvk) (Hin vk ltac:(left))) Hne Hnd). intros vk' Hvk'. split; [apply Hin; by right|]. intros [_ ->]. done.
    + intros x b. rewrite elem_of_cons. destruct (decide (b = vk)); naive_solver.
Qed.

(** ** All indexes *)

(** The entities with a scalar key in a plain index. *)
Definition scalar_map (key : Z * bytes) (E : gmap Z entity) : gmap Z bytes := omap (fun e => head (told e key false)) E.

(** An index in memory describes the entities; one on disk has no part in it. *)
Definition index_ok (key : Z * bytes) (E : gmap Z entity) (idx : PropertyIndex) : Prop :=
  onDisk idx = true \/
  if elements idx then el_ok idx (fun id vk => exists e, E !! id = Some e /\ vk ∈ told e key true) else pi_ok ParseFloat idx (scalar_map key E).

Definition indexes_ok (idxs : gmap (Z * bytes) PropertyIndex) (E : gmap Z entity) : Prop := forall key idx, idxs !! key = Some idx -> index_ok key E idx.

Lemma fold_flags (fn : PropertyIndex -> bytes -> PropertyIndex) ks : (forall idx vk, elements (fn idx vk) = elements idx /\ onDisk (fn idx vk) = onDisk idx) ->
  forall idx, elements (fold_left fn ks idx) = elements idx /\ onDisk (fold_left fn ks idx) = onDisk idx.
Proof.
  intros Hf. induction ks as [|vk ks IH]; intros idx; [done|]. cbn [fold_left]. destruct (IH (fn idx vk)) as [-> ->]. apply Hf.
Qed.

Definition add_fn (id : Z) (idx : PropertyIndex) (vk : bytes) : PropertyIndex := if negb (onDisk idx) then AddKey ParseFloat id vk idx else idx.

Definition remove_fn (id : Z) (idx : PropertyIndex) (vk : bytes) : PropertyIndex := if negb (onDisk idx) then removeKey ParseFloat id vk idx else idx.

Lemma add_fn_flags id idx vk : elements (add_fn id idx vk) = elements idx /\ onDisk (add_fn id idx vk) = onDisk idx.
Proof. unfold add_fn. destruct (negb (onDisk idx)); [apply AddKey_flags|done]. Qed.

Lemma remove_fn_flags id idx vk : elements (remove_fn id idx vk) = elements idx /\ onDisk (remove_fn id idx vk) = onDisk idx.
Proof. unfold remove_fn. destruct (negb (onDisk idx)); [apply removeKey_flags|done]. Qed.

Lemma add_fn_ram id ks : forall idx, onDisk idx = false -> fold_left (add_fn id) ks idx = fold_left (fun idx vk => AddKey ParseFloat id vk idx) ks idx.
Proof.
  induction ks as [|vk ks IH]; intros idx Hd; [done|]. cbn [fold_left]. unfold add_fn at 2. rewrite Hd. cbn [negb]. apply IH. by rewrite (proj2 (AddKey_flags id vk idx)).
Qed.

Lemma remove_fn_ram id ks : forall idx, onDisk idx = false -> fold_left (remove_fn id) ks idx = fold_left (fun idx vk => removeKey ParseFloat id vk idx) ks idx.
Proof.
  induction ks as [|vk ks IH]; intros idx Hd; [done|]. cbn [fold_left]. unfold remove_fn at 2. rewrite Hd. cbn [negb]. apply IH. by rewrite (proj2 (removeKey_flags id vk idx)).
Qed.

Lemma index_add key E idx id e : index_ok key E idx -> E !! id = None -> index_ok key (<[id := e]> E) (fold_left (add_fn id) (told e key (elements idx)) idx).
Proof.
  intros Hok Hid. destruct (fold_flags _ (told e key (elements idx)) (add_fn_flags id) idx) as [He Hd]. unfold index_ok. rewrite He, Hd. destruct (onDisk idx) eqn:Ed; [by left|right].
  destruct Hok as [Hok|Hok]; [congruence|]. rewrite add_fn_ram by done. destruct (told_ok e key (elements idx)) as [_ Hne]. destruct (elements idx) eqn:Eel.
  - eapply el_ext; [apply (el_add_all id (told e key true) idx _ Hok Hne)|]. intros x vk. cbn beta. destruct (decide (x = id)) as [->|Hx].
    + rewrite lookup_insert_eq. split; [intros (e' & [= <-] & Hvk); by left|]. intros [[_ Hvk]|(e' & He' & _)]; [by exists e|congruence].
    + rewrite lookup_insert_ne by done. naive_solver.
  - unfold scalar_map in *. rewrite told_scalar. rewrite told_scalar in Hne. destruct (told e key false) as [|vk ks] eqn:Et; cbn [fold_left].
    + rewrite omap_insert_None by by rewrite Et. rewrite delete_id; [done|]. by rewrite lookup_omap, Hid.
    + rewrite (omap_insert_Some _ _ _ _ vk) by by rewrite Et. apply AddKey_ok; [done| |left; by rewrite lookup_omap, Hid]. intros ->. apply Hne. left.
Qed.

Lemma index_remove key E idx id e : index_ok key E idx -> E !! id = Some e -> index_ok key (delete id E) (fold_left (remove_fn id) (told e key (elements idx)) idx).
Proof.
  intros Hok Hid. destruct (fold_flags _ (told e key (elements idx)) (remove_fn_flags id) idx) as [He Hd]. unfold index_ok. rewrite He, Hd. destruct (onDisk idx) eqn:Ed; [by left|right].
  destruct Hok as [Hok|Hok]; [congruence|]. rewrite remove_fn_ram by done. destruct (told_ok e key (elements idx)) as [Hnd Hne]. destruct (elements idx) eqn:Eel.
  - eapply el_ext; [apply (el_remove_all id (told e key true) idx _ Hok Hne Hnd); eauto|]. intros x vk. cbn beta. destruct (decide (x = id)) as [->|Hx].
    + rewrite lookup_delete_eq. split; [by intros (? & ? & _)|]. intros [(e' & He' & Hvk) Hn]. rewrite Hid in He'. injection He' as <-. by destruct Hn.
    + rewrite lookup_delete_ne by done. naive_solver.
  - unfold scalar_map in *. rewrite told_scalar. destruct (told e key false) as [|vk ks] eqn:Et; cbn [fold_left]; rewrite omap_delete.
    + rewrite delete_id; [done|]. by rewrite lookup_omap, Hid; cbn; rewrite Et.
    + apply removeKey_ok; [done|]. by rewrite lookup_omap, Hid; cbn; rewrite Et.
Qed.

(** Telling every index of an entity. *)
Definition tell (fn : PropertyIndex -> bytes -> PropertyIndex) (idxs : gmap (Z * bytes) PropertyIndex) (e : entity) : gmap (Z * bytes) PropertyIndex :=
  map_imap (fun (key : Z * bytes) idx => Some (if negb (covers e key.1) then idx else index_entity FormatFloat fn (e_props e) key.2 idx)) idxs.

Lemma tell_lookup fn idxs e key : tell fn idxs e !! key = (fun idx => fold_left fn (told e key (elements idx)) idx) <$> idxs !! key.
Proof.
  unfold tell. rewrite map_lookup_imap. destruct (idxs !! key) as [idx|]; [|done]. cbn. f_equal. unfold told. destruct (covers e key.1); cbn [negb]; [apply index_entity_fold|done].
Qed.

Lemma tell_add idxs E id e : indexes_ok idxs E -> E !! id = None -> indexes_ok (tell (add_fn id) idxs e) (<[id := e]> E).
Proof.
  intros Hok Hid key idx' Hl. rewrite tell_lookup in Hl. destruct (idxs !! key) as [idx|] eqn:Ei; [|done]. injection Hl as <-. apply index_add; [by apply Hok|done].
Qed.

Lemma tell_remove idxs E id e : indexes_ok idxs E -> E !! id = Some e -> indexes_ok (tell (remove_fn id) idxs e) (delete id E).
Proof.
  intros Hok Hid key idx' Hl. rewrite tell_lookup in Hl. destruct (idxs !! key) as [idx|] eqn:Ei; [|done]. injection Hl as <-. apply index_remove; [by apply Hok|done].
Qed.

(** ** Lookups *)

Lemma lists_of_keys_elem keys : forall seen idx s, (forall k s, pi_Entries idx !! k = Some s -> (0 < IDPostings_Len (Some s))%nat) ->
  (s ∈ lists_of_keys keys seen idx -> exists k, k ∈ keys /\ pi_Entries idx !! k = Some s) /\
  (forall k, k ∈ keys -> k ∉ seen -> pi_Entries idx !! k = Some s -> s ∈ lists_of_keys keys seen idx).
Proof.
  induction keys as [|k keys IH]; intros seen idx s Hlen; cbn [lists_of_keys].
  - split; [intros H; by apply not_elem_of_nil in H|]. intros k H. by apply not_elem_of_nil in H.
  - destruct (pi_Entries idx !! k) as [p|] eqn:Ep.
    + assert (0 <? IDPostings_Len (Some p) = true)%nat as -> by (by apply Nat.ltb_lt, (Hlen k)). cbn [andb]. destruct (decide (k ∈ seen)) as [Hk|Hk].
      * rewrite bool_decide_eq_true_2 by done. cbn [negb]. destruct (IH seen idx s Hlen) as [H1 H2]. split; [intros H; destruct (H1 H) as (x & Hx & Ex); exists x; split; [by right|done]|].
        intros x [->|Hx]%elem_of_cons Hn; [done|]. by apply (H2 x).
      * rewrite bool_decide_eq_false_2 by done. cbn [negb]. destruct (IH (k :: seen) idx s Hlen) as [H1 H2]. split.
        -- intros [->|H]%elem_of_cons; [exists k; split; [left|done]|]. destruct (H1 H) as (x & Hx & Ex). exists x. split; [by right|done].
        -- intros x Hx Hn Ex. destruct (decide (x = k)) as [->|Hne]; [rewrite Ep in Ex; injection Ex as ->; left|]. right. apply (H2 x); [by apply elem_of_cons in Hx as [|]|by apply not_elem_of_cons|done].
    + destruct (IH seen idx s Hlen) as [H1 H2]. split; [intros H; destruct (H1 H) as (x & Hx & Ex); exists x; split; [by right|done]|].
      intros x [->|Hx]%elem_of_cons Hn Ex; [congruence|]. by apply (H2 x).
Qed.

(** A page of the set of some keys. *)
Lemma keys_page m idx ks dst after limit : pi_ok ParseFloat idx m ->
  exists L, ascending L /\ (forall id, id ∈ L <-> after < id /\ exists k, k ∈ ks /\ m !! id = Some k) /\
    PostingsSet_AppendAfter (PostingsOfKeys ks idx) dst after limit = dst ++ limited limit L.
Proof.
  intros Hok. pose proof (po_entries _ _ _ Hok) as HF.
  assert (Hlen : forall k s, pi_Entries idx !! k = Some s -> (0 < IDPostings_Len (Some s))%nat).
  { intros k s E. specialize (HF k). rewrite E in HF. destruct HF as (Hs & Hne & _). cbn [IDPostings_Len]. rewrite (ok_n _ Hs). destruct (keys s); [done|cbn [length]; lia]. }
  assert (Hset : exists u, union_ok u /\ PostingsSet_AppendAfter (PostingsOfKeys ks idx) dst after limit = PostingsUnion_AppendAfter u dst after limit /\
                 forall id, (exists p, p ∈ u /\ id ∈ keys p) <-> exists k, k ∈ ks /\ m !! id = Some k).
  { set (u := lists_of_keys ks [] idx). assert (Hu : forall s, s ∈ u <-> exists k, k ∈ ks /\ pi_Entries idx !! k = Some s).
    { intros s. destruct (lists_of_keys_elem ks [] idx s Hlen) as [H1 H2]. split; [exact H1|]. intros (k & Hk & E). apply (H2 k Hk); [apply not_elem_of_nil|done]. }
    assert (Huok : union_ok u). { apply Forall_forall. intros s Hs. apply Hu in Hs as (k & _ & E). specialize (HF k). rewrite E in HF. apply HF. }
    exists u. split; [done|]. split.
    - unfold PostingsOfKeys. fold u. destruct u as [|p [|q u']]; [rewrite union_page_exact by done; cbn; unfold limited; destruct (limit >? 0); by rewrite ?take_nil, app_nil_r| |done]. cbn [PostingsSet_AppendAfter]. rewrite AppendAfter_exact by by inversion_clear Huok.
      rewrite union_page_exact by done. do 2 f_equal. unfold union_ids. cbn [map ids_of_list]. apply ascending_ext; [apply filter_ascending, keys_ascending; by inversion_clear Huok|apply merged_ascending|].
      intros x. rewrite elem_of_merged. split; [intros Hx; eexists; split; [left|done]|]. by intros (l & ->%list_elem_of_singleton & Hx).
    - intros id. split.
      + intros (p & Hp & Hid). apply Hu in Hp as (k & Hk & E). exists k. split; [done|]. specialize (HF k). rewrite E in HF. by apply HF.
      + intros (k & Hk & E). specialize (HF k). destruct (pi_Entries idx !! k) as [s|] eqn:Es; [|by apply HF in E]. exists s. split; [apply Hu; eauto|by apply HF]. }
  destruct Hset as (u & Huok & -> & Hu). exists (union_ids u after). split; [apply merged_ascending|]. split; [|by apply union_page_exact].
  intros id. by rewrite elem_of_union_ids, Hu.
Qed.

(** The sizes of the lists of distinct keys add up to a list of distinct IDs. *)
Lemma keys_count m idx ks : pi_ok ParseFloat idx m -> NoDup ks ->
  exists L, NoDup L /\ (forall id, id ∈ L <-> exists k, k ∈ ks /\ m !! id = Some k) /\
    forall c, fold_left (fun count k => count + Z.of_nat (IDPostings_Len (pi_Entries idx !! k))) ks c = c + Z.of_nat (length L).
Proof.
  intros Hok. pose proof (po_entries _ _ _ Hok) as HF. induction ks as [|k ks IH]; intros Hnd.
  { exists []. split; [constructor|]. split; [|intros c; cbn; lia]. intros id. split; [intros H; by apply not_elem_of_nil in H|]. intros (k & Hk & _). by apply not_elem_of_nil in Hk. }
  apply NoDup_cons in Hnd as [Hk Hnd]. destruct (IH Hnd) as (L & HL & HE & HS). destruct (familyR_list _ _ k HF) as [Hs Hin].
  set (s := default emptyChunks (pi_Entries idx !! k)) in *. exists (keys s ++ L). split; [|split].
  - apply NoDup_app. split; [apply ascending_nodup, keys_ascending; done|]. split; [|done]. intros id Hid Hid'. apply Hin in Hid. apply HE in Hid' as (k' & Hk' & E). congruence.
  - intros id. rewrite elem_of_app, HE, Hin. split; [intros [E|(k' & Hk' & E)]; eauto using list_elem_of_here, list_elem_of_further|].
    intros (k' & [->|Hk']%elem_of_cons & E); eauto.
  - intros c. cbn [fold_left]. rewrite HS, length_app. rewrite <- (ok_n _ Hs). unfold s, IDPostings_Len. destruct (pi_Entries idx !! k); cbn; lia.
Qed.

(** ** The maintenance of the indexes *)

Lemma index_remove_all key E idx id e : index_ok key E idx -> E !! id = Some e ->
  index_ok key (delete id E) (fold_left (fun idx vk => removeKey ParseFloat id vk idx) (told e key (elements idx)) idx).
Proof.
  intros Hok Hid. destruct (onDisk idx) eqn:Ed; [|rewrite <- remove_fn_ram by done; by apply index_remove]. left.
  by rewrite (proj2 (fold_flags _ (told e key (elements idx)) (fun idx vk => removeKey_flags id vk idx) idx)).
Qed.

Lemma tell_remove_all idxs E id e : indexes_ok idxs E -> E !! id = Some e -> indexes_ok (tell (fun idx vk => removeKey ParseFloat id vk idx) idxs e) (delete id E).
Proof.
  intros Hok Hid key idx' Hl. rewrite tell_lookup in Hl. destruct (idxs !! key) as [idx|] eqn:Ei; [|done]. injection Hl as <-. apply index_remove_all; [by apply Hok|done].
Qed.

Lemma new_index_ok key rc el : index_ok key ∅ (NewPropertyIndexWith rc el).
Proof.
  right. cbn [elements NewPropertyIndexWith]. destruct el.
  - split; [done|]. intros vk. change (pi_Entries (NewPropertyIndexWith rc true)) with (∅ : gmap bytes IDPostings). rewrite lookup_empty. by intros id (e & He & _).
  - unfold scalar_map. rewrite omap_empty. apply New_ok.
Qed.
End Told.

(** The indexes of a store describe its entities through every write and delete:
    when the indexes hold, for every entity carrying their token, its value key (or
    its list's element keys), telling them of a new node or relationship, of a
    removed one, or of an update (the old state removed, the new one added) leaves
    them describing the entities after it.  An index on disk is left alone. *)
Theorem node_indexes_refine FormatFloat ParseFloat idxs E id (H : indexes_ok FormatFloat ParseFloat idxs E) :
  (forall n, E !! id = None -> indexes_ok FormatFloat ParseFloat (AddNodeToPropertyIndexes FormatFloat ParseFloat idxs n id) (<[id := node_entity n]> E)) /\
  (forall n, E !! id = Some (node_entity n) -> indexes_ok FormatFloat ParseFloat (RemoveNodeFromPropertyIndexes FormatFloat ParseFloat idxs n id) (delete id E)) /\
  (forall n n', E !! id = Some (node_entity n) ->
     indexes_ok FormatFloat ParseFloat (AddNodeToPropertyIndexes FormatFloat ParseFloat (RemoveNodeFromPropertyIndexes FormatFloat ParseFloat idxs n id) n' id) (<[id := node_entity n']> E)) /\
  (forall r, E !! id = None -> indexes_ok FormatFloat ParseFloat (AddRelToPropertyIndexes FormatFloat ParseFloat idxs r id) (<[id := rel_entity r]> E)) /\
  (forall r, E !! id = Some (rel_entity r) -> indexes_ok FormatFloat ParseFloat (RemoveRelFromPropertyIndexes FormatFloat ParseFloat idxs r id) (delete id E)) /\
  (forall r r', E !! id = Some (rel_entity r) ->
     indexes_ok FormatFloat ParseFloat (AddRelToPropertyIndexes FormatFloat ParseFloat (RemoveRelFromPropertyIndexes FormatFloat ParseFloat idxs r id) r' id) (<[id := rel_entity r']> E)).
Proof.
  assert (Hupd : forall idxs' e', indexes_ok FormatFloat ParseFloat idxs' (delete id E) -> indexes_ok FormatFloat ParseFloat (tell FormatFloat (add_fn ParseFloat id) idxs' e') (<[id := e']> E)).
  { intros idxs' e' H'. rewrite <- insert_delete_eq. apply tell_add; [done|apply lookup_delete_eq]. }
  repeat split; intros.
  - by apply (tell_add FormatFloat ParseFloat idxs E id (node_entity n)).
  - by apply (tell_remove FormatFloat ParseFloat idxs E id (node_entity n)).
  - apply (Hupd _ (node_entity n')). by apply (tell_remove FormatFloat ParseFloat idxs E id (node_entity n)).
  - by apply (tell_add FormatFloat ParseFloat idxs E id (rel_entity r)).
  - by apply (tell_remove_all FormatFloat ParseFloat idxs E id (rel_entity r)).
  - apply (Hupd _ (rel_entity r')). by apply (tell_remove_all FormatFloat ParseFloat idxs E id (rel_entity r)).
Qed.

(** ** Lookups by value *)

Section Lookups.
Context (FormatFloat : Z -> Z -> bytes) (ParseFloat : Z -> bytes -> option Z).
Hypothesis format_parses : forall w n, float_bits w n -> float_is_nan w n = false -> ParseFloat w (FormatFloat w n) = Some n.
Hypothesis zero_parses : forall w, w = 32 \/ w = 64 -> ParseFloat w (bytes_of_string "0") = Some 0.
Hypothesis nan_parses : forall w, w = 32 \/ w = 64 -> exists n, ParseFloat w (bytes_of_string "nan") = Some n /\ float_is_nan w n = true.

(** The entity [id] carries the index's token and its property equals [v]. *)
Definition holds (E : gmap Z entity) (key : Z * bytes) (v : value) (id : Z) : Prop :=
  exists e w, E !! id = Some e /\ covers e key.1 = true /\ borrow (e_props e) key.2 = Some w /\ prop_equal v w.

(** Stored numbers are of their widths. *)
Definition entities_fit (E : gmap Z entity) (key : Z * bytes) : Prop :=
  forall id e w, E !! id = Some e -> borrow (e_props e) key.2 = Some w -> scalar_fits w.

Lemma prop_equal_key v w : prop_equal v w -> IndexablePropertyValueKey FormatFloat w <> [].
Proof.
  rewrite key_tagged. unfold prop_equal. destruct w as [|b|s|ty n|k s| | | | | | | | |]; cbn [tagged]; try done; try (by destruct b); try (by destruct ty); by destruct v as [|[]| |[]| | | | | | | | | |].
Qed.

Lemma holds_key E key v id : scalar_fits v -> entities_fit E key ->
  (exists k, k ∈ EqualIndexKeys FormatFloat v /\ scalar_map FormatFloat key E !! id = Some k) <-> holds E key v id.
Proof.
  intros Hv HE. unfold scalar_map, holds. rewrite lookup_omap. destruct (E !! id) as [e|] eqn:Ee; cbn [mbind option_bind]; [|split; [by intros (k & _ & ?)|by intros (e & w & ? & _)]].
  unfold told, props_keys, value_keys. destruct (covers e key.1) eqn:Ec; [|split; [by intros (k & _ & ?)|]; intros (e' & w & [= <-] & Hc & _); congruence].
  destruct (borrow (e_props e) key.2) as [w|] eqn:Ew; [|split; [by intros (k & _ & ?)|]; intros (e' & w & [= <-] & _ & Hw & _); congruence].
  assert (Hw : scalar_fits w) by by apply (HE id e). case_bool_decide as Ek; cbn [head].
  - split; [by intros (k & _ & ?)|]. intros (e' & w' & [= <-] & _ & Hw' & Hp). rewrite Ew in Hw'. injection Hw' as <-. by apply prop_equal_key in Hp.
  - split.
    + intros (k & Hk & [= <-]). exists e, w. split; [done|]. split; [done|]. split; [done|].
      by apply (equal_keys_exact FormatFloat ParseFloat format_parses zero_parses nan_parses v w Hv Hw Ek).
    + intros (e' & w' & [= <-] & _ & Hw' & Hp). rewrite Ew in Hw'. injection Hw' as <-. eexists. split; [|done].
      by apply (equal_keys_exact FormatFloat ParseFloat format_parses zero_parses nan_parses v w Hv Hw Ek).
Qed.
End Lookups.

(** C25: An equality lookup through an index in memory finds exactly the entities whose
    property equals the value: the page it appends is the ascending list of those
    IDs after the cursor, up to the limit, and the count it answers without reading
    an ID is their number, with no answer for a temporal value, a list or a map and
    0 for nil. *)
Theorem equality_lookup_exact FormatFloat ParseFloat
  (format_parses : forall w n, float_bits w n -> float_is_nan w n = false -> ParseFloat w (FormatFloat w n) = Some n)
  (zero_parses : forall w, w = 32 \/ w = 64 -> ParseFloat w (bytes_of_string "0") = Some 0)
  (nan_parses : forall w, w = 32 \/ w = 64 -> exists n, ParseFloat w (bytes_of_string "nan") = Some n /\ float_is_nan w n = true)
  idxs E key idx v (Hok : indexes_ok FormatFloat (ParseFloat 64) idxs E) (Hidx : idxs !! key = Some idx) (Hs : serves idx = true)
  (Hv : scalar_fits v) (HE : entities_fit E key) :
  (forall dst after limit, exists L, ascending L /\ (forall id, id ∈ L <-> after < id /\ holds E key v id) /\
     PostingsSet_AppendAfter (PostingsOfKeys (EqualIndexKeys FormatFloat v) idx) dst after limit = dst ++ limited limit L) /\
  (exists L, NoDup L /\ (forall id, id ∈ L <-> holds E key v id) /\
     EqualCount FormatFloat v idx =
       match v with
       | VBool _ | VString _ | VNum _ _ => Some (Z.of_nat (length L))
       | VNil => Some 0
       | _ => None
       end).
Proof.
  assert (Hpi : pi_ok (ParseFloat 64) idx (scalar_map FormatFloat key E)).
  { unfold serves in Hs. destruct (Hok key idx Hidx) as [Hd|Hp]; destruct (elements idx); rewrite ?andb_false_r in Hs; try done. rewrite Hd, andb_false_r in Hs. done. }
  pose proof (fun id => holds_key FormatFloat ParseFloat format_parses zero_parses nan_parses E key v id Hv HE) as Hk. split.
  - intros dst after limit. destruct (keys_page (ParseFloat 64) _ idx (EqualIndexKeys FormatFloat v) dst after limit Hpi) as (L & Ha & HL & Hp).
    exists L. split; [done|]. split; [|done]. intros id. by rewrite HL, Hk.
  - destruct (keys_count (ParseFloat 64) _ idx (EqualIndexKeys FormatFloat v) Hpi (equal_keys_nodup FormatFloat v Hv)) as (L & Hn & HL & Hc).
    exists L. split; [done|]. split; [intros id; by rewrite HL, Hk|]. unfold EqualCount. rewrite Hs. cbn [negb].
    destruct v as [|b|s|ty n|k s| | | | | | | | |]; try done; rewrite Hc, Z.add_0_l; (rewrite (bool_decide_eq_false_2 (IndexablePropertyValueKey FormatFloat _ = [])); [by rewrite andb_false_r|]); rewrite key_tagged; by destruct b || done || destruct ty.
Qed.

(** Ages under the label 7: an int 40, a float32 40.0 and a string "40". *)
Definition demo_node (n : Z) (id : Z) (v : value) : Node PropertySlice :=
  mkNode PropertySlice (Alloc n) id [(bytes_of_string "age", v)] [] None None None 1 7 false false 0.

Definition demo_indexes : gmap (Z * bytes) PropertyIndex := {[ (7, bytes_of_string "age") := NewPropertyIndex ]}.

Definition demo_forty : Z := float_make 32 false (132 * 2 ^ 23 + 2 ^ 21).

Lemma demo_indexes_ok : indexes_ok demo_format (demo_parse 64) demo_indexes ∅.
Proof. unfold demo_indexes. intros key idx [<- <-]%lookup_singleton_Some. apply (new_index_ok demo_format (demo_parse 64) _ false false). Qed.

Lemma node_indexes_refine_witness :
  indexes_ok demo_format (demo_parse 64) (AddNodeToPropertyIndexes demo_format (demo_parse 64) demo_indexes (demo_node 0 1 (VNum TInt64 40)) 1)
    (<[1 := node_entity (demo_node 0 1 (VNum TInt64 40))]> ∅).
Proof.
  destruct (node_indexes_refine demo_format (demo_parse 64) demo_indexes ∅ 1 demo_indexes_ok) as [Hadd _].
  exact (Hadd (demo_node 0 1 (VNum TInt64 40)) (lookup_empty 1)).
Defined.

Definition demo_values (E : gmap Z entity) (idxs : gmap (Z * bytes) PropertyIndex) (id : Z) (v : value) :=
  (<[id := node_entity (demo_node id id v)]> E, AddNodeToPropertyIndexes demo_format (demo_parse 64) idxs (demo_node id id v) id).

Definition demo_store : gmap Z entity * gmap (Z * bytes) PropertyIndex :=
  let '(E, idxs) := demo_values ∅ demo_indexes 1 (VNum TInt64 40) in
  let '(E, idxs) := demo_values E idxs 2 (VNum TFloat32 demo_forty) in
  demo_values E idxs 3 (VString (bytes_of_string "40")).

Lemma demo_store_ok : indexes_ok demo_format (demo_parse 64) demo_store.2 demo_store.1.
Proof.
  unfold demo_store, demo_values. cbn [fst snd].
  apply (tell_add demo_format (demo_parse 64) _ _ 3 (node_entity (demo_node 3 3 (VString (bytes_of_string "40"))))); [|done].
  apply (tell_add demo_format (demo_parse 64) _ _ 2 (node_entity (demo_node 2 2 (VNum TFloat32 demo_forty)))); [|done].
  apply (tell_add demo_format (demo_parse 64) _ _ 1 (node_entity (demo_node 1 1 (VNum TInt64 40)))); [exact demo_indexes_ok|done].
Qed.

Lemma demo_store_fits : entities_fit demo_store.1 (7, bytes_of_string "age").
Proof.
  intros id e w He Hw. unfold demo_store, demo_values in He. cbn [fst snd] in He.
  apply lookup_insert_Some in He as [[_ <-]|[_ He]]; [injection Hw as <-; done|].
  apply lookup_insert_Some in He as [[_ <-]|[_ He]]; [injection Hw as <-; unfold scalar_fits, num_fits; vm_compute; split; congruence|].
  apply lookup_insert_Some in He as [[_ <-]|[_ He]]; [injection Hw as <-; unfold scalar_fits, num_fits; vm_compute; split; congruence|done].
Qed.

Definition demo_age : PropertyIndex := default NewPropertyIndex (demo_store.2 !! (7, bytes_of_string "age")).

Lemma equality_lookup_exact_witness :
  let keys := EqualIndexKeys demo_format (VNum TInt8 40) in
  PostingsSet_AppendAfter (PostingsOfKeys keys demo_age) [] 0 10 = [1; 2] /\ EqualCount demo_format (VNum TInt8 40) demo_age = Some 2 /\
  forall dst after limit, exists L, ascending L /\ (forall id, id ∈ L <-> after < id /\ holds demo_store.1 (7, bytes_of_string "age") (VNum TInt8 40) id) /\
    PostingsSet_AppendAfter (PostingsOfKeys keys demo_age) dst after limit = dst ++ limited limit L.
Proof.
  split; [vm_compute; reflexivity|]. split; [vm_compute; reflexivity|].
  apply (equality_lookup_exact demo_format demo_parse demo_format_parses demo_zero_parses demo_nan_parses demo_store.2 demo_store.1 (7, bytes_of_string "age") demo_age (VNum TInt8 40)).
  - exact demo_store_ok.
  - vm_compute. reflexivity.
  - vm_compute. reflexivity.
  - unfold scalar_fits, num_fits. vm_compute. split; congruence.
  - exact demo_store_fits.
Defined.
