(* ===== verification/IndexPurge.v ===== *)
(** * Purging a lost entity, and statistics of an index (property_index.go, _range.go, _value_stats.go)

    When an entity's row is lost its values are not known, so it is taken out of
    every list of every index; the statistics of the value keys are read in one
    pass.  The theorems show that the purge leaves the indexes describing the
    remaining entities and that the statistics are those of the entities. *)

From stdpp Require Import gmap.
From S2P Require Import Prelude Bytes Props Rows Keys ValueKeys SortedChunks ChunkCounts Postings PropertyIndex NodeIndexes.

(** ** The purge *)

(** The maps are ranged over while their own keys are deleted; the lists are
    shrunk in place. *)
Definition purge_value (id : Z) (pi : PropertyIndex) (p : bytes * IDPostings) : PropertyIndex :=
  let '(idSet, removed) := IDPostings_remove id p.2 in
  let pi := set_entries (<[p.1 := idSet]> (pi_Entries pi)) pi in
  if removed && (IDPostings_Len (Some idSet) =? 0)%nat then dropKey p.1 pi else pi.

Definition purge_bucket (id : Z) (pi : PropertyIndex) (p : Z * IDPostings) : PropertyIndex :=
  let '(bucket, removed) := IDPostings_remove id p.2 in
  if negb removed then pi
  else
    let pi := set_view (if rangeCounts pi then addCount p.1 (-1) (numKeys pi) else numKeys pi) (<[p.1 := bucket]> (numBuckets pi)) pi in
    if (IDPostings_Len (Some bucket) =? 0)%nat then
      set_view (if rangeCounts pi then numKeys pi else fst (sc_remove p.1 (numKeys pi))) (delete p.1 (numBuckets pi)) pi
    else pi.

Definition purgeOrdered (id : Z) (pi : PropertyIndex) : PropertyIndex := fold_left (purge_bucket id) (map_to_list (numBuckets pi)) pi.

Definition purge_index (id : Z) (pi : PropertyIndex) : PropertyIndex :=
  mark id (purgeOrdered id (fold_left (purge_value id) (map_to_list (pi_Entries pi)) pi)).

Definition PurgeNodeFromAllPropertyIndexes (indexes : gmap (Z * bytes) PropertyIndex) (id : Z) : gmap (Z * bytes) PropertyIndex := purge_index id <$> indexes.

Definition PurgeRelFromAllPropertyIndexes (indexes : gmap (Z * bytes) PropertyIndex) (id : Z) : gmap (Z * bytes) PropertyIndex := purge_index id <$> indexes.

(** ** Statistics *)

Record ValueStats := mkStats { Distinct : Z; StatRows : Z; MaxRows : Z; MaxKey : bytes; Sample : Z }.

Definition stats_step (s : ValueStats) (p : bytes * IDPostings) : ValueStats :=
  let n := Z.of_nat (IDPostings_Len (Some p.2)) in
  if n =? 0 then s
  else
    let heavier := (n >? MaxRows s) || ((n =? MaxRows s) && str_lt p.1 (MaxKey s)) in
    mkStats (Distinct s + 1) (StatRows s + n) (if heavier then n else MaxRows s) (if heavier then p.1 else MaxKey s) (Sample s).

(** Computed afresh: the cached copy is dropped by every write.  The entries are
    ranged over in the order [entries]; [None]: not exact. *)
Definition index_ValueStats (entries : list (bytes * IDPostings)) (pi : PropertyIndex) : option ValueStats :=
  if negb (serves pi) then None
  else
    let s := fold_left stats_step entries (mkStats 0 0 0 [] 0) in
    Some (if MaxRows s >? 0
          then mkStats (Distinct s) (StatRows s) (MaxRows s) (MaxKey s) (IDPostings_All (pi_Entries pi !! MaxKey s) (fun _ id => (id, false)) (Sample s))
          else s).

(** ** One list *)

Lemma familyR_purge {A} `{Countable A} (F : gmap A IDPostings) R id a s : familyR F R -> F !! a = Some s ->
  let s' := fst (IDPostings_remove id s) in
  familyR (if (IDPostings_Len (Some s') =? 0)%nat then delete a F else <[a := s']> F) (fun x b => R x b /\ ~ (x = id /\ b = a)) /\
  (snd (IDPostings_remove id s) = true -> IDPostings_Len (Some s) = S (IDPostings_Len (Some s'))) /\
  (snd (IDPostings_remove id s) = false -> IDPostings_Len (Some s') <> 0%nat /\ ~ R id a).
Proof.
  intros HF Ha. pose proof (HF a) as Hs. rewrite Ha in Hs. destruct Hs as (Hok & Hne & Hin). cbv zeta. destruct (decide (id ∈ keys s)) as [Hid|Hid].
  - destruct (familyR_remove F R (fun x b => R x b /\ ~ (x = id /\ b = a)) id a s HF Ha ltac:(by apply Hin) ltac:(done)) as (Hfam & Hr & Hl & Hl2 & _). cbv zeta in *.
    split; [exact Hfam|]. rewrite Hr. split; [|done]. intros _. rewrite Hl, Hl2. cbn [IDPostings_Len]. by destruct Hok as [_ ->].
  - unfold IDPostings_remove. pose proof (remove_keys s id Hok) as Hr. destruct (sc_remove id s) as [s' found]. cbn [fst snd]. destruct Hr as (Hs' & Hk & ->).
    rewrite without_absent in Hk by done. rewrite bool_decide_eq_false_2 by done.
    assert (Hl : IDPostings_Len (Some s') <> 0%nat) by (cbn [IDPostings_Len]; rewrite (ok_n _ Hs'), Hk; by destruct (keys s)).
    split; [|split; [done|split; [done|by rewrite <- Hin]]]. destruct (Nat.eqb_spec (IDPostings_Len (Some s')) 0); [done|]. intros b. destruct (decide (b = a)) as [->|Hb].
    + rewrite lookup_insert_eq. split; [done|]. rewrite Hk. split; [done|]. intros x. rewrite Hin. split; [|tauto]. intros Hx. split; [done|]. intros [-> _]. by apply Hid, Hin.
    + rewrite lookup_insert_ne by done. pose proof (HF b) as Hfb. destruct (F !! b) as [t|]; [destruct Hfb as (? & ? & Ht); split_and!; [done..|]; intros x; rewrite Ht; naive_solver|intros x [Hx _]; by apply Hfb in Hx].
Qed.

(** All the lists, one after the other. *)
Section PurgeFold.
Context {A St : Type} `{Countable A} (get : St -> gmap A IDPostings) (step : St -> A * IDPostings -> St) (id : Z) (Inv : St -> Prop).
Hypothesis step_ok : forall st R a s, Inv st -> familyR (get st) R -> get st !! a = Some s ->
  Inv (step st (a, s)) /\ familyR (get (step st (a, s))) (fun x b => R x b /\ ~ (x = id /\ b = a)) /\ forall b, b <> a -> get (step st (a, s)) !! b = get st !! b.

Lemma purge_fold l : forall st R, NoDup (map fst l) -> (forall p, p ∈ l -> get st !! p.1 = Some p.2) -> Inv st -> familyR (get st) R ->
  Inv (fold_left step l st) /\ familyR (get (fold_left step l st)) (fun x b => R x b /\ ~ (x = id /\ b ∈ map fst l)).
Proof.
  induction l as [|[a s] l IH]; intros st R Hnd Hl Hinv HF; cbn [fold_left map].
  - split; [done|]. eapply familyR_ext; [exact HF|]. intros x b. rewrite elem_of_nil. tauto.
  - cbn [map] in Hnd. apply NoDup_cons in Hnd as [Ha Hnd]. destruct (step_ok st R a s Hinv HF (Hl (a, s) ltac:(left))) as (H1 & H2 & H3).
    assert (Hl' : forall p, p ∈ l -> get (step st (a, s)) !! p.1 = Some p.2).
    { intros p Hp. rewrite H3; [apply Hl; by right|]. intros E. apply Ha. cbn [fst]. rewrite <- E. apply list_elem_of_fmap. by exists p. }
    destruct (IH _ _ Hnd Hl' H1 H2) as [H4 H5]. split; [exact H4|]. eapply familyR_ext; [exact H5|]. intros x b. cbn [fst]. rewrite elem_of_cons. naive_solver.
Qed.

Lemma purge_all st R : Inv st -> familyR (get st) R -> 
  Inv (fold_left step (map_to_list (get st)) st) /\ familyR (get (fold_left step (map_to_list (get st)) st)) (fun x b => R x b /\ x <> id).
Proof.
  intros Hinv HF. destruct (purge_fold (map_to_list (get st)) st R) as [H1 H2]; [apply NoDup_fst_map_to_list| |done|done|].
  { intros [a s] Hp. by apply elem_of_map_to_list in Hp. }
  split; [exact H1|]. eapply familyR_ext; [exact H2|]. intros x b. split; [tauto|]. intros [Hx Hn]. split; [done|]. intros ->. apply Hn. split; [done|].
  pose proof (HF b) as Hb. destruct (get st !! b) as [s|] eqn:E; [|by apply Hb in Hx]. apply list_elem_of_fmap. exists (b, s). split; [done|]. by apply elem_of_map_to_list.
Qed.
End PurgeFold.

(** ** The purge of an index *)

Section Purge.
Context (FormatFloat : Z -> Z -> bytes) (ParseFloat : bytes -> option Z) (id : Z).

(** Only the lists and the string view change. *)
Definition entries_inv (pi0 pi : PropertyIndex) : Prop :=
  (elements pi = false -> sc_ok (strKeys pi) /\ forall s, s ∈ keys (strKeys pi) <-> is_Some (pi_Entries pi !! str_vk s)) /\
  pi = set_strs (strKeys pi) (set_entries (pi_Entries pi) pi0).

Lemma dropKey_shape vk pi : pi_Entries (dropKey vk pi) = delete vk (pi_Entries pi) /\ dropKey vk pi = set_strs (strKeys (dropKey vk pi)) (set_entries (delete vk (pi_Entries pi)) pi).
Proof. unfold dropKey, removeOrderedStr. destruct (orderedViews _); [destruct (stringSortKey vk)|]; by destruct pi. Qed.

Lemma purge_value_ok pi0 pi R vk s : entries_inv pi0 pi -> familyR (pi_Entries pi) R -> pi_Entries pi !! vk = Some s ->
  entries_inv pi0 (purge_value id pi (vk, s)) /\ familyR (pi_Entries (purge_value id pi (vk, s))) (fun x b => R x b /\ ~ (x = id /\ b = vk)) /\
  forall b, b <> vk -> pi_Entries (purge_value id pi (vk, s)) !! b = pi_Entries pi !! b.
Proof.
  intros [Hstr Hsh] HF Hs. destruct (familyR_purge _ R id vk s HF Hs) as (Hfam & Hrem & Habs). cbv zeta in *. unfold purge_value. cbn [fst snd].
  destruct (IDPostings_remove id s) as [s' removed]. cbn [fst snd] in *. set (pi1 := set_entries (<[vk := s']> (pi_Entries pi)) pi).
  assert (Hg : forall t e, set_strs t (set_entries e pi) = set_strs t (set_entries e pi0)) by (intros t e; rewrite Hsh; done).
  assert (Hstr1 : elements pi1 = false -> sc_ok (strKeys pi1) /\ forall t, t ∈ keys (strKeys pi1) <-> is_Some (pi_Entries pi1 !! str_vk t)).
  { intros Hel. destruct (Hstr Hel) as [H1 H2]. split; [exact H1|]. intros t. cbn [pi1 set_entries pi_Entries strKeys]. rewrite H2.
    destruct (decide (str_vk t = vk)) as [<-|]; [rewrite lookup_insert_eq, Hs; split; by eexists|by rewrite lookup_insert_ne]. }
  destruct (removed && (IDPostings_Len (Some s') =? 0)%nat) eqn:E.
  - apply andb_true_iff in E as [_ E]. rewrite E in Hfam. destruct (dropKey_shape vk pi1) as [Hd1 Hd2]. rewrite Hd1. cbn [pi1 set_entries pi_Entries] in *. rewrite delete_insert_eq in *.
    split; [|split; [exact Hfam|intros b Hb; by rewrite lookup_delete_ne]]. split.
    + rewrite Hd2. cbn [set_strs set_entries elements strKeys pi_Entries]. intros Hel. fold pi1 in Hd1 |- *. destruct (Hstr1 Hel) as [H1 H2]. destruct (dropKey_ok ParseFloat vk pi1 Hel H1 H2) as (D1 & D2 & D3 & _).
      rewrite D1 in D3. cbn [pi1 set_entries pi_Entries] in D3. rewrite delete_insert_eq in D3. done.
    + etransitivity; [exact Hd2|]. rewrite (proj1 (dropKey_shape vk pi1)). cbn [pi1 set_entries pi_Entries]. rewrite delete_insert_eq. apply Hg.
  - assert ((IDPostings_Len (Some s') =? 0)%nat = false) as E'.
    { destruct removed; [done|]. destruct (Habs eq_refl) as [H _]. by apply Nat.eqb_neq. }
    rewrite E' in Hfam. split; [|split; [exact Hfam|intros b Hb; cbn [pi1 set_entries pi_Entries]; by rewrite lookup_insert_ne]].
    split; [exact Hstr1|]. etransitivity; [|apply Hg]. by destruct pi.
Qed.

Lemma purge_entries pi R : familyR (pi_Entries pi) R -> entries_inv pi pi ->
  let pi' := fold_left (purge_value id) (map_to_list (pi_Entries pi)) pi in
  entries_inv pi pi' /\ familyR (pi_Entries pi') (fun x b => R x b /\ x <> id).
Proof.
  intros HF Hinv. exact (purge_all pi_Entries (purge_value id) id (entries_inv pi) (fun st R a s H1 H2 H3 => purge_value_ok pi st R a s H1 H2 H3) pi R Hinv HF).
Qed.

Definition buckets_inv (pi0 pi : PropertyIndex) : Prop := view_ok (rangeCounts pi) (numKeys pi) (numBuckets pi) /\ pi = set_view (numKeys pi) (numBuckets pi) pi0.

Lemma purge_bucket_shape pi p : purge_bucket id pi p = set_view (numKeys (purge_bucket id pi p)) (numBuckets (purge_bucket id pi p)) pi.
Proof. unfold purge_bucket. destruct (IDPostings_remove id p.2) as [b []]; cbn [negb]; [|by destruct pi]. by destruct (_ =? 0)%nat. Qed.

Lemma purge_bucket_ok pi0 pi R k s : buckets_inv pi0 pi -> familyR (numBuckets pi) R -> numBuckets pi !! k = Some s ->
  buckets_inv pi0 (purge_bucket id pi (k, s)) /\ familyR (numBuckets (purge_bucket id pi (k, s))) (fun x b => R x b /\ ~ (x = id /\ b = k)) /\
  forall b, b <> k -> numBuckets (purge_bucket id pi (k, s)) !! b = numBuckets pi !! b.
Proof.
  intros [Hv Hsh] HF Hs. destruct (familyR_purge _ R id k s HF Hs) as (Hfam & Hrem & Habs). cbv zeta in *.
  assert (Hg : forall q, rangeCounts (purge_bucket id pi q) = rangeCounts pi /\ purge_bucket id pi q = set_view (numKeys (purge_bucket id pi q)) (numBuckets (purge_bucket id pi q)) pi0).
  { intros q. split; [by rewrite purge_bucket_shape|]. rewrite purge_bucket_shape at 1. by rewrite Hsh at 3. }
  unfold buckets_inv. destruct (Hg (k, s)) as [-> Hsh']. cut (view_ok (rangeCounts pi) (numKeys (purge_bucket id pi (k, s))) (numBuckets (purge_bucket id pi (k, s))) /\
    familyR (numBuckets (purge_bucket id pi (k, s))) (fun x b => R x b /\ ~ (x = id /\ b = k)) /\ forall b, b <> k -> numBuckets (purge_bucket id pi (k, s)) !! b = numBuckets pi !! b).
  { intros (C1 & C2 & C3). done. }
  clear Hg Hsh'. unfold purge_bucket. cbn [fst snd]. destruct (IDPostings_remove id s) as [s' removed]. cbn [fst snd] in *. destruct removed; cbn [negb].
  - pose proof (view_remove (rangeCounts pi) _ _ k s s' Hv Hs (Hrem eq_refl)) as Hview. destruct (IDPostings_Len (Some s') =? 0)%nat.
    + cbn [set_view rangeCounts numKeys numBuckets]. rewrite delete_insert_eq. split; [by destruct (rangeCounts pi)|]. split; [exact Hfam|]. intros b Hb. by rewrite lookup_delete_ne.
    + cbn [set_view rangeCounts numKeys numBuckets]. split; [by destruct (rangeCounts pi)|]. split; [exact Hfam|]. intros b Hb. by rewrite lookup_insert_ne.
  - split; [exact Hv|]. split; [|done]. eapply familyR_ext; [exact HF|]. intros x b. split; [tauto|]. intros Hx. split; [done|]. intros [-> ->]. by destruct (Habs eq_refl).
Qed.

Lemma purgeOrdered_ok pi R : familyR (numBuckets pi) R -> view_ok (rangeCounts pi) (numKeys pi) (numBuckets pi) ->
  buckets_inv pi (purgeOrdered id pi) /\ familyR (numBuckets (purgeOrdered id pi)) (fun x b => R x b /\ x <> id).
Proof.
  intros HF Hv. apply (purge_all numBuckets (purge_bucket id) id (buckets_inv pi) (fun st R a s H1 H2 H3 => purge_bucket_ok pi st R a s H1 H2 H3) pi R); [|done].
  split; [done|]. by destruct pi.
Qed.

Lemma purgeOrdered_shape pi : purgeOrdered id pi = set_view (numKeys (purgeOrdered id pi)) (numBuckets (purgeOrdered id pi)) pi.
Proof.
  unfold purgeOrdered. generalize (map_to_list (numBuckets pi)) as l. intros l. revert pi. induction l as [|p l IH]; intros pi; cbn [fold_left]; [by destruct pi|].
  rewrite IH at 1. by rewrite (purge_bucket_shape pi p) at 3.
Qed.

Lemma purge_index_ok pi m : pi_ok ParseFloat pi m -> pi_ok ParseFloat (purge_index id pi) (delete id m).
Proof.
  intros [Hel Hne He Hb Hv [Hs Hsin] Hi]. unfold purge_index.
  destruct (purge_entries pi _ He) as [[Hstr Hsh] HF]; [by split; [|destruct pi]|]. cbv zeta in *. set (p1 := fold_left _ _ pi) in *. clearbody p1.
  assert (Help : elements p1 = elements pi) by by rewrite Hsh. assert (Hbk : numBuckets p1 = numBuckets pi) by by rewrite Hsh.
  assert (Hrc : rangeCounts p1 = rangeCounts pi) by by rewrite Hsh. assert (Hnk : numKeys p1 = numKeys pi) by by rewrite Hsh.
  assert (Him : numImpreciseCount p1 = numImpreciseCount pi) by by rewrite Hsh.
  destruct (purgeOrdered_ok p1 _ ltac:(rewrite Hbk; exact Hb) ltac:(by rewrite Hrc, Hnk, Hbk)) as [[Hv2 Hsh2] HF2]. set (p2 := purgeOrdered id p1) in *. clearbody p2.
  assert (He2 : pi_Entries p2 = pi_Entries p1 /\ strKeys p2 = strKeys p1 /\ elements p2 = elements pi /\ rangeCounts p2 = rangeCounts pi /\ numImpreciseCount p2 = numImpreciseCount pi)
    by (rewrite Hsh2; cbn [set_view pi_Entries strKeys elements rangeCounts numImpreciseCount]; done).
  destruct He2 as (E1 & E2 & E3 & E4 & E5).
  assert (Hd : forall (B : Type) (f : bytes -> option B) (x : Z) (b : B), (delete id m !! x ≫= f) = Some b <-> (m !! x ≫= f) = Some b /\ x <> id).
  { intros B f x b. destruct (decide (x = id)) as [->|Hx]; [rewrite lookup_delete_eq; cbn; naive_solver|rewrite lookup_delete_ne by done; naive_solver]. }
  unfold mark. split; cbn [set_mutated pi_Entries numBuckets numKeys strKeys rangeCounts elements numImpreciseCount]; [congruence|..].
  - intros x Hx. apply lookup_delete_Some in Hx as [_ Hx]. by apply (Hne x).
  - rewrite E1. eapply familyR_ext; [exact HF|]. intros x b. rewrite lookup_delete_Some. naive_solver.
  - eapply familyR_ext; [exact HF2|]. intros x b. apply Hd.
  - exact Hv2.
  - rewrite E1, E2. apply Hstr. congruence.
  - rewrite E5. destruct (m !! id) as [vk|] eqn:Em; [|by rewrite delete_id]. pose proof (imprecise_delete id vk m Em). destruct (isNumericImprecise vk); lia.
Qed.

Lemma purge_index_flags pi : elements (purge_index id pi) = elements pi /\ onDisk (purge_index id pi) = onDisk pi.
Proof.
  unfold purge_index. cbn [mark set_mutated elements onDisk]. rewrite purgeOrdered_shape. cbn [set_view elements onDisk]. generalize (map_to_list (pi_Entries pi)) as l. intros l. revert pi.
  induction l as [|p l IH]; intros pi; [done|]. cbn [fold_left]. destruct (IH (purge_value id pi p)) as [-> ->]. unfold purge_value. destruct (IDPostings_remove id p.2) as [s' removed].
  destruct (_ && _); [|done]. unfold dropKey, removeOrderedStr. destruct (orderedViews _); [|done]. by destruct (stringSortKey p.1).
Qed.

Lemma index_purge key E idx : index_ok FormatFloat ParseFloat key E idx -> index_ok FormatFloat ParseFloat key (delete id E) (purge_index id idx).
Proof.
  unfold index_ok. destruct (purge_index_flags idx) as [-> ->]. intros [Hd|Hok]; [by left|right]. destruct (elements idx) eqn:Eel.
  - destruct Hok as [_ HF]. split; [by rewrite (proj1 (purge_index_flags idx))|]. unfold purge_index. cbn [mark set_mutated pi_Entries]. rewrite purgeOrdered_shape. cbn [set_view pi_Entries].
    destruct (purge_entries idx _ HF) as [_ HF']; [split; [congruence|by destruct idx]|]. eapply familyR_ext; [exact HF'|]. intros x b. cbv beta.
    destruct (decide (x = id)) as [->|Hx]; [rewrite lookup_delete_eq; naive_solver|rewrite lookup_delete_ne by done; naive_solver].
  - assert (scalar_map FormatFloat key (delete id E) = delete id (scalar_map FormatFloat key E)) as -> by apply omap_delete. by apply purge_index_ok.
Qed.
End Purge.

(** The purge of a lost entity, whose values are not known, leaves every property
    index of the store describing the other entities: its ID is gone from every
    list, string view, bucket and count, whatever it held. *)
Theorem property_purge_refines FormatFloat ParseFloat idxs E id (H : indexes_ok FormatFloat ParseFloat idxs E) :
  indexes_ok FormatFloat ParseFloat (PurgeNodeFromAllPropertyIndexes idxs id) (delete id E) /\
  indexes_ok FormatFloat ParseFloat (PurgeRelFromAllPropertyIndexes idxs id) (delete id E).
Proof.
  assert (Hp : indexes_ok FormatFloat ParseFloat (purge_index id <$> idxs) (delete id E)).
  { intros key idx Hl. rewrite lookup_fmap in Hl. destruct (idxs !! key) as [i|] eqn:Ei; [|done]. injection Hl as <-. by apply index_purge, H. }
  by split.
Qed.

Lemma property_purge_refines_witness :
  indexes_ok demo_format (demo_parse 64) (PurgeNodeFromAllPropertyIndexes demo_store.2 2) (delete 2 demo_store.1) /\
  PostingsSet_AppendAfter (PostingsOfKeys (NumEqual.EqualIndexKeys demo_format (VNum TInt8 40))
    (default NewPropertyIndex (PurgeNodeFromAllPropertyIndexes demo_store.2 2 !! (7, bytes_of_string "age")))) [] 0 10 = [1].
Proof. split; [exact (proj1 (property_purge_refines demo_format (demo_parse 64) _ _ 2 demo_store_ok))|vm_compute; reflexivity]. Defined.

(** ** The statistics are those of the entities *)

Definition holders_of (m : gmap Z bytes) (vk : bytes) : Z := Z.of_nat (size (filter (fun p : Z * bytes => p.2 = vk) m)).

Lemma entry_len ParseFloat pi m vk : pi_ok ParseFloat pi m -> Z.of_nat (IDPostings_Len (pi_Entries pi !! vk)) = holders_of m vk.
Proof.
  intros Hok. pose proof (po_entries _ _ _ Hok vk) as Hs. unfold holders_of. rewrite <- size_dom.
  assert (Hd : forall x, x ∈ dom (filter (fun p : Z * bytes => p.2 = vk) m) <-> m !! x = Some vk).
  { intros x. rewrite elem_of_dom. unfold is_Some. setoid_rewrite map_lookup_filter_Some. naive_solver. }
  destruct (pi_Entries pi !! vk) as [s|].
  - destruct Hs as (Hok' & _ & Hin). cbn [IDPostings_Len]. rewrite (ok_n _ Hok'). rewrite <- (size_list_to_set (C:=gset Z)) by by apply ascending_nodup, keys_ascending.
    do 2 f_equal. apply set_eq. intros x. by rewrite elem_of_list_to_set, Hd, Hin.
  - cbn [IDPostings_Len]. symmetry. assert (dom (filter (fun p : Z * bytes => p.2 = vk) m) = ∅) as ->; [|done]. apply set_eq. intros x. rewrite Hd. split; [by intros ?%Hs|set_solver].
Qed.

(** The heaviest key among those seen, the smallest among equals. *)
Definition heaviest (c : bytes -> Z) (seen : list bytes) (s : ValueStats) : Prop :=
  MaxKey s ∈ seen /\ MaxRows s = c (MaxKey s) /\ forall vk, vk ∈ seen -> c vk <= MaxRows s /\ (c vk = MaxRows s -> vk = MaxKey s \/ str_lt (MaxKey s) vk = true).

Lemma stats_fold (c : bytes -> Z) l : forall s seen, (forall p, p ∈ l -> 0 < c p.1 /\ Z.of_nat (IDPostings_Len (Some p.2)) = c p.1) ->
  (seen = [] /\ MaxRows s = 0) \/ heaviest c seen s ->
  let s' := fold_left stats_step l s in
  Distinct s' = Distinct s + Z.of_nat (length l) /\ StatRows s' = fold_left (fun n p => n + Z.of_nat (IDPostings_Len (Some p.2))) l (StatRows s) /\ Sample s' = Sample s /\
  ((seen ++ map fst l = [] /\ MaxRows s' = 0) \/ heaviest c (seen ++ map fst l) s').
Proof.
  induction l as [|[vk p] l IH]; intros s seen Hl Hs; cbv zeta; cbn [fold_left map length]; [rewrite app_nil_r; split_and!; [lia|done|done|done]|].
  destruct (Hl (vk, p) ltac:(left)) as [Hpos Hc]. cbn [fst snd] in Hpos, Hc. set (s1 := stats_step s (vk, p)).
  assert (H1 : Distinct s1 = Distinct s + 1 /\ StatRows s1 = StatRows s + Z.of_nat (IDPostings_Len (Some p)) /\ Sample s1 = Sample s /\ heaviest c (seen ++ [vk]) s1).
  { unfold s1, stats_step. cbn [fst snd]. rewrite Hc. destruct (Z.eqb_spec (c vk) 0); [lia|]. cbn [Distinct StatRows Sample]. split; [done|]. split; [done|]. split; [done|].
    unfold heaviest. cbn [MaxKey MaxRows]. destruct Hs as [[-> Hz]|(Hin & Hm & Hall)].
    - rewrite Hz. destruct (Z.gtb_spec (c vk) 0); [|lia]. cbn [orb app]. split; [left|]. split; [done|]. intros x ->%list_elem_of_singleton. split; [lia|by left].
    - assert (Hvk : forall x, x ∈ seen ++ [vk] <-> x ∈ seen \/ x = vk) by (intros x; by rewrite elem_of_app, list_elem_of_singleton). setoid_rewrite Hvk.
      destruct (Z.gtb_spec (c vk) (MaxRows s)) as [Hg|Hg]; cbn [orb].
      + split; [by right|]. split; [done|]. intros x [Hx| ->]; [destruct (Hall x Hx); split; [lia|lia]|split; [lia|by left]].
      + destruct (Z.eqb_spec (c vk) (MaxRows s)) as [Heq|Hne]; cbn [andb]; [destruct (str_lt vk (MaxKey s)) eqn:El|].
        * split; [by right|]. split; [done|]. intros x [Hx| ->]; [|split; [lia|by left]]. destruct (Hall x Hx) as [H2 H3]. split; [lia|]. intros E. right. destruct H3 as [->|H3]; [lia|done|by eapply str_lt_trans].
        * split; [by left|]. split; [done|]. intros x [Hx| ->]; [by apply Hall|]. split; [lia|]. intros _. destruct (str_lt_total _ _ El) as [->|H3]; [by left|by right].
        * split; [by left|]. split; [done|]. intros x [Hx| ->]; [by apply Hall|]. split; lia. }
  destruct H1 as (D1 & R1 & S1 & HH). destruct (IH s1 (seen ++ [vk]) ltac:(intros q Hq; apply Hl; by right) (or_intror HH)) as (D2 & R2 & S2 & H2). cbv zeta in *. rewrite <- app_assoc in H2.
  rewrite D2, R2, S2, D1, R1, S1. split; [lia|]. split; [done|]. split; [done|exact H2].
Qed.

(** The statistics of an index, read in any order of its entries: the number of value
    keys, the number of entities, the heaviest key (the smallest among equals), its
    holders, and one of them. *)
Theorem value_stats_exact ParseFloat pi m entries : pi_ok ParseFloat pi m -> (forall id vk, m !! id = Some vk -> 0 < id) -> serves pi = true -> entries ≡ₚ map_to_list (pi_Entries pi) ->
  exists s, index_ValueStats entries pi = Some s /\ StatRows s = Z.of_nat (size m) /\ Distinct s = Z.of_nat (size (map_to_set (fun _ vk => vk) m : gset bytes)) /\
    (m <> ∅ -> m !! Sample s = Some (MaxKey s) /\ MaxRows s = holders_of m (MaxKey s) /\
      forall vk, holders_of m vk <= MaxRows s /\ (holders_of m vk = MaxRows s -> vk = MaxKey s \/ str_lt (MaxKey s) vk = true)).
Proof.
  intros Hok Hpos Hs Hperm. pose proof (po_entries _ _ _ Hok) as HF. unfold index_ValueStats. rewrite Hs. cbn [negb].
  assert (Hnd : NoDup (map fst entries)) by (change (map fst entries) with (entries.*1); rewrite Hperm; apply NoDup_fst_map_to_list).
  assert (Hent : forall p, p ∈ entries -> pi_Entries pi !! p.1 = Some p.2) by (intros [k s] Hp; rewrite Hperm in Hp; by apply elem_of_map_to_list in Hp).
  assert (Hkeys : forall vk, vk ∈ map fst entries <-> exists id, m !! id = Some vk).
  { intros vk. rewrite list_elem_of_fmap. split.
    - intros ([k s] & -> & Hp). apply Hent in Hp. pose proof (HF k) as Hk. cbn [fst snd] in *. rewrite Hp in Hk. destruct Hk as (_ & Hne & Hin). destruct (keys s) as [|x l] eqn:Ek; [done|]. exists x. apply Hin. left.
    - intros [id Hid]. pose proof (HF vk) as Hk. destruct (pi_Entries pi !! vk) as [s|] eqn:E; [|by apply Hk in Hid]. exists (vk, s). split; [done|]. rewrite Hperm. by apply elem_of_map_to_list. }
  assert (Hlen : forall p, p ∈ entries -> 0 < holders_of m p.1 /\ Z.of_nat (IDPostings_Len (Some p.2)) = holders_of m p.1).
  { intros p Hp. rewrite <- (entry_len ParseFloat pi m p.1 Hok), (Hent p Hp). split; [|done]. pose proof (HF p.1) as Hk. rewrite (Hent p Hp) in Hk. destruct Hk as (Hok' & Hne & _). cbn [IDPostings_Len]. rewrite (ok_n _ Hok'). destruct (keys p.2); [done|cbn; lia]. }
  destruct (stats_fold (holders_of m) entries (mkStats 0 0 0 [] 0) [] Hlen (or_introl (conj eq_refl eq_refl))) as (D & R & S & Hh). cbv zeta in *. cbn [app] in Hh. cbn [Distinct StatRows Sample] in D, R, S.
  set (s := fold_left stats_step entries _) in *. clearbody s.
  destruct (keys_count ParseFloat m pi (map fst entries) Hok Hnd) as (L & HLn & HLin & HLsum). 
  assert (Hrows : StatRows s = Z.of_nat (size m)).
  { rewrite R. assert (Hsz : length L = size m) by (rewrite <- size_dom, <- (size_list_to_set (C:=gset Z)) by done; f_equal; apply set_eq; intros x; rewrite elem_of_list_to_set, HLin, elem_of_dom; split; [intros (k & _ & E); by eexists|intros [k E]; exists k; split; [apply Hkeys; by exists x|done]]).
    rewrite <- Hsz, <- (Z.add_0_l (Z.of_nat (length L))), <- (HLsum 0). generalize 0 as z. clear -Hent. induction entries as [|p l IH]; intros z; [done|]. cbn [fold_left map]. rewrite (Hent p ltac:(left)). apply IH. intros q Hq. apply Hent. by right. }
  assert (Hdist : Distinct s = Z.of_nat (size (map_to_set (fun _ vk => vk) m : gset bytes))).
  { rewrite D, Z.add_0_l, <- (length_map fst entries), <- (size_list_to_set (C:=gset bytes)) by done. do 2 f_equal. apply set_eq. intros vk. rewrite elem_of_list_to_set, elem_of_map_to_set, Hkeys. naive_solver. }
  destruct Hh as [[E Hz]|(Hin & Hmax & Hall)].
  - rewrite Hz. change (0 >? 0) with false. exists s. split; [done|]. split; [done|]. split; [done|]. intros Hm. exfalso. apply Hm, map_eq. intros id. rewrite lookup_empty.
    destruct (m !! id) as [vk|] eqn:Em; [|done]. assert (vk ∈ map fst entries) as H by (apply Hkeys; by exists id). rewrite E in H. by apply not_elem_of_nil in H.
  - pose proof (proj1 (Hkeys _) Hin) as [id0 Hid0]. pose proof (HF (MaxKey s)) as Hk. destruct (pi_Entries pi !! MaxKey s) as [t|] eqn:Et; [|by apply Hk in Hid0]. destruct Hk as (Hok' & Hne & Htin).
    assert (Hpos' : 0 < MaxRows s). { rewrite Hmax. apply list_elem_of_fmap in Hin as (p & -> & Hp). by apply Hlen. }
    destruct (Z.gtb_spec (MaxRows s) 0); [|lia]. eexists. split; [done|]. cbn [StatRows Distinct MaxRows MaxKey Sample]. split; [done|]. split; [done|]. intros _. split; [|split; [done|]].
    + unfold IDPostings_All. rewrite After_exact by exact Hok'. cbn [ids_of_list]. destruct (keys t) as [|x l] eqn:Ek; [done|]. assert (m !! x = Some (MaxKey s)) as Hx by (apply Htin; left).
      unfold ids_after. cbn [List.filter]. destruct (Z.ltb_spec 0 x); [done|]. specialize (Hpos _ _ Hx). lia.
    + intros vk. destruct (decide (vk ∈ map fst entries)) as [Hv|Hv]; [by apply Hall|]. assert (holders_of m vk = 0) as ->; [|split; lia].
      unfold holders_of. assert (filter (fun p : Z * bytes => p.2 = vk) m = ∅) as ->; [|done]. apply map_eq. intros x. rewrite lookup_empty. apply map_lookup_filter_None. right. intros b Hb Hbv. cbn in Hbv. subst b. apply Hv, Hkeys. by exists x.
Qed.
