(* ===== verification/CompositeIndex.v ===== *)
(** * Composite property indexes (internal/index/composite_property_index.go)

    An index over a tuple of two to four properties: from the tuple of value keys
    to the nodes that hold it.  A key held by one node keeps that ID inline, a key
    held by several a posting list.  The theorems show that the indexes of a store
    describe its nodes through every write, and that a lookup answers exactly the
    nodes a scan of the label would. *)

From stdpp Require Import gmap.
From S2P Require Import Prelude Bytes Props Rows ValueKeys SortedChunks Postings PropertyIndex.

(** ** One index *)

Record CompositePropertyIndex := mkCI {
  ci_Keys : list bytes;
  ci_one : gmap bytes Z;
  ci_many : gmap bytes IDPostings;
  ci_Mutated : option (gset Z);
  ci_onDisk : bool;
}.

Definition NewCompositePropertyIndexOnDisk (keys : list bytes) : CompositePropertyIndex := mkCI keys ∅ ∅ None true.

Definition NewCompositePropertyIndex (keys : list bytes) : CompositePropertyIndex := mkCI keys ∅ ∅ None false.

(** A part's length is a uint32. *)
Definition EncodeCompositeKeyTuple (parts : list bytes) : bytes :=
  fold_left (fun b p => b ++ be_bytes 4 (Z.of_nat (length p)) ++ p) parts [].

Definition ci_maps (one : gmap bytes Z) (many : gmap bytes IDPostings) (ci : CompositePropertyIndex) : CompositePropertyIndex :=
  mkCI (ci_Keys ci) one many (ci_Mutated ci) (ci_onDisk ci).

Definition ci_mark (id : Z) (ci : CompositePropertyIndex) : CompositePropertyIndex :=
  mkCI (ci_Keys ci) (ci_one ci) (ci_many ci) ((fun m => {[id]} ∪ m) <$> ci_Mutated ci) (ci_onDisk ci).

Definition Composite_AddKey (id : Z) (vk : bytes) (ci : CompositePropertyIndex) : CompositePropertyIndex :=
  if bool_decide (vk = []) then ci
  else
    let ci := ci_mark id ci in
    match ci_many ci !! vk with
    | Some set => ci_maps (ci_one ci) (<[vk := fst (IDPostings_add id set)]> (ci_many ci)) ci
    | None =>
        match ci_one ci !! vk with
        | None => ci_maps (<[vk := id]> (ci_one ci)) (ci_many ci) ci
        | Some cur =>
            if negb (cur =? id) then
              let set := fst (IDPostings_add (Z.max cur id) (fst (IDPostings_add (Z.min cur id) emptyChunks))) in
              ci_maps (delete vk (ci_one ci)) (<[vk := set]> (ci_many ci)) ci
            else ci
        end
    end.

(** The list is changed in place: [many] holds the shrunk one. *)
Definition settle (vk : bytes) (set : IDPostings) (ci : CompositePropertyIndex) : CompositePropertyIndex :=
  match IDPostings_Len (Some set) with
  | 0%nat => ci_maps (ci_one ci) (delete vk (ci_many ci)) ci
  | 1%nat => ci_maps (IDPostings_All (Some set) (fun one id => (<[vk := id]> one, true)) (ci_one ci)) (delete vk (ci_many ci)) ci
  | _ => ci_maps (ci_one ci) (<[vk := set]> (ci_many ci)) ci
  end.

Definition Composite_removeKey (id : Z) (vk : bytes) (ci : CompositePropertyIndex) : CompositePropertyIndex :=
  if bool_decide (vk = []) then ci
  else
    let ci := ci_mark id ci in
    match ci_one ci !! vk with
    | Some cur => if cur =? id then ci_maps (delete vk (ci_one ci)) (ci_many ci) ci else ci
    | None =>
        match ci_many ci !! vk with
        | Some set => let '(set, removed) := IDPostings_remove id set in if removed then settle vk set ci else ci
        | None => ci
        end
    end.

Definition Composite_Postings (vk : bytes) (ci : CompositePropertyIndex) : option IDPostings :=
  if bool_decide (vk = []) then None
  else match ci_many ci !! vk with
       | Some set => Some set
       | None => match ci_one ci !! vk with
                 | Some id => Some (fst (IDPostings_add id emptyChunks))
                 | None => None
                 end
       end.

Definition Composite_KeyCount (ci : CompositePropertyIndex) : nat := (size (ci_one ci) + size (ci_many ci))%nat.

(** The body of the purge's second loop, for one entry of [many]. *)
Definition purge_entry (id : Z) (ci : CompositePropertyIndex) (p : bytes * IDPostings) : CompositePropertyIndex :=
  let '(set, removed) := IDPostings_remove id p.2 in if removed then settle p.1 set ci else ci.

Definition Composite_purge (id : Z) (ci : CompositePropertyIndex) : CompositePropertyIndex :=
  let ci := ci_maps (filter (fun p => p.2 <> id) (ci_one ci)) (ci_many ci) ci in
  ci_mark id (fold_left (purge_entry id) (map_to_list (ci_many ci)) ci).

(** ** Keys of nodes and queries *)

Section Keys.
Context (FormatFloat : Z -> Z -> bytes).

Fixpoint value_parts (of_key : bytes -> bytes) (keys : list bytes) : option (list bytes) :=
  match keys with
  | [] => Some []
  | k :: keys' =>
      let vk := of_key k in
      if bool_decide (vk = []) then None
      else match value_parts of_key keys' with Some ps => Some (vk :: ps) | None => None end
  end.

(** The value key of a node's property: empty when it has none. *)
Definition node_key (n : Node PropertySlice) (k : bytes) : bytes := fst (indexableValueKey FormatFloat (n_properties n) k).

Definition NodeCompositeValueKey (keys : list bytes) (n : Node PropertySlice) : option bytes :=
  match value_parts (node_key n) keys with Some parts => Some (EncodeCompositeKeyTuple parts) | None => None end.

(** The value key asked for: empty when the query has no value or an unindexed one. *)
Definition query_key (values : gmap bytes value) (k : bytes) : bytes :=
  match values !! k with Some v => IndexablePropertyValueKey FormatFloat v | None => [] end.

Definition QueryCompositeValueKey (keys : list bytes) (values : gmap bytes value) : option bytes :=
  match value_parts (query_key values) keys with Some parts => Some (EncodeCompositeKeyTuple parts) | None => None end.

Definition NodeMatchesAllProperties (n : Node PropertySlice) (values : gmap bytes value) : bool :=
  forallb (fun p : bytes * value =>
    let gotKey := node_key n p.1 in
    let wantKey := IndexablePropertyValueKey FormatFloat p.2 in
    negb (bool_decide (gotKey = [])) && negb (bool_decide (wantKey = []) || negb (bool_decide (gotKey = wantKey)))) (map_to_list values).

(** ** The indexes of a store *)

(** A label and the encoded names. *)
Notation CompositeIndexKey := (Z * bytes)%type.
Notation Indexes := (gmap CompositeIndexKey CompositePropertyIndex).
Notation Defs := (gmap Z (list CompositeIndexKey)).

Definition RegisterCompositeIndex (key : CompositeIndexKey) (idx : CompositePropertyIndex) (s : Indexes * Defs) : Indexes * Defs :=
  (<[key := idx]> s.1, <[key.1 := default [] (s.2 !! key.1) ++ [key]]> s.2).

Fixpoint drop_first (key : CompositeIndexKey) (l : list CompositeIndexKey) : list CompositeIndexKey :=
  match l with [] => [] | k :: l' => if bool_decide (k = key) then l' else k :: drop_first key l' end.

Definition UnregisterCompositeIndex (key : CompositeIndexKey) (s : Indexes * Defs) : Indexes * Defs :=
  (delete key s.1,
   match drop_first key (default [] (s.2 !! key.1)) with
   | [] => delete key.1 s.2
   | list => <[key.1 := list]> s.2
   end).

Fixpoint find_def (defs : list CompositeIndexKey) (indexes : Indexes) (values : gmap bytes value) : option CompositePropertyIndex :=
  match defs with
  | [] => None
  | defKey :: defs' =>
      match indexes !! defKey with
      | Some idx =>
          if negb (length (ci_Keys idx) =? size values)%nat then find_def defs' indexes values
          else if forallb (fun k => bool_decide (is_Some (values !! k))) (ci_Keys idx) then Some idx
          else find_def defs' indexes values
      | None => find_def defs' indexes values
      end
  end.

Definition FindCompositeIndexForQuery (indexes : Indexes) (defsByLabel : Defs) (labelToken : Z) (values : gmap bytes value) : option CompositePropertyIndex :=
  find_def (default [] (defsByLabel !! labelToken)) indexes values.

(** The loop over the definitions of the node's labels, each taken once. *)
Definition each_def (body : CompositePropertyIndex -> CompositePropertyIndex) (s : gset CompositeIndexKey * Indexes) (defKey : CompositeIndexKey) : gset CompositeIndexKey * Indexes :=
  if bool_decide (defKey ∈ s.1) then s
  else ({[defKey]} ∪ s.1, match s.2 !! defKey with Some idx => <[defKey := body idx]> s.2 | None => s.2 end).

Definition for_node_defs (body : CompositePropertyIndex -> CompositePropertyIndex) (indexes : Indexes) (defsByLabel : Defs) (n : Node PropertySlice) : Indexes :=
  snd (fold_left (fun s i => fold_left (each_def body) (default [] (defsByLabel !! LabelTokenRawAt (Z.of_nat i) n)) s) (seq 0 (LabelTokenCount n)) (∅, indexes)).

Definition AddNodeToCompositeIndexes (indexes : Indexes) (defsByLabel : Defs) (n : Node PropertySlice) (id : Z) : Indexes :=
  for_node_defs (fun idx =>
    if ci_onDisk idx then idx
    else match NodeCompositeValueKey (ci_Keys idx) n with Some vk => Composite_AddKey id vk idx | None => idx end) indexes defsByLabel n.

Definition RemoveNodeFromCompositeIndexes (indexes : Indexes) (defsByLabel : Defs) (n : Node PropertySlice) (id : Z) : Indexes :=
  for_node_defs (fun idx =>
    match NodeCompositeValueKey (ci_Keys idx) n with Some vk => Composite_removeKey id vk idx | None => idx end) indexes defsByLabel n.

Definition PurgeNodeFromAllCompositeIndexes (indexes : Indexes) (id : Z) : Indexes := Composite_purge id <$> indexes.
End Keys.

(** ** One index holds a relation *)

(** What the two maps say of the holders of one value key. *)
Definition slot_ok (o : option Z) (m : option IDPostings) (H : Z -> Prop) : Prop :=
  match o, m with
  | Some id, None => forall x, H x <-> x = id
  | None, Some s => sc_ok s /\ (2 <= length (keys s))%nat /\ forall x, x ∈ keys s <-> H x
  | None, None => forall x, ~ H x
  | Some _, Some _ => False
  end.

Definition ci_ok (ci : CompositePropertyIndex) (R : Z -> bytes -> Prop) : Prop :=
  forall vk, slot_ok (ci_one ci !! vk) (ci_many ci !! vk) (fun x => R x vk).

Lemma slot_ext o m (H H' : Z -> Prop) : slot_ok o m H -> (forall x, H' x <-> H x) -> slot_ok o m H'.
Proof. unfold slot_ok. destruct o, m; [done|..]; intros Hs Hx; [intros x; by rewrite Hx|destruct Hs as (? & ? & Hs); split_and!; [done..|]; intros x; by rewrite Hs, Hx|intros x; by rewrite Hx]. Qed.

Lemma ci_ext ci R R' : ci_ok ci R -> (forall x vk, R' x vk <-> R x vk) -> ci_ok ci R'.
Proof. intros Hok HR vk. eapply slot_ext; [apply Hok|]. intros x. apply HR. Qed.

(** A change at one value key. *)
Lemma ci_at ci ci' R R' vk : ci_ok ci R -> (forall b, b <> vk -> ci_one ci' !! b = ci_one ci !! b /\ ci_many ci' !! b = ci_many ci !! b) ->
  (forall x b, b <> vk -> R' x b <-> R x b) -> slot_ok (ci_one ci' !! vk) (ci_many ci' !! vk) (fun x => R' x vk) -> ci_ok ci' R'.
Proof.
  intros Hok Hsame HR Hvk b. destruct (decide (b = vk)) as [->|Hb]; [done|]. destruct (Hsame b Hb) as [-> ->]. eapply slot_ext; [apply Hok|]. intros x. by apply HR.
Qed.

Lemma put_elem id s : sc_ok s -> sc_ok (fst (IDPostings_add id s)) /\ (forall x, x ∈ keys (fst (IDPostings_add id s)) <-> x = id \/ x ∈ keys s) /\
  (length (keys s) <= length (keys (fst (IDPostings_add id s))))%nat.
Proof.
  intros Hs. unfold IDPostings_add. pose proof (put_ok s id Hs) as Hp. destruct (sc_put id s) as [s' added]. destruct Hp as (Hs' & Hk & _). cbn [fst].
  split; [done|]. rewrite Hk. split; [intros x; by rewrite elem_of_put_list|apply put_list_length].
Qed.

Lemma two_elems (l : list Z) x y : x ∈ l -> y ∈ l -> x <> y -> (2 <= length l)%nat.
Proof. destruct l as [|a [|b l]]; cbn [length]; [intros H; by apply not_elem_of_nil in H| |lia]. intros ->%list_elem_of_singleton ->%list_elem_of_singleton. done. Qed.

Lemma Composite_AddKey_ok id (vk : bytes) ci R : ci_ok ci R -> vk <> [] -> ci_ok (Composite_AddKey id vk ci) (fun x b => (x = id /\ b = vk) \/ R x b).
Proof.
  intros Hok Hvk. unfold Composite_AddKey. rewrite bool_decide_eq_false_2 by done. cbn [ci_many ci_one ci_mark]. pose proof (Hok vk) as Hs.
  destruct (ci_many ci !! vk) as [s|] eqn:Em; destruct (ci_one ci !! vk) as [cur|] eqn:Eo; try done.
  - destruct Hs as (Hs & Hlen & Hin). destruct (put_elem id s Hs) as (Hs' & Hk & Hl).
    apply (ci_at ci _ R _ vk Hok); [intros b Hb; cbn [ci_maps ci_one ci_many ci_mark]; by rewrite lookup_insert_ne by done|naive_solver|].
    cbn [ci_maps ci_one ci_many ci_mark]. rewrite lookup_insert_eq, Eo. split; [done|]. split; [lia|]. intros x. rewrite Hk, Hin. naive_solver.
  - cbn in Hs. destruct (Z.eqb_spec cur id) as [->|Hne]; cbn [negb].
    + apply (ci_at ci _ R _ vk Hok); [done|naive_solver|]. cbn [ci_maps ci_one ci_many ci_mark]. rewrite Em, Eo. intros x. rewrite Hs. naive_solver.
    + destruct (put_elem (Z.min cur id) emptyChunks (proj1 empty_ok)) as (H1 & K1 & _). destruct (put_elem (Z.max cur id) _ H1) as (H2 & K2 & _).
      apply (ci_at ci _ R _ vk Hok); [intros b Hb; cbn [ci_maps ci_one ci_many ci_mark]; by rewrite lookup_insert_ne, lookup_delete_ne by done|naive_solver|].
      cbn [ci_maps ci_one ci_many]. rewrite lookup_insert_eq, lookup_delete_eq. set (s := fst (IDPostings_add (Z.max cur id) _)) in *.
      assert (Hin : forall x, x ∈ keys s <-> x = cur \/ x = id).
      { intros x. rewrite K2, K1. change (keys emptyChunks) with (@nil Z). rewrite elem_of_nil. destruct (Z.min_spec cur id) as [[? ->]|[? ->]], (Z.max_spec cur id) as [[? ->]|[? ->]]; lia || tauto. }
      split; [done|]. split; [apply (two_elems _ cur id); [apply Hin; by left|apply Hin; by right|done]|]. intros x. rewrite Hin, Hs. naive_solver.
  - cbn in Hs. apply (ci_at ci _ R _ vk Hok); [intros b Hb; cbn [ci_maps ci_one ci_many ci_mark]; by rewrite lookup_insert_ne by done|naive_solver|].
    cbn [ci_maps ci_one ci_many ci_mark]. rewrite lookup_insert_eq, Em. intros x. specialize (Hs x). naive_solver.
Qed.

Lemma settle_ok vk s ci : sc_ok s -> Forall (fun x => 0 < x) (keys s) -> ci_one ci !! vk = None ->
  (forall b, b <> vk -> ci_one (settle vk s ci) !! b = ci_one ci !! b /\ ci_many (settle vk s ci) !! b = ci_many ci !! b) /\
  slot_ok (ci_one (settle vk s ci) !! vk) (ci_many (settle vk s ci) !! vk) (fun x => x ∈ keys s).
Proof.
  intros Hs Hpos Ho. unfold settle. cbn [IDPostings_Len]. rewrite (ok_n _ Hs). destruct (keys s) as [|x [|y l]] eqn:Ek; cbn [length].
  - split; [intros b Hb; cbn [ci_maps ci_one ci_many]; by rewrite lookup_delete_ne by done|]. cbn [ci_maps ci_one ci_many]. rewrite Ho, lookup_delete_eq. intros x Hx. by apply not_elem_of_nil in Hx.
  - unfold IDPostings_All. rewrite After_exact by exact Hs. cbn [ids_of_list]. rewrite Ek. apply Forall_cons in Hpos as [Hx _]. unfold ids_after. cbn [List.filter].
    destruct (Z.ltb_spec 0 x); [|lia]. cbn [walk fst ci_maps ci_one ci_many]. split; [intros b Hb; by rewrite lookup_insert_ne, lookup_delete_ne by done|].
    rewrite lookup_insert_eq, lookup_delete_eq. intros z. apply list_elem_of_singleton.
  - split; [intros b Hb; cbn [ci_maps ci_one ci_many]; by rewrite lookup_insert_ne by done|]. cbn [ci_maps ci_one ci_many]. rewrite Ho, lookup_insert_eq. split; [done|]. rewrite Ek. split; [cbn; lia|done].
Qed.

Definition positive (R : Z -> bytes -> Prop) : Prop := forall x vk, R x vk -> 0 < x.

(** Taking one ID out of one list. *)
Lemma purge_entry_ok id vk s ci R : ci_ok ci R -> positive R -> ci_many ci !! vk = Some s ->
  ci_ok (purge_entry id ci (vk, s)) (fun x b => R x b /\ ~ (x = id /\ b = vk)) /\
  forall b, b <> vk -> ci_many (purge_entry id ci (vk, s)) !! b = ci_many ci !! b.
Proof.
  intros Hok Hpos Hm. pose proof (Hok vk) as Hslot. rewrite Hm in Hslot. destruct (ci_one ci !! vk) eqn:Eo; [done|]. destruct Hslot as (Hs & Hlen & Hin).
  unfold purge_entry, IDPostings_remove. cbn [fst snd]. pose proof (remove_keys s id Hs) as Hr. destruct (sc_remove id s) as [s' removed]. destruct Hr as (Hs' & Hk & ->).
  assert (Helem : forall x, x ∈ keys s' <-> R x vk /\ ~ (x = id /\ vk = vk)) by (intros x; rewrite Hk, elem_of_without, Hin; naive_solver).
  case_bool_decide as Eid.
  - destruct (settle_ok vk s' ci Hs') as [Hother Hat]; [apply Forall_forall; intros x Hx; apply Helem in Hx as [Hx _]; by apply (Hpos x vk)|done|].
    split; [|intros b Hb; by apply Hother]. apply (ci_at ci _ R _ vk Hok Hother); [naive_solver|]. eapply slot_ext; [exact Hat|]. intros x. by rewrite Helem.
  - split; [|done]. eapply ci_ext; [exact Hok|]. intros x b. split; [by intros [? _]|]. intros Hx. split; [done|]. intros [-> ->]. by apply Eid, Hin.
Qed.

Lemma ci_ok_mark id ci R : ci_ok ci R -> ci_ok (ci_mark id ci) R.
Proof. done. Qed.

Lemma Composite_removeKey_ok id (vk : bytes) ci R : ci_ok ci R -> positive R -> vk <> [] -> ci_ok (Composite_removeKey id vk ci) (fun x b => R x b /\ ~ (x = id /\ b = vk)).
Proof.
  intros Hok Hpos Hvk. unfold Composite_removeKey. rewrite bool_decide_eq_false_2 by done. cbn [ci_many ci_one ci_mark]. pose proof (Hok vk) as Hs.
  destruct (ci_one ci !! vk) as [cur|] eqn:Eo.
  - destruct (ci_many ci !! vk) as [s|] eqn:Em; [done|]. cbn in Hs. destruct (Z.eqb_spec cur id) as [->|Hne].
    + apply (ci_at ci _ R _ vk Hok); [intros b Hb; cbn [ci_maps ci_one ci_many ci_mark]; by rewrite lookup_delete_ne by done|naive_solver|].
      cbn [ci_maps ci_one ci_many ci_mark]. rewrite lookup_delete_eq, Em. intros x. rewrite Hs. naive_solver.
    + eapply (ci_ext ci); [exact Hok|]. intros x b. split; [by intros [? _]|]. intros Hx. split; [done|]. intros [-> ->]. apply Hs in Hx. done.
  - destruct (ci_many ci !! vk) as [s|] eqn:Em.
    + exact (proj1 (purge_entry_ok id vk s (ci_mark id ci) R (ci_ok_mark _ _ _ Hok) Hpos Em)).
    + eapply (ci_ext ci); [exact Hok|]. intros x b. split; [by intros [? _]|]. intros Hx. split; [done|]. intros [-> ->]. by apply Hs in Hx.
Qed.

Lemma purge_entries_ok id l : forall ci R, NoDup (map fst l) -> ci_ok ci R -> positive R -> (forall p, p ∈ l -> ci_many ci !! p.1 = Some p.2) ->
  ci_ok (fold_left (purge_entry id) l ci) (fun x b => R x b /\ ~ (x = id /\ b ∈ map fst l)).
Proof.
  induction l as [|[vk s] l IH]; intros ci R Hnd Hok Hpos Hl; cbn [fold_left map].
  - eapply ci_ext; [exact Hok|]. intros x b. rewrite elem_of_nil. tauto.
  - cbn [map] in Hnd. apply NoDup_cons in Hnd as [Hvk Hnd]. destruct (purge_entry_ok id vk s ci R Hok Hpos (Hl (vk, s) ltac:(left))) as [Hok' Hsame].
    eapply ci_ext; [apply (IH _ _ Hnd Hok')|]; [by intros x b [Hx _]; apply (Hpos x b)| |].
    + intros p Hp. rewrite Hsame; [apply Hl; by right|]. intros <-. apply Hvk, list_elem_of_fmap. by exists p.
    + intros x b. cbn [fst]. rewrite elem_of_cons. naive_solver.
Qed.

Lemma Composite_purge_ok id ci R : ci_ok ci R -> positive R -> ci_ok (Composite_purge id ci) (fun x b => R x b /\ x <> id).
Proof.
  intros Hok Hpos. unfold Composite_purge. cbn [ci_many ci_maps]. apply ci_ok_mark.
  set (R1 := fun x b => R x b /\ ~ (x = id /\ ci_many ci !! b = None)).
  assert (Hok1 : ci_ok (ci_maps (filter (fun p : bytes * Z => p.2 <> id) (ci_one ci)) (ci_many ci) ci) R1).
  { intros b. cbn [ci_maps ci_one ci_many]. pose proof (Hok b) as Hb. unfold R1. destruct (ci_many ci !! b) as [s|] eqn:Em; destruct (ci_one ci !! b) as [o|] eqn:Eo; try done.
    - rewrite map_lookup_filter_None_2 by by left. eapply slot_ext; [exact Hb|]. intros x. naive_solver.
    - destruct (decide (o = id)) as [->|Hne].
      + rewrite map_lookup_filter_None_2 by (right; intros x Hx; rewrite Eo in Hx; injection Hx as <-; cbn; tauto). cbn in Hb |- *. intros x [Hx Hn]. apply Hb in Hx. tauto.
      + rewrite (map_lookup_filter_Some_2 _ _ _ o) by done. cbn in Hb |- *. intros x. rewrite Hb. split; [tauto|]. intros ->. split; [done|]. tauto.
    - rewrite map_lookup_filter_None_2 by by left. cbn in Hb |- *. intros x [Hx _]. by apply Hb in Hx. }
  eapply ci_ext; [apply (purge_entries_ok id _ _ _ (NoDup_fst_map_to_list _) Hok1)|].
  - intros x b [Hx _]. by apply (Hpos x b).
  - intros [b s] Hp. by apply elem_of_map_to_list in Hp.
  - intros x b. unfold R1. rewrite list_elem_of_fmap. split.
    + intros [Hx Hn]. split; [split; [done|tauto]|tauto].
    + intros [[Hx H1] H2]. split; [done|]. intros ->. destruct (ci_many ci !! b) as [s|] eqn:Em; [|tauto]. apply H2. split; [done|]. exists (b, s). split; [done|]. by apply elem_of_map_to_list.
Qed.

Lemma Composite_Postings_ok ci R (vk : bytes) : ci_ok ci R -> vk <> [] ->
  list_ok (Composite_Postings vk ci) /\ forall x, x ∈ ids_of_list (Composite_Postings vk ci) <-> R x vk.
Proof.
  intros Hok Hvk. unfold Composite_Postings. rewrite bool_decide_eq_false_2 by done. pose proof (Hok vk) as Hs.
  destruct (ci_many ci !! vk) as [s|] eqn:Em; destruct (ci_one ci !! vk) as [o|] eqn:Eo; try done.
  - by destruct Hs as (H1 & _ & H2).
  - destruct (put_elem o emptyChunks (proj1 empty_ok)) as (H1 & K1 & _). split; [done|]. intros x. cbn [ids_of_list]. rewrite K1. change (keys emptyChunks) with (@nil Z). rewrite elem_of_nil. specialize (Hs x). cbn beta in Hs. tauto.
  - split; [done|]. intros x. cbn [ids_of_list]. rewrite elem_of_nil. specialize (Hs x). tauto.
Qed.

(** ** Tuples *)

Definition encoded (p : bytes) : bytes := be_bytes 4 (Z.of_nat (length p)) ++ p.

Lemma Encode_concat parts : EncodeCompositeKeyTuple parts = concat (map encoded parts).
Proof.
  unfold EncodeCompositeKeyTuple. change (concat (map encoded parts)) with ([] ++ concat (map encoded parts)). generalize (@nil Z) as b.
  induction parts as [|p parts IH]; intros b; cbn [fold_left map concat]; [by rewrite app_nil_r|]. rewrite IH. unfold encoded. by rewrite <- !app_assoc.
Qed.

Definition short (p : bytes) : Prop := Z.of_nat (length p) < 2 ^ 32.

Lemma Encode_inj ps : forall qs, Forall short ps -> Forall short qs -> EncodeCompositeKeyTuple ps = EncodeCompositeKeyTuple qs -> ps = qs.
Proof.
  intros qs. rewrite !Encode_concat. revert qs.
  induction ps as [|p ps IH]; intros [|q qs] Hp Hq E; [done|discriminate (f_equal length E) || by (apply (f_equal length) in E; cbn in E; lia)..|].
  apply Forall_cons in Hp as [Hp Hps], Hq as [Hq Hqs]. cbn [map concat] in E. unfold encoded in E at 1 3. rewrite <- !app_assoc in E.
  apply app_inj_len in E as [El E]; [|by rewrite !length_be_bytes]. unfold short in Hp, Hq. apply be_bytes_inj in El; [|cbn; lia..].
  apply app_inj_len in E as [-> E]; [|lia]. f_equal. by apply IH.
Qed.

Lemma Encode_not_nil ps : ps <> [] -> EncodeCompositeKeyTuple ps <> [].
Proof. destruct ps as [|p ps]; [done|]. intros _ E. rewrite Encode_concat in E. apply (f_equal length) in E. cbn [map concat] in E. unfold encoded in E. rewrite !length_app, length_be_bytes in E. cbn in E. lia. Qed.

Lemma value_parts_spec f keys ps : value_parts f keys = Some ps <-> ps = map f keys /\ Forall (fun k => f k <> []) keys.
Proof.
  revert ps. induction keys as [|k keys IH]; intros ps; cbn [value_parts map].
  - split; [intros [= <-]; by split|]. by intros [-> _].
  - case_bool_decide as Ek; [split; [done|]; intros [_ H]; by apply Forall_cons in H as [? _]|]. destruct (value_parts f keys) as [qs|].
    + destruct (proj1 (IH qs) eq_refl) as [-> HF]. split; [intros [= <-]; by split; [|constructor]|]. by intros [-> _].
    + split; [done|]. intros [_ H]. apply Forall_cons in H as [_ H]. discriminate (proj2 (IH (map f keys)) (conj eq_refl H)).
Qed.

(** ** The definitions of a node's labels *)

Lemma label_tokens n : map (fun i => LabelTokenRawAt (P:=PropertySlice) (Z.of_nat i) n) (seq 0 (LabelTokenCount n)) = AllLabelTokens n.
Proof.
  unfold LabelTokenCount, AllLabelTokens. change (1 + length (n_extraLabels n))%nat with (S (length (n_extraLabels n))). cbn [seq map]. f_equal.
  rewrite <- seq_shift, map_map. apply list_eq. intros i. rewrite list_lookup_fmap. destruct (decide (i < length (n_extraLabels n))%nat) as [Hi|Hi].
  - rewrite lookup_seq_lt by lia. cbn [fmap option_fmap option_map]. unfold LabelTokenRawAt. destruct (Z.ltb_spec (Z.of_nat (S (0 + i))) 0); [lia|]. destruct (Z.eqb_spec (Z.of_nat (S (0 + i))) 0); [lia|].
    replace (Z.to_nat (Z.of_nat (S (0 + i)) - 1)) with i by lia. symmetry. by apply nth_lookup_Some_lt || (rewrite nth_lookup; destruct (lookup_lt_is_Some_2 _ _ Hi) as [x ->]).
  - rewrite lookup_seq_ge by lia. symmetry. apply lookup_ge_None. lia.
Qed.

Definition node_defs (defs : gmap Z (list (Z * bytes))) (n : Node PropertySlice) : list (Z * bytes) := concat (map (fun l => default [] (defs !! l)) (AllLabelTokens n)).

Lemma each_def_fold body l : forall s k, (fold_left (each_def body) l s).2 !! k = if bool_decide (k ∈ l /\ k ∉ s.1) then body <$> s.2 !! k else s.2 !! k.
Proof.
  induction l as [|d l IH]; intros [seen m] k; cbn [fold_left fst snd]; [rewrite bool_decide_eq_false_2; [done|]; intros [H _]; by apply not_elem_of_nil in H|].
  rewrite IH. unfold each_def. cbn [fst snd]. destruct (decide (d ∈ seen)) as [Hd|Hd].
  - rewrite (bool_decide_eq_true_2 (d ∈ seen)) by done. cbn [fst snd]. rewrite (bool_decide_ext (k ∈ l /\ k ∉ seen) (k ∈ d :: l /\ k ∉ seen)); [done|]. rewrite elem_of_cons. naive_solver.
  - rewrite (bool_decide_eq_false_2 (d ∈ seen)) by done. cbn [fst snd]. destruct (decide (k = d)) as [->|Hk].
    + rewrite bool_decide_eq_false_2 by set_solver. rewrite bool_decide_eq_true_2 by (split; [left|done]). destruct (m !! d) as [idx|] eqn:Em; [by rewrite lookup_insert_eq|by rewrite Em].
    + assert (Hm : match m !! d with Some idx => <[d := body idx]> m | None => m end !! k = m !! k) by (destruct (m !! d); [by rewrite lookup_insert_ne by done|done]).
      rewrite Hm, (bool_decide_ext (k ∈ l /\ k ∉ {[d]} ∪ seen) (k ∈ d :: l /\ k ∉ seen)); [done|]. rewrite elem_of_cons. set_solver.
Qed.

Lemma fold_concat {A B C} (g : A -> B -> A) (f : C -> list B) l : forall s, fold_left (fun s c => fold_left g (f c) s) l s = fold_left g (concat (map f l)) s.
Proof. induction l as [|c l IH]; intros s; [done|]. cbn [fold_left map concat]. by rewrite fold_left_app, IH. Qed.

Lemma for_node_defs_lookup body idxs defs n k :
  for_node_defs body idxs defs n !! k = if bool_decide (k ∈ node_defs defs n) then body <$> idxs !! k else idxs !! k.
Proof.
  unfold for_node_defs. rewrite (fold_concat (each_def body) (fun i => default [] (defs !! LabelTokenRawAt (Z.of_nat i) n))).
  rewrite <- (map_map (fun i => LabelTokenRawAt (Z.of_nat i) n) (fun l => default [] (defs !! l))), label_tokens. rewrite each_def_fold. cbn [fst snd]. fold (node_defs defs n).
  rewrite (bool_decide_ext (k ∈ node_defs defs n /\ k ∉ (∅ : gset (Z * bytes))) (k ∈ node_defs defs n)); [done|]. set_solver.
Qed.

(** ** The indexes of a store describe its nodes *)

Section Store.
Context (FormatFloat : Z -> Z -> bytes).

Notation store := (gmap Z (Node PropertySlice)).
Notation Indexes := (gmap (Z * bytes) CompositePropertyIndex).
Notation Defs := (gmap Z (list (Z * bytes))).
Implicit Types (E : store) (idxs : Indexes) (defs : Defs).

(** The nodes of a label with all of some properties, and their tuples. *)
Definition tuples E (label : Z) (names : list bytes) (id : Z) (vk : bytes) : Prop :=
  exists n, E !! id = Some n /\ label ∈ AllLabelTokens n /\ NodeCompositeValueKey FormatFloat names n = Some vk.

Definition comp_index_ok E (key : Z * bytes) (idx : CompositePropertyIndex) : Prop := ci_onDisk idx = true \/ ci_ok idx (tuples E key.1 (ci_Keys idx)).

(** The definitions are listed under their labels, and every index is defined and
    (in memory) describes the nodes. *)
Definition comp_ok (s : Indexes * Defs) E : Prop :=
  (forall l k, k ∈ default [] (s.2 !! l) -> k.1 = l) /\
  (forall k idx, s.1 !! k = Some idx -> k ∈ default [] (s.2 !! k.1) /\ k.2 = EncodeCompositeKeyTuple (ci_Keys idx) /\ ci_Keys idx <> [] /\ comp_index_ok E k idx).

Definition ids_positive E : Prop := forall id n, E !! id = Some n -> 0 < id.

Lemma tuples_positive E label names : ids_positive E -> positive (tuples E label names).
Proof. intros HE id vk (n & Hn & _). by apply (HE id n). Qed.

Lemma node_tuple_not_nil names n vk : names <> [] -> NodeCompositeValueKey FormatFloat names n = Some vk -> vk <> [].
Proof.
  intros Hne. unfold NodeCompositeValueKey. destruct (value_parts _ names) as [ps|] eqn:Ep; [|done]. intros [= <-]. apply value_parts_spec in Ep as [-> _]. apply Encode_not_nil. by destruct names.
Qed.

Lemma elem_of_node_defs (s : Indexes * Defs) E n k : comp_ok s E -> k ∈ node_defs s.2 n <-> k.1 ∈ AllLabelTokens n /\ k ∈ default [] (s.2 !! k.1).
Proof.
  intros [Hd _]. unfold node_defs. rewrite list_elem_of_In, in_concat. setoid_rewrite in_map_iff. setoid_rewrite <- list_elem_of_In. split.
  - intros (l & (t & <- & Ht) & Hk). pose proof (Hd t k Hk) as <-. done.
  - intros [Hl Hk]. eauto.
Qed.

(** No write changes what an index is over. *)
Definition ci_shape (ci : CompositePropertyIndex) : list bytes * bool := (ci_Keys ci, ci_onDisk ci).

Lemma settle_shape vk s ci : ci_shape (settle vk s ci) = ci_shape ci.
Proof. unfold settle. by destruct (IDPostings_Len (Some s)) as [|[|m]]. Qed.

Lemma purge_entry_shape id ci p : ci_shape (purge_entry id ci p) = ci_shape ci.
Proof. unfold purge_entry. destruct (IDPostings_remove id p.2) as [s []]; [apply settle_shape|done]. Qed.

Lemma purge_shape id ci : ci_shape (Composite_purge id ci) = ci_shape ci.
Proof.
  unfold Composite_purge. cbv zeta. match goal with |- ci_shape (ci_mark id (fold_left _ ?l ?c)) = _ => generalize l, (eq_refl : ci_shape c = ci_shape ci); generalize c end.
  intros c l. revert c. induction l as [|p l IH]; intros c Hc; [exact Hc|]. cbn [fold_left]. apply IH. by rewrite purge_entry_shape.
Qed.

Lemma AddKey_shape id vk ci : ci_shape (Composite_AddKey id vk ci) = ci_shape ci.
Proof. unfold Composite_AddKey. case_bool_decide; [done|]. cbv zeta. destruct (ci_many _ !! vk); [done|]. destruct (ci_one _ !! vk) as [c|]; [by destruct (negb (c =? id))|done]. Qed.

Lemma removeKey_shape id vk ci : ci_shape (Composite_removeKey id vk ci) = ci_shape ci.
Proof.
  unfold Composite_removeKey. case_bool_decide; [done|]. cbv zeta. destruct (ci_one _ !! vk) as [c|]; [by destruct (c =? id)|]. destruct (ci_many _ !! vk); [|done].
  destruct (IDPostings_remove id _) as [s' []]; [by rewrite settle_shape|done].
Qed.

(** A write through the definitions of a node's labels. *)
Lemma comp_write s E E' n body :
  comp_ok s E -> (forall idx, ci_shape (body idx) = ci_shape idx) ->
  (forall (k : Z * bytes) idx, ci_onDisk idx = false -> ci_Keys idx <> [] -> ci_ok idx (tuples E k.1 (ci_Keys idx)) ->
     if bool_decide (k.1 ∈ AllLabelTokens n) then ci_ok (body idx) (tuples E' k.1 (ci_Keys idx)) else ci_ok idx (tuples E' k.1 (ci_Keys idx))) ->
  comp_ok (for_node_defs body s.1 s.2 n, s.2) E'.
Proof.
  intros Hok Hshape Hbody. split; [apply Hok|]. cbn [fst snd]. intros k idx' Hl. rewrite for_node_defs_lookup in Hl.
  assert (exists idx, s.1 !! k = Some idx /\ idx' = if bool_decide (k.1 ∈ AllLabelTokens n) then body idx else idx) as (idx & Hi & ->).
  { destruct (s.1 !! k) as [idx|] eqn:Hi; [|by destruct (bool_decide (k ∈ node_defs s.2 n))]. exists idx. split; [done|].
    assert (Hm : k ∈ node_defs s.2 n <-> k.1 ∈ AllLabelTokens n) by (rewrite (elem_of_node_defs s E) by done; destruct (proj2 Hok k idx Hi); tauto).
    rewrite <- (bool_decide_ext _ _ Hm). by destruct (bool_decide (k ∈ node_defs s.2 n)); injection Hl as <-. }
  destruct (proj2 Hok k idx Hi) as (H1 & H2 & H3 & H4). set (b := bool_decide _).
  assert (Hsh : ci_shape (if b then body idx else idx) = ci_shape idx) by (by destruct b). injection Hsh as HK HD. rewrite HK. split; [done|]. split; [done|]. split; [done|].
  unfold comp_index_ok. rewrite HK, HD. destruct (ci_onDisk idx) eqn:Ed; [by left|right]. destruct H4 as [?|H4]; [congruence|]. specialize (Hbody k idx Ed H3 H4). fold b in Hbody. by destruct b.
Qed.

Lemma comp_add s E n id : comp_ok s E -> E !! id = None -> comp_ok (AddNodeToCompositeIndexes FormatFloat s.1 s.2 n id, s.2) (<[id := n]> E).
Proof.
  intros Hok Hid. apply (comp_write s E); [done|intros idx; destruct (ci_onDisk idx); [done|]; destruct (NodeCompositeValueKey _ _ _); [apply AddKey_shape|done]|].
  intros k idx -> Hne Hci. assert (Hins : forall x vk, tuples (<[id := n]> E) k.1 (ci_Keys idx) x vk <->
    (x = id /\ k.1 ∈ AllLabelTokens n /\ NodeCompositeValueKey FormatFloat (ci_Keys idx) n = Some vk) \/ tuples E k.1 (ci_Keys idx) x vk).
  { intros x vk. unfold tuples. destruct (decide (x = id)) as [->|Hx]; [rewrite lookup_insert_eq, Hid|rewrite lookup_insert_ne by done; naive_solver].
    split; [intros (m & [= <-] & H1 & H2); by left|]. intros [(_ & H1 & H2)|(m & ? & _)]; [by exists n|done]. }
  case_bool_decide as Hl; [destruct (NodeCompositeValueKey FormatFloat (ci_Keys idx) n) as [vk|] eqn:Ek|].
  - eapply ci_ext; [apply (Composite_AddKey_ok id vk idx _ Hci); by eapply node_tuple_not_nil|]. intros x b. rewrite Hins. naive_solver.
  - eapply ci_ext; [exact Hci|]. intros x b. rewrite Hins. naive_solver.
  - eapply ci_ext; [exact Hci|]. intros x b. rewrite Hins. naive_solver.
Qed.

Lemma comp_remove s E n id : comp_ok s E -> ids_positive E -> E !! id = Some n -> comp_ok (RemoveNodeFromCompositeIndexes FormatFloat s.1 s.2 n id, s.2) (delete id E).
Proof.
  intros Hok Hpos Hid. apply (comp_write s E); [done|intros idx; destruct (NodeCompositeValueKey _ _ _); [apply removeKey_shape|done]|].
  intros k idx _ Hne Hci. assert (Hdel : forall x vk, tuples (delete id E) k.1 (ci_Keys idx) x vk <-> tuples E k.1 (ci_Keys idx) x vk /\ x <> id).
  { intros x vk. unfold tuples. destruct (decide (x = id)) as [->|Hx]; [rewrite lookup_delete_eq; naive_solver|rewrite lookup_delete_ne by done; naive_solver]. }
  assert (Hmine : forall vk, tuples E k.1 (ci_Keys idx) id vk <-> k.1 ∈ AllLabelTokens n /\ NodeCompositeValueKey FormatFloat (ci_Keys idx) n = Some vk).
  { intros vk. unfold tuples. rewrite Hid. naive_solver. }
  case_bool_decide as Hl; [destruct (NodeCompositeValueKey FormatFloat (ci_Keys idx) n) as [vk|] eqn:Ek|].
  - eapply ci_ext; [apply (Composite_removeKey_ok id vk idx _ Hci); [by apply tuples_positive|by eapply node_tuple_not_nil]|].
    intros x b. rewrite Hdel. split; [intros [H1 H2]; split; [done|intros [-> _]; done]|]. intros [H1 H2]. split; [done|]. intros ->. apply Hmine in H1 as Hb. apply H2. naive_solver.
  - eapply ci_ext; [exact Hci|]. intros x b. rewrite Hdel. split; [tauto|]. intros H1. split; [done|]. intros ->. apply Hmine in H1 as [_ H1]. congruence.
  - eapply ci_ext; [exact Hci|]. intros x b. rewrite Hdel. split; [tauto|]. intros H1. split; [done|]. intros ->. by apply Hmine in H1 as [H1 _].
Qed.

Lemma comp_purge s E id : comp_ok s E -> ids_positive E -> comp_ok (PurgeNodeFromAllCompositeIndexes s.1 id, s.2) (delete id E).
Proof.
  intros [Hd Hok] Hpos. split; [done|]. cbn [fst snd]. intros k idx' Hl. unfold PurgeNodeFromAllCompositeIndexes in Hl. rewrite lookup_fmap in Hl.
  destruct (s.1 !! k) as [idx|] eqn:Hi; [|done]. injection Hl as <-. destruct (Hok k idx Hi) as (H1 & H2 & H3 & H4). assert (HK : ci_Keys (Composite_purge id idx) = ci_Keys idx) by exact (f_equal fst (purge_shape id idx)).
  assert (HD : ci_onDisk (Composite_purge id idx) = ci_onDisk idx) by exact (f_equal snd (purge_shape id idx)). rewrite HK.
  split; [done|]. split; [done|]. split; [done|]. unfold comp_index_ok. rewrite HK, HD. destruct H4 as [?|H4]; [by left|right].
  eapply ci_ext; [apply (Composite_purge_ok id idx _ H4); by apply tuples_positive|]. intros x vk. unfold tuples.
  destruct (decide (x = id)) as [->|Hx]; [rewrite lookup_delete_eq; naive_solver|rewrite lookup_delete_ne by done; naive_solver].
Qed.

Lemma elem_of_drop_first (key : Z * bytes) l k : k <> key -> k ∈ drop_first key l <-> k ∈ l.
Proof.
  intros Hne. induction l as [|d l IH]; [done|]. cbn [drop_first]. case_bool_decide as Ed; rewrite !elem_of_cons; [subst; naive_solver|by rewrite IH].
Qed.

Lemma drop_first_subset (key : Z * bytes) l k : k ∈ drop_first key l -> k ∈ l.
Proof. induction l as [|d l IH]; [done|]. cbn [drop_first]. case_bool_decide; rewrite !elem_of_cons; [by right|intros [->|Hk]; [by left|right; by apply IH]]. Qed.

Lemma unregister_defs (key : Z * bytes) (s : Indexes * Defs) (l : Z) : default [] ((UnregisterCompositeIndex key s).2 !! l) = if bool_decide (l = key.1) then drop_first key (default [] (s.2 !! l)) else default [] (s.2 !! l).
Proof.
  unfold UnregisterCompositeIndex. cbn [snd]. case_bool_decide as El; [subst l|]; destruct (drop_first key _) as [|d list] eqn:Ed.
  - by rewrite lookup_delete_eq.
  - by rewrite lookup_insert_eq.
  - by rewrite lookup_delete_ne.
  - by rewrite lookup_insert_ne.
Qed.

Lemma comp_register s E (key : Z * bytes) idx : comp_ok s E -> key.2 = EncodeCompositeKeyTuple (ci_Keys idx) -> ci_Keys idx <> [] -> comp_index_ok E key idx -> comp_ok (RegisterCompositeIndex key idx s) E.
Proof.
  intros [Hd Hok] Hk Hne Hi. unfold RegisterCompositeIndex. split; cbn [fst snd].
  - intros l k. destruct (decide (l = key.1)) as [->|Hl]; [rewrite lookup_insert_eq|rewrite lookup_insert_ne by done; apply Hd]. cbn [from_option id]. rewrite elem_of_app. intros [H|H]; [by apply Hd|]. by apply list_elem_of_singleton in H as ->.
  - intros k idx' Hl. destruct (decide (k = key)) as [->|Hkk].
    + rewrite lookup_insert_eq in Hl. injection Hl as <-. rewrite lookup_insert_eq. cbn [from_option id]. split; [apply elem_of_app; right; left|done].
    + rewrite lookup_insert_ne in Hl by done. destruct (Hok k idx' Hl) as (H1 & H2). split; [|done]. destruct (decide (k.1 = key.1)) as [El|El]; [|by rewrite lookup_insert_ne].
      rewrite El, lookup_insert_eq. cbn [from_option id]. apply elem_of_app. left. by rewrite <- El.
Qed.

Lemma comp_unregister s E (key : Z * bytes) : comp_ok s E -> comp_ok (UnregisterCompositeIndex key s) E.
Proof.
  intros [Hd Hok]. split.
  - intros l k. rewrite unregister_defs. case_bool_decide; [|apply Hd]. intros Hk. apply Hd. by apply drop_first_subset in Hk.
  - intros k idx Hl. cbn [UnregisterCompositeIndex fst] in Hl. apply lookup_delete_Some in Hl as [Hne Hl]. destruct (Hok k idx Hl) as [H1 H2]. split; [|done].
    rewrite unregister_defs. case_bool_decide; [|done]. by apply elem_of_drop_first.
Qed.
End Store.

(** The composite indexes of a store describe its nodes through every change: a node
    added to or removed from the indexes of its labels, a node purged from all of
    them when its row is lost, an index registered or dropped.  The inline single
    IDs and the posting lists of two or more are kept apart throughout. *)
Theorem composite_indexes_refine FormatFloat s E (Hok : comp_ok FormatFloat s E) (Hpos : ids_positive E) :
  (forall n id, E !! id = None -> comp_ok FormatFloat (AddNodeToCompositeIndexes FormatFloat s.1 s.2 n id, s.2) (<[id := n]> E)) /\
  (forall n id, E !! id = Some n -> comp_ok FormatFloat (RemoveNodeFromCompositeIndexes FormatFloat s.1 s.2 n id, s.2) (delete id E)) /\
  (forall id, comp_ok FormatFloat (PurgeNodeFromAllCompositeIndexes s.1 id, s.2) (delete id E)) /\
  (forall key idx, key.2 = EncodeCompositeKeyTuple (ci_Keys idx) -> ci_Keys idx <> [] -> comp_index_ok FormatFloat E key idx ->
     comp_ok FormatFloat (RegisterCompositeIndex key idx s) E) /\
  (forall key, comp_ok FormatFloat (UnregisterCompositeIndex key s) E).
Proof.
  split; [intros; by apply comp_add|]. split; [intros; by apply comp_remove|]. split; [intros; by apply comp_purge|].
  split; [intros; by apply comp_register|intros; by apply comp_unregister].
Qed.

(** ** Lookups *)

Lemma find_def_some defs idxs values idx : find_def defs idxs values = Some idx ->
  exists k, k ∈ defs /\ idxs !! k = Some idx /\ length (ci_Keys idx) = size values /\ forall x, x ∈ ci_Keys idx -> is_Some (values !! x).
Proof.
  induction defs as [|d defs IH]; [done|]. cbn [find_def]. destruct (idxs !! d) as [i|] eqn:Ei.
  2:{ intros (k & Hk & H)%IH. exists k. split; [by right|done]. }
  destruct (Nat.eqb_spec (length (ci_Keys i)) (size values)) as [Hl|Hl]; cbn [negb].
  2:{ intros (k & Hk & H)%IH. exists k. split; [by right|done]. }
  destruct (forallb _ (ci_Keys i)) eqn:Ef.
  - intros [= <-]. exists d. split; [left|]. split; [done|]. split; [done|]. intros x Hx. rewrite forallb_forall in Ef. apply (bool_decide_eq_true_1 (is_Some (values !! x))). apply Ef. by apply list_elem_of_In.
  - intros (k & Hk & H)%IH. exists k. split; [by right|done].
Qed.

Lemma find_def_none defs idxs values : find_def defs idxs values = None ->
  forall k idx, k ∈ defs -> idxs !! k = Some idx -> length (ci_Keys idx) = size values -> ~ forall x, x ∈ ci_Keys idx -> is_Some (values !! x).
Proof.
  induction defs as [|d defs IH]; [intros _ k idx Hk; by apply not_elem_of_nil in Hk|]. cbn [find_def]. intros Hf k idx Hk Hi Hl Hall. apply elem_of_cons in Hk as [->|Hk].
  - rewrite Hi, Hl, Nat.eqb_refl in Hf. cbn [negb] in Hf. rewrite (proj2 (forallb_forall _ _)) in Hf; [done|]. intros x Hx. apply bool_decide_eq_true_2, Hall. by apply list_elem_of_In.
  - assert (find_def defs idxs values = None) as Hf' by (destruct (idxs !! d) as [i|]; [destruct (negb _); [done|]; by destruct (forallb _ _)|done]). by apply (IH Hf' k idx).
Qed.

(** As many distinct names as values, all of them valued: the names are those of
    the values. *)
Lemma names_exact (names : list bytes) (values : gmap bytes value) : NoDup names -> length names = size values -> (forall x, x ∈ names -> is_Some (values !! x)) ->
  forall x, is_Some (values !! x) <-> x ∈ names.
Proof.
  intros Hnd Hl Hall x. rewrite <- elem_of_dom, <- (elem_of_list_to_set (C:=gset bytes)).
  assert (E : (list_to_set names : gset bytes) ≡ dom values); [|by rewrite E].
  apply set_subseteq_size_equiv; [intros y; rewrite elem_of_list_to_set, elem_of_dom; apply Hall|]. rewrite size_dom, size_list_to_set by done. lia.
Qed.

Lemma matches_spec FormatFloat n values : NodeMatchesAllProperties FormatFloat n values = true <->
  forall k, is_Some (values !! k) -> query_key FormatFloat values k <> [] /\ node_key FormatFloat n k = query_key FormatFloat values k.
Proof.
  unfold NodeMatchesAllProperties, query_key. rewrite forallb_forall. setoid_rewrite <- list_elem_of_In. split.
  - intros H k [v Hv]. rewrite Hv. specialize (H (k, v) ltac:(by apply elem_of_map_to_list)). cbn [fst snd] in H. repeat case_bool_decide; done.
  - intros H [k v] Hkv. apply elem_of_map_to_list in Hkv. destruct (H k (mk_is_Some _ _ Hkv)) as [H1 H2]. rewrite Hkv in H1, H2. cbn [fst snd]. rewrite H2. by repeat case_bool_decide.
Qed.

(** The keys of properties and of the query fit their length prefix. *)
Definition keys_short (FormatFloat : Z -> Z -> bytes) (E : gmap Z (Node PropertySlice)) (values : gmap bytes value) : Prop :=
  (forall (id : Z) n (k : bytes), E !! id = Some n -> is_Some (values !! k) -> short (node_key FormatFloat n k)) /\ forall k : bytes, is_Some (values !! k) -> short (query_key FormatFloat values k).

(** The definitions are listed under their labels, whatever their indexes hold. *)
Definition defs_ok (s : gmap (Z * bytes) CompositePropertyIndex * gmap Z (list (Z * bytes))) : Prop :=
  (forall l k, k ∈ default [] (s.2 !! l) -> k.1 = l) /\
  (forall k idx, s.1 !! k = Some idx -> k ∈ default [] (s.2 !! k.1) /\ k.2 = EncodeCompositeKeyTuple (ci_Keys idx) /\ ci_Keys idx <> []).

Lemma comp_ok_defs FormatFloat s E : comp_ok FormatFloat s E -> defs_ok s.
Proof. intros [H1 H2]. split; [done|]. intros k idx Hi. by destruct (H2 k idx Hi) as (? & ? & ? & _). Qed.

(** C26: A composite index answers what a scan of the label would.  Suppose the index
    found for a query's properties has distinct names, is kept in memory and describes
    the current nodes, which every write keeps and which an index under creation does
    not meet yet; other indexes may be in any state.  Then its list for the query's
    tuple holds exactly the label's nodes that match every value, and when the query
    has a value no index can hold, no node matches.  Where no index is found, none is
    registered for exactly the query's names.  The value keys of the nodes and of the
    query fit their 32-bit length prefix. *)
Theorem composite_lookup_exact (FormatFloat : Z -> Z -> bytes) (s : gmap (Z * bytes) CompositePropertyIndex * gmap Z (list (Z * bytes))) (E : gmap Z (Node PropertySlice)) (label : Z) (values : gmap bytes value)
  (Hok : defs_ok s) (Hshort : keys_short FormatFloat E values) (Hlabel : label <> 0) :
  match FindCompositeIndexForQuery s.1 s.2 label values with
  | Some idx => NoDup (ci_Keys idx) -> ci_onDisk idx = false -> comp_index_ok FormatFloat E (label, EncodeCompositeKeyTuple (ci_Keys idx)) idx ->
      match QueryCompositeValueKey FormatFloat (ci_Keys idx) values with
      | Some vk => list_ok (Composite_Postings vk idx) /\
          forall id, id ∈ ids_of_list (Composite_Postings vk idx) <->
            exists n, E !! id = Some n /\ HasLabelTokenRaw label n = true /\ NodeMatchesAllProperties FormatFloat n values = true
      | None => forall n, NodeMatchesAllProperties FormatFloat n values = false
      end
  | None => forall k idx, s.1 !! k = Some idx -> k.1 = label -> NoDup (ci_Keys idx) -> ~ (forall x, is_Some (values !! x) <-> x ∈ ci_Keys idx)
  end.
Proof.
  unfold FindCompositeIndexForQuery. destruct (find_def _ s.1 values) as [idx|] eqn:Ef.
  - intros Hnd Hram Hci. apply find_def_some in Ef as (k & Hk & Hi & Hlen & Hall). pose proof (proj1 Hok label k Hk) as Hkl. destruct (proj2 Hok k idx Hi) as (_ & Hk2 & Hne).
    replace (label, EncodeCompositeKeyTuple (ci_Keys idx)) with k in Hci by (destruct k; cbn in *; congruence).
    destruct Hci as [?|Hci]; [congruence|]. pose proof (names_exact (ci_Keys idx) values Hnd Hlen Hall) as Hnames.
    unfold QueryCompositeValueKey. destruct (value_parts (query_key FormatFloat values) (ci_Keys idx)) as [ps|] eqn:Ep.
    + apply value_parts_spec in Ep as [-> HF]. rewrite Forall_forall in HF.
      destruct (Composite_Postings_ok idx _ (EncodeCompositeKeyTuple (map (query_key FormatFloat values) (ci_Keys idx))) Hci) as [Hl Hp]; [apply Encode_not_nil; by destruct (ci_Keys idx)|].
      split; [done|]. intros id. rewrite Hp. unfold tuples. rewrite Hkl.
      assert (Hm : forall n, E !! id = Some n -> NodeCompositeValueKey FormatFloat (ci_Keys idx) n = Some (EncodeCompositeKeyTuple (map (query_key FormatFloat values) (ci_Keys idx))) <->
                     NodeMatchesAllProperties FormatFloat n values = true).
      { intros n Hn. rewrite matches_spec. setoid_rewrite Hnames. unfold NodeCompositeValueKey. destruct (value_parts (node_key FormatFloat n) (ci_Keys idx)) as [qs|] eqn:Eq.
        - apply value_parts_spec in Eq as [-> HG]. split.
          + intros [= E1]. apply Encode_inj in E1; [|apply Forall_map, Forall_forall; intros x Hx; apply (proj1 Hshort id n x Hn); by apply Hnames|apply Forall_map, Forall_forall; intros x Hx; apply (proj2 Hshort x); by apply Hnames].
            intros x Hx. split; [by apply HF|]. by apply map_ext_in_iff with (a := x) in E1; [|apply list_elem_of_In].
          + intros H. do 2 f_equal. apply map_ext_in. intros x Hx. by apply H, list_elem_of_In.
        - split; [done|]. intros H. assert (value_parts (node_key FormatFloat n) (ci_Keys idx) = Some (map (node_key FormatFloat n) (ci_Keys idx))); [|congruence].
          apply value_parts_spec. split; [done|]. apply Forall_forall. intros x Hx. destruct (H x Hx) as [H1 ->]. done. }
      split.
      * intros (n & Hn & Hlab & Hkey). exists n. split; [done|]. split; [by apply HasLabelTokenRaw_elem|by apply Hm].
      * intros (n & Hn & Hlab & Hkey). exists n. split; [done|]. split; [by apply HasLabelTokenRaw_elem in Hlab as [_ ?]|by apply Hm].
    + intros n. apply not_true_iff_false. rewrite matches_spec. setoid_rewrite Hnames. intros H.
      assert (value_parts (query_key FormatFloat values) (ci_Keys idx) = Some (map (query_key FormatFloat values) (ci_Keys idx))); [|congruence].
      apply value_parts_spec. split; [done|]. apply Forall_forall. intros x Hx. by apply H.
  - intros k idx Hi Hkl Hnd Hall. subst label. apply (find_def_none _ _ _ Ef k idx); [by apply (proj2 Hok k idx Hi)|done| |intros x; apply Hall].
    rewrite <- size_dom, <- (size_list_to_set (C:=gset bytes)) by done. f_equal. apply set_eq. intros x. rewrite elem_of_list_to_set, elem_of_dom. by rewrite Hall.
Qed.

(** Label 7 over city and age: two nodes share a tuple, a third has another age. *)
Definition demo_person (id age : Z) : Node PropertySlice :=
  mkNode PropertySlice (Alloc id) id [(bytes_of_string "age", VNum TInt64 age); (bytes_of_string "city", VString (bytes_of_string "Graz"))] [9] None None None 1 7 false false 0.

Definition demo_names : list bytes := [bytes_of_string "city"; bytes_of_string "age"].

Definition demo_key : Z * bytes := (7, EncodeCompositeKeyTuple demo_names).

Definition demo_write (s : gmap (Z * bytes) CompositePropertyIndex * gmap Z (list (Z * bytes))) (id age : Z) :=
  (AddNodeToCompositeIndexes demo_format s.1 s.2 (demo_person id age) id, s.2).

Definition demo_composite : gmap (Z * bytes) CompositePropertyIndex * gmap Z (list (Z * bytes)) :=
  demo_write (demo_write (demo_write (RegisterCompositeIndex demo_key (NewCompositePropertyIndex demo_names) (∅, ∅)) 1 30) 2 30) 3 31.

Definition demo_people : gmap Z (Node PropertySlice) := <[3 := demo_person 3 31]> (<[2 := demo_person 2 30]> (<[1 := demo_person 1 30]> ∅)).

Lemma empty_comp_ok FormatFloat : comp_ok FormatFloat (∅, ∅) ∅.
Proof.
  split; cbn [fst snd]; [|intros k idx Hk; rewrite lookup_empty in Hk; discriminate]. intros l k. rewrite lookup_empty. cbn [from_option id]. intros Hk. by apply not_elem_of_nil in Hk.
Qed.

Lemma demo_composite_ok : comp_ok demo_format demo_composite demo_people.
Proof.
  assert (H0 : comp_ok demo_format (RegisterCompositeIndex demo_key (NewCompositePropertyIndex demo_names) (∅, ∅)) ∅).
  { apply comp_register; [apply empty_comp_ok|done|done|]. right. intros vk. cbn [NewCompositePropertyIndex ci_one ci_many]. rewrite !lookup_empty. intros x (n & Hn & _). by rewrite lookup_empty in Hn. }
  pose proof (comp_add demo_format _ _ (demo_person 1 30) 1 H0 eq_refl) as H1. pose proof (comp_add demo_format _ _ (demo_person 2 30) 2 H1 eq_refl) as H2.
  exact (comp_add demo_format _ _ (demo_person 3 31) 3 H2 eq_refl).
Qed.

Lemma composite_indexes_refine_witness :
  comp_ok demo_format (PurgeNodeFromAllCompositeIndexes demo_composite.1 2, demo_composite.2) (delete 2 demo_people) /\
  (ci_one <$> PurgeNodeFromAllCompositeIndexes demo_composite.1 2 !! demo_key) <> (ci_one <$> demo_composite.1 !! demo_key).
Proof.
  split; [|intros E; vm_compute in E; discriminate].
  destruct (composite_indexes_refine demo_format demo_composite demo_people demo_composite_ok) as (_ & _ & Hp & _); [|exact (Hp 2)].
  intros id n H. unfold demo_people in H. repeat (apply lookup_insert_Some in H as [[<- _]|[_ H]]; [lia|]). by rewrite lookup_empty in H.
Defined.

Definition demo_query : gmap bytes value := <[bytes_of_string "age" := VNum TInt64 30]> (<[bytes_of_string "city" := VString (bytes_of_string "Graz")]> ∅).

Definition demo_found : CompositePropertyIndex := default (NewCompositePropertyIndex []) (FindCompositeIndexForQuery demo_composite.1 demo_composite.2 7 demo_query).

Lemma demo_keys_short : keys_short demo_format demo_people demo_query.
Proof.
  assert (Hdom : forall k : bytes, is_Some (demo_query !! k) -> k = bytes_of_string "age" \/ k = bytes_of_string "city").
  { intros k Hk. apply elem_of_dom in Hk. unfold demo_query in Hk. rewrite !dom_insert_L, dom_empty_L in Hk. set_solver. }
  split.
  - intros id n k Hn Hk. unfold demo_people in Hn.
    repeat (apply lookup_insert_Some in Hn as [[_ <-]|[_ Hn]]; [destruct (Hdom k Hk) as [->| ->]; vm_compute; reflexivity|]). by rewrite lookup_empty in Hn.
  - intros k Hk. destruct (Hdom k Hk) as [->| ->]; vm_compute; reflexivity.
Qed.

Lemma composite_lookup_exact_witness :
  ids_of_list (Composite_Postings (default [] (QueryCompositeValueKey demo_format (ci_Keys demo_found) demo_query)) demo_found) = [1; 2] /\
  match FindCompositeIndexForQuery demo_composite.1 demo_composite.2 7 demo_query with
  | Some idx => NoDup (ci_Keys idx) -> ci_onDisk idx = false -> comp_index_ok demo_format demo_people (7, EncodeCompositeKeyTuple (ci_Keys idx)) idx ->
      match QueryCompositeValueKey demo_format (ci_Keys idx) demo_query with
      | Some vk => list_ok (Composite_Postings vk idx) /\
          forall id, id ∈ ids_of_list (Composite_Postings vk idx) <->
            exists n, demo_people !! id = Some n /\ HasLabelTokenRaw 7 n = true /\ NodeMatchesAllProperties demo_format n demo_query = true
      | None => forall n, NodeMatchesAllProperties demo_format n demo_query = false
      end
  | None => forall k idx, demo_composite.1 !! k = Some idx -> k.1 = 7 -> NoDup (ci_Keys idx) -> ~ (forall x, is_Some (demo_query !! x) <-> x ∈ ci_Keys idx)
  end.
Proof.
  split; [vm_compute; reflexivity|].
  exact (composite_lookup_exact demo_format demo_composite demo_people 7 demo_query (comp_ok_defs _ _ _ demo_composite_ok) demo_keys_short ltac:(lia)).
Defined.

(** The in-memory store's door for a query by several properties
    (NodesByLabelAndProperties) asks the found index without looking at [ci_Mutated]:
    right after an index over existing nodes is registered it lists none of them. *)
Theorem composite_mid_creation :
  let created := mkCI demo_names ∅ ∅ (Some ∅) false in
  let s := RegisterCompositeIndex demo_key created (∅, ∅) in
  FindCompositeIndexForQuery s.1 s.2 7 demo_query = Some created /\
  (fun vk => ids_of_list (Composite_Postings vk created)) <$> QueryCompositeValueKey demo_format demo_names demo_query = Some [] /\
  NodeMatchesAllProperties demo_format (demo_person 1 30) demo_query = true.
Proof. vm_compute. done. Qed.
