(* ===== verification/OrderedMerge.v ===== *)
(** * Merging the ordered streams of a store's parts (internal/index/ordered_merge.go)

    A composite store asks each part for its rows in an index's order and merges
    the streams.  The theorem shows that the merge hands out every row once, each
    part's in its order, rows that lost their key next to the row before them, that
    it is the stable sort of all rows when all have keys and every part is in order,
    and that it is cut only where the reader stops or a part fails, whose failure is
    not lost. *)

From stdpp Require Import gmap.
From S2P Require Import Prelude Bytes Props Rows ValueKeys SortedChunks PropertyIndex OrderedPages.

(** ** The merge *)

(** A part's rows, in order, and the error it returns once done. *)
Record OrderedPart {R Er : Type} := mkPart { part_rows : list R; part_err : option Er }.
Arguments OrderedPart : clear implicits.

Section Merge.
Context {R Er S : Type} (less : R -> R -> bool) (fn : S -> R -> S * bool).
Notation part := (OrderedPart R Er).

(** The head with the least row, the first among equals; a part without rows is
    not live. *)
Fixpoint best_head (heads : list part) (i : nat) (best : option (nat * R)) : option (nat * R) :=
  match heads with
  | [] => best
  | h :: heads' =>
      best_head heads' (i + 1)
        (match part_rows h, best with
         | [], _ => best
         | r :: _, None => Some (i, r)
         | r :: _, Some (_, b) => if less r b then Some (i, r) else best
         end)
  end.

(** The first pull of every part: a part that fails before its first row. *)
Fixpoint open_parts (parts : list part) : option Er :=
  match parts with
  | [] => None
  | p :: parts' => match part_rows p, part_err p with [], Some e => Some e | _, _ => open_parts parts' end
  end.

Definition advance (h : part) : part := mkPart R Er (tail (part_rows h)) (part_err h).

(** A round takes a row: the number of rows and one more are rounds enough. *)
Fixpoint merge_loop (fuel : nat) (heads : list part) (s : S) : S * option Er :=
  match fuel with
  | O => (s, None)
  | Datatypes.S fuel' =>
      match best_head heads 0 None with
      | None => (s, None)
      | Some (i, row) =>
          let '(s, on) := fn s row in
          if negb on then (s, None)
          else match heads !! i with
               | None => (s, None)
               | Some h =>
                   match part_rows (advance h), part_err h with
                   | [], Some e => (s, Some e)
                   | _, _ => merge_loop fuel' (<[i := advance h]> heads) s
                   end
               end
      end
  end.

Definition mergeOrdered (parts : list part) (s : S) : S * option Er :=
  match open_parts parts with
  | Some e => (s, Some e)
  | None => merge_loop (length (concat (map part_rows parts)) + 1) parts s
  end.
End Merge.

(** ** Keyed rows *)

Record keyed {R K : Type} := mkKeyed { k_row : R; k_key : K; k_lead : bool; k_id : Z }.
Arguments keyed : clear implicits.

Section Keyed.
Context {R K Er S : Type} `{!KeyOrder K} (zero : K) (keyOf : R -> option K) (id : R -> Z).

(** [cmp.Compare]; a sort key is never NaN. *)
Definition key_compare (a b : K) : comparison := if kltb a b then Lt else if kltb b a then Gt else Eq.

(** A row without a key now keeps its part's previous key. *)
Fixpoint key_rows (last : K) (lead : bool) (rows : list R) : list (keyed R K) :=
  match rows with
  | [] => []
  | r :: rows' =>
      let '(last, lead) := match keyOf r with Some k => (k, false) | None => (last, lead) end in
      mkKeyed R K r last lead (id r) :: key_rows last lead rows'
  end.

Definition keyed_less (desc : bool) (a b : keyed R K) : bool :=
  if negb (Bool.eqb (k_lead a) (k_lead b)) then k_lead a
  else match key_compare (k_key a) (k_key b) with
       | Eq => k_id a <? k_id b
       | c => negb (Bool.eqb (match c with Lt => true | _ => false end) desc)
       end.

Definition mergeKeyed (parts : list (OrderedPart R Er)) (desc : bool) (fn : S -> R -> S * bool) (s : S) : S * option Er :=
  mergeOrdered (keyed_less desc) (fun s k => fn s (k_row k)) (map (fun p => mkPart _ _ (key_rows zero true (part_rows p)) (part_err p)) parts) s.
End Keyed.

(** ** The merges of a composite store *)

Section Views.
Context (FormatFloat : Z -> Z -> bytes) (ParseFloat : bytes -> option Z) {R Er S : Type}.

Definition MergeNumericOrdered (parts : list (OrderedPart R Er)) (key : bytes) (getValue : R -> bytes -> option value) (id : R -> Z) (desc : bool) (fn : S -> R -> S * bool) (s : S) : S * option Er :=
  mergeKeyed 0 (fun r => match getValue r key with Some v => numericSortKey ParseFloat (IndexablePropertyValueKey FormatFloat v) | None => None end) id parts desc fn s.

Definition MergeStringOrdered (parts : list (OrderedPart R Er)) (key : bytes) (getValue : R -> bytes -> option value) (id : R -> Z) (desc : bool) (fn : S -> R -> S * bool) (s : S) : S * option Er :=
  mergeKeyed [] (fun r => match getValue r key with Some v => stringSortKey (IndexablePropertyValueKey FormatFloat v) | None => None end) id parts desc fn s.
End Views.

Definition SliceOrderedPart {R Er} (rows : list R) : OrderedPart R Er := mkPart R Er rows None.

(** [None]: not exact. *)
Fixpoint SumRangeCounts (counts : list Z) (exact : list bool) : option Z :=
  match counts, exact with
  | [], _ => Some 0
  | n :: counts', true :: exact' => (fun total => n + total) <$> SumRangeCounts counts' exact'
  | _, _ => None
  end.

(** ** The merge is a sort *)

Lemma insert_front {A} (lt : A -> A -> bool) pre b rest `{!StrictWeak lt} :
  Forall (fun x => lt b x = true) pre -> Forall (fun x => lt x b = false) rest -> sort_by lt (pre ++ b :: rest) = b :: sort_by lt (pre ++ rest).
Proof.
  intros Hpre Hrest. induction pre as [|x pre IH]; cbn [app sort_by].
  - apply insert_by_le. rewrite Forall_forall in Hrest |- *. intros y Hy. apply Hrest. by rewrite (sort_by_perm lt) in Hy.
  - apply Forall_cons in Hpre as [Hx Hpre]. rewrite IH by done. cbn [insert_by]. by rewrite Hx.
Qed.

(** All elements of the lists, each list's in its order. *)
Inductive interleaved {A} : list (list A) -> list A -> Prop :=
  | il_done ls : Forall (fun l => l = []) ls -> interleaved ls []
  | il_take i x l ls out : ls !! i = Some (x :: l) -> interleaved (<[i := l]> ls) out -> interleaved ls (x :: out).

Lemma interleaved_map {A B} (f : A -> B) ls out : interleaved ls out -> interleaved (map (map f) ls) (map f out).
Proof.
  induction 1 as [ls Hl|i x l ls out Hi _ IH]; [apply il_done, Forall_map; eapply Forall_impl; [exact Hl|]; cbn; by intros l ->|].
  cbn [map]. apply (il_take i (f x) (map f l)); [rewrite list_lookup_fmap, Hi; done|].
  replace (<[i := map f l]> (map (map f) ls)) with (map (map f) (<[i := l]> ls)) by exact (list_fmap_insert (map f) ls i l). done.
Qed.

Section MergeSort.
Context {R Er S : Type} (less : R -> R -> bool) `{!StrictWeak less} (fn : S -> R -> S * bool).
Notation part := (OrderedPart R Er).
Implicit Types (heads parts : list part).

Definition all_rows heads : list R := concat (map part_rows heads).

Definition parts_ordered heads : Prop := Forall (fun h => ordered_by less (part_rows h)) heads.

(** The chosen head is below the heads before it and not above those after it. *)
Definition is_best heads (i : nat) (row : R) : Prop :=
  exists pre h post rest, heads = pre ++ h :: post /\ i = length pre /\ part_rows h = row :: rest /\
    Forall (fun g => forall r, head (part_rows g) = Some r -> less row r = true) pre /\
    Forall (fun g => forall r, head (part_rows g) = Some r -> less r row = false) post.

Lemma best_head_spec heads : forall done_ best, 
  match best with
  | None => Forall (fun h => part_rows h = []) done_
  | Some (i, row) => is_best done_ i row
  end ->
  match best_head less heads (length done_) best with
  | None => Forall (fun h => part_rows h = []) (done_ ++ heads)
  | Some (i, row) => is_best (done_ ++ heads) i row
  end.
Proof.
  induction heads as [|h heads IH]; intros done_ best Hb; cbn [best_head]; [by rewrite app_nil_r|].
  replace (length done_ + 1)%nat with (length (done_ ++ [h])) by (rewrite length_app; done).
  assert (E : done_ ++ h :: heads = (done_ ++ [h]) ++ heads) by by rewrite <- app_assoc. rewrite E. apply IH.
  destruct (part_rows h) as [|r rest] eqn:Er0.
  - destruct best as [[i row]|].
    + destruct Hb as (pre & g & post & rest & -> & -> & Hg & Hpre & Hpost). exists pre, g, (post ++ [h]), rest. rewrite <- app_assoc. split; [done|]. split; [done|]. split; [done|]. split; [done|].
      apply Forall_app. split; [done|]. constructor; [|constructor]. by rewrite Er0.
    + apply Forall_app. split; [done|]. by constructor.
  - destruct best as [[i row]|].
    + destruct Hb as (pre & g & post & rest' & -> & -> & Hg & Hpre & Hpost). destruct (less r row) eqn:El.
      * exists (pre ++ g :: post), h, [], rest. split; [done|]. split; [done|]. split; [done|]. split; [|constructor].
        apply Forall_app. split; [|constructor; [|]].
        -- eapply Forall_impl; [exact Hpre|]. cbn. intros x Hx y Hy. eapply sw_trans; [exact El|by apply Hx].
        -- rewrite Hg. by intros y [= <-].
        -- eapply Forall_impl; [exact Hpost|]. cbn. intros x Hx y Hy. destruct (sw_incomp _ _ y El) as [Hc|Hc]; [|done]. rewrite (Hx y Hy) in Hc. done.
      * exists pre, g, (post ++ [h]), rest'. rewrite <- app_assoc. split; [done|]. split; [done|]. split; [done|]. split; [done|].
        apply Forall_app. split; [done|]. constructor; [|constructor]. rewrite Er0. by intros y [= <-].
    + exists done_, h, [], rest. split; [done|]. split; [done|]. split; [done|]. split; [|constructor]. eapply Forall_impl; [exact Hb|]. cbn. by intros g ->.
Qed.

Lemma ordered_head (l : list R) (P : R -> Prop) : ordered_by less l -> (forall x y, P x -> less y x = false -> P y) -> (forall r, head l = Some r -> P r) -> Forall P l.
Proof.
  intros Ho HP Hh. destruct l as [|x l]; [constructor|]. specialize (Hh x eq_refl). apply StronglySorted_inv in Ho as [_ Hf]. constructor; [done|].
  eapply Forall_impl; [exact Hf|]. cbn. intros y Hy. by apply (HP x y).
Qed.

(** Taking the best head takes the first row of the sort. *)
Lemma best_sort heads i row : parts_ordered heads -> is_best heads i row ->
  exists h, heads !! i = Some h /\ (exists rest, part_rows h = row :: rest) /\ sort_by less (all_rows heads) = row :: sort_by less (all_rows (<[i := advance h]> heads)).
Proof.
  intros Ho (pre & h & post & rest & -> & -> & Hh & Hpre & Hpost). exists h. split; [by apply list_lookup_middle|]. split; [by exists rest|].
  rewrite list_insert_middle. unfold all_rows. rewrite !map_app, !concat_app. cbn [map concat]. unfold advance at 1. cbn [part_rows]. rewrite Hh. cbn [tail app].
  unfold parts_ordered in Ho. rewrite Forall_app, Forall_cons in Ho. destruct Ho as (Ho1 & Hoh & Ho2).
  assert (Hcat : forall (P : R -> Prop) (gs : list part), Forall (fun g => Forall P (part_rows g)) gs -> Forall P (concat (map part_rows gs))) by (intros P gs HF; apply Forall_concat, Forall_map, HF).
  apply insert_front; [done| |].
  - apply Hcat. rewrite Forall_forall in Ho1, Hpre |- *. intros g Hg. apply ordered_head; [by apply Ho1|..|by apply Hpre].
    intros x y Hx Hy. destruct (sw_incomp _ _ y Hx) as [Hc|Hc]; [congruence|done].
  - apply Forall_app. split; [rewrite Hh in Hoh; by apply StronglySorted_inv in Hoh as [_ Hf]|].
    apply Hcat. rewrite Forall_forall in Ho2, Hpost |- *. intros g Hg. apply ordered_head; [by apply Ho2|..|by apply Hpost].
    intros x y Hx Hy. by apply (sw_le_trans less row x y).
Qed.

(** A failure is not lost: without rows left, a part has no error. *)
Definition no_late_error heads : Prop := Forall (fun h => part_rows h = [] -> part_err h = None) heads.

Lemma advance_ordered heads i h : parts_ordered heads -> heads !! i = Some h -> parts_ordered (<[i := advance h]> heads).
Proof.
  intros Ho Hh. unfold parts_ordered in *. apply Forall_insert; [done|]. rewrite Forall_forall in Ho. specialize (Ho h (list_elem_of_lookup_2 _ _ _ Hh)).
  cbn [advance part_rows]. destruct (part_rows h); [done|]. by apply StronglySorted_inv in Ho as [? _].
Qed.

Lemma all_rows_advance heads i h row rest : heads !! i = Some h -> part_rows h = row :: rest -> length (all_rows heads) = Datatypes.S (length (all_rows (<[i := advance h]> heads))).
Proof.
  intros Hh Hr. apply list_elem_of_split_length in Hh as (pre & post & -> & ->). rewrite list_insert_middle. unfold all_rows. rewrite !map_app, !concat_app, !length_app. cbn [map concat advance part_rows].
  rewrite !length_app, Hr. cbn [length tail]. lia.
Qed.

(** The order in which the rounds take the rows, as if the reader never stopped and
    no part failed. *)
Fixpoint merge_order (fuel : nat) heads : list R :=
  match fuel with
  | O => []
  | Datatypes.S fuel' =>
      match best_head less heads 0 None with
      | None => []
      | Some (i, row) => match heads !! i with None => [] | Some h => row :: merge_order fuel' (<[i := advance h]> heads) end
      end
  end.

(** What a walk over [out], the rows of [parts] in some order, answers: a first
    stretch of it, which ends where the reader stops, after the last row of a part
    that failed, or with all of [out] when no part failed. *)
Definition walked_answer (out : list R) parts (s : S) (answer : S * option Er) : Prop :=
  exists n, answer.1 = fst (walk fn s (take n out)) /\
    match answer.2 with
    | Some e => snd (walk fn s (take n out)) = true /\ exists p, p ∈ parts /\ part_err p = Some e /\ forall r, r ∈ part_rows p -> r ∈ take n out
    | None => snd (walk fn s (take n out)) = false \/ (take n out = out /\ Forall (fun p => part_err p = None) parts)
    end.

Lemma no_best heads : best_head less heads 0 None = None -> Forall (fun h => part_rows h = []) heads.
Proof. intros E. pose proof (best_head_spec heads [] None ltac:(constructor)) as Hb. cbn [app length] in Hb. by rewrite E in Hb. Qed.

Lemma best_found heads i row : best_head less heads 0 None = Some (i, row) -> is_best heads i row.
Proof. intros E. pose proof (best_head_spec heads [] None ltac:(constructor)) as Hb. cbn [app length] in Hb. by rewrite E in Hb. Qed.

Lemma best_lookup heads i row : is_best heads i row -> exists h rest, heads !! i = Some h /\ part_rows h = row :: rest.
Proof. intros (pre & h & post & rest & -> & -> & Hh & _). exists h, rest. split; [by apply list_lookup_middle|done]. Qed.

Lemma empty_rows heads : Forall (fun h => part_rows h = []) heads -> all_rows heads = [].
Proof. unfold all_rows. induction 1 as [|h l Hh _ IH]; [done|]. cbn [map concat]. by rewrite Hh, IH. Qed.

Lemma merge_order_elem fuel : forall heads r, r ∈ merge_order fuel heads -> exists g, g ∈ heads /\ r ∈ part_rows g.
Proof.
  induction fuel as [|fuel IH]; intros heads r Hin; cbn [merge_order] in Hin; [by apply not_elem_of_nil in Hin|].
  destruct (best_head less heads 0 None) as [[i row]|] eqn:Eb; [|by apply not_elem_of_nil in Hin].
  destruct (best_lookup heads i row (best_found _ _ _ Eb)) as (h & rest & Hh & Hr). rewrite Hh in Hin. pose proof (list_elem_of_lookup_2 _ _ _ Hh) as Hel.
  apply elem_of_cons in Hin as [->|Hin]; [exists h; split; [done|]; rewrite Hr; by left|]. apply IH in Hin as (g & Hg & Hx). apply list_elem_of_lookup in Hg as [j Hj].
  destruct (decide (j = i)) as [->|Hne].
  - rewrite list_lookup_insert_eq in Hj by by eapply lookup_lt_Some. injection Hj as <-. exists h. split; [done|]. cbn [advance part_rows] in Hx. rewrite Hr in *. by right.
  - rewrite list_lookup_insert_ne in Hj by done. exists g. split; [by eapply list_elem_of_lookup_2|done].
Qed.

(** One round in front of the answer of the rest. *)
Lemma answer_step heads i h row rest out s answer : heads !! i = Some h -> part_rows h = row :: rest -> snd (fn s row) = true ->
  walked_answer out (<[i := advance h]> heads) (fst (fn s row)) answer -> walked_answer (row :: out) heads s answer.
Proof.
  intros Hh Hr Hon (n & H1 & H2). exists (Datatypes.S n). cbn [take walk]. destruct (fn s row) as [s' on]. cbn [fst snd] in *. subst on.
  split; [done|]. destruct answer as [sa [e|]]; cbn [fst snd] in *.
  - destruct H2 as (Hw & p & Hp & He & Hin). split; [done|]. apply list_elem_of_lookup in Hp as [j Hj]. destruct (decide (j = i)) as [->|Hne].
    + rewrite list_lookup_insert_eq in Hj by by eapply lookup_lt_Some. injection Hj as <-. exists h. split; [by eapply list_elem_of_lookup_2|]. split; [done|].
      intros r. rewrite Hr. intros [->|Hr']%elem_of_cons; [left|]. right. apply Hin. cbn [advance part_rows]. by rewrite Hr.
    + rewrite list_lookup_insert_ne in Hj by done. exists p. split; [by eapply list_elem_of_lookup_2|]. split; [done|]. intros r Hr'. right. by apply Hin.
  - destruct H2 as [Hw|[Ht He]]; [by left|right]. split; [by rewrite Ht|]. rewrite Forall_lookup in He |- *. intros j p Hj. destruct (decide (j = i)) as [->|Hne].
    + rewrite Hh in Hj. injection Hj as <-. apply (He i (advance h)). apply list_lookup_insert_eq. by eapply lookup_lt_Some.
    + apply (He j p). by rewrite list_lookup_insert_ne.
Qed.

Lemma merge_loop_walks fuel : forall heads s, no_late_error heads -> (length (all_rows heads) < fuel)%nat -> walked_answer (merge_order fuel heads) heads s (merge_loop less fn fuel heads s).
Proof.
  induction fuel as [|fuel IH]; intros heads s Hne Hf; [lia|]. cbn [merge_loop merge_order].
  destruct (best_head less heads 0 None) as [[i row]|] eqn:Eb.
  2:{ apply no_best in Eb. exists 0%nat. split; [done|]. right. split; [done|]. unfold no_late_error in Hne. rewrite Forall_forall in Eb, Hne |- *. intros h Hh. by apply Hne, Eb. }
  destruct (best_lookup heads i row (best_found _ _ _ Eb)) as (h & rest & Hh & Hr). rewrite Hh. destruct (fn s row) as [s' on] eqn:Efn. destruct on; cbn [negb].
  2:{ exists 1%nat. cbn [take walk fst snd]. rewrite Efn. split; [done|]. by left. }
  assert (Hstep : forall answer, walked_answer (merge_order fuel (<[i := advance h]> heads)) (<[i := advance h]> heads) s' answer ->
    walked_answer (row :: merge_order fuel (<[i := advance h]> heads)) heads s answer).
  { intros answer Ha. apply (answer_step heads i h row rest); [done|done|by rewrite Efn|by rewrite Efn]. }
  assert (Hrec : (part_rows (advance h) = [] -> part_err h = None) -> walked_answer (row :: merge_order fuel (<[i := advance h]> heads)) heads s (merge_loop less fn fuel (<[i := advance h]> heads) s')).
  { intros Hk. apply Hstep, IH; [by apply Forall_insert|]. rewrite (all_rows_advance heads i h row rest Hh Hr) in Hf. lia. }
  destruct (part_rows (advance h)) as [|r' rest'] eqn:Ea; [destruct (part_err h) as [e|] eqn:Ee|]; [|by apply Hrec..].
  apply Hstep. exists 0%nat. cbn [fst snd take walk]. split; [done|]. split; [done|]. exists (advance h). split; [apply list_elem_of_insert; by eapply lookup_lt_Some|]. split; [done|].
  rewrite Ea. intros r Hr'. by apply not_elem_of_nil in Hr'.
Qed.

(** Heads in order: the rounds take the rows as sorted. *)
Lemma merge_order_sort fuel : forall heads, parts_ordered heads -> (length (all_rows heads) <= fuel)%nat -> merge_order fuel heads = sort_by less (all_rows heads).
Proof.
  induction fuel as [|fuel IH]; intros heads Ho Hf; [destruct (all_rows heads); [done|cbn in Hf; lia]|]. cbn [merge_order].
  destruct (best_head less heads 0 None) as [[i row]|] eqn:Eb; [|by rewrite (empty_rows _ (no_best _ Eb))].
  destruct (best_sort heads i row Ho (best_found _ _ _ Eb)) as (h & Hh & [rest Hr] & ->). rewrite Hh. f_equal. apply IH; [by apply advance_ordered|].
  rewrite (all_rows_advance heads i h row rest Hh Hr) in Hf. lia.
Qed.

(** Any heads: every row of every part once, each part's in its order. *)
Lemma merge_order_interleaved fuel : forall heads, (length (all_rows heads) <= fuel)%nat -> interleaved (map part_rows heads) (merge_order fuel heads).
Proof.
  assert (Hnone : forall heads, Forall (fun h => part_rows h = []) heads -> interleaved (map part_rows heads) []) by (intros heads Hh; apply il_done, Forall_map; done).
  induction fuel as [|fuel IH]; intros heads Hf; cbn [merge_order].
  - apply Hnone, Forall_forall. intros h [i Hh]%list_elem_of_lookup. destruct (part_rows h) as [|r rest] eqn:Er0; [done|]. rewrite (all_rows_advance heads i h r rest Hh Er0) in Hf. lia.
  - destruct (best_head less heads 0 None) as [[i row]|] eqn:Eb; [|by apply Hnone, no_best].
    destruct (best_lookup heads i row (best_found _ _ _ Eb)) as (h & rest & Hh & Hr). rewrite Hh.
    apply (il_take i row rest); [by rewrite list_lookup_fmap, Hh; cbn; rewrite Hr|].
    replace (<[i := rest]> (map part_rows heads)) with (map part_rows (<[i := advance h]> heads)) by (rewrite (list_fmap_insert part_rows heads i (advance h) : map part_rows _ = _); cbn [advance part_rows]; by rewrite Hr).
    apply IH. rewrite (all_rows_advance heads i h row rest Hh Hr) in Hf. lia.
Qed.

(** Any order that the merge's order refines: parts in it give rows in it. *)
Lemma merge_order_coarse (coarse : R -> R -> bool) `{!StrictWeak coarse} fuel : (forall a b, coarse a b = true -> less a b = true) ->
  forall heads, Forall (fun h => ordered_by coarse (part_rows h)) heads -> ordered_by coarse (merge_order fuel heads).
Proof.
  intros Hc. induction fuel as [|fuel IH]; intros heads Ho; cbn [merge_order]; [constructor|].
  destruct (best_head less heads 0 None) as [[i row]|] eqn:Eb; [|constructor]. pose proof (best_found _ _ _ Eb) as Hbest.
  destruct (best_lookup heads i row Hbest) as (h & rest & Hh & Hr). rewrite Hh.
  assert (Ho' : Forall (fun g => ordered_by coarse (part_rows g)) (<[i := advance h]> heads)).
  { apply Forall_insert; [done|]. rewrite Forall_forall in Ho. specialize (Ho h (list_elem_of_lookup_2 _ _ _ Hh)). cbn [advance part_rows]. rewrite Hr in Ho |- *. by apply StronglySorted_inv in Ho as [? _]. }
  constructor; [by apply IH|]. apply Forall_forall. intros r Hin.
  assert (Hrest : forall g x, g ∈ heads -> x ∈ part_rows g -> coarse x row = false).
  - intros g x Hg Hx. destruct (part_rows g) as [|y l] eqn:Eg; [by apply not_elem_of_nil in Hx|].
    assert (Hy : coarse y row = false).
    { destruct Hbest as (pre & h' & post & rest' & -> & -> & Hh' & Hpre & Hpost). destruct (coarse y row) eqn:E; [|done]. apply elem_of_app in Hg as [Hg|[->|Hg]%elem_of_cons].
      - rewrite Forall_forall in Hpre. specialize (Hpre g Hg y). rewrite Eg in Hpre. pose proof (sw_asym less _ _ (Hpre eq_refl)). rewrite (Hc _ _ E) in *. done.
      - rewrite Hh' in Eg. injection Eg as -> _. by rewrite sw_irrefl in E.
      - rewrite Forall_forall in Hpost. specialize (Hpost g Hg y). rewrite Eg in Hpost. rewrite (Hc _ _ E) in Hpost. by specialize (Hpost eq_refl). }
    rewrite Forall_forall in Ho. specialize (Ho g Hg). rewrite Eg in Ho. apply StronglySorted_inv in Ho as [_ Hf]. apply elem_of_cons in Hx as [->|Hx]; [done|].
    rewrite Forall_forall in Hf. by apply (sw_le_trans coarse row y x); [|apply Hf].
  - destruct (merge_order_elem fuel (<[i := advance h]> heads) r Hin) as (g & Hg & Hx). apply list_elem_of_lookup in Hg as [j Hj]. destruct (decide (j = i)) as [->|Hne].
    + rewrite list_lookup_insert_eq in Hj by by eapply lookup_lt_Some. injection Hj as <-. apply (Hrest h r); [by eapply list_elem_of_lookup_2|]. cbn [advance part_rows] in Hx. rewrite Hr in *. by right.
    + rewrite list_lookup_insert_ne in Hj by done. apply (Hrest g r); [by eapply list_elem_of_lookup_2|done].
Qed.

Lemma open_parts_none parts : open_parts parts = None -> no_late_error parts.
Proof.
  induction parts as [|p parts IH]; [constructor|]. cbn [open_parts]. intros H. destruct (part_rows p) eqn:Er0; [destruct (part_err p) eqn:Ee; [done|]|]; (constructor; [|by apply IH]); [done|]. by rewrite Er0.
Qed.

Lemma open_parts_some parts e : open_parts parts = Some e -> exists p, p ∈ parts /\ part_err p = Some e /\ part_rows p = [].
Proof.
  induction parts as [|p parts IH]; [done|]. cbn [open_parts].
  destruct (part_rows p) eqn:Er0; [destruct (part_err p) eqn:Ee|]; [intros [= <-]; exists p; split; [left|done]|..]; intros (q & Hq & H)%IH; exists q; (split; [by right|done]).
Qed.

Lemma merge_answer parts s : walked_answer (merge_order (length (all_rows parts) + 1) parts) parts s (mergeOrdered less fn parts s).
Proof.
  unfold mergeOrdered. destruct (open_parts parts) as [e|] eqn:Eo.
  - destruct (open_parts_some _ _ Eo) as (p & Hp & He & Hr). exists 0%nat. cbn [fst snd take walk]. split; [done|]. split; [done|]. exists p. split; [done|]. split; [done|].
    rewrite Hr. intros r Hr'. by apply not_elem_of_nil in Hr'.
  - apply merge_loop_walks; [by apply open_parts_none|]. unfold all_rows. lia.
Qed.
End MergeSort.

(** ** Lexicographic orders *)

Definition lex {A} (lt1 lt2 : A -> A -> bool) (a b : A) : bool := lt1 a b || (negb (lt1 b a) && lt2 a b).

#[export] Instance lex_sw {A} (lt1 lt2 : A -> A -> bool) `{!StrictWeak lt1, !StrictWeak lt2} : StrictWeak (lex lt1 lt2).
Proof.
  assert (Hlex : forall a b, lex lt1 lt2 a b = true <-> lt1 a b = true \/ (lt1 b a = false /\ lt2 a b = true)).
  { intros a b. unfold lex. destruct (lt1 a b), (lt1 b a); cbn; naive_solver. }
  split.
  - intros x. unfold lex. by rewrite !sw_irrefl, andb_false_r.
  - intros x y z. rewrite !Hlex. intros [H1|[H1 H2]] [H3|[H3 H4]].
    + left. by eapply sw_trans.
    + left. destruct (sw_incomp _ _ z H1) as [H|H]; [congruence|done].
    + left. destruct (sw_incomp _ _ x H3) as [H|H]; [done|congruence].
    + destruct (lt1 x z) eqn:E; [by left|right]. split; [by eapply (sw_le_trans lt1 x y z)|by eapply sw_trans].
  - intros x y z. rewrite !Hlex. intros [H1|[H1 H2]].
    + destruct (sw_incomp _ _ z H1) as [H|H]; [left; by left|right; by left].
    + destruct (lt1 z y) eqn:E1; [left; by left|]. destruct (lt1 x z) eqn:E2; [right; by left|].
      destruct (lt1 y z) eqn:E3; [right; left; destruct (sw_incomp _ _ x E3) as [H|H]; congruence|].
      destruct (lt1 z x) eqn:E4; [left; left; destruct (sw_incomp _ _ y E4) as [H|H]; congruence|].
      destruct (sw_incomp _ _ z H2) as [H|H]; [left; by right|right; by right].
Qed.

Lemma sw_preimage {A B} (f : A -> B) (lt : B -> B -> bool) `{!StrictWeak lt} : StrictWeak (fun x y => lt (f x) (f y)).
Proof. split; intros; [apply sw_irrefl|by eapply sw_trans|by apply sw_incomp]. Qed.

Lemma sw_reverse {A} (lt : A -> A -> bool) `{!StrictWeak lt} : StrictWeak (fun x y => lt y x).
Proof. split; intros; [apply sw_irrefl|by eapply sw_trans|]. destruct (sw_incomp _ _ z H) as [?|?]; tauto. Qed.

Lemma sw_ext {A} (lt lt' : A -> A -> bool) : StrictWeak lt -> (forall x y, lt' x y = lt x y) -> StrictWeak lt'.
Proof. intros Hs E. split; intros *; rewrite !E; [apply sw_irrefl|apply sw_trans|apply sw_incomp]. Qed.

(** ** Keyed merges *)

Section KeyedSort.
Context {R K Er S : Type} `{!KeyOrder K, !KeyOrderOK K} (zero : K) (keyOf : R -> option K) (id : R -> Z).

(** By key, descending when [desc], then by ID. *)
Definition row_less (k : R -> K) (desc : bool) (a b : R) : bool :=
  lex (fun a b => if desc then kltb (k b) (k a) else kltb (k a) (k b)) (fun a b => id a <? id b) a b.

Lemma key_less_sw {A} (f : A -> K) (desc : bool) : StrictWeak (fun a b => if desc then kltb (f b) (f a) else kltb (f a) (f b)).
Proof. pose proof (sw_preimage f kltb) as Hf. destruct desc; [apply (sw_reverse (fun a b => kltb (f a) (f b)))|exact Hf]. Qed.

Lemma keyed_less_lex desc (a b : keyed R K) :
  keyed_less desc a b = lex (fun a b => k_lead a && negb (k_lead b)) (lex (fun a b => if desc then kltb (k_key b) (k_key a) else kltb (k_key a) (k_key b)) (fun a b => k_id a <? k_id b)) a b.
Proof.
  unfold keyed_less, key_compare, lex. destruct (k_lead a), (k_lead b); cbn; try done;
    (destruct (kltb (k_key a) (k_key b)) eqn:E1; [pose proof (sw_asym kltb _ _ E1) as E2; rewrite ?E2|destruct (kltb (k_key b) (k_key a))]; by destruct desc).
Qed.

#[export] Instance keyed_less_sw desc : StrictWeak (@keyed_less R K _ desc).
Proof.
  eapply sw_ext; [|apply keyed_less_lex]. apply lex_sw; [|apply lex_sw; [apply key_less_sw|apply (sw_preimage k_id Z.ltb)]].
  split; intros *; destruct (k_lead x); try destruct (k_lead y); try destruct (k_lead z); cbn; tauto || done.
Qed.

(** Rows that all have keys now. *)
Lemma key_rows_all (k : R -> K) rows : Forall (fun r => keyOf r = Some (k r)) rows -> forall last lead, key_rows keyOf id last lead rows = map (fun r => mkKeyed R K r (k r) false (id r)) rows.
Proof. induction 1 as [|r rows Hr _ IH]; intros last lead; [done|]. cbn [key_rows map]. by rewrite Hr, IH. Qed.

Lemma walk_map {A B} (fn : S -> B -> S * bool) (f : A -> B) l : forall s, walk (fun s a => fn s (f a)) s l = walk fn s (map f l).
Proof. induction l as [|a l IH]; intros s; [done|]. cbn [walk map]. destruct (fn s (f a)) as [s' []]; [apply IH|done]. Qed.

(** *** Rows without a key now *)

(** Each row of a part with the key it leaves the merge under: that of the last row
    up to it that has one; before the first such row, none. *)
Definition carried (rows : list R) : list (R * option K) := imap (fun i r => (r, last (omap keyOf (take (Datatypes.S i) rows)))) rows.

(** By carried key; the rows without one come first. *)
Definition carried_lt (desc : bool) (a b : R * option K) : bool :=
  match a.2, b.2 with
  | None, Some _ => true
  | Some x, Some y => if desc then kltb y x else kltb x y
  | _, None => false
  end.

(** The same with the key before the first row, row by row. *)
Fixpoint carried_from (prev : option K) (rows : list R) : list (R * option K) :=
  match rows with
  | [] => []
  | r :: rows' => let o := match keyOf r with Some k => Some k | None => prev end in (r, o) :: carried_from o rows'
  end.

Lemma carried_from_imap pre rows : carried_from (last (omap keyOf pre)) rows = imap (fun i r => (r, last (omap keyOf (pre ++ take (Datatypes.S i) rows)))) rows.
Proof.
  revert pre. induction rows as [|r rows IH]; intros pre; [done|]. cbn [carried_from imap take].
  assert (E : match keyOf r with Some k => Some k | None => last (omap keyOf pre) end = last (omap keyOf (pre ++ [r]))).
  { rewrite omap_app. cbn. destruct (keyOf r); [by rewrite last_snoc|by rewrite app_nil_r]. }
  rewrite E. f_equal. rewrite IH. apply imap_ext. intros i x _. cbn. rewrite <- app_assoc. done.
Qed.

Lemma carried_run rows : carried rows = carried_from None rows.
Proof. symmetry. apply (carried_from_imap []). Qed.

Definition unkey (a : keyed R K) : R * option K := (k_row a, if k_lead a then None else Some (k_key a)).

Lemma key_rows_carried rows : forall last lead, map unkey (key_rows keyOf id last lead rows) = carried_from (if lead then None else Some last) rows.
Proof.
  induction rows as [|r rows IH]; intros last lead; [done|]. cbn [key_rows carried_from].
  destruct (keyOf r) as [k|]; cbn [map]; rewrite IH; [done|]. by destruct lead.
Qed.

Lemma carried_from_keys rows : forall prev x, x ∈ carried_from prev rows -> x.2 = prev \/ exists k, x.2 = Some k /\ k ∈ omap keyOf rows.
Proof.
  induction rows as [|r rows IH]; intros prev x Hx; [by apply not_elem_of_nil in Hx|]. cbn [carried_from] in Hx. cbn [omap list_omap]. destruct (keyOf r) as [k|].
  - right. apply elem_of_cons in Hx as [->|Hx]; [exists k; split; [done|left]|]. destruct (IH _ _ Hx) as [E|(k' & E & Hk)]; [exists k; split; [done|left]|exists k'; split; [done|by right]].
  - apply elem_of_cons in Hx as [->|Hx]; [by left|]. by apply IH.
Qed.

Definition key_lt (desc : bool) (x y : K) : bool := if desc then kltb y x else kltb x y.

Lemma carried_from_ordered desc rows : forall prev, ordered_by (key_lt desc) (omap keyOf rows) ->
  (forall p k, prev = Some p -> k ∈ omap keyOf rows -> key_lt desc k p = false) -> ordered_by (carried_lt desc) (carried_from prev rows).
Proof.
  induction rows as [|r rows IH]; intros prev Ho Hp; [constructor|]. cbn [carried_from]. cbn [omap list_omap] in Ho, Hp.
  assert (Hirr : forall k : K, key_lt desc k k = false) by (intros k; unfold key_lt; destruct desc; apply sw_irrefl).
  assert (Htail : forall o, (forall p k, o = Some p -> k ∈ omap keyOf rows -> key_lt desc k p = false) ->
    ordered_by (key_lt desc) (omap keyOf rows) -> ordered_by (carried_lt desc) ((r, o) :: carried_from o rows)).
  { intros o Hk Hs. constructor; [by apply IH|]. apply Forall_forall. intros x Hx. unfold carried_lt. cbn [snd].
    destruct (carried_from_keys _ _ _ Hx) as [->|(k & -> & Hin)]; (destruct o as [p|]; [|done]); [apply Hirr|by apply Hk]. }
  destruct (keyOf r) as [k|].
  - apply StronglySorted_inv in Ho as [Ho Hf]. rewrite Forall_forall in Hf. apply Htail; [|done]. intros p k' [= <-] Hk. by apply Hf.
  - by apply Htail.
Qed.

Lemma carried_lt_sw desc : StrictWeak (carried_lt desc).
Proof.
  assert (Hk : StrictWeak (key_lt desc)) by (unfold key_lt; destruct desc; [apply (sw_reverse kltb)|change (StrictWeak (@kltb K _)); apply _]).
  assert (E : forall a b, carried_lt desc a b = match a.2, b.2 with None, Some _ => true | Some x, Some y => key_lt desc x y | _, None => false end) by done.
  split; [intros x|intros x y z|intros x y z]; rewrite !E; destruct (x.2) as [kx|]; try destruct (y.2) as [ky|]; try destruct (z.2) as [kz|];
    first [done|apply sw_irrefl|by apply sw_trans|by apply sw_incomp|by left|by right].
Qed.

Lemma carried_less desc a b : carried_lt desc (unkey a) (unkey b) = true -> keyed_less desc a b = true.
Proof.
  unfold carried_lt, unkey, keyed_less, key_compare. cbn [snd]. destruct (k_lead a), (k_lead b); cbn; try done.
  destruct desc; intros E; rewrite E; [|done]. by rewrite (sw_asym kltb _ _ E).
Qed.

(** What a merge by key answers, whatever keys the rows have: a walk over all rows,
    each part's in its order; when the keys the rows of each part have are in order,
    so are the carried keys of all. *)
Definition carried_answer (desc : bool) (parts : list (OrderedPart R Er)) (fn : S -> R -> S * bool) (s : S) (answer : S * option Er) : Prop :=
  exists out : list (R * option K),
    interleaved (map (fun p => carried (part_rows p)) parts) out /\
    (Forall (fun p => ordered_by (key_lt desc) (omap keyOf (part_rows p))) parts -> ordered_by (carried_lt desc) out) /\
    walked_answer fn (map fst out) parts s answer.

Lemma mergeKeyed_walk desc (parts : list (OrderedPart R Er)) (fn : S -> R -> S * bool) s out :
  let wp p := mkPart (keyed R K) Er (key_rows keyOf id zero true (part_rows p)) (part_err p) in
  walked_answer (fun s k => fn s (k_row k)) out (map wp parts) s (mergeKeyed zero keyOf id parts desc fn s) ->
  walked_answer fn (map k_row out) parts s (mergeKeyed zero keyOf id parts desc fn s).
Proof.
  intros wp (n & H1 & H2). rewrite (walk_map fn k_row) in H1. rewrite (walk_map fn k_row) in H2. exists n. rewrite firstn_map. split; [done|].
  destruct (snd (mergeKeyed _ _ _ _ _ _ _)) as [e|].
  - destruct H2 as (Hs & p & Hin & He & Hr). split; [done|]. apply list_elem_of_fmap in Hin as (q & -> & Hq). exists q. split; [done|]. split; [done|]. intros r Hr'.
    assert (exists a, a ∈ key_rows keyOf id zero true (part_rows q) /\ k_row a = r) as (a & Ha & <-).
    { assert (Hmap : map k_row (key_rows keyOf id zero true (part_rows q)) = part_rows q).
      { generalize zero, true. clear. induction (part_rows q) as [|x l IH]; intros z b; [done|]. cbn [key_rows]. destruct (keyOf x); cbn [map]; by rewrite IH. }
      rewrite <- Hmap in Hr'. apply list_elem_of_fmap in Hr' as (a & -> & Ha). by exists a. }
    apply list_elem_of_fmap. exists a. split; [done|]. by apply Hr.
  - destruct H2 as [Hs|[Ht He]]; [by left|right]. split; [by rewrite Ht|]. apply Forall_map in He. exact He.
Qed.

Lemma mergeKeyed_carried desc (parts : list (OrderedPart R Er)) fn s : carried_answer desc parts fn s (mergeKeyed zero keyOf id parts desc fn s).
Proof.
  set (wp := fun p : OrderedPart R Er => mkPart (keyed R K) Er (key_rows keyOf id zero true (part_rows p)) (part_err p)).
  set (out := merge_order (keyed_less desc) (length (all_rows (map wp parts)) + 1) (map wp parts)). exists (map unkey out). split_and!.
  - replace (map (fun p => carried (part_rows p)) parts) with (map (map unkey) (map part_rows (map wp parts))).
    + apply interleaved_map. unfold out. apply merge_order_interleaved; [apply _|apply Nat.le_add_r].
    + rewrite !map_map. apply map_ext. intros p. cbn [wp part_rows]. rewrite key_rows_carried. symmetry. apply carried_run.
  - intros Ho. pose proof (carried_lt_sw desc) as Hsw. pose proof (sw_preimage unkey (carried_lt desc)) as Hsw'.
    assert (Hout : ordered_by (fun a b => carried_lt desc (unkey a) (unkey b)) out).
    { apply merge_order_coarse; [apply _|done|intros a b; apply carried_less|]. apply Forall_map. eapply Forall_impl; [exact Ho|]. cbn [wp part_rows]. intros p Hs.
      pose proof (carried_from_ordered desc (part_rows p) None Hs ltac:(done)) as Hc. change None with (if true then None else Some zero) in Hc. rewrite <- key_rows_carried in Hc.
      unfold ordered_by in *. clear -Hc. induction (key_rows _ _ _ _ _) as [|a l IH]; [constructor|]. cbn [map] in Hc. apply StronglySorted_inv in Hc as [Hs Hf]. constructor; [by apply IH|]. by apply Forall_map in Hf. }
    unfold ordered_by in *. clear -Hout. induction Hout as [|a l _ IH Hf]; [constructor|]. cbn [map]. constructor; [done|]. by apply Forall_map.
  - rewrite map_map. change (map (fun a => (unkey a).1) out) with (map k_row out). apply mergeKeyed_walk, merge_answer, _.
Qed.

(** *** Rows that all have keys *)

(** What a merge by key answers when every part is in order: the walk over the sort. *)
Definition keyed_answer (k : R -> K) (desc : bool) (parts : list (OrderedPart R Er)) (fn : S -> R -> S * bool) (s : S) (answer : S * option Er) : Prop :=
  walked_answer fn (sort_by (row_less k desc) (all_rows parts)) parts s answer.

Lemma mergeKeyed_answer (k : R -> K) desc (parts : list (OrderedPart R Er)) fn s :
  Forall (fun p => Forall (fun r => keyOf r = Some (k r)) (part_rows p) /\ ordered_by (row_less k desc) (part_rows p)) parts ->
  keyed_answer k desc parts fn s (mergeKeyed zero keyOf id parts desc fn s).
Proof.
  intros Hp. set (wrap := fun r => mkKeyed R K r (k r) false (id r)). set (wp := fun p : OrderedPart R Er => mkPart (keyed R K) Er (key_rows keyOf id zero true (part_rows p)) (part_err p)).
  assert (Hless : forall a b, keyed_less desc (wrap a) (wrap b) = row_less k desc a b) by (intros a b; rewrite keyed_less_lex; done).
  assert (Hw : map part_rows (map wp parts) = map (map wrap) (map part_rows parts)).
  { rewrite !map_map. apply map_ext_in. intros p Hin. cbn [wp part_rows]. apply key_rows_all. rewrite Forall_forall in Hp. apply (Hp p). by apply list_elem_of_In. }
  assert (Hsort : sort_by (keyed_less desc) (all_rows (map wp parts)) = map wrap (sort_by (row_less k desc) (all_rows parts))).
  { unfold all_rows. rewrite Hw, <- concat_map, <- sort_by_map. f_equal. apply sort_by_ext. intros; apply Hless. }
  unfold keyed_answer. replace (sort_by (row_less k desc) (all_rows parts)) with (map k_row (sort_by (keyed_less desc) (all_rows (map wp parts)))) by (rewrite Hsort, map_map; apply map_id).
  apply mergeKeyed_walk. fold wp. rewrite <- (merge_order_sort (keyed_less desc) (length (all_rows (map wp parts)) + 1)); [apply merge_answer, _| |lia].
  unfold parts_ordered. apply Forall_map, Forall_forall. intros p Hin. cbn [wp part_rows]. rewrite Forall_forall in Hp. destruct (Hp p Hin) as [Hk Ho]. rewrite (key_rows_all k) by done.
  unfold ordered_by in *. clear -Ho Hless. induction Ho as [|r l _ IH Hf]; [constructor|]. cbn [map]. constructor; [done|].
  apply Forall_map. eapply Forall_impl; [exact Hf|]. intros r' Hr'. etrans; [exact (Hless r' r)|exact Hr'].
Qed.
End KeyedSort.

(** C27: The merge of a composite store's ordered walk, by numeric or string sort key and
    then by ID, descending on request.  Whatever the parts hand out, the reader is
    given a first stretch of all their rows, each once and each part's in its order,
    cut only where it stops or where a part fails; a failure is returned after all
    rows of its part, and with no error and no stop every row was given.  A row
    without a key now leaves with the key its part last had (first of all, before
    any): when the keys each part's rows do have are in order, the rows leave in the
    order of these keys.  When moreover every row has a key and every part is in
    order by key and then by ID, the rows leave as the stable sort of all of them. *)
Theorem ordered_merge_exact FormatFloat ParseFloat {R Er S : Type} (parts : list (OrderedPart R Er)) key getValue (id : R -> Z) desc (fn : S -> R -> S * bool) s :
  let numeric r := match getValue r key with Some v => numericSortKey ParseFloat (IndexablePropertyValueKey FormatFloat v) | None => None end in
  let string r := match getValue r key with Some v => stringSortKey (IndexablePropertyValueKey FormatFloat v) | None => None end in
  let in_order {K} `{KeyOrder K} keyOf (k : R -> K) := Forall (fun p => Forall (fun r => keyOf r = Some (k r)) (part_rows p) /\ ordered_by (row_less id k desc) (part_rows p)) parts in
  (carried_answer numeric desc parts fn s (MergeNumericOrdered FormatFloat ParseFloat parts key getValue id desc fn s) /\
   forall k : R -> Z, in_order numeric k -> keyed_answer id k desc parts fn s (MergeNumericOrdered FormatFloat ParseFloat parts key getValue id desc fn s)) /\
  (carried_answer string desc parts fn s (MergeStringOrdered FormatFloat parts key getValue id desc fn s) /\
   forall k : R -> bytes, in_order string k -> keyed_answer id k desc parts fn s (MergeStringOrdered FormatFloat parts key getValue id desc fn s)).
Proof. split; (split; [apply mergeKeyed_carried|]; intros k Hp; by apply mergeKeyed_answer). Qed.

(** Strings under one key; the second part fails after its rows. *)
Definition demo_row : Type := Z * option bytes.

Definition demo_value (r : demo_row) (_ : bytes) : option value := VString <$> r.2.

Definition demo_parts : list (OrderedPart demo_row Z) :=
  [mkPart _ _ [(4, Some (bytes_of_string "ant")); (1, Some (bytes_of_string "cow"))] None;
   mkPart _ _ [(2, Some (bytes_of_string "ant")); (3, Some (bytes_of_string "bee"))] (Some 7)].

(** Row 9 has lost its value: it leaves right after row 4. *)
Definition demo_moved : list (OrderedPart demo_row Z) :=
  [mkPart _ _ [(4, Some (bytes_of_string "ant")); (9, None); (1, Some (bytes_of_string "cow"))] None;
   mkPart _ _ [(2, Some (bytes_of_string "ant")); (3, Some (bytes_of_string "bee"))] None].

Definition demo_collect (l : list Z) (r : demo_row) : list Z * bool := (l ++ [r.1], true).

Definition demo_merge (parts : list (OrderedPart demo_row Z)) : list Z * option Z :=
  MergeStringOrdered demo_format parts [] demo_value fst false demo_collect [].

Lemma ordered_merge_exact_witness :
  demo_merge demo_parts = ([2; 4; 3], Some 7) /\ keyed_answer fst (fun r => default [] r.2) false demo_parts demo_collect [] (demo_merge demo_parts) /\
  demo_merge demo_moved = ([2; 4; 9; 3; 1], None).
Proof.
  split; [vm_compute; reflexivity|]. split; [|vm_compute; reflexivity].
  apply (ordered_merge_exact demo_format no_floats demo_parts [] demo_value fst false demo_collect []).
  repeat (apply Forall_cons; split); [split..|apply Forall_nil; exact I]; try (repeat (apply Forall_cons; split); try apply Forall_nil; reflexivity); repeat constructor.
Defined.

(** A part's count is added only when it is exact. *)
Lemma SumRangeCounts_exact counts exact : length counts = length exact ->
  SumRangeCounts counts exact = if forallb (fun b => b) exact then Some (fold_right Z.add 0 counts) else None.
Proof.
  revert exact. induction counts as [|n counts IH]; intros [|b exact] Hl; [done|done|done|]. cbn [SumRangeCounts forallb fold_right]. destruct b; [|done]. injection Hl as Hl.
  rewrite IH by done. cbn [andb]. by destruct (forallb _ exact).
Qed.
