(* ===== verification/AdjSets.v ===== *)
(** * Adjacency sets (store/memory/memorystore_adjset.go)

    The outgoing or incoming relationship IDs of a node in the in-memory store: a
    sorted slice of at most 64 IDs, a hash set above, and the map from nodes to
    their sets.  Each refines a finite set, the map a relation of nodes and IDs. *)

From stdpp Require Import gmap fin_sets.
From S2P Require Import Prelude SortedChunks.

Definition adjSetSmallMax : nat := 64.

(** The slice [adj_ids], or the hash set when there is one. *)
Record adjSet := mkAdj { adj_ids : list Z; adj_m : option (gset Z) }.

Definition emptyAdj : adjSet := mkAdj [] None.

Definition adj_search (ids : list Z) (id : Z) : nat := Search (length ids) (fun k => negb (nth k ids 0 <? id)).

Definition adj_add (id : Z) (s : adjSet) : adjSet :=
  match adj_m s with
  | Some m => mkAdj (adj_ids s) (Some ({[id]} ∪ m))
  | None =>
      let n := length (adj_ids s) in
      let at_ := adj_search (adj_ids s) id in
      if (at_ <? n)%nat && (nth at_ (adj_ids s) 0 =? id) then s
      else if (n <? adjSetSmallMax)%nat then mkAdj (take at_ (adj_ids s) ++ id :: drop at_ (adj_ids s)) None
      else mkAdj [] (Some ({[id]} ∪ list_to_set (adj_ids s)))
  end.

Definition newAdjSetOf (ids : list Z) : adjSet := fold_left (fun s id => adj_add id s) ids emptyAdj.

(** A nil set is [None]. *)
Definition adj_remove (id : Z) (s : option adjSet) : option adjSet * bool :=
  match s with
  | None => (None, false)
  | Some s =>
      match adj_m s with
      | Some m => if bool_decide (id ∈ m) then (Some (mkAdj (adj_ids s) (Some (m ∖ {[id]}))), true) else (Some s, false)
      | None =>
          let n := length (adj_ids s) in
          let at_ := adj_search (adj_ids s) id in
          if (at_ =? n)%nat || negb (nth at_ (adj_ids s) 0 =? id) then (Some s, false)
          else (Some (mkAdj (take at_ (adj_ids s) ++ drop (at_ + 1) (adj_ids s)) None), true)
      end
  end.

Definition adj_has (id : Z) (s : option adjSet) : bool :=
  match s with
  | None => false
  | Some s =>
      match adj_m s with
      | Some m => bool_decide (id ∈ m)
      | None => let at_ := adj_search (adj_ids s) id in (at_ <? length (adj_ids s))%nat && (nth at_ (adj_ids s) 0 =? id)
      end
  end.

Definition adj_len (s : option adjSet) : nat :=
  match s with None => 0%nat | Some s => match adj_m s with Some m => size m | None => length (adj_ids s) end end.

(** The order of a hash set is the map's. *)
Definition adj_all (s : option adjSet) : list Z :=
  match s with None => [] | Some s => match adj_m s with Some m => elements m | None => adj_ids s end end.

Definition addAdjLocked (nid id : Z) (idx : gmap Z adjSet) : gmap Z adjSet := <[nid := adj_add id (default emptyAdj (idx !! nid))]> idx.

Definition removeAdjLocked (nid id : Z) (idx : gmap Z adjSet) : gmap Z adjSet :=
  match idx !! nid with
  | None => idx
  | Some s =>
      let s' := fst (adj_remove id (Some s)) in
      if (adj_len s' =? 0)%nat then delete nid idx else match s' with Some s' => <[nid := s']> idx | None => idx end
  end.

(** A set dropped from every node's entry, as [purgeRelIDFromIndexesLocked] and
    [dropExAdjRelEverywhereLocked] do. *)
Definition drop_everywhere (id : Z) (idx : gmap Z adjSet) : gmap Z adjSet :=
  omap (fun s => match adj_remove id (Some s) with
                 | (Some s', true) => if (adj_len (Some s') =? 0)%nat then None else Some s'
                 | _ => Some s
                 end) idx.

(** ** The set a value holds *)

Definition adj_elems (s : option adjSet) : gset Z := list_to_set (adj_all s).

Definition adj_ok (s : adjSet) : Prop :=
  match adj_m s with Some m => adj_ids s = [] | None => StronglySorted Z.lt (adj_ids s) /\ (length (adj_ids s) <= adjSetSmallMax)%nat end.

Lemma adj_search_split ids id : StronglySorted Z.lt ids ->
  exists l r, ids = l ++ r /\ adj_search ids id = length l /\ Forall (fun x => x < id) l /\ Forall (fun x => id <= x) r.
Proof.
  intros Hs. destruct (Search_split ids (fun k => negb (nth k ids 0 <? id)) (fun x => negb (x <? id))) as (l & r & E & Hi & Hl & Hr).
  - intros i x Hx. by rewrite (nth_lookup_Some _ _ _ _ Hx).
  - eapply StronglySorted_weaken; [|exact Hs]. intros x y Hxy. destruct (Z.ltb_spec x id), (Z.ltb_spec y id); try done; lia.
  - exists l, r. split_and!; [done|exact Hi| |].
    + eapply Forall_impl; [exact Hl|]. intros x Hx. cbn in Hx. destruct (Z.ltb_spec x id); [done|by rewrite negb_false_iff in Hx].
    + eapply Forall_impl; [exact Hr|]. intros x Hx. cbn in Hx. destruct (Z.ltb_spec x id); [done|done].
Qed.

Lemma sorted_app_inv (l r : list Z) : StronglySorted Z.lt (l ++ r) -> StronglySorted Z.lt l /\ StronglySorted Z.lt r /\ (forall x y, x ∈ l -> y ∈ r -> x < y).
Proof.
  induction l as [|a l IH]; cbn [app]; intros Hs; [split_and!; [constructor|done|by intros x y ?%not_elem_of_nil]|].
  apply StronglySorted_inv in Hs as [Hs Hf]. destruct (IH Hs) as (H1 & H2 & H3). apply Forall_app in Hf as [Hf1 Hf2]. split_and!; [by constructor|done|].
  intros x y [->|Hx]%elem_of_cons Hy; [rewrite Forall_forall in Hf2; auto|auto].
Qed.

Lemma sorted_app (l r : list Z) : StronglySorted Z.lt l -> StronglySorted Z.lt r -> (forall x y, x ∈ l -> y ∈ r -> x < y) -> StronglySorted Z.lt (l ++ r).
Proof.
  induction 1 as [|a l Hs IH Hf]; intros Hr Hlr; cbn [app]; [done|]. constructor; [apply IH; [done|]; intros; apply Hlr; [by right|done]|].
  apply Forall_app. split; [done|]. apply Forall_forall. intros y Hy. apply Hlr; [by left|done].
Qed.

(** Where a sorted slice holds an ID. *)
Lemma adj_found ids id l r : ids = l ++ r -> Forall (fun x => x < id) l -> Forall (fun x => id <= x) r -> StronglySorted Z.lt ids ->
  (length l <? length ids)%nat && (nth (length l) ids 0 =? id) = bool_decide (id ∈ ids).
Proof.
  intros -> Hl Hr Hs. rewrite length_app. destruct r as [|x r]; cbn [length].
  - rewrite app_nil_r in *. destruct (Nat.ltb_spec (length l) (length l + 0)); [lia|]. cbn [andb]. symmetry. apply bool_decide_eq_false_2. intros Hin. rewrite Forall_forall in Hl. specialize (Hl id Hin). lia.
  - destruct (Nat.ltb_spec (length l) (length l + S (length r))); [|lia]. cbn [andb]. rewrite app_nth2 by lia. rewrite Nat.sub_diag. cbn [nth]. apply Forall_cons in Hr as [Hx Hr].
    destruct (Z.eqb_spec x id) as [->|Hne]; symmetry; [apply bool_decide_eq_true_2; set_solver|]. apply bool_decide_eq_false_2. rewrite elem_of_app, elem_of_cons. intros [Hin|[->|Hin]]; [rewrite Forall_forall in Hl; specialize (Hl id Hin); lia|done|].
    apply sorted_app_inv in Hs as (_ & Hs & _). apply StronglySorted_inv in Hs as [_ Hf]. rewrite Forall_forall in Hf. specialize (Hf id Hin). lia.
Qed.

Lemma elem_of_adj (s : option adjSet) id : id ∈ adj_elems s <-> id ∈ adj_all s.
Proof. apply elem_of_list_to_set. Qed.

Lemma sorted_Z_NoDup (l : list Z) : StronglySorted Z.lt l -> NoDup l.
Proof. induction 1 as [|a l _ IH Hf]; constructor; [|done]. intros Hin. rewrite Forall_forall in Hf. specialize (Hf a Hin). lia. Qed.

Lemma adj_all_nodup s : adj_ok s -> NoDup (adj_all (Some s)).
Proof. unfold adj_ok, adj_all. destruct (adj_m s) as [m|]; [intros _; apply NoDup_elements|intros [Hs _]; by apply sorted_Z_NoDup]. Qed.

Lemma adj_len_all s : adj_len s = length (adj_all s).
Proof. destruct s as [s|]; [|done]. unfold adj_len, adj_all. by destruct (adj_m s). Qed.

Lemma adj_has_spec id s : adj_ok s -> adj_has id (Some s) = bool_decide (id ∈ adj_elems (Some s)).
Proof.
  unfold adj_ok, adj_has, adj_elems, adj_all. destruct (adj_m s) as [m|]; [intros _; apply bool_decide_ext; rewrite elem_of_list_to_set, elem_of_elements; done|].
  intros [Hs _]. destruct (adj_search_split (adj_ids s) id Hs) as (l & r & E & Hi & Hl & Hr). rewrite Hi, (adj_found _ id l r) by done. apply bool_decide_ext. by rewrite elem_of_list_to_set.
Qed.

Lemma adj_add_ok id s : adj_ok s -> adj_ok (adj_add id s) /\ adj_elems (Some (adj_add id s)) = {[id]} ∪ adj_elems (Some s).
Proof.
  unfold adj_ok, adj_add, adj_elems, adj_all. destruct (adj_m s) as [m|] eqn:Em; [cbn [adj_m adj_ids]; intros Hids; split; [done|]; apply set_eq; intros x; rewrite !elem_of_union, !elem_of_list_to_set, !elem_of_elements; set_solver|].
  intros [Hs Hn]. destruct (adj_search_split (adj_ids s) id Hs) as (l & r & E & Hi & Hl & Hr). rewrite Hi, (adj_found _ id l r) by done. case_bool_decide as Hin; [rewrite Em; split; [done|]; set_solver|].
  assert (Hr' : Forall (fun x => id < x) r) by (rewrite Forall_forall in *; intros x Hx; specialize (Hr x Hx); destruct (decide (x = id)) as [->|]; [exfalso; apply Hin; rewrite E; set_solver|lia]).
  destruct (Nat.ltb_spec (length (adj_ids s)) adjSetSmallMax) as [Hlt|Hge]; cbn [adj_m adj_ids].
  - rewrite E, take_app_length, drop_app_length in *. pose proof (sorted_app_inv l r Hs) as (H1 & H2 & H3). rewrite Forall_forall in Hl, Hr'. split; [split|].
    + apply sorted_app; [done|constructor; [done|by apply Forall_forall]|]. intros x y Hx [->|Hy]%elem_of_cons; [by apply Hl|by apply H3].
    + rewrite length_app in *. cbn [length]. lia.
    + set_solver.
  - split; [done|]. apply set_eq. intros x. rewrite !elem_of_union, !elem_of_list_to_set, elem_of_elements. set_solver.
Qed.

Lemma adj_remove_ok id s : adj_ok s ->
  exists s', adj_remove id (Some s) = (Some s', bool_decide (id ∈ adj_elems (Some s))) /\ adj_ok s' /\ adj_elems (Some s') = adj_elems (Some s) ∖ {[id]}.
Proof.
  unfold adj_ok, adj_remove, adj_elems, adj_all. destruct (adj_m s) as [m|] eqn:Em.
  - intros Hids. case_bool_decide as Hin; eexists; (split; [f_equal; symmetry; first [apply bool_decide_eq_true_2|apply bool_decide_eq_false_2]; by rewrite elem_of_list_to_set, elem_of_elements|]); rewrite ?Em; cbn [adj_m adj_ids]; (split; [done|]); apply set_eq; intros x; rewrite elem_of_difference, !elem_of_list_to_set, !elem_of_elements; set_solver.
  - intros [Hs Hn]. destruct (adj_search_split (adj_ids s) id Hs) as (l & r & E & Hi & Hl & Hr). rewrite Hi. pose proof (adj_found _ id l r E Hl Hr Hs) as Hf.
    assert (Hc : (length l =? length (adj_ids s))%nat || negb (nth (length l) (adj_ids s) 0 =? id) = negb (bool_decide (id ∈ adj_ids s))).
    { rewrite <- Hf. assert (length l <= length (adj_ids s))%nat by (rewrite E, length_app; lia). destruct (Nat.eqb_spec (length l) (length (adj_ids s))), (Nat.ltb_spec (length l) (length (adj_ids s))); cbn [orb andb negb]; try done; lia. }
    rewrite Hc. case_bool_decide as Hin; cbn [negb].
    + destruct r as [|x r]; [exfalso; rewrite E, app_nil_r in Hin; rewrite Forall_forall in Hl; specialize (Hl id Hin); lia|].
      assert (x = id) as ->. { apply Forall_cons in Hr as [Hx Hr]. rewrite E in Hin. apply elem_of_app in Hin as [Hin|[->|Hin]%elem_of_cons]; [rewrite Forall_forall in Hl; specialize (Hl id Hin); lia|done|].
        rewrite E in Hs. apply sorted_app_inv in Hs as (_ & Hs & _). apply StronglySorted_inv in Hs as [_ Hs]. rewrite Forall_forall in Hs. specialize (Hs id Hin). lia. }
      eexists. split; [f_equal; symmetry; apply bool_decide_eq_true_2; by rewrite elem_of_list_to_set|]. cbn [adj_m adj_ids]. rewrite E in *. rewrite take_app_length. replace (length l + 1)%nat with (length (l ++ [id])) by (rewrite length_app; cbn; lia).
      replace (drop (length (l ++ [id])) (l ++ id :: r)) with r by (replace (l ++ id :: r) with ((l ++ [id]) ++ r) by (by rewrite <- app_assoc); by rewrite drop_app_length).
      pose proof (sorted_app_inv _ _ Hs) as (H1 & H2 & H3). apply StronglySorted_inv in H2 as [H2 H4]. rewrite Forall_forall in H4, Hl. split; [split|].
      * apply sorted_app; [done|done|]. intros y z Hy Hz. apply H3; [done|by right].
      * rewrite length_app in *. cbn [length] in *. lia.
      * apply set_eq. intros y. rewrite elem_of_difference, !elem_of_list_to_set, !elem_of_app, elem_of_cons, not_elem_of_singleton. split.
        -- intros [Hy|Hy]; (split; [auto|intros ->]); [specialize (Hl id Hy)|specialize (H4 id Hy)]; lia.
        -- intros [[Hy|[->|Hy]] Hne]; auto. done.
    + exists s. split; [f_equal; symmetry; apply bool_decide_eq_false_2; by rewrite elem_of_list_to_set|]. rewrite Em. split; [done|]. set_solver.
Qed.

(** ** The map from nodes to sets *)

Definition members (idx : gmap Z adjSet) (nid : Z) : gset Z := adj_elems (idx !! nid).

Definition idx_ok (idx : gmap Z adjSet) : Prop := forall nid s, idx !! nid = Some s -> adj_ok s /\ adj_elems (Some s) <> ∅.

Lemma empty_adj_ok : adj_ok emptyAdj.
Proof. split; [constructor|cbn; unfold adjSetSmallMax; lia]. Qed.

Lemma empty_idx_ok : idx_ok ∅.
Proof. intros nid s. by rewrite lookup_empty. Qed.

Lemma members_empty nid : members ∅ nid = ∅.
Proof. unfold members. by rewrite lookup_empty. Qed.

Lemma adj_len_zero s : adj_len s = 0%nat <-> adj_elems s = ∅.
Proof.
  rewrite adj_len_all. unfold adj_elems. destruct (adj_all s) as [|x l]; cbn [length list_to_set]; split; try done. intros E. exfalso. apply (not_elem_of_empty (C := gset Z) x). rewrite <- E. set_solver.
Qed.

Lemma adj_default_ok idx nid : idx_ok idx -> adj_ok (default emptyAdj (idx !! nid)) /\ adj_elems (Some (default emptyAdj (idx !! nid))) = members idx nid.
Proof. intros Hi. unfold members. destruct (idx !! nid) as [s|] eqn:E; cbn [default from_option id]; [split; [by eapply Hi|done]|]. split; [apply empty_adj_ok|done]. Qed.

Lemma addAdj_ok nid id idx : idx_ok idx -> idx_ok (addAdjLocked nid id idx) /\ forall n, members (addAdjLocked nid id idx) n = if decide (n = nid) then {[id]} ∪ members idx n else members idx n.
Proof.
  intros Hi. destruct (adj_default_ok idx nid Hi) as [H1 H2]. destruct (adj_add_ok id _ H1) as [H3 H4]. unfold addAdjLocked. split.
  - intros n s. destruct (decide (n = nid)) as [->|Hne]; [rewrite lookup_insert_eq; intros [= <-]; split; [done|]; rewrite H4; set_solver|rewrite lookup_insert_ne by done; apply Hi].
  - intros n. unfold members at 1. case_decide as E; [subst; rewrite lookup_insert_eq, H4; by rewrite H2|by rewrite lookup_insert_ne].
Qed.

Lemma removeAdj_ok nid id idx : idx_ok idx -> idx_ok (removeAdjLocked nid id idx) /\ forall n, members (removeAdjLocked nid id idx) n = if decide (n = nid) then members idx n ∖ {[id]} else members idx n.
Proof.
  intros Hi. unfold removeAdjLocked. destruct (idx !! nid) as [s|] eqn:E.
  - destruct (Hi nid s E) as [H1 _]. destruct (adj_remove_ok id s H1) as (s' & Er & H3 & H4). rewrite Er. cbn [fst]. destruct (Nat.eqb_spec (adj_len (Some s')) 0) as [Hz|Hz]; pose proof (adj_len_zero (Some s')) as Hlz.
    + split; [intros n t; destruct (decide (n = nid)) as [->|Hne]; [by rewrite lookup_delete_eq|rewrite lookup_delete_ne by done; apply Hi]|].
      intros n. unfold members. destruct (decide (n = nid)) as [En|En]; [subst; rewrite lookup_delete_eq, E; rewrite <- H4; symmetry; by apply Hlz|by rewrite lookup_delete_ne].
    + split; [intros n t; destruct (decide (n = nid)) as [->|Hne]; [rewrite lookup_insert_eq; intros [= <-]; split; [done|]; intros He; by apply Hz, Hlz|rewrite lookup_insert_ne by done; apply Hi]|].
      intros n. unfold members. destruct (decide (n = nid)) as [En|En]; [subst; by rewrite lookup_insert_eq, E, H4|by rewrite lookup_insert_ne].
  - split; [done|]. intros n. destruct (decide (n = nid)) as [En|En]; [|done]. subst. unfold members. rewrite E. set_solver.
Qed.

Lemma drop_everywhere_ok id idx : idx_ok idx -> idx_ok (drop_everywhere id idx) /\ forall n, members (drop_everywhere id idx) n = members idx n ∖ {[id]}.
Proof.
  intros Hi. assert (Hl : forall n, drop_everywhere id idx !! n = match idx !! n with Some s => match adj_remove id (Some s) with (Some s', true) => if (adj_len (Some s') =? 0)%nat then None else Some s' | _ => Some s end | None => None end).
  { intros n. unfold drop_everywhere. rewrite lookup_omap. by destruct (idx !! n). }
  assert (Hn : forall n, (forall t, drop_everywhere id idx !! n = Some t -> adj_ok t /\ adj_elems (Some t) <> ∅) /\ members (drop_everywhere id idx) n = members idx n ∖ {[id]}).
  { intros n. unfold members. rewrite !Hl. destruct (idx !! n) as [s|] eqn:E; [|split; [done|set_solver]]. destruct (Hi n s E) as [H1 H2]. destruct (adj_remove_ok id s H1) as (s' & Er & H3 & H4). rewrite Er. pose proof (adj_len_zero (Some s')) as Hlz.
    case_bool_decide as Hin; [destruct (Nat.eqb_spec (adj_len (Some s')) 0) as [Hz|Hz]|].
    - split; [done|]. rewrite <- H4. symmetry. by apply Hlz.
    - split; [|done]. intros t [= <-]. split; [done|]. intros He. by apply Hz, Hlz.
    - split; [intros t [= <-]; done|]. set_solver. }
  split; [intros n t; apply Hn|intros n; apply Hn].
Qed.

Lemma newAdjSetOf_ok ids : adj_ok (newAdjSetOf ids) /\ adj_elems (Some (newAdjSetOf ids)) = list_to_set ids.
Proof.
  assert (Hf : forall s, adj_ok s -> adj_ok (fold_left (fun s id => adj_add id s) ids s) /\ adj_elems (Some (fold_left (fun s id => adj_add id s) ids s)) = list_to_set ids ∪ adj_elems (Some s)).
  { induction ids as [|id ids IH]; intros s Hs; cbn [fold_left list_to_set]; [split; [done|set_solver]|]. destruct (adj_add_ok id s Hs) as [H1 H2]. destruct (IH _ H1) as [H3 H4]. split; [done|]. rewrite H4, H2. set_solver. }
  destruct (Hf emptyAdj empty_adj_ok) as [H1 H2]. split; [done|]. unfold newAdjSetOf. rewrite H2. unfold adj_elems, adj_all. cbn. set_solver.
Qed.
