(* ===== verification/TemporalIndex.v ===== *)
(** * The temporal index (internal/index/temporal_index.go)

    Per label or relationship type, an index keeps one valid-time envelope per
    entity.  The map [byID] is the truth; the first stabbing query builds from it
    a slice sorted by start, read as the in-order walk of a balanced tree whose
    nodes carry the latest end of their subtree, and later writes keep both.  The
    theorems show that the index refines a finite map of envelopes and that the
    pruned tree walks answer exactly the entities whose envelope covers the
    instant or overlaps the window. *)

From stdpp Require Import gmap.
From S2P Require Import Prelude ValidTime Rows.

(** ** State *)

Definition maxInstant : Z := MaxInt64.

Definition effTo (to : Z) : Z := if to =? 0 then maxInstant else to.

Record IntervalEntry := mkEntry { e_From : Z; e_To : Z; e_ID : Z }.

#[export] Instance IntervalEntry_eq_dec : EqDecision IntervalEntry.
Proof. solve_decision. Defined.

(** A nil map is an empty one, except [Mutated], whose nil means not tracked. *)
Record TemporalIndex := mkIndex {
  Entries : list IntervalEntry;
  subMax : list Z;
  dirty : bool;
  queried : bool;
  Building : bool;
  Mutated : option (gset Z);
  byID : gmap Z (Z * Z);
  posByID : gmap Z nat;
}.

Definition NewTemporalIndex : TemporalIndex := mkIndex [] [] false false false None ∅ ∅.

Definition EnvelopeOf (ti : TemporalIndex) (id : Z) : option (Z * Z) := byID ti !! id.

Definition setByID (id from to : Z) (ti : TemporalIndex) : TemporalIndex :=
  mkIndex (Entries ti) (subMax ti) (dirty ti) (queried ti) (Building ti) (Mutated ti) (<[id := (from, to)]> (byID ti)) (posByID ti).

Definition setPos (id : Z) (idx : nat) (ti : TemporalIndex) : TemporalIndex :=
  mkIndex (Entries ti) (subMax ti) (dirty ti) (queried ti) (Building ti) (Mutated ti) (byID ti) (<[id := idx]> (posByID ti)).

Definition setEntries (es : list IntervalEntry) (ti : TemporalIndex) : TemporalIndex :=
  mkIndex es (subMax ti) (dirty ti) (queried ti) (Building ti) (Mutated ti) (byID ti) (posByID ti).

Definition setDirty (ti : TemporalIndex) : TemporalIndex :=
  mkIndex (Entries ti) (subMax ti) true (queried ti) (Building ti) (Mutated ti) (byID ti) (posByID ti).

Definition markMutated (id : Z) (ti : TemporalIndex) : TemporalIndex :=
  mkIndex (Entries ti) (subMax ti) (dirty ti) (queried ti) (Building ti) ((fun m => {[id]} ∪ m) <$> Mutated ti) (byID ti) (posByID ti).

Definition WasMutated (ti : TemporalIndex) (id : Z) : bool :=
  match Mutated ti with Some m => bool_decide (id ∈ m) | None => false end.

Definition ClearMutationTracking (ti : TemporalIndex) : TemporalIndex :=
  mkIndex (Entries ti) (subMax ti) (dirty ti) (queried ti) (Building ti) None (byID ti) (posByID ti).

(** ** Writes *)

Definition unionTo (a b : Z) : Z := if (a =? 0) || (b =? 0) then 0 else if b >? a then b else a.

Definition extendByID (id from to : Z) (ti : TemporalIndex) : TemporalIndex :=
  match byID ti !! id with
  | Some (f, t) => setByID id (Z.min from f) (unionTo t to) ti
  | None => setByID id from to ti
  end.

(** The filter-copy of [Remove]: survivors move up and get their new position. *)
Fixpoint remove_loop (id : Z) (es out : list IntervalEntry) (pos : gmap Z nat) : list IntervalEntry * gmap Z nat :=
  match es with
  | [] => (out, pos)
  | e :: es' => if e_ID e =? id then remove_loop id es' out pos else remove_loop id es' (out ++ [e]) (<[e_ID e := length out]> pos)
  end.

Definition Remove (id : Z) (ti : TemporalIndex) : TemporalIndex :=
  let ti := markMutated id ti in
  if negb (queried ti) then
    mkIndex (Entries ti) (subMax ti) true (queried ti) (Building ti) (Mutated ti) (delete id (byID ti)) (posByID ti)
  else
    let '(out, pos) := remove_loop id (Entries ti) [] (posByID ti) in
    mkIndex out (subMax ti) true (queried ti) (Building ti) (Mutated ti) (delete id (byID ti)) (delete id pos).

(** Append an entry and record its bounds and position. *)
Definition append_entry (id from to : Z) (ti : TemporalIndex) : TemporalIndex :=
  let ti := setByID id from to (setEntries (Entries ti ++ [mkEntry from to id]) ti) in
  setPos id (length (Entries ti) - 1) ti.

Definition Add (id from to : Z) (ti : TemporalIndex) : TemporalIndex :=
  if negb (queried ti) then setDirty (markMutated id (setByID id from to ti))
  else setDirty (markMutated id (append_entry id from to (Remove id ti))).

Definition Extend (id from to : Z) (ti : TemporalIndex) : TemporalIndex :=
  if negb (queried ti) then setDirty (markMutated id (extendByID id from to ti))
  else match posByID ti !! id with
       | Some i =>
           match Entries ti !! i with
           | Some e =>
               let f := if from <? e_From e then from else e_From e in
               let t := unionTo (e_To e) to in
               setDirty (markMutated id (setByID id f t (setEntries (<[i := mkEntry f t (e_ID e)]> (Entries ti)) ti)))
           | None => ti (* an index out of range panics; the invariant excludes it *)
           end
       | None => setDirty (markMutated id (append_entry id from to ti))
       end.

Definition AddKnownAbsent (id from to : Z) (ti : TemporalIndex) : TemporalIndex :=
  if negb (queried ti) then setDirty (extendByID id from to ti) else setDirty (append_entry id from to ti).

(** ** The stabbing structure *)

Definition materialize (ti : TemporalIndex) : TemporalIndex :=
  mkIndex (map (fun p => mkEntry p.2.1 p.2.2 p.1) (map_to_list (byID ti))) (subMax ti) true true (Building ti) (Mutated ti) (byID ti) (posByID ti).

Definition by_from (a b : IntervalEntry) : bool := if e_From a =? e_From b then e_ID a <? e_ID b else e_From a <? e_From b.

Definition midpoint (lo hi : nat) : nat := Nat.div2 (lo + hi).

(** [Entries[i]], in range where it is read. *)
Definition entry_at (es : list IntervalEntry) (i : nat) : IntervalEntry := nth i es (mkEntry 0 0 0).

(** The maximum of the subtree [lo, hi) and the array with the subtree's maxima
    written; the fuel is the length of the range. *)
Fixpoint fillSubMax (fuel : nat) (es : list IntervalEntry) (lo hi : nat) (sub : list Z) : Z * list Z :=
  match fuel with
  | O => (0, sub)
  | S fuel' =>
      if (hi <=? lo)%nat then (0, sub)
      else
        let mid := midpoint lo hi in
        let m := effTo (e_To (entry_at es mid)) in
        let '(l, sub) := fillSubMax fuel' es lo mid sub in
        let m := if l >? m then l else m in
        let '(r, sub) := fillSubMax fuel' es (mid + 1) hi sub in
        let m := if r >? m then r else m in
        (m, <[mid := m]> sub)
  end.

(** The old array is reused: its stale values stay until they are overwritten. *)
Definition buildSubMax (ti : TemporalIndex) : TemporalIndex :=
  let n := length (Entries ti) in
  let sub := take n (subMax ti ++ repeat 0 n) in
  let sub := if (0 <? n)%nat then snd (fillSubMax n (Entries ti) 0 n sub) else sub in
  mkIndex (Entries ti) sub (dirty ti) (queried ti) (Building ti) (Mutated ti) (byID ti) (posByID ti).

(** [for i, e := range ti.Entries { ti.setPos(e.ID, i) }] *)
Definition rebuild_pos (es : list IntervalEntry) (pos : gmap Z nat) : gmap Z nat :=
  fold_left (fun m (ie : nat * IntervalEntry) => <[e_ID ie.2 := ie.1]> m) (zip (seq 0 (length es)) es) pos.

Definition sortIfDirty (ti : TemporalIndex) : TemporalIndex :=
  let ti := if negb (queried ti) then materialize ti else ti in
  if negb (dirty ti) then ti
  else
    let es := sort_by by_from (Entries ti) in
    let pos := rebuild_pos es (posByID ti) in
    let ti := buildSubMax (mkIndex es (subMax ti) (dirty ti) (queried ti) (Building ti) (Mutated ti) (byID ti) pos) in
    mkIndex (Entries ti) (subMax ti) false (queried ti) (Building ti) (Mutated ti) (byID ti) (posByID ti).

Fixpoint stabAt (fuel : nat) (es : list IntervalEntry) (sub : list Z) (lo hi : nat) (t : Z) : list Z :=
  match fuel with
  | O => []
  | S fuel' =>
      if (hi <=? lo)%nat then []
      else
        let mid := midpoint lo hi in
        if nth mid sub 0 <=? t then []
        else
          let left := stabAt fuel' es sub lo mid t in
          let e := entry_at es mid in
          if e_From e <=? t then
            left ++ (if effTo (e_To e) >? t then [e_ID e] else []) ++ stabAt fuel' es sub (mid + 1) hi t
          else left
  end.

Fixpoint stabOverlap (fuel : nat) (es : list IntervalEntry) (sub : list Z) (lo hi : nat) (start end_ : Z) : list Z :=
  match fuel with
  | O => []
  | S fuel' =>
      if (hi <=? lo)%nat then []
      else
        let mid := midpoint lo hi in
        if nth mid sub 0 <=? start then []
        else
          let left := stabOverlap fuel' es sub lo mid start end_ in
          let e := entry_at es mid in
          if e_From e <? end_ then
            left ++ (if effTo (e_To e) >? start then [e_ID e] else []) ++ stabOverlap fuel' es sub (mid + 1) hi start end_
          else left
  end.

Definition QueryAt (ti : TemporalIndex) (t : Z) : TemporalIndex * list Z :=
  if (size (byID ti) =? 0)%nat then (ti, [])
  else
    let ti := sortIfDirty ti in
    let n := length (Entries ti) in
    (ti, sort_by Z.ltb (stabAt n (Entries ti) (subMax ti) 0 n t)).

Definition QueryOverlap (ti : TemporalIndex) (start end_ : Z) : TemporalIndex * list Z :=
  if (size (byID ti) =? 0)%nat || (start >=? end_) then (ti, [])
  else
    let ti := sortIfDirty ti in
    let n := length (Entries ti) in
    (ti, sort_by Z.ltb (stabOverlap n (Entries ti) (subMax ti) 0 n start end_)).

Definition TemporalIndex_Len (ti : TemporalIndex) : nat := if negb (queried ti) then size (byID ti) else length (Entries ti).

(** ** Store-level helpers: one index per label or relationship type token *)

Section Helpers.
Context `{Layout} {P : Type}.

Definition NodeTemporalBounds (a : ValidAxis) (id : Z) (tm : option TemporalMetadata) : Z * Z :=
  (EntityValidFrom a id tm, match tm with Some tm => ValidTo tm | None => 0 end).

Definition RelTemporalBounds (a : ValidAxis) (id : Z) (tm : option TemporalMetadata) : Z * Z := NodeTemporalBounds a id tm.

(** The map holds pointers: an update of an index is seen under its token. *)
Definition extend_at (id from to : Z) (idxs : gmap Z TemporalIndex) (tok : Z) : gmap Z TemporalIndex :=
  match idxs !! tok with
  | Some ti => <[tok := Extend id from to ti]> idxs
  | None => idxs
  end.

Definition ExtendNodeInTemporalIndexes (a : ValidAxis) (idxs : gmap Z TemporalIndex) (n : Node P) (id : Z) : gmap Z TemporalIndex :=
  if bool_decide (idxs = ∅) then idxs
  else
    let '(from, to) := NodeTemporalBounds a id (NodeTemporal n) in
    fold_left (fun ix i => extend_at id from to ix (LabelTokenRawAt (Z.of_nat i) n)) (seq 0 (LabelTokenCount n)) idxs.

Definition ExtendRelInTemporalIndexes (a : ValidAxis) (idxs : gmap Z TemporalIndex) (r : Relationship P) (id : Z) : gmap Z TemporalIndex :=
  if bool_decide (idxs = ∅) then idxs
  else
    let '(from, to) := RelTemporalBounds a id (RelTemporal r) in
    extend_at id from to idxs (r_relType r).

Definition PurgeNodeFromAllTemporalIndexes (idxs : gmap Z TemporalIndex) (id : Z) : gmap Z TemporalIndex := Remove id <$> idxs.

Definition RelCoveredInTemporalIndexes (idxs : gmap Z TemporalIndex) (r : Relationship P) (id : Z) : bool :=
  match idxs !! r_relType r with Some ti => bool_decide (is_Some (EnvelopeOf ti id)) | None => false end.

Definition RelTemporalIndexBuilding (idxs : gmap Z TemporalIndex) (r : Relationship P) : bool :=
  match idxs !! r_relType r with Some ti => Building ti | None => false end.
End Helpers.

(** ** The tree *)

(** Every node carries an upper bound of the ends in its subtree. *)
Inductive tree_ok (es : list IntervalEntry) (sub : list Z) : nat -> nat -> Prop :=
  | tree_leaf lo hi : (hi <= lo)%nat -> tree_ok es sub lo hi
  | tree_node lo hi :
      (lo < hi)%nat ->
      (forall i, (lo <= i < hi)%nat -> effTo (e_To (entry_at es i)) <= nth (midpoint lo hi) sub 0) ->
      tree_ok es sub lo (midpoint lo hi) -> tree_ok es sub (midpoint lo hi + 1) hi -> tree_ok es sub lo hi.

Lemma midpoint_bounds lo hi : (lo < hi)%nat -> (lo <= midpoint lo hi < hi)%nat.
Proof. intros H. unfold midpoint. rewrite Nat.div2_div. pose proof (Nat.div_mod (lo + hi) 2). pose proof (Nat.mod_upper_bound (lo + hi) 2). lia. Qed.

(** Only the range's own slots matter. *)
Lemma tree_frame es sub sub' lo hi :
  (forall j, (lo <= j < hi)%nat -> nth j sub' 0 = nth j sub 0) -> tree_ok es sub lo hi -> tree_ok es sub' lo hi.
Proof.
  intros Hj Ht. induction Ht as [lo hi Hle|lo hi Hlt Hb _ IH1 _ IH2]; [by constructor|].
  pose proof (midpoint_bounds lo hi Hlt). apply tree_node; [done| |apply IH1; intros; apply Hj; lia|apply IH2; intros; apply Hj; lia].
  intros i Hi. rewrite Hj by lia. by apply Hb.
Qed.

Lemma nth_insert (l : list Z) i j v : (i < length l)%nat -> nth j (<[i := v]> l) 0 = if (j =? i)%nat then v else nth j l 0.
Proof.
  intros Hi. rewrite !nth_lookup. destruct (Nat.eqb_spec j i) as [->|Hne]; [by rewrite list_lookup_insert_eq|by rewrite list_lookup_insert_ne].
Qed.

Lemma fillSubMax_ok es fuel : forall lo hi sub,
  (hi - lo <= fuel)%nat -> (hi <= length sub)%nat ->
  let '(m, sub') := fillSubMax fuel es lo hi sub in
  length sub' = length sub /\ tree_ok es sub' lo hi /\
  (forall i, (lo <= i < hi)%nat -> effTo (e_To (entry_at es i)) <= m) /\
  (forall j, ~ (lo <= j < hi)%nat -> nth j sub' 0 = nth j sub 0).
Proof.
  induction fuel as [|fuel IH]; intros lo hi sub Hf Hl; cbn [fillSubMax].
  { split_and!; [done|constructor; lia|intros; lia|done]. }
  destruct (Nat.leb_spec hi lo) as [Hle|Hlt]; [split_and!; [done|by constructor|intros; lia|done]|].
  pose proof (midpoint_bounds lo hi Hlt) as Hm. set (mid := midpoint lo hi) in *.
  specialize (IH lo mid sub ltac:(lia) ltac:(lia)) as H1. destruct (fillSubMax fuel es lo mid sub) as [l sub1]. destruct H1 as (L1 & T1 & B1 & F1).
  specialize (IH (mid + 1)%nat hi sub1 ltac:(lia) ltac:(lia)) as H2. destruct (fillSubMax fuel es (mid + 1) hi sub1) as [r sub2]. destruct H2 as (L2 & T2 & B2 & F2).
  cbv zeta. set (m1 := if l >? _ then l else _). set (m := if r >? m1 then r else m1).
  assert (Hmax : l <= m /\ r <= m /\ effTo (e_To (entry_at es mid)) <= m).
  { unfold m, m1. destruct (Z.gtb_spec l (effTo (e_To (entry_at es mid)))).
    - destruct (Z.gtb_spec r l); lia.
    - destruct (Z.gtb_spec r (effTo (e_To (entry_at es mid)))); lia. }
  assert (Hbound : forall i, (lo <= i < hi)%nat -> effTo (e_To (entry_at es i)) <= m).
  { intros i Hi. destruct (Nat.lt_trichotomy i mid) as [Hlt'|[->|Hgt]]; [specialize (B1 i ltac:(lia)); lia|lia|specialize (B2 i ltac:(lia)); lia]. }
  rewrite length_insert. split_and!; [lia| |done|].
  - apply tree_node; fold mid; [done| | |].
    + intros i Hi. rewrite nth_insert by lia. rewrite Nat.eqb_refl. by apply Hbound.
    + apply (tree_frame es sub1); [|done]. intros j Hj. rewrite nth_insert by lia. destruct (Nat.eqb_spec j mid); [lia|]. apply F2. lia.
    + apply (tree_frame es sub2); [|done]. intros j Hj. rewrite nth_insert by lia. by destruct (Nat.eqb_spec j mid); [lia|].
  - intros j Hj. rewrite nth_insert by lia. destruct (Nat.eqb_spec j mid); [lia|]. rewrite F2 by lia. apply F1. lia.
Qed.

(** ** Stabbing *)

Definition overlaps (start end_ : Z) (e : IntervalEntry) : bool := (e_From e <? end_) && (effTo (e_To e) >? start).

Definition slice (lo hi : nat) (es : list IntervalEntry) : list IntervalEntry := take (hi - lo) (drop lo es).

Lemma stabAt_overlap fuel es sub : forall lo hi t, stabAt fuel es sub lo hi t = stabOverlap fuel es sub lo hi t (t + 1).
Proof.
  induction fuel as [|fuel IH]; intros lo hi t; [done|]. cbn [stabAt stabOverlap]. rewrite !IH.
  destruct (hi <=? lo)%nat; [done|]. destruct (nth _ sub 0 <=? t); [done|]. cbv zeta.
  destruct (Z.leb_spec (e_From (entry_at es (midpoint lo hi))) t), (Z.ltb_spec (e_From (entry_at es (midpoint lo hi))) (t + 1)); done || lia.
Qed.

Lemma slice_nil lo hi es : (hi <= lo)%nat -> slice lo hi es = [].
Proof. intros H. unfold slice. by replace (hi - lo)%nat with 0%nat by lia. Qed.

Lemma slice_split lo mid hi es : (lo <= mid < hi)%nat -> (hi <= length es)%nat ->
  slice lo hi es = slice lo mid es ++ entry_at es mid :: slice (mid + 1) hi es.
Proof.
  intros Hm Hl. unfold slice, entry_at. replace (hi - lo)%nat with ((mid - lo) + (hi - mid))%nat by lia.
  rewrite <- take_take_drop, drop_drop. replace (lo + (mid - lo))%nat with mid by lia. f_equal.
  destruct (lookup_lt_is_Some_2 es mid) as [e He]; [lia|]. rewrite (drop_S _ _ _ He), (nth_lookup_Some _ _ _ _ He).
  replace (hi - mid)%nat with (S (hi - (mid + 1))) by lia. cbn [take]. by rewrite Nat.add_1_r.
Qed.

Lemma slice_elem lo hi es e : (hi <= length es)%nat -> e ∈ slice lo hi es -> exists i, (lo <= i < hi)%nat /\ entry_at es i = e.
Proof.
  intros Hl (i & Hi)%list_elem_of_lookup. unfold slice in Hi. apply lookup_take_Some in Hi as [Hi Hlt]. rewrite lookup_drop in Hi.
  exists (lo + i)%nat. split; [lia|]. unfold entry_at. by apply nth_lookup_Some.
Qed.

Lemma filter_map_nil {B} (f : IntervalEntry -> bool) (g : IntervalEntry -> B) l : (forall e, e ∈ l -> f e = false) -> map g (List.filter f l) = [].
Proof. intros H. by rewrite Lfilter_none. Qed.

Lemma stabOverlap_exact es sub start end_ fuel : forall lo hi,
  StronglySorted (fun x y => e_From x <= e_From y) es -> (hi - lo <= fuel)%nat -> (hi <= length es)%nat -> tree_ok es sub lo hi ->
  stabOverlap fuel es sub lo hi start end_ = map e_ID (List.filter (overlaps start end_) (slice lo hi es)).
Proof.
  intros lo hi Hs. revert lo hi. induction fuel as [|fuel IH]; intros lo hi Hf Hl Ht; cbn [stabOverlap].
  { by rewrite slice_nil by lia. }
  destruct (Nat.leb_spec hi lo) as [Hle|Hlt]; [by rewrite slice_nil by lia|]. destruct Ht as [|lo hi _ Hb Tl Tr]; [lia|].
  pose proof (midpoint_bounds lo hi Hlt) as Hm. set (mid := midpoint lo hi) in *. destruct (Z.leb_spec (nth mid sub 0) start) as [Hp|Hp].
  { symmetry. apply filter_map_nil. intros e (i & Hi & <-)%slice_elem; [|done]. specialize (Hb i Hi). unfold overlaps.
    destruct (Z.gtb_spec (effTo (e_To (entry_at es i))) start); [lia|]. apply andb_false_r. }
  rewrite (slice_split lo mid hi) by lia. cbv zeta. rewrite IH by (done || lia). rewrite List.filter_app, map_app. cbn [List.filter].
  assert (Hov : overlaps start end_ (entry_at es mid) = (e_From (entry_at es mid) <? end_) && (effTo (e_To (entry_at es mid)) >? start)) by done.
  destruct (Z.ltb_spec (e_From (entry_at es mid)) end_) as [He|He]; cbn [andb] in Hov; rewrite Hov.
  - rewrite IH by (done || lia). by destruct (_ >? start).
  - rewrite (filter_map_nil _ _ (slice (mid + 1) hi es)); [by rewrite app_nil_r|]. intros e (i & Hi & <-)%slice_elem; [|done]. unfold overlaps.
    assert (Hfrom : e_From (entry_at es mid) <= e_From (entry_at es i)).
    { unfold entry_at. apply (StronglySorted_nth (fun x y => e_From x <= e_From y)); [done|lia]. }
    destruct (Z.ltb_spec (e_From (entry_at es i)) end_); [lia|done].
Qed.

(** ** The entries and the maps *)

Definition ids_of (es : list IntervalEntry) : list Z := map e_ID es.

Record entries_ok (es : list IntervalEntry) (m : gmap Z (Z * Z)) (pos : gmap Z nat) : Prop := {
  eo_nodup : NoDup (ids_of es);
  eo_map : forall id f t, m !! id = Some (f, t) <-> mkEntry f t id ∈ es;
  eo_pos : forall i e, es !! i = Some e -> pos !! e_ID e = Some i;
  eo_only : forall k, is_Some (pos !! k) -> k ∈ ids_of es;
}.

Lemma elem_of_ids es e : e ∈ es -> e_ID e ∈ ids_of es.
Proof. intros He. apply list_elem_of_fmap. by exists e. Qed.

Lemma ids_elem es id : id ∈ ids_of es -> exists f t, mkEntry f t id ∈ es.
Proof. intros ([f t k] & -> & He)%list_elem_of_fmap. by exists f, t. Qed.

Lemma NoDup_ids_filter (f : IntervalEntry -> bool) es : NoDup (ids_of es) -> NoDup (ids_of (List.filter f es)).
Proof.
  unfold ids_of. induction es as [|e es IH]; [done|]. cbn [map List.filter]. intros [Hn Hnd]%NoDup_cons.
  destruct (f e); cbn [map]; [|by apply IH]. apply NoDup_cons. split; [|by apply IH]. intros (x & Ex & Hx)%list_elem_of_fmap.
  apply Hn, list_elem_of_fmap. exists x. split; [done|]. by apply elem_of_Lfilter in Hx as [Hx _].
Qed.

Lemma absent_id es m pos id : entries_ok es m pos -> m !! id = None <-> id ∉ ids_of es.
Proof.
  intros [_ Hm _ _]. split.
  - intros Hn (f & t & He)%ids_elem. apply Hm in He. congruence.
  - intros Hn. destruct (m !! id) as [[f t]|] eqn:E; [|done]. apply Hm in E. destruct Hn. by apply elem_of_ids in E.
Qed.

Lemma entries_append es m pos id f t : entries_ok es m pos -> m !! id = None ->
  entries_ok (es ++ [mkEntry f t id]) (<[id := (f, t)]> m) (<[id := length es]> pos).
Proof.
  intros Hok Hn. pose proof (proj1 (absent_id _ _ _ id Hok) Hn) as Hid. destruct Hok as [Hnd Hm Hp Ho].
  assert (Hids : ids_of (es ++ [mkEntry f t id]) = ids_of es ++ [id]) by (unfold ids_of; by rewrite map_app). split.
  - rewrite Hids. apply NoDup_app. split_and!; [done| |apply NoDup_singleton]. intros x Hx ->%list_elem_of_singleton. done.
  - intros k f' t'. rewrite elem_of_app, list_elem_of_singleton. destruct (decide (k = id)) as [->|Hne].
    + rewrite lookup_insert_eq. split; [intros [= -> ->]; by right|]. intros [He|[= -> ->]]; [|done].
      destruct Hid. by apply (elem_of_ids es) in He.
    + rewrite lookup_insert_ne by done. rewrite Hm. split; [by left|]. intros [He|[= _ _ ->]]; done.
  - intros i e [Hi|[Hge Hi]]%lookup_app_Some.
    + rewrite lookup_insert_ne; [by apply Hp|]. intros E. apply Hid. rewrite E. by eapply elem_of_ids, list_elem_of_lookup_2.
    + destruct (i - length es)%nat as [|k] eqn:Ei; [|done]. injection Hi as <-. cbn. rewrite lookup_insert_eq. f_equal. lia.
  - intros k Hk. rewrite Hids. apply elem_of_app. destruct (decide (k = id)) as [->|Hne]; [right; left|].
    rewrite lookup_insert_ne in Hk by done. left. by apply Ho.
Qed.

Lemma entries_update es m pos i e f t : entries_ok es m pos -> es !! i = Some e ->
  entries_ok (<[i := mkEntry f t (e_ID e)]> es) (<[e_ID e := (f, t)]> m) pos.
Proof.
  intros [Hnd Hm Hp Ho] Hi. pose proof (lookup_lt_Some _ _ _ Hi) as Hlt.
  assert (Hids : ids_of (<[i := mkEntry f t (e_ID e)]> es) = ids_of es).
  { unfold ids_of. rewrite (list_fmap_insert e_ID). apply list_insert_id. by rewrite list_lookup_fmap, Hi. }
  assert (Hu : forall j x, es !! j = Some x -> e_ID x = e_ID e -> j = i).
  { intros j x Hj Hx. eapply (NoDup_lookup (ids_of es)); [done| |]; unfold ids_of; rewrite list_lookup_fmap; [by rewrite Hj|rewrite Hi; cbn; by rewrite Hx]. }
  split; rewrite ?Hids; try done.
  - intros k f' t'. destruct (decide (k = e_ID e)) as [->|Hne].
    + rewrite lookup_insert_eq. split.
      * intros [= <- <-]. apply list_elem_of_lookup. exists i. by apply list_lookup_insert_eq.
      * intros (j & Hj)%list_elem_of_lookup. apply list_lookup_insert_Some in Hj as [(_ & E & _)|[Hji Hj]]; [by injection E as -> ->|].
        destruct Hji. symmetry. by eapply Hu.
    + rewrite lookup_insert_ne by done. rewrite Hm, !list_elem_of_lookup. split; intros [j Hj].
      * exists j. rewrite list_lookup_insert_ne; [done|]. intros ->. rewrite Hi in Hj. injection Hj as ->. done.
      * apply list_lookup_insert_Some in Hj as [(_ & [= _ _ E] & _)|[_ Hj]]; [done|by exists j].
  - intros j x [(-> & <- & _)|[_ Hj]]%list_lookup_insert_Some; [by apply (Hp j e)|by apply Hp].
Qed.

Lemma remove_loop_spec id es : forall out pos,
  NoDup (ids_of (out ++ es)) -> (forall i e, out !! i = Some e -> pos !! e_ID e = Some i) ->
  (forall k, is_Some (pos !! k) -> k = id \/ k ∈ ids_of (out ++ es)) ->
  let '(out', pos') := remove_loop id es out pos in
  out' = out ++ List.filter (fun e => negb (e_ID e =? id)) es /\
  (forall i e, out' !! i = Some e -> pos' !! e_ID e = Some i) /\ (forall k, is_Some (pos' !! k) -> k = id \/ k ∈ ids_of out').
Proof.
  induction es as [|e es IH]; intros out pos Hnd Hp Ho; cbn [remove_loop List.filter].
  { rewrite app_nil_r in *. done. }
  assert (Hids : ids_of (out ++ e :: es) = ids_of out ++ e_ID e :: ids_of es) by (unfold ids_of; by rewrite map_app).
  rewrite Hids in Hnd. apply NoDup_app in Hnd as (N1 & N2 & N3). apply NoDup_cons in N3 as [N3 N4].
  destruct (Z.eqb_spec (e_ID e) id) as [<-|Hne]; cbn [negb].
  - apply IH; [| done |].
    + unfold ids_of in *. rewrite map_app. apply NoDup_app. split_and!; [done|set_solver|done].
    + intros k Hk. destruct (Ho k Hk) as [->|Hin]; [by left|]. rewrite Hids in Hin. unfold ids_of in *. rewrite map_app. set_solver.
  - assert (E : (out ++ [e]) ++ es = out ++ e :: es) by by rewrite <- app_assoc.
    specialize (IH (out ++ [e]) (<[e_ID e := length out]> pos)). rewrite E, <- app_assoc in IH. cbn [app] in IH. apply IH.
    + rewrite Hids. apply NoDup_app. split_and!; [done|done|by apply NoDup_cons].
    + intros i x [Hi|[Hge Hi]]%lookup_app_Some.
      * rewrite lookup_insert_ne; [by apply Hp|]. intros Ex. apply (N2 (e_ID e)); [|left]. rewrite Ex. by eapply elem_of_ids, list_elem_of_lookup_2.
      * destruct (i - length out)%nat as [|k] eqn:Ei; [|done]. injection Hi as <-. rewrite lookup_insert_eq. f_equal. lia.
    + intros k Hk. destruct (decide (k = e_ID e)) as [->|Hk']; [right; rewrite Hids; set_solver|]. rewrite lookup_insert_ne in Hk by done. by apply Ho.
Qed.

Lemma remove_loop_ok id es m pos : entries_ok es m pos ->
  let '(out, pos') := remove_loop id es [] pos in entries_ok out (delete id m) (delete id pos').
Proof.
  intros [Hnd Hm Hp Ho]. pose proof (remove_loop_spec id es [] pos Hnd ltac:(by intros [|i] e Hi) ltac:(auto)) as H.
  destruct (remove_loop id es [] pos) as [out pos']. destruct H as (-> & Hp' & Ho'). cbn [app] in *.
  assert (Hf : forall e, e ∈ List.filter (fun e => negb (e_ID e =? id)) es <-> e ∈ es /\ e_ID e <> id).
  { intros e. rewrite !list_elem_of_In, List.filter_In, negb_true_iff, Z.eqb_neq. done. }
  assert (Hnot : forall k, k ∈ ids_of (List.filter (fun e => negb (e_ID e =? id)) es) -> k <> id).
  { intros k (f & t & [_ He]%Hf)%ids_elem. done. }
  split.
  - by apply NoDup_ids_filter.
  - intros k f t. rewrite Hf, <- Hm. cbn. rewrite lookup_delete_Some. naive_solver.
  - intros i e Hi. rewrite lookup_delete_ne; [by apply Hp'|]. apply not_eq_sym, Hnot. by eapply elem_of_ids, list_elem_of_lookup_2.
  - intros k [x [Hne Hk]%lookup_delete_Some]. destruct (Ho' k ltac:(eauto)) as [->|Hin]; [done|done].
Qed.

(** A permutation of the entries with its positions rebuilt. *)
Lemma fold_pos es : forall k (pos : gmap Z nat),
  NoDup (ids_of es) ->
  let pos' := fold_left (fun m (ie : nat * IntervalEntry) => <[e_ID ie.2 := ie.1]> m) (zip (seq k (length es)) es) pos in
  (forall i e, es !! i = Some e -> pos' !! e_ID e = Some (k + i)%nat) /\ (forall id, id ∉ ids_of es -> pos' !! id = pos !! id).
Proof.
  induction es as [|e es IH]; intros k pos Hnd; [done|]. cbn [length seq zip fold_left].
  unfold ids_of in Hnd. cbn [map] in Hnd. apply NoDup_cons in Hnd as [Hn Hnd].
  destruct (IH (S k) (<[e_ID e := k]> pos) Hnd) as [H1 H2]. cbv zeta in *. split.
  - intros [|i] x Hx; cbn in Hx.
    + injection Hx as <-. cbn [zip_with fold_left fst snd]. rewrite H2 by done. rewrite lookup_insert_eq. f_equal. lia.
    + cbn [zip_with fold_left fst snd]. rewrite (H1 i x Hx). f_equal. lia.
  - intros id Hid. unfold ids_of in Hid. cbn [map] in Hid. cbn [zip_with fold_left fst snd]. rewrite H2 by set_solver. apply lookup_insert_ne. set_solver.
Qed.

Lemma entries_resort es es' m pos :
  NoDup (ids_of es) -> (forall id f t, m !! id = Some (f, t) <-> mkEntry f t id ∈ es) -> (forall k, is_Some (pos !! k) -> k ∈ ids_of es) ->
  es' ≡ₚ es -> entries_ok es' m (rebuild_pos es' pos).
Proof.
  intros Hnd Hm Ho Hp. assert (Hids : ids_of es' ≡ₚ ids_of es) by (unfold ids_of; by apply (fmap_Permutation e_ID)).
  assert (Hnd' : NoDup (ids_of es')) by by rewrite Hids. destruct (fold_pos es' 0 pos Hnd') as [H1 H2]. split.
  - done.
  - intros id f t. by rewrite Hm, Hp.
  - exact H1.
  - intros k Hk. destruct (decide (k ∈ ids_of es')) as [|Hn]; [done|]. unfold rebuild_pos in Hk. rewrite H2 in Hk by done. rewrite Hids. by apply Ho.
Qed.

(** ** The invariant *)

Record ti_ok (ti : TemporalIndex) : Prop := {
  ok_unqueried : queried ti = false -> posByID ti = ∅;
  ok_entries : queried ti = true -> entries_ok (Entries ti) (byID ti) (posByID ti);
  ok_clean : queried ti = true -> dirty ti = false ->
    StronglySorted (fun x y => e_From x <= e_From y) (Entries ti) /\ tree_ok (Entries ti) (subMax ti) 0 (length (Entries ti));
}.

#[export] Instance by_from_StrictWeak : StrictWeak by_from.
Proof.
  split; unfold by_from.
  - intros x. rewrite Z.eqb_refl. apply Z.ltb_irrefl.
  - intros x y z. repeat case_match; rewrite ?Z.eqb_eq, ?Z.eqb_neq, ?Z.ltb_lt in *; lia.
  - intros x y z. repeat case_match; rewrite ?Z.eqb_eq, ?Z.eqb_neq, ?Z.ltb_lt in *; lia.
Qed.

Lemma by_from_starts es : StronglySorted (fun x y => e_From x <= e_From y) (sort_by by_from es).
Proof.
  eapply StronglySorted_weaken; [|apply sort_by_ordered, _]. intros x y. unfold by_from. destruct (Z.eqb_spec (e_From y) (e_From x)); [lia|].
  rewrite Z.ltb_ge. done.
Qed.

Lemma materialize_entries (m : gmap Z (Z * Z)) :
  let es := map (fun p : Z * (Z * Z) => mkEntry p.2.1 p.2.2 p.1) (map_to_list m) in
  NoDup (ids_of es) /\ (forall id f t, m !! id = Some (f, t) <-> mkEntry f t id ∈ es).
Proof.
  cbv zeta. split.
  - unfold ids_of. rewrite map_map. cbn. apply (NoDup_fst_map_to_list m).
  - intros id f t. rewrite <- elem_of_map_to_list, list_elem_of_fmap. split; [by exists (id, (f, t))|].
    intros ([k [f' t']] & [= -> -> ->] & Hk). done.
Qed.

Lemma buildSubMax_tree ti :
  let ti' := buildSubMax ti in Entries ti' = Entries ti /\ tree_ok (Entries ti') (subMax ti') 0 (length (Entries ti')).
Proof.
  cbv zeta. split; [done|]. unfold buildSubMax. cbn [Entries subMax]. set (n := length (Entries ti)).
  destruct (Nat.ltb_spec 0 n) as [Hn|Hn]; [|by constructor; lia].
  pose proof (fillSubMax_ok (Entries ti) n 0 n (take n (subMax ti ++ repeat 0 n))) as H.
  destruct (fillSubMax _ _ _ _ _) as [x sub]. apply H; [lia|]. rewrite length_take, length_app, repeat_length. lia.
Qed.

Lemma sortIfDirty_ok ti : ti_ok ti ->
  let ti' := sortIfDirty ti in ti_ok ti' /\ byID ti' = byID ti /\ queried ti' = true /\ dirty ti' = false.
Proof.
  intros [Hu He Hc]. unfold sortIfDirty. set (t1 := if negb (queried ti) then materialize ti else ti).
  assert (H1 : queried t1 = true /\ byID t1 = byID ti /\ NoDup (ids_of (Entries t1)) /\
               (forall id f t, byID ti !! id = Some (f, t) <-> mkEntry f t id ∈ Entries t1) /\
               (forall k, is_Some (posByID t1 !! k) -> k ∈ ids_of (Entries t1)) /\ (dirty t1 = false -> t1 = ti)).
  { unfold t1. destruct (queried ti) eqn:Eq; cbn [negb].
    - destruct (He eq_refl). done.
    - destruct (materialize_entries (byID ti)). split_and!; try done. cbn [materialize posByID]. rewrite Hu by done.
      intros k [? Hk]. by rewrite lookup_empty in Hk. }
  clearbody t1. destruct H1 as (Hq & Hb & Hnd & Hm & Ho & Hd). destruct (dirty t1) eqn:Ed; cbn [negb].
  - match goal with |- context[buildSubMax ?t] => set (t2 := t) end.
    destruct (buildSubMax_tree t2) as [HE HT]. cbv zeta in *. split_and!; try done. split; cbn [queried dirty Entries byID posByID subMax].
    + unfold buildSubMax, t2. cbn. congruence.
    + intros _. unfold buildSubMax, t2. cbn [Entries byID posByID]. rewrite Hb.
      apply (entries_resort (Entries t1)); [done..|]. apply sort_by_perm.
    + intros _ _. split; [|exact HT]. rewrite HE. apply by_from_starts.
  - rewrite (Hd eq_refl) in *. done.
Qed.

Lemma ti_ok_dirty ti : dirty ti = true -> (queried ti = false -> posByID ti = ∅) ->
  (queried ti = true -> entries_ok (Entries ti) (byID ti) (posByID ti)) -> ti_ok ti.
Proof. intros Hd Hu He. split; [done..|congruence]. Qed.

Lemma Remove_ok id ti : ti_ok ti -> ti_ok (Remove id ti) /\ byID (Remove id ti) = delete id (byID ti) /\ queried (Remove id ti) = queried ti.
Proof.
  intros [Hu He Hc]. unfold Remove. cbn [markMutated queried]. destruct (queried ti) eqn:Eq; cbn [negb].
  - cbn [Entries posByID markMutated]. pose proof (remove_loop_ok id _ _ _ (He eq_refl)) as H.
    destruct (remove_loop _ _ _ _) as [out pos]. split_and!; [|done|done]. by apply ti_ok_dirty.
  - split_and!; [|done|done]. apply ti_ok_dirty; cbn; [done|done|congruence].
Qed.

Lemma append_entry_ok id f t ti : ti_ok ti -> queried ti = true -> byID ti !! id = None ->
  let ti' := append_entry id f t ti in entries_ok (Entries ti') (byID ti') (posByID ti').
Proof.
  intros [_ He _] Hq Hn. cbn. rewrite length_app. cbn [length]. replace (length (Entries ti) + 1 - 1)%nat with (length (Entries ti)) by lia.
  apply entries_append; [by apply He|done].
Qed.

(** What each operation does to the envelopes. *)
Definition extend_env (f t : Z) (e : option (Z * Z)) : Z * Z :=
  match e with Some (f', t') => (Z.min f f', unionTo t' t) | None => (f, t) end.

Lemma extendByID_ok id f t ti : queried ti = false -> ti_ok ti ->
  let ti' := extendByID id f t ti in
  byID ti' = <[id := extend_env f t (byID ti !! id)]> (byID ti) /\ queried ti' = false /\ posByID ti' = ∅.
Proof. intros Hq [Hu _ _]. unfold extendByID, extend_env. destruct (byID ti !! id) as [[f' t']|]; cbn; split_and!; auto. Qed.

Lemma Add_ok id f t ti : ti_ok ti -> ti_ok (Add id f t ti) /\ byID (Add id f t ti) = <[id := (f, t)]> (byID ti).
Proof.
  intros Hok. unfold Add. destruct (queried ti) eqn:Eq; cbn [negb].
  - destruct (Remove_ok id ti Hok) as (Hr & Hb & Hq). rewrite Eq in Hq.
    pose proof (append_entry_ok id f t _ Hr Hq) as Ha. rewrite Hb, lookup_delete_eq in Ha. specialize (Ha eq_refl). split.
    + apply ti_ok_dirty; cbn; [done|congruence|]. intros _. exact Ha.
    + cbn. by rewrite Hb, insert_delete_eq.
  - split; [|done]. apply ti_ok_dirty; cbn; [done| |congruence]. intros _. by apply Hok.
Qed.

Lemma Extend_ok id f t ti : ti_ok ti -> ti_ok (Extend id f t ti) /\ byID (Extend id f t ti) = <[id := extend_env f t (byID ti !! id)]> (byID ti).
Proof.
  intros Hok. unfold Extend. destruct (queried ti) eqn:Eq; cbn [negb].
  - pose proof (ok_entries _ Hok Eq) as He. destruct (posByID ti !! id) as [i|] eqn:Ep.
    + destruct (ids_elem _ id (eo_only _ _ _ He id ltac:(by eexists))) as (f' & t' & Hin).
      pose proof (proj2 (eo_map _ _ _ He id f' t') Hin) as Hm. apply list_elem_of_lookup in Hin as [j Hj].
      pose proof (eo_pos _ _ _ He j _ Hj) as Hp. cbn in Hp. rewrite Ep in Hp. injection Hp as ->.
      rewrite Hj. cbn [e_From e_To e_ID]. rewrite Hm. cbn [extend_env].
      replace (if f <? f' then f else f') with (Z.min f f') by (destruct (Z.ltb_spec f f'); lia). split; [|done].
      apply ti_ok_dirty; cbn; [done|congruence|]. intros _. by apply (entries_update _ _ _ j (mkEntry f' t' id)).
    + assert (Hn : byID ti !! id = None).
      { apply (absent_id _ _ _ _ He). intros (f' & t' & [j Hj]%list_elem_of_lookup)%ids_elem. apply (eo_pos _ _ _ He) in Hj. cbn in Hj. congruence. }
      rewrite Hn. split; [|done]. apply ti_ok_dirty; cbn [setDirty markMutated dirty queried]; [done|cbn; congruence|]. intros _. by apply append_entry_ok.
  - destruct (extendByID_ok id f t ti Eq Hok) as (Hb & Hq & Hp). split; [|done]. apply ti_ok_dirty; cbn; [done|done|congruence].
Qed.

Lemma AddKnownAbsent_ok id f t ti : ti_ok ti -> byID ti !! id = None ->
  ti_ok (AddKnownAbsent id f t ti) /\ byID (AddKnownAbsent id f t ti) = <[id := (f, t)]> (byID ti).
Proof.
  intros Hok Hn. unfold AddKnownAbsent. destruct (queried ti) eqn:Eq; cbn [negb].
  - split; [|done]. apply ti_ok_dirty; cbn [setDirty dirty queried]; [done|cbn; congruence|]. intros _. by apply append_entry_ok.
  - destruct (extendByID_ok id f t ti Eq Hok) as (Hb & Hq & Hp). rewrite Hn in Hb. split; [|done]. apply ti_ok_dirty; cbn; [done|done|congruence].
Qed.

Lemma ClearMutationTracking_ok ti : ti_ok ti -> ti_ok (ClearMutationTracking ti).
Proof. by intros [Hu He Hc]; split. Qed.

(** ** Queries *)

(** An envelope [f, t) meets [start, end). *)
Definition env_meets (start end_ : Z) (e : Z * Z) : Prop := e.1 < end_ /\ (e.2 = 0 \/ start < e.2).

(** The answer a query owes: the ids whose envelope meets the window, ascending. *)
Definition answers (m : gmap Z (Z * Z)) (start end_ : Z) (ids : list Z) : Prop :=
  StronglySorted Z.lt ids /\ forall id, id ∈ ids <-> exists e, m !! id = Some e /\ env_meets start end_ e.

Lemma overlaps_env start end_ e : start < maxInstant -> overlaps start end_ e = true <-> env_meets start end_ (e_From e, e_To e).
Proof.
  intros Hs. unfold overlaps, env_meets, effTo. cbn. rewrite andb_true_iff, Z.ltb_lt, Z.gtb_lt.
  destruct (Z.eqb_spec (e_To e) 0); lia.
Qed.

Lemma stab_answers ti start end_ : ti_ok ti -> queried ti = true -> dirty ti = false -> start < maxInstant ->
  let n := length (Entries ti) in
  answers (byID ti) start end_ (sort_by Z.ltb (stabOverlap n (Entries ti) (subMax ti) 0 n start end_)).
Proof.
  intros [_ He Hc] Hq Hd Hs. destruct (Hc Hq Hd) as [Hsort Ht]. destruct (He Hq) as [Hnd Hm _ _]. cbv zeta.
  rewrite (stabOverlap_exact _ _ _ _ _ 0 (length (Entries ti)) Hsort) by (done || lia).
  unfold slice. rewrite drop_0, take_ge by lia. split.
  - by apply sort_Z_strict, (NoDup_ids_filter (overlaps start end_)).
  - intros id. rewrite elem_of_sort_by, list_elem_of_fmap. split.
    + intros ([f t k] & -> & Hx). apply elem_of_Lfilter in Hx as [Hx Ho]. exists (f, t). split; [by apply Hm|]. by apply overlaps_env in Ho.
    + intros ([f t] & Hk & Hme). exists (mkEntry f t id). split; [done|]. apply elem_of_Lfilter. split; [by apply Hm|by apply overlaps_env].
Qed.

Lemma no_envelopes m start end_ : size m = 0%nat -> answers m start end_ [].
Proof.
  intros ->%map_size_empty_inv. split; [constructor|]. intros id. split; [by intros ?%not_elem_of_nil|]. intros (e & He & _). by rewrite lookup_empty in He.
Qed.

Lemma QueryOverlap_ok ti start end_ : ti_ok ti -> start < maxInstant ->
  let '(ti', ids) := QueryOverlap ti start end_ in
  ti_ok ti' /\ byID ti' = byID ti /\ if start <? end_ then answers (byID ti) start end_ ids else ids = [].
Proof.
  intros Hok Hs. unfold QueryOverlap. destruct (Nat.eqb_spec (size (byID ti)) 0) as [Hz|Hz]; cbn [orb].
  { split_and!; [done|done|]. case_match; [by apply no_envelopes|done]. }
  destruct (Z.geb_spec start end_); destruct (Z.ltb_spec start end_); try lia; [done|].
  destruct (sortIfDirty_ok ti Hok) as (H1 & H2 & H3 & H4). cbv zeta in *. split_and!; [done|done|]. rewrite <- H2. by apply stab_answers.
Qed.

Lemma QueryAt_ok ti x : ti_ok ti -> x < maxInstant ->
  let '(ti', ids) := QueryAt ti x in ti_ok ti' /\ byID ti' = byID ti /\ answers (byID ti) x (x + 1) ids.
Proof.
  intros Hok Hs. unfold QueryAt. destruct (Nat.eqb_spec (size (byID ti)) 0) as [Hz|Hz].
  { split_and!; [done|done|]. by apply no_envelopes. }
  destruct (sortIfDirty_ok ti Hok) as (H1 & H2 & H3 & H4). cbv zeta in *. split_and!; [done|done|]. rewrite <- H2, stabAt_overlap. by apply stab_answers.
Qed.

(** ** Histories of operations and what they owe *)

Inductive index_op :=
  | OpAdd (id from to : Z)
  | OpExtend (id from to : Z)
  | OpAddKnownAbsent (id from to : Z)
  | OpRemove (id : Z)
  | OpQueryAt (x : Z)
  | OpQueryOverlap (start end_ : Z)
  | OpClear.

Definition run_op (ti : TemporalIndex) (op : index_op) : TemporalIndex :=
  match op with
  | OpAdd id f t => Add id f t ti
  | OpExtend id f t => Extend id f t ti
  | OpAddKnownAbsent id f t => AddKnownAbsent id f t ti
  | OpRemove id => Remove id ti
  | OpQueryAt x => (QueryAt ti x).1
  | OpQueryOverlap s e => (QueryOverlap ti s e).1
  | OpClear => ClearMutationTracking ti
  end.

(** The abstract index: a finite map of envelopes. *)
Definition spec_op (m : gmap Z (Z * Z)) (op : index_op) : gmap Z (Z * Z) :=
  match op with
  | OpAdd id f t | OpAddKnownAbsent id f t => <[id := (f, t)]> m
  | OpExtend id f t => <[id := extend_env f t (m !! id)]> m
  | OpRemove id => delete id m
  | OpQueryAt _ | OpQueryOverlap _ _ | OpClear => m
  end.

(** The caller's part: [AddKnownAbsent] only of an absent id. *)
Fixpoint ops_allowed (m : gmap Z (Z * Z)) (ops : list index_op) : Prop :=
  match ops with
  | [] => True
  | op :: ops' => match op with OpAddKnownAbsent id _ _ => m !! id = None | _ => True end /\ ops_allowed (spec_op m op) ops'
  end.

(** No operation replaces or removes [id]. *)
Definition keeps (id : Z) (op : index_op) : bool :=
  match op with OpAdd k _ _ | OpAddKnownAbsent k _ _ | OpRemove k => negb (k =? id) | _ => true end.

Lemma query_state_ok ti ti' : ti_ok ti -> ti' = ti \/ ti' = sortIfDirty ti -> ti_ok ti' /\ byID ti' = byID ti.
Proof. intros Hok [->| ->]; [done|]. by destruct (sortIfDirty_ok ti Hok) as (? & ? & _). Qed.

Lemma run_op_ok ti op : ti_ok ti -> match op with OpAddKnownAbsent id _ _ => byID ti !! id = None | _ => True end ->
  ti_ok (run_op ti op) /\ byID (run_op ti op) = spec_op (byID ti) op.
Proof.
  intros Hok Ha. destruct op as [id f t|id f t|id f t|id|x|s e|]; cbn [run_op spec_op].
  - by apply Add_ok.
  - by apply Extend_ok.
  - by apply AddKnownAbsent_ok.
  - by destruct (Remove_ok id ti Hok) as (? & ? & _).
  - apply query_state_ok; [done|]. unfold QueryAt. case_match; [by left|by right].
  - apply query_state_ok; [done|]. unfold QueryOverlap. case_match; [by left|by right].
  - by split; [apply ClearMutationTracking_ok|].
Qed.

Lemma run_ops_ok ops : forall ti, ti_ok ti -> ops_allowed (byID ti) ops ->
  ti_ok (fold_left run_op ops ti) /\ byID (fold_left run_op ops ti) = fold_left spec_op ops (byID ti).
Proof.
  induction ops as [|op ops IH]; intros ti Hok Ha; [done|]. cbn [fold_left ops_allowed] in *. destruct Ha as [Ha Hr].
  destruct (run_op_ok ti op Hok Ha) as [H1 H2]. rewrite <- H2 in Hr |- *. by apply IH.
Qed.

Lemma new_ok : ti_ok NewTemporalIndex.
Proof. by split. Qed.

Lemma Len_ok ti : ti_ok ti -> TemporalIndex_Len ti = size (byID ti).
Proof.
  intros [_ He _]. unfold TemporalIndex_Len. destruct (queried ti); cbn [negb]; [|done]. destruct (He eq_refl) as [Hnd Hm _ _].
  assert (Hp : map_to_list (byID ti) ≡ₚ map (fun e => (e_ID e, (e_From e, e_To e))) (Entries ti)).
  { apply list.NoDup_Permutation.
    - apply NoDup_map_to_list.
    - apply (NoDup_fmap_1 fst). change (NoDup (map fst (map (fun e => (e_ID e, (e_From e, e_To e))) (Entries ti)))). by rewrite map_map.
    - intros [k [f t]]. rewrite elem_of_map_to_list, Hm, list_elem_of_fmap. split; [by exists (mkEntry f t k)|].
      by intros ([f' t' k'] & [= -> -> ->] & ?). }
  by rewrite <- length_map_to_list, Hp, length_map.
Qed.

(** C19: The temporal index refines a finite map of envelopes.  After any sequence
    of adds, extends, removes, queries and clears on a fresh index (AddKnownAbsent
    only of an absent id), EnvelopeOf is the map's look-up, Len its size, and
    QueryAt and QueryOverlap answer, in ascending order, exactly the ids whose
    envelope covers the instant or meets the window (none for an empty window),
    for every start below the largest instant, which stands for an open end. *)
Theorem temporal_index_refines ops : ops_allowed ∅ ops ->
  let ti := fold_left run_op ops NewTemporalIndex in
  let m := fold_left spec_op ops ∅ in
  (forall id, EnvelopeOf ti id = m !! id) /\ TemporalIndex_Len ti = size m /\
  (forall x, x < maxInstant -> answers m x (x + 1) (QueryAt ti x).2) /\
  (forall start end_, start < maxInstant ->
     if start <? end_ then answers m start end_ (QueryOverlap ti start end_).2 else (QueryOverlap ti start end_).2 = []).
Proof.
  intros Ha. cbv zeta. destruct (run_ops_ok ops NewTemporalIndex new_ok Ha) as [Hok Hb]. cbn [byID NewTemporalIndex] in Hb. split_and!.
  - intros id. unfold EnvelopeOf. by rewrite Hb.
  - by rewrite (Len_ok _ Hok), Hb.
  - intros x Hx. pose proof (QueryAt_ok _ x Hok Hx) as H. destruct (QueryAt _ x). rewrite <- Hb. by destruct H as (_ & _ & ?).
  - intros s e Hs. pose proof (QueryOverlap_ok _ s e Hok Hs) as H. destruct (QueryOverlap _ s e). rewrite <- Hb. by destruct H as (_ & _ & ?).
Qed.

Lemma temporal_index_refines_witness :
  let ops := [OpExtend 7 10 20; OpAddKnownAbsent 8 5 0; OpQueryAt 6; OpExtend 7 30 40; OpAdd 9 (-4) 12; OpRemove 8] in
  let ti := fold_left run_op ops NewTemporalIndex in
  QueryAt ti 25 = (sortIfDirty ti, [7]) /\ (QueryOverlap ti 0 11).2 = [7; 9] /\ answers (fold_left spec_op ops ∅) 25 26 (QueryAt ti 25).2.
Proof.
  cbv zeta. split; [vm_compute; reflexivity|]. split; [vm_compute; reflexivity|].
  pose proof (temporal_index_refines [OpExtend 7 10 20; OpAddKnownAbsent 8 5 0; OpQueryAt 6; OpExtend 7 30 40; OpAdd 9 (-4) 12; OpRemove 8]) as H.
  apply H; [|done]. cbn [ops_allowed]. split_and!; try exact I. reflexivity.
Defined.

(** ** No candidate is missed *)

Lemma extend_env_meets f t f' t' start end_ :
  env_meets start end_ (f, t) \/ env_meets start end_ (f', t') -> env_meets start end_ (extend_env f t (Some (f', t'))).
Proof.
  unfold env_meets, extend_env, unionTo. cbn. destruct (Z.eqb_spec t' 0), (Z.eqb_spec t 0); cbn [orb]; [lia..|].
  destruct (Z.gtb_spec t t'); lia.
Qed.

Lemma spec_op_keeps m op id start end_ : keeps id op = true ->
  (exists e, m !! id = Some e /\ env_meets start end_ e) -> exists e, spec_op m op !! id = Some e /\ env_meets start end_ e.
Proof.
  intros Hk (e & He & Hm). destruct op as [k f t|k f t|k f t|k|x|s u|]; cbn [keeps spec_op] in *;
    try (apply negb_true_iff, Z.eqb_neq in Hk; exists e; by rewrite ?lookup_insert_ne, ?lookup_delete_ne); try (by exists e).
  destruct (decide (k = id)) as [->|Hne]; [|exists e; by rewrite lookup_insert_ne].
  rewrite lookup_insert_eq, He. destruct e as [f' t']. eexists. split; [done|]. apply extend_env_meets. by right.
Qed.

Lemma spec_ops_keep ops : forall m id start end_, forallb (keeps id) ops = true ->
  (exists e, m !! id = Some e /\ env_meets start end_ e) -> exists e, fold_left spec_op ops m !! id = Some e /\ env_meets start end_ e.
Proof.
  induction ops as [|op ops IH]; intros m id s e Hk Hm; [done|]. cbn [forallb fold_left] in *. apply andb_true_iff in Hk as [H1 H2].
  apply IH; [done|]. by apply spec_op_keeps.
Qed.

Section Complete.
Context `{Layout} {P : Type}.
Implicit Types (a : ValidAxis) (n : Node P) (idxs : gmap Z TemporalIndex).

(** A row that meets a window meets it with its recorded bounds as well. *)
Lemma meets_env a id tm start end_ : axis_ok a -> start < maxInstant ->
  IntervalMeets a (EntityValidFrom a id tm) (match tm with Some m => ValidTo m | None => ValidAxis_OpenEnd a end) start end_ = true ->
  env_meets start end_ (NodeTemporalBounds a id tm).
Proof.
  unfold IntervalMeets, env_meets, NodeTemporalBounds, ValidAxis_Open, maxInstant. cbn. rewrite andb_true_iff, orb_true_iff, Z.ltb_lt, Z.gtb_lt, Z.eqb_eq.
  intros Ha Hs [Hf Ht]. split; [done|]. destruct tm as [m|]; [|by left].
  destruct Ha as [-> | ->], Ht as [Ht|Ht]; cbn in Ht; unfold InfiniteValidTo in *; [left|right..]; lia.
Qed.

Lemma covers_meets a f t x : IntervalCovers a f t x = IntervalMeets a f t x (x + 1).
Proof. unfold IntervalCovers, IntervalMeets. f_equal. destruct (Z.leb_spec f x), (Z.ltb_spec f (x + 1)); lia || done. Qed.

Lemma LabelTokenRawAt_all n : map (fun i => LabelTokenRawAt (Z.of_nat i) n) (seq 0 (LabelTokenCount n)) = AllLabelTokens n.
Proof.
  unfold AllLabelTokens, LabelTokenCount. cbn [Nat.add seq map]. f_equal. rewrite <- seq_shift, map_map.
  rewrite (map_ext _ (fun i => nth i (n_extraLabels n) 0)).
  - induction (n_extraLabels n) as [|x l IH]; [done|]. cbn [length seq map nth]. f_equal. by rewrite <- seq_shift, map_map.
  - intros i. unfold LabelTokenRawAt. destruct (Z.ltb_spec (Z.of_nat (S i)) 0), (Z.eqb_spec (Z.of_nat (S i)) 0); try lia. f_equal. lia.
Qed.

Lemma extend_all id f t toks : forall idxs tok ti, idxs !! tok = Some ti ->
  exists k, fold_left (extend_at id f t) toks idxs !! tok = Some (fold_left run_op (repeat (OpExtend id f t) k) ti) /\
    (tok ∈ toks -> (0 < k)%nat).
Proof.
  induction toks as [|y toks IH]; intros idxs tok ti Hi; cbn [fold_left].
  { exists 0%nat. split; [done|by intros ?%not_elem_of_nil]. }
  unfold extend_at at 2. destruct (decide (y = tok)) as [->|Hne].
  - rewrite Hi. destruct (IH (<[tok := Extend id f t ti]> idxs) tok (Extend id f t ti) (lookup_insert_eq _ _ _)) as (k & Hk & _).
    exists (S k). split; [exact Hk|lia].
  - destruct (idxs !! y) as [ty|].
    + destruct (IH (<[y := Extend id f t ty]> idxs) tok ti) as (k & Hk & Hp); [by rewrite lookup_insert_ne|]. exists k. split; [done|]. set_solver.
    + destruct (IH idxs tok ti Hi) as (k & Hk & Hp). exists k. split; [done|]. set_solver.
Qed.

Lemma extend_node_history a idxs n id tok ti : idxs !! tok = Some ti ->
  exists k, ExtendNodeInTemporalIndexes a idxs n id !! tok =
    Some (fold_left run_op (repeat (OpExtend id (NodeTemporalBounds a id (NodeTemporal n)).1 (NodeTemporalBounds a id (NodeTemporal n)).2) k) ti) /\
    (tok ∈ AllLabelTokens n -> (0 < k)%nat).
Proof.
  intros Hi. unfold ExtendNodeInTemporalIndexes. rewrite bool_decide_eq_false_2 by (intros ->; by rewrite lookup_empty in Hi).
  destruct (NodeTemporalBounds a id (NodeTemporal n)) as [f t]. cbn [fst snd]. rewrite <- LabelTokenRawAt_all.
  destruct (extend_all id f t (map (fun i => LabelTokenRawAt (Z.of_nat i) n) (seq 0 (LabelTokenCount n))) idxs tok ti Hi) as (k & Hk & Hp).
  exists k. split; [|done]. rewrite <- Hk. clear. revert idxs. induction (seq 0 (LabelTokenCount n)) as [|i l IH]; intros idxs; [done|]. apply IH.
Qed.

Lemma extends_allowed id f t k m : ops_allowed m (repeat (OpExtend id f t) k).
Proof. revert m. induction k; intros m; [done|]. by split. Qed.

Lemma extended_meets id f t start end_ k m : (0 < k)%nat -> env_meets start end_ (f, t) ->
  exists e, fold_left spec_op (repeat (OpExtend id f t) k) m !! id = Some e /\ env_meets start end_ e.
Proof.
  intros Hk Hm. destruct k as [|k]; [lia|]. cbn [repeat fold_left spec_op]. apply spec_ops_keep.
  { clear. by induction k. }
  rewrite lookup_insert_eq. eexists. split; [done|]. destruct (m !! id) as [[f' t']|]; [apply extend_env_meets; by left|done].
Qed.

(** C20: The temporal indexes never miss a candidate.  Once a node version is folded
    into the indexes of its labels, then after any further operations that do not
    remove or replace the node's envelope, every index of one of its labels
    returns the node for each instant and each window the version matches, on the
    legacy and on the literal axis. *)
Theorem temporal_candidates_complete a idxs n id tok ti ops0 : axis_ok a ->
  idxs !! tok = Some ti -> ops_allowed ∅ ops0 -> ti = fold_left run_op ops0 NewTemporalIndex -> tok ∈ AllLabelTokens n ->
  exists ti', ExtendNodeInTemporalIndexes a idxs n id !! tok = Some ti' /\
  forall ops o, forallb (keeps id) ops = true -> ops_allowed (byID ti') ops -> MatchesTemporalFilter a id (NodeTemporal n) o = true ->
  let ti2 := fold_left run_op ops ti' in
  (HasValidAt o = true -> o_ValidAt o < maxInstant -> id ∈ (QueryAt ti2 (o_ValidAt o)).2) /\
  (HasValidAt o = false -> HasValidInterval o = true -> o_ValidStart o < maxInstant -> id ∈ (QueryOverlap ti2 (o_ValidStart o) (o_ValidEnd o)).2).
Proof.
  intros Ha Hi Hal0 Hti Htok. destruct (extend_node_history a idxs n id tok ti Hi) as (k & Hk & Hpos). specialize (Hpos Htok).
  destruct (run_ops_ok ops0 NewTemporalIndex new_ok Hal0) as [Hok _]. rewrite <- Hti in Hok.
  destruct (NodeTemporalBounds a id (NodeTemporal n)) as [f t] eqn:Eb. cbn [fst snd] in Hk.
  destruct (run_ops_ok _ ti Hok (extends_allowed id f t k _)) as [Hok1 Hb1]. eexists. split; [exact Hk|].
  intros ops o Hkeep Hal Hm. cbv zeta. destruct (run_ops_ok ops _ Hok1 Hal) as [Hok2 Hb2]. set (ti2 := fold_left run_op ops _) in *.
  assert (Hin : forall start end_, env_meets start end_ (f, t) -> exists e, byID ti2 !! id = Some e /\ env_meets start end_ e).
  { intros s e He. rewrite Hb2, Hb1. apply spec_ops_keep; [done|]. by apply extended_meets. }
  unfold MatchesTemporalFilter, MatchesTemporalFilterFrom in Hm. split.
  - intros Hv Hx. rewrite Hv, covers_meets in Hm. pose proof (QueryAt_ok ti2 (o_ValidAt o) Hok2 Hx) as HQ. destruct (QueryAt _ _) as [t2 ids].
    destruct HQ as (_ & _ & _ & HQ). apply HQ, Hin. rewrite <- Eb. by apply meets_env.
  - intros Hv Hw Hx. rewrite Hv, Hw in Hm. pose proof (QueryOverlap_ok ti2 (o_ValidStart o) (o_ValidEnd o) Hok2 Hx) as HQ.
    destruct (QueryOverlap _ _ _) as [t2 ids]. destruct HQ as (_ & _ & HQ). destruct (Z.geb_spec (o_ValidStart o) (o_ValidEnd o)); [done|].
    destruct (Z.ltb_spec (o_ValidStart o) (o_ValidEnd o)); [|lia]. destruct HQ as [_ HQ]. apply HQ, Hin. rewrite <- Eb. by apply meets_env.
Qed.
End Complete.

Lemma temporal_candidates_complete_witness :
  let H : Layout := fun id => 1000 * id in
  let n := mkNode unit (Alloc 1) 7 tt [3] (Some (set_ValidTo 20 (set_ValidFrom 10 zeroTM))) None None 0 2 false false 0 in
  let idxs : gmap Z TemporalIndex := {[ 3 := NewTemporalIndex ]} in
  let o := mkOpts 15 0 0 false false false false 0 0 in
  exists ti', ExtendNodeInTemporalIndexes LegacyValidAxis idxs n 7 !! 3 = Some ti' /\
    7 ∈ (QueryAt (fold_left run_op [OpQueryAt 3; OpExtend 7 100 0; OpRemove 8] ti') (o_ValidAt o)).2.
Proof.
  intros H n idxs o.
  destruct (temporal_candidates_complete LegacyValidAxis idxs n 7 3 NewTemporalIndex []) as (ti' & E & Hq);
    [by left|reflexivity|exact I|reflexivity|by right; left|].
  exists ti'. split; [exact E|]. apply (Hq [OpQueryAt 3; OpExtend 7 100 0; OpRemove 8] o); try reflexivity. by repeat split.
Defined.
