(* ===== verification/Integrity.v ===== *)
(** * Content hashes (internal/integrity, pkg/types/property_hash.go)

    The hash of a row is the SHA-256 of a byte string that spells the row's
    identity, version, labels or type and endpoints, and properties.  [None] is
    a panic (a value too deep, of an unknown type, or whose own [HashBytes]
    panics); the checked variants turn it into an error.  The theorems show that
    the byte string determines what it spells, so that a hash binds a row's
    content up to a collision of the digest, where property keys are shorter
    than 256 bytes, and that at 256 bytes it does not for nodes. *)

From S2P Require Import Prelude Bytes Registry Props Hash32 Rows.

(** ** Values *)

Definition num_tag (t : numType) : Z :=
  match t with
  | TInt => 2 | TInt8 => 3 | TInt16 => 4 | TInt32 => 5 | TInt64 => 6 | TUint => 7 | TUint8 => 8 | TUint16 => 9
  | TUint32 => 10 | TUint64 => 11 | TFloat32 => 12 | TFloat64 => 13
  end.

Definition slice_tag (t : sliceType) : Z :=
  match t with SInt => 16 | SInt64 => 17 | SFloat64 => 18 | SByte => 19 | SBool => 20 | SFloat32 => 24 end.

(** Bytes of a number: the two's complement or IEEE 754 bits at its width. *)
Definition num_width (t : numType) : nat :=
  match t with
  | TInt8 | TUint8 => 1 | TInt16 | TUint16 => 2 | TInt32 | TUint32 | TFloat32 => 4 | _ => 8
  end.

Definition slice_elem (t : sliceType) (n : Z) : bytes :=
  match t with
  | SInt | SInt64 | SFloat64 => be_bytes 8 n
  | SFloat32 => be_bytes 4 n
  | SByte => be_bytes 1 n
  | SBool => [if n =? 0 then 0 else 1]
  end.

(** [uint32(len(x))], big-endian. *)
Definition be_len {A} (l : list A) : bytes := be_bytes 4 (Z.of_nat (length l)).

Definition len_bytes (s : bytes) : bytes := be_len s ++ s.

Definition propertyHashNilContainerLen : Z := 2 ^ 32 - 1.

Definition appendNilPropertyContainerHash (buf : bytes) : bytes := buf ++ be_bytes 4 propertyHashNilContainerLen.

(** The loop over a container whose elements append to the buffer. *)
Definition append_all {A} (f : bytes -> A -> option bytes) : list A -> bytes -> option bytes :=
  fix go l buf := match l with [] => Some buf | x :: l' => match f buf x with Some buf' => go l' buf' | None => None end end.

Definition by_first {B} (x y : bytes * B) : bool := str_lt x.1 y.1.

Section Hashing.
(** The registered types and the structs' own [HashBytes]; [crypto/sha256]. *)
Context (registry : list bytes) (HashBytes : structValue -> option bytes) (sha256 : bytes -> bytes).

Definition PropertyHashTypeTag (v : value) : Z :=
  match v with
  | VBool _ => 1
  | VNum t _ => num_tag t
  | VString _ => 14
  | VStrings _ => 15
  | VNums t _ => slice_tag t
  | VAnys _ => 21
  | VMap _ => 22
  | VMapString _ => 23
  | VTemporal _ _ => 26
  | _ => match RegisteredPropertyStructWireType registry v with Some _ => 25 | None => 0 end
  end.

Fixpoint appendPropertyValueHashBytes (buf : bytes) (v : value) (depth : Z) {struct v} : option bytes :=
  if depth >? maxPropertyDepth then None
  else
    let tag := PropertyHashTypeTag v in
    let buf := buf ++ [tag] in
    match v with
    | VNil => Some buf
    | VBool b => Some (buf ++ [if b then 1 else 0])
    | VNum t bits => Some (buf ++ be_bytes (num_width t) bits)
    | VString s => Some (buf ++ len_bytes s)
    | VTemporal kind s => Some (buf ++ [kind mod 256] ++ len_bytes s)
    | VStrings None | VNums _ None | VAnys None | VMap None | VMapString None => Some (appendNilPropertyContainerHash buf)
    | VStrings (Some l) => Some (fold_left (fun b s => b ++ len_bytes s) l (buf ++ be_len l))
    | VNums t (Some l) => Some (fold_left (fun b n => b ++ slice_elem t n) l (buf ++ be_len l))
    | VAnys (Some l) => append_all (fun b x => appendPropertyValueHashBytes b x (depth + 1)) l (buf ++ be_len l)
    | VMap (Some m) =>
        append_all (fun b kf => kf.2 (b ++ len_bytes kf.1))
          (sort_by by_first (map (fun kv => (kv.1, fun b => appendPropertyValueHashBytes b kv.2 (depth + 1))) m))
          (buf ++ be_len m)
    | VMapString (Some m) =>
        Some (fold_left (fun b kv => b ++ len_bytes kv.1 ++ len_bytes kv.2) (sort_by by_first m) (buf ++ be_len m))
    | VStruct s =>
        match RegisteredPropertyStructWireType registry v with
        | Some (typeName, pointer) =>
            let buf := buf ++ len_bytes typeName ++ [if pointer then 1 else 0] in
            match HashBytes s with Some hb => Some (buf ++ len_bytes hb) | None => None end
        | None => None
        end
    | VTime _ | VOtherMap _ | VOther _ => None
    end.

Definition AppendPropertyValueHashBytes (buf : bytes) (v : value) : option bytes := appendPropertyValueHashBytes buf v 0.

Definition AppendHashBytes (ps : PropertySlice) (buf : bytes) : option bytes :=
  append_all (fun b p => AppendPropertyValueHashBytes (b ++ len_bytes p.1) p.2) ps buf.

Definition propertySliceHashNeedsRecover (ps : PropertySlice) : bool := existsb (fun p => propertyValueHashNeedsRecover p.2 0) ps.

(** ** Rows *)

Definition appendNodeLabelHashBytes (buf : bytes) (labels : list bytes) : bytes :=
  let sorted := if (1 <? length labels)%nat then sort_by str_lt labels else labels in
  fold_left (fun b l => b ++ len_bytes l) sorted buf.

Definition hash_string (buf : bytes) : bytes := hex_Encode (sha256 buf).

Definition node_preimage (n : Node PropertySlice) (labels : list bytes) : option bytes :=
  AppendHashBytes (n_properties n)
    (appendNodeLabelHashBytes (be_bytes 8 (u64 (n_id n)) ++ be_bytes 4 (n_version n)) labels).

Definition computeNodeHash (n : Node PropertySlice) (labels : list bytes) : option bytes := hash_string <$> node_preimage n labels.

(** [None] is the nil pointer. *)
Definition ComputeNodeHash (n : option (Node PropertySlice)) (labels : list bytes) : option bytes :=
  match n with Some n => computeNodeHash n labels | None => None end.

Inductive hashError := ErrNilNode | ErrNilRelationship | ErrHashPanic.

(** The outer [None] is a panic that escapes. *)
Definition ComputeNodeHashChecked (n : option (Node PropertySlice)) (labels : list bytes) : option (bytes + hashError) :=
  match n with
  | None => Some (inr ErrNilNode)
  | Some n =>
      if propertySliceHashNeedsRecover (n_properties n) then
        match computeNodeHash n labels with Some h => Some (inl h) | None => Some (inr ErrHashPanic) end
      else match computeNodeHash n labels with Some h => Some (inl h) | None => None end
  end.

Definition PrecomputeNodeHashSuffixChecked (labels : list bytes) (props : PropertySlice) : option (bytes + hashError) :=
  match AppendHashBytes props (appendNodeLabelHashBytes [] labels) with
  | Some suffix => Some (inl suffix)
  | None => if propertySliceHashNeedsRecover props then Some (inr ErrHashPanic) else None
  end.

Definition ComputeNodeHashFromSuffix (id version : Z) (suffix : bytes) : bytes :=
  hash_string (be_bytes 8 (u64 id) ++ be_bytes 4 version ++ suffix).

Definition rel_preimage (r : Relationship PropertySlice) (typeName : bytes) : option bytes :=
  AppendHashBytes (r_properties r)
    (be_bytes 8 (u64 (r_id r)) ++ be_bytes 4 (r_version r) ++ len_bytes typeName ++
     be_bytes 8 (u64 (r_startID r)) ++ be_bytes 8 (u64 (r_endID r))).

Definition computeRelHash (r : Relationship PropertySlice) (typeName : bytes) : option bytes := hash_string <$> rel_preimage r typeName.

Definition ComputeRelHash (r : option (Relationship PropertySlice)) (typeName : bytes) : option bytes :=
  match r with Some r => computeRelHash r typeName | None => None end.

Definition ComputeRelHashChecked (r : option (Relationship PropertySlice)) (typeName : bytes) : option (bytes + hashError) :=
  match r with
  | None => Some (inr ErrNilRelationship)
  | Some r =>
      if propertySliceHashNeedsRecover (r_properties r) then
        match computeRelHash r typeName with Some h => Some (inl h) | None => Some (inr ErrHashPanic) end
      else match computeRelHash r typeName with Some h => Some (inl h) | None => None end
  end.
End Hashing.

(** ** Appending *)

Lemma fold_append {A} (f : A -> bytes) l buf : fold_left (fun b x => b ++ f x) l buf = buf ++ concat (map f l).
Proof.
  revert buf. induction l as [|x l IH]; intros buf; [by rewrite app_nil_r|]. cbn [fold_left map concat]. by rewrite IH, app_assoc.
Qed.

(** [f] only appends: what it appends does not depend on the buffer. *)
Definition appends {A} (f : bytes -> A -> option bytes) (x : A) : Prop := forall buf, f buf x = app buf <$> f [] x.

Lemma append_all_parts {A} (f : bytes -> A -> option bytes) l buf out :
  Forall (appends f) l -> append_all f l buf = Some out ->
  exists parts, Forall2 (fun x p => f [] x = Some p) l parts /\ out = buf ++ concat parts.
Proof.
  intros Hf. revert buf. induction Hf as [|x l Hx _ IH]; intros buf Ho; [injection Ho as <-; exists []; by rewrite app_nil_r|].
  cbn in Ho. rewrite Hx in Ho. destruct (f [] x) as [p|] eqn:Hp; [|done]. cbn in Ho.
  apply IH in Ho as (parts & H1 & ->). exists (p :: parts). split; [by constructor|]. cbn [concat]. by rewrite app_assoc.
Qed.

Lemma append_all_appends {A} (f : bytes -> A -> option bytes) l :
  Forall (appends f) l -> forall buf, append_all f l buf = app buf <$> append_all f l [].
Proof.
  induction 1 as [|x l Hx _ IH]; intros buf; [cbn; by rewrite app_nil_r|]. cbn. rewrite Hx.
  destruct (f [] x) as [p|]; [|done]. cbn. rewrite IH, (IH p). destruct (append_all f l []); [|done]. cbn. by rewrite app_assoc.
Qed.

#[export] Instance by_first_sw {B} : StrictWeak (by_first (B := B)).
Proof. apply (str_lt_sw (fst (B := B))). Qed.

Section Binding.
Context (registry : list bytes) (HashBytes : structValue -> option bytes).
Local Notation append := (appendPropertyValueHashBytes registry HashBytes).

Lemma append_all_map {A B} (f : bytes -> B -> option bytes) (g : A -> B) l buf :
  append_all f (map g l) buf = append_all (fun b x => f b (g x)) l buf.
Proof. revert buf. induction l as [|x l IH]; intros buf; [done|]. cbn. destruct (f buf (g x)); [apply IH|done]. Qed.

(** The entries of a map, sorted. *)
Lemma append_map_eq m buf depth : (depth >? maxPropertyDepth) = false ->
  append buf (VMap (Some m)) depth =
  append_all (fun b kv => append (b ++ len_bytes kv.1) kv.2 (depth + 1)) (sort_by by_first m) (buf ++ [22] ++ be_len m).
Proof.
  intros Hd. cbn [appendPropertyValueHashBytes]. rewrite Hd. cbn [PropertyHashTypeTag].
  rewrite <- (sort_by_map (fun kv => (kv.1, fun b => append b kv.2 (depth + 1))) by_first m).
  by rewrite append_all_map, <- app_assoc.
Qed.

Lemma append_appends v : forall depth, appends (fun b x => append b x depth) v.
Proof.
  revert v. apply (value_nested_ind (fun v => forall depth, appends (fun b x => append b x depth) v));
    [intros l IH depth buf|intros m IH depth buf|intros v].
  - cbn [appendPropertyValueHashBytes]. destruct (depth >? _); [done|].
    assert (Hl : Forall (appends (fun b x => append b x (depth + 1))) l) by (eapply Forall_impl; [exact IH|]; auto).
    rewrite (append_all_appends _ l Hl), (append_all_appends _ l Hl (([] ++ _) ++ _)).
    destruct (append_all _ l []); [|done]. cbn. f_equal. rewrite <- !app_assoc. done.
  - destruct (depth >? maxPropertyDepth) eqn:Hd; [cbn [appendPropertyValueHashBytes]; by rewrite Hd|]. rewrite !append_map_eq by done.
    assert (Hl : Forall (appends (fun b kv => append (b ++ len_bytes kv.1) kv.2 (depth + 1))) (sort_by by_first m)).
    { rewrite Forall_forall in IH |- *. intros kv Hkv%elem_of_sort_by b. specialize (IH kv Hkv (depth + 1)).
      rewrite (IH (b ++ _)), (IH ([] ++ _)). destruct (append [] kv.2 _); [|done]. cbn. by rewrite <- app_assoc. }
    rewrite (append_all_appends _ _ Hl), (append_all_appends _ _ Hl ([] ++ _)).
    destruct (append_all _ _ []); [|done]. cbn. f_equal. by rewrite <- !app_assoc.
  - destruct v as [| | | | | |[|]|? [|]|[|]|[|]|[|]| | |]; try done; intros depth buf; cbn [appendPropertyValueHashBytes];
      (destruct (depth >? _); [done|]); unfold appendNilPropertyContainerHash; rewrite ?fold_append; try done; cbn;
      rewrite <- ?app_assoc; try done.
    destruct (isRegisteredPropertyStructType registry s); [|done]. destruct (HashBytes s); [|done]. cbn. rewrite <- !app_assoc. cbn. by rewrite <- ?app_assoc.
Qed.

Lemma entry_appends kv depth : appends (fun b kv => append (b ++ len_bytes kv.1) kv.2 depth) kv.
Proof.
  intros b. rewrite (append_appends kv.2 depth (b ++ _)), (append_appends kv.2 depth ([] ++ _)).
  destruct (append [] kv.2 depth); [|done]. cbn. by rewrite <- app_assoc.
Qed.

(** ** What the bytes determine *)

Definition len_fits {A} (l : list A) : bool := Z.of_nat (length l) <? 2 ^ 32 - 1.

Definition elem_fits (t : sliceType) (n : Z) : bool :=
  match t with
  | SInt | SInt64 | SFloat64 => (0 <=? n) && (n <? 2 ^ 64)
  | SFloat32 => (0 <=? n) && (n <? 2 ^ 32)
  | SByte => (0 <=? n) && (n <? 2 ^ 8)
  | SBool => (n =? 0) || (n =? 1)
  end.

(** Numbers are bits of their width, lengths are below 2^32 - 1. *)
Fixpoint hash_fits (v : value) : bool :=
  match v with
  | VNum t bits => (0 <=? bits) && (bits <? 256 ^ Z.of_nat (num_width t))
  | VString s => len_fits s
  | VTemporal k s => (0 <=? k) && (k <? 256) && len_fits s
  | VStrings (Some l) => len_fits l && forallb len_fits l
  | VNums t (Some l) => len_fits l && forallb (elem_fits t) l
  | VAnys (Some l) => len_fits l && forallb hash_fits l
  | VMap (Some m) => len_fits m && forallb (fun kv => len_fits kv.1 && hash_fits kv.2) m
  | VMapString (Some m) => len_fits m && forallb (fun kv => len_fits kv.1 && len_fits kv.2) m
  | VStruct s => len_fits (sv_type s) && match HashBytes s with Some hb => len_fits hb | None => true end
  | _ => true
  end.

(** Equal up to the iteration order of maps and what a struct hides from its
    own [HashBytes]. *)
Inductive same_value : value -> value -> Prop :=
  | same_refl v : same_value v v
  | same_struct s t :
      sv_type s = sv_type t -> sv_pointer s = sv_pointer t -> HashBytes s = HashBytes t -> same_value (VStruct s) (VStruct t)
  | same_anys l k : Forall2 same_value l k -> same_value (VAnys (Some l)) (VAnys (Some k))
  | same_map m m' :
      Forall2 (fun p q => p.1 = q.1 /\ same_value p.2 q.2) (sort_by by_first m) (sort_by by_first m') ->
      same_value (VMap (Some m)) (VMap (Some m'))
  | same_map_string m m' : sort_by by_first m = sort_by by_first m' -> same_value (VMapString (Some m)) (VMapString (Some m')).

(** [x]'s encoding ends where another one's does. *)
Definition splits {A} (enc : A -> bytes -> Prop) (R : A -> A -> Prop) (x : A) : Prop :=
  forall y bx b_y r s, enc x bx -> enc y b_y -> bx ++ r = b_y ++ s -> R x y /\ r = s.

Lemma splits_list {A} (enc : A -> bytes -> Prop) (R : A -> A -> Prop) l k pl pk r s :
  Forall (splits enc R) l -> Forall2 enc l pl -> Forall2 enc k pk -> length l = length k ->
  concat pl ++ r = concat pk ++ s -> Forall2 R l k /\ r = s.
Proof.
  intros Hs Hl. revert k pk. induction Hl as [|x p l pl Hx Hl IH]; intros k pk Hk Hlen E.
  - destruct Hk; [|done]. by split.
  - destruct Hk as [|y q k pk Hy Hk]; [done|]. apply Forall_cons in Hs as [Hs1 Hs]. cbn [concat] in E. rewrite <- !app_assoc in E.
    destruct (Hs1 y p q _ _ Hx Hy E) as [HR E']. clear E. rename E' into E. injection Hlen as Hlen. destruct (IH Hs k pk Hk Hlen E) as [? ->]. split; [by constructor|done].
Qed.

Lemma be_len_split {A B} (l : list A) (k : list B) r s :
  len_fits l = true -> len_fits k = true -> be_len l ++ r = be_len k ++ s -> length l = length k /\ r = s.
Proof.
  unfold len_fits, be_len. rewrite !Z.ltb_lt. intros Hl Hk E. apply app_inj_len in E as [E ->]; [|by rewrite !length_be_bytes].
  apply be_bytes_inj in E; [|change (256 ^ Z.of_nat 4) with (2 ^ 32); lia..]. split; [lia|done].
Qed.

Lemma len_bytes_split (a b r s : bytes) :
  len_fits a = true -> len_fits b = true -> len_bytes a ++ r = len_bytes b ++ s -> a = b /\ r = s.
Proof.
  intros Ha Hb. unfold len_bytes. rewrite <- !app_assoc. intros [Hl E]%be_len_split; [|done..]. by apply app_inj_len in E.
Qed.

(** A container's length is never the nil mark. *)
Lemma nil_len {A} (l : list A) r s : len_fits l = true -> be_len l ++ r <> be_bytes 4 propertyHashNilContainerLen ++ s.
Proof.
  unfold len_fits, be_len. rewrite Z.ltb_lt. intros Hl E. apply app_inj_len in E as [E _]; [|by rewrite !length_be_bytes].
  apply be_bytes_inj in E; unfold propertyHashNilContainerLen in *; change (256 ^ Z.of_nat 4) with (2 ^ 32); lia.
Qed.

Lemma slice_elem_split t x y r s :
  elem_fits t x = true -> elem_fits t y = true -> slice_elem t x ++ r = slice_elem t y ++ s -> x = y /\ r = s.
Proof.
  assert (Hbe : forall n a b, 0 <= a < 256 ^ Z.of_nat n -> 0 <= b < 256 ^ Z.of_nat n ->
    be_bytes n a ++ r = be_bytes n b ++ s -> a = b /\ r = s).
  { intros n a b Ha Hb E. apply app_inj_len in E as [E ->]; [|by rewrite !length_be_bytes]. by apply be_bytes_inj in E. }
  destruct t; cbn [elem_fits slice_elem]; rewrite ?andb_true_iff, ?Z.leb_le, ?Z.ltb_lt; intros Hx Hy E.
  1-5: (eapply Hbe; [| |exact E]; first [change (256 ^ Z.of_nat 8) with (2 ^ 64); lia|change (256 ^ Z.of_nat 4) with (2 ^ 32); lia|change (256 ^ Z.of_nat 1) with (2 ^ 8); lia]).
  rewrite orb_true_iff, !Z.eqb_eq in Hx, Hy. destruct (Z.eqb_spec x 0), (Z.eqb_spec y 0); simplify_eq/=; split; done || lia.
Qed.

Definition same_kind (v w : value) : Prop :=
  match v, w with
  | VNil, VNil | VBool _, VBool _ | VString _, VString _ | VTemporal _ _, VTemporal _ _ | VStrings _, VStrings _
  | VAnys _, VAnys _ | VMap _, VMap _ | VMapString _, VMapString _ | VStruct _, VStruct _ => True
  | VNum t _, VNum t' _ => t = t'
  | VNums t _, VNums t' _ => t = t'
  | _, _ => False
  end.

(** What can be hashed has the tag of its kind. *)
Definition kind_tag (v : value) : Z := match v with VStruct _ => 25 | _ => PropertyHashTypeTag registry v end.

Lemma append_shallow v d b : append [] v d = Some b -> (d >? maxPropertyDepth) = false.
Proof. destruct v; cbn [appendPropertyValueHashBytes]; by destruct (d >? _). Qed.

Lemma append_head v d b : append [] v d = Some b ->
  (exists body, b = kind_tag v :: body) /\ match v with VTime _ | VOtherMap _ | VOther _ => False | _ => True end.
Proof.
  intros H. pose proof (append_shallow v d b H) as Hd.
  destruct v as [| | | | | |[|]|? [|]|[l|]|[m|]|[|]|st| |];
    try (cbn [appendPropertyValueHashBytes] in H; rewrite Hd, ?fold_append in H; unfold appendNilPropertyContainerHash in H; simplify_eq/=; by eauto).
  - cbn [appendPropertyValueHashBytes] in H. rewrite Hd in H. split; [|done].
    apply append_all_parts in H as (parts & _ & ->); [by eauto|]. apply Forall_forall. intros x _. apply append_appends.
  - rewrite append_map_eq in H by done. split; [|done]. apply append_all_parts in H as (parts & _ & ->); [by eauto|].
    apply Forall_forall. intros kv _. apply entry_appends.
  - cbn [appendPropertyValueHashBytes RegisteredPropertyStructWireType PropertyHashTypeTag] in H. rewrite Hd in H. split; [|done].
    destruct (isRegisteredPropertyStructType registry st); [|done]. destruct (HashBytes st); simplify_eq/=. eauto.
Qed.

Lemma kind_tag_inj v w :
  match v with VTime _ | VOtherMap _ | VOther _ => False | _ => True end ->
  match w with VTime _ | VOtherMap _ | VOther _ => False | _ => True end -> kind_tag v = kind_tag w -> same_kind v w.
Proof.
  destruct v as [| | |t ?| | | |t ?| | | | | |], w as [| | |t' ?| | | |t' ?| | | | | |]; cbn; try done; try destruct t; try destruct t'; done.
Qed.

Lemma append_same_kind v w d e bv bw r s :
  append [] v d = Some bv -> append [] w e = Some bw -> bv ++ r = bw ++ s -> same_kind v w.
Proof.
  intros [[body ->] Hv]%append_head [[body' ->] Hw]%append_head E. apply kind_tag_inj; [done..|]. by injection E.
Qed.

Definition enc_value (v : value) (b : bytes) : Prop := hash_fits v = true /\ exists d, append [] v d = Some b.

Lemma Forall2_map_r {A} (f : A -> bytes) l : Forall2 (fun x p => p = f x) l (map f l).
Proof. induction l; by constructor. Qed.

(** Lists of elements whose encodings are a function of the element. *)
Lemma splits_map {A} (f : A -> bytes) (fits : A -> bool) l k r s :
  (forall x y r s, fits x = true -> fits y = true -> f x ++ r = f y ++ s -> x = y /\ r = s) ->
  forallb fits l = true -> forallb fits k = true -> length l = length k ->
  concat (map f l) ++ r = concat (map f k) ++ s -> l = k /\ r = s.
Proof.
  intros Hf Hl Hk Hlen E. rewrite forallb_forall in Hl, Hk.
  destruct (splits_list (fun x p => fits x = true /\ p = f x) eq l k (map f l) (map f k) r s) as [Heq ->]; [| | |done..|].
  - apply Forall_forall. intros x _ y bx b_y r' s' [? ->] [? ->]. by apply Hf.
  - apply Forall2_fmap_r, Forall_Forall2_diag, Forall_forall. intros x Hx%list_elem_of_In. auto.
  - apply Forall2_fmap_r, Forall_Forall2_diag, Forall_forall. intros x Hx%list_elem_of_In. auto.
  - split; [by apply list_eq_Forall2|done].
Qed.

Definition enc_entry (kv : bytes * value) (b : bytes) : Prop :=
  len_fits kv.1 && hash_fits kv.2 = true /\ exists d, append ([] ++ len_bytes kv.1) kv.2 d = Some b.

Definition same_entry (p q : bytes * value) : Prop := p.1 = q.1 /\ same_value p.2 q.2.

Lemma entry_splits kv : splits enc_value same_value kv.2 -> splits enc_entry same_entry kv.
Proof.
  intros Hs y bx b_y r s [Fx (d & Hx)] [Fy (e & Hy)] E. apply andb_true_iff in Fx as [Fx1 Fx2], Fy as [Fy1 Fy2].
  rewrite append_appends in Hx, Hy. apply fmap_Some in Hx as (bv & Hv & ->). apply fmap_Some in Hy as (bw & Hw & ->). rewrite <- !app_assoc in E. cbn [app] in E. apply len_bytes_split in E as [E1 E]; [|done..].
  destruct (Hs y.2 bv bw r s) as [? ->]; [split; eauto..|done|]. done.
Qed.

Lemma parts_enc l pl d :
  forallb hash_fits l = true -> Forall2 (fun x p => append [] x d = Some p) l pl -> Forall2 enc_value l pl.
Proof.
  intros Hf. induction 1 as [|x p l pl Hx _ IH]; [constructor|]. apply andb_true_iff in Hf as [? Hf].
  constructor; [split; eauto|by apply IH].
Qed.

Lemma parts_enc_entry l pl d :
  Forall (fun kv => len_fits kv.1 && hash_fits kv.2 = true) l ->
  Forall2 (fun kv p => append ([] ++ len_bytes kv.1) kv.2 d = Some p) l pl -> Forall2 enc_entry l pl.
Proof.
  intros Hf. induction 1 as [|x p l pl Hx _ IH]; [constructor|]. apply Forall_cons in Hf as [? Hf].
  constructor; [split; eauto|by apply IH].
Qed.

(** The bytes of the containers, taken apart. *)
Lemma anys_parts l d b : append [] (VAnys (Some l)) d = Some b ->
  exists parts, Forall2 (fun x p => append [] x (d + 1) = Some p) l parts /\ b = 21 :: be_len l ++ concat parts.
Proof.
  intros H. pose proof (append_shallow _ _ _ H) as Hd. cbn [appendPropertyValueHashBytes PropertyHashTypeTag] in H. rewrite Hd in H.
  apply append_all_parts in H as (parts & Hp & ->); [by exists parts|]. apply Forall_forall. intros x _. apply append_appends.
Qed.

Lemma map_parts m d b : append [] (VMap (Some m)) d = Some b ->
  exists parts, Forall2 (fun kv p => append ([] ++ len_bytes kv.1) kv.2 (d + 1) = Some p) (sort_by by_first m) parts /\
    b = 22 :: be_len m ++ concat parts.
Proof.
  intros H. pose proof (append_shallow _ _ _ H) as Hd. rewrite append_map_eq in H by done.
  apply append_all_parts in H as (parts & Hp & ->); [by exists parts|]. apply Forall_forall. intros kv _. apply entry_appends.
Qed.

Lemma anys_splits l : Forall (splits enc_value same_value) l -> splits enc_value same_value (VAnys (Some l)).
Proof.
  intros IH w bv bw r s [Fv (d & Hv)] [Fw (e & Hw)] E. pose proof (append_same_kind _ _ _ _ _ _ _ _ Hv Hw E) as Hk.
  apply andb_true_iff in Fv as [Fl Fe]. apply anys_parts in Hv as (pl & Hpl & ->). destruct w as [| | | | | | | |[k|]| | | | |]; try done.
  - apply andb_true_iff in Fw as [Fk Fke]. apply anys_parts in Hw as (pk & Hpk & ->). apply (f_equal tail) in E. cbn [tail app] in E. rewrite <- !app_assoc in E.
    apply be_len_split in E as [Hlen E]; [|done..].
    destruct (splits_list enc_value same_value l k pl pk r s) as [HR ->]; [done|by eapply parts_enc..|done|done|].
    split; [by constructor|done].
  - pose proof (append_shallow _ _ _ Hw) as He. cbn [appendPropertyValueHashBytes] in Hw. rewrite He in Hw. apply (inj Some) in Hw as <-.
    apply (f_equal tail) in E. unfold appendNilPropertyContainerHash in E. cbn [tail app] in E. rewrite <- app_assoc in E. by apply nil_len in E.
Qed.

Lemma map_splits m : Forall (fun kv => splits enc_value same_value kv.2) m -> splits enc_value same_value (VMap (Some m)).
Proof.
  intros IH w bv bw r s [Fv (d & Hv)] [Fw (e & Hw)] E. pose proof (append_same_kind _ _ _ _ _ _ _ _ Hv Hw E) as Hk.
  apply andb_true_iff in Fv as [Fl Fe]. apply map_parts in Hv as (pl & Hpl & ->). destruct w as [| | | | | | | | |[k|]| | | |]; try done.
  - apply andb_true_iff in Fw as [Fk Fke]. apply map_parts in Hw as (pk & Hpk & ->). apply (f_equal tail) in E. cbn [tail app] in E. rewrite <- !app_assoc in E.
    apply be_len_split in E as [Hlen E]; [|done..]. rewrite forallb_forall in Fe, Fke.
    destruct (splits_list enc_entry same_entry (sort_by by_first m) (sort_by by_first k) pl pk r s) as [HR ->]; [| | |by rewrite !length_sort_by|done|].
    + rewrite Forall_forall in IH |- *. intros kv Hkv%elem_of_sort_by. by apply entry_splits, IH.
    + eapply parts_enc_entry; [|exact Hpl]. apply Forall_forall. intros kv Hkv%elem_of_sort_by. by apply Fe, list_elem_of_In.
    + eapply parts_enc_entry; [|exact Hpk]. apply Forall_forall. intros kv Hkv%elem_of_sort_by. by apply Fke, list_elem_of_In.
    + split; [by constructor|done].
  - pose proof (append_shallow _ _ _ Hw) as He. cbn [appendPropertyValueHashBytes] in Hw. rewrite He in Hw. apply (inj Some) in Hw as <-.
    apply (f_equal tail) in E. unfold appendNilPropertyContainerHash in E. cbn [tail app] in E. rewrite <- app_assoc in E. by apply nil_len in E.
Qed.

(** Open the bytes of two leaves and drop the tag they share. *)
Ltac open_leaves Hv Hw E :=
  let Hd := fresh "Hd" in let He := fresh "He" in
  pose proof (append_shallow _ _ _ Hv) as Hd; pose proof (append_shallow _ _ _ Hw) as He;
  cbn [appendPropertyValueHashBytes] in Hv, Hw; rewrite Hd in Hv; rewrite He in Hw;
  try rewrite fold_append in Hv; try rewrite fold_append in Hw; apply (inj Some) in Hv as <-; apply (inj Some) in Hw as <-;
  unfold appendNilPropertyContainerHash in E; rewrite <- ?app_assoc in E; apply (f_equal tail) in E; cbn [tail app] in E.

(** The cases where one or both containers are nil. *)
Ltac nil_cases Fv Fw E :=
  lazymatch type of E with
  | be_len _ ++ _ = be_len _ ++ _ => idtac
  | be_len ?l ++ ?a = _ ++ ?b =>
      exfalso; cbn [hash_fits] in Fv; apply andb_true_iff in Fv as [Fv _]; exact (nil_len l a b Fv E)
  | _ ++ ?a = be_len ?l ++ ?b =>
      exfalso; cbn [hash_fits] in Fw; apply andb_true_iff in Fw as [Fw _]; exact (nil_len l b a Fw (eq_sym E))
  | _ ++ _ = _ ++ _ => apply app_inv_head in E; subst; split; [constructor|reflexivity]
  end.

Lemma nil_bytes v d b :
  append [] v d = Some b -> match v with VAnys None | VMap None => b = kind_tag v :: be_bytes 4 propertyHashNilContainerLen | _ => True end.
Proof.
  intros H. pose proof (append_shallow _ _ _ H) as Hd. destruct v as [| | | | | | | |[|]|[|]| | | |]; try done;
    cbn [appendPropertyValueHashBytes] in H; rewrite Hd in H; by apply (inj Some) in H as <-.
Qed.

Lemma nil_clash {A} (k : list A) t t' r s b :
  len_fits k = true -> (t :: be_bytes 4 propertyHashNilContainerLen) ++ r <> (t' :: be_len k ++ b) ++ s.
Proof.
  intros Hk E. apply (f_equal tail) in E. cbn [tail app] in E. rewrite <- app_assoc in E. symmetry in E. exact (nil_len k _ _ Hk E).
Qed.

Lemma pair_split (x y : bytes * bytes) r s :
  len_fits x.1 && len_fits x.2 = true -> len_fits y.1 && len_fits y.2 = true ->
  (len_bytes x.1 ++ len_bytes x.2) ++ r = (len_bytes y.1 ++ len_bytes y.2) ++ s -> x = y /\ r = s.
Proof.
  destruct x as [a b], y as [c d]. cbn [fst snd]. rewrite !andb_true_iff, <- !app_assoc. intros [] [] E.
  apply len_bytes_split in E as [-> E]; [|done..]. apply len_bytes_split in E as [-> E]; [|done..]. done.
Qed.

Lemma forallb_sort {A} (lt : A -> A -> bool) (p : A -> bool) l : forallb p l = true -> forallb p (sort_by lt l) = true.
Proof. rewrite !forallb_forall. intros H x Hx. apply H. rewrite <- list_elem_of_In in *. by apply elem_of_sort_by in Hx. Qed.

Lemma slices_split : forall v, match v with VStrings _ | VNums _ _ | VMapString _ => splits enc_value same_value v | _ => True end.
Proof.
  intros v. destruct v as [| | | | | |o|t o| | |o| | |]; try done; intros w bv bw r s [Fv (d & Hv)] [Fw (e & Hw)] E;
    pose proof (append_same_kind _ _ _ _ _ _ _ _ Hv Hw E) as Hk; destruct w as [| | | | | |o'|t' o'| | |o'| | |]; try done;
    try (cbn in Hk; subst t'); destruct o as [l|], o' as [k|]; open_leaves Hv Hw E; nil_cases Fv Fw E;
    apply andb_true_iff in Fv as [Fl Fv], Fw as [Fk Fw]; apply be_len_split in E as [Hlen E]; try done.
  - apply (splits_map len_bytes len_fits) in E as [-> ->]; [split; [constructor|done]| |done..]. apply len_bytes_split.
  - apply (splits_map (slice_elem t) (elem_fits t)) in E as [-> ->]; [split; [constructor|done]| |done..]. apply slice_elem_split.
  - apply (splits_map (fun kv => len_bytes kv.1 ++ len_bytes kv.2) (fun kv => len_fits kv.1 && len_fits kv.2)) in E as [E ->].
    + split; [by constructor|done].
    + intros. by apply pair_split.
    + by apply forallb_sort.
    + by apply forallb_sort.
    + by rewrite !length_sort_by.
Qed.

Lemma struct_splits st : splits enc_value same_value (VStruct st).
Proof.
  intros w bv bw r s [Fv (d & Hv)] [Fw (e & Hw)] E. pose proof (append_same_kind _ _ _ _ _ _ _ _ Hv Hw E) as Hk.
  destruct w as [| | | | | | | | | | |st'| |]; try done. pose proof (append_shallow _ _ _ Hv) as Hd. pose proof (append_shallow _ _ _ Hw) as He.
  cbn [appendPropertyValueHashBytes RegisteredPropertyStructWireType] in Hv, Hw. rewrite Hd in Hv. rewrite He in Hw. cbn [hash_fits] in Fv, Fw.
  destruct (isRegisteredPropertyStructType registry st); [|done]. destruct (isRegisteredPropertyStructType registry st'); [|done].
  destruct (HashBytes st) as [hb|] eqn:Hb; [|done]. destruct (HashBytes st') as [hb'|] eqn:Hb'; [|done].
  apply (inj Some) in Hv as <-. apply (inj Some) in Hw as <-. apply andb_true_iff in Fv as [Fv1 Fv2], Fw as [Fw1 Fw2].
  apply (f_equal tail) in E. rewrite <- !app_assoc in E. cbn [tail app] in E. apply len_bytes_split in E as [Ht E]; [|done..].
  pose proof (f_equal (List.hd 0) E) as Hp. apply (f_equal tail) in E. cbn [tail List.hd] in E, Hp. apply len_bytes_split in E as [-> ->]; [|done..]. split; [|done]. constructor; [done| |congruence].
  destruct (sv_pointer st), (sv_pointer st'); done || lia.
Qed.

Lemma value_splits v : splits enc_value same_value v.
Proof.
  revert v. apply value_nested_ind; [apply anys_splits|apply map_splits|intros v].
  pose proof (slices_split v) as Hsl. destruct v as [|b|z|t bits|k z| |o|t o|[|]|[|]|o|st| |]; try done; try apply struct_splits;
    intros w bv bw r s [Fv (d & Hv)] [Fw (e & Hw)] E; pose proof (append_same_kind _ _ _ _ _ _ _ _ Hv Hw E) as Hk.
  all: try (destruct (append_head _ _ _ Hv) as [_ []]).
  all: destruct w as [|b'|z'|t' bits'|k' z'| |o'|t' o'|[|]|[|]|o'|st'| |]; try done.
  all: try (cbn in Hk; subst t').
  6-9: apply nil_bytes in Hv; cbn beta iota in Hv; subst bv;
    try (apply nil_bytes in Hw; cbn beta iota in Hw; subst bw; apply app_inv_head in E; subst; split; [constructor|reflexivity]).
  1-5: open_leaves Hv Hw E.
  - by split; [constructor|].
  - destruct b, b'; injection E as E; try lia; (split; [constructor|done]).
  - apply len_bytes_split in E as [-> ->]; [|done..]. split; [constructor|done].
  - apply andb_true_iff in Fv as [Fv1 Fv2%Z.ltb_lt], Fw as [Fw1 Fw2%Z.ltb_lt]. apply Z.leb_le in Fv1, Fw1.
    apply app_inj_len in E as [E ->]; [|by rewrite !length_be_bytes]. apply be_bytes_inj in E as ->; [|lia..]. split; [constructor|done].
  - cbn [hash_fits] in Fv, Fw. rewrite !andb_true_iff, !Z.leb_le, !Z.ltb_lt in Fv, Fw. destruct Fv as [? Fv], Fw as [? Fw]. pose proof (f_equal (List.hd 0) E) as Hk'. apply (f_equal tail) in E. cbn [tail List.hd] in E, Hk'.
    rewrite !Z.mod_small in Hk' by lia. subst k'. apply len_bytes_split in E as [-> ->]; [|done..]. split; [constructor|done].
  - apply anys_parts in Hw as (pk & _ & ->). apply andb_true_iff in Fw as [Fk _]. by apply nil_clash in E.
  - apply map_parts in Hw as (pk & _ & ->). apply andb_true_iff in Fw as [Fk _]. by apply nil_clash in E.
Qed.

(** ** Property lists and labels *)

Lemma AppendHashBytes_parts ps buf out : AppendHashBytes registry HashBytes ps buf = Some out ->
  exists parts, Forall2 (fun p b => append ([] ++ len_bytes p.1) p.2 0 = Some b) ps parts /\ out = buf ++ concat parts.
Proof. apply append_all_parts. apply Forall_forall. intros kv _. apply entry_appends. Qed.

(** An entry's bytes: the key, then the value's tag. *)
Lemma enc_entry_head kv b : enc_entry kv b ->
  exists body, b = len_bytes kv.1 ++ kind_tag kv.2 :: body /\ (kind_tag kv.2 = 0 -> body = []).
Proof.
  intros [_ (d & Hb)]. rewrite append_appends in Hb. apply fmap_Some in Hb as (bv & Hv & ->).
  destruct (append_head _ _ _ Hv) as [[body ->] Hk]. exists body. split; [done|]. intros H0.
  assert (Hn : same_kind kv.2 VNil) by (by apply kind_tag_inj). pose proof (append_shallow _ _ _ Hv) as Hd.
  destruct kv.2; try done. cbn in Hv. rewrite Hd in Hv. by injection Hv.
Qed.

Lemma entries_inj ps qs pl pk :
  Forall2 enc_entry ps pl -> Forall2 enc_entry qs pk -> concat pl = concat pk -> Forall2 same_entry ps qs.
Proof.
  intros Hp. revert qs pk. induction Hp as [|p b ps pl Hb Hp IH]; intros qs pk Hq E.
  - destruct Hq as [|q c qs pk Hc _]; [constructor|]. destruct (enc_entry_head _ _ Hc) as (body & -> & _).
    by destruct (len_bytes q.1) eqn:Hl.
  - destruct Hq as [|q c qs pk Hc Hq].
    + destruct (enc_entry_head _ _ Hb) as (body & -> & _). by destruct (len_bytes p.1) eqn:Hl.
    + destruct (entry_splits p (value_splits p.2) q b c _ _ Hb Hc E) as [? E']. constructor; [done|by eapply IH].
Qed.

Definition small_name (s : bytes) : Prop := s <> [] /\ Z.of_nat (length s) < 2 ^ 24.

Lemma be4 z : 0 <= z < 2 ^ 24 -> be_bytes 4 z = [0; z / 65536 mod 256; z / 256 mod 256; z mod 256].
Proof.
  intros Hz. cbn [be_bytes app]. rewrite (Z.div_div z 256 256) by lia.
  assert (z / (256 * 256) / 256 = 0) as -> by (rewrite Z.div_div by lia; apply Z.div_small; lia). done.
Qed.

(** A name's bytes cannot follow the one-byte encoding of nil and then a key
    shorter than 256 bytes. *)
Lemma shifted_name (y : bytes) rest k tail_ :
  small_name y -> Z.of_nat (length (k : bytes)) < 256 -> len_bytes y ++ rest <> 0 :: len_bytes k ++ tail_.
Proof.
  intros [Hy Hl] Hk E. unfold len_bytes, be_len in E. rewrite (be4 (Z.of_nat (length k))) in E by lia.
  rewrite (be4 (Z.of_nat (length y))) in E by lia. cbn [app] in E.
  rewrite (Z.div_small (Z.of_nat (length k)) 65536), (Z.div_small (Z.of_nat (length k)) 256) in E by lia.
  injection E as E1 E2 E3 _. assert (Z.of_nat (length y) <> 0) by (destruct y; [done|cbn; lia]).
  apply Hy. destruct y; [done|]. exfalso. cbn in *. Z.to_euclidean_division_equations. lia.
Qed.

Definition small_entry (p : bytes * value) : Prop := p.1 <> [] /\ Z.of_nat (length p.1) < 256 /\ hash_fits p.2 = true.

(** A label cannot be read as a property's key. *)
Lemma label_not_entry (l : bytes) ls ps qs pl pk :
  small_name l -> Forall small_name ls -> Forall small_entry ps -> Forall small_entry qs ->
  Forall2 enc_entry ps pl -> Forall2 enc_entry qs pk ->
  len_bytes l ++ concat (map len_bytes ls) ++ concat pl <> concat pk.
Proof.
  intros Hl Hls Hps Hqs Hp Hq E. destruct Hq as [|q c qs pk Hc Hq]; [by destruct (len_bytes l) eqn:Hl'|].
  apply Forall_cons in Hqs as [(_ & Hq1 & _) Hqs]. destruct (enc_entry_head _ _ Hc) as (body & -> & Hnil). cbn [concat] in E. rewrite <- app_assoc in E.
  apply len_bytes_split in E as [_ E]; [|by apply Z.ltb_lt; destruct Hl; lia|by apply Z.ltb_lt; lia]. cbn [app] in E.
  (* the names that are left start with a length below 2^24 *)
  assert (Hx : concat (map len_bytes ls) ++ concat pl = [] \/
               exists y rest, small_name y /\ concat (map len_bytes ls) ++ concat pl = len_bytes y ++ rest).
  { destruct Hls as [|y ls Hy _]; [|right; exists y; eexists; split; [done|]; cbn; by rewrite <- app_assoc].
    destruct Hp as [|p b ps pl Hb Hp]; [by left|]. right. apply Forall_cons in Hps as [(? & ? & _) _].
    destruct (enc_entry_head _ _ Hb) as (body' & -> & _). exists p.1. eexists. split; [split; [done|lia]|]. cbn. by rewrite <- app_assoc. }
  destruct Hx as [Hx|(y & rest & Hy & Hx)]; rewrite Hx in E; [done|].
  assert (H0 : kind_tag q.2 = 0).
  { pose proof (f_equal (List.hd 0) E) as Hh. unfold len_bytes, be_len in Hh. rewrite be4 in Hh by (destruct Hy; lia). by cbn in Hh. }
  rewrite H0, (Hnil H0) in E. cbn [app] in E. destruct Hq as [|q' c' qs pk Hc' _].
  - apply (f_equal length) in E. unfold len_bytes, be_len in E. rewrite !length_app, length_be_bytes in E. cbn in E. lia.
  - apply Forall_cons in Hqs as [(_ & Hq' & _) _]. destruct (enc_entry_head _ _ Hc') as (body' & -> & _). cbn [concat] in E.
    rewrite <- app_assoc in E. by eapply (shifted_name y rest q'.1).
Qed.

Lemma small_parts ps parts : Forall small_entry ps ->
  Forall2 (fun p b => append ([] ++ len_bytes p.1) p.2 0 = Some b) ps parts -> Forall2 enc_entry ps parts.
Proof.
  intros Hs. apply parts_enc_entry. eapply Forall_impl; [exact Hs|]. intros p (_ & Hl & Hf). apply andb_true_iff. split; [|done].
  apply Z.ltb_lt. unfold bytes in *. lia.
Qed.

Lemma labels_inj ls ls' ps qs pl pk :
  Forall small_name ls -> Forall small_name ls' -> Forall small_entry ps -> Forall small_entry qs ->
  Forall2 enc_entry ps pl -> Forall2 enc_entry qs pk ->
  concat (map len_bytes ls) ++ concat pl = concat (map len_bytes ls') ++ concat pk -> ls = ls' /\ Forall2 same_entry ps qs.
Proof.
  intros Hls Hls' Hps Hqs Hp Hq. revert ls' Hls'. induction Hls as [|l ls Hl Hls IH]; intros [|l' ls'] Hls' E.
  - split; [done|]. by eapply entries_inj.
  - apply Forall_cons in Hls' as [? ?]. cbn [map concat app] in E. rewrite <- app_assoc in E. symmetry in E.
    by apply (label_not_entry l' ls' qs ps pk pl) in E.
  - cbn [map concat app] in E. rewrite <- app_assoc in E. by apply (label_not_entry l ls ps qs pl pk) in E.
  - apply Forall_cons in Hls' as [Hl' Hls']. cbn [map concat] in E. rewrite <- !app_assoc in E.
    apply len_bytes_split in E as [-> E]; [|apply Z.ltb_lt; destruct Hl, Hl'; lia..]. destruct (IH ls' Hls' E) as [-> ?]. done.
Qed.

Lemma labels_bytes buf labels :
  exists sorted, Permutation sorted labels /\ appendNodeLabelHashBytes buf labels = buf ++ concat (map len_bytes sorted).
Proof.
  unfold appendNodeLabelHashBytes. eexists. rewrite fold_append. split; [|reflexivity].
  destruct (_ <? _)%nat; [apply sort_by_perm|done].
Qed.

(** ** The digest *)

Context (sha256 : bytes -> bytes).

(** A digest is bytes. *)
Hypothesis sha256_bytes : forall x, Forall is_byte (sha256 x).

Definition collision : Prop := exists a b, a <> b /\ sha256 a = sha256 b.

Lemma hash_string_inj a b : hash_string sha256 a = hash_string sha256 b -> a = b \/ collision.
Proof.
  unfold hash_string. intros E. apply (f_equal decode_pairs) in E. rewrite !decode_pairs_hex in E by done. injection E as E.
  destruct (decide (a = b)); [by left|]. right. by exists a, b.
Qed.

Record node_sizes (n : Node PropertySlice) (labels : list bytes) : Prop := {
  ns_id : in_i64 (n_id n);
  ns_version : 0 <= n_version n < 2 ^ 32;
  ns_labels : Forall small_name labels;
  ns_props : Forall small_entry (n_properties n);
}.

Lemma node_preimage_inj n n' labels labels' b :
  node_sizes n labels -> node_sizes n' labels' ->
  node_preimage registry HashBytes n labels = Some b -> node_preimage registry HashBytes n' labels' = Some b ->
  n_id n = n_id n' /\ n_version n = n_version n' /\ Permutation labels labels' /\
  Forall2 same_entry (n_properties n) (n_properties n').
Proof.
  intros [Hi Hv Hl Hp] [Hi' Hv' Hl' Hp'] H1 H2. apply AppendHashBytes_parts in H1 as (pl & Hpl & ->).
  apply AppendHashBytes_parts in H2 as (pk & Hpk & E). apply small_parts in Hpl, Hpk; [|done..].
  destruct (labels_bytes (be_bytes 8 (u64 (n_id n)) ++ be_bytes 4 (n_version n)) labels) as (s1 & P1 & E1).
  destruct (labels_bytes (be_bytes 8 (u64 (n_id n')) ++ be_bytes 4 (n_version n')) labels') as (s2 & P2 & E2).
  rewrite E1, E2 in E. rewrite <- !app_assoc in E. apply app_inj_len in E as [Eid E]; [|by rewrite !length_be_bytes].
  apply app_inj_len in E as [Ev E]; [|by rewrite !length_be_bytes]. apply be_bytes_inj in Eid; [|apply u64_range..].
  apply be_bytes_inj in Ev; [|change (256 ^ Z.of_nat 4) with (2 ^ 32); lia..]. apply u64_inj in Eid; [|done..].
  destruct (labels_inj s1 s2 (n_properties n) (n_properties n') pl pk) as [-> Hs]; [by rewrite P1|by rewrite P2|done..|].
  split_and!; [done..|by rewrite <- P1, <- P2|done].
Qed.

Record rel_sizes (r : Relationship PropertySlice) (typeName : bytes) : Prop := {
  rs_ids : in_i64 (r_id r) /\ in_i64 (r_startID r) /\ in_i64 (r_endID r);
  rs_version : 0 <= r_version r < 2 ^ 32;
  rs_type : len_fits typeName = true;
  rs_props : Forall (fun p => len_fits p.1 && hash_fits p.2 = true) (r_properties r);
}.

Lemma rel_preimage_inj r r' ty ty' b :
  rel_sizes r ty -> rel_sizes r' ty' ->
  rel_preimage registry HashBytes r ty = Some b -> rel_preimage registry HashBytes r' ty' = Some b ->
  r_id r = r_id r' /\ r_version r = r_version r' /\ ty = ty' /\ r_startID r = r_startID r' /\ r_endID r = r_endID r' /\
  Forall2 same_entry (r_properties r) (r_properties r').
Proof.
  intros [(Hi & Hs & He) Hv Ht Hp] [(Hi' & Hs' & He') Hv' Ht' Hp'] H1 H2. apply AppendHashBytes_parts in H1 as (pl & Hpl & ->).
  apply AppendHashBytes_parts in H2 as (pk & Hpk & E). apply parts_enc_entry in Hpl, Hpk; [|done..]. rewrite <- !app_assoc in E.
  apply app_inj_len in E as [Eid E]; [|by rewrite !length_be_bytes]. apply app_inj_len in E as [Ev E]; [|by rewrite !length_be_bytes].
  apply len_bytes_split in E as [-> E]; [|done..]. apply app_inj_len in E as [Es E]; [|by rewrite !length_be_bytes].
  apply app_inj_len in E as [Ee E]; [|by rewrite !length_be_bytes]. apply be_bytes_inj in Eid, Es, Ee; try apply u64_range.
  apply be_bytes_inj in Ev; [|change (256 ^ Z.of_nat 4) with (2 ^ 32); lia..]. apply u64_inj in Eid, Es, Ee; try done.
  split_and!; try done. by eapply entries_inj.
Qed.
End Binding.

(** ** The checked doors *)

Lemma append_all_some {A} (f : bytes -> A -> option bytes) l :
  (forall x buf, x ∈ l -> is_Some (f buf x)) -> forall buf, is_Some (append_all f l buf).
Proof.
  induction l as [|x l IH]; intros Hf buf; [by eexists|]. cbn. destruct (Hf x buf) as [b ->]; [left|].
  apply IH. intros y b' Hy. apply Hf. by right.
Qed.

(** Hashing panics only where the checked doors expect it. *)
Lemma no_recover_some registry HashBytes v : forall depth buf,
  propertyValueHashNeedsRecover v depth = false -> is_Some (appendPropertyValueHashBytes registry HashBytes buf v depth).
Proof.
  revert v. apply (value_nested_ind (fun v => forall depth buf, propertyValueHashNeedsRecover v depth = false ->
    is_Some (appendPropertyValueHashBytes registry HashBytes buf v depth))); [intros l IH depth buf Hn|intros m IH depth buf Hn|intros v].
  - cbn in Hn |- *. destruct (depth >? _); [done|]. rewrite Forall_forall in IH. apply append_all_some. intros x b Hx. apply IH; [done|].
    destruct (propertyValueHashNeedsRecover x (depth + 1)) eqn:E; [|done]. rewrite <- Hn. symmetry. apply existsb_exists.
    exists x. by rewrite <- list_elem_of_In.
  - destruct (depth >? maxPropertyDepth) eqn:Hd; [cbn in Hn; by rewrite Hd in Hn|]. rewrite append_map_eq by done.
    cbn in Hn. rewrite Hd in Hn. rewrite Forall_forall in IH. apply append_all_some. intros kv b Hkv%elem_of_sort_by. apply IH; [done|].
    destruct (propertyValueHashNeedsRecover kv.2 (depth + 1)) eqn:E; [|done]. rewrite <- Hn. symmetry. apply existsb_exists.
    exists kv. by rewrite <- list_elem_of_In.
  - destruct v as [| | | | | |[|]|? [|]|[|]|[|]|[|]| | |]; try done; intros depth buf; cbn; destruct (depth >? _); try done; by eexists.
Qed.

Lemma no_recover_node registry HashBytes ps buf :
  propertySliceHashNeedsRecover ps = false -> is_Some (AppendHashBytes registry HashBytes ps buf).
Proof.
  intros Hn. apply append_all_some. intros p b Hp. apply no_recover_some.
  destruct (propertyValueHashNeedsRecover p.2 0) eqn:E; [|done]. rewrite <- Hn. symmetry. apply existsb_exists.
  exists p. by rewrite <- list_elem_of_In.
Qed.

Lemma AppendHashBytes_appends registry HashBytes ps buf :
  AppendHashBytes registry HashBytes ps buf = app buf <$> AppendHashBytes registry HashBytes ps [].
Proof. apply append_all_appends, Forall_forall. intros kv _. apply entry_appends. Qed.

Lemma labels_append buf labels : appendNodeLabelHashBytes buf labels = buf ++ appendNodeLabelHashBytes [] labels.
Proof. unfold appendNodeLabelHashBytes. by rewrite !fold_append. Qed.

(** The checked hash doors never panic: a nil row and a value whose hashing
    panics give their errors, every other row its hash, which is the unchecked
    door's; and a hash finished from a precomputed suffix is the node's hash. *)
Theorem checked_hash_total registry HashBytes sha256 n r labels typeName :
  (ComputeNodeHashChecked registry HashBytes sha256 n labels =
    Some match n with
         | None => inr ErrNilNode
         | Some n => match computeNodeHash registry HashBytes sha256 n labels with Some h => inl h | None => inr ErrHashPanic end
         end) /\
  (ComputeRelHashChecked registry HashBytes sha256 r typeName =
    Some match r with
         | None => inr ErrNilRelationship
         | Some r => match computeRelHash registry HashBytes sha256 r typeName with Some h => inl h | None => inr ErrHashPanic end
         end) /\
  forall node, exists res, PrecomputeNodeHashSuffixChecked registry HashBytes labels (n_properties node) = Some res /\
    computeNodeHash registry HashBytes sha256 node labels =
      match res with inl suffix => Some (ComputeNodeHashFromSuffix sha256 (n_id node) (n_version node) suffix) | inr _ => None end.
Proof.
  split_and!.
  - destruct n as [n|]; [|done]. unfold ComputeNodeHashChecked. destruct (propertySliceHashNeedsRecover (n_properties n)) eqn:Hr; [by destruct (computeNodeHash _ _ _ _ _)|].
    unfold computeNodeHash, node_preimage. by destruct (no_recover_node registry HashBytes _ (appendNodeLabelHashBytes (be_bytes 8 (u64 (n_id n)) ++ be_bytes 4 (n_version n)) labels) Hr) as [b ->].
  - destruct r as [r|]; [|done]. unfold ComputeRelHashChecked. destruct (propertySliceHashNeedsRecover (r_properties r)) eqn:Hr; [by destruct (computeRelHash _ _ _ _ _)|].
    unfold computeRelHash, rel_preimage. match goal with |- context [AppendHashBytes _ _ _ ?b] => by destruct (no_recover_node registry HashBytes _ b Hr) as [? ->] end.
  - intros node. unfold PrecomputeNodeHashSuffixChecked, computeNodeHash, node_preimage, ComputeNodeHashFromSuffix.
    rewrite (labels_append (_ ++ _)), (AppendHashBytes_appends _ _ _ (_ ++ _)), (AppendHashBytes_appends _ _ _ (appendNodeLabelHashBytes [] labels)).
    destruct (AppendHashBytes registry HashBytes (n_properties node) []) as [b|] eqn:Hb.
    + eexists. split; [reflexivity|]. cbn [fmap option_fmap option_map]. by rewrite <- !app_assoc.
    + destruct (propertySliceHashNeedsRecover (n_properties node)) eqn:Hr; [by eexists|].
      destruct (no_recover_node registry HashBytes _ [] Hr) as [b Hb']. congruence.
Qed.

(** ** What a hash binds *)

(** C15: a node's hash binds its content: two nodes with the same hash have the
    same id and version, the same labels in some order, and the same properties
    (up to the iteration order of maps), unless SHA-256 collides; for non-empty
    labels below 2^24 bytes and non-empty property keys below 256 bytes. *)
Theorem node_hash_binds registry HashBytes sha256 n n' labels labels' h
  (Hsha : forall x, Forall is_byte (sha256 x))
  (Hn : node_sizes HashBytes n labels) (Hn' : node_sizes HashBytes n' labels')
  (Hh : computeNodeHash registry HashBytes sha256 n labels = Some h)
  (Hh' : computeNodeHash registry HashBytes sha256 n' labels' = Some h) :
  (n_id n = n_id n' /\ n_version n = n_version n' /\ Permutation labels labels' /\
   Forall2 (same_entry HashBytes) (n_properties n) (n_properties n')) \/ collision sha256.
Proof.
  apply fmap_Some in Hh as (b & Hb & ->). apply fmap_Some in Hh' as (b' & Hb' & E).
  apply hash_string_inj in E as [<-|Hc]; [|by right|done]. left. by eapply node_preimage_inj.
Qed.

(** A relationship's hash binds its id, version, type name, endpoints and
    properties, unless SHA-256 collides; for names and keys of any length below
    2^32 - 1. *)
Theorem rel_hash_binds registry HashBytes sha256 r r' ty ty' h
  (Hsha : forall x, Forall is_byte (sha256 x))
  (Hr : rel_sizes HashBytes r ty) (Hr' : rel_sizes HashBytes r' ty')
  (Hh : computeRelHash registry HashBytes sha256 r ty = Some h)
  (Hh' : computeRelHash registry HashBytes sha256 r' ty' = Some h) :
  (r_id r = r_id r' /\ r_version r = r_version r' /\ ty = ty' /\ r_startID r = r_startID r' /\ r_endID r = r_endID r' /\
   Forall2 (same_entry HashBytes) (r_properties r) (r_properties r')) \/ collision sha256.
Proof.
  apply fmap_Some in Hh as (b & Hb & ->). apply fmap_Some in Hh' as (b' & Hb' & E).
  apply hash_string_inj in E as [<-|Hc]; [|by right|done]. left. by eapply rel_preimage_inj.
Qed.

(** A digest that keeps 32 bytes of its input. *)
Definition short_digest (x : bytes) : bytes := map (fun b => b mod 256) (take 32 x).

Lemma short_digest_bytes x : Forall is_byte (short_digest x).
Proof. apply Forall_map, Forall_forall. intros b _. unfold is_byte. simpl. pose proof (Z.mod_pos_bound b 256). lia. Qed.

Definition hash_node : Node PropertySlice := NewNode [([107], VAnys (Some [VBool true; VString [97]]))] (Alloc 0) 7 1 [].

Definition hash_node_hash : bytes :=
  Eval vm_compute in default [] (computeNodeHash [] (fun _ => None) short_digest hash_node [[65]; [66]]).

Lemma hash_node_sizes labels : Forall small_name labels -> node_sizes (fun _ => None) hash_node labels.
Proof. intros Hl. split; [split; vm_compute; congruence|cbn; lia|done|]. apply Forall_singleton. split_and!; [done|cbn; lia|reflexivity]. Qed.

Lemma node_hash_binds_witness :
  (n_id hash_node = n_id hash_node /\ n_version hash_node = n_version hash_node /\ Permutation [[65]; [66]] [[66]; [65]] /\
    Forall2 (same_entry (fun _ => None)) (n_properties hash_node) (n_properties hash_node)) \/ collision short_digest.
Proof.
  apply (node_hash_binds [] (fun _ => None) short_digest hash_node hash_node [[65]; [66]] [[66]; [65]] hash_node_hash short_digest_bytes).
  - apply hash_node_sizes. repeat apply Forall_cons_2; [..|apply Forall_nil_2]; (split; [done|cbn; lia]).
  - apply hash_node_sizes. repeat apply Forall_cons_2; [..|apply Forall_nil_2]; (split; [done|cbn; lia]).
  - vm_compute. reflexivity.
  - vm_compute. reflexivity.
Defined.

Definition hash_rel : Relationship PropertySlice := NewRelationship [([107], VNum TInt64 5)] (Alloc 0) 9 1 7 8.

Definition hash_rel_hash : bytes := Eval vm_compute in default [] (computeRelHash [] (fun _ => None) short_digest hash_rel [82]).

Lemma rel_hash_binds_witness :
  (r_id hash_rel = r_id hash_rel /\ r_version hash_rel = r_version hash_rel /\ [82] = [82] /\
   r_startID hash_rel = r_startID hash_rel /\ r_endID hash_rel = r_endID hash_rel /\
   Forall2 (same_entry (fun _ => None)) (r_properties hash_rel) (r_properties hash_rel)) \/ collision short_digest.
Proof.
  assert (Hs : rel_sizes (fun _ => None) hash_rel [82]).
  { split; [split_and!; split; vm_compute; congruence|cbn; lia|reflexivity|repeat constructor]. }
  apply (rel_hash_binds [] (fun _ => None) short_digest hash_rel hash_rel [82] [82] hash_rel_hash short_digest_bytes Hs Hs); vm_compute; reflexivity.
Defined.

(** ** Keys of 256 bytes *)

(** The key spells the tag and the length of a string that its own tail and the
    nil after it complete. *)
Definition long_key : bytes := [14; 0; 0; 0; 252] ++ repeat 97 251.

Definition one_label_node : Node PropertySlice := NewNode [([2], VNil); (long_key, VNil)] (Alloc 0) 7 1 [].

Definition two_label_node : Node PropertySlice := NewNode [([0], VString (repeat 97 251 ++ [0]))] (Alloc 0) 7 1 [2].

(** At the default limit of 256 bytes for a property key a node's hash no
    longer binds its labels: a node labelled [\x01] and a node labelled [\x01] and
    [\x02], with different properties, all accepted by the entry checks, spell
    the same bytes, so they have the same hash under every digest. *)
Theorem node_hash_ambiguous registry HashBytes DeepCopyValue sha256 :
  NewPropertySlice registry DeepCopyValue (n_properties one_label_node) = inl (n_properties one_label_node) /\
  NewPropertySlice registry DeepCopyValue (n_properties two_label_node) = inl (n_properties two_label_node) /\
  length long_key = 256%nat /\ isBlankName [1] = false /\ isBlankName [2] = false /\
  n_properties one_label_node <> n_properties two_label_node /\
  exists h, computeNodeHash registry HashBytes sha256 one_label_node [[1]] = Some h /\
    computeNodeHash registry HashBytes sha256 two_label_node [[1]; [2]] = Some h.
Proof.
  split_and!; try (vm_compute; reflexivity); [done|].
  eexists (hash_string sha256 (default [] (node_preimage [] (fun _ => None) one_label_node [[1]]))).
  split; unfold computeNodeHash; vm_compute; reflexivity.
Qed.
