(* ===== verification/AsOf.v ===== *)
(** * As-of selection (storeutil/asof_select.go)

    [SelectAsOfWithCurrent] is the one rule by which every backend answers
    "which row of this entity was the newest belief recorded by transaction-time
    pin".  History rows arrive in any order, the live current row apart.  The
    loops over the suffixes [seq[i:]] of the source are structural recursions on
    the suffix. *)

From S2P Require Import Prelude ValidTime Rows.

(** [NormalizeTemporalVisibleAtTxTime]: the belief state of a row's metadata as
    of [txTime], as an edit of a private copy. *)
Definition NormalizeTemporalVisibleAtTxTime (a : ValidAxis) (txTime : Instant) (tm : TemporalMetadata) :
    TemporalMetadata :=
  let tm := if TxTo tm >? txTime then set_TxTo 0 tm else tm in
  if DeletedAt tm >? txTime then
    let tm := if DeleteWroteValidTo (Some tm) then set_ValidTo (ValidAxis_OpenEnd a) tm else tm in
    set_delete 0 false false tm
  else tm.

Definition OwnOpenAtTxTime (a : ValidAxis) (tm : option TemporalMetadata) (pin : Instant) : bool :=
  ValidAxis_Open a (ValidAxis_ValidToAtTxTime a tm pin).

Definition retractedAtTxTime (tm : option TemporalMetadata) (pin : Instant) : bool :=
  match tm with
  | None => false
  | Some tm =>
      (negb (TxTo tm =? 0) && (TxTo tm <=? pin)) || (negb (DeletedAt tm =? 0) && (DeletedAt tm <=? pin))
  end.

Definition IsVoid (tm : option TemporalMetadata) : bool :=
  match tm with Some tm => Void tm | None => false end.

Section Select.
Context {T : Type} `{EntityRow T}.
Implicit Types (r : T) (seq desc history : list T).

Definition rowRetractedAtTxTime r (pin : Instant) : bool := retractedAtTxTime (TemporalByValue r) pin.

(** The run of [openInWrite]: the rows that share the newest row's TxFrom. *)
Fixpoint open_run (a : ValidAxis) (tx pin : Instant) seq : option T :=
  match seq with
  | [] => None
  | r :: rest =>
      match TemporalByValue r with
      | Some tm =>
          if negb (TxFrom tm =? tx) then None
          else if OwnOpenAtTxTime a (Some tm) pin then Some r
          else open_run a tx pin rest
      | None => None
      end
  end.

(** [openInWrite a seq i pin], [seq[i:]] being [r :: rest]. *)
Definition openInWrite (a : ValidAxis) r (rest : list T) (pin : Instant) : T :=
  let tx := match TemporalByValue r with Some tm => TxFrom tm | None => 0 end in
  match open_run a tx pin (r :: rest) with Some ans => ans | None => r end.

(** The loop of [lifeEndedAtTxTime] over [desc[i+1:]], [newest] being the
    TxFrom of [desc[i]]. *)
Fixpoint lifeEnded_below (newest pin : Instant) (below : list T) : bool :=
  match below with
  | [] => false
  | h :: rest =>
      match TemporalByValue h with
      | Some tm =>
          if (TxTo tm =? 0) || (TxTo tm <? TxFrom tm) then lifeEnded_below newest pin rest
          else negb (DeletedAt tm =? 0) && (DeletedAt tm >? newest) && (DeletedAt tm <=? pin)
      | None => lifeEnded_below newest pin rest
      end
  end.

Definition lifeEndedAtTxTime r (below : list T) (pin : Instant) : bool :=
  lifeEnded_below (match TemporalByValue r with Some tm => TxFrom tm | None => 0 end) pin below.

(** History newest version first, without void rows. *)
Definition asof_desc history : list T :=
  sort_by (fun x y => Version y <? Version x)
    (List.filter (fun h => negb (IsVoid (TemporalByValue h))) history).

(** The current arm's loop: the rows above the current one that remain. *)
Fixpoint asof_above (a : ValidAxis) (ctx pin : Instant) (above : list T) (current : T) : option T :=
  match above with
  | [] => Some current
  | h :: rest =>
      let skip := match TemporalByValue h with
                  | Some tm => (TxFrom tm <? ctx) || (TxFrom tm >? pin)
                  | None => true
                  end in
      if skip then asof_above a ctx pin rest current
      else let ans := openInWrite a h (rest ++ [current]) pin in
           if rowRetractedAtTxTime ans pin then None else Some ans
  end.

(** The history arm's loop. *)
Fixpoint asof_history (a : ValidAxis) (pin : Instant) desc : option T :=
  match desc with
  | [] => None
  | h :: rest =>
      let skip := match TemporalByValue h with
                  | Some tm => (TxFrom tm =? 0) || (TxFrom tm >? pin)
                  | None => true
                  end in
      if skip then asof_history a pin rest
      else let ans := openInWrite a h rest pin in
           if rowRetractedAtTxTime ans pin || lifeEndedAtTxTime h rest pin then None else Some ans
  end.

Definition carriesRetraction (h : T) : bool :=
  match TemporalByValue h with
  | Some tm => negb (TxTo tm =? 0) && (TxTo tm >=? TxFrom tm)
  | None => false
  end.

(** [current] is [None] where the source passes [hasCurrent] false. *)
Definition SelectAsOfWithCurrent (a : ValidAxis) history (current : option T) (pin : Instant) : option T :=
  let desc := asof_desc history in
  match current with
  | Some c =>
      match TemporalByValue c with
      | Some ctm =>
          if (TxFrom ctm >? 0) && (TxFrom ctm <=? pin) && (TxTo ctm =? 0) then
            let above := List.filter (fun h => Version h >? Version c) desc in
            if existsb carriesRetraction above then Some c
            else asof_above a (TxFrom ctm) pin above c
          else asof_history a pin desc
      | None => asof_history a pin desc
      end
  | None => asof_history a pin desc
  end.

Definition SelectAsOf (a : ValidAxis) history (pin : Instant) : option T :=
  SelectAsOfWithCurrent a history None pin.

(** ** Lemmas *)

(** Recorded by the pin. *)
Definition recorded_by (pin : Instant) (r : T) : Prop :=
  exists tm, TemporalByValue r = Some tm /\ TxFrom tm <> 0 /\ TxFrom tm <= pin.

Lemma open_run_spec a tx pin seq ans :
  open_run a tx pin seq = Some ans ->
  ans ∈ seq /\ exists tm, TemporalByValue ans = Some tm /\ TxFrom tm = tx /\ OwnOpenAtTxTime a (Some tm) pin = true.
Proof.
  induction seq as [|r seq IH]; simpl; [done|].
  destruct (TemporalByValue r) as [tm|] eqn:E; [|done].
  destruct (Z.eqb_spec (TxFrom tm) tx) as [Ht|]; simpl; [|done].
  destruct (OwnOpenAtTxTime a (Some tm) pin) eqn:Eo.
  - intros [= <-]. split; [left|]. by exists tm.
  - intros Hr. destruct (IH Hr) as [Hin Htm]. split; [by right|done].
Qed.

Lemma openInWrite_spec a r rest pin tm :
  TemporalByValue r = Some tm ->
  openInWrite a r rest pin ∈ r :: rest /\
  exists tm', TemporalByValue (openInWrite a r rest pin) = Some tm' /\ TxFrom tm' = TxFrom tm.
Proof.
  intros E. unfold openInWrite. rewrite E.
  destruct (open_run a (TxFrom tm) pin (r :: rest)) as [ans|] eqn:Er.
  - apply open_run_spec in Er as (Hin & tm' & ? & ? & _). split; [done|]. by exists tm'.
  - split; [left|]. by exists tm.
Qed.

Lemma asof_history_sound a pin desc ans :
  asof_history a pin desc = Some ans ->
  ans ∈ desc /\ recorded_by pin ans /\ rowRetractedAtTxTime ans pin = false.
Proof.
  induction desc as [|h rest IH]; simpl; [done|].
  assert (asof_history a pin rest = Some ans ->
          ans ∈ h :: rest /\ recorded_by pin ans /\ rowRetractedAtTxTime ans pin = false) as Hrec.
  { intros Hr. destruct (IH Hr) as (? & ? & ?). split_and!; [by right|done..]. }
  destruct (TemporalByValue h) as [tm|] eqn:E; [|exact Hrec].
  destruct (_ || _) eqn:Es; [exact Hrec|]. apply orb_false_iff in Es as [Hz Hp].
  destruct (rowRetractedAtTxTime (openInWrite a h rest pin) pin) eqn:Er; simpl; [done|].
  destruct (lifeEndedAtTxTime h rest pin); simpl; [done|]. intros [= <-].
  destruct (openInWrite_spec a h rest pin tm E) as (Hin & tm' & Htm & Htx).
  split_and!; [done| |done]. exists tm'. split; [done|]. lia.
Qed.

Lemma asof_above_sound a ctx pin above c ans :
  asof_above a ctx pin above c = Some ans ->
  ans = c \/
  (ans ∈ above ++ [c] /\ rowRetractedAtTxTime ans pin = false /\
   exists tm, TemporalByValue ans = Some tm /\ ctx <= TxFrom tm <= pin).
Proof.
  induction above as [|h rest IH]; simpl; [intros [= <-]; by left|].
  assert (asof_above a ctx pin rest c = Some ans ->
          ans = c \/ (ans ∈ h :: (rest ++ [c]) /\ rowRetractedAtTxTime ans pin = false /\
           exists tm, TemporalByValue ans = Some tm /\ ctx <= TxFrom tm <= pin)) as Hrec.
  { intros Hr. destruct (IH Hr) as [->|(? & ? & ?)]; [by left|right]. split_and!; [by right|done..]. }
  destruct (TemporalByValue h) as [tm|] eqn:E; [|exact Hrec].
  destruct (_ || _) eqn:Es; [exact Hrec|]. apply orb_false_iff in Es as [Hz Hp].
  destruct (rowRetractedAtTxTime (openInWrite a h (rest ++ [c]) pin) pin) eqn:Er; [done|].
  intros [= <-]. right.
  destruct (openInWrite_spec a h (rest ++ [c]) pin tm E) as (Hin & tm' & Htm & Htx).
  split_and!; [done..|]. exists tm'. split; [done|]. lia.
Qed.

Lemma elem_of_asof_desc r history :
  r ∈ asof_desc history <-> r ∈ history /\ IsVoid (TemporalByValue r) = false.
Proof.
  unfold asof_desc. rewrite elem_of_sort_by, list_elem_of_In, filter_In, negb_true_iff, <- list_elem_of_In. done.
Qed.

(** Rows of newer versions recorded after the pin are passed over. *)
Lemma asof_history_skip a pin newer desc :
  Forall (fun h => exists tm, TemporalByValue h = Some tm /\ TxFrom tm > pin) newer ->
  asof_history a pin (newer ++ desc) = asof_history a pin desc.
Proof.
  induction 1 as [|h newer (tm & E & Ht) _ IH]; simpl; [done|]. rewrite E.
  destruct (_ || _) eqn:Es; [done|]. apply orb_false_iff in Es as [_ Es]. lia.
Qed.
End Select.

(** An as-of answer is a row of the entity recorded by the pin: the live
    current row, or a history row that is no void piece and was neither
    superseded nor deleted by the pin. *)
Theorem asof_answer_recorded {T} `{EntityRow T} a history (current : option T) pin ans :
  SelectAsOfWithCurrent a history current pin = Some ans ->
  recorded_by pin ans /\
  ((ans ∈ history /\ IsVoid (TemporalByValue ans) = false /\ rowRetractedAtTxTime ans pin = false) \/
   (current = Some ans /\ exists tm, TemporalByValue ans = Some tm /\ TxTo tm = 0)).
Proof.
  assert (asof_history a pin (asof_desc history) = Some ans ->
    recorded_by pin ans /\
    ((ans ∈ history /\ IsVoid (TemporalByValue ans) = false /\ rowRetractedAtTxTime ans pin = false) \/
     (current = Some ans /\ exists tm, TemporalByValue ans = Some tm /\ TxTo tm = 0))) as Hhist.
  { intros ([Hh Hv]%elem_of_asof_desc & Hr & Hn)%asof_history_sound. split; [done|]. by left. }
  unfold SelectAsOfWithCurrent. destruct current as [c|]; [|exact Hhist].
  destruct (TemporalByValue c) as [ctm|] eqn:Ec; [|exact Hhist].
  destruct (_ && _) eqn:Eg; [|exact Hhist]. rewrite !andb_true_iff in Eg. destruct Eg as [[E1 E2] E3].
  assert (recorded_by pin c) as Hrc by (exists ctm; split; [done|lia]).
  assert (exists tm, TemporalByValue c = Some tm /\ TxTo tm = 0) as Hcur by (exists ctm; split; [done|lia]).
  destruct (existsb _ _); [intros [= <-]; split; [done|by right]|].
  intros [->|(Hin & Hn & tm & Htm & Htx)]%asof_above_sound; [split; [done|by right]|].
  split; [exists tm; split; [done|lia]|].
  apply elem_of_app in Hin as [[Hin _]%elem_of_Lfilter|Hin].
  - apply elem_of_asof_desc in Hin as [Hin Hv]. by left.
  - apply list_elem_of_singleton in Hin as ->. by right.
Qed.

#[local] Existing Instance demo_layout.

Lemma asof_answer_recorded_witness :
  let h := [demo_row 2 1 (demo_tm 0 9 8 12 0); demo_row 1 0 (demo_tm 0 0 5 8 0)] in
  let ans := demo_row 2 1 (demo_tm 0 9 8 12 0) in
  recorded_by 10 ans /\
  ((ans ∈ h /\ IsVoid (TemporalByValue ans) = false /\ rowRetractedAtTxTime ans 10 = false) \/
   (None = Some ans /\ exists tm, TemporalByValue ans = Some tm /\ TxTo tm = 0)).
Proof. intros h ans. apply (asof_answer_recorded LegacyValidAxis h None 10 ans). reflexivity. Defined.
