(* ===== verification/Retention.v ===== *)
(** * Retention watermarks and gates (core/retention.go, retention_rel.go)

    A retention purge removes whole entities below an instant and leaves no
    tombstones, so a read pinned below that instant could miss them.  Each purge
    first raises a watermark, kept per label or relationship type in the store's
    metadata and as a maximum in memory, and the read doors refuse pins below it.
    Here: the watermarks, their loading, export, import and reset, and the gates. *)

From stdpp Require Import gmap.
From S2P Require Import Prelude Bytes ValidTime ValueKeys Registry Props Rows.

Inductive retError :=
  | ErrRetentionExpired
  | ErrCorruptWire
  | ErrMeta
  | ErrStore
  | ErrCapabilityNotSupported
  | ErrApplyUnsupported
  | ErrInvalidPurgePolicy
  | ErrRetentionPurgeDisabled
  | ErrRetentionPurgeChangeLogEnabled
  | ErrCorruptExport
  | ErrGraphClosed
  | ErrNotWritable
  | ErrNilContext
  | ErrContextDone
  | ErrInvalidStoreMutation.

(** ** State *)

(** The store's metadata ([None]: no such capability) and the atomics of the core. *)
Record retention := mkRet {
  metaKV : option (gmap bytes bytes);
  retentionMaxWatermark : Z;
  retentionRelMaxWatermark : Z;
  relRetentionWatermarks : option (gmap Z Z);
  retentionAnyMax : Z;
}.

Definition retentionMaxWatermarkMeta : bytes := bytes_of_string "retention_max_watermark".

Definition retentionWatermarkKey (labelToken : Z) : bytes := bytes_of_string "retention_watermark/" ++ FormatUint labelToken.

Definition retentionRelMaxWatermarkMeta : bytes := bytes_of_string "retention_rel_max_watermark".

Definition retentionRelWatermarkKey (typeToken : Z) : bytes := bytes_of_string "retention_rel_watermark/" ++ FormatUint typeToken.

Definition encodeWatermark (wm : Z) : bytes := be_bytes 8 (u64 wm).

Definition put_meta (key value : bytes) (r : retention) : retention :=
  mkRet ((fun m => <[key := value]> m) <$> metaKV r) (retentionMaxWatermark r) (retentionRelMaxWatermark r) (relRetentionWatermarks r) (retentionAnyMax r).

Definition set_max (w : Z) (r : retention) : retention := mkRet (metaKV r) w (retentionRelMaxWatermark r) (relRetentionWatermarks r) (retentionAnyMax r).

Definition set_rel_max (w : Z) (r : retention) : retention := mkRet (metaKV r) (retentionMaxWatermark r) w (relRetentionWatermarks r) (retentionAnyMax r).

Definition set_rel_marks (m : option (gmap Z Z)) (r : retention) : retention := mkRet (metaKV r) (retentionMaxWatermark r) (retentionRelMaxWatermark r) m (retentionAnyMax r).

Definition set_any (w : Z) (r : retention) : retention := mkRet (metaKV r) (retentionMaxWatermark r) (retentionRelMaxWatermark r) (relRetentionWatermarks r) w.

(** The compare-and-swap loop, as one step. *)
Definition raiseRetentionAnyMax (w : Z) (r : retention) : retention := if w <=? retentionAnyMax r then r else set_any w r.

Section Watermarks.
(** Whether the store fails a read or a write of a metadata key during the call. *)
Context (get_fails set_fails : bytes -> bool).

(** ** Reading and advancing *)

Definition decode_watermark (v : bytes) : Z + retError :=
  match v with
  | [] => inl 0
  | _ => if negb (length v =? 8)%nat then inr ErrCorruptWire
         else let wm := i64 (be_int v) in if wm <? 0 then inr ErrCorruptWire else inl wm
  end.

Definition MetaGet (m : gmap bytes bytes) (key : bytes) : bytes + retError := if get_fails key then inr ErrMeta else inl (default [] (m !! key)).

Definition readWatermarkMeta (m : gmap bytes bytes) (key : bytes) : Z + retError :=
  match MetaGet m key with inr e => inr e | inl v => decode_watermark v end.

Definition loadRetentionWatermark (r : retention) : retention + retError :=
  match metaKV r with
  | None => inl r
  | Some m =>
      match MetaGet m retentionMaxWatermarkMeta with
      | inr e => inr e
      | inl [] => inl r
      | inl v => match decode_watermark v with inr e => inr e | inl wm => inl (raiseRetentionAnyMax wm (set_max wm r)) end
      end
  end.

Definition retentionWatermarkForLabel (labelToken : Z) (r : retention) : Z + retError :=
  match metaKV r with None => inl 0 | Some m => readWatermarkMeta m (retentionWatermarkKey labelToken) end.

(** A write that fails leaves what was written before it. *)
Definition advanceRetentionWatermark (labelToken w : Z) (r : retention) : retention * option retError :=
  if w <=? 0 then (r, None)
  else match metaKV r with
       | None => (r, Some ErrCapabilityNotSupported)
       | Some _ =>
           match retentionWatermarkForLabel labelToken r with
           | inr e => (r, Some e)
           | inl cur =>
               if (w >? cur) && set_fails (retentionWatermarkKey labelToken) then (r, Some ErrMeta)
               else
                 let r := if w >? cur then put_meta (retentionWatermarkKey labelToken) (encodeWatermark w) r else r in
                 if w >? retentionMaxWatermark r then
                   if set_fails retentionMaxWatermarkMeta then (r, Some ErrMeta)
                   else (raiseRetentionAnyMax w (set_max w (put_meta retentionMaxWatermarkMeta (encodeWatermark w) r)), None)
                 else (raiseRetentionAnyMax w r, None)
           end
       end.

Definition relRetentionWatermark (typeToken : Z) (r : retention) : Z :=
  match relRetentionWatermarks r with Some m => default 0 (m !! typeToken) | None => 0 end.

(** The tokens 1 to [n] of a registry. *)
Definition registered (n : Z) : list Z := map Z.of_nat (seq 1 (Z.to_nat n)).

Fixpoint load_marks (m : gmap bytes bytes) (toks : list Z) (marks : gmap Z Z) : gmap Z Z + retError :=
  match toks with
  | [] => inl marks
  | tok :: toks' =>
      match readWatermarkMeta m (retentionRelWatermarkKey tok) with
      | inr e => inr e
      | inl wm => load_marks m toks' (if wm >? 0 then <[tok := wm]> marks else marks)
      end
  end.

Definition loadRelRetentionWatermarks (relTypes : LabelRegistry) (r : retention) : retention + retError :=
  match metaKV r with
  | None => inl r
  | Some m =>
      match readWatermarkMeta m retentionRelMaxWatermarkMeta with
      | inr e => inr e
      | inl relMax =>
          let r := set_rel_marks None (set_rel_max relMax r) in
          if relMax >? 0 then
            match load_marks m (registered (Len relTypes)) ∅ with
            | inr e => inr e
            | inl marks => inl (raiseRetentionAnyMax relMax (set_rel_marks (Some marks) r))
            end
          else inl (raiseRetentionAnyMax relMax r)
      end
  end.

Definition advanceRelRetentionWatermark (typeToken w : Z) (r : retention) : retention * option retError :=
  if (w <=? 0) || (typeToken =? 0) then (r, None)
  else match metaKV r with
       | None => (r, Some ErrCapabilityNotSupported)
       | Some _ =>
           let raised := w >? relRetentionWatermark typeToken r in
           if raised && set_fails (retentionRelWatermarkKey typeToken) then (r, Some ErrMeta)
           else
             let r := if raised then set_rel_marks (Some (<[typeToken := w]> (default ∅ (relRetentionWatermarks r)))) (put_meta (retentionRelWatermarkKey typeToken) (encodeWatermark w) r) else r in
             if w >? retentionRelMaxWatermark r then
               if set_fails retentionRelMaxWatermarkMeta then (r, Some ErrMeta)
               else (raiseRetentionAnyMax w (set_rel_max w (put_meta retentionRelMaxWatermarkMeta (encodeWatermark w) r)), None)
             else (raiseRetentionAnyMax w r, None)
       end.

(** ** Reset *)

Fixpoint clear_keys (key_of : Z -> bytes) (toks : list Z) (r : retention) : retention * option retError :=
  match toks with
  | [] => (r, None)
  | tok :: toks' => if set_fails (key_of tok) then (r, Some ErrMeta) else clear_keys key_of toks' (put_meta (key_of tok) [] r)
  end.

Definition reapRelRetentionForReset (relTypes : LabelRegistry) (r : retention) : retention * option retError :=
  let r := set_rel_marks None (set_rel_max 0 r) in
  match metaKV r with
  | None => (r, None)
  | Some _ =>
      if set_fails retentionRelMaxWatermarkMeta then (r, Some ErrMeta)
      else clear_keys retentionRelWatermarkKey (registered (Len relTypes)) (put_meta retentionRelMaxWatermarkMeta [] r)
  end.

Definition reapRetentionForReset (labels relTypes : LabelRegistry) (r : retention) : retention * option retError :=
  let r := set_any 0 (set_max 0 r) in
  match reapRelRetentionForReset relTypes r with
  | (r, Some e) => (r, Some e)
  | (r, None) =>
      match metaKV r with
      | None => (r, None)
      | Some _ =>
          if set_fails retentionMaxWatermarkMeta then (r, Some ErrMeta)
          else clear_keys retentionWatermarkKey (registered (Len labels)) (put_meta retentionMaxWatermarkMeta [] r)
      end
  end.

(** ** Export and import *)

Fixpoint label_marks (labels : LabelRegistry) (toks : list Z) (r : retention) (nodes : gmap bytes Z) : gmap bytes Z + retError :=
  match toks with
  | [] => inl nodes
  | tok :: toks' =>
      match retentionWatermarkForLabel tok r with
      | inr e => inr e
      | inl wm => label_marks labels toks' r (if wm >? 0 then <[Resolve labels tok := wm]> nodes else nodes)
      end
  end.

(** A nil map of the source is an empty one. *)
Definition retentionWatermarksByName (labels relTypes : LabelRegistry) (r : retention) : gmap bytes Z * gmap bytes Z + retError :=
  match (if retentionMaxWatermark r >? 0 then label_marks labels (registered (Len labels)) r ∅ else inl ∅) with
  | inr e => inr e
  | inl nodes =>
      inl (nodes, fold_left (fun rels p => <[Resolve relTypes p.1 := p.2]> rels) (map_to_list (default ∅ (relRetentionWatermarks r))) ∅)
  end.

(** The entries in the order the map is ranged over. *)
Fixpoint import_marks (advance : Z -> Z -> retention -> retention * option retError) (registry : LabelRegistry) (byName : list (bytes * Z)) (r : retention) : retention * option retError :=
  match byName with
  | [] => (r, None)
  | (name, wm) :: byName' =>
      match Lookup registry name with
      | Some tok =>
          if wm <=? 0 then (r, Some ErrCorruptExport)
          else match advance tok wm r with
               | (r, Some e) => (r, Some e)
               | (r, None) => import_marks advance registry byName' r
               end
      | None => (r, Some ErrCorruptExport)
      end
  end.

Definition importNodeRetentionLocked (labels : LabelRegistry) (byName : list (bytes * Z)) (r : retention) : retention * option retError :=
  import_marks advanceRetentionWatermark labels byName r.

Definition importRelRetentionLocked (relTypes : LabelRegistry) (byName : list (bytes * Z)) (r : retention) : retention * option retError :=
  import_marks advanceRelRetentionWatermark relTypes byName r.

(** ** The gates of scans *)

Record retentionScope := mkScope { sc_nodes : bool; sc_rels : bool; sc_relType : Z }.

Definition scopeNodes : retentionScope := mkScope true false 0.

Definition scopeAllRels : retentionScope := mkScope true true 0.

Definition scopeRelsOnly : retentionScope := mkScope false true 0.

Definition withoutNodes (s : retentionScope) : retentionScope := mkScope false (sc_rels s) (sc_relType s).

Definition relTypeRetentionScope (relTypes : LabelRegistry) (typeName : bytes) : retentionScope :=
  if bool_decide (typeName = []) then scopeAllRels
  else match Lookup relTypes typeName with Some tok => mkScope true true tok | None => scopeNodes end.

Definition scanRetentionPin (opts : QueryOpts) : Instant :=
  if negb (effectiveTxPin opts =? 0) then effectiveTxPin opts
  else if HasValidAt opts then pinInstant (o_ValidAt opts) true
  else if HasValidInterval opts then pinInstant (o_ValidStart opts) true
  else o_ValidStart opts.

(** [None]: the read may go on. *)
Definition checkScanRetentionAt (pin : Instant) (scope : retentionScope) (r : retention) : option retError :=
  if pin =? 0 then None
  else
    let anyMax := retentionAnyMax r in
    if (anyMax =? 0) || (pin >=? anyMax) then None
    else if sc_nodes scope && (pin <? retentionMaxWatermark r) then Some ErrRetentionExpired
    else if negb (sc_rels scope) then None
    else
      let wm := if negb (sc_relType scope =? 0) then relRetentionWatermark (sc_relType scope) r else retentionRelMaxWatermark r in
      if pin <? wm then Some ErrRetentionExpired else None.

Definition checkScanRetention (opts : QueryOpts) (scope : retentionScope) (r : retention) : option retError := checkScanRetentionAt (scanRetentionPin opts) scope r.

Definition checkRelsOnlyRetention (relTypes : LabelRegistry) (typeName : bytes) (pin : Instant) (r : retention) : option retError :=
  checkScanRetentionAt pin (withoutNodes (relTypeRetentionScope relTypes typeName)) r.

Fixpoint check_types (relTypes : LabelRegistry) (names : list bytes) (pin : Instant) (r : retention) : option retError :=
  match names with
  | [] => None
  | name :: names' => match checkRelsOnlyRetention relTypes name pin r with Some e => Some e | None => check_types relTypes names' pin r end
  end.

Definition checkRelTypesRetention (relTypes : LabelRegistry) (names : list bytes) (pin : Instant) (r : retention) : option retError :=
  match names with [] => checkScanRetentionAt pin scopeRelsOnly r | _ => check_types relTypes names pin r end.

Definition relsAtTxPin (validAt txAt : Instant) : Instant := if negb (txAt =? 0) then txAt else validAt.

(** ** The gates of points *)

Section Points.
(** The reads of the store: the current row ([inl None]: not found) and the history,
    oldest first. *)
Context `{Layout} {P : Type} (getCurrentNode : Z -> option (Node P) + retError) (getNodeHistory : Z -> list (Node P) + retError)
  (getCurrentRelationship : Z -> option (Relationship P) + retError) (getRelHistory : Z -> list (Relationship P) + retError).

Definition nodeLabelTokensForRetention (id : Z) : list Z + retError :=
  match getCurrentNode id with
  | inr e => inr e
  | inl (Some node) => inl (AllLabelTokens node)
  | inl None =>
      match getNodeHistory id with
      | inr e => inr e
      | inl history => match List.last (map Some history) None with Some node => inl (AllLabelTokens node) | None => inl [] end
      end
  end.

Fixpoint max_mark (toks : list Z) (r : retention) (floor : Z) : Z + retError :=
  match toks with
  | [] => inl floor
  | tok :: toks' => match retentionWatermarkForLabel tok r with inr e => inr e | inl wm => max_mark toks' r (Z.max floor wm) end
  end.

Definition nodeRetentionFloor (id : Z) (r : retention) : Z + retError :=
  let graphMax := retentionMaxWatermark r in
  if graphMax =? 0 then inl 0
  else match nodeLabelTokensForRetention id with
       | inr e => inr e
       | inl toks => match max_mark toks r 0 with inr e => inr e | inl floor => inl (Z.min graphMax floor) end
       end.

Definition checkNodePointRetention (id : Z) (pin : Instant) (r : retention) : option retError :=
  if pin =? 0 then None
  else
    let graphMax := retentionMaxWatermark r in
    if (graphMax =? 0) || (pin >=? graphMax) then None
    else match nodeRetentionFloor id r with
         | inr e => Some e
         | inl floor => if negb (floor =? 0) && (pin <? floor) then Some ErrRetentionExpired else None
         end.

(** [None]: not gated. *)
Definition relNodeFamilyFloor (r : retention) : option Z :=
  let anyMax := retentionAnyMax r in if anyMax =? 0 then None else Some (Z.min anyMax (retentionMaxWatermark r)).

Definition checkRelPointRetention (pin : Instant) (r : retention) : option retError :=
  if pin =? 0 then None
  else match relNodeFamilyFloor r with
       | Some floor => if pin <? floor then Some ErrRetentionExpired else None
       | None => None
       end.

Definition relTypeTokenForRetention (id : Z) : option Z + retError :=
  match getCurrentRelationship id with
  | inr e => inr e
  | inl (Some rel) => inl (Some (r_relType rel))
  | inl None =>
      match getRelHistory id with
      | inr e => inr e
      | inl history => inl (r_relType <$> List.last (map Some history) None)
      end
  end.

Definition relTypeRetentionFloor (id : Z) (r : retention) : option Z + retError :=
  let relMax := retentionRelMaxWatermark r in
  if MintInstantMillis id >=? relMax then inl None
  else match relTypeTokenForRetention id with
       | inr e => inr e
       | inl None => inl (Some relMax)
       | inl (Some tok) => inl (Some (Z.min relMax (relRetentionWatermark tok r)))
       end.

Definition checkRelTypePointRetention (id : Z) (pin : Instant) (r : retention) : option retError :=
  if (pin =? 0) || (pin >=? retentionRelMaxWatermark r) then None
  else match relTypeRetentionFloor id r with
       | inr e => Some e
       | inl (Some floor) => if pin <? floor then Some ErrRetentionExpired else None
       | inl None => None
       end.
End Points.
End Watermarks.

