(* ===== verification/RetentionMarks.v ===== *)
(** * What the retention watermarks guarantee

    The keys of the watermarks and their encodings, two invariants that every
    operation of [Retention] keeps (the watermarks cover the purges done; no
    watermark is higher than a purge tried), and what the gates answer under them. *)

From stdpp Require Import gmap.
From S2P Require Import Prelude Bytes ValidTime ValueKeys Registry Props Rows Retention.

(** ** Keys and encodings *)

Lemma decode_encode w : 0 <= w < 2 ^ 63 -> decode_watermark (encodeWatermark w) = inl w.
Proof.
  intros Hw. unfold encodeWatermark, decode_watermark. assert (Hu : u64 w = w) by (unfold u64; apply Z.mod_small; lia). rewrite Hu.
  pose proof (length_be_bytes 8 w) as Hl. destruct (be_bytes 8 w) as [|b l] eqn:E; [done|]. rewrite Hl. cbn [Nat.eqb negb]. rewrite <- E, be_int_bytes by (cbn; lia).
  rewrite i64_id by (unfold in_i64, MinInt64, MaxInt64; lia). destruct (Z.ltb_spec w 0); [lia|done].
Qed.

Lemma decode_nonneg v w : decode_watermark v = inl w -> 0 <= w.
Proof. unfold decode_watermark. destruct v; [intros [= <-]; done|]. destruct (negb _); [done|]. cbv zeta. destruct (Z.ltb_spec (i64 (be_int (z :: v))) 0); [done|]. intros [= <-]. lia. Qed.

Definition token_ok (tok : Z) : Prop := 0 <= tok <= TokenCapacityMax.

Lemma label_key_inj a b : token_ok a -> token_ok b -> retentionWatermarkKey a = retentionWatermarkKey b -> a = b.
Proof. unfold token_ok, TokenCapacityMax. intros Ha Hb E. apply app_inv_head in E. apply FormatUint_inj; [lia..|done]. Qed.

Lemma rel_key_inj a b : token_ok a -> token_ok b -> retentionRelWatermarkKey a = retentionRelWatermarkKey b -> a = b.
Proof. unfold token_ok, TokenCapacityMax. intros Ha Hb E. apply app_inv_head in E. apply FormatUint_inj; [lia..|done]. Qed.

(** The four families of keys do not meet. *)
Inductive mark_key := MaxKey | RelMaxKey | LabelKey (tok : Z) | TypeKey (tok : Z).

#[export] Instance mark_key_eq_dec : EqDecision mark_key.
Proof. solve_decision. Defined.

Definition key_bytes (k : mark_key) : bytes :=
  match k with MaxKey => retentionMaxWatermarkMeta | RelMaxKey => retentionRelMaxWatermarkMeta | LabelKey tok => retentionWatermarkKey tok | TypeKey tok => retentionRelWatermarkKey tok end.

Definition key_ok (k : mark_key) : Prop := match k with LabelKey tok | TypeKey tok => token_ok tok | _ => True end.

Lemma key_bytes_inj k k' : key_ok k -> key_ok k' -> key_bytes k = key_bytes k' -> k = k'.
Proof.
  destruct k, k'; cbn [key_bytes key_ok]; intros Hk Hk' E; try done; try (exfalso; clear -E; discriminate E); f_equal; [by apply label_key_inj|by apply rel_key_inj].
Qed.

(** ** Marks in the metadata *)

Definition mark_of (m : gmap bytes bytes) (k : mark_key) : Z := match decode_watermark (default [] (m !! key_bytes k)) with inl w => w | inr _ => 0 end.

Definition meta_ok (m : gmap bytes bytes) : Prop := forall k, key_ok k -> exists w, decode_watermark (default [] (m !! key_bytes k)) = inl w.

Lemma read_mark get_fails m k w : meta_ok m -> key_ok k -> readWatermarkMeta get_fails m (key_bytes k) = inl w -> w = mark_of m k.
Proof. intros Hm Hk. unfold readWatermarkMeta, MetaGet, mark_of. destruct (get_fails _); [done|]. by intros ->. Qed.

Lemma mark_nonneg m k : 0 <= mark_of m k.
Proof. unfold mark_of. destruct (decode_watermark _) as [w|] eqn:E; [by apply decode_nonneg in E|done]. Qed.

Lemma mark_put m k w k' : key_ok k -> key_ok k' -> 0 <= w < 2 ^ 63 ->
  mark_of (<[key_bytes k := encodeWatermark w]> m) k' = if bool_decide (k' = k) then w else mark_of m k'.
Proof.
  intros Hk Hk' Hw. unfold mark_of. case_bool_decide as E; [subst; rewrite lookup_insert_eq; cbn [from_option id]; by rewrite decode_encode|].
  rewrite lookup_insert_ne; [done|]. intros E2. apply E. by apply key_bytes_inj.
Qed.

Lemma mark_clear m k k' : key_ok k -> key_ok k' -> mark_of (<[key_bytes k := []]> m) k' = if bool_decide (k' = k) then 0 else mark_of m k'.
Proof.
  intros Hk Hk'. unfold mark_of. case_bool_decide as E; [subst; rewrite lookup_insert_eq; done|]. rewrite lookup_insert_ne; [done|]. intros E2. apply E. by apply key_bytes_inj.
Qed.

Lemma meta_ok_put m k v : meta_ok m -> key_ok k -> (exists w, decode_watermark v = inl w) -> meta_ok (<[key_bytes k := v]> m).
Proof.
  intros Hm Hk Hv k' Hk'. destruct (decide (key_bytes k = key_bytes k')) as [->|Hne]; [by rewrite lookup_insert_eq|rewrite lookup_insert_ne by done; by apply Hm].
Qed.

(** ** The state of a graph that purges *)

(** What purges ran: the label (or type) and boundary of each. *)
Definition purges : Type := list (Z * Z).

(** Memory is never ahead of the metadata. *)
Definition ram_behind (r : retention) (m : gmap bytes bytes) : Prop :=
  metaKV r = Some m /\ meta_ok m /\ retentionMaxWatermark r <= mark_of m MaxKey /\ retentionRelMaxWatermark r <= mark_of m RelMaxKey /\
  (forall T, token_ok T -> relRetentionWatermark T r <= mark_of m (TypeKey T)) /\
  0 <= retentionMaxWatermark r <= retentionAnyMax r /\ 0 <= retentionRelMaxWatermark r <= retentionAnyMax r.

(** The watermarks cover every purge. *)
Definition covers_purges (r : retention) (N R : purges) : Prop :=
  exists m, ram_behind r m /\
    (forall L B, (L, B) ∈ N -> token_ok L /\ B <= mark_of m (LabelKey L) /\ B <= retentionMaxWatermark r) /\
    (forall T B, (T, B) ∈ R -> token_ok T /\ 0 < T /\ B <= retentionRelMaxWatermark r /\ B <= relRetentionWatermark T r).

Lemma raise_fields w r : metaKV (raiseRetentionAnyMax w r) = metaKV r /\ retentionMaxWatermark (raiseRetentionAnyMax w r) = retentionMaxWatermark r /\
  retentionRelMaxWatermark (raiseRetentionAnyMax w r) = retentionRelMaxWatermark r /\ (forall T, relRetentionWatermark T (raiseRetentionAnyMax w r) = relRetentionWatermark T r) /\
  retentionAnyMax (raiseRetentionAnyMax w r) = Z.max w (retentionAnyMax r).
Proof. unfold raiseRetentionAnyMax, relRetentionWatermark. destruct (Z.leb_spec w (retentionAnyMax r)); cbn [set_any metaKV retentionMaxWatermark retentionRelMaxWatermark relRetentionWatermarks retentionAnyMax]; split_and!; try done; lia. Qed.

(** A successful or partial advance of one label: what changes. *)
Record advanced (r r' : retention) (m m' : gmap bytes bytes) : Prop := {
  ad_behind : ram_behind r' m';
  ad_labels : forall L, token_ok L -> mark_of m (LabelKey L) <= mark_of m' (LabelKey L);
  ad_max : retentionMaxWatermark r <= retentionMaxWatermark r';
  ad_relmax : retentionRelMaxWatermark r <= retentionRelMaxWatermark r';
  ad_types : forall T, relRetentionWatermark T r <= relRetentionWatermark T r';
}.

Lemma advanced_refl r m : ram_behind r m -> advanced r r m m.
Proof. intros Hr. split; [done|lia..]. Qed.

Lemma covers_advanced r r' m m' N R : covers_purges r N R -> ram_behind r m -> advanced r r' m m' -> covers_purges r' N R.
Proof.
  intros (m0 & (E0 & _) & HN & HR) (E & _) [Hb Hl H1 H2 H3]. rewrite E in E0. injection E0 as <-. exists m'. split; [done|]. split.
  - intros L B Hin. destruct (HN L B Hin) as (Ht & Hm & Hx). split; [done|]. specialize (Hl L Ht). lia.
  - intros T B Hin. destruct (HR T B Hin) as (Ht & Hp & Hm & Hx). split; [done|]. split; [done|]. specialize (H3 T). lia.
Qed.

Section Advance.
Context (get_fails set_fails : bytes -> bool).

Lemma advance_label L w r r' m e : ram_behind r m -> token_ok L -> 0 < w < 2 ^ 63 -> advanceRetentionWatermark get_fails set_fails L w r = (r', e) ->
  exists m', advanced r r' m m' /\ (e = None -> mark_of m' (LabelKey L) = Z.max w (mark_of m (LabelKey L)) /\ retentionMaxWatermark r' = Z.max w (retentionMaxWatermark r) /\
    forall k, key_ok k -> k <> LabelKey L -> k <> MaxKey -> mark_of m' k = mark_of m k).
Proof.
  intros Hr HL Hw. pose proof Hr as (Em & Hok & Hx & Hrx & Hty & Ha & Hra). unfold advanceRetentionWatermark. destruct (Z.leb_spec w 0); [lia|].
  unfold retentionWatermarkForLabel. rewrite Em. destruct (readWatermarkMeta get_fails m (retentionWatermarkKey L)) as [cur|e'] eqn:Er; [|intros [= <- <-]; exists m; split; [by apply advanced_refl|done]].
  pose proof (read_mark get_fails m (LabelKey L) cur Hok HL Er) as ->. destruct ((w >? mark_of m (LabelKey L)) && set_fails _); [intros [= <- <-]; exists m; split; [by apply advanced_refl|done]|].
  set (m1 := if w >? mark_of m (LabelKey L) then <[key_bytes (LabelKey L) := encodeWatermark w]> m else m).
  set (r1 := if w >? mark_of m (LabelKey L) then _ else r).
  assert (Hm1 : forall k, key_ok k -> mark_of m1 k = if bool_decide (k = LabelKey L) then Z.max w (mark_of m k) else mark_of m k).
  { intros k Hk. unfold m1. destruct (Z.gtb_spec w (mark_of m (LabelKey L))); [rewrite mark_put by (done || lia)|]; case_bool_decide; subst; try done; lia. }
  assert (Hr1 : advanced r r1 m m1 /\ retentionMaxWatermark r1 = retentionMaxWatermark r).
  { assert (Hf : metaKV r1 = Some m1 /\ retentionMaxWatermark r1 = retentionMaxWatermark r /\ retentionRelMaxWatermark r1 = retentionRelMaxWatermark r /\ (forall T, relRetentionWatermark T r1 = relRetentionWatermark T r) /\ retentionAnyMax r1 = retentionAnyMax r).
    { unfold r1, m1. destruct (w >? _); [|done]. unfold put_meta. rewrite Em. done. }
    destruct Hf as (E1 & E2 & E3 & E4 & E5). split; [|done]. split; [|intros L' HL'; rewrite Hm1 by done; case_bool_decide; lia|lia|lia|intros T; rewrite E4; lia].
    split; [done|]. split; [unfold m1; destruct (w >? _); [apply meta_ok_put; [done|done|exists w; apply decode_encode; lia]|done]|].
    rewrite !Hm1 by done. rewrite !bool_decide_eq_false_2 by done. split; [lia|]. split; [lia|]. split; [|lia]. intros T HT. rewrite E4, Hm1, bool_decide_eq_false_2 by done. by apply Hty. }
  destruct Hr1 as [Had1 E2]. clearbody r1. pose proof (ad_behind _ _ _ _ Had1) as (F1 & F2 & F3 & F4 & F5 & F6 & F7).
  destruct (Z.gtb_spec w (retentionMaxWatermark r1)) as [Hg|Hg].
  - destruct (set_fails retentionMaxWatermarkMeta); [intros [= <- <-]; exists m1; split; [done|done]|]. intros [= <- <-].
    set (r2 := set_max w _). destruct (raise_fields w r2) as (G1 & G2 & G3 & G4 & G5). set (m2 := <[key_bytes MaxKey := encodeWatermark w]> m1).
    assert (Hm2 : forall k, key_ok k -> mark_of m2 k = if bool_decide (k = MaxKey) then w else mark_of m1 k) by (intros k Hk; unfold m2; apply mark_put; [done|done|lia]).
    assert (Hr2 : metaKV r2 = Some m2 /\ retentionMaxWatermark r2 = w /\ retentionRelMaxWatermark r2 = retentionRelMaxWatermark r1 /\ (forall T, relRetentionWatermark T r2 = relRetentionWatermark T r1) /\ retentionAnyMax r2 = retentionAnyMax r1).
    { unfold r2. cbn [set_max put_meta metaKV retentionMaxWatermark retentionRelMaxWatermark retentionAnyMax]. rewrite F1. done. }
    destruct Hr2 as (I1 & I2 & I3 & I4 & I5). exists m2. split.
    + split; rewrite ?G1, ?G2, ?G3, ?G5.
      * split; [by rewrite G1|]. split; [apply meta_ok_put; [done|done|exists w; apply decode_encode; lia]|]. rewrite !Hm2 by done. rewrite G2, G3, G5, I2, I3, I5, (bool_decide_eq_true_2 (MaxKey = MaxKey)), bool_decide_eq_false_2 by done. split; [lia|]. split; [lia|].
        split; [|lia]. intros T HT. rewrite G4, I4, Hm2, bool_decide_eq_false_2 by done. by apply F5.
      * intros L' HL'. rewrite Hm2, bool_decide_eq_false_2 by done. by apply Had1.
      * rewrite I2. lia.
      * rewrite I3. apply Had1.
      * intros T. rewrite G4, I4. apply Had1.
    + intros _. rewrite G2, I2, Hm2, Hm1, bool_decide_eq_false_2, bool_decide_eq_true_2 by done. split; [done|]. split; [lia|].
      intros k Hk N1 N2. by rewrite Hm2, Hm1, !bool_decide_eq_false_2.
  - intros [= <- <-]. destruct (raise_fields w r1) as (G1 & G2 & G3 & G4 & G5). exists m1. split.
    + split; [|apply Had1|rewrite G2; apply Had1|rewrite G3; apply Had1|intros T; rewrite G4; apply Had1].
      split; [by rewrite G1|]. split; [done|]. rewrite G2, G3, G5. split; [lia|]. split; [lia|]. split; [intros T HT; rewrite G4; by apply F5|lia].
    + intros _. rewrite G2, Hm1 by done. rewrite bool_decide_eq_true_2 by done. split; [done|]. split; [lia|]. intros k Hk N1 N2. by rewrite Hm1, bool_decide_eq_false_2.
Qed.

Lemma advance_covers L w r r' e N R : covers_purges r N R -> token_ok L -> 0 < w < 2 ^ 63 -> advanceRetentionWatermark get_fails set_fails L w r = (r', e) ->
  covers_purges r' (match e with None => (L, w) :: N | Some _ => N end) R.
Proof.
  intros Hc HL Hw E. pose proof Hc as (m & Hr & _). destruct (advance_label L w r r' m e Hr HL Hw E) as (m' & Had & Hex).
  pose proof (covers_advanced r r' m m' N R Hc Hr Had) as Hc'. destruct e; [done|]. destruct (Hex eq_refl) as (H1 & H2 & _). destruct Hc' as (m2 & Hr2 & HN & HR).
  assert (m2 = m') as -> by (pose proof (proj1 Hr2) as Ea; pose proof (proj1 (ad_behind _ _ _ _ Had)) as Eb; congruence).
  exists m'. split; [done|]. split; [|done]. intros L' B [[= -> ->]|Hin]%elem_of_cons; [|by apply HN]. split; [done|]. lia.
Qed.

Lemma advance_type T w r r' m e : ram_behind r m -> token_ok T -> 0 < T -> 0 < w < 2 ^ 63 -> advanceRelRetentionWatermark set_fails T w r = (r', e) ->
  exists m', advanced r r' m m' /\ (e = None -> relRetentionWatermark T r' = Z.max w (relRetentionWatermark T r) /\ retentionRelMaxWatermark r' = Z.max w (retentionRelMaxWatermark r) /\
    (relRetentionWatermark T r = 0 -> mark_of m' (TypeKey T) = w) /\ forall k, key_ok k -> k <> TypeKey T -> k <> RelMaxKey -> mark_of m' k = mark_of m k).
Proof.
  intros Hr HT Hpos Hw. pose proof Hr as (Em & Hok & Hx & Hrx & Hty & Ha & Hra). unfold advanceRelRetentionWatermark. destruct (Z.leb_spec w 0); [lia|]. destruct (Z.eqb_spec T 0); [lia|]. cbn [orb]. rewrite Em.
  destruct ((w >? relRetentionWatermark T r) && set_fails _); [intros [= <- <-]; exists m; split; [by apply advanced_refl|done]|].
  set (m1 := if w >? relRetentionWatermark T r then <[key_bytes (TypeKey T) := encodeWatermark w]> m else m).
  set (r1 := if w >? relRetentionWatermark T r then _ else r).
  assert (Hf : metaKV r1 = Some m1 /\ retentionMaxWatermark r1 = retentionMaxWatermark r /\ retentionRelMaxWatermark r1 = retentionRelMaxWatermark r /\
    (forall T', relRetentionWatermark T' r1 = if bool_decide (T' = T) then Z.max w (relRetentionWatermark T r) else relRetentionWatermark T' r) /\ retentionAnyMax r1 = retentionAnyMax r).
  { unfold r1, m1. destruct (Z.gtb_spec w (relRetentionWatermark T r)) as [Hg|Hg].
    - unfold put_meta. rewrite Em. cbn [set_rel_marks metaKV retentionMaxWatermark retentionRelMaxWatermark retentionAnyMax]. split_and!; try done. intros T'. unfold relRetentionWatermark at 1. cbn [set_rel_marks relRetentionWatermarks].
      case_bool_decide; [subst; rewrite lookup_insert_eq; cbn; lia|rewrite lookup_insert_ne by done]. unfold relRetentionWatermark. by destruct (relRetentionWatermarks r).
    - split_and!; try done. intros T'. case_bool_decide; [subst; lia|done]. }
  assert (Hm1 : forall k, key_ok k -> k <> TypeKey T -> mark_of m1 k = mark_of m k) by (intros k Hk Hne; unfold m1; destruct (w >? _); [rewrite mark_put by (done || lia); by rewrite bool_decide_eq_false_2|done]).
  assert (Hmt : Z.max w (relRetentionWatermark T r) <= mark_of m1 (TypeKey T)).
  { unfold m1. specialize (Hty T HT). destruct (Z.gtb_spec w (relRetentionWatermark T r)); [rewrite mark_put by (done || lia); rewrite bool_decide_eq_true_2 by done|]; lia. }
  destruct Hf as (E1 & E2 & E3 & E4 & E5).
  assert (Had1 : advanced r r1 m m1).
  { split; [|intros L HL; rewrite Hm1 by done; lia|lia|lia|intros T'; rewrite E4; case_bool_decide; subst; lia].
    split; [done|]. split; [unfold m1; destruct (w >? _); [apply meta_ok_put; [done|done|exists w; apply decode_encode; lia]|done]|].
    rewrite !Hm1 by done. split; [lia|]. split; [lia|]. split; [|lia]. intros T' HT'. rewrite E4. case_bool_decide as ET; [by subst|]. rewrite Hm1 by (done || by intros [= ?]). by apply Hty. }
  assert (Hzero : relRetentionWatermark T r = 0 -> mark_of m1 (TypeKey T) = w).
  { intros Hz. unfold m1. rewrite Hz. destruct (Z.gtb_spec w 0); [|lia]. rewrite mark_put by (done || lia). by rewrite bool_decide_eq_true_2. }
  pose proof (ad_behind _ _ _ _ Had1) as (F1 & F2 & F3 & F4 & F5 & F6 & F7). clearbody r1.
  destruct (Z.gtb_spec w (retentionRelMaxWatermark r1)) as [Hg|Hg].
  - destruct (set_fails retentionRelMaxWatermarkMeta); [intros [= <- <-]; exists m1; split; [done|done]|]. intros [= <- <-].
    set (r2 := set_rel_max w _). destruct (raise_fields w r2) as (G1 & G2 & G3 & G4 & G5). set (m2 := <[key_bytes RelMaxKey := encodeWatermark w]> m1).
    assert (Hm2 : forall k, key_ok k -> mark_of m2 k = if bool_decide (k = RelMaxKey) then w else mark_of m1 k) by (intros k Hk; unfold m2; apply mark_put; [done|done|lia]).
    assert (Hr2 : metaKV r2 = Some m2 /\ retentionMaxWatermark r2 = retentionMaxWatermark r1 /\ retentionRelMaxWatermark r2 = w /\ (forall T', relRetentionWatermark T' r2 = relRetentionWatermark T' r1) /\ retentionAnyMax r2 = retentionAnyMax r1).
    { unfold r2. cbn [set_rel_max put_meta metaKV retentionMaxWatermark retentionRelMaxWatermark retentionAnyMax]. rewrite F1. done. }
    destruct Hr2 as (I1 & I2 & I3 & I4 & I5). exists m2. split.
    + split; rewrite ?G1, ?G2, ?G3, ?G5.
      * split; [by rewrite G1|]. split; [apply meta_ok_put; [done|done|exists w; apply decode_encode; lia]|]. rewrite !Hm2 by done. rewrite G2, G3, G5, I2, I3, I5, (bool_decide_eq_true_2 (RelMaxKey = RelMaxKey)), bool_decide_eq_false_2 by done. split; [lia|]. split; [lia|].
        split; [|lia]. intros T' HT'. rewrite G4, I4, Hm2, bool_decide_eq_false_2 by done. by apply F5.
      * intros L HL. rewrite Hm2, bool_decide_eq_false_2 by done. by apply Had1.
      * rewrite I2. apply Had1.
      * rewrite I3. lia.
      * intros T'. rewrite G4, I4. apply Had1.
    + intros _. rewrite G3, I3, G4, I4, E4, bool_decide_eq_true_2 by done. split; [done|]. split; [lia|]. split; [intros Hz; rewrite Hm2, bool_decide_eq_false_2 by done; by apply Hzero|].
      intros k Hk N1 N2. by rewrite Hm2, bool_decide_eq_false_2, Hm1.
  - intros [= <- <-]. destruct (raise_fields w r1) as (G1 & G2 & G3 & G4 & G5). exists m1. split.
    + split; [|apply Had1|rewrite G2; apply Had1|rewrite G3; apply Had1|intros T'; rewrite G4; apply Had1].
      split; [by rewrite G1|]. split; [done|]. rewrite G2, G3, G5. split; [lia|]. split; [lia|]. split; [intros T' HT'; rewrite G4; by apply F5|lia].
    + intros _. rewrite G3, G4, E4, bool_decide_eq_true_2 by done. split; [done|]. split; [lia|]. split; [done|]. intros k Hk N1 N2. by apply Hm1.
Qed.

Lemma advance_rel_covers T w r r' e N R : covers_purges r N R -> token_ok T -> 0 < T -> 0 < w < 2 ^ 63 -> advanceRelRetentionWatermark set_fails T w r = (r', e) ->
  covers_purges r' N (match e with None => (T, w) :: R | Some _ => R end).
Proof.
  intros Hc HT Hpos Hw E. pose proof Hc as (m & Hr & _). destruct (advance_type T w r r' m e Hr HT Hpos Hw E) as (m' & Had & Hex).
  pose proof (covers_advanced r r' m m' N R Hc Hr Had) as Hc'. destruct e; [done|]. destruct (Hex eq_refl) as (H1 & H2 & _). destruct Hc' as (m2 & Hr2 & HN & HR).
  exists m2. split; [done|]. split; [done|]. intros T' B [[= -> ->]|Hin]%elem_of_cons; [|by apply HR]. split; [done|]. split; [done|]. lia.
Qed.

(** ** Watermarks are not higher than the purges tried *)

(** A watermark as memory holds it ([LabelKey]: only in the metadata). *)
Definition ram_mark (r : retention) (k : mark_key) : Z :=
  match k with MaxKey => retentionMaxWatermark r | RelMaxKey => retentionRelMaxWatermark r | TypeKey T => relRetentionWatermark T r | LabelKey _ => 0 end.

Definition tried_mark (AN AR : purges) (k : mark_key) (w : Z) : Prop :=
  match k with MaxKey => exists L, (L, w) ∈ AN | RelMaxKey => exists T, (T, w) ∈ AR | LabelKey L => (L, w) ∈ AN | TypeKey T => (T, w) ∈ AR end.

Definition marks_tried (f : mark_key -> Z) (AN AR : purges) : Prop := forall k, key_ok k -> f k = 0 \/ tried_mark AN AR k (f k).

Definition at_most_tried (r : retention) (AN AR : purges) : Prop :=
  exists m, metaKV r = Some m /\ marks_tried (mark_of m) AN AR /\ marks_tried (ram_mark r) AN AR.

Lemma tried_mono AN AR AN' AR' k w : AN ⊆ AN' -> AR ⊆ AR' -> tried_mark AN AR k w -> tried_mark AN' AR' k w.
Proof. intros HN HR. destruct k; cbn [tried_mark]; set_solver. Qed.

Lemma marks_tried_mono f AN AR AN' AR' : AN ⊆ AN' -> AR ⊆ AR' -> marks_tried f AN AR -> marks_tried f AN' AR'.
Proof. intros HN HR Hf k Hk. destruct (Hf k Hk) as [H|H]; [by left|right]. by eapply tried_mono. Qed.

(** Watermarks that change only to 0 or to what was tried stay so bounded. *)
Lemma marks_tried_change f f' AN AR : marks_tried f AN AR -> (forall k, key_ok k -> f' k = f k \/ f' k = 0 \/ tried_mark AN AR k (f' k)) -> marks_tried f' AN AR.
Proof. intros Hf H k Hk. destruct (H k Hk) as [->|[?|?]]; [by apply Hf|by left|by right]. Qed.

Lemma raise_ram w r k : ram_mark (raiseRetentionAnyMax w r) k = ram_mark r k.
Proof. destruct (raise_fields w r) as (_ & H1 & H2 & H3 & _). destruct k; cbn [ram_mark]; auto. Qed.

Lemma advance_tried L w r r' e AN AR : at_most_tried r AN AR -> token_ok L -> 0 < w < 2 ^ 63 -> advanceRetentionWatermark get_fails set_fails L w r = (r', e) -> at_most_tried r' ((L, w) :: AN) AR.
Proof.
  intros (m & Em & Hm & Hr) HL Hw. apply (marks_tried_mono _ _ _ ((L, w) :: AN) AR) in Hm, Hr; try set_solver.
  assert (Hput : forall m1 k, key_ok k -> marks_tried (mark_of m1) ((L, w) :: AN) AR -> tried_mark ((L, w) :: AN) AR k w -> marks_tried (mark_of (<[key_bytes k := encodeWatermark w]> m1)) ((L, w) :: AN) AR).
  { intros m1 k Hk H1 Ht. apply (marks_tried_change (mark_of m1)); [done|]. intros k' Hk'. rewrite mark_put by (done || lia). case_bool_decide; [subst; auto|auto]. }
  unfold advanceRetentionWatermark. destruct (Z.leb_spec w 0); [lia|]. rewrite Em. destruct (retentionWatermarkForLabel _ L r) as [cur|e']; [|intros [= <- <-]; by exists m].
  destruct (_ && _); [intros [= <- <-]; by exists m|]. set (r1 := if w >? cur then _ else r).
  assert (H1 : at_most_tried r1 ((L, w) :: AN) AR).
  { unfold r1. destruct (w >? cur); [|by exists m]. exists (<[retentionWatermarkKey L := encodeWatermark w]> m). cbn [put_meta metaKV]. rewrite Em. split; [done|]. split; [|done].
    apply (Hput m (LabelKey L)); [done..|]. cbn [tried_mark]. set_solver. }
  clearbody r1. destruct H1 as (m1 & Em1 & Hm1 & Hr1).
  assert (Hraise : forall r2 m2, metaKV r2 = Some m2 -> marks_tried (mark_of m2) ((L, w) :: AN) AR -> marks_tried (ram_mark r2) ((L, w) :: AN) AR -> at_most_tried (raiseRetentionAnyMax w r2) ((L, w) :: AN) AR).
  { intros r2 m2 E2 H2 H3. exists m2. destruct (raise_fields w r2) as (-> & _). split; [done|]. split; [done|]. intros k Hk. rewrite raise_ram. by apply H3. }
  destruct (w >? retentionMaxWatermark r1); [|intros [= <- <-]; by apply (Hraise r1 m1)]. destruct (set_fails _); [intros [= <- <-]; by exists m1|]. intros [= <- <-].
  apply (Hraise _ (<[key_bytes MaxKey := encodeWatermark w]> m1)); [cbn [set_max put_meta metaKV]; by rewrite Em1| |].
  - apply Hput; [done..|]. exists L. set_solver.
  - apply (marks_tried_change (ram_mark r1)); [done|]. intros [| | |] Hk; [right; right|left..]; try done. exists L. cbn [ram_mark set_max retentionMaxWatermark]. set_solver.
Qed.

Lemma advance_rel_tried T w r r' e AN AR : at_most_tried r AN AR -> token_ok T -> 0 < T -> 0 < w < 2 ^ 63 -> advanceRelRetentionWatermark set_fails T w r = (r', e) -> at_most_tried r' AN ((T, w) :: AR).
Proof.
  intros (m & Em & Hm & Hr) HT Hpos Hw. apply (marks_tried_mono _ _ _ AN ((T, w) :: AR)) in Hm, Hr; try set_solver.
  assert (Hput : forall m1 k, key_ok k -> marks_tried (mark_of m1) AN ((T, w) :: AR) -> tried_mark AN ((T, w) :: AR) k w -> marks_tried (mark_of (<[key_bytes k := encodeWatermark w]> m1)) AN ((T, w) :: AR)).
  { intros m1 k Hk H1 Ht. apply (marks_tried_change (mark_of m1)); [done|]. intros k' Hk'. rewrite mark_put by (done || lia). case_bool_decide; [subst; auto|auto]. }
  unfold advanceRelRetentionWatermark. destruct (Z.leb_spec w 0); [lia|]. destruct (Z.eqb_spec T 0); [lia|]. cbn [orb]. rewrite Em.
  destruct (_ && _); [intros [= <- <-]; by exists m|]. set (r1 := if w >? relRetentionWatermark T r then _ else r).
  assert (H1 : at_most_tried r1 AN ((T, w) :: AR)).
  { unfold r1. destruct (w >? _); [|by exists m]. exists (<[retentionRelWatermarkKey T := encodeWatermark w]> m). cbn [set_rel_marks put_meta metaKV]. rewrite Em. split; [done|]. split.
    - apply (Hput m (TypeKey T)); [done..|]. cbn [tried_mark]. set_solver.
    - apply (marks_tried_change (ram_mark r)); [done|]. intros [| | |T'] Hk; [left..|]; try done. destruct (decide (T' = T)) as [->|Hne]; cbn [ram_mark tried_mark]; unfold relRetentionWatermark; cbn [set_rel_marks relRetentionWatermarks].
      + right; right. rewrite lookup_insert_eq. cbn [from_option id]. set_solver.
      + left. rewrite lookup_insert_ne by done. by destruct (relRetentionWatermarks r). }
  clearbody r1. destruct H1 as (m1 & Em1 & Hm1 & Hr1).
  assert (Hraise : forall r2 m2, metaKV r2 = Some m2 -> marks_tried (mark_of m2) AN ((T, w) :: AR) -> marks_tried (ram_mark r2) AN ((T, w) :: AR) -> at_most_tried (raiseRetentionAnyMax w r2) AN ((T, w) :: AR)).
  { intros r2 m2 E2 H2 H3. exists m2. destruct (raise_fields w r2) as (-> & _). split; [done|]. split; [done|]. intros k Hk. rewrite raise_ram. by apply H3. }
  destruct (w >? retentionRelMaxWatermark r1); [|intros [= <- <-]; by apply (Hraise r1 m1)]. destruct (set_fails _); [intros [= <- <-]; by exists m1|]. intros [= <- <-].
  apply (Hraise _ (<[key_bytes RelMaxKey := encodeWatermark w]> m1)); [cbn [set_rel_max put_meta metaKV]; by rewrite Em1| |].
  - apply Hput; [done..|]. exists T. set_solver.
  - apply (marks_tried_change (ram_mark r1)); [done|]. intros [| | |] Hk; try (by left). right; right. exists T. cbn [ram_mark set_rel_max retentionRelMaxWatermark]. set_solver.
Qed.

(** ** Reopening *)

(** The atomics of a process that starts. *)
Definition fresh_ram (m : option (gmap bytes bytes)) : retention := mkRet m 0 0 None 0.

Lemma load_marks_spec m toks : forall marks marks', meta_ok m -> Forall token_ok toks -> load_marks get_fails m toks marks = inl marks' ->
  forall T, default 0 (marks' !! T) = if bool_decide (T ∈ toks /\ 0 < mark_of m (TypeKey T)) then mark_of m (TypeKey T) else default 0 (marks !! T).
Proof.
  induction toks as [|tok toks IH]; intros marks marks' Hok Ht; cbn [load_marks].
  - intros [= <-] T. rewrite bool_decide_eq_false_2; [done|]. intros [H _]. by apply not_elem_of_nil in H.
  - apply Forall_cons in Ht as [Htok Ht]. destruct (readWatermarkMeta get_fails m (retentionRelWatermarkKey tok)) as [wm|] eqn:Er; [|done].
    pose proof (read_mark get_fails m (TypeKey tok) wm Hok Htok Er) as ->. intros E T. rewrite (IH _ _ Hok Ht E T). destruct (decide (T = tok)) as [->|Hne].
    + destruct (Z.gtb_spec (mark_of m (TypeKey tok)) 0) as [Hg|Hg]; repeat case_bool_decide; try (rewrite lookup_insert_eq); try done; cbn [from_option id]; set_solver by lia.
    + destruct (Z.gtb_spec (mark_of m (TypeKey tok)) 0) as [Hg|Hg]; repeat case_bool_decide; try (rewrite lookup_insert_ne by done); try done; set_solver.
Qed.

(** The two loads of an open, in order. *)
Definition reopened (relTypes : LabelRegistry) (r : retention) : retention + retError :=
  match loadRetentionWatermark get_fails (fresh_ram (metaKV r)) with inl r1 => loadRelRetentionWatermarks get_fails relTypes r1 | inr e => inr e end.

Lemma registered_ok n : n <= TokenCapacityMax -> Forall token_ok (registered n).
Proof. intros Hn. apply Forall_forall. unfold registered. intros t (i & -> & Hi%elem_of_seq)%list_elem_of_fmap. unfold token_ok. lia. Qed.

Lemma elem_registered n t : t ∈ registered n <-> 1 <= t <= n.
Proof.
  unfold registered. rewrite list_elem_of_fmap. split; [intros (i & -> & Hi%elem_of_seq); lia|]. intros Ht. exists (Z.to_nat t). split; [lia|]. apply elem_of_seq. lia.
Qed.

(** What an open that succeeds has in memory. *)
Lemma reopened_spec relTypes r r' m : metaKV r = Some m -> meta_ok m -> Len relTypes <= TokenCapacityMax -> reopened relTypes r = inl r' ->
  metaKV r' = Some m /\ retentionMaxWatermark r' = mark_of m MaxKey /\ retentionRelMaxWatermark r' = mark_of m RelMaxKey /\
  (forall T, relRetentionWatermark T r' = if bool_decide (0 < mark_of m RelMaxKey /\ 1 <= T <= Len relTypes) then mark_of m (TypeKey T) else 0) /\
  mark_of m MaxKey <= retentionAnyMax r' /\ mark_of m RelMaxKey <= retentionAnyMax r'.
Proof.
  intros Em Hok Hlen. unfold reopened, loadRetentionWatermark. rewrite Em. cbn [fresh_ram metaKV].
  set (go := match MetaGet _ _ _ with inl _ => _ | inr _ => _ end).
  assert (Hgo : forall r1, go = inl r1 -> metaKV r1 = Some m /\ retentionMaxWatermark r1 = mark_of m MaxKey /\ (0 <= retentionAnyMax r1) /\ mark_of m MaxKey <= retentionAnyMax r1).
  { intros r1. unfold go, MetaGet. destruct (get_fails _); [done|]. pose proof (mark_nonneg m MaxKey) as Hnn. unfold mark_of, key_bytes in *. destruct (default [] (m !! retentionMaxWatermarkMeta)) as [|b v] eqn:Ev.
    - intros [= <-]. done.
    - destruct (decode_watermark (b :: v)) as [wm|]; [|done]. intros [= <-]. destruct (raise_fields wm (set_max wm (fresh_ram (Some m)))) as (-> & -> & _ & _ & ->). cbn [set_max fresh_ram metaKV retentionMaxWatermark retentionAnyMax]. split_and!; try done; lia. }
  destruct go as [r1|] eqn:Eg; [|done]. destruct (Hgo r1 eq_refl) as (E1 & E2 & E3 & E4). clear Hgo Eg go. unfold loadRelRetentionWatermarks. rewrite E1.
  destruct (readWatermarkMeta _ m retentionRelMaxWatermarkMeta) as [relMax|] eqn:Er; [|done]. pose proof (read_mark get_fails m RelMaxKey relMax Hok I Er) as ->.
  pose proof (mark_nonneg m RelMaxKey) as Hnn. destruct (Z.gtb_spec (mark_of m RelMaxKey) 0) as [Hg|Hg].
  - destruct (load_marks _ m _ ∅) as [marks|] eqn:El; [|done]. intros [= <-]. destruct (raise_fields (mark_of m RelMaxKey) (set_rel_marks (Some marks) (set_rel_marks None (set_rel_max (mark_of m RelMaxKey) r1)))) as (-> & -> & -> & Hrel & ->).
    cbn [set_rel_marks set_rel_max metaKV retentionMaxWatermark retentionRelMaxWatermark retentionAnyMax]. split_and!; try done; try lia. intros T. rewrite Hrel. unfold relRetentionWatermark. cbn [set_rel_marks relRetentionWatermarks].
    rewrite (load_marks_spec m _ _ _ Hok (registered_ok _ Hlen) El T), lookup_empty. cbn [from_option id]. pose proof (mark_nonneg m (TypeKey T)).
    destruct (decide (1 <= T <= Len relTypes)) as [HT|HT]; repeat case_bool_decide; rewrite ?elem_registered in *; try done; try lia; destruct_and?; lia.
  - intros [= <-]. destruct (raise_fields (mark_of m RelMaxKey) (set_rel_marks None (set_rel_max (mark_of m RelMaxKey) r1))) as (-> & -> & -> & Hrel & ->).
    cbn [set_rel_marks set_rel_max metaKV retentionMaxWatermark retentionRelMaxWatermark retentionAnyMax]. split_and!; try done; try lia. intros T. rewrite Hrel. unfold relRetentionWatermark. cbn [set_rel_marks relRetentionWatermarks].
    rewrite bool_decide_eq_false_2; [done|lia].
Qed.

Lemma reopened_covers relTypes r r' N R : covers_purges r N R -> Len relTypes <= TokenCapacityMax -> Forall (fun p : Z * Z => 1 <= p.1 <= Len relTypes) R -> reopened relTypes r = inl r' -> covers_purges r' N R.
Proof.
  intros (m & (Em & Hok & Hx & Hrx & Hty & Ha & Hra) & HN & HR) Hlen Hreg E. destruct (reopened_spec relTypes r r' m Em Hok Hlen E) as (E1 & E2 & E3 & E4 & E5 & E6).
  exists m. split.
  - split_and!; try done; try lia. intros T HT. rewrite E4. case_bool_decide; [lia|apply mark_nonneg].
  - split; [intros L B Hin; destruct (HN L B Hin) as (?&?&?); split_and!; try done; lia|]. intros T B Hin. destruct (HR T B Hin) as (HT & Hp & H1 & H2). split; [done|]. split; [done|]. split; [lia|].
    rewrite E4. case_bool_decide as Hc; [specialize (Hty T HT); lia|]. rewrite Forall_forall in Hreg. specialize (Hreg _ Hin). cbn [fst] in Hreg. pose proof (mark_nonneg m RelMaxKey). lia.
Qed.

Lemma reopened_tried relTypes r r' N R AN AR : covers_purges r N R -> at_most_tried r AN AR -> Len relTypes <= TokenCapacityMax -> reopened relTypes r = inl r' -> at_most_tried r' AN AR.
Proof.
  intros (m & (Em & Hok & _) & _) (m0 & Em0 & Hm & _) Hlen E. rewrite Em in Em0. injection Em0 as <-. destruct (reopened_spec relTypes r r' m Em Hok Hlen E) as (E1 & E2 & E3 & E4 & _).
  exists m. split; [done|]. split; [done|]. apply (marks_tried_change (mark_of m)); [done|]. intros [| | |T] Hk; cbn [ram_mark]; rewrite ?E2, ?E3, ?E4; auto. case_bool_decide; auto.
Qed.
End Advance.

(** ** Reset *)

Section Reset.
Context (set_fails : bytes -> bool).

Lemma clear_keys_spec (kf : Z -> mark_key) toks : forall r m r' e, metaKV r = Some m -> meta_ok m -> Forall (fun t => key_ok (kf t)) toks -> clear_keys set_fails (fun t => key_bytes (kf t)) toks r = (r', e) ->
  exists m', metaKV r' = Some m' /\ meta_ok m' /\ (forall k, ram_mark r' k = ram_mark r k) /\ retentionAnyMax r' = retentionAnyMax r /\
    (forall k, key_ok k -> mark_of m' k = mark_of m k \/ mark_of m' k = 0) /\ (e = None -> forall t, t ∈ toks -> mark_of m' (kf t) = 0).
Proof.
  induction toks as [|t toks IH]; intros r m r' e Em Hok Ht; cbn [clear_keys].
  - intros [= <- <-]. exists m. split_and!; try done; [by left|]. intros _ t Hin. by apply not_elem_of_nil in Hin.
  - apply Forall_cons in Ht as [Hk Ht]. destruct (set_fails (key_bytes (kf t))); [intros [= <- <-]; exists m; split_and!; try done; by left|]. intros E.
    set (m1 := <[key_bytes (kf t) := []]> m). assert (Hok1 : meta_ok m1) by (apply meta_ok_put; [done|done|by exists 0]).
    destruct (IH (put_meta (key_bytes (kf t)) [] r) m1 r' e) as (m' & E1 & E2 & E3 & E4 & E5 & E6); [cbn [put_meta metaKV]; by rewrite Em|done|done|done|].
    assert (Hm1 : forall k, key_ok k -> mark_of m1 k = if bool_decide (k = kf t) then 0 else mark_of m k) by (intros k Hk'; by apply mark_clear).
    exists m'. split_and!; try done.
    + intros k Hk'. destruct (E5 k Hk') as [->| ->]; [|by right]. rewrite Hm1 by done. case_bool_decide; auto.
    + intros He t' [->|Hin]%elem_of_cons; [|by apply E6]. destruct (E5 (kf t) Hk) as [->| ->]; [|done]. by rewrite Hm1, bool_decide_eq_true_2.
Qed.

(** A reset empties what memory holds; when it succeeds it clears the metadata of
    every registered token, and what it clears before failing stays cleared. *)
Lemma reset_spec labels relTypes r m r' e : metaKV r = Some m -> meta_ok m -> Len labels <= TokenCapacityMax -> Len relTypes <= TokenCapacityMax ->
  reapRetentionForReset set_fails labels relTypes r = (r', e) ->
  exists m', metaKV r' = Some m' /\ meta_ok m' /\ (forall k, ram_mark r' k = 0) /\ retentionAnyMax r' = 0 /\ (forall k, key_ok k -> mark_of m' k = mark_of m k \/ mark_of m' k = 0) /\
    (e = None -> mark_of m' MaxKey = 0 /\ mark_of m' RelMaxKey = 0 /\ (forall L, 1 <= L <= Len labels -> mark_of m' (LabelKey L) = 0) /\ (forall T, 1 <= T <= Len relTypes -> mark_of m' (TypeKey T) = 0)).
Proof.
  intros Em Hok Hl Ht. unfold reapRetentionForReset, reapRelRetentionForReset. cbn [set_any set_max set_rel_max set_rel_marks metaKV]. rewrite Em.
  set (r0 := set_rel_marks None (set_rel_max 0 (set_any 0 (set_max 0 r)))). assert (Er0 : metaKV r0 = Some m) by done. assert (Hr0 : forall k, ram_mark r0 k = 0) by (by intros []).
  destruct (set_fails retentionRelMaxWatermarkMeta); [intros [= <- <-]; exists m; split_and!; try done; by left|].
  set (m1 := <[key_bytes RelMaxKey := []]> m). assert (Hok1 : meta_ok m1) by (apply meta_ok_put; [done|done|by exists 0]).
  assert (Hm1 : forall k, key_ok k -> mark_of m1 k = if bool_decide (k = RelMaxKey) then 0 else mark_of m k) by (intros k Hk; by apply mark_clear).
  destruct (clear_keys _ retentionRelWatermarkKey _ _) as [r1 [e1|]] eqn:E1.
  - destruct (clear_keys_spec TypeKey (registered (Len relTypes)) (put_meta (key_bytes RelMaxKey) [] r0) m1 r1 (Some e1)) as (m2 & A1 & A2 & A3 & A4 & A5 & _); [cbn [put_meta metaKV]; by rewrite Er0|done|exact (registered_ok _ Ht)|exact E1|].
    intros [= <- <-]. exists m2. split_and!; try done; [intros k; rewrite A3; by destruct k|]. intros k Hk. destruct (A5 k Hk) as [->| ->]; [|by right]. rewrite Hm1 by done. case_bool_decide; auto.
  - destruct (clear_keys_spec TypeKey (registered (Len relTypes)) (put_meta (key_bytes RelMaxKey) [] r0) m1 r1 None) as (m2 & A1 & A2 & A3 & A4 & A5 & A6); [cbn [put_meta metaKV]; by rewrite Er0|done|exact (registered_ok _ Ht)|exact E1|].
    assert (Hr1 : forall k, ram_mark r1 k = 0) by (intros k; rewrite A3; by destruct k). assert (Hm2 : forall k, key_ok k -> mark_of m2 k = mark_of m k \/ mark_of m2 k = 0).
    { intros k Hk. destruct (A5 k Hk) as [->| ->]; [|by right]. rewrite Hm1 by done. case_bool_decide; auto. }
    rewrite A1. destruct (set_fails retentionMaxWatermarkMeta); [intros [= <- <-]; exists m2; by split_and!|].
    set (m3 := <[key_bytes MaxKey := []]> m2). assert (Hok3 : meta_ok m3) by (apply meta_ok_put; [done|done|by exists 0]).
    assert (Hm3 : forall k, key_ok k -> mark_of m3 k = if bool_decide (k = MaxKey) then 0 else mark_of m2 k) by (intros k Hk; by apply mark_clear).
    intros E2. destruct (clear_keys_spec LabelKey (registered (Len labels)) (put_meta (key_bytes MaxKey) [] r1) m3 r' e) as (m4 & B1 & B2 & B3 & B4 & B5 & B6); [cbn [put_meta metaKV]; by rewrite A1|done|exact (registered_ok _ Hl)|exact E2|].
    assert (Hz : forall k, key_ok k -> mark_of m2 k = 0 -> mark_of m4 k = 0). { intros k Hk Hz. destruct (B5 k Hk) as [->|]; [rewrite Hm3 by done; case_bool_decide; auto|done]. }
    exists m4. split_and!; try done.
    + intros k. rewrite B3. specialize (Hr1 k). by destruct k.
    + rewrite B4. cbn [put_meta retentionAnyMax]. by rewrite A4.
    + intros k Hk. destruct (B5 k Hk) as [->| ->]; [|by right]. rewrite Hm3 by done. case_bool_decide; auto.
    + intros He. split_and!.
      * destruct (B5 MaxKey I) as [->|]; [|done]. by rewrite Hm3, bool_decide_eq_true_2.
      * apply Hz; [done|]. destruct (A5 RelMaxKey I) as [->|]; [|done]. by rewrite Hm1, bool_decide_eq_true_2.
      * intros L HL. apply B6; [done|]. by apply elem_registered.
      * intros T HT. apply Hz; [unfold key_ok, token_ok; lia|]. apply A6; [done|]. by apply elem_registered.
Qed.

Lemma reset_covers labels relTypes r r' e N R : covers_purges r N R -> Len labels <= TokenCapacityMax -> Len relTypes <= TokenCapacityMax ->
  reapRetentionForReset set_fails labels relTypes r = (r', e) -> covers_purges r' [] [].
Proof.
  intros (m & (Em & Hok & _) & _) Hl Ht E. destruct (reset_spec labels relTypes r m r' e Em Hok Hl Ht E) as (m' & E1 & E2 & E3 & E4 & _).
  exists m'. split; [|split; intros ? ? []%not_elem_of_nil]. pose proof (E3 MaxKey) as H1. pose proof (E3 RelMaxKey) as H2. cbn [ram_mark] in *.
  pose proof (mark_nonneg m' MaxKey). pose proof (mark_nonneg m' RelMaxKey). split_and!; try done; try lia. intros T HT. pose proof (E3 (TypeKey T)) as H3. cbn [ram_mark] in H3. rewrite H3. apply mark_nonneg.
Qed.

(** After a reset only what it failed to clear is left. *)
Lemma reset_tried labels relTypes r r' e N R AN AR : covers_purges r N R -> at_most_tried r AN AR -> Len labels <= TokenCapacityMax -> Len relTypes <= TokenCapacityMax ->
  Forall (fun p : Z * Z => 1 <= p.1 <= Len labels) AN -> Forall (fun p : Z * Z => 1 <= p.1 <= Len relTypes) AR ->
  reapRetentionForReset set_fails labels relTypes r = (r', e) -> at_most_tried r' (match e with None => [] | Some _ => AN end) (match e with None => [] | Some _ => AR end).
Proof.
  intros (m & (Em & Hok & _) & _) (m0 & Em0 & Hm & _) Hl Ht HAN HAR E. rewrite Em in Em0. injection Em0 as <-. destruct (reset_spec labels relTypes r m r' e Em Hok Hl Ht E) as (m' & E1 & E2 & E3 & E4 & E5 & E6).
  exists m'. split; [done|]. split; [|intros k Hk; left; apply E3]. rewrite Forall_forall in HAN, HAR.
  destruct e as [e|]; [apply (marks_tried_change (mark_of m)); [done|]; intros k Hk; destruct (E5 k Hk); auto|].
  destruct (E6 eq_refl) as (H1 & H2 & H3 & H4). intros k Hk. left. destruct k as [| |L|T]; [done|done|..].
  - destruct (decide (1 <= L <= Len labels)); [by apply H3|]. destruct (E5 _ Hk) as [->|]; [|done]. destruct (Hm _ Hk) as [|Hin]; [done|]. specialize (HAN _ Hin). cbn [fst] in HAN. lia.
  - destruct (decide (1 <= T <= Len relTypes)); [by apply H4|]. destruct (E5 _ Hk) as [->|]; [|done]. destruct (Hm _ Hk) as [|Hin]; [done|]. specialize (HAR _ Hin). cbn [fst] in HAR. lia.
Qed.
End Reset.

(** ** Import *)

(** The watermarks of an import by token; a name the registry lacks has none. *)
Definition by_token (registry : LabelRegistry) (byName : list (bytes * Z)) : purges :=
  omap (fun p : bytes * Z => (fun tok => (tok, p.2)) <$> Lookup registry p.1) byName.

Section Imports.
Context (advance : Z -> Z -> retention -> retention * option retError) (registry : LabelRegistry) (inv : retention -> purges -> Prop).
Context (Hadvance : forall tok w r r' e ms, inv r ms -> (exists n, Lookup registry n = Some tok) -> 0 < w < 2 ^ 63 -> advance tok w r = (r', e) ->
  exists ms', inv r' ms' /\ ms ⊆ ms' /\ (e = None -> (tok, w) ∈ ms') /\ ms' ⊆ (tok, w) :: ms).

Lemma import_marks_inv byName : forall r r' e ms, inv r ms -> Forall (fun p : bytes * Z => p.2 < 2 ^ 63) byName -> import_marks advance registry byName r = (r', e) ->
  exists ms', inv r' ms' /\ ms ⊆ ms' /\ (e = None -> by_token registry byName ⊆ ms') /\ ms' ⊆ by_token registry byName ++ ms.
Proof.
  induction byName as [|[n w] byName IH]; intros r r' e ms Hi Hw; cbn [import_marks by_token omap list_omap].
  - intros [= <- <-]. exists ms. split_and!; set_solver.
  - apply Forall_cons in Hw as [Hw1 Hw]. cbn [fst snd] in *. destruct (Lookup registry n) as [tok|] eqn:El; cbn [fmap option_fmap option_map].
    + destruct (Z.leb_spec w 0); [intros [= <- <-]; exists ms; split_and!; set_solver|]. destruct (advance tok w r) as [r1 e1] eqn:Ea.
      destruct (Hadvance tok w r r1 e1 ms Hi (ex_intro _ n El) ltac:(lia) Ea) as (ms1 & H1 & H2 & H3 & H4). destruct e1 as [e1|]; [intros [= <- <-]; exists ms1; split_and!; set_solver|].
      intros E. destruct (IH r1 r' e ms1 H1 Hw E) as (ms2 & G1 & G2 & G3 & G4). specialize (H3 eq_refl). exists ms2. fold (by_token registry byName) in *. split_and!; [done|set_solver|intros He; specialize (G3 He); set_solver|set_solver].
    + intros [= <- <-]. exists ms. split_and!; set_solver.
Qed.
End Imports.

Lemma lookup_token registry n tok : registry_wf registry -> Lookup registry n = Some tok -> 1 <= tok <= Len registry /\ token_ok tok.
Proof.
  intros Hwf. unfold Lookup, Len, token_ok, TokenCapacityMax. rewrite (wf_ensure _ Hwf). intros [Hge Hlk]%(rw_tokens _ Hwf). pose proof (rw_len _ Hwf). apply lookup_lt_Some in Hlk. unfold bytes in *. lia.
Qed.

Lemma len_cap registry : registry_wf registry -> 0 <= Len registry <= TokenCapacityMax.
Proof.
  intros Hwf. unfold Len, TokenCapacityMax. rewrite (wf_ensure _ Hwf). pose proof (rw_len _ Hwf). pose proof (rw_head _ Hwf). destruct (toLabel registry); [done|]. cbn [length] in *. lia.
Qed.

(** ** The gates *)

Lemma covers_sub r N R N' R' : covers_purges r N R -> N' ⊆ N -> R' ⊆ R -> covers_purges r N' R'.
Proof. intros (m & Hr & HN & HR) H1 H2. exists m. split; [done|]. split; [intros L B Hin; by apply HN, H1|intros T B Hin; by apply HR, H2]. Qed.

Lemma node_scan_refused r N R L B pin scope : covers_purges r N R -> (L, B) ∈ N -> 0 < B -> pin <> 0 -> pin < B -> sc_nodes scope = true -> checkScanRetentionAt pin scope r = Some ErrRetentionExpired.
Proof.
  intros (m & (_ & _ & _ & _ & _ & Ha & _) & HN & _) Hin HB Hp Hlt Hs. destruct (HN L B Hin) as (_ & _ & Hx). unfold checkScanRetentionAt. rewrite Hs. cbn [andb].
  destruct (Z.eqb_spec pin 0); [done|]. destruct (Z.eqb_spec (retentionAnyMax r) 0); [lia|]. destruct (Z.geb_spec pin (retentionAnyMax r)); [lia|]. cbn [orb]. destruct (Z.ltb_spec pin (retentionMaxWatermark r)); [done|lia].
Qed.

Lemma rel_scan_refused r N R T B pin scope : covers_purges r N R -> (T, B) ∈ R -> 0 < B -> pin <> 0 -> pin < B -> sc_rels scope = true -> sc_relType scope = 0 \/ sc_relType scope = T -> checkScanRetentionAt pin scope r = Some ErrRetentionExpired.
Proof.
  intros (m & (_ & _ & _ & _ & _ & _ & Ha) & _ & HR) Hin HB Hp Hlt Hs Ht. destruct (HR T B Hin) as (_ & HT & Hx & Hy). unfold checkScanRetentionAt. rewrite Hs. cbn [negb].
  destruct (Z.eqb_spec pin 0); [done|]. destruct (Z.eqb_spec (retentionAnyMax r) 0); [lia|]. destruct (Z.geb_spec pin (retentionAnyMax r)); [lia|]. cbn [orb]. destruct (_ && _); [done|].
  destruct (Z.eqb_spec (sc_relType scope) 0) as [E|E]; cbn [negb]; [destruct (Z.ltb_spec pin (retentionRelMaxWatermark r)); [done|lia]|]. destruct Ht as [| ->]; [done|].
  destruct (Z.ltb_spec pin (relRetentionWatermark T r)); [done|lia].
Qed.

Lemma rel_point_refused r N R L B pin : covers_purges r N R -> (L, B) ∈ N -> 0 < B -> pin <> 0 -> pin < B -> checkRelPointRetention pin r = Some ErrRetentionExpired.
Proof.
  intros (m & (_ & _ & _ & _ & _ & Ha & _) & HN & _) Hin HB Hp Hlt. destruct (HN L B Hin) as (_ & _ & Hx). unfold checkRelPointRetention, relNodeFamilyFloor.
  destruct (Z.eqb_spec pin 0); [done|]. destruct (Z.eqb_spec (retentionAnyMax r) 0); [lia|]. destruct (Z.ltb_spec pin (Z.min (retentionAnyMax r) (retentionMaxWatermark r))); [done|lia].
Qed.

(** A scan is refused for a purge of its scope only. *)
Lemma scan_refused_tried r AN AR pin scope e : at_most_tried r AN AR -> token_ok (sc_relType scope) -> checkScanRetentionAt pin scope r = Some e ->
  e = ErrRetentionExpired /\ ((sc_nodes scope = true /\ exists L B, (L, B) ∈ AN /\ pin < B) \/ (sc_rels scope = true /\ exists T B, (T, B) ∈ AR /\ pin < B /\ (sc_relType scope = 0 \/ sc_relType scope = T)) \/ pin < 0).
Proof.
  intros (m & _ & _ & Hr) Hs. unfold checkScanRetentionAt. destruct (pin =? 0); [done|]. destruct (_ || _); [done|].
  destruct (sc_nodes scope && (pin <? retentionMaxWatermark r)) eqn:En.
  - intros [= <-]. apply andb_true_iff in En as [E1 E2%Z.ltb_lt]. split; [done|]. destruct (Hr MaxKey I) as [Hz|[L Hin]]; cbn [ram_mark] in *; [right; right; lia|]. left. split; [done|]. by exists L, (retentionMaxWatermark r).
  - destruct (negb (sc_rels scope)) eqn:Er; [done|]. apply negb_false_iff in Er. destruct (Z.eqb_spec (sc_relType scope) 0) as [E0|E0]; cbn [negb].
    + destruct (Z.ltb_spec pin (retentionRelMaxWatermark r)); [|done]. intros [= <-]. split; [done|]. right. destruct (Hr RelMaxKey I) as [Hz|[T Hin]]; cbn [ram_mark] in *; [right; lia|]. left. split; [done|]. exists T, (retentionRelMaxWatermark r). auto.
    + destruct (Z.ltb_spec pin (relRetentionWatermark (sc_relType scope) r)); [|done]. intros [= <-]. split; [done|]. right. destruct (Hr (TypeKey (sc_relType scope)) Hs) as [Hz|Hin]; cbn [ram_mark tried_mark] in *; [right; lia|]. left. split; [done|]. exists (sc_relType scope), (relRetentionWatermark (sc_relType scope) r). auto.
Qed.

Section NodePoints.
Context {P : Type} (get_fails : bytes -> bool) (getCurrentNode : Z -> option (Node P) + retError) (getNodeHistory : Z -> list (Node P) + retError).

Lemma max_mark_spec r m toks : metaKV r = Some m -> meta_ok m -> Forall token_ok toks -> forall acc w, max_mark get_fails toks r acc = inl w ->
  acc <= w /\ (forall L, L ∈ toks -> mark_of m (LabelKey L) <= w) /\ (w = acc \/ exists L, L ∈ toks /\ w = mark_of m (LabelKey L)).
Proof.
  intros Em Hok. induction toks as [|L toks IH]; intros Ht acc w; cbn [max_mark].
  - intros [= <-]. split; [lia|]. split; [by intros L ?%not_elem_of_nil|by left].
  - apply Forall_cons in Ht as [HL Ht]. unfold retentionWatermarkForLabel. rewrite Em. destruct (readWatermarkMeta get_fails m (retentionWatermarkKey L)) as [v|] eqn:Er; [|done].
    pose proof (read_mark get_fails m (LabelKey L) v Hok HL Er) as ->. intros E. destruct (IH Ht _ _ E) as (H1 & H2 & H3). split; [lia|]. split.
    + intros L' [->|Hin]%elem_of_cons; [lia|by apply H2].
    + destruct H3 as [-> | (L' & Hin & ->)]; [|right; exists L'; set_solver]. destruct (Z.max_dec acc (mark_of m (LabelKey L))) as [-> | ->]; [by left|right; exists L; set_solver].
Qed.

Lemma max_mark_total r toks : (forall key, get_fails key = false) -> forall m, metaKV r = Some m -> meta_ok m -> Forall token_ok toks -> forall acc, exists w, max_mark get_fails toks r acc = inl w.
Proof.
  intros Hg m Em Hok. induction toks as [|L toks IH]; intros Ht acc; cbn [max_mark]; [by exists acc|]. apply Forall_cons in Ht as [HL Ht].
  unfold retentionWatermarkForLabel, readWatermarkMeta, MetaGet. rewrite Em, Hg. destruct (Hok (LabelKey L) HL) as [w Hw]. cbn [key_bytes] in Hw. rewrite Hw. by apply IH.
Qed.

(** A point read of a node carrying a purged label fails, with a store error or
    the retention error. *)
Lemma node_point_refused r N R L B id toks pin : covers_purges r N R -> (L, B) ∈ N -> 0 < B -> pin <> 0 -> pin < B ->
  nodeLabelTokensForRetention getCurrentNode getNodeHistory id = inl toks -> Forall token_ok toks -> L ∈ toks ->
  exists e, checkNodePointRetention get_fails getCurrentNode getNodeHistory id pin r = Some e /\ ((forall key, get_fails key = false) -> e = ErrRetentionExpired).
Proof.
  intros (m & (Em & Hok & _ & _ & _ & Ha & _) & HN & _) Hin HB Hp Hlt Et Ht HL. destruct (HN L B Hin) as (_ & Hm & Hx). unfold checkNodePointRetention, nodeRetentionFloor.
  destruct (Z.eqb_spec pin 0); [done|]. destruct (Z.eqb_spec (retentionMaxWatermark r) 0); [lia|]. destruct (Z.geb_spec pin (retentionMaxWatermark r)); [lia|]. cbn [orb]. rewrite Et.
  destruct (max_mark get_fails toks r 0) as [w|e] eqn:Ew.
  - destruct (max_mark_spec r m toks Em Hok Ht 0 w Ew) as (H1 & H2 & _). specialize (H2 L HL). destruct (Z.eqb_spec (Z.min (retentionMaxWatermark r) w) 0); [lia|].
    destruct (Z.ltb_spec pin (Z.min (retentionMaxWatermark r) w)); [|lia]. by exists ErrRetentionExpired.
  - exists e. split; [done|]. intros Hg. destruct (max_mark_total r toks Hg m Em Hok Ht 0) as [w Hw]. congruence.
Qed.

(** With readable labels it is refused only for a purge of a label it carries. *)
Lemma node_point_tried r N R AN AR id toks pin e : covers_purges r N R -> at_most_tried r AN AR -> (forall key, get_fails key = false) ->
  nodeLabelTokensForRetention getCurrentNode getNodeHistory id = inl toks -> Forall token_ok toks -> checkNodePointRetention get_fails getCurrentNode getNodeHistory id pin r = Some e ->
  e = ErrRetentionExpired /\ exists L B, L ∈ toks /\ (L, B) ∈ AN /\ pin < B.
Proof.
  intros (m & (Em & Hok & _ & _ & _ & Ha & _) & _) (m0 & Em0 & Hm & Hr) Hg Et Ht. rewrite Em in Em0. injection Em0 as <-. unfold checkNodePointRetention, nodeRetentionFloor. destruct (pin =? 0); [done|].
  destruct (Z.eqb_spec (retentionMaxWatermark r) 0); [done|]. cbn [orb]. destruct (_ >=? _); [done|]. rewrite Et. destruct (max_mark_total r toks Hg m Em Hok Ht 0) as [w Ew]. rewrite Ew.
  destruct (negb _ && _) eqn:Ec; [|done]. intros [= <-]. split; [done|]. apply andb_true_iff in Ec as [Hne Hlt]. apply negb_true_iff, Z.eqb_neq in Hne. apply Z.ltb_lt in Hlt.
  destruct (max_mark_spec r m toks Em Hok Ht 0 w Ew) as (H1 & _ & [-> | (L & HL & ->)]); [lia|].
  rewrite Forall_forall in Ht. destruct (Hm (LabelKey L) (Ht L HL)) as [Hz|Hin]; [lia|]. exists L, (mark_of m (LabelKey L)). split; [done|]. split; [done|]. lia.
Qed.

End NodePoints.

Section RelPoints.
Context `{Layout} {P : Type} (getCurrentRelationship : Z -> option (Relationship P) + retError) (getRelHistory : Z -> list (Relationship P) + retError).

(** The relationship family: a purge candidate that is gone, or of the purged type. *)
Lemma rel_type_point_refused r N R T B id pin : covers_purges r N R -> (T, B) ∈ R -> 0 < B -> pin <> 0 -> pin < B -> MintInstantMillis id < B ->
  match relTypeTokenForRetention getCurrentRelationship getRelHistory id with inl None => True | inl (Some T') => T' = T | inr e => True end ->
  exists e, checkRelTypePointRetention getCurrentRelationship getRelHistory id pin r = Some e /\ ((exists o, relTypeTokenForRetention getCurrentRelationship getRelHistory id = inl o) -> e = ErrRetentionExpired).
Proof.
  intros (m & (_ & _ & _ & _ & _ & _ & Ha) & _ & HR) Hin HB Hp Hlt Hmint Ht. destruct (HR T B Hin) as (_ & HT & Hx & Hy). unfold checkRelTypePointRetention, relTypeRetentionFloor.
  destruct (Z.eqb_spec pin 0); [done|]. destruct (Z.geb_spec pin (retentionRelMaxWatermark r)); [lia|]. destruct (Z.geb_spec (MintInstantMillis id) (retentionRelMaxWatermark r)); [lia|]. cbn [orb].
  destruct (relTypeTokenForRetention _ _ id) as [[T'|]|e]; [subst T'|..].
  - destruct (Z.ltb_spec pin (Z.min (retentionRelMaxWatermark r) (relRetentionWatermark T r))); [by exists ErrRetentionExpired|lia].
  - destruct (Z.ltb_spec pin (retentionRelMaxWatermark r)); [by exists ErrRetentionExpired|lia].
  - exists e. split; [done|]. by intros [o Ho].
Qed.
End RelPoints.
