(* ===== verification/RetentionPurge.v ===== *)
(** * Retention purges (core/retention_purge.go, retention_purge_rel.go)

    The admin doors that purge aged-out nodes of a label or relationships of a
    type, and the replay of a purge on a replica: their guards, the watermark that
    goes first, the record for replicas, the chunked loop over the store and the
    release of the unique values that purged nodes owned (core/unique_forever.go).
    The step relation of a graph that purges, reopens, resets and imports follows,
    with what the read doors answer in its reachable states. *)

From stdpp Require Import gmap.
From S2P Require Import Prelude Bytes ValidTime ValueKeys Registry Props Rows Retention RetentionMarks.

(** PurgeMode is a uint8. *)
Definition PurgeByAge : Z := 0.

Definition PurgeByValidTo : Z := 1.

Record PurgePolicy := mkPolicy { Label : bytes; Mode : Z; Before : Instant }.

Record PurgeReport := mkReport { NodesPurged : Z; RelsPurged : Z; Watermark : Instant }.

(** A zero report. *)
Definition noReport : PurgeReport := mkReport 0 0 0.

Definition retentionPurgeChunk : Z := 256.

Definition validatePurgePolicy (p : PurgePolicy) : option retError :=
  if bool_decide (Label p = []) || (Before p <=? 0) then Some ErrInvalidPurgePolicy
  else if (Mode p =? PurgeByAge) || (Mode p =? PurgeByValidTo) then None else Some ErrInvalidPurgePolicy.

Record RelPurgePolicy := mkRelPolicy { rp_Type : bytes; rp_Mode : Z; rp_Before : Instant }.

Record RelPurgeReport := mkRelReport { rr_RelsPurged : Z; rr_Watermark : Instant }.

Definition validateRelPurgePolicy (p : RelPurgePolicy) : option retError :=
  if bool_decide (rp_Type p = []) || (rp_Before p <=? 0) || negb (rp_Mode p =? PurgeByAge) then Some ErrInvalidPurgePolicy else None.

(** What the store answers a chunk with. *)
Record RetentionPurgeResult := mkResult { res_NodesPurged : Z; res_RelsPurged : Z; More : bool; PurgedNodeIDs : list Z }.

(** ** Owners of unique values *)

(** [None]: no node owns a value. *)
Definition foreverOwnerSnapshot (uniqueOwners : gmap bytes Z) : option (gset Z) :=
  if bool_decide (uniqueOwners = ∅) then None else Some (map_img uniqueOwners).

(** [persists]: the owners can be encoded and written; [has_meta]: the store keeps
    metadata.  A write that fails leaves the owners in memory released. *)
Definition reapForeverOwnersForPurged (has_meta persists : bool) (purged : gset Z) (uniqueOwners : gmap bytes Z) : gmap bytes Z * option retError :=
  if bool_decide (purged = ∅) then (uniqueOwners, None)
  else
    let owners := filter (fun kv : bytes * Z => kv.2 ∉ purged) uniqueOwners in
    if bool_decide (owners = uniqueOwners) || negb has_meta || persists then (owners, None) else (owners, Some ErrMeta).

(** ** The loops over the store *)

Section Doors.
(** The store, and what the core asks of it: a chunk of each kind ([None]: the store
    lacks the capability) and the records for replicas. *)
Context {S : Type} (PurgeNodesByLabelBefore PurgeNodesByLabelValidToBefore PurgeRelsByTypeBefore : option (Z -> Instant -> Z -> S -> (RetentionPurgeResult + retError) * S))
  (LogRangePurge LogRelRangePurge : option (Z -> Instant -> Z -> S -> S * option retError)).

(** The core's state: the watermarks, the store, the owners and the epochs of the
    caches of pinned columns and of relationship cuts. *)
Record core := mkCore { c_ret : retention; c_store : S; uniqueOwners : gmap bytes Z; asOfEpoch : Z; relCutEpoch : Z }.

Definition with_ret (r : retention) (c : core) : core := mkCore r (c_store c) (uniqueOwners c) (asOfEpoch c) (relCutEpoch c).

Definition with_store (s : S) (c : core) : core := mkCore (c_ret c) s (uniqueOwners c) (asOfEpoch c) (relCutEpoch c).

Definition with_owners (o : gmap bytes Z) (c : core) : core := mkCore (c_ret c) (c_store c) o (asOfEpoch c) (relCutEpoch c).

Definition bump (c : core) : core := mkCore (c_ret c) (c_store c) (uniqueOwners c) (asOfEpoch c + 1) (relCutEpoch c).

Definition bumpRelCuts (c : core) : core := mkCore (c_ret c) (c_store c) (uniqueOwners c) (asOfEpoch c) (relCutEpoch c + 1).

(** What a call meets: the context's error and the answer of the wait for the
    transaction lock before its [n]-th chunk, and which metadata calls fail. *)
Record call := mkCall { ctx_done : nat -> bool; lock_abandoned : nat -> bool; get_fails : bytes -> bool; set_fails : bytes -> bool; owners_persist : bool }.

(** The doors have refused a missing capability before. *)
Definition purgeChunk (token : Z) (before : Instant) (mode : Z) (s : S) : (RetentionPurgeResult + retError) * S :=
  match (if mode =? PurgeByValidTo then PurgeNodesByLabelValidToBefore else PurgeNodesByLabelBefore) with
  | Some purge => purge token before retentionPurgeChunk s
  | None => (inr ErrCapabilityNotSupported, s)
  end.

(** The loop from its [n]-th chunk on: the counts, the purged owners and the error. *)
Fixpoint purge_chunks (fuel : nat) (k : call) (token : Z) (before : Instant) (mode : Z) (excludeTx : bool) (owners : option (gset Z)) (n : nat)
    (report : PurgeReport) (reap : gset Z) (s : S) : option (PurgeReport * gset Z * option retError * S) :=
  match fuel with
  | O => None
  | Datatypes.S fuel' =>
      if ctx_done k n then Some (report, reap, Some ErrContextDone, s)
      else if excludeTx && lock_abandoned k n then Some (report, reap, Some ErrContextDone, s)
      else
        match purgeChunk token before mode s with
        | (inr e, s) => Some (report, reap, Some e, s)
        | (inl res, s) =>
            let report := mkReport (NodesPurged report + res_NodesPurged res) (RelsPurged report + res_RelsPurged res) (Watermark report) in
            let reap := match owners with Some o => reap ∪ filter (.∈ o) (list_to_set (PurgedNodeIDs res) : gset Z) | None => reap end in
            if negb (More res) then Some (report, reap, None, s)
            else purge_chunks fuel' k token before mode excludeTx owners (Datatypes.S n) report reap s
        end
  end.

(** The deferred calls run on every exit: the owners' values are released, then
    the cached columns are invalidated. *)
Definition purgeRangeAllChunks (fuel : nat) (k : call) (token : Z) (before : Instant) (mode : Z) (excludeTx : bool) (c : core) : option (PurgeReport * option retError * core) :=
  match purge_chunks fuel k token before mode excludeTx (foreverOwnerSnapshot (uniqueOwners c)) 0 noReport ∅ (c_store c) with
  | None => None
  | Some (report, reap, err, s) =>
      let '(owners, rerr) := reapForeverOwnersForPurged (match metaKV (c_ret c) with Some _ => true | None => false end) (owners_persist k) reap (uniqueOwners c) in
      Some (report, match err with None => rerr | Some e => Some e end, bump (with_owners owners (with_store s c)))
  end.

Fixpoint purge_rel_chunks (fuel : nat) (k : call) (purge : Z -> Instant -> Z -> S -> (RetentionPurgeResult + retError) * S) (token : Z) (before : Instant) (excludeTx : bool) (n : nat) (purged : Z) (s : S) : option (Z * option retError * S) :=
  match fuel with
  | O => None
  | Datatypes.S fuel' =>
      if ctx_done k n then Some (purged, Some ErrContextDone, s)
      else if excludeTx && lock_abandoned k n then Some (purged, Some ErrContextDone, s)
      else
        match purge token before retentionPurgeChunk s with
        | (inr e, s) => Some (purged, Some e, s)
        | (inl res, s) =>
            let purged := purged + res_RelsPurged res in
            if negb (More res) then Some (purged, None, s) else purge_rel_chunks fuel' k purge token before excludeTx (Datatypes.S n) purged s
        end
  end.

Definition purgeRelRangeAllChunks (fuel : nat) (k : call) (token : Z) (before : Instant) (excludeTx : bool) (c : core) : option (Z * option retError * core) :=
  match PurgeRelsByTypeBefore with
  | None => Some (0, Some ErrCapabilityNotSupported, bumpRelCuts c)
  | Some purge => (fun '(n, err, s) => (n, err, bumpRelCuts (with_store s c))) <$> purge_rel_chunks fuel k purge token before excludeTx 0 0 (c_store c)
  end.

(** ** The doors *)

(** The guards before the policy: open, a context, not done, writable, enabled. *)
Record gates := mkGates { closed : bool; nil_ctx : bool; ctx_ended : bool; writable : bool; allowRetentionPurge : bool; changeLogActive : bool }.

Definition gate_error (g : gates) : option retError :=
  if closed g then Some ErrGraphClosed
  else if nil_ctx g then Some ErrNilContext
  else if ctx_ended g then Some ErrContextDone
  else if negb (writable g) then Some ErrNotWritable
  else if negb (allowRetentionPurge g) then Some ErrRetentionPurgeDisabled
  else None.

(** The record for replicas, when the change log is on. *)
Definition log_purge (g : gates) (log : option (Z -> Instant -> Z -> S -> S * option retError)) (token : Z) (before : Instant) (mode : Z) (c : core) : core * option retError :=
  if changeLogActive g then match log with Some f => let '(s, e) := f token before mode (c_store c) in (with_store s c, e) | None => (c, None) end else (c, None).

Definition is_none {A} (o : option A) : bool := match o with None => true | Some _ => false end.

Definition PurgeExpiredNodes (fuel : nat) (g : gates) (k : call) (labels : LabelRegistry) (policy : PurgePolicy) (c : core) : option (PurgeReport * option retError * core) :=
  match gate_error g with
  | Some e => Some (noReport, Some e, c)
  | None =>
      match validatePurgePolicy policy with
      | Some e => Some (noReport, Some e, c)
      | None =>
          if is_none PurgeNodesByLabelBefore then Some (noReport, Some ErrCapabilityNotSupported, c)
          else if (Mode policy =? PurgeByValidTo) && is_none PurgeNodesByLabelValidToBefore then Some (noReport, Some ErrCapabilityNotSupported, c)
          else if changeLogActive g && is_none LogRangePurge then Some (noReport, Some ErrRetentionPurgeChangeLogEnabled, c)
          else
            match Lookup labels (Label policy) with
            | None => Some (mkReport 0 0 (retentionMaxWatermark (c_ret c)), None, c)
            | Some token =>
                match advanceRetentionWatermark (get_fails k) (set_fails k) token (Before policy) (c_ret c) with
                | (r, Some e) => Some (noReport, Some e, with_ret r c)
                | (r, None) =>
                    match log_purge g LogRangePurge token (Before policy) (Mode policy) (with_ret r c) with
                    | (c, Some e) => Some (noReport, Some e, c)
                    | (c, None) =>
                        match purgeRangeAllChunks fuel k token (Before policy) (Mode policy) true c with
                        | None => None
                        | Some (report, err, c) => Some (mkReport (NodesPurged report) (RelsPurged report) (retentionMaxWatermark (c_ret c)), err, c)
                        end
                    end
                end
            end
      end
  end.

Definition PurgeExpiredRels (fuel : nat) (g : gates) (k : call) (relTypes : LabelRegistry) (policy : RelPurgePolicy) (c : core) : option (RelPurgeReport * option retError * core) :=
  match gate_error g with
  | Some e => Some (mkRelReport 0 0, Some e, c)
  | None =>
      match validateRelPurgePolicy policy with
      | Some e => Some (mkRelReport 0 0, Some e, c)
      | None =>
          if is_none PurgeRelsByTypeBefore then Some (mkRelReport 0 0, Some ErrCapabilityNotSupported, c)
          else if changeLogActive g && is_none LogRelRangePurge then Some (mkRelReport 0 0, Some ErrRetentionPurgeChangeLogEnabled, c)
          else
            match Lookup relTypes (rp_Type policy) with
            | None => Some (mkRelReport 0 0, None, c)
            | Some token =>
                match advanceRelRetentionWatermark (set_fails k) token (rp_Before policy) (c_ret c) with
                | (r, Some e) => Some (mkRelReport 0 0, Some e, with_ret r c)
                | (r, None) =>
                    match log_purge g LogRelRangePurge token (rp_Before policy) (rp_Mode policy) (with_ret r c) with
                    | (c, Some e) => Some (mkRelReport 0 0, Some e, c)
                    | (c, None) =>
                        match purgeRelRangeAllChunks fuel k token (rp_Before policy) true c with
                        | None => None
                        | Some (n, err, c) => Some (mkRelReport n (relRetentionWatermark token (c_ret c)), err, c)
                        end
                    end
                end
            end
      end
  end.

(** The replay of the records: label or type, boundary and mode.  An apply is not
    cancelled and does not wait for transactions. *)
Definition applyRangePurgeLocked (fuel : nat) (k : call) (token : Z) (before : Instant) (mode : Z) (c : core) : option (option retError * core) :=
  if is_none PurgeNodesByLabelBefore || ((mode =? PurgeByValidTo) && is_none PurgeNodesByLabelValidToBefore) then Some (Some ErrApplyUnsupported, c)
  else match advanceRetentionWatermark (get_fails k) (set_fails k) token before (c_ret c) with
       | (r, Some e) => Some (Some e, with_ret r c)
       | (r, None) => (fun '(_, err, c) => (err, c)) <$> purgeRangeAllChunks fuel (mkCall (fun _ => false) (lock_abandoned k) (get_fails k) (set_fails k) (owners_persist k)) token before mode false (with_ret r c)
       end.

Definition applyRelRangePurgeLocked (fuel : nat) (k : call) (token : Z) (before : Instant) (mode : Z) (c : core) : option (option retError * core) :=
  if is_none PurgeRelsByTypeBefore then Some (Some ErrApplyUnsupported, c)
  else if negb (mode =? PurgeByAge) then Some (Some ErrInvalidPurgePolicy, c)
  else match advanceRelRetentionWatermark (set_fails k) token before (c_ret c) with
       | (r, Some e) => Some (Some e, with_ret r c)
       | (r, None) => (fun '(_, err, c) => (err, c)) <$> purgeRelRangeAllChunks fuel (mkCall (fun _ => false) (lock_abandoned k) (get_fails k) (set_fails k) (owners_persist k)) token before false (with_ret r c)
       end.

(** ** What a door does to the watermarks *)

Lemma range_ret fuel k token before mode excludeTx c report err c' : purgeRangeAllChunks fuel k token before mode excludeTx c = Some (report, err, c') -> c_ret c' = c_ret c.
Proof.
  unfold purgeRangeAllChunks. destruct (purge_chunks _ _ _ _ _ _ _ _ _ _ _) as [[[[rep reap] e] s]|]; [|done]. destruct (reapForeverOwnersForPurged _ _ _ _). by intros [= _ _ <-].
Qed.

Lemma rel_range_ret fuel k token before excludeTx c n err c' : purgeRelRangeAllChunks fuel k token before excludeTx c = Some (n, err, c') -> c_ret c' = c_ret c.
Proof.
  unfold purgeRelRangeAllChunks. destruct PurgeRelsByTypeBefore as [purge|]; [|by intros [= _ _ <-]]. destruct (purge_rel_chunks _ _ _ _ _ _ _ _ _) as [[[n0 e] s]|]; [|done]. by intros [= _ _ <-].
Qed.

Lemma log_ret g log token before mode c c' e : log_purge g log token before mode c = (c', e) -> c_ret c' = c_ret c.
Proof. unfold log_purge. destruct (changeLogActive g); [|by intros [= <- _]]. destruct log as [f|]; [|by intros [= <- _]]. destruct (f token before mode (c_store c)). by intros [= <- _]. Qed.

(** A door refuses and does nothing, or raises the watermark of its label before
    the store is touched: a store that changed was purged under it. *)
Lemma purge_nodes_ret fuel g k labels policy c report err c' : PurgeExpiredNodes fuel g k labels policy c = Some (report, err, c') ->
  (c_ret c' = c_ret c /\ c_store c' = c_store c /\ (err = None -> Lookup labels (Label policy) = None)) \/
  (exists L e, Lookup labels (Label policy) = Some L /\ 0 < Before policy /\ advanceRetentionWatermark (get_fails k) (set_fails k) L (Before policy) (c_ret c) = (c_ret c', e) /\
    (e <> None -> c_store c' = c_store c /\ err = e)).
Proof.
  unfold PurgeExpiredNodes. destruct (gate_error g); [intros [= <- <- <-]; by left|]. destruct (validatePurgePolicy policy) eqn:Ev; [intros [= <- <- <-]; by left|].
  destruct (is_none _); [intros [= <- <- <-]; by left|]. destruct (_ && _); [intros [= <- <- <-]; by left|]. destruct (_ && _); [intros [= <- <- <-]; by left|].
  assert (HB : 0 < Before policy). { unfold validatePurgePolicy in Ev. destruct (Z.leb_spec (Before policy) 0); [by rewrite orb_true_r in Ev|done]. }
  destruct (Lookup labels (Label policy)) as [L|]; [|intros [= <- <- <-]; by left]. intros E. right. exists L. destruct (advanceRetentionWatermark _ _ L _ (c_ret c)) as [r [e|]] eqn:Ea.
  - injection E as <- <- <-. by exists (Some e).
  - exists None. do 2 (split; [done|]). split; [|done]. destruct (log_purge _ _ _ _ _ _) as [c1 e1] eqn:El. apply log_ret in El. cbn [with_ret c_ret] in El. destruct e1; [injection E as <- <- <-; by rewrite El|].
    destruct (purgeRangeAllChunks _ _ _ _ _ _ c1) as [[[rep e2] c2]|] eqn:Er; [|done]. apply range_ret in Er. injection E as <- <- <-. by rewrite Er, El.
Qed.

Lemma purge_rels_ret fuel g k relTypes policy c report err c' : PurgeExpiredRels fuel g k relTypes policy c = Some (report, err, c') ->
  (c_ret c' = c_ret c /\ c_store c' = c_store c /\ (err = None -> Lookup relTypes (rp_Type policy) = None)) \/
  (exists T e, Lookup relTypes (rp_Type policy) = Some T /\ 0 < rp_Before policy /\ advanceRelRetentionWatermark (set_fails k) T (rp_Before policy) (c_ret c) = (c_ret c', e) /\
    (e <> None -> c_store c' = c_store c /\ err = e)).
Proof.
  unfold PurgeExpiredRels. destruct (gate_error g); [intros [= <- <- <-]; by left|]. destruct (validateRelPurgePolicy policy) eqn:Ev; [intros [= <- <- <-]; by left|].
  destruct (is_none _); [intros [= <- <- <-]; by left|]. destruct (_ && _); [intros [= <- <- <-]; by left|].
  assert (HB : 0 < rp_Before policy). { unfold validateRelPurgePolicy in Ev. destruct (Z.leb_spec (rp_Before policy) 0); [by rewrite orb_true_r in Ev|done]. }
  destruct (Lookup relTypes (rp_Type policy)) as [T|]; [|intros [= <- <- <-]; by left]. intros E. right. exists T. destruct (advanceRelRetentionWatermark _ T _ (c_ret c)) as [r [e|]] eqn:Ea.
  - injection E as <- <- <-. by exists (Some e).
  - exists None. do 2 (split; [done|]). split; [|done]. destruct (log_purge _ _ _ _ _ _) as [c1 e1] eqn:El. apply log_ret in El. cbn [with_ret c_ret] in El. destruct e1; [injection E as <- <- <-; by rewrite El|].
    destruct (purgeRelRangeAllChunks _ _ _ _ _ c1) as [[[rep e2] c2]|] eqn:Er; [|done]. apply rel_range_ret in Er. injection E as <- <- <-. by rewrite Er, El.
Qed.

Lemma apply_nodes_ret fuel k L before mode c err c' : applyRangePurgeLocked fuel k L before mode c = Some (err, c') ->
  (c' = c /\ err <> None) \/ exists e, advanceRetentionWatermark (get_fails k) (set_fails k) L before (c_ret c) = (c_ret c', e) /\ (e <> None -> c_store c' = c_store c /\ err = e).
Proof.
  unfold applyRangePurgeLocked. destruct (_ || _); [intros [= <- <-]; by left|]. destruct (advanceRetentionWatermark _ _ L _ (c_ret c)) as [r [e|]] eqn:Ea; intros E; right.
  - injection E as <- <-. by exists (Some e).
  - exists None. split; [|done]. destruct (purgeRangeAllChunks _ _ _ _ _ _ _) as [[[rep e2] c2]|] eqn:Er; [|done]. apply range_ret in Er. injection E as <- <-. by rewrite Er.
Qed.

Lemma apply_rels_ret fuel k T before mode c err c' : applyRelRangePurgeLocked fuel k T before mode c = Some (err, c') ->
  (c' = c /\ err <> None) \/ exists e, advanceRelRetentionWatermark (set_fails k) T before (c_ret c) = (c_ret c', e) /\ (e <> None -> c_store c' = c_store c /\ err = e).
Proof.
  unfold applyRelRangePurgeLocked. destruct (is_none _); [intros [= <- <-]; by left|]. destruct (negb _); [intros [= <- <-]; by left|]. destruct (advanceRelRetentionWatermark _ T _ (c_ret c)) as [r [e|]] eqn:Ea; intros E; right.
  - injection E as <- <-. by exists (Some e).
  - exists None. split; [|done]. destruct (purgeRelRangeAllChunks _ _ _ _ _ _) as [[[rep e2] c2]|] eqn:Er; [|done]. apply rel_range_ret in Er. injection E as <- <-. by rewrite Er.
Qed.

(** ** A graph that purges *)

(** The core and its registries, with the purges that removed something or ended
    without error, and those tried, since the last reset. *)
Record graph := mkGraph { g_core : core; g_labels : LabelRegistry; g_types : LabelRegistry; purged : purges; rel_purged : purges; tried : purges; rel_tried : purges }.

Definition with_core (c : core) (g : graph) : graph := mkGraph c (g_labels g) (g_types g) (purged g) (rel_purged g) (tried g) (rel_tried g).

(** [tok], if the name is registered, enters a log. *)
Definition note (tok : option Z) (before : Z) (log : purges) : purges := match tok with Some t => (t, before) :: log | None => log end.

Definition note_if (removed : bool) (tok : option Z) (before : Z) (log : purges) : purges := if removed then note tok before log else log.

(** [removed]: the store changed, or the call ended without error. *)
Definition did (removed : bool) (c c' : core) (err : option retError) : Prop := removed = true <-> c_store c' <> c_store c \/ err = None.

Inductive graph_step (g : graph) : graph -> Prop :=
  | gs_purge fuel w k policy report err c removed :
      Before policy < 2 ^ 63 -> PurgeExpiredNodes fuel w k (g_labels g) policy (g_core g) = Some (report, err, c) -> did removed (g_core g) c err ->
      graph_step g (mkGraph c (g_labels g) (g_types g) (note_if removed (Lookup (g_labels g) (Label policy)) (Before policy) (purged g)) (rel_purged g) (note (Lookup (g_labels g) (Label policy)) (Before policy) (tried g)) (rel_tried g))
  | gs_rel_purge fuel w k policy report err c removed :
      rp_Before policy < 2 ^ 63 -> PurgeExpiredRels fuel w k (g_types g) policy (g_core g) = Some (report, err, c) -> did removed (g_core g) c err ->
      graph_step g (mkGraph c (g_labels g) (g_types g) (purged g) (note_if removed (Lookup (g_types g) (rp_Type policy)) (rp_Before policy) (rel_purged g)) (tried g) (note (Lookup (g_types g) (rp_Type policy)) (rp_Before policy) (rel_tried g)))
  | gs_apply fuel k name L before mode err c removed :
      Lookup (g_labels g) name = Some L -> 0 < before < 2 ^ 63 -> applyRangePurgeLocked fuel k L before mode (g_core g) = Some (err, c) -> did removed (g_core g) c err ->
      graph_step g (mkGraph c (g_labels g) (g_types g) (note_if removed (Some L) before (purged g)) (rel_purged g) ((L, before) :: tried g) (rel_tried g))
  | gs_rel_apply fuel k name T before mode err c removed :
      Lookup (g_types g) name = Some T -> 0 < before < 2 ^ 63 -> applyRelRangePurgeLocked fuel k T before mode (g_core g) = Some (err, c) -> did removed (g_core g) c err ->
      graph_step g (mkGraph c (g_labels g) (g_types g) (purged g) (note_if removed (Some T) before (rel_purged g)) (tried g) ((T, before) :: rel_tried g))
  | gs_reopen get_fails r : reopened get_fails (g_types g) (c_ret (g_core g)) = inl r -> graph_step g (with_core (with_ret r (g_core g)) g)
  | gs_reset set_fails r e s : reapRetentionForReset set_fails (g_labels g) (g_types g) (c_ret (g_core g)) = (r, e) ->
      graph_step g (mkGraph (with_store s (with_ret r (g_core g))) (g_labels g) (g_types g) [] [] (match e with None => [] | Some _ => tried g end) (match e with None => [] | Some _ => rel_tried g end))
  | gs_import get_fails set_fails byName r e : Forall (fun p : bytes * Z => p.2 < 2 ^ 63) byName -> importNodeRetentionLocked get_fails set_fails (g_labels g) byName (c_ret (g_core g)) = (r, e) ->
      graph_step g (mkGraph (with_ret r (g_core g)) (g_labels g) (g_types g) (match e with None => by_token (g_labels g) byName ++ purged g | Some _ => purged g end) (rel_purged g) (by_token (g_labels g) byName ++ tried g) (rel_tried g))
  | gs_rel_import set_fails byName r e : Forall (fun p : bytes * Z => p.2 < 2 ^ 63) byName -> importRelRetentionLocked set_fails (g_types g) byName (c_ret (g_core g)) = (r, e) ->
      graph_step g (mkGraph (with_ret r (g_core g)) (g_labels g) (g_types g) (purged g) (match e with None => by_token (g_types g) byName ++ rel_purged g | Some _ => rel_purged g end) (tried g) (by_token (g_types g) byName ++ rel_tried g))
  | gs_label name : graph_step g (mkGraph (g_core g) (snd (GetOrCreate (g_labels g) name)) (g_types g) (purged g) (rel_purged g) (tried g) (rel_tried g))
  | gs_type name : graph_step g (mkGraph (g_core g) (g_labels g) (snd (RelType_GetOrCreate (g_types g) name)) (purged g) (rel_purged g) (tried g) (rel_tried g))
  | gs_write s : graph_step g (with_core (with_store s (g_core g)) g).

Definition start (s : S) : graph := mkGraph (mkCore (mkRet (Some ∅) 0 0 None 0) s ∅ 0 0) NewLabelRegistry NewLabelRegistry [] [] [] [].

(** ** Its invariant *)

Definition log_ok (n : Z) (log : purges) : Prop := Forall (fun p : Z * Z => 1 <= p.1 <= n) log.

Record graph_ok (g : graph) : Prop := {
  go_labels : registry_wf (g_labels g);
  go_types : registry_wf (g_types g);
  go_covers : covers_purges (c_ret (g_core g)) (purged g) (rel_purged g);
  go_tried : at_most_tried (c_ret (g_core g)) (tried g) (rel_tried g);
  go_positive : Forall (fun p : Z * Z => 0 < p.2) (purged g ++ rel_purged g);
  go_rel_tokens : log_ok (Len (g_types g)) (rel_purged g);
  go_tried_tokens : log_ok (Len (g_labels g)) (tried g);
  go_rel_tried_tokens : log_ok (Len (g_types g)) (rel_tried g);
  go_tokens : log_ok (Len (g_labels g)) (purged g);
}.

Lemma log_ok_mono n n' log : n <= n' -> log_ok n log -> log_ok n' log.
Proof. intros Hn Hlog. eapply Forall_impl; [exact Hlog|]. intros p Hp. cbn beta in *. lia. Qed.

Lemma create_len registry n : registry_wf registry -> Len registry <= Len (snd (GetOrCreate registry n)).
Proof.
  intros Hwf. pose proof (GetOrCreate_wf registry n Hwf) as Hwf'. unfold Len. rewrite (wf_ensure _ Hwf), (wf_ensure _ Hwf'). unfold GetOrCreate, create_locked. rewrite (wf_ensure _ Hwf).
  destruct (isBlankName n); [done|]. destruct (tokens registry !! n); [done|]. destruct (_ >? _); [done|]. cbn [snd toLabel]. rewrite length_app. cbn [length]. lia.
Qed.

Lemma start_ok s : graph_ok (start s).
Proof.
  split; cbn [start g_labels g_types g_core c_ret purged rel_purged tried rel_tried app]; try by constructor; try apply new_registry_wf.
  - assert (Hz : forall k, mark_of ∅ k = 0) by (intros k; unfold mark_of; by rewrite lookup_empty).
    exists ∅. split; [|split; intros ? ? []%not_elem_of_nil]. unfold ram_behind. cbn [metaKV retentionMaxWatermark retentionRelMaxWatermark retentionAnyMax]. rewrite !Hz. split_and!; try done. all: first [by intros T HT; rewrite Hz|intros k Hk; exists 0; by rewrite lookup_empty].
  - exists ∅. split; [done|]. split; intros k Hk; left; [unfold mark_of; by rewrite lookup_empty|by destruct k].
Qed.

(** A watermark raised in a graph, whatever the rest of the call did. *)
Lemma raised_ok g gf sf L name B e c (removed : bool) : graph_ok g -> Lookup (g_labels g) name = Some L -> 0 < B < 2 ^ 63 -> advanceRetentionWatermark gf sf L B (c_ret (g_core g)) = (c_ret c, e) ->
  (removed = true -> e = None) ->
  graph_ok (mkGraph c (g_labels g) (g_types g) (if removed then (L, B) :: purged g else purged g) (rel_purged g) ((L, B) :: tried g) (rel_tried g)).
Proof.
  intros [Hl Ht Hc Ha Hp Hr Htl Htr Hpt] HL HB E Hrem. destruct (lookup_token _ _ _ Hl HL) as [Hreg HLok]. split; cbn [g_labels g_types g_core purged rel_purged tried rel_tried]; try done.
  - pose proof (advance_covers gf sf L B _ _ e _ _ Hc HLok HB E) as Hc'. destruct removed; [rewrite (Hrem eq_refl) in Hc'; done|]. eapply covers_sub; [exact Hc'|destruct e; set_solver|done].
  - by eapply advance_tried.
  - destruct removed; [|done]. constructor; [cbn; lia|done].
  - by constructor.
  - destruct removed; [|done]. by constructor.
Qed.

Lemma rel_raised_ok g sf T name B e c (removed : bool) : graph_ok g -> Lookup (g_types g) name = Some T -> 0 < B < 2 ^ 63 -> advanceRelRetentionWatermark sf T B (c_ret (g_core g)) = (c_ret c, e) ->
  (removed = true -> e = None) ->
  graph_ok (mkGraph c (g_labels g) (g_types g) (purged g) (if removed then (T, B) :: rel_purged g else rel_purged g) (tried g) ((T, B) :: rel_tried g)).
Proof.
  intros [Hl Ht Hc Ha Hp Hr Htl Htr Hpt] HT HB E Hrem. destruct (lookup_token _ _ _ Ht HT) as [Hreg HTok]. split; cbn [g_labels g_types g_core purged rel_purged tried rel_tried]; try done.
  - pose proof (advance_rel_covers sf T B _ _ e _ _ Hc HTok ltac:(lia) HB E) as Hc'. destruct removed; [rewrite (Hrem eq_refl) in Hc'; done|]. eapply covers_sub; [exact Hc'|done|destruct e; set_solver].
  - eapply advance_rel_tried; try done; lia.
  - destruct removed; [|done]. apply Forall_app in Hp as [H1 H2]. apply Forall_app. split; [done|]. constructor; [cbn; lia|done].
  - destruct removed; [|done]. by constructor.
  - by constructor.
Qed.

(** A call that raised nothing. *)
Lemma same_ret_ok g c : graph_ok g -> c_ret c = c_ret (g_core g) -> graph_ok (with_core c g).
Proof. intros [Hl Ht Hc Ha Hp Hr Htl Htr Hpt] E. split; cbn [with_core g_labels g_types g_core purged rel_purged tried rel_tried]; rewrite ?E; done. Qed.

Lemma more_tried_ok g N' R' : graph_ok g -> log_ok (Len (g_labels g)) N' -> log_ok (Len (g_types g)) R' -> tried g ⊆ N' -> rel_tried g ⊆ R' -> graph_ok (mkGraph (g_core g) (g_labels g) (g_types g) (purged g) (rel_purged g) N' R').
Proof.
  intros [Hl Ht Hc (m & Em & Hm & Hr0) Hp Hr Htl Htr Hpt] H1 H2 HN HR. split; cbn [g_labels g_types g_core purged rel_purged tried rel_tried]; try done. exists m. split; [done|]. split; by eapply marks_tried_mono.
Qed.

Lemma did_none removed c c' err e : did removed c c' err -> (e <> None -> c_store c' = c_store c /\ err = e) -> removed = true -> e = None.
Proof. intros Hd He Hr. destruct e as [e|]; [|done]. destruct (He ltac:(done)) as [H1 H2]. apply Hd in Hr as [?|?]; congruence. Qed.

Lemma did_nothing removed c c' err : did removed c c' err -> c_store c' = c_store c -> err <> None -> removed = false.
Proof. intros Hd H1 H2. destruct removed; [|done]. destruct (proj1 Hd eq_refl); congruence. Qed.

Lemma note_same g c removed L B err : graph_ok g -> c_ret c = c_ret (g_core g) -> did removed (g_core g) c err -> c_store c = c_store (g_core g) -> (err = None -> L = None) ->
  (exists name, L = Lookup (g_labels g) name) -> graph_ok (mkGraph c (g_labels g) (g_types g) (note_if removed L B (purged g)) (rel_purged g) (note L B (tried g)) (rel_tried g)).
Proof.
  intros Hg E Hd Hs Hn [name HL]. assert (Hpur : note_if removed L B (purged g) = purged g).
  { unfold note_if. destruct err as [e|]; [by rewrite (did_nothing _ _ _ _ Hd Hs)|]. rewrite (Hn eq_refl). by destruct removed. }
  rewrite Hpur. pose proof (same_ret_ok g c Hg E) as Hg'. apply (more_tried_ok (with_core c g)); try done; cbn [with_core g_labels g_types tried rel_tried]; try apply Hg; [|destruct L; set_solver].
  destruct L as [L|]; [|apply Hg]. constructor; [|apply Hg]. symmetry in HL. apply (lookup_token _ _ _ (go_labels g Hg) HL).
Qed.

Lemma rel_note_same g c removed T B err : graph_ok g -> c_ret c = c_ret (g_core g) -> did removed (g_core g) c err -> c_store c = c_store (g_core g) -> (err = None -> T = None) ->
  (exists name, T = Lookup (g_types g) name) -> graph_ok (mkGraph c (g_labels g) (g_types g) (purged g) (note_if removed T B (rel_purged g)) (tried g) (note T B (rel_tried g))).
Proof.
  intros Hg E Hd Hs Hn [name HL]. assert (Hpur : note_if removed T B (rel_purged g) = rel_purged g).
  { unfold note_if. destruct err as [e|]; [by rewrite (did_nothing _ _ _ _ Hd Hs)|]. rewrite (Hn eq_refl). by destruct removed. }
  rewrite Hpur. pose proof (same_ret_ok g c Hg E) as Hg'. apply (more_tried_ok (with_core c g)); try done; cbn [with_core g_labels g_types tried rel_tried]; try apply Hg; [|destruct T; set_solver].
  destruct T as [T|]; [|apply Hg]. constructor; [|apply Hg]. symmetry in HL. apply (lookup_token _ _ _ (go_types g Hg) HL).
Qed.

(** The purges of an import are its names' tokens. *)
Lemma by_token_ok registry byName : registry_wf registry -> log_ok (Len registry) (by_token registry byName).
Proof.
  intros Hwf. unfold log_ok, by_token. apply Forall_forall. intros [t w] ([n w'] & _ & E)%list_elem_of_omap. cbn [fst snd] in *. destruct (Lookup registry n) as [t'|] eqn:El; [|done]. injection E as -> ->. by apply (lookup_token _ _ _ Hwf El).
Qed.

Lemma tried_sub r AN AR AN' AR' : at_most_tried r AN AR -> AN ⊆ AN' -> AR ⊆ AR' -> at_most_tried r AN' AR'.
Proof. intros (m & Em & Hm & Hr) HN HR. exists m. split; [done|]. split; by eapply marks_tried_mono. Qed.

Lemma import_covers g gf sf : registry_wf (g_labels g) -> forall tok w r r' e ms, covers_purges r ms (rel_purged g) /\ Forall (fun p : Z * Z => 0 < p.2) ms -> (exists n, Lookup (g_labels g) n = Some tok) -> 0 < w < 2 ^ 63 -> advanceRetentionWatermark gf sf tok w r = (r', e) ->
  exists ms', (covers_purges r' ms' (rel_purged g) /\ Forall (fun p : Z * Z => 0 < p.2) ms') /\ ms ⊆ ms' /\ (e = None -> (tok, w) ∈ ms') /\ ms' ⊆ (tok, w) :: ms.
Proof.
  intros Hl tok w r0 r1 e1 ms [Hi Hpos] [n Hn] Hww E1. destruct (lookup_token _ _ _ Hl Hn) as [_ Hok]. pose proof (advance_covers gf sf tok w _ _ e1 _ _ Hi Hok Hww E1) as H.
  destruct e1; [exists ms|exists ((tok, w) :: ms)]; (split; [split; [done|]|split_and!; set_solver]); [done|]. constructor; [cbn; lia|done].
Qed.

Lemma import_tried g gf sf : registry_wf (g_labels g) -> forall tok w r r' e ms, at_most_tried r ms (rel_tried g) -> (exists n, Lookup (g_labels g) n = Some tok) -> 0 < w < 2 ^ 63 -> advanceRetentionWatermark gf sf tok w r = (r', e) ->
  exists ms', at_most_tried r' ms' (rel_tried g) /\ ms ⊆ ms' /\ (e = None -> (tok, w) ∈ ms') /\ ms' ⊆ (tok, w) :: ms.
Proof. intros Hl tok w r0 r1 e1 ms0 Hi [n Hn] Hww E1. destruct (lookup_token _ _ _ Hl Hn) as [_ Hok]. exists ((tok, w) :: ms0). split; [by eapply advance_tried|]. split_and!; set_solver. Qed.

Lemma rel_import_covers g sf : registry_wf (g_types g) -> forall tok w r r' e ms, covers_purges r (purged g) ms /\ Forall (fun p : Z * Z => 0 < p.2) ms -> (exists n, Lookup (g_types g) n = Some tok) -> 0 < w < 2 ^ 63 -> advanceRelRetentionWatermark sf tok w r = (r', e) ->
  exists ms', (covers_purges r' (purged g) ms' /\ Forall (fun p : Z * Z => 0 < p.2) ms') /\ ms ⊆ ms' /\ (e = None -> (tok, w) ∈ ms') /\ ms' ⊆ (tok, w) :: ms.
Proof.
  intros Hl tok w r0 r1 e1 ms [Hi Hpos] [n Hn] Hww E1. destruct (lookup_token _ _ _ Hl Hn) as [Hge Hok]. pose proof (advance_rel_covers sf tok w _ _ e1 _ _ Hi Hok ltac:(lia) Hww E1) as H.
  destruct e1; [exists ms|exists ((tok, w) :: ms)]; (split; [split; [done|]|split_and!; set_solver]); [done|]. constructor; [cbn; lia|done].
Qed.

Lemma rel_import_tried g sf : registry_wf (g_types g) -> forall tok w r r' e ms, at_most_tried r (tried g) ms -> (exists n, Lookup (g_types g) n = Some tok) -> 0 < w < 2 ^ 63 -> advanceRelRetentionWatermark sf tok w r = (r', e) ->
  exists ms', at_most_tried r' (tried g) ms' /\ ms ⊆ ms' /\ (e = None -> (tok, w) ∈ ms') /\ ms' ⊆ (tok, w) :: ms.
Proof. intros Hl tok w r0 r1 e1 ms0 Hi [n Hn] Hww E1. destruct (lookup_token _ _ _ Hl Hn) as [Hge Hok]. exists ((tok, w) :: ms0). split; [eapply advance_rel_tried; try done; lia|]. split_and!; set_solver. Qed.

Lemma positive_app (ms ms' : purges) : Forall (fun p : Z * Z => 0 < p.2) (ms ++ ms') <-> Forall (fun p : Z * Z => 0 < p.2) ms /\ Forall (fun p : Z * Z => 0 < p.2) ms'.
Proof. apply Forall_app. Qed.

Lemma positive_sub (ms ms' : purges) : Forall (fun p : Z * Z => 0 < p.2) ms -> ms' ⊆ ms -> Forall (fun p : Z * Z => 0 < p.2) ms'.
Proof. rewrite !Forall_forall. intros H Hs p Hp. by apply H, Hs. Qed.

Lemma import_ok g gf sf byName r e : graph_ok g -> Forall (fun p : bytes * Z => p.2 < 2 ^ 63) byName -> importNodeRetentionLocked gf sf (g_labels g) byName (c_ret (g_core g)) = (r, e) ->
  graph_ok (mkGraph (with_ret r (g_core g)) (g_labels g) (g_types g) (match e with None => by_token (g_labels g) byName ++ purged g | Some _ => purged g end) (rel_purged g) (by_token (g_labels g) byName ++ tried g) (rel_tried g)).
Proof.
  intros [Hl Ht Hc Ha Hp Hr Htl Htr Hpt] Hw E. apply positive_app in Hp as [Hp1 Hp2].
  destruct (import_marks_inv _ _ _ (import_covers g gf sf Hl) byName _ _ _ (purged g) (conj Hc Hp1) Hw E) as (ms & [H1 H2] & H3 & H4 & H5).
  destruct (import_marks_inv _ _ _ (import_tried g gf sf Hl) byName _ _ _ (tried g) Ha Hw E) as (mt & G1 & G2 & G3 & G4).
  assert (Hsub : match e with None => by_token (g_labels g) byName ++ purged g | Some _ => purged g end ⊆ ms) by (destruct e; [done|]; specialize (H4 eq_refl); set_solver).
  split; cbn [g_labels g_types g_core purged rel_purged tried rel_tried with_ret c_ret]; try done.
  - by eapply covers_sub.
  - by eapply tried_sub.
  - apply positive_app. split; [by eapply positive_sub|done].
  - apply Forall_app. split; [by apply by_token_ok|done].
  - destruct e; [done|]. apply Forall_app. split; [by apply by_token_ok|done].
Qed.

Lemma rel_import_ok g sf byName r e : graph_ok g -> Forall (fun p : bytes * Z => p.2 < 2 ^ 63) byName -> importRelRetentionLocked sf (g_types g) byName (c_ret (g_core g)) = (r, e) ->
  graph_ok (mkGraph (with_ret r (g_core g)) (g_labels g) (g_types g) (purged g) (match e with None => by_token (g_types g) byName ++ rel_purged g | Some _ => rel_purged g end) (tried g) (by_token (g_types g) byName ++ rel_tried g)).
Proof.
  intros [Hl Ht Hc Ha Hp Hr Htl Htr Hpt] Hw E. apply positive_app in Hp as [Hp1 Hp2].
  destruct (import_marks_inv _ _ _ (rel_import_covers g sf Ht) byName _ _ _ (rel_purged g) (conj Hc Hp2) Hw E) as (ms & [H1 H2] & H3 & H4 & H5).
  destruct (import_marks_inv _ _ _ (rel_import_tried g sf Ht) byName _ _ _ (rel_tried g) Ha Hw E) as (mt & G1 & G2 & G3 & G4).
  assert (Hsub : match e with None => by_token (g_types g) byName ++ rel_purged g | Some _ => rel_purged g end ⊆ ms) by (destruct e; [done|]; specialize (H4 eq_refl); set_solver).
  split; cbn [g_labels g_types g_core purged rel_purged tried rel_tried with_ret c_ret]; try done.
  - by eapply covers_sub.
  - by eapply tried_sub.
  - apply positive_app. split; [done|by eapply positive_sub].
  - destruct e; [done|]. apply Forall_app. split; [by apply by_token_ok|done].
  - apply Forall_app. split; [by apply by_token_ok|done].
Qed.

Lemma graph_step_ok g g' : graph_ok g -> graph_step g g' -> graph_ok g'.
Proof.
  intros Hg Hs. pose proof Hg as [Hl Ht Hc Ha Hp Hr Htl Htr Hpt]. destruct Hs as [fuel w k policy report err c removed HB E Hd|fuel w k policy report err c removed HB E Hd|fuel k name L B mode err c removed HL HB E Hd|fuel k name T B mode err c removed HT HB E Hd|gf r E|sf r e s E|gf sf byName r e Hw E|sf byName r e Hw E|name|name|s].
  - apply purge_nodes_ret in E as [(E1 & E2 & E3)|(L & e & HL & Hpos & Ea & Hee)]; [by apply (note_same g c removed _ _ err); eauto|].
    rewrite HL. eapply raised_ok; [done|done|lia|exact Ea|]. by eapply did_none.
  - apply purge_rels_ret in E as [(E1 & E2 & E3)|(T & e & HT & Hpos & Ea & Hee)]; [by apply (rel_note_same g c removed _ _ err); eauto|].
    rewrite HT. eapply rel_raised_ok; [done|done|lia|exact Ea|]. by eapply did_none.
  - apply apply_nodes_ret in E as [(-> & E1)|(e & Ea & Hee)].
    + rewrite (did_nothing _ _ _ _ Hd eq_refl E1). apply (more_tried_ok g); try done; [|set_solver]. constructor; [|done]. apply (lookup_token _ _ _ Hl HL).
    + eapply raised_ok; [done|done|lia|exact Ea|]. by eapply did_none.
  - apply apply_rels_ret in E as [(-> & E1)|(e & Ea & Hee)].
    + rewrite (did_nothing _ _ _ _ Hd eq_refl E1). apply (more_tried_ok g); try done; [|set_solver]. constructor; [|done]. apply (lookup_token _ _ _ Ht HT).
    + eapply rel_raised_ok; [done|done|lia|exact Ea|]. by eapply did_none.
  - pose proof (len_cap _ Ht). split; cbn [with_core with_ret g_labels g_types g_core c_ret purged rel_purged tried rel_tried]; try done; [eapply reopened_covers; try done; lia|eapply reopened_tried; try done; lia].
  - pose proof (len_cap _ Ht). pose proof (len_cap _ Hl). split; cbn [with_store with_ret g_labels g_types g_core c_ret purged rel_purged tried rel_tried app]; try done; try by constructor; try by destruct e; constructor.
    + eapply reset_covers; try done; lia.
    + eapply reset_tried; try done; lia.
    + destruct e; [done|by constructor].
    + destruct e; [done|by constructor].
  - by apply (import_ok g gf sf).
  - by apply (rel_import_ok g sf).
  - pose proof (create_len (g_labels g) name Hl). split; cbn [g_labels g_types g_core purged rel_purged tried rel_tried]; try done; [by apply GetOrCreate_wf|by eapply log_ok_mono|by eapply log_ok_mono].
  - pose proof (create_len (g_types g) name Ht). split; cbn [g_labels g_types g_core purged rel_purged tried rel_tried]; try done; [by apply GetOrCreate_wf|by eapply log_ok_mono|by eapply log_ok_mono].
  - by apply same_ret_ok.
Qed.

Lemma reachable_ok s g : rtc graph_step (start s) g -> graph_ok g.
Proof.
  remember (start s) as g0 eqn:E. assert (Hok : graph_ok g0) by (subst; apply start_ok). clear E. induction 1 as [|x y z Hxy _ IH]; [done|]. apply IH. by eapply graph_step_ok.
Qed.
End Doors.

(** ** What the read doors answer *)

Section Reads.
Context {S : Type} (PurgeNodesByLabelBefore PurgeNodesByLabelValidToBefore PurgeRelsByTypeBefore : option (Z -> Instant -> Z -> S -> (RetentionPurgeResult + retError) * S))
  (LogRangePurge LogRelRangePurge : option (Z -> Instant -> Z -> S -> S * option retError)).

Notation step := (graph_step PurgeNodesByLabelBefore PurgeNodesByLabelValidToBefore PurgeRelsByTypeBefore LogRangePurge LogRelRangePurge).

Lemma log_positive (g : graph (S:=S)) L B : graph_ok g -> (L, B) ∈ purged g -> 0 < B.
Proof. intros Hg Hin. pose proof (go_positive g Hg) as Hp. rewrite Forall_forall in Hp. apply (Hp (L, B)). apply elem_of_app. by left. Qed.

Lemma rel_log_positive (g : graph (S:=S)) T B : graph_ok g -> (T, B) ∈ rel_purged g -> 0 < B.
Proof. intros Hg Hin. pose proof (go_positive g Hg) as Hp. rewrite Forall_forall in Hp. apply (Hp (T, B)). apply elem_of_app. by right. Qed.

Lemma check_types_refused relTypes names pin r name : name ∈ names -> checkRelsOnlyRetention relTypes name pin r = Some ErrRetentionExpired -> check_types relTypes names pin r = Some ErrRetentionExpired.
Proof.
  induction names as [|n names IH]; [by intros ?%not_elem_of_nil|]. intros Hin E. cbn [check_types]. destruct (checkRelsOnlyRetention relTypes n pin r) as [e|] eqn:En.
  - f_equal. unfold checkRelsOnlyRetention, checkScanRetentionAt in En. by repeat case_match; simplify_eq.
  - apply elem_of_cons in Hin as [->|Hin]; [congruence|by apply IH].
Qed.

(** Every node scan, relationship point and surviving node point that a purge of
    label [L] up to a boundary above [pin] could make miss an entity is refused. *)
Definition node_reads_refused `{Layout} (P : Type) (L : Z) (pin : Instant) (r : retention) : Prop :=
  (forall scope, sc_nodes scope = true -> checkScanRetentionAt pin scope r = Some ErrRetentionExpired) /\
  checkRelPointRetention pin r = Some ErrRetentionExpired /\
  (forall gf (cur : Z -> option (Node P) + retError) hist id toks, nodeLabelTokensForRetention cur hist id = inl toks -> Forall token_ok toks -> L ∈ toks ->
    exists e, checkNodePointRetention gf cur hist id pin r = Some e /\ ((forall key, gf key = false) -> e = ErrRetentionExpired)).

(** The same for a purge of type [T] up to [B]: scans whose scope holds the type,
    reads by type names among them, and points of relationships minted below [B]
    that are of the type or gone. *)
Definition rel_reads_refused `{Layout} (P : Type) (relTypes : LabelRegistry) (T : Z) (B pin : Instant) (r : retention) : Prop :=
  (forall scope, sc_rels scope = true -> sc_relType scope = 0 \/ sc_relType scope = T -> checkScanRetentionAt pin scope r = Some ErrRetentionExpired) /\
  (forall names, names = [] \/ (exists name, name ∈ names /\ (name = [] \/ Lookup relTypes name = Some T)) -> checkRelTypesRetention relTypes names pin r = Some ErrRetentionExpired) /\
  (forall (cur : Z -> option (Relationship P) + retError) hist id, MintInstantMillis id < B ->
    match relTypeTokenForRetention cur hist id with inl None => True | inl (Some T') => T' = T | inr _ => True end ->
    exists e, checkRelTypePointRetention cur hist id pin r = Some e /\ ((exists o, relTypeTokenForRetention cur hist id = inl o) -> e = ErrRetentionExpired)).

Lemma node_purge_refuses `{Layout} (P : Type) r purged rel_purged L B pin :
  covers_purges r purged rel_purged -> (L, B) ∈ purged -> 0 < B -> pin <> 0 -> pin < B -> node_reads_refused P L pin r.
Proof.
  intros Hc Hin HB Hp Hlt. split_and!.
  - intros scope Hs. by eapply node_scan_refused.
  - by eapply rel_point_refused.
  - intros gf cur hist id toks Et Ht HL. exact (node_point_refused gf cur hist _ _ _ L B id toks pin Hc Hin HB Hp Hlt Et Ht HL).
Qed.

Lemma rel_purge_refuses `{Layout} (P : Type) relTypes r purged rel_purged T B pin :
  covers_purges r purged rel_purged -> (T, B) ∈ rel_purged -> 0 < B -> pin <> 0 -> pin < B -> rel_reads_refused P relTypes T B pin r.
Proof.
  intros Hc Hin HB Hp Hlt.
  assert (Hscan : forall scope, sc_rels scope = true -> sc_relType scope = 0 \/ sc_relType scope = T -> checkScanRetentionAt pin scope r = Some ErrRetentionExpired).
  { intros scope H1 H2. by eapply rel_scan_refused. }
  split_and!; [done| |].
  - intros names [->|(name & Hn & Hname)]; [by apply Hscan; [done|left]|]. unfold checkRelTypesRetention. destruct names as [|n names]; [by apply not_elem_of_nil in Hn|]. eapply check_types_refused; [exact Hn|].
    unfold checkRelsOnlyRetention, relTypeRetentionScope. destruct Hname as [->|Hl]; [rewrite bool_decide_eq_true_2 by done; apply Hscan; [done|by left]|].
    case_bool_decide; [apply Hscan; [done|by left]|]. rewrite Hl. apply Hscan; [done|by right].
  - intros cur hist id Hm Ht. by eapply rel_type_point_refused.
Qed.

(** C37: the retention gates fail closed: in every state a graph can reach by purging,
    replaying purges, reopening, resetting, importing and writing, with any metadata
    call failing and any call cancelled half-way, a purge that removed anything (or
    ended without error) leaves these reads refused at every pin other than 0 below
    its boundary.  For a label's purge: every scan with nodes in its scope, every
    point read of a relationship, and the point read of a node whose current or else
    newest history row carries the label.  For a type's purge: every scan and every
    read by type names whose scope holds the type or all types, and the point read of
    a relationship minted before the boundary that is of the type or gone.  Not
    gated, as the code says: the point read of a node that was purged itself, which
    no row tells the labels of, and reads whose scope leaves nodes out, as the
    adjacency doors' does, as far as node purges go. *)
Theorem retention_fails_closed `{Layout} {P : Type} s g pin : rtc step (start s) g -> pin <> 0 ->
  (forall L B, (L, B) ∈ purged g -> pin < B -> node_reads_refused P L pin (c_ret (g_core g))) /\
  (forall T B, (T, B) ∈ rel_purged g -> pin < B -> rel_reads_refused P (g_types g) T B pin (c_ret (g_core g))).
Proof.
  intros Hg%reachable_ok Hp. pose proof (go_covers g Hg) as Hc. split; intros K B Hin Hlt.
  - eapply node_purge_refuses; try done. by apply (log_positive g K).
  - eapply rel_purge_refuses; try done. by apply (rel_log_positive g K).
Qed.

(** C38: a read is refused only for what was purged: since the last reset that
    succeeded, a scan pinned at 0 or later is refused only below the boundary of
    a purge tried on a label (nodes in its scope) or on its relationship type (or
    any type, for a scan of all), and a point read of a node only below the
    boundary of a purge tried on one of its labels.  Pins before the epoch are
    the exception: a purge of one family refuses scans of the other there. *)
Theorem retention_refuses_only_purged {P : Type} s g pin e : rtc step (start s) g ->
  (forall scope, token_ok (sc_relType scope) -> checkScanRetentionAt pin scope (c_ret (g_core g)) = Some e ->
    e = ErrRetentionExpired /\
    ((sc_nodes scope = true /\ exists L B, (L, B) ∈ tried g /\ pin < B) \/
     (sc_rels scope = true /\ exists T B, (T, B) ∈ rel_tried g /\ pin < B /\ (sc_relType scope = 0 \/ sc_relType scope = T)) \/ pin < 0)) /\
  (forall gf (cur : Z -> option (Node P) + retError) hist id toks, (forall key, gf key = false) -> nodeLabelTokensForRetention cur hist id = inl toks -> Forall token_ok toks ->
    checkNodePointRetention gf cur hist id pin (c_ret (g_core g)) = Some e -> e = ErrRetentionExpired /\ exists L B, L ∈ toks /\ (L, B) ∈ tried g /\ pin < B).
Proof.
  intros Hg%reachable_ok. pose proof (go_covers g Hg) as Hc. pose proof (go_tried g Hg) as Ha. split.
  - intros scope Hs E. by eapply scan_refused_tried.
  - intros gf cur hist id toks Hgf Et Ht E. by eapply node_point_tried.
Qed.

(** ** Export and import *)

Lemma registered_name registry t : registry_wf registry -> 1 <= t <= Len registry -> Resolve registry t <> [] /\ Lookup registry (Resolve registry t) = Some t.
Proof.
  intros Hwf. unfold Len, Lookup, Resolve. rewrite (wf_ensure _ Hwf). intros Ht. destruct (Z.geb_spec t (Z.of_nat (length (toLabel registry)))); [lia|]. unfold name_at.
  destruct (lookup_lt_is_Some_2 (toLabel registry) (Z.to_nat t)) as [n Hn]; [lia|]. rewrite Hn. split; [|apply (rw_tokens _ Hwf); by split; [lia|]].
  intros ->. assert (Hlk0 : toLabel registry !! 0%nat = Some ([] : bytes)) by (pose proof (rw_head _ Hwf); destruct (toLabel registry); [done|]; cbn in *; congruence).
  pose proof (NoDup_lookup _ _ _ _ (rw_nodup _ Hwf) Hn Hlk0). lia.
Qed.

Lemma name_unique registry t t' : registry_wf registry -> 1 <= t <= Len registry -> Resolve registry t' = Resolve registry t -> t' = t.
Proof.
  intros Hwf Ht E. destruct (registered_name registry t Hwf Ht) as [Hne Hlk]. destruct (Z.leb_spec 0 t') as [Hge|Hlt].
  - apply (Resolve_lookup registry t' (Resolve registry t) Hwf Hge Hne) in E. assert (Ht' : toLabel registry !! Z.to_nat t = Some (Resolve registry t)) by (apply Resolve_lookup; [done|lia|done|done]).
    pose proof (NoDup_lookup _ _ _ _ (rw_nodup _ Hwf) E Ht'). lia.
  - exfalso. apply Hne. rewrite <- E. unfold Resolve. rewrite (wf_ensure _ Hwf). destruct (_ >=? _); [done|]. unfold name_at. replace (Z.to_nat t') with 0%nat by lia.
    pose proof (rw_head _ Hwf). destruct (toLabel registry); [done|]. cbn in *. congruence.
Qed.

Lemma label_marks_spec gf labels r m toks : registry_wf labels -> metaKV r = Some m -> meta_ok m -> forall nodes out, Forall (fun t => 1 <= t <= Len labels) toks -> NoDup toks -> label_marks gf labels toks r nodes = inl out ->
  forall t, 1 <= t <= Len labels -> 0 < mark_of m (LabelKey t) -> out !! Resolve labels t = if bool_decide (t ∈ toks) then Some (mark_of m (LabelKey t)) else nodes !! Resolve labels t.
Proof.
  intros Hwf Em Hok. induction toks as [|tok toks IH]; intros nodes out Ht Hnd; cbn [label_marks].
  - intros [= <-] t _ _. by rewrite bool_decide_eq_false_2 by apply not_elem_of_nil.
  - apply Forall_cons in Ht as [Htok Ht]. apply NoDup_cons in Hnd as [Hni Hnd]. unfold retentionWatermarkForLabel. rewrite Em. destruct (readWatermarkMeta gf m (retentionWatermarkKey tok)) as [wm|] eqn:Er; [|done].
    assert (Hkey : token_ok tok) by (pose proof (len_cap _ Hwf); unfold token_ok; lia). pose proof (read_mark gf m (LabelKey tok) wm Hok Hkey Er) as ->. intros E t Hreg Hpos. rewrite (IH _ _ Ht Hnd E t Hreg Hpos). destruct (decide (t = tok)) as [->|Hne].
    + rewrite bool_decide_eq_false_2, bool_decide_eq_true_2 by set_solver. destruct (Z.gtb_spec (mark_of m (LabelKey tok)) 0); [|lia]. apply lookup_insert_eq.
    + assert (Hn : Resolve labels tok <> Resolve labels t) by (intros En; apply Hne; symmetry; by eapply name_unique). destruct (mark_of m (LabelKey tok) >? 0); rewrite ?lookup_insert_ne by done; repeat case_bool_decide; set_solver.
Qed.

Lemma type_marks_spec relTypes (l : list (Z * Z)) T w : registry_wf relTypes -> 1 <= T <= Len relTypes -> NoDup l.*1 -> forall rels : gmap bytes Z, ((T, w) ∈ l \/ (rels !! Resolve relTypes T = Some w /\ T ∉ l.*1)) ->
  fold_left (fun rels p => <[Resolve relTypes p.1 := p.2]> rels) l rels !! Resolve relTypes T = Some w.
Proof.
  intros Hwf HT. induction l as [|[t v] l IH]; intros Hnd rels Hin; cbn [fold_left fst snd].
  - destruct Hin as [[]%not_elem_of_nil|[H _]]. done.
  - cbn [fmap list_fmap fst] in *. apply NoDup_cons in Hnd as [Hni Hnd]. apply IH; [done|]. destruct Hin as [[[= <- <-]|Hin]%elem_of_cons|[Hr [Hne Hnl]%not_elem_of_cons]].
    + right. split; [apply lookup_insert_eq|done].
    + by left.
    + right. split; [|done]. rewrite lookup_insert_ne; [done|]. intros E. apply Hne. symmetry. by eapply name_unique.
Qed.

(** A state that imported an export covers what its source purged. *)
Lemma exported_covered gf g nodes rels ns rs : graph_ok (S:=S) g -> retentionWatermarksByName gf (g_labels g) (g_types g) (c_ret (g_core g)) = inl (nodes, rels) -> ns ≡ₚ map_to_list nodes -> rs ≡ₚ map_to_list rels ->
  (forall L B, (L, B) ∈ purged g -> exists w, (Resolve (g_labels g) L, w) ∈ ns /\ B <= w) /\
  (forall T B, (T, B) ∈ rel_purged g -> exists w, (Resolve (g_types g) T, w) ∈ rs /\ B <= w).
Proof.
  intros Hg E Hns Hrs. pose proof (go_covers g Hg) as (m & (Em & Hok & _) & HN & HR). unfold retentionWatermarksByName in E. split.
  - intros L B Hin. pose proof (log_positive g L B Hg Hin) as HB. pose proof (go_tokens g Hg) as Hreg. unfold log_ok in Hreg. rewrite Forall_forall in Hreg. specialize (Hreg _ Hin). cbn [fst] in Hreg. destruct (HN L B Hin) as (HL & Hm & Hx). destruct (Z.gtb_spec (retentionMaxWatermark (c_ret (g_core g))) 0); [|lia].
    destruct (label_marks _ _ _ _ _) as [out|] eqn:El; [|done]. injection E as -> _. exists (mark_of m (LabelKey L)). split; [|done]. rewrite Hns. apply elem_of_map_to_list.
    assert (Hall : Forall (fun t => 1 <= t <= Len (g_labels g)) (registered (Len (g_labels g)))) by (apply Forall_forall; intros t; by rewrite elem_registered).
    assert (Hnd : NoDup (registered (Len (g_labels g)))) by (apply NoDup_fmap_2; [intros a b; lia|apply NoDup_seq]).
    rewrite (label_marks_spec gf _ _ m _ (go_labels g Hg) Em Hok _ _ Hall Hnd El L Hreg ltac:(lia)), bool_decide_eq_true_2; [done|]. by apply elem_registered.
  - intros T B Hin. pose proof (rel_log_positive g T B Hg Hin) as HB. destruct (HR T B Hin) as (HT & Hp & Hx & Hy). pose proof (go_rel_tokens g Hg) as Hreg. unfold log_ok in Hreg. rewrite Forall_forall in Hreg. specialize (Hreg _ Hin). cbn [fst] in Hreg.
    destruct (if _ >? 0 then _ else _) as [out|] eqn:El; [|done]. injection E as _ Er. unfold relRetentionWatermark in Hy. destruct (relRetentionWatermarks (c_ret (g_core g))) as [marks|] eqn:Em'; [|lia]. cbn [from_option id] in *.
    destruct (marks !! T) as [w|] eqn:Ew; [|cbn in Hy; lia]. cbn [from_option id] in Hy. exists w. split; [|done]. rewrite Hrs. apply elem_of_map_to_list. rewrite <- Er. apply type_marks_spec; [apply Hg|done|apply NoDup_fst_map_to_list|]. left. by apply elem_of_map_to_list.
Qed.

Lemma imported_names advance registry byName : forall r r', import_marks advance registry byName r = (r', None) -> forall n w, (n, w) ∈ byName -> exists t, Lookup registry n = Some t /\ (t, w) ∈ by_token registry byName.
Proof.
  induction byName as [|[n0 w0] byName IH]; intros r r'; cbn [import_marks]; [intros _ n w []%not_elem_of_nil|]. destruct (Lookup registry n0) as [t|] eqn:El; [|done]. destruct (w0 <=? 0); [done|].
  destruct (advance t w0 r) as [r1 [e|]] eqn:Ea; [done|]. intros E n w [[= -> ->]|Hin]%elem_of_cons; unfold by_token; cbn [omap list_omap fst snd]; [rewrite El; exists t; split; [done|]; cbn; set_solver|].
  destruct (IH _ _ E n w Hin) as (t' & H1 & H2). exists t'. split; [done|]. rewrite El. cbn. apply elem_of_cons. by right.
Qed.

(** C39: watermarks survive an export and an import: a graph that imports the
    watermarks another graph exported, by name and in any order, refuses from then on
    every read that retention_fails_closed says the source's purges make refused: node
    scans, relationship points and points of nodes that carry the label, and scans,
    reads by type names and relationship points of the type, each under the token the
    target gives the name. *)
Theorem exported_watermarks_refuse `{Layout} {P : Type} s1 g1 s2 g2 gf nodes rels ns rs sf r1 gf' sf' r2 pin :
  rtc step (start s1) g1 -> rtc step (start s2) g2 ->
  retentionWatermarksByName gf (g_labels g1) (g_types g1) (c_ret (g_core g1)) = inl (nodes, rels) -> ns ≡ₚ map_to_list nodes -> rs ≡ₚ map_to_list rels ->
  Forall (fun p : bytes * Z => p.2 < 2 ^ 63) ns -> Forall (fun p : bytes * Z => p.2 < 2 ^ 63) rs ->
  importRelRetentionLocked sf (g_types g2) rs (c_ret (g_core g2)) = (r1, None) -> importNodeRetentionLocked gf' sf' (g_labels g2) ns r1 = (r2, None) -> pin <> 0 ->
  (forall L B, (L, B) ∈ purged g1 -> pin < B ->
    exists L2, Lookup (g_labels g2) (Resolve (g_labels g1) L) = Some L2 /\ node_reads_refused P L2 pin r2) /\
  (forall T B, (T, B) ∈ rel_purged g1 -> pin < B ->
    exists T2, Lookup (g_types g2) (Resolve (g_types g1) T) = Some T2 /\ rel_reads_refused P (g_types g2) T2 B pin r2).
Proof.
  intros H1%reachable_ok H2%reachable_ok E Hns Hrs Wn Wr Er En Hp. destruct (exported_covered gf g1 nodes rels ns rs H1 E Hns Hrs) as [HN HR].
  pose proof (rel_import_ok g2 sf rs r1 None H2 Wr Er) as H3. pose proof (import_ok _ gf' sf' ns r2 None H3 Wn En) as H4. pose proof (go_covers _ H4) as Hc. cbn [g_core g_labels g_types purged rel_purged with_ret c_ret] in Hc.
  split; intros K B Hin Hlt.
  - destruct (HN K B Hin) as (w & Hw & Hle). destruct (imported_names _ _ _ _ _ En _ _ Hw) as (L2 & HL2 & Hin2). pose proof (log_positive _ K B H1 Hin) as HB.
    exists L2. split; [done|]. eapply (node_purge_refuses P _ _ _ L2 w); [exact Hc|apply elem_of_app; by left|lia..].
  - destruct (HR K B Hin) as (w & Hw & Hle). destruct (imported_names _ _ _ _ _ Er _ _ Hw) as (T2 & HT2 & Hin2). pose proof (rel_log_positive _ K B H1 Hin) as HB.
    exists T2. split; [done|]. destruct (rel_purge_refuses P (g_types g2) _ _ _ T2 w pin Hc) as (R1 & R2 & R3); [apply elem_of_app; by left|lia..|].
    split_and!; [done|done|]. intros cur hist id Hm. apply R3. lia.
Qed.
End Reads.

(** ** A run *)

(** A store of expired IDs that gives up all of them at once. *)
Definition give_all (_ : Z) (_ : Instant) (_ : Z) (s : list Z) : (RetentionPurgeResult + retError) * list Z := (inl (mkResult (Z.of_nat (length s)) 0 false s), []).

Definition give_rels (_ : Z) (_ : Instant) (_ : Z) (s : list Z) : (RetentionPurgeResult + retError) * list Z := (inl (mkResult 0 1 false []), s).

Definition run_gates : gates := mkGates false false false true true false.

Definition run_call : call := mkCall (fun _ => false) (fun _ => false) (fun _ => false) (fun _ => false) true.

Definition run_step := graph_step (Some give_all) None (Some give_rels) None None.

Definition after_purge (g : graph) (policy : PurgePolicy) : graph :=
  match PurgeExpiredNodes (Some give_all) None None 2 run_gates run_call (g_labels g) policy (g_core g) with
  | Some (_, _, c) => mkGraph c (g_labels g) (g_types g) (note (Lookup (g_labels g) (Label policy)) (Before policy) (purged g)) (rel_purged g) (note (Lookup (g_labels g) (Label policy)) (Before policy) (tried g)) (rel_tried g)
  | None => g
  end.

Definition after_rel_purge (g : graph) (policy : RelPurgePolicy) : graph :=
  match PurgeExpiredRels (Some give_rels) None 2 run_gates run_call (g_types g) policy (g_core g) with
  | Some (_, _, c) => mkGraph c (g_labels g) (g_types g) (purged g) (note (Lookup (g_types g) (rp_Type policy)) (rp_Before policy) (rel_purged g)) (tried g) (note (Lookup (g_types g) (rp_Type policy)) (rp_Before policy) (rel_tried g))
  | None => g
  end.

(** Label A (65) and type T (84) registered and purged below 100 and 50. *)
Definition named : graph := mkGraph (g_core (start [7; 8])) (snd (GetOrCreate NewLabelRegistry [65])) (snd (RelType_GetOrCreate NewLabelRegistry [84])) [] [] [] [].

Definition node_purged : graph := after_purge named (mkPolicy [65] PurgeByAge 100).

Definition both_purged : graph := after_rel_purge node_purged (mkRelPolicy [84] PurgeByAge 50).

(** The target: label B (66) first, then A. *)
Definition target : graph := mkGraph (g_core (start ([] : list Z))) (snd (GetOrCreate (snd (GetOrCreate NewLabelRegistry [66])) [65])) (snd (RelType_GetOrCreate NewLabelRegistry [84])) [] [] [] [].

Lemma named_reachable : rtc run_step (start [7; 8]) named.
Proof. eapply rtc_l; [apply (gs_label _ _ _ _ _ _ [65])|]. eapply rtc_l; [apply (gs_type _ _ _ _ _ _ [84])|]. apply rtc_refl. Qed.

Lemma target_reachable : rtc run_step (start ([] : list Z)) target.
Proof. eapply rtc_l; [apply (gs_label _ _ _ _ _ _ [66])|]. eapply rtc_l; [apply (gs_label _ _ _ _ _ _ [65])|]. eapply rtc_l; [apply (gs_type _ _ _ _ _ _ [84])|]. apply rtc_refl. Qed.

Lemma both_purged_reachable : rtc run_step (start [7; 8]) both_purged.
Proof.
  etrans; [apply named_reachable|]. eapply rtc_l.
  - eapply (gs_purge _ _ _ _ _ named 2 run_gates run_call (mkPolicy [65] PurgeByAge 100) (mkReport 2 0 100) None (g_core node_purged) true); [done|by vm_compute|]. split; [by right|done].
  - eapply rtc_l; [|apply rtc_refl]. eapply (gs_rel_purge _ _ _ _ _ node_purged 2 run_gates run_call (mkRelPolicy [84] PurgeByAge 50) (mkRelReport 1 50) None (g_core both_purged) true); [done|by vm_compute|]. split; [by right|done].
Qed.

(** A node carrying label A. *)
Definition a_node : Node unit := mkNode _ (Alloc 1) 7 tt [] None None None 1 1 false false 0.

Lemma retention_fails_closed_witness : checkScanRetentionAt 40 scopeNodes (c_ret (g_core both_purged)) = Some ErrRetentionExpired /\
  checkScanRetentionAt 40 (relTypeRetentionScope (g_types both_purged) [84]) (c_ret (g_core both_purged)) = Some ErrRetentionExpired.
Proof.
  destruct (retention_fails_closed (H := demo_layout) (P := unit) _ _ _ _ _ [7; 8] both_purged 40 both_purged_reachable) as [HN HR]; [done|]. split.
  - refine (proj1 (HN 1 100 _ _) scopeNodes _); [by left|done|done].
  - refine (proj1 (HR 1 50 _ _) (relTypeRetentionScope _ _) _ _); [by left|done|done|by right].
Defined.

Lemma retention_refuses_only_purged_witness : exists L B, L ∈ [1] /\ (L, B) ∈ tried both_purged /\ 40 < B.
Proof.
  apply (proj2 (retention_refuses_only_purged (P := unit) _ _ _ _ _ [7; 8] both_purged 40 ErrRetentionExpired both_purged_reachable) (fun _ => false) (fun _ => inl (Some a_node)) (fun _ => inl []) 7 [1]); [done|done|by repeat constructor|by vm_compute].
Defined.

Lemma exported_watermarks_refuse_witness : exists r, importNodeRetentionLocked (fun _ => false) (fun _ => false) (g_labels target) [([65], 100)] (fst (importRelRetentionLocked (fun _ => false) (g_types target) [([84], 50)] (c_ret (g_core target)))) = (r, None) /\
  checkScanRetentionAt 40 scopeNodes r = Some ErrRetentionExpired /\ checkRelTypesRetention (g_types target) [[84]] 40 r = Some ErrRetentionExpired.
Proof.
  eexists. split; [by vm_compute|].
  destruct (exported_watermarks_refuse (H := demo_layout) (P := unit) (Some give_all) None (Some give_rels) None None [7; 8] both_purged [] target (fun _ => false) {[ [65] := 100 ]} {[ [84] := 50 ]}
    [([65], 100)] [([84], 50)] (fun _ => false) _ (fun _ => false) (fun _ => false) _ 40 both_purged_reachable target_reachable ltac:(by vm_compute) ltac:(done) ltac:(done) ltac:(by repeat constructor) ltac:(by repeat constructor) ltac:(by vm_compute) ltac:(by vm_compute) ltac:(done)) as [HN HR].
  split.
  - destruct (HN 1 100 ltac:(by left) ltac:(done)) as (L2 & _ & Hscan & _). by apply Hscan.
  - destruct (HR 1 50 ltac:(by left) ltac:(done)) as (T2 & HT2 & _ & Hnames & _). apply Hnames. right. exists [84]. split; [by left|]. right. exact HT2.
Defined.

(** A purge of type T alone refuses node scans at the instant 0 and before, though
    the comment on [scopeNodes] says it never fails them. *)
Definition rel_only_purged : graph := after_rel_purge named (mkRelPolicy [84] PurgeByAge 50).

Example rel_purge_refuses_old_node_scan :
  retentionMaxWatermark (c_ret (g_core rel_only_purged)) = 0 /\
  checkScanRetentionAt (pinInstant 0 true) scopeNodes (c_ret (g_core rel_only_purged)) = Some ErrRetentionExpired /\
  checkScanRetentionAt 10 scopeNodes (c_ret (g_core rel_only_purged)) = None.
Proof. by vm_compute. Qed.
