(* ===== verification/Clock.v ===== *)
(** * The transaction clock (core/context.go, core/instant_floor.go)

    [Core.lastInstant] is an atomic int64, the monotonic floor every instant
    handed out exceeds; [clockExhausted] is set once the last usable instant
    was handed out.  The wall clock ([c.clock().UnixMilli()]) is an argument of
    every operation that reads it.

    [now], [advanceClockFloor] and [advanceInstantFloor] give an operation's
    whole effect when no other thread intervenes.  [clock_step] is the code as
    it runs: a load and a compare-and-swap, retried when another thread's swap
    came between, and the store of the exhausted mark as a step of its own. *)

From S2P Require Import Prelude Bytes ValidTime.

Record Clock := mkClock {
  lastInstant : Z;
  clockExhausted : bool;
}.

(** ** One operation at a time *)

(** The instant [now] computes from an observed wall time and a loaded floor;
    [None] is the saturated branch. *)
Definition now_next (observed last : Z) : option Z :=
  if observed <=? last then
    if last =? MaxInt64 then None else Some (last +i64 1)%tkg
  else Some observed.

Definition now (observed : Z) (c : Clock) : Instant * Clock :=
  match now_next observed (lastInstant c) with
  | None => (MaxInt64, mkClock (lastInstant c) true)
  | Some next => (next, mkClock next (clockExhausted c || (next =? MaxInt64)))
  end.

Definition peekNow (observed : Z) (c : Clock) : Instant :=
  if lastInstant c >? observed then lastInstant c else observed.

Definition readNow (wall observed : Z) (c : Clock) : Instant :=
  let tx := peekNow observed c in if tx >? wall then tx else wall.

Definition maxClockAdvanceSkewMillis : Z := 10 * 365 * 24 * 60 * 60 * 1000.

(** [None] is ErrInvalidClockAdvance. *)
Definition advanceClockFloor (wall to : Z) (c : Clock) : option (Instant * Clock) :=
  if to >? (wall +i64 maxClockAdvanceSkewMillis)%tkg then None
  else if to <=? lastInstant c then Some (lastInstant c, c)
  else Some (to, mkClock to (clockExhausted c)).

Definition advanceInstantFloor (inst : Instant) (c : Clock) : Clock :=
  if inst <=? 0 then c
  else if inst <=? lastInstant c then c
  else mkClock inst (clockExhausted c).

Definition plausibleForeignStamp (wall inst : Z) : bool :=
  (inst >? 0) && (inst <=? (wall +i64 maxClockAdvanceSkewMillis)%tkg).

Definition maxCommitStamp (tm : option TemporalMetadata) : Instant :=
  match tm with
  | None => 0
  | Some tm =>
      let m := TxFrom tm in
      let m := if TxTo tm >? m then TxTo tm else m in
      let m := if UpdatedAt tm >? m then UpdatedAt tm else m in
      if DeletedAt tm >? m then DeletedAt tm else m
  end.

(** [seedInstantFloor] on the bytes MetaGet returned: the clock and the
    [floorSeedUnreadable] mark ([None] is a failed read). *)
Definition seedInstantFloor (wall : Z) (v : option bytes) (c : Clock) : Clock * bool :=
  match v with
  | None => (c, true)
  | Some v =>
      if negb (length v =? 8)%nat then (c, false)
      else
        let seeded := i64 (be_int v) in
        if seeded <=? 0 then (c, false)
        else if negb (plausibleForeignStamp wall seeded) then (c, true)
        else (advanceInstantFloor seeded c, false)
  end.

(** ** Threads *)

(** A thread inside [now] (with the wall time it observed) or raising the
    floor, before its load or between its load and its swap; [NowCeiling] has the
    last usable instant, or met a floor with none left, and is about to store
    [clockExhausted] and return. *)
Inductive thread :=
  | NowLoad (observed : Z)
  | NowSwap (observed last : Z)
  | NowCeiling
  | RaiseLoad (target : Z)
  | RaiseSwap (target last : Z).

(** The shared clock, the running threads, and the instants returned so far (an
    instant below the ceiling counts from its swap on, after which its thread
    touches nothing shared), the newest first. *)
Record clock_state := mkCS {
  shared : Clock;
  threads : list thread;
  handed : list Z;
}.

Inductive clock_step : clock_state -> clock_state -> Prop :=
  | step_call_now c ts h obs :
      in_i64 obs -> clock_step (mkCS c ts h) (mkCS c (NowLoad obs :: ts) h)
  | step_call_raise c ts h target :
      in_i64 target -> clock_step (mkCS c ts h) (mkCS c (RaiseLoad target :: ts) h)
  | step_now_load c ts1 ts2 h obs :
      clock_step (mkCS c (ts1 ++ NowLoad obs :: ts2) h)
                 (mkCS c (ts1 ++ NowSwap obs (lastInstant c) :: ts2) h)
  | step_now_ok c ts1 ts2 h obs last next :
      now_next obs last = Some next -> lastInstant c = last -> next <> MaxInt64 ->
      clock_step (mkCS c (ts1 ++ NowSwap obs last :: ts2) h)
                 (mkCS (mkClock next (clockExhausted c)) (ts1 ++ ts2) (next :: h))
  | step_now_last c ts1 ts2 h obs last :
      now_next obs last = Some MaxInt64 -> lastInstant c = last ->
      clock_step (mkCS c (ts1 ++ NowSwap obs last :: ts2) h)
                 (mkCS (mkClock MaxInt64 (clockExhausted c)) (ts1 ++ NowCeiling :: ts2) h)
  | step_now_retry c ts1 ts2 h obs last next :
      now_next obs last = Some next -> lastInstant c <> last ->
      clock_step (mkCS c (ts1 ++ NowSwap obs last :: ts2) h) (mkCS c (ts1 ++ NowLoad obs :: ts2) h)
  | step_now_saturated c ts1 ts2 h obs last :
      now_next obs last = None ->
      clock_step (mkCS c (ts1 ++ NowSwap obs last :: ts2) h) (mkCS c (ts1 ++ NowCeiling :: ts2) h)
  | step_now_ceiling c ts1 ts2 h :
      clock_step (mkCS c (ts1 ++ NowCeiling :: ts2) h)
                 (mkCS (mkClock (lastInstant c) true) (ts1 ++ ts2) (MaxInt64 :: h))
  | step_raise_load c ts1 ts2 h target :
      clock_step (mkCS c (ts1 ++ RaiseLoad target :: ts2) h)
                 (mkCS c (ts1 ++ RaiseSwap target (lastInstant c) :: ts2) h)
  | step_raise_skip c ts1 ts2 h target last :
      target <= last ->
      clock_step (mkCS c (ts1 ++ RaiseSwap target last :: ts2) h) (mkCS c (ts1 ++ ts2) h)
  | step_raise_ok c ts1 ts2 h target last :
      last < target -> lastInstant c = last ->
      clock_step (mkCS c (ts1 ++ RaiseSwap target last :: ts2) h)
                 (mkCS (mkClock target (clockExhausted c)) (ts1 ++ ts2) h)
  | step_raise_retry c ts1 ts2 h target last :
      last < target -> lastInstant c <> last ->
      clock_step (mkCS c (ts1 ++ RaiseSwap target last :: ts2) h) (mkCS c (ts1 ++ RaiseLoad target :: ts2) h).

Definition clock_start (c : Clock) : clock_state := mkCS c [] [].

(** The instants handed out: first distinct ones below the ceiling, then the
    ceiling, once or more. *)
Definition capped (h : list Z) : Prop :=
  exists k l, h = replicate k MaxInt64 ++ l /\ StronglySorted Z.gt l /\ Forall (fun v => v < MaxInt64) l.

Definition thread_ok (floor : Z) (t : thread) : Prop :=
  match t with
  | NowLoad o | RaiseLoad o | RaiseSwap o _ => in_i64 o
  | NowSwap o last => in_i64 o /\ last <= floor
  | NowCeiling => floor = MaxInt64
  end.

Definition clock_inv (s : clock_state) : Prop :=
  in_i64 (lastInstant (shared s)) /\ Forall (thread_ok (lastInstant (shared s))) (threads s) /\ capped (handed s) /\
  Forall (fun v => in_i64 v /\ v <= lastInstant (shared s)) (handed s) /\
  (MaxInt64 ∈ handed s -> clockExhausted (shared s) = true).

Lemma now_next_spec observed last next :
  in_i64 observed -> in_i64 last -> now_next observed last = Some next ->
  in_i64 next /\ last < next /\ observed <= next.
Proof.
  unfold now_next, in_i64. intros Ho Hl.
  destruct (Z.leb_spec observed last); [|intros [= <-]; lia].
  destruct (Z.eqb_spec last MaxInt64); [done|]. intros [= <-].
  rewrite i64_id; unfold in_i64, MinInt64, MaxInt64 in *; lia.
Qed.

Lemma now_next_none observed last : in_i64 observed -> now_next observed last = None -> last = MaxInt64.
Proof. unfold now_next. intros Ho. destruct (observed <=? last); [|done]. by destruct (Z.eqb_spec last MaxInt64). Qed.

Lemma threads_raise floor floor' ts : in_i64 floor' -> floor <= floor' -> Forall (thread_ok floor) ts -> Forall (thread_ok floor') ts.
Proof.
  intros Hf Hle Ht. eapply Forall_impl; [exact Ht|]. intros []; cbn; try tauto; unfold in_i64 in *; [intros [? ?]; split; [done|lia]|lia].
Qed.

Lemma handed_raise floor floor' h : floor <= floor' -> Forall (fun v => in_i64 v /\ v <= floor) h -> Forall (fun v => in_i64 v /\ v <= floor') h.
Proof. intros Hle Hh. eapply Forall_impl; [exact Hh|]. intros v [? ?]. split; [done|lia]. Qed.

(** A swap's instant is past everything handed out. *)
Lemma capped_next h floor next : capped h -> Forall (fun v => in_i64 v /\ v <= floor) h -> floor < next -> next < MaxInt64 -> capped (next :: h).
Proof.
  intros (k & l & -> & Hs & Hl) Hb Hf Hn. destruct k as [|k]; cbn in *.
  - exists 0%nat, (next :: l). split; [done|]. split; [|by constructor]. constructor; [done|]. eapply Forall_impl; [exact Hb|]. cbn. lia.
  - apply Forall_cons in Hb as [[_ Hb] _]. lia.
Qed.

Lemma capped_top h : capped h -> capped (MaxInt64 :: h).
Proof. intros (k & l & -> & Hs & Hl). by exists (S k), l. Qed.

Lemma clock_step_inv s s' : clock_inv s -> clock_step s s' -> clock_inv s'.
Proof.
  unfold clock_inv. intros (Hl & Ht & Hs & Hb & Hm) Hstep.
  destruct Hstep as [c ts h obs Ho|c ts h target Ho|c ts1 ts2 h obs|c ts1 ts2 h obs last next Hn He Hne|c ts1 ts2 h obs last Hn He|c ts1 ts2 h obs last next Hn He|c ts1 ts2 h obs last Hn|c ts1 ts2 h
    |c ts1 ts2 h target|c ts1 ts2 h target last Hle|c ts1 ts2 h target last Hlt He|c ts1 ts2 h target last Hlt He];
    cbn [shared threads handed lastInstant clockExhausted] in *; rewrite ?Forall_app, ?Forall_cons in *.
  - by split_and!.
  - by split_and!.
  - destruct Ht as (H1 & Ho & H2). by split_and!.
  - destruct Ht as (H1 & [Ho _] & H2). subst last. destruct (now_next_spec obs (lastInstant c) next) as (Hi & Hlt & _); [done..|].
    assert (next < MaxInt64) by (unfold in_i64 in Hi; lia).
    split_and!; [done|apply (threads_raise (lastInstant c)); (done || lia)|apply (threads_raise (lastInstant c)); (done || lia)|by eapply capped_next|done|lia|apply (handed_raise (lastInstant c)); (done || lia)|].
    intros [E|Hin]%elem_of_cons; [by destruct Hne|by apply Hm].
  - destruct Ht as (H1 & [Ho _] & H2). subst last. destruct (now_next_spec obs (lastInstant c) MaxInt64) as (Hi & Hlt & _); [done..|].
    split_and!; try done; [apply (threads_raise (lastInstant c)); (done || lia)|apply (threads_raise (lastInstant c)); (done || lia)|apply (handed_raise (lastInstant c)); (done || lia)].
  - destruct Ht as (H1 & [Ho _] & H2). by split_and!.
  - destruct Ht as (H1 & [Ho Hle] & H2). apply now_next_none in Hn as ->; [|done]. split_and!; try done. cbn. unfold in_i64 in Hl. lia.
  - destruct Ht as (H1 & Hc & H2). cbn in Hc. rewrite Hc in *. split_and!; [done..|by apply capped_top|done|lia|done|done].
  - destruct Ht as (H1 & Ho & H2). by split_and!.
  - destruct Ht as (H1 & Ho & H2). by split_and!.
  - destruct Ht as (H1 & Ho & H2). cbn in Ho. subst last.
    split_and!; [done|apply (threads_raise (lastInstant c)); (done || lia)|apply (threads_raise (lastInstant c)); (done || lia)|done|apply (handed_raise (lastInstant c)); (done || lia)|done].
  - destruct Ht as (H1 & Ho & H2). by split_and!.
Qed.

Lemma clock_reachable_inv c s :
  in_i64 (lastInstant c) -> rtc clock_step (clock_start c) s -> clock_inv s.
Proof.
  intros Hc Hr. assert (clock_inv (clock_start c)) as Hi.
  { split_and!; simpl; try done; [exists 0%nat, []; split_and!; (done || constructor)|by intros ?%not_elem_of_nil]. }
  induction Hr as [|s1 s2 s3 Hst _ IH]; [done|]. apply IH. by eapply clock_step_inv.
Qed.

(** C32: whatever the interleaving of writers and floor raises, the transaction
    clock hands out strictly increasing instants as long as they are below the
    ceiling (the largest int64), so no two writes share one, each at or below the
    floor.  Once a call has returned the ceiling the clock is marked exhausted,
    every further call returns the ceiling again, and none ever wraps below it. *)
Theorem now_instants_unique c s :
  in_i64 (lastInstant c) -> rtc clock_step (clock_start c) s ->
  (exists k l, handed s = replicate k MaxInt64 ++ l /\ StronglySorted Z.gt l /\ NoDup l /\ Forall (fun v => v < MaxInt64) l) /\
  Forall (fun v => in_i64 v /\ v <= lastInstant (shared s)) (handed s) /\
  (MaxInt64 ∈ handed s -> clockExhausted (shared s) = true).
Proof.
  intros Hc Hr. destruct (clock_reachable_inv c s Hc Hr) as (Hl & _ & (k & l & E & Hs & Hlt) & Hb & Hm).
  split_and!; [|done..]. exists k, l. split_and!; [done..| |done].
  clear -Hs. induction Hs as [|x l Hs IH Hf]; constructor; [|done].
  intros Hin. rewrite Forall_forall in Hf. specialize (Hf x Hin). lia.
Qed.

(** Two writers race below the ceiling, then the last instant goes out twice. *)
Lemma now_instants_unique_witness :
  let s := mkCS (mkClock MaxInt64 true) [] [MaxInt64; MaxInt64; MaxInt64 - 1] in
  (exists k l, handed s = replicate k MaxInt64 ++ l /\ StronglySorted Z.gt l /\ NoDup l /\ Forall (fun v => v < MaxInt64) l) /\
  Forall (fun v => in_i64 v /\ v <= lastInstant (shared s)) (handed s) /\
  (MaxInt64 ∈ handed s -> clockExhausted (shared s) = true).
Proof.
  apply (now_instants_unique (mkClock (MaxInt64 - 2) false)); [vm_compute; split; discriminate|].
  unfold clock_start. do 3 (eapply rtc_l; [apply (step_call_now _ _ _ 7); vm_compute; split; discriminate|]).
  eapply rtc_l; [apply (step_now_load _ [] _ _ 7)|]. simpl.
  eapply rtc_l; [apply (step_now_load _ [NowSwap 7 _] _ _ 7)|]. simpl.
  eapply rtc_l; [apply (step_now_ok _ [] _ _ 7 _ (MaxInt64 - 1)); [reflexivity|reflexivity|discriminate]|]. simpl.
  eapply rtc_l; [eapply (step_now_retry _ [] _ _ 7); [reflexivity|simpl; discriminate]|]. simpl.
  eapply rtc_l; [apply (step_now_load _ [] _ _ 7)|]. simpl.
  eapply rtc_l; [apply (step_now_last _ [] _ _ 7); reflexivity|]. simpl.
  eapply rtc_l; [apply (step_now_load _ [NowCeiling] _ _ 7)|]. simpl.
  eapply rtc_l; [apply (step_now_saturated _ [NowCeiling] _ _ 7); reflexivity|]. simpl.
  eapply rtc_l; [apply (step_now_ceiling _ [])|]. eapply rtc_l; [apply (step_now_ceiling _ [])|]. apply rtc_refl.
Defined.

(** [now] is what a thread's load and swap do when no other thread
    intervenes: the instant handed out is past the floor and not before the
    wall, or the clock is at its ceiling. *)
Theorem now_refines_steps obs c ts h :
  in_i64 obs -> in_i64 (lastInstant c) ->
  let (v, c') := now obs c in
  rtc clock_step (mkCS c (NowLoad obs :: ts) h) (mkCS c' ts (v :: h)) /\
  in_i64 v /\ obs <= v /\
  (lastInstant c < v /\ lastInstant c' = v \/ lastInstant c = MaxInt64 /\ v = MaxInt64 /\ clockExhausted c' = true).
Proof.
  intros Ho Hc. unfold now. destruct (now_next obs (lastInstant c)) as [next|] eqn:E; simpl.
  - destruct (now_next_spec _ _ _ Ho Hc E) as (Hn & Hlt & Hle). split_and!; [|done|lia|by left].
    eapply rtc_l; [apply (step_now_load _ [])|]. destruct (Z.eqb_spec next MaxInt64) as [->|Hne]; [rewrite orb_true_r|rewrite orb_false_r].
    + eapply rtc_l; [by apply (step_now_last _ [])|]. eapply rtc_l; [apply (step_now_ceiling _ [])|apply rtc_refl].
    + eapply rtc_l; [by apply (step_now_ok _ [])|]. apply rtc_refl.
  - pose proof (now_next_none _ _ Ho E) as Em. split_and!; [|unfold in_i64, MinInt64, MaxInt64; lia|unfold in_i64 in Ho; lia|by right].
    eapply rtc_l; [apply (step_now_load _ [])|]. eapply rtc_l; [by apply (step_now_saturated _ [])|]. eapply rtc_l; [apply (step_now_ceiling _ [])|apply rtc_refl].
Qed.

Lemma now_refines_steps_witness :
  let (v, c') := now 5 (mkClock 9 false) in
  rtc clock_step (mkCS (mkClock 9 false) [NowLoad 5] []) (mkCS c' [] [v]) /\
  in_i64 v /\ 5 <= v /\
  (9 < v /\ lastInstant c' = v \/ 9 = MaxInt64 /\ v = MaxInt64 /\ clockExhausted c' = true).
Proof. apply (now_refines_steps 5 (mkClock 9 false) [] []); vm_compute; split; discriminate. Defined.

(** Raising the floor to a row's largest commit stamp ([maxCommitStamp], as
    a replica apply or an import does) puts every instant handed out afterwards
    past each of the row's four stamps. *)
Theorem floor_covers_stamps wall tm c :
  let c' := advanceInstantFloor (maxCommitStamp (Some tm)) c in
  in_i64 wall -> in_i64 (lastInstant c) -> 0 < maxCommitStamp (Some tm) <= MaxInt64 ->
  lastInstant c' < MaxInt64 ->
  let v := fst (now wall c') in TxFrom tm < v /\ TxTo tm < v /\ UpdatedAt tm < v /\ DeletedAt tm < v.
Proof.
  intros c' Hw Hc [Hm1 Hm2] Hlt.
  assert (in_i64 (lastInstant c') /\ maxCommitStamp (Some tm) <= lastInstant c') as [Hc' Hle].
  { subst c'. unfold advanceInstantFloor, in_i64, MinInt64 in *. repeat case_match; cbn [lastInstant]; lia. }
  clearbody c'. unfold now.
  destruct (now_next wall (lastInstant c')) as [v|] eqn:E; [|unfold now_next in E; repeat case_match; lia || done].
  apply now_next_spec in E as (_ & Hv & _); [|done..]. simpl.
  revert Hle. unfold maxCommitStamp. repeat case_match; lia.
Qed.

Lemma floor_covers_stamps_witness :
  let tm := set_TxTo 30 (set_TxFrom 20 zeroTM) in
  let v := fst (now 5 (advanceInstantFloor (maxCommitStamp (Some tm)) (mkClock 9 false))) in
  20 < v /\ 30 < v /\ 0 < v /\ 0 < v.
Proof.
  apply (floor_covers_stamps 5 (set_TxTo 30 (set_TxFrom 20 zeroTM)) (mkClock 9 false));
    vm_compute; try split; try reflexivity; discriminate.
Defined.
