(* ===== verification/TxWrites.v ===== *)
(** * The stamps of a write (core/temporal.go, tx_order.go, version_alloc.go)

    Which instants and which versions a superseding write, a close, a delete
    and a re-import put on a row.  The transaction clock is threaded through
    the operations that read it; the wall time of the [k]-th reading is
    [obs k]. *)

From S2P Require Import Prelude ValidTime Rows AsOf Clock.

(** ** Instants *)

Definition validInstantAfter (at_ start : Instant) : Instant :=
  if at_ <=? start then (start +i64 1)%tkg else at_.

(** The clock and the number of readings taken of it. *)
Definition clockS : Type := nat * Clock.

Definition nowS (obs : nat -> Z) (st : clockS) : Instant * clockS :=
  let (v, c) := now (obs (fst st)) (snd st) in (v, (S (fst st), c)).

(** One pass of [deleteInstantClearOfCloses] over the rows: the instant,
    whether it moved, the clock. *)
Fixpoint clear_pass (obs : nat -> Z) (tms : list (option TemporalMetadata)) (at_ : Instant) (moved : bool)
    (st : clockS) : Instant * bool * clockS :=
  match tms with
  | [] => (at_, moved, st)
  | tm :: rest =>
      match tm with
      | Some m =>
          if ValidTo m =? at_ then
            let (v, st') := nowS obs st in
            clear_pass obs rest (Z.max (at_ +i64 1)%tkg v) true st'
          else clear_pass obs rest at_ moved st
      | None => clear_pass obs rest at_ moved st
      end
  end.

(** The outer loop.  Every pass that moves the instant moves it past a close
    of its own, so one pass more than there are rows ends it. *)
Fixpoint clear_loop (fuel : nat) (obs : nat -> Z) (tms : list (option TemporalMetadata)) (at_ : Instant)
    (st : clockS) : option (Instant * clockS) :=
  match fuel with
  | O => None
  | S fuel' =>
      if at_ <? MaxInt64 then
        let '(at', moved, st') := clear_pass obs tms at_ false st in
        if moved then clear_loop fuel' obs tms at' st' else Some (at', st')
      else Some (at_, st)
  end.

Definition deleteInstantClearOfCloses (obs : nat -> Z) (at_ : Instant) (tms : list (option TemporalMetadata))
    (st : clockS) : option (Instant * clockS) :=
  clear_loop (S (length tms)) obs tms at_ st.

(** A row being deleted is its effective start and its metadata. *)
Definition deleteInstantForRelationship (obs : nat -> Z) (cur : Instant * option TemporalMetadata) (st : clockS) :
    option (Instant * clockS) :=
  let (v, st) := nowS obs st in
  deleteInstantClearOfCloses obs (validInstantAfter v (fst cur)) [snd cur] st.

Definition deleteInstantForNodeCascade (obs : nat -> Z) (cur : Instant * option TemporalMetadata)
    (outRels inRels : list (Instant * option TemporalMetadata)) (st : clockS) : option (Instant * clockS) :=
  let (v, st) := nowS obs st in
  let at_ := validInstantAfter v (fst cur) in
  let at_ := fold_left (fun at_ r => validInstantAfter at_ (fst r)) outRels at_ in
  let at_ := fold_left (fun at_ r => validInstantAfter at_ (fst r)) inRels at_ in
  deleteInstantClearOfCloses obs at_ (snd cur :: map snd outRels ++ map snd inRels) st.

(** ** Stamps *)

(** The tombstone, and whether it clamped a close scheduled after the delete. *)
Definition stampDeleteTombstone (a : ValidAxis) (at_ : Instant) (retract : bool) (tm : TemporalMetadata) :
    TemporalMetadata * bool :=
  let tm := set_delete at_ retract (DeleteKeptValidTo tm) tm in
  let open := ValidAxis_Open a (ValidTo tm) in
  let clamped := negb open && (ValidTo tm >? at_) in
  let tm := if open || (ValidTo tm >? at_) then set_ValidTo at_ tm else tm in
  let tm := if TxFrom tm =? 0 then set_TxFrom at_ tm else tm in
  (set_TxTo at_ tm, clamped).

Record supersession := mkSuper { s_tx : Instant; s_from : Instant; s_axis : ValidAxis }.

Definition supersede (obs : nat -> Z) (a : ValidAxis) (start recorded : Instant) (st : clockS) :
    supersession * clockS :=
  let (v, st) := nowS obs st in
  let tx := validInstantAfter v recorded in
  (mkSuper tx (if tx <=? start then (start +i64 1)%tkg else 0) a, st).

Definition stampAppendedRow (now : Instant) (tm : TemporalMetadata) : TemporalMetadata :=
  mkTM (ValidFrom tm) (ValidTo tm) now 0 (CreatedAt tm) now 0 (CreatedBy tm) (UpdatedBy tm)
    (baseEntityID tm) (Retracted tm) false (DeleteKeptValidTo tm).

Definition supersession_stamp (s : supersession) (tm : TemporalMetadata) : TemporalMetadata :=
  let tm := stampAppendedRow (s_tx s) tm in
  if negb (ValidAxis_Claimed (s_axis s) (ValidFrom tm)) then set_ValidFrom (s_from s) tm else tm.

(** ** Closes *)

(** [true] where the code returns nil, [false] ErrInvalidTimeRange. *)
Definition checkCloseAfterStart (end_ start : Instant) : bool := negb (end_ <=? start).

Definition stampClose (start end_ : Instant) (tm : TemporalMetadata) : TemporalMetadata :=
  set_ValidTo end_ (set_ValidFrom start tm).

Record updateTemporal := mkUT {
  u_validFrom : Instant;
  u_validTo : Instant;
  u_txAt : Instant;
  u_validFromSet : bool;
  u_hasValidFrom : bool;
  u_hasValidTo : bool;
  u_present : bool;
}.

Definition closesVersion (a : ValidAxis) (u : updateTemporal) : bool :=
  u_hasValidTo u && negb (ValidAxis_Open a (u_validTo u)) && negb (u_validFromSet u).

Definition isClosedTemporal (a : ValidAxis) (tm : option TemporalMetadata) : bool :=
  match tm with Some tm => negb (ValidAxis_Open a (ValidTo tm)) | None => false end.

(** ** Caller instants (tx_order.go) *)

Inductive tx_error := ErrInvalidTxFrom | ErrTxBackfillDisabled | ErrTxOrder | ErrVersionOverflow.

Definition resolveBackfillTxFrom (allow : bool) (obs : nat -> Z) (txFrom : Instant) (st : clockS) :
    (Instant + tx_error) * clockS :=
  if txFrom =? 0 then (inl 0, st)
  else if txFrom <? 0 then (inr ErrInvalidTxFrom, st)
  else let (v, st) := nowS obs st in
       if txFrom >? v then (inr ErrInvalidTxFrom, st)
       else if negb allow then (inr ErrTxBackfillDisabled, st)
       else (inl txFrom, st).

Definition resolveCallerTxInstant (allow : bool) (obs : nat -> Z) (t : Instant) (st : clockS) :
    (Instant + tx_error) * clockS :=
  if t <=? 0 then (inr ErrInvalidTxFrom, st) else resolveBackfillTxFrom allow obs t st.

(** The largest of the start and the recorded stamps: what [t] must exceed. *)
Definition tx_bound_step (bound : Z) (tm : option TemporalMetadata) : Z :=
  match tm with
  | None => bound
  | Some tm =>
      let bound := if TxFrom tm >? bound then TxFrom tm else bound in
      if TxTo tm >? bound then TxTo tm else bound
  end.

Definition tx_bound (start : Instant) (chain : list (option TemporalMetadata)) : Instant :=
  fold_left tx_bound_step chain start.

Definition checkTxOrder (t start : Instant) (chain : list (option TemporalMetadata)) : option tx_error :=
  if t <=? tx_bound start chain then Some ErrTxOrder else None.

Definition checkCallerDeleteCloses (a : ValidAxis) (t : Instant) (tms : list (option TemporalMetadata)) :
    option tx_error :=
  if existsb (fun tm => match tm with
                        | Some m => negb (ValidAxis_Open a (ValidTo m)) && (ValidTo m >=? t)
                        | None => false
                        end) tms
  then Some ErrTxOrder else None.

(** The relationship and the node door of a caller-instant delete: [start] and
    [cur] are the current row's, [history] the older rows' metadata. *)
Definition checkRelCallerDelete (a : ValidAxis) (history : list (option TemporalMetadata)) (start : Instant)
    (cur : option TemporalMetadata) (t : Instant) : option tx_error :=
  match checkTxOrder t start (history ++ [cur]) with
  | Some e => Some e
  | None => checkCallerDeleteCloses a t [cur]
  end.

(** ** Versions (version_alloc.go, version_overflow.go) *)

Definition MaxUint32 : Z := 2 ^ 32 - 1.

Definition nextEntityVersion (current : Z) : Z + tx_error :=
  if current =? MaxUint32 then inr ErrVersionOverflow else inl (current + 1).

Record lifeStart := mkLS { ls_version : Z; ls_prevHash : bytes; ls_maxStamp : Instant }.

Section Versions.
Context {T : Type} `{EntityRow T}.

(** [nextNodeVersion]: [above] is [nodeHasHistoryAbove]'s exact answer. *)
Definition hasHistoryAbove (history : list T) (v : Z) : bool :=
  if v >=? MaxUint32 - 1 then false else existsb (fun h => Version h >=? v + 1) history.

Definition nextRowVersion (history : list T) (current : T) : Z + tx_error :=
  let top := Version current in
  let top := if hasHistoryAbove history top
             then fold_left (fun top h => Z.max top (Version h)) history top else top in
  nextEntityVersion top.

Definition lifeStartOf (hash : T -> bytes) (history : list T) : lifeStart + tx_error :=
  match history with
  | [] => inl (mkLS 0 [] 0)
  | h0 :: _ =>
      let top := fold_left (fun top h => if Version h >? Version top then h else top) history h0 in
      let maxStamp := fold_left (fun m h => match Temporal h with
                        | Some tm => Z.max (Z.max (Z.max m (TxFrom tm)) (TxTo tm)) (DeletedAt tm)
                        | None => m
                        end) history 0 in
      match nextEntityVersion (Version top) with
      | inl v => inl (mkLS v (hash top) maxStamp)
      | inr e => inr e
      end
  end.
End Versions.

Definition lifeStart_checkCallerTx (l : lifeStart) (t : Instant) : option tx_error :=
  if negb (t =? 0) && (t <=? ls_maxStamp l) then Some ErrTxOrder else None.

Definition lifeStart_txFrom (l : lifeStart) (now : Instant) : Instant := validInstantAfter now (ls_maxStamp l).

(** ** Lemmas *)

Lemma validInstantAfter_gt at_ start : start < MaxInt64 -> in_i64 start -> start < validInstantAfter at_ start.
Proof.
  unfold validInstantAfter, in_i64. intros Hs Hi. destruct (Z.leb_spec at_ start); [|done].
  rewrite i64_id; unfold in_i64, MinInt64, MaxInt64 in *; lia.
Qed.

Lemma tx_bound_ge start chain :
  start <= tx_bound start chain /\
  forall tm, Some tm ∈ chain -> TxFrom tm <= tx_bound start chain /\ TxTo tm <= tx_bound start chain.
Proof.
  revert start. unfold tx_bound. induction chain as [|o chain IH]; intros start; cbn [fold_left].
  { split; [lia|]. intros tm Hin. by apply not_elem_of_nil in Hin. }
  assert (start <= tx_bound_step start o /\
    (forall tm, o = Some tm -> TxFrom tm <= tx_bound_step start o /\ TxTo tm <= tx_bound_step start o)) as [Hs Ho].
  { unfold tx_bound_step. destruct o as [m|]; [|split; [lia|done]].
    split; [|intros tm [= <-]]; repeat case_match; lia. }
  destruct (IH (tx_bound_step start o)) as [H1 H2]. split; [lia|].
  intros tm Hin. apply elem_of_cons in Hin as [Heq|Hin]; [|by apply H2].
  destruct (Ho tm); [done|]. lia.
Qed.

(** A row that a delete may tombstone: live, never deleted, recorded. *)
Definition live_tm (tm : TemporalMetadata) : Prop :=
  TxTo tm = 0 /\ DeletedAt tm = 0 /\ Retracted tm = false /\ DeleteKeptValidTo tm = false /\ TxFrom tm <> 0.

(** The rewind of a tombstone restores the row exactly, a clamped close apart. *)
Lemma normalize_tombstone a at_ retract pin tm :
  live_tm tm -> pin < at_ -> 0 < at_ -> ValidTo tm <> at_ ->
  NormalizeTemporalVisibleAtTxTime a pin (fst (stampDeleteTombstone a at_ retract tm)) =
    if snd (stampDeleteTombstone a at_ retract tm) then set_ValidTo (openEnd a) tm else tm.
Proof.
  intros (H1 & H2 & H3 & H4 & H5) Hpin Hat Hv. destruct tm as [vf vt tf tt ca ua da cb ub be re vo dk].
  cbn in H1, H2, H3, H4, H5, Hv. subst tt da re dk.
  assert ((at_ >? pin) = true) as Ep by lia. assert ((at_ =? 0) = false) as E0 by lia.
  assert ((tf =? 0) = false) as Et by lia. assert ((vt =? at_) = false) as Ev by lia.
  unfold stampDeleteTombstone, NormalizeTemporalVisibleAtTxTime, DeleteWroteValidTo, ValidAxis_OpenEnd, ValidAxis_Open.
  cbn. destruct (vt =? openEnd a) eqn:Eo; cbn.
  - rewrite Et. cbn. rewrite Ep. cbn. rewrite Ep, E0, Z.eqb_refl. cbn.
    apply Z.eqb_eq in Eo. by subst vt.
  - destruct (vt >? at_) eqn:Eg; cbn; rewrite Et; cbn; rewrite Ep; cbn; rewrite Ep, E0; cbn.
    + by rewrite Z.eqb_refl.
    + by rewrite Ev.
Qed.

Lemma normalize_superseded a at_ pin tm :
  live_tm tm -> pin < at_ -> NormalizeTemporalVisibleAtTxTime a pin (set_TxTo at_ tm) = tm.
Proof.
  intros (H1 & H2 & H3 & H4 & H5) Hpin. destruct tm as [vf vt tf tt ca ua da cb ub be re vo dk].
  cbn in H1, H2, H3, H4. subst tt da re dk. unfold NormalizeTemporalVisibleAtTxTime. cbn.
  assert ((at_ >? pin) = true) as -> by lia. cbn. destruct (0 >? pin); reflexivity.
Qed.

(** *** The delete instant and the recorded closes *)

(** How many closes lie at or after an instant: what bounds the moves. *)
Definition closes_from (tms : list (option TemporalMetadata)) (at_ : Instant) : nat :=
  length (List.filter (fun o => match o with Some m => ValidTo m >=? at_ | None => false end) tms).

Lemma closes_from_le tms x y : x <= y -> (closes_from tms y <= closes_from tms x)%nat.
Proof.
  intros Hxy. unfold closes_from. induction tms as [|[m|] tms IH]; simpl; [lia| |done].
  destruct (Z.geb_spec (ValidTo m) y), (Z.geb_spec (ValidTo m) x); simpl; lia.
Qed.

Lemma closes_from_lt tms m y :
  Some m ∈ tms -> ValidTo m < y -> (closes_from tms y < closes_from tms (ValidTo m))%nat.
Proof.
  intros Hin Hy. unfold closes_from. induction tms as [|o tms IH]; [by apply not_elem_of_nil in Hin|].
  pose proof (closes_from_le tms (ValidTo m) y) as Hle. unfold closes_from in Hle.
  apply elem_of_cons in Hin as [<-|Hin]; simpl.
  - destruct (Z.geb_spec (ValidTo m) y); [lia|]. destruct (Z.geb_spec (ValidTo m) (ValidTo m)); simpl; lia.
  - specialize (IH Hin). destruct o as [m'|]; [|done].
    destruct (Z.geb_spec (ValidTo m') y), (Z.geb_spec (ValidTo m') (ValidTo m)); simpl; lia.
Qed.

Section ClearOfCloses.
Context (obs : nat -> Z) (all : list (option TemporalMetadata)) (M : Z).
(** [M] bounds the instants in play: what is left of it pays for the moves. *)
Hypothesis Hobs : forall k, MinInt64 <= obs k <= M.

Definition clear_inv (at_ : Instant) (st : clockS) : Prop :=
  MinInt64 <= at_ <= M - Z.of_nat (closes_from all at_) /\
  MinInt64 <= lastInstant (snd st) <= M - Z.of_nat (closes_from all at_).

Lemma clear_move at_ st m :
  M < MaxInt64 -> (forall k, obs k <= M - Z.of_nat (length all)) ->
  clear_inv at_ st -> Some m ∈ all -> ValidTo m = at_ ->
  let (v, st') := nowS obs st in
  clear_inv (Z.max (at_ +i64 1)%tkg v) st' /\ at_ < Z.max (at_ +i64 1)%tkg v.
Proof.
  intros HM Ho [Ha Hl] Hin Hv. unfold nowS, now.
  assert (closes_from all at_ <= length all)%nat by apply filter_length_le.
  pose proof (Hobs (fst st)) as Hob. specialize (Ho (fst st)).
  pose proof (closes_from_lt all m) as Hlt. rewrite Hv in Hlt.
  rewrite (i64_id (at_ + 1)) by (unfold in_i64; lia).
  unfold now_next, clear_inv. destruct (Z.leb_spec (obs (fst st)) (lastInstant (snd st))).
  - destruct (Z.eqb_spec (lastInstant (snd st)) MaxInt64); [lia|]. rewrite i64_id by (unfold in_i64; lia). simpl.
    specialize (Hlt (Z.max (at_ + 1) (lastInstant (snd st) + 1)) Hin). lia.
  - simpl. specialize (Hlt (Z.max (at_ + 1) (obs (fst st))) Hin).
    assert (closes_from all (Z.max (at_ + 1) (obs (fst st))) <= length all)%nat by apply filter_length_le. lia.
Qed.

Lemma clear_pass_spec tms at_ moved st :
  M < MaxInt64 -> (forall k, obs k <= M - Z.of_nat (length all)) ->
  clear_inv at_ st -> (forall o, o ∈ tms -> o ∈ all) ->
  let '(at', moved', st') := clear_pass obs tms at_ moved st in
  clear_inv at' st' /\ at_ <= at' /\
  (at_ = at' /\ moved' = moved /\ (forall m, Some m ∈ tms -> ValidTo m <> at_) \/
   moved' = true /\ (closes_from all at' < closes_from all at_)%nat).
Proof.
  intros HM Ho. revert at_ moved st. induction tms as [|[m|] tms IH]; intros at_ moved st Hi Hsub; simpl.
  - split_and!; [done|lia|]. left. split_and!; [done..|]. intros m Hm. by apply not_elem_of_nil in Hm.
  - assert (Some m ∈ all) as Hm by (apply Hsub; left).
    assert (forall o, o ∈ tms -> o ∈ all) as Hsub' by (intros; apply Hsub; by right).
    destruct (Z.eqb_spec (ValidTo m) at_) as [Hv|Hv].
    + pose proof (clear_move at_ st m HM Ho Hi Hm Hv) as Hmv.
      destruct (nowS obs st) as [v st']. destruct Hmv as [Hi' Hgt].
      specialize (IH _ true _ Hi' Hsub'). destruct (clear_pass obs tms _ true st') as [[at' mv] st''].
      destruct IH as (Hi'' & Hle & Hc). split_and!; [done|lia|]. right.
      pose proof (closes_from_lt all m at' Hm ltac:(lia)) as Hlt. rewrite Hv in Hlt.
      split; [|done]. destruct Hc as [(_ & -> & _)|[-> _]]; done.
    + specialize (IH at_ moved st Hi Hsub'). destruct (clear_pass obs tms at_ moved st) as [[at' mv] st'].
      destruct IH as (Hi' & Hle & Hc). split_and!; [done..|]. destruct Hc as [(-> & -> & Hc)|Hc]; [left|by right].
      split_and!; [done..|]. intros m' Hm'. apply elem_of_cons in Hm' as [[= ->]|Hm']; [done|by apply Hc].
  - assert (forall o, o ∈ tms -> o ∈ all) as Hsub' by (intros; apply Hsub; by right).
    specialize (IH at_ moved st Hi Hsub'). destruct (clear_pass obs tms at_ moved st) as [[at' mv] st'].
    destruct IH as (Hi' & Hle & Hc). split_and!; [done..|]. destruct Hc as [(-> & -> & Hc)|Hc]; [left|by right].
    split_and!; [done..|]. intros m' Hm'. apply elem_of_cons in Hm' as [?|Hm']; [done|by apply Hc].
Qed.

Lemma clear_loop_spec fuel at_ st :
  M < MaxInt64 -> (forall k, obs k <= M - Z.of_nat (length all)) ->
  clear_inv at_ st -> (closes_from all at_ < fuel)%nat ->
  exists at' st', clear_loop fuel obs all at_ st = Some (at', st') /\ at_ <= at' <= M /\
    forall m, Some m ∈ all -> ValidTo m <> at'.
Proof.
  intros HM Ho. revert at_ st. induction fuel as [|fuel IH]; intros at_ st Hi Hf; [lia|]. simpl.
  assert (at_ <= M) by (unfold clear_inv in Hi; lia). destruct (Z.ltb_spec at_ MaxInt64); [|lia].
  pose proof (clear_pass_spec all at_ false st HM Ho Hi) as Hp.
  destruct (clear_pass obs all at_ false st) as [[at' mv] st']. destruct Hp as (Hi' & Hle & Hc); [done|].
  destruct Hc as [(<- & -> & Hc)|[-> Hc]].
  - exists at_, st'. split_and!; [done|lia..|done].
  - destruct (IH at' st' Hi') as (at'' & st'' & -> & Hb & Hm); [lia|].
    exists at'', st''. split_and!; [done|lia..|done].
Qed.
End ClearOfCloses.

(** ** Properties of the stamps *)

(** The delete instant ends up clear of every recorded close: the loop
    terminates within its fuel, never moves the instant back, and the result
    is no row's ValidTo, so a tombstone's own ValidTo is told from a close. *)
Theorem delete_instant_clear obs at_ tms st M :
  (forall k, MinInt64 <= obs k <= M) -> M + Z.of_nat (length tms) < MaxInt64 ->
  MinInt64 <= at_ <= M -> MinInt64 <= lastInstant (snd st) <= M ->
  exists at' st', deleteInstantClearOfCloses obs at_ tms st = Some (at', st') /\ at_ <= at' /\
    forall tm, Some tm ∈ tms -> ValidTo tm <> at'.
Proof.
  intros Ho HM Ha Hl. unfold deleteInstantClearOfCloses.
  assert (closes_from tms at_ <= length tms)%nat by apply filter_length_le.
  destruct (clear_loop_spec obs tms (M + Z.of_nat (length tms))) with (fuel := S (length tms)) (at_ := at_) (st := st)
    as (at' & st' & -> & Hle & Hm).
  - intros k. specialize (Ho k). lia.
  - done.
  - intros k. specialize (Ho k). lia.
  - split; lia.
  - lia.
  - exists at', st'. split_and!; [done|lia|done].
Qed.

Lemma delete_instant_clear_witness :
  exists at' st', deleteInstantClearOfCloses (fun _ => 5) 7 [Some (set_ValidTo 7 zeroTM); Some (set_ValidTo 8 zeroTM)]
      (0%nat, mkClock 6 false) = Some (at', st') /\ 7 <= at' /\
    forall tm, Some tm ∈ [Some (set_ValidTo 7 zeroTM); Some (set_ValidTo 8 zeroTM)] -> ValidTo tm <> at'.
Proof.
  apply (delete_instant_clear (fun _ => 5) 7 _ (0%nat, mkClock 6 false) 10);
    vm_compute; try intros; try split; try reflexivity; discriminate.
Defined.

(** A caller-instant delete that the order and close checks accept never
    changes what an earlier pin reads: the instant lies after the start and every
    recorded stamp, and rewinding the tombstone to any pin before it gives the
    row back exactly. *)
Theorem caller_delete_keeps_pins a history start tm t retract pin :
  axis_ok a -> checkRelCallerDelete a history start (Some tm) t = None -> live_tm tm ->
  0 < t < MaxInt64 -> pin < t ->
  start < t /\ (forall m, Some m ∈ history -> TxFrom m < t /\ TxTo m < t) /\ TxFrom tm < t /\
  NormalizeTemporalVisibleAtTxTime a pin (fst (stampDeleteTombstone a t retract tm)) = tm.
Proof.
  unfold checkRelCallerDelete, checkTxOrder, checkCallerDeleteCloses. intros Hax Hchk Hl [Ht Hmax] Hp.
  destruct (tx_bound_ge start (history ++ [Some tm])) as [Hs Hb].
  destruct (Z.leb_spec t (tx_bound start (history ++ [Some tm]))); [done|].
  destruct (existsb _ [Some tm]) eqn:Ee; [done|]. cbn in Ee. rewrite orb_false_r in Ee.
  assert (Some tm ∈ history ++ [Some tm]) as Hin by (apply elem_of_app; right; left).
  split_and!; [lia| |destruct (Hb tm Hin); lia|].
  - intros m Hm. destruct (Hb m); [by apply elem_of_app; left|]. lia.
  - rewrite normalize_tombstone; [|done..|].
    + unfold stampDeleteTombstone. cbn.
      destruct (ValidAxis_Open a (ValidTo tm)) eqn:Eo; cbn; [done|]. cbn in Ee.
      destruct (Z.gtb_spec (ValidTo tm) t); [lia|done].
    + intros Hv. unfold ValidAxis_Open in Ee.
      destruct (Z.eqb_spec (ValidTo tm) (openEnd a)) as [Eo|]; cbn in Ee; [|lia].
      destruct Hax as [-> | ->]; cbn in Eo; unfold InfiniteValidTo in Eo; lia.
Qed.

Lemma caller_delete_keeps_pins_witness :
  let tm := set_TxFrom 10 zeroTM in
  1 < 20 /\ (forall m, Some m ∈ [Some (set_TxTo 10 (set_TxFrom 4 zeroTM))] -> TxFrom m < 20 /\ TxTo m < 20) /\
  TxFrom tm < 20 /\
  NormalizeTemporalVisibleAtTxTime LegacyValidAxis 15 (fst (stampDeleteTombstone LegacyValidAxis 20 true tm)) = tm.
Proof.
  apply (caller_delete_keeps_pins LegacyValidAxis [Some (set_TxTo 10 (set_TxFrom 4 zeroTM))] 1
           (set_TxFrom 10 zeroTM) 20 true 15); try reflexivity.
  - by left.
  - repeat split. vm_compute. discriminate.
  - vm_compute. by split.
Defined.

(** A plain superseding write on the legacy axis: the new row is recorded
    after the row it replaces and starts after that row's start, whether the
    clock or the start had to give. *)
Theorem supersede_after obs start recorded st tm mint :
  in_i64 (obs (fst st)) -> in_i64 (lastInstant (snd st)) -> 0 < lastInstant (snd st) ->
  MinInt64 <= start < MaxInt64 -> MinInt64 <= recorded < MaxInt64 -> ValidFrom tm = 0 ->
  let '(s, _) := supersede obs LegacyValidAxis start recorded st in
  let tm' := supersession_stamp s tm in
  recorded < TxFrom tm' /\ TxTo tm' = 0 /\ DeletedAt tm' = 0 /\ Void tm' = false /\
  start < EffectiveValidFrom (Some tm') mint.
Proof.
  intros Ho Hl Hpos Hs Hr Hvf. unfold supersede, nowS.
  assert (0 < fst (now (obs (fst st)) (snd st))) as Hv.
  { unfold now. destruct (now_next _ _) eqn:E; simpl; [apply now_next_spec in E; [lia|done..]|unfold MaxInt64; lia]. }
  destruct (now (obs (fst st)) (snd st)) as [v c]. simpl in Hv.
  pose proof (validInstantAfter_gt v recorded) as Htx. unfold in_i64 in Htx.
  assert (0 < validInstantAfter v recorded) as Hp.
  { unfold validInstantAfter in *. destruct (Z.leb_spec v recorded); [|done].
    rewrite i64_id; unfold in_i64; lia. }
  unfold supersession_stamp, EffectiveValidFrom, ValidAxis_Start, ValidAxis_Claimed. cbn. rewrite Hvf. cbn.
  split_and!; [lia|done..|]. destruct (Z.leb_spec (validInstantAfter v recorded) start).
  - rewrite i64_id by (unfold in_i64; lia). cbn. destruct (Z.eqb_spec (start + 1) 0); cbn; [lia|lia].
  - cbn. destruct (Z.eqb_spec (validInstantAfter v recorded) 0); cbn; lia.
Qed.

Lemma supersede_after_witness :
  let '(s, _) := supersede (fun _ => 50) LegacyValidAxis 70 20 (0%nat, mkClock 40 false) in
  let tm' := supersession_stamp s zeroTM in
  20 < TxFrom tm' /\ TxTo tm' = 0 /\ DeletedAt tm' = 0 /\ Void tm' = false /\
  70 < EffectiveValidFrom (Some tm') 0.
Proof.
  apply (supersede_after (fun _ => 50) 70 20 (0%nat, mkClock 40 false) zeroTM 0);
    vm_compute; try split; try reflexivity; discriminate.
Defined.

(** *** Versions *)

Section VersionLemmas.
Context {T : Type} `{EntityRow T}.

Lemma fold_max_version (history : list T) top :
  let m := fold_left (fun top h => Z.max top (Version h)) history top in
  top <= m /\ (forall h, h ∈ history -> Version h <= m) /\ (m = top \/ exists h, h ∈ history /\ m = Version h).
Proof.
  revert top. induction history as [|h history IH]; intros top; cbn [fold_left]; cbv zeta.
  { split_and!; [lia| |by left]. intros h Hh. by apply not_elem_of_nil in Hh. }
  destruct (IH (Z.max top (Version h))) as (H1 & H2 & H3). split_and!; [lia| |].
  - intros x Hx. apply elem_of_cons in Hx as [->|Hx]; [lia|by apply H2].
  - destruct H3 as [->|(x & Hx & ->)]; [|right; exists x; split; [by right|done]].
    destruct (Z.max_spec top (Version h)) as [[_ ->]|[_ ->]]; [right; exists h; split; [left|done]|by left].
Qed.

Lemma fold_top_version (history : list T) top :
  let m := fold_left (fun top h => if Version h >? Version top then h else top) history top in
  Version top <= Version m /\ (forall h, h ∈ history -> Version h <= Version m) /\ (m = top \/ m ∈ history).
Proof.
  revert top. induction history as [|h history IH]; intros top; cbn [fold_left]; cbv zeta.
  { split_and!; [lia| |by left]. intros h Hh. by apply not_elem_of_nil in Hh. }
  destruct (IH (if Version h >? Version top then h else top)) as (H1 & H2 & H3).
  destruct (Z.gtb_spec (Version h) (Version top)); (split_and!; [lia| |]).
  1, 3: intros x Hx; apply elem_of_cons in Hx as [->|Hx]; [lia|by apply H2].
  - destruct H3 as [->|Hx]; [right; left|right; by right].
  - destruct H3 as [->|Hx]; [by left|right; by right].
Qed.

Definition stamp_max (m : Z) (h : T) : Z :=
  match Temporal h with
  | Some tm => Z.max (Z.max (Z.max m (TxFrom tm)) (TxTo tm)) (DeletedAt tm)
  | None => m
  end.

Lemma fold_stamp_max (history : list T) m0 :
  m0 <= fold_left stamp_max history m0 /\
  forall h tm, h ∈ history -> Temporal h = Some tm ->
    Z.max (Z.max (TxFrom tm) (TxTo tm)) (DeletedAt tm) <= fold_left stamp_max history m0.
Proof.
  revert m0. induction history as [|h history IH]; intros m0; cbn [fold_left].
  { split; [lia|]. intros h tm Hh. by apply not_elem_of_nil in Hh. }
  destruct (IH (stamp_max m0 h)) as [H1 H2].
  assert (m0 <= stamp_max m0 h) by (unfold stamp_max; case_match; lia). split; [lia|].
  intros x tm Hx Htm. apply elem_of_cons in Hx as [->|Hx]; [|by apply (H2 x)].
  unfold stamp_max in H1. rewrite Htm in H1. unfold stamp_max. rewrite Htm. lia.
Qed.

(** A re-import of a deleted ID continues its chain: its version exceeds every
    recorded version, and both the plain door's stamp and any caller instant the
    order check accepts exceed every recorded stamp. *)
Theorem reimport_continues_chain hash (history : list T) ls now t :
  history <> [] -> lifeStartOf hash history = inl ls -> in_i64 (ls_maxStamp ls) -> ls_maxStamp ls < MaxInt64 ->
  t <> 0 -> lifeStart_checkCallerTx ls t = None ->
  (forall h, h ∈ history -> Version h < ls_version ls) /\
  forall h tm, h ∈ history -> Temporal h = Some tm ->
    let m := Z.max (Z.max (TxFrom tm) (TxTo tm)) (DeletedAt tm) in m < lifeStart_txFrom ls now /\ m < t.
Proof.
  intros Hne Hls Hi Hmax Ht Hc. unfold lifeStart_checkCallerTx in Hc. unfold lifeStartOf in Hls.
  destruct history as [|h0 hs] eqn:Eh; [done|]. rewrite <- Eh in *. clear Hne. cbv zeta in Hls.
  set (top := fold_left _ history h0) in Hls. unfold nextEntityVersion in Hls.
  destruct (Z.eqb_spec (Version top) MaxUint32); [done|]. injection Hls as <-. cbn in *.
  destruct (fold_top_version history h0) as (_ & Hv & _).
  change (fun m h => match Temporal h with Some tm => _ | None => m end) with stamp_max in *.
  destruct (fold_stamp_max history 0) as [_ Hs]. split.
  - intros h Hh. specialize (Hv h Hh). fold top in Hv. lia.
  - intros h tm Hh Htm. specialize (Hs h tm Hh Htm). unfold lifeStart_txFrom. cbn.
    pose proof (validInstantAfter_gt now _ Hmax Hi) as Hgt.
    destruct (Z.eqb_spec t 0); [done|]. cbn in Hc.
    destruct (Z.leb_spec t (fold_left stamp_max history 0)); [done|]. split; lia.
Qed.

(** The version of the next appended row exceeds every version of the chain,
    or the version counter is exhausted. *)
Theorem next_version_fresh (history : list T) current :
  0 <= Version current < MaxUint32 - 1 ->
  match nextRowVersion history current with
  | inl v => Version current < v /\ (forall h, h ∈ history -> Version h < v) /\
             (exists r, r ∈ current :: history /\ v = Version r + 1)
  | inr e => e = ErrVersionOverflow /\ exists h, h ∈ history /\ Version h = MaxUint32
  end.
Proof.
  intros Hc. unfold nextRowVersion, hasHistoryAbove, nextEntityVersion.
  destruct (Z.geb_spec (Version current) (MaxUint32 - 1)); [lia|].
  destruct (existsb _ history) eqn:Ee.
  - destruct (fold_max_version history (Version current)) as (H1 & H2 & H3).
    destruct (Z.eqb_spec (fold_left (fun top h => Z.max top (Version h)) history (Version current)) MaxUint32) as [E|].
    + split; [done|]. destruct H3 as [H3|(h & Hh & H3)]; [unfold MaxUint32 in *; lia|]. exists h. split; [done|lia].
    + split_and!; [lia| |].
      * intros h Hh. specialize (H2 h Hh). lia.
      * destruct H3 as [H3|(h & Hh & H3)]; [exists current; split; [left|lia]|exists h; split; [by right|lia]].
  - destruct (Z.eqb_spec (Version current) MaxUint32); [lia|]. split_and!; [lia| |exists current; split; [left|done]].
    intros h Hh. assert (Version h >=? Version current + 1 = false) as Hf; [|lia].
    destruct (Version h >=? Version current + 1) eqn:Ex; [|done].
    rewrite <- Ee. symmetry. apply existsb_exists. exists h. by rewrite <- list_elem_of_In.
Qed.
End VersionLemmas.

#[local] Existing Instance demo_layout.

Lemma reimport_continues_chain_witness :
  let h := [demo_row 1 0 (demo_tm 0 0 5 8 0); demo_row 2 1 (demo_tm 0 20 8 20 20)] in
  let ls := mkLS 2 [] 20 in
  (forall r, r ∈ h -> Version r < ls_version ls) /\
  forall r tm, r ∈ h -> Temporal r = Some tm ->
    let m := Z.max (Z.max (TxFrom tm) (TxTo tm)) (DeletedAt tm) in m < lifeStart_txFrom ls 15 /\ m < 30.
Proof.
  intros h ls. apply (reimport_continues_chain (fun _ => []) h ls 15 30); try reflexivity.
  - discriminate.
  - vm_compute. split; discriminate.
  - lia.
Defined.

Lemma next_version_fresh_witness :
  let cur := demo_row 1 0 (demo_tm 0 0 5 0 0) in
  let h := [demo_row 2 1 (demo_tm 3 4 8 0 0); demo_row 3 2 (demo_tm 3 4 9 0 0)] in
  match nextRowVersion h cur with
  | inl v => Version cur < v /\ (forall r, r ∈ h -> Version r < v) /\
             (exists r, r ∈ cur :: h /\ v = Version r + 1)
  | inr e => e = ErrVersionOverflow /\ exists r, r ∈ h /\ Version r = MaxUint32
  end.
Proof. intros cur h. apply (next_version_fresh h cur). vm_compute. split; [discriminate|reflexivity]. Defined.

(** The one gap of the allocator: at the last version but one the exact check
    above the current row is skipped, so a correction row that already holds the
    last version is not seen and its version is handed out again. *)
Theorem next_version_at_limit :
  nextRowVersion [demo_row 2 MaxUint32 (demo_tm 3 4 8 0 0)] (demo_row 1 (MaxUint32 - 1) (demo_tm 0 0 5 0 0)) =
    inl MaxUint32.
Proof. reflexivity. Qed.

(** ** As-of answers and later writes *)

Section AsOfStable.
Context {T : Type} `{EntityRow T} (a : ValidAxis) (pin at_ : Instant).

(** What a write recorded at [at_] leaves of the row that held the current
    slot: superseded, or turned into a tombstone that clamps no close. *)
Definition ended_at (tm tm' : TemporalMetadata) : Prop :=
  tm' = set_TxTo at_ tm \/
  exists retract, stampDeleteTombstone a at_ retract tm = (tm', false) /\ ValidTo tm <> at_.

(** Row [c] holds the current slot above history [h]: every older row lies
    below its version, no older row of the same write is open at the pin, and
    every delete on record precedes it. *)
Record holds_slot (h : list T) (c : T) (tm : TemporalMetadata) : Prop := {
  slot_tm : TemporalByValue c = Some tm;
  slot_live : live_tm tm;
  slot_recorded : 0 < TxFrom tm <= pin;
  slot_state : Void tm = false;
  slot_above : forall r, r ∈ h -> Version r < Version c;
  slot_last : forall r m, r ∈ h -> TemporalByValue r = Some m -> TxFrom m = TxFrom tm ->
                OwnOpenAtTxTime a (Some m) pin = false;
  slot_deaths : forall r m, r ∈ h -> TemporalByValue r = Some m -> DeletedAt m <= TxFrom tm;
}.

(** The same for any delete: [clamped] tells whether it clamped a close scheduled
    after it. *)
Definition ended_with (clamped : bool) (tm tm' : TemporalMetadata) : Prop :=
  (clamped = false /\ tm' = set_TxTo at_ tm) \/
  exists retract, stampDeleteTombstone a at_ retract tm = (tm', clamped) /\ ValidTo tm <> at_.

(** What the rewind to the pin makes of the ended row: the metadata it had, with
    the close opened where the delete clamped it. *)
Definition rewound (clamped : bool) (tm : TemporalMetadata) : TemporalMetadata :=
  if clamped then set_ValidTo (openEnd a) tm else tm.

Lemma ended_with_facts clamped tm tm' :
  live_tm tm -> pin < at_ -> 0 < at_ -> ended_with clamped tm tm' ->
  TxFrom tm' = TxFrom tm /\ Void tm' = Void tm /\ retractedAtTxTime (Some tm') pin = false /\
  NormalizeTemporalVisibleAtTxTime a pin tm' = rewound clamped tm.
Proof.
  intros Hl Hp Ha He. pose proof Hl as (H1 & H2 & H3 & H4 & H5).
  assert ((at_ <=? pin) = false) as Ep by lia.
  destruct He as [[-> ->]|(retract & Hs & Hv)].
  - split_and!; [done..| |by apply normalize_superseded]. cbn. rewrite H2, Ep. cbn. by rewrite andb_false_r.
  - pose proof (normalize_tombstone a at_ retract pin tm Hl Hp Ha Hv) as Hn. rewrite Hs in Hn. cbn in Hn.
    assert (TxFrom tm' = TxFrom tm /\ Void tm' = Void tm /\ TxTo tm' = at_ /\ DeletedAt tm' = at_) as (Hf & Hvd & Ht & Hd).
    { unfold stampDeleteTombstone in Hs. injection Hs as <- _. cbn.
      destruct (_ || _); cbn; destruct (Z.eqb_spec (TxFrom tm) 0); done. }
    split_and!; [done..| |done]. unfold retractedAtTxTime. by rewrite Ht, Hd, Ep, andb_false_r.
Qed.

Lemma ended_at_facts tm tm' :
  live_tm tm -> pin < at_ -> 0 < at_ -> ended_at tm tm' ->
  TxFrom tm' = TxFrom tm /\ Void tm' = Void tm /\ retractedAtTxTime (Some tm') pin = false /\
  NormalizeTemporalVisibleAtTxTime a pin tm' = tm.
Proof.
  intros Hl Hp Ha He. apply (ended_with_facts false); [done..|].
  destruct He as [->|He]; [by left|by right].
Qed.

Lemma open_run_none (seq : list T) tx :
  (forall r m, r ∈ seq -> TemporalByValue r = Some m -> TxFrom m = tx -> OwnOpenAtTxTime a (Some m) pin = false) ->
  open_run a tx pin seq = None.
Proof.
  intros Hs. destruct (open_run a tx pin seq) as [r|] eqn:E; [|done].
  apply open_run_spec in E as (Hin & m & Hm & Ht & Ho). rewrite (Hs r m Hin Hm Ht) in Ho. done.
Qed.

Lemma openInWrite_first (seq : list T) c m :
  TemporalByValue c = Some m ->
  (forall r m', r ∈ seq -> TemporalByValue r = Some m' -> TxFrom m' = TxFrom m ->
     OwnOpenAtTxTime a (Some m') pin = false) ->
  openInWrite a c seq pin = c.
Proof.
  intros Hm Hs. unfold openInWrite. rewrite Hm. cbn [open_run]. rewrite Hm, Z.eqb_refl. cbn [negb].
  destruct (OwnOpenAtTxTime a (Some m) pin); [done|]. by rewrite open_run_none.
Qed.

Lemma lifeEnded_below_none (below : list T) newest :
  (forall r m, r ∈ below -> TemporalByValue r = Some m -> DeletedAt m <= newest) ->
  lifeEnded_below newest pin below = false.
Proof.
  induction below as [|r below IH]; intros Hd; cbn; [done|].
  assert (lifeEnded_below newest pin below = false) as Hr by (apply IH; intros; eapply Hd; [by right|done]).
  destruct (TemporalByValue r) as [m|] eqn:E; [|done].
  specialize (Hd r m ltac:(left) E). destruct (_ || _); [done|].
  destruct (Z.gtb_spec (DeletedAt m) newest); [lia|]. by rewrite andb_false_r.
Qed.

Lemma asof_desc_split (h : list T) c later :
  IsVoid (TemporalByValue c) = false ->
  (forall r, r ∈ h -> Version r < Version c) -> (forall r, r ∈ later -> Version c < Version r) ->
  asof_desc (h ++ c :: later) = asof_desc later ++ c :: asof_desc h.
Proof.
  intros Hc Hh Hl. unfold asof_desc. rewrite List.filter_app. cbn [List.filter]. rewrite Hc. cbn [negb].
  assert (forall r l, r ∈ List.filter (fun h : T => negb (IsVoid (TemporalByValue h))) l -> r ∈ l) as Hf.
  { intros r l. rewrite !list_elem_of_In, filter_In. tauto. }
  set (F := List.filter _) in *. change (c :: F later) with ([c] ++ F later).
  rewrite sort_by_app; [rewrite sort_by_app|].
  - cbn. by rewrite <- app_assoc.
  - intros x y Hx Hy%Hf. apply list_elem_of_singleton in Hx as ->. specialize (Hl y Hy). lia.
  - intros x y Hx%Hf Hy. specialize (Hh x Hx).
    apply elem_of_cons in Hy as [->|Hy%Hf]; [lia|]. specialize (Hl y Hy). lia.
Qed.

(** C3: the as-of answer at a pin never depends on later writes.  [holds_slot]: the
    row was recorded by the pin and holds the current slot above the history (no
    history row has its version or a higher one, none of the same write is open at
    the pin, and every recorded delete lies at or before its recording).  It
    answers while it is current; after a later write superseded or deleted it
    (moving it to history), with any number of rows recorded after the pin above
    it, the same row answers, and rewound to the pin it carries exactly its old
    metadata, where the delete clamped a close scheduled after it with that close
    opened.  A delete stamped at the very instant of the row's own close is
    excepted: the delete doors move their instant off it. *)
Theorem asof_pin_stable h c tm c' tm' clamped later n :
  holds_slot h c tm -> pin < at_ ->
  Version c' = Version c -> TemporalByValue c' = Some tm' -> ended_with clamped tm tm' ->
  (forall r, r ∈ later -> Version c < Version r /\ exists m, TemporalByValue r = Some m /\ pin < TxFrom m) ->
  (forall r, n = Some r -> exists m, TemporalByValue r = Some m /\ pin < TxFrom m) ->
  SelectAsOfWithCurrent a h (Some c) pin = Some c /\
  SelectAsOfWithCurrent a (h ++ c' :: later) n pin = Some c' /\
  NormalizeTemporalVisibleAtTxTime a pin tm' = rewound clamped tm.
Proof.
  intros [Ht Hlive Hrec Hvoid Habove Hlast Hdeaths] Hp Hv Ht' He Hlater Hn.
  destruct (ended_with_facts clamped tm tm' Hlive Hp ltac:(lia) He) as (Htx & Hvo & Hret & Hnorm). split_and!; [| |done].
  - unfold SelectAsOfWithCurrent. rewrite Ht. destruct Hlive as (-> & _).
    destruct (Z.gtb_spec (TxFrom tm) 0); [|lia]. destruct (Z.leb_spec (TxFrom tm) pin); [|lia]. cbn [andb Z.eqb].
    rewrite Lfilter_none; [done|]. intros r [Hr _]%elem_of_asof_desc. specialize (Habove r Hr). lia.
  - assert (SelectAsOfWithCurrent a (h ++ c' :: later) n pin = asof_history a pin (asof_desc (h ++ c' :: later))) as ->.
    { unfold SelectAsOfWithCurrent. destruct n as [r|]; [|done]. destruct (Hn r eq_refl) as (m & -> & Hm).
      destruct (Z.leb_spec (TxFrom m) pin); [lia|]. by rewrite andb_false_r. }
    rewrite asof_desc_split; [|by rewrite Ht'; cbn; rewrite Hvo|intros r Hr; rewrite Hv; auto|
      intros r Hr; rewrite Hv; by apply Hlater].
    rewrite asof_history_skip.
    + cbn [asof_history]. rewrite Ht', Htx.
      destruct (Z.eqb_spec (TxFrom tm) 0); [lia|]. destruct (Z.gtb_spec (TxFrom tm) pin); [lia|]. cbn [orb].
      rewrite (openInWrite_first _ c' tm'); [|done|].
      * unfold rowRetractedAtTxTime, lifeEndedAtTxTime. rewrite Ht', Hret. cbn [orb].
        rewrite lifeEnded_below_none; [done|].
        intros r m [Hr _]%elem_of_asof_desc Hm. rewrite Htx. by eapply Hdeaths.
      * intros r m [Hr _]%elem_of_asof_desc Hm. rewrite Htx. by eapply Hlast.
    + apply Forall_forall. intros r [Hr _]%elem_of_asof_desc. destruct (Hlater r Hr) as (_ & m & Hm & ?).
      exists m. split; [done|lia].
Qed.
End AsOfStable.

(** Deleted at 30: an open row, and one whose close the delete clamps. *)
Lemma asof_pin_stable_witness :
  let a := LegacyValidAxis in
  let h := [demo_row 1 0 (demo_tm 0 0 5 10 0)] in
  let later := [demo_row 4 2 (demo_tm 0 0 40 0 0)] in
  let deleted tm := fst (stampDeleteTombstone a 30 false tm) in
  let stable tm clamped :=
    SelectAsOfWithCurrent a h (Some (demo_row 2 1 tm)) 20 = Some (demo_row 2 1 tm) /\
    SelectAsOfWithCurrent a (h ++ demo_row 3 1 (deleted tm) :: later) None 20 = Some (demo_row 3 1 (deleted tm)) /\
    NormalizeTemporalVisibleAtTxTime a 20 (deleted tm) = rewound a clamped tm in
  stable (demo_tm 0 0 10 0 0) false /\ stable (demo_tm 0 90 10 0 0) true.
Proof.
  intros a h later deleted stable. split; apply (asof_pin_stable a 20 30 h _ _ (demo_row 3 1 _) _ _ later None);
    try reflexivity; try lia; try (intros r [=]);
    try (split; try reflexivity; try (vm_compute; by split);
      try (intros r Hr; apply list_elem_of_singleton in Hr as ->; reflexivity);
      (intros r m Hr; apply list_elem_of_singleton in Hr as ->; cbn; intros [= <-]; cbn; done));
    try (right; by exists false);
    (intros r Hr; apply list_elem_of_singleton in Hr as ->; split; [cbn; lia|]; eexists; split; [reflexivity|]; cbn; lia).
Defined.
