(* ===== verification/Heap.v ===== *)
(** * The max-heap of intervals (core/effective_timeline.go, effHeap)

    [effHeap] is a slice kept as a binary heap by priority.  [push] and [pop]
    keep the heap order and the elements, so the first element is always one of
    highest priority. *)

From S2P Require Import Prelude.

(** [effInterval]: one row's covering interval [s, e), its position in the
    resolver-ordered chain, and its selection priority. *)
Record effInterval := mkIv {
  iv_s : Z;
  iv_e : Z;
  iv_pos : nat;
  iv_prio : Z;
}.

Notation effHeap := (list effInterval).

Definition iv0 : effInterval := mkIv 0 0 0 0.

Definition prio_at (h : effHeap) (i : nat) : Z := iv_prio (nth i h iv0).

(** [a[p], a[i] = a[i], a[p]] *)
Definition swap (h : effHeap) (p i : nat) : effHeap := <[p := nth i h iv0]> (<[i := nth p h iv0]> h).

(** The loop of [push]; the index halves every round. *)
Fixpoint sift_up (fuel i : nat) (h : effHeap) : effHeap :=
  match fuel with
  | O => h
  | S fuel' =>
      if (0 <? i)%nat then
        let p := ((i - 1) / 2)%nat in
        if prio_at h p >=? prio_at h i then h else sift_up fuel' p (swap h p i)
      else h
  end.

Definition effHeap_push (h : effHeap) (iv : effInterval) : effHeap :=
  let h := h ++ [iv] in sift_up (length h) (length h - 1) h.

(** The loop of [pop]; the index at least doubles every round. *)
Fixpoint sift_down (fuel i : nat) (h : effHeap) : effHeap :=
  match fuel with
  | O => h
  | S fuel' =>
      let n := length h in
      let l := (2 * i + 1)%nat in let r := (2 * i + 2)%nat in
      let m := if (l <? n)%nat && (prio_at h l >? prio_at h i) then l else i in
      let m := if (r <? n)%nat && (prio_at h r >? prio_at h m) then r else m in
      if (m =? i)%nat then h else sift_down fuel' m (swap h i m)
  end.

Definition effHeap_pop (h : effHeap) : effHeap :=
  let n := (length h - 1)%nat in
  let h := take n (<[0%nat := nth n h iv0]> h) in
  sift_down (length h) 0 h.

(** ** Heap order *)

Definition parent (i : nat) : nat := ((i - 1) / 2)%nat.

Definition heap_ok (h : effHeap) : Prop :=
  forall j, (0 < j < length h)%nat -> prio_at h j <= prio_at h (parent j).

Lemma parent_lt i : (0 < i)%nat -> (parent i < i)%nat.
Proof. unfold parent. intros. pose proof (Nat.div_lt_upper_bound (i - 1) 2 i). lia. Qed.

Lemma parent_child i j : (0 < j)%nat -> parent j = i -> (j = 2 * i + 1 \/ j = 2 * i + 2)%nat.
Proof.
  unfold parent. intros Hj <-. pose proof (Nat.div_mod_eq (j - 1) 2). pose proof (Nat.mod_upper_bound (j - 1) 2). lia.
Qed.

Lemma parent_of_child i : parent (2 * i + 1) = i /\ parent (2 * i + 2) = i.
Proof.
  unfold parent. split.
  - replace (2 * i + 1 - 1)%nat with (i * 2)%nat by lia. apply Nat.div_mul. lia.
  - replace (2 * i + 2 - 1)%nat with (1 + i * 2)%nat by lia. by rewrite Nat.div_add by lia.
Qed.

Lemma length_swap h p i : length (swap h p i) = length h.
Proof. unfold swap. by rewrite !length_insert. Qed.

Lemma swap_perm h p i : (p < length h)%nat -> (i < length h)%nat -> swap h p i ≡ₚ h.
Proof.
  intros Hp Hi. unfold swap.
  destruct (nth_lookup_or_length h i iv0) as [E|]; [|lia].
  destruct (nth_lookup_or_length h p iv0) as [E'|]; [|lia].
  by apply Permutation_insert_swap.
Qed.

Lemma prio_swap h p i j :
  (p < length h)%nat -> (i < length h)%nat ->
  prio_at (swap h p i) j = if decide (j = p) then prio_at h i else if decide (j = i) then prio_at h p else prio_at h j.
Proof.
  intros Hp Hi. unfold prio_at, swap. rewrite !nth_lookup. f_equal.
  destruct (decide (j = p)) as [->|].
  - by rewrite list_lookup_insert_eq by (by rewrite length_insert).
  - rewrite list_lookup_insert_ne by done. destruct (decide (j = i)) as [->|].
    + by rewrite list_lookup_insert_eq.
    + by rewrite list_lookup_insert_ne.
Qed.

Lemma prio_swap_same h p i j :
  j <> p -> j <> i -> (p < length h)%nat -> (i < length h)%nat -> prio_at (swap h p i) j = prio_at h j.
Proof. intros. rewrite prio_swap by done. by repeat case_decide. Qed.

(** Every edge in order but the one above [i], whose children lie below its
    parent. *)
Definition up_ok (i : nat) (h : effHeap) : Prop :=
  (forall j, (0 < j < length h)%nat -> j <> i -> prio_at h j <= prio_at h (parent j)) /\
  (forall j, (0 < j < length h)%nat -> (0 < i)%nat -> parent j = i -> prio_at h j <= prio_at h (parent i)).

Lemma sift_up_ok fuel i h :
  (i < fuel)%nat -> (i < length h)%nat -> up_ok i h -> heap_ok (sift_up fuel i h) /\ sift_up fuel i h ≡ₚ h.
Proof.
  revert i h. induction fuel as [|fuel IH]; intros i h Hf Hi [H1 H2]; [lia|]. cbn [sift_up].
  destruct (Nat.ltb_spec 0 i) as [Hpos|]; [|split; [|done]; intros j Hj; apply H1; lia].
  change ((i - 1) / 2)%nat with (parent i). cbv zeta. pose proof (parent_lt i Hpos) as Hlt.
  destruct (Z.geb_spec (prio_at h (parent i)) (prio_at h i)) as [Hge|Hlow].
  - split; [|done]. intros j Hj. destruct (decide (j = i)) as [->|]; [done|by apply H1].
  - destruct (IH (parent i) (swap h (parent i) i)) as [Ho Hp]; [lia|by rewrite length_swap; lia| |].
    + unfold up_ok. rewrite length_swap. split.
      * intros j Hj Hne. rewrite (prio_swap h _ _ j) by lia. destruct (decide (j = parent i)); [done|].
        destruct (decide (j = i)) as [->|Hji]; [rewrite prio_swap by lia; case_decide; [lia|done]|].
        destruct (decide (parent j = parent i)) as [Ep|Hpp].
        { rewrite prio_swap by lia. case_decide; [|done]. specialize (H1 j Hj Hji). rewrite Ep in H1. lia. }
        destruct (decide (parent j = i)) as [Ep|Hpi].
        { rewrite prio_swap by lia. case_decide; [lia|]. case_decide; [|done]. apply H2; [lia..|done]. }
        rewrite prio_swap_same by (try done; lia). by apply H1.
      * intros j Hj Hpp Epj. rewrite (prio_swap h _ _ (parent (parent i))) by lia.
        pose proof (parent_lt (parent i) Hpp). repeat case_decide; try lia.
        rewrite prio_swap by lia. pose proof (parent_lt j ltac:(lia)). pose proof (H1 (parent i) ltac:(lia) ltac:(lia)) as Hup.
        repeat case_decide; [lia|lia|]. pose proof (H1 j Hj ltac:(done)) as Hj1. rewrite Epj in Hj1. lia.
    + split; [done|]. rewrite Hp. apply swap_perm; lia.
Qed.

(** Every edge in order but those below [i], whose children lie below its
    parent. *)
Definition down_ok (i : nat) (h : effHeap) : Prop :=
  (forall j, (0 < j < length h)%nat -> parent j <> i -> prio_at h j <= prio_at h (parent j)) /\
  (forall j, (0 < j < length h)%nat -> (0 < i)%nat -> parent j = i -> prio_at h j <= prio_at h (parent i)).

Lemma sift_down_ok fuel i h :
  (length h < i + fuel + 1)%nat -> down_ok i h -> heap_ok (sift_down fuel i h) /\ sift_down fuel i h ≡ₚ h.
Proof.
  revert i h. induction fuel as [|fuel IH]; intros i h Hf [H1 H2]; cbn [sift_down].
  { split; [|done]. intros j Hj. destruct (decide (parent j = i)) as [Ep|]; [|by apply H1].
    pose proof (parent_child i j ltac:(lia) Ep). lia. }
  cbv zeta. destruct (parent_of_child i) as [Pl Pr].
  set (l := (2 * i + 1)%nat) in *. set (r := (2 * i + 2)%nat) in *.
  set (m1 := if (l <? length h)%nat && (prio_at h l >? prio_at h i) then l else i).
  set (m := if (r <? length h)%nat && (prio_at h r >? prio_at h m1) then r else m1).
  assert ((m = i \/ m = l \/ m = r) /\ (m <> i -> (m < length h)%nat) /\ prio_at h i <= prio_at h m /\
    ((l < length h)%nat -> prio_at h l <= prio_at h m) /\ ((r < length h)%nat -> prio_at h r <= prio_at h m) /\
    (m <> i -> prio_at h i < prio_at h m)) as (Hm & Hml & Hmi & Hmll & Hmr & Hgt).
  { subst m m1. destruct (Nat.ltb_spec l (length h)), (Z.gtb_spec (prio_at h l) (prio_at h i)); cbn [andb];
      destruct (Nat.ltb_spec r (length h)); cbn [andb];
      match goal with |- context [if ?b then _ else _] => destruct b eqn:? | _ => idtac end;
      repeat split; try tauto; intros; try lia. }
  clearbody m. clear m1. destruct (Nat.eqb_spec m i) as [->|Hne].
  - split; [|done]. intros j Hj. destruct (decide (parent j = i)) as [Ep|]; [|by apply H1].
    rewrite Ep. destruct (parent_child i j ltac:(lia) Ep) as [-> | ->]; [apply Hmll|apply Hmr]; lia.
  - specialize (Hml Hne). specialize (Hgt Hne). assert (i < m)%nat by lia. assert (parent m = i) as Pm by (destruct Hm as [|[->| ->]]; done).
    destruct (IH m (swap h i m)) as [Ho Hp]; [rewrite length_swap; lia| |].
    + unfold down_ok. rewrite length_swap. split.
      * intros j Hj Hpm. destruct (decide (j = m)) as [->|Hjm].
        { rewrite Pm, !prio_swap by lia. repeat case_decide; lia. }
        destruct (decide (j = i)) as [->|Hji].
        { pose proof (parent_lt i ltac:(lia)). rewrite !prio_swap by lia. repeat case_decide; try lia.
          apply H2; [lia..|done]. }
        destruct (decide (parent j = i)) as [Ep|Hpi].
        { rewrite Ep, !prio_swap by lia. repeat case_decide; try lia.
          destruct (parent_child i j ltac:(lia) Ep) as [-> | ->]; [apply Hmll|apply Hmr]; lia. }
        rewrite !prio_swap_same by (try done; lia). by apply H1.
      * intros j Hj _ Epj. rewrite Pm. pose proof (parent_lt j ltac:(lia)).
        rewrite !prio_swap by lia. repeat case_decide; try lia. rewrite <- Epj. apply H1; [done|lia].
    + split; [done|]. rewrite Hp. apply swap_perm; lia.
Qed.

(** ** Push and pop *)

Lemma effHeap_push_ok h iv : heap_ok h -> heap_ok (effHeap_push h iv) /\ effHeap_push h iv ≡ₚ iv :: h.
Proof.
  intros Hh. unfold effHeap_push. cbv zeta. rewrite length_app. cbn [length].
  replace (length h + 1 - 1)%nat with (length h) by lia.
  assert (forall j, (j < length h)%nat -> prio_at (h ++ [iv]) j = prio_at h j) as Hl.
  { intros j Hj. unfold prio_at. by rewrite app_nth1. }
  destruct (sift_up_ok (length h + 1) (length h) (h ++ [iv])) as [Ho Hp].
  - lia.
  - rewrite length_app. simpl. lia.
  - unfold up_ok. rewrite length_app. cbn [length]. split; intros j Hj Hne; pose proof (parent_lt j ltac:(lia)).
    + rewrite !Hl by lia. apply Hh. lia.
    + lia.
  - split; [done|]. rewrite Hp. symmetry. apply Permutation_cons_append.
Qed.

Lemma effHeap_pop_ok top h : heap_ok (top :: h) -> heap_ok (effHeap_pop (top :: h)) /\ effHeap_pop (top :: h) ≡ₚ h.
Proof.
  intros Hh. unfold effHeap_pop. cbn [length]. cbv zeta. replace (S (length h) - 1)%nat with (length h) by lia.
  cbn [insert list_insert].
  set (a := take (length h) (nth (length h) (top :: h) iv0 :: h)).
  assert (length a = length h) as Hlen by (subst a; rewrite length_take; simpl; lia).
  assert (a ≡ₚ h) as Hperm.
  { subst a. destruct h as [|x h] using rev_ind; [done|]. clear. rewrite length_app. cbn [length].
    replace (length h + 1)%nat with (S (length h)) by lia. cbn [nth]. rewrite app_nth2, Nat.sub_diag by lia.
    cbn [nth take]. rewrite take_app_length. apply Permutation_cons_append. }
  destruct (sift_down_ok (length a) 0 a) as [Ho Hp]; [lia| |split; [done|by rewrite Hp]].
  split; [|intros; lia]. intros j Hj Hne.
  assert (forall k, (0 < k < length h)%nat -> prio_at a k = prio_at (top :: h) k) as Hk.
  { intros k Hk. unfold prio_at. subst a. destruct k as [|k]; [lia|]. f_equal.
    rewrite !nth_lookup, lookup_take_lt by lia. done. }
  pose proof (parent_lt j ltac:(lia)). rewrite !Hk by lia. apply Hh. simpl. lia.
Qed.

(** The first element has the highest priority. *)
Lemma heap_top_max top h iv : heap_ok (top :: h) -> iv ∈ top :: h -> iv_prio iv <= iv_prio top.
Proof.
  intros Hh Hin.
  assert (forall j, (j < length (top :: h))%nat -> prio_at (top :: h) j <= prio_at (top :: h) 0) as Hj.
  { intros j. induction j as [j IH] using lt_wf_ind. intros Hj. destruct (decide (j = 0)%nat) as [->|]; [lia|].
    pose proof (parent_lt j ltac:(lia)). specialize (Hh j ltac:(lia)). specialize (IH (parent j) ltac:(lia) ltac:(lia)). lia. }
  apply list_elem_of_In in Hin. destruct (In_nth _ _ iv0 Hin) as (j & Hlt & <-). apply (Hj j Hlt).
Qed.
