(* ===== verification/Chain.v ===== *)
(** * Version chains (core/chain_resolver.go, core/temporal.go)

    A chain is the list of an entity's rows, history first, the current row
    last.  This file holds what every temporal read does to a chain before it
    selects a row: the write order, the transaction-time filter with the rewind
    of later deletes, the lives the deletes delimit, and a row's own and
    positional bounds.  The node and relationship functions of the source are
    mirrors of each other; they are one definition over [EntityRow], and the
    relationship names are its instances. *)

From S2P Require Import Prelude ValidTime Rows AsOf.

(** The fields of Core the resolver reads. *)
Record Core := mkCore {
  axis : ValidAxis;
  bitemporalMigrated : bool;
}.

Definition beliefTx (tm : option TemporalMetadata) : Instant :=
  match tm with None => 0 | Some tm => TxFrom tm end.

(** [versionVisibleAtTx]: recorded by [txAt] (0: no filter). *)
Definition versionVisibleAtTx (tm : option TemporalMetadata) (txAt : Instant) : bool :=
  if txAt =? 0 then true
  else match tm with
       | None => true
       | Some tm => negb (negb (TxFrom tm =? 0) && (TxFrom tm >? txAt))
       end.

Definition endsNoEarlier (ax : ValidAxis) (next prev : Instant) : bool :=
  if ValidAxis_Open ax next then true else if ValidAxis_Open ax prev then false else next >=? prev.

Definition tilesWithNext (ax : ValidAxis) (prev next : option TemporalMetadata) (pa pb : Instant) : bool :=
  if pa <? pb then true
  else
    let end_ tm := match tm with None => ValidAxis_OpenEnd ax | Some tm => ValidTo tm end in
    endsNoEarlier ax (end_ next) (end_ prev).

(** [slices.BinarySearch]: the first index whose element is not below the
    target. *)
Definition BinarySearch (l : list Z) (target : Z) : nat :=
  Search (length l) (fun i => negb (nth i l 0 <? target)).

#[global] Arguments BinarySearch : simpl never.

Section Chain.
Context {T : Type} `{EntityRow T}.
Implicit Types (r : T) (chain history : list T).

Definition isVoidRow r : bool := match Temporal r with Some tm => Void tm | None => false end.

(** ** Write order *)

(** The instants of the deletes a chain holds. *)
Definition deaths_of chain : list Instant :=
  omap (fun r => match Temporal r with
                 | Some tm => if negb (DeletedAt tm =? 0) then Some (DeletedAt tm) else None
                 | None => None
                 end) chain.

(** A row's life: the number of deletes recorded before it. *)
Definition life (deaths : list Instant) r : Z :=
  Z.of_nat (length (List.filter (fun d => d <? beliefTx (Temporal r)) deaths)).

(** [chainWriteOrder]: the comparator, as "sorts before". *)
Definition chainWriteOrder chain : T -> T -> bool :=
  match deaths_of chain with
  | [] => lt_key Version
  | deaths => lt_key2 (life deaths) Version
  end.

Definition versionOrdered chain : list T :=
  let byWrite := chainWriteOrder chain in
  if is_sorted_by byWrite chain then chain else sort_by byWrite chain.

Definition chainOf history (current : option T) : list T :=
  history ++ match current with Some c => [c] | None => [] end.

Definition preCorrectionChain history (current : option T) : list T := versionOrdered (chainOf history current).

(** ** The transaction-time filter *)

Definition nodeRowAtTx (a : ValidAxis) (entry : T) (txAt : Instant) : option T :=
  let tm := Temporal entry in
  if negb (versionVisibleAtTx tm txAt) then None
  else match tm with
       | Some m =>
           if DeletedAt m >? txAt then Some (copyWithTemporal (NormalizeTemporalVisibleAtTxTime a txAt) entry)
           else Some entry
       | None => Some entry
       end.

Definition filterNodeChainByTxAt (a : ValidAxis) chain (txAt : Instant) : list T :=
  if txAt =? 0 then chain else omap (fun entry => nodeRowAtTx a entry txAt) chain.

(** ** Lives *)

(** [lifeEnds]: the map from a row to the delete that ends its life. *)
Definition lifeEnds := list (T * Instant).

Definition lifeEnds_lookup (m : lifeEnds) r : option Instant :=
  match List.find (fun e => bool_decide (fst e = r)) m with Some e => Some (snd e) | None => None end.

Definition chainLifeEnds chain : lifeEnds :=
  match deaths_of chain with
  | [] => []
  | ds =>
      let deaths := sort_by Z.ltb ds in
      omap (fun r =>
        let i := BinarySearch deaths (beliefTx (Temporal r)) in
        if (i <? length deaths)%nat then Some (r, nth i deaths 0) else None) chain
  end.

Definition lifeEnds_end (m : lifeEnds) (a : ValidAxis) r (vEnd : Instant) : Instant :=
  match lifeEnds_lookup m r with
  | Some lifeEnd => if ValidAxis_Open a vEnd || (vEnd >? lifeEnd) then lifeEnd else vEnd
  | None => vEnd
  end.

Definition lifeEnds_cut (m : lifeEnds) (a : ValidAxis) r (vStart vEnd : Instant) : Instant * bool :=
  match lifeEnds_lookup m r with
  | Some lifeEnd =>
      if negb (ValidAxis_Open a vEnd) && (vEnd <=? lifeEnd) then (vEnd, false)
      else (lifeEnd, lifeEnd <=? vStart)
  | None => (vEnd, false)
  end.

(** [chainDeath]: a delete and whether it was a retraction. *)
Notation chainDeath := (Instant * bool)%type.

Definition chain_deaths chain : list chainDeath :=
  omap (fun r => match Temporal r with
                 | Some tm => if negb (DeletedAt tm =? 0) then Some (DeletedAt tm, Retracted tm) else None
                 | None => None
                 end) chain.

Definition dropRetractedLives chain : list T :=
  let ds := chain_deaths chain in
  if negb (existsb snd ds) then chain
  else
    let deaths := sort_by (lt_key fst) ds in
    List.filter (fun r =>
      let i := BinarySearch (map fst deaths) (beliefTx (Temporal r)) in
      negb ((i <? length deaths)%nat && snd (nth i deaths (0, false)))) chain.

(** ** Bounds *)

Definition nodeBeliefNewerThan (x y : T) : bool :=
  let tx := beliefTx (Temporal x) in let ty := beliefTx (Temporal y) in
  if negb (tx =? ty) then tx >? ty else Version x >? Version y.

Definition nodeOwnBounds (c : Core) r : Instant * Instant :=
  (RowStart (axis c) r,
   match Temporal r with
   | Some tm => if negb (ValidAxis_Open (axis c) (ValidTo tm)) then ValidTo tm else ValidAxis_OpenEnd (axis c)
   | None => ValidAxis_OpenEnd (axis c)
   end).

Definition nodeInheritedValidFrom chain (i : nat) (tm : TemporalMetadata) : bool :=
  if (i =? 0)%nat || (UpdatedAt tm =? 0) then false
  else match chain !! (i - 1)%nat with
       | Some prev =>
           match Temporal prev with
           | Some ptm => negb (ValidFrom ptm =? 0) && negb (ValidFrom ptm =? UnboundedValidFrom) &&
                         (ValidFrom ptm =? ValidFrom tm)
           | None => false
           end
       | None => false
       end.

(** [chain[i]]; the callers stay in range. *)
Definition nodeVersionBounds (c : Core) chain (i : nat) : Instant * Instant :=
  let a := axis c in
  match chain !! i with
  | None => (0, ValidAxis_OpenEnd a)
  | Some entry =>
      let vStart := UntimedValidFrom (Temporal entry) (RowMint entry) in
      let vEnd := match chain !! S i with Some next => RowStart a next | None => ValidAxis_OpenEnd a end in
      match Temporal entry with
      | Some tm =>
          (if ValidAxis_Claimed a (ValidFrom tm) && (bitemporalMigrated c || negb (nodeInheritedValidFrom chain i tm))
           then ValidFrom tm else vStart,
           if negb (ValidAxis_Open a (ValidTo tm)) then ValidTo tm else vEnd)
      | None => (vStart, vEnd)
      end
  end.

(** ** Order for resolution *)

(** The scan of [sortNodeChainForResolve] from [prev] on: [None] when two rows
    are out of order, else whether every pair so far tiles. *)
Fixpoint tiling_scan (ax : ValidAxis) (tiles : bool) (prev : T) (rest : list T) : option bool :=
  match rest with
  | [] => Some tiles
  | r :: rest' =>
      let pa := RowStart ax prev in let pb := RowStart ax r in
      let tiles := tiles && tilesWithNext ax (Temporal prev) (Temporal r) pa pb in
      if (pa >? pb) || ((pa =? pb) && (Version prev >? Version r)) then None
      else tiling_scan ax tiles r rest'
  end.

(** Sorts before, by start and then version. *)
Definition resolve_lt (ax : ValidAxis) : T -> T -> bool := lt_key2 (RowStart ax) Version.

(** The chain in resolver order, and whether the own-bounds arm must be taken. *)
Definition sortNodeChainForResolve (c : Core) chain : bool * list T :=
  match chain with
  | [] => (false, chain)
  | r :: rest =>
      match tiling_scan (axis c) true r rest with
      | None => (true, sort_by (resolve_lt (axis c)) chain)
      | Some tiles => (negb tiles, chain)
      end
  end.
End Chain.

Arguments lifeEnds T : clear implicits.

(** ** Lemmas *)

Section ChainLemmas.
Context {T : Type} `{EntityRow T}.
Implicit Types (r : T) (chain : list T).

#[export] Instance chainWriteOrder_sw chain : StrictWeak (chainWriteOrder chain).
Proof. unfold chainWriteOrder. destruct (deaths_of chain); apply _. Qed.

(** The guarded sort is the sort. *)
Lemma versionOrdered_sort chain : versionOrdered chain = sort_by (chainWriteOrder chain) chain.
Proof.
  unfold versionOrdered. destruct (is_sorted_by _ chain) eqn:E; [|done].
  symmetry. apply sort_by_id. by apply is_sorted_by_ordered; [apply _|].
Qed.

Lemma versionOrdered_perm chain : versionOrdered chain ≡ₚ chain.
Proof. rewrite versionOrdered_sort. apply sort_by_perm. Qed.

Lemma dropRetractedLives_sub chain r : r ∈ dropRetractedLives chain -> r ∈ chain.
Proof.
  unfold dropRetractedLives. destruct (negb _); [done|]. by intros [? _]%elem_of_Lfilter.
Qed.

Lemma normalize_fields a pin tm :
  let tm' := NormalizeTemporalVisibleAtTxTime a pin tm in
  ValidFrom tm' = ValidFrom tm /\ TxFrom tm' = TxFrom tm /\ UpdatedAt tm' = UpdatedAt tm /\ Void tm' = Void tm.
Proof.
  unfold NormalizeTemporalVisibleAtTxTime. cbv zeta. destruct (TxTo tm >? pin); cbn; 
    destruct (DeletedAt tm >? pin); cbn; try done; destruct (_ && _); done.
Qed.

(** The belief a pin sees of a row keeps its place in the chain. *)
Lemma rowAtTx_facts `{!EntityRowOK T} a r pin r' :
  nodeRowAtTx a r pin = Some r' -> row_wf r ->
  row_wf r' /\ Version r' = Version r /\ (forall ax, RowStart ax r' = RowStart ax r) /\
  beliefTx (Temporal r') = beliefTx (Temporal r) /\ isVoidRow r' = isVoidRow r.
Proof.
  intros Hr Hwf. unfold nodeRowAtTx in Hr. destruct (negb _); [done|].
  destruct (Temporal r) as [tm|] eqn:Et; [|injection Hr as <-; split_and!; done || by rewrite Et].
  destruct (DeletedAt tm >? pin); injection Hr as <-; [|split_and!; done || by rewrite Et].
  pose proof (normalize_fields a pin tm) as (N1 & N2 & N3 & N4).
  pose proof (copy_wf (NormalizeTemporalVisibleAtTxTime a pin) r Hwf) as Hwf'.
  pose proof (copy_temporal (NormalizeTemporalVisibleAtTxTime a pin) r Hwf) as Ht. rewrite Et in Ht. cbn [fmap option_fmap option_map] in Ht.
  split_and!; [done|apply copy_version| | |].
  - intros ax. rewrite !row_start_rule, Ht, Et, copy_mint by done. unfold ValidAxis_Start, UntimedValidFrom. by rewrite N1, N2, N3.
  - rewrite Ht. simpl. done.
  - unfold isVoidRow. rewrite Ht, Et. done.
Qed.

(** What a pinned read hands to the resolver. *)
Definition resolver_input (a : ValidAxis) chain (pin : Instant) : list T :=
  dropRetractedLives (filterNodeChainByTxAt a (versionOrdered chain) pin).

Lemma resolver_input_elem a chain pin r' :
  pin <> 0 -> r' ∈ resolver_input a chain pin -> exists r, r ∈ chain /\ nodeRowAtTx a r pin = Some r'.
Proof.
  intros Hp Hr%dropRetractedLives_sub. unfold filterNodeChainByTxAt in Hr. destruct (Z.eqb_spec pin 0); [done|].
  apply list_elem_of_omap in Hr as (r & Hr & Hat). rewrite versionOrdered_perm in Hr. by exists r.
Qed.

Lemma resolver_input_ok `{!EntityRowOK T} a chain pin :
  pin <> 0 -> Forall row_wf chain ->
  Forall row_wf (resolver_input a chain pin) /\
  forall ax x, Forall (fun r => RowStart ax r <> x) chain -> Forall (fun r => RowStart ax r <> x) (resolver_input a chain pin).
Proof.
  intros Hp Hwf. rewrite Forall_forall in Hwf. split; [|intros ax x Hx; rewrite Forall_forall in Hx];
    apply Forall_forall; intros r' Hr';
    destruct (resolver_input_elem a chain pin r' Hp Hr') as (r & Hin & Hat);
    destruct (rowAtTx_facts a r pin r' Hat (Hwf r Hin)) as (? & _ & Hs & _); [done|]. rewrite Hs. by apply Hx.
Qed.
End ChainLemmas.

(** ** The relationship mirrors *)

Section RelNames.
Context {P : Type} `{EqDecision P} `{Layout}.

Definition relRowAtTx : ValidAxis -> Relationship P -> Instant -> option (Relationship P) := nodeRowAtTx.

Definition filterRelChainByTxAt : ValidAxis -> list (Relationship P) -> Instant -> list (Relationship P) :=
  filterNodeChainByTxAt.

Definition relBeliefNewerThan : Relationship P -> Relationship P -> bool := nodeBeliefNewerThan.

Definition relOwnBounds : Core -> Relationship P -> Instant * Instant := nodeOwnBounds.

Definition relVersionBounds : Core -> list (Relationship P) -> nat -> Instant * Instant := nodeVersionBounds.

Definition relInheritedValidFrom : list (Relationship P) -> nat -> TemporalMetadata -> bool := nodeInheritedValidFrom.

Definition sortRelChainForResolve : Core -> list (Relationship P) -> bool * list (Relationship P) :=
  sortNodeChainForResolve.
End RelNames.
