(* ===== verification/Supersession.v ===== *)
(** * Supersession (core/chain_supersession.go)

    [supersessionCaps] computes, for a chain in resolver order, where the belief
    of each row ends: the smallest start at or after its own of a replacing row
    newer than it.  The code walks the rows from the latest start to the
    earliest with a stack of undominated replacing rows and galloping binary
    searches; the arrays of the scratch buffer are functions of the row index
    here.  [cap_of] is the reference definition, and [supersessionCaps_spec] the
    equivalence. *)

From S2P Require Import Prelude ValidTime Rows Chain.

(** ** The algorithm *)

(** [replacedRow]: the write's TxFrom and the superseded row's version. *)
Notation replacedRow := (Z * Z)%type.

(** [for k-step >= 0 && f(k-step) { k -= step; step *= 2 }]: [k] bounds the
    number of rounds. *)
Fixpoint gallop (fuel : nat) (f : nat -> bool) (k step : nat) : nat * nat :=
  match fuel with
  | O => (k, step)
  | S fuel' =>
      if (step <=? k)%nat && f (k - step)%nat then gallop fuel' f (k - step) (2 * step) else (k, step)
  end.

(** Gallop down from [k], then search the last stride: the first index at or
    below [k] from which on [f] holds. *)
Definition gallop_search (f : nat -> bool) (k : nat) : nat :=
  let '(hi, step) := gallop k f k 1 in
  let lo := (hi + 1 - step)%nat in
  search_loop (hi - lo) f lo hi.

Section Caps.
Context (n : nat) (starts txs versions : nat -> Z) (replaced : list replacedRow).

Definition replaced_at (k : nat) : replacedRow := nth k replaced (0, 0).

(** [replacing], with the hint it leaves: whether row [i] was recorded at the
    TxTo of a lower version it replaced. *)
Definition replacing_search (tx : Z) (hint : nat) : nat :=
  let f k := negb (fst (replaced_at k) <? tx) in
  let len := length replaced in
  if (hint =? len)%nat || (fst (replaced_at hint) >=? tx) then gallop_search f hint
  else search_loop (len - S hint) f (S hint) len.

Definition replacing (i hint : nat) : bool * nat :=
  let lo := replacing_search (txs i) hint in
  ((lo <? length replaced)%nat && (fst (replaced_at lo) =? txs i) && (snd (replaced_at lo) <? versions i), lo).

(** [newer]: a newer belief, and among equals the earlier position. *)
Definition newer (a b : nat) : bool :=
  if negb (txs a =? txs b) then txs a >? txs b
  else if negb (versions a =? versions b) then versions a >? versions b
  else (a <? b)%nat.

(** [stack[k]], bottom first. *)
Definition stack_at (stack : list nat) (k : nat) : nat := nth k stack 0%nat.

(** Pop every top that is not newer than [p]; the stack is kept top first here,
    so that the source's [stack[:len-1]] is the tail. *)
Fixpoint pop_dominated (p : nat) (top_first : list nat) : list nat :=
  match top_first with
  | [] => []
  | q :: rest => if negb (newer q p) then pop_dominated p rest else top_first
  end.

Definition push (p : nat) (stack : list nat) : list nat := rev (p :: pop_dominated p (rev stack)).

(** [for j > 0 && starts[j-1] == starts[i] { j-- }] *)
Fixpoint group_lo (i j : nat) : nat :=
  match j with
  | O => O
  | S j' => if starts j' =? starts i then group_lo i j' else j
  end.

(** The two inner loops over [p] from [hi - 1] down to [lo]. *)
Fixpoint push_group (lo hi : nat) (hint : nat) (stack : list nat) : nat * list nat :=
  match hi with
  | O => (hint, stack)
  | S p =>
      if (lo <=? p)%nat then
        let (rep, hint) := replacing p hint in
        push_group lo p hint (if rep then push p stack else stack)
      else (hint, stack)
  end.

(** [m]: the first stack position not newer than [p]. *)
Definition cap_search (stack : list nat) (p : nat) : nat :=
  let f k := negb (newer (stack_at stack k) p) in
  let hi := length stack in
  match hi with
  | O => O
  | S top => if newer (stack_at stack top) p then hi else gallop_search f top
  end.

Fixpoint cap_group (lo hi : nat) (stack : list nat) (caps : list (option Z)) : list (option Z) :=
  match hi with
  | O => caps
  | S p =>
      if (lo <=? p)%nat then
        let m := cap_search stack p in
        let caps := match m with O => caps | S m' => <[p := Some (starts (stack_at stack m'))]> caps end in
        cap_group lo p stack caps
      else caps
  end.

(** The outer loop; [hi] is the source's [i + 1].  Every round ends below its
    group, so [n] rounds are enough. *)
Fixpoint caps_loop (fuel hi hint : nat) (stack : list nat) (caps : list (option Z)) : list (option Z) :=
  match fuel, hi with
  | S fuel', S i =>
      let j := group_lo i i in
      let '(hint, stack) := push_group j hi hint stack in
      caps_loop fuel' j hint stack (cap_group j hi stack caps)
  | _, _ => caps
  end.

Definition caps_of : list (option Z) :=
  caps_loop n n (length replaced) [] (replicate n None).

End Caps.

(** [superCaps]: [None] where [has[i]] is false; the zero value is []. *)
Notation superCaps := (list (option Instant)).

Definition superCaps_end (s : superCaps) (a : ValidAxis) (i : nat) (vStart vEnd : Instant) : Instant * bool :=
  match s !! i with
  | Some (Some c) =>
      if c <=? vStart then (vEnd, true)
      else if ValidAxis_Open a vEnd || (vEnd >? c) then (c, false)
      else (vEnd, false)
  | _ => (vEnd, false)
  end.

Section Supersession.
Context {T : Type} `{EntityRow T}.

(** The rows a write replaced: superseded after they were recorded, not
    deleted. *)
Definition replaced_rows (chain : list T) : list replacedRow :=
  omap (fun r => match Temporal r with
                 | Some tm => if (TxTo tm >? TxFrom tm) && (DeletedAt tm =? 0) then Some (TxTo tm, Version r) else None
                 | None => None
                 end) chain.

Definition by_tx : replacedRow -> replacedRow -> bool := lt_key2 fst snd.

Definition supersessionCaps (start : T -> Instant) (chain : list T) : superCaps :=
  let ith f i := match chain !! i with Some r => f r | None => 0 end in
  match replaced_rows chain with
  | [] => []
  | rows =>
      let replaced := if is_sorted_by by_tx rows then rows else sort_by by_tx rows in
      let caps := caps_of (length chain) (ith start) (ith (fun r => beliefTx (Temporal r))) (ith Version) replaced in
      if existsb (fun c => match c with Some _ => true | None => false end) caps then caps else []
  end.
End Supersession.

(** ** Searching *)

(** Once true, true up to [k]. *)
Definition mono_below (f : nat -> bool) (k : nat) : Prop :=
  forall x y, (x <= y < k)%nat -> f x = true -> f y = true.

Lemma gallop_spec fuel f k0 k step :
  mono_below f k0 -> (k <= fuel)%nat -> (0 < step)%nat -> (k <= k0)%nat ->
  (forall x, (k <= x < k0)%nat -> f x = true) ->
  let '(hi, st) := gallop fuel f k step in
  (hi <= k)%nat /\ (0 < st)%nat /\ (forall x, (hi <= x < k0)%nat -> f x = true) /\
  (forall x, (x + st <= hi)%nat -> f x = false).
Proof.
  intros Hm. revert k step. induction fuel as [|fuel IH]; intros k step Hf Hs Hk Ht; simpl.
  { split_and!; [lia..|done|lia]. }
  destruct (Nat.leb_spec step k); simpl; [|split_and!; [lia..|done|lia]].
  destruct (f (k - step)%nat) eqn:E.
  - specialize (IH (k - step)%nat (2 * step)%nat).
    destruct (gallop fuel f (k - step) (step + (step + 0))) as [hi st] eqn:Eg.
    change (2 * step)%nat with (step + (step + 0))%nat in IH. rewrite Eg in IH.
    destruct IH as (H1 & H2 & H3 & H4); [lia..| |].
    + intros x Hx. apply (Hm (k - step)%nat); [lia|done].
    + split_and!; [lia..|done|done].
  - split_and!; [lia..|done|]. intros x Hx. destruct (f x) eqn:Ex; [|done].
    rewrite (Hm x (k - step)%nat) in E; [done|lia|done].
Qed.

Lemma gallop_search_spec f k :
  mono_below f k ->
  let r := gallop_search f k in
  (r <= k)%nat /\ (forall x, (x < r)%nat -> f x = false) /\ (forall x, (r <= x < k)%nat -> f x = true).
Proof.
  intros Hm. unfold gallop_search.
  pose proof (gallop_spec k f k k 1 Hm ltac:(lia) ltac:(lia) ltac:(lia) ltac:(lia)) as Hg.
  destruct (gallop k f k 1) as [hi st]. destruct Hg as (H1 & H2 & H3 & H4).
  destruct (search_loop_spec (hi - (hi + 1 - st)) f (hi + 1 - st) hi) as (S1 & S2 & S3); [lia|lia| |].
  { intros a b ? ? Ha. apply (Hm a); [lia|done]. }
  cbv zeta. split_and!; [lia| |].
  - intros x Hx. destruct (decide (x + st <= hi)%nat); [by apply H4|]. apply S2. lia.
  - intros x Hx. destruct (decide (x < hi)%nat); [apply S3; lia|]. apply H3. lia.
Qed.

(** ** The reference definition *)

Section Reference.
Context (n : nat) (starts txs versions : nat -> Z) (replaced : list replacedRow).

(** Row [i] replaced a lower version at the instant it was recorded. *)
Definition is_replacing (i : nat) : bool :=
  existsb (fun rv => (fst rv =? txs i) && (snd rv <? versions i)) replaced.

Definition cap_candidate (p q : nat) : bool :=
  is_replacing q && newer txs versions q p && (starts p <=? starts q).

Fixpoint min_opt (l : list Z) : option Z :=
  match l with
  | [] => None
  | x :: l' => match min_opt l' with None => Some x | Some y => Some (Z.min x y) end
  end.

(** Where the belief of row [p] ends: the smallest start at or after its own of
    a replacing row newer than it. *)
Definition cap_of (p : nat) : option Z :=
  min_opt (map starts (List.filter (cap_candidate p) (seq 0 n))).

Lemma min_opt_spec l m : (m ∈ l) -> (forall x, x ∈ l -> m <= x) -> min_opt l = Some m.
Proof.
  revert m. induction l as [|x l IH]; intros m Hm Hle; [by apply not_elem_of_nil in Hm|]. simpl.
  destruct l as [|y l'].
  { simpl. apply list_elem_of_singleton in Hm as ->. done. }
  set (l := y :: l') in *.
  assert (exists k, min_opt l = Some k /\ k ∈ l /\ forall z, z ∈ l -> k <= z) as (k & Hk & Hin & Hk').
  { clear IH Hm Hle. subst l. revert y. induction l' as [|y' l' IHl]; intros y.
    - exists y. split_and!; [done|left|]. intros z Hz. apply list_elem_of_singleton in Hz as ->. lia.
    - destruct (IHl y') as (k & Hk & Hin & Hall). exists (Z.min y k). split_and!.
      + change (match min_opt (y' :: l') with None => Some y | Some v => Some (Z.min y v) end = Some (Z.min y k)).
        by rewrite Hk.
      + destruct (Z.min_spec y k) as [[_ ->]|[_ ->]]; [left|by right].
      + intros z Hz. apply elem_of_cons in Hz as [->|Hz]; [lia|]. specialize (Hall z Hz). lia. }
  rewrite Hk. f_equal.
  pose proof (Hle x ltac:(left)). pose proof (Hle k ltac:(by right)).
  apply elem_of_cons in Hm as [->|Hm]; [lia|]. specialize (Hk' m Hm). lia.
Qed.

(** *** Belief age is a strict total order *)

Lemma newer_trans a b c : newer txs versions a b = true -> newer txs versions b c = true -> newer txs versions a c = true.
Proof.
  unfold newer. intros H1 H2.
  destruct (Z.eqb_spec (txs a) (txs b)), (Z.eqb_spec (txs b) (txs c)), (Z.eqb_spec (txs a) (txs c)); simpl in *; try lia.
  destruct (Z.eqb_spec (versions a) (versions b)), (Z.eqb_spec (versions b) (versions c)),
    (Z.eqb_spec (versions a) (versions c)); simpl in *; try lia.
  apply Nat.ltb_lt. apply Nat.ltb_lt in H1, H2. lia.
Qed.

Lemma newer_total a b : a <> b -> newer txs versions a b = false -> newer txs versions b a = true.
Proof.
  unfold newer. intros Hab H.
  destruct (Z.eqb_spec (txs a) (txs b)), (Z.eqb_spec (txs b) (txs a)); simpl in *; try lia.
  destruct (Z.eqb_spec (versions a) (versions b)), (Z.eqb_spec (versions b) (versions a)); simpl in *; try lia.
  apply Nat.ltb_lt. apply Nat.ltb_ge in H. lia.
Qed.

Lemma newer_irrefl a : newer txs versions a a = false.
Proof. unfold newer. rewrite !Z.eqb_refl. simpl. apply Nat.ltb_irrefl. Qed.

(** *** The replacing test *)

Context (Hsorted : ordered_by by_tx replaced).

Lemma replaced_mono x y : (x <= y < length replaced)%nat ->
  fst (replaced_at replaced x) <= fst (replaced_at replaced y) /\
  (fst (replaced_at replaced x) = fst (replaced_at replaced y) ->
   snd (replaced_at replaced x) <= snd (replaced_at replaced y)).
Proof.
  intros Hxy. pose proof (ordered_nth by_tx (StrictWeak0 := lt_key2_sw fst snd) replaced (0, 0) x y Hsorted Hxy) as Hn.
  unfold by_tx, lt_key2 in Hn. fold (replaced_at replaced x) (replaced_at replaced y) in Hn.
  destruct (Z.eqb_spec (fst (replaced_at replaced y)) (fst (replaced_at replaced x))); lia.
Qed.

Lemma replacing_search_spec tx hint :
  (hint <= length replaced)%nat ->
  let lo := replacing_search replaced tx hint in
  (lo <= length replaced)%nat /\ (forall x, (x < lo)%nat -> fst (replaced_at replaced x) < tx) /\
  (forall x, (lo <= x < length replaced)%nat -> tx <= fst (replaced_at replaced x)).
Proof.
  intros Hh. unfold replacing_search. set (f := fun k => negb (fst (replaced_at replaced k) <? tx)).
  assert (forall k, f k = true <-> tx <= fst (replaced_at replaced k)) as Hft by (intros; unfold f; lia).
  assert (forall k, f k = false <-> fst (replaced_at replaced k) < tx) as Hff by (intros; unfold f; lia).
  assert (forall x y, (x <= y < length replaced)%nat -> f x = true -> f y = true) as Hm.
  { intros x y Hxy Hx. apply Hft. apply Hft in Hx. pose proof (replaced_mono x y Hxy). lia. }
  cbv zeta. destruct ((hint =? length replaced)%nat || _) eqn:E.
  - destruct (gallop_search_spec f hint) as (H1 & H2 & H3).
    { intros x y Hxy. apply Hm. lia. }
    split_and!; [lia| |].
    + intros x Hx. apply Hff, H2. lia.
    + intros x Hx. apply Hft. destruct (decide (x < hint)%nat); [apply H3; lia|].
      apply orb_prop in E as [E|E]; [apply Nat.eqb_eq in E; lia|]. apply (Hm hint); [lia|]. apply Hft. lia.
  - apply orb_false_iff in E as [E1%Nat.eqb_neq E2].
    destruct (search_loop_spec (length replaced - S hint) f (S hint) (length replaced)) as (S1 & S2 & S3);
      [lia|lia|intros a b ? ? Ha; apply (Hm a); [lia|done]|].
    split_and!; [lia| |intros x Hx; apply Hft, S3; lia].
    intros x Hx. destruct (decide (S hint <= x)%nat); [apply Hff, S2; lia|].
    pose proof (replaced_mono x hint ltac:(lia)). lia.
Qed.

Lemma replacing_spec i hint :
  (hint <= length replaced)%nat ->
  fst (replacing txs versions replaced i hint) = is_replacing i /\
  (snd (replacing txs versions replaced i hint) <= length replaced)%nat.
Proof.
  intros Hh. unfold replacing. destruct (replacing_search_spec (txs i) hint Hh) as (H1 & H2 & H3).
  set (lo := replacing_search replaced (txs i) hint) in *. cbn [fst snd]. split; [|done]. clearbody lo.
  apply eq_true_iff_eq. unfold is_replacing. rewrite existsb_exists, !andb_true_iff. split.
  - intros [[Hl Ht] Hv]. apply Nat.ltb_lt in Hl. exists (replaced_at replaced lo).
    split; [by apply (nth_In replaced (0, 0))|]. by rewrite Ht, Hv.
  - intros (rv & Hin & [Ht Hv]%andb_prop). destruct (In_nth _ _ (0, 0) Hin) as (k & Hk & Hkv).
    change (replaced_at replaced k = rv) in Hkv. rewrite <- Hkv in Ht, Hv.
    assert (lo <= k)%nat by (destruct (decide (lo <= k)%nat); [done|]; specialize (H2 k ltac:(lia)); lia).
    pose proof (replaced_mono lo k ltac:(lia)) as [Hm1 Hm2]. specialize (H3 lo ltac:(lia)).
    split_and!; [apply Nat.ltb_lt; lia|lia|lia].
Qed.
End Reference.

(** ** The walk *)

Section Walk.
Context (n : nat) (starts txs versions : nat -> Z) (replaced : list replacedRow).
Context (Hsorted : ordered_by by_tx replaced).
Context (Hstarts : forall x y, (x <= y < n)%nat -> starts x <= starts y).

Local Notation newer' := (newer txs versions).
Local Notation rep := (is_replacing txs versions replaced).
Local Notation cap := (cap_of n starts txs versions replaced).

(** The stack after the rows from [lo] on were pushed: replacing rows, newest
    and latest at the bottom, and every replacing row seen dominated by one of
    them. *)
Record stack_inv (lo : nat) (stack : list nat) : Prop := {
  st_range : Forall (fun q => (lo <= q < n)%nat /\ rep q = true) stack;
  st_order : StronglySorted (fun x y => newer' x y = true /\ (y < x)%nat) stack;
  st_dominates : forall q, (lo <= q < n)%nat -> rep q = true ->
    exists s, s ∈ stack /\ (s <= q)%nat /\ (s = q \/ newer' s q = true);
}.

Lemma pop_dominated_spec p l :
  exists popped, l = popped ++ pop_dominated txs versions p l /\ Forall (fun q => newer' q p = false) popped /\
    (forall q rest, pop_dominated txs versions p l = q :: rest -> newer' q p = true).
Proof.
  induction l as [|q l (popped & Hl & Hp & Hh)]; simpl.
  - exists []. split_and!; [done|constructor|done].
  - destruct (newer' q p) eqn:E; simpl.
    + exists []. split_and!; [done|constructor|]. by intros ? ? [= -> _].
    + exists (q :: popped). split_and!; [by rewrite Hl at 1|by constructor|done].
Qed.

Lemma push_inv p stack :
  stack_inv (S p) stack -> (p < n)%nat -> rep p = true -> stack_inv p (push txs versions p stack).
Proof.
  intros [Hr Ho Hd] Hp Hrep. unfold push. simpl.
  destruct (pop_dominated_spec p (rev stack)) as (popped & Hsplit & Hpop & Hhead).
  set (keep := pop_dominated txs versions p (rev stack)) in *.
  assert (stack = rev keep ++ rev popped) as Hst.
  { by rewrite <- rev_app_distr, <- Hsplit, rev_involutive. }
  rewrite Hst in Hr, Ho. apply Forall_app in Hr as [Hrk Hrp].
  apply StronglySorted_app_inv in Ho as (Hok & _ & Hkp).
  assert (forall q, q ∈ rev keep -> newer' q p = true /\ (p < q)%nat) as Hkeep.
  { intros q Hq. rewrite Forall_forall in Hrk. pose proof (Hrk q Hq) as [? _]. split; [|lia].
    destruct keep as [|t keep'] eqn:Ek; [by apply not_elem_of_nil in Hq|].
    specialize (Hhead t keep' eq_refl). simpl in Hq, Hok.
    apply elem_of_app in Hq as [Hq|Hq]; [|by apply list_elem_of_singleton in Hq as ->].
    apply StronglySorted_app_inv in Hok as (_ & _ & Hq'). destruct (Hq' q t Hq ltac:(left)) as [Hn _].
    by apply (newer_trans _ _ q t p). }
  split.
  - apply Forall_app. split; [|by repeat constructor]. eapply Forall_impl; [exact Hrk|]. simpl. intros q [? ?]. split; [lia|done].
  - by apply StronglySorted_snoc.
  - intros q Hq Hrq. destruct (decide (q = p)) as [->|Hne].
    { exists p. split_and!; [apply elem_of_app; right; left|lia|by left]. }
    destruct (Hd q ltac:(lia) Hrq) as (s & Hs & Hle & Hn). rewrite Hst in Hs.
    apply elem_of_app in Hs as [Hs|Hs]; [exists s; split_and!; [by apply elem_of_app; left|done..]|].
    exists p. split_and!; [apply elem_of_app; right; left|lia|right].
    rewrite Forall_forall in Hpop. rewrite Forall_forall in Hrp.
    pose proof (Hrp s Hs) as [? _]. assert (newer' p s = true) as Hps.
    { apply newer_total; [lia|]. apply Hpop. by rewrite list_elem_of_In, in_rev, <- list_elem_of_In. }
    destruct Hn as [->|Hn]; [done|]. by apply (newer_trans _ _ p s q).
Qed.

Lemma push_group_inv lo hi hint stack :
  (lo <= hi <= n)%nat -> (hint <= length replaced)%nat -> stack_inv hi stack ->
  let '(hint', stack') := push_group txs versions replaced lo hi hint stack in
  (hint' <= length replaced)%nat /\ stack_inv lo stack'.
Proof.
  revert hint stack. induction hi as [|p IH]; intros hint stack Hlo Hh Hs; cbn [push_group].
  { assert (lo = 0)%nat as -> by lia. done. }
  destruct (Nat.leb_spec lo p); [|by assert (lo = S p)%nat as -> by lia].
  destruct (replacing_spec txs versions replaced Hsorted p hint Hh) as [Hrep Hh'].
  destruct (replacing txs versions replaced p hint) as [b hint']. simpl in Hrep, Hh'. subst b.
  apply IH; [lia|done|]. destruct (rep p) eqn:E; [apply push_inv; [done|lia|done]|].
  destruct Hs as [Hr Ho Hd]. split; [|done|].
  - eapply Forall_impl; [exact Hr|]. simpl. intros q [? ?]. split; [lia|done].
  - intros q Hq Hrq. apply Hd; [|done]. destruct (decide (q = p)) as [->|]; [congruence|lia].
Qed.

Lemma cap_search_spec lo stack p :
  stack_inv lo stack ->
  let m := cap_search txs versions stack p in
  (m <= length stack)%nat /\ (forall k, (k < m)%nat -> newer' (stack_at stack k) p = true) /\
  (forall k, (m <= k < length stack)%nat -> newer' (stack_at stack k) p = false).
Proof.
  intros [_ Ho _]. unfold cap_search.
  assert (forall x y, (x <= y < length stack)%nat -> newer' (stack_at stack y) p = true ->
            newer' (stack_at stack x) p = true) as Hm.
  { intros x y Hxy Hy. destruct (decide (x = y)) as [->|]; [done|].
    assert (newer' (stack_at stack x) (stack_at stack y) = true) as Hxy'; [|by eapply newer_trans].
    apply (StronglySorted_nth _ stack 0%nat x y Ho). lia. }
  destruct (length stack) as [|top] eqn:El; [split_and!; [lia..|intros; lia]|].
  destruct (newer' (stack_at stack top) p) eqn:Et.
  - split_and!; [lia| |intros; lia]. intros k Hk. apply (Hm k top); [lia|done].
  - destruct (gallop_search_spec (fun k => negb (newer' (stack_at stack k) p)) top) as (H1 & H2 & H3).
    { intros x y Hxy Hx. apply negb_true_iff in Hx. apply negb_true_iff.
      destruct (newer' (stack_at stack y) p) eqn:Ey; [|done]. rewrite (Hm x y) in Hx; [done|lia|done]. }
    cbv zeta. split_and!; [lia| |].
    + intros k Hk. apply negb_false_iff. by apply H2.
    + intros k Hk. apply negb_true_iff. destruct (decide (k < top)%nat); [apply H3; lia|].
      assert (k = top) as -> by lia. by rewrite Et.
Qed.

(** The cap the walk writes for a row of the group that starts at [lo]. *)
Lemma cap_search_cap lo stack p :
  stack_inv lo stack -> (lo <= p < n)%nat -> starts p = starts lo ->
  (forall x, (x < lo)%nat -> starts x < starts lo) ->
  match cap_search txs versions stack p with O => None | S m => Some (starts (stack_at stack m)) end = cap p.
Proof.
  intros Hinv Hp Hsp Hlow. destruct (cap_search_spec lo stack p Hinv) as (H1 & H2 & H3).
  set (m := cap_search txs versions stack p) in *. clearbody m. destruct Hinv as [Hr Ho Hd].
  assert (forall q, cap_candidate starts txs versions replaced p q = true -> (q < n)%nat ->
            exists k, (k < m)%nat /\ starts (stack_at stack k) <= starts q) as Hcand.
  { intros q Hq Hqn. unfold cap_candidate in Hq. rewrite !andb_true_iff in Hq. destruct Hq as [[Hrq Hnq] Hsq].
    assert (lo <= q)%nat by (destruct (decide (lo <= q)%nat); [done|]; specialize (Hlow q ltac:(lia)); lia).
    destruct (Hd q ltac:(lia) Hrq) as (s & Hs & Hle & Hn). apply list_elem_of_In in Hs.
    destruct (In_nth _ _ 0%nat Hs) as (k & Hk & Hks). change (stack_at stack k = s) in Hks. exists k.
    rewrite Hks. split; [|apply Hstarts; lia].
    destruct (decide (k < m)%nat); [done|]. specialize (H3 k ltac:(lia)). rewrite Hks in H3.
    destruct Hn as [->|Hn]; [congruence|]. rewrite (newer_trans _ _ s q p Hn Hnq) in H3. done. }
  destruct m as [|m].
  - unfold cap_of. rewrite Lfilter_none; [done|]. intros q Hq%elem_of_seq.
    destruct (cap_candidate _ _ _ _ p q) eqn:E; [|done]. destruct (Hcand q E ltac:(lia)) as (k & Hk & _). lia.
  - symmetry. unfold cap_of. set (s := stack_at stack m).
    assert (In s stack) as Hin by (apply nth_In; lia). apply list_elem_of_In in Hin.
    rewrite Forall_forall in Hr. pose proof (Hr s Hin) as [Hsr Hsrep].
    apply min_opt_spec.
    + apply list_elem_of_fmap. exists s. split; [done|]. apply elem_of_Lfilter. split; [apply elem_of_seq; lia|].
      unfold cap_candidate. rewrite Hsrep. pose proof (H2 m ltac:(lia)) as Hnm. fold s in Hnm. rewrite Hnm.
      simpl. rewrite Hsp. pose proof (Hstarts lo s ltac:(lia)). lia.
    + intros x Hx. apply list_elem_of_fmap in Hx as (q & -> & Hq).
      apply elem_of_Lfilter in Hq as [Hq Hc]. apply elem_of_seq in Hq.
      destruct (Hcand q Hc ltac:(lia)) as (k & Hk & Hle).
      enough (starts s <= starts (stack_at stack k)) by lia.
      destruct (decide (k = m)) as [->|Hne]; [done|].
      assert (stack_at stack m < stack_at stack k)%nat as Hlt.
      { apply (StronglySorted_nth _ stack 0%nat k m Ho). lia. }
      apply Hstarts. split; [unfold s; lia|].
      assert (In (stack_at stack k) stack) as Hink by (apply nth_In; lia). apply list_elem_of_In in Hink.
      pose proof (Hr _ Hink). lia.
Qed.

Lemma group_lo_spec i j :
  (j <= i < n)%nat -> (forall x, (j <= x <= i)%nat -> starts x = starts i) ->
  let lo := group_lo starts i j in
  (lo <= j)%nat /\ (forall x, (lo <= x <= i)%nat -> starts x = starts i) /\
  (forall x, (x < lo)%nat -> starts x < starts i).
Proof.
  induction j as [|j IH]; intros Hj Heq; simpl.
  { split_and!; [lia|done|intros; lia]. }
  destruct (Z.eqb_spec (starts j) (starts i)) as [E|E].
  - destruct IH as (H1 & H2 & H3); [lia| |split_and!; [lia|done|done]].
    intros x Hx. destruct (decide (x = j)) as [->|]; [done|apply Heq; lia].
  - split_and!; [lia|done|]. intros x Hx.
    pose proof (Hstarts x j ltac:(lia)). pose proof (Hstarts j i ltac:(lia)). lia.
Qed.

(** The caps written so far: those of the rows from [hi] on. *)
Definition caps_inv (hi : nat) (caps : list (option Z)) : Prop :=
  length caps = n /\ forall p, (p < n)%nat -> caps !! p = Some (if (hi <=? p)%nat then cap p else None).

Lemma cap_group_inv lo hi stack caps :
  (lo <= hi <= n)%nat -> stack_inv lo stack ->
  (forall x, (lo <= x < hi)%nat -> starts x = starts lo) -> (forall x, (x < lo)%nat -> starts x < starts lo) ->
  caps_inv hi caps -> caps_inv lo (cap_group starts txs versions lo hi stack caps).
Proof.
  revert caps. induction hi as [|p IH]; intros caps Hlo Hs Heq Hlow Hc; cbn [cap_group].
  { by assert (lo = 0)%nat as -> by lia. }
  destruct (Nat.leb_spec lo p); [|by assert (lo = S p)%nat as -> by lia].
  apply IH; [lia|done|intros; apply Heq; lia|done|].
  pose proof (cap_search_cap lo stack p Hs ltac:(lia) (Heq p ltac:(lia)) Hlow) as Hcap.
  destruct Hc as [Hlen Hc]. destruct (cap_search txs versions stack p) as [|m] eqn:E; split; try done.
  - intros q Hq. rewrite Hc by done. destruct (Nat.leb_spec (S p) q), (Nat.leb_spec p q); try done; [lia|].
    assert (q = p) as -> by lia. by rewrite <- Hcap.
  - by rewrite length_insert.
  - intros q Hq. destruct (decide (p = q)) as [<-|Hne].
    + rewrite list_lookup_insert_eq by lia. rewrite Hcap. by destruct (Nat.leb_spec p p); [|lia].
    + rewrite list_lookup_insert_ne by done. rewrite Hc by done.
      destruct (Nat.leb_spec (S p) q), (Nat.leb_spec p q); try done; lia.
Qed.

Lemma caps_loop_inv fuel hi hint stack caps :
  (hi <= fuel)%nat -> (hi <= n)%nat -> (hint <= length replaced)%nat ->
  stack_inv hi stack -> caps_inv hi caps ->
  caps_inv 0 (caps_loop starts txs versions replaced fuel hi hint stack caps).
Proof.
  revert hi hint stack caps. induction fuel as [|fuel IH]; intros [|i] hint stack caps Hf Hn Hh Hs Hc;
    cbn [caps_loop]; try done; [lia|].
  destruct (group_lo_spec i i) as (G1 & G2 & G3); [lia|intros; by assert (x = i) as -> by lia|].
  set (j := group_lo starts i i) in *. clearbody j.
  pose proof (push_group_inv j (S i) hint stack ltac:(lia) Hh Hs) as Hp.
  destruct (push_group txs versions replaced j (S i) hint stack) as [hint' stack'].
  destruct Hp as [Hh' Hs']. apply IH; [lia|lia|done|done|].
  apply cap_group_inv; [lia|done| | |done].
  - intros x Hx. rewrite (G2 x), (G2 j); [done|lia|lia].
  - intros x Hx. rewrite (G2 j) by lia. by apply G3.
Qed.

Lemma caps_of_spec : caps_of n starts txs versions replaced = map cap (seq 0 n).
Proof.
  destruct (caps_loop_inv n n (length replaced) [] (replicate n None)) as [Hlen Hc]; [lia..| | |].
  - split; [constructor|constructor|intros; lia].
  - split; [by rewrite length_replicate|]. intros p Hp. rewrite lookup_replicate_2 by done.
    by destruct (Nat.leb_spec n p); [lia|].
  - apply list_eq. intros p. fold (caps_of n starts txs versions replaced) in *.
    destruct (decide (p < n)%nat) as [Hp|Hp].
    + rewrite Hc by done. rewrite lookup_map_seq by done. by destruct (Nat.leb_spec 0 p); [|lia].
    + rewrite !lookup_ge_None_2; [done|rewrite length_map, length_seq; lia|lia].
Qed.
End Walk.

(** ** The result on a chain *)

Section ChainCaps.
Context {T : Type} `{EntityRow T}.

Definition ith (f : T -> Z) (chain : list T) (i : nat) : Z := match chain !! i with Some r => f r | None => 0 end.

Definition chain_cap (start : T -> Instant) (chain : list T) (i : nat) : option Instant :=
  cap_of (length chain) (ith start chain) (ith (fun r => beliefTx (Temporal r)) chain) (ith Version chain)
    (replaced_rows chain) i.

(** A cap is decided by which rows were replaced, in whatever order. *)
Lemma existsb_perm {A} (f : A -> bool) l l' : l ≡ₚ l' -> existsb f l = existsb f l'.
Proof.
  intros Hp. apply eq_true_iff_eq. rewrite !existsb_exists.
  split; intros (x & Hx & Hf); exists x; split; try done;
    [by eapply Permutation_in|by eapply Permutation_in; [symmetry|]].
Qed.

Lemma cap_of_perm n starts txs versions l l' p :
  l ≡ₚ l' -> cap_of n starts txs versions l p = cap_of n starts txs versions l' p.
Proof.
  intros Hp. unfold cap_of. do 2 f_equal. apply List.filter_ext. intros q.
  unfold cap_candidate, is_replacing. by rewrite (existsb_perm _ l l').
Qed.

Lemma by_tx_guarded rows :
  ordered_by by_tx (if is_sorted_by by_tx rows then rows else sort_by by_tx rows) /\
  (if is_sorted_by by_tx rows then rows else sort_by by_tx rows) ≡ₚ rows.
Proof.
  pose proof (lt_key2_sw (A := Z * Z) fst snd) as Hsw. fold by_tx in Hsw.
  destruct (is_sorted_by by_tx rows) eqn:E; [|split; [by apply sort_by_ordered|apply sort_by_perm]].
  split; [by apply is_sorted_by_ordered|done].
Qed.

Lemma supersessionCaps_lookup start chain i :
  ordered_by (lt_key start) chain -> (i < length chain)%nat ->
  match supersessionCaps start chain !! i with Some (Some c) => Some c | _ => None end = chain_cap start chain i.
Proof.
  intros Ho Hi. unfold supersessionCaps, chain_cap.
  destruct (replaced_rows chain) as [|rv rows'] eqn:Er.
  { symmetry. unfold cap_of. rewrite Lfilter_none; [done|]. intros. reflexivity. }
  rewrite <- Er. clear Er rv rows'. set (rows := replaced_rows chain).
  destruct (by_tx_guarded rows) as [Hs Hp]. set (replaced := if is_sorted_by _ _ then _ else _) in *. clearbody replaced.
  fold (ith start chain) (ith (fun r => beliefTx (Temporal r)) chain) (ith Version chain).
  rewrite caps_of_spec; [|done|].
  - rewrite <- (cap_of_perm _ _ _ _ _ _ i Hp). destruct (existsb _ _) eqn:Ee.
    + rewrite lookup_map_seq by done. by destruct (cap_of _ _ _ _ _ i).
    + simpl. destruct (cap_of _ _ _ _ replaced i) as [c|] eqn:Ec; [|done].
      assert (existsb (fun c : option Z => match c with Some _ => true | None => false end)
        (map (cap_of (length chain) (ith start chain) (ith (fun r => beliefTx (Temporal r)) chain) (ith Version chain) replaced)
           (seq 0 (length chain))) = true) as Ht; [|congruence].
      apply existsb_exists. exists (Some c). split; [|done]. rewrite <- Ec. apply in_map, in_seq. lia.
  - intros x y Hxy. unfold ith.
    destruct (lookup_lt_is_Some_2 chain x) as [rx Hx]; [lia|]. destruct (lookup_lt_is_Some_2 chain y) as [ry Hy]; [lia|].
    rewrite Hx, Hy. pose proof (ordered_nth (lt_key start) chain rx x y Ho Hxy) as Hn.
    rewrite (nth_lookup_Some chain x rx rx Hx), (nth_lookup_Some chain y rx ry Hy) in Hn. unfold lt_key in Hn. lia.
Qed.
End ChainCaps.

(** Row [rq] (at position [q]) ends the belief of row [ri] (at position [i]): it
    starts at or after it, it is a newer belief ((TxFrom, version), the earlier
    position among equals), and it was recorded at the TxTo of a lower version
    that no delete ended, so it replaced that version. *)
Record ends_belief {T} `{EntityRow T} (start : T -> Instant) (chain : list T) (i q : nat) (ri rq : T) : Prop := {
  eb_start : start ri <= start rq;
  eb_newer : beliefTx (Temporal ri) < beliefTx (Temporal rq) \/
             beliefTx (Temporal ri) = beliefTx (Temporal rq) /\
             (Version ri < Version rq \/ Version ri = Version rq /\ (q < i)%nat);
  eb_replaced : exists r tm, r ∈ chain /\ Temporal r = Some tm /\ TxFrom tm < TxTo tm /\ DeletedAt tm = 0 /\
                TxTo tm = beliefTx (Temporal rq) /\ Version r < Version rq;
}.

Lemma min_opt_some l m : min_opt l = Some m -> m ∈ l /\ forall x, x ∈ l -> m <= x.
Proof.
  revert m. induction l as [|x l IH]; intros m Hm; [done|]. cbn in Hm.
  destruct (min_opt l) as [y|] eqn:E; injection Hm as <-.
  - destruct (IH y eq_refl) as [Hy Hle]. split.
    + apply elem_of_cons. destruct (Z.min_spec x y) as [[_ ->]|[_ ->]]; auto.
    + intros z [->|Hz]%elem_of_cons; [lia|]. specialize (Hle z Hz). lia.
  - destruct l as [|y l]; [|cbn in E; destruct (min_opt l); done].
    split; [by left|]. intros z ->%list_elem_of_singleton. lia.
Qed.

Lemma min_opt_none l : min_opt l = None -> l = [].
Proof. destruct l as [|x l]; [done|]. cbn. by destruct (min_opt l). Qed.

Lemma elem_of_replaced_rows {T} `{EntityRow T} (chain : list T) tx v :
  (tx, v) ∈ replaced_rows chain <->
  exists r tm, r ∈ chain /\ Temporal r = Some tm /\ TxFrom tm < TxTo tm /\ DeletedAt tm = 0 /\ TxTo tm = tx /\ Version r = v.
Proof.
  unfold replaced_rows. rewrite list_elem_of_omap. split.
  - intros (r & Hr & Hv). destruct (Temporal r) as [tm|] eqn:Et; [|done].
    destruct (_ && _) eqn:Eb; [|done]. injection Hv as <- <-. exists r, tm. split_and!; try done; lia.
  - intros (r & tm & Hr & Et & H1 & H2 & <- & <-). exists r. split; [done|]. rewrite Et.
    destruct (_ && _) eqn:Eb; [done|]. exfalso. lia.
Qed.

Lemma cap_candidate_iff {T} `{EntityRow T} (start : T -> Instant) (chain : list T) i q ri rq :
  chain !! i = Some ri -> chain !! q = Some rq ->
  (cap_candidate (ith start chain) (ith (fun r => beliefTx (Temporal r)) chain) (ith Version chain) (replaced_rows chain) i q = true
   <-> ends_belief start chain i q ri rq).
Proof.
  intros Hi Hq. unfold cap_candidate, is_replacing, newer, ith. rewrite Hi, Hq. split.
  - rewrite !andb_true_iff. intros [[(rv & Hrv & Hb)%existsb_exists Hn] Hs]. destruct rv as [tx v]. cbn [fst snd] in Hb.
    apply list_elem_of_In, elem_of_replaced_rows in Hrv as (r & tm & ? & ? & ? & ? & ? & ?).
    split; [lia| |exists r, tm; split_and!; try done; lia].
    destruct (Z.eqb_spec (beliefTx (Temporal rq)) (beliefTx (Temporal ri))); cbn [negb] in Hn; [|lia].
    destruct (Z.eqb_spec (Version rq) (Version ri)); cbn [negb] in Hn; [apply Nat.ltb_lt in Hn|]; lia.
  - intros [Hs Hn (r & tm & Hr & Et & H1 & H2 & H3 & H4)]. rewrite !andb_true_iff. split_and!; [| |lia].
    + apply existsb_exists. exists (TxTo tm, Version r). split; [|cbn [fst snd]; lia].
      apply list_elem_of_In, elem_of_replaced_rows. exists r, tm. done.
    + destruct (Z.eqb_spec (beliefTx (Temporal rq)) (beliefTx (Temporal ri))); cbn [negb]; [|lia].
      destruct (Z.eqb_spec (Version rq) (Version ri)); cbn [negb]; [apply Nat.ltb_lt|]; lia.
Qed.

(** The caps of a chain in resolver order, declaratively. *)
Lemma supersession_caps_spec {T} `{EntityRow T} (start : T -> Instant) (chain : list T) (i : nat) ri :
  ordered_by (lt_key start) chain -> chain !! i = Some ri ->
  match supersessionCaps start chain !! i with
  | Some (Some c) =>
      (exists q rq, chain !! q = Some rq /\ ends_belief start chain i q ri rq /\ start rq = c) /\
      forall q rq, chain !! q = Some rq -> ends_belief start chain i q ri rq -> c <= start rq
  | _ => forall q rq, chain !! q = Some rq -> ~ ends_belief start chain i q ri rq
  end.
Proof.
  intros Ho Hi. pose proof (supersessionCaps_lookup start chain i Ho (lookup_lt_Some _ _ _ Hi)) as Hc.
  unfold chain_cap, cap_of in Hc. set (cand := List.filter _ _) in Hc.
  assert (forall q rq, chain !! q = Some rq -> ends_belief start chain i q ri rq ->
    start rq ∈ map (ith start chain) cand) as Hin.
  { intros q rq Hq He. apply list_elem_of_In, in_map_iff. exists q. unfold ith at 1. rewrite Hq. split; [done|].
    apply list_elem_of_In, elem_of_Lfilter. split; [|by eapply cap_candidate_iff].
    apply list_elem_of_In, in_seq. apply lookup_lt_Some in Hq. lia. }
  destruct (supersessionCaps start chain !! i) as [[c|]|].
  2,3: symmetry in Hc; apply min_opt_none in Hc; rewrite Hc in Hin; intros q rq Hq He;
       by apply (not_elem_of_nil (start rq)), (Hin q).
  symmetry in Hc. apply min_opt_some in Hc as [Hm Hle]. split; [|intros q rq Hq He; by apply Hle, (Hin q)].
  apply list_elem_of_In, in_map_iff in Hm as (q & Hs & Hq). apply list_elem_of_In, elem_of_Lfilter in Hq as [Hq Hc].
  apply list_elem_of_In, in_seq in Hq. destruct (lookup_lt_is_Some_2 chain q) as [rq Hrq]; [lia|].
  exists q, rq. split_and!; [done|by eapply cap_candidate_iff|]. rewrite <- Hs. unfold ith. by rewrite Hrq.
Qed.

(** On every chain in resolver order the stack walk with its galloping
    searches gives each row the smallest start of a row that ends its belief, and
    no cap exactly to the rows whose belief nothing ends. *)
Theorem supersession_caps_exact {T} `{EntityRow T} (start : T -> Instant) (chain : list T) (i : nat) ri :
  ordered_by (lt_key start) chain -> chain !! i = Some ri ->
  match supersessionCaps start chain !! i with
  | Some (Some c) =>
      (exists q rq, chain !! q = Some rq /\ ends_belief start chain i q ri rq /\ start rq = c) /\
      forall q rq, chain !! q = Some rq -> ends_belief start chain i q ri rq -> c <= start rq
  | _ => forall q rq, chain !! q = Some rq -> ~ ends_belief start chain i q ri rq
  end.
Proof. apply supersession_caps_spec. Qed.

#[local] Existing Instance demo_layout.

(** A genesis, a correction of a later span and a close recorded at the
    genesis's TxTo: the close ends the genesis, not the correction. *)
Lemma supersession_caps_exact_witness :
  let chain := [demo_row 1 0 (demo_tm 5 0 5 30 0); demo_row 3 2 (demo_tm 20 0 30 0 0); demo_row 2 1 (demo_tm 40 50 20 0 0)] in
  let start := RowStart LegacyValidAxis in
  supersessionCaps start chain = [Some 20; None; None] /\
  exists q rq, chain !! q = Some rq /\ ends_belief start chain 0 q (demo_row 1 0 (demo_tm 5 0 5 30 0)) rq /\ start rq = 20.
Proof.
  intros chain start.
  assert (ordered_by (lt_key start) chain) as Ho by (apply is_sorted_by_ordered; [apply _|reflexivity]).
  pose proof (supersession_caps_exact start chain 0 _ Ho eq_refl) as Hc.
  change (supersessionCaps start chain) with [Some 20; None; None] in Hc |- *.
  split; [reflexivity|]. exact (proj1 Hc).
Defined.
