(* ===== verification/Resolver.v ===== *)
(** * The point resolver (core/temporal.go)

    Which row of a chain is valid at an instant.  A tiling chain takes the
    positional arm (newest first, with a binary search for the place to start);
    every other chain takes the own-bounds arm, where each row covers its own
    interval capped by supersession and the newest belief wins. *)

From S2P Require Import Prelude ValidTime Rows AsOf Chain Supersession.

Section Resolver.
Context {T : Type} `{EntityRow T}.
Implicit Types (r : T) (chain arr : list T) (caps : lifeEnds T).

(** The backward scan over the positions below [n]; [None] is
    ErrNoVersionValidAt. *)
Fixpoint positional_scan (c : Core) chain (t : Instant) caps (n : nat) : option T :=
  match n with
  | O => None
  | S i =>
      match chain !! i with
      | Some entry =>
          let '(vStart, vEnd) := nodeVersionBounds c chain i in
          let vEnd := lifeEnds_end caps (axis c) entry vEnd in
          if IntervalCovers (axis c) vStart vEnd t then (if isVoidRow entry then None else Some entry)
          else positional_scan c chain t caps i
      | None => None
      end
  end.

Definition resolveNodePositional (c : Core) chain (t : Instant) caps : option T :=
  let idx :=
    if bitemporalMigrated c
    then Search (length chain) (fun i => fst (nodeVersionBounds c chain i) >? t)
    else length chain in
  positional_scan c chain t caps idx.

(** The loop of the own-bounds arm over the rows from position [i] on. *)
Fixpoint own_loop (c : Core) (superseded : superCaps) (t : Instant) caps (i : nat) (rest : list T)
    (best : option T) : option T :=
  match rest with
  | [] => best
  | entry :: rest' =>
      let ax := axis c in
      let vStart := RowStart ax entry in
      let vEnd := match Temporal entry with Some tm => ValidTo tm | None => ValidAxis_OpenEnd ax end in
      let '(vEnd, empty) := superCaps_end superseded ax i vStart vEnd in
      let best :=
        if empty then best
        else if IntervalCovers ax vStart (lifeEnds_end caps ax entry vEnd) t then
          match best with
          | None => Some entry
          | Some b => if nodeBeliefNewerThan entry b then Some entry else best
          end
        else best in
      own_loop c superseded t caps (S i) rest' best
  end.

Definition resolveNodeOwnBounds (c : Core) chain (t : Instant) caps : option T :=
  match own_loop c (supersessionCaps (RowStart (axis c)) chain) t caps 0 chain None with
  | Some best => if isVoidRow best then None else Some best
  | None => None
  end.

Definition resolveNodeVersionAtCapped (c : Core) chain (t : Instant) caps : option T :=
  let (own, arr) := sortNodeChainForResolve c chain in
  if own then resolveNodeOwnBounds c arr t caps else resolveNodePositional c arr t caps.

Definition resolveNodeVersionAt (c : Core) chain (t : Instant) : option T := resolveNodeVersionAtCapped c chain t [].

(** ** The rule both arms implement *)

(** The interval a row covers in the arm taken: [None] when a newer belief
    replaced it from its start on. *)
Definition row_iv (c : Core) (own : bool) arr (sc : superCaps) caps (i : nat) r : option (Instant * Instant) :=
  if own then
    let '(s, e) := nodeOwnBounds c r in
    let '(e, empty) := superCaps_end sc (axis c) i s e in
    if empty then None else Some (s, lifeEnds_end caps (axis c) r e)
  else
    let '(s, e) := nodeVersionBounds c arr i in Some (s, lifeEnds_end caps (axis c) r e).

Definition covers_at (c : Core) (own : bool) arr (sc : superCaps) caps (t : Instant) (i : nat) : bool :=
  match arr !! i with
  | Some r => match row_iv c own arr sc caps i r with
              | Some (s, e) => IntervalCovers (axis c) s e t
              | None => false
              end
  | None => false
  end.

(** Position [i] answers before position [j]: the newer belief, or the later
    position of a tiling chain. *)
Definition prefer (own : bool) arr (i j : nat) : bool :=
  if own then newer (ith (fun r => beliefTx (Temporal r)) arr) (ith Version arr) i j else (j <? i)%nat.

#[global] Arguments prefer : simpl never.

Definition arm_caps (c : Core) (own : bool) arr : superCaps :=
  if own then supersessionCaps (RowStart (axis c)) arr else [].

Record is_winner (c : Core) (own : bool) arr caps (t : Instant) (i : nat) : Prop := {
  win_covers : covers_at c own arr (arm_caps c own arr) caps t i = true;
  win_best : forall j, covers_at c own arr (arm_caps c own arr) caps t j = true -> j <> i ->
               prefer own arr i j = true;
}.

(** ** The chain in resolver order *)

Lemma tiling_scan_ordered ax tiles prev rest b :
  tiling_scan ax tiles prev rest = Some b -> is_sorted_by (resolve_lt ax) (prev :: rest) = true.
Proof.
  revert tiles prev. induction rest as [|r rest IH]; intros tiles prev; cbn [tiling_scan]; [done|].
  destruct (_ || _) eqn:E; [done|]. intros Hr. specialize (IH _ _ Hr).
  change (negb (resolve_lt ax r prev) && is_sorted_by (resolve_lt ax) (r :: rest) = true).
  rewrite IH, andb_true_r. unfold resolve_lt, lt_key2. apply orb_false_iff in E as [E1 E2].
  destruct (Z.eqb_spec (RowStart ax r) (RowStart ax prev)), (Z.eqb_spec (RowStart ax prev) (RowStart ax r));
    simpl in *; lia.
Qed.

Lemma sortNodeChainForResolve_spec c chain own arr :
  sortNodeChainForResolve c chain = (own, arr) ->
  arr ≡ₚ chain /\ ordered_by (resolve_lt (axis c)) arr /\ (own = false -> arr = chain).
Proof.
  pose proof (lt_key2_sw (RowStart (axis c)) (Version (T := T))) as Hsw. fold (resolve_lt (T := T) (axis c)) in Hsw.
  unfold sortNodeChainForResolve. destruct chain as [|r rest]; [intros [= <- <-]; repeat split; constructor|].
  destruct (tiling_scan (axis c) true r rest) as [b|] eqn:E; intros [= <- <-].
  - split_and!; [done| |done]. apply is_sorted_by_ordered; [done|]. by eapply tiling_scan_ordered.
  - split_and!; [apply (sort_by_perm _ (r :: rest))|by apply (sort_by_ordered _ (r :: rest))|done].
Qed.

Lemma ordered_starts ax arr : ordered_by (resolve_lt ax) arr -> ordered_by (lt_key (RowStart ax)) arr.
Proof.
  unfold ordered_by. induction 1 as [|x l _ IH Hf]; constructor; [done|].
  eapply Forall_impl; [exact Hf|]. unfold resolve_lt, lt_key2, lt_key. intros y. simpl.
  destruct (Z.eqb_spec (RowStart ax y) (RowStart ax x)); lia.
Qed.

(** After the migration a row's positional start is its start. *)
Lemma versionBounds_start `{!EntityRowOK T} c chain i r :
  bitemporalMigrated c = true -> chain !! i = Some r -> row_wf r ->
  fst (nodeVersionBounds c chain i) = RowStart (axis c) r.
Proof.
  intros Hm Hi Hwf. unfold nodeVersionBounds. rewrite Hi, Hm, (row_start_rule (axis c) r Hwf).
  unfold ValidAxis_Start, ValidAxis_Claimed. destruct (Temporal r) as [tm|]; [|done]. simpl. by rewrite andb_true_r.
Qed.

Lemma covers_at_lt c own arr sc caps t i : covers_at c own arr sc caps t i = true -> (i < length arr)%nat.
Proof.
  unfold covers_at. destruct (arr !! i) eqn:E; [|done]. intros _. by eapply lookup_lt_Some.
Qed.

(** ** The positional arm *)

Lemma positional_scan_spec c chain t caps n :
  (n <= length chain)%nat ->
  (exists i r, (i < n)%nat /\ chain !! i = Some r /\ covers_at c false chain [] caps t i = true /\
     (forall j, (i < j < n)%nat -> covers_at c false chain [] caps t j = false) /\
     positional_scan c chain t caps n = if isVoidRow r then None else Some r) \/
  ((forall j, (j < n)%nat -> covers_at c false chain [] caps t j = false) /\
   positional_scan c chain t caps n = None).
Proof.
  induction n as [|i IH]; intros Hn; cbn [positional_scan].
  { right. split; [intros; lia|done]. }
  destruct (lookup_lt_is_Some_2 chain i) as [r Hr]; [lia|]. rewrite Hr.
  assert (covers_at c false chain [] caps t i =
          let '(s, e) := nodeVersionBounds c chain i in IntervalCovers (axis c) s (lifeEnds_end caps (axis c) r e) t) as Hc.
  { unfold covers_at, row_iv. rewrite Hr. by destruct (nodeVersionBounds c chain i). }
  destruct (nodeVersionBounds c chain i) as [s e]. cbv zeta. destruct (IntervalCovers _ s _ t).
  - left. exists i, r. split_and!; [lia|done..|intros; lia|done].
  - destruct IH as [(k & r' & H1 & H2 & H3 & H4 & H5)|[H1 H2]]; [lia|left|right].
    + exists k, r'. split_and!; [lia|done..| |done]. intros j Hj. destruct (decide (j = i)) as [->|]; [done|apply H4; lia].
    + split; [|done]. intros j Hj. destruct (decide (j = i)) as [->|]; [done|apply H1; lia].
Qed.

(** The binary search skips only rows that start after [t]. *)
Lemma positional_start_sound `{!EntityRowOK T} c chain t caps j :
  bitemporalMigrated c = true -> Forall row_wf chain -> ordered_by (lt_key (RowStart (axis c))) chain ->
  (Search (length chain) (fun i => fst (nodeVersionBounds c chain i) >? t) <= j)%nat ->
  covers_at c false chain [] caps t j = false.
Proof.
  intros Hm Hwf Ho Hj. unfold covers_at. destruct (chain !! j) as [r|] eqn:Er; [|done].
  assert (forall k rk, chain !! k = Some rk -> fst (nodeVersionBounds c chain k) = RowStart (axis c) rk) as Hs.
  { intros k rk Hk. apply versionBounds_start; [done..|]. rewrite Forall_forall in Hwf. apply Hwf.
    by eapply list_elem_of_lookup_2. }
  destruct (Search_spec (length chain) (fun i => fst (nodeVersionBounds c chain i) >? t)) as (_ & _ & Htrue).
  { intros a b Hab Hb. destruct (lookup_lt_is_Some_2 chain a) as [ra Ha]; [lia|].
    destruct (lookup_lt_is_Some_2 chain b) as [rb Hb']; [lia|]. rewrite (Hs a ra Ha), (Hs b rb Hb').
    pose proof (ordered_nth (lt_key (RowStart (axis c))) chain ra a b Ho ltac:(lia)) as Hn.
    rewrite (nth_lookup_Some chain a ra ra Ha), (nth_lookup_Some chain b ra rb Hb') in Hn. unfold lt_key in Hn. lia. }
  pose proof (lookup_lt_Some _ _ _ Er). specialize (Htrue j ltac:(lia)). unfold row_iv.
  destruct (nodeVersionBounds c chain j) as [s e]. simpl in Htrue. unfold IntervalCovers.
  destruct (Z.leb_spec s t); [lia|done].
Qed.

(** ** The own-bounds arm *)

Lemma own_end_eq a (tm : option TemporalMetadata) :
  match tm with Some m => ValidTo m | None => ValidAxis_OpenEnd a end =
  match tm with
  | Some m => if negb (ValidAxis_Open a (ValidTo m)) then ValidTo m else ValidAxis_OpenEnd a
  | None => ValidAxis_OpenEnd a
  end.
Proof.
  destruct tm as [m|]; [|done]. unfold ValidAxis_Open, ValidAxis_OpenEnd.
  by destruct (Z.eqb_spec (ValidTo m) (openEnd a)).
Qed.

Lemma belief_newer_index arr i b ri rb :
  (b < i)%nat -> arr !! i = Some ri -> arr !! b = Some rb ->
  nodeBeliefNewerThan ri rb = prefer true arr i b.
Proof.
  intros Hlt Hi Hb. unfold prefer, newer, nodeBeliefNewerThan, ith. rewrite Hi, Hb.
  destruct (_ =? _); simpl; [|done]. destruct (Z.eqb_spec (Version ri) (Version rb)) as [->|]; simpl; [|done].
  destruct (Nat.ltb_spec i b); lia.
Qed.

(** The best of the first [i] positions. *)
Definition best_below (c : Core) arr (sc : superCaps) caps (t : Instant) (i : nat) (best : option T) : Prop :=
  match best with
  | None => forall j, (j < i)%nat -> covers_at c true arr sc caps t j = false
  | Some rb => exists b, (b < i)%nat /\ arr !! b = Some rb /\ covers_at c true arr sc caps t b = true /\
      forall j, (j < i)%nat -> covers_at c true arr sc caps t j = true -> j <> b -> prefer true arr b j = true
  end.

Lemma prefer_trans own arr i j k : prefer own arr i j = true -> prefer own arr j k = true -> prefer own arr i k = true.
Proof.
  unfold prefer. destruct own; [apply newer_trans|]. rewrite !Nat.ltb_lt. lia.
Qed.

Lemma prefer_total own arr i j : i <> j -> prefer own arr i j = false -> prefer own arr j i = true.
Proof.
  unfold prefer. intros Hij. destruct own; [by apply newer_total|].
  rewrite Nat.ltb_lt, Nat.ltb_ge. lia.
Qed.

Lemma prefer_irrefl own arr i : prefer own arr i i = false.
Proof. unfold prefer. destruct own; [apply newer_irrefl|apply Nat.ltb_irrefl]. Qed.

Lemma own_loop_spec c sc t caps pre rest best :
  best_below c (pre ++ rest) sc caps t (length pre) best ->
  best_below c (pre ++ rest) sc caps t (length (pre ++ rest)) (own_loop c sc t caps (length pre) rest best).
Proof.
  revert pre best. induction rest as [|r rest IH]; intros pre best Hb; cbn [own_loop].
  { by rewrite app_nil_r in *. }
  set (arr := pre ++ r :: rest) in *.
  assert (arr !! length pre = Some r) as Hr by (subst arr; by apply list_lookup_middle).
  assert (covers_at c true arr sc caps t (length pre) =
    let '(vEnd, empty) := superCaps_end sc (axis c) (length pre) (RowStart (axis c) r)
       (match Temporal r with Some tm => ValidTo tm | None => ValidAxis_OpenEnd (axis c) end) in
    if empty then false else IntervalCovers (axis c) (RowStart (axis c) r) (lifeEnds_end caps (axis c) r vEnd) t) as Hc.
  { unfold covers_at, row_iv, nodeOwnBounds. rewrite Hr, own_end_eq.
    destruct (superCaps_end _ _ _ _ _) as [e []]; done. }
  cbv zeta. destruct (superCaps_end _ _ _ _ _) as [vEnd empty].
  replace arr with ((pre ++ [r]) ++ rest) in * by (subst arr; by rewrite <- app_assoc).
  replace (S (length pre)) with (length (pre ++ [r])) by (rewrite length_app; simpl; lia).
  apply IH. rewrite length_app. cbn [length].
  set (arr' := (pre ++ [r]) ++ rest) in *. clearbody arr'.
  assert (covers_at c true arr' sc caps t (length pre) = false -> best_below c arr' sc caps t (length pre + 1) best) as Hskip.
  { intros Hf. destruct best as [rb|]; simpl in *.
    - destruct Hb as (b & Hlt & Hbb & Hcb & Hall). exists b. split_and!; [lia|done..|].
      intros j Hj Hcj Hne. apply Hall; [|done..]. destruct (decide (j = length pre)) as [->|]; [congruence|lia].
    - intros j Hj. destruct (decide (j = length pre)) as [->|]; [done|apply Hb; lia]. }
  destruct empty; [by apply Hskip|].
  destruct (IntervalCovers _ _ _ t) eqn:Ei; [|by apply Hskip]. clear Hskip.
  destruct best as [rb|]; simpl in Hb |- *.
  - destruct Hb as (b & Hlt & Hbb & Hcb & Hall).
    rewrite (belief_newer_index arr' (length pre) b r rb Hlt Hr Hbb).
    destruct (prefer true arr' (length pre) b) eqn:Ep; simpl.
    + exists (length pre). split_and!; [lia|done..|]. intros j Hj Hcj Hne.
      destruct (decide (j = b)) as [->|]; [done|].
      apply (prefer_trans true arr' _ b j); [done|]. apply Hall; [lia|done..].
    + exists b. split_and!; [lia|done..|]. intros j Hj Hcj Hne.
      destruct (decide (j = length pre)) as [->|]; [apply prefer_total; [lia|done]|]. apply Hall; [lia|done..].
  - exists (length pre). split_and!; [lia|done..|]. intros j Hj Hcj Hne.
    rewrite Hb in Hcj; [done|lia].
Qed.

(** The own-bounds arm answers the winner by own bounds, on any list of rows. *)
Lemma own_bounds_winner c arr t caps :
  (exists i r, is_winner c true arr caps t i /\ arr !! i = Some r /\
     resolveNodeOwnBounds c arr t caps = if isVoidRow r then None else Some r) \/
  ((forall j, covers_at c true arr (arm_caps c true arr) caps t j = false) /\ resolveNodeOwnBounds c arr t caps = None).
Proof.
  unfold resolveNodeOwnBounds.
  pose proof (own_loop_spec c (supersessionCaps (RowStart (axis c)) arr) t caps [] arr None) as Hspec.
  simpl in Hspec. specialize (Hspec ltac:(intros; lia)).
  destruct (own_loop _ _ _ _ _ _ _) as [rb|]; simpl in Hspec.
  - destruct Hspec as (b & Hlt & Hb & Hcb & Hall). left. exists b, rb. split_and!; [|done..].
    split; [done|]. intros j Hj Hne. apply Hall; [by eapply covers_at_lt|done..].
  - right. split; [|done]. intros j. destruct (covers_at _ _ _ _ _ _ j) eqn:E; [|done].
    rewrite Hspec in E; [done|by eapply covers_at_lt].
Qed.

(** ** Both arms *)

(** The resolver on a chain in resolver order answers the winner, where there
    is one, unless it is a void piece. *)
Lemma resolve_winner `{!EntityRowOK T} c chain t caps own arr :
  sortNodeChainForResolve c chain = (own, arr) -> Forall row_wf chain ->
  (exists i r, is_winner c own arr caps t i /\ arr !! i = Some r /\
     resolveNodeVersionAtCapped c chain t caps = if isVoidRow r then None else Some r) \/
  ((forall j, covers_at c own arr (arm_caps c own arr) caps t j = false) /\
   resolveNodeVersionAtCapped c chain t caps = None).
Proof.
  intros Hs Hwf. pose proof (sortNodeChainForResolve_spec c chain own arr Hs) as (Hp & Ho & _).
  assert (Forall row_wf arr) as Hwf' by (by rewrite Hp).
  unfold resolveNodeVersionAtCapped. rewrite Hs. destruct own; simpl.
  - apply own_bounds_winner.
  - unfold resolveNodePositional.
    set (idx := if bitemporalMigrated c then _ else _).
    assert (forall j, (idx <= j)%nat -> covers_at c false arr [] caps t j = false) as Hskip.
    { intros j Hj. subst idx. destruct (bitemporalMigrated c) eqn:Em.
      - by apply positional_start_sound; [..|apply ordered_starts|].
      - destruct (covers_at c false arr [] caps t j) eqn:E; [|done]. apply covers_at_lt in E. lia. }
    assert (idx <= length arr)%nat as Hidx.
    { subst idx. destruct (bitemporalMigrated c); [|lia]. unfold Search.
      clear. generalize (length arr) at 2 3 as n. intros n.
      assert (forall fuel f i j, (i <= j)%nat -> (search_loop fuel f i j <= j)%nat) as Hb.
      { induction fuel as [|fuel IH]; intros f i j Hij; cbn [search_loop]; [done|].
        destruct (Nat.ltb_spec i j); [|done]. pose proof (Nat.div_mod_eq (i + j) 2).
        pose proof (Nat.mod_upper_bound (i + j) 2).
        destruct (f _); [|apply IH; lia]. etrans; [apply IH; lia|lia]. }
      apply Hb. lia. }
    clearbody idx. destruct (positional_scan_spec c arr t caps idx Hidx) as [(i & r & H1 & H2 & H3 & H4 & H5)|[H1 H2]].
    + left. exists i, r. split_and!; [|done..]. split; [done|]. intros j Hj Hne. simpl. apply Nat.ltb_lt.
      destruct (decide (j < i)%nat); [done|]. destruct (decide (j < idx)%nat).
      * rewrite H4 in Hj; [done|lia].
      * simpl in Hj. rewrite Hskip in Hj; [done|lia].
    + right. split; [|done]. intros j. destruct (decide (j < idx)%nat); [by apply H1|apply Hskip; lia].
Qed.

Lemma winner_unique c own arr caps t i j : is_winner c own arr caps t i -> is_winner c own arr caps t j -> i = j.
Proof.
  intros [H1 H2] [H3 H4]. destruct (decide (i = j)) as [|Hne]; [done|].
  pose proof (prefer_trans _ _ _ _ _ (H2 j H3 ltac:(done)) (H4 i H1 ltac:(done))) as Hc.
  by rewrite prefer_irrefl in Hc.
Qed.

(** ** The winner as a function *)

Definition best_of (own : bool) arr (l : list nat) (b : option nat) : option nat :=
  fold_left (fun b i => match b with None => Some i | Some j => if prefer own arr i j then Some i else b end) l b.

(** The row that wins at [t], void or not: the reference rule. *)
Definition winner_row (c : Core) chain (t : Instant) caps : option T :=
  let (own, arr) := sortNodeChainForResolve c chain in
  match best_of own arr (List.filter (covers_at c own arr (arm_caps c own arr) caps t) (seq 0 (length arr))) None with
  | Some i => arr !! i
  | None => None
  end.

Lemma best_of_some own arr l b :
  exists m, best_of own arr l (Some b) = Some m /\ m ∈ b :: l /\ forall j, j ∈ b :: l -> j <> m -> prefer own arr m j = true.
Proof.
  revert b. induction l as [|x l IH]; intros b; cbn [best_of fold_left].
  { exists b. split_and!; [done|left|]. intros j Hj. by apply list_elem_of_singleton in Hj. }
  destruct (prefer own arr x b) eqn:E.
  - destruct (IH x) as (m & Hr & Hin & Hall). exists m. split_and!; [done|by right|].
    intros j Hj Hne. apply elem_of_cons in Hj as [->|Hj]; [|by apply Hall].
    destruct (decide (m = x)) as [->|Hrx]; [done|].
    apply (prefer_trans own arr m x b); [apply Hall; [left|congruence]|done].
  - destruct (IH b) as (m & Hr & Hin & Hall). exists m. split_and!; [done|set_solver|].
    intros j Hj Hne. apply elem_of_cons in Hj as [->|Hj]; [by apply Hall; [left|]|].
    apply elem_of_cons in Hj as [->|Hj]; [|apply Hall; [by right|done]].
    destruct (decide (x = b)) as [->|Hxb]; [apply Hall; [left|done]|].
    pose proof (prefer_total own arr x b Hxb E) as Hbx. destruct (decide (m = b)) as [->|Hrb]; [done|].
    apply (prefer_trans own arr m b x); [apply Hall; [left|congruence]|done].
Qed.

Lemma winner_row_spec c chain t caps own arr :
  sortNodeChainForResolve c chain = (own, arr) ->
  (exists i r, is_winner c own arr caps t i /\ arr !! i = Some r /\ winner_row c chain t caps = Some r) \/
  ((forall j, covers_at c own arr (arm_caps c own arr) caps t j = false) /\ winner_row c chain t caps = None).
Proof.
  intros Hs. unfold winner_row. rewrite Hs. set (f := covers_at c own arr (arm_caps c own arr) caps t).
  assert (forall j, f j = true <-> j ∈ List.filter f (seq 0 (length arr))) as Hf.
  { intros j. rewrite elem_of_Lfilter, elem_of_seq. split; [|tauto]. intros Hj. apply covers_at_lt in Hj as ?. split; [lia|done]. }
  destruct (List.filter f (seq 0 (length arr))) as [|x l].
  - right. split; [|done]. intros j. destruct (f j) eqn:E; [|done]. apply Hf in E. by apply not_elem_of_nil in E.
  - left. cbn [best_of fold_left]. destruct (best_of_some own arr l x) as (m & Hr & Hin & Hall). unfold best_of in Hr. rewrite Hr.
    assert (f m = true) as Hfr by (by apply Hf). destruct (lookup_lt_is_Some_2 arr m) as [w Hw]; [by eapply covers_at_lt|].
    exists m, w. split_and!; [|done..]. split; [done|]. intros j Hj Hne. apply Hall; [by apply Hf|done].
Qed.

(** The resolver is the reference rule without the void winners. *)
Lemma resolve_winner_row `{!EntityRowOK T} c chain t caps :
  Forall row_wf chain ->
  resolveNodeVersionAtCapped c chain t caps =
    match winner_row c chain t caps with Some r => if isVoidRow r then None else Some r | None => None end.
Proof.
  intros Hwf. destruct (sortNodeChainForResolve c chain) as [own arr] eqn:Hs.
  destruct (resolve_winner c chain t caps own arr Hs Hwf) as [(i & r & Hi & Hr & ->)|[Hn ->]],
    (winner_row_spec c chain t caps own arr Hs) as [(i' & r' & Hi' & Hr' & ->)|[Hn' ->]]; try done.
  - rewrite (winner_unique c own arr caps t i i' Hi Hi'), Hr' in Hr. by injection Hr as ->.
  - destruct Hi as [Hc _]. by rewrite Hn' in Hc.
  - destruct Hi' as [Hc _]. by rewrite Hn in Hc.
Qed.
End Resolver.

(** C31: the point resolver answers the rule of the arm it takes: among the rows whose
    interval in that arm covers the instant, the own-bounds arm's winner is the newest
    belief and the positional arm's, on a chain that looks like a plain tiling, the
    latest position; a void winner means absent.  The positional arm's binary search
    and the own-bounds arm's single pass change nothing.  The two rules differ on some
    tiling chains. *)
Theorem point_resolver_exact {T} `{EntityRowOK T} c (chain : list T) t caps :
  Forall row_wf chain ->
  resolveNodeVersionAtCapped c chain t caps =
    match winner_row c chain t caps with Some r => if isVoidRow r then None else Some r | None => None end.
Proof. apply resolve_winner_row. Qed.

Section Witness.
#[local] Existing Instance demo_layout.

Lemma point_resolver_exact_witness :
  let chain := [demo_row 1 0 (demo_tm 5 0 5 0 0); demo_row 2 1 (demo_tm 20 40 30 0 0); demo_row 3 2 (demo_tm 10 60 45 0 0)] in
  let c := mkCore LegacyValidAxis true in
  resolveNodeVersionAtCapped c chain 25 [] =
    match winner_row c chain 25 [] with Some r => if isVoidRow r then None else Some r | None => None end /\
  n_version <$> winner_row c chain 25 [] = Some 2.
Proof.
  intros chain c. split; [|reflexivity]. apply (point_resolver_exact c chain 25 []).
  forall_literal ltac:(intros [? [=]]).
Defined.
End Witness.

(** ** The relationship mirror *)

Definition resolveRelVersionAtCapped {P} `{EqDecision P} `{Layout} :
    Core -> list (Relationship P) -> Instant -> lifeEnds (Relationship P) -> option (Relationship P) :=
  resolveNodeVersionAtCapped.
