(* ===== verification/Effective.v ===== *)
(** * The effective timeline (core/effective_timeline.go)

    [effectivePieces] answers the point resolver for every valid instant at
    once: it classifies the chain, computes each row's covering interval, and
    sweeps over the interval bounds with a max-heap by priority.
    [effectivePieces_pointwise] is the refinement: at every instant the pieces
    hold the row the point resolver answers. *)

From S2P Require Import Prelude ValidTime Rows AsOf Chain Heap Supersession Resolver.

(** [effPiece]: one resolved piece [from, to) and the index, in the caller's
    chain, of the row its winner came from. *)
Record effPiece {T : Type} := mkPiece { p_from : Instant; p_to : Instant; p_row : T; p_src : nat }.
Arguments effPiece : clear implicits.

Definition set_prio (p : Z) (iv : effInterval) : effInterval := mkIv (iv_s iv) (iv_e iv) (iv_pos iv) p.

Section Effective.
Context {T : Type} `{EntityRow T}.
Implicit Types (r : T) (chain arr filtered : list T) (caps : lifeEnds T).

(** ** Intervals *)

(** The loop of [sweepIntervals] over the rows from position [i] on. *)
Fixpoint intervals_from (c : Core) (cascade : bool) arr (superseded : superCaps) caps (i : nat) (rest : list T) :
    list effInterval :=
  match rest with
  | [] => []
  | r :: rest' =>
      let a := axis c in
      let more := intervals_from c cascade arr superseded caps (S i) rest' in
      let '(s, e, empty) :=
        if cascade then
          let '(s, e) := nodeOwnBounds c r in
          let '(e, empty) := superCaps_end superseded a i s e in (s, e, empty)
        else let '(s, e) := nodeVersionBounds c arr i in (s, e, false) in
      if (empty : bool) then more
      else
        let e := lifeEnds_end caps a r e in
        if negb (ValidAxis_Open a e) && (e <=? s) then more
        else mkIv s e i (Z.of_nat i) :: more
  end.

Definition sweepIntervals (c : Core) filtered caps : list T * list effInterval * bool :=
  let (cascade, arr) := sortNodeChainForResolve c filtered in
  let superseded := if cascade then supersessionCaps (RowStart (axis c)) arr else [] in
  (arr, intervals_from c cascade arr superseded caps 0 arr, cascade).

(** [newerBelief]: -1, 0, +1 as [cmp.Compare]. *)
Definition cmp_compare (x y : Z) : Z := if x <? y then -1 else if x >? y then 1 else 0.

Definition newerBelief arr (x y : effInterval) : Z :=
  let rx f := ith f arr (iv_pos x) in let ry f := ith f arr (iv_pos y) in
  let c := cmp_compare (rx (fun r => beliefTx (Temporal r))) (ry (fun r => beliefTx (Temporal r))) in
  if negb (c =? 0) then c
  else
    let c := cmp_compare (rx Version) (ry Version) in
    if negb (c =? 0) then c else cmp_compare (Z.of_nat (iv_pos y)) (Z.of_nat (iv_pos x)).

(** [rankBeliefs]: sort the indices, then write each rank. *)
Definition rankBeliefs arr (ivs : list effInterval) : list effInterval :=
  let rank := sort_by (fun x y => newerBelief arr (nth x ivs iv0) (nth y ivs iv0) <? 0) (seq 0 (length ivs)) in
  fold_left (fun ivs pi => alter (set_prio (Z.of_nat (fst pi))) (snd pi) ivs) (zip (seq 0 (length rank)) rank) ivs.

(** ** The sweep *)

Fixpoint push_started (from : Instant) (ivs : list effInterval) (h : effHeap) : list effInterval * effHeap :=
  match ivs with
  | iv :: rest => if iv_s iv <=? from then push_started from rest (effHeap_push h iv) else (ivs, h)
  | [] => ([], h)
  end.

(** Every round removes an element: the heap's length is enough fuel. *)
Fixpoint pop_ended (fuel : nat) (a : ValidAxis) (from : Instant) (h : effHeap) : effHeap :=
  match fuel, h with
  | S fuel', top :: _ =>
      if negb (ValidAxis_Open a (iv_e top)) && (iv_e top <=? from) then pop_ended fuel' a from (effHeap_pop h) else h
  | _, _ => h
  end.

Definition origin_of (origin : list (T * nat)) (w : T) : nat :=
  match List.find (fun e => bool_decide (fst e = w)) origin with Some e => snd e | None => 0%nat end.

(** Append a piece or extend the last one; [out] is kept last first. *)
Definition add_piece (origin : list (T * nat)) (from to : Instant) (w : T) (out : list (effPiece T)) :
    list (effPiece T) :=
  match out with
  | p :: out' =>
      if bool_decide (p_row p = w) && (p_to p =? from)
      then mkPiece T (p_from p) to (p_row p) (p_src p) :: out'
      else mkPiece T from to w (origin_of origin w) :: out
  | [] => [mkPiece T from to w (origin_of origin w)]
  end.

Fixpoint sweep_loop (a : ValidAxis) arr (origin : list (T * nat)) (keepVoid : bool) (cuts : list Instant)
    (ivs : list effInterval) (h : effHeap) (out : list (effPiece T)) : list (effPiece T) :=
  match cuts with
  | [] => out
  | from :: cuts' =>
      let (ivs, h) := push_started from ivs h in
      let h := pop_ended (length h) a from h in
      let out :=
        match h with
        | [] => out
        | top :: _ =>
            let to := match cuts' with next :: _ => next | [] => ValidAxis_OpenEnd a end in
            match arr !! iv_pos top with
            | Some w => if isVoidRow w && negb keepVoid then out else add_piece origin from to w out
            | None => out
            end
        end in
      sweep_loop a arr origin keepVoid cuts' ivs h out
  end.

Definition interval_cuts (a : ValidAxis) (ivs : list effInterval) : list Instant :=
  flat_map (fun iv => if negb (ValidAxis_Open a (iv_e iv)) then [iv_s iv; iv_e iv] else [iv_s iv]) ivs.

Definition sweepPieces (c : Core) arr (ivs : list effInterval) (cascade : bool) (origin : list (T * nat))
    (keepVoid : bool) : list (effPiece T) :=
  let a := axis c in
  let ivs := if cascade then rankBeliefs arr ivs else ivs in
  let cuts := compact_list (sort_by Z.ltb (interval_cuts a ivs)) in
  let ivs := sort_by (lt_key iv_s) ivs in
  rev (sweep_loop a arr origin keepVoid cuts ivs [] []).

Definition effectiveSweep (c : Core) filtered (origin : list (T * nat)) caps (keepVoid : bool) :
    list (effPiece T) * bool :=
  let '(arr, ivs, cascade) := sweepIntervals c filtered caps in
  (sweepPieces c arr ivs cascade origin keepVoid, cascade).

(** ** All pieces of a chain at a pin *)

(** The rows recorded by the pin in write order, each with its index in
    [chain]. *)
Definition filtered_rows (c : Core) chain (pin : Instant) : list (T * nat) :=
  let byWrite := chainWriteOrder chain in
  let order := sort_by (fun x y => byWrite (fst x) (fst y)) (zip chain (seq 0 (length chain))) in
  omap (fun ri => match nodeRowAtTx (axis c) (fst ri) pin with Some r => Some (r, snd ri) | None => None end) order.

Definition effectivePieces (c : Core) chain (pin : Instant) : list (effPiece T) :=
  match chain with
  | [r0] =>
      match nodeRowAtTx (axis c) r0 pin with
      | None => []
      | Some r =>
          let retracted := match Temporal r with
                           | Some tm => negb (DeletedAt tm =? 0) && Retracted tm
                           | None => false
                           end in
          if retracted then []
          else
            let a := axis c in
            let '(s, e) := nodeVersionBounds c [r] 0 in
            let e := lifeEnds_end (chainLifeEnds [r]) a r e in
            if negb (ValidAxis_Open a e) && (e <=? s) then [] else [mkPiece T s e r 0]
      end
  | _ =>
      let rows := filtered_rows c chain pin in
      let filtered := dropRetractedLives (map fst rows) in
      match filtered with
      | [] => []
      | _ => fst (effectiveSweep c filtered (rev rows) (chainLifeEnds filtered) false)
      end
  end.

(** ** Segments *)

Definition segmentReaches (a : ValidAxis) (to validFrom : Instant) : bool := ValidAxis_Open a to || (to >=? validFrom).

Definition tailOf (c : Core) (segs : list (effPiece T)) (validFrom : Instant) : list (effPiece T) :=
  List.filter (fun s => segmentReaches (axis c) (p_to s) validFrom) segs.
End Effective.

(** ** The sweep over any set of intervals *)

Definition iv_covers (a : ValidAxis) (iv : effInterval) (t : Instant) : bool := IntervalCovers a (iv_s iv) (iv_e iv) t.

(** The row the pieces hold at an instant. *)
Definition piece_at {T} (a : ValidAxis) (pieces : list (effPiece T)) (t : Instant) : option T :=
  match List.find (fun p => IntervalCovers a (p_from p) (p_to p) t) pieces with
  | Some p => Some (p_row p)
  | None => None
  end.

(** The instants the cuts still to come do not reach. *)
Definition before_cuts (cuts : list Instant) (t : Instant) : Prop :=
  match cuts with [] => True | from :: _ => t < from end.

Section Sweep.
Context {T : Type} `{EntityRow T} (a : ValidAxis) (arr : list T) (origin : list (T * nat)) (keepVoid : bool).
Context (all : list effInterval) (expected : Instant -> option T).

(** What is expected at an instant: the row of an interval of highest priority
    among those that cover it, and nothing where none does. *)
Hypothesis Hpos : forall iv, iv ∈ all -> is_Some (arr !! iv_pos iv).
Hypothesis Hwin : forall t iv w, iv ∈ all -> iv_covers a iv t = true ->
  (forall iv', iv' ∈ all -> iv_covers a iv' t = true -> iv_prio iv' <= iv_prio iv) ->
  arr !! iv_pos iv = Some w -> expected t = if isVoidRow w && negb keepVoid then None else Some w.
Hypothesis Hgap : forall t, (forall iv, iv ∈ all -> iv_covers a iv t = false) -> expected t = None.

(** The intervals not started yet, and the heap: everything else ended. *)
Record heap_inv (from : Instant) (rem : list effInterval) (h : effHeap) : Prop := {
  hi_ok : heap_ok h;
  hi_sub : forall iv, iv ∈ h -> iv ∈ all /\ iv_s iv <= from;
  hi_rem : forall iv, iv ∈ rem -> iv ∈ all;
  hi_sorted : ordered_by (lt_key iv_s) rem;
  hi_all : forall iv, iv ∈ all -> iv ∈ rem \/ iv ∈ h \/ (ValidAxis_Open a (iv_e iv) = false /\ iv_e iv <= from);
}.

Lemma heap_inv_later from from' rem h : from <= from' -> heap_inv from rem h -> heap_inv from' rem h.
Proof.
  intros Hle [H1 H2 H3 H4 H5]. split; [done| |done|done|].
  - intros iv Hiv. destruct (H2 iv Hiv). split; [done|lia].
  - intros iv Hiv. destruct (H5 iv Hiv) as [|[|[? ?]]]; [by left|right; by left|right; right; split; [done|lia]].
Qed.

Lemma push_started_inv from rem h :
  heap_inv from rem h ->
  let (rem', h') := push_started from rem h in
  heap_inv from rem' h' /\ forall iv, iv ∈ rem' -> from < iv_s iv.
Proof.
  revert h. induction rem as [|iv rem IH]; intros h [H1 H2 H3 H4 H5]; cbn [push_started].
  { split; [done|]. intros iv Hiv. by apply not_elem_of_nil in Hiv. }
  apply StronglySorted_inv in H4 as [H4 Hf]. destruct (Z.leb_spec (iv_s iv) from) as [Hle|Hgt].
  - destruct (effHeap_push_ok h iv H1) as [Hok Hp]. apply IH. split; [done| | |done|].
    + intros x Hx. rewrite Hp in Hx. apply elem_of_cons in Hx as [->|Hx]; [|by apply H2].
      split; [apply H3; left|done].
    + intros x Hx. apply H3. by right.
    + intros x Hx. rewrite Hp, elem_of_cons. destruct (H5 x Hx) as [Hr|[|]]; [|tauto|tauto].
      apply elem_of_cons in Hr as [->|]; tauto.
  - split; [split; try done; by constructor|]. intros x Hx. apply elem_of_cons in Hx as [->|Hx]; [done|].
    rewrite Forall_forall in Hf. specialize (Hf x Hx). unfold lt_key in Hf. lia.
Qed.

Lemma pop_ended_inv fuel from rem h :
  (length h <= fuel)%nat -> heap_inv from rem h ->
  heap_inv from rem (pop_ended fuel a from h) /\
  match pop_ended fuel a from h with [] => True | top :: _ => iv_covers a top from = true end.
Proof.
  revert h. induction fuel as [|fuel IH]; intros h Hf Hi.
  { destruct h; [done|simpl in Hf; lia]. }
  destruct h as [|top h]; [done|]. cbn [pop_ended].
  destruct (_ && _) eqn:E.
  - apply andb_prop in E as [E1%negb_true_iff E2]. destruct Hi as [H1 H2 H3 H4 H5].
    destruct (effHeap_pop_ok top h H1) as [Hok Hp].
    apply IH; [rewrite Hp; simpl in Hf; lia|]. split; [done| |done|done|].
    + intros x Hx. rewrite Hp in Hx. apply H2. by right.
    + intros x Hx. rewrite Hp. destruct (H5 x Hx) as [|[Hh|]]; [tauto| |tauto].
      apply elem_of_cons in Hh as [->|]; [|tauto]. right. right. split; [done|lia].
  - split; [done|]. destruct (hi_sub _ _ _ Hi top ltac:(left)) as [_ Hs].
    unfold iv_covers, IntervalCovers. destruct (ValidAxis_Open a (iv_e top)); simpl in *; lia.
Qed.

(** Between two neighbouring cuts every interval covers all or nothing. *)
Lemma covers_between from cuts iv t :
  StronglySorted Z.lt (from :: cuts) ->
  (iv_s iv < from \/ iv_s iv ∈ from :: cuts) ->
  (ValidAxis_Open a (iv_e iv) = true \/ iv_e iv < from \/ iv_e iv ∈ from :: cuts) ->
  from <= t -> before_cuts cuts t -> iv_covers a iv t = iv_covers a iv from.
Proof.
  intros Hs Hb He Ht Hbef. apply StronglySorted_inv in Hs as [Hs Hf]. rewrite Forall_forall in Hf.
  assert (forall x, x < from \/ x ∈ from :: cuts -> x <= from \/ t < x) as Hx.
  { intros x [|Hx]; [lia|]. apply elem_of_cons in Hx as [->|Hx]; [lia|]. right.
    destruct cuts as [|next cuts]; [by apply not_elem_of_nil in Hx|]. simpl in Hbef.
    apply elem_of_cons in Hx as [->|Hx]; [done|]. apply StronglySorted_inv in Hs as [_ Hs].
    rewrite Forall_forall in Hs. specialize (Hs x Hx). lia. }
  pose proof (Hx _ Hb). unfold iv_covers, IntervalCovers.
  destruct (ValidAxis_Open a (iv_e iv)) eqn:Eo; simpl; [lia|].
  destruct He as [He|He]; [done|]. pose proof (Hx _ He). lia.
Qed.

(** ** The pieces found so far *)

Definition piece_ok (p : effPiece T) : Prop := ValidAxis_Open a (p_to p) = true \/ p_from p < p_to p.

(** [p] comes right after [q] without being its continuation. *)
Fixpoint merged (out : list (effPiece T)) : Prop :=
  match out with
  | p :: ((q :: _) as out') => ~ (p_row q = p_row p /\ p_to q = p_from p) /\ merged out'
  | _ => True
  end.

Record out_inv (cuts : list Instant) (out : list (effPiece T)) : Prop := {
  oi_exact : forall t, before_cuts cuts t -> piece_at a out t = expected t;
  oi_ok : Forall piece_ok out;
  oi_sorted : StronglySorted (fun p q => ValidAxis_Open a (p_to q) = false /\ p_to q <= p_from p) out;
  oi_below : match cuts with
             | [] => True
             | from :: _ => Forall (fun p => ValidAxis_Open a (p_to p) = false /\ p_to p <= from) out
             end;
  oi_merged : merged out;
  oi_from : Forall (fun p => p_from p <> openEnd a) out;
}.

Lemma piece_at_none pieces t :
  Forall (fun p => IntervalCovers a (p_from p) (p_to p) t = false) pieces -> piece_at (T := T) a pieces t = None.
Proof.
  intros Hf. unfold piece_at. destruct (List.find _ pieces) as [p|] eqn:E; [|done].
  apply find_some in E as [Hin Hc]. rewrite Forall_forall in Hf.
  rewrite Hf in Hc; [done|by apply list_elem_of_In].
Qed.

(** Where nothing is added, nothing is expected up to the next cut. *)
Lemma out_inv_skip from cuts out :
  StronglySorted Z.lt (from :: cuts) -> out_inv (from :: cuts) out ->
  (forall t, from <= t -> before_cuts cuts t -> expected t = None) -> out_inv cuts out.
Proof.
  intros Hs [H1 H2 H3 H4 H5 H6] Hn. apply StronglySorted_inv in Hs as [_ Hf]. split; [|done|done| |done|done].
  - intros t Ht. destruct (Z.lt_ge_cases t from) as [Hlt|Hge]; [by apply H1|]. rewrite Hn by done.
    apply piece_at_none. eapply Forall_impl; [exact H4|]. simpl. intros p [Ho Hle].
    unfold IntervalCovers. rewrite Ho. simpl. lia.
  - destruct cuts as [|next cuts]; [done|]. apply Forall_cons in Hf as [Hlt _].
    eapply Forall_impl; [exact H4|]. simpl. intros p [? ?]. split; [done|lia].
Qed.

Lemma out_inv_add from cuts out w :
  StronglySorted Z.lt (from :: cuts) -> Forall (fun x => x <> openEnd a) (from :: cuts) ->
  out_inv (from :: cuts) out ->
  (forall t, from <= t -> before_cuts cuts t -> expected t = Some w) ->
  out_inv cuts (add_piece origin from (match cuts with next :: _ => next | [] => ValidAxis_OpenEnd a end) w out).
Proof.
  intros Hs Hno [H1 H2 H3 H4 H5 H6] Hw. apply StronglySorted_inv in Hs as [_ Hf].
  set (to := match cuts with next :: _ => next | [] => ValidAxis_OpenEnd a end).
  apply Forall_cons in Hno as [Hfrom Hno].
  assert (forall t, from <= t -> before_cuts cuts t -> ValidAxis_Open a to || (to >? t) = true) as Hcov.
  { intros t Hge Ht. subst to. destruct cuts as [|next cuts]; simpl in Ht.
    - unfold ValidAxis_Open, ValidAxis_OpenEnd. by rewrite Z.eqb_refl.
    - apply orb_true_iff. right. lia. }
  assert (ValidAxis_Open a to = true \/ from < to) as Hok.
  { subst to. destruct cuts as [|next cuts]; [left; unfold ValidAxis_Open, ValidAxis_OpenEnd; apply Z.eqb_refl|].
    right. by apply Forall_cons in Hf as [? _]. }
  assert (match cuts with [] => True | next :: _ => ValidAxis_Open a to = false /\ to <= next /\ from <= next end) as Hbel.
  { subst to. destruct cuts as [|next cuts]; [done|]. apply Forall_cons in Hno as [Hne _]. apply Forall_cons in Hf as [? _].
    unfold ValidAxis_Open. split; [by apply Z.eqb_neq|lia]. }
  clearbody to. unfold add_piece. destruct out as [|p out].
  - split; [|constructor; [exact Hok|constructor]|by repeat constructor| |done|by repeat constructor].
    + intros t Ht. unfold piece_at. cbn. unfold IntervalCovers. destruct (Z.leb_spec from t).
      * rewrite Hcov, (Hw t) by done. done.
      * specialize (H1 t ltac:(simpl; lia)). by rewrite <- H1.
    + destruct cuts; [done|]. repeat constructor; tauto.
  - apply Forall_cons in H2 as [Hp H2]. apply StronglySorted_inv in H3 as [H3 Hps].
    apply Forall_cons in H4 as [[Hpo Hpl] H4].
    destruct (bool_decide (p_row p = w) && (p_to p =? from)) eqn:E.
    + apply andb_prop in E as [Er%bool_decide_eq_true Et%Z.eqb_eq].
      assert (p_from p < from) as Hpf by (destruct Hp as [Hp|Hp]; [congruence|lia]).
      split.
      * intros t Ht. unfold piece_at. cbn. unfold IntervalCovers at 1. destruct (Z.leb_spec from t).
        -- destruct (Z.leb_spec (p_from p) t); [|lia]. rewrite Hcov by done. simpl. by rewrite Er, Hw.
        -- rewrite <- (H1 t) by (simpl; lia). unfold piece_at. cbn. unfold IntervalCovers at 2. rewrite Hpo, Et.
           assert (ValidAxis_Open a to || (to >? t) = true) as ->.
           { destruct Hok as [->|]; [done|]. apply orb_true_iff. right. lia. }
           destruct (Z.gtb_spec from t); [|lia]. by destruct (p_from p <=? t).
      * constructor; [|done]. destruct Hok; [by left|right; simpl; lia].
      * constructor; [done|]. exact Hps.
      * destruct cuts as [|next cuts]; [done|]. constructor; [tauto|].
        eapply Forall_impl; [exact H4|]. simpl. intros q [? ?]. split; [done|lia].
      * destruct out as [|q out]; [done|]. simpl in H5 |- *. done.
      * apply Forall_cons in H6 as [? ?]. by constructor.
    + split.
      * intros t Ht. unfold piece_at. cbn [List.find]. unfold IntervalCovers at 1. cbn [p_from p_to].
        destruct (Z.leb_spec from t).
        -- rewrite Hcov by done. cbn. by rewrite Hw.
        -- cbn [andb]. by apply (H1 t).
      * constructor; [done|by constructor].
      * constructor; [by constructor|]. constructor; [done|]. simpl. exact H4.
      * destruct cuts as [|next cuts]; [done|]. constructor; [tauto|]. constructor; [simpl; split; [done|lia]|].
        eapply Forall_impl; [exact H4|]. simpl. intros q [? ?]. split; [done|lia].
      * cbn [merged]. split; [|done]. cbn [p_row p_from]. intros [Hr Ht].
        apply andb_false_iff in E as [E|E]; [by apply bool_decide_eq_false in E|by apply Z.eqb_neq in E].
      * by constructor.
Qed.

Lemma sweep_loop_spec cuts rem h out from0 :
  StronglySorted Z.lt cuts -> Forall (fun x => x <> openEnd a) cuts -> Forall (fun x => from0 <= x) cuts ->
  (forall iv, iv ∈ all -> before_cuts cuts (iv_s iv) \/ iv_s iv ∈ cuts) ->
  (forall iv, iv ∈ all -> ValidAxis_Open a (iv_e iv) = true \/ before_cuts cuts (iv_e iv) \/ iv_e iv ∈ cuts) ->
  heap_inv from0 rem h -> out_inv cuts out ->
  out_inv [] (sweep_loop a arr origin keepVoid cuts rem h out).
Proof.
  revert rem h out from0. induction cuts as [|from cuts IH]; intros rem h out from0 Hs Hno Hge Hbs Hbe Hh Ho;
    cbn [sweep_loop]; [done|].
  apply Forall_cons in Hge as [Hfrom Hge].
  pose proof (push_started_inv from rem h (heap_inv_later _ _ _ _ Hfrom Hh)) as Hp.
  destruct (push_started from rem h) as [rem' h']. destruct Hp as [Hh' Hrem].
  destruct (pop_ended_inv (length h') from rem' h' ltac:(lia) Hh') as [Hh'' Htop].
  set (h2 := pop_ended (length h') a from h') in *. clearbody h2.
  assert (forall iv t, iv ∈ all -> from <= t -> before_cuts cuts t -> iv_covers a iv t = iv_covers a iv from) as Hconst.
  { intros iv t Hiv Ht Hb. apply (covers_between from cuts); [done|exact (Hbs iv Hiv)|exact (Hbe iv Hiv)|done|done]. }
  assert (forall iv, iv ∈ all -> iv_covers a iv from = true -> iv ∈ h2) as Hin.
  { intros iv Hiv Hc. unfold iv_covers, IntervalCovers in Hc. apply andb_prop in Hc as [Hc1 Hc2].
    destruct (hi_all _ _ _ Hh'' iv Hiv) as [Hr|[|[He Hle]]]; [|done|].
    - specialize (Hrem iv Hr). lia.
    - rewrite He in Hc2. simpl in Hc2. lia. }
  apply StronglySorted_inv in Hs as Hs'. destruct Hs' as [Hs' Hf]. apply Forall_cons in Hno as Hno'. destruct Hno' as [_ Hno'].
  apply (IH rem' h2 _ from); [done|done| | | |done|].
  - eapply Forall_impl; [exact Hf|]. simpl. lia.
  - intros iv Hiv. destruct (Hbs iv Hiv) as [Hb|Hb]; [left; destruct cuts as [|next cuts]; simpl in *; [done|]|].
    + apply Forall_cons in Hf as [? _]. lia.
    + apply elem_of_cons in Hb as [->|]; [|by right]. left. destruct cuts; [done|]. simpl. by apply Forall_cons in Hf as [? _].
  - intros iv Hiv. destruct (Hbe iv Hiv) as [|[Hb|Hb]]; [by left|right; left; destruct cuts as [|next cuts]; simpl in *; [done|]|].
    + apply Forall_cons in Hf as [? _]. lia.
    + apply elem_of_cons in Hb as [->|]; [|by right; right]. right. left. destruct cuts; [done|]. simpl. by apply Forall_cons in Hf as [? _].
  - destruct h2 as [|top h2].
    + apply (out_inv_skip from); [done..|]. intros t Ht Hb. apply Hgap. intros iv Hiv. rewrite Hconst by done.
      destruct (iv_covers a iv from) eqn:E; [|done]. specialize (Hin iv Hiv E). by apply not_elem_of_nil in Hin.
    + destruct (hi_sub _ _ _ Hh'' top ltac:(left)) as [Hta _].
      destruct (Hpos top Hta) as [w Hw]. rewrite Hw.
      assert (forall t, from <= t -> before_cuts cuts t -> expected t = if isVoidRow w && negb keepVoid then None else Some w) as Hexp.
      { intros t Ht Hb. apply (Hwin t top w Hta); [by rewrite Hconst| |done].
        intros iv' Hiv' Hc. rewrite Hconst in Hc by done.
        eapply heap_top_max; [exact (hi_ok _ _ _ Hh'')|]. by apply Hin. }
      destruct (isVoidRow w && negb keepVoid); [by apply (out_inv_skip from)|by apply out_inv_add].
Qed.
End Sweep.

(** ** Intervals, ranks and cuts of a chain *)

Section ChainSweep.
Context {T : Type} `{EntityRow T}.
Implicit Types (r : T) (arr : list T) (caps : lifeEnds T).

Lemma intervals_from_cons c own arr sc caps k r rest :
  intervals_from c own arr sc caps k (r :: rest) =
    let more := intervals_from c own arr sc caps (S k) rest in
    match row_iv c own arr sc caps k r with
    | Some (s, e) => if negb (ValidAxis_Open (axis c) e) && (e <=? s) then more else mkIv s e k (Z.of_nat k) :: more
    | None => more
    end.
Proof.
  cbn [intervals_from]. unfold row_iv. destruct own.
  - destruct (nodeOwnBounds c r) as [s e]. by destruct (superCaps_end sc (axis c) k s e) as [e' []].
  - by destruct (nodeVersionBounds c arr k) as [s e].
Qed.

(** [iv] is the non-empty interval of row [r] at position [k]. *)
Definition iv_of_row c own arr sc caps (k : nat) r (iv : effInterval) : Prop :=
  iv_pos iv = k /\ iv_prio iv = Z.of_nat k /\ row_iv c own arr sc caps k r = Some (iv_s iv, iv_e iv) /\
  (ValidAxis_Open (axis c) (iv_e iv) = true \/ iv_s iv < iv_e iv).

Lemma intervals_from_spec c own arr sc caps k rest iv :
  iv ∈ intervals_from c own arr sc caps k rest <->
  exists j r, rest !! j = Some r /\ iv_of_row c own arr sc caps (k + j) r iv.
Proof.
  revert k. induction rest as [|r rest IH]; intros k.
  { split; [intros Hn; by apply not_elem_of_nil in Hn|]. by intros (j & r & Hj & _). }
  rewrite intervals_from_cons. cbv zeta. set (more := intervals_from _ _ _ _ _ _ _).
  assert (iv ∈ more <-> exists j r', (r :: rest) !! S j = Some r' /\ iv_of_row c own arr sc caps (k + S j) r' iv) as Hmore.
  { subst more. rewrite (IH (S k)). split; intros (j & r' & Hj & Hr); exists j, r'; (split; [done|]);
      by replace (k + S j)%nat with (S k + j)%nat in * by lia. }
  assert (iv ∈ match row_iv c own arr sc caps k r with
    | Some (s, e) => if negb (ValidAxis_Open (axis c) e) && (e <=? s) then more else mkIv s e k (Z.of_nat k) :: more
    | None => more
    end <-> iv_of_row c own arr sc caps k r iv \/ iv ∈ more) as ->.
  { unfold iv_of_row. destruct (row_iv c own arr sc caps k r) as [[s e]|]; [|split; [by right|intros [(_ & _ & ? & _)|]; done]].
    destruct (ValidAxis_Open (axis c) e) eqn:Eo; cbn [negb andb]; [|destruct (Z.leb_spec e s)];
      rewrite ?elem_of_cons; (split; [intros [->|Hm] || intros Hm|intros [(Hp & Hq & [= -> ->] & Hne)|Hm]]);
      try (by right); try (by left); cbn [iv_pos iv_prio iv_s iv_e] in *.
    - left. split_and!; [done..|by left].
    - left. destruct iv. cbn in *. by subst.
    - destruct Hne; [congruence|lia].
    - done.
    - left. split_and!; [done..|by right].
    - left. destruct iv. cbn in *. by subst. }
  rewrite Hmore. split.
  - intros [Hr|(j & r' & Hj & Hr)]; [exists 0%nat, r; by rewrite Nat.add_0_r|by exists (S j), r'].
  - intros ([|j] & r' & Hj & Hr); [left|right; by exists j, r']. rewrite Nat.add_0_r in Hr. by injection Hj as ->.
Qed.

(** Ranks written through the sorted indices. *)
Lemma fold_ranks_lookup (pairs : list (nat * nat)) (ivs : list effInterval) k :
  NoDup (map snd pairs) ->
  (k ∉ map snd pairs ->
    fold_left (fun ivs pi => alter (set_prio (Z.of_nat (fst pi))) (snd pi) ivs) pairs ivs !! k = ivs !! k) /\
  (forall p, (p, k) ∈ pairs ->
    fold_left (fun ivs pi => alter (set_prio (Z.of_nat (fst pi))) (snd pi) ivs) pairs ivs !! k =
      set_prio (Z.of_nat p) <$> ivs !! k).
Proof.
  revert ivs. induction pairs as [|[p0 k0] pairs IH]; intros ivs Hnd; cbn [fold_left map fst snd].
  { split; [done|]. intros p Hp. by apply not_elem_of_nil in Hp. }
  apply NoDup_cons in Hnd as [Hk0 Hnd]. destruct (IH (alter (set_prio (Z.of_nat p0)) k0 ivs) Hnd) as [H1 H2]. split.
  - intros Hk. rewrite not_elem_of_cons in Hk. destruct Hk as [Hne Hk]. rewrite H1 by done.
    by rewrite list_lookup_alter_ne.
  - intros p Hp. apply elem_of_cons in Hp as [[= -> ->]|Hp].
    + rewrite H1 by done. by rewrite list_lookup_alter_eq.
    + rewrite (H2 p Hp). rewrite list_lookup_alter_ne; [done|]. intros ->. apply Hk0.
      apply list_elem_of_fmap. by exists (p, k).
Qed.

Lemma newerBelief_prefer arr x y : (newerBelief arr x y <? 0) = prefer true arr (iv_pos y) (iv_pos x).
Proof.
  unfold newerBelief, prefer, newer, cmp_compare, ith. cbv zeta.
  set (tx := match arr !! iv_pos x with Some r => beliefTx (Temporal r) | None => 0 end).
  set (ty := match arr !! iv_pos y with Some r => beliefTx (Temporal r) | None => 0 end).
  set (vx := match arr !! iv_pos x with Some r => Version r | None => 0 end).
  set (vy := match arr !! iv_pos y with Some r => Version r | None => 0 end).
  clearbody tx ty vx vy. destruct (Z.ltb_spec tx ty), (Z.eqb_spec ty tx), (Z.gtb_spec tx ty), (Z.gtb_spec ty tx);
    simpl; try lia; try done.
  destruct (Z.ltb_spec vx vy), (Z.eqb_spec vy vx), (Z.gtb_spec vx vy), (Z.gtb_spec vy vx); simpl; try lia; try done.
  destruct (Nat.ltb_spec (iv_pos y) (iv_pos x)), (Z.ltb_spec (Z.of_nat (iv_pos y)) (Z.of_nat (iv_pos x))),
    (Z.gtb_spec (Z.of_nat (iv_pos y)) (Z.of_nat (iv_pos x))); simpl; try lia; done.
Qed.

Lemma prefer_sw arr (pos : nat -> nat) : StrictWeak (fun x y => prefer true arr (pos y) (pos x)).
Proof.
  split.
  - intros x. apply prefer_irrefl.
  - intros x y z H1 H2. by eapply prefer_trans.
  - intros x y z Hxy. destruct (decide (pos z = pos y)) as [->|Hne]; [by right|].
    destruct (prefer true arr (pos y) (pos z)) eqn:E; [by left|right].
    eapply prefer_trans; [apply prefer_total; [|exact E]; done|done].
Qed.

Lemma zip_seq_lookup {A} (l : list A) k p x :
  (p, x) ∈ zip (seq k (length l)) l <-> (k <= p)%nat /\ l !! (p - k)%nat = Some x.
Proof.
  revert k. induction l as [|y l IH]; intros k; cbn [length seq zip zip_with].
  { split; [intros Hn; by apply not_elem_of_nil in Hn|by intros [_ ?]]. }
  rewrite elem_of_cons, IH. split.
  - intros [[= -> ->]|[Hk Hx]]; [by rewrite Nat.sub_diag|]. split; [lia|].
    by replace (p - k)%nat with (S (p - S k))%nat by lia.
  - intros [Hk Hx]. destruct (p - k)%nat as [|m] eqn:E.
    + left. assert (p = k) as -> by lia. by injection Hx as ->.
    + right. split; [lia|]. by replace (p - S k)%nat with m by lia.
Qed.

Lemma rankBeliefs_lookup arr ivs k iv :
  ivs !! k = Some iv ->
  exists p, rankBeliefs arr ivs !! k = Some (set_prio (Z.of_nat p) iv) /\
    sort_by (fun x y => prefer true arr (iv_pos (nth y ivs iv0)) (iv_pos (nth x ivs iv0))) (seq 0 (length ivs)) !! p = Some k.
Proof.
  intros Hk. unfold rankBeliefs.
  rewrite (sort_by_ext _ (fun x y => prefer true arr (iv_pos (nth y ivs iv0)) (iv_pos (nth x ivs iv0))))
    by (intros; apply newerBelief_prefer).
  set (rank := sort_by _ _). assert (rank ≡ₚ seq 0 (length ivs)) as Hp by apply sort_by_perm.
  assert (k ∈ rank) as Hin. { rewrite Hp. apply elem_of_seq. apply lookup_lt_Some in Hk. lia. }
  apply list_elem_of_lookup_1 in Hin as [p Hrank]. exists p. split; [|done].
  destruct (fold_ranks_lookup (zip (seq 0 (length rank)) rank) ivs k) as [_ H2].
  - change (map snd) with (fmap (M := list) (snd (A := nat) (B := nat))).
    rewrite snd_zip by (rewrite length_seq; lia). rewrite Hp. apply NoDup_seq.
  - rewrite (H2 p), Hk; [done|]. apply zip_seq_lookup. split; [lia|]. by rewrite Nat.sub_0_r.
Qed.

Lemma length_rankBeliefs arr ivs : length (rankBeliefs arr ivs) = length ivs.
Proof.
  assert (forall (pairs : list (nat * nat)) (l : list effInterval),
    length (fold_left (fun ivs pi => alter (set_prio (Z.of_nat (fst pi))) (snd pi) ivs) pairs l) = length l) as Hl.
  { induction pairs as [|x pairs IH]; intros l; cbn [fold_left]; [done|]. by rewrite IH, length_alter. }
  apply Hl.
Qed.

(** What the sweep needs of the intervals, in either arm: the rows' intervals,
    with priorities that follow [prefer]. *)
Lemma ranked_spec arr ivs (own : bool) :
  (forall iv, iv ∈ ivs -> iv_prio iv = Z.of_nat (iv_pos iv)) ->
  let ivs' := if own then rankBeliefs arr ivs else ivs in
  (forall iv, iv ∈ ivs' -> exists p, set_prio p iv ∈ ivs) /\
  (forall iv, iv ∈ ivs -> exists p, set_prio p iv ∈ ivs') /\
  (forall x y, x ∈ ivs' -> y ∈ ivs' -> prefer own arr (iv_pos x) (iv_pos y) = true -> iv_prio y < iv_prio x).
Proof.
  intros Hprio. destruct own; cbv zeta.
  - assert (forall iv, iv ∈ rankBeliefs arr ivs -> exists k iv', rankBeliefs arr ivs !! k = Some iv /\ ivs !! k = Some iv') as Hin.
    { intros iv Hiv. apply list_elem_of_lookup_1 in Hiv as [k Hk].
      pose proof (lookup_lt_Some _ _ _ Hk) as Hlt. rewrite length_rankBeliefs in Hlt.
      destruct (lookup_lt_is_Some_2 ivs k Hlt) as [iv' Hiv']. by exists k, iv'. }
    split_and!.
    + intros iv Hiv. destruct (Hin iv Hiv) as (k & iv' & Hr & Hk). destruct (rankBeliefs_lookup arr ivs k iv' Hk) as (p & Hp & _).
      rewrite Hr in Hp. injection Hp as ->. exists (iv_prio iv'). destruct iv'. by eapply list_elem_of_lookup_2.
    + intros iv Hiv. apply list_elem_of_lookup_1 in Hiv as [k Hk].
      destruct (rankBeliefs_lookup arr ivs k iv Hk) as (p & Hp & _). exists (Z.of_nat p). by eapply list_elem_of_lookup_2.
    + intros x y Hx Hy Hpref. destruct (Hin x Hx) as (kx & x' & Hrx & Hkx). destruct (Hin y Hy) as (ky & y' & Hry & Hky).
      destruct (rankBeliefs_lookup arr ivs kx x' Hkx) as (px & Hpx & Hsx).
      destruct (rankBeliefs_lookup arr ivs ky y' Hky) as (py & Hpy & Hsy).
      rewrite Hrx in Hpx. rewrite Hry in Hpy. injection Hpx as ->. injection Hpy as ->. cbn [iv_prio set_prio iv_pos] in *.
      set (lt := fun x y => prefer true arr (iv_pos (nth y ivs iv0)) (iv_pos (nth x ivs iv0))) in *.
      pose proof (prefer_sw arr (fun k => iv_pos (nth k ivs iv0))) as Hsw.
      destruct (decide (py < px)%nat); [lia|]. exfalso.
      pose proof (ordered_nth lt _ 0%nat px py (sort_by_ordered lt (seq 0 (length ivs)))) as Ho.
      apply nth_lookup_Some with (d := 0%nat) in Hsx as Hnx. apply nth_lookup_Some with (d := 0%nat) in Hsy as Hny.
      specialize (Ho ltac:(apply lookup_lt_Some in Hsy; lia)). rewrite Hnx, Hny in Ho. unfold lt in Ho.
      rewrite (nth_lookup_Some ivs kx iv0 x' Hkx), (nth_lookup_Some ivs ky iv0 y' Hky) in Ho. congruence.
  - split_and!.
    + intros iv Hiv. exists (iv_prio iv). by destruct iv.
    + intros iv Hiv. exists (iv_prio iv). by destruct iv.
    + intros x y Hx Hy Hpref. rewrite (Hprio x Hx), (Hprio y Hy). apply Nat.ltb_lt in Hpref. lia.
Qed.

(** The ranked intervals of a chain cover exactly what its rows cover. *)
Lemma ranked_covers c own arr caps t :
  let sc := arm_caps c own arr in
  let ivs := intervals_from c own arr sc caps 0 arr in
  let ivs' := if own then rankBeliefs arr ivs else ivs in
  (forall iv, iv ∈ ivs' -> is_Some (arr !! iv_pos iv)) /\
  (forall iv, iv ∈ ivs' -> iv_covers (axis c) iv t = true -> covers_at c own arr sc caps t (iv_pos iv) = true) /\
  (forall j, covers_at c own arr sc caps t j = true ->
     exists iv, iv ∈ ivs' /\ iv_pos iv = j /\ iv_covers (axis c) iv t = true) /\
  (forall x y, x ∈ ivs' -> y ∈ ivs' -> prefer own arr (iv_pos x) (iv_pos y) = true -> iv_prio y < iv_prio x).
Proof.
  intros sc ivs. pose proof (intervals_from_spec c own arr sc caps 0 arr) as Hspec. fold ivs in Hspec. cbn [Nat.add] in Hspec.
  destruct (ranked_spec arr ivs own) as (H1 & H2 & H3).
  { intros iv Hiv. apply Hspec in Hiv as (j & r & _ & Hp & Hq & _). congruence. }
  intros ivs'. fold ivs' in H1, H2, H3. clearbody ivs'.
  assert (forall iv, iv ∈ ivs' -> exists r, arr !! iv_pos iv = Some r /\
    row_iv c own arr sc caps (iv_pos iv) r = Some (iv_s iv, iv_e iv)) as Hrow.
  { intros iv Hiv. destruct (H1 iv Hiv) as [p Hp]. apply Hspec in Hp as (j & r & Hj & Hpos & _ & Hr & _).
    cbn [set_prio iv_pos iv_s iv_e] in *. subst j. by exists r. }
  split_and!; [| | |done].
  - intros iv Hiv. destruct (Hrow iv Hiv) as (r & -> & _). done.
  - intros iv Hiv Hc. destruct (Hrow iv Hiv) as (r & Hr & Hiv'). unfold covers_at. by rewrite Hr, Hiv'.
  - intros j Hc. unfold covers_at in Hc. destruct (arr !! j) as [r|] eqn:Er; [|done].
    destruct (row_iv c own arr sc caps j r) as [[s e]|] eqn:Eiv; [|done].
    assert (mkIv s e j (Z.of_nat j) ∈ ivs) as Hin.
    { apply Hspec. exists j, r. split; [done|]. split_and!; [done..|]. cbn [iv_s iv_e].
      unfold IntervalCovers in Hc. destruct (ValidAxis_Open (axis c) e); [by left|right]. simpl in Hc. lia. }
    destruct (H2 _ Hin) as [p Hp]. eexists. split; [exact Hp|]. done.
Qed.

Lemma interval_cuts_elem a ivs x :
  x ∈ interval_cuts a ivs <->
  exists iv, iv ∈ ivs /\ (x = iv_s iv \/ (ValidAxis_Open a (iv_e iv) = false /\ x = iv_e iv)).
Proof.
  unfold interval_cuts. rewrite list_elem_of_In, in_flat_map. split.
  - intros (iv & Hin & Hx). exists iv. split; [by apply list_elem_of_In|].
    destruct (ValidAxis_Open a (iv_e iv)); simpl in Hx; intuition.
  - intros (iv & Hin & Hx). exists iv. split; [by apply list_elem_of_In|].
    destruct (ValidAxis_Open a (iv_e iv)); simpl; intuition congruence.
Qed.

Lemma effectiveSweep_out c filtered origin caps kv own arr expected :
  sortNodeChainForResolve c filtered = (own, arr) ->
  (forall i r s e, arr !! i = Some r -> row_iv c own arr (arm_caps c own arr) caps i r = Some (s, e) ->
     s <> openEnd (axis c)) ->
  (forall t i w, is_winner c own arr caps t i -> arr !! i = Some w ->
     expected t = if isVoidRow w && negb kv then None else Some w) ->
  (forall t, (forall j, covers_at c own arr (arm_caps c own arr) caps t j = false) -> expected t = None) ->
  out_inv (axis c) expected [] (rev (fst (effectiveSweep c filtered origin caps kv))).
Proof.
  intros Hs Hstart Hwin Hgap. unfold effectiveSweep, sweepIntervals. rewrite Hs. cbn [fst]. unfold sweepPieces.
  rewrite rev_involutive. fold (arm_caps c own arr).
  pose proof (ranked_covers c own arr caps) as Hcov. cbv zeta in Hcov.
  set (ivs := intervals_from c own arr (arm_caps c own arr) caps 0 arr) in *.
  assert (forall iv, iv ∈ (if own then rankBeliefs arr ivs else ivs) -> iv_s iv <> openEnd (axis c)) as Hne.
  { intros iv Hiv. pose proof (intervals_from_spec c own arr (arm_caps c own arr) caps 0 arr) as Hspec.
    destruct (ranked_spec arr ivs own) as (H1 & _).
    { intros x Hx. apply Hspec in Hx as (j & r & _ & Hp & Hq & _). congruence. }
    destruct (H1 iv Hiv) as [p Hp]. apply Hspec in Hp as (j & r & Hj & _ & _ & Hr & _). by eapply Hstart. }
  set (all := if own then rankBeliefs arr ivs else ivs) in *. clearbody all. clear ivs.
  set (cuts := compact_list (sort_by Z.ltb (interval_cuts (axis c) all))).
  assert (StronglySorted Z.lt cuts) as Hsorted by (apply compact_list_sorted, sort_by_ordered; apply _).
  assert (forall x, x ∈ cuts <-> exists iv, iv ∈ all /\ (x = iv_s iv \/ (ValidAxis_Open (axis c) (iv_e iv) = false /\ x = iv_e iv))) as Hcuts.
  { intros x. subst cuts. by rewrite compact_list_elem, elem_of_sort_by, interval_cuts_elem. }
  clearbody cuts.
  apply (sweep_loop_spec (axis c) arr origin kv all expected) with (from0 := match cuts with [] => 0 | x :: _ => x end).
  - intros iv Hiv. destruct (Hcov 0) as (Hp & _). by apply Hp.
  - intros t iv w Hiv Hc Hmax Hw. apply (Hwin t (iv_pos iv)); [|done]. destruct (Hcov t) as (_ & C2 & C3 & C4).
    split; [by apply C2|]. intros j Hj Hne'. destruct (prefer own arr (iv_pos iv) j) eqn:E; [done|].
    destruct (C3 j Hj) as (iv' & Hiv' & <- & Hc').
    assert (iv_prio iv < iv_prio iv') by (apply C4; [done..|by apply prefer_total]).
    specialize (Hmax iv' Hiv' Hc'). lia.
  - intros t Hno. apply Hgap. intros j. destruct (Hcov t) as (_ & _ & C3 & _).
    destruct (covers_at _ _ _ _ _ t j) eqn:E; [|done]. destruct (C3 j E) as (iv & Hiv & _ & Hc). by rewrite Hno in Hc.
  - done.
  - apply Forall_forall. intros x Hx. apply Hcuts in Hx as (iv & Hiv & [->|[He ->]]); [by apply Hne|].
    unfold ValidAxis_Open in He. by apply Z.eqb_neq in He.
  - destruct Hsorted as [|x l _ Hf]; [constructor|]. constructor; [lia|]. eapply Forall_impl; [exact Hf|]. simpl. lia.
  - intros iv Hiv. right. apply Hcuts. exists iv. split; [done|by left].
  - intros iv Hiv. destruct (ValidAxis_Open (axis c) (iv_e iv)) eqn:E; [by left|]. right. right.
    apply Hcuts. exists iv. split; [done|by right].
  - split.
    + intros j Hj. simpl in Hj. lia.
    + intros iv Hiv. by apply not_elem_of_nil in Hiv.
    + intros iv Hiv. by apply elem_of_sort_by in Hiv.
    + apply sort_by_ordered. apply _.
    + intros iv Hiv. left. by apply elem_of_sort_by.
  - split; [|constructor|constructor|by destruct cuts|done|constructor].
    intros t Ht. symmetry. apply Hgap. intros j. destruct (Hcov t) as (_ & _ & C3 & _).
    destruct (covers_at _ _ _ _ _ t j) eqn:E; [|done]. destruct (C3 j E) as (iv & Hiv & _ & Hc). exfalso.
    assert (iv_s iv ∈ cuts) as Hin by (apply Hcuts; exists iv; split; [done|by left]).
    unfold iv_covers, IntervalCovers in Hc. apply andb_prop in Hc as [Hc _].
    destruct Hsorted as [|x l _ Hf]; [by apply not_elem_of_nil in Hin|]. simpl in Ht.
    apply elem_of_cons in Hin as [Hx|Hin]; [lia|]. rewrite Forall_forall in Hf. specialize (Hf _ Hin). lia.
Qed.
End ChainSweep.


(** ** Pieces of a chain at a pin *)

Section Pieces.
Context {T : Type} `{EntityRow T}.
Implicit Types (chain filtered : list T).

(** Ascending by start, non-empty, disjoint, and no piece continues the one
    before it. *)
Record pieces_wf (a : ValidAxis) (pieces : list (effPiece T)) : Prop := {
  pw_ok : Forall (piece_ok a) pieces;
  pw_sorted : StronglySorted (fun p q => ValidAxis_Open a (p_to p) = false /\ p_to p <= p_from q) pieces;
  pw_from : Forall (fun p => p_from p <> openEnd a) pieces;
  pw_merged : forall l1 p q l2, pieces = l1 ++ p :: q :: l2 -> ~ (p_row p = p_row q /\ p_to p = p_from q);
}.

Lemma piece_covering_unique a (out : list (effPiece T)) t p q :
  StronglySorted (fun p q => ValidAxis_Open a (p_to q) = false /\ p_to q <= p_from p) out ->
  p ∈ out -> q ∈ out -> IntervalCovers a (p_from p) (p_to p) t = true -> IntervalCovers a (p_from q) (p_to q) t = true ->
  p = q.
Proof.
  induction 1 as [|x l _ IH Hf]; intros Hp Hq Hfp Hfq; [by apply not_elem_of_nil in Hp|].
  rewrite Forall_forall in Hf. unfold IntervalCovers in Hfp, Hfq.
  apply elem_of_cons in Hp as [->|Hp]; apply elem_of_cons in Hq as [->|Hq]; [done| | |by apply IH].
  - destruct (Hf q Hq) as [Ho Hle]. rewrite Ho in Hfq. simpl in Hfq. lia.
  - destruct (Hf p Hp) as [Ho Hle]. rewrite Ho in Hfp. simpl in Hfp. lia.
Qed.

Lemma piece_at_rev a (out : list (effPiece T)) t :
  StronglySorted (fun p q => ValidAxis_Open a (p_to q) = false /\ p_to q <= p_from p) out ->
  piece_at a (rev out) t = piece_at a out t.
Proof.
  intros Hs. set (f := fun p : effPiece T => IntervalCovers a (p_from p) (p_to p) t).
  assert (forall p q, p ∈ out -> q ∈ out -> f p = true -> f q = true -> p = q) as Huniq
    by (intros; by eapply piece_covering_unique).
  unfold piece_at. fold f.
  destruct (List.find f (rev out)) as [p|] eqn:E1, (List.find f out) as [q|] eqn:E2; try done.
  - apply find_some in E1 as [H1 F1]. apply find_some in E2 as [H2 F2].
    rewrite (Huniq p q); [done| | |done|done]; apply list_elem_of_In; [by apply in_rev|done].
  - apply find_some in E1 as [H1 F1]. apply in_rev in H1. by rewrite (find_none _ _ E2 _ H1) in F1.
  - apply find_some in E2 as [H2 F2]. apply in_rev in H2. by rewrite (find_none _ _ E1 _ H2) in F2.
Qed.

Lemma merged_app (l1 l2 : list (effPiece T)) p q :
  merged (l1 ++ q :: p :: l2) -> ~ (p_row p = p_row q /\ p_to p = p_from q).
Proof.
  induction l1 as [|x l1 IH]; simpl; [by intros [? _]|].
  destruct (l1 ++ q :: p :: l2) as [|y l] eqn:E; [by destruct l1|]. intros [_ Hm]. by apply IH.
Qed.

Lemma out_inv_pieces a (expected : Instant -> option T) (pieces : list (effPiece T)) :
  out_inv a expected [] (rev pieces) -> (forall t, piece_at a pieces t = expected t) /\ pieces_wf a pieces.
Proof.
  intros [H1 H2 H3 _ H5 H6]. split.
  - intros t. rewrite <- (rev_involutive pieces), piece_at_rev by done. by apply H1.
  - split.
    + rewrite <- (rev_involutive pieces). apply Forall_forall. intros p Hp. rewrite Forall_forall in H2. apply H2.
      by rewrite list_elem_of_In, in_rev, <- list_elem_of_In.
    + rewrite <- (rev_involutive pieces). by apply (StronglySorted_rev _ _ H3).
    + rewrite <- (rev_involutive pieces). apply Forall_forall. intros p Hp. rewrite Forall_forall in H6. apply H6.
      by rewrite list_elem_of_In, in_rev, <- list_elem_of_In.
    + intros l1 p q l2 ->. rewrite rev_app_distr in H5. cbn [rev] in H5. rewrite <- !app_assoc in H5. cbn [app] in H5.
      by eapply merged_app.
Qed.

(** The positional and the own start of a row are its start. *)
Lemma row_iv_start `{!EntityRowOK T} c own (arr : list T) sc caps i r s e :
  bitemporalMigrated c = true -> row_wf r -> arr !! i = Some r ->
  row_iv c own arr sc caps i r = Some (s, e) -> s = RowStart (axis c) r.
Proof.
  intros Hm Hwf Hi. unfold row_iv. destruct own.
  - unfold nodeOwnBounds. destruct (superCaps_end _ _ _ _ _) as [e' []]; [done|]. by intros [= <- _].
  - pose proof (versionBounds_start c arr i r Hm Hi Hwf) as Hs. destruct (nodeVersionBounds c arr i) as [s' e'].
    intros [= <- _]. done.
Qed.

(** The sweep answers the point resolver at every instant. *)
Lemma effectiveSweep_resolver `{!EntityRowOK T} c filtered origin caps :
  bitemporalMigrated c = true -> Forall row_wf filtered ->
  Forall (fun r => RowStart (axis c) r <> openEnd (axis c)) filtered ->
  let pieces := fst (effectiveSweep c filtered origin caps false) in
  (forall t, piece_at (axis c) pieces t = resolveNodeVersionAtCapped c filtered t caps) /\ pieces_wf (axis c) pieces.
Proof.
  intros Hm Hwf Hst pieces. apply out_inv_pieces.
  destruct (sortNodeChainForResolve c filtered) as [own arr] eqn:Hs.
  pose proof (sortNodeChainForResolve_spec c filtered own arr Hs) as (Hp & _ & _).
  assert (Forall row_wf arr /\ Forall (fun r => RowStart (axis c) r <> openEnd (axis c)) arr) as [Hwf' Hst'] by (by rewrite Hp).
  rewrite Forall_forall in Hwf', Hst'. subst pieces.
  apply (effectiveSweep_out c filtered origin caps false own arr _ Hs).
  - intros i r s e Hi Hrow. apply list_elem_of_lookup_2 in Hi as Hin.
    rewrite (row_iv_start c own arr _ caps i r s e Hm (Hwf' r Hin) Hi Hrow). by apply Hst'.
  - intros t i w Hw Hi. destruct (resolve_winner c filtered t caps own arr Hs Hwf) as [(j & r & Hj & Hr & ->)|[Hn _]].
    + rewrite (winner_unique c own arr caps t i j Hw Hj), Hr in Hi. injection Hi as ->. cbn [negb]. by rewrite andb_true_r.
    + destruct Hw as [Hc _]. by rewrite Hn in Hc.
  - intros t Hn. destruct (resolve_winner c filtered t caps own arr Hs Hwf) as [(j & r & [Hc _] & _)|[_ ->]]; [|done].
    by rewrite Hn in Hc.
Qed.

(** The rows the fold keeps are the resolver's input. *)
Lemma filtered_rows_input c chain pin :
  pin <> 0 -> map fst (filtered_rows c chain pin) = filterNodeChainByTxAt (axis c) (versionOrdered chain) pin.
Proof.
  intros Hp. unfold filtered_rows, filterNodeChainByTxAt. destruct (Z.eqb_spec pin 0); [done|].
  rewrite versionOrdered_sort.
  assert (map fst (zip chain (seq 0 (length chain))) = chain) as Hz.
  { change (map fst) with (fmap (M := list) (fst (A := T) (B := nat))). apply fst_zip. rewrite length_seq. lia. }
  replace (sort_by (chainWriteOrder chain) chain) with
    (map fst (sort_by (fun x y : T * nat => chainWriteOrder chain (fst x) (fst y)) (zip chain (seq 0 (length chain)))))
    by (rewrite (sort_by_map fst (chainWriteOrder chain)), Hz; done).
  generalize (sort_by (fun x y : T * nat => chainWriteOrder chain (fst x) (fst y)) (zip chain (seq 0 (length chain)))).
  intros l. induction l as [|[r i] l IH]; cbn; [done|]. destruct (nodeRowAtTx (axis c) r pin); cbn; by rewrite IH.
Qed.

(** What a stored row promises about its delete. *)
Definition tombstone_ok (r : T) : Prop :=
  forall tm, Temporal r = Some tm -> DeletedAt tm <> 0 -> TxFrom tm <= DeletedAt tm.

Lemma BinarySearch_one d t : BinarySearch [d] t = if d <? t then 1%nat else 0%nat.
Proof. unfold BinarySearch, Search. cbn. change (1 / 2)%nat with 0%nat. by destruct (d <? t). Qed.

Lemma dropRetractedLives_one (r : T) :
  tombstone_ok r ->
  dropRetractedLives [r] =
    if match Temporal r with Some tm => negb (DeletedAt tm =? 0) && Retracted tm | None => false end then [] else [r].
Proof.
  intros Ht. unfold dropRetractedLives, chain_deaths. cbn [omap list_omap].
  destruct (Temporal r) as [tm|] eqn:E; [|done]. destruct (Z.eqb_spec (DeletedAt tm) 0) as [|Hd]; [done|]. cbn.
  destruct (Retracted tm); cbn; [|done]. rewrite E. cbn [beliefTx]. rewrite (BinarySearch_one (DeletedAt tm) (TxFrom tm)).
  specialize (Ht tm E Hd). destruct (Z.ltb_spec (DeletedAt tm) (TxFrom tm)); [lia|]. done.
Qed.

Lemma normalized_tombstone_ok `{!EntityRowOK T} a r pin r' :
  nodeRowAtTx a r pin = Some r' -> row_wf r -> tombstone_ok r -> tombstone_ok r'.
Proof.
  intros Hr Hwf Ht. unfold nodeRowAtTx in Hr. destruct (negb _); [done|].
  destruct (Temporal r) as [tm|] eqn:Et; [|injection Hr as <-; done].
  destruct (DeletedAt tm >? pin) eqn:Ed; injection Hr as <-; [|done].
  intros tm' Htm' Hd. rewrite copy_temporal, Et in Htm' by done. injection Htm' as <-. exfalso. apply Hd.
  unfold NormalizeTemporalVisibleAtTxTime. destruct (TxTo tm >? pin); cbn; rewrite Ed; reflexivity.
Qed.

Lemma resolve_one `{!EntityRowOK T} c (r : T) t caps :
  row_wf r -> isVoidRow r = false ->
  resolveNodeVersionAtCapped c [r] t caps =
    let '(s, e) := nodeVersionBounds c [r] 0 in
    if IntervalCovers (axis c) s (lifeEnds_end caps (axis c) r e) t then Some r else None.
Proof.
  intros Hwf Hv.
  assert (forall j, covers_at c false [r] [] caps t j = true -> j = 0%nat) as H0.
  { intros [|j]; [done|]. done. }
  assert (covers_at c false [r] [] caps t 0 = let '(s, e) := nodeVersionBounds c [r] 0 in
    IntervalCovers (axis c) s (lifeEnds_end caps (axis c) r e) t) as Hc.
  { unfold covers_at, row_iv. cbn [lookup list_lookup]. by destruct (nodeVersionBounds c [r] 0). }
  destruct (resolve_winner c [r] t caps false [r]) as [(i & r' & [Hw _] & Hi & ->)|[Hn ->]]; [done|by constructor| |].
  - change (covers_at c false [r] [] caps t i = true) in Hw. assert (i = 0%nat) as -> by (by apply H0). injection Hi as <-. rewrite Hw in Hc.
    destruct (nodeVersionBounds c [r] 0) as [s e]. by rewrite <- Hc, Hv.
  - specialize (Hn 0%nat). change (covers_at c false [r] [] caps t 0 = false) in Hn. rewrite Hn in Hc. destruct (nodeVersionBounds c [r] 0) as [s e]. by rewrite <- Hc.
Qed.

Lemma resolve_nil c t caps : resolveNodeVersionAtCapped c ([] : list T) t caps = None.
Proof. unfold resolveNodeVersionAtCapped, resolveNodePositional. cbn. by destruct (bitemporalMigrated c). Qed.

(** What the fold of an entity's stored rows relies on. *)
Record chain_ok (c : Core) chain : Prop := {
  co_migrated : bitemporalMigrated c = true;
  co_wf : Forall row_wf chain;
  co_starts : Forall (fun r => RowStart (axis c) r <> openEnd (axis c)) chain;
  co_tombstones : Forall tombstone_ok chain;
  co_genesis : forall r, chain = [r] -> isVoidRow r = false;
}.

Lemma effectivePieces_resolver `{!EntityRowOK T} c chain pin :
  chain_ok c chain -> pin <> 0 ->
  let pieces := effectivePieces c chain pin in
  let input := resolver_input (axis c) chain pin in
  (forall t, piece_at (axis c) pieces t = resolveNodeVersionAtCapped c input t (chainLifeEnds input)) /\
  pieces_wf (axis c) pieces.
Proof.
  intros [Hm Hwf Hst Htomb Hgen] Hp pieces input.
  destruct (resolver_input_ok (axis c) chain pin Hp Hwf) as [Hwf' Hst']. fold input in Hwf', Hst'.
  specialize (Hst' _ _ Hst).
  assert ((forall t, piece_at (axis c) ([] : list (effPiece T)) t = None) /\ pieces_wf (axis c) ([] : list (effPiece T))) as [Hnil Hnil'].
  { split; [done|]. split; [constructor|constructor|constructor|]. intros [|? l1] ? ? ? [=]. }
  assert (length chain <> 1%nat -> pieces = match input with [] => [] | _ =>
    fst (effectiveSweep c input (rev (filtered_rows c chain pin)) (chainLifeEnds input) false) end) as Hgeneral.
  { intros Hl. subst pieces input. unfold effectivePieces, resolver_input. rewrite <- (filtered_rows_input c chain pin Hp).
    destruct chain as [|r0 [|r1 chain]]; [done..|]. done. }
  destruct (decide (length chain = 1%nat)) as [Hl|Hl].
  - clear Hgeneral. destruct chain as [|r0 [|r1 chain]]; [done| |done]. specialize (Hgen r0 eq_refl).
    apply Forall_cons in Hwf as [Hwf _]. apply Forall_cons in Htomb as [Htomb _].
    assert (input = match nodeRowAtTx (axis c) r0 pin with Some r => dropRetractedLives [r] | None => [] end) as Hin.
    { subst input. unfold resolver_input, filterNodeChainByTxAt. rewrite versionOrdered_sort.
      destruct (Z.eqb_spec pin 0); [done|]. cbn. by destruct (nodeRowAtTx (axis c) r0 pin). }
    subst pieces. unfold effectivePieces. destruct (nodeRowAtTx (axis c) r0 pin) as [r|] eqn:Er.
    2: { rewrite Hin. split; [|done]. intros t. by rewrite resolve_nil. }
    destruct (rowAtTx_facts _ _ _ _ Er Hwf) as (Hwr & _ & _ & _ & Hvr). rewrite Hgen in Hvr.
    rewrite dropRetractedLives_one in Hin by (by eapply normalized_tombstone_ok).
    destruct (match Temporal r with Some tm => _ | None => false end).
    { rewrite Hin. split; [|done]. intros t. by rewrite resolve_nil. }
    rewrite Hin. split.
    + intros t. rewrite resolve_one by done. destruct (nodeVersionBounds c [r] 0) as [s e].
      set (e' := lifeEnds_end _ _ _ _). unfold IntervalCovers.
      destruct (ValidAxis_Open (axis c) e') eqn:Eo; cbn [negb andb].
      * unfold piece_at. cbn. unfold IntervalCovers. rewrite Eo. by destruct (s <=? t).
      * destruct (Z.leb_spec e' s).
        -- destruct (Z.leb_spec s t), (Z.gtb_spec e' t); cbn; try done; lia.
        -- unfold piece_at. cbn. unfold IntervalCovers. rewrite Eo. cbn. by destruct ((s <=? t) && (e' >? t)).
    + pose proof (versionBounds_start c [r] 0 r Hm eq_refl Hwr) as Hb.
      rewrite Hin in Hst'. apply Forall_cons in Hst' as [Hs0 _]. rewrite <- Hb in Hs0.
      destruct (nodeVersionBounds c [r] 0) as [s e]. set (e' := lifeEnds_end _ _ _ _).
      destruct (_ && _) eqn:E; [done|]. split; [|by repeat constructor| |intros [|? [|? ?]] ? ? ? [=]].
      2: { by constructor; [|constructor]. }
      constructor; [|constructor]. unfold piece_ok. cbn. destruct (ValidAxis_Open (axis c) e'); [by left|right]. cbn in E. lia.
  - rewrite (Hgeneral Hl). destruct input as [|r1 input'] eqn:Ei; [split; [|done]; intros t; by rewrite resolve_nil|].
    rewrite <- Ei in *. by apply effectiveSweep_resolver.
Qed.
End Pieces.

Section RelNames.
Context {P : Type} `{EqDecision P} `{Layout}.

Definition nodeEffectivePieces : Core -> list (Node P) -> Instant -> list (effPiece (Node P)) := effectivePieces.

Definition relEffectivePieces : Core -> list (Relationship P) -> Instant -> list (effPiece (Relationship P)) :=
  effectivePieces.
End RelNames.

(** ** Properties *)

(** The timeline's segments are ascending, non-empty and non-overlapping, and
    adjacent segments hold different rows. *)
Theorem effective_timeline_shape {T} `{EntityRowOK T} c (chain : list T) pin :
  chain_ok c chain -> pin <> 0 -> pieces_wf (axis c) (effectivePieces c chain pin).
Proof. intros Hc Hp. by apply effectivePieces_resolver. Qed.

Section Witness.
#[local] Existing Instance demo_layout.

(** A genesis, a correction of a later span that moved it out of the current
    slot, and a close of the whole entity recorded after it. *)
Definition demo_chain : list (Node unit) :=
  [demo_row 1 0 (demo_tm 5 0 5 0 0); demo_row 2 1 (demo_tm 20 40 30 45 0); demo_row 3 2 (demo_tm 10 60 45 0 0)].

Definition demo_core : Core := mkCore LegacyValidAxis true.

Lemma demo_chain_ok : chain_ok demo_core demo_chain.
Proof.
  split.
  - reflexivity.
  - forall_literal ltac:(intros [? [=]]).
  - forall_literal ltac:(vm_compute; discriminate).
  - forall_literal ltac:(intros tm; cbn; intros [= <-] Hd; cbn in Hd; done).
  - intros r [=].
Qed.

Lemma effective_timeline_shape_witness : pieces_wf LegacyValidAxis (effectivePieces demo_core demo_chain 50).
Proof. apply (effective_timeline_shape demo_core demo_chain 50); [exact demo_chain_ok|lia]. Defined.
End Witness.
