(* ===== verification/Funnel.v ===== *)
(** * The resolution funnel (core/chain_resolver.go)

    [resolveNodeChain] is the one place every temporal read selects a version
    from a chain: the point, interval and Allen-relation kinds over the chain
    recorded by a pin, and the as-of kind.  The interval kinds subtract the spans
    where a void row (an excise) wins. *)

From S2P Require Import Prelude ValidTime Allen Rows AsOf Chain Heap Supersession Resolver Effective.

(** [probeKind] and [chainProbe] *)
Inductive probeKind := probePoint | probeInterval | probeAsOf | probeRelate.

Record chainProbe := mkProbe {
  pr_kind : probeKind;
  pr_validAt : Instant;
  pr_validStart : Instant;
  pr_validEnd : Instant;
  pr_tx : Instant;
  pr_rels : AllenRelationSet;
  pr_asOfCurrent : bool;
}.

Inductive resolveError := ErrNoVersionValidAt | ErrNoVersionAsOf.

(** A result or an error of the funnel. *)
Definition or_error {T} (e : resolveError) (o : option T) : T + resolveError :=
  match o with Some r => inl r | None => inr e end.

(** [voidSpan]: [from, to), open by the valid axis. *)
Record voidSpan := mkSpan { v_from : Instant; v_to : Instant }.

Definition minEnd (a : ValidAxis) (x y : Instant) : Instant :=
  if ValidAxis_Open a x then y else if ValidAxis_Open a y then x else Z.min x y.

Fixpoint uncovered_loop (a : ValidAxis) (mask : list voidSpan) (cur hi : Instant) : bool :=
  match mask with
  | [] => true
  | m :: mask' =>
      if negb (ValidAxis_Open a (v_to m)) && (v_to m <=? cur) then uncovered_loop a mask' cur hi
      else if v_from m >? cur then true
      else if ValidAxis_Open a (v_to m) then false
      else if negb (ValidAxis_Open a hi) && (v_to m >=? hi) then false
      else uncovered_loop a mask' (v_to m) hi
  end.

Definition uncovered (a : ValidAxis) (mask : list voidSpan) (lo hi : Instant) : bool :=
  if negb (ValidAxis_Open a hi) && (lo >=? hi) then false else uncovered_loop a mask lo hi.

Fixpoint unmasked_loop (a : ValidAxis) (mask : list voidSpan) (cur e : Instant) : list (Instant * Instant) :=
  match mask with
  | [] => [(cur, e)]
  | m :: mask' =>
      if negb (ValidAxis_Open a (v_to m)) && (v_to m <=? cur) then unmasked_loop a mask' cur e
      else if negb (ValidAxis_Open a e) && (v_from m >=? e) then [(cur, e)]
      else
        (if v_from m >? cur then [(cur, v_from m)] else []) ++
        if ValidAxis_Open a (v_to m) then []
        else if negb (ValidAxis_Open a e) && (v_to m >=? e) then []
        else unmasked_loop a mask' (v_to m) e
  end.

Definition unmasked (a : ValidAxis) (mask : list voidSpan) (s e : Instant) : list (Instant * Instant) :=
  match mask with [] => [(s, e)] | _ => unmasked_loop a mask s e end.

Definition anyValidStart : Instant := UnboundedValidFrom.

Definition anyValidEnd : Instant := MaxInt64.

Section Funnel.
Context {T : Type} `{EntityRow T}.
Implicit Types (chain : list T) (caps : lifeEnds T) (mask : list voidSpan).

(** The loop of [voidMask] over the pieces; the mask is kept last first. *)
Fixpoint mask_loop (pieces : list (effPiece T)) mask : list voidSpan :=
  match pieces with
  | [] => mask
  | p :: pieces' =>
      if negb (isVoidRow (p_row p)) then mask_loop pieces' mask
      else
        match mask with
        | m :: mask' =>
            if v_to m =? p_from p then mask_loop pieces' (mkSpan (v_from m) (p_to p) :: mask')
            else mask_loop pieces' (mkSpan (p_from p) (p_to p) :: mask)
        | [] => mask_loop pieces' [mkSpan (p_from p) (p_to p)]
        end
  end.

Definition voidMask (c : Core) chain : list voidSpan :=
  if negb (existsb isVoidRow chain) then []
  else rev (mask_loop (fst (effectiveSweep c chain [] (chainLifeEnds chain) true)) []).

(** The body of [eachNodeChainDuring]: is the row at position [i] accepted? *)
Definition accepts_during (c : Core) chain (start end_ : Instant) (pred : T -> bool) caps mask (i : nat) (r : T) : bool :=
  let a := axis c in
  let '(vStart, vEnd) := nodeVersionBounds c chain i in
  let '(vEnd, gone) := lifeEnds_cut caps a r vStart vEnd in
  if gone || isVoidRow r then false
  else IntervalMeets a vStart vEnd start end_ &&
       uncovered a mask (Z.max vStart start) (minEnd a vEnd end_) && pred r.

(** The backward loop with the visitor [fn] and its state: [fn] false stops. *)
Fixpoint during_loop {S : Type} (acc : nat -> T -> bool) chain (fn : S -> T -> S * bool) (n : nat) (st : S) : S :=
  match n with
  | O => st
  | Datatypes.S i =>
      match chain !! i with
      | Some r =>
          if acc i r then
            let (st, more) := fn st r in if more then during_loop acc chain fn i st else st
          else during_loop acc chain fn i st
      | None => st
      end
  end.

Definition eachNodeChainDuring {S : Type} (c : Core) chain (start end_ : Instant) (pred : T -> bool) caps mask
    (fn : S -> T -> S * bool) (st : S) : S :=
  let arr := snd (sortNodeChainForResolve c chain) in
  during_loop (accepts_during c arr start end_ pred caps mask) arr fn (length arr) st.

Definition resolveNodeChainDuring (c : Core) chain (start end_ : Instant) (pred : T -> bool) caps mask :
    T + resolveError :=
  or_error ErrNoVersionValidAt
    (eachNodeChainDuring c chain start end_ pred caps mask (fun _ v => (Some v, false)) None).

Definition accepts_relating (c : Core) chain (qStart qEnd : Instant) (rels : AllenRelationSet) (pred : T -> bool)
    caps mask (i : nat) (r : T) : bool :=
  let a := axis c in
  let '(vStart, vEnd) := nodeVersionBounds c chain i in
  let '(vEnd, gone) := lifeEnds_cut caps a r vStart vEnd in
  if gone || isVoidRow r then false
  else existsb (fun iv => match ValidAxis_RelateVersion a (fst iv) (snd iv) qStart qEnd with
                          | inl rel => AllenRelationSet_Contains rels rel && pred r
                          | inr _ => false
                          end) (unmasked a mask vStart vEnd).

Definition resolveNodeChainRelating (c : Core) chain (qStart qEnd : Instant) (rels : AllenRelationSet)
    (pred : T -> bool) caps mask : T + resolveError :=
  if rels =? 0 then inr ErrNoVersionValidAt
  else
    let arr := snd (sortNodeChainForResolve c chain) in
    or_error ErrNoVersionValidAt
      (during_loop (accepts_relating c arr qStart qEnd rels pred caps mask) arr (fun _ v => (Some v, false)) (length arr) None).

Definition selectAsOfChain (a : ValidAxis) chain (pin : Instant) (lastIsCurrent : bool) : option T :=
  match (if lastIsCurrent then last chain else None) with
  | Some cur => SelectAsOfWithCurrent a (take (length chain - 1) chain) (Some cur) pin
  | None => SelectAsOf a chain pin
  end.

(** [nodeVisibleAtTxTime] of a deep copy. *)
Definition nodeVisibleAtTxTime (a : ValidAxis) (txTime : Instant) (r : T) : T :=
  copyWithTemporal (NormalizeTemporalVisibleAtTxTime a txTime) r.

Definition resolveNodeChainAsOf (c : Core) chain (txPin : Instant) (lastIsCurrent : bool) : T + resolveError :=
  match selectAsOfChain (axis c) chain txPin lastIsCurrent with
  | None => inr ErrNoVersionAsOf
  | Some best => inl (nodeVisibleAtTxTime (axis c) txPin best)
  end.

Definition resolveNodeChain (c : Core) chain (probe : chainProbe) (pred : T -> bool) : T + resolveError :=
  match pr_kind probe with
  | probeAsOf => resolveNodeChainAsOf c chain (pr_tx probe) (pr_asOfCurrent probe)
  | kind =>
      let chain := dropRetractedLives (filterNodeChainByTxAt (axis c) (versionOrdered chain) (pr_tx probe)) in
      match chain with
      | [] => inr ErrNoVersionValidAt
      | _ =>
          let caps := chainLifeEnds chain in
          match kind with
          | probeInterval =>
              resolveNodeChainDuring c chain (pr_validStart probe) (pr_validEnd probe) pred caps (voidMask c chain)
          | probeRelate =>
              resolveNodeChainRelating c chain (pr_validStart probe) (pr_validEnd probe) (pr_rels probe) pred caps
                (voidMask c chain)
          | _ => or_error ErrNoVersionValidAt (resolveNodeVersionAtCapped c chain (pr_validAt probe) caps)
          end
      end
  end.

Definition eachNodeChainAnyVersion {S : Type} (c : Core) chain (tx : Instant) (pred : T -> bool)
    (fn : S -> T -> S * bool) (st : S) : S :=
  let chain := dropRetractedLives (filterNodeChainByTxAt (axis c) (versionOrdered chain) tx) in
  match chain with
  | [] => st
  | _ => eachNodeChainDuring c chain anyValidStart anyValidEnd pred (chainLifeEnds chain) (voidMask c chain) fn st
  end.
End Funnel.

(** ** Masks *)

Definition span_covers (a : ValidAxis) (m : voidSpan) (t : Instant) : bool := IntervalCovers a (v_from m) (v_to m) t.

Definition masked (a : ValidAxis) (mask : list voidSpan) (t : Instant) : bool := existsb (fun m => span_covers a m t) mask.

(** Ascending, disjoint, non-empty spans. *)
Record mask_ok (a : ValidAxis) (mask : list voidSpan) : Prop := {
  mk_spans : Forall (fun m => v_from m <> openEnd a /\ (ValidAxis_Open a (v_to m) = true \/ v_from m < v_to m)) mask;
  mk_sorted : StronglySorted (fun m m' => ValidAxis_Open a (v_to m) = false /\ v_to m <= v_from m') mask;
}.

Lemma mask_ok_cons a m mask :
  mask_ok a (m :: mask) ->
  v_from m <> openEnd a /\ (ValidAxis_Open a (v_to m) = true \/ v_from m < v_to m) /\ mask_ok a mask /\
  (ValidAxis_Open a (v_to m) = true -> mask = []) /\
  forall t, (ValidAxis_Open a (v_to m) = false -> t < v_to m) -> masked a mask t = false.
Proof.
  intros [Hs Ho]. apply Forall_cons in Hs as [[H1 H2] Hs]. apply StronglySorted_inv in Ho as [Ho Hf].
  split_and!; [done..|by split| |].
  - intros He. destruct mask as [|m' mask]; [done|]. apply Forall_cons in Hf as [[Hc _] _]. congruence.
  - intros t Ht. unfold masked. destruct (existsb _ mask) eqn:E; [|done]. apply existsb_exists in E as (m' & Hin & Hc).
    rewrite Forall_forall in Hf. destruct (Hf m') as [Hc' Hle]; [by apply list_elem_of_In|]. specialize (Ht Hc').
    unfold span_covers, IntervalCovers in Hc. lia.
Qed.

Lemma masked_cons a m mask t : masked a (m :: mask) t = span_covers a m t || masked a mask t.
Proof. done. Qed.

Lemma open_closed_neq a x y : ValidAxis_Open a x = true -> ValidAxis_Open a y = false -> x <> y.
Proof. congruence. Qed.

Lemma uncovered_loop_spec a mask cur hi :
  mask_ok a mask -> (ValidAxis_Open a hi = true \/ cur < hi) ->
  uncovered_loop a mask cur hi = true <->
  exists t, cur <= t /\ (ValidAxis_Open a hi = true \/ t < hi) /\ masked a mask t = false.
Proof.
  revert cur. induction mask as [|m mask IH]; intros cur Hok Hcur; cbn [uncovered_loop].
  { split; [|done]. intros _. exists cur. split_and!; [lia|done|done]. }
  destruct (mask_ok_cons a m mask Hok) as (_ & Hne & Hok' & Hlast & Hlater).
  destruct (ValidAxis_Open a (v_to m)) eqn:Eo; cbn [negb andb].
  - rewrite (Hlast eq_refl). unfold masked. cbn. unfold span_covers, IntervalCovers. rewrite Eo. cbn [orb].
    destruct (Z.gtb_spec (v_from m) cur).
    + split; [|done]. intros _. exists cur. split_and!; [lia|done|]. destruct (Z.leb_spec (v_from m) cur); [lia|done].
    + split; [done|]. intros (t & Ht & _ & Hm). destruct (Z.leb_spec (v_from m) t); [done|lia].
  - destruct (Z.leb_spec (v_to m) cur) as [Hle|Hgt].
    + rewrite IH by done. split; intros (t & Ht & Hh & Hm); exists t; (split_and!; [done..|]);
        rewrite masked_cons in *; unfold span_covers, IntervalCovers in *; rewrite Eo in *; cbn [orb] in *;
        destruct (Z.gtb_spec (v_to m) t); try lia; by rewrite andb_false_r in *.
    + destruct (Z.gtb_spec (v_from m) cur) as [Hfrom|Hfrom].
      * split; [|done]. intros _. exists cur. split_and!; [lia|done|]. rewrite masked_cons.
        rewrite Hlater by lia. unfold span_covers, IntervalCovers. destruct (Z.leb_spec (v_from m) cur); [lia|done].
      * assert (forall t, cur <= t < v_to m -> masked a (m :: mask) t = true) as Hcov.
        { intros t Ht. rewrite masked_cons. unfold span_covers, IntervalCovers. rewrite Eo.
          destruct (Z.leb_spec (v_from m) t), (Z.gtb_spec (v_to m) t); try lia; done. }
        destruct (ValidAxis_Open a hi) eqn:Eh; cbn [negb andb]; [|destruct (Z.geb_spec (v_to m) hi)].
        -- rewrite IH by (done || by left). split; intros (t & Ht & Hh & Hm); exists t.
           ++ split_and!; [lia|done|]. rewrite masked_cons, Hm, orb_false_r. unfold span_covers, IntervalCovers.
              rewrite Eo. destruct (Z.gtb_spec (v_to m) t); [lia|]. by rewrite andb_false_r.
           ++ destruct (Z.lt_ge_cases t (v_to m)); [rewrite Hcov in Hm; done || lia|].
              rewrite masked_cons in Hm. apply orb_false_iff in Hm as [_ Hm]. by split_and!.
        -- split; [done|]. intros (t & Ht & [?|Hh] & Hm); [done|]. rewrite Hcov in Hm; [done|lia].
        -- rewrite IH by (done || by right). split; intros (t & Ht & Hh & Hm); exists t.
           ++ split_and!; [lia|done|]. rewrite masked_cons, Hm, orb_false_r. unfold span_covers, IntervalCovers.
              rewrite Eo. destruct (Z.gtb_spec (v_to m) t); [lia|]. by rewrite andb_false_r.
           ++ destruct (Z.lt_ge_cases t (v_to m)); [rewrite Hcov in Hm; done || lia|].
              rewrite masked_cons in Hm. apply orb_false_iff in Hm as [_ Hm]. by split_and!.
Qed.

Lemma uncovered_exact a mask lo hi :
  mask_ok a mask -> (uncovered a mask lo hi = true <->
    exists t, IntervalCovers a lo hi t = true /\ masked a mask t = false).
Proof.
  intros Hok. unfold uncovered, IntervalCovers. destruct (ValidAxis_Open a hi) eqn:Eo; cbn [negb andb orb].
  - rewrite uncovered_loop_spec by (done || by left).
    split; intros (t & H1 & H2); exists t; (split; [lia|tauto]) || (split_and!; [lia|by left|tauto]).
  - destruct (Z.geb_spec lo hi).
    + split; [done|]. intros (t & Ht & _). lia.
    + rewrite uncovered_loop_spec by (done || by right). split.
      * intros (t & H1 & [?|H2] & H3); [congruence|]. exists t. split; [lia|done].
      * intros (t & H1 & H2). exists t. split_and!; [lia|right; lia|done].
Qed.

(** The parts of [s, e) outside the mask, pointwise. *)
Definition in_parts (a : ValidAxis) (parts : list (Instant * Instant)) (t : Instant) : bool :=
  existsb (fun iv => IntervalCovers a (fst iv) (snd iv) t) parts.

Lemma unmasked_loop_spec a mask cur e t :
  mask_ok a mask -> in_parts a (unmasked_loop a mask cur e) t = IntervalCovers a cur e t && negb (masked a mask t).
Proof.
  revert cur. induction mask as [|m mask IH]; intros cur Hok; cbn [unmasked_loop].
  { unfold in_parts. cbn. by rewrite orb_false_r, andb_true_r. }
  destruct (mask_ok_cons a m mask Hok) as (Hfrom & Hne & Hok' & Hlast & Hlater). rewrite masked_cons.
  assert (ValidAxis_Open a (v_from m) = false) as Hfo by (by apply Z.eqb_neq).
  assert (forall p l, in_parts a (p :: l) t = IntervalCovers a (fst p) (snd p) t || in_parts a l t) as Hcons by done.
  assert (forall l1 l2, in_parts a (l1 ++ l2) t = in_parts a l1 t || in_parts a l2 t) as Happ by (intros; apply existsb_app).
  assert (in_parts a (if v_from m >? cur then [(cur, v_from m)] else []) t = (cur <=? t) && (t <? v_from m)) as Hhead.
  { destruct (Z.gtb_spec (v_from m) cur); unfold in_parts; cbn; unfold IntervalCovers; rewrite ?Hfo; cbn; lia. }
  assert (in_parts a [(cur, e)] t = IntervalCovers a cur e t) as Hone by (unfold in_parts; cbn; by rewrite orb_false_r).
  unfold span_covers. destruct (ValidAxis_Open a (v_to m)) eqn:Eo; cbn [negb andb].
  - rewrite (Hlast eq_refl) in *. unfold masked. cbn [existsb]. rewrite orb_false_r.
    destruct (ValidAxis_Open a e) eqn:Ee; cbn [negb andb]; [|destruct (Z.geb_spec (v_from m) e)].
    + rewrite app_nil_r, Hhead. unfold IntervalCovers. rewrite Eo, Ee. cbn. lia.
    + rewrite Hone. unfold IntervalCovers. rewrite Eo, Ee. cbn. lia.
    + rewrite app_nil_r, Hhead. unfold IntervalCovers. rewrite Eo, Ee. cbn. lia.
  - destruct (Z.leb_spec (v_to m) cur) as [Hle|Hgt].
    { rewrite IH by done. unfold IntervalCovers at 3. rewrite Eo. cbn [orb].
      destruct (Z.gtb_spec (v_to m) t); [|by rewrite andb_false_r].
      unfold IntervalCovers. destruct (Z.leb_spec cur t); [lia|done]. }
    destruct Hne as [?|Hne]; [congruence|].
    pose proof (Hlater t) as Hlt.
    destruct (ValidAxis_Open a e) eqn:Ee; cbn [negb andb]; [|destruct (Z.geb_spec (v_from m) e); [|destruct (Z.geb_spec (v_to m) e)]].
    + rewrite Happ, Hhead, IH by done. unfold IntervalCovers. rewrite Eo, Ee. cbn [orb].
      destruct (Z.lt_ge_cases t (v_to m)); [rewrite Hlt by done|]; cbn; destruct (masked a mask t); lia.
    + rewrite Hone. unfold IntervalCovers. rewrite Eo, Ee. cbn [orb].
      destruct (Z.lt_ge_cases t (v_to m)); [rewrite Hlt by done|]; cbn; destruct (masked a mask t); lia.
    + rewrite app_nil_r, Hhead. unfold IntervalCovers. rewrite Eo, Ee. cbn [orb].
      destruct (Z.lt_ge_cases t (v_to m)); [rewrite Hlt by done|]; cbn; destruct (masked a mask t); lia.
    + rewrite Happ, Hhead, IH by done. unfold IntervalCovers. rewrite Eo, Ee. cbn [orb].
      destruct (Z.lt_ge_cases t (v_to m)); [rewrite Hlt by done|]; cbn; destruct (masked a mask t); lia.
Qed.

Lemma unmasked_exact a mask s e t :
  mask_ok a mask -> in_parts a (unmasked a mask s e) t = IntervalCovers a s e t && negb (masked a mask t).
Proof.
  intros Hok. unfold unmasked. destruct mask as [|m mask]; [|by apply unmasked_loop_spec].
  unfold in_parts. cbn. by rewrite orb_false_r, andb_true_r.
Qed.

(** ** The void mask *)

Section VoidMask.
Context {T : Type} `{EntityRow T}.

(** Spans last first, all ending at or before [bound]'s piece. *)
Definition mask_rev_ok (a : ValidAxis) (mask : list voidSpan) : Prop :=
  Forall (fun m => v_from m <> openEnd a /\ (ValidAxis_Open a (v_to m) = true \/ v_from m < v_to m)) mask /\
  StronglySorted (fun m m' => ValidAxis_Open a (v_to m') = false /\ v_to m' <= v_from m) mask.

Lemma mask_loop_spec a (pieces : list (effPiece T)) mask :
  Forall (fun p => p_from p <> openEnd a /\ piece_ok a p) pieces ->
  StronglySorted (fun p q => ValidAxis_Open a (p_to p) = false /\ p_to p <= p_from q) pieces ->
  mask_rev_ok a mask ->
  (forall m p, m ∈ mask -> p ∈ pieces -> ValidAxis_Open a (v_to m) = false /\ v_to m <= p_from p) ->
  mask_rev_ok a (mask_loop pieces mask) /\
  forall t, masked a (mask_loop pieces mask) t =
    masked a mask t || existsb (fun p => isVoidRow (p_row p) && IntervalCovers a (p_from p) (p_to p) t) pieces.
Proof.
  revert mask. induction pieces as [|p pieces IH]; intros mask Hp Hs [Hm1 Hm2] Hb; cbn [mask_loop existsb].
  { split; [done|]. intros t. by rewrite orb_false_r. }
  apply Forall_cons in Hp as [[Hpf Hpo] Hp]. apply StronglySorted_inv in Hs as [Hs Hf]. rewrite Forall_forall in Hf.
  assert (forall m q, m ∈ mask -> q ∈ pieces -> ValidAxis_Open a (v_to m) = false /\ v_to m <= p_from q) as Hb'.
  { intros m q Hm Hq. apply Hb; [done|by right]. }
  destruct (isVoidRow (p_row p)) eqn:Ev; cbn [negb andb]; [|by apply IH].
  destruct mask as [|m mask].
  { destruct (IH [mkSpan (p_from p) (p_to p)]) as [H1 H2]; [done..| | |].
    - split; [|by repeat constructor]. constructor; [done|constructor].
    - intros m' q Hm' Hq. apply list_elem_of_singleton in Hm' as ->. apply (Hf q Hq).
    - split; [done|]. intros t. rewrite H2. unfold masked. cbn. by rewrite orb_false_r. }
  destruct (Hb m p ltac:(left) ltac:(left)) as [Hmo Hml].
  apply Forall_cons in Hm1 as [[Hmf Hmn] Hm1]. destruct Hmn as [?|Hmn]; [congruence|].
  apply StronglySorted_inv in Hm2 as [Hm2 Hmf2].
  destruct (Z.eqb_spec (v_to m) (p_from p)) as [Em|Em].
  - destruct (IH (mkSpan (v_from m) (p_to p) :: mask)) as [H1 H2]; [done..| | |].
    + split; [constructor; [split; [done|]|done]|by constructor]. cbn. destruct Hpo; [by left|right; lia].
    + intros m' q Hm' Hq. apply elem_of_cons in Hm' as [->|Hm']; [apply (Hf q Hq)|]. apply Hb'; [by right|done].
    + split; [done|]. intros t. rewrite H2, !masked_cons. rewrite <- orb_assoc, <- orb_assoc.
      unfold span_covers. cbn [v_from v_to]. unfold IntervalCovers at 1 3 4. rewrite Hmo. cbn [orb].
      assert ((v_from m <=? t) && (ValidAxis_Open a (p_to p) || (p_to p >? t)) =
              (v_from m <=? t) && (v_to m >? t) || (p_from p <=? t) && (ValidAxis_Open a (p_to p) || (p_to p >? t))) as ->.
      { destruct (ValidAxis_Open a (p_to p)) eqn:Ep; cbn; [lia|]. destruct Hpo as [Hpo|Hpo]; [congruence|lia]. }
      rewrite <- orb_assoc. f_equal. rewrite !orb_assoc. f_equal. apply orb_comm.
  - destruct (IH (mkSpan (p_from p) (p_to p) :: m :: mask)) as [H1 H2]; [done..| | |].
    + split.
      * constructor; [done|]. constructor; [split; [done|by right]|done].
      * constructor; [by constructor|]. constructor; [done|]. cbn.
        eapply Forall_impl; [exact Hmf2|]. cbn. intros m' [? ?]. split; [done|lia].
    + intros m' q Hm' Hq. apply elem_of_cons in Hm' as [->|Hm']; [apply (Hf q Hq)|]. by apply Hb'.
    + split; [done|]. intros t. rewrite H2, masked_cons. unfold span_covers at 1. cbn [v_from v_to].
      rewrite orb_assoc. f_equal. apply orb_comm.
Qed.

(** The spans of the mask are exactly the instants a void row wins. *)
Lemma voidMask_spec `{!EntityRowOK T} c (chain : list T) :
  bitemporalMigrated c = true -> Forall row_wf chain ->
  Forall (fun r => RowStart (axis c) r <> openEnd (axis c)) chain ->
  mask_ok (axis c) (voidMask c chain) /\
  forall t, masked (axis c) (voidMask c chain) t =
    match winner_row c chain t (chainLifeEnds chain) with Some r => isVoidRow r | None => false end.
Proof.
  intros Hm Hwf Hst. unfold voidMask.
  destruct (sortNodeChainForResolve c chain) as [own arr] eqn:Hs.
  pose proof (sortNodeChainForResolve_spec c chain own arr Hs) as (Hp & _ & _).
  destruct (existsb isVoidRow chain) eqn:Ee; cbn [negb].
  2: { split; [split; constructor|]. intros t.
       destruct (winner_row_spec c chain t (chainLifeEnds chain) own arr Hs) as [(i & r & _ & Hr & ->)|[_ ->]]; [|done].
       apply list_elem_of_lookup_2 in Hr. rewrite Hp in Hr. destruct (isVoidRow r) eqn:Ev; [|done].
       assert (existsb isVoidRow chain = true); [|congruence].
       apply existsb_exists. exists r. split; [by apply list_elem_of_In|done]. }
  assert (Forall row_wf arr /\ Forall (fun r => RowStart (axis c) r <> openEnd (axis c)) arr) as [Hwf' Hst'] by (by rewrite Hp).
  rewrite Forall_forall in Hwf', Hst'.
  set (pieces := fst (effectiveSweep c chain [] (chainLifeEnds chain) true)).
  assert (out_inv (axis c) (fun t => winner_row c chain t (chainLifeEnds chain)) [] (rev pieces)) as Hout.
  { apply (effectiveSweep_out c chain [] (chainLifeEnds chain) true own arr _ Hs).
    - intros i r s e Hi Hrow. apply list_elem_of_lookup_2 in Hi as Hin.
      rewrite (row_iv_start c own arr _ _ i r s e Hm (Hwf' r Hin) Hi Hrow). by apply Hst'.
    - intros t i w Hw Hi. cbn [negb]. rewrite andb_false_r.
      destruct (winner_row_spec c chain t (chainLifeEnds chain) own arr Hs) as [(j & r & Hj & Hr & ->)|[Hn _]].
      + rewrite (winner_unique _ _ _ _ _ i j Hw Hj) in Hi. congruence.
      + destruct Hw as [Hc _]. by rewrite Hn in Hc.
    - intros t Hn. destruct (winner_row_spec c chain t (chainLifeEnds chain) own arr Hs) as [(j & r & [Hc _] & _)|[_ ->]]; [|done].
      by rewrite Hn in Hc. }
  apply out_inv_pieces in Hout as [Hat [Hok Hsorted Hfrom _]].
  destruct (mask_loop_spec (axis c) pieces []) as [[M1 M2] M3].
  - rewrite Forall_forall in Hok, Hfrom |- *. intros p Hpin. split; auto.
  - done.
  - split; constructor.
  - intros m p Hin. by apply not_elem_of_nil in Hin.
  - split.
    + split.
      * apply Forall_forall. intros m Hin. rewrite Forall_forall in M1. apply M1. by rewrite list_elem_of_In, in_rev, <- list_elem_of_In.
      * by apply (StronglySorted_rev _ _ M2).
    + intros t. rewrite <- Hat.
      assert (masked (axis c) (rev (mask_loop pieces [])) t = masked (axis c) (mask_loop pieces []) t) as ->.
      { unfold masked. apply existsb_perm. symmetry. apply Permutation_rev. }
      rewrite M3. cbn [masked existsb orb]. unfold piece_at.
      set (f := fun p : effPiece T => IntervalCovers (axis c) (p_from p) (p_to p) t).
      destruct (List.find f pieces) as [p|] eqn:Ef.
      * apply find_some in Ef as [Hin Hc]. apply eq_true_iff_eq. rewrite existsb_exists. split.
        -- intros (q & Hq & [Hv Hcq]%andb_prop).
           rewrite <- (rev_involutive pieces) in Hsorted. apply StronglySorted_rev in Hsorted. rewrite rev_involutive in Hsorted.
           assert (p = q) as ->; [|done]. apply (piece_covering_unique (axis c) (rev pieces) t p q Hsorted);
             [by rewrite list_elem_of_In, <- in_rev..|done|done].
        -- intros Hv. exists p. split; [done|]. rewrite Hv. done.
      * destruct (existsb _ pieces) eqn:Ex; [|done]. apply existsb_exists in Ex as (q & Hq & [_ Hcq]%andb_prop).
        pose proof (find_none _ _ Ef q Hq) as Hnone. unfold f in Hnone. congruence.
Qed.
End VoidMask.

(** ** The interval door *)

Section During.
Context {T : Type} `{EntityRow T}.

Lemma during_loop_first (acc : nat -> T -> bool) (chain : list T) n :
  (n <= length chain)%nat ->
  match during_loop acc chain (fun _ v => (Some v, false)) n None with
  | Some r => exists i, (i < n)%nat /\ chain !! i = Some r /\ acc i r = true /\
      forall j r', (i < j < n)%nat -> chain !! j = Some r' -> acc j r' = false
  | None => forall j r', (j < n)%nat -> chain !! j = Some r' -> acc j r' = false
  end.
Proof.
  induction n as [|i IH]; intros Hn; cbn [during_loop]; [intros; lia|].
  destruct (lookup_lt_is_Some_2 chain i) as [r Hr]; [lia|]. rewrite Hr.
  destruct (acc i r) eqn:E; [exists i; split_and!; [lia|done..|intros; lia]|].
  specialize (IH ltac:(lia)). destruct (during_loop _ _ _ i None) as [w|].
  - destruct IH as (k & Hk & Hw & Ha & Hall). exists k. split_and!; [lia|done..|].
    intros j r' Hj Hr'. destruct (decide (j = i)) as [->|]; [congruence|apply Hall; [lia|done]].
  - intros j r' Hj Hr'. destruct (decide (j = i)) as [->|]; [congruence|apply IH; [lia|done]].
Qed.

(** The row at position [i] of the resolver-ordered chain is valid at some
    instant of [start, end) where no void row wins, and satisfies [pred]. *)
Definition valid_during (c : Core) (chain arr : list T) (start end_ : Instant) (pred : T -> bool) (i : nat) (r : T) : Prop :=
  isVoidRow r = false /\ pred r = true /\
  exists t, start <= t < end_ /\
    (let '(s, e) := nodeVersionBounds c arr i in
     IntervalCovers (axis c) s (lifeEnds_end (chainLifeEnds chain) (axis c) r e) t = true) /\
    match winner_row c chain t (chainLifeEnds chain) with Some w => isVoidRow w = false | None => True end.

Lemma lifeEnds_cut_spec (caps : lifeEnds T) a r s e :
  let '(e', gone) := lifeEnds_cut caps a r s e in
  e' = lifeEnds_end caps a r e /\ (gone = true -> forall t, IntervalCovers a s e' t = true -> ValidAxis_Open a e' = true).
Proof.
  unfold lifeEnds_cut, lifeEnds_end. destruct (lifeEnds_lookup caps r) as [l|]; [|by split].
  destruct (ValidAxis_Open a e) eqn:Eo; cbn [negb andb orb].
  - split; [done|]. intros Hg t. unfold IntervalCovers. destruct (ValidAxis_Open a l); [done|]. cbn. lia.
  - destruct (Z.leb_spec e l) as [Hle|Hgt].
    + destruct (Z.gtb_spec e l); [lia|]. by split.
    + destruct (Z.gtb_spec e l); [|lia]. split; [done|].
      intros Hg t. unfold IntervalCovers. destruct (ValidAxis_Open a l); [done|]. cbn. lia.
Qed.

Lemma accepts_during_spec `{!EntityRowOK T} c chain arr start end_ pred i r :
  mask_ok (axis c) (voidMask c chain) ->
  (forall t, masked (axis c) (voidMask c chain) t =
     match winner_row c chain t (chainLifeEnds chain) with Some w => isVoidRow w | None => false end) ->
  ValidAxis_Open (axis c) end_ = false ->
  (forall l, lifeEnds_lookup (chainLifeEnds chain) r = Some l -> ValidAxis_Open (axis c) l = false) ->
  accepts_during c arr start end_ pred (chainLifeEnds chain) (voidMask c chain) i r = true <->
  valid_during c chain arr start end_ pred i r.
Proof.
  intros Hok Hmask Hend Hlife. unfold accepts_during, valid_during.
  destruct (nodeVersionBounds c arr i) as [s e].
  pose proof (lifeEnds_cut_spec (chainLifeEnds chain) (axis c) r s e) as Hcut.
  destruct (lifeEnds_cut (chainLifeEnds chain) (axis c) r s e) as [e' gone] eqn:Ecut. destruct Hcut as [He' Hgone].
  rewrite <- He'. set (a := axis c) in *.
  assert (gone = true -> ValidAxis_Open a e' = false) as Hgo.
  { unfold lifeEnds_cut in Ecut. destruct (lifeEnds_lookup (chainLifeEnds chain) r) as [l|]; [|injection Ecut as <- <-; done].
    specialize (Hlife l eq_refl). destruct (negb _ && _); injection Ecut as <- <-; done. }
  destruct gone; cbn [orb].
  { split; [done|]. intros (_ & _ & t & _ & Hc & _). specialize (Hgone eq_refl t Hc). specialize (Hgo eq_refl). congruence. }
  destruct (isVoidRow r); [split; [done|by intros [? _]]|].
  rewrite !andb_true_iff, (uncovered_exact a _ _ _ Hok).
  assert (forall t, IntervalCovers a (Z.max s start) (minEnd a e' end_) t = true <->
    start <= t < end_ /\ IntervalCovers a s e' t = true) as Hint.
  { intros t. unfold IntervalCovers, minEnd. rewrite Hend. destruct (ValidAxis_Open a e') eqn:Eo; cbn [orb].
    - rewrite Hend. cbn. lia.
    - destruct (Z.min_spec e' end_) as [[Hm ->]|[Hm ->]]; rewrite ?Eo, ?Hend; cbn; lia. }
  split.
  - intros [[Hmeets (t & Ht & Hm)] Hp]. split_and!; [done..|]. exists t. apply Hint in Ht as [Ht Hc].
    split_and!; [lia..|done|]. rewrite Hmask in Hm. by destruct (winner_row c chain t (chainLifeEnds chain)).
  - intros (_ & Hp & t & Ht & Hc & Hw). split_and!; [|exists t; split; [by apply Hint|]|done].
    + unfold IntervalMeets, IntervalCovers in *. destruct (ValidAxis_Open a e'); cbn in *; lia.
    + rewrite Hmask. by destruct (winner_row c chain t (chainLifeEnds chain)).
Qed.

(** The life end of a row is a delete instant of the chain. *)
Lemma chainLifeEnds_open a (chain : list T) r l :
  Forall (fun d => ValidAxis_Open a d = false) (deaths_of chain) ->
  lifeEnds_lookup (chainLifeEnds chain) r = Some l -> ValidAxis_Open a l = false.
Proof.
  intros Hd. unfold lifeEnds_lookup, chainLifeEnds. destruct (deaths_of chain) as [|d0 ds] eqn:Ed; [done|]. rewrite <- Ed in *.
  set (deaths := sort_by Z.ltb (deaths_of chain)).
  destruct (List.find _ _) as [[x l']|] eqn:Ef; [|done]. intros [= <-]. apply find_some in Ef as [Hin _].
  apply list_elem_of_In, list_elem_of_omap in Hin as (y & _ & Hy).
  destruct (Nat.ltb_spec (BinarySearch deaths (beliefTx (Temporal y))) (length deaths)) as [Hlt|]; [|done].
  injection Hy as _ <-. rewrite Forall_forall in Hd. apply Hd. rewrite <- (elem_of_sort_by Z.ltb).
  by apply list_elem_of_In, nth_In.
Qed.
End During.

(** ** Properties *)


(** C34: the interval door, for a window whose end is an instant and not the axis's
    open end, which its callers resolve first: it answers the latest row of the
    resolver order that is valid at some instant of the window where no void row wins
    and satisfies the predicate, and ErrNoVersionValidAt exactly when there is none.
    For a pinned read of a well-formed chain of a migrated graph no delete of which
    is recorded at the axis's open end. *)
Theorem interval_door_exact {T} `{EntityRowOK T} c (chain : list T) pin start end_ pred own arr :
  chain_ok c chain -> pin <> 0 -> ValidAxis_Open (axis c) end_ = false ->
  let input := resolver_input (axis c) chain pin in
  Forall (fun d => ValidAxis_Open (axis c) d = false) (deaths_of input) ->
  sortNodeChainForResolve c input = (own, arr) ->
  match resolveNodeChain c chain (mkProbe probeInterval 0 start end_ pin 0 false) pred with
  | inl r => exists i, arr !! i = Some r /\ valid_during c input arr start end_ pred i r /\
      forall j r', (i < j)%nat -> arr !! j = Some r' -> ~ valid_during c input arr start end_ pred j r'
  | inr e => e = ErrNoVersionValidAt /\
      forall j r', arr !! j = Some r' -> ~ valid_during c input arr start end_ pred j r'
  end.
Proof.
  intros [Hm Hwf Hst _ _] Hp Hend input Hdeaths Hs.
  destruct (resolver_input_ok (axis c) chain pin Hp Hwf) as [Hwf' Hst']. specialize (Hst' _ _ Hst). fold input in Hwf', Hst'.
  destruct (voidMask_spec c input Hm Hwf' Hst') as [Hok Hmask].
  unfold resolveNodeChain. cbn [pr_kind pr_tx pr_validStart pr_validEnd]. fold (resolver_input (axis c) chain pin). fold input.
  assert (forall j r', arr !! j = Some r' ->
    accepts_during c arr start end_ pred (chainLifeEnds input) (voidMask c input) j r' = true <->
    valid_during c input arr start end_ pred j r') as Hacc.
  { intros j r' _. apply accepts_during_spec; [done..|]. intros l. by apply chainLifeEnds_open. }
  assert (input = [] -> arr = []) as Hnil.
  { intros E. rewrite E in Hs. cbn in Hs. congruence. }
  destruct input as [|r0 input'] eqn:Ei; [split; [done|]; rewrite (Hnil eq_refl); done|]. rewrite <- Ei in *.
  unfold resolveNodeChainDuring, eachNodeChainDuring. rewrite Hs. cbn [snd].
  pose proof (during_loop_first (accepts_during c arr start end_ pred (chainLifeEnds input) (voidMask c input)) arr (length arr) ltac:(lia)) as Hd.
  destruct (during_loop _ _ _ _ _) as [r|]; cbn [or_error].
  - destruct Hd as (i & Hi & Hr & Ha & Hall). exists i. split_and!; [done|by apply Hacc|].
    intros j r' Hj Hr' Hv. apply (Hacc j r' Hr') in Hv. rewrite Hall in Hv; [done| |done].
    split; [done|by eapply lookup_lt_Some].
  - split; [done|]. intros j r' Hr' Hv. apply (Hacc j r' Hr') in Hv. rewrite (Hd j r') in Hv; [done| |done]. by eapply lookup_lt_Some.
Qed.

(** The spans an excise voids are exactly the instants at which a void row
    wins the point resolution, as ascending disjoint non-empty spans. *)
Theorem void_mask_exact {T} `{EntityRowOK T} c (chain : list T) :
  bitemporalMigrated c = true -> Forall row_wf chain ->
  Forall (fun r => RowStart (axis c) r <> openEnd (axis c)) chain ->
  mask_ok (axis c) (voidMask c chain) /\
  forall t, masked (axis c) (voidMask c chain) t =
    match winner_row c chain t (chainLifeEnds chain) with Some r => isVoidRow r | None => false end.
Proof. apply voidMask_spec. Qed.

(** Subtracting the voided spans from a row's interval leaves exactly the
    instants of the interval outside them: the parts the Allen door classifies,
    and the test the interval door makes. *)
Theorem mask_subtraction_exact a mask s e t :
  mask_ok a mask ->
  in_parts a (unmasked a mask s e) t = IntervalCovers a s e t && negb (masked a mask t) /\
  (uncovered a mask s e = true <-> exists u, in_parts a (unmasked a mask s e) u = true).
Proof.
  intros Hok. split; [by apply unmasked_exact|]. rewrite (uncovered_exact a mask s e Hok).
  split; intros (u & Hu); exists u; [rewrite unmasked_exact by done; destruct Hu as [-> ->]; done|].
  rewrite unmasked_exact in Hu by done. apply andb_prop in Hu as [Hu1 Hu2%negb_true_iff]. done.
Qed.

Section Witness.
#[local] Existing Instance demo_layout.


(** A genesis with an excised span [20, 40). *)
Definition demo_excised : list (Node unit) :=
  [demo_row 1 0 (demo_tm 5 0 5 0 0);
   demo_row 2 1 (mkTM 20 40 30 0 0 0 0 "" "" 0 false true false)].

Lemma demo_excised_ok : chain_ok demo_core demo_excised.
Proof.
  split.
  - reflexivity.
  - forall_literal ltac:(intros [? [=]]).
  - forall_literal ltac:(vm_compute; discriminate).
  - forall_literal ltac:(intros tm; cbn; intros [= <-] Hd; cbn in Hd; done).
  - intros r [=].
Qed.

Lemma interval_door_exact_witness :
  let input := resolver_input LegacyValidAxis demo_excised 50 in
  match resolveNodeChain demo_core demo_excised (mkProbe probeInterval 0 10 30 50 0 false) (fun _ => true) with
  | inl r => exists i, input !! i = Some r /\ valid_during demo_core input input 10 30 (fun _ => true) i r /\
      forall j r', (i < j)%nat -> input !! j = Some r' -> ~ valid_during demo_core input input 10 30 (fun _ => true) j r'
  | inr e => e = ErrNoVersionValidAt /\
      forall j r', input !! j = Some r' -> ~ valid_during demo_core input input 10 30 (fun _ => true) j r'
  end.
Proof.
  intros input.
  apply (interval_door_exact demo_core demo_excised 50 10 30 (fun _ => true) false input demo_excised_ok).
  - lia.
  - reflexivity.
  - vm_compute. constructor.
  - reflexivity.
Defined.

Lemma void_mask_exact_witness :
  mask_ok LegacyValidAxis (voidMask demo_core demo_excised) /\
  (forall t, masked LegacyValidAxis (voidMask demo_core demo_excised) t =
    match winner_row demo_core demo_excised t (chainLifeEnds demo_excised) with Some r => isVoidRow r | None => false end) /\
  voidMask demo_core demo_excised = [mkSpan 20 40].
Proof.
  destruct (void_mask_exact demo_core demo_excised) as [H1 H2].
  - reflexivity.
  - forall_literal ltac:(intros [? [=]]).
  - forall_literal ltac:(vm_compute; discriminate).
  - split; [exact H1|]. split; [exact H2|]. vm_compute. reflexivity.
Defined.

Lemma mask_subtraction_exact_witness :
  let a := LegacyValidAxis in let mask := [mkSpan 20 40; mkSpan 50 0] in
  (in_parts a (unmasked a mask 5 60) 45 = IntervalCovers a 5 60 45 && negb (masked a mask 45) /\
   (uncovered a mask 5 60 = true <-> exists u, in_parts a (unmasked a mask 5 60) u = true)) /\
  unmasked a mask 5 60 = [(5, 20); (40, 50)].
Proof.
  intros a mask. split; [|reflexivity]. apply (mask_subtraction_exact a mask 5 60 45). split.
  - forall_literal ltac:(split; [vm_compute; discriminate|by left] || (split; [vm_compute; discriminate|right; vm_compute; reflexivity])).
  - constructor; [repeat constructor|]. forall_literal ltac:(vm_compute; by split).
Defined.
End Witness.

(** ** The relationship mirrors *)

Section RelNames.
Context {P : Type} `{EqDecision P} `{Layout}.

Definition eachRelChainDuring {S : Type} :
    Core -> list (Relationship P) -> Instant -> Instant -> (Relationship P -> bool) -> lifeEnds (Relationship P) ->
    list voidSpan -> (S -> Relationship P -> S * bool) -> S -> S := eachNodeChainDuring.

Definition resolveRelChainDuring :
    Core -> list (Relationship P) -> Instant -> Instant -> (Relationship P -> bool) -> lifeEnds (Relationship P) ->
    list voidSpan -> Relationship P + resolveError := resolveNodeChainDuring.

Definition resolveRelChainRelating :
    Core -> list (Relationship P) -> Instant -> Instant -> AllenRelationSet -> (Relationship P -> bool) ->
    lifeEnds (Relationship P) -> list voidSpan -> Relationship P + resolveError := resolveNodeChainRelating.

Definition eachRelChainAnyVersion {S : Type} :
    Core -> list (Relationship P) -> Instant -> (Relationship P -> bool) -> (S -> Relationship P -> S * bool) -> S -> S :=
  eachNodeChainAnyVersion.

Definition resolveRelChainAsOf : Core -> list (Relationship P) -> Instant -> bool -> Relationship P + resolveError :=
  resolveNodeChainAsOf.

Definition resolveRelChain :
    Core -> list (Relationship P) -> chainProbe -> (Relationship P -> bool) -> Relationship P + resolveError :=
  resolveNodeChain.
End RelNames.
