(* ===== verification/Pinned.v ===== *)
(** * Repeatable pinned reads

    A read at a transaction-time pin answers the belief recorded by the pin.
    [later] says what writes after the pin may do to an entity's chain: append
    rows recorded after it anywhere, and stamp a row that was current as
    superseded or deleted.  The theorems: none of it changes which version a
    pinned point read answers, and no answer was recorded after the pin. *)

From S2P Require Import Prelude ValidTime Rows AsOf Clock TxWrites Chain Supersession Resolver Effective Funnel Heap.

(** ** Sorting related lists *)

Section Forall2Sort.
Context {A B : Type} (R : A -> B -> Prop) (lt : A -> A -> bool) (lt' : B -> B -> bool).

Lemma Forall2_insert_by x x' l l' :
  R x x' -> Forall2 R l l' ->
  (forall y y', R y y' -> y ∈ l -> y' ∈ l' -> lt y x = lt' y' x') ->
  Forall2 R (insert_by lt x l) (insert_by lt' x' l').
Proof.
  intros Hx Hl. induction Hl as [|y y' l l' Hy Hl IH]; intros Hlt; cbn [insert_by]; [by repeat constructor|].
  rewrite (Hlt y y' Hy) by left. destruct (lt' y' x'); [|by repeat constructor].
  constructor; [done|]. apply IH. intros z z' Hz ? ?. apply Hlt; [done|by right|by right].
Qed.

Lemma Forall2_sort_by l l' :
  Forall2 R l l' ->
  (forall x x' y y', R x x' -> R y y' -> x ∈ l -> x' ∈ l' -> y ∈ l -> y' ∈ l' -> lt y x = lt' y' x') ->
  Forall2 R (sort_by lt l) (sort_by lt' l').
Proof.
  induction 1 as [|x x' l l' Hx Hl IH]; intros Hlt; cbn [sort_by]; [constructor|].
  apply Forall2_insert_by; [done| |].
  - apply IH. intros. eapply Hlt; eauto; by right.
  - intros y y' Hy Hin Hin'. rewrite elem_of_sort_by in Hin. rewrite elem_of_sort_by in Hin'. apply Hlt; [done..|left|left|by right|by right].
Qed.
End Forall2Sort.

Lemma Lfilter_filter {A} (f : A -> bool) l : List.filter f l = filter (fun x => f x = true) l.
Proof.
  induction l as [|x l IH]; [done|]. rewrite filter_cons. cbn [List.filter]. destruct (f x) eqn:E.
  - rewrite decide_True by done. by rewrite IH.
  - rewrite decide_False by congruence. done.
Qed.

Lemma sort_by_Lfilter {A} (lt : A -> A -> bool) `{!StrictWeak lt} (f : A -> bool) l :
  List.filter f (sort_by lt l) = sort_by lt (List.filter f l).
Proof. rewrite !Lfilter_filter. by apply sort_by_filter. Qed.

Section Pinned.
Context {T : Type} `{EntityRowOK T} (c : Core) (pin : Instant).
Implicit Types (r s : T) (chain : list T).

(** ** Rows the resolver cannot tell apart at the pin *)

(** The same metadata, or the same but superseded after the pin. *)
Definition tsim (o o' : option TemporalMetadata) : Prop :=
  match o, o' with
  | None, None => True
  | Some tm, Some tm' =>
      tm' = tm \/ (exists at_, pin < at_ /\ tm' = set_TxTo at_ tm /\ TxTo tm = 0 /\ 0 < TxFrom tm)
  | _, _ => False
  end.

Record sim r s : Prop := {
  sim_version : Version s = Version r;
  sim_start : forall ax, RowStart ax s = RowStart ax r;
  sim_mint : RowMint s = RowMint r;
  sim_tm : tsim (Temporal r) (Temporal s);
}.

(** Every field the resolver reads, TxTo apart. *)
Definition tm_key (o : option TemporalMetadata) :=
  match o with
  | Some tm => Some (ValidFrom tm, ValidTo tm, TxFrom tm, UpdatedAt tm, DeletedAt tm, Retracted tm, Void tm)
  | None => None
  end.

Lemma tsim_key o o' : tsim o o' -> tm_key o' = tm_key o.
Proof.
  unfold tsim. destruct o as [tm|], o' as [tm'|]; try done.
  intros [->|(at_ & _ & -> & _)]; done.
Qed.

(** A function of the key is the same on similar rows. *)
Ltac by_key Hs :=
  let Hk := fresh in
  pose proof (tsim_key _ _ (sim_tm _ _ Hs)) as Hk; revert Hk;
  repeat match goal with |- context [Temporal ?x] => destruct (Temporal x) as [?|] end; cbn; intros Hk;
  try done; let E1 := fresh in let E2 := fresh in let E3 := fresh in let E4 := fresh in
  let E5 := fresh in let E6 := fresh in let E7 := fresh in
  injection Hk as E1 E2 E3 E4 E5 E6 E7; rewrite ?E1, ?E2, ?E3, ?E4, ?E5, ?E6, ?E7; done.

Lemma sim_belief r s : sim r s -> beliefTx (Temporal s) = beliefTx (Temporal r).
Proof. intros Hs. unfold beliefTx. by_key Hs. Qed.

Lemma sim_void r s : sim r s -> isVoidRow s = isVoidRow r.
Proof. intros Hs. unfold isVoidRow. by_key Hs. Qed.

Lemma sim_death r s : sim r s ->
  match Temporal s with Some tm => if negb (DeletedAt tm =? 0) then Some (DeletedAt tm, Retracted tm) else None | None => None end =
  match Temporal r with Some tm => if negb (DeletedAt tm =? 0) then Some (DeletedAt tm, Retracted tm) else None | None => None end.
Proof. intros Hs. by_key Hs. Qed.

Lemma Forall2_omap_eq {A B C} (R : A -> B -> Prop) (f : A -> option C) (g : B -> option C) l l' :
  Forall2 R l l' -> (forall x y, R x y -> g y = f x) -> omap g l' = omap f l.
Proof. induction 1 as [|x y l l' Hxy _ IH]; intros Hf; cbn; [done|]. rewrite (Hf x y Hxy), IH by done. done. Qed.

Lemma sim_chain_deaths chain chain' : Forall2 sim chain chain' -> chain_deaths chain' = chain_deaths chain.
Proof. intros Hf. unfold chain_deaths. eapply Forall2_omap_eq; [exact Hf|]. intros r s. apply sim_death. Qed.

Lemma deaths_of_chain_deaths chain : deaths_of chain = map fst (chain_deaths chain).
Proof.
  unfold deaths_of, chain_deaths. induction chain as [|r chain IH]; cbn; [done|].
  destruct (Temporal r) as [tm|]; [|done]. destruct (negb (DeletedAt tm =? 0)); cbn; by rewrite IH.
Qed.

Lemma Forall2_Lfilter {A B} (R : A -> B -> Prop) (f : A -> bool) (g : B -> bool) l l' :
  Forall2 R l l' -> (forall x y, R x y -> g y = f x) -> Forall2 R (List.filter f l) (List.filter g l').
Proof.
  induction 1 as [|x y l l' Hxy _ IH]; intros Hf; cbn; [constructor|]. rewrite (Hf x y Hxy).
  destruct (f x); [constructor|]; auto.
Qed.

Lemma sim_dropRetracted chain chain' :
  Forall2 sim chain chain' -> Forall2 sim (dropRetractedLives chain) (dropRetractedLives chain').
Proof.
  intros Hf. unfold dropRetractedLives. rewrite (sim_chain_deaths _ _ Hf). destruct (negb _); [done|].
  eapply Forall2_Lfilter; [exact Hf|]. intros r s Hs. by rewrite (sim_belief r s Hs).
Qed.

(** ** Life ends by recorded instant *)

Definition life_end_at (deaths : list Instant) (recorded : Instant) : option Instant :=
  match deaths with
  | [] => None
  | _ => let ds := sort_by Z.ltb deaths in
         let i := BinarySearch ds recorded in if (i <? length ds)%nat then Some (nth i ds 0) else None
  end.

Lemma find_omap_key (f : T -> option Instant) chain r :
  r ∈ chain ->
  match List.find (fun e => bool_decide (fst e = r)) (omap (fun x => (x,.) <$> f x) chain) with Some e => Some (snd e) | None => None end = f r.
Proof.
  intros Hin. destruct (f r) as [v|] eqn:Ef.
  - induction chain as [|x chain IH]; [by apply not_elem_of_nil in Hin|]. cbn [omap list_omap].
    destruct (decide (x = r)) as [->|Hne].
    + rewrite Ef. cbn. by rewrite bool_decide_eq_true_2.
    + apply elem_of_cons in Hin as [?|Hin]; [congruence|]. destruct (f x); cbn; [|by apply IH].
      rewrite bool_decide_eq_false_2 by done. by apply IH.
  - clear Hin. induction chain as [|x chain IH]; [done|]. cbn [omap list_omap]. destruct (f x) as [v|] eqn:Ex; cbn; [|exact IH].
    rewrite bool_decide_eq_false_2; [exact IH|]. congruence.
Qed.

Lemma lifeEnds_lookup_at chain r :
  r ∈ chain -> lifeEnds_lookup (chainLifeEnds chain) r = life_end_at (deaths_of chain) (beliefTx (Temporal r)).
Proof.
  intros Hin. unfold lifeEnds_lookup, chainLifeEnds, life_end_at. destruct (deaths_of chain) as [|d ds]; [done|].
  generalize (sort_by Z.ltb (d :: ds)) as deaths. intros deaths.
  set (f := fun x : T => let i := BinarySearch deaths (beliefTx (Temporal x)) in
    if (i <? length deaths)%nat then Some (nth i deaths 0) else None).
  change (match List.find (fun e => bool_decide (fst e = r)) (omap (fun x => let i := BinarySearch deaths (beliefTx (Temporal x)) in
    if (i <? length deaths)%nat then Some (x, nth i deaths 0) else None) chain) with Some e => Some (snd e) | None => None end = f r).
  rewrite (list_omap_ext _ (fun x => (x,.) <$> f x) chain chain); [by apply find_omap_key|].
  apply Forall_Forall2_diag, Forall_forall. intros x _. unfold f. cbv zeta. by destruct (_ <? _)%nat.
Qed.

Lemma sim_lifeEnds_end chain chain' r s a e :
  Forall2 sim chain chain' -> sim r s -> r ∈ chain -> s ∈ chain' ->
  lifeEnds_end (chainLifeEnds chain') a s e = lifeEnds_end (chainLifeEnds chain) a r e.
Proof.
  intros Hf Hs Hr Hs'. unfold lifeEnds_end. rewrite !lifeEnds_lookup_at by done.
  by rewrite !deaths_of_chain_deaths, (sim_chain_deaths _ _ Hf), (sim_belief r s Hs).
Qed.

(** ** Resolver order *)

Lemma sim_tiles ax r s r' s' pa pb :
  sim r s -> sim r' s' -> tilesWithNext ax (Temporal s) (Temporal s') pa pb = tilesWithNext ax (Temporal r) (Temporal r') pa pb.
Proof.
  intros H1 H2. unfold tilesWithNext. destruct (pa <? pb); [done|].
  assert (forall x y, sim x y -> match Temporal y with None => ValidAxis_OpenEnd ax | Some tm => ValidTo tm end =
    match Temporal x with None => ValidAxis_OpenEnd ax | Some tm => ValidTo tm end) as He by (intros x y Hxy; by_key Hxy).
  by rewrite (He r s H1), (He r' s' H2).
Qed.

Lemma sim_tiling_scan ax tiles r s rest rest' :
  sim r s -> Forall2 sim rest rest' -> tiling_scan ax tiles s rest' = tiling_scan ax tiles r rest.
Proof.
  intros Hs Hf. revert tiles r s Hs. induction Hf as [|x y rest rest' Hxy _ IH]; intros tiles r s Hs; cbn [tiling_scan]; [done|].
  rewrite (sim_tiles ax r s x y), (sim_start _ _ Hs), (sim_start _ _ Hxy), (sim_version _ _ Hs), (sim_version _ _ Hxy) by done.
  destruct (_ || _); [done|]. by apply IH.
Qed.

Lemma sim_sortForResolve chain chain' :
  Forall2 sim chain chain' ->
  fst (sortNodeChainForResolve c chain') = fst (sortNodeChainForResolve c chain) /\
  Forall2 sim (snd (sortNodeChainForResolve c chain)) (snd (sortNodeChainForResolve c chain')).
Proof.
  intros Hf. unfold sortNodeChainForResolve. destruct Hf as [|r s rest rest' Hs Hf]; [done|].
  rewrite (sim_tiling_scan (axis c) true r s rest rest') by done.
  destruct (tiling_scan (axis c) true r rest); cbn [fst snd]; (split; [done|]); [by constructor|].
  apply (Forall2_sort_by sim); [by constructor|]. intros x x' y y' Hx Hy _ _ _ _. unfold resolve_lt, lt_key2.
  by rewrite !(sim_start _ _ Hx), !(sim_start _ _ Hy), (sim_version _ _ Hx), (sim_version _ _ Hy).
Qed.

(** ** Bounds and supersession *)

Lemma Forall2_lookup_lr {A B} (R : A -> B -> Prop) l l' i :
  Forall2 R l l' -> match l !! i, l' !! i with Some x, Some y => R x y | None, None => True | _, _ => False end.
Proof.
  intros Hf. revert i. induction Hf as [|x y l l' Hxy _ IH]; intros [|i]; cbn; [done..|]. apply IH.
Qed.

Lemma sim_versionBounds arr arr' i :
  Forall2 sim arr arr' -> nodeVersionBounds c arr' i = nodeVersionBounds c arr i.
Proof.
  intros Hf. unfold nodeVersionBounds.
  pose proof (Forall2_lookup_lr _ _ _ i Hf) as Hi. pose proof (Forall2_lookup_lr _ _ _ (S i) Hf) as Hn.
  destruct (arr !! i) as [r|] eqn:Er, (arr' !! i) as [s|] eqn:Es; try done.
  assert (match arr' !! S i with Some next => RowStart (axis c) next | None => ValidAxis_OpenEnd (axis c) end =
          match arr !! S i with Some next => RowStart (axis c) next | None => ValidAxis_OpenEnd (axis c) end) as ->.
  { destruct (arr !! S i), (arr' !! S i); try done. apply Hn. }
  assert (forall tm tm', ValidFrom tm' = ValidFrom tm -> UpdatedAt tm' = UpdatedAt tm ->
    nodeInheritedValidFrom arr' i tm' = nodeInheritedValidFrom arr i tm) as Hinh.
  { intros tm tm' E1 E2. unfold nodeInheritedValidFrom. rewrite E1, E2. destruct (_ || _); [done|].
    pose proof (Forall2_lookup_lr _ _ _ (i - 1)%nat Hf) as Hp.
    destruct (arr !! (i - 1)%nat) as [x|], (arr' !! (i - 1)%nat) as [y|]; try done. by_key Hp. }
  pose proof (tsim_key _ _ (sim_tm _ _ Hi)) as Hk. unfold UntimedValidFrom. rewrite (sim_mint _ _ Hi).
  destruct (Temporal r) as [tm|], (Temporal s) as [tm'|]; cbn in Hk; try done.
  injection Hk as E1 E2 E3 E4 _ _ _. rewrite E1, E2, E3, E4. by rewrite (Hinh tm tm').
Qed.

Lemma sim_ith (f : T -> Z) arr arr' i :
  Forall2 sim arr arr' -> (forall r s, sim r s -> f s = f r) -> ith f arr' i = ith f arr i.
Proof.
  intros Hf He. unfold ith. pose proof (Forall2_lookup_lr _ _ _ i Hf).
  destruct (arr !! i), (arr' !! i); try done. by apply He.
Qed.

(** A row superseded after the pin replaces nothing the pin sees. *)
Lemma sim_is_replacing arr arr' q :
  Forall2 sim arr arr' -> Forall (fun r => beliefTx (Temporal r) <= pin) arr -> 0 < pin ->
  let txs := ith (fun r => beliefTx (Temporal r)) arr in let versions := ith Version arr in
  is_replacing txs versions (replaced_rows arr') q = is_replacing txs versions (replaced_rows arr) q.
Proof.
  intros Hf Hpin Hpos txs versions.
  assert (txs q <= pin) as Hq.
  { unfold txs, ith. destruct (arr !! q) as [r|] eqn:E; [|lia]. rewrite Forall_forall in Hpin. apply Hpin. by eapply list_elem_of_lookup_2. }
  unfold is_replacing, replaced_rows. generalize (txs q) (versions q) Hq. intros tx v Htx. clear Hq.
  induction Hf as [|r s arr arr' Hs _ IH]; cbn; [done|].
  apply Forall_cons in Hpin as [_ Hpin]. specialize (IH Hpin).
  pose proof (sim_tm _ _ Hs) as Ht. pose proof (sim_version _ _ Hs) as Hv. unfold tsim in Ht.
  destruct (Temporal r) as [tm|], (Temporal s) as [tm'|]; try done.
  destruct Ht as [->|(at_ & Hat & -> & H0 & Hf)]; [rewrite Hv; destruct (_ && _); cbn; by rewrite IH|].
  cbn [TxTo TxFrom DeletedAt set_TxTo]. rewrite H0. destruct (Z.gtb_spec 0 (TxFrom tm)); [lia|]. cbn [andb].
  destruct (_ && _); cbn; [|done]. destruct (Z.eqb_spec at_ tx); [lia|]. cbn. done.
Qed.

Lemma sim_chain_cap arr arr' i :
  Forall2 sim arr arr' -> Forall (fun r => beliefTx (Temporal r) <= pin) arr -> 0 < pin ->
  chain_cap (RowStart (axis c)) arr' i = chain_cap (RowStart (axis c)) arr i.
Proof.
  intros Hf Hpin Hpos. unfold chain_cap, cap_of. rewrite <- (Forall2_length _ _ _ Hf).
  assert (forall q, ith (RowStart (axis c)) arr' q = ith (RowStart (axis c)) arr q) as E1
    by (intros; apply sim_ith; [done|]; intros r s Hs; apply (sim_start _ _ Hs)).
  assert (forall q, ith (fun r => beliefTx (Temporal r)) arr' q = ith (fun r => beliefTx (Temporal r)) arr q) as E2
    by (intros; apply sim_ith; [done|]; intros r s Hs; by apply sim_belief).
  assert (forall q, ith Version arr' q = ith Version arr q) as E3
    by (intros; apply sim_ith; [done|]; intros r s Hs; apply (sim_version _ _ Hs)).
  f_equal. rewrite (map_ext _ _ E1). f_equal. apply List.filter_ext. intros q.
  unfold cap_candidate, newer. rewrite !E1, !E2, !E3. do 2 f_equal.
  rewrite <- (sim_is_replacing arr arr' q) by done. unfold is_replacing. by rewrite E2, E3.
Qed.

Lemma sim_superCaps_end arr arr' i vs ve :
  Forall2 sim arr arr' -> Forall (fun r => beliefTx (Temporal r) <= pin) arr -> 0 < pin ->
  ordered_by (resolve_lt (axis c)) arr -> ordered_by (resolve_lt (axis c)) arr' -> (i < length arr)%nat ->
  superCaps_end (supersessionCaps (RowStart (axis c)) arr') (axis c) i vs ve =
  superCaps_end (supersessionCaps (RowStart (axis c)) arr) (axis c) i vs ve.
Proof.
  intros Hf Hpin Hpos Ho Ho' Hi.
  pose proof (supersessionCaps_lookup _ _ i (ordered_starts _ _ Ho) Hi) as L.
  pose proof (supersessionCaps_lookup _ _ i (ordered_starts _ _ Ho') ltac:(by rewrite <- (Forall2_length _ _ _ Hf))) as L'.
  rewrite (sim_chain_cap arr arr' i Hf Hpin Hpos) in L'. rewrite <- L in L'. unfold superCaps_end.
  destruct (supersessionCaps _ arr !! i) as [[x|]|], (supersessionCaps _ arr' !! i) as [[y|]|]; by simplify_eq.
Qed.

(** ** The winner at a valid instant *)

Lemma sim_ownBounds r s : sim r s -> nodeOwnBounds c s = nodeOwnBounds c r.
Proof. intros Hs. unfold nodeOwnBounds. rewrite (sim_start _ _ Hs). f_equal. by_key Hs. Qed.

Section Winner.
Context (arr arr' : list T) (caps caps' : lifeEnds T) (own : bool).
Hypothesis Hf : Forall2 sim arr arr'.
Hypothesis Hpin : Forall (fun r => beliefTx (Temporal r) <= pin) arr.
Hypothesis Hpos : 0 < pin.
Hypothesis Ho : ordered_by (resolve_lt (axis c)) arr.
Hypothesis Ho' : ordered_by (resolve_lt (axis c)) arr'.
Hypothesis Hcaps : forall i r s e, arr !! i = Some r -> arr' !! i = Some s ->
  lifeEnds_end caps' (axis c) s e = lifeEnds_end caps (axis c) r e.

Lemma sim_covers t i :
  covers_at c own arr' (arm_caps c own arr') caps' t i = covers_at c own arr (arm_caps c own arr) caps t i.
Proof.
  unfold covers_at. pose proof (Forall2_lookup_lr _ _ _ i Hf) as Hi.
  destruct (arr !! i) as [r|] eqn:Er, (arr' !! i) as [s|] eqn:Es; try done. unfold row_iv, arm_caps. destruct own.
  - rewrite (sim_ownBounds r s Hi). destruct (nodeOwnBounds c r) as [vs ve].
    rewrite (sim_superCaps_end arr arr' i vs ve) by (done || by eapply lookup_lt_Some).
    destruct (superCaps_end _ _ _ _ _) as [ve' []]; [done|]. by rewrite (Hcaps i r s ve').
  - rewrite (sim_versionBounds arr arr' i Hf). destruct (nodeVersionBounds c arr i) as [vs ve]. by rewrite (Hcaps i r s ve).
Qed.

Lemma sim_prefer i j : prefer own arr' i j = prefer own arr i j.
Proof.
  unfold prefer, newer. destruct own; [|done].
  assert (forall k, ith (fun r => beliefTx (Temporal r)) arr' k = ith (fun r => beliefTx (Temporal r)) arr k) as E1
    by (intros; apply sim_ith; [done|]; intros r s Hs; by apply sim_belief).
  assert (forall k, ith Version arr' k = ith Version arr k) as E2
    by (intros; apply sim_ith; [done|]; intros r s Hs; apply (sim_version _ _ Hs)).
  by rewrite !E1, !E2.
Qed.

Lemma sim_best_of l b : best_of own arr' l b = best_of own arr l b.
Proof.
  unfold best_of. revert b. induction l as [|i l IH]; intros b; cbn [fold_left]; [done|].
  rewrite IH. destruct b as [j|]; [|done]. by rewrite sim_prefer.
Qed.
End Winner.

(** Related inputs resolve to related rows. *)
Definition same_answer (o o' : option T) : Prop :=
  match o, o' with Some r, Some s => sim r s | None, None => True | _, _ => False end.

Lemma sim_winner_row chain chain' t :
  Forall2 sim chain chain' -> Forall (fun r => beliefTx (Temporal r) <= pin) chain -> 0 < pin ->
  same_answer (winner_row c chain t (chainLifeEnds chain)) (winner_row c chain' t (chainLifeEnds chain')).
Proof.
  intros Hf Hpin Hpos. unfold winner_row. destruct (sim_sortForResolve chain chain' Hf) as [E1 E2].
  destruct (sortNodeChainForResolve c chain) as [own arr] eqn:Es, (sortNodeChainForResolve c chain') as [own' arr'] eqn:Es'.
  cbn [fst snd] in E1, E2. subst own'.
  destruct (sortNodeChainForResolve_spec _ _ _ _ Es) as (Hp & Ho & _), (sortNodeChainForResolve_spec _ _ _ _ Es') as (Hp' & Ho' & _).
  assert (Forall (fun r => beliefTx (Temporal r) <= pin) arr) as Hpin' by (by rewrite Hp).
  assert (forall i r s e, arr !! i = Some r -> arr' !! i = Some s ->
    lifeEnds_end (chainLifeEnds chain') (axis c) s e = lifeEnds_end (chainLifeEnds chain) (axis c) r e) as Hcaps.
  { intros i r s e Hr Hs. apply (sim_lifeEnds_end chain chain' r s (axis c) e); [done| | |].
    - pose proof (Forall2_lookup_lr _ _ _ i E2) as Hl. by rewrite Hr, Hs in Hl.
    - rewrite <- Hp. by eapply list_elem_of_lookup_2.
    - rewrite <- Hp'. by eapply list_elem_of_lookup_2. }
  rewrite (sim_best_of arr arr' own E2), <- (Forall2_length _ _ _ E2).
  rewrite (List.filter_ext _ _ (fun i => sim_covers arr arr' _ _ own E2 Hpin' Hpos Ho Ho' Hcaps t i)).
  destruct (best_of _ _ _ _) as [i|]; [|done]. exact (Forall2_lookup_lr _ _ _ i E2).
Qed.

(** ** Writes after the pin *)

(** A row the pin sees, after later writes: untouched, or the row that held the
    current slot, ended by a supersession or a delete recorded after the pin. *)
Inductive later_row r r' : Prop :=
  | later_same : r' = r -> later_row r r'
  | later_ended tm tm' at_ :
      Temporal r = Some tm -> Temporal r' = Some tm' -> live_tm tm -> 0 < TxFrom tm -> pin < at_ ->
      ended_at (axis c) at_ tm tm' -> Version r' = Version r -> RowMint r' = RowMint r -> row_wf r' ->
      later_row r r'.

Definition recorded r : bool := versionVisibleAtTx (Temporal r) pin.

(** No row recorded after the pin carries a delete from before it was recorded: the
    chain may hold any writes after the pin. *)
Record base_chain chain : Prop := {
  base_wf : Forall row_wf chain;
  base_deaths : forall r tm, r ∈ chain -> recorded r = false -> Temporal r = Some tm -> DeletedAt tm = 0 \/ pin < DeletedAt tm;
}.

(** [chain'] is [chain] after later writes: its rows recorded by the pin are those
    of [chain], in order, but for the slots ended since. *)
Record later chain chain' : Prop := {
  later_old : Forall2 later_row (List.filter recorded chain) (List.filter recorded chain');
  later_base : base_chain chain';
}.

(** What the transaction filter makes of a row the pin sees. *)
Definition rewind r : T :=
  match Temporal r with
  | Some m => if DeletedAt m >? pin then copyWithTemporal (NormalizeTemporalVisibleAtTxTime (axis c) pin) r else r
  | None => r
  end.

Lemma filterTx_rewind chain : pin <> 0 -> filterNodeChainByTxAt (axis c) chain pin = map rewind (List.filter recorded chain).
Proof.
  intros Hp. unfold filterNodeChainByTxAt. destruct (Z.eqb_spec pin 0); [done|].
  induction chain as [|r chain IH]; [done|]. cbn [omap list_omap List.filter]. rewrite IH.
  unfold nodeRowAtTx, rewind, recorded. destruct (versionVisibleAtTx (Temporal r) pin); [|done]. cbn [negb map].
  destruct (Temporal r) as [m|]; [|done]. by destruct (DeletedAt m >? pin).
Qed.

Lemma tombstone_DeletedAt a at_ retract tm : DeletedAt (fst (stampDeleteTombstone a at_ retract tm)) = at_.
Proof. unfold stampDeleteTombstone. cbn [fst DeletedAt set_TxTo]. by repeat case_match. Qed.

Lemma recorded_belief r : 0 < pin -> recorded r = true -> beliefTx (Temporal r) <= pin.
Proof.
  unfold recorded, versionVisibleAtTx. intros Hp. destruct (Z.eqb_spec pin 0); [lia|]. destruct (Temporal r) as [tm|]; cbn [beliefTx]; [|lia].
  destruct (Z.eqb_spec (TxFrom tm) 0); cbn [negb andb]; lia.
Qed.

Lemma later_row_sim r r' : 0 < pin -> row_wf r -> later_row r r' -> sim (rewind r) (rewind r').
Proof.
  intros Hpos Hwf [->|tm tm' at_ Et Et' Hl Hf Hat He Hv Hm Hwf'].
  - split; try done. unfold tsim. destruct (Temporal (rewind r)); [by left|done].
  - assert (rewind r = r) as ->.
    { unfold rewind. rewrite Et. destruct Hl as (_ & -> & _). destruct (Z.gtb_spec 0 pin); [lia|done]. }
    destruct (ended_at_facts (axis c) pin at_ tm tm' Hl Hat ltac:(lia) He) as (_ & _ & _ & Hn).
    unfold rewind. rewrite Et'. destruct He as [->|(retract & Hs & Hvt)].
    + cbn [DeletedAt set_TxTo]. destruct Hl as (H1 & H2 & _). rewrite H2. destruct (Z.gtb_spec 0 pin); [lia|].
      split; [done| |done|].
      * intros ax. rewrite !row_start_rule, Et, Et', Hm by done. reflexivity.
      * rewrite Et, Et'. right. by exists at_.
    + pose proof (tombstone_DeletedAt (axis c) at_ retract tm) as Hda. rewrite Hs in Hda. cbn [fst] in Hda. rewrite Hda.
      destruct (Z.gtb_spec at_ pin); [|lia].
      assert (Temporal (copyWithTemporal (NormalizeTemporalVisibleAtTxTime (axis c) pin) r') = Some tm) as Ht
        by (rewrite copy_temporal, Et' by done; cbn; by rewrite Hn).
      split; [by rewrite copy_version| |by rewrite copy_mint|rewrite Et, Ht; by left].
      intros ax. rewrite !row_start_rule, Et, Ht, copy_mint, Hm by (done || by apply copy_wf). done.
Qed.

(** *** Later writes do not move a row in the write order *)

Lemma later_row_belief r r' : later_row r r' -> beliefTx (Temporal r') = beliefTx (Temporal r).
Proof.
  intros [->|tm tm' at_ Et Et' Hl Hf Hat He _ _ _]; [done|]. rewrite Et, Et'. cbn [beliefTx].
  destruct He as [->|(retract & Hs & _)]; [done|]. unfold stampDeleteTombstone in Hs. injection Hs as <- _.
  assert ((TxFrom tm =? 0) = false) as E by lia. by destruct (_ || _); cbn; rewrite E.
Qed.

Lemma later_row_version r r' : later_row r r' -> Version r' = Version r.
Proof. by intros [->|]. Qed.

(** The deletes a belief at or before the pin counts. *)
Definition deaths_before (b : Instant) chain : nat := length (List.filter (fun d => d <? b) (deaths_of chain)).

Lemma deaths_before_cons b r chain :
  deaths_before b (r :: chain) =
    Nat.add (if match Temporal r with Some tm => negb (DeletedAt tm =? 0) && (DeletedAt tm <? b) | None => false end then 1%nat else 0%nat)
      (deaths_before b chain).
Proof.
  unfold deaths_before, deaths_of. cbn [omap list_omap]. destruct (Temporal r) as [tm|]; [|done].
  destruct (negb (DeletedAt tm =? 0)); [|done]. cbn [List.filter andb]. by destruct (DeletedAt tm <? b).
Qed.

(** A belief by the pin counts only deletes of rows recorded by the pin. *)
Lemma deaths_before_recorded chain b : base_chain chain -> b <= pin -> deaths_before b chain = deaths_before b (List.filter recorded chain).
Proof.
  intros [_ Hd] Hb. induction chain as [|r chain IH]; [done|]. cbn [List.filter]. rewrite deaths_before_cons, IH by (intros q tm Hq; apply Hd; by right).
  destruct (recorded r) eqn:Er; [by rewrite deaths_before_cons|]. destruct (Temporal r) as [tm|] eqn:Et; [|done].
  destruct (Hd r tm ltac:(left) Er Et) as [->|Hlt]; [done|]. destruct (Z.ltb_spec (DeletedAt tm) b); [lia|]. by rewrite andb_false_r.
Qed.

Lemma later_deaths_before chain chain' b :
  base_chain chain -> later chain chain' -> b <= pin -> deaths_before b chain' = deaths_before b chain.
Proof.
  intros Hbase [Hold Hbase'] Hb. rewrite (deaths_before_recorded chain), (deaths_before_recorded chain') by done.
  induction Hold as [|r r' l l' Hr _ IH]; [done|]. rewrite !deaths_before_cons, IH. f_equal.
  destruct Hr as [->|tm tm' at_ Et Et' (_ & H2 & _) Hf Hat He _ _ _]; [done|]. rewrite Et, Et', H2. cbn [Z.eqb negb andb].
  destruct He as [->|(retract & Hs & _)]; [cbn [DeletedAt set_TxTo]; by rewrite H2|].
  pose proof (tombstone_DeletedAt (axis c) at_ retract tm) as Hd. rewrite Hs in Hd. cbn [fst] in Hd. rewrite Hd.
  destruct (Z.ltb_spec at_ b); [lia|]. by rewrite andb_false_r.
Qed.

Lemma chainWriteOrder_life chain x y :
  chainWriteOrder chain x y =
    lt_key2 (fun r => Z.of_nat (deaths_before (beliefTx (Temporal r)) chain)) Version x y.
Proof. unfold chainWriteOrder, deaths_before, life, lt_key2, lt_key. by destruct (deaths_of chain). Qed.

Lemma Forall2_elem_l {A B} (R : A -> B -> Prop) l l' :
  Forall2 R l l' -> Forall2 (fun x y => x ∈ l /\ R x y) l l'.
Proof.
  intros Hf. apply Forall2_lookup. intros i. pose proof (Forall2_lookup_lr _ _ _ i Hf) as Hi.
  destruct (l !! i) as [x|] eqn:E, (l' !! i); try done; constructor. split; [by eapply list_elem_of_lookup_2|done].
Qed.

Lemma later_input chain chain' :
  0 < pin -> base_chain chain -> later chain chain' ->
  Forall2 sim (filterNodeChainByTxAt (axis c) (versionOrdered chain) pin)
              (filterNodeChainByTxAt (axis c) (versionOrdered chain') pin).
Proof.
  intros Hpos Hbase Hl. rewrite !filterTx_rewind, !versionOrdered_sort by lia. rewrite !sort_by_Lfilter by apply _.
  pose proof (later_old _ _ Hl) as Hold. pose proof (base_wf _ Hbase) as Hwf. rewrite Forall_forall in Hwf.
  apply Forall2_fmap. eapply Forall2_impl; [apply (Forall2_sort_by (fun r r' => r ∈ List.filter recorded chain /\ later_row r r'))|].
  - apply (Forall2_elem_l _ _ _ Hold).
  - intros x x' y y' [[_ Hx]%elem_of_Lfilter Hxx] [[_ Hy]%elem_of_Lfilter Hyy] _ _ _ _. rewrite !chainWriteOrder_life. unfold lt_key2, lt_key.
    rewrite !(later_row_belief _ _ Hxx), !(later_row_belief _ _ Hyy), (later_row_version _ _ Hxx), (later_row_version _ _ Hyy).
    by rewrite !(later_deaths_before chain chain') by (done || by apply recorded_belief).
  - intros r r' [[Hr _]%elem_of_Lfilter Hrr]. apply later_row_sim; [done|by apply Hwf|done].
Qed.

(** Both answers are rows the resolver cannot tell apart at the pin, or both
    doors report the same error. *)
Definition same_result (o o' : T + resolveError) : Prop :=
  match o, o' with inl r, inl s => sim r s | inr e, inr e' => e' = e | _, _ => False end.

Lemma pinned_point chain chain' t pred :
  0 < pin -> base_chain chain -> later chain chain' ->
  let probe := mkProbe probePoint t 0 0 pin 0 false in
  same_result (resolveNodeChain c chain probe pred) (resolveNodeChain c chain' probe pred).
Proof.
  intros Hpos Hbase Hl probe. pose proof (base_wf _ (later_base _ _ Hl)) as Hwf'. unfold resolveNodeChain. cbn [pr_kind pr_tx pr_validAt probe].
  pose proof (sim_dropRetracted _ _ (later_input chain chain' Hpos Hbase Hl)) as Hf.
  fold (resolver_input (axis c) chain pin) (resolver_input (axis c) chain' pin) in *.
  destruct (resolver_input_ok (axis c) chain pin ltac:(lia) (base_wf _ Hbase)) as [Hw _].
  destruct (resolver_input_ok (axis c) chain' pin ltac:(lia) Hwf') as [Hw' _].
  assert (Forall (fun r => beliefTx (Temporal r) <= pin) (resolver_input (axis c) chain pin)) as Hb.
  { apply Forall_forall. intros r' Hr'. destruct (resolver_input_elem (axis c) chain pin r' ltac:(lia) Hr') as (r & Hr & Hat).
    pose proof (base_wf _ Hbase) as Hwf. rewrite Forall_forall in Hwf. specialize (Hwf r Hr).
    destruct (rowAtTx_facts (axis c) r pin r' Hat Hwf) as (_ & _ & _ & -> & _). apply recorded_belief; [done|].
    unfold nodeRowAtTx in Hat. unfold recorded. by destruct (versionVisibleAtTx (Temporal r) pin). }
  pose proof (sim_winner_row _ _ t Hf Hb Hpos) as Hwin.
  destruct Hf as [|x y l l' Hxy Hf]; [done|].
  rewrite !resolve_winner_row by done. destruct (winner_row c (x :: l) t _) as [r|], (winner_row c (y :: l') t _) as [s|]; try done.
  cbn in Hwin. rewrite (sim_void r s Hwin). by destruct (isVoidRow r).
Qed.
End Pinned.


Section Witness.
#[local] Existing Instance demo_layout.

End Witness.
