(* ===== verification/Cascade.v ===== *)
(** * Corrections and excises (core/temporal_cascade.go, cascade_meta.go, excise.go)

    [SetNodeVersionInterval] records, at one transaction instant, that
    [newVF, newVT) holds a patch; an excise records that nothing is valid there.
    Existing rows are never rewritten: the kernel plans on the pre-correction
    chain, appends one row per piece of the interval over which the believed
    version is one row, and a resumption that re-asserts what held at [newVT].
    The node and relationship kernels are mirrors; they are one definition over
    [CorrectionRow].

    This file holds the kernel and the theorems about its plan: the prepared
    chain answers the point resolver, by scan and by sweep, and the pieces
    partition the interval with the believed version as their base. *)

From S2P Require Import Prelude ValidTime Props Rows AsOf Clock TxWrites Chain Heap Supersession Resolver Effective.

(** ** What the kernel needs of a row *)

Class CorrectionRow (T : Type) `{!EntityRow T} := {
  rowProps : T -> PropertySlice;
  (** What a copy keeps: the id, and the labels or the type and endpoints. *)
  rowFixed : T -> list Z;
  rowFrozen : T -> bool;
  (** [nodeHashOf]: the content hash, empty without integrity metadata. *)
  rowHashOf : T -> bytes;
  (** [DeepCopy], then the property writes and [SetTemporal] on the copy. *)
  rebuildRow : PropertySlice -> TemporalMetadata -> T -> T;
  (** On the mutable rows the kernel builds. *)
  setVersion : Z -> T -> T;
  (** [hashAppendedNodeRow] or [hashAppendedRelRow]: the content hash, the
      current hash of a node, the previous hash; [None] when hashing fails. *)
  hashAppendedRow : (T -> option bytes) -> (Z -> option bytes) -> bytes -> T -> option T;
  (** The kernel's check of a row that takes the current slot; relationships
      have none. *)
  replacementOK : T -> T -> bool;
}.

Class CorrectionRowOK (T : Type) `{CorrectionRow T} : Prop := {
  rebuild_temporal : forall ps tm r, Temporal (rebuildRow ps tm r) = Some tm;
  rebuild_props : forall ps tm r, rowProps (rebuildRow ps tm r) = ps;
  rebuild_fixed : forall ps tm r, rowFixed (rebuildRow ps tm r) = rowFixed r;
  rebuild_frozen : forall ps tm r, rowFrozen (rebuildRow ps tm r) = false;
  rebuild_wf : forall ps tm r, row_wf (rebuildRow ps tm r);
  set_version : forall v r, rowFrozen r = false ->
    Version (setVersion v r) = v /\ Temporal (setVersion v r) = Temporal r /\ rowProps (setVersion v r) = rowProps r /\
    rowFixed (setVersion v r) = rowFixed r /\ rowFrozen (setVersion v r) = false /\ (row_wf r -> row_wf (setVersion v r));
  hash_appended : forall contentHash nodeHash p r r', rowFrozen r = false -> hashAppendedRow contentHash nodeHash p r = Some r' ->
    Version r' = Version r /\ Temporal r' = Temporal r /\ rowProps r' = rowProps r /\
    rowFixed r' = rowFixed r /\ rowFrozen r' = false /\ (row_wf r -> row_wf r');
}.

(** ** Nodes and relationships *)

Definition nodeIntegrityWithHash (base : option NodeIntegrity) (hash prevHash : bytes) : NodeIntegrity :=
  match base with
  | Some ig => mkNI hash prevHash (ni_AuthorID ig) (ni_Signature ig) (ni_AuthorizedBy ig) (ni_AuthorizationLevel ig)
  | None => mkNI hash prevHash [] None [] 0
  end.

Definition relIntegrityWithHash (base : option RelIntegrity) (hash prevHash : bytes) : RelIntegrity :=
  match base with
  | Some ig => mkRI hash prevHash (ri_FromNodeHash ig) (ri_ToNodeHash ig) (ri_AuthorID ig) (ri_Signature ig)
                 (ri_AuthorizedBy ig) (ri_AuthorizationLevel ig)
  | None => mkRI hash prevHash [] [] [] None [] 0
  end.

(** The endpoints' current hashes, read one by one or in one probe; a loop
    reads one. *)
Definition refreshRelationshipEndpointHashes {P} (nodeHash : Z -> option bytes) (r : Relationship P) (ig : RelIntegrity) :
    option RelIntegrity :=
  match nodeHash (r_startID r), (if r_startID r =? r_endID r then nodeHash (r_startID r) else nodeHash (r_endID r)) with
  | Some from, Some to => Some (mkRI (ri_Hash ig) (ri_PrevHash ig) from to (ri_AuthorID ig) (ri_Signature ig)
                                  (ri_AuthorizedBy ig) (ri_AuthorizationLevel ig))
  | _, _ => None
  end.

Definition hashAppendedNodeRow {P} (contentHash : Node P -> option bytes) (prevHash : bytes) (row : Node P) : option (Node P) :=
  match contentHash row with
  | Some hash => Some (default row (NodeSetIntegrity (Some (nodeIntegrityWithHash (NodeIntegrityOf row) hash prevHash)) row))
  | None => None
  end.

Definition hashAppendedRelRow {P} (contentHash : Relationship P -> option bytes) (nodeHash : Z -> option bytes)
    (prevHash : bytes) (row : Relationship P) : option (Relationship P) :=
  match contentHash row with
  | Some hash =>
      match refreshRelationshipEndpointHashes nodeHash row (relIntegrityWithHash (RelIntegrityOf row) hash prevHash) with
      | Some ig => Some (default row (RelSetIntegrity (Some ig) row))
      | None => None
      end
  | None => None
  end.

Definition ValidateLabelToken (tok : Z) : bool := negb (tok =? 0).

Definition validateNodeExplicitTemporalRange (tm : option TemporalMetadata) : bool :=
  match tm with
  | None => true
  | Some tm =>
      negb (negb (ValidFrom tm =? 0) && negb (ValidTo tm =? 0) && (ValidFrom tm >=? ValidTo tm)) &&
      negb (Retracted tm && (DeletedAt tm =? 0)) &&
      negb (DeleteKeptValidTo tm && (DeletedAt tm =? 0)) &&
      negb (DeleteKeptValidTo tm && negb (ValidTo tm =? 0) && (ValidTo tm <? DeletedAt tm))
  end.

Definition ValidateNodeReplacement {P} (old current : Node P) : bool :=
  (n_id current =? n_id old) && forallb ValidateLabelToken (AllLabelTokens current) &&
  validateNodeExplicitTemporalRange (NodeTemporal current) &&
  bool_decide (AllLabelTokens old = AllLabelTokens current).

Section Instances.
Context `{Layout}.

#[export] Instance Node_CorrectionRow : CorrectionRow (Node PropertySlice) := {
  rowProps := n_properties;
  rowFixed n := n_id n :: AllLabelTokens n;
  rowFrozen := n_frozen;
  rowHashOf n := match NodeIntegrityOf n with Some ig => ni_Hash ig | None => [] end;
  rebuildRow ps tm n :=
    let c := NodeDeepCopy n in
    mkNode PropertySlice (n_addr c) (n_id c) ps (n_extraLabels c) (Some tm) (n_integrity c) (n_meta c) (n_version c)
      (n_primaryLabel c) (n_frozen c) (n_sharedProps c) (n_ordinal c);
  setVersion v n := default n (NodeSetVersion v n);
  hashAppendedRow contentHash _ := hashAppendedNodeRow contentHash;
  replacementOK := ValidateNodeReplacement;
}.

#[export] Instance Rel_CorrectionRow : CorrectionRow (Relationship PropertySlice) := {
  rowProps := r_properties;
  rowFixed r := [r_id r; r_relType r; r_startID r; r_endID r];
  rowFrozen := r_frozen;
  rowHashOf r := match RelIntegrityOf r with Some ig => ri_Hash ig | None => [] end;
  rebuildRow ps tm r :=
    let c := RelDeepCopy r in
    mkRel PropertySlice (r_addr c) (r_id c) (r_startID c) (r_endID c) ps (Some tm) (r_integrity c) (r_meta c) (r_version c)
      (r_relType c) (r_frozen c) (r_sharedProps c) (r_ordinal c) (r_startOrdinal c) (r_endOrdinal c);
  setVersion v r := default r (RelSetVersion v r);
  hashAppendedRow := hashAppendedRelRow;
  replacementOK _ _ := true;
}.

#[export] Instance Node_CorrectionRowOK : CorrectionRowOK (Node PropertySlice).
Proof.
  split; simpl.
  - intros ps tm n. unfold NodeTemporal, NodeDeepCopy. by destruct (n_meta n).
  - intros ps tm n. done.
  - intros ps tm n. unfold AllLabelTokens, NodeDeepCopy. by destruct (n_meta n).
  - intros ps tm n. unfold NodeDeepCopy. by destruct (n_meta n).
  - intros ps tm n. unfold node_wf, NodeDeepCopy. destruct (n_meta n); simpl; by intros [? ?].
  - intros v n Hf. unfold NodeSetVersion, node_wf, NodeTemporal. rewrite Hf. simpl. done.
  - intros ch _ p n n' Hf. unfold hashAppendedNodeRow, NodeSetIntegrity, node_wf, NodeTemporal. rewrite Hf.
    destruct (ch n) as [h|]; [|done]. intros [= <-]. simpl. split_and!; try done. intros Hwf Hm. by destruct (Hwf Hm) as [? _].
Qed.

#[export] Instance Rel_CorrectionRowOK : CorrectionRowOK (Relationship PropertySlice).
Proof.
  split; simpl.
  - intros ps tm r. unfold RelTemporal, RelDeepCopy. by destruct (r_meta r).
  - intros ps tm r. done.
  - intros ps tm r. unfold RelDeepCopy. by destruct (r_meta r).
  - intros ps tm r. unfold RelDeepCopy. by destruct (r_meta r).
  - intros ps tm r. unfold rel_wf, RelDeepCopy. destruct (r_meta r); simpl; by intros [? ?].
  - intros v r Hf. unfold RelSetVersion, rel_wf, RelTemporal. rewrite Hf. simpl. done.
  - intros ch nh p r r' Hf. unfold hashAppendedRelRow, RelSetIntegrity, rel_wf, RelTemporal. rewrite Hf.
    destruct (ch r) as [h|]; [|done]. destruct (refreshRelationshipEndpointHashes _ _ _) as [ig|]; [|done].
    intros [= <-]. simpl. split_and!; try done. intros Hwf Hm. by destruct (Hwf Hm) as [? _].
Qed.
End Instances.

(** ** The prepared chain *)

(** One maximal piece of the target interval and the row it patches. *)
Record correctionSegment {T : Type} := mkSeg { sg_from : Instant; sg_to : Instant; sg_base : T; sg_gap : bool }.
Arguments correctionSegment : clear implicits.

#[export] Instance correctionSegment_eq_dec {T} `{EqDecision T} : EqDecision (correctionSegment T).
Proof. solve_decision. Defined.

Record correctionChain {T : Type} := mkCC {
  cc_chain : list T;
  cc_arr : list T;
  cc_ivs : list effInterval;
  cc_cascade : bool;
}.
Arguments correctionChain : clear implicits.

Definition correctionScanMax : Z := 8.

Section Plan.
Context {T : Type} `{EntityRow T}.
Implicit Types (p : correctionChain T) (chain pre : list T).

Definition prepareCorrection (c : Core) pre : correctionChain T :=
  let '(arr, ivs, cascade) := sweepIntervals c pre [] in mkCC T pre arr ivs cascade.

Definition beats p (x y : effInterval) : bool :=
  if cc_cascade p then newerBelief (cc_arr p) x y >? 0 else (iv_pos y <? iv_pos x)%nat.

(** The row an interval wins with, unless it is void. *)
Definition winner p (best : option effInterval) : option T :=
  match best with
  | Some iv => match cc_arr p !! iv_pos iv with Some r => if isVoidRow r then None else Some r | None => None end
  | None => None
  end.

Definition winnerAt (c : Core) p (t : Instant) : option T :=
  winner p (fold_left (fun best iv =>
    if IntervalCovers (axis c) (iv_s iv) (iv_e iv) t && match best with None => true | Some b => beats p iv b end
    then Some iv else best) (cc_ivs p) None).

Fixpoint answers_loop (a : ValidAxis) p (ts : list Instant) (ivs : list effInterval) (h : effHeap) : list (option T) :=
  match ts with
  | [] => []
  | t :: ts' =>
      let (ivs, h) := push_started t ivs h in
      let h := pop_ended (length h) a t h in
      winner p (head h) :: answers_loop a p ts' ivs h
  end.

(** [correctionChain.sweep]: the answer at every instant of [ts]. *)
Definition sweep_answers (c : Core) p (ts : list Instant) : list (option T) :=
  let ivs := if cc_cascade p then rankBeliefs (cc_arr p) (cc_ivs p) else cc_ivs p in
  answers_loop (axis c) p ts (sort_by (lt_key iv_s) ivs) [].

(** ** Segments *)

Definition correctionCuts (a : ValidAxis) (bounds : list Instant) (newVF newVT : Instant) : list Instant :=
  compact_list (sort_by Z.ltb (List.filter (fun b =>
    negb (ValidAxis_Open a b) && (b >? newVF) && (ValidAxis_Open a newVT || (b <? newVT))) bounds)).

(** Append a piece, or extend the last one; [segs] is kept last first. *)
Definition add_segment (template : T) (splitGaps : bool) (from to : Instant) (answer : option T)
    (segs : list (correctionSegment T)) : list (correctionSegment T) :=
  let base := default template answer in
  let gap := match answer with Some _ => false | None => true end in
  match segs with
  | s :: rest =>
      if bool_decide (sg_base s = base) && (negb splitGaps || eqb (sg_gap s) gap)
      then mkSeg T (sg_from s) to (sg_base s) (sg_gap s) :: rest
      else mkSeg T from to base gap :: segs
  | [] => [mkSeg T from to base gap]
  end.

(** The loop over the pieces: [answers] are the sweep's, one per piece, when
    there is one; else every piece start is scanned. *)
Fixpoint segments_loop (c : Core) p (template : T) (splitGaps : bool) (newVT from : Instant) (cuts : list Instant)
    (answers : option (list (option T))) (segs : list (correctionSegment T)) : list (correctionSegment T) :=
  let to := match cuts with next :: _ => next | [] => newVT end in
  let answer := match answers with Some l => default None (head l) | None => winnerAt c p from end in
  let segs := add_segment template splitGaps from to answer segs in
  match cuts with
  | [] => segs
  | _ :: cuts' => segments_loop c p template splitGaps newVT to cuts' (tail <$> answers) segs
  end.

Definition segmentsAt (c : Core) p (template : T) (newVF newVT : Instant) (cuts : list Instant) (splitGaps sweep : bool) :
    list (correctionSegment T) :=
  let answers := if sweep then Some (sweep_answers c p (newVF :: cuts)) else None in
  rev (segments_loop c p template splitGaps newVT newVF cuts answers []).

(** Every row's own and positional bounds. *)
Definition segment_bounds (c : Core) chain : list Instant :=
  flat_map (fun i => match chain !! i with
                     | Some row =>
                         let '(vStart, vEnd) := nodeOwnBounds c row in
                         let '(pStart, pEnd) := nodeVersionBounds c chain i in
                         [vStart; vEnd; pStart; pEnd]
                     | None => []
                     end) (seq 0 (length chain)).

Definition segments (c : Core) p (template : T) (newVF newVT : Instant) (splitGaps : bool) : list (correctionSegment T) :=
  let cuts := correctionCuts (axis c) (segment_bounds c (cc_chain p)) newVF newVT in
  segmentsAt c p template newVF newVT cuts splitGaps (Z.of_nat (length cuts) + 1 >? correctionScanMax).

(** ** The resumption *)

Definition nodeResumptionEnd (c : Core) pre (newVT : Instant) : Instant :=
  let a := axis c in
  let consider end_ b := if (b >? newVT) && (ValidAxis_Open a end_ || (b <? end_)) then b else end_ in
  fold_left (fun end_ row =>
    let '(vStart, vEnd) := nodeOwnBounds c row in
    let end_ := consider end_ vStart in
    if negb (ValidAxis_Open a vEnd) then consider end_ vEnd else end_) pre (ValidAxis_OpenEnd a).

Definition nodeStartsAt (c : Core) (n : T) (t : Instant) : bool := fst (nodeOwnBounds c n) =? t.

(** ** The plan of a correction on the whole history *)

Record missPlan := mkPlan {
  mp_maxVersion : Z;
  mp_src : option (T * Instant);
  mp_segments : list (correctionSegment T);
  mp_preChain : list T;
  mp_stamps : list (option TemporalMetadata);
}.

Definition planMiss (c : Core) (history : list T) (current : T) (newVF newVT : Instant) (splitGaps : bool) : missPlan :=
  let pre := preCorrectionChain history (Some current) in
  let prep := prepareCorrection c pre in
  mkPlan (fold_left (fun m h => Z.max m (Version h)) history (Version current))
    (if negb (ValidAxis_Open (axis c) newVT) then
       match winnerAt c prep newVT with
       | Some src => Some (src, nodeResumptionEnd c pre newVT)
       | None => None
       end
     else None)
    (segments c prep current newVF newVT splitGaps) pre (map Temporal (history ++ [current])).
End Plan.
Arguments missPlan : clear implicits.

(** ** The kernel *)

Definition checkCascadeInterval (a : ValidAxis) (newVF newVT : Instant) : bool :=
  ValidAxis_Claimed a newVF && negb (negb (ValidAxis_Open a newVT) && (newVF >=? newVT)).

Definition validateExciseInterval (ax : ValidAxis) (a b : Instant) : bool :=
  negb (negb (ValidAxis_Claimed ax a) || (negb (ValidAxis_Open ax b) && (a >=? b))).

Definition correctionTemporal (template : option TemporalMetadata) (from to now : Instant) : TemporalMetadata :=
  let tm := default zeroTM template in
  stampAppendedRow now (set_ValidTo to (set_ValidFrom from tm)).

Definition stampValidFrom (a : ValidAxis) (vf : Instant) (set : bool) (tm : TemporalMetadata) : TemporalMetadata :=
  set_ValidFrom (if set then vf else ValidAxis_NoClaimStart a) tm.

Definition set_Void (tm : TemporalMetadata) : TemporalMetadata :=
  mkTM (ValidFrom tm) (ValidTo tm) (TxFrom tm) (TxTo tm) (CreatedAt tm) (UpdatedAt tm) (DeletedAt tm) (CreatedBy tm)
    (UpdatedBy tm) (baseEntityID tm) (Retracted tm) true (DeleteKeptValidTo tm).

Inductive cascadeMode := cascadeCorrection | cascadeVoid.

Inductive cascadeError :=
  | ErrInvalidTimeRange
  | ErrNotFound
  | ErrEntityDeleted
  | ErrExciseNoVersion
  | ErrTx (e : tx_error)
  | ErrProp (key : bytes) (e : propError)
  | ErrTooManyProperties
  | ErrHash
  | ErrSlotChanged
  | ErrUniqueConstraint.

(** A result, or the error that stopped the write before it changed anything. *)
Notation "'let?' x := e 'in' k" := (match e with inl x => k | inr err => inr err end)
  (at level 200, x pattern, e at level 100, k at level 200) : tkg_scope.

(** What the kernel reads besides the entity: the registered struct types, the
    property limit, the content hash ([None]: hashing failed), the current hash
    of a node (an endpoint of a relationship) and the unique
    constraints' verdict on the built rows. *)
Record cascadeEnv {T : Type} := mkEnv {
  ce_registry : list bytes;
  ce_DeepCopyValue : structValue -> option value;
  ce_MaxProperties : Z;
  ce_contentHash : T -> option bytes;
  ce_nodeHash : Z -> option bytes;
  ce_uniqueOK : list T -> option T -> bool;
}.
Arguments cascadeEnv : clear implicits.

(** A stored entity, and an appended row with the hash of the row it corrects;
    [ap_ret] marks the row the kernel returns. *)
Record entity {T : Type} := mkEntity { ent_history : list T; ent_current : option T }.
Arguments entity : clear implicits.

Record appendedRow {T : Type} := mkApp { ap_row : T; ap_prev : bytes; ap_ret : bool }.
Arguments appendedRow : clear implicits.

Section Kernel.
Context {T : Type} `{CorrectionRow T}.
Local Open Scope tkg_scope.

(** The patch loop of [buildNodeCorrectionRow]: [VNil] deletes the key. *)
Fixpoint patch_props (env : cascadeEnv T) (ps : PropertySlice) (props : PropertySlice) : PropertySlice + cascadeError :=
  match props with
  | [] => inl ps
  | (key, val) :: rest =>
      if bool_decide (val = VNil) then
        match PropertySlice_Delete ps key with
        | inl (_, ps') => patch_props env ps' rest
        | inr e => inr (ErrProp key e)
        end
      else match PropertySlice_Set (ce_registry env) (ce_DeepCopyValue env) ps key val with
           | inl ps' => patch_props env ps' rest
           | inr e => inr (ErrProp key e)
           end
  end.

Definition buildNodeCorrectionRow (env : cascadeEnv T) (seg : correctionSegment T) (template : T) (now : Instant)
    (props : PropertySlice) : T + cascadeError :=
  let? ps := patch_props env (rowProps (sg_base seg)) props in
  if PropertySlice_Len ps >? ce_MaxProperties env then inr ErrTooManyProperties
  else inl (rebuildRow ps (correctionTemporal (Temporal template) (sg_from seg) (sg_to seg) now) (sg_base seg)).

(** [markVoid] on a built row. *)
Definition markVoid (row : T) : T :=
  match Temporal row with Some tm => rebuildRow [] (set_Void tm) row | None => row end.

Definition exciseNoVersionErr (segs : list (correctionSegment T)) : bool := forallb sg_gap segs.

Definition resumption_row (c : Core) (src : T) (srcEnd newVT now : Instant) : T :=
  let tm := default zeroTM (Temporal src) in
  rebuildRow (rowProps src) (stampAppendedRow now (set_ValidTo srcEnd (stampValidFrom (axis c) newVT true tm))) src.

(** The rows of the pieces, in order; the first one built is returned. *)
Fixpoint build_pieces (env : cascadeEnv T) (mode : cascadeMode) (template : T) (now : Instant) (props : PropertySlice)
    (first : bool) (segs : list (correctionSegment T)) : list (appendedRow T) + cascadeError :=
  match segs with
  | [] => inl []
  | seg :: rest =>
      let void := match mode with cascadeVoid => true | cascadeCorrection => false end in
      if void && sg_gap seg then build_pieces env mode template now props first rest
      else
        let? row := buildNodeCorrectionRow env seg template now props in
        let row := if void then markVoid row else row in
        let? more := build_pieces env mode template now props false rest in
        inl (mkApp T row (rowHashOf (sg_base seg)) first :: more)
  end.

(** Versions above [last], one by one. *)
Fixpoint number_rows (last : Z) (rows : list (appendedRow T)) : list (appendedRow T) + cascadeError :=
  match rows with
  | [] => inl []
  | r :: rest =>
      match nextEntityVersion last with
      | inr e => inr (ErrTx e)
      | inl v => let? more := number_rows v rest in inl (mkApp T (setVersion v (ap_row r)) (ap_prev r) (ap_ret r) :: more)
      end
  end.

(** [cascadeNewCurrent] off the head path: the newest belief among the rows
    whose own interval is open. *)
Definition ownOpen (c : Core) (r : T) : bool := ValidAxis_Open (axis c) (snd (nodeOwnBounds c r)) && negb (isVoidRow r).

Definition cascadeNewCurrent (c : Core) (preChain appended : list T) : option T :=
  fold_left (fun cur r =>
    if ownOpen c r && match cur with None => true | Some b => nodeBeliefNewerThan r b end then Some r else cur)
    (preChain ++ appended) None.

(** Whether the target was found, and the rows with it moved to the end. *)
Fixpoint moveToEnd (rows : list (appendedRow T)) (target : option T) : bool * list (appendedRow T) :=
  match rows with
  | [] => (false, [])
  | r :: rest =>
      if bool_decide (Some (ap_row r) = target) then (true, rest ++ [r])
      else let (found, rest') := moveToEnd rest target in (found, r :: rest')
  end.

(** Final versions in the final order, then the hash of each row. *)
Fixpoint seal_rows (env : cascadeEnv T) (version : Z) (rows : list (appendedRow T)) : list (appendedRow T) + cascadeError :=
  match rows with
  | [] => inl []
  | r :: rest =>
      let row := setVersion version (ap_row r) in
      match hashAppendedRow (ce_contentHash env) (ce_nodeHash env) (ap_prev r) row with
      | None => inr ErrHash
      | Some row =>
          let? more := seal_rows env (version + 1) rest in
          inl (mkApp T row (ap_prev r) (ap_ret r) :: more)
      end
  end.

(** The store after the write: the appended rows that do not take the current
    slot go to history, and the row that does sends the old one there. *)
Definition store_rows (e : entity T) (current : T) (curIsNew : bool) (rows : list T) : entity T :=
  if curIsNew then
    match last rows with
    | Some newCurrent => mkEntity T (ent_history e ++ removelast rows ++ [current]) (Some newCurrent)
    | None => e
    end
  else mkEntity T (ent_history e ++ rows) (ent_current e).

Definition cascadeInstant (obs : nat -> Z) (at_ : Instant) (chain : list (option TemporalMetadata)) (st : clockS) :
    (Instant + cascadeError) * clockS :=
  if at_ =? 0 then let (v, st) := nowS obs st in (inl v, st)
  else match checkTxOrder at_ 0 chain with Some e => (inr (ErrTx e), st) | None => (inl at_, st) end.

(** [cascadeNodeMode] after the instant is fixed: the new entity, and the row
    covering [newVF] (none for an excise that only resumes). *)
Definition cascade_at (c : Core) (env : cascadeEnv T) (e : entity T) (current : T) (plan : missPlan T)
    (newVT : Instant) (props : PropertySlice) (mode : cascadeMode) (now : Instant) : (entity T * option T) + cascadeError :=
  let resume := match mp_src plan with
                | Some (src, srcEnd) =>
                    if nodeStartsAt c src newVT then []
                    else [mkApp T (resumption_row c src srcEnd newVT now) (rowHashOf src) false]
                | None => []
                end in
  let refused := match mode with cascadeVoid => exciseNoVersionErr (mp_segments plan) | cascadeCorrection => false end in
  if refused then inr ErrExciseNoVersion
  else
    let? pieces := build_pieces env mode current now props true (mp_segments plan) in
    let? numbered := number_rows (mp_maxVersion plan) (resume ++ pieces) in
    let newCurrent := cascadeNewCurrent c (mp_preChain plan) (map ap_row numbered) in
    let (curIsNew, moved) := moveToEnd numbered newCurrent in
    let? sealed := seal_rows env (mp_maxVersion plan + 1) moved in
    let rows := map ap_row sealed in
    let slot := if curIsNew then last rows else None in
    if match slot with Some n => negb (replacementOK current n) | None => false end then inr ErrSlotChanged
    else if negb (ce_uniqueOK env rows slot) then inr ErrUniqueConstraint
    else inl (store_rows e current curIsNew rows, ap_row <$> List.find ap_ret sealed).

Definition cascadeNode (c : Core) (env : cascadeEnv T) (obs : nat -> Z) (e : entity T) (newVF newVT : Instant)
    (props : PropertySlice) (at_ : Instant) (mode : cascadeMode) (st : clockS) :
    ((entity T * option T) + cascadeError) * clockS :=
  if negb (checkCascadeInterval (axis c) newVF newVT) then (inr ErrInvalidTimeRange, st)
  else match ent_current e, ent_history e with
       | None, [] => (inr ErrNotFound, st)
       | None, _ => (inr ErrEntityDeleted, st)
       | Some current, history =>
           let splitGaps := match mode with cascadeVoid => true | cascadeCorrection => false end in
           let plan := planMiss c history current newVF newVT splitGaps in
           match nextEntityVersion (mp_maxVersion plan) with
           | inr err => (inr (ErrTx err), st)
           | inl _ =>
               let (now, st) := cascadeInstant obs at_ (mp_stamps plan) st in
               match now with
               | inr err => (inr err, st)
               | inl now => (cascade_at c env e current plan newVT props mode now, st)
               end
           end
       end.

(** [exciseNode]: the excise's own interval check, then the cascade. *)
Definition exciseNode (c : Core) (env : cascadeEnv T) (obs : nat -> Z) (e : entity T) (a b at_ : Instant) (st : clockS) :
    (entity T + cascadeError) * clockS :=
  if negb (validateExciseInterval (axis c) a b) then (inr ErrInvalidTimeRange, st)
  else match cascadeNode c env obs e a b [] at_ cascadeVoid st with
       | (inl (e', _), st) => (inl e', st)
       | (inr err, st) => (inr err, st)
       end.
End Kernel.

(** The relationship mirrors. *)
Section RelNames.
Context `{Layout}.
Local Notation Rel := (Relationship PropertySlice).

Definition relResumptionEnd : Core -> list Rel -> Instant -> Instant := nodeResumptionEnd.

Definition relStartsAt : Core -> Rel -> Instant -> bool := nodeStartsAt.

Definition buildRelCorrectionRow : cascadeEnv Rel -> correctionSegment Rel -> Rel -> Instant -> PropertySlice ->
    Rel + cascadeError := buildNodeCorrectionRow.

Definition cascadeRel : Core -> cascadeEnv Rel -> (nat -> Z) -> entity Rel -> Instant -> Instant -> PropertySlice -> Instant ->
    cascadeMode -> clockS -> ((entity Rel * option Rel) + cascadeError) * clockS := cascadeNode.

Definition exciseRel : Core -> cascadeEnv Rel -> (nat -> Z) -> entity Rel -> Instant -> Instant -> Instant -> clockS ->
    (entity Rel + cascadeError) * clockS := exciseNode.
End RelNames.

(** ** The prepared chain answers the point resolver *)

Section PlanLemmas.
Context {T : Type} `{EntityRow T}.
Implicit Types (pre : list T).

Lemma cmp_compare_opp x y : cmp_compare x y = - cmp_compare y x.
Proof. unfold cmp_compare. destruct (Z.ltb_spec x y), (Z.ltb_spec y x), (Z.gtb_spec x y), (Z.gtb_spec y x); lia. Qed.

Lemma newerBelief_opp (arr : list T) x y : newerBelief arr x y = - newerBelief arr y x.
Proof.
  unfold newerBelief. cbv zeta. rewrite (cmp_compare_opp (ith (fun r => beliefTx (Temporal r)) arr (iv_pos x))).
  destruct (Z.eqb_spec (cmp_compare (ith (fun r => beliefTx (Temporal r)) arr (iv_pos y)) (ith (fun r => beliefTx (Temporal r)) arr (iv_pos x))) 0) as [->|Hn].
  - simpl. rewrite (cmp_compare_opp (ith Version arr (iv_pos x))).
    destruct (Z.eqb_spec (cmp_compare (ith Version arr (iv_pos y)) (ith Version arr (iv_pos x))) 0) as [->|Hn]; simpl.
    + apply cmp_compare_opp.
    + destruct (Z.eqb_spec (- cmp_compare (ith Version arr (iv_pos y)) (ith Version arr (iv_pos x))) 0); simpl; lia.
  - destruct (Z.eqb_spec (- cmp_compare (ith (fun r => beliefTx (Temporal r)) arr (iv_pos y)) (ith (fun r => beliefTx (Temporal r)) arr (iv_pos x))) 0); simpl; lia.
Qed.

Lemma beats_prefer (p : correctionChain T) x y : beats p x y = prefer (cc_cascade p) (cc_arr p) (iv_pos x) (iv_pos y).
Proof.
  unfold beats. destruct (cc_cascade p); [|done]. rewrite <- newerBelief_prefer, newerBelief_opp.
  destruct (Z.gtb_spec (- newerBelief (cc_arr p) y x) 0), (Z.ltb_spec (newerBelief (cc_arr p) y x) 0); lia.
Qed.

(** The best covering interval of a list, over the one found before it. *)
Definition best_covering (c : Core) (p : correctionChain T) (t : Instant) (l : list effInterval) (best : option effInterval) : Prop :=
  match best with
  | None => forall iv, iv ∈ l -> iv_covers (axis c) iv t = false
  | Some b => b ∈ l /\ iv_covers (axis c) b t = true /\
      forall iv, iv ∈ l -> iv_covers (axis c) iv t = true -> iv_pos iv <> iv_pos b ->
        prefer (cc_cascade p) (cc_arr p) (iv_pos b) (iv_pos iv) = true
  end.

Lemma scan_best c (p : correctionChain T) t done_ l best :
  best_covering c p t done_ best ->
  best_covering c p t (done_ ++ l) (fold_left (fun best iv =>
    if IntervalCovers (axis c) (iv_s iv) (iv_e iv) t && match best with None => true | Some b => beats p iv b end
    then Some iv else best) l best).
Proof.
  revert done_ best. induction l as [|iv l IH]; intros done_ best Hb; cbn [fold_left]; [by rewrite app_nil_r|].
  replace (done_ ++ iv :: l) with ((done_ ++ [iv]) ++ l) by (by rewrite <- app_assoc). apply IH.
  fold (iv_covers (axis c) iv t). destruct (iv_covers (axis c) iv t) eqn:E; simpl.
  - destruct best as [b|]; simpl in *.
    + destruct Hb as (Hin & Hc & Hall). rewrite beats_prefer.
      destruct (prefer _ _ (iv_pos iv) (iv_pos b)) eqn:Ep; simpl.
      * split_and!; [apply elem_of_app; right; left|done|]. intros x Hx Hcx Hne.
        apply elem_of_app in Hx as [Hx|Hx]; [|by apply list_elem_of_singleton in Hx as ->].
        destruct (decide (iv_pos x = iv_pos b)) as [->|Hb']; [done|].
        eapply prefer_trans; [exact Ep|]. by apply Hall.
      * split_and!; [apply elem_of_app; by left|done|]. intros x Hx Hcx Hne.
        apply elem_of_app in Hx as [Hx|Hx]; [by apply Hall|]. apply list_elem_of_singleton in Hx as ->.
        by apply prefer_total.
    + split_and!; [apply elem_of_app; right; left|done|]. intros x Hx Hcx Hne.
      apply elem_of_app in Hx as [Hx|Hx]; [rewrite Hb in Hcx; done|by apply list_elem_of_singleton in Hx as ->].
  - destruct best as [b|]; simpl in *.
    + destruct Hb as (Hin & Hc & Hall). split_and!; [apply elem_of_app; by left|done|].
      intros x Hx Hcx Hne. apply elem_of_app in Hx as [Hx|Hx]; [by apply Hall|].
      apply list_elem_of_singleton in Hx as ->. congruence.
    + intros x Hx. apply elem_of_app in Hx as [Hx|Hx]; [by apply Hb|by apply list_elem_of_singleton in Hx as ->].
Qed.

(** A list of intervals that covers what the rows cover. *)
Record interval_list (c : Core) (own : bool) (arr : list T) (t : Instant) (l : list effInterval) : Prop := {
  il_sound : forall iv, iv ∈ l -> iv_covers (axis c) iv t = true -> covers_at c own arr (arm_caps c own arr) [] t (iv_pos iv) = true;
  il_complete : forall j, covers_at c own arr (arm_caps c own arr) [] t j = true ->
    exists iv, iv ∈ l /\ iv_pos iv = j /\ iv_covers (axis c) iv t = true;
}.

Lemma intervals_list c own (arr : list T) t :
  interval_list c own arr t (intervals_from c own arr (arm_caps c own arr) [] 0 arr).
Proof.
  pose proof (intervals_from_spec c own arr (arm_caps c own arr) [] 0 arr) as Hspec. cbn [Nat.add] in Hspec. split.
  - intros iv Hiv Hc. apply Hspec in Hiv as (j & r & Hj & Hp & _ & Hr & _). unfold covers_at. by rewrite Hp, Hj, Hr.
  - intros j Hc. unfold covers_at in Hc. destruct (arr !! j) as [r|] eqn:Er; [|done].
    destruct (row_iv c own arr (arm_caps c own arr) [] j r) as [[s e]|] eqn:Eiv; [|done].
    exists (mkIv s e j (Z.of_nat j)). split_and!; [|done..]. apply Hspec. exists j, r. split; [done|].
    split_and!; [done..|]. cbn [iv_s iv_e]. unfold IntervalCovers in Hc.
    destruct (ValidAxis_Open (axis c) e); [by left|right]. simpl in Hc. lia.
Qed.

Lemma prepare_eq c pre own arr :
  sortNodeChainForResolve c pre = (own, arr) ->
  prepareCorrection c pre = mkCC T pre arr (intervals_from c own arr (arm_caps c own arr) [] 0 arr) own.
Proof. intros Hs. unfold prepareCorrection, sweepIntervals. by rewrite Hs. Qed.

(** The best covering interval wins with the resolver's answer. *)
Lemma winner_resolve `{!EntityRowOK T} c pre t own arr ivs l best :
  sortNodeChainForResolve c pre = (own, arr) -> Forall row_wf pre ->
  interval_list c own arr t l -> best_covering c (mkCC T pre arr ivs own) t l best ->
  winner (mkCC T pre arr ivs own) best = resolveNodeVersionAt c pre t.
Proof.
  intros Hs Hwf [Hso Hco] Hb. unfold resolveNodeVersionAt, winner.
  destruct (resolve_winner c pre t [] own arr Hs Hwf) as [(i & r & Hi & Hr & ->)|[Hn ->]]; destruct best as [b|]; cbn in Hb |- *.
  - destruct Hb as (Hin & Hc & Hall).
    assert (is_winner c own arr [] t (iv_pos b)) as Hw.
    { split; [by apply Hso|]. intros j Hj Hne. destruct (Hco j Hj) as (iv & Hiv & <- & Hcv). by apply Hall. }
    by rewrite (winner_unique c own arr [] t _ _ Hw Hi), Hr.
  - destruct Hi as [Hc _]. destruct (Hco i Hc) as (iv & Hiv & _ & Hcv). by rewrite Hb in Hcv.
  - destruct Hb as (Hin & Hc & _). apply Hso in Hc; [|done]. by rewrite Hn in Hc.
  - done.
Qed.

(** The scan answers the resolver on the chain. *)
Lemma winnerAt_resolve `{!EntityRowOK T} c pre t :
  Forall row_wf pre -> winnerAt c (prepareCorrection c pre) t = resolveNodeVersionAt c pre t.
Proof.
  intros Hwf. destruct (sortNodeChainForResolve c pre) as [own arr] eqn:Hs. rewrite (prepare_eq c pre own arr Hs).
  unfold winnerAt. eapply (winner_resolve c pre t own arr); [done..|apply intervals_list|]. cbn [cc_ivs].
  apply (scan_best c _ t [] _ None). intros iv Hiv. by apply not_elem_of_nil in Hiv.
Qed.

(** Invariant of the sweep over ascending instants: see [heap_inv]. *)
Lemma answers_loop_resolve `{!EntityRowOK T} c pre own arr ivs all ts rem h from0 :
  sortNodeChainForResolve c pre = (own, arr) -> Forall row_wf pre ->
  (forall t, interval_list c own arr t all) ->
  (forall x y, x ∈ all -> y ∈ all -> prefer own arr (iv_pos x) (iv_pos y) = true -> iv_prio y < iv_prio x) ->
  StronglySorted Z.lt ts -> Forall (fun t => from0 <= t) ts -> heap_inv (axis c) all from0 rem h ->
  answers_loop (axis c) (mkCC T pre arr ivs own) ts rem h = map (resolveNodeVersionAt c pre) ts.
Proof.
  intros Hs Hwf Hall Hprio. revert rem h from0. induction ts as [|t ts IH]; intros rem h from0 Hsort Hge Hh; [done|].
  cbn [answers_loop map]. apply Forall_cons in Hge as [Hle Hge].
  pose proof (push_started_inv (axis c) all t rem h (heap_inv_later _ _ _ _ _ _ Hle Hh)) as Hp.
  destruct (push_started t rem h) as [rem' h']. destruct Hp as [Hh' Hrem].
  destruct (pop_ended_inv (axis c) all (length h') t rem' h' ltac:(lia) Hh') as [Hh2 Htop].
  set (h2 := pop_ended (length h') (axis c) t h') in *. clearbody h2.
  apply StronglySorted_inv in Hsort as [Hsort Hf]. f_equal.
  - apply (winner_resolve c pre t own arr ivs all); [done..|].
    assert (forall iv, iv ∈ all -> iv_covers (axis c) iv t = true -> iv ∈ h2) as Hin.
    { intros iv Hiv Hc. unfold iv_covers, IntervalCovers in Hc. apply andb_prop in Hc as [Hc1 Hc2].
      destruct (hi_all _ _ _ _ _ Hh2 iv Hiv) as [Hr|[|[He Hle']]]; [|done|].
      - specialize (Hrem iv Hr). lia.
      - rewrite He in Hc2. simpl in Hc2. lia. }
    destruct h2 as [|top h2]; cbn.
    + intros iv Hiv. destruct (iv_covers _ iv t) eqn:E; [|done]. specialize (Hin iv Hiv E). by apply not_elem_of_nil in Hin.
    + destruct (hi_sub _ _ _ _ _ Hh2 top ltac:(left)) as [Hta _]. split_and!; [done|done|].
      intros iv Hiv Hc Hne. destruct (prefer own arr (iv_pos top) (iv_pos iv)) eqn:E; [done|].
      pose proof (heap_top_max top h2 iv (hi_ok _ _ _ _ _ Hh2) (Hin iv Hiv Hc)).
      assert (iv_prio top < iv_prio iv) by (apply Hprio; [done..|by apply prefer_total]). lia.
  - apply (IH rem' h2 t); [done| |done]. eapply Forall_impl; [exact Hf|]. simpl. lia.
Qed.

(** The sweep answers the resolver at every instant. *)
Lemma sweep_resolve `{!EntityRowOK T} c pre ts :
  Forall row_wf pre -> StronglySorted Z.lt ts ->
  sweep_answers c (prepareCorrection c pre) ts = map (resolveNodeVersionAt c pre) ts.
Proof.
  intros Hwf Hts. destruct (sortNodeChainForResolve c pre) as [own arr] eqn:Hs. rewrite (prepare_eq c pre own arr Hs).
  unfold sweep_answers. cbn [cc_cascade cc_arr cc_ivs].
  pose proof (ranked_covers c own arr []) as Hcov. cbv zeta in Hcov.
  set (all := if own then _ else _) in *.
  assert (forall t, interval_list c own arr t all) as Hall.
  { intros t. destruct (Hcov t) as (_ & H2 & H3 & _). by split. }
  destruct (Hcov 0) as (_ & _ & _ & Hprio).
  apply (answers_loop_resolve c pre own arr _ all ts _ _ (match ts with [] => 0 | t :: _ => t end)); try done.
  - destruct Hts as [|t ts _ Hf]; [constructor|]. constructor; [lia|]. eapply Forall_impl; [exact Hf|]. simpl. lia.
  - split.
    + intros j Hj. simpl in Hj. lia.
    + intros iv Hiv. by apply not_elem_of_nil in Hiv.
    + intros iv Hiv. by apply elem_of_sort_by in Hiv.
    + apply sort_by_ordered. apply _.
    + intros iv Hiv. left. by apply elem_of_sort_by.
Qed.

(** ** The pieces *)

(** No own bound of a row lies in (t0, t]. *)
Definition no_bound_between (c : Core) pre (t0 t : Instant) : Prop :=
  forall r, r ∈ pre -> let '(s, e) := nodeOwnBounds c r in
    (s <= t0 \/ t < s) /\ (ValidAxis_Open (axis c) e = true \/ e <= t0 \/ t < e).

Lemma covers_same a s e t0 t :
  t0 <= t -> (s <= t0 \/ t < s) -> (ValidAxis_Open a e = true \/ e <= t0 \/ t < e) ->
  IntervalCovers a s e t = IntervalCovers a s e t0.
Proof. intros Hle Hs He. unfold IntervalCovers. destruct (ValidAxis_Open a e); simpl; lia. Qed.

(** A supersession cap is the start of a row. *)
Lemma superCaps_end_cases c (arr : list T) i r vStart vEnd e :
  ordered_by (lt_key (RowStart (axis c))) arr -> arr !! i = Some r ->
  superCaps_end (supersessionCaps (RowStart (axis c)) arr) (axis c) i vStart vEnd = (e, false) ->
  e = vEnd \/ exists q, q ∈ arr /\ e = RowStart (axis c) q.
Proof.
  intros Ho Hi. pose proof (supersession_caps_spec (RowStart (axis c)) arr i r Ho Hi) as Hc. unfold superCaps_end.
  destruct (supersessionCaps _ _ !! i) as [[cap|]|]; [|intros [= <-]; by left..].
  destruct Hc as [(q & rq & Hq & _ & <-) _]. destruct (_ <=? vStart); [done|].
  destruct (_ || _); intros [= <-]; [right|by left]. exists rq. split; [by eapply list_elem_of_lookup_2|done].
Qed.

(** The bounds of a row's interval are own bounds of rows of the chain. *)
Lemma row_iv_bounds `{!EntityRowOK T} c own (arr : list T) i r s e :
  bitemporalMigrated c = true -> Forall row_wf arr -> ordered_by (lt_key (RowStart (axis c))) arr ->
  arr !! i = Some r -> row_iv c own arr (arm_caps c own arr) [] i r = Some (s, e) ->
  s = fst (nodeOwnBounds c r) /\
  (e = snd (nodeOwnBounds c r) \/ ValidAxis_Open (axis c) e = true \/ exists q, q ∈ arr /\ e = fst (nodeOwnBounds c q)).
Proof.
  intros Hm Hwf Ho Hi. assert (row_wf r) as Hr by (rewrite Forall_forall in Hwf; apply Hwf; by eapply list_elem_of_lookup_2).
  unfold row_iv. destruct own.
  - unfold nodeOwnBounds at 1. simpl arm_caps. destruct (superCaps_end _ _ _ _ _) as [e' []] eqn:Ec; [done|].
    intros [= <- <-]. split; [done|]. destruct (superCaps_end_cases c arr i r _ _ e' Ho Hi Ec) as [->|(q & Hq & ->)]; [by left|].
    right. right. by exists q.
  - pose proof (versionBounds_start c arr i r Hm Hi Hr) as Hs. unfold nodeVersionBounds in *. rewrite Hi in *.
    destruct (Temporal r) as [tm|] eqn:Et; simpl in *; intros [= <- <-]; (split; [done|]).
    + destruct (ValidAxis_Open (axis c) (ValidTo tm)) eqn:Eo; simpl.
      * destruct (arr !! S i) as [n|] eqn:En; [right; right; exists n|right; left; unfold ValidAxis_Open; by rewrite Z.eqb_refl].
        split; [by eapply list_elem_of_lookup_2|done].
      * left. rewrite Et, Eo. done.
    + destruct (arr !! S i) as [n|] eqn:En; [right; right; exists n|right; left; unfold ValidAxis_Open; by rewrite Z.eqb_refl].
      split; [by eapply list_elem_of_lookup_2|done].
Qed.

(** Between two neighbouring own bounds the resolver's answer is constant. *)
Lemma resolve_between `{!EntityRowOK T} c pre t0 t :
  bitemporalMigrated c = true -> Forall row_wf pre -> t0 <= t -> no_bound_between c pre t0 t ->
  resolveNodeVersionAt c pre t = resolveNodeVersionAt c pre t0.
Proof.
  intros Hm Hwf Hle Hb. destruct (sortNodeChainForResolve c pre) as [own arr] eqn:Hs.
  pose proof (sortNodeChainForResolve_spec c pre own arr Hs) as (Hp & Ho & _). apply ordered_starts in Ho.
  assert (Forall row_wf arr) as Hwf' by (by rewrite Hp).
  assert (forall r, r ∈ arr -> let '(s, e) := nodeOwnBounds c r in
    (s <= t0 \/ t < s) /\ (ValidAxis_Open (axis c) e = true \/ e <= t0 \/ t < e)) as Hb'.
  { intros r Hr. apply Hb. by rewrite <- Hp. }
  assert (forall j, covers_at c own arr (arm_caps c own arr) [] t j = covers_at c own arr (arm_caps c own arr) [] t0 j) as Hcov.
  { intros j. unfold covers_at. destruct (arr !! j) as [r|] eqn:Hj; [|done].
    destruct (row_iv c own arr (arm_caps c own arr) [] j r) as [[s e]|] eqn:Er; [|done].
    destruct (row_iv_bounds c own arr j r s e Hm Hwf' Ho Hj Er) as [-> He].
    pose proof (Hb' r ltac:(by eapply list_elem_of_lookup_2)) as Hr. revert He Hr.
    destruct (nodeOwnBounds c r) as [s' e']. simpl. intros He Hr. apply covers_same; [done|tauto|]. destruct He as [->|[He|(q & Hq & ->)]]; [tauto|tauto|].
    specialize (Hb' q Hq). unfold nodeOwnBounds in Hb'. simpl. tauto. }
  assert (forall i, is_winner c own arr [] t i -> is_winner c own arr [] t0 i) as Hw.
  { intros i [H1 H2]. split; [by rewrite <- Hcov|]. intros j Hj. rewrite <- Hcov in Hj. by apply H2. }
  unfold resolveNodeVersionAt.
  destruct (resolve_winner c pre t [] own arr Hs Hwf) as [(i & r & Hi & Hr & ->)|[Hn ->]],
    (resolve_winner c pre t0 [] own arr Hs Hwf) as [(i' & r' & Hi' & Hr' & ->)|[Hn' ->]]; [| | |done].
  - apply Hw in Hi. rewrite (winner_unique _ _ _ _ _ _ _ Hi Hi'), Hr' in Hr. by injection Hr as ->.
  - destruct Hi as [Hc _]. by rewrite Hcov, Hn' in Hc.
  - destruct Hi' as [Hc _]. by rewrite <- Hcov, Hn in Hc.
Qed.

(** Consecutive non-empty pieces from [from] to [to], at bounded starts. *)
Fixpoint tiles (a : ValidAxis) (from : Instant) (segs : list (correctionSegment T)) (to : Instant) : Prop :=
  match segs with
  | [] => from = to
  | s :: rest => sg_from s = from /\ from <> openEnd a /\ (ValidAxis_Open a (sg_to s) = true \/ from < sg_to s) /\ tiles a (sg_to s) rest to
  end.

(** The piece's base is the answer at every instant of it, the template where
    there is none; split at gaps, the mark says which. *)
Definition base_ok (template : T) (splitGaps : bool) (s : correctionSegment T) (answer : option T) : Prop :=
  (answer = Some (sg_base s) \/ answer = None /\ sg_base s = template) /\
  (splitGaps = true -> sg_gap s = match answer with Some _ => false | None => true end).

Definition seg_ok (c : Core) pre (template : T) (splitGaps : bool) (s : correctionSegment T) : Prop :=
  forall t, IntervalCovers (axis c) (sg_from s) (sg_to s) t = true -> base_ok template splitGaps s (resolveNodeVersionAt c pre t).

Lemma tiles_snoc a from l s to :
  tiles a from (l ++ [s]) to <->
  exists mid, tiles a from l mid /\ sg_from s = mid /\ mid <> openEnd a /\ (ValidAxis_Open a (sg_to s) = true \/ mid < sg_to s) /\ sg_to s = to.
Proof.
  revert from. induction l as [|x l IH]; intros from; simpl.
  - split; [intros (? & ? & ? & ?); by exists from|intros (mid & -> & ? & ? & ? & ?); done].
  - rewrite IH. split.
    + intros (? & ? & ? & mid & ? & ?). by exists mid.
    + intros (mid & (? & ? & ? & ?) & ?). split_and!; [done..|]. by exists mid.
Qed.

Lemma add_segment_ok c pre template splitGaps newVF from to answer segs :
  from <> openEnd (axis c) -> (ValidAxis_Open (axis c) to = true \/ from < to) ->
  (forall t, IntervalCovers (axis c) from to t = true -> resolveNodeVersionAt c pre t = answer) ->
  tiles (axis c) newVF (rev segs) from -> Forall (seg_ok c pre template splitGaps) segs ->
  let segs' := add_segment template splitGaps from to answer segs in
  tiles (axis c) newVF (rev segs') to /\ Forall (seg_ok c pre template splitGaps) segs' /\ segs' <> [].
Proof.
  intros Hno Hne Hans Ht Hok. unfold add_segment. cbv zeta.
  set (base := default template answer). set (gap := match answer with Some _ => false | None => true end).
  assert (base_ok template splitGaps (mkSeg T from to base gap) answer) as Hbase.
  { split; cbn; [|done]. destruct answer; [by left|by right]. }
  assert (tiles (axis c) newVF (rev (mkSeg T from to base gap :: segs)) to /\
          Forall (seg_ok c pre template splitGaps) (mkSeg T from to base gap :: segs) /\ mkSeg T from to base gap :: segs <> []) as Hnew.
  { split_and!; [|constructor; [|done]|done].
    - cbn [rev]. apply tiles_snoc. exists from. done.
    - intros t Hc. by rewrite (Hans t Hc). }
  destruct segs as [|s rest]; [done|]. destruct (_ && _) eqn:Em; [|done]. clear Hnew.
  apply andb_prop in Em as [Eb%bool_decide_eq_true Eg]. cbn [rev] in Ht |- *. apply tiles_snoc in Ht as (mid & Ht & Hm & Hmn & Hmt & Hto).
  apply Forall_cons in Hok as [Hs Hok]. split_and!; [| |done].
  - apply tiles_snoc. exists mid. split_and!; [done..| |done]. cbn. destruct Hne as [|Hne]; [by left|right].
    destruct Hmt as [Hmt|Hmt]; [|lia]. unfold ValidAxis_Open in Hmt. apply Z.eqb_eq in Hmt. congruence.
  - constructor; [|done]. intros t Hc. cbn [sg_from sg_to] in Hc. destruct (decide (t < from)) as [Hlt|Hge].
    + assert (IntervalCovers (axis c) (sg_from s) (sg_to s) t = true) as Hcs.
      { unfold IntervalCovers in *. apply andb_prop in Hc as [Hc _]. rewrite Hc, Hto. simpl. apply orb_true_iff. right. lia. }
      specialize (Hs t Hcs). exact Hs.
    + assert (IntervalCovers (axis c) from to t = true) as Hcs.
      { unfold IntervalCovers in *. apply andb_prop in Hc as [_ Hc]. rewrite Hc, andb_true_r. lia. }
      rewrite (Hans t Hcs). destruct Hbase as [H1 H2]. split; cbn [sg_base sg_gap] in *; [by rewrite Eb|].
      intros ->. cbn in Eg. apply eqb_prop in Eg. rewrite Eg. by apply H2.
Qed.

Section Segments.
Context `{!EntityRowOK T} (c : Core) (pre : list T) (template : T) (newVF newVT : Instant) (splitGaps : bool).
Context (allcuts : list Instant).
Context (Hwf : Forall row_wf pre).
(** Every change of the answer inside the interval is a cut. *)
Context (Hconst : forall t0 t, newVF <= t0 <= t -> (ValidAxis_Open (axis c) newVT = true \/ t < newVT) ->
  (forall x, x ∈ allcuts -> x <= t0 \/ t < x) -> resolveNodeVersionAt c pre t = resolveNodeVersionAt c pre t0).

Lemma segments_loop_ok from cuts answers segs :
  StronglySorted Z.lt (from :: cuts) -> newVF <= from -> Forall (fun x => x <> openEnd (axis c)) (from :: cuts) ->
  (ValidAxis_Open (axis c) newVT = true \/ Forall (fun x => x < newVT) (from :: cuts)) ->
  (forall x, x ∈ allcuts -> x <= from \/ x ∈ cuts) ->
  (answers = None \/ answers = Some (map (resolveNodeVersionAt c pre) (from :: cuts))) ->
  tiles (axis c) newVF (rev segs) from -> Forall (seg_ok c pre template splitGaps) segs ->
  let out := segments_loop c (prepareCorrection c pre) template splitGaps newVT from cuts answers segs in
  tiles (axis c) newVF (rev out) newVT /\ Forall (seg_ok c pre template splitGaps) out /\ out <> [].
Proof.
  revert from answers segs. induction cuts as [|next cuts IH]; intros from answers segs Hs Hle Hno Hlt Hcuts Hans Ht Hok;
    apply Forall_cons in Hno as [Hfno Hno]; cbn [segments_loop];
    (assert (match answers with Some l => default None (head l) | None => winnerAt c (prepareCorrection c pre) from end =
             resolveNodeVersionAt c pre from) as -> by (destruct Hans as [->| ->]; [by apply winnerAt_resolve|done])).
  - apply add_segment_ok; [done| | |done|done].
    + destruct Hlt as [|Hlt]; [by left|right]. by apply Forall_cons in Hlt as [? _].
    + intros t Hc. unfold IntervalCovers in Hc. apply andb_prop in Hc as [Hc1 Hc2]. apply Hconst; [lia| |].
      * destruct (ValidAxis_Open (axis c) newVT); [by left|right]. simpl in Hc2. lia.
      * intros x Hx. destruct (Hcuts x Hx) as [|Hn]; [lia|]. by apply not_elem_of_nil in Hn.
  - apply StronglySorted_inv in Hs as [Hs Hf]. apply Forall_cons in Hf as [Hfn Hf]. apply Forall_cons in Hno as Hno'. destruct Hno' as [Hnn _].
    destruct (add_segment_ok c pre template splitGaps newVF from next (resolveNodeVersionAt c pre from) segs) as (H1 & H2 & H3);
      [done|by right| |done|done|].
    + intros t Hc. unfold IntervalCovers in Hc. apply andb_prop in Hc as [Hc1 Hc2].
      assert (t < next) as Htn.
      { unfold ValidAxis_Open in Hc2. destruct (Z.eqb_spec next (openEnd (axis c))); [done|]. simpl in Hc2. lia. }
      apply Hconst; [lia| |].
      * destruct Hlt as [|Hlt]; [by left|right]. apply Forall_cons in Hlt as [_ Hlt]. apply Forall_cons in Hlt as [? _]. lia.
      * intros x Hx. destruct (Hcuts x Hx) as [|Hn]; [lia|]. apply elem_of_cons in Hn as [->|Hn]; [lia|].
        apply StronglySorted_inv in Hs as [_ Hs]. rewrite Forall_forall in Hs. specialize (Hs x Hn). lia.
    + apply IH; [done|lia|done| | | |done|done].
      * destruct Hlt as [|Hlt]; [by left|right]. by apply Forall_cons in Hlt as [_ ?].
      * intros x Hx. destruct (Hcuts x Hx) as [|Hn]; [lia|]. apply elem_of_cons in Hn as [->|Hn]; [lia|by right].
      * destruct Hans as [->| ->]; [by left|by right].
Qed.
End Segments.

Lemma own_bounds_listed c pre r : r ∈ pre ->
  fst (nodeOwnBounds c r) ∈ segment_bounds c pre /\ snd (nodeOwnBounds c r) ∈ segment_bounds c pre.
Proof.
  intros (i & Hi)%list_elem_of_lookup_1. unfold segment_bounds. rewrite !list_elem_of_In, !in_flat_map.
  assert (In i (seq 0 (length pre))) as Hin by (apply in_seq; apply lookup_lt_Some in Hi; lia).
  split; exists i; rewrite Hi; destruct (nodeOwnBounds c r), (nodeVersionBounds c pre i); simpl; tauto.
Qed.

Lemma correctionCuts_elem a bounds newVF newVT x :
  x ∈ correctionCuts a bounds newVF newVT <->
  x ∈ bounds /\ ValidAxis_Open a x = false /\ newVF < x /\ (ValidAxis_Open a newVT = true \/ x < newVT).
Proof.
  unfold correctionCuts. rewrite compact_list_elem, elem_of_sort_by, elem_of_Lfilter, !andb_true_iff, negb_true_iff, orb_true_iff.
  rewrite Z.gtb_lt, Z.ltb_lt. tauto.
Qed.

(** What the plan needs of the graph, the chain and the target. *)
Record plan_pre (c : Core) pre (newVF newVT : Instant) : Prop := {
  pp_migrated : bitemporalMigrated c = true;
  pp_axis : axis_ok (axis c);
  pp_wf : Forall row_wf pre;
  pp_starts : Forall (fun r => RowStart (axis c) r <> openEnd (axis c)) pre;
  pp_interval : checkCascadeInterval (axis c) newVF newVT = true;
}.

Lemma axis_unclaimed a : axis_ok a -> unclaimed a = openEnd a.
Proof. by intros [->| ->]. Qed.

Lemma plan_target c pre newVF newVT :
  plan_pre c pre newVF newVT -> newVF <> openEnd (axis c) /\ (ValidAxis_Open (axis c) newVT = true \/ newVF < newVT).
Proof.
  intros [_ Ha _ _ Hi]. unfold checkCascadeInterval, ValidAxis_Claimed in Hi. rewrite (axis_unclaimed _ Ha) in Hi.
  apply andb_prop in Hi as [H1 H2]. split; [lia|]. destruct (ValidAxis_Open (axis c) newVT); [by left|right].
  destruct (Z.geb_spec newVF newVT); [done|lia].
Qed.

(** No bound between two instants of the target with no cut between them. *)
Lemma cuts_bound_between c pre newVF newVT t0 t :
  plan_pre c pre newVF newVT -> newVF <= t0 <= t -> (ValidAxis_Open (axis c) newVT = true \/ t < newVT) ->
  (forall x, x ∈ correctionCuts (axis c) (segment_bounds c pre) newVF newVT -> x <= t0 \/ t < x) ->
  no_bound_between c pre t0 t.
Proof.
  intros Hp Hle Hlt Hcuts r Hr. destruct (own_bounds_listed c pre r Hr) as [Hs He].
  assert (forall x, x ∈ segment_bounds c pre -> ValidAxis_Open (axis c) x = false -> x <= t0 \/ t < x) as Hx.
  { intros x Hx Ho. destruct (decide (x <= t0)) as [|Hgt]; [by left|]. destruct (decide (t < x)) as [|Hxt]; [by right|].
    apply Hcuts, correctionCuts_elem. split_and!; [done..|lia|]. destruct Hlt; [by left|right; lia]. }
  pose proof (pp_starts _ _ _ _ Hp) as Hst. rewrite Forall_forall in Hst. specialize (Hst r Hr).
  unfold nodeOwnBounds in *. cbn [fst snd] in *. split.
  - apply Hx; [done|]. unfold ValidAxis_Open. by apply Z.eqb_neq.
  - set (e := match Temporal r with Some _ => _ | None => _ end) in *.
    destruct (ValidAxis_Open (axis c) e) eqn:E; [by left|right]. by apply Hx.
Qed.

(** The pieces of a correction tile the target, and the base of each is the
    version believed at every instant of it. *)
Lemma segments_spec `{!EntityRowOK T} c pre template newVF newVT splitGaps :
  plan_pre c pre newVF newVT ->
  let segs := segments c (prepareCorrection c pre) template newVF newVT splitGaps in
  tiles (axis c) newVF segs newVT /\ Forall (seg_ok c pre template splitGaps) segs /\ segs <> [].
Proof.
  intros Hp. destruct (plan_target _ _ _ _ Hp) as [Hvf Hvt]. destruct (sortNodeChainForResolve c pre) as [own arr] eqn:Hs.
  unfold segments. replace (cc_chain (prepareCorrection c pre)) with pre by (by rewrite (prepare_eq c pre own arr Hs)).
  set (cuts := correctionCuts _ _ _ _).
  assert (StronglySorted Z.lt cuts) as Hsorted by (apply compact_list_sorted, sort_by_ordered; apply _).
  pose proof (correctionCuts_elem (axis c) (segment_bounds c pre) newVF newVT) as Hcuts. fold cuts in Hcuts.
  assert (StronglySorted Z.lt (newVF :: cuts)) as Hsorted'.
  { constructor; [done|]. apply Forall_forall. intros x Hx%Hcuts. tauto. }
  unfold segmentsAt. cbv zeta. match goal with |- context [segments_loop _ _ _ _ _ _ _ ?l _] => set (answers := l) end.
  edestruct (segments_loop_ok c pre template newVF newVT splitGaps cuts (pp_wf _ _ _ _ Hp)) as (H1 & H2 & H3);
    [..|split_and!; [exact H1|by apply List.Forall_rev|intros E; apply H3; by rewrite <- (rev_involutive (segments_loop _ _ _ _ _ _ _ _ _)), E]]; try done.
  - intros t0 t Hle Hlt Hc. apply resolve_between; [apply Hp|apply Hp|lia|].
    by apply (cuts_bound_between c pre newVF newVT).
  - constructor; [done|]. apply Forall_forall. intros x (_ & Ho & _)%Hcuts. unfold ValidAxis_Open in Ho. by apply Z.eqb_neq.
  - destruct (ValidAxis_Open (axis c) newVT) eqn:E; [by left|right]. destruct Hvt as [|Hvt]; [done|].
    constructor; [done|]. apply Forall_forall. intros x (_ & _ & _ & [|])%Hcuts; [done|done].
  - intros x Hx. by right.
  - subst answers. destruct (_ >? _); [right|by left]. f_equal. apply sweep_resolve; [apply Hp|done].
Qed.
End PlanLemmas.

(** The pieces of a correction or excise tile its target interval with
    non-empty pieces at bounded starts, and the row a piece patches is the
    version the point resolver answers on the pre-correction chain at every
    instant of the piece, the current row where no version is valid; when gaps
    are kept apart the piece's mark says which of the two it is.  This holds for
    chains of either resolver arm and for the scan and the sweep alike. *)
Theorem correction_segments_exact {T} `{EntityRowOK T} c (pre : list T) template newVF newVT splitGaps :
  plan_pre c pre newVF newVT ->
  let segs := segments c (prepareCorrection c pre) template newVF newVT splitGaps in
  tiles (axis c) newVF segs newVT /\ segs <> [] /\
  forall s t, s ∈ segs -> IntervalCovers (axis c) (sg_from s) (sg_to s) t = true ->
    base_ok template splitGaps s (resolveNodeVersionAt c pre t).
Proof.
  intros Hp segs. destruct (segments_spec c pre template newVF newVT splitGaps Hp) as (H1 & H2 & H3).
  split_and!; [done..|]. intros s t Hs Hc. rewrite Forall_forall in H2. by apply H2.
Qed.

(** The sweep that answers many instants in one pass with a heap, and the
    scan that answers one, both give the point resolver's answer on the
    pre-correction chain. *)
Theorem correction_sweep_exact {T} `{EntityRowOK T} c (pre : list T) ts :
  Forall row_wf pre -> StronglySorted Z.lt ts ->
  sweep_answers c (prepareCorrection c pre) ts = map (winnerAt c (prepareCorrection c pre)) ts /\
  forall t, winnerAt c (prepareCorrection c pre) t = resolveNodeVersionAt c pre t.
Proof.
  intros Hwf Hts. assert (forall t, winnerAt c (prepareCorrection c pre) t = resolveNodeVersionAt c pre t) as Hw
    by (intros; by apply winnerAt_resolve).
  split; [|done]. rewrite sweep_resolve by done. apply map_ext. intros t. by rewrite Hw.
Qed.

Section Witness.
#[local] Existing Instance demo_layout.

Definition cascade_row (n version : Z) (tm : TemporalMetadata) : Node PropertySlice :=
  mkNode PropertySlice (Alloc n) 1 demo_props [] (Some tm) None None version 3 false false 0.

(** A create, an update from 20 on, and a correction of [10, 60). *)
Definition cascade_chain : list (Node PropertySlice) :=
  [cascade_row 1 1 (demo_tm 5 0 5 30 0); cascade_row 2 2 (demo_tm 20 0 30 0 0); cascade_row 3 3 (demo_tm 10 60 45 0 0)].

Definition cascade_core : Core := mkCore LegacyValidAxis true.

Lemma cascade_chain_plan newVF newVT :
  checkCascadeInterval LegacyValidAxis newVF newVT = true -> plan_pre cascade_core cascade_chain newVF newVT.
Proof.
  split; [done|by left| | |done].
  - unfold cascade_chain. forall_literal ltac:(intros [? [=]]).
  - unfold cascade_chain. forall_literal ltac:(vm_compute; discriminate).
Qed.

Lemma correction_segments_exact_witness :
  let segs := segments cascade_core (prepareCorrection cascade_core cascade_chain) (cascade_row 2 2 (demo_tm 20 0 30 0 0)) 2 70 true in
  tiles (axis cascade_core) 2 segs 70 /\
  map (fun s => (sg_from s, sg_to s, Version (sg_base s), sg_gap s)) segs = [(2, 5, 2, true); (5, 10, 1, false); (10, 60, 3, false); (60, 70, 2, false)].
Proof.
  intros segs. split; [|vm_compute; reflexivity].
  exact (proj1 (correction_segments_exact cascade_core cascade_chain (cascade_row 2 2 (demo_tm 20 0 30 0 0)) 2 70 true
                  (cascade_chain_plan 2 70 eq_refl))).
Defined.

Lemma correction_sweep_exact_witness :
  sweep_answers cascade_core (prepareCorrection cascade_core cascade_chain) [2; 7; 30; 65] =
  map (winnerAt cascade_core (prepareCorrection cascade_core cascade_chain)) [2; 7; 30; 65].
Proof.
  apply (correction_sweep_exact cascade_core cascade_chain [2; 7; 30; 65]); [|repeat constructor].
  unfold cascade_chain. forall_literal ltac:(intros [? [=]]).
Defined.
End Witness.
