(* ===== verification/CascadeReads.v ===== *)
(** * What a correction changes in reads (core/temporal_cascade.go, temporal.go)

    The reference rule of the resolver is its own-bounds arm.  It is restated
    here on the rows of a chain, without positions: which rows cover an instant
    and which of them is the newest belief.  Appending the rows of a correction
    then changes the answer inside the target interval and nowhere else
    ([correction_reads]), which is carried to the kernel [cascadeNode].  The last
    section is a run of the kernel after which the positional fast arm answers
    differently from the reference rule. *)

From S2P Require Import Prelude ValidTime Props Rows AsOf Clock TxWrites Chain Heap Supersession Resolver Effective Funnel Pinned Cascade.

Section Reference.
Context {T : Type} `{EntityRow T}.
Implicit Types (r : T) (chain pre post new : list T).

(** The reference rule: the own-bounds arm on the chain in resolver order. *)
Definition reference_at (c : Core) chain (t : Instant) : option T :=
  resolveNodeOwnBounds c (sort_by (resolve_lt (axis c)) chain) t [].

(** [q] was recorded at the TxTo of a lower version that no delete ended. *)
Definition replaces chain (q : T) : Prop :=
  exists r tm, r ∈ chain /\ Temporal r = Some tm /\ TxFrom tm < TxTo tm /\ DeletedAt tm = 0 /\
    TxTo tm = beliefTx (Temporal q) /\ Version r < Version q.

(** [q] ends the belief of [r] at its start. *)
Definition ends (c : Core) chain r (q : T) : Prop :=
  q ∈ chain /\ RowStart (axis c) r <= RowStart (axis c) q /\ nodeBeliefNewerThan q r = true /\ replaces chain q.

Definition covers_row (c : Core) chain r (t : Instant) : Prop :=
  IntervalCovers (axis c) (fst (nodeOwnBounds c r)) (snd (nodeOwnBounds c r)) t = true /\
  forall q, ends c chain r q -> t < RowStart (axis c) q.

(** The newest belief among the rows that cover an instant. *)
Record is_best (c : Core) chain (t : Instant) r : Prop := {
  ib_in : r ∈ chain;
  ib_covers : covers_row c chain r t;
  ib_newest : forall q, q ∈ chain -> covers_row c chain q t -> q <> r -> nodeBeliefNewerThan r q = true;
}.

(** What every stored chain satisfies: versions are distinct. *)
Record chain_rows (c : Core) chain : Prop := {
  cr_versions : NoDup (map Version chain);
  cr_starts : Forall (fun r => RowStart (axis c) r <> openEnd (axis c)) chain;
}.

Lemma version_inj chain r q : NoDup (map Version chain) -> r ∈ chain -> q ∈ chain -> Version r = Version q -> r = q.
Proof.
  intros Hn Hr Hq Hv. apply list_elem_of_lookup_1 in Hr as [i Hi]. apply list_elem_of_lookup_1 in Hq as [j Hj].
  assert (i = j) as ->; [|congruence].
  apply (NoDup_lookup (map Version chain) i j (Version r)); [done| |].
  - change (map Version chain) with (Version <$> chain). by rewrite list_lookup_fmap, Hi.
  - change (map Version chain) with (Version <$> chain). by rewrite list_lookup_fmap, Hj, Hv.
Qed.

Lemma chain_rows_perm c chain chain' : chain ≡ₚ chain' -> chain_rows c chain -> chain_rows c chain'.
Proof.
  intros Hp [H1 H2]. split; [|by rewrite <- Hp]. change (map Version chain') with (Version <$> chain').
  by rewrite <- Hp.
Qed.

(** Coverage and the best row depend on the rows alone. *)
Lemma covers_row_perm c chain chain' r t : chain ≡ₚ chain' -> covers_row c chain r t -> covers_row c chain' r t.
Proof.
  intros Hp [H1 H2]. split; [done|]. intros q (Hq & Hs & Hn & w & tm & Hw & ?). apply H2.
  split_and!; [by rewrite Hp|done..|]. exists w, tm. by rewrite Hp.
Qed.

Lemma is_best_perm c chain chain' t r : chain ≡ₚ chain' -> is_best c chain t r -> is_best c chain' t r.
Proof.
  intros Hp [H1 H2 H3]. split; [by rewrite <- Hp|by eapply covers_row_perm|].
  intros q Hq Hc. apply H3; [by rewrite Hp|]. by eapply covers_row_perm.
Qed.

Lemma newer_irrefl_row r : nodeBeliefNewerThan r r = false.
Proof. unfold nodeBeliefNewerThan. rewrite Z.eqb_refl. simpl. lia. Qed.

Lemma newer_asym_row r q : nodeBeliefNewerThan r q = true -> nodeBeliefNewerThan q r = true -> False.
Proof.
  unfold nodeBeliefNewerThan.
  destruct (Z.eqb_spec (beliefTx (Temporal r)) (beliefTx (Temporal q))), (Z.eqb_spec (beliefTx (Temporal q)) (beliefTx (Temporal r)));
    simpl; lia.
Qed.

Lemma is_best_unique c chain t r q : is_best c chain t r -> is_best c chain t q -> r = q.
Proof.
  intros [H1 H2 H3] [H4 H5 H6]. destruct (decide (r = q)) as [|Hne]; [done|].
  exfalso. apply (newer_asym_row r q); [by apply H3|by apply H6].
Qed.

(** ** Positions and rows *)

Section Arr.
Context (c : Core) (arr : list T).
Context (Hrows : chain_rows c arr) (Ho : ordered_by (lt_key (RowStart (axis c))) arr).

Lemma lookup_version_inj i j r q : arr !! i = Some r -> arr !! j = Some q -> Version r = Version q -> i = j.
Proof.
  intros Hi Hj Hv. apply (NoDup_lookup (map Version arr) i j (Version r)); [apply Hrows| |];
    change (map Version arr) with (Version <$> arr); rewrite list_lookup_fmap; [by rewrite Hi|by rewrite Hj, Hv].
Qed.

Lemma prefer_newer i j r q :
  arr !! i = Some r -> arr !! j = Some q -> i <> j -> prefer true arr i j = nodeBeliefNewerThan r q.
Proof.
  intros Hi Hj Hne. unfold prefer, newer, nodeBeliefNewerThan, ith. rewrite Hi, Hj.
  destruct (_ =? _); simpl; [|done]. destruct (Z.eqb_spec (Version r) (Version q)) as [Hv|]; simpl; [|done].
  by destruct Hne; eapply lookup_version_inj.
Qed.

Lemma ends_index i r (q : nat) rq : arr !! i = Some r -> arr !! q = Some rq ->
  (ends_belief (RowStart (axis c)) arr i q r rq <-> ends c arr r rq).
Proof.
  intros Hi Hq. split.
  - intros [Hs Hn Hr]. split_and!; [by eapply list_elem_of_lookup_2|done| |done].
    unfold nodeBeliefNewerThan. destruct (Z.eqb_spec (beliefTx (Temporal rq)) (beliefTx (Temporal r))); simpl; [|lia].
    destruct Hn as [|[_ [|[Hv Hlt]]]]; [lia|lia|]. pose proof (lookup_version_inj i q r rq Hi Hq Hv). lia.
  - intros (_ & Hs & Hn & Hr). split; [done| |done]. unfold nodeBeliefNewerThan in Hn.
    destruct (Z.eqb_spec (beliefTx (Temporal rq)) (beliefTx (Temporal r))); simpl in Hn; lia.
Qed.

Lemma covers_at_row t i r :
  arr !! i = Some r -> (covers_at c true arr (arm_caps c true arr) [] t i = true <-> covers_row c arr r t).
Proof.
  intros Hi. unfold covers_at, covers_row, row_iv. rewrite Hi. simpl arm_caps. cbn [lifeEnds_end].
  destruct (nodeOwnBounds c r) as [s e] eqn:Eb. cbn [fst snd].
  assert (s = RowStart (axis c) r) as Hs by (unfold nodeOwnBounds in Eb; by injection Eb).
  pose proof (supersession_caps_spec (RowStart (axis c)) arr i r Ho Hi) as Hc. unfold superCaps_end.
  assert (forall rq, ends c arr r rq -> exists q : nat, arr !! q = Some rq /\ ends_belief (RowStart (axis c)) arr i q r rq) as Hends.
  { intros rq Hq. destruct (list_elem_of_lookup_1 _ _ (proj1 Hq)) as [q Hqi]. exists q. split; [done|]. by apply (ends_index i r q rq). }
  assert ((forall q rq, arr !! q = Some rq -> ~ ends_belief (RowStart (axis c)) arr i q r rq) -> forall rq, ~ ends c arr r rq) as Hnone.
  { intros Hq rq Hr. destruct (Hends rq Hr) as (q & ? & ?). by eapply Hq. }
  destruct (supersessionCaps (RowStart (axis c)) arr !! i) as [[cap|]|].
  2,3: simpl; split; [intros H1; split; [done|]; intros q Hq; by destruct (Hnone Hc q)|by intros [? _]].
  destruct Hc as [(q & rq & Hq & He & <-) Hmin].
  assert (forall rq', ends c arr r rq' -> RowStart (axis c) rq <= RowStart (axis c) rq') as Hmin'.
  { intros rq' Hr. destruct (Hends rq' Hr) as (q' & ? & ?). by eapply Hmin. }
  assert (ends c arr r rq) as Her by (by apply (ends_index i r q rq)).
  assert (RowStart (axis c) rq <> openEnd (axis c)) as Hno.
  { pose proof (cr_starts _ _ Hrows) as Hst. rewrite Forall_forall in Hst. apply Hst. apply Her. }
  assert (ValidAxis_Open (axis c) (RowStart (axis c) rq) = false) as Hno' by (unfold ValidAxis_Open; by apply Z.eqb_neq).
  assert (lifeEnds_end ([] : lifeEnds T) = fun _ _ e => e) as Hle by done.
  destruct (Z.leb_spec (RowStart (axis c) rq) s) as [Hcs|Hcs].
  { split; [done|]. intros [H1 H2]. specialize (H2 rq Her). unfold IntervalCovers in H1. lia. }
  assert (forall t, t < RowStart (axis c) rq -> forall q0, ends c arr r q0 -> t < RowStart (axis c) q0) as Hlt.
  { intros t' Ht q0 Hq0. specialize (Hmin' q0 Hq0). lia. }
  destruct (ValidAxis_Open (axis c) e || (e >? RowStart (axis c) rq)) eqn:Ecase; unfold IntervalCovers; rewrite Hle.
  - rewrite Hno'. simpl. split.
    + intros H1. split; [|apply Hlt; lia]. destruct (ValidAxis_Open (axis c) e); simpl in *; lia.
    + intros [H1 H2]. specialize (H2 rq Her). lia.
  - apply orb_false_iff in Ecase as [Eo Ee]. rewrite Eo. simpl. split; [|by intros [? _]].
    intros H1. split; [done|]. apply Hlt. lia.
Qed.

Lemma winner_best t i r : arr !! i = Some r -> (is_winner c true arr [] t i <-> is_best c arr t r).
Proof.
  intros Hi. split.
  - intros [H1 H2]. split; [by eapply list_elem_of_lookup_2|by apply (covers_at_row t i r)|].
    intros q Hq Hc Hne. apply list_elem_of_lookup_1 in Hq as [j Hj].
    assert (j <> i) as Hji by congruence. rewrite <- (prefer_newer i j r q Hi Hj) by congruence.
    apply H2; [|done]. by apply (covers_at_row t j q).
  - intros [H1 H2 H3]. split; [by apply (covers_at_row t i r)|]. intros j Hj Hne.
    pose proof (covers_at_lt _ _ _ _ _ _ _ Hj) as Hlt. apply lookup_lt_is_Some_2 in Hlt as [q Hq].
    rewrite (prefer_newer i j r q Hi Hq) by done. apply H3; [by eapply list_elem_of_lookup_2|by apply (covers_at_row t j q)|].
    intros ->. apply Hne. by eapply lookup_version_inj.
Qed.
End Arr.

Lemma sorted_rows c chain :
  let arr := sort_by (resolve_lt (axis c)) chain in
  chain ≡ₚ arr /\ ordered_by (lt_key (RowStart (axis c))) arr.
Proof.
  pose proof (lt_key2_sw (RowStart (axis c)) (Version (T := T))) as Hsw. fold (resolve_lt (T := T) (axis c)) in Hsw.
  split; [symmetry; apply sort_by_perm|]. apply ordered_starts. by apply sort_by_ordered.
Qed.

(** The reference rule answers the best row, unless it is void. *)
Lemma reference_spec c chain t :
  chain_rows c chain ->
  (exists r, is_best c chain t r /\ reference_at c chain t = if isVoidRow r then None else Some r) \/
  ((forall r, r ∈ chain -> ~ covers_row c chain r t) /\ reference_at c chain t = None).
Proof.
  intros Hrows. destruct (sorted_rows c chain) as [Hp Ho]. unfold reference_at. set (arr := sort_by _ chain) in *. clearbody arr.
  pose proof (chain_rows_perm c chain arr Hp Hrows) as Hrows'.
  destruct (own_bounds_winner c arr t []) as [(i & r & Hi & Hr & ->)|[Hn ->]]; [left|right].
  - exists r. split; [|done]. apply (is_best_perm c arr); [done|]. by apply (winner_best c arr Hrows' Ho t i).
  - split; [|done]. intros r Hr Hc. rewrite Hp in Hr. apply list_elem_of_lookup_1 in Hr as [i Hi].
    apply (covers_row_perm c chain arr) in Hc; [|done]. apply (covers_at_row c arr Hrows' Ho t i r Hi) in Hc. by rewrite Hn in Hc.
Qed.

Lemma reference_best c chain t r :
  chain_rows c chain -> is_best c chain t r -> reference_at c chain t = if isVoidRow r then None else Some r.
Proof.
  intros Hrows Hb. destruct (reference_spec c chain t Hrows) as [(q & Hq & ->)|[Hn _]].
  - by rewrite (is_best_unique c chain t r q Hb Hq).
  - destruct Hb as [Hin Hc _]. by destruct (Hn r Hin).
Qed.

Lemma reference_none c chain t :
  chain_rows c chain -> (forall r, r ∈ chain -> ~ covers_row c chain r t) -> reference_at c chain t = None.
Proof.
  intros Hrows Hn. destruct (reference_spec c chain t Hrows) as [(q & [Hin Hc _] & _)|[_ ->]]; [|done].
  by destruct (Hn q Hin).
Qed.

Lemma reference_perm c chain chain' t : chain_rows c chain -> chain ≡ₚ chain' -> reference_at c chain t = reference_at c chain' t.
Proof.
  intros Hrows Hp. pose proof (chain_rows_perm c chain chain' Hp Hrows) as Hrows'.
  destruct (reference_spec c chain t Hrows) as [(r & Hr & ->)|[Hn ->]].
  - symmetry. apply reference_best; [done|]. by eapply is_best_perm.
  - symmetry. apply reference_none; [done|]. intros r Hr Hc. rewrite <- Hp in Hr. apply (Hn r Hr).
    by apply (covers_row_perm c chain').
Qed.

(** A chain the resolver sends to the own-bounds arm is read by the reference
    rule. *)
Lemma own_arm_reference c chain arr t :
  sortNodeChainForResolve c chain = (true, arr) -> resolveNodeVersionAt c chain t = reference_at c chain t.
Proof.
  intros Hs. pose proof (sortNodeChainForResolve_spec c chain true arr Hs) as (_ & Ho & _).
  unfold resolveNodeVersionAt, resolveNodeVersionAtCapped, reference_at. rewrite Hs. f_equal.
  unfold sortNodeChainForResolve in Hs. destruct chain as [|r rest]; [by injection Hs|].
  destruct (tiling_scan _ _ _ _) as [b|]; [injection Hs as _ <-|by injection Hs as <-]. symmetry. apply sort_by_id, Ho.
Qed.
End Reference.

(** ** Appending newer beliefs *)

Section Append.
Context {T : Type} `{EntityRow T} (c : Core) (pre new : list T) (now : Instant).
Implicit Types (r : T).

(** Rows recorded at [now], after everything the chain records, that retract
    nothing. *)
Record appended_ok : Prop := {
  ao_rows : chain_rows c (pre ++ new);
  ao_now : 0 < now;
  ao_pre : forall r, r ∈ pre -> beliefTx (Temporal r) < now /\ forall tm, Temporal r = Some tm -> TxTo tm < now;
  ao_new : forall r, r ∈ new -> exists tm, Temporal r = Some tm /\ TxFrom tm = now /\ TxTo tm = 0;
}.
Context (Hok : appended_ok).

Lemma pre_rows : chain_rows c pre.
Proof.
  destruct (ao_rows Hok) as [H1 H2]. rewrite map_app in H1. apply NoDup_app in H1 as (H1 & _ & _).
  apply Forall_app in H2 as [H2 _]. by split.
Qed.

Lemma new_belief r : r ∈ new -> beliefTx (Temporal r) = now.
Proof. intros Hr. destruct (ao_new Hok r Hr) as (tm & -> & Htx & _). done. Qed.

Lemma new_newer r q : r ∈ new -> q ∈ pre -> nodeBeliefNewerThan r q = true /\ nodeBeliefNewerThan q r = false.
Proof.
  intros Hr Hq. pose proof (new_belief r Hr). destruct (ao_pre Hok q Hq) as [? _]. unfold nodeBeliefNewerThan.
  destruct (Z.eqb_spec (beliefTx (Temporal r)) (beliefTx (Temporal q))), (Z.eqb_spec (beliefTx (Temporal q)) (beliefTx (Temporal r)));
    simpl; lia.
Qed.

(** The appended rows replace nothing, and nothing new is replaced. *)
Lemma replaces_post q : replaces (pre ++ new) q -> q ∈ pre /\ replaces pre q \/ q ∉ new /\ replaces pre q.
Proof.
  intros (r & tm & Hr & Et & H1 & H2 & H3 & H4). apply elem_of_app in Hr as [Hr|Hr].
  - right. split; [|by exists r, tm]. intros Hq. rewrite (new_belief q Hq) in H3.
    destruct (ao_pre Hok r Hr) as [_ Hp]. specialize (Hp tm Et). lia.
  - destruct (ao_new Hok r Hr) as (tm' & Et' & Htx & Hto). rewrite Et in Et'. injection Et' as <-.
    pose proof (ao_now Hok). lia.
Qed.

Lemma ends_post r q : r ∈ pre -> (ends c (pre ++ new) r q <-> ends c pre r q).
Proof.
  intros Hr. split.
  - intros (Hq & Hs & Hn & Hrep). apply replaces_post in Hrep as [[Hqp Hrep]|[Hqn Hrep]]; [done|].
    apply elem_of_app in Hq as [Hq|Hq]; done.
  - intros (Hq & Hs & Hn & w & tm & Hw & ?). split_and!; [apply elem_of_app; by left|done..|].
    exists w, tm. split; [apply elem_of_app; by left|done].
Qed.

Lemma covers_post_old r t : r ∈ pre -> (covers_row c (pre ++ new) r t <-> covers_row c pre r t).
Proof.
  intros Hr. unfold covers_row. split; intros [H1 H2]; (split; [done|]); intros q Hq; apply H2; by apply ends_post.
Qed.

Lemma covers_post_new r t :
  r ∈ new -> (covers_row c (pre ++ new) r t <-> IntervalCovers (axis c) (fst (nodeOwnBounds c r)) (snd (nodeOwnBounds c r)) t = true).
Proof.
  intros Hr. unfold covers_row. split; [by intros [? _]|]. intros Hc. split; [done|].
  intros q (Hq & _ & Hn & Hrep). exfalso. apply elem_of_app in Hq as [Hq|Hq].
  - destruct (new_newer r q Hr Hq) as [_ Hf]. congruence.
  - apply replaces_post in Hrep as [[Hqp _]|[Hqn _]]; [|done].
    destruct (new_newer q q Hq Hqp) as [Ht Hf]. congruence.
Qed.

(** Where one appended row covers, it answers. *)
Lemma best_new t r :
  r ∈ new -> IntervalCovers (axis c) (fst (nodeOwnBounds c r)) (snd (nodeOwnBounds c r)) t = true ->
  (forall q, q ∈ new -> IntervalCovers (axis c) (fst (nodeOwnBounds c q)) (snd (nodeOwnBounds c q)) t = true -> q = r) ->
  is_best c (pre ++ new) t r.
Proof.
  intros Hr Hc Huniq. split; [apply elem_of_app; by right|by apply covers_post_new|].
  intros q Hq Hcq Hne. apply elem_of_app in Hq as [Hq|Hq]; [by apply new_newer|].
  destruct Hne. apply Huniq; [done|]. by apply (proj1 (covers_post_new q t Hq)).
Qed.

(** Where none does, the earlier answer stands. *)
Lemma reference_unchanged t :
  (forall q, q ∈ new -> IntervalCovers (axis c) (fst (nodeOwnBounds c q)) (snd (nodeOwnBounds c q)) t = false) ->
  reference_at c (pre ++ new) t = reference_at c pre t.
Proof.
  intros Hn. destruct (reference_spec c pre t pre_rows) as [(r & [Hin Hc Hbest] & ->)|[Hnone ->]].
  - apply reference_best; [apply Hok|]. split; [apply elem_of_app; by left|by apply covers_post_old|].
    intros q Hq Hcq Hne. apply elem_of_app in Hq as [Hq|Hq].
    + apply Hbest; [done| |done]. by apply covers_post_old.
    + apply covers_post_new in Hcq; [|done]. by rewrite Hn in Hcq.
  - apply reference_none; [apply Hok|]. intros q Hq Hcq. apply elem_of_app in Hq as [Hq|Hq].
    + apply (Hnone q Hq). by apply covers_post_old.
    + apply covers_post_new in Hcq; [|done]. by rewrite Hn in Hcq.
Qed.
End Append.

(** ** Pieces that tile an interval *)

Section Tiles.
Context {T : Type} (a : ValidAxis).
Notation covers s t := (IntervalCovers a (sg_from s) (sg_to s) t = true).

Lemma tiles_le from (l : list (correctionSegment T)) to :
  tiles a from l to -> from <> openEnd a -> ValidAxis_Open a to = false -> from <= to.
Proof.
  intros Ht Hf Eto. revert from Ht Hf. induction l as [|w l IH]; intros f Ht Hf; simpl in Ht; [lia|].
  destruct Ht as (_ & _ & Hne & Ht). unfold ValidAxis_Open in *. apply Z.eqb_neq in Eto.
  destruct (decide (sg_to w = openEnd a)) as [Ho|Ho].
  - destruct l as [|w' l]; simpl in Ht; [congruence|by destruct Ht as (_ & ? & _)].
  - specialize (IH _ Ht Ho). destruct Hne as [Hne|]; [|lia]. by apply Z.eqb_eq in Hne.
Qed.

Lemma tiles_bounds from (segs : list (correctionSegment T)) to s t :
  tiles a from segs to -> s ∈ segs -> covers s t -> from <= t /\ (ValidAxis_Open a to = true \/ t < to).
Proof.
  revert from s. induction segs as [|x segs IH]; intros from s Ht Hs Hc; [by apply not_elem_of_nil in Hs|].
  destruct Ht as (Hf & Hno & Hne & Ht).
  assert (forall y, y ∈ segs -> covers y t -> ValidAxis_Open a (sg_to x) = false /\ sg_to x <= t /\ (ValidAxis_Open a to = true \/ t < to)) as Hrest.
  { intros y Hy Hcy. destruct (IH _ y Ht Hy Hcy) as [H1 H2]. split_and!; [|done|done].
    destruct segs as [|z segs]; [by apply not_elem_of_nil in Hy|]. destruct Ht as (_ & Hz & _).
    unfold ValidAxis_Open. by apply Z.eqb_neq. }
  apply elem_of_cons in Hs as [->|Hs].
  - unfold IntervalCovers in Hc. apply andb_prop in Hc as [Hc1 Hc2]. split; [lia|].
    destruct segs as [|z segs]; simpl in Ht; [subst to; destruct (ValidAxis_Open a (sg_to x)); [by left|right; simpl in Hc2; lia]|].
    destruct Ht as (Hz & Hzno & Hzne & Ht).
    assert (ValidAxis_Open a (sg_to x) = false) as Eo by (unfold ValidAxis_Open; by apply Z.eqb_neq).
    rewrite Eo in Hc2. simpl in Hc2. destruct (ValidAxis_Open a to) eqn:Eto; [by left|right].
    pose proof (tiles_le (sg_to x) (z :: segs) to ltac:(simpl; done) Hzno Eto). lia.
  - destruct (Hrest s Hs Hc) as (H1 & H2 & H3). split; [|done]. destruct Hne as [Ho|]; [congruence|lia].
Qed.

Lemma tiles_unique from (segs : list (correctionSegment T)) to t i j s s' :
  tiles a from segs to -> segs !! i = Some s -> segs !! j = Some s' -> covers s t -> covers s' t -> i = j.
Proof.
  revert from i j. induction segs as [|x segs IH]; intros from i j Ht Hi Hj Hs Hs'; [done|].
  destruct Ht as (Hf & Hno & Hne & Ht).
  assert (forall k y, segs !! k = Some y -> covers x t -> covers y t -> False) as Hdis.
  { intros k y Hk Hx Hy. apply list_elem_of_lookup_2 in Hk. destruct (tiles_bounds _ _ _ _ _ Ht Hk Hy) as [H1 _].
    destruct segs as [|z segs]; [by apply not_elem_of_nil in Hk|]. destruct Ht as (_ & Hz & _).
    unfold IntervalCovers in Hx. apply andb_prop in Hx as [_ Hx]. unfold ValidAxis_Open in Hx.
    destruct (Z.eqb_spec (sg_to x) (openEnd a)); [done|]. simpl in Hx. lia. }
  destruct i as [|i], j as [|j]; simpl in *; [done| | |f_equal; by eapply IH].
  - injection Hi as ->. by destruct (Hdis j s').
  - injection Hj as ->. by destruct (Hdis i s).
Qed.

Lemma tiles_covered from (segs : list (correctionSegment T)) to t :
  tiles a from segs to -> segs <> [] -> from <= t -> (ValidAxis_Open a to = true \/ t < to) ->
  exists s, s ∈ segs /\ covers s t.
Proof.
  revert from. induction segs as [|x segs IH]; intros from Ht Hne Hle Hto; [done|]. destruct Ht as (Hf & Hno & Hn & Ht).
  destruct (ValidAxis_Open a (sg_to x) || (sg_to x >? t)) eqn:E.
  - exists x. split; [left|]. unfold IntervalCovers. rewrite E. lia.
  - apply orb_false_iff in E as [Eo Et]. destruct segs as [|y segs].
    + simpl in Ht. subst to. destruct Hto; [congruence|lia].
    + destruct (IH _ Ht ltac:(done) ltac:(lia) Hto) as (s & Hs & Hc). exists s. split; [by right|done].
Qed.

Lemma tiles_from_bounded from (segs : list (correctionSegment T)) to s :
  tiles a from segs to -> s ∈ segs -> sg_from s <> openEnd a.
Proof.
  revert from. induction segs as [|x segs IH]; intros from Ht Hs; [by apply not_elem_of_nil in Hs|].
  destruct Ht as (Hf & Hno & _ & Ht). apply elem_of_cons in Hs as [->|Hs]; [congruence|by eapply IH].
Qed.
End Tiles.

(** ** The rows the kernel appends *)

Section KernelRows.
Context {T : Type} `{CorrectionRowOK T} `{!EntityRowOK T}.

(** Numbering and hashing keep a row's interval and content. *)
Record same_row (b f : T) : Prop := {
  sr_temporal : Temporal f = Temporal b;
  sr_props : rowProps f = rowProps b;
  sr_fixed : rowFixed f = rowFixed b;
  sr_frozen : rowFrozen f = false;
  sr_wf : row_wf f;
}.

Definition fresh_row (b : T) : Prop := rowFrozen b = false /\ row_wf b.

Lemma same_row_trans b f g : same_row b f -> same_row f g -> same_row b g.
Proof. intros [] []. split; congruence || done. Qed.

Lemma setVersion_same v b : fresh_row b -> same_row b (setVersion v b).
Proof. intros [Hf Hwf]. destruct (set_version v b Hf) as (? & ? & ? & ? & ? & ?). split; auto. Qed.

Lemma seal_same v ch nh p b r : fresh_row b -> hashAppendedRow ch nh p (setVersion v b) = Some r -> same_row b r /\ Version r = v.
Proof.
  intros Hb Hr. destruct (setVersion_same v b Hb) as [E1 E2 E3 E4 E5]. destruct (set_version v b (proj1 Hb)) as [Hv _].
  destruct (hash_appended _ _ _ _ _ E4 Hr) as (? & ? & ? & ? & ? & ?). split; [split; try congruence; auto|congruence].
Qed.

Definition same_app (x y : appendedRow T) : Prop := same_row (ap_row x) (ap_row y).

Lemma same_app_trans l k m : Forall2 same_app l k -> Forall2 same_app k m -> Forall2 same_app l m.
Proof.
  intros Hlk. revert m. induction Hlk as [|x y l k Hxy _ IH]; intros m Hkm; inversion Hkm as [|? z ? m' Hyz Hrest]; subst; constructor.
  - unfold same_app in *. by eapply same_row_trans.
  - by apply IH.
Qed.

Lemma number_rows_same last rows out :
  Forall (fun x => fresh_row (ap_row x)) rows -> number_rows last rows = inl out -> Forall2 same_app rows out.
Proof.
  intros Hf. revert last out. induction Hf as [|x rows Hx _ IH]; intros last out; cbn [number_rows]; [intros [= <-]; constructor|].
  destruct (nextEntityVersion last) as [v|]; [|done]. destruct (number_rows v rows) as [more|] eqn:E; [|done].
  intros [= <-]. constructor; [by apply setVersion_same|by eapply IH].
Qed.

Lemma moveToEnd_perm (rows : list (appendedRow T)) target : snd (moveToEnd rows target) ≡ₚ rows.
Proof.
  induction rows as [|x rows IH]; cbn [moveToEnd]; [done|]. case_bool_decide; [simpl; by rewrite Permutation_app_comm|].
  destruct (moveToEnd rows target) as [found rest]. simpl in *. by rewrite IH.
Qed.

Lemma seal_rows_same env version rows out :
  Forall (fun x => fresh_row (ap_row x)) rows -> seal_rows env version rows = inl out ->
  Forall2 same_app rows out /\ NoDup (map (fun x => Version (ap_row x)) out) /\
  Forall (fun x => version <= Version (ap_row x)) out.
Proof.
  intros Hf. revert version out. induction Hf as [|x rows Hx _ IH]; intros version out; cbn [seal_rows].
  { intros [= <-]. split_and!; constructor. }
  cbv zeta. destruct (hashAppendedRow _ _ _ _) as [row|] eqn:Er; [|done]. destruct (seal_rows env (version + 1) rows) as [more|] eqn:E; [|done].
  intros [= <-]. destruct (IH _ _ E) as (H1 & H2 & H3). destruct (seal_same _ _ _ _ _ _ Hx Er) as [Hs Hv].
  split_and!; [by constructor| |].
  - cbn. rewrite Hv. constructor; [|done]. intros Hin. apply list_elem_of_In, in_map_iff in Hin as (y & Hy & Hin).
    rewrite Forall_forall in H3. specialize (H3 y ltac:(by apply list_elem_of_In)). lia.
  - constructor; [cbn; lia|]. eapply Forall_impl; [exact H3|]. simpl. lia.
Qed.

(** What a built piece is. *)
Record piece_row (env : cascadeEnv T) (mode : cascadeMode) (now : Instant) (props : PropertySlice)
    (s : correctionSegment T) (row : T) : Prop := {
  pr_temporal : exists tm, Temporal row = Some tm /\ ValidFrom tm = sg_from s /\ ValidTo tm = sg_to s /\ TxFrom tm = now /\
    TxTo tm = 0 /\ DeletedAt tm = 0 /\ Void tm = match mode with cascadeVoid => true | cascadeCorrection => false end;
  pr_content : mode = cascadeCorrection ->
    patch_props env (rowProps (sg_base s)) props = inl (rowProps row) /\ rowFixed row = rowFixed (sg_base s);
}.

Lemma piece_row_same env mode now props s b f : same_row b f -> piece_row env mode now props s b -> piece_row env mode now props s f.
Proof. intros [E1 E2 E3 _ _] [P1 P2]. split; rewrite ?E1, ?E2, ?E3; done. Qed.

(** The pieces of an excise leave the gaps out. *)
Definition kept (mode : cascadeMode) (segs : list (correctionSegment T)) : list (correctionSegment T) :=
  List.filter (fun s => negb (match mode with cascadeVoid => true | cascadeCorrection => false end && sg_gap s)) segs.

Lemma build_row_spec env seg template now props row :
  buildNodeCorrectionRow env seg template now props = inl row ->
  fresh_row row /\ patch_props env (rowProps (sg_base seg)) props = inl (rowProps row) /\ rowFixed row = rowFixed (sg_base seg) /\
  Temporal row = Some (correctionTemporal (Temporal template) (sg_from seg) (sg_to seg) now).
Proof.
  unfold buildNodeCorrectionRow. destruct (patch_props env _ props) as [ps|] eqn:Ep; [|done]. destruct (_ >? _); [done|].
  intros [= <-]. rewrite rebuild_temporal, rebuild_props, rebuild_fixed. split_and!; try done.
  split; [apply rebuild_frozen|apply rebuild_wf].
Qed.

Lemma build_pieces_spec env mode template now props first segs out :
  build_pieces env mode template now props first segs = inl out ->
  Forall (fun x => fresh_row (ap_row x)) out /\ Forall2 (fun s x => piece_row env mode now props s (ap_row x)) (kept mode segs) out.
Proof.
  revert first out. induction segs as [|s segs IH]; intros first out; cbn [build_pieces]; [intros [= <-]; split; constructor|].
  cbv zeta. unfold kept. cbn [List.filter]. destruct (_ && sg_gap s) eqn:Eg; [apply IH|].
  cbn [negb]. destruct (buildNodeCorrectionRow env s template now props) as [row|] eqn:Er; [|done].
  destruct (build_pieces env mode template now props false segs) as [more|] eqn:Em; [|done]. intros [= <-].
  destruct (IH _ _ Em) as [H1 H2]. destruct (build_row_spec _ _ _ _ _ _ Er) as (Hf & Hp & Hx & Ht).
  destruct mode; cbn [ap_row]; split; (constructor; [|done]); cbn [ap_row].
  - done.
  - split; [|done]. eexists. split; [exact Ht|]. done.
  - unfold markVoid. rewrite Ht. split; [apply rebuild_frozen|apply rebuild_wf].
  - split; [|done]. unfold markVoid. rewrite Ht, rebuild_temporal. eexists. split; [done|]. done.
Qed.

Lemma store_rows_chain e current curIsNew (rows : list T) :
  ent_current e = Some current -> (curIsNew = true -> rows <> []) ->
  let e' := store_rows e current curIsNew rows in
  chainOf (ent_history e') (ent_current e') ≡ₚ chainOf (ent_history e) (ent_current e) ++ rows.
Proof.
  intros Hc Hne. unfold store_rows, chainOf. rewrite Hc. destruct curIsNew; simpl.
  - specialize (Hne eq_refl). destruct (last rows) as [n|] eqn:El; [|by apply last_None in El].
    apply last_Some in El as [l ->]. rewrite removelast_last. simpl. rewrite <- !app_assoc. apply Permutation_app_head.
    rewrite (app_assoc l), (app_assoc [current]). apply Permutation_app_tail, Permutation_app_comm.
  - rewrite <- !app_assoc. apply Permutation_app_head, Permutation_app_comm.
Qed.

Lemma moveToEnd_found (rows : list (appendedRow T)) target : fst (moveToEnd rows target) = true -> rows <> [].
Proof. by destruct rows. Qed.
End KernelRows.

(** ** The resumption's end *)

Section ResumptionEnd.
Context {T : Type} `{EntityRow T} (c : Core) (newVT : Instant).
Notation a := (axis c).

(** [end_] lies after [newVT] and before every bound after it. *)
Definition clears (end_ b : Instant) : Prop := b <= newVT \/ (ValidAxis_Open a end_ = false /\ end_ <= b).

Definition consider (end_ b : Instant) : Instant :=
  if (b >? newVT) && (ValidAxis_Open a end_ || (b <? end_)) then b else end_.

Lemma consider_spec end_ b :
  b <> openEnd a ->
  clears (consider end_ b) b /\ (forall x, clears end_ x -> clears (consider end_ b) x) /\
  (ValidAxis_Open a end_ = true \/ newVT < end_ -> ValidAxis_Open a (consider end_ b) = true \/ newVT < consider end_ b).
Proof.
  intros Hb. assert (ValidAxis_Open a b = false) as Ho by (unfold ValidAxis_Open; by apply Z.eqb_neq).
  unfold consider, clears. destruct (Z.gtb_spec b newVT); simpl; [|split_and!; [left; lia|tauto|tauto]].
  destruct (ValidAxis_Open a end_) eqn:Eo; simpl.
  - split_and!; [right; split; [done|lia]| |right; lia]. intros x [|[? _]]; [by left|done].
  - destruct (Z.ltb_spec b end_).
    + split_and!; [right; split; [done|lia]| |right; lia]. intros x [|[_ ?]]; [by left|right; split; [done|lia]].
    + split_and!; [right; split; [done|lia]|by rewrite ?Eo|by rewrite ?Eo].
Qed.

Lemma resumptionEnd_spec (pre : list T) :
  Forall (fun r => RowStart a r <> openEnd a) pre ->
  let end_ := nodeResumptionEnd c pre newVT in
  (ValidAxis_Open a end_ = true \/ newVT < end_) /\
  forall r, r ∈ pre -> clears end_ (fst (nodeOwnBounds c r)) /\
    (ValidAxis_Open a (snd (nodeOwnBounds c r)) = true \/ clears end_ (snd (nodeOwnBounds c r))).
Proof.
  intros Hst. unfold nodeResumptionEnd. cbv zeta. fold consider.
  set (step := fun end_ row => let '(vStart, vEnd) := nodeOwnBounds c row in _).
  assert (forall l end_, Forall (fun r => RowStart a r <> openEnd a) l -> (ValidAxis_Open a end_ = true \/ newVT < end_) ->
    let e := fold_left step l end_ in
    (ValidAxis_Open a e = true \/ newVT < e) /\ (forall x, clears end_ x -> clears e x) /\
    forall r, r ∈ l -> clears e (fst (nodeOwnBounds c r)) /\
      (ValidAxis_Open a (snd (nodeOwnBounds c r)) = true \/ clears e (snd (nodeOwnBounds c r)))) as Hloop.
  { induction l as [|r l IH]; intros end_ Hl Hend; cbn [fold_left].
    { split_and!; [done|done|]. intros r Hr. by apply not_elem_of_nil in Hr. }
    apply Forall_cons in Hl as [Hr Hl].
    assert ((ValidAxis_Open a (step end_ r) = true \/ newVT < step end_ r) /\ (forall x, clears end_ x -> clears (step end_ r) x) /\
      clears (step end_ r) (fst (nodeOwnBounds c r)) /\
      (ValidAxis_Open a (snd (nodeOwnBounds c r)) = true \/ clears (step end_ r) (snd (nodeOwnBounds c r)))) as (S1 & S2 & S3 & S4).
    { subst step. cbv beta. unfold nodeOwnBounds in *. set (vEnd := match Temporal r with Some _ => _ | None => _ end).
      cbn [fst snd]. destruct (consider_spec end_ (RowStart a r) Hr) as (C1 & C2 & C3).
      destruct (ValidAxis_Open a vEnd) eqn:Eo; simpl; [split_and!; auto|].
      assert (vEnd <> openEnd a) as Hv by (unfold ValidAxis_Open in Eo; by apply Z.eqb_neq).
      destruct (consider_spec (consider end_ (RowStart a r)) vEnd Hv) as (D1 & D2 & D3). split_and!; auto. }
    destruct (IH _ Hl S1) as (H1 & H2 & H3). split_and!; [done|auto|].
    intros q Hq. apply elem_of_cons in Hq as [->|Hq]; [|by apply H3]. split; [by apply H2|].
    destruct S4; [by left|right; by apply H2]. }
  destruct (Hloop pre (ValidAxis_OpenEnd a) Hst) as (H1 & _ & H3); [left; unfold ValidAxis_Open; apply Z.eqb_refl|].
  done.
Qed.

(** Up to the resumption's end the version valid at [newVT] stays valid. *)
Lemma resumption_constant `{!EntityRowOK T} (pre : list T) t :
  bitemporalMigrated c = true -> Forall row_wf pre -> Forall (fun r => RowStart a r <> openEnd a) pre ->
  IntervalCovers a newVT (nodeResumptionEnd c pre newVT) t = true ->
  resolveNodeVersionAt c pre t = resolveNodeVersionAt c pre newVT.
Proof.
  intros Hm Hwf Hst Hc. destruct (resumptionEnd_spec pre Hst) as [_ Hb]. set (e := nodeResumptionEnd c pre newVT) in *.
  unfold IntervalCovers in Hc. apply andb_prop in Hc as [Hc1 Hc2].
  assert (forall b, clears e b -> b <= newVT \/ t < b) as Hcl.
  { intros b [|[Ho Hle]]; [by left|right]. rewrite Ho in Hc2. simpl in Hc2. lia. }
  apply resolve_between; [done|done|lia|]. intros r Hr. destruct (Hb r Hr) as [H1 H2]. revert H1 H2.
  destruct (nodeOwnBounds c r) as [s ve]. cbn [fst snd]. intros H1 H2. split; [by apply Hcl|].
  destruct H2 as [|H2]; [by left|right; by apply Hcl].
Qed.
End ResumptionEnd.

(** ** Reads after a correction *)

Definition ent_chain {T} (e : entity T) : list T := chainOf (ent_history e) (ent_current e).

Section Reads.
Context {T : Type} `{CorrectionRowOK T} `{!EntityRowOK T}.
Context (c : Core) (env : cascadeEnv T) (e : entity T) (current : T) (newVF newVT now : Instant) (props : PropertySlice).

Definition split_gaps (mode : cascadeMode) : bool := match mode with cascadeVoid => true | cascadeCorrection => false end.

Notation pre := (preCorrectionChain (ent_history e) (Some current)).
Notation plan mode := (planMiss c (ent_history e) current newVF newVT (split_gaps mode)).

(** What the write needs: a live entity on a migrated graph, a checked target,
    distinct versions, and an instant after everything the chain records. *)
Record cascade_pre : Prop := {
  cp_current : ent_current e = Some current;
  cp_plan : plan_pre c pre newVF newVT;
  cp_versions : NoDup (map Version (ent_chain e));
  cp_now : 0 < now;
  cp_stamps : forall r, r ∈ ent_chain e -> beliefTx (Temporal r) < now /\ forall tm, Temporal r = Some tm -> TxTo tm < now;
}.
Context (Hpre : cascade_pre).

Lemma pre_perm : pre ≡ₚ ent_chain e.
Proof. unfold preCorrectionChain, ent_chain. rewrite (cp_current Hpre). apply versionOrdered_perm. Qed.

Lemma maxVersion_spec mode r : r ∈ ent_chain e -> Version r <= mp_maxVersion (plan mode).
Proof.
  unfold planMiss, ent_chain, chainOf. cbn [mp_maxVersion]. rewrite (cp_current Hpre).
  assert (forall (l : list T) m, m <= fold_left (fun m h => Z.max m (Version h)) l m /\
    forall r, r ∈ l -> Version r <= fold_left (fun m h => Z.max m (Version h)) l m) as Hmax.
  { induction l as [|x l IH]; intros m; cbn [fold_left]; [split; [lia|intros ? Hn; by apply not_elem_of_nil in Hn]|].
    destruct (IH (Z.max m (Version x))) as [H1 H2]. split; [lia|]. intros q [->|Hq]%elem_of_cons; [lia|by apply H2]. }
  destruct (Hmax (ent_history e) (Version current)) as [H1 H2].
  intros [Hr|Hr]%elem_of_app; [by apply H2|]. apply list_elem_of_singleton in Hr as ->. done.
Qed.

Lemma own_bounds_claimed (r : T) tm :
  Temporal r = Some tm -> row_wf r -> ValidFrom tm <> openEnd (axis c) -> nodeOwnBounds c r = (ValidFrom tm, ValidTo tm).
Proof.
  intros Ht Hwf Hne. unfold nodeOwnBounds. rewrite (row_start_rule (axis c) r Hwf), Ht. cbn.
  rewrite (axis_unclaimed (axis c)) by apply (pp_axis _ _ _ _ (cp_plan Hpre)).
  destruct (Z.eqb_spec (ValidFrom tm) (openEnd (axis c))); [done|]. simpl. f_equal.
  unfold ValidAxis_Open, ValidAxis_OpenEnd. destruct (Z.eqb_spec (ValidTo tm) (openEnd (axis c))); done.
Qed.

(** The resumption, when there is one. *)
Definition resumes (mode : cascadeMode) (rows : list T) : Prop :=
  match mp_src (plan mode) with
  | Some (src, srcEnd) =>
      if nodeStartsAt c src newVT then rows = []
      else exists r tm, rows = [r] /\ row_wf r /\ Temporal r = Some tm /\ ValidFrom tm = newVT /\ ValidTo tm = srcEnd /\
             TxFrom tm = now /\ TxTo tm = 0 /\ DeletedAt tm = 0 /\ Void tm = false /\ rowProps r = rowProps src /\ rowFixed r = rowFixed src
  | None => rows = []
  end.

(** The rows a successful write appends. *)
Record appended_rows (mode : cascadeMode) (e' : entity T) (res pieces : list T) : Prop := {
  ar_chain : ent_chain e' ≡ₚ pre ++ (res ++ pieces);
  ar_store : exists curIsNew rows, e' = store_rows e current curIsNew rows /\ rows ≡ₚ res ++ pieces /\ (curIsNew = true -> rows <> []);
  ar_ok : appended_ok c pre (res ++ pieces) now;
  ar_resume : resumes mode res;
  ar_pieces : Forall2 (fun s r => row_wf r /\ piece_row env mode now props s r) (kept mode (mp_segments (plan mode))) pieces;
}.

Lemma segments_tile mode :
  tiles (axis c) newVF (mp_segments (plan mode)) newVT /\
  Forall (seg_ok c pre current (split_gaps mode)) (mp_segments (plan mode)) /\ mp_segments (plan mode) <> [].
Proof. apply (segments_spec c pre current newVF newVT (split_gaps mode)), (cp_plan Hpre). Qed.

Lemma seg_from_bounded mode s : s ∈ mp_segments (plan mode) -> sg_from s <> openEnd (axis c).
Proof.
  destruct (segments_tile mode) as (Ht & _ & _). by apply (tiles_from_bounded _ _ _ _ _ Ht).
Qed.

Lemma kept_sub mode s : s ∈ kept mode (mp_segments (plan mode)) -> s ∈ mp_segments (plan mode).
Proof. unfold kept. by intros [? _]%elem_of_Lfilter. Qed.

(** Every piece covers its segment. *)
Lemma piece_bounds mode s r :
  s ∈ kept mode (mp_segments (plan mode)) -> row_wf r -> piece_row env mode now props s r ->
  nodeOwnBounds c r = (sg_from s, sg_to s).
Proof.
  intros Hs Hwf [(tm & Ht & Hf & Hto & _) _]. rewrite <- Hf, <- Hto. apply own_bounds_claimed; [done..|].
  rewrite Hf. by eapply seg_from_bounded, kept_sub.
Qed.

Lemma resume_target mode (r : T) res : resumes mode res -> r ∈ res ->
  ValidAxis_Open (axis c) newVT = false /\ exists src,
    resolveNodeVersionAt c pre newVT = Some src /\ rowProps r = rowProps src /\ rowFixed r = rowFixed src /\
    nodeOwnBounds c r = (newVT, nodeResumptionEnd c pre newVT) /\ isVoidRow r = false.
Proof.
  intros Hres Hr. unfold resumes in Hres. unfold planMiss in Hres. cbn [mp_src] in Hres.
  destruct (ValidAxis_Open (axis c) newVT) eqn:Eo; cbn [negb] in Hres; [subst res; by apply not_elem_of_nil in Hr|].
  split; [done|]. rewrite winnerAt_resolve in Hres by apply (pp_wf _ _ _ _ (cp_plan Hpre)).
  destruct (resolveNodeVersionAt c pre newVT) as [src|]; [|subst res; by apply not_elem_of_nil in Hr].
  destruct (nodeStartsAt c src newVT); [subst res; by apply not_elem_of_nil in Hr|].
  destruct Hres as (r' & tm & -> & Hwf & Ht & Hf & Hto & _ & _ & _ & Hv & Hp & Hx). apply list_elem_of_singleton in Hr as ->.
  exists src. split_and!; [done..| |].
  - rewrite <- Hto, <- Hf at 1. apply own_bounds_claimed; [done..|]. rewrite Hf. unfold ValidAxis_Open in Eo. by apply Z.eqb_neq.
  - unfold isVoidRow. by rewrite Ht.
Qed.

(** The resumption row before it is numbered. *)
Lemma resume_built mode :
  let built := match mp_src (plan mode) with
               | Some (src, srcEnd) =>
                   if nodeStartsAt c src newVT then []
                   else [mkApp T (resumption_row c src srcEnd newVT now) (rowHashOf src) false]
               | None => []
               end in
  Forall (fun x => fresh_row (ap_row x)) built /\
  forall out, Forall2 same_app built out -> resumes mode (map ap_row out).
Proof.
  unfold resumes. destruct (mp_src (plan mode)) as [[src srcEnd]|]; cbv zeta; [|split; [constructor|]; intros out Ho; by inversion Ho].
  destruct (nodeStartsAt c src newVT); [split; [constructor|]; intros out Ho; by inversion Ho|]. split.
  - constructor; [|constructor]. split; [apply rebuild_frozen|apply rebuild_wf].
  - intros out Ho. inversion Ho as [|x y l k Hxy Hlk]; subst. inversion Hlk; subst. destruct Hxy as [E1 E2 E3 E4 E5].
    cbn [ap_row] in *. unfold resumption_row in *. rewrite rebuild_temporal in E1. rewrite rebuild_props in E2. rewrite rebuild_fixed in E3.
    exists (ap_row y). eexists. split; [done|]. split_and!; try done; cbn; done.
Qed.

Lemma new_row_stamps mode res pieces r :
  resumes mode res -> Forall2 (fun s r => row_wf r /\ piece_row env mode now props s r) (kept mode (mp_segments (plan mode))) pieces ->
  r ∈ res ++ pieces ->
  exists tm, Temporal r = Some tm /\ TxFrom tm = now /\ TxTo tm = 0 /\ DeletedAt tm = 0 /\ row_wf r /\ RowStart (axis c) r <> openEnd (axis c).
Proof.
  intros Hres Hp [Hr|Hr]%elem_of_app.
  - destruct (resume_target mode r res Hres Hr) as (Ho & src & _ & _ & _ & Hb & _).
    unfold resumes in Hres. destruct (mp_src (plan mode)) as [[src' srcEnd]|]; [|subst; by apply not_elem_of_nil in Hr].
    destruct (nodeStartsAt c src' newVT); [subst; by apply not_elem_of_nil in Hr|].
    destruct Hres as (r' & tm & -> & Hwf & Ht & Hf & _ & Htx & Hto & Hdel & _). apply list_elem_of_singleton in Hr as ->.
    exists tm. split_and!; [done..|]. change (RowStart (axis c) r') with (fst (nodeOwnBounds c r')). rewrite Hb. cbn.
    unfold ValidAxis_Open in Ho. by apply Z.eqb_neq.
  - apply list_elem_of_lookup_1 in Hr as [i Hi]. destruct (Forall2_lookup_r _ _ _ _ _ Hp Hi) as (s & Hs & Hwf & Hpr).
    apply list_elem_of_lookup_2 in Hs as Hs'. pose proof (piece_bounds mode s r Hs' Hwf Hpr) as Hb.
    destruct (pr_temporal _ _ _ _ _ _ Hpr) as (tm & Ht & _ & _ & Htx & Hto & Hdel & _). exists tm. split_and!; [done..|].
    change (RowStart (axis c) r) with (fst (nodeOwnBounds c r)). rewrite Hb. by eapply seg_from_bounded, kept_sub.
Qed.

Lemma cascade_at_rows mode e' ret :
  cascade_at c env e current (plan mode) newVT props mode now = inl (e', ret) ->
  exists res pieces, appended_rows mode e' res pieces.
Proof.
  unfold cascade_at. intros Hc. cbv zeta in Hc.
  match type of Hc with (if ?b then _ else _) = _ => destruct b; [done|] end.
  destruct (resume_built mode) as [Hrf Hrr]. cbv zeta in Hrf, Hrr.
  set (built := match mp_src (plan mode) with Some _ => _ | None => _ end) in *.
  destruct (build_pieces env mode current now props true (mp_segments (plan mode))) as [pcs|] eqn:Ep; [|done].
  destruct (build_pieces_spec _ _ _ _ _ _ _ _ Ep) as [Hpf Hpp].
  assert (Forall (fun x => fresh_row (ap_row x)) (built ++ pcs)) as Hfresh by (by apply Forall_app).
  destruct (number_rows _ (built ++ pcs)) as [numbered|] eqn:En; [|done].
  pose proof (number_rows_same _ _ _ Hfresh En) as Hnum.
  destruct (moveToEnd numbered _) as [curIsNew moved] eqn:Em.
  pose proof (moveToEnd_perm numbered (cascadeNewCurrent c (mp_preChain (plan mode)) (map ap_row numbered))) as Hmp.
  pose proof (moveToEnd_found numbered (cascadeNewCurrent c (mp_preChain (plan mode)) (map ap_row numbered))) as Hmf.
  rewrite Em in Hmp, Hmf. cbn [fst snd] in Hmp, Hmf.
  assert (Forall (fun x => fresh_row (ap_row x)) numbered) as Hnf.
  { clear -Hnum. induction Hnum as [|x y l k Hxy _ IH]; constructor; [|done]. by destruct Hxy. }
  assert (Forall (fun x => fresh_row (ap_row x)) moved) as Hmfr by (by rewrite Hmp).
  destruct (seal_rows env _ moved) as [sealed|] eqn:Es; [|done].
  destruct (seal_rows_same _ _ _ _ Hmfr Es) as (Hsame & Hnd & Hge).
  match type of Hc with (if ?b then _ else _) = _ => destruct b; [done|] end.
  match type of Hc with (if ?b then _ else _) = _ => destruct b; [done|] end. injection Hc as <- _.
  destruct (Permutation_Forall2 Hmp Hsame) as (sealed' & Hsp & Hsame').
  assert (Forall2 same_app (built ++ pcs) sealed') as Hall.
  { by eapply same_app_trans. }
  apply Forall2_app_inv_l in Hall as (sr & sp & Hsr & Hsp' & ->). exists (map ap_row sr), (map ap_row sp).
  assert (map ap_row sealed ≡ₚ map ap_row sr ++ map ap_row sp) as Hrows.
  { rewrite <- map_app. change (ap_row <$> sealed ≡ₚ ap_row <$> (sr ++ sp)). by rewrite Hsp. }
  assert (Forall2 (fun s r => row_wf r /\ piece_row env mode now props s r) (kept mode (mp_segments (plan mode))) (map ap_row sp)) as Hpieces.
  { clear -Hpp Hsp'. revert sp Hsp'. induction Hpp as [|s x l k Hsx _ IH]; intros sp Hsp'; inversion Hsp' as [|? y ? sp' Hxy Hrest]; subst;
      cbn [map]; constructor; [|by apply IH]. split; [apply Hxy|]. by eapply piece_row_same. }
  pose proof (Hrr _ Hsr) as Hres.
  assert (curIsNew = true -> map ap_row sealed <> []) as Hnonempty.
  { intros Hcur E. specialize (Hmf Hcur). apply Hmf. apply Forall2_length in Hsame. apply (f_equal length) in E.
    rewrite length_map in E. apply Permutation_length in Hmp. destruct numbered; [done|]. cbn in *. lia. }
  split; [|by exists curIsNew, (map ap_row sealed)| |done|done].
  - unfold ent_chain. rewrite store_rows_chain; [|apply Hpre|done].
    rewrite Hrows. apply Permutation_app_tail. symmetry. apply pre_perm.
  - split; [| |intros r Hr; apply (cp_stamps Hpre); by rewrite <- pre_perm|].
    + split.
      * rewrite map_app. apply NoDup_app. split_and!.
        -- change (map Version pre) with (Version <$> pre). rewrite pre_perm. apply (cp_versions Hpre).
        -- intros v Hv Hv'. apply list_elem_of_In, in_map_iff in Hv as (r & <- & Hr). apply list_elem_of_In in Hr.
           rewrite pre_perm in Hr. pose proof (maxVersion_spec mode r Hr).
           apply list_elem_of_In, in_map_iff in Hv' as (r' & Hv' & Hr'). apply list_elem_of_In in Hr'. rewrite <- Hrows in Hr'.
           apply list_elem_of_In, in_map_iff in Hr' as (x & <- & Hx). rewrite Forall_forall in Hge.
           specialize (Hge x ltac:(by apply list_elem_of_In)). lia.
        -- change (NoDup (Version <$> (map ap_row sr ++ map ap_row sp))). rewrite <- Hrows.
           change (NoDup (Version <$> (ap_row <$> sealed))). by rewrite <- list_fmap_compose.
      * apply Forall_app. split; [apply (pp_starts _ _ _ _ (cp_plan Hpre))|]. apply Forall_forall. intros r Hr.
        by destruct (new_row_stamps mode _ _ r Hres Hpieces Hr) as (tm & _ & _ & _ & _ & _ & ?).
    + apply (cp_now Hpre).
    + intros r Hr. destruct (new_row_stamps mode _ _ r Hres Hpieces Hr) as (tm & ? & ? & ? & _ & _ & _). by exists tm.
Qed.

(** The same content, or nothing on both sides. *)
Definition same_content (before after : option T) : Prop :=
  match before, after with
  | None, None => True
  | Some r, Some r' => rowProps r' = rowProps r /\ rowFixed r' = rowFixed r
  | _, _ => False
  end.

(** What a read at [t] answers after the write, given the answer before it. *)
Definition read_after (mode : cascadeMode) (t : Instant) (before after : option T) : Prop :=
  if IntervalCovers (axis c) newVF newVT t then
    match mode with
    | cascadeCorrection => exists row, after = Some row /\
        patch_props env (rowProps (default current before)) props = inl (rowProps row) /\
        rowFixed row = rowFixed (default current before)
    | cascadeVoid => after = None
    end
  else same_content before after.

Section After.
Context (mode : cascadeMode) (e' : entity T) (res pieces : list T).
Context (Hrows : appended_rows mode e' res pieces).
Notation covers r t := (IntervalCovers (axis c) (fst (nodeOwnBounds c r)) (snd (nodeOwnBounds c r)) t).

Lemma piece_segment r : r ∈ pieces -> exists i s, pieces !! i = Some r /\ kept mode (mp_segments (plan mode)) !! i = Some s /\
  row_wf r /\ piece_row env mode now props s r /\ nodeOwnBounds c r = (sg_from s, sg_to s).
Proof.
  intros Hr. apply list_elem_of_lookup_1 in Hr as [i Hi].
  destruct (Forall2_lookup_r _ _ _ _ _ (ar_pieces _ _ _ _ Hrows) Hi) as (s & Hs & Hwf & Hp). exists i, s. split_and!; [done..|].
  apply (piece_bounds mode); [by eapply list_elem_of_lookup_2|done|done].
Qed.

Lemma piece_covers_target r t : r ∈ pieces -> covers r t = true -> IntervalCovers (axis c) newVF newVT t = true.
Proof.
  intros Hr Hc. destruct (piece_segment r Hr) as (i & s & _ & Hs & _ & _ & Hb). rewrite Hb in Hc. cbn [fst snd] in Hc.
  destruct (segments_tile mode) as (Ht & _ & _).
  destruct (tiles_bounds _ _ _ _ s t Ht (kept_sub mode s ltac:(by eapply list_elem_of_lookup_2)) Hc) as [H1 H2].
  unfold IntervalCovers. destruct H2 as [->|H2]; [by rewrite orb_true_l, andb_true_r; apply Z.leb_le|].
  apply andb_true_intro. split; [lia|]. apply orb_true_iff. right. lia.
Qed.

Lemma resume_outside r t : r ∈ res -> covers r t = true -> IntervalCovers (axis c) newVF newVT t = false.
Proof.
  intros Hr Hc. destruct (resume_target mode r res (ar_resume _ _ _ _ Hrows) Hr) as (Ho & src & _ & _ & _ & Hb & _).
  rewrite Hb in Hc. cbn [fst snd] in Hc. unfold IntervalCovers in *. rewrite Ho. simpl. lia.
Qed.

Lemma kept_unique i j s s' t :
  kept mode (mp_segments (plan mode)) !! i = Some s -> kept mode (mp_segments (plan mode)) !! j = Some s' ->
  IntervalCovers (axis c) (sg_from s) (sg_to s) t = true -> IntervalCovers (axis c) (sg_from s') (sg_to s') t = true -> i = j.
Proof.
  destruct (segments_tile mode) as (Ht & _ & _). unfold kept.
  set (f := fun s : correctionSegment T => negb (_ && sg_gap s)). revert Ht.
  assert (forall l from, tiles (axis c) from l newVT -> forall i j, List.filter f l !! i = Some s -> List.filter f l !! j = Some s' ->
    IntervalCovers (axis c) (sg_from s) (sg_to s) t = true -> IntervalCovers (axis c) (sg_from s') (sg_to s') t = true -> i = j) as Hl.
  { induction l as [|x l IH]; intros from Ht i0 j0; [done|]. cbn [List.filter].
    assert (forall k (y : correctionSegment T), List.filter f l !! k = Some y -> exists k', l !! k' = Some y) as Hin.
    { intros k y Hk. apply list_elem_of_lookup_2, elem_of_Lfilter in Hk as [Hk _]. by apply list_elem_of_lookup_1. }
    assert (forall k y, List.filter f l !! k = Some y -> IntervalCovers (axis c) (sg_from x) (sg_to x) t = true ->
      IntervalCovers (axis c) (sg_from y) (sg_to y) t = true -> False) as Hdis.
    { intros k y Hk Hx Hy. destruct (Hin k y Hk) as [k' Hk'].
      pose proof (tiles_unique (axis c) from (x :: l) newVT t 0%nat (S k') x y Ht eq_refl Hk' Hx Hy). done. }
    destruct Ht as (_ & _ & _ & Ht). destruct (f x); [|by eapply IH].
    destruct i0 as [|i0], j0 as [|j0]; cbn; intros Hi Hj Hc Hc'; [done| | |f_equal; by eapply IH].
    - injection Hi as ->. by destruct (Hdis j0 s').
    - injection Hj as ->. by destruct (Hdis i0 s). }
  intros Ht. by apply (Hl _ newVF Ht).
Qed.

Lemma best_piece r t : r ∈ pieces -> covers r t = true -> is_best c (pre ++ (res ++ pieces)) t r.
Proof.
  intros Hr Hc. apply (best_new c pre (res ++ pieces) now (ar_ok _ _ _ _ Hrows)); [apply elem_of_app; by right|done|].
  intros q [Hq|Hq]%elem_of_app Hcq.
  - pose proof (resume_outside q t Hq Hcq). by rewrite (piece_covers_target r t Hr Hc) in *.
  - destruct (piece_segment r Hr) as (i & s & Hi & Hs & _ & _ & Hb). destruct (piece_segment q Hq) as (j & s' & Hj & Hs' & _ & _ & Hb').
    rewrite Hb in Hc. rewrite Hb' in Hcq. cbn [fst snd] in *. pose proof (kept_unique i j s s' t Hs Hs' Hc Hcq). congruence.
Qed.

Lemma after_reference t : reference_at c (ent_chain e') t = reference_at c (pre ++ (res ++ pieces)) t.
Proof.
  symmetry. apply reference_perm; [apply (ar_ok _ _ _ _ Hrows)|]. symmetry. apply (ar_chain _ _ _ _ Hrows).
Qed.

Lemma read_inside t :
  IntervalCovers (axis c) newVF newVT t = true -> mode = cascadeCorrection \/ resolveNodeVersionAt c pre t = reference_at c pre t ->
  read_after mode t (resolveNodeVersionAt c pre t) (reference_at c (ent_chain e') t).
Proof.
  intros Ht Hagree. unfold read_after. rewrite Ht, after_reference. destruct (segments_tile mode) as (Htile & Hok & Hne).
  unfold IntervalCovers in Ht. apply andb_prop in Ht as [Ht1 Ht2].
  destruct (tiles_covered (axis c) newVF _ newVT t Htile Hne ltac:(lia)) as (s & Hs & Hc).
  { apply orb_true_iff in Ht2 as [|]; [by left|right; lia]. }
  rewrite Forall_forall in Hok. destruct (Hok s Hs t Hc) as [Hbase Hgap].
  destruct (decide (s ∈ kept mode (mp_segments (plan mode)))) as [Hk|Hk].
  - apply list_elem_of_lookup_1 in Hk as [i Hi].
    destruct (Forall2_lookup_l _ _ _ _ _ (ar_pieces _ _ _ _ Hrows) Hi) as (r & Hr & Hwf & Hp).
    assert (covers r t = true) as Hcr by (by rewrite (piece_bounds mode s r (list_elem_of_lookup_2 _ _ _ Hi) Hwf Hp)).
    rewrite (reference_best c _ t r (ao_rows _ _ _ _ (ar_ok _ _ _ _ Hrows)) (best_piece r t (list_elem_of_lookup_2 _ _ _ Hr) Hcr)).
    destruct Hp as [(tm & Et & _ & _ & _ & _ & _ & Hv) Hcontent]. unfold isVoidRow. rewrite Et, Hv. destruct mode; [|done].
    exists r. split; [done|]. destruct (Hcontent eq_refl) as [Hc1 Hc2].
    replace (default current (resolveNodeVersionAt c pre t)) with (sg_base s); [done|].
    by destruct Hbase as [->|[-> ->]].
  - assert (mode = cascadeVoid /\ sg_gap s = true) as [Hm Hg].
    { unfold kept in Hk. rewrite elem_of_Lfilter in Hk. clear -Hk Hs. destruct mode, (sg_gap s); try done; by destruct Hk. }
    assert (match mode with cascadeCorrection => False | cascadeVoid => reference_at c (pre ++ (res ++ pieces)) t = None end) as Hgoal;
      [|by destruct mode]. rewrite Hm.
    rewrite (reference_unchanged c pre (res ++ pieces) now (ar_ok _ _ _ _ Hrows)).
    + destruct Hagree as [?|<-]; [congruence|]. specialize (Hgap ltac:(by rewrite Hm)). rewrite Hg in Hgap. by destruct (resolveNodeVersionAt c pre t).
    + intros q [Hq|Hq]%elem_of_app; destruct (covers q t) eqn:Ec; try done.
      * pose proof (resume_outside q t Hq Ec) as Hf. unfold IntervalCovers in Hf. by rewrite Ht1, Ht2 in Hf.
      * destruct (piece_segment q Hq) as (j & s' & _ & Hs' & _ & _ & Hb). rewrite Hb in Ec. cbn [fst snd] in Ec.
        apply list_elem_of_lookup_2 in Hs'. destruct (list_elem_of_lookup_1 _ _ Hs) as [k Hk1].
        destruct (list_elem_of_lookup_1 _ _ (kept_sub _ _ Hs')) as [k' Hk2].
        pose proof (tiles_unique (axis c) newVF _ newVT t k k' s s' Htile Hk1 Hk2 Hc Ec). subst k'. congruence.
Qed.

Lemma read_outside t :
  IntervalCovers (axis c) newVF newVT t = false -> resolveNodeVersionAt c pre t = reference_at c pre t ->
  read_after mode t (resolveNodeVersionAt c pre t) (reference_at c (ent_chain e') t).
Proof.
  intros Ht Hagree. unfold read_after. rewrite Ht, after_reference.
  assert (forall r, r ∈ pieces -> covers r t = false) as Hnp.
  { intros r Hr. destruct (covers r t) eqn:E; [|done]. by rewrite (piece_covers_target r t Hr E) in Ht. }
  destruct (existsb (fun r => covers r t) res) eqn:Ex.
  - apply existsb_exists in Ex as (r & Hr%list_elem_of_In & Hc).
    destruct (resume_target mode r res (ar_resume _ _ _ _ Hrows) Hr) as (Ho & src & Hsrc & Hp & Hx & Hb & Hv).
    rewrite (reference_best c _ t r (ao_rows _ _ _ _ (ar_ok _ _ _ _ Hrows))).
    + rewrite Hv. rewrite Hb in Hc. cbn [fst snd] in Hc. destruct (cp_plan Hpre) as [P1 P2 P3 P4 P5].
      rewrite (resumption_constant c newVT pre t P1 P3 P4 Hc), Hsrc. done.
    + apply (best_new c pre (res ++ pieces) now (ar_ok _ _ _ _ Hrows)); [apply elem_of_app; by left|done|].
      intros q [Hq|Hq]%elem_of_app Hcq; [|by rewrite (Hnp q Hq) in Hcq].
      pose proof (ar_resume _ _ _ _ Hrows) as Hres. unfold resumes in Hres.
      destruct (mp_src (plan mode)) as [[src' srcEnd]|]; [|subst; by apply not_elem_of_nil in Hq].
      destruct (nodeStartsAt c src' newVT); [subst; by apply not_elem_of_nil in Hq|].
      destruct Hres as (r' & tm & -> & _). apply list_elem_of_singleton in Hq, Hr. congruence.
  - rewrite (reference_unchanged c pre (res ++ pieces) now (ar_ok _ _ _ _ Hrows)).
    + rewrite <- Hagree. by destruct (resolveNodeVersionAt c pre t).
    + intros q [Hq|Hq]%elem_of_app; [|by apply Hnp]. destruct (covers q t) eqn:Ec; [|done].
      assert (existsb (fun r => covers r t) res = true) as Ht'; [|congruence].
      apply existsb_exists. exists q. split; [by apply list_elem_of_In|done].
Qed.
End After.
End Reads.
(** ** The kernel *)

(** A read of the chain at an instant follows the reference rule. *)
Definition follows_reference {T} `{EntityRow T} (c : Core) (chain : list T) (t : Instant) : Prop :=
  resolveNodeVersionAt c chain t = reference_at c chain t.

(** The instant a correction is recorded at. *)
Definition write_instant (obs : nat -> Z) (at_ : Instant) (st : clockS) : Instant :=
  if at_ =? 0 then fst (nowS obs st) else at_.

Section Kernel.
Context {T : Type} `{CorrectionRowOK T} `{!EntityRowOK T}.

Lemma cascadeNode_rows c (env : cascadeEnv T) obs e current newVF newVT props at_ mode st e' ret st' :
  cascadeNode c env obs e newVF newVT props at_ mode st = (inl (e', ret), st') ->
  cascade_pre c e current newVF newVT (write_instant obs at_ st) ->
  exists res pieces, appended_rows c env e current newVF newVT (write_instant obs at_ st) props mode e' res pieces.
Proof.
  intros Hk Hpre. unfold cascadeNode in Hk. destruct (negb _); [done|]. rewrite (cp_current _ _ _ _ _ _ Hpre) in Hk.
  cbv zeta in Hk. destruct (nextEntityVersion _); [|done]. unfold cascadeInstant in Hk. unfold write_instant in *.
  destruct (at_ =? 0).
  - destruct (nowS obs st) as [v st2]. cbn [fst] in *. injection Hk as Hk _. by eapply cascade_at_rows.
  - destruct (checkTxOrder _ _ _); [done|]. injection Hk as Hk _. by eapply cascade_at_rows.
Qed.

(** The order rule of the caller's instant gives the stamps' bound. *)
Lemma tx_bound_le start chain : start <= tx_bound start chain /\
  forall tm, Some tm ∈ chain -> TxFrom tm <= tx_bound start chain /\ TxTo tm <= tx_bound start chain.
Proof.
  unfold tx_bound. revert start. induction chain as [|o chain IH]; intros start; cbn [fold_left].
  { split; [lia|]. intros tm Hn. by apply not_elem_of_nil in Hn. }
  destruct (IH (tx_bound_step start o)) as [H1 H2].
  assert (start <= tx_bound_step start o /\ forall tm, o = Some tm -> TxFrom tm <= tx_bound_step start o /\ TxTo tm <= tx_bound_step start o) as [S1 S2].
  { unfold tx_bound_step. destruct o as [m|]; [|split; [lia|done]]. cbv zeta. split; [|intros tm [= <-]];
      repeat case_match; lia. }
  split; [lia|]. intros tm [Hx|Hx]%elem_of_cons; [|by apply H2]. destruct (S2 tm (eq_sym Hx)). lia.
Qed.

Lemma caller_instant_stamps c (env : cascadeEnv T) obs e current newVF newVT props at_ mode st r :
  at_ <> 0 -> ent_current e = Some current ->
  cascadeNode c env obs e newVF newVT props at_ mode st = (inl r, st) ->
  0 < at_ /\ forall r, r ∈ ent_chain e -> beliefTx (Temporal r) < at_ /\ forall tm, Temporal r = Some tm -> TxTo tm < at_.
Proof.
  intros Hat Hcur Hk. unfold cascadeNode in Hk. destruct (negb _); [done|]. rewrite Hcur in Hk. cbv zeta in Hk.
  destruct (nextEntityVersion _); [|done]. unfold cascadeInstant in Hk. destruct (Z.eqb_spec at_ 0); [done|].
  unfold checkTxOrder in Hk. cbn [planMiss mp_stamps] in Hk.
  destruct (tx_bound_le 0 (map Temporal (ent_history e ++ [current]))) as [B1 B2].
  destruct (Z.leb_spec at_ (tx_bound 0 (map Temporal (ent_history e ++ [current])))); [done|]. split; [lia|].
  intros q Hq. unfold ent_chain, chainOf in Hq. rewrite Hcur in Hq.
  assert (forall tm, Temporal q = Some tm -> TxFrom tm < at_ /\ TxTo tm < at_) as Hst.
  { intros tm Htm. destruct (B2 tm); [|lia]. rewrite <- Htm. apply list_elem_of_In, in_map, list_elem_of_In. done. }
  split; [|intros tm Htm; by destruct (Hst tm Htm)]. destruct (Temporal q) as [tm|]; simpl; [|lia]. by destruct (Hst tm eq_refl).
Qed.
End Kernel.

(** C10: a correction changes the belief inside its interval and nowhere else.
    After a successful [cascadeNode] on a live entity of a migrated graph with
    distinct versions, recorded after everything the chain records, a read at an
    instant of [newVF, newVT) finds the row the point resolver found there before,
    patched (the current row where it found none), and after an excise nothing; at
    every other instant it finds the same content as before, or nothing as before.
    Reads are by the resolver's reference rule [reference_at], the newest belief
    among the rows that cover the instant: the read after the write, and, at the
    instants outside the interval and for an excise, the read before it too.  The
    point resolver follows that rule on its own-bounds arm ([own_arm_reference]); the
    positional arm, taken on a chain that looks like a plain tiling, need not
    ([fast_arm_divergence]). *)
Theorem correction_reads {T} `{CorrectionRowOK T} `{!EntityRowOK T} c (env : cascadeEnv T) obs e current newVF newVT props
    at_ mode st e' ret st' :
  cascadeNode c env obs e newVF newVT props at_ mode st = (inl (e', ret), st') ->
  cascade_pre c e current newVF newVT (write_instant obs at_ st) ->
  let before := versionOrdered (ent_chain e) in let after := versionOrdered (ent_chain e') in
  forall t, (mode = cascadeCorrection /\ IntervalCovers (axis c) newVF newVT t = true) \/ follows_reference c before t ->
  read_after c env current newVF newVT props mode t (resolveNodeVersionAt c before t) (reference_at c after t) /\
    (follows_reference c after t ->
     read_after c env current newVF newVT props mode t (resolveNodeVersionAt c before t) (resolveNodeVersionAt c after t)).
Proof.
  intros Hk Hpre before after t Hagree. assert (read_after c env current newVF newVT props mode t (resolveNodeVersionAt c before t) (reference_at c after t)) as Hread.
  { destruct (cascadeNode_rows c env obs e current newVF newVT props at_ mode st e' ret st' Hk Hpre) as (res & pieces & Hrows).
    assert (before = preCorrectionChain (ent_history e) (Some current)) as Epre
      by (unfold before, preCorrectionChain, ent_chain; by rewrite (cp_current _ _ _ _ _ _ Hpre)).
    assert (Hrefl : after ≡ₚ ent_chain e') by apply versionOrdered_perm. rewrite Epre in Hagree |- *.
    rewrite (reference_perm c _ (ent_chain e') t); [| |exact Hrefl].
    - destruct (IntervalCovers (axis c) newVF newVT t) eqn:Ec.
      + eapply read_inside; [exact Hpre|exact Hrows|done|]. destruct Hagree as [[? _]|?]; [by left|by right].
      + eapply read_outside; [exact Hpre|exact Hrows|done|]. by destruct Hagree as [[_ ?]|?].
    - apply (chain_rows_perm c (preCorrectionChain (ent_history e) (Some current) ++ (res ++ pieces))).
      + rewrite Hrefl. symmetry. apply (ar_chain _ _ _ _ _ _ _ _ _ _ _ _ Hrows).
      + apply (ao_rows _ _ _ _ (ar_ok _ _ _ _ _ _ _ _ _ _ _ _ Hrows)). }
  split; [done|]. unfold follows_reference. by intros ->.
Qed.

(** ** Pins before the write *)

Section PinnedReads.
Context {T : Type} `{CorrectionRowOK T} `{!EntityRowOK T}.

Lemma cascade_later c (env : cascadeEnv T) e current newVF newVT now props mode e' res pieces pin :
  cascade_pre c e current newVF newVT now -> appended_rows c env e current newVF newVT now props mode e' res pieces ->
  pin < now -> 0 < pin -> base_chain pin (ent_chain e) -> later c pin (ent_chain e) (ent_chain e').
Proof.
  intros Hpre Hrows Hpin Hpos [Hwf Hdel].
  assert (forall r, r ∈ res ++ pieces -> recorded pin r = false /\ row_wf r /\ forall tm, Temporal r = Some tm -> DeletedAt tm = 0) as Hnew.
  { intros r Hr. destruct (new_row_stamps c env e current newVF newVT now props Hpre mode res pieces r
      (ar_resume _ _ _ _ _ _ _ _ _ _ _ _ Hrows) (ar_pieces _ _ _ _ _ _ _ _ _ _ _ _ Hrows) Hr) as (tm & Et & Htx & _ & Hd & Hw & _).
    split_and!; [|done|intros tm' E; congruence]. unfold recorded, versionVisibleAtTx. rewrite Et, Htx.
    destruct (Z.eqb_spec pin 0), (Z.eqb_spec now 0); [lia..|]. simpl. lia. }
  destruct (ar_store _ _ _ _ _ _ _ _ _ _ _ _ Hrows) as (curIsNew & rows & -> & Hp & Hne).
  assert (forall l, (forall r, r ∈ l -> r ∈ rows) -> List.filter (recorded pin) l = []) as Hfn.
  { intros l Hl. apply Lfilter_none. intros r Hr. apply Hnew. rewrite <- Hp. by apply Hl. }
  assert (ent_chain e = ent_history e ++ [current]) as Ee by (unfold ent_chain, chainOf; by rewrite (cp_current _ _ _ _ _ _ Hpre)).
  assert (forall r, r ∈ ent_chain (store_rows e current curIsNew rows) -> r ∈ ent_chain e \/ r ∈ rows) as Hin.
  { intros r. unfold ent_chain. rewrite (store_rows_chain e current curIsNew rows (cp_current _ _ _ _ _ _ Hpre) Hne).
    intros [|]%elem_of_app; auto. }
  assert (List.filter (recorded pin) (ent_chain (store_rows e current curIsNew rows)) = List.filter (recorded pin) (ent_chain e)) as Hfilter.
  { rewrite Ee. unfold ent_chain, chainOf, store_rows. destruct curIsNew.
    - specialize (Hne eq_refl). destruct (last rows) as [n|] eqn:El; [|by apply last_None in El].
      apply last_Some in El as [l ->]. cbn [ent_history ent_current]. rewrite removelast_last, !List.filter_app.
      rewrite (Hfn l), (Hfn [n]) by (intros r Hr; apply elem_of_app; auto). by rewrite !app_nil_r.
    - cbn [ent_history ent_current]. rewrite (cp_current _ _ _ _ _ _ Hpre), !List.filter_app, (Hfn rows) by auto. by rewrite app_nil_r. }
  split; [|split].
  - rewrite Hfilter. clear. induction (List.filter _ _); constructor; [by left|done].
  - apply Forall_forall. intros r Hr. rewrite Forall_forall in Hwf. destruct (Hin r Hr) as [|Hn]; [by apply Hwf|].
    rewrite Hp in Hn. by destruct (Hnew r Hn) as (_ & ? & _).
  - intros r tm Hr Hrec Et. destruct (Hin r Hr) as [Ho|Hn]; [by apply (Hdel r)|]. left.
    rewrite Hp in Hn. destruct (Hnew r Hn) as (_ & _ & Hd). by apply Hd.
Qed.
End PinnedReads.


(** ** Runs of the kernel *)

Section Witness.
#[local] Existing Instance demo_layout.

Definition demo_env : cascadeEnv (Node PropertySlice) :=
  mkEnv (Node PropertySlice) [] struct_copy 100 (fun n => Some [n_version n]) (fun _ => None) (fun _ _ => true).

Definition demo_entity : entity (Node PropertySlice) :=
  mkEntity (Node PropertySlice) [cascade_row 1 1 (demo_tm 5 0 5 30 0); cascade_row 3 3 (demo_tm 10 60 45 0 0)]
    (Some (cascade_row 2 2 (demo_tm 20 0 30 0 0))).

(** The clock state does not matter to a write at a caller's instant. *)
Definition demo_st : clockS := (0%nat, mkClock 0 false).

Definition demo_obs : nat -> Z := fun _ => 0.

(** The entity after a write, the same where it was refused. *)
Definition after_write (e : entity (Node PropertySlice)) (newVF newVT : Instant) (props : PropertySlice) (at_ : Instant)
    (mode : cascadeMode) : entity (Node PropertySlice) :=
  match fst (cascadeNode cascade_core demo_env demo_obs e newVF newVT props at_ mode demo_st) with
  | inl (e', _) => e'
  | inr _ => e
  end.

Definition drop_age : PropertySlice := [(bytes_of_string "age", VNil)].

Definition demo_written : (entity (Node PropertySlice) * option (Node PropertySlice)) + cascadeError :=
  Eval vm_compute in fst (cascadeNode cascade_core demo_env demo_obs demo_entity 2 70 drop_age 50 cascadeCorrection demo_st).

Lemma demo_entity_pre : cascade_pre cascade_core demo_entity (cascade_row 2 2 (demo_tm 20 0 30 0 0)) 2 70 50.
Proof.
  split.
  - done.
  - exact (cascade_chain_plan 2 70 eq_refl).
  - vm_compute. repeat constructor; set_solver.
  - lia.
  - intros r Hr. cbn in Hr. repeat (apply elem_of_cons in Hr as [->|Hr]; [cbn; split; [lia|]; intros tm [= <-]; cbn; lia|]).
    by apply not_elem_of_nil in Hr.
Qed.

Lemma correction_reads_witness :
  match demo_written with
  | inl (e', _) => forall t, read_after cascade_core demo_env (cascade_row 2 2 (demo_tm 20 0 30 0 0)) 2 70 drop_age cascadeCorrection t
      (resolveNodeVersionAt cascade_core (versionOrdered (ent_chain demo_entity)) t)
      (resolveNodeVersionAt cascade_core (versionOrdered (ent_chain e')) t)
  | inr _ => False
  end.
Proof.
  destruct demo_written as [[e' ret]|err] eqn:E; [|discriminate E]. intros t.
  apply (correction_reads cascade_core demo_env demo_obs demo_entity (cascade_row 2 2 (demo_tm 20 0 30 0 0)) 2 70 drop_age 50
           cascadeCorrection demo_st e' ret demo_st).
  - rewrite <- E. vm_compute. reflexivity.
  - exact demo_entity_pre.
  - right. eapply own_arm_reference. vm_compute. reflexivity.
  - injection E as <- _. eapply own_arm_reference. vm_compute. reflexivity.
Defined.


(** ** A correction the fast arm does not confine

    An entity valid over [3, 100), its state restated from 5 on without an end,
    then excised from 10 on, then corrected over [20, 30). *)
Definition bounded_entity : entity (Node PropertySlice) :=
  mkEntity (Node PropertySlice) [] (Some (cascade_row 1 1 (demo_tm 3 100 3 0 0))).

Definition excised_entity : entity (Node PropertySlice) :=
  after_write (after_write bounded_entity 5 0 [] 10 cascadeCorrection) 10 0 [] 20 cascadeVoid.

Definition corrected_entity : entity (Node PropertySlice) := after_write excised_entity 20 30 [] 30 cascadeCorrection.

(** The positional fast arm does not agree with the reference rule on every
    chain the write doors produce.  On this run the excise ends validity from 10
    on, and the correction of [20, 30) makes the fast arm answer the first row at
    50: its bounded end keeps it exposed once the open void row is cut at the
    next start.  The reference rule still answers that nothing is valid at 50. *)
Theorem fast_arm_divergence :
  resolveNodeVersionAt cascade_core (versionOrdered (ent_chain excised_entity)) 50 = None /\
  (Version <$> resolveNodeVersionAt cascade_core (versionOrdered (ent_chain corrected_entity)) 50) = Some 1 /\
  reference_at cascade_core (versionOrdered (ent_chain corrected_entity)) 50 = None.
Proof. vm_compute. done. Qed.
End Witness.
