(* ===== verification/Compaction.v ===== *)
(** * History compaction (core/compaction.go, integrity.go, store/memory/memorystore_compaction.go)

    Compaction removes an entity's oldest history rows and leaves a stub that
    stands in for them: the oldest row kept must link to the stub's hash, and a
    read pinned below the stub's boundary is refused.  The policy decides how
    many rows may go ([planTrim]), the hash links how many of them can go
    ([anchorSafeTrim]).  Nodes and relationships are mirrors: the code is one
    definition over [CompactRow]. *)

From stdpp Require Import gmap.
From S2P Require Import Prelude Bytes ValidTime Props Rows AsOf Clock TxWrites Chain Pinned Cascade.

(** ** Policy and hash links *)

Record RetentionPolicy := mkPolicy { KeepVersions : Z; KeepSince : Instant }.

Definition validateRetentionPolicy (policy : RetentionPolicy) : bool :=
  negb ((KeepVersions policy <? 0) || (KeepSince policy <? 0)) &&
  negb ((KeepVersions policy =? 0) && (KeepSince policy =? 0)).

Record versionInfo := mkVI { vi_version : Z; vi_txFrom : Instant; vi_hash : bytes; vi_prevHash : bytes }.

Definition zeroVI : versionInfo := mkVI 0 0 [] [].

(** The per-entity record of a trim. *)
Record compactionStub := mkStub {
  EntityID : Z;
  TrimmedThroughVersion : Z;
  LastTrimmedHash : bytes;
  LastTrimmedTxTo : Instant;
  CompactedAtTx : Instant;
  StubHash : bytes;
}.

Record chainEntryMeta := mkCE { ce_version : Z; ce_hash : bytes; ce_prevHash : bytes }.

Definition link_ok (hashSet : list bytes) (minVersion : Z) (stub : option compactionStub) (m : chainEntryMeta) : bool :=
  if ce_version m =? 0 then
    match stub with Some _ => false | None => bool_decide (ce_prevHash m = []) end
  else if ce_version m =? minVersion then
    match stub with Some s => bool_decide (ce_prevHash m = LastTrimmedHash s) | None => true end
  else negb (bool_decide (ce_prevHash m = [])) && bool_decide (ce_prevHash m ∈ hashSet).

Definition min_version (metas : list chainEntryMeta) : Z :=
  fold_left (fun mv m => if ce_version m <? mv then ce_version m else mv) metas (2 ^ 32 - 1).

Definition verifyChainLinkage (metas : list chainEntryMeta) (stub : option compactionStub) : bool :=
  forallb (link_ok (map ce_hash metas) (min_version metas) stub) metas.

Definition chain_meta (v : versionInfo) : chainEntryMeta := mkCE (vi_version v) (vi_hash v) (vi_prevHash v).

(** The rows that fail both bounds, from the oldest on; the newest history row
    stays.  [length hist] is the source's [m-i]. *)
Fixpoint trim_loop (policy : RetentionPolicy) (hist : list versionInfo) : nat :=
  match hist with
  | [] | [_] => 0
  | v :: rest =>
      let failsCount := negb ((KeepVersions policy >? 0) && (Z.of_nat (length hist) <=? KeepVersions policy)) in
      let failsAge := negb ((KeepSince policy >? 0) && (vi_txFrom v >=? KeepSince policy)) in
      if failsCount && failsAge then S (trim_loop policy rest) else 0
  end.

(** The count with the highest row trimmed and the oldest row kept. *)
Definition boundary_of (hist : list versionInfo) (trim : nat) : nat * versionInfo * versionInfo :=
  match trim with
  | O => (0%nat, zeroVI, zeroVI)
  | S t => (trim, nth t hist zeroVI, nth trim hist zeroVI)
  end.

Definition planTrim (hist : list versionInfo) (policy : RetentionPolicy) : nat * versionInfo * versionInfo :=
  if (length hist <? 2)%nat then (0%nat, zeroVI, zeroVI) else boundary_of hist (trim_loop policy hist).

(** The last position of every hash. *)
Definition hash_index (hist : list versionInfo) : gmap bytes nat :=
  fold_left (fun m iv => <[vi_hash iv.2 := iv.1]> m) (imap pair hist) ∅.

Definition lower_ref (index : gmap bytes nat) (prevHash : bytes) (m : nat) : nat :=
  match index !! prevHash with Some j => if (j <? m)%nat then j else m | None => m end.

(** [minRef[i]], ..., [minRef[n]] for the rows from [i] on. *)
Fixpoint min_refs (index : gmap bytes nat) (last : nat) (rows : list versionInfo) : list nat :=
  match rows with
  | [] => [last]
  | v :: rest =>
      let below := min_refs index last rest in
      lower_ref index (vi_prevHash v) (hd last below) :: below
  end.

(** The loop from [t] down to 1. *)
Fixpoint trim_search (hist : list versionInfo) (minRef : list nat) (t : nat) : nat :=
  match t with
  | O => 0
  | S t' =>
      if (t <=? nth (S t) minRef 0)%nat && bool_decide (vi_prevHash (nth t hist zeroVI) = vi_hash (nth t' hist zeroVI))
      then t else trim_search hist minRef t'
  end.

Definition current_ref (index : gmap bytes nat) (n : nat) (current : option versionInfo) : nat :=
  match current with Some c => default n (index !! vi_prevHash c) | None => n end.

Definition anchorSafeTrim (hist : list versionInfo) (current : option versionInfo) (trim : nat) : nat :=
  match trim with
  | O => 0
  | S _ =>
      let all := map chain_meta hist ++ match current with Some c => [chain_meta c] | None => [] end in
      if negb (verifyChainLinkage all None) then trim
      else
        let index := hash_index hist in
        let n := length hist in
        let minRef := min_refs index (current_ref index n current) hist in
        trim_search hist minRef (Nat.min trim (n - 1))
  end.

Definition planAnchorSafeTrim (hist : list versionInfo) (current : option versionInfo) (policy : RetentionPolicy) :
    nat * versionInfo * versionInfo :=
  boundary_of hist (anchorSafeTrim hist current (fst (fst (planTrim hist policy)))).

(** ** The stub *)

Definition compactStubDomain : bytes := bytes_of_string "tkg_compact_stub_v1".

Definition stub_preimage (s : compactionStub) : bytes :=
  compactStubDomain ++ be_bytes 8 (u64 (EntityID s)) ++ be_bytes 4 (TrimmedThroughVersion s) ++
  be_bytes 8 (Z.of_nat (length (LastTrimmedHash s))) ++ LastTrimmedHash s ++
  be_bytes 8 (u64 (LastTrimmedTxTo s)) ++ be_bytes 8 (u64 (CompactedAtTx s)).

Inductive compactError :=
  | ErrInvalidRetentionPolicy
  | ErrCompactionProtectedTag
  | ErrHistoryCompacted
  | ErrCorruptWire.

Section Stub.
(** The SHA-256 digest in hex. *)
Context (sha256 : bytes -> bytes).

Definition selfHash (s : compactionStub) : bytes := sha256 (stub_preimage s).

Definition sealed (s : compactionStub) : compactionStub :=
  mkStub (EntityID s) (TrimmedThroughVersion s) (LastTrimmedHash s) (LastTrimmedTxTo s) (CompactedAtTx s) (selfHash s).

(** [decodeCompactionStub] on what the wire decoder returned. *)
Definition decodeCompactionStub (expectID : Z) (s : compactionStub) : compactionStub + compactError :=
  if negb (EntityID s =? expectID) then inr ErrCorruptWire
  else if negb (bool_decide (StubHash s = selfHash s)) then inr ErrCorruptWire
  else inl s.

(** ** The plan of one entity *)

Class CompactRow (T : Type) `{!EntityRow T} := { versionInfoOf : T -> versionInfo }.

Class CompactRowOK (T : Type) `{CompactRow T} : Prop := {
  info_version : forall r, vi_version (versionInfoOf r) = Version r;
  info_txFrom : forall r, vi_txFrom (versionInfoOf r) = match Temporal r with Some tm => TxFrom tm | None => 0 end;
}.

Definition nodeVersionInfo {P} (n : Node P) : versionInfo :=
  let tx := match NodeTemporal n with Some tm => TxFrom tm | None => 0 end in
  match NodeIntegrityOf n with
  | Some ig => mkVI (n_version n) tx (ni_Hash ig) (ni_PrevHash ig)
  | None => mkVI (n_version n) tx [] []
  end.

Definition relVersionInfo {P} (r : Relationship P) : versionInfo :=
  let tx := match RelTemporal r with Some tm => TxFrom tm | None => 0 end in
  match RelIntegrityOf r with
  | Some ig => mkVI (r_version r) tx (ri_Hash ig) (ri_PrevHash ig)
  | None => mkVI (r_version r) tx [] []
  end.

Record entityPlan := mkEP { ep_keepVersions : nat; ep_trimmed : nat; ep_stub : compactionStub }.

Definition sort_infos : list versionInfo -> list versionInfo := sort_by (lt_key vi_version).

Section Entity.
Context {T : Type} `{CompactRow T}.

Definition planNodeCompaction (id : Z) (e : entity T) (policy : RetentionPolicy) (now : Instant) : option entityPlan :=
  let infos := sort_infos (map versionInfoOf (ent_history e)) in
  let '(trim, boundary, oldestKept) := planAnchorSafeTrim infos (versionInfoOf <$> ent_current e) policy in
  match trim with
  | O => None
  | S _ =>
      Some (mkEP (length infos - trim) trim
        (sealed (mkStub id (vi_version boundary) (vi_hash boundary) (vi_txFrom oldestKept) now [])))
  end.

(** ** The store and the run *)

(** [truncateNodeHistoryLocked]: the rows are keyed by version. *)
Definition truncateNodeHistoryLocked (keepVersions : nat) (inner : list T) : list T :=
  match keepVersions with
  | O => []
  | S _ =>
      if (length inner <=? keepVersions)%nat then inner
      else
        let versions := sort_by Z.ltb (map Version inner) in
        let doomed := take (length versions - keepVersions) versions in
        List.filter (fun r => negb (bool_decide (Version r ∈ doomed))) inner
  end.

Record compactState := mkCS {
  cs_nodes : gmap Z (entity T);
  cs_stubs : gmap Z compactionStub;
  cs_watermark : Instant;
}.

(** The trim and the stub, written together. *)
Definition CompactNodeHistory (id : Z) (keepVersions : nat) (stub : compactionStub) (st : compactState) : compactState :=
  mkCS (alter (fun e => mkEntity T (truncateNodeHistoryLocked keepVersions (ent_history e)) (ent_current e)) id (cs_nodes st))
    (<[id := stub]> (cs_stubs st)) (cs_watermark st).

Definition advanceCompactionWatermark (newWatermark : Instant) (st : compactState) : compactState :=
  if newWatermark <=? cs_watermark st then st else mkCS (cs_nodes st) (cs_stubs st) newWatermark.

Record CompactReport := mkReport { EntitiesCompacted : Z; VersionsTrimmed : Z; Watermark : Instant }.

(** A missing entity has no rows. *)
Definition entity_of (st : compactState) (id : Z) : entity T := default (mkEntity T [] None) (cs_nodes st !! id).

(** The planning pass of a chunk. *)
Fixpoint plan_chunk (st : compactState) (policy : RetentionPolicy) (minTag now : Instant) (chunk : list Z)
    (plans : gmap Z entityPlan) (maxBoundary : Instant) : (gmap Z entityPlan * Instant) + compactError :=
  match chunk with
  | [] => inl (plans, maxBoundary)
  | id :: rest =>
      match planNodeCompaction id (entity_of st id) policy now with
      | None => plan_chunk st policy minTag now rest plans maxBoundary
      | Some plan =>
          let boundary := LastTrimmedTxTo (ep_stub plan) in
          if negb (minTag =? 0) && (minTag <? boundary) then inr ErrCompactionProtectedTag
          else plan_chunk st policy minTag now rest (<[id := plan]> plans) (if boundary >? maxBoundary then boundary else maxBoundary)
      end
  end.

(** The apply pass. *)
Fixpoint apply_chunk (plans : gmap Z entityPlan) (chunk : list Z) (report : CompactReport) (st : compactState) :
    CompactReport * compactState :=
  match chunk with
  | [] => (report, st)
  | id :: rest =>
      match plans !! id with
      | None => apply_chunk plans rest report st
      | Some plan =>
          apply_chunk plans rest
            (mkReport (EntitiesCompacted report + 1) (VersionsTrimmed report + Z.of_nat (ep_trimmed plan)) (Watermark report))
            (CompactNodeHistory id (ep_keepVersions plan) (ep_stub plan) st)
      end
  end.

(** The report and, when something was trimmed, the new watermark. *)
Definition compactNodeChunk (obs : nat -> Z) (chunk : list Z) (policy : RetentionPolicy) (minTag : Instant)
    (clk : clockS) (st : compactState) :
    ((CompactReport * option Instant) + compactError) * clockS * compactState :=
  let (now, clk) := nowS obs clk in
  match plan_chunk st policy minTag now chunk ∅ 0 with
  | inr e => (inr e, clk, st)
  | inl (plans, maxBoundary) =>
      if bool_decide (plans = ∅) then (inl (mkReport 0 0 0, None), clk, st)
      else
        let newWatermark := if maxBoundary >? cs_watermark st then maxBoundary else cs_watermark st in
        let (report, st) := apply_chunk plans chunk (mkReport 0 0 0) (advanceCompactionWatermark newWatermark st) in
        (inl (report, Some newWatermark), clk, st)
  end.

Definition minAsOfTagInstant (tags : list Instant) : Instant :=
  fold_left (fun mn at_ => if (mn =? 0) || (at_ <? mn) then at_ else mn) tags 0.

Definition compactionChunk : nat := 256.

(** The chunks of a run one after the other; a chunk that is refused keeps what
    the chunks before it wrote. *)
Fixpoint compact_chunks (fuel : nat) (obs : nat -> Z) (ids : list Z) (policy : RetentionPolicy) (minTag : Instant)
    (report : CompactReport) (haveWatermark : bool) (clk : clockS) (st : compactState) :
    CompactReport * option compactError * clockS * compactState :=
  match fuel, ids with
  | O, _ | _, [] =>
      (if haveWatermark then report else mkReport (EntitiesCompacted report) (VersionsTrimmed report) (cs_watermark st), None, clk, st)
  | S fuel, _ =>
      match compactNodeChunk obs (take compactionChunk ids) policy minTag clk st with
      | (inr e, clk, st) => (report, Some e, clk, st)
      | (inl (r, wm), clk, st) =>
          let report := mkReport (EntitiesCompacted report + EntitiesCompacted r) (VersionsTrimmed report + VersionsTrimmed r)
                          (default (Watermark report) wm) in
          compact_chunks fuel obs (drop compactionChunk ids) policy minTag report
            (match wm with Some _ => true | None => haveWatermark end) clk st
      end
  end.

(** [CompactHistoryNodes]: [ids] are the entities with a row, ascending. *)
Definition CompactHistoryNodes (obs : nat -> Z) (policy : RetentionPolicy) (tags : list Instant) (clk : clockS) (st : compactState) :
    CompactReport * option compactError * clockS * compactState :=
  if negb (validateRetentionPolicy policy) then (mkReport 0 0 0, Some ErrInvalidRetentionPolicy, clk, st)
  else
    let ids := sort_by Z.ltb (elements (dom (cs_nodes st))) in
    compact_chunks (length ids) obs ids policy (minAsOfTagInstant tags) (mkReport 0 0 0) false clk st.

(** ** The gates *)

Definition compactionFloor (st : compactState) (id : Z) : option Instant :=
  if cs_watermark st =? 0 then None
  else match cs_stubs st !! id with Some s => Some (Z.min (cs_watermark st) (LastTrimmedTxTo s)) | None => None end.

(** [None]: the read may go on. *)
Definition checkPointCompaction (st : compactState) (id : Z) (txPin : Instant) : option compactError :=
  if txPin =? 0 then None
  else if (cs_watermark st =? 0) || (txPin >=? cs_watermark st) then None
  else match compactionFloor st id with
       | Some floor => if txPin <? floor then Some ErrHistoryCompacted else None
       | None => None
       end.

Definition checkScanCompactionAt (st : compactState) (pin : Instant) : option compactError :=
  if pin =? 0 then None
  else if cs_watermark st =? 0 then None
  else if pin <? cs_watermark st then Some ErrHistoryCompacted else None.
End Entity.
End Stub.

#[export] Instance Node_CompactRow `{Layout} {P} `{EqDecision P} : CompactRow (Node P) := { versionInfoOf := nodeVersionInfo }.

#[export] Instance Rel_CompactRow `{Layout} {P} `{EqDecision P} : CompactRow (Relationship P) := { versionInfoOf := relVersionInfo }.

#[export] Instance Node_CompactRowOK `{Layout} {P} `{EqDecision P} : CompactRowOK (Node P).
Proof. split; intros n; simpl; unfold nodeVersionInfo; by destruct (NodeIntegrityOf n). Qed.

#[export] Instance Rel_CompactRowOK `{Layout} {P} `{EqDecision P} : CompactRowOK (Relationship P).
Proof. split; intros r; simpl; unfold relVersionInfo; by destruct (RelIntegrityOf r). Qed.

(** The relationship mirrors. *)
Section RelNames.
Context `{Layout} {P : Type} `{EqDecision P}.
Local Notation Rel := (Relationship P).

Definition planRelCompaction : (bytes -> bytes) -> Z -> entity Rel -> RetentionPolicy -> Instant -> option entityPlan :=
  fun sha256 => planNodeCompaction sha256.

Definition truncateRelHistoryLocked : nat -> list Rel -> list Rel := truncateNodeHistoryLocked.

Definition CompactRelHistory : Z -> nat -> compactionStub -> compactState -> compactState := CompactNodeHistory (T := Rel).

Definition compactRelChunk : (bytes -> bytes) -> (nat -> Z) -> list Z -> RetentionPolicy -> Instant -> clockS -> compactState ->
    ((CompactReport * option Instant) + compactError) * clockS * compactState :=
  fun sha256 => compactNodeChunk sha256 (T := Rel).

Definition CompactHistoryRels : (bytes -> bytes) -> (nat -> Z) -> RetentionPolicy -> list Instant -> clockS -> compactState ->
    CompactReport * option compactError * clockS * compactState :=
  fun sha256 => CompactHistoryNodes sha256 (T := Rel).
End RelNames.

(** ** The trim count *)

Definition metas_of (hist : list versionInfo) (current : option versionInfo) : list chainEntryMeta :=
  map chain_meta hist ++ match current with Some c => [chain_meta c] | None => [] end.

(** Both bounds of the policy allow trimming row [i]. *)
Definition fails_both (policy : RetentionPolicy) (hist : list versionInfo) (i : nat) : bool :=
  negb ((KeepVersions policy >? 0) && (Z.of_nat (length hist - i) <=? KeepVersions policy)) &&
  negb ((KeepSince policy >? 0) && (vi_txFrom (nth i hist zeroVI) >=? KeepSince policy)).

Lemma trim_loop_cons policy v w rest :
  trim_loop policy (v :: w :: rest) =
  if fails_both policy (v :: w :: rest) 0 then S (trim_loop policy (w :: rest)) else 0%nat.
Proof. done. Qed.

Lemma trim_loop_spec policy hist :
  (trim_loop policy hist <= length hist - 1)%nat /\
  (forall i, (i < trim_loop policy hist)%nat -> fails_both policy hist i = true) /\
  ((trim_loop policy hist < length hist - 1)%nat -> fails_both policy hist (trim_loop policy hist) = false).
Proof.
  induction hist as [|v [|w rest] IH]; [simpl; split_and!; intros; lia..|].
  destruct IH as (IH1 & IH2 & IH3). rewrite trim_loop_cons.
  destruct (fails_both policy (v :: w :: rest) 0) eqn:E; cbn [length] in *; split_and!; try lia.
  - intros [|i] Hi; [done|]. apply (IH2 i). lia.
  - intros Hlt. apply IH3. lia.
  - intros _. exact E.
Qed.

Lemma trim_loop_drop_le policy hist t :
  (t <= trim_loop policy hist)%nat -> trim_loop policy (drop t hist) = (trim_loop policy hist - t)%nat.
Proof.
  revert t. induction hist as [|v [|w rest] IH]; intros [|t] Ht; try (simpl in *; lia || done).
  rewrite trim_loop_cons in *. destruct (fails_both _ _ 0); [|lia]. cbn [drop]. rewrite IH by lia. lia.
Qed.

(** ** The hash index and the lowest reference *)

Lemma hash_index_snoc hist v : hash_index (hist ++ [v]) = <[vi_hash v := length hist]> (hash_index hist).
Proof.
  unfold hash_index. rewrite imap_app, fold_left_app. simpl. by rewrite Nat.add_0_r.
Qed.

Lemma hash_index_Some hist h j :
  hash_index hist !! h = Some j -> exists v, hist !! j = Some v /\ vi_hash v = h.
Proof.
  induction hist as [|v hist IH] using rev_ind; [done|]. rewrite hash_index_snoc, lookup_insert_Some.
  intros [[<- <-]|[_ Hj]].
  - exists v. by rewrite list_lookup_middle.
  - destruct (IH Hj) as (w & Hw & <-). exists w. split; [by apply lookup_app_l_Some|done].
Qed.

Lemma hash_index_elem hist h : h ∈ map vi_hash hist -> is_Some (hash_index hist !! h).
Proof.
  induction hist as [|v hist IH] using rev_ind; [by intros ?%list_elem_of_In|].
  rewrite hash_index_snoc, map_app, elem_of_app, lookup_insert_is_Some'. simpl. rewrite list_elem_of_singleton.
  intros [Hh| ->]; [right; auto|by left].
Qed.

Lemma lower_ref_spec index h m :
  (lower_ref index h m <= m)%nat /\ (forall j, index !! h = Some j -> (lower_ref index h m <= j)%nat) /\
  (lower_ref index h m = m \/ index !! h = Some (lower_ref index h m)).
Proof.
  unfold lower_ref. destruct (index !! h) as [j|] eqn:E; [|naive_solver].
  destruct (Nat.ltb_spec j m); split_and!; try lia; intros; simplify_eq; auto; lia.
Qed.

Lemma min_refs_spec index lst rows k :
  (k <= length rows)%nat ->
  let m := nth k (min_refs index lst rows) 0%nat in
  (m <= lst)%nat /\ (forall v j, v ∈ drop k rows -> index !! vi_prevHash v = Some j -> (m <= j)%nat) /\
  (m = lst \/ exists v, v ∈ drop k rows /\ index !! vi_prevHash v = Some m).
Proof.
  revert k. induction rows as [|v rows IH]; intros k Hk; cbn [min_refs].
  { destruct k; [|simpl in Hk; lia]. cbn. split_and!; [lia|intros v j Hv; by apply elem_of_nil in Hv|by left]. }
  destruct k as [|k]; cbn [nth drop]; [|apply IH; simpl in Hk; lia].
  destruct (IH 0%nat ltac:(lia)) as (H1 & H2 & H3). rewrite drop_0 in *.
  assert (Hhd : hd lst (min_refs index lst rows) = nth 0 (min_refs index lst rows) 0%nat) by (destruct rows; done).
  rewrite Hhd. destruct (lower_ref_spec index (vi_prevHash v) (nth 0 (min_refs index lst rows) 0%nat)) as (L1 & L2 & L3).
  split_and!; [lia| |].
  - intros w j [->|Hw]%elem_of_cons Hj; [by apply L2|]. specialize (H2 w j Hw Hj). lia.
  - destruct L3 as [->|L3]; [|right; exists v; split; [left|done]].
    destruct H3 as [->|(w & Hw & Hj)]; [by left|right; exists w; split; [by right|done]].
Qed.

Lemma trim_search_spec hist minRef t :
  let ok k := (k <=? nth (S k) minRef 0)%nat && bool_decide (vi_prevHash (nth k hist zeroVI) = vi_hash (nth (k - 1) hist zeroVI)) in
  (trim_search hist minRef t <= t)%nat /\
  ((0 < trim_search hist minRef t)%nat -> ok (trim_search hist minRef t) = true) /\
  (forall k, (trim_search hist minRef t < k <= t)%nat -> ok k = false).
Proof.
  intros ok. induction t as [|t IH]; [simpl; split_and!; intros; lia|].
  destruct IH as (IH1 & IH2 & IH3). cbn [trim_search].
  assert (Hok : (S t <=? nth (S (S t)) minRef 0)%nat && bool_decide (vi_prevHash (nth (S t) hist zeroVI) = vi_hash (nth t hist zeroVI)) = ok (S t)).
  { unfold ok. by rewrite Nat.sub_succ, Nat.sub_0_r. }
  rewrite Hok. destruct (ok (S t)) eqn:E.
  - split_and!; [lia|done|lia].
  - split_and!; [lia|done|]. intros k Hk. destruct (decide (k = S t)) as [->|]; [done|]. apply IH3. lia.
Qed.

(** ** Linkage of the kept rows *)

(** A chain as the writers leave it: versions rise, the current row is the
    newest, the hashes are distinct. *)
Record linked_chain (hist : list versionInfo) (current : option versionInfo) : Prop := {
  lc_sorted : StronglySorted (fun x y => vi_version x < vi_version y) hist;
  lc_range : Forall (fun v => 0 <= vi_version v < 2 ^ 32) hist;
  lc_current : forall c v, current = Some c -> v ∈ hist -> vi_version v < vi_version c;
  lc_hashes : NoDup (map ce_hash (metas_of hist current));
}.

Lemma min_version_acc metas mv :
  let r := fold_left (fun mv m => if ce_version m <? mv then ce_version m else mv) metas mv in
  r <= mv /\ (forall m, m ∈ metas -> r <= ce_version m) /\ (r = mv \/ exists m, m ∈ metas /\ ce_version m = r).
Proof.
  revert mv. induction metas as [|m metas IH]; intros mv; cbn [fold_left].
  { split_and!; [lia|intros m Hm; by apply elem_of_nil in Hm|by left]. }
  destruct (IH (if ce_version m <? mv then ce_version m else mv)) as (H1 & H2 & H3). cbv zeta in *.
  destruct (Z.ltb_spec (ce_version m) mv); split_and!; try lia.
  - intros x [->|Hx]%elem_of_cons; [lia|by apply H2].
  - destruct H3 as [->|(x & Hx & <-)]; right; [exists m|exists x]; (split; [|done]); [left|by right].
  - intros x [->|Hx]%elem_of_cons; [lia|by apply H2].
  - destruct H3 as [->|(x & Hx & <-)]; [by left|]. right. exists x. split; [by right|done].
Qed.

Lemma min_version_head m metas :
  ce_version m < 2 ^ 32 -> (forall x, x ∈ metas -> ce_version m <= ce_version x) -> min_version (m :: metas) = ce_version m.
Proof.
  intros Hm Hle. destruct (min_version_acc (m :: metas) (2 ^ 32 - 1)) as (H1 & H2 & H3).
  fold (min_version (m :: metas)) in *. cbv zeta in *. specialize (H2 m ltac:(left)).
  destruct H3 as [H3|(x & [->|Hx]%elem_of_cons & H3)]; [lia|lia|]. specialize (Hle x Hx). lia.
Qed.

Lemma forallb_Forall_bool {A} (f : A -> bool) l : forallb f l = true <-> Forall (fun x => f x = true) l.
Proof. by rewrite forallb_forall, List.Forall_forall. Qed.

Lemma elem_of_metas hist current m :
  m ∈ metas_of hist current <-> (exists v, v ∈ hist /\ m = chain_meta v) \/ (exists c, current = Some c /\ m = chain_meta c).
Proof.
  unfold metas_of. rewrite elem_of_app, (list_elem_of_fmap chain_meta). destruct current as [c|]; rewrite ?list_elem_of_singleton, ?elem_of_nil; naive_solver.
Qed.

Lemma elem_of_hashes hist current h :
  h ∈ map ce_hash (metas_of hist current) <-> h ∈ map vi_hash hist \/ exists c, current = Some c /\ h = vi_hash c.
Proof.
  unfold metas_of. rewrite map_app, map_map, elem_of_app. cbn [chain_meta ce_hash].
  destruct current as [c|]; simpl; rewrite ?list_elem_of_singleton, ?elem_of_nil; naive_solver.
Qed.

(** A chain whose oldest row is [v]: every other row needs a link, the oldest
    one links to the stub. *)
Lemma verify_cons v rest current stub :
  linked_chain (v :: rest) current -> (stub = None \/ 0 < vi_version v) ->
  verifyChainLinkage (metas_of (v :: rest) current) stub = true <->
  (match stub with Some s => vi_prevHash v = LastTrimmedHash s | None => vi_version v = 0 -> vi_prevHash v = [] end) /\
  forall x, x ∈ rest \/ current = Some x -> vi_prevHash x <> [] /\ vi_prevHash x ∈ map ce_hash (metas_of (v :: rest) current).
Proof.
  intros [Hs Hr Hc Hh] Hv. inversion Hs as [|? ? Hs' Hlt]; subst. inversion Hr as [|? ? Hrv Hr']; subst.
  assert (Hmin : min_version (metas_of (v :: rest) current) = vi_version v).
  { apply (min_version_head (chain_meta v)); [simpl; lia|]. intros x Hx. cbn [chain_meta ce_version].
    destruct (proj1 (elem_of_metas rest current x) Hx) as [(w & Hw & ->)|(c & -> & ->)]; simpl.
    - rewrite Forall_forall in Hlt. specialize (Hlt w Hw). lia.
    - specialize (Hc c v eq_refl ltac:(left)). lia. }
  unfold verifyChainLinkage. rewrite Hmin, forallb_Forall_bool.
  set (hs := map ce_hash (metas_of (v :: rest) current)).
  change (metas_of (v :: rest) current) with (chain_meta v :: metas_of rest current). rewrite Forall_cons.
  assert (Hhead : link_ok hs (vi_version v) stub (chain_meta v) = true <->
    match stub with Some s => vi_prevHash v = LastTrimmedHash s | None => vi_version v = 0 -> vi_prevHash v = [] end).
  { unfold link_ok. cbn [chain_meta ce_version ce_prevHash]. rewrite Z.eqb_refl. destruct (Z.eqb_spec (vi_version v) 0), stub as [s|];
      rewrite ?bool_decide_eq_true; try done; [destruct Hv; [done|lia]|tauto]. }
  assert (Htail : forall x, x ∈ rest \/ current = Some x ->
    link_ok hs (vi_version v) stub (chain_meta x) = true <-> vi_prevHash x <> [] /\ vi_prevHash x ∈ hs).
  { intros x Hx. assert (vi_version v < vi_version x).
    { destruct Hx as [Hx| ->]; [rewrite Forall_forall in Hlt; by apply Hlt|apply (Hc x v eq_refl); left]. }
    unfold link_ok. cbn [chain_meta ce_version ce_prevHash]. destruct (Z.eqb_spec (vi_version x) 0); [lia|].
    destruct (Z.eqb_spec (vi_version x) (vi_version v)); [lia|].
    rewrite andb_true_iff, negb_true_iff, bool_decide_eq_false, bool_decide_eq_true. done. }
  rewrite Hhead, Forall_forall. apply and_iff_compat_l. split.
  - intros Hall x Hx. apply Htail; [done|]. apply Hall, elem_of_metas. naive_solver.
  - intros Hall m [(w & Hw & ->)|(c & -> & ->)]%elem_of_metas; apply Htail; auto.
Qed.

Lemma metas_drop hist current t :
  metas_of hist current = map chain_meta (take t hist) ++ metas_of (drop t hist) current.
Proof. unfold metas_of. by rewrite app_assoc, <- map_app, take_drop. Qed.

Lemma linked_drop hist current t : linked_chain hist current -> linked_chain (drop t hist) current.
Proof.
  intros [Hs Hr Hc Hh]. split.
  - rewrite <- (take_drop t hist) in Hs. by apply StronglySorted_app_inv in Hs as (_ & ? & _).
  - by apply Forall_drop.
  - intros c v Ec Hv. apply (Hc c v Ec). rewrite <- (take_drop t hist). apply elem_of_app. by right.
  - rewrite (metas_drop hist current t), map_app in Hh. by apply NoDup_app in Hh as (_ & _ & ?).
Qed.

Lemma drop_nth_cons hist t : (t < length hist)%nat -> drop t hist = nth t hist zeroVI :: drop (S t) hist.
Proof. intros Ht. apply drop_S. destruct (nth_lookup_or_length hist t zeroVI); [done|lia]. Qed.

(** Nothing kept above a trimmed row is the genesis. *)
Lemma kept_version_pos hist current t :
  linked_chain hist current -> (0 < t < length hist)%nat -> 0 < vi_version (nth t hist zeroVI).
Proof.
  intros [Hs Hr _ _] Ht. destruct hist as [|v rest]; [simpl in Ht; lia|]. destruct t as [|t]; [lia|].
  apply StronglySorted_inv in Hs as [_ Hlt]. apply Forall_inv in Hr. rewrite Forall_forall in Hlt. simpl in Ht |- *.
  specialize (Hlt (nth t rest zeroVI) ltac:(apply list_elem_of_In, nth_In; lia)). lia.
Qed.

Section Anchor.
Context (hist : list versionInfo) (current : option versionInfo).
Hypothesis Hlc : linked_chain hist current.
Hypothesis Hverified : verifyChainLinkage (metas_of hist current) None = true.
Let index := hash_index hist.
Let minRef := min_refs index (current_ref index (length hist) current) hist.

(** The rows above [t] with the current row; all of them are linked. *)
Let above (t : nat) (x : versionInfo) : Prop := x ∈ drop (S t) hist \/ current = Some x.

Lemma above_linked t x : (t < length hist)%nat -> above t x ->
  vi_prevHash x <> [] /\ vi_prevHash x ∈ map ce_hash (metas_of hist current).
Proof.
  intros Ht Hx. unfold above in Hx. destruct hist as [|v rest]; [simpl in Ht; lia|].
  apply (verify_cons v rest current None Hlc ltac:(by left)) in Hverified as [_ Hall]. apply Hall.
  destruct Hx as [Hx|Hx]; [left|by right]. simpl in Hx. rewrite <- (take_drop t rest). apply elem_of_app. by right.
Qed.

(** The links of the rows above [t] stay at or above [k]. *)
Lemma min_ref_spec t k : (t < length hist)%nat -> (k <= length hist)%nat ->
  (k <= nth (S t) minRef 0)%nat <-> forall x j, above t x -> index !! vi_prevHash x = Some j -> (k <= j)%nat.
Proof.
  intros Ht Hk. destruct (min_refs_spec index (current_ref index (length hist) current) hist (S t) Ht) as (H1 & H2 & H3).
  fold minRef in H1, H2, H3. cbv zeta in *. unfold above. split.
  - intros Hle x j [Hx|Hx] Hj; [specialize (H2 x j Hx Hj); lia|].
    unfold current_ref in H1. rewrite Hx, Hj in H1. simpl in H1. lia.
  - intros Hall. destruct H3 as [->|(x & Hx & Hj)]; [|apply (Hall x); auto].
    unfold current_ref. destruct current as [c|]; [|done].
    destruct (index !! vi_prevHash c) as [j|] eqn:Hj; [|done]. simpl. apply (Hall c); auto.
Qed.

Lemma kept_hash_iff t h : (0 < t < length hist)%nat -> h ∈ map ce_hash (metas_of hist current) ->
  h ∈ map ce_hash (metas_of (drop t hist) current) <-> forall j, index !! h = Some j -> (t <= j)%nat.
Proof.
  intros Ht Hh. pose proof (lc_hashes _ _ Hlc) as Hnd. rewrite (metas_drop hist current t), map_app in Hnd.
  apply NoDup_app in Hnd as (_ & Hdisj & _). rewrite map_map in Hdisj. cbn [chain_meta ce_hash] in Hdisj. split.
  - intros Hk j Hj. apply hash_index_Some in Hj as (v & Hv & <-). destruct (decide (t <= j)%nat); [done|].
    exfalso. apply (Hdisj (vi_hash v)); [|done]. apply (list_elem_of_fmap_2 vi_hash).
    apply list_elem_of_lookup_2 with j. by rewrite lookup_take_lt by lia.
  - intros Hall. apply elem_of_hashes in Hh as [Hh|(c & -> & ->)]; apply elem_of_hashes; [left|by right; exists c].
    destruct (hash_index_elem _ _ Hh) as [j Hj]. specialize (Hall j Hj). apply hash_index_Some in Hj as (v & Hv & <-).
    apply (list_elem_of_fmap_2 vi_hash). apply list_elem_of_lookup_2 with (j - t)%nat. rewrite lookup_drop. by replace (t + (j - t))%nat with j by lia.
Qed.

Lemma anchor_ok_iff t stub : (0 < t < length hist)%nat -> LastTrimmedHash stub = vi_hash (nth (t - 1) hist zeroVI) ->
  (t <= nth (S t) minRef 0)%nat /\ vi_prevHash (nth t hist zeroVI) = vi_hash (nth (t - 1) hist zeroVI) <->
  verifyChainLinkage (metas_of (drop t hist) current) (Some stub) = true.
Proof.
  intros Ht Hstub. pose proof (linked_drop _ _ t Hlc) as Hd. rewrite (drop_nth_cons hist t) in * by lia.
  rewrite verify_cons; [|done|right].
  2: { by eapply kept_version_pos. }
  rewrite Hstub, (and_comm (t <= _)%nat), <- (drop_nth_cons hist t) by lia. apply and_iff_compat_l.
  rewrite min_ref_spec by lia. split.
  - intros Hall x Hx. destruct (above_linked t x ltac:(lia) Hx) as [Hne Hin]. split; [done|].
    apply kept_hash_iff; [lia|done|]. intros j. by apply Hall.
  - intros Hall x j Hx. destruct (above_linked t x ltac:(lia) Hx) as [Hne Hin]. apply kept_hash_iff; [lia|done|]. by apply Hall.
Qed.
End Anchor.

(** ** The plan of an entity's trim *)

Definition stub_at (hist : list versionInfo) (t : nat) : compactionStub -> Prop :=
  fun s => LastTrimmedHash s = vi_hash (nth (t - 1) hist zeroVI).

(** What the trim count of a chain that verifies is: the largest one the policy
    allows whose kept rows still verify against the stub. *)
Lemma anchor_trim_spec hist current trim :
  linked_chain hist current -> verifyChainLinkage (metas_of hist current) None = true ->
  let t := anchorSafeTrim hist current trim in
  (t <= trim)%nat /\ (t <= length hist - 1)%nat /\
  ((0 < t)%nat -> forall stub, stub_at hist t stub -> verifyChainLinkage (metas_of (drop t hist) current) (Some stub) = true) /\
  (forall k stub, (t < k <= Nat.min trim (length hist - 1))%nat -> stub_at hist k stub ->
    verifyChainLinkage (metas_of (drop k hist) current) (Some stub) = false).
Proof.
  intros Hlc Hv. unfold anchorSafeTrim. destruct trim as [|trim]; [simpl; split_and!; intros; lia|].
  fold (metas_of hist current). rewrite Hv. cbn [negb]. cbv zeta.
  destruct (trim_search_spec hist (min_refs (hash_index hist) (current_ref (hash_index hist) (length hist) current) hist)
    (Nat.min (S trim) (length hist - 1))) as (H1 & H2 & H3). set (t := trim_search _ _ _) in *. cbv zeta in *.
  split_and!; [lia|lia| |].
  - intros Ht stub Hs. apply anchor_ok_iff; [done|done|lia|done|]. specialize (H2 Ht).
    apply andb_true_iff in H2 as [? ?%bool_decide_eq_true]. split; [by apply Nat.leb_le|done].
  - intros k stub Hk Hs. specialize (H3 k Hk). apply not_true_iff_false. intros Hver.
    apply anchor_ok_iff in Hver as [Hle Heq]; [|done|done|lia|done]. apply andb_false_iff in H3 as [H3|H3].
    + apply Nat.leb_gt in H3. lia.
    + by apply bool_decide_eq_false in H3.
Qed.

Lemma boundary_of_fst hist t : fst (fst (boundary_of hist t)) = t.
Proof. by destruct t. Qed.

Lemma planTrim_count hist policy : fst (fst (planTrim hist policy)) = trim_loop policy hist.
Proof.
  unfold planTrim. destruct (Nat.ltb_spec (length hist) 2) as [Hl|]; [|apply boundary_of_fst].
  destruct hist as [|v [|w rest]]; simpl in *; [done..|lia].
Qed.

Lemma anchor_trim_le hist current trim : (anchorSafeTrim hist current trim <= trim)%nat.
Proof.
  unfold anchorSafeTrim. destruct trim as [|trim]; [done|]. destruct (negb _); [done|].
  match goal with |- (trim_search ?h ?m ?t <= _)%nat => destruct (trim_search_spec h m t) as [? _] end. lia.
Qed.

(** A second trim of the same chain finds nothing to do. *)
Lemma anchor_trim_again hist current policy :
  let t := anchorSafeTrim hist current (trim_loop policy hist) in
  (linked_chain hist current \/ verifyChainLinkage (metas_of hist current) None = false) ->
  anchorSafeTrim (drop t hist) current (trim_loop policy (drop t hist)) = 0%nat.
Proof.
  intros t Hor. pose proof (anchor_trim_le hist current (trim_loop policy hist)) as Hle. fold t in Hle.
  rewrite trim_loop_drop_le by done.
  destruct (trim_loop policy hist - t)%nat as [|d] eqn:Ed; [done|].
  assert (Hv : verifyChainLinkage (metas_of hist current) None = true).
  { destruct (verifyChainLinkage (metas_of hist current) None) eqn:Hv; [done|]. exfalso. unfold t, anchorSafeTrim in Ed.
    destruct (trim_loop policy hist); [lia|]. fold (metas_of hist current) in Ed. rewrite Hv in Ed. simpl in Ed. lia. }
  destruct Hor as [Hlc|]; [|congruence].
  destruct (anchor_trim_spec hist current (trim_loop policy hist) Hlc Hv) as (_ & Hlen & Hver & Hmax). fold t in Hlen, Hver, Hmax.
  destruct (decide (t = 0%nat)) as [E0|Ht].
  { rewrite E0, drop_0. rewrite E0, Nat.sub_0_r in Ed. rewrite <- Ed. exact E0. }
  destruct (trim_loop_spec policy hist) as (Htl & _ & _).
  assert (Hvd : verifyChainLinkage (metas_of (drop t hist) current) None = true).
  { specialize (Hver ltac:(lia) (mkStub 0 0 (vi_hash (nth (t - 1) hist zeroVI)) 0 0 []) eq_refl).
    pose proof (linked_drop _ _ t Hlc) as Hd. rewrite (drop_nth_cons hist t) in * by lia.
    pose proof (kept_version_pos hist current t Hlc ltac:(lia)).
    apply verify_cons in Hver as [_ Hall]; [|done|by right]. apply verify_cons; [done|by left|]. split; [lia|done]. }
  destruct (anchor_trim_spec (drop t hist) current (S d) (linked_drop _ _ t Hlc) Hvd) as (Hle' & Hlen' & Hver' & _).
  set (t' := anchorSafeTrim (drop t hist) current (S d)) in *. destruct (decide (t' = 0%nat)) as [|Ht']; [done|exfalso].
  rewrite length_drop in Hlen'.
  specialize (Hver' ltac:(lia) (mkStub 0 0 (vi_hash (nth (t' - 1) (drop t hist) zeroVI)) 0 0 []) eq_refl).
  specialize (Hmax (t + t')%nat (mkStub 0 0 (vi_hash (nth (t' - 1) (drop t hist) zeroVI)) 0 0 [])).
  rewrite drop_drop in Hver'. rewrite Hmax in Hver'; [done|lia|].
  unfold stub_at. cbn [LastTrimmedHash]. rewrite !nth_lookup, lookup_drop.
  by replace (t + (t' - 1))%nat with (t + t' - 1)%nat by lia.
Qed.

(** ** Trimming the stored rows *)

Section Truncate.
Context {T : Type} `{CompactRow T}.
Implicit Types (hist : list T).

Definition by_version hist : list T := sort_by (lt_key Version) hist.

Lemma by_version_strict hist :
  NoDup (map Version hist) -> StronglySorted (fun x y => Version x < Version y) (by_version hist).
Proof.
  intros Hnd. pose proof (sort_by_ordered (lt_key Version) hist) as Ho. pose proof (sort_by_perm (lt_key Version) hist) as Hp.
  fold (by_version hist) in Ho, Hp. rewrite <- Hp in Hnd. clear Hp. induction Ho as [|x l Ho IH Hx]; [constructor|].
  cbn [map] in Hnd. apply NoDup_cons in Hnd as [Hn Hnd]. constructor; [by apply IH|]. rewrite Forall_forall in Hx |- *.
  intros y Hy. specialize (Hx y Hy). unfold lt_key in Hx. apply Z.ltb_ge in Hx. apply Z.le_neq. split; [done|].
  intros E. apply Hn. rewrite E. by apply (list_elem_of_fmap_2 Version).
Qed.

Lemma versions_sorted hist : sort_by Z.ltb (map Version hist) = map Version (by_version hist).
Proof. symmetry. apply (sort_by_map Version Z.ltb). Qed.

Lemma strict_split (l : list T) t x r :
  StronglySorted (fun x y => Version x < Version y) l -> l !! t = Some x -> r ∈ l ->
  Version r ∈ take t (map Version l) <-> Version r < Version x.
Proof.
  intros Hs Hx Hr. rewrite <- (take_drop t l), (drop_S l x t Hx) in Hs, Hr. rewrite <- fmap_take.
  apply StronglySorted_app_inv in Hs as (Hs1 & Hs2 & H12). apply StronglySorted_inv in Hs2 as [_ Hgt]. rewrite Forall_forall in Hgt.
  split.
  - intros Hin. apply list_elem_of_fmap in Hin as (y & Ey & Hy). rewrite Ey. apply H12; [done|left].
  - intros Hlt. apply elem_of_app in Hr as [Hr|[->|Hr]%elem_of_cons]; [by apply (list_elem_of_fmap_2 Version)|lia|].
    specialize (Hgt r Hr). lia.
Qed.

Lemma truncate_filter hist t x :
  NoDup (map Version hist) -> by_version hist !! t = Some x ->
  truncateNodeHistoryLocked (length hist - t) hist = List.filter (fun r => Version x <=? Version r) hist.
Proof.
  intros Hnd Hx. pose proof (lookup_lt_Some _ _ _ Hx) as Ht. unfold by_version in Ht. rewrite length_sort_by in Ht.
  unfold truncateNodeHistoryLocked. destruct (length hist - t)%nat as [|k] eqn:Ek; [lia|].
  rewrite versions_sorted, length_map. replace (length (by_version hist)) with (length hist) by (symmetry; apply length_sort_by).
  assert (Hf : forall r, r ∈ hist -> negb (bool_decide (Version r ∈ take t (map Version (by_version hist)))) = (Version x <=? Version r)).
  { intros r Hr. pose proof (strict_split (by_version hist) t x r (by_version_strict hist Hnd) Hx) as Hs.
    rewrite (bool_decide_ext _ _ (Hs (proj2 (elem_of_sort_by (lt_key Version) r hist) Hr))).
    case_bool_decide; destruct (Z.leb_spec (Version x) (Version r)); simpl; done || lia. }
  assert (Hfe : List.filter (fun r => negb (bool_decide (Version r ∈ take t (map Version (by_version hist))))) hist =
    List.filter (fun r => Version x <=? Version r) hist).
  { apply List.filter_ext_in. intros r Hr. apply Hf. by apply list_elem_of_In. }
  destruct (Nat.leb_spec (length hist) (S k)).
  - rewrite <- Hfe. replace t with 0%nat by lia. symmetry. apply forallb_filter_id, forallb_forall. intros r _.
    rewrite take_0. by rewrite bool_decide_eq_false_2 by (by intros ?%elem_of_nil).
  - rewrite <- Hfe. by replace (length hist - S k)%nat with t by lia.
Qed.

Lemma truncate_by_version hist t x :
  NoDup (map Version hist) -> by_version hist !! t = Some x ->
  by_version (truncateNodeHistoryLocked (length hist - t) hist) = drop t (by_version hist).
Proof.
  intros Hnd Hx. rewrite (truncate_filter hist t x) by done. unfold by_version at 1.
  rewrite <- (sort_by_Lfilter (lt_key Version)). fold (by_version hist).
  pose proof (by_version_strict hist Hnd) as Hs. rewrite <- (take_drop t (by_version hist)) at 1. rewrite List.filter_app.
  rewrite <- (take_drop t (by_version hist)), (drop_S _ x t Hx) in Hs. apply StronglySorted_app_inv in Hs as (_ & Hs2 & H12).
  apply StronglySorted_inv in Hs2 as [_ Hgt]. rewrite Forall_forall in Hgt.
  rewrite (Lfilter_none _ (take t _)), app_nil_l.
  - apply forallb_filter_id, forallb_forall. intros r Hr%list_elem_of_In. rewrite (drop_S _ x t Hx) in Hr.
    apply elem_of_cons in Hr as [->|Hr]; [lia|]. specialize (Hgt r Hr). lia.
  - intros r Hr. specialize (H12 r x Hr ltac:(left)). lia.
Qed.

Lemma infos_by_version hist `{!CompactRowOK T} :
  sort_infos (map versionInfoOf hist) = map versionInfoOf (by_version hist).
Proof.
  unfold sort_infos, by_version. rewrite <- (sort_by_map versionInfoOf (lt_key vi_version)). f_equal. apply sort_by_ext.
  intros x y _ _. unfold lt_key. by rewrite !info_version.
Qed.
End Truncate.

(** ** One entity *)

Section EntityPlan.
Context (sha256 : bytes -> bytes) {T : Type} `{CompactRowOK T}.
Implicit Types (e : entity T) (hist : list T).

Definition infos_of e : list versionInfo := map versionInfoOf (by_version (ent_history e)).
Definition current_of e : option versionInfo := versionInfoOf <$> ent_current e.

(** The entity after the store's trim. *)
Definition compacted (keepVersions : nat) e : entity T :=
  mkEntity T (truncateNodeHistoryLocked keepVersions (ent_history e)) (ent_current e).

Definition trim_of e policy : nat := anchorSafeTrim (infos_of e) (current_of e) (trim_loop policy (infos_of e)).

Lemma length_infos e : length (infos_of e) = length (ent_history e).
Proof. unfold infos_of, by_version. by rewrite length_map, length_sort_by. Qed.

Lemma nth_infos e t x : by_version (ent_history e) !! t = Some x -> nth t (infos_of e) zeroVI = versionInfoOf x.
Proof. intros Hx. apply nth_lookup_Some. unfold infos_of. rewrite list_lookup_fmap. by rewrite Hx. Qed.

Lemma trim_of_lt e policy : (trim_of e policy <= length (ent_history e) - 1)%nat.
Proof.
  pose proof (anchor_trim_le (infos_of e) (current_of e) (trim_loop policy (infos_of e))) as Hle.
  destruct (trim_loop_spec policy (infos_of e)) as [Hl _]. rewrite length_infos in Hl. unfold trim_of. lia.
Qed.

Lemma plan_eq id e policy now :
  planNodeCompaction sha256 id e policy now =
  match trim_of e policy with
  | O => None
  | S t => Some (mkEP (length (ent_history e) - S t) (S t)
      (sealed sha256 (mkStub id (vi_version (nth t (infos_of e) zeroVI)) (vi_hash (nth t (infos_of e) zeroVI))
        (vi_txFrom (nth (S t) (infos_of e) zeroVI)) now [])))
  end.
Proof.
  unfold planNodeCompaction, planAnchorSafeTrim. rewrite planTrim_count, (infos_by_version (ent_history e)).
  fold (infos_of e) (current_of e).
  fold (trim_of e policy). destruct (trim_of e policy) as [|t]; [done|]. simpl. by rewrite length_infos.
Qed.

Record planned id e policy now (p : entityPlan) (t : nat) (b x : T) : Prop := {
  pl_trim : t = trim_of e policy;
  pl_pos : (0 < t < length (ent_history e))%nat;
  pl_boundary : by_version (ent_history e) !! (t - 1)%nat = Some b;
  pl_oldest : by_version (ent_history e) !! t = Some x;
  pl_plan : p = mkEP (length (ent_history e) - t) t
    (sealed sha256 (mkStub id (Version b) (vi_hash (versionInfoOf b)) (vi_txFrom (versionInfoOf x)) now []));
}.

Lemma plan_planned id e policy now p :
  planNodeCompaction sha256 id e policy now = Some p -> exists t b x, planned id e policy now p t b x.
Proof.
  rewrite plan_eq. pose proof (trim_of_lt e policy) as Hl. destruct (trim_of e policy) as [|t] eqn:Et; [done|]. intros [= <-].
  assert (Hlen : length (by_version (ent_history e)) = length (ent_history e)) by apply length_sort_by.
  destruct (lookup_lt_is_Some_2 (by_version (ent_history e)) t) as [b Hb]; [lia|].
  destruct (lookup_lt_is_Some_2 (by_version (ent_history e)) (S t)) as [x Hx]; [lia|].
  exists (S t), b, x. split; [done|lia|by rewrite Nat.sub_succ, Nat.sub_0_r|done|].
  by rewrite (nth_infos e t b), (nth_infos e (S t) x), info_version.
Qed.

Lemma infos_compacted e t x :
  NoDup (map Version (ent_history e)) -> by_version (ent_history e) !! t = Some x ->
  infos_of (compacted (length (ent_history e) - t) e) = drop t (infos_of e).
Proof. intros Hnd Hx. unfold infos_of. simpl. by rewrite (truncate_by_version _ t x), fmap_drop. Qed.

Lemma replan_nothing e policy t x :
  NoDup (map Version (ent_history e)) -> by_version (ent_history e) !! t = Some x -> t = trim_of e policy ->
  linked_chain (infos_of e) (current_of e) \/ verifyChainLinkage (metas_of (infos_of e) (current_of e)) None = false ->
  trim_of (compacted (length (ent_history e) - t) e) policy = 0%nat.
Proof.
  intros Hnd Hx Ht Hor. unfold trim_of at 1. rewrite (infos_compacted e t x) by done. rewrite Ht. by apply anchor_trim_again.
Qed.
End EntityPlan.

(** ** As-of answers on the kept rows *)

Section AsOfKept.
Context {T : Type} `{EntityRow T}.
Implicit Types (l D : list T).

Lemma open_run_stop a tx pin l D :
  (forall d tm, d ∈ D -> TemporalByValue d = Some tm -> TxFrom tm <> tx) ->
  open_run a tx pin (l ++ D) = open_run a tx pin l.
Proof.
  intros HD. induction l as [|r l IH]; simpl.
  - destruct D as [|d D]; [done|]. simpl. destruct (TemporalByValue d) as [tm|] eqn:E; [|done].
    specialize (HD d tm ltac:(left) E). by destruct (Z.eqb_spec (TxFrom tm) tx).
  - by rewrite IH.
Qed.

Lemma open_run_through a tx pin l D x tmx :
  x ∈ l -> TemporalByValue x = Some tmx ->
  (forall d tm, d ∈ D -> TemporalByValue d = Some tm -> TxFrom tm <> TxFrom tmx) ->
  open_run a tx pin (l ++ D) = open_run a tx pin l.
Proof.
  intros Hx Ex HD. induction l as [|r l IH]; [by apply elem_of_nil in Hx|]. cbn [app open_run].
  apply elem_of_cons in Hx as [<-|Hx]; [|by rewrite IH].
  rewrite Ex. destruct (Z.eqb_spec (TxFrom tmx) tx) as [<-|]; [|done]. by rewrite open_run_stop.
Qed.

Lemma lifeEnded_kept newest pin l D :
  (forall d tm, d ∈ D -> TemporalByValue d = Some tm -> DeletedAt tm = 0) ->
  lifeEnded_below newest pin (l ++ D) = lifeEnded_below newest pin l.
Proof.
  intros HD. induction l as [|r l IH]; simpl; [|by rewrite IH].
  induction D as [|d D IHD]; [done|]. simpl. destruct (TemporalByValue d) as [tm|] eqn:E.
  - rewrite (HD d tm ltac:(left) E). destruct (_ || _); [|done]. apply IHD. intros d' tm' Hd'. apply HD. by right.
  - apply IHD. intros d' tm' Hd'. apply HD. by right.
Qed.

Lemma asof_history_kept a pin l D x tmx :
  x ∈ l -> TemporalByValue x = Some tmx -> 0 < TxFrom tmx <= pin ->
  (forall d tm, d ∈ D -> TemporalByValue d = Some tm -> TxFrom tm < TxFrom tmx /\ DeletedAt tm = 0) ->
  asof_history a pin (l ++ D) = asof_history a pin l.
Proof.
  intros Hx Ex Hp HD. induction l as [|r l IH]; [by apply elem_of_nil in Hx|]. cbn [app asof_history].
  destruct (match TemporalByValue r with Some tm => _ | None => _ end) eqn:Eskip.
  - apply IH. apply elem_of_cons in Hx as [<-|Hx]; [|done]. rewrite Ex in Eskip. lia.
  - unfold lifeEndedAtTxTime. rewrite lifeEnded_kept by (intros d tm Hd Ed; by apply (HD d tm Hd Ed)).
    unfold openInWrite. rewrite (app_comm_cons l D r), (open_run_through a _ pin (r :: l) D x tmx Hx Ex); [done|].
    intros d tm Hd Ed. destruct (HD d tm Hd Ed). lia.
Qed.

Lemma Lfilter_comm {A} (f g : A -> bool) (l : list A) : List.filter f (List.filter g l) = List.filter g (List.filter f l).
Proof.
  induction l as [|x l IH]; [done|]. cbn [List.filter]. destruct (f x) eqn:Ef, (g x) eqn:Eg; cbn [List.filter]; rewrite ?Ef, ?Eg, ?IH; done.
Qed.

(** A list in falling order of a key, cut at a key. *)
Lemma desc_split (l : list T) v0 :
  ordered_by (fun x y => Version y <? Version x) l ->
  l = List.filter (fun r => v0 <=? Version r) l ++ List.filter (fun r => Version r <? v0) l.
Proof.
  induction 1 as [|r l Hs IH Hr]; [done|]. cbn [List.filter]. rewrite Forall_forall in Hr.
  destruct (Z.leb_spec v0 (Version r)), (Z.ltb_spec (Version r) v0); try lia; cbn [app]; [by rewrite <- IH|].
  assert (E : List.filter (fun r => v0 <=? Version r) l = []) by (apply Lfilter_none; intros y Hy; specialize (Hr y Hy); lia).
  rewrite E in *. cbn [app] in *. by rewrite <- IH.
Qed.

#[export] Instance desc_sw : StrictWeak (fun x y : T => Version y <? Version x).
Proof. split; intros; lia. Qed.

Lemma asof_kept a hist (current : option T) pin x tmx :
  x ∈ hist -> TemporalByValue x = Some tmx -> Void tmx = false -> 0 < TxFrom tmx <= pin ->
  (forall d, d ∈ hist -> Version d < Version x ->
    (forall tm, TemporalByValue d = Some tm -> TxFrom tm < TxFrom tmx /\ DeletedAt tm = 0) /\
    (forall c, current = Some c -> Version d < Version c)) ->
  SelectAsOfWithCurrent a (List.filter (fun r => Version x <=? Version r) hist) current pin =
  SelectAsOfWithCurrent a hist current pin.
Proof.
  intros Hx Ex Hv Hp HD. pose proof (sort_by_ordered (fun x y : T => Version y <? Version x)
    (List.filter (fun h => negb (IsVoid (TemporalByValue h))) hist)) as Ho.
  fold (asof_desc hist) in Ho. set (keep := fun r => Version x <=? Version r).
  assert (Hk : asof_desc (List.filter keep hist) = List.filter keep (asof_desc hist)).
  { unfold asof_desc. rewrite sort_by_Lfilter by apply _. f_equal. apply Lfilter_comm. }
  assert (HxD : x ∈ List.filter keep (asof_desc hist)).
  { apply elem_of_Lfilter. rewrite elem_of_asof_desc. unfold keep. rewrite Ex. simpl. rewrite Hv. split; [done|lia]. }
  set (D := List.filter (fun r => Version r <? Version x) (asof_desc hist)).
  assert (HD' : forall d, d ∈ D -> d ∈ hist /\ Version d < Version x).
  { intros d [[Hd _]%elem_of_asof_desc Hlt]%elem_of_Lfilter. split; [done|lia]. }
  assert (Hhist : asof_history a pin (asof_desc (List.filter keep hist)) = asof_history a pin (asof_desc hist)).
  { rewrite Hk. pose proof (desc_split (asof_desc hist) (Version x) Ho) as Hsp. fold keep D in Hsp. rewrite Hsp at 2. symmetry.
    apply (asof_history_kept a pin _ D x tmx); [done..|]. intros d tm Hd Ed. destruct (HD' d Hd) as [Hd1 Hd2].
    by apply (HD d Hd1 Hd2). }
  unfold SelectAsOfWithCurrent. rewrite Hhist. destruct current as [c|]; [|done].
  destruct (TemporalByValue c) as [ctm|]; [|done]. destruct (_ && _); [|done]. rewrite Hk, Lfilter_comm.
  assert (Habove : List.filter keep (List.filter (fun h => Version h >? Version c) (asof_desc hist)) =
    List.filter (fun h => Version h >? Version c) (asof_desc hist)).
  { apply forallb_filter_id, forallb_forall. intros r [[Hr _]%elem_of_asof_desc Hgt]%list_elem_of_In%elem_of_Lfilter.
    unfold keep. destruct (Z.leb_spec (Version x) (Version r)) as [|Hlt]; [done|]. destruct (HD r Hr Hlt) as [_ Hc].
    specialize (Hc c eq_refl). lia. }
  by rewrite Habove.
Qed.
End AsOfKept.

(** ** A chunk and a run *)

Section Run.
Context (sha256 : bytes -> bytes) {T : Type} `{CompactRowOK T}.
Implicit Types (st : compactState (T := T)) (plans : gmap Z entityPlan).

(** A plan in force: made for an entity of the state, its boundary within the
    watermark and at or below the lowest protected tag. *)
Record plan_in_force st policy minTag now id p : Prop := {
  pf_plan : planNodeCompaction sha256 id (entity_of st id) policy now = Some p;
  pf_tag : minTag <> 0 -> LastTrimmedTxTo (ep_stub p) <= minTag;
}.

Lemma plan_chunk_spec st policy minTag now chunk plans mb plans' mb' :
  plan_chunk sha256 st policy minTag now chunk plans mb = inl (plans', mb') ->
  mb <= mb' /\ (minTag <> 0 -> mb' <= Z.max mb minTag) /\
  forall id p, plans' !! id = Some p ->
    plans !! id = Some p \/ (id ∈ chunk /\ plan_in_force st policy minTag now id p /\ LastTrimmedTxTo (ep_stub p) <= mb').
Proof.
  revert plans mb. induction chunk as [|i chunk IH]; intros plans mb; cbn [plan_chunk].
  { intros [= <- <-]. split_and!; [lia|lia|by left]. }
  destruct (planNodeCompaction sha256 i (entity_of st i) policy now) as [p|] eqn:Ep.
  - destruct (negb _ && _) eqn:Et; [done|]. intros Hp. apply IH in Hp as (H1 & H2 & H3).
    assert (Htag : minTag <> 0 -> LastTrimmedTxTo (ep_stub p) <= minTag) by lia.
    assert (Hb : LastTrimmedTxTo (ep_stub p) <= mb') by (destruct (Z.gtb_spec (LastTrimmedTxTo (ep_stub p)) mb); lia).
    split_and!; [destruct (Z.gtb_spec (LastTrimmedTxTo (ep_stub p)) mb); lia..|].
    intros id q Hq. destruct (H3 id q Hq) as [[[-> ->]|[_ Hin]]%lookup_insert_Some|(Hin & Hf & Hl)].
    + right. split_and!; [left|by split|done].
    + by left.
    + right. split_and!; [by right|done|done].
  - intros Hp. destruct (IH _ _ Hp) as (H1 & H2 & H3). split_and!; [done|done|].
    intros id q Hq. destruct (H3 id q Hq) as [|(? & ? & ?)]; [by left|right; split_and!; [by right|done|done]].
Qed.

Lemma apply_chunk_spec plans chunk report st report' st' :
  NoDup chunk -> apply_chunk plans chunk report st = (report', st') ->
  cs_watermark st' = cs_watermark st /\
  forall id, match (if bool_decide (id ∈ chunk) then plans !! id else None) with
             | Some p => cs_stubs st' !! id = Some (ep_stub p) /\ cs_nodes st' !! id = compacted (ep_keepVersions p) <$> cs_nodes st !! id
             | None => cs_stubs st' !! id = cs_stubs st !! id /\ cs_nodes st' !! id = cs_nodes st !! id
             end.
Proof.
  intros Hnd. revert report st. induction Hnd as [|i chunk Hi Hnd IH]; intros report st; cbn [apply_chunk].
  { intros [= <- <-]. done. }
  destruct (plans !! i) as [p|] eqn:Ep; intros (Hw & Hall)%IH; (split; [done|]); intros id; specialize (Hall id).
  - destruct (decide (id = i)) as [->|Hne].
    + rewrite bool_decide_eq_false_2 in Hall by done. rewrite bool_decide_eq_true_2 by left. rewrite Ep.
      destruct Hall as [-> ->]. simpl. rewrite lookup_insert_eq, lookup_alter_eq. done.
    + rewrite (bool_decide_ext (id ∈ i :: chunk) (id ∈ chunk)) by set_solver.
      destruct (if bool_decide (id ∈ chunk) then plans !! id else None); simpl in Hall;
        rewrite ?lookup_insert_ne, ?lookup_alter_ne in Hall by done; done.
  - destruct (decide (id = i)) as [->|Hne].
    + rewrite bool_decide_eq_false_2 in Hall by done. rewrite bool_decide_eq_true_2 by left. by rewrite Ep.
    + by rewrite (bool_decide_ext (id ∈ i :: chunk) (id ∈ chunk)) by set_solver.
Qed.

(** What a chunk or a run does to one entity: nothing, or the trim of a plan
    made for the entity as it was, the stub left in its place. *)
Definition entity_effect policy minTag st st' id : Prop :=
  (cs_nodes st' !! id = cs_nodes st !! id /\ cs_stubs st' !! id = cs_stubs st !! id) \/
  exists now p e, cs_nodes st !! id = Some e /\ planNodeCompaction sha256 id e policy now = Some p /\
    (minTag <> 0 -> LastTrimmedTxTo (ep_stub p) <= minTag) /\ LastTrimmedTxTo (ep_stub p) <= cs_watermark st' /\
    cs_nodes st' !! id = Some (compacted (ep_keepVersions p) e) /\ cs_stubs st' !! id = Some (ep_stub p).

Record run_effect policy minTag (ids : list Z) st st' : Prop := {
  re_watermark : cs_watermark st <= cs_watermark st';
  re_tag : minTag <> 0 -> cs_watermark st' <= Z.max (cs_watermark st) (Z.max 0 minTag);
  re_outside : forall id, id ∉ ids -> cs_nodes st' !! id = cs_nodes st !! id /\ cs_stubs st' !! id = cs_stubs st !! id;
  re_effect : forall id, entity_effect policy minTag st st' id;
}.

Lemma run_effect_refl policy minTag ids st : run_effect policy minTag ids st st.
Proof. split; [lia|lia|done|]. intros id. by left. Qed.

Lemma run_effect_trans policy minTag ids1 ids2 st1 st2 st3 :
  (forall id, id ∈ ids1 -> id ∉ ids2) -> run_effect policy minTag ids1 st1 st2 -> run_effect policy minTag ids2 st2 st3 ->
  run_effect policy minTag (ids1 ++ ids2) st1 st3.
Proof.
  intros Hdisj [W1 G1 O1 E1] [W2 G2 O2 E2]. split; [lia|lia| |].
  - intros id [Hn1 Hn2]%not_elem_of_app. destruct (O1 id Hn1) as [<- <-]. by apply O2.
  - intros id. destruct (decide (id ∈ ids1)) as [Hin|Hout].
    + destruct (O2 id (Hdisj id Hin)) as [En Es]. unfold entity_effect in *. rewrite En, Es.
      destruct (E1 id) as [|(now & p & e & H1 & H2 & H3 & H4 & H5 & H6)]; [by left|right].
      exists now, p, e. split_and!; [done..|lia|done|done].
    + destruct (O1 id Hout) as [En Es]. specialize (E2 id). unfold entity_effect in *. by rewrite En, Es in E2.
Qed.

Lemma entity_plan_some st id policy now p :
  planNodeCompaction sha256 id (entity_of st id) policy now = Some p -> exists e, cs_nodes st !! id = Some e /\ entity_of st id = e.
Proof.
  unfold entity_of. destruct (cs_nodes st !! id) as [e|]; [by exists e|]. intros Hp. exfalso.
  revert Hp. rewrite (plan_eq sha256 id _ policy now). pose proof (trim_of_lt (mkEntity T [] None) policy) as Hl. simpl in *.
  by destruct (trim_of _ _); [|lia].
Qed.

Lemma compactNodeChunk_effect obs chunk policy minTag clk st res clk' st' :
  NoDup chunk -> compactNodeChunk sha256 obs chunk policy minTag clk st = (res, clk', st') ->
  run_effect policy minTag chunk st st'.
Proof.
  intros Hnd. unfold compactNodeChunk. destruct (nowS obs clk) as [now clk1].
  destruct (plan_chunk sha256 st policy minTag now chunk ∅ 0) as [[plans mb]|err] eqn:Ep;
    [|intros [= <- <- <-]; apply run_effect_refl].
  case_bool_decide; [intros [= <- <- <-]; apply run_effect_refl|].
  apply plan_chunk_spec in Ep as (Hmb & Htag & Hplans).
  set (st1 := advanceCompactionWatermark _ st). destruct (apply_chunk plans chunk _ st1) as [report st2] eqn:Ea.
  intros [= <- <- <-]. apply apply_chunk_spec in Ea as [Hw Hall]; [|done].
  assert (Hst1 : cs_nodes st1 = cs_nodes st /\ cs_stubs st1 = cs_stubs st /\ cs_watermark st1 = Z.max mb (cs_watermark st)).
  { unfold st1, advanceCompactionWatermark. destruct (Z.gtb_spec mb (cs_watermark st)).
    - destruct (Z.leb_spec mb (cs_watermark st)); [lia|]. simpl. split_and!; [done..|lia].
    - destruct (Z.leb_spec (cs_watermark st) (cs_watermark st)); [|lia]. split_and!; [done..|lia]. }
  destruct Hst1 as (Hn1 & Hs1 & Hw1). rewrite Hw1 in Hw. rewrite Hn1, Hs1 in Hall.
  split; [lia|lia| |].
  - intros id Hid. specialize (Hall id). rewrite bool_decide_eq_false_2 in Hall by done. naive_solver.
  - intros id. specialize (Hall id). destruct (if bool_decide (id ∈ chunk) then plans !! id else None) as [p|] eqn:Eid.
    + case_bool_decide; [|done]. destruct (Hplans id p Eid) as [|(Hin & [Hf1 Hf2] & Hl)]; [by rewrite lookup_empty in *|].
      destruct (entity_plan_some _ _ _ _ _ Hf1) as (e & He & Ee). rewrite Ee in Hf1. rewrite He in Hall.
      right. exists now, p, e. destruct Hall as [-> ->]. split_and!; [done..|lia|done|done].
    + left. naive_solver.
Qed.

Lemma compact_chunks_effect fuel obs ids policy minTag report hw clk st report' err clk' st' :
  NoDup ids -> compact_chunks sha256 fuel obs ids policy minTag report hw clk st = (report', err, clk', st') ->
  run_effect policy minTag ids st st'.
Proof.
  revert ids report hw clk st. induction fuel as [|fuel IH]; intros ids report hw clk st Hnd; cbn [compact_chunks].
  { intros [= <- <- <- <-]. apply run_effect_refl. }
  destruct ids as [|i ids']; [intros [= <- <- <- <-]; apply run_effect_refl|]. set (ids := i :: ids') in *.
  destruct (compactNodeChunk sha256 obs (take compactionChunk ids) policy minTag clk st) as [[res clk1] st1] eqn:Ec.
  rewrite <- (take_drop compactionChunk ids) in Hnd. apply NoDup_app in Hnd as (Hnd1 & Hdisj & Hnd2).
  apply compactNodeChunk_effect in Ec; [|done]. destruct res as [[r wm]|e].
  - intros Hr. apply IH in Hr; [|done]. rewrite <- (take_drop compactionChunk ids). by eapply run_effect_trans.
  - intros [= <- <- <- <-]. rewrite <- (take_drop compactionChunk ids).
    eapply run_effect_trans; [exact Hdisj|exact Ec|apply run_effect_refl].
Qed.

Lemma CompactHistoryNodes_effect obs policy tags clk st report err clk' st' :
  CompactHistoryNodes sha256 obs policy tags clk st = (report, err, clk', st') ->
  run_effect policy (minAsOfTagInstant tags) (sort_by Z.ltb (elements (dom (cs_nodes st)))) st st'.
Proof.
  unfold CompactHistoryNodes. destruct (negb _); [intros [= <- <- <- <-]; apply run_effect_refl|].
  apply compact_chunks_effect. rewrite (sort_by_perm Z.ltb). apply NoDup_elements.
Qed.
End Run.
