(* ===== verification/CompactionReads.v ===== *)
(** * What compaction keeps (core/compaction.go)

    The theorems about a compaction run: the kept chain verifies against the
    stub, a second run finds nothing to do, pins above the boundary and the
    protected tags stay answerable, and as-of reads at answerable pins are
    unchanged.  Two runs of the model show what it does not keep: valid-time
    answers from trimmed rows, and the tombstone of an entity whose newest
    history row is not the deleted one. *)

From stdpp Require Import gmap.
From S2P Require Import Prelude Bytes ValidTime Props Rows AsOf Clock TxWrites Chain Supersession Resolver Effective Funnel Pinned.
From S2P Require Import Cascade CascadeReads Compaction.

Section Entity.
Context {T : Type} `{CompactRowOK T}.
Implicit Types (e : entity T).

Lemma linked_versions e : linked_chain (infos_of e) (current_of e) -> NoDup (map Version (ent_history e)).
Proof.
  intros [Hs _ _ _]. rewrite <- (sort_by_perm (lt_key Version) (ent_history e)). fold (by_version (ent_history e)).
  unfold infos_of in Hs. induction (by_version (ent_history e)) as [|x l IH]; cbn [map] in *; constructor.
  - intros Hin. apply list_elem_of_fmap in Hin as (y & Ey & Hy). apply StronglySorted_inv in Hs as [_ Hlt].
    rewrite Forall_forall in Hlt. specialize (Hlt (versionInfoOf y) (list_elem_of_fmap_2 _ _ _ Hy)). rewrite !info_version in Hlt. lia.
  - apply IH. by apply StronglySorted_inv in Hs as [? _].
Qed.

(** The rows a trim of the policy's size leaves behind can answer as-of reads
    on their own: the oldest one kept was recorded after every trimmed row, is
    no void piece, and no trimmed row is a tombstone or lies above the current
    row. *)
Record asof_ready e policy : Prop := {
  ar_wf : Forall row_wf (ent_history e);
  ar_versions : NoDup (map Version (ent_history e));
  ar_oldest : forall x, by_version (ent_history e) !! trim_of e policy = Some x ->
    exists tm, Temporal x = Some tm /\ Void tm = false /\ 0 < TxFrom tm /\
      forall d, d ∈ ent_history e -> Version d < Version x ->
        (forall tmd, Temporal d = Some tmd -> TxFrom tmd < TxFrom tm /\ DeletedAt tmd = 0) /\
        (forall c, ent_current e = Some c -> Version d < Version c);
}.

Lemma asof_trimmed `{!EntityRowOK T} e policy t x a pin :
  asof_ready e policy -> t = trim_of e policy -> by_version (ent_history e) !! t = Some x ->
  vi_txFrom (versionInfoOf x) <= pin ->
  let e' := compacted (length (ent_history e) - t) e in
  SelectAsOfWithCurrent a (ent_history e') (ent_current e') pin = SelectAsOfWithCurrent a (ent_history e) (ent_current e) pin.
Proof.
  intros [Hwf Hnd Hold] -> Hx Hpin e'. destruct (Hold x Hx) as (tm & Htm & Hv & Htx & HD).
  rewrite info_txFrom, Htm in Hpin. rewrite Forall_forall in Hwf.
  assert (Hin : x ∈ ent_history e) by (apply (elem_of_sort_by (lt_key Version)); by eapply list_elem_of_lookup_2).
  unfold e', compacted. cbn [ent_history ent_current]. rewrite (truncate_filter _ _ x) by done.
  apply (asof_kept a (ent_history e) (ent_current e) pin x tm); [done|by rewrite by_value by auto|done|lia|].
  intros d Hd Hlt. destruct (HD d Hd Hlt) as [H1 H2]. split; [|done]. intros tmd Etd. rewrite by_value in Etd by auto. by apply H1.
Qed.
End Entity.

(** Every stub lies within the graph's watermark. *)
Definition watermark_covers {T} `{EntityRow T} (st : compactState (T := T)) : Prop :=
  0 <= cs_watermark st /\ forall id s, cs_stubs st !! id = Some s -> LastTrimmedTxTo s <= cs_watermark st.

Section Gates.
Context {T : Type} `{EntityRow T}.
Implicit Types (st : compactState (T := T)).

(** What the point gate lets through. *)
Lemma point_gate st id pin s :
  watermark_covers st -> pin <> 0 -> cs_stubs st !! id = Some s -> 0 < cs_watermark st \/ 0 < pin ->
  checkPointCompaction st id pin = None <-> cs_watermark st = 0 \/ LastTrimmedTxTo s <= pin.
Proof.
  intros [H0 Hc] Hp Hs Hpos. specialize (Hc id s Hs). unfold checkPointCompaction, compactionFloor. rewrite Hs.
  destruct (Z.eqb_spec pin 0); [done|]. destruct (Z.eqb_spec (cs_watermark st) 0) as [E|]; [simpl; tauto|]. simpl.
  destruct (Z.geb_spec pin (cs_watermark st)); [split; [right; lia|done]|].
  destruct (Z.ltb_spec pin (Z.min (cs_watermark st) (LastTrimmedTxTo s))); split; try done; [intros [?|?]; lia|right; lia].
Qed.

Lemma point_gate_free st id pin : cs_stubs st !! id = None -> checkPointCompaction st id pin = None.
Proof.
  intros Hs. unfold checkPointCompaction, compactionFloor. rewrite Hs. destruct (pin =? 0); [done|].
  destruct (_ || _); [done|]. by destruct (cs_watermark st =? 0).
Qed.
End Gates.

Lemma run_covers sha256 {T} `{CompactRow T} policy minTag ids (st st' : compactState (T := T)) :
  run_effect sha256 policy minTag ids st st' -> watermark_covers st -> watermark_covers st'.
Proof.
  intros [Hw _ _ Heff] [Hw0 Hs]. split; [lia|]. intros id s Hid.
  destruct (Heff id) as [[_ E]|(now & p & e & _ & _ & _ & Hl & _ & E)]; rewrite E in Hid.
  - specialize (Hs id s Hid). lia.
  - by simplify_eq.
Qed.

Lemma minTag_le tags tag : Forall (fun t => 0 < t) tags -> tag ∈ tags -> 0 < minAsOfTagInstant tags <= tag.
Proof.
  intros Hpos Hin. unfold minAsOfTagInstant.
  assert (Hgen : forall l mn, Forall (fun t => 0 < t) l -> 0 <= mn ->
    let r := fold_left (fun mn at_ => if (mn =? 0) || (at_ <? mn) then at_ else mn) l mn in
    0 <= r /\ (0 < mn -> 0 < r <= mn) /\ forall t, t ∈ l -> 0 < r <= t).
  { clear. induction l as [|t l IH]; intros mn Hp Hmn; cbn [fold_left].
    { split_and!; [done|lia|]. intros t Ht. by apply elem_of_nil in Ht. }
    inversion Hp as [|? ? Ht Hp']; subst.
    destruct (IH (if (mn =? 0) || (t <? mn) then t else mn) Hp') as (H1 & H2 & H3);
      [destruct (_ || _); lia|]. cbv zeta in *. destruct (Z.eqb_spec mn 0), (Z.ltb_spec t mn); simpl in *; split_and!; try lia;
      intros t' [->|Ht']%elem_of_cons; try (by apply H3); lia. }
  by apply (Hgen tags 0 Hpos ltac:(lia)).
Qed.

(** A compaction run keeps the graph's watermark above every stub, and no
    read pinned at a protected as-of tag is lost to it: a tag the point gate of
    an entity or the scan gate let through before the run passes after it,
    whether the run finished or was refused half-way. *)
Theorem compaction_keeps_tags sha256 {T} `{CompactRowOK T} obs policy tags clk (st st' : compactState (T := T)) report err clk' :
  CompactHistoryNodes sha256 obs policy tags clk st = (report, err, clk', st') -> watermark_covers st ->
  watermark_covers st' /\ cs_watermark st <= cs_watermark st' /\
  (Forall (fun t => 0 < t) tags -> forall tag, tag ∈ tags ->
    (forall id, checkPointCompaction st id tag = None -> checkPointCompaction st' id tag = None) /\
    (checkScanCompactionAt st tag = None -> checkScanCompactionAt st' tag = None)).
Proof.
  intros Hrun Hc. pose proof (CompactHistoryNodes_effect _ _ _ _ _ _ _ _ _ _ Hrun) as Heffect.
  pose proof (run_covers _ _ _ _ _ _ Heffect Hc) as Hc'. destruct Heffect as [Hw Htag _ Heff], (Hc) as [Hw0 Hs].
  split_and!; [done|done|]. intros Hpos tag Hin. destruct (minTag_le tags tag Hpos Hin) as [Hm Hle]. split.
  - intros id Hok. destruct (cs_stubs st' !! id) as [s'|] eqn:E'; [|by apply point_gate_free].
    apply (point_gate st' id tag s'); [done|lia|done|lia|]. right.
    destruct (Heff id) as [[_ E]|(now & p & e & _ & _ & Ht & _ & _ & E)]; rewrite E' in E.
    + symmetry in E. apply (point_gate st id tag s') in Hok; [|done|lia|done|lia]. specialize (Hs id s' E). lia.
    + simplify_eq. specialize (Ht ltac:(lia)). lia.
  - unfold checkScanCompactionAt. destruct (Z.eqb_spec tag 0); [done|]. specialize (Htag ltac:(lia)).
    destruct (Z.eqb_spec (cs_watermark st) 0), (Z.eqb_spec (cs_watermark st') 0), (Z.ltb_spec tag (cs_watermark st)),
      (Z.ltb_spec tag (cs_watermark st')); done || lia.
Qed.

(** C13: as-of reads survive compaction: after a run, finished or refused
    half-way, every non-zero pin the point gate lets through answers for an entity
    what it answered before the run.  [asof_ready] asks of the entity's rows: distinct
    history versions; and, where something is to be trimmed, that the oldest history
    row kept is stamped, is no void piece and was recorded after every trimmed row,
    that no trimmed row carries a delete, and that none lies above the current row.
    Where a trimmed row is a tombstone the answer may change
    ([compaction_revives_retracted]).  Every stub lies within the graph's watermark,
    which each run keeps. *)
Theorem compaction_asof_exact sha256 {T} `{CompactRowOK T} `{!EntityRowOK T} obs policy tags clk (st st' : compactState (T := T))
    report err clk' id e a pin :
  CompactHistoryNodes sha256 obs policy tags clk st = (report, err, clk', st') -> watermark_covers st ->
  cs_nodes st !! id = Some e -> asof_ready e policy -> pin <> 0 -> checkPointCompaction st' id pin = None ->
  exists e', cs_nodes st' !! id = Some e' /\
    SelectAsOfWithCurrent a (ent_history e') (ent_current e') pin = SelectAsOfWithCurrent a (ent_history e) (ent_current e) pin.
Proof.
  intros Hrun Hc He Hr Hp Hok. pose proof (CompactHistoryNodes_effect _ _ _ _ _ _ _ _ _ _ Hrun) as Heffect.
  pose proof (run_covers _ _ _ _ _ _ Heffect Hc) as Hc'. destruct Heffect as [_ _ _ Heff].
  destruct (Heff id) as [[En _]|(now & p & e2 & He2 & Hplan & _ & Hl & En & Es)]; [exists e; by rewrite En|].
  rewrite He in He2. injection He2 as <-. exists (compacted (ep_keepVersions p) e). split; [done|].
  destruct (plan_planned sha256 id e policy now p Hplan) as (t & b & x & [Ht Hlt Hb Hx ->]). cbn [ep_keepVersions ep_stub] in *.
  apply (asof_trimmed e policy t x a pin); [done..|].
  destruct (ar_oldest _ _ Hr x ltac:(by rewrite <- Ht)) as (tm & Htm & _ & Htx & _).
  assert (Etx : vi_txFrom (versionInfoOf x) = TxFrom tm) by (by rewrite info_txFrom, Htm). cbn in Hl. rewrite Etx in *.
  apply (point_gate st' id pin _ Hc' Hp Es) in Hok as [Hz|Hle]; [lia| |lia]. cbn in Hle. lia.
Qed.


(** Compaction converges: planning again, at any later instant, on the rows
    a trim kept plans nothing more. *)
Theorem compaction_idempotent sha256 {T} `{CompactRowOK T} id (e : entity T) policy now p :
  linked_chain (infos_of e) (current_of e) -> planNodeCompaction sha256 id e policy now = Some p ->
  forall now', planNodeCompaction sha256 id (compacted (ep_keepVersions p) e) policy now' = None.
Proof.
  intros Hlc Hplan now'. destruct (plan_planned sha256 id e policy now p Hplan) as (t & b & x & [Ht Hlt Hb Hx ->]).
  rewrite (plan_eq sha256 id _ policy now'). cbn [ep_keepVersions].
  rewrite (replan_nothing e policy t x); [done|by apply linked_versions|done|done|by left].
Qed.

(** ** The stub's seal *)

(** The stub's fields are in their machine ranges. *)
Record stub_fields_ok (s : compactionStub) : Prop := {
  sf_id : in_i64 (EntityID s);
  sf_version : 0 <= TrimmedThroughVersion s < 2 ^ 32;
  sf_hash : Z.of_nat (length (LastTrimmedHash s)) < 2 ^ 64;
  sf_txTo : in_i64 (LastTrimmedTxTo s);
  sf_at : in_i64 (CompactedAtTx s);
}.

Lemma stub_preimage_inj s s' : stub_fields_ok s -> stub_fields_ok s' -> stub_preimage s = stub_preimage s' ->
  EntityID s = EntityID s' /\ TrimmedThroughVersion s = TrimmedThroughVersion s' /\ LastTrimmedHash s = LastTrimmedHash s' /\
  LastTrimmedTxTo s = LastTrimmedTxTo s' /\ CompactedAtTx s = CompactedAtTx s'.
Proof.
  intros [] [] E. unfold stub_preimage in E. apply app_inj_len in E as [_ E]; [|done].
  apply app_inj_len in E as [E1 E]; [|by rewrite !length_be_bytes]. apply app_inj_len in E as [E2 E]; [|by rewrite !length_be_bytes].
  apply app_inj_len in E as [E3 E]; [|by rewrite !length_be_bytes].
  apply be_bytes_inj in E3; [|simpl; lia..]. apply app_inj_len in E as [E4 E]; [|lia].
  apply app_inj_len in E as [E5 E6]; [|by rewrite !length_be_bytes].
  apply be_bytes_inj in E1, E2, E5, E6; try (apply u64_range); [|simpl; lia..].
  split_and!; [by apply u64_inj|done|done|by apply u64_inj|by apply u64_inj].
Qed.

(** A sealed stub binds its contents: it decodes to itself under its own
    entity, under no other one, and a stub that passes the decoder with the same
    self-hash is the sealed one, unless the hash function collides. *)
Theorem stub_seal_binds sha256 (s s' : compactionStub) expectID :
  stub_fields_ok s -> stub_fields_ok s' -> (sha256 (stub_preimage s) = sha256 (stub_preimage s') -> stub_preimage s = stub_preimage s') ->
  decodeCompactionStub sha256 expectID (sealed sha256 s) =
    (if EntityID s =? expectID then inl (sealed sha256 s) else inr ErrCorruptWire) /\
  (decodeCompactionStub sha256 expectID s' = inl s' -> StubHash s' = StubHash (sealed sha256 s) -> s' = sealed sha256 s).
Proof.
  intros Hs Hs' Hnc. split.
  - unfold decodeCompactionStub. cbn [sealed EntityID StubHash]. change (selfHash sha256 (sealed sha256 s)) with (selfHash sha256 s).
    destruct (EntityID s =? expectID); [|done]. simpl. by rewrite bool_decide_eq_true_2.
  - unfold decodeCompactionStub. destruct (negb _); [done|]. destruct (negb _) eqn:E; [done|]. intros _ Eh.
    apply negb_false_iff, bool_decide_eq_true in E. cbn [sealed StubHash] in Eh. unfold selfHash in E, Eh.
    destruct (stub_preimage_inj s s' Hs Hs') as (E1 & E2 & E3 & E4 & E5); [apply Hnc; congruence|].
    unfold sealed, selfHash. rewrite <- Eh. destruct s' as [i v h t a sh]. cbn in *. by subst.
Qed.

(** ** Runs *)

Section Witness.
#[local] Existing Instance demo_layout.

Definition hashed_row (n version : Z) (tm : TemporalMetadata) (hash prev : bytes) : Node PropertySlice :=
  mkNode PropertySlice (Alloc n) 1 demo_props [] (Some tm) (Some (mkNI hash prev [] None [] 0)) None version 3 false false 0.

(** A create and two updates, each row linked to the one before it. *)
Definition updated_entity : entity (Node PropertySlice) :=
  mkEntity (Node PropertySlice)
    [hashed_row 2 1 (demo_tm 20 0 200 300 0) [11] [10]; hashed_row 1 0 (demo_tm 10 0 100 200 0) [10] []]
    (Some (hashed_row 3 2 (demo_tm 30 0 300 0 0) [12] [11])).

Definition keep_one : RetentionPolicy := mkPolicy 1 0.

Definition updated_state : compactState (T := Node PropertySlice) := mkCS {[1 := updated_entity]} ∅ 0.

(** The digest plays no part in these runs. *)
Definition no_hash (b : bytes) : bytes := b.

Definition compacted_state : compactState (T := Node PropertySlice) :=
  snd (CompactHistoryNodes no_hash demo_obs keep_one [250] demo_st updated_state).

Lemma updated_linked : linked_chain (infos_of updated_entity) (current_of updated_entity).
Proof.
  change (infos_of updated_entity) with [mkVI 0 100 [10] []; mkVI 1 200 [11] [10]].
  change (current_of updated_entity) with (Some (mkVI 2 300 [12] [11])). split.
  - repeat constructor.
  - forall_literal ltac:(cbn; lia).
  - intros c v [= <-] Hv. repeat (apply elem_of_cons in Hv as [->|Hv]; [reflexivity|]). by apply elem_of_nil in Hv.
  - refine (bool_decide_unpack _ _). vm_compute. exact I.
Qed.

Lemma updated_covers : watermark_covers updated_state.
Proof. split; [done|]. intros id s Hs. vm_compute in Hs. discriminate. Qed.

Lemma updated_ready : asof_ready updated_entity keep_one.
Proof.
  split.
  - forall_literal ltac:(intros [? [=]]).
  - refine (bool_decide_unpack _ _). vm_compute. exact I.
  - intros x Hx. vm_compute in Hx. injection Hx as <-. eexists. split; [reflexivity|]. split_and!; [done|done|].
    intros d Hd Hlt. cbn in Hd. apply elem_of_cons in Hd as [->|Hd]; [cbn in Hlt; lia|].
    apply list_elem_of_singleton in Hd as ->. split; [intros tm [= <-]; done|intros c [= <-]; done].
Qed.


Lemma compaction_idempotent_witness :
  exists p, planNodeCompaction no_hash 1 updated_entity keep_one 400 = Some p /\
    planNodeCompaction no_hash 1 (compacted (ep_keepVersions p) updated_entity) keep_one 500 = None.
Proof.
  eexists. split; [vm_compute; reflexivity|].
  exact (compaction_idempotent no_hash 1 updated_entity keep_one 400 _ updated_linked eq_refl 500).
Defined.

Lemma compaction_keeps_tags_witness :
  checkPointCompaction compacted_state 1 250 = None /\ checkPointCompaction compacted_state 1 150 = Some ErrHistoryCompacted.
Proof.
  split; [|vm_compute; reflexivity].
  refine (proj1 (proj2 (proj2 (compaction_keeps_tags no_hash demo_obs keep_one [250] demo_st updated_state compacted_state
    _ _ _ eq_refl updated_covers)) _ 250 _) 1 _); [repeat constructor|left|reflexivity].
Defined.

Lemma compaction_asof_exact_witness :
  exists e', cs_nodes compacted_state !! 1 = Some e' /\
    SelectAsOfWithCurrent LegacyValidAxis (ent_history e') (ent_current e') 250 =
    SelectAsOfWithCurrent LegacyValidAxis (ent_history updated_entity) (ent_current updated_entity) 250.
Proof.
  exact (compaction_asof_exact no_hash demo_obs keep_one [250] demo_st updated_state compacted_state _ _ _ 1 updated_entity
    LegacyValidAxis 250 eq_refl updated_covers eq_refl updated_ready ltac:(lia) eq_refl).
Defined.

Lemma stub_seal_binds_witness :
  let s := mkStub 1 0 [10] 200 400 [] in
  decodeCompactionStub no_hash 1 (sealed no_hash s) = inl (sealed no_hash s).
Proof.
  intros s. assert (Hs : stub_fields_ok s) by (split; vm_compute; split; congruence || reflexivity || congruence).
  exact (proj1 (stub_seal_binds no_hash s s 1 Hs Hs (fun E => E))).
Defined.

Definition read_at (e : entity (Node PropertySlice)) (t pin : Instant) : option Z :=
  match resolveNodeChain cascade_core (ent_chain e) (mkProbe probePoint t 0 0 pin 0 false) (fun _ => true) with
  | inl r => Some (Version r)
  | inr _ => None
  end.

Definition node_after (st : compactState (T := Node PropertySlice)) : entity (Node PropertySlice) := entity_of st 1.

(** A read at a pin the gate lets through can still need a trimmed row.  In
    this run the trim's boundary is 200; before it a read at valid instant 15
    pinned at 250 answers the first row (valid from 10 until the update of 20),
    after it the gate accepts the pin and the read answers nothing. *)
Theorem compaction_loses_valid_time :
  read_at updated_entity 15 250 = Some 0 /\ checkPointCompaction compacted_state 1 250 = None /\
  read_at (node_after compacted_state) 15 250 = None.
Proof. vm_compute. split_and!; reflexivity. Qed.

(** An entity valid from 10 on, a correction of [5, 8) that leaves the current
    row in its slot, then a retraction of the entity at 30. *)
Definition created_entity : entity (Node PropertySlice) :=
  mkEntity (Node PropertySlice) [] (Some (hashed_row 1 0 (demo_tm 10 0 10 0 0) [10] [])).

Definition widened_entity : entity (Node PropertySlice) := after_write created_entity 5 8 [] 20 cascadeCorrection.

Definition retracted_entity : entity (Node PropertySlice) :=
  match ent_current widened_entity with
  | Some cur =>
      mkEntity (Node PropertySlice)
        (ent_history widened_entity ++ [copyWithTemporal (fun tm => fst (stampDeleteTombstone LegacyValidAxis 30 true tm)) cur]) None
  | None => widened_entity
  end.

Definition retracted_compacted : compactState (T := Node PropertySlice) :=
  snd (CompactHistoryNodes no_hash demo_obs keep_one [] demo_st (mkCS {[1 := retracted_entity]} ∅ 0)).

(** Compaction can bring a retracted entity back.  The correction's row lies
    above the row that held the current slot, so the tombstone is not the newest
    history row and the trim removes it: reads at valid instant 6 and as-of
    reads at pin 40, which found nothing, answer the correction's row. *)
Theorem compaction_revives_retracted :
  read_at retracted_entity 6 40 = None /\ SelectAsOf LegacyValidAxis (ent_history retracted_entity) 40 = None /\
  checkPointCompaction retracted_compacted 1 40 = None /\
  read_at (node_after retracted_compacted) 6 40 = Some 1 /\
  Version <$> SelectAsOf LegacyValidAxis (ent_history (node_after retracted_compacted)) 40 = Some 1.
Proof. vm_compute. split_and!; reflexivity. Qed.
End Witness.
