(* ===== verification/LowestPin.v ===== *)
(** * The lowest answered pin (core/lowest_answered_pin.go)

    For an entity, the lowest transaction pin its point reads answer at: the
    maximum of the floors of the gates those reads run, the compaction gate of
    [Compaction] and the retention gates of [Retention]. *)

From stdpp Require Import gmap.
From S2P Require Import Prelude Bytes ValidTime ValueKeys Registry Props Rows Compaction CompactionReads Retention RetentionMarks RetentionPurge.

Section Pins.
(** The graph is closed to reads, and the reads of the store. *)
Context `{Layout} {P : Type} `{EqDecision P} (closed : bool) (get_fails : bytes -> bool) (getCurrentNode : Z -> option (Node P) + retError) (getNodeHistory : Z -> list (Node P) + retError)
  (getCurrentRelationship : Z -> option (Relationship P) + retError) (getRelHistory : Z -> list (Relationship P) + retError).

Definition nodeLowestAnsweredPinLocked (cst : compactState (T := Node P)) (id : Z) (r : retention) : Instant + retError :=
  let comp := match compactionFloor cst id with Some floor => floor | None => 0 end in
  match nodeRetentionFloor get_fails getCurrentNode getNodeHistory id r with
  | inr e => inr e
  | inl ret => inl (Z.max comp ret)
  end.

Definition relLowestAnsweredPinLocked (cst : compactState (T := Relationship P)) (id : Z) (r : retention) : Instant + retError :=
  let floor := match compactionFloor cst id with Some comp => Z.max 0 comp | None => 0 end in
  match relTypeRetentionFloor getCurrentRelationship getRelHistory id r with
  | inr e => inr e
  | inl typ =>
      let floor := match typ with Some typ => Z.max floor typ | None => floor end in
      inl (match relNodeFamilyFloor r with Some fam => Z.max floor fam | None => floor end)
  end.

(** Zero and negative IDs are refused, the same for both kinds. *)
Definition ValidateID (id : Z) : option retError := if id <=? 0 then Some ErrInvalidStoreMutation else None.

Fixpoint check_ids (ids : list Z) : option retError :=
  match ids with [] => None | id :: ids' => match ValidateID id with Some e => Some e | None => check_ids ids' end end.

Fixpoint collect_pins (pin_of : Z -> Instant + retError) (ids : list Z) : list Instant + retError :=
  match ids with
  | [] => inl []
  | id :: ids' =>
      match pin_of id with
      | inr e => inr e
      | inl pin => match collect_pins pin_of ids' with inr e => inr e | inl pins => inl (pin :: pins) end
      end
  end.

Definition lowest_pins (pin_of : Z -> Instant + retError) (ids : list Z) : list Instant + retError :=
  if closed then inr ErrGraphClosed
  else match check_ids ids with Some e => inr e | None => collect_pins pin_of ids end.

Definition NodesLowestAnsweredPins (cst : compactState (T := Node P)) (ids : list Z) (r : retention) : list Instant + retError :=
  lowest_pins (fun id => nodeLowestAnsweredPinLocked cst id r) ids.

Definition RelsLowestAnsweredPins (cst : compactState (T := Relationship P)) (ids : list Z) (r : retention) : list Instant + retError :=
  lowest_pins (fun id => relLowestAnsweredPinLocked cst id r) ids.

Definition sole_pin (res : list Instant + retError) : Instant + retError :=
  match res with inr e => inr e | inl pins => inl (nth 0 pins 0) end.

Definition NodeLowestAnsweredPin (cst : compactState (T := Node P)) (id : Z) (r : retention) : Instant + retError := sole_pin (NodesLowestAnsweredPins cst [id] r).

Definition RelLowestAnsweredPin (cst : compactState (T := Relationship P)) (id : Z) (r : retention) : Instant + retError := sole_pin (RelsLowestAnsweredPins cst [id] r).

(** ** The gates of a point read *)

Lemma compaction_gate {T : Type} `{CompactRow T} (st : compactState (T := T)) id pin : pin <> 0 ->
  checkPointCompaction st id pin = None <-> match compactionFloor st id with Some floor => floor <= pin | None => True end.
Proof.
  intros Hp. unfold checkPointCompaction, compactionFloor. destruct (Z.eqb_spec pin 0); [done|]. destruct (Z.eqb_spec (cs_watermark st) 0); [done|]. cbn [orb].
  destruct (cs_stubs st !! id) as [s|]; [|by destruct (_ >=? _)]. destruct (Z.geb_spec pin (cs_watermark st)); [split; [lia|done]|]. destruct (Z.ltb_spec pin (Z.min (cs_watermark st) (LastTrimmedTxTo s))); split; try done; lia.
Qed.

Lemma node_retention_gate id pin r floor : 0 < pin -> nodeRetentionFloor get_fails getCurrentNode getNodeHistory id r = inl floor ->
  checkNodePointRetention get_fails getCurrentNode getNodeHistory id pin r = None <-> floor <= pin.
Proof.
  intros Hp E. unfold checkNodePointRetention. rewrite E. destruct (Z.eqb_spec pin 0); [lia|]. assert (Hle : retentionMaxWatermark r = 0 \/ floor <= retentionMaxWatermark r).
  { unfold nodeRetentionFloor in E. destruct (Z.eqb_spec (retentionMaxWatermark r) 0); [by left|right]. destruct (nodeLabelTokensForRetention _ _ id); [|done]. destruct (max_mark _ _ r 0); [|done]. injection E as <-. lia. }
  destruct (Z.eqb_spec (retentionMaxWatermark r) 0) as [E0|E0]; cbn [orb].
  - split; [|done]. intros _. unfold nodeRetentionFloor in E. rewrite E0 in E. cbn in E. injection E as <-. lia.
  - destruct (Z.geb_spec pin (retentionMaxWatermark r)); [split; [lia|done]|]. destruct (Z.eqb_spec floor 0); cbn [negb andb]; [split; [lia|done]|]. destruct (Z.ltb_spec pin floor); split; try done; lia.
Qed.

Lemma rel_type_gate id pin r floor : 0 < pin -> relTypeRetentionFloor getCurrentRelationship getRelHistory id r = inl floor ->
  checkRelTypePointRetention getCurrentRelationship getRelHistory id pin r = None <-> match floor with Some floor => floor <= pin | None => True end.
Proof.
  intros Hp E. unfold checkRelTypePointRetention. rewrite E. destruct (Z.eqb_spec pin 0); [lia|]. cbn [orb]. destruct (Z.geb_spec pin (retentionRelMaxWatermark r)) as [Hge|Hlt].
  - split; [|done]. intros _. unfold relTypeRetentionFloor in E. destruct (_ >=? _); [by injection E as <-|]. destruct (relTypeTokenForRetention _ _ id) as [[tok|]|]; [| |done]; injection E as <-; lia.
  - destruct floor as [floor|]; [|done]. destruct (Z.ltb_spec pin floor); split; try done; lia.
Qed.

Lemma rel_family_gate pin r : 0 < pin -> checkRelPointRetention pin r = None <-> match relNodeFamilyFloor r with Some floor => floor <= pin | None => True end.
Proof.
  intros Hp. unfold checkRelPointRetention. destruct (Z.eqb_spec pin 0); [lia|]. destruct (relNodeFamilyFloor r) as [floor|]; [|done]. destruct (Z.ltb_spec pin floor); split; try done; lia.
Qed.

(** C40: the lowest answered pin is exact: a positive pin at or above it passes every
    gate a point read of the entity runs (compaction and retention; for a
    relationship its type's and the node family's), and every positive pin below
    it is refused by one of them.  For a relationship it is never negative. *)
Theorem lowest_answered_pin_exact ncst rcst id r pin low : 0 < pin ->
  (NodeLowestAnsweredPin ncst id r = inl low ->
    checkPointCompaction ncst id pin = None /\ checkNodePointRetention get_fails getCurrentNode getNodeHistory id pin r = None <-> low <= pin) /\
  (RelLowestAnsweredPin rcst id r = inl low ->
    0 <= low /\ (checkPointCompaction rcst id pin = None /\ checkRelTypePointRetention getCurrentRelationship getRelHistory id pin r = None /\ checkRelPointRetention pin r = None <-> low <= pin)).
Proof.
  intros Hp. unfold NodeLowestAnsweredPin, NodesLowestAnsweredPins, RelLowestAnsweredPin, RelsLowestAnsweredPins, sole_pin, lowest_pins. destruct closed; [done|]. cbn [check_ids]. destruct (ValidateID id); [done|]. cbn [collect_pins]. split.
  - unfold nodeLowestAnsweredPinLocked. destruct (nodeRetentionFloor _ _ _ id r) as [ret|] eqn:En; [|done]. cbn [nth]. intros [= <-]. rewrite (compaction_gate ncst id pin), (node_retention_gate id pin r ret Hp En) by lia. case_match; lia.
  - unfold relLowestAnsweredPinLocked. destruct (relTypeRetentionFloor _ _ id r) as [typ|] eqn:Et; [|done]. cbn [nth]. intros [= <-]. rewrite (compaction_gate rcst id pin), (rel_type_gate id pin r typ Hp Et), (rel_family_gate pin r Hp) by lia.
    repeat case_match; lia.
Qed.
End Pins.

(** A node with label A, compacted through 200, in a graph that purged A below 100. *)
Definition compacted_nodes : compactState (T := Node unit) := mkCS ∅ {[ 7 := mkStub 7 1 [] 150 200 [] ]} 200.

Definition no_rels : compactState (T := Relationship unit) := mkCS ∅ ∅ 0.

Lemma lowest_answered_pin_exact_witness :
  (checkPointCompaction compacted_nodes 7 150 = None /\ checkNodePointRetention (fun _ => false) (fun _ => inl (Some a_node)) (fun _ => inl []) 7 150 (c_ret (g_core both_purged)) = None) /\
  ~ (checkPointCompaction compacted_nodes 7 149 = None /\ checkNodePointRetention (fun _ => false) (fun _ => inl (Some a_node)) (fun _ => inl []) 7 149 (c_ret (g_core both_purged)) = None).
Proof.
  pose proof (fun pin Hp => proj1 (lowest_answered_pin_exact (H := demo_layout) (P := unit) false (fun _ => false) (fun _ => inl (Some a_node)) (fun _ => inl []) (fun _ => inl None) (fun _ => inl []) compacted_nodes no_rels 7 (c_ret (g_core both_purged)) pin 150 Hp) ltac:(by vm_compute)) as Hpin.
  split; [by apply Hpin|]. intros Hlow. apply Hpin in Hlow; [lia|done].
Defined.
