(* ===== verification/MemRows.v ===== *)
(** * The in-memory store: its state and its row doors (store/memory, store/invariants.go)

    The state of the store, the checks a write passes, and the helpers every write
    goes through: the dense ordinals, the frozen copies the store keeps, the label
    and type indexes, the history rows and the ex-adjacency.  The configuration
    modelled has no declared bulk type, no temporal, high-frequency or vector index,
    planner statistics and the change log off, and none of the lazily built sidecars
    built; the ordered-member caches of the label and type indexes are left out. *)

From stdpp Require Import gmap.
From S2P Require Import Prelude Bytes ValidTime Props Rows ValueKeys PropertyIndex NodeIndexes IndexPurge CompositeIndex AdjSets Cascade.

(** The sentinel errors of the store's contract; a duplicate in one batch is an
    unnamed error. *)
Inductive memErr := ErrNodeExists | ErrNodeNotFound | ErrRelExists | ErrRelNotFound | ErrVersionNotFound | ErrInvalidMutation | ErrStoreClosed | ErrBatchDuplicate.

#[export] Instance memErr_eq_dec : EqDecision memErr.
Proof. solve_decision. Defined.

Notation nodeRow := (Node PropertySlice).
Notation relRow := (Relationship PropertySlice).

(** ** Checks (invariants.go)

    Every failed check is [ErrInvalidStoreMutation]; a row is not a nil pointer. *)

Definition ValidateNodeID (id : Z) : bool := negb (id =? 0) && negb (id <? 0).

Definition ValidateRelID (id : Z) : bool := negb (id =? 0) && negb (id <? 0).

Definition ValidateRelTypeToken (relType : Z) : bool := negb (relType =? 0).

Definition ValidateNodeSnapshotKey (id : Z) (n : nodeRow) : bool := ValidateNodeID id && (n_id n =? id).

Definition ValidateRelSnapshotKey (id : Z) (r : relRow) : bool := ValidateRelID id && (r_id r =? id).

Definition validateNodeLabels (n : nodeRow) : bool := forallb ValidateLabelToken (AllLabelTokens n).

Definition validateRelExplicitTemporalRange (tm : option TemporalMetadata) : bool := validateNodeExplicitTemporalRange tm.

Definition ValidateNodeWrite (n : nodeRow) : bool :=
  ValidateNodeID (n_id n) && validateNodeLabels n && validateNodeExplicitTemporalRange (NodeTemporal n).

Definition ValidateNodeHistorySnapshot (id : Z) (n : nodeRow) : bool :=
  ValidateNodeSnapshotKey id n && validateNodeLabels n && validateNodeExplicitTemporalRange (NodeTemporal n).

Definition ValidateNodeHistoryVersionSnapshot (id version : Z) (n : nodeRow) : bool :=
  ValidateNodeHistorySnapshot id n && (n_version n =? version).

Definition ValidateNodeLiveVersion (n : nodeRow) (version : Z) : bool := n_version n =? version.

(** The replacement check of the cascade with the check of the old row's ID. *)
Definition node_replacement_ok (old current : nodeRow) : bool := ValidateNodeID (n_id old) && ValidateNodeReplacement old current.

Definition validateNodeLabelMutation (old current : nodeRow) (tok : Z) : bool :=
  ValidateNodeHistorySnapshot (n_id old) current && ValidateLabelToken tok.

Definition ValidateNodeLabelRemoval (old current : nodeRow) (tok : Z) : bool :=
  validateNodeLabelMutation old current tok && HasLabelTokenRaw tok old && negb (HasLabelTokenRaw tok current) &&
  (S (LabelTokenCount current) =? LabelTokenCount old)%nat &&
  forallb (fun label => (label =? tok) || HasLabelTokenRaw label current) (AllLabelTokens old).

Definition ValidateNodeLabelAddition (old current : nodeRow) (tok : Z) : bool :=
  validateNodeLabelMutation old current tok && negb (HasLabelTokenRaw tok old) && HasLabelTokenRaw tok current &&
  (LabelTokenCount current =? S (LabelTokenCount old))%nat &&
  forallb (fun label => HasLabelTokenRaw label current) (AllLabelTokens old).

Definition ValidateRelationshipIndexEntry (startID endID relType relID : Z) : bool :=
  ValidateRelID relID && ValidateRelTypeToken relType && ValidateNodeID startID && ValidateNodeID endID.

Definition ValidateRelationshipWrite (r : relRow) : bool :=
  ValidateRelID (r_id r) && ValidateRelTypeToken (r_relType r) && ValidateNodeID (r_startID r) && ValidateNodeID (r_endID r) &&
  validateRelExplicitTemporalRange (RelTemporal r).

Definition ValidateRelationshipHistorySnapshot (id : Z) (r : relRow) : bool :=
  ValidateRelSnapshotKey id r && ValidateRelationshipIndexEntry (r_startID r) (r_endID r) (r_relType r) (r_id r) &&
  validateRelExplicitTemporalRange (RelTemporal r).

Definition ValidateRelationshipHistoryVersionSnapshot (id version : Z) (r : relRow) : bool :=
  ValidateRelationshipHistorySnapshot id r && (r_version r =? version).

Definition ValidateRelationshipLiveVersion (r : relRow) (version : Z) : bool := r_version r =? version.

Definition ValidateRelationshipReplacement (old current : relRow) : bool :=
  ValidateRelSnapshotKey (r_id old) current && ValidateRelationshipWrite current && (r_relType old =? r_relType current) &&
  (r_startID old =? r_startID current) && (r_endID old =? r_endID current).

Definition ValidateHistoryRetention (keepVersions : Z) : bool := negb (keepVersions <? 0).

Definition ValidateHistoryPageLimit (limit : Z) : bool := negb (limit <? 0).

(** ** The state *)

(** [exOutIdx] and [exInIdx] are empty maps where the source has nil ones.  The two
    fields of the composite indexes are one pair; [ms_alloc] numbers the rows the
    store allocates. *)
Record memStore := mkMem {
  ms_closed : bool;
  ms_nodes : gmap Z nodeRow;
  ms_rels : gmap Z relRow;
  labelIdx : gmap Z (gset Z);
  typeIdx : gmap Z (gset Z);
  outIdx : gmap Z adjSet;
  inIdx : gmap Z adjSet;
  exOutIdx : gmap Z adjSet;
  exInIdx : gmap Z adjSet;
  nodeHistory : gmap Z (gmap Z nodeRow);
  relHistory : gmap Z (gmap Z relRow);
  propertyIndexes : gmap (Z * bytes) PropertyIndex;
  relPropertyIndexes : gmap (Z * bytes) PropertyIndex;
  composites : gmap (Z * bytes) CompositePropertyIndex * gmap Z (list (Z * bytes));
  maxNodeOrdinal : Z;
  maxRelOrdinal : Z;
  ms_alloc : Z;
}.

Definition new_store : memStore := mkMem false ∅ ∅ ∅ ∅ ∅ ∅ ∅ ∅ ∅ ∅ ∅ ∅ (∅, ∅) 0 0 0.

Section Setters.
Implicit Types ms : memStore.

Definition set_nodes x ms := mkMem (ms_closed ms) x (ms_rels ms) (labelIdx ms) (typeIdx ms) (outIdx ms) (inIdx ms) (exOutIdx ms) (exInIdx ms) (nodeHistory ms) (relHistory ms) (propertyIndexes ms) (relPropertyIndexes ms) (composites ms) (maxNodeOrdinal ms) (maxRelOrdinal ms) (ms_alloc ms).

Definition set_rels x ms := mkMem (ms_closed ms) (ms_nodes ms) x (labelIdx ms) (typeIdx ms) (outIdx ms) (inIdx ms) (exOutIdx ms) (exInIdx ms) (nodeHistory ms) (relHistory ms) (propertyIndexes ms) (relPropertyIndexes ms) (composites ms) (maxNodeOrdinal ms) (maxRelOrdinal ms) (ms_alloc ms).

Definition set_labelIdx x ms := mkMem (ms_closed ms) (ms_nodes ms) (ms_rels ms) x (typeIdx ms) (outIdx ms) (inIdx ms) (exOutIdx ms) (exInIdx ms) (nodeHistory ms) (relHistory ms) (propertyIndexes ms) (relPropertyIndexes ms) (composites ms) (maxNodeOrdinal ms) (maxRelOrdinal ms) (ms_alloc ms).

Definition set_typeIdx x ms := mkMem (ms_closed ms) (ms_nodes ms) (ms_rels ms) (labelIdx ms) x (outIdx ms) (inIdx ms) (exOutIdx ms) (exInIdx ms) (nodeHistory ms) (relHistory ms) (propertyIndexes ms) (relPropertyIndexes ms) (composites ms) (maxNodeOrdinal ms) (maxRelOrdinal ms) (ms_alloc ms).

Definition set_adj o i ms := mkMem (ms_closed ms) (ms_nodes ms) (ms_rels ms) (labelIdx ms) (typeIdx ms) o i (exOutIdx ms) (exInIdx ms) (nodeHistory ms) (relHistory ms) (propertyIndexes ms) (relPropertyIndexes ms) (composites ms) (maxNodeOrdinal ms) (maxRelOrdinal ms) (ms_alloc ms).

Definition set_exAdj o i ms := mkMem (ms_closed ms) (ms_nodes ms) (ms_rels ms) (labelIdx ms) (typeIdx ms) (outIdx ms) (inIdx ms) o i (nodeHistory ms) (relHistory ms) (propertyIndexes ms) (relPropertyIndexes ms) (composites ms) (maxNodeOrdinal ms) (maxRelOrdinal ms) (ms_alloc ms).

Definition set_nodeHistory x ms := mkMem (ms_closed ms) (ms_nodes ms) (ms_rels ms) (labelIdx ms) (typeIdx ms) (outIdx ms) (inIdx ms) (exOutIdx ms) (exInIdx ms) x (relHistory ms) (propertyIndexes ms) (relPropertyIndexes ms) (composites ms) (maxNodeOrdinal ms) (maxRelOrdinal ms) (ms_alloc ms).

Definition set_relHistory x ms := mkMem (ms_closed ms) (ms_nodes ms) (ms_rels ms) (labelIdx ms) (typeIdx ms) (outIdx ms) (inIdx ms) (exOutIdx ms) (exInIdx ms) (nodeHistory ms) x (propertyIndexes ms) (relPropertyIndexes ms) (composites ms) (maxNodeOrdinal ms) (maxRelOrdinal ms) (ms_alloc ms).

Definition set_propertyIndexes x ms := mkMem (ms_closed ms) (ms_nodes ms) (ms_rels ms) (labelIdx ms) (typeIdx ms) (outIdx ms) (inIdx ms) (exOutIdx ms) (exInIdx ms) (nodeHistory ms) (relHistory ms) x (relPropertyIndexes ms) (composites ms) (maxNodeOrdinal ms) (maxRelOrdinal ms) (ms_alloc ms).

Definition set_relPropertyIndexes x ms := mkMem (ms_closed ms) (ms_nodes ms) (ms_rels ms) (labelIdx ms) (typeIdx ms) (outIdx ms) (inIdx ms) (exOutIdx ms) (exInIdx ms) (nodeHistory ms) (relHistory ms) (propertyIndexes ms) x (composites ms) (maxNodeOrdinal ms) (maxRelOrdinal ms) (ms_alloc ms).

Definition set_composites x ms := mkMem (ms_closed ms) (ms_nodes ms) (ms_rels ms) (labelIdx ms) (typeIdx ms) (outIdx ms) (inIdx ms) (exOutIdx ms) (exInIdx ms) (nodeHistory ms) (relHistory ms) (propertyIndexes ms) (relPropertyIndexes ms) (x, snd (composites ms)) (maxNodeOrdinal ms) (maxRelOrdinal ms) (ms_alloc ms).

Definition set_ordinals n r ms := mkMem (ms_closed ms) (ms_nodes ms) (ms_rels ms) (labelIdx ms) (typeIdx ms) (outIdx ms) (inIdx ms) (exOutIdx ms) (exInIdx ms) (nodeHistory ms) (relHistory ms) (propertyIndexes ms) (relPropertyIndexes ms) (composites ms) n r (ms_alloc ms).

Definition set_alloc x ms := mkMem (ms_closed ms) (ms_nodes ms) (ms_rels ms) (labelIdx ms) (typeIdx ms) (outIdx ms) (inIdx ms) (exOutIdx ms) (exInIdx ms) (nodeHistory ms) (relHistory ms) (propertyIndexes ms) (relPropertyIndexes ms) (composites ms) (maxNodeOrdinal ms) (maxRelOrdinal ms) x.
End Setters.

Definition set_closed (x : bool) (ms : memStore) := mkMem x (ms_nodes ms) (ms_rels ms) (labelIdx ms) (typeIdx ms) (outIdx ms) (inIdx ms) (exOutIdx ms) (exInIdx ms) (nodeHistory ms) (relHistory ms) (propertyIndexes ms) (relPropertyIndexes ms) (composites ms) (maxNodeOrdinal ms) (maxRelOrdinal ms) (ms_alloc ms).

(** Writes answer the store after them and their error. *)
Notation answer := (memStore * option memErr)%type.


(** ** Ordinals (memorystore_ordinal.go) *)

Definition MaxUint32 : Z := 2 ^ 32 - 1.

(** The rows of an ID: the current one, then the history rows in the map's order. *)
Definition rows_of {T} (cur : gmap Z T) (history : gmap Z (gmap Z T)) (id : Z) : list T :=
  match cur !! id with Some n => [n] | None => [] end ++ map snd (map_to_list (default ∅ (history !! id))).

(** The first ordinal that is not zero. *)
Fixpoint first_ordinal {T} (ordinal : T -> Z) (rows : list T) : option Z :=
  match rows with [] => None | r :: rows' => if negb (ordinal r =? 0) then Some (ordinal r) else first_ordinal ordinal rows' end.

Definition nodeOrdinalLocked (id : Z) (ms : memStore) : Z * memStore :=
  match first_ordinal n_ordinal (rows_of (ms_nodes ms) (nodeHistory ms) id) with
  | Some o => (o, ms)
  | None =>
      let next := maxNodeOrdinal ms in
      if next =? MaxUint32 then (0, ms) else (next + 1, set_ordinals (next + 1) (maxRelOrdinal ms) ms)
  end.

Definition relOrdinalLocked (id : Z) (ms : memStore) : Z * memStore :=
  match first_ordinal r_ordinal (rows_of (ms_rels ms) (relHistory ms) id) with
  | Some o => (o, ms)
  | None =>
      let next := maxRelOrdinal ms in
      if next =? MaxUint32 then (0, ms) else (next + 1, set_ordinals (maxNodeOrdinal ms) (next + 1) ms)
  end.

(** ** Stored rows *)

Definition node_with_ordinal (o : Z) (n : nodeRow) : nodeRow :=
  mkNode PropertySlice (n_addr n) (n_id n) (n_properties n) (n_extraLabels n) (n_temporal n) (n_integrity n) (n_meta n) (n_version n) (n_primaryLabel n) (n_frozen n) (n_sharedProps n) o.

Definition rel_with_ordinals (o start end_ : Z) (r : relRow) : relRow :=
  mkRel PropertySlice (r_addr r) (r_id r) (r_startID r) (r_endID r) (r_properties r) (r_temporal r) (r_integrity r) (r_meta r) (r_version r) (r_relType r) (r_frozen r) (r_sharedProps r) o start end_.

Definition CompactFrozenCopyWithOrdinal (a : addr) (o : Z) (n : nodeRow) : nodeRow := node_with_ordinal o (fst (NodeCompactFrozenCopy a n)).

Definition DeepCopyWithOrdinal (o : Z) (n : nodeRow) : nodeRow := node_with_ordinal o (NodeDeepCopy n).

Definition CompactFrozenCopyWithOrdinals (a : addr) (o start end_ : Z) (r : relRow) : relRow := rel_with_ordinals o start end_ (fst (RelCompactFrozenCopy a r)).

Definition DeepCopyWithOrdinals (o start end_ : Z) (r : relRow) : relRow := rel_with_ordinals o start end_ (RelDeepCopy r).

(** The mark the copy leaves on the caller's row is the caller's business. *)
Definition storedNode (n : nodeRow) (ms : memStore) : nodeRow * memStore :=
  let '(o, ms) := nodeOrdinalLocked (n_id n) ms in
  (CompactFrozenCopyWithOrdinal (Alloc (ms_alloc ms)) o n, set_alloc (ms_alloc ms + 1) ms).

(** The ordinal of a node the store may not hold: a nil row's is zero. *)
Definition ordinal_of (n : option nodeRow) : Z := match n with Some n => n_ordinal n | None => 0 end.

Definition storedRel (r : relRow) (ms : memStore) : relRow * memStore :=
  let '(o, ms) := relOrdinalLocked (r_id r) ms in
  (CompactFrozenCopyWithOrdinals (Alloc (ms_alloc ms)) o (ordinal_of (ms_nodes ms !! r_startID r)) (ordinal_of (ms_nodes ms !! r_endID r)) r,
   set_alloc (ms_alloc ms + 1) ms).

Definition historyNode (n : nodeRow) (ms : memStore) : nodeRow * memStore :=
  let '(o, ms) := nodeOrdinalLocked (n_id n) ms in (NodeFreeze (DeepCopyWithOrdinal o n), ms).

Definition historyRel (r : relRow) (ms : memStore) : relRow * memStore :=
  let '(o, ms) := relOrdinalLocked (r_id r) ms in (RelFreeze (DeepCopyWithOrdinals o 0 0 r), ms).

(** ** Label and type indexes *)

Definition add_member (tok id : Z) (idx : gmap Z (gset Z)) : gmap Z (gset Z) := <[tok := {[id]} ∪ default ∅ (idx !! tok)]> idx.

Definition remove_member (tok id : Z) (idx : gmap Z (gset Z)) : gmap Z (gset Z) :=
  match idx !! tok with
  | Some set => let set := set ∖ {[id]} in if bool_decide (set = ∅) then delete tok idx else <[tok := set]> idx
  | None => idx
  end.

Definition addNodeLabelIndex (id tok : Z) (ms : memStore) : memStore := set_labelIdx (add_member tok id (labelIdx ms)) ms.

Definition removeNodeLabelIndex (id tok : Z) (ms : memStore) : memStore := set_labelIdx (remove_member tok id (labelIdx ms)) ms.

Definition addNodeLabelIndexes (id : Z) (n : nodeRow) (ms : memStore) : memStore :=
  fold_left (fun ms tok => addNodeLabelIndex id tok ms) (AllLabelTokens n) ms.

Definition removeNodeLabelIndexes (id : Z) (n : nodeRow) (ms : memStore) : memStore :=
  fold_left (fun ms tok => removeNodeLabelIndex id tok ms) (AllLabelTokens n) ms.

Definition addRelTypeIndex (id tok : Z) (ms : memStore) : memStore := set_typeIdx (add_member tok id (typeIdx ms)) ms.

Definition removeRelTypeIndex (id tok : Z) (ms : memStore) : memStore := set_typeIdx (remove_member tok id (typeIdx ms)) ms.

(** ** Ex-adjacency (memorystore_exadj.go) *)

Definition addExAdjLocked (id : Z) (r : relRow) (ms : memStore) : memStore :=
  set_exAdj (addAdjLocked (r_startID r) id (exOutIdx ms)) (addAdjLocked (r_endID r) id (exInIdx ms)) ms.

Definition noteHistoryRowExAdjLocked (id : Z) (r : relRow) (ms : memStore) : memStore :=
  match ms_rels ms !! id with
  | Some cur => if (r_startID cur =? r_startID r) && (r_endID cur =? r_endID r) then ms else addExAdjLocked id r ms
  | None => addExAdjLocked id r ms
  end.

Definition relRowsLocked (id : Z) (ms : memStore) : list relRow := rows_of (ms_rels ms) (relHistory ms) id.

Definition dropExAdjRowsLocked (id : Z) (rows : list relRow) (ms : memStore) : memStore :=
  fold_left (fun ms r => set_exAdj (removeAdjLocked (r_startID r) id (exOutIdx ms)) (removeAdjLocked (r_endID r) id (exInIdx ms)) ms) rows ms.

Definition dropExAdjRelEverywhereLocked (id : Z) (ms : memStore) : memStore :=
  set_exAdj (drop_everywhere id (exOutIdx ms)) (drop_everywhere id (exInIdx ms)) ms.

Definition dropExAdjNodeLocked (nid : Z) (ms : memStore) : memStore := set_exAdj (delete nid (exOutIdx ms)) (delete nid (exInIdx ms)) ms.

(** The IDs handed to the callback, none of which ends the loop. *)
Definition ForEachExAdjacentRelID (nid : Z) (incoming : bool) (ms : memStore) : list Z + memErr :=
  if ms_closed ms then inr ErrStoreClosed
  else if negb (ValidateNodeID nid) then inr ErrInvalidMutation
  else inl (adj_all ((if incoming then exInIdx ms else exOutIdx ms) !! nid)).

(** The row noted is of type 1 without more. *)
Definition NoteExAdjacentRel (a : addr) (id start end_ : Z) (ms : memStore) : answer :=
  if negb (ValidateRelationshipIndexEntry start end_ 1 id) then (ms, Some ErrInvalidMutation)
  else if ms_closed ms then (ms, Some ErrStoreClosed)
  else (addExAdjLocked id (NewRelationship ([] : PropertySlice) a id 1 start end_) ms, None).

(** ** History rows (memorystore_history_stamps.go) *)

Definition putNodeHistoryRowLocked (nid v : Z) (row : nodeRow) (ms : memStore) : memStore :=
  let inner := default ∅ (nodeHistory ms !! nid) in
  let '(h, ms) := historyNode row ms in set_nodeHistory (<[nid := <[v := h]> inner]> (nodeHistory ms)) ms.

Definition putRelHistoryRowLocked (rid v : Z) (row : relRow) (ms : memStore) : memStore :=
  let inner := default ∅ (relHistory ms !! rid) in
  let ms := noteHistoryRowExAdjLocked rid row ms in
  let '(h, ms) := historyRel row ms in set_relHistory (<[rid := <[v := h]> inner]> (relHistory ms)) ms.
