(* ===== verification/MemStore.v ===== *)
(** * The in-memory store: writes of current rows (memorystore_node.go, memorystore_rel.go)

    Creating, replacing and deleting nodes and relationships, one at a time and in
    batches, with the cascade of a node's relationships.  A map is ranged over in
    the order of its elements: no write's outcome depends on it. *)

From stdpp Require Import gmap.
From S2P Require Import Prelude Bytes ValidTime Props Rows ValueKeys PropertyIndex NodeIndexes IndexPurge CompositeIndex AdjSets Cascade MemRows.

Section Writes.
Context (FormatFloat : Z -> Z -> bytes) (ParseFloat : bytes -> option Z).
Implicit Types (ms : memStore) (n old : nodeRow) (r : relRow).

(** ** Indexes of one row *)

Definition indexNode n (id : Z) ms : memStore := set_propertyIndexes (AddNodeToPropertyIndexes FormatFloat ParseFloat (propertyIndexes ms) n id) ms.

Definition unindexNode n (id : Z) ms : memStore := set_propertyIndexes (RemoveNodeFromPropertyIndexes FormatFloat ParseFloat (propertyIndexes ms) n id) ms.

Definition addNodeToCompositeIndexesLocked n (id : Z) ms : memStore :=
  set_composites (AddNodeToCompositeIndexes FormatFloat (fst (composites ms)) (snd (composites ms)) n id) ms.

Definition removeNodeFromCompositeIndexesLocked n (id : Z) ms : memStore :=
  set_composites (RemoveNodeFromCompositeIndexes FormatFloat (fst (composites ms)) (snd (composites ms)) n id) ms.

Definition indexRel r (id : Z) ms : memStore := set_relPropertyIndexes (AddRelToPropertyIndexes FormatFloat ParseFloat (relPropertyIndexes ms) r id) ms.

Definition unindexRel r (id : Z) ms : memStore := set_relPropertyIndexes (RemoveRelFromPropertyIndexes FormatFloat ParseFloat (relPropertyIndexes ms) r id) ms.

Definition store_node n ms : memStore := let '(row, ms) := storedNode n ms in set_nodes (<[n_id n := row]> (ms_nodes ms)) ms.

Definition store_rel r ms : memStore := let '(row, ms) := storedRel r ms in set_rels (<[r_id r := row]> (ms_rels ms)) ms.

(** ** Nodes *)

(** The writes of a create past its checks. *)
Definition insert_node n ms : memStore :=
  let nid := n_id n in
  let ms := store_node n ms in
  let ms := addNodeLabelIndexes nid n ms in
  let ms := indexNode n nid ms in
  addNodeToCompositeIndexesLocked n nid ms.

Definition PutNode n ms : answer :=
  if ms_closed ms then (ms, Some ErrStoreClosed)
  else if negb (ValidateNodeWrite n) then (ms, Some ErrInvalidMutation)
  else match ms_nodes ms !! n_id n with
       | Some _ => (ms, Some ErrNodeExists)
       | None => (insert_node n ms, None)
       end.

(** The current row of an ID and its index entries give way to [n]'s. *)
Definition replace_node (nid : Z) old n ms : memStore :=
  let ms := unindexNode old nid ms in
  let ms := removeNodeFromCompositeIndexesLocked old nid ms in
  let ms := store_node n ms in
  let ms := indexNode n nid ms in
  addNodeToCompositeIndexesLocked n nid ms.

Definition ReplaceNode n ms : answer :=
  if ms_closed ms then (ms, Some ErrStoreClosed)
  else if negb (ValidateNodeWrite n) then (ms, Some ErrInvalidMutation)
  else match ms_nodes ms !! n_id n with
       | None => (ms, Some ErrNodeNotFound)
       | Some old => if negb (node_replacement_ok old n) then (ms, Some ErrInvalidMutation) else (replace_node (n_id n) old n ms, None)
       end.

Definition RemoveNodeLabelToken (nid tok : Z) n ms : answer :=
  if ms_closed ms then (ms, Some ErrStoreClosed)
  else if negb (ValidateNodeHistorySnapshot nid n) then (ms, Some ErrInvalidMutation)
  else match ms_nodes ms !! nid with
       | None => (ms, Some ErrNodeNotFound)
       | Some old =>
           if negb (ValidateNodeLabelRemoval old n tok) then (ms, Some ErrInvalidMutation)
           else (replace_node nid old n (removeNodeLabelIndex nid tok ms), None)
       end.

Definition AddNodeLabelToken (nid tok : Z) n ms : answer :=
  if ms_closed ms then (ms, Some ErrStoreClosed)
  else if negb (ValidateNodeHistorySnapshot nid n) then (ms, Some ErrInvalidMutation)
  else match ms_nodes ms !! nid with
       | None => (ms, Some ErrNodeNotFound)
       | Some old =>
           if negb (ValidateNodeLabelAddition old n tok) then (ms, Some ErrInvalidMutation)
           else (replace_node nid old n (addNodeLabelIndex nid tok ms), None)
       end.

(** The current row of an ID and its index entries go. *)
Definition drop_node (nid : Z) n ms : memStore :=
  let ms := removeNodeLabelIndexes nid n ms in
  let ms := unindexNode n nid ms in
  let ms := removeNodeFromCompositeIndexesLocked n nid ms in
  set_nodes (delete nid (ms_nodes ms)) ms.

Definition hasAdjacencyLocked (nid : Z) ms : bool :=
  negb (adj_len (outIdx ms !! nid) =? 0)%nat || negb (adj_len (inIdx ms !! nid) =? 0)%nat.

Definition DeleteNode (nid : Z) ms : answer :=
  if ms_closed ms then (ms, Some ErrStoreClosed)
  else if negb (ValidateNodeID nid) then (ms, Some ErrInvalidMutation)
  else match ms_nodes ms !! nid with
       | None => (ms, Some ErrNodeNotFound)
       | Some n => if hasAdjacencyLocked nid ms then (ms, Some ErrInvalidMutation) else (drop_node nid n ms, None)
       end.

(** The first occurrence of every ID. *)
Fixpoint unique_ids (seen : gset Z) (ids : list Z) : list Z :=
  match ids with
  | [] => []
  | id :: ids' => if bool_decide (id ∈ seen) then unique_ids seen ids' else id :: unique_ids ({[id]} ∪ seen) ids'
  end.

Definition uniqueNodeIDs (ids : list Z) : list Z := unique_ids ∅ ids.

Definition uniqueRelIDs (ids : list Z) : list Z := unique_ids ∅ ids.

(** The first phase of a batched delete: the first ID's error. *)
Fixpoint deletable_nodes (ids : list Z) ms : option memErr :=
  match ids with
  | [] => None
  | id :: ids' =>
      match ms_nodes ms !! id with
      | None => Some ErrNodeNotFound
      | Some _ => if hasAdjacencyLocked id ms then Some ErrInvalidMutation else deletable_nodes ids' ms
      end
  end.

Definition DeleteNodesBatch (typedIDs : list Z) ms : answer :=
  if ms_closed ms then (ms, Some ErrStoreClosed)
  else match typedIDs with
       | [] => (ms, None)
       | _ =>
           if negb (forallb ValidateNodeID typedIDs) then (ms, Some ErrInvalidMutation)
           else
             let ids := uniqueNodeIDs typedIDs in
             match deletable_nodes ids ms with
             | Some e => (ms, Some e)
             | None => (fold_left (fun ms id => match ms_nodes ms !! id with Some n => drop_node id n ms | None => ms end) ids ms, None)
             end
       end.

(** ** Relationships *)

(** The writes of a create past its checks. *)
Definition insert_rel r ms : memStore :=
  let id := r_id r in
  let ms := store_rel r ms in
  let ms := addRelTypeIndex id (r_relType r) ms in
  let ms := set_adj (addAdjLocked (r_startID r) id (outIdx ms)) (addAdjLocked (r_endID r) id (inIdx ms)) ms in
  indexRel r id ms.

Definition PutRelationship r ms : answer :=
  if ms_closed ms then (ms, Some ErrStoreClosed)
  else if negb (ValidateRelationshipWrite r) then (ms, Some ErrInvalidMutation)
  else match ms_nodes ms !! r_startID r, ms_nodes ms !! r_endID r with
       | Some _, Some _ =>
           match ms_rels ms !! r_id r with
           | Some _ => (ms, Some ErrRelExists)
           | None => (insert_rel r ms, None)
           end
       | _, _ => (ms, Some ErrNodeNotFound)
       end.

Definition nodeIntegrityHash n : bytes := match NodeIntegrityOf n with Some ig => ni_Hash ig | None => [] end.

(** The caller's row gets the hashes; it is a fresh one, not frozen. *)
Definition with_endpoint_hashes (fromHash toHash : bytes) r : relRow :=
  let ig := match RelIntegrityOf r with Some ig => ig | None => mkRI [] [] [] [] [] None [] 0 end in
  default r (RelSetIntegrity (Some (mkRI (ri_Hash ig) (ri_PrevHash ig) fromHash toHash (ri_AuthorID ig) (ri_Signature ig) (ri_AuthorizedBy ig) (ri_AuthorizationLevel ig))) r).

(** With a valid proof that the graph made the ID: the answer also has the hashes. *)
Definition PutRelationshipGeneratedIDWithEndpointHashes r ms : memStore * (bytes * bytes + memErr) :=
  if ms_closed ms then (ms, inr ErrStoreClosed)
  else if negb (ValidateRelationshipWrite r) then (ms, inr ErrInvalidMutation)
  else match ms_nodes ms !! r_startID r, ms_nodes ms !! r_endID r with
       | Some start, Some end_ =>
           match ms_rels ms !! r_id r with
           | Some _ => (ms, inr ErrRelExists)
           | None =>
               let fromHash := nodeIntegrityHash start in
               let toHash := if negb (r_startID r =? r_endID r) then nodeIntegrityHash end_ else fromHash in
               (insert_rel (with_endpoint_hashes fromHash toHash r) ms, inl (fromHash, toHash))
           end
       | _, _ => (ms, inr ErrNodeNotFound)
       end.

(** The current row of an ID and its index entries give way to [r]'s. *)
Definition replace_rel (id : Z) (old r : relRow) ms : memStore := indexRel r id (store_rel r (unindexRel old id ms)).

Definition ReplaceRelationship r ms : answer :=
  if ms_closed ms then (ms, Some ErrStoreClosed)
  else if negb (ValidateRelationshipWrite r) then (ms, Some ErrInvalidMutation)
  else match ms_rels ms !! r_id r with
       | None => (ms, Some ErrRelNotFound)
       | Some old => if negb (ValidateRelationshipReplacement old r) then (ms, Some ErrInvalidMutation) else (replace_rel (r_id r) old r ms, None)
       end.

(** [exLeg]: the legs of the row move to the ex-adjacency. *)
Definition removeRelLocked (id : Z) (exLeg : bool) ms : answer :=
  match ms_rels ms !! id with
  | None => (ms, Some ErrRelNotFound)
  | Some r =>
      let ms := removeRelTypeIndex id (r_relType r) ms in
      let ms := set_adj (removeAdjLocked (r_startID r) id (outIdx ms)) (removeAdjLocked (r_endID r) id (inIdx ms)) ms in
      let ms := if exLeg then addExAdjLocked id r ms else ms in
      let ms := unindexRel r id ms in
      (set_rels (delete id (ms_rels ms)) ms, None)
  end.

Definition deleteRelLocked (id : Z) ms : answer := removeRelLocked id true ms.

Definition deleteRelationshipRouted (rid : Z) (exLeg : bool) ms : answer :=
  if ms_closed ms then (ms, Some ErrStoreClosed)
  else if negb (ValidateRelID rid) then (ms, Some ErrInvalidMutation)
  else removeRelLocked rid exLeg ms.

Definition DeleteRelationship (rid : Z) ms : answer := deleteRelationshipRouted rid true ms.

Definition UndoRelationshipCreate (rid : Z) ms : answer := deleteRelationshipRouted rid false ms.

Definition purgeRelIDFromIndexesLocked (id : Z) ms : memStore :=
  let ms := set_typeIdx (omap (fun set => let set := set ∖ {[id]} in if bool_decide (set = ∅) then None else Some set) (typeIdx ms)) ms in
  let ms := set_adj (drop_everywhere id (outIdx ms)) (drop_everywhere id (inIdx ms)) ms in
  set_relPropertyIndexes (PurgeRelFromAllPropertyIndexes (relPropertyIndexes ms) id) ms.

Definition deleteRelOrPurgeOrphanLocked (id : Z) ms : answer :=
  match deleteRelLocked id ms with
  | (ms, Some e) => if bool_decide (e = ErrRelNotFound) then (purgeRelIDFromIndexesLocked id ms, None) else (ms, Some e)
  | done => done
  end.

(** A loop of writes ends at the first error. *)
Fixpoint each_write {A} (write : A -> memStore -> answer) (l : list A) ms : answer :=
  match l with
  | [] => (ms, None)
  | x :: l' => match write x ms with (ms, Some e) => (ms, Some e) | (ms, None) => each_write write l' ms end
  end.

(** The relationships at a node, each once. *)
Definition connected (nid : Z) ms : list Z := base.elements (adj_elems (outIdx ms !! nid) ∪ adj_elems (inIdx ms !! nid)).

Definition DeleteNodeCascade (nid : Z) ms : answer :=
  if ms_closed ms then (ms, Some ErrStoreClosed)
  else if negb (ValidateNodeID nid) then (ms, Some ErrInvalidMutation)
  else match ms_nodes ms !! nid with
       | None => (ms, Some ErrNodeNotFound)
       | Some n =>
           match each_write deleteRelOrPurgeOrphanLocked (connected nid ms) ms with
           | (ms, Some e) => (ms, Some e)
           | (ms, None) => (drop_node nid n ms, None)
           end
       end.

(** The first phase of a batched create: the first row's error. *)
Fixpoint creatable_rels (seen : gset Z) (rels : list relRow) ms : option memErr :=
  match rels with
  | [] => None
  | r :: rels' =>
      if negb (ValidateRelationshipWrite r) then Some ErrInvalidMutation
      else match ms_nodes ms !! r_startID r, ms_nodes ms !! r_endID r with
           | Some _, Some _ =>
               match ms_rels ms !! r_id r with
               | Some _ => Some ErrRelExists
               | None => if bool_decide (r_id r ∈ seen) then Some ErrBatchDuplicate else creatable_rels ({[r_id r]} ∪ seen) rels' ms
               end
           | _, _ => Some ErrNodeNotFound
           end
  end.

Definition PutRelationshipsBatch (rels : list relRow) ms : answer :=
  if ms_closed ms then (ms, Some ErrStoreClosed)
  else match creatable_rels ∅ rels ms with
       | Some e => (ms, Some e)
       | None => (fold_left (fun ms r => insert_rel r ms) rels ms, None)
       end.

Definition DeleteRelationshipsBatch (typedIDs : list Z) ms : answer :=
  if ms_closed ms then (ms, Some ErrStoreClosed)
  else if negb (forallb ValidateRelID typedIDs) then (ms, Some ErrInvalidMutation)
  else
    let ids := uniqueRelIDs typedIDs in
    if forallb (fun id => bool_decide (is_Some (ms_rels ms !! id))) ids then each_write deleteRelLocked ids ms else (ms, Some ErrRelNotFound).

(** ** The store *)

(** Ordinals handed out stay handed out; the declared indexes go too. *)
Definition Clear ms : answer :=
  if ms_closed ms then (ms, Some ErrStoreClosed)
  else (mkMem false ∅ ∅ ∅ ∅ ∅ ∅ ∅ ∅ ∅ ∅ ∅ ∅ (∅, ∅) (maxNodeOrdinal ms) (maxRelOrdinal ms) (ms_alloc ms), None).

Definition Close ms : memStore := set_closed true ms.
End Writes.
