(* ===== verification/MemHistory.v ===== *)
(** * The in-memory store: version history (memorystore_history.go)

    The writes that keep the row they replace or delete as a history row, the doors
    of the version history, and the reads of it. *)

From stdpp Require Import gmap.
From S2P Require Import Prelude Bytes ValidTime Props Rows Pages ValueKeys PropertyIndex NodeIndexes CompositeIndex AdjSets Cascade MemRows MemStore.

Section History.
Context (FormatFloat : Z -> Z -> bytes) (ParseFloat : bytes -> option Z).
Implicit Types (ms : memStore) (n old current prevState : nodeRow) (r : relRow).

(** ** Writes with history *)

Definition ReplaceNodeWithHistory current (prevVersion : Z) prevState ms : answer :=
  if ms_closed ms then (ms, Some ErrStoreClosed)
  else if negb (ValidateNodeWrite current) then (ms, Some ErrInvalidMutation)
  else
    let nid := n_id current in
    if negb (ValidateNodeHistoryVersionSnapshot nid prevVersion prevState) then (ms, Some ErrInvalidMutation)
    else match ms_nodes ms !! nid with
         | None => (ms, Some ErrNodeNotFound)
         | Some old =>
             if negb (ValidateNodeLiveVersion old prevVersion && node_replacement_ok old current && node_replacement_ok old prevState) then (ms, Some ErrInvalidMutation)
             else (replace_node FormatFloat ParseFloat nid old current (putNodeHistoryRowLocked nid prevVersion prevState ms), None)
         end.

Definition RemoveNodeLabelTokenWithHistory (nid tok : Z) n (prevVersion : Z) prevState ms : answer :=
  if ms_closed ms then (ms, Some ErrStoreClosed)
  else if negb (ValidateNodeHistorySnapshot nid n && ValidateNodeHistoryVersionSnapshot nid prevVersion prevState) then (ms, Some ErrInvalidMutation)
  else match ms_nodes ms !! nid with
       | None => (ms, Some ErrNodeNotFound)
       | Some old =>
           if negb (ValidateNodeLiveVersion old prevVersion && ValidateNodeLabelRemoval old n tok && node_replacement_ok old prevState) then (ms, Some ErrInvalidMutation)
           else (replace_node FormatFloat ParseFloat nid old n (removeNodeLabelIndex nid tok (putNodeHistoryRowLocked nid prevVersion prevState ms)), None)
       end.

Definition AddNodeLabelTokenWithHistory (nid tok : Z) n (prevVersion : Z) prevState ms : answer :=
  if ms_closed ms then (ms, Some ErrStoreClosed)
  else if negb (ValidateNodeHistorySnapshot nid n && ValidateNodeHistoryVersionSnapshot nid prevVersion prevState) then (ms, Some ErrInvalidMutation)
  else match ms_nodes ms !! nid with
       | None => (ms, Some ErrNodeNotFound)
       | Some old =>
           if negb (ValidateNodeLiveVersion old prevVersion && ValidateNodeLabelAddition old n tok && node_replacement_ok old prevState) then (ms, Some ErrInvalidMutation)
           else (replace_node FormatFloat ParseFloat nid old n (addNodeLabelIndex nid tok (putNodeHistoryRowLocked nid prevVersion prevState ms)), None)
       end.

Definition ReplaceRelWithHistory (current : relRow) (prevVersion : Z) (prevState : relRow) ms : answer :=
  if ms_closed ms then (ms, Some ErrStoreClosed)
  else if negb (ValidateRelationshipWrite current) then (ms, Some ErrInvalidMutation)
  else
    let id := r_id current in
    if negb (ValidateRelationshipHistoryVersionSnapshot id prevVersion prevState) then (ms, Some ErrInvalidMutation)
    else match ms_rels ms !! id with
         | None => (ms, Some ErrRelNotFound)
         | Some old =>
             if negb (ValidateRelationshipLiveVersion old prevVersion && ValidateRelationshipReplacement old current && ValidateRelationshipReplacement old prevState) then (ms, Some ErrInvalidMutation)
             else (replace_rel FormatFloat ParseFloat id old current (putRelHistoryRowLocked id prevVersion prevState ms), None)
         end.

Definition DeleteRelWithHistory (rid prevVersion : Z) (tombstone : relRow) ms : answer :=
  if ms_closed ms then (ms, Some ErrStoreClosed)
  else if negb (ValidateRelationshipHistoryVersionSnapshot rid prevVersion tombstone) then (ms, Some ErrInvalidMutation)
  else match ms_rels ms !! rid with
       | None => (ms, Some ErrRelNotFound)
       | Some old =>
           if negb (ValidateRelationshipLiveVersion old prevVersion && ValidateRelationshipReplacement old tombstone) then (ms, Some ErrInvalidMutation)
           else deleteRelLocked FormatFloat ParseFloat rid (putRelHistoryRowLocked rid prevVersion tombstone ms)
       end.

Record RelTombstone := mkTombstone { rt_ID : Z; rt_PrevVersion : Z; rt_Tombstone : relRow }.

(** The checks of the tombstones against the store: the first one's error. *)
Fixpoint check_tombstones (relIDs tombed : gset Z) (l : list RelTombstone) ms : option memErr :=
  match l with
  | [] => None
  | rt :: l' =>
      if bool_decide (rt_ID rt ∈ tombed) then Some ErrInvalidMutation
      else if negb (bool_decide (rt_ID rt ∈ relIDs)) then Some ErrInvalidMutation
      else match ms_rels ms !! rt_ID rt with
           | None => Some ErrRelNotFound
           | Some old =>
               if negb (ValidateRelationshipLiveVersion old (rt_PrevVersion rt) && ValidateRelationshipReplacement old (rt_Tombstone rt)) then Some ErrInvalidMutation
               else check_tombstones relIDs ({[rt_ID rt]} ∪ tombed) l' ms
           end
  end.

(** Every connected relationship that has a current row has a tombstone. *)
Definition all_tombed (relIDs : list Z) (l : list RelTombstone) ms : bool :=
  forallb (fun id => negb (bool_decide (is_Some (ms_rels ms !! id))) || bool_decide (id ∈ map rt_ID l)) relIDs.

Definition DeleteNodeWithHistory (nid prevNodeVersion : Z) (nodeTombstone : nodeRow) (relTombstones : list RelTombstone) ms : answer :=
  if ms_closed ms then (ms, Some ErrStoreClosed)
  else if negb (ValidateNodeHistoryVersionSnapshot nid prevNodeVersion nodeTombstone &&
                forallb (fun rt => ValidateRelationshipHistoryVersionSnapshot (rt_ID rt) (rt_PrevVersion rt) (rt_Tombstone rt)) relTombstones) then (ms, Some ErrInvalidMutation)
  else match ms_nodes ms !! nid with
       | None => (ms, Some ErrNodeNotFound)
       | Some n =>
           if negb (ValidateNodeLiveVersion n prevNodeVersion && node_replacement_ok n nodeTombstone) then (ms, Some ErrInvalidMutation)
           else
             let relIDs := connected nid ms in
             match check_tombstones (list_to_set relIDs) ∅ relTombstones ms with
             | Some e => (ms, Some e)
             | None =>
                 if negb (all_tombed relIDs relTombstones ms) then (ms, Some ErrInvalidMutation)
                 else
                   let ms := putNodeHistoryRowLocked nid prevNodeVersion nodeTombstone ms in
                   let ms := fold_left (fun ms rt => putRelHistoryRowLocked (rt_ID rt) (rt_PrevVersion rt) (rt_Tombstone rt) ms) relTombstones ms in
                   match each_write (deleteRelOrPurgeOrphanLocked FormatFloat ParseFloat) relIDs ms with
                   | (ms, Some e) => (ms, Some e)
                   | (ms, None) => (drop_node FormatFloat ParseFloat nid n ms, None)
                   end
             end
       end.

(** ** Versions *)

Definition PutNodeVersion (nid version : Z) n ms : answer :=
  if ms_closed ms then (ms, Some ErrStoreClosed)
  else if negb (ValidateNodeHistoryVersionSnapshot nid version n) then (ms, Some ErrInvalidMutation)
  else (putNodeHistoryRowLocked nid version n ms, None).

Definition PutRelVersion (rid version : Z) r ms : answer :=
  if ms_closed ms then (ms, Some ErrStoreClosed)
  else if negb (ValidateRelationshipHistoryVersionSnapshot rid version r) then (ms, Some ErrInvalidMutation)
  else (putRelHistoryRowLocked rid version r ms, None).

Definition sorted_versions {T} (inner : gmap Z T) : list Z := sort_by Z.ltb (map fst (map_to_list inner)).

(** The history of one ID without all but its newest versions: nothing changes when
    it has no more than those. *)
Definition truncate {T} (id keepVersions : Z) (history : gmap Z (gmap Z T)) : gmap Z (gmap Z T) :=
  let inner := default ∅ (history !! id) in
  if bool_decide (inner = ∅) then history
  else if keepVersions =? 0 then delete id history
  else if Z.of_nat (size inner) <=? keepVersions then history
  else
    let versions := sorted_versions inner in
    <[id := fold_left (fun inner v => delete v inner) (take (length versions - Z.to_nat keepVersions) versions) inner]> history.

Definition TruncateNodeHistory (nid keepVersions : Z) ms : answer :=
  if ms_closed ms then (ms, Some ErrStoreClosed)
  else if negb (ValidateNodeID nid && ValidateHistoryRetention keepVersions) then (ms, Some ErrInvalidMutation)
  else (set_nodeHistory (truncate nid keepVersions (nodeHistory ms)) ms, None).

Definition TruncateRelHistory (rid keepVersions : Z) ms : answer :=
  if ms_closed ms then (ms, Some ErrStoreClosed)
  else if negb (ValidateRelID rid && ValidateHistoryRetention keepVersions) then (ms, Some ErrInvalidMutation)
  else (set_relHistory (truncate rid keepVersions (relHistory ms)) ms, None).

(** The history of one ID without its rows from a version on. *)
Definition trim {T} (id minVersion : Z) (history : gmap Z (gmap Z T)) : gmap Z (gmap Z T) :=
  let inner := filter (fun p => p.1 < minVersion) (default ∅ (history !! id)) in
  if bool_decide (inner = ∅) then delete id history else <[id := inner]> history.

Definition TrimNodeHistoryFrom (nid minVersion : Z) ms : answer :=
  if ms_closed ms then (ms, Some ErrStoreClosed)
  else if negb (ValidateNodeID nid) then (ms, Some ErrInvalidMutation)
  else (set_nodeHistory (trim nid minVersion (nodeHistory ms)) ms, None).

Definition TrimRelHistoryFrom (rid minVersion : Z) ms : answer :=
  if ms_closed ms then (ms, Some ErrStoreClosed)
  else if negb (ValidateRelID rid) then (ms, Some ErrInvalidMutation)
  else (set_relHistory (trim rid minVersion (relHistory ms)) ms, None).

(** ** Reads *)

Definition GetNode (nid : Z) ms : nodeRow + memErr :=
  if ms_closed ms then inr ErrStoreClosed
  else if nid <=? 0 then inr ErrInvalidMutation
  else match ms_nodes ms !! nid with Some n => inl (NodeDeepCopy n) | None => inr ErrNodeNotFound end.

Definition NodeIntegrityHash (nid : Z) ms : bytes + memErr :=
  if ms_closed ms then inr ErrStoreClosed
  else if nid <=? 0 then inr ErrInvalidMutation
  else match ms_nodes ms !! nid with Some n => inl (nodeIntegrityHash n) | None => inr ErrNodeNotFound end.

Definition EndpointIntegrityHashes (startID endID : Z) ms : bytes * bytes + memErr :=
  if ms_closed ms then inr ErrStoreClosed
  else if (startID <=? 0) || (endID <=? 0) then inr ErrInvalidMutation
  else match ms_nodes ms !! startID with
       | None => inr ErrNodeNotFound
       | Some start =>
           let fromHash := nodeIntegrityHash start in
           if startID =? endID then inl (fromHash, fromHash)
           else match ms_nodes ms !! endID with
                | None => inr ErrNodeNotFound
                | Some end_ => inl (fromHash, nodeIntegrityHash end_)
                end
       end.

Definition GetRelationship (rid : Z) ms : relRow + memErr :=
  if ms_closed ms then inr ErrStoreClosed
  else if rid <=? 0 then inr ErrInvalidMutation
  else match ms_rels ms !! rid with Some r => inl (RelDeepCopy r) | None => inr ErrRelNotFound end.

Definition GetNodeVersion (nid version : Z) ms : nodeRow + memErr :=
  if ms_closed ms then inr ErrStoreClosed
  else if negb (ValidateNodeID nid) then inr ErrInvalidMutation
  else match nodeHistory ms !! nid with
       | None => inr ErrVersionNotFound
       | Some inner => match inner !! version with Some n => inl (NodeDeepCopy n) | None => inr ErrVersionNotFound end
       end.

Definition GetRelVersion (rid version : Z) ms : relRow + memErr :=
  if ms_closed ms then inr ErrStoreClosed
  else if negb (ValidateRelID rid) then inr ErrInvalidMutation
  else match relHistory ms !! rid with
       | None => inr ErrVersionNotFound
       | Some inner => match inner !! version with Some r => inl (RelDeepCopy r) | None => inr ErrVersionNotFound end
       end.

(** The rows of the versions. *)
Definition rows_at {T} (inner : gmap Z T) (versions : list Z) : list T := omap (fun v => inner !! v) versions.

Definition GetNodeHistory (nid : Z) ms : list nodeRow + memErr :=
  if ms_closed ms then inr ErrStoreClosed
  else if negb (ValidateNodeID nid) then inr ErrInvalidMutation
  else let inner := default ∅ (nodeHistory ms !! nid) in inl (map NodeDeepCopy (rows_at inner (sorted_versions inner))).

Definition GetRelHistory (rid : Z) ms : list relRow + memErr :=
  if ms_closed ms then inr ErrStoreClosed
  else if negb (ValidateRelID rid) then inr ErrInvalidMutation
  else let inner := default ∅ (relHistory ms !! rid) in inl (map RelDeepCopy (rows_at inner (sorted_versions inner))).

(** The version numbers of a page.  The bound on an ID's versions, which lets a page
    above them end early, is left out. *)
Definition page_versions {T} (inner : gmap Z T) (startVersion limit : Z) : list Z :=
  let versions := sort_by Z.ltb (filter (fun v => startVersion <= v) (map fst (map_to_list inner))) in
  if (0 <? limit) && (limit <? Z.of_nat (length versions)) then take (Z.to_nat limit) versions else versions.

Definition NodeHistoryVersionsFrom (nid startVersion limit : Z) ms : list nodeRow + memErr :=
  if ms_closed ms then inr ErrStoreClosed
  else if negb (ValidateNodeID nid && ValidateHistoryPageLimit limit) then inr ErrInvalidMutation
  else let inner := default ∅ (nodeHistory ms !! nid) in inl (map NodeDeepCopy (rows_at inner (page_versions inner startVersion limit))).

Definition RelHistoryVersionsFrom (rid startVersion limit : Z) ms : list relRow + memErr :=
  if ms_closed ms then inr ErrStoreClosed
  else if negb (ValidateRelID rid && ValidateHistoryPageLimit limit) then inr ErrInvalidMutation
  else let inner := default ∅ (relHistory ms !! rid) in inl (map RelDeepCopy (rows_at inner (page_versions inner startVersion limit))).

(** ** Adjacency reads (memorystore_rel.go) *)

Definition relationshipMatchesOutgoing r (nid typeToken : Z) : bool :=
  if negb (r_startID r =? nid) then false else (typeToken =? 0) || HasTypeTokenRaw typeToken r.

Definition relationshipMatchesIncoming r (nid typeToken : Z) : bool :=
  if negb (r_endID r =? nid) then false else (typeToken =? 0) || HasTypeTokenRaw typeToken r.

(** The rows of one node's set, of the type asked for. *)
Definition adjacent_rows (set : option adjSet) (matches : relRow -> bool) (typeToken : Z) ms : list relRow :=
  let typeSet := default ∅ (typeIdx ms !! typeToken) in
  if (adj_len set =? 0)%nat then []
  else if negb (typeToken =? 0) && bool_decide (typeSet = ∅) then []
  else SortRelsByID (omap (fun relID =>
         if negb (typeToken =? 0) && negb (bool_decide (relID ∈ typeSet)) then None
         else match ms_rels ms !! relID with
              | None => None
              | Some r => if matches r then Some r else None
              end) (adj_all set)).

Definition OutgoingRelationships (nid typeToken : Z) ms : list relRow + memErr :=
  if ms_closed ms then inr ErrStoreClosed
  else if negb (ValidateNodeID nid) then inr ErrInvalidMutation
  else match ms_nodes ms !! nid with
       | None => inr ErrNodeNotFound
       | Some _ => inl (adjacent_rows (outIdx ms !! nid) (fun r => relationshipMatchesOutgoing r nid typeToken) typeToken ms)
       end.

Definition IncomingRelationships (nid typeToken : Z) ms : list relRow + memErr :=
  if ms_closed ms then inr ErrStoreClosed
  else if negb (ValidateNodeID nid) then inr ErrInvalidMutation
  else match ms_nodes ms !! nid with
       | None => inr ErrNodeNotFound
       | Some _ => inl (adjacent_rows (inIdx ms !! nid) (fun r => relationshipMatchesIncoming r nid typeToken) typeToken ms)
       end.

(** The nodes asked for, or the first one's error. *)
Fixpoint requested (ids : list Z) (asked : gset Z) ms : gset Z + memErr :=
  match ids with
  | [] => inl asked
  | nid :: ids' =>
      if negb (ValidateNodeID nid) then inr ErrInvalidMutation
      else if bool_decide (nid ∈ asked) then requested ids' asked ms
      else match ms_nodes ms !! nid with
           | None => inr ErrNodeNotFound
           | Some _ => requested ids' ({[nid]} ∪ asked) ms
           end
  end.

(** The answer keeps the nodes that have rows. *)
Definition rows_per_node (rows : Z -> list relRow) (asked : gset Z) : gmap Z (list relRow) :=
  filter (fun p => p.2 <> []) (set_to_map (fun nid => (nid, rows nid)) asked).

Definition OutgoingRelationshipsForNodes (typedNodeIDs : list Z) (typeToken : Z) ms : gmap Z (list relRow) + memErr :=
  if ms_closed ms then inr ErrStoreClosed
  else match requested typedNodeIDs ∅ ms with
       | inr e => inr e
       | inl asked => inl (rows_per_node (fun nid => adjacent_rows (outIdx ms !! nid) (fun r => relationshipMatchesOutgoing r nid typeToken) typeToken ms) asked)
       end.

Definition IncomingRelationshipsForNodes (typedNodeIDs : list Z) (typeToken : Z) ms : gmap Z (list relRow) + memErr :=
  if ms_closed ms then inr ErrStoreClosed
  else match requested typedNodeIDs ∅ ms with
       | inr e => inr e
       | inl asked => inl (rows_per_node (fun nid => adjacent_rows (inIdx ms !! nid) (fun r => relationshipMatchesIncoming r nid typeToken) typeToken ms) asked)
       end.

Definition degreeLocked (set : option adjSet) (typeToken : Z) ms : nat :=
  if (adj_len set =? 0)%nat then 0%nat
  else if typeToken =? 0 then adj_len set
  else
    let typeSet := default ∅ (typeIdx ms !! typeToken) in
    if bool_decide (typeSet = ∅) then 0%nat else length (filter (.∈ typeSet) (adj_all set)).

Definition OutgoingDegree (nid typeToken : Z) ms : nat + memErr :=
  if ms_closed ms then inr ErrStoreClosed
  else if negb (ValidateNodeID nid) then inr ErrInvalidMutation
  else match ms_nodes ms !! nid with
       | None => inr ErrNodeNotFound
       | Some _ => inl (degreeLocked (outIdx ms !! nid) typeToken ms)
       end.

Definition IncomingDegree (nid typeToken : Z) ms : nat + memErr :=
  if ms_closed ms then inr ErrStoreClosed
  else if negb (ValidateNodeID nid) then inr ErrInvalidMutation
  else match ms_nodes ms !! nid with
       | None => inr ErrNodeNotFound
       | Some _ => inl (degreeLocked (inIdx ms !! nid) typeToken ms)
       end.
End History.
