(* ===== verification/MemPurge.v ===== *)
(** * The in-memory store: retention purges (memorystore_retention_purge.go, memorystore_rel_retention_purge.go)

    The chunks a retention purge asks the store for: the selection of the victims,
    and the removal of every trace of them. *)

From stdpp Require Import gmap.
From S2P Require Import Prelude Bytes ValidTime Props Rows ValueKeys PropertyIndex NodeIndexes CompositeIndex AdjSets Retention RetentionPurge MemRows MemStore.

Section Purge.
(** The order in which Go ranges over a map with these keys. *)
Context (FormatFloat : Z -> Z -> bytes) (ParseFloat : bytes -> option Z) (order : gset Z -> list Z) (axis : ValidAxis) `{Layout}.
Implicit Types (ms : memStore) (n : nodeRow) (r : relRow).

Definition defaultRetentionPurgeChunk : Z := 256.

Definition noResult : RetentionPurgeResult := mkResult 0 0 false [].

(** The victims in the order of [ids], and whether one more was met. *)
Fixpoint select (chunk : Z) (wanted : Z -> bool) (ids victims : list Z) : list Z * bool :=
  match ids with
  | [] => (victims, false)
  | id :: ids' =>
      if negb (wanted id) then select chunk wanted ids' victims
      else if chunk <=? Z.of_nat (length victims) then (victims, true)
      else select chunk wanted ids' (victims ++ [id])
  end.

(** A relationship at a purged node goes with its history: the count of the rows. *)
Definition purge_connected (relID : Z) (s : Z * memStore) : Z * memStore * option memErr :=
  let '(relsPurged, ms) := s in
  let relsPurged := if bool_decide (is_Some (ms_rels ms !! relID)) then relsPurged + 1 else relsPurged in
  let rows := relRowsLocked relID ms in
  match deleteRelOrPurgeOrphanLocked FormatFloat ParseFloat relID ms with
  | (ms, Some e) => (relsPurged, ms, Some e)
  | (ms, None) =>
      let ms := dropExAdjRowsLocked relID rows ms in
      (relsPurged, set_relHistory (delete relID (relHistory ms)) ms, None)
  end.

Fixpoint purge_all_connected (ids : list Z) (s : Z * memStore) : Z * memStore * option memErr :=
  match ids with
  | [] => (s, None)
  | id :: ids' => match purge_connected id s with (s, None) => purge_all_connected ids' s | failed => failed end
  end.

(** The node goes with its index entries, its ex-adjacency and its history. *)
Definition purge_node (nid : Z) n ms : memStore :=
  let ms := removeNodeLabelIndexes nid n ms in
  let ms := dropExAdjNodeLocked nid ms in
  let ms := unindexNode FormatFloat ParseFloat n nid ms in
  let ms := removeNodeFromCompositeIndexesLocked FormatFloat n nid ms in
  let ms := set_nodes (delete nid (ms_nodes ms)) ms in
  set_nodeHistory (delete nid (nodeHistory ms)) ms.

(** The IDs purged, the relationships counted and the store. *)
Fixpoint purge_victims (victims purged : list Z) (s : Z * memStore) : list Z * (Z * memStore) * option memErr :=
  match victims with
  | [] => (purged, s, None)
  | nid :: victims' =>
      match ms_nodes s.2 !! nid with
      | None => purge_victims victims' purged s
      | Some n =>
          match purge_all_connected (connected nid s.2) s with
          | (s, Some e) => (purged, s, Some e)
          | (s, None) => purge_victims victims' (purged ++ [nid]) (s.1, purge_node nid n s.2)
          end
      end
  end.

Definition purgeNodesByLabel (labelToken chunk : Z) (qualifies : Z -> nodeRow -> bool) ms : (RetentionPurgeResult + memErr) * memStore :=
  if ms_closed ms then (inr ErrStoreClosed, ms)
  else
    let chunk := if chunk <=? 0 then defaultRetentionPurgeChunk else chunk in
    let wanted := fun id => match ms_nodes ms !! id with Some n => qualifies id n | None => false end in
    let '(victims, more) := select chunk wanted (order (default ∅ (labelIdx ms !! labelToken))) [] in
    match purge_victims victims [] (0, ms) with
    | (_, (_, ms), Some e) => (inr e, ms)
    | (purged, (relsPurged, ms), None) => (inl (mkResult (Z.of_nat (length purged)) relsPurged more purged), ms)
    end.

(** Minted before the boundary. *)
Definition minted_before (before : Instant) (id : Z) : bool := SnowflakeInstant id <? before.

Definition PurgeNodesByLabelBefore (labelToken : Z) (before : Instant) (chunk : Z) ms : (RetentionPurgeResult + memErr) * memStore :=
  if before <=? 0 then (inl noResult, ms) else purgeNodesByLabel labelToken chunk (fun nid _ => minted_before before nid) ms.

(** Valid no longer than the boundary. *)
Definition ended_before (before : Instant) n : bool :=
  match NodeTemporal n with Some tm => negb (ValidAxis_Open axis (ValidTo tm)) && (ValidTo tm <? before) | None => false end.

Definition PurgeNodesByLabelValidToBefore (labelToken : Z) (before : Instant) (chunk : Z) ms : (RetentionPurgeResult + memErr) * memStore :=
  if before <=? 0 then (inl noResult, ms) else purgeNodesByLabel labelToken chunk (fun _ n => ended_before before n) ms.

(** ** Relationships of a type *)

(** Any row of the history decides: the map's first. *)
Definition relVersionsOfType (versions : gmap Z relRow) (typeToken : Z) : bool :=
  match map_to_list versions with p :: _ => r_relType p.2 =? typeToken | [] => false end.

Definition purgeRelLocked (id : Z) ms : answer :=
  let rows := relRowsLocked id ms in
  match (match ms_rels ms !! id with Some _ => deleteRelLocked FormatFloat ParseFloat id ms | None => (ms, None) end) with
  | (ms, Some e) => (ms, Some e)
  | (ms, None) =>
      let ms := dropExAdjRowsLocked id rows ms in
      (set_relHistory (delete id (relHistory ms)) ms, None)
  end.

Definition PurgeRelsByTypeBefore (typeToken : Z) (before : Instant) (chunk : Z) ms : (RetentionPurgeResult + memErr) * memStore :=
  if (before <=? 0) || (typeToken =? 0) then (inl noResult, ms)
  else if ms_closed ms then (inr ErrStoreClosed, ms)
  else
    let chunk := if chunk <=? 0 then defaultRetentionPurgeChunk else chunk in
    let live := fun id => match ms_rels ms !! id with Some r => minted_before before (r_id r) | None => false end in
    let '(victims, more) := select chunk live (order (default ∅ (typeIdx ms !! typeToken))) [] in
    let old := fun id => match relHistory ms !! id with
                         | Some versions => minted_before before id && relVersionsOfType versions typeToken && negb (bool_decide (is_Some (ms_rels ms !! id)))
                         | None => false
                         end in
    let '(victims, more) := if more then (victims, more) else select chunk old (order (dom (relHistory ms))) victims in
    match each_write purgeRelLocked victims ms with
    | (ms, Some e) => (inr e, ms)
    | (ms, None) => (inl (mkResult 0 (Z.of_nat (length victims)) more []), ms)
    end.
End Purge.

(** The store's answer to the retention purge: an error of the store is the core's. *)
Definition to_core (answer : (RetentionPurgeResult + memErr) * memStore) : (RetentionPurgeResult + retError) * memStore :=
  match answer with (inl res, ms) => (inl res, ms) | (inr _, ms) => (inr ErrStore, ms) end.
