(* ===== verification/MemInv.v ===== *)
(** * The in-memory store: what its parts promise

    The invariants of the store's parts, each against the rows it describes: a label
    or type index holds exactly the rows of its tokens, an adjacency index exactly
    the legs of the current relationships, and the dense ordinals are one number per
    ID for as long as any row of the ID is kept. *)

From stdpp Require Import gmap.
From S2P Require Import Prelude Bytes ValidTime Props Rows ValueKeys PropertyIndex NodeIndexes CompositeIndex AdjSets Cascade MemRows MemStore.

(** ** Members of a token *)

Definition tok_members (idx : gmap Z (gset Z)) (tok : Z) : gset Z := default ∅ (idx !! tok).

(** No empty set is kept. *)
Definition members_ok (idx : gmap Z (gset Z)) (P : Z -> Z -> Prop) : Prop :=
  (forall tok S, idx !! tok = Some S -> S <> ∅) /\ forall tok id, id ∈ tok_members idx tok <-> P tok id.

Lemma members_ok_empty : members_ok ∅ (fun _ _ => False).
Proof. split; [intros tok S; by rewrite lookup_empty|]. intros tok id. unfold tok_members. rewrite lookup_empty. cbn. set_solver. Qed.

Lemma members_ok_ext idx P Q : members_ok idx P -> (forall tok id, Q tok id <-> P tok id) -> members_ok idx Q.
Proof. intros [H1 H2] HQ. split; [done|]. intros tok id. by rewrite HQ. Qed.

Lemma tok_members_add tok id idx t : tok_members (add_member tok id idx) t = if decide (t = tok) then {[id]} ∪ tok_members idx t else tok_members idx t.
Proof. unfold tok_members, add_member. destruct (decide (t = tok)) as [->|Hne]; [by rewrite lookup_insert_eq|by rewrite lookup_insert_ne]. Qed.

Lemma tok_members_remove tok id idx t : tok_members (remove_member tok id idx) t = if decide (t = tok) then tok_members idx t ∖ {[id]} else tok_members idx t.
Proof.
  unfold tok_members, remove_member. destruct (idx !! tok) as [S|] eqn:E.
  - case_bool_decide as Ee; (destruct (decide (t = tok)) as [->|Hne]; [rewrite ?lookup_delete_eq, ?lookup_insert_eq, E; cbn; by rewrite ?Ee|by rewrite ?lookup_delete_ne, ?lookup_insert_ne]).
  - destruct (decide (t = tok)) as [->|Hne]; [|done]. rewrite E. cbn. set_solver.
Qed.

Lemma add_member_ok tok id idx P : members_ok idx P -> members_ok (add_member tok id idx) (fun t x => (t = tok /\ x = id) \/ P t x).
Proof.
  intros [H1 H2]. split.
  - intros t S. unfold add_member. destruct (decide (t = tok)) as [->|Hne]; [rewrite lookup_insert_eq; intros [= <-]; set_solver|rewrite lookup_insert_ne by done; apply H1].
  - intros t x. rewrite tok_members_add. destruct (decide (t = tok)) as [->|Hne]; [rewrite elem_of_union, elem_of_singleton, H2; tauto|rewrite H2; tauto].
Qed.

Lemma remove_member_ok tok id idx P : members_ok idx P -> members_ok (remove_member tok id idx) (fun t x => P t x /\ ~ (t = tok /\ x = id)).
Proof.
  intros [H1 H2]. split.
  - intros t S. unfold remove_member. destruct (idx !! tok) as [S0|]; [|apply H1]. case_bool_decide as Ee; (destruct (decide (t = tok)) as [->|Hne]; [rewrite ?lookup_delete_eq, ?lookup_insert_eq|rewrite ?lookup_delete_ne, ?lookup_insert_ne by done; apply H1]); [done|].
    by intros [= <-].
  - intros t x. rewrite tok_members_remove. destruct (decide (t = tok)) as [->|Hne]; [rewrite elem_of_difference, elem_of_singleton, H2; tauto|rewrite H2; tauto].
Qed.

Lemma add_members_ok id toks : forall idx P, members_ok idx P -> members_ok (fold_left (fun idx tok => add_member tok id idx) toks idx) (fun t x => (t ∈ toks /\ x = id) \/ P t x).
Proof.
  induction toks as [|tok toks IH]; intros idx P H; cbn [fold_left]; [eapply members_ok_ext; [exact H|]; intros t x; rewrite elem_of_nil; tauto|].
  eapply members_ok_ext; [apply IH, (add_member_ok tok id _ _ H)|]. intros t x. cbn. rewrite elem_of_cons. tauto.
Qed.

Lemma remove_members_ok id toks : forall idx P, members_ok idx P -> members_ok (fold_left (fun idx tok => remove_member tok id idx) toks idx) (fun t x => P t x /\ ~ (t ∈ toks /\ x = id)).
Proof.
  induction toks as [|tok toks IH]; intros idx P H; cbn [fold_left]; [eapply members_ok_ext; [exact H|]; intros t x; rewrite elem_of_nil; tauto|].
  eapply members_ok_ext; [apply IH, (remove_member_ok tok id _ _ H)|]. intros t x. cbn. rewrite elem_of_cons. tauto.
Qed.

(** The tokens of the rows of a map. *)
Definition carries {T} (toks : T -> list Z) (rows : gmap Z T) (tok id : Z) : Prop := exists t, rows !! id = Some t /\ tok ∈ toks t.

Lemma carries_insert {T} (toks : T -> list Z) rows id t tok x : rows !! id = None -> carries toks (<[id := t]> rows) tok x <-> (tok ∈ toks t /\ x = id) \/ carries toks rows tok x.
Proof.
  intros Hid. unfold carries. destruct (decide (x = id)) as [->|Hne]; [rewrite lookup_insert_eq, Hid; naive_solver|rewrite lookup_insert_ne by done; naive_solver].
Qed.

Lemma carries_delete {T} (toks : T -> list Z) rows id t tok x : rows !! id = Some t -> carries toks (delete id rows) tok x <-> carries toks rows tok x /\ ~ (tok ∈ toks t /\ x = id).
Proof.
  intros Hid. unfold carries. destruct (decide (x = id)) as [->|Hne]; [rewrite lookup_delete_eq, Hid; naive_solver|rewrite lookup_delete_ne by done; naive_solver].
Qed.

Lemma carries_replace {T} (toks : T -> list Z) rows id old t tok x : rows !! id = Some old -> (forall k, k ∈ toks t <-> k ∈ toks old) ->
  carries toks (<[id := t]> rows) tok x <-> carries toks rows tok x.
Proof.
  intros Hid Ht. unfold carries. destruct (decide (x = id)) as [->|Hne]; [rewrite lookup_insert_eq, Hid|by rewrite lookup_insert_ne].
  split; [intros (? & [= <-] & ?); exists old; by rewrite <- Ht|intros (? & [= <-] & ?); exists t; by rewrite Ht].
Qed.

(** ** Legs *)

Definition adj_exact (idx : gmap Z adjSet) (leg : relRow -> Z) (rels : gmap Z relRow) : Prop :=
  idx_ok idx /\ forall nid rid, rid ∈ members idx nid <-> exists r, rels !! rid = Some r /\ leg r = nid.

Lemma adj_exact_empty leg : adj_exact ∅ leg ∅.
Proof. split; [apply empty_idx_ok|]. intros nid rid. rewrite members_empty. split; [set_solver|]. intros (r & Hr & _). by rewrite lookup_empty in Hr. Qed.

Lemma adj_exact_insert idx leg rels id r : adj_exact idx leg rels -> rels !! id = None -> adj_exact (addAdjLocked (leg r) id idx) leg (<[id := r]> rels).
Proof.
  intros [H1 H2] Hid. destruct (addAdj_ok (leg r) id idx H1) as [H3 H4]. split; [done|]. intros nid rid. rewrite H4.
  destruct (decide (rid = id)) as [->|Hne].
  - rewrite lookup_insert_eq. destruct (decide (nid = leg r)) as [->|Hn]; [split; [by exists r|set_solver]|]. rewrite H2, Hid. naive_solver.
  - rewrite lookup_insert_ne by done. destruct (decide (nid = leg r)) as [->|Hn]; [rewrite elem_of_union, elem_of_singleton, H2; naive_solver|apply H2].
Qed.

Lemma adj_exact_replace idx leg rels id old r : adj_exact idx leg rels -> rels !! id = Some old -> leg r = leg old -> adj_exact idx leg (<[id := r]> rels).
Proof.
  intros [H1 H2] Hid Hl. split; [done|]. intros nid rid. rewrite H2. destruct (decide (rid = id)) as [->|Hne]; [rewrite lookup_insert_eq, Hid|by rewrite lookup_insert_ne]. naive_solver.
Qed.

Lemma adj_exact_delete idx leg rels id r : adj_exact idx leg rels -> rels !! id = Some r -> adj_exact (removeAdjLocked (leg r) id idx) leg (delete id rels).
Proof.
  intros [H1 H2] Hid. destruct (removeAdj_ok (leg r) id idx H1) as [H3 H4]. split; [done|]. intros nid rid. rewrite H4.
  destruct (decide (rid = id)) as [->|Hne].
  - rewrite lookup_delete_eq. destruct (decide (nid = leg r)) as [->|Hn]; [set_solver|]. rewrite H2, Hid. naive_solver.
  - rewrite lookup_delete_ne by done. destruct (decide (nid = leg r)) as [->|Hn]; [rewrite elem_of_difference, elem_of_singleton, H2; naive_solver|apply H2].
Qed.

(** ** Ordinals *)

(** [R id o]: a row of [id] has ordinal [o].  Zero is handed out only when the
    numbers are used up. *)
Record ordinals (R : Z -> Z -> Prop) (max : Z) : Prop := {
  ord_max : 0 <= max <= MaxUint32;
  ord_range : forall id o, R id o -> 0 <= o <= max;
  ord_zero : forall id, R id 0 -> max = MaxUint32;
  ord_one : forall id o o', R id o -> R id o' -> o = o';
  ord_inj : forall id id' o, R id o -> R id' o -> o <> 0 -> id = id';
}.

Lemma ordinals_sub R R' max : ordinals R max -> (forall id o, R' id o -> R id o) -> ordinals R' max.
Proof. intros H HR. destruct H. split; eauto. Qed.

(** The ordinals of the rows of an ID. *)
Definition row_ord {T} (ordinal : T -> Z) (cur : gmap Z T) (history : gmap Z (gmap Z T)) (id o : Z) : Prop := exists t, t ∈ rows_of cur history id /\ ordinal t = o.

Lemma elem_of_rows {T} (cur : gmap Z T) history id t : t ∈ rows_of cur history id <-> cur !! id = Some t \/ exists v, default ∅ (history !! id) !! v = Some t.
Proof.
  unfold rows_of. rewrite elem_of_app, list_elem_of_fmap. split.
  - intros [Hc|([v x] & -> & Hx)]; [left; destruct (cur !! id) as [n|]; [by apply list_elem_of_singleton in Hc as ->|by apply not_elem_of_nil in Hc]|].
    apply elem_of_map_to_list in Hx. right. by exists v.
  - intros [->|[v Hv]]; [left; left|]. right. exists (v, t). split; [done|]. by apply elem_of_map_to_list.
Qed.

Lemma first_ordinal_spec {T} (ordinal : T -> Z) rows :
  match first_ordinal ordinal rows with
  | Some o => o <> 0 /\ exists t, t ∈ rows /\ ordinal t = o
  | None => forall t, t ∈ rows -> ordinal t = 0
  end.
Proof.
  induction rows as [|r rows IH]; cbn [first_ordinal]; [by intros t ?%not_elem_of_nil|]. destruct (Z.eqb_spec (ordinal r) 0) as [E|E]; cbn [negb].
  - destruct (first_ordinal ordinal rows) as [o|]; [destruct IH as (? & t & ? & ?); split; [done|]; exists t; split; [by right|done]|]. intros t [->|Ht]%elem_of_cons; auto.
  - split; [done|]. exists r. split; [left|done].
Qed.

(** The number an ID gets next, and the largest one after it. *)
Definition next_ordinal {T} (ordinal : T -> Z) (cur : gmap Z T) history (id max : Z) : Z * Z :=
  match first_ordinal ordinal (rows_of cur history id) with
  | Some o => (o, max)
  | None => if max =? MaxUint32 then (0, max) else (max + 1, max + 1)
  end.

Lemma next_ordinal_ok {T} (ordinal : T -> Z) cur history id max (R' : Z -> Z -> Prop) :
  let R := row_ord ordinal cur history in
  let '(o, max') := next_ordinal ordinal cur history id max in
  ordinals R max -> (forall x p, R' x p -> R x p \/ (x = id /\ p = o)) -> ordinals R' max'.
Proof.
  intros R. unfold next_ordinal. pose proof (first_ordinal_spec ordinal (rows_of cur history id)) as Hf. destruct (first_ordinal ordinal (rows_of cur history id)) as [o|].
  - intros Ho HR. apply (ordinals_sub R); [done|]. intros x p Hp. destruct (HR x p Hp) as [|[-> ->]]; [done|]. destruct Hf as (_ & t & Ht & E). by exists t.
  - assert (Hz : forall p, R id p -> p = 0) by (intros p (t & Ht & <-); auto).
    destruct (Z.eqb_spec max MaxUint32) as [->|Hm]; intros Ho HR; destruct Ho as [O1 O2 O3 O4 O5]; split; try done.
    + intros x p Hp. destruct (HR x p Hp) as [?|[-> ->]]; [eauto|lia].
    + intros x p q Hp Hq. destruct (HR x p Hp) as [Hx|[Hx ->]], (HR x q Hq) as [Hy|[Hy ->]]; [eauto|..|done]; subst x; [by apply Hz|symmetry; by apply Hz].
    + intros x y p Hp Hq Hne. destruct (HR x p Hp) as [Hx|[_ Hx]], (HR y p Hq) as [Hy|[_ Hy]]; [by apply (O5 x y p)|done..].
    + lia.
    + intros x p Hp. destruct (HR x p Hp) as [H|[-> ->]]; [specialize (O2 x p H); lia|lia].
    + intros x Hp. destruct (HR x 0 Hp) as [H|[_ ?]]; [specialize (O3 x H); lia|lia].
    + assert (Hid : forall p, ~ R id p) by (intros p Hp; pose proof (Hz p Hp) as ->; by apply Hm, (O3 id)).
      intros x p q Hp Hq. destruct (HR x p Hp) as [Hx|[Hx ->]], (HR x q Hq) as [Hy|[Hy ->]]; [eauto|..|done]; subst x; exfalso; by eapply Hid.
    + assert (Hnew : forall x, ~ R x (max + 1)) by (intros x Hp; specialize (O2 x _ Hp); lia).
      intros x y p Hp Hq Hne. destruct (HR x p Hp) as [Hx|[Hx Ep]], (HR y p Hq) as [Hy|[Hy Ep']]; [by apply (O5 x y p)|subst p; exfalso; by eapply Hnew..|congruence].
Qed.

(** A current row's number is the one its ID gets. *)
Lemma next_ordinal_cur {T} (ordinal : T -> Z) cur history id max t : ordinals (row_ord ordinal cur history) max -> cur !! id = Some t -> next_ordinal ordinal cur history id max = (ordinal t, max).
Proof.
  intros Ho Hid. unfold next_ordinal. pose proof (first_ordinal_spec ordinal (rows_of cur history id)) as Hf.
  assert (Hr : row_ord ordinal cur history id (ordinal t)) by (exists t; split; [apply elem_of_rows; by left|done]).
  destruct (first_ordinal ordinal (rows_of cur history id)) as [o|].
  - destruct Hf as (_ & u & Hu & E). f_equal. apply (ord_one _ _ Ho id); [by exists u|done].
  - assert (E : ordinal t = 0) by (apply Hf, elem_of_rows; by left). rewrite E in Hr. rewrite (ord_zero _ _ Ho id Hr), E. by rewrite Z.eqb_refl.
Qed.
