(* ===== verification/MemStoreOk.v ===== *)
(** * The in-memory store: the invariant

    Every index of the store describes its rows: the labels and types, the legs, the
    property and composite indexes; a relationship's endpoints exist and it carries
    their ordinals; ordinals are unique; and a relationship is found at both ends of
    every history row it has, through the live adjacency or the ex-adjacency, unless
    the end was purged.  Every primitive write keeps the invariant. *)

From stdpp Require Import gmap.
From S2P Require Import Prelude Bytes ValidTime Props Rows ValueKeys PropertyIndex NodeIndexes CompositeIndex AdjSets Cascade MemRows MemStore MemInv.

(** ** Stored copies say what their row says *)

Ltac stored_node := unfold CompactFrozenCopyWithOrdinal, NodeCompactFrozenCopy; let n := match goal with n : nodeRow |- _ => n end in
  destruct (n_meta n); [done|]; destruct (compactNodeMeta (n_temporal n) (n_integrity n)); done.

Ltac stored_rel := unfold CompactFrozenCopyWithOrdinals, RelCompactFrozenCopy; let r := match goal with r : relRow |- _ => r end in
  destruct (r_meta r); [done|]; destruct (compactRelMeta (r_temporal r) (r_integrity r)); done.

Lemma stored_node_id a o (n : nodeRow) : n_id (CompactFrozenCopyWithOrdinal a o n) = n_id n.
Proof. stored_node. Qed.

Lemma stored_node_labels a o (n : nodeRow) : AllLabelTokens (CompactFrozenCopyWithOrdinal a o n) = AllLabelTokens n.
Proof. stored_node. Qed.

Lemma stored_node_entity a o (n : nodeRow) : node_entity (CompactFrozenCopyWithOrdinal a o n) = node_entity n.
Proof. stored_node. Qed.

Lemma stored_node_version a o (n : nodeRow) : n_version (CompactFrozenCopyWithOrdinal a o n) = n_version n.
Proof. stored_node. Qed.

Lemma stored_node_ordinal a o (n : nodeRow) : n_ordinal (CompactFrozenCopyWithOrdinal a o n) = o.
Proof. stored_node. Qed.

Lemma stored_node_composite FormatFloat idxs defs a o (n : nodeRow) id :
  AddNodeToCompositeIndexes FormatFloat idxs defs n id = AddNodeToCompositeIndexes FormatFloat idxs defs (CompactFrozenCopyWithOrdinal a o n) id.
Proof. stored_node. Qed.

Lemma stored_rel_fields a o s e (r : relRow) (row := CompactFrozenCopyWithOrdinals a o s e r) :
  r_id row = r_id r /\ r_relType row = r_relType r /\ r_startID row = r_startID r /\ r_endID row = r_endID r /\ r_version row = r_version r /\
  rel_entity row = rel_entity r /\ r_ordinal row = o /\ r_startOrdinal row = s /\ r_endOrdinal row = e.
Proof. subst row. split_and!; stored_rel. Qed.

Lemma history_node_fields o (n : nodeRow) (h := NodeFreeze (DeepCopyWithOrdinal o n)) : n_id h = n_id n /\ n_version h = n_version n /\ n_ordinal h = o.
Proof. subst h. unfold NodeFreeze, DeepCopyWithOrdinal, NodeDeepCopy. by destruct (n_meta n). Qed.

Lemma history_rel_fields o (r : relRow) (h := RelFreeze (DeepCopyWithOrdinals o 0 0 r)) :
  r_id h = r_id r /\ r_version h = r_version r /\ r_startID h = r_startID r /\ r_endID h = r_endID r /\ r_ordinal h = o.
Proof. subst h. unfold RelFreeze, with_rel, DeepCopyWithOrdinals, RelDeepCopy. by destruct (r_meta r). Qed.

(** ** Primitive writes, field by field *)

Section Fields.
Context (FormatFloat : Z -> Z -> bytes) (ParseFloat : bytes -> option Z).
Implicit Types (ms : memStore) (n : nodeRow) (r : relRow).

Lemma nodeOrdinal_eq id ms : nodeOrdinalLocked id ms =
  let '(o, m) := next_ordinal n_ordinal (ms_nodes ms) (nodeHistory ms) id (maxNodeOrdinal ms) in (o, set_ordinals m (maxRelOrdinal ms) ms).
Proof.
  unfold nodeOrdinalLocked, next_ordinal. destruct (first_ordinal _ _); [by destruct ms|]. destruct (_ =? _); [by destruct ms|done].
Qed.

Lemma relOrdinal_eq id ms : relOrdinalLocked id ms =
  let '(o, m) := next_ordinal r_ordinal (ms_rels ms) (relHistory ms) id (maxRelOrdinal ms) in (o, set_ordinals (maxNodeOrdinal ms) m ms).
Proof.
  unfold relOrdinalLocked, next_ordinal. destruct (first_ordinal _ _); [by destruct ms|]. destruct (_ =? _); [by destruct ms|done].
Qed.

Lemma addLabels_eq id n ms : addNodeLabelIndexes id n ms = set_labelIdx (fold_left (fun idx tok => add_member tok id idx) (AllLabelTokens n) (labelIdx ms)) ms.
Proof. unfold addNodeLabelIndexes. generalize (AllLabelTokens n) as l. intros l. revert ms. induction l as [|tok l IH]; intros ms; [by destruct ms|]. cbn [fold_left]. by rewrite IH. Qed.

Lemma removeLabels_eq id n ms : removeNodeLabelIndexes id n ms = set_labelIdx (fold_left (fun idx tok => remove_member tok id idx) (AllLabelTokens n) (labelIdx ms)) ms.
Proof. unfold removeNodeLabelIndexes. generalize (AllLabelTokens n) as l. intros l. revert ms. induction l as [|tok l IH]; intros ms; [by destruct ms|]. cbn [fold_left]. by rewrite IH. Qed.

Lemma insert_node_eq n ms : insert_node FormatFloat ParseFloat n ms =
  let '(o, m) := next_ordinal n_ordinal (ms_nodes ms) (nodeHistory ms) (n_id n) (maxNodeOrdinal ms) in
  mkMem (ms_closed ms) (<[n_id n := CompactFrozenCopyWithOrdinal (Alloc (ms_alloc ms)) o n]> (ms_nodes ms)) (ms_rels ms)
    (fold_left (fun idx tok => add_member tok (n_id n) idx) (AllLabelTokens n) (labelIdx ms)) (typeIdx ms) (outIdx ms) (inIdx ms) (exOutIdx ms) (exInIdx ms)
    (nodeHistory ms) (relHistory ms) (AddNodeToPropertyIndexes FormatFloat ParseFloat (propertyIndexes ms) n (n_id n)) (relPropertyIndexes ms)
    (AddNodeToCompositeIndexes FormatFloat (fst (composites ms)) (snd (composites ms)) n (n_id n), snd (composites ms)) m (maxRelOrdinal ms) (ms_alloc ms + 1).
Proof.
  unfold insert_node, store_node, storedNode. cbv zeta. rewrite nodeOrdinal_eq. destruct (next_ordinal _ _ _ _ _) as [o m]. by rewrite addLabels_eq.
Qed.

Lemma replace_node_eq nid old n ms : n_id n = nid -> replace_node FormatFloat ParseFloat nid old n ms =
  let '(o, m) := next_ordinal n_ordinal (ms_nodes ms) (nodeHistory ms) nid (maxNodeOrdinal ms) in
  let comps := RemoveNodeFromCompositeIndexes FormatFloat (fst (composites ms)) (snd (composites ms)) old nid in
  mkMem (ms_closed ms) (<[nid := CompactFrozenCopyWithOrdinal (Alloc (ms_alloc ms)) o n]> (ms_nodes ms)) (ms_rels ms)
    (labelIdx ms) (typeIdx ms) (outIdx ms) (inIdx ms) (exOutIdx ms) (exInIdx ms)
    (nodeHistory ms) (relHistory ms) (AddNodeToPropertyIndexes FormatFloat ParseFloat (RemoveNodeFromPropertyIndexes FormatFloat ParseFloat (propertyIndexes ms) old nid) n nid) (relPropertyIndexes ms)
    (AddNodeToCompositeIndexes FormatFloat comps (snd (composites ms)) n nid, snd (composites ms)) m (maxRelOrdinal ms) (ms_alloc ms + 1).
Proof.
  intros <-. unfold replace_node, store_node, storedNode. cbv zeta. rewrite nodeOrdinal_eq. cbn [ms_nodes nodeHistory maxNodeOrdinal unindexNode removeNodeFromCompositeIndexesLocked set_propertyIndexes set_composites].
  by destruct (next_ordinal _ _ _ _ _) as [o m].
Qed.

Lemma drop_node_eq nid n ms : drop_node FormatFloat ParseFloat nid n ms =
  mkMem (ms_closed ms) (delete nid (ms_nodes ms)) (ms_rels ms)
    (fold_left (fun idx tok => remove_member tok nid idx) (AllLabelTokens n) (labelIdx ms)) (typeIdx ms) (outIdx ms) (inIdx ms) (exOutIdx ms) (exInIdx ms)
    (nodeHistory ms) (relHistory ms) (RemoveNodeFromPropertyIndexes FormatFloat ParseFloat (propertyIndexes ms) n nid) (relPropertyIndexes ms)
    (RemoveNodeFromCompositeIndexes FormatFloat (fst (composites ms)) (snd (composites ms)) n nid, snd (composites ms)) (maxNodeOrdinal ms) (maxRelOrdinal ms) (ms_alloc ms).
Proof. unfold drop_node. cbv zeta. by rewrite removeLabels_eq. Qed.

Lemma insert_rel_eq r ms : insert_rel FormatFloat ParseFloat r ms =
  let '(o, m) := next_ordinal r_ordinal (ms_rels ms) (relHistory ms) (r_id r) (maxRelOrdinal ms) in
  let row := CompactFrozenCopyWithOrdinals (Alloc (ms_alloc ms)) o (ordinal_of (ms_nodes ms !! r_startID r)) (ordinal_of (ms_nodes ms !! r_endID r)) r in
  mkMem (ms_closed ms) (ms_nodes ms) (<[r_id r := row]> (ms_rels ms)) (labelIdx ms) (add_member (r_relType r) (r_id r) (typeIdx ms))
    (addAdjLocked (r_startID r) (r_id r) (outIdx ms)) (addAdjLocked (r_endID r) (r_id r) (inIdx ms)) (exOutIdx ms) (exInIdx ms)
    (nodeHistory ms) (relHistory ms) (propertyIndexes ms) (AddRelToPropertyIndexes FormatFloat ParseFloat (relPropertyIndexes ms) r (r_id r)) (composites ms) (maxNodeOrdinal ms) m (ms_alloc ms + 1).
Proof. unfold insert_rel, store_rel, storedRel. cbv zeta. rewrite relOrdinal_eq. by destruct (next_ordinal _ _ _ _ _) as [o m]. Qed.

Lemma replace_rel_eq id old r ms : r_id r = id -> replace_rel FormatFloat ParseFloat id old r ms =
  let '(o, m) := next_ordinal r_ordinal (ms_rels ms) (relHistory ms) id (maxRelOrdinal ms) in
  let row := CompactFrozenCopyWithOrdinals (Alloc (ms_alloc ms)) o (ordinal_of (ms_nodes ms !! r_startID r)) (ordinal_of (ms_nodes ms !! r_endID r)) r in
  mkMem (ms_closed ms) (ms_nodes ms) (<[id := row]> (ms_rels ms)) (labelIdx ms) (typeIdx ms) (outIdx ms) (inIdx ms) (exOutIdx ms) (exInIdx ms)
    (nodeHistory ms) (relHistory ms) (propertyIndexes ms) (AddRelToPropertyIndexes FormatFloat ParseFloat (RemoveRelFromPropertyIndexes FormatFloat ParseFloat (relPropertyIndexes ms) old id) r id)
    (composites ms) (maxNodeOrdinal ms) m (ms_alloc ms + 1).
Proof.
  intros <-. unfold replace_rel, store_rel, storedRel. cbv zeta. rewrite relOrdinal_eq. cbn [ms_rels relHistory maxRelOrdinal unindexRel set_relPropertyIndexes]. by destruct (next_ordinal _ _ _ _ _) as [o m].
Qed.

Lemma remove_rel_eq id exLeg ms r : ms_rels ms !! id = Some r -> removeRelLocked FormatFloat ParseFloat id exLeg ms =
  (mkMem (ms_closed ms) (ms_nodes ms) (delete id (ms_rels ms)) (labelIdx ms) (remove_member (r_relType r) id (typeIdx ms))
    (removeAdjLocked (r_startID r) id (outIdx ms)) (removeAdjLocked (r_endID r) id (inIdx ms))
    (if exLeg then addAdjLocked (r_startID r) id (exOutIdx ms) else exOutIdx ms) (if exLeg then addAdjLocked (r_endID r) id (exInIdx ms) else exInIdx ms)
    (nodeHistory ms) (relHistory ms) (propertyIndexes ms) (RemoveRelFromPropertyIndexes FormatFloat ParseFloat (relPropertyIndexes ms) r id)
    (composites ms) (maxNodeOrdinal ms) (maxRelOrdinal ms) (ms_alloc ms), None).
Proof. intros Hr. unfold removeRelLocked. rewrite Hr. by destruct exLeg. Qed.

Lemma put_node_history_eq nid v n ms : putNodeHistoryRowLocked nid v n ms =
  let '(o, m) := next_ordinal n_ordinal (ms_nodes ms) (nodeHistory ms) (n_id n) (maxNodeOrdinal ms) in
  set_nodeHistory (<[nid := <[v := NodeFreeze (DeepCopyWithOrdinal o n)]> (default ∅ (nodeHistory ms !! nid))]> (nodeHistory ms)) (set_ordinals m (maxRelOrdinal ms) ms).
Proof. unfold putNodeHistoryRowLocked, historyNode. rewrite nodeOrdinal_eq. by destruct (next_ordinal _ _ _ _ _) as [o m]. Qed.

(** The legs the row leaves in the ex-adjacency. *)
Definition noted (id : Z) r ms : bool :=
  match ms_rels ms !! id with Some cur => negb ((r_startID cur =? r_startID r) && (r_endID cur =? r_endID r)) | None => true end.

Lemma put_rel_history_eq id v r ms : putRelHistoryRowLocked id v r ms =
  let '(o, m) := next_ordinal r_ordinal (ms_rels ms) (relHistory ms) (r_id r) (maxRelOrdinal ms) in
  set_relHistory (<[id := <[v := RelFreeze (DeepCopyWithOrdinals o 0 0 r)]> (default ∅ (relHistory ms !! id))]> (relHistory ms))
    (set_ordinals (maxNodeOrdinal ms) m
       (set_exAdj (if noted id r ms then addAdjLocked (r_startID r) id (exOutIdx ms) else exOutIdx ms) (if noted id r ms then addAdjLocked (r_endID r) id (exInIdx ms) else exInIdx ms) ms)).
Proof.
  unfold putRelHistoryRowLocked, historyRel, noteHistoryRowExAdjLocked, addExAdjLocked, noted. cbv zeta.
  destruct (ms_rels ms !! id) as [cur|]; [destruct ((_ =? _) && _); cbn [negb]|]; rewrite relOrdinal_eq; cbn [ms_rels relHistory maxRelOrdinal set_exAdj];
    (destruct (next_ordinal _ _ _ _ _) as [o m]); [by destruct ms|done|done].
Qed.
End Fields.

(** ** The invariant *)

(** The rows of the version history are keyed by their ID and version. *)
Definition history_ok {T} (id_of version_of : T -> Z) (history : gmap Z (gmap Z T)) : Prop :=
  forall id v t, default ∅ (history !! id) !! v = Some t -> id_of t = id /\ version_of t = v /\ 0 < id.

(** A leg of a history row is found, or its node was purged. *)
Definition leg_found (live ex : gmap Z adjSet) (purged : gset Z) (rid nid : Z) : Prop := rid ∈ members live nid \/ rid ∈ members ex nid \/ nid ∈ purged.

Definition node_row_ok (n : nodeRow) : Prop := 0 < n_id n /\ NoDup (AllLabelTokens n) /\ 0 ∉ AllLabelTokens n.

Section Invariant.
Context (FormatFloat : Z -> Z -> bytes) (ParseFloat : bytes -> option Z).

Record store_ok (purged : gset Z) (ms : memStore) : Prop := {
  ok_nodes : forall id n, ms_nodes ms !! id = Some n -> n_id n = id /\ node_row_ok n;
  ok_rels : forall id r, ms_rels ms !! id = Some r -> r_id r = id /\ 0 < id /\ r_relType r <> 0;
  ok_ends : forall id r, ms_rels ms !! id = Some r -> is_Some (ms_nodes ms !! r_startID r) /\ is_Some (ms_nodes ms !! r_endID r);
  ok_labels : members_ok (labelIdx ms) (carries AllLabelTokens (ms_nodes ms));
  ok_types : members_ok (typeIdx ms) (carries (fun r => [r_relType r]) (ms_rels ms));
  ok_out : adj_exact (outIdx ms) r_startID (ms_rels ms);
  ok_in : adj_exact (inIdx ms) r_endID (ms_rels ms);
  ok_exOut : idx_ok (exOutIdx ms);
  ok_exIn : idx_ok (exInIdx ms);
  ok_legs : forall rid v h, default ∅ (relHistory ms !! rid) !! v = Some h ->
    leg_found (outIdx ms) (exOutIdx ms) purged rid (r_startID h) /\ leg_found (inIdx ms) (exInIdx ms) purged rid (r_endID h);
  ok_nodeHistory : history_ok n_id n_version (nodeHistory ms);
  ok_relHistory : history_ok r_id r_version (relHistory ms);
  ok_props : indexes_ok FormatFloat ParseFloat (propertyIndexes ms) (node_entity <$> ms_nodes ms);
  ok_relProps : indexes_ok FormatFloat ParseFloat (relPropertyIndexes ms) (rel_entity <$> ms_rels ms);
  ok_comps : comp_ok FormatFloat (composites ms) (ms_nodes ms);
  ok_nodeOrds : ordinals (row_ord n_ordinal (ms_nodes ms) (nodeHistory ms)) (maxNodeOrdinal ms);
  ok_relOrds : ordinals (row_ord r_ordinal (ms_rels ms) (relHistory ms)) (maxRelOrdinal ms);
  ok_endOrds : forall id r, ms_rels ms !! id = Some r ->
    r_startOrdinal r = ordinal_of (ms_nodes ms !! r_startID r) /\ r_endOrdinal r = ordinal_of (ms_nodes ms !! r_endID r);
}.

Lemma row_ord_insert {T} (ordinal : T -> Z) cur history id t x p :
  row_ord ordinal (<[id := t]> cur) history x p -> row_ord ordinal cur history x p \/ (x = id /\ p = ordinal t).
Proof.
  intros (u & Hu & <-). apply elem_of_rows in Hu as [Hu|Hu]; [|left; exists u; split; [apply elem_of_rows; by right|done]].
  destruct (decide (x = id)) as [->|Hne]; [rewrite lookup_insert_eq in Hu; injection Hu as <-; by right|rewrite lookup_insert_ne in Hu by done]. left. exists u. split; [apply elem_of_rows; by left|done].
Qed.

Lemma row_ord_history {T} (ordinal : T -> Z) cur history id v t x p :
  row_ord ordinal cur (<[id := <[v := t]> (default ∅ (history !! id))]> history) x p -> row_ord ordinal cur history x p \/ (x = id /\ p = ordinal t).
Proof.
  intros (u & Hu & <-). apply elem_of_rows in Hu as [Hu|[w Hu]]; [left; exists u; split; [apply elem_of_rows; by left|done]|].
  destruct (decide (x = id)) as [->|Hne]; [rewrite lookup_insert_eq in Hu; cbn in Hu|rewrite lookup_insert_ne in Hu by done; left; exists u; split; [apply elem_of_rows; eauto|done]].
  destruct (decide (w = v)) as [->|Hw]; [rewrite lookup_insert_eq in Hu; injection Hu as <-; by right|rewrite lookup_insert_ne in Hu by done]. left. exists u. split; [apply elem_of_rows; eauto|done].
Qed.

Lemma row_ord_mono {T} (ordinal : T -> Z) cur cur' history history' x p : cur' ⊆ cur -> (forall id v t, default ∅ (history' !! id) !! v = Some t -> default ∅ (history !! id) !! v = Some t) ->
  row_ord ordinal cur' history' x p -> row_ord ordinal cur history x p.
Proof.
  intros Hc Hh (u & Hu & <-). exists u. split; [|done]. apply elem_of_rows. apply elem_of_rows in Hu as [Hu|[v Hu]]; [left; by eapply lookup_weaken|right; eauto].
Qed.

Lemma history_insert {T} (history : gmap Z (gmap Z T)) id v t x w u : default ∅ (<[id := <[v := t]> (default ∅ (history !! id))]> history !! x) !! w = Some u ->
  (x = id /\ w = v /\ u = t) \/ default ∅ (history !! x) !! w = Some u.
Proof.
  destruct (decide (x = id)) as [->|Hne]; [rewrite lookup_insert_eq; cbn|rewrite lookup_insert_ne by done; by right].
  destruct (decide (w = v)) as [->|Hw]; [rewrite lookup_insert_eq; intros [= <-]; by left|rewrite lookup_insert_ne by done; by right].
Qed.

Lemma history_ok_insert {T} (id_of version_of : T -> Z) history id v t : history_ok id_of version_of history -> id_of t = id -> version_of t = v -> 0 < id ->
  history_ok id_of version_of (<[id := <[v := t]> (default ∅ (history !! id))]> history).
Proof. intros H Hi Hv Hp x w u Hu. apply history_insert in Hu as [(-> & -> & ->)|Hu]; [done|by apply H]. Qed.

Lemma nodes_positive purged ms : store_ok purged ms -> ids_positive (ms_nodes ms).
Proof. intros Hok id n Hn. by destruct (ok_nodes _ _ Hok id n Hn) as (<- & ? & _). Qed.

Lemma leg_found_insert live ex purged rid nid id n : idx_ok live -> leg_found live ex purged rid nid -> leg_found (addAdjLocked n id live) ex purged rid nid.
Proof. intros Hi [H|H]; [left; rewrite (proj2 (addAdj_ok n id live Hi)); case_decide; set_solver|by right]. Qed.

Lemma leg_found_ex live ex purged rid nid id n : idx_ok ex -> leg_found live ex purged rid nid -> leg_found live (addAdjLocked n id ex) purged rid nid.
Proof. intros Hi [H|[H|H]]; [by left|right; left; rewrite (proj2 (addAdj_ok n id ex Hi)); case_decide; set_solver|by right; right]. Qed.

Lemma leg_found_noted live ex purged id nid : idx_ok ex -> leg_found live (addAdjLocked nid id ex) purged id nid.
Proof. intros Hi. right. left. rewrite (proj2 (addAdj_ok nid id ex Hi)), decide_True by done. set_solver. Qed.

(** The leg a deleted row had moves to the ex-adjacency. *)
Lemma leg_found_move live ex purged rid nid id n : idx_ok live -> idx_ok ex -> leg_found live ex purged rid nid -> leg_found (removeAdjLocked n id live) (addAdjLocked n id ex) purged rid nid.
Proof.
  intros Hl He Hf. unfold leg_found in *. rewrite (proj2 (removeAdj_ok n id live Hl)), (proj2 (addAdj_ok n id ex He)). destruct (decide (nid = n)) as [->|Hne]; [|done].
  destruct Hf as [H|[H|H]]; [|right; left; set_solver|by right; right]. destruct (decide (rid = id)) as [->|Hr]; [right; left; set_solver|left; set_solver].
Qed.

(** ** Nodes *)

Lemma insert_node_ok purged n ms : store_ok purged ms -> node_row_ok n -> ms_nodes ms !! n_id n = None -> store_ok purged (insert_node FormatFloat ParseFloat n ms).
Proof.
  intros Hok Hn Hid. rewrite insert_node_eq. pose proof (next_ordinal_ok n_ordinal (ms_nodes ms) (nodeHistory ms) (n_id n) (maxNodeOrdinal ms)) as Hord.
  destruct (next_ordinal _ _ _ _ _) as [o m]. set (row := CompactFrozenCopyWithOrdinal _ o n).
  assert (Hother : forall x, is_Some (ms_nodes ms !! x) -> <[n_id n := row]> (ms_nodes ms) !! x = ms_nodes ms !! x) by (intros x [y Hy]; apply lookup_insert_ne; congruence).
  destruct Hok. split; cbn [ms_nodes ms_rels labelIdx typeIdx outIdx inIdx exOutIdx exInIdx nodeHistory relHistory propertyIndexes relPropertyIndexes composites maxNodeOrdinal maxRelOrdinal]; try done.
  - intros id x. destruct (decide (id = n_id n)) as [->|Hne]; [rewrite lookup_insert_eq; intros [= <-]|rewrite lookup_insert_ne by done; auto].
    unfold node_row_ok, row. by rewrite stored_node_id, stored_node_labels.
  - intros id r Hr. destruct (ok_ends0 id r Hr) as [H1 H2]. by rewrite !Hother.
  - eapply members_ok_ext; [by apply add_members_ok|]. intros tok x. rewrite carries_insert by done. unfold row. by rewrite stored_node_labels.
  - rewrite fmap_insert. unfold row. rewrite stored_node_entity. apply (tell_add FormatFloat ParseFloat _ _ (n_id n) (node_entity n)); [done|]. by rewrite lookup_fmap, Hid.
  - rewrite (stored_node_composite _ _ _ (Alloc (ms_alloc ms)) o). apply (comp_add FormatFloat (composites ms)); done.
  - apply (Hord (row_ord n_ordinal (<[n_id n := row]> (ms_nodes ms)) (nodeHistory ms))); [done|]. intros x p Hp. apply row_ord_insert in Hp. unfold row in Hp. by rewrite stored_node_ordinal in Hp.
  - intros id r Hr. destruct (ok_ends0 id r Hr) as [H1 H2]. rewrite !Hother by done. eauto.
Qed.

(** With the label index already brought to the new labels. *)
Lemma replace_node_ok purged nid old n ms lidx : store_ok purged ms -> node_row_ok n -> n_id n = nid -> ms_nodes ms !! nid = Some old ->
  members_ok lidx (carries AllLabelTokens (<[nid := n]> (ms_nodes ms))) -> store_ok purged (replace_node FormatFloat ParseFloat nid old n (set_labelIdx lidx ms)).
Proof.
  intros Hok Hn Hid Hold Hl. pose proof (nodes_positive _ _ Hok) as Hpos. rewrite replace_node_eq by done.
  cbn [set_labelIdx ms_closed ms_nodes ms_rels labelIdx typeIdx outIdx inIdx exOutIdx exInIdx nodeHistory relHistory propertyIndexes relPropertyIndexes composites maxNodeOrdinal maxRelOrdinal ms_alloc].
  rewrite (next_ordinal_cur n_ordinal _ _ _ _ old (ok_nodeOrds _ _ Hok) Hold). set (row := CompactFrozenCopyWithOrdinal _ _ n).
  assert (Hord : forall x, ordinal_of (<[nid := row]> (ms_nodes ms) !! x) = ordinal_of (ms_nodes ms !! x)).
  { intros x. destruct (decide (x = nid)) as [->|Hne]; [rewrite lookup_insert_eq, Hold; unfold row; cbn [ordinal_of]; by rewrite stored_node_ordinal|by rewrite lookup_insert_ne]. }
  assert (Hsome : forall x, is_Some (ms_nodes ms !! x) -> is_Some (<[nid := row]> (ms_nodes ms) !! x)) by (intros x Hx; by apply lookup_insert_is_Some'; right).
  destruct Hok. split; cbn [ms_nodes ms_rels labelIdx typeIdx outIdx inIdx exOutIdx exInIdx nodeHistory relHistory propertyIndexes relPropertyIndexes composites maxNodeOrdinal maxRelOrdinal]; try done.
  - intros id x. destruct (decide (id = nid)) as [->|Hne]; [rewrite lookup_insert_eq; intros [= <-]|rewrite lookup_insert_ne by done; auto].
    unfold node_row_ok, row. by rewrite stored_node_id, stored_node_labels.
  - intros id r Hr. destruct (ok_ends0 id r Hr) as [H1 H2]. auto.
  - eapply members_ok_ext; [exact Hl|]. intros tok x. unfold carries. destruct (decide (x = nid)) as [->|Hne]; [|by rewrite !lookup_insert_ne].
    rewrite !lookup_insert_eq. split; intros (? & [= <-] & H); eexists; (split; [done|]); revert H; unfold row; by rewrite stored_node_labels.
  - rewrite fmap_insert, <- insert_delete_eq. unfold row. rewrite stored_node_entity. apply (tell_add FormatFloat ParseFloat _ _ nid (node_entity n)); [|by rewrite lookup_delete_eq].
    apply (tell_remove FormatFloat ParseFloat _ _ nid (node_entity old)); [done|]. by rewrite lookup_fmap, Hold.
  - rewrite (stored_node_composite _ _ _ (Alloc (ms_alloc ms)) (n_ordinal old)), <- insert_delete_eq.
    apply (comp_add FormatFloat (RemoveNodeFromCompositeIndexes FormatFloat (composites ms).1 (composites ms).2 old nid, (composites ms).2)); [|apply lookup_delete_eq]. by apply comp_remove.
  - apply (ordinals_sub _ _ _ ok_nodeOrds0). intros x p Hp. apply row_ord_insert in Hp as [Hp|[-> ->]]; [done|]. unfold row. rewrite stored_node_ordinal. exists old. split; [apply elem_of_rows; by left|done].
  - intros id r Hr. rewrite !Hord. eauto.
Qed.

Lemma drop_node_ok purged nid n ms : store_ok purged ms -> ms_nodes ms !! nid = Some n -> (forall id r, ms_rels ms !! id = Some r -> r_startID r <> nid /\ r_endID r <> nid) ->
  store_ok purged (drop_node FormatFloat ParseFloat nid n ms).
Proof.
  intros Hok Hid Hfree. pose proof (nodes_positive _ _ Hok) as Hpos. rewrite drop_node_eq. destruct Hok.
  split; cbn [ms_nodes ms_rels labelIdx typeIdx outIdx inIdx exOutIdx exInIdx nodeHistory relHistory propertyIndexes relPropertyIndexes composites maxNodeOrdinal maxRelOrdinal]; try done.
  - intros id x Hx. apply lookup_delete_Some in Hx as [_ Hx]. eauto.
  - intros id r Hr. destruct (ok_ends0 id r Hr), (Hfree id r Hr). by rewrite !lookup_delete_ne.
  - eapply members_ok_ext; [by apply remove_members_ok|]. intros tok x. by apply carries_delete.
  - rewrite fmap_delete. apply (tell_remove FormatFloat ParseFloat _ _ nid (node_entity n)); [done|]. by rewrite lookup_fmap, Hid.
  - by apply comp_remove.
  - apply (ordinals_sub _ _ _ ok_nodeOrds0). intros x p. apply row_ord_mono; [apply delete_subseteq|done].
  - intros id r Hr. destruct (Hfree id r Hr). rewrite !lookup_delete_ne by done. eauto.
Qed.

(** ** Relationships *)

Lemma insert_rel_ok purged r ms : store_ok purged ms -> 0 < r_id r -> r_relType r <> 0 -> is_Some (ms_nodes ms !! r_startID r) -> is_Some (ms_nodes ms !! r_endID r) -> ms_rels ms !! r_id r = None ->
  store_ok purged (insert_rel FormatFloat ParseFloat r ms).
Proof.
  intros Hok Hp Ht Hs He Hid. rewrite insert_rel_eq. pose proof (next_ordinal_ok r_ordinal (ms_rels ms) (relHistory ms) (r_id r) (maxRelOrdinal ms)) as Hord.
  destruct (next_ordinal _ _ _ _ _) as [o m]. cbv zeta. set (row := CompactFrozenCopyWithOrdinals _ _ _ _ r).
  destruct (stored_rel_fields (Alloc (ms_alloc ms)) o (ordinal_of (ms_nodes ms !! r_startID r)) (ordinal_of (ms_nodes ms !! r_endID r)) r) as (F1 & F2 & F3 & F4 & _ & F6 & F7 & F8 & F9). fold row in F1, F2, F3, F4, F6, F7, F8, F9.
  destruct Hok. split; cbn [ms_nodes ms_rels labelIdx typeIdx outIdx inIdx exOutIdx exInIdx nodeHistory relHistory propertyIndexes relPropertyIndexes composites maxNodeOrdinal maxRelOrdinal]; try done.
  - intros id x. destruct (decide (id = r_id r)) as [->|Hne]; [rewrite lookup_insert_eq; intros [= <-]; by rewrite F1, F2|rewrite lookup_insert_ne by done; auto].
  - intros id x. destruct (decide (id = r_id r)) as [->|Hne]; [rewrite lookup_insert_eq; intros [= <-]; by rewrite F3, F4|rewrite lookup_insert_ne by done; eauto].
  - eapply members_ok_ext; [by apply add_member_ok|]. intros tok x. rewrite carries_insert by done. rewrite F2, list_elem_of_singleton. done.
  - rewrite <- F3. by apply adj_exact_insert.
  - rewrite <- F4. by apply adj_exact_insert.
  - intros rid v h Hh. destruct (ok_legs0 rid v h Hh) as [H1 H2]. split; apply leg_found_insert; try done; [apply ok_out0|apply ok_in0].
  - rewrite fmap_insert, F6. apply (tell_add FormatFloat ParseFloat _ _ (r_id r) (rel_entity r)); [done|]. by rewrite lookup_fmap, Hid.
  - apply (Hord (row_ord r_ordinal (<[r_id r := row]> (ms_rels ms)) (relHistory ms))); [done|]. intros x p Hx. apply row_ord_insert in Hx. by rewrite F7 in Hx.
  - intros id x. destruct (decide (id = r_id r)) as [->|Hne]; [rewrite lookup_insert_eq; intros [= <-]; by rewrite F3, F4, F8, F9|rewrite lookup_insert_ne by done; eauto].
Qed.

Lemma replace_rel_ok purged id old r ms : store_ok purged ms -> r_id r = id -> ms_rels ms !! id = Some old -> r_relType r = r_relType old -> r_startID r = r_startID old -> r_endID r = r_endID old ->
  store_ok purged (replace_rel FormatFloat ParseFloat id old r ms).
Proof.
  intros Hok Hid Hold Et Es Ee. rewrite replace_rel_eq by done. rewrite (next_ordinal_cur r_ordinal _ _ _ _ old (ok_relOrds _ _ Hok) Hold). cbv zeta. set (row := CompactFrozenCopyWithOrdinals _ _ _ _ r).
  destruct (stored_rel_fields (Alloc (ms_alloc ms)) (r_ordinal old) (ordinal_of (ms_nodes ms !! r_startID r)) (ordinal_of (ms_nodes ms !! r_endID r)) r) as (F1 & F2 & F3 & F4 & _ & F6 & F7 & F8 & F9). fold row in F1, F2, F3, F4, F6, F7, F8, F9.
  pose proof (ok_rels _ _ Hok id old Hold) as (_ & Hp & Ht). pose proof (ok_ends _ _ Hok id old Hold) as [Hs He].
  destruct Hok. split; cbn [ms_nodes ms_rels labelIdx typeIdx outIdx inIdx exOutIdx exInIdx nodeHistory relHistory propertyIndexes relPropertyIndexes composites maxNodeOrdinal maxRelOrdinal]; try done.
  - intros x y. destruct (decide (x = id)) as [->|Hne]; [rewrite lookup_insert_eq; intros [= <-]; by rewrite F1, F2, Et|rewrite lookup_insert_ne by done; auto].
  - intros x y. destruct (decide (x = id)) as [->|Hne]; [rewrite lookup_insert_eq; intros [= <-]; by rewrite F3, F4, Es, Ee|rewrite lookup_insert_ne by done; eauto].
  - eapply members_ok_ext; [exact ok_types0|]. intros tok x. apply (carries_replace _ _ _ old); [done|]. by rewrite F2, Et.
  - apply (adj_exact_replace _ _ _ _ old); [done..|by rewrite F3].
  - apply (adj_exact_replace _ _ _ _ old); [done..|by rewrite F4].
  - rewrite fmap_insert, <- insert_delete_eq, F6. apply (tell_add FormatFloat ParseFloat _ _ id (rel_entity r)); [|by rewrite lookup_delete_eq].
    apply (tell_remove_all FormatFloat ParseFloat _ _ id (rel_entity old)); [done|]. by rewrite lookup_fmap, Hold.
  - apply (ordinals_sub _ _ _ ok_relOrds0). intros x p Hx. apply row_ord_insert in Hx as [Hx|[-> ->]]; [done|]. rewrite F7. exists old. split; [apply elem_of_rows; by left|done].
  - intros x y. destruct (decide (x = id)) as [->|Hne]; [rewrite lookup_insert_eq; intros [= <-]; by rewrite F3, F4, F8, F9|rewrite lookup_insert_ne by done; eauto].
Qed.

(** An undone create moves no legs: the history rows of its ID must be found without
    it. *)
Definition undoable (purged : gset Z) (id : Z) (ms : memStore) : Prop :=
  forall v h, default ∅ (relHistory ms !! id) !! v = Some h -> leg_found ∅ (exOutIdx ms) purged id (r_startID h) /\ leg_found ∅ (exInIdx ms) purged id (r_endID h).

Lemma leg_found_drop live ex purged rid nid id n : idx_ok live -> leg_found live ex purged rid nid -> (rid = id -> leg_found ∅ ex purged rid nid) -> leg_found (removeAdjLocked n id live) ex purged rid nid.
Proof.
  intros Hl Hf Hid. unfold leg_found in *. rewrite members_empty in Hid. rewrite (proj2 (removeAdj_ok n id live Hl)). destruct (decide (rid = id)) as [->|Hne]; [destruct (Hid eq_refl) as [H|H]; [set_solver|by right]|].
  destruct Hf as [H|H]; [left; case_decide; set_solver|by right].
Qed.

Lemma remove_rel_ok purged id exLeg ms r : store_ok purged ms -> ms_rels ms !! id = Some r -> (exLeg = false -> undoable purged id ms) ->
  exists ms', removeRelLocked FormatFloat ParseFloat id exLeg ms = (ms', None) /\ store_ok purged ms'.
Proof.
  intros Hok Hid Hundo. rewrite (remove_rel_eq _ _ _ _ _ r Hid). eexists. split; [done|]. destruct Hok.
  split; cbn [ms_nodes ms_rels labelIdx typeIdx outIdx inIdx exOutIdx exInIdx nodeHistory relHistory propertyIndexes relPropertyIndexes composites maxNodeOrdinal maxRelOrdinal]; try done.
  - intros x y Hx. apply lookup_delete_Some in Hx as [_ Hx]. eauto.
  - intros x y Hx. apply lookup_delete_Some in Hx as [_ Hx]. eauto.
  - eapply members_ok_ext; [by apply remove_member_ok|]. intros tok x. rewrite (carries_delete _ _ _ r) by done. by rewrite list_elem_of_singleton.
  - by apply adj_exact_delete.
  - by apply adj_exact_delete.
  - destruct exLeg; [by apply addAdj_ok|done].
  - destruct exLeg; [by apply addAdj_ok|done].
  - intros rid v h Hh. destruct (ok_legs0 rid v h Hh) as [H1 H2]. destruct exLeg.
    + split; apply leg_found_move; try done; [apply ok_out0|apply ok_in0].
    + split; (apply leg_found_drop; [by first [apply ok_out0|apply ok_in0]|done|intros ->; by apply (Hundo eq_refl v h)]).
  - rewrite fmap_delete. apply (tell_remove_all FormatFloat ParseFloat _ _ id (rel_entity r)); [done|]. by rewrite lookup_fmap, Hid.
  - apply (ordinals_sub _ _ _ ok_relOrds0). intros x p. apply row_ord_mono; [apply delete_subseteq|done].
  - intros x y Hx. apply lookup_delete_Some in Hx as [_ Hx]. eauto.
Qed.

(** ** History *)

Lemma put_node_history_ok purged nid v n ms : store_ok purged ms -> n_id n = nid -> n_version n = v -> 0 < nid -> store_ok purged (putNodeHistoryRowLocked nid v n ms).
Proof.
  intros Hok Hid Hv Hp. rewrite put_node_history_eq, Hid. pose proof (next_ordinal_ok n_ordinal (ms_nodes ms) (nodeHistory ms) nid (maxNodeOrdinal ms)) as Hord.
  destruct (next_ordinal _ _ _ _ _) as [o m]. destruct (history_node_fields o n) as (F1 & F2 & F3). destruct Hok.
  split; cbn [set_nodeHistory set_ordinals ms_nodes ms_rels labelIdx typeIdx outIdx inIdx exOutIdx exInIdx nodeHistory relHistory propertyIndexes relPropertyIndexes composites maxNodeOrdinal maxRelOrdinal]; try done.
  - apply history_ok_insert; [done|congruence|congruence|done].
  - apply Hord; [done|]. intros x p Hx. apply row_ord_history in Hx. by rewrite F3 in Hx.
Qed.

Lemma put_rel_history_ok purged id v r ms : store_ok purged ms -> r_id r = id -> r_version r = v -> 0 < id -> store_ok purged (putRelHistoryRowLocked id v r ms).
Proof.
  intros Hok Hid Hv Hp. rewrite put_rel_history_eq, Hid. pose proof (next_ordinal_ok r_ordinal (ms_rels ms) (relHistory ms) id (maxRelOrdinal ms)) as Hord.
  destruct (next_ordinal _ _ _ _ _) as [o m]. destruct (history_rel_fields o r) as (F1 & F2 & F3 & F4 & F5). destruct Hok.
  split; cbn [set_relHistory set_ordinals set_exAdj ms_nodes ms_rels labelIdx typeIdx outIdx inIdx exOutIdx exInIdx nodeHistory relHistory propertyIndexes relPropertyIndexes composites maxNodeOrdinal maxRelOrdinal]; try done.
  - destruct (noted id r ms); [by apply addAdj_ok|done].
  - destruct (noted id r ms); [by apply addAdj_ok|done].
  - intros rid w h Hh. apply history_insert in Hh as [(-> & -> & ->)|Hh].
    + rewrite F3, F4. unfold noted. destruct (ms_rels ms !! id) as [cur|] eqn:Ec; [|split; by apply leg_found_noted].
      destruct (Z.eqb_spec (r_startID cur) (r_startID r)), (Z.eqb_spec (r_endID cur) (r_endID r)); cbn [andb negb]; [|split; by apply leg_found_noted..].
      split; left; [apply ok_out0|apply ok_in0]; by exists cur.
    + destruct (ok_legs0 rid w h Hh). destruct (noted id r ms); [split; by apply leg_found_ex|done].
  - apply history_ok_insert; [done|congruence|congruence|done].
  - apply Hord; [done|]. intros x p Hx. apply row_ord_history in Hx. by rewrite F5 in Hx.
Qed.

(** History rows may go. *)
Definition shrinks {T} (history' history : gmap Z (gmap Z T)) : Prop := forall id v t, default ∅ (history' !! id) !! v = Some t -> default ∅ (history !! id) !! v = Some t.

Lemma shrink_node_history_ok purged h ms : store_ok purged ms -> shrinks h (nodeHistory ms) -> store_ok purged (set_nodeHistory h ms).
Proof.
  intros Hok Hs. destruct Hok.
  split; cbn [set_nodeHistory ms_nodes ms_rels labelIdx typeIdx outIdx inIdx exOutIdx exInIdx nodeHistory relHistory propertyIndexes relPropertyIndexes composites maxNodeOrdinal maxRelOrdinal]; try done.
  - intros id v t Ht. by apply ok_nodeHistory0, Hs.
  - apply (ordinals_sub _ _ _ ok_nodeOrds0). intros x p. by apply row_ord_mono.
Qed.

Lemma shrink_rel_history_ok purged h ms : store_ok purged ms -> shrinks h (relHistory ms) -> store_ok purged (set_relHistory h ms).
Proof.
  intros Hok Hs. destruct Hok.
  split; cbn [set_relHistory ms_nodes ms_rels labelIdx typeIdx outIdx inIdx exOutIdx exInIdx nodeHistory relHistory propertyIndexes relPropertyIndexes composites maxNodeOrdinal maxRelOrdinal]; try done.
  - intros id v t Ht. by apply (ok_legs0 id v), Hs.
  - intros id v t Ht. by apply ok_relHistory0, Hs.
  - apply (ordinals_sub _ _ _ ok_relOrds0). intros x p. by apply row_ord_mono.
Qed.
End Invariant.
