(* ===== verification/MemSteps.v ===== *)
(** * The in-memory store: what the checks of a write give

    What a row that passed the checks of a write satisfies, and the compound
    writes built on them: replacements, label changes, and the deletion of a node's
    relationships.  Each keeps the store's invariant. *)

From stdpp Require Import gmap.
From S2P Require Import Prelude Bytes ValidTime Props Rows ValueKeys PropertyIndex NodeIndexes CompositeIndex AdjSets Retention RetentionPurge Cascade MemRows MemStore MemHistory MemPurge MemInv MemStoreOk.

(** ** What the checks say *)

Lemma ValidateID_pos id : ValidateNodeID id = true <-> 0 < id.
Proof. unfold ValidateNodeID. destruct (Z.eqb_spec id 0), (Z.ltb_spec id 0); cbn; split; try done; lia. Qed.

Lemma ValidateRelID_pos id : ValidateRelID id = true <-> 0 < id.
Proof. apply ValidateID_pos. Qed.

Lemma labels_checked (n : nodeRow) : validateNodeLabels n = true -> 0 ∉ AllLabelTokens n.
Proof.
  unfold validateNodeLabels. rewrite forallb_forall. intros H Hin%list_elem_of_In. by specialize (H 0 Hin).
Qed.

Lemma node_write_checked (n : nodeRow) : ValidateNodeWrite n = true -> NoDup (AllLabelTokens n) -> node_row_ok n.
Proof. unfold ValidateNodeWrite. rewrite !andb_true_iff. intros [[Hi Hl] _] Hnd. split; [by apply ValidateID_pos|]. split; [done|by apply labels_checked]. Qed.

Lemma snapshot_checked id (n : nodeRow) : ValidateNodeHistorySnapshot id n = true -> n_id n = id /\ 0 < id /\ 0 ∉ AllLabelTokens n.
Proof.
  unfold ValidateNodeHistorySnapshot, ValidateNodeSnapshotKey. rewrite !andb_true_iff, Z.eqb_eq, ValidateID_pos. intros [[[H1 H2] H3] _]. split_and!; [done..|by apply labels_checked].
Qed.

Lemma version_checked id v (n : nodeRow) : ValidateNodeHistoryVersionSnapshot id v n = true -> n_id n = id /\ n_version n = v /\ 0 < id.
Proof. unfold ValidateNodeHistoryVersionSnapshot. rewrite andb_true_iff, Z.eqb_eq. by intros [(? & ? & _)%snapshot_checked ?]. Qed.

Lemma rel_version_checked id v (r : relRow) : ValidateRelationshipHistoryVersionSnapshot id v r = true -> r_id r = id /\ r_version r = v /\ 0 < id.
Proof.
  unfold ValidateRelationshipHistoryVersionSnapshot, ValidateRelationshipHistorySnapshot, ValidateRelSnapshotKey. rewrite !andb_true_iff, !Z.eqb_eq, ValidateRelID_pos. by intros [[[[? ?] _] _] ?].
Qed.

Lemma replacement_checked (old n : nodeRow) : node_replacement_ok old n = true -> n_id n = n_id old /\ AllLabelTokens n = AllLabelTokens old.
Proof. unfold node_replacement_ok, ValidateNodeReplacement. rewrite !andb_true_iff, Z.eqb_eq, bool_decide_eq_true. by intros [_ [[[? _] _] ?]]. Qed.

Lemma rel_replacement_checked (old r : relRow) : ValidateRelationshipReplacement old r = true -> r_id r = r_id old /\ r_relType r = r_relType old /\ r_startID r = r_startID old /\ r_endID r = r_endID old.
Proof. unfold ValidateRelationshipReplacement, ValidateRelSnapshotKey. rewrite !andb_true_iff, !Z.eqb_eq. naive_solver. Qed.

Lemma rel_write_checked (r : relRow) : ValidateRelationshipWrite r = true -> 0 < r_id r /\ r_relType r <> 0.
Proof. unfold ValidateRelationshipWrite, ValidateRelTypeToken. rewrite !andb_true_iff, negb_true_iff, Z.eqb_neq, ValidateRelID_pos. naive_solver. Qed.

Lemma all_have (old current : nodeRow) f : forallb (fun label => f label || HasLabelTokenRaw label current) (AllLabelTokens old) = true ->
  forall k, k ∈ AllLabelTokens old -> f k = false -> k ∈ AllLabelTokens current.
Proof.
  rewrite forallb_forall. intros H k Hk Hf. specialize (H k ltac:(by apply list_elem_of_In)). rewrite Hf in H. cbn [orb] in H. by apply HasLabelTokenRaw_elem in H as [_ H].
Qed.

(** The counts leave room for no other change. *)
Lemma removal_checked (old n : nodeRow) tok : node_row_ok old -> ValidateNodeLabelRemoval old n tok = true ->
  node_row_ok n /\ n_id n = n_id old /\ forall k, k ∈ AllLabelTokens n <-> k ∈ AllLabelTokens old /\ k <> tok.
Proof.
  intros (Hp & Hnd & H0) Hv. unfold ValidateNodeLabelRemoval, validateNodeLabelMutation in Hv. rewrite !andb_true_iff, negb_true_iff in Hv. destruct Hv as [[[[[Hs _] Hold] Hnew] Hlen] Hall].
  apply snapshot_checked in Hs as (Hid & _ & Hz). apply Nat.eqb_eq in Hlen. apply HasLabelTokenRaw_elem in Hold as [Htok Hold]. pose proof (all_have old n (fun l => l =? tok) Hall) as Hsub.
  assert (Hn : tok ∉ AllLabelTokens n) by (intros Hin; rewrite (proj2 (HasLabelTokenRaw_elem tok n)) in Hnew by done; done).
  assert (Hperm : tok :: AllLabelTokens n ≡ₚ AllLabelTokens old).
  { symmetry. apply submseteq_length_Permutation; [|unfold LabelTokenCount, AllLabelTokens in *; cbn in *; lia]. apply NoDup_submseteq; [done|]. intros k Hk. apply elem_of_cons. destruct (decide (k = tok)) as [->|Hne]; [by left|right].
    apply Hsub; [done|]. by apply Z.eqb_neq. }
  assert (Hnd' : NoDup (tok :: AllLabelTokens n)) by by rewrite Hperm. apply NoDup_cons in Hnd' as [_ Hnd'].
  split; [|split; [done|]]; [split_and!; [lia|done|done]|]. intros k. rewrite <- Hperm, elem_of_cons. split; [intros Hk; split; [by right|]; by intros ->|intros [[->|Hk] Hne]; done].
Qed.

Lemma addition_checked (old n : nodeRow) tok : node_row_ok old -> ValidateNodeLabelAddition old n tok = true ->
  node_row_ok n /\ n_id n = n_id old /\ forall k, k ∈ AllLabelTokens n <-> k ∈ AllLabelTokens old \/ k = tok.
Proof.
  intros (Hp & Hnd & H0) Hv. unfold ValidateNodeLabelAddition, validateNodeLabelMutation in Hv. rewrite !andb_true_iff, negb_true_iff in Hv. destruct Hv as [[[[[Hs _] Hold] Hnew] Hlen] Hall].
  apply snapshot_checked in Hs as (Hid & _ & Hz). apply Nat.eqb_eq in Hlen. apply HasLabelTokenRaw_elem in Hnew as [Htok Hnew]. pose proof (all_have old n (fun _ => false) Hall) as Hsub.
  assert (Hn : tok ∉ AllLabelTokens old) by (intros Hin; rewrite (proj2 (HasLabelTokenRaw_elem tok old)) in Hold by done; done).
  assert (Hperm : tok :: AllLabelTokens old ≡ₚ AllLabelTokens n).
  { apply submseteq_length_Permutation; [|unfold LabelTokenCount, AllLabelTokens in *; cbn in *; lia]. apply NoDup_submseteq; [by constructor|]. intros k [->|Hk]%elem_of_cons; [done|by apply Hsub]. }
  split; [|split; [done|]]; [split_and!; [lia|rewrite <- Hperm; by constructor|done]|]. intros k. rewrite <- Hperm, elem_of_cons. tauto.
Qed.

Lemma unique_ids_spec ids : forall seen, NoDup (unique_ids seen ids) /\ forall id, id ∈ unique_ids seen ids <-> id ∈ ids /\ id ∉ seen.
Proof.
  induction ids as [|x ids IH]; intros seen; cbn [unique_ids]; [split; [constructor|]; intros id; rewrite elem_of_nil; tauto|]. case_bool_decide as Hx.
  - destruct (IH seen) as [H1 H2]. split; [done|]. intros id. rewrite H2, elem_of_cons. split; [tauto|]. intros [[->|H] Hn]; [done|tauto].
  - destruct (IH ({[x]} ∪ seen)) as [H1 H2]. split; [constructor; [rewrite H2; set_solver|done]|]. intros id. rewrite !elem_of_cons, H2, not_elem_of_union, not_elem_of_singleton. split; [intros [->|[H [? ?]]]; tauto|].
    intros [[->|H] Hn]; [by left|]. destruct (decide (id = x)); [by left|right; tauto].
Qed.

Section Doors.
Context (FormatFloat : Z -> Z -> bytes) (ParseFloat : bytes -> option Z).
Notation store_ok := (store_ok FormatFloat ParseFloat).
Implicit Types (ms : memStore) (n : nodeRow) (r : relRow) (purged : gset Z).

(** ** Nodes *)

Lemma set_labelIdx_self ms : set_labelIdx (labelIdx ms) ms = ms.
Proof. by destruct ms. Qed.

Lemma replace_same_labels_ok purged old n ms : store_ok purged ms -> ms_nodes ms !! n_id n = Some old -> node_replacement_ok old n = true ->
  store_ok purged (replace_node FormatFloat ParseFloat (n_id n) old n ms).
Proof.
  intros Hok Hold [Hid Hl]%replacement_checked. rewrite <- (set_labelIdx_self ms) at 1. destruct (ok_nodes _ _ _ _ Hok _ _ Hold) as [_ (H1 & H2 & H3)].
  apply replace_node_ok; [done|split_and!; [by rewrite Hid|by rewrite Hl..]|done..|].
  eapply members_ok_ext; [apply (ok_labels _ _ _ _ Hok)|]. intros tok x. apply (carries_replace _ _ _ old); [done|]. by rewrite Hl.
Qed.

Lemma remove_label_ok purged nid tok old n ms : store_ok purged ms -> ms_nodes ms !! nid = Some old -> ValidateNodeLabelRemoval old n tok = true ->
  store_ok purged (replace_node FormatFloat ParseFloat nid old n (removeNodeLabelIndex nid tok ms)).
Proof.
  intros Hok Hold Hv. destruct (ok_nodes _ _ _ _ Hok _ _ Hold) as [Hid Hrow]. destruct (removal_checked old n tok Hrow Hv) as (Hn & Hid' & Hl).
  apply replace_node_ok; [done|done|congruence|done|]. eapply members_ok_ext; [apply remove_member_ok, (ok_labels _ _ _ _ Hok)|]. intros t x. cbn. unfold carries.
  destruct (decide (x = nid)) as [->|Hne]; [rewrite lookup_insert_eq, Hold|rewrite lookup_insert_ne by done; naive_solver].
  split; [intros (m & [= <-] & Hm); apply Hl in Hm as [Hm Hne]; naive_solver|intros [(m & [= <-] & Hm) Hne]]. exists n. split; [done|]. apply Hl. split; [done|]. intros ->. by apply Hne.
Qed.

Lemma add_label_ok purged nid tok old n ms : store_ok purged ms -> ms_nodes ms !! nid = Some old -> ValidateNodeLabelAddition old n tok = true ->
  store_ok purged (replace_node FormatFloat ParseFloat nid old n (addNodeLabelIndex nid tok ms)).
Proof.
  intros Hok Hold Hv. destruct (ok_nodes _ _ _ _ Hok _ _ Hold) as [Hid Hrow]. destruct (addition_checked old n tok Hrow Hv) as (Hn & Hid' & Hl).
  apply replace_node_ok; [done|done|congruence|done|]. eapply members_ok_ext; [apply add_member_ok, (ok_labels _ _ _ _ Hok)|]. intros t x. cbn. unfold carries.
  destruct (decide (x = nid)) as [->|Hne]; [rewrite lookup_insert_eq, Hold|rewrite lookup_insert_ne by done; naive_solver].
  split; [intros (m & [= <-] & Hm); apply Hl in Hm; naive_solver|]. intros H. exists n. split; [done|]. apply Hl. naive_solver.
Qed.

Lemma connected_spec purged nid ms rid : store_ok purged ms -> rid ∈ connected nid ms <-> exists r, ms_rels ms !! rid = Some r /\ (r_startID r = nid \/ r_endID r = nid).
Proof.
  intros Hok. unfold connected. rewrite elem_of_elements, elem_of_union. fold (members (outIdx ms) nid) (members (inIdx ms) nid).
  rewrite (proj2 (ok_out _ _ _ _ Hok)), (proj2 (ok_in _ _ _ _ Hok)). naive_solver.
Qed.

Lemma no_adjacency_free purged nid ms : store_ok purged ms -> hasAdjacencyLocked nid ms = false -> forall id r, ms_rels ms !! id = Some r -> r_startID r <> nid /\ r_endID r <> nid.
Proof.
  intros Hok Ha id r Hr. unfold hasAdjacencyLocked in Ha. apply orb_false_iff in Ha as [Ho Hi]. apply negb_false_iff, Nat.eqb_eq, adj_len_zero in Ho, Hi.
  fold (members (outIdx ms) nid) in Ho. fold (members (inIdx ms) nid) in Hi. split; intros E.
  - assert (id ∈ members (outIdx ms) nid) as H by (apply (proj2 (ok_out _ _ _ _ Hok)); eauto). rewrite Ho in H. set_solver.
  - assert (id ∈ members (inIdx ms) nid) as H by (apply (proj2 (ok_in _ _ _ _ Hok)); eauto). rewrite Hi in H. set_solver.
Qed.

(** ** Relationships of a node *)

(** Deleting relationships that exist, each once. *)
Lemma delete_rels_ok ids : forall purged ms, store_ok purged ms -> NoDup ids -> (forall id, id ∈ ids -> is_Some (ms_rels ms !! id)) ->
  exists ms', each_write (deleteRelOrPurgeOrphanLocked FormatFloat ParseFloat) ids ms = (ms', None) /\ each_write (deleteRelLocked FormatFloat ParseFloat) ids ms = (ms', None) /\
    store_ok purged ms' /\ ms_nodes ms' = ms_nodes ms /\ nodeHistory ms' = nodeHistory ms /\ ms_closed ms' = ms_closed ms /\
    relHistory ms' = relHistory ms /\ labelIdx ms' = labelIdx ms /\ forall id, ms_rels ms' !! id = if decide (id ∈ ids) then None else ms_rels ms !! id.
Proof.
  induction ids as [|x ids IH]; intros purged ms Hok Hnd Hlive; [exists ms; split_and!; [done..|]; intros id; by rewrite decide_False by apply not_elem_of_nil|].
  apply NoDup_cons in Hnd as [Hx Hnd]. destruct (Hlive x ltac:(left)) as [r Hr]. destruct (remove_rel_ok FormatFloat ParseFloat purged x true ms r Hok Hr ltac:(done)) as (ms1 & E & Hok1).
  assert (Hms1 := E). rewrite (remove_rel_eq _ _ _ _ _ r Hr) in Hms1. injection Hms1 as Hms1.
  assert (Hr1 : ms_rels ms1 = delete x (ms_rels ms)) by by rewrite <- Hms1.
  destruct (IH purged ms1 Hok1 Hnd) as (ms' & E1 & E2 & H1 & H2 & H3 & H4 & H5 & H6 & H7).
  { intros id Hid. rewrite Hr1, lookup_delete_ne; [apply Hlive; by right|]. intros ->. done. }
  exists ms'. cbn [each_write]. unfold deleteRelOrPurgeOrphanLocked, deleteRelLocked in *. rewrite E. split_and!; [done|done|done|by rewrite H2, <- Hms1|by rewrite H3, <- Hms1|by rewrite H4, <- Hms1|by rewrite H5, <- Hms1|by rewrite H6, <- Hms1|].
  intros id. rewrite H7, Hr1. destruct (decide (id = x)) as [->|Hne]; [rewrite lookup_delete_eq; destruct (decide (x ∈ ids)); by rewrite decide_True by left|].
  rewrite lookup_delete_ne by done. destruct (decide (id ∈ ids)); [by rewrite decide_True by by right|rewrite decide_False; [done|]]. by intros [?|?]%elem_of_cons.
Qed.

Lemma connected_nodup nid ms : NoDup (connected nid ms).
Proof. apply NoDup_elements. Qed.

(** A node with its relationships gone. *)
Lemma cascade_ok purged nid n ms : store_ok purged ms -> ms_nodes ms !! nid = Some n ->
  exists ms', each_write (deleteRelOrPurgeOrphanLocked FormatFloat ParseFloat) (connected nid ms) ms = (ms', None) /\ store_ok purged ms' /\ ms_nodes ms' = ms_nodes ms /\
    (forall id, ms_rels ms' !! id = if decide (id ∈ connected nid ms) then None else ms_rels ms !! id) /\ store_ok purged (drop_node FormatFloat ParseFloat nid n ms').
Proof.
  intros Hok Hn. destruct (delete_rels_ok (connected nid ms) purged ms Hok (connected_nodup nid ms)) as (ms' & E & _ & H1 & H2 & _ & _ & _ & _ & H7).
  { intros id Hid. apply (connected_spec purged) in Hid as (r & Hr & _); [by exists r|done]. }
  exists ms'. split_and!; [done..|]. apply drop_node_ok; [done|by rewrite H2|]. intros id r Hr. rewrite H7 in Hr. destruct (decide (id ∈ connected nid ms)) as [|Hc]; [done|].
  split; intros Er; apply Hc, (connected_spec purged); eauto.
Qed.
End Doors.
