(* ===== verification/MemPurgeOk.v ===== *)
(** * The in-memory store: what a purge removes

    A chunk of a retention purge removes the victims it selected, their
    relationships and the history of both, keeps everything else, and keeps the
    invariant; the loop over the chunks ends with no victim left. *)

From stdpp Require Import gmap.
From S2P Require Import Prelude Bytes ValidTime Props Rows ValueKeys PropertyIndex NodeIndexes CompositeIndex AdjSets Retention RetentionPurge Cascade MemRows MemStore MemPurge MemInv MemStoreOk MemSteps.

(** ** Selection *)

Lemma select_spec chunk wanted ids : forall victims, 0 <= chunk -> Z.of_nat (length victims) <= chunk ->
  select chunk wanted ids victims =
    (victims ++ take (Z.to_nat chunk - length victims) (List.filter wanted ids), (Z.to_nat chunk - length victims <? length (List.filter wanted ids))%nat).
Proof.
  induction ids as [|id ids IH]; intros victims Hc Hl; cbn [select List.filter]; [by rewrite take_nil, app_nil_r; cbn [length]; destruct (Nat.ltb_spec (Z.to_nat chunk - length victims) 0); [lia|]|].
  destruct (wanted id); cbn [negb]; [|by apply IH]. destruct (Z.leb_spec chunk (Z.of_nat (length victims))) as [Hge|Hlt].
  - replace (Z.to_nat chunk - length victims)%nat with 0%nat by lia. cbn [take length]. by rewrite app_nil_r.
  - rewrite IH by (rewrite ?length_app; cbn [length]; lia). rewrite length_app. cbn [length]. replace (Z.to_nat chunk - length victims)%nat with (S (Z.to_nat chunk - (length victims + 1))) by lia.
    cbn [take length]. rewrite <- app_assoc. cbn [app]. by f_equal.
Qed.

(** ** What a purge leaves *)

Definition untouched (ids : list Z) {T} (m : gmap Z T) : gmap Z T := filter (fun p => p.1 ∉ ids) m.

Lemma untouched_lookup {T} ids (m : gmap Z T) id : untouched ids m !! id = if decide (id ∈ ids) then None else m !! id.
Proof.
  unfold untouched. destruct (decide (id ∈ ids)) as [Hi|Hi]; [apply map_lookup_filter_None_2; right; intros t _; cbn; tauto|].
  destruct (m !! id) as [t|] eqn:E; [by apply map_lookup_filter_Some_2|apply map_lookup_filter_None_2; by left].
Qed.

Lemma untouched_cons {T} id ids (m : gmap Z T) : untouched (id :: ids) m = untouched ids (delete id m).
Proof.
  apply map_eq. intros x. rewrite !untouched_lookup. destruct (decide (x = id)) as [->|Hne]; [rewrite lookup_delete_eq, decide_True by left; by case_decide|]. rewrite lookup_delete_ne by done.
  destruct (decide (x ∈ ids)); [by rewrite decide_True by by right|]. rewrite decide_False; [done|]. by intros [?|?]%elem_of_cons.
Qed.

Lemma untouched_nil {T} (m : gmap Z T) : untouched [] m = m.
Proof. apply map_eq. intros x. rewrite untouched_lookup, decide_False; [done|]. apply not_elem_of_nil. Qed.

Lemma size_untouched {T} ids : forall m : gmap Z T, NoDup ids -> (forall id, id ∈ ids -> is_Some (m !! id)) -> size m = (length ids + size (untouched ids m))%nat.
Proof.
  induction ids as [|id ids IH]; intros m Hnd Hl; [by rewrite untouched_nil|]. apply NoDup_cons in Hnd as [Hid Hnd]. destruct (Hl id ltac:(left)) as [r Hr]. rewrite untouched_cons. cbn [length].
  rewrite <- (insert_delete_id m id r Hr) at 1. rewrite map_size_insert_None by apply lookup_delete_eq. rewrite (IH (delete id m) Hnd); [done|]. intros x Hx. rewrite lookup_delete_ne; [apply Hl; by right|by intros ->].
Qed.

Definition spared (V : gset Z) {T} (m : gmap Z T) : gmap Z T := filter (fun p => p.1 ∉ V) m.

Lemma spared_lookup (V : gset Z) {T} (m : gmap Z T) id : spared V m !! id = if decide (id ∈ V) then None else m !! id.
Proof.
  unfold spared. destruct (decide (id ∈ V)) as [Hi|Hi]; [apply map_lookup_filter_None_2; right; intros t _; cbn; tauto|].
  destruct (m !! id) as [t|] eqn:E; [by apply map_lookup_filter_Some_2|apply map_lookup_filter_None_2; by left].
Qed.

Lemma untouched_spared ids {T} (m : gmap Z T) : untouched ids m = spared (list_to_set ids) m.
Proof. apply map_eq. intros id. rewrite untouched_lookup, spared_lookup. destruct (decide (id ∈ ids)); [by rewrite decide_True by by apply elem_of_list_to_set|by rewrite decide_False by by rewrite elem_of_list_to_set]. Qed.

Definition touches (V : gset Z) (r : relRow) : bool := bool_decide (r_startID r ∈ V) || bool_decide (r_endID r ∈ V).

Definition rels_after (V : gset Z) (rels : gmap Z relRow) : gmap Z relRow := filter (fun p => touches V p.2 = false) rels.

Definition history_after (V : gset Z) (rels : gmap Z relRow) (history : gmap Z (gmap Z relRow)) : gmap Z (gmap Z relRow) :=
  filter (fun p => match rels !! p.1 with Some r => touches V r | None => false end = false) history.

Lemma rels_after_lookup V rels id r : rels_after V rels !! id = Some r <-> rels !! id = Some r /\ touches V r = false.
Proof. unfold rels_after. by rewrite map_lookup_filter_Some. Qed.

Lemma rels_after_eq V rels id : rels_after V rels !! id = match rels !! id with Some r => if touches V r then None else Some r | None => None end.
Proof.
  unfold rels_after. destruct (rels !! id) as [r|] eqn:E; [|apply map_lookup_filter_None_2; by left].
  destruct (touches V r) eqn:Et; [apply map_lookup_filter_None_2; right; intros x Hx; rewrite E in Hx; injection Hx as <-; cbn; by rewrite Et|by apply map_lookup_filter_Some_2].
Qed.

Lemma history_after_lookup V rels history id : history_after V rels history !! id = match rels !! id with Some r => if touches V r then None else history !! id | None => history !! id end.
Proof.
  unfold history_after. destruct (history !! id) as [h|] eqn:E.
  - destruct (rels !! id) as [r|] eqn:Er; [destruct (touches V r) eqn:Et|].
    + apply map_lookup_filter_None_2. right. intros x _. cbn. rewrite Er, Et. done.
    + apply map_lookup_filter_Some_2; [done|]. cbn. by rewrite Er.
    + apply map_lookup_filter_Some_2; [done|]. cbn. by rewrite Er.
  - rewrite map_lookup_filter_None_2 by by left. by destruct (rels !! id) as [r|]; [destruct (touches V r)|].
Qed.

Lemma touches_union V W r : touches (V ∪ W) r = touches V r || touches W r.
Proof. unfold touches. apply eq_bool_prop_intro. rewrite !orb_True, !bool_decide_spec. set_solver. Qed.

Section Purge.
Context (FormatFloat : Z -> Z -> bytes) (ParseFloat : bytes -> option Z).
Notation store_ok := (store_ok FormatFloat ParseFloat).
Implicit Types (ms : memStore) (n : nodeRow) (r : relRow) (P : gset Z).

(** ** Ex-adjacency *)

Lemma drop_ex_rows id rows : forall ms, idx_ok (exOutIdx ms) -> idx_ok (exInIdx ms) ->
  exists o i, dropExAdjRowsLocked id rows ms = set_exAdj o i ms /\ idx_ok o /\ idx_ok i /\
    forall rid nid, rid <> id -> (rid ∈ members o nid <-> rid ∈ members (exOutIdx ms) nid) /\ (rid ∈ members i nid <-> rid ∈ members (exInIdx ms) nid).
Proof.
  induction rows as [|r rows IH]; intros ms Ho Hi; [exists (exOutIdx ms), (exInIdx ms); split; [by destruct ms|done]|].
  destruct (removeAdj_ok (r_startID r) id (exOutIdx ms) Ho) as [H1 H2]. destruct (removeAdj_ok (r_endID r) id (exInIdx ms) Hi) as [H3 H4].
  change (dropExAdjRowsLocked id (r :: rows) ms) with (dropExAdjRowsLocked id rows (set_exAdj (removeAdjLocked (r_startID r) id (exOutIdx ms)) (removeAdjLocked (r_endID r) id (exInIdx ms)) ms)).
  destruct (IH (set_exAdj (removeAdjLocked (r_startID r) id (exOutIdx ms)) (removeAdjLocked (r_endID r) id (exInIdx ms)) ms) H1 H3) as (o & i & E & H5 & H6 & H7). exists o, i. split; [by rewrite E|]. split; [done|]. split; [done|]. intros rid nid Hne. destruct (H7 rid nid Hne) as [-> ->]. cbn [set_exAdj exOutIdx exInIdx].
  rewrite H2, H4. split; case_decide; set_solver.
Qed.

(** A relationship without a current row is forgotten. *)
Lemma forget_rel_ok P id rows ms : store_ok P ms -> exists o i, dropExAdjRowsLocked id rows ms = set_exAdj o i ms /\
  store_ok P (set_relHistory (delete id (relHistory ms)) (set_exAdj o i ms)).
Proof.
  intros Hok. destruct Hok. destruct (drop_ex_rows id rows ms) as (o & i & E & Ho & Hi & Hm); [done..|]. exists o, i. split; [done|].
  split; cbn [set_relHistory set_exAdj ms_nodes ms_rels labelIdx typeIdx outIdx inIdx exOutIdx exInIdx nodeHistory relHistory propertyIndexes relPropertyIndexes composites maxNodeOrdinal maxRelOrdinal]; try done.
  - intros rid v h Hh. destruct (decide (rid = id)) as [->|Hne]; [by rewrite lookup_delete_eq in Hh|]. rewrite lookup_delete_ne in Hh by done.
    destruct (ok_legs rid v h Hh) as [H1 H2]. unfold leg_found in *. by rewrite (proj1 (Hm rid (r_startID h) Hne)), (proj2 (Hm rid (r_endID h) Hne)).
  - intros rid v h Hh. destruct (decide (rid = id)) as [->|Hne]; [by rewrite lookup_delete_eq in Hh|]. rewrite lookup_delete_ne in Hh by done. by apply ok_relHistory.
  - apply (ordinals_sub _ _ _ ok_relOrds). intros x p. apply row_ord_mono; [done|]. intros rid v h Hh. destruct (decide (rid = id)) as [->|Hne]; [by rewrite lookup_delete_eq in Hh|by rewrite lookup_delete_ne in Hh].
Qed.

Lemma members_delete idx nid x : members (delete nid idx) x = if decide (x = nid) then ∅ else members idx x.
Proof. unfold members. destruct (decide (x = nid)) as [->|Hne]; [by rewrite lookup_delete_eq|by rewrite lookup_delete_ne]. Qed.

Lemma drop_ex_node_ok P nid ms : store_ok P ms -> store_ok ({[nid]} ∪ P) (dropExAdjNodeLocked nid ms).
Proof.
  intros Hok. destruct Hok. split; cbn [dropExAdjNodeLocked set_exAdj ms_nodes ms_rels labelIdx typeIdx outIdx inIdx exOutIdx exInIdx nodeHistory relHistory propertyIndexes relPropertyIndexes composites maxNodeOrdinal maxRelOrdinal]; try done.
  - intros x s Hs. apply lookup_delete_Some in Hs as [_ Hs]. by eapply ok_exOut.
  - intros x s Hs. apply lookup_delete_Some in Hs as [_ Hs]. by eapply ok_exIn.
  - intros rid v h Hh. destruct (ok_legs rid v h Hh) as [H1 H2]. unfold leg_found in *. rewrite !members_delete.
    split; case_decide; set_solver.
Qed.

(** More purged nodes excuse more. *)
Lemma purged_mono P P' ms : store_ok P ms -> P ⊆ P' -> store_ok P' ms.
Proof. intros Hok HP. destruct Hok. split; try done. intros rid v h Hh. destruct (ok_legs rid v h Hh). unfold leg_found in *. set_solver. Qed.

Lemma purge_node_eq nid n ms : purge_node FormatFloat ParseFloat nid n ms =
  set_nodeHistory (delete nid (nodeHistory ms)) (dropExAdjNodeLocked nid (drop_node FormatFloat ParseFloat nid n ms)).
Proof. unfold purge_node, drop_node. cbv zeta. by rewrite !removeLabels_eq. Qed.

(** ** The relationships of a victim *)

Lemma purge_connected_ok P id c ms r : store_ok P ms -> ms_rels ms !! id = Some r ->
  exists ms', purge_connected FormatFloat ParseFloat id (c, ms) = (c + 1, ms', None) /\ store_ok P ms' /\ ms_nodes ms' = ms_nodes ms /\ nodeHistory ms' = nodeHistory ms /\ ms_closed ms' = ms_closed ms /\
    ms_rels ms' = delete id (ms_rels ms) /\ relHistory ms' = delete id (relHistory ms).
Proof.
  intros Hok Hr. destruct (remove_rel_ok FormatFloat ParseFloat P id true ms r Hok Hr ltac:(done)) as (ms1 & E & Hok1). assert (Hms1 := E). rewrite (remove_rel_eq _ _ _ _ _ r Hr) in Hms1. injection Hms1 as Hms1.
  destruct (forget_rel_ok P id (relRowsLocked id ms) ms1 Hok1) as (o & i & Ed & Hok2). unfold purge_connected, deleteRelOrPurgeOrphanLocked, deleteRelLocked. rewrite E, Ed. eexists.
  split; [rewrite bool_decide_eq_true_2 by (by exists r); reflexivity|]. split; [exact Hok2|]. cbn [set_relHistory set_exAdj ms_nodes ms_rels nodeHistory relHistory ms_closed]. by rewrite <- Hms1.
Qed.

Lemma purge_all_ok ids : forall P c ms, store_ok P ms -> NoDup ids -> (forall id, id ∈ ids -> is_Some (ms_rels ms !! id)) ->
  exists ms', purge_all_connected FormatFloat ParseFloat ids (c, ms) = (c + Z.of_nat (length ids), ms', None) /\ store_ok P ms' /\ ms_nodes ms' = ms_nodes ms /\ nodeHistory ms' = nodeHistory ms /\ ms_closed ms' = ms_closed ms /\
    ms_rels ms' = untouched ids (ms_rels ms) /\ relHistory ms' = untouched ids (relHistory ms).
Proof.
  induction ids as [|id ids IH]; intros P c ms Hok Hnd Hlive; cbn [purge_all_connected].
  - exists ms. rewrite !untouched_nil. split_and!; try done. cbn [length]. by rewrite Z.add_0_r.
  - apply NoDup_cons in Hnd as [Hid Hnd]. destruct (Hlive id ltac:(left)) as [r Hr]. destruct (purge_connected_ok P id c ms r Hok Hr) as (ms1 & E & Hok1 & H1 & H2 & H3 & H4 & H5).
    destruct (IH P (c + 1) ms1 Hok1 Hnd) as (ms' & E' & Hok' & H1' & H2' & H3' & H4' & H5'); [intros x Hx; rewrite H4, lookup_delete_ne; [apply Hlive; by right|by intros ->]|].
    exists ms'. rewrite E, E', !untouched_cons, <- H4, <- H5. split_and!; [cbn [length]; do 2 f_equal; lia|congruence..].
Qed.

(** ** The victims *)

Lemma untouched_connected P nid ms : store_ok P ms -> untouched (connected nid ms) (ms_rels ms) = rels_after {[nid]} (ms_rels ms) /\
  untouched (connected nid ms) (relHistory ms) = history_after {[nid]} (ms_rels ms) (relHistory ms).
Proof.
  intros Hok. assert (Ht : forall id, id ∈ connected nid ms <-> exists r, ms_rels ms !! id = Some r /\ touches {[nid]} r = true).
  { intros id. rewrite (connected_spec FormatFloat ParseFloat P) by done. unfold touches. setoid_rewrite orb_true_iff. by setoid_rewrite bool_decide_eq_true; setoid_rewrite elem_of_singleton. }
  split; apply map_eq; intros id; rewrite untouched_lookup, ?rels_after_eq, ?history_after_lookup; case_decide as Hc; rewrite Ht in Hc.
  - destruct Hc as (r & -> & ->). done.
  - destruct (ms_rels ms !! id) as [r|]; [|done]. destruct (touches {[nid]} r) eqn:E; [|done]. destruct Hc. eauto.
  - destruct Hc as (r & -> & ->). done.
  - destruct (ms_rels ms !! id) as [r|]; [|done]. destruct (touches {[nid]} r) eqn:E; [|done]. destruct Hc. eauto.
Qed.

Lemma purge_node_ok P nid n ms (ms2 := purge_node FormatFloat ParseFloat nid n ms) : store_ok P ms -> ms_nodes ms !! nid = Some n ->
  (forall id r, ms_rels ms !! id = Some r -> r_startID r <> nid /\ r_endID r <> nid) ->
  store_ok ({[nid]} ∪ P) ms2 /\ ms_nodes ms2 = delete nid (ms_nodes ms) /\ nodeHistory ms2 = delete nid (nodeHistory ms) /\
  ms_rels ms2 = ms_rels ms /\ relHistory ms2 = relHistory ms /\ ms_closed ms2 = ms_closed ms.
Proof.
  intros Hok Hn Hfree. pose proof (drop_node_ok FormatFloat ParseFloat P nid n ms Hok Hn Hfree) as Hdrop. subst ms2. rewrite purge_node_eq.
  split; [|by rewrite drop_node_eq]. apply shrink_node_history_ok; [by apply drop_ex_node_ok|]. rewrite drop_node_eq. cbn [dropExAdjNodeLocked set_exAdj nodeHistory].
  intros id v t Ht. destruct (decide (id = nid)) as [->|Hne]; [by rewrite lookup_delete_eq in Ht|by rewrite lookup_delete_ne in Ht].
Qed.

Lemma purge_victims_ok victims : forall P purged c ms, store_ok P ms -> NoDup victims -> (forall id, id ∈ victims -> is_Some (ms_nodes ms !! id)) ->
  exists ms', purge_victims FormatFloat ParseFloat victims purged (c, ms) = (purged ++ victims, (c + (Z.of_nat (size (ms_rels ms)) - Z.of_nat (size (ms_rels ms'))), ms'), None) /\
    store_ok (list_to_set victims ∪ P) ms' /\ ms_closed ms' = ms_closed ms /\ ms_nodes ms' = untouched victims (ms_nodes ms) /\ nodeHistory ms' = untouched victims (nodeHistory ms) /\
    ms_rels ms' = rels_after (list_to_set victims) (ms_rels ms) /\ relHistory ms' = history_after (list_to_set victims) (ms_rels ms) (relHistory ms).
Proof.
  induction victims as [|nid victims IH]; intros P purged c ms Hok Hnd Hlive; cbn [purge_victims].
  - exists ms. rewrite !untouched_nil, app_nil_r, Z.sub_diag, Z.add_0_r. split_and!; [done|by apply (purged_mono P); [|set_solver]|done..| |]; apply map_eq; intros id; rewrite ?rels_after_eq, ?history_after_lookup.
    + destruct (ms_rels ms !! id) as [r|]; [|done]. unfold touches. cbn [list_to_set]. by rewrite !bool_decide_eq_false_2 by set_solver.
    + destruct (ms_rels ms !! id) as [r|]; [|done]. unfold touches. cbn [list_to_set]. by rewrite !bool_decide_eq_false_2 by set_solver.
  - apply NoDup_cons in Hnd as [Hnid Hnd]. destruct (Hlive nid ltac:(left)) as [n Hn]. cbn [snd fst]. rewrite Hn.
    destruct (purge_all_ok (connected nid ms) P c ms Hok (connected_nodup nid ms)) as (ms1 & E & Hok1 & H1 & H2 & H3 & H4 & H5).
    { intros id Hid. apply (connected_spec FormatFloat ParseFloat P) in Hid as (r & Hr & _); [by exists r|done]. }
    destruct (untouched_connected P nid ms Hok) as [U1 U2]. rewrite U1 in H4. rewrite U2 in H5. rewrite E. cbn [fst snd].
    assert (Hlen : Z.of_nat (length (connected nid ms)) = Z.of_nat (size (ms_rels ms)) - Z.of_nat (size (ms_rels ms1))).
    { rewrite H4, <- U1, (size_untouched (connected nid ms) (ms_rels ms)); [lia|apply connected_nodup|].
      intros id Hid. apply (connected_spec FormatFloat ParseFloat P) in Hid as (r & Hr & _); [by exists r|done]. }
    set (ms2 := purge_node FormatFloat ParseFloat nid n ms1).
    destruct (purge_node_ok P nid n ms1 Hok1) as (Hok2 & F1 & F2 & F3 & F4 & F5); [by rewrite H1| |].
    { intros id r Hr. rewrite H4 in Hr. apply rels_after_lookup in Hr as [_ Ht]. unfold touches in Ht. apply orb_false_iff in Ht as [Ht1 Ht2]. apply bool_decide_eq_false in Ht1, Ht2. set_solver. }
    rewrite H1 in F1. rewrite H2 in F2. fold ms2 in Hok2, F1, F2, F3, F4, F5.
    destruct (IH ({[nid]} ∪ P) (purged ++ [nid]) (c + Z.of_nat (length (connected nid ms))) ms2 Hok2 Hnd) as (ms' & E' & Hok' & G1 & G2 & G3 & G4 & G5).
    { intros id Hid. rewrite F1, lookup_delete_ne; [apply Hlive; by right|by intros ->]. }
    exists ms'. rewrite E'. split_and!.
    + rewrite <- app_assoc, F3, Hlen. do 3 f_equal. lia.
    + apply (purged_mono _ _ _ Hok'). cbn [list_to_set]. set_solver.
    + congruence.
    + by rewrite G2, F1, untouched_cons.
    + by rewrite G3, F2, untouched_cons.
    + rewrite G4, F3, H4. apply map_eq. intros id. cbn [list_to_set]. rewrite !rels_after_eq. destruct (ms_rels ms !! id) as [r|]; [|done]. rewrite touches_union. destruct (touches {[nid]} r); done.
    + rewrite G5, F4, F3, H4, H5. apply map_eq. intros id. cbn [list_to_set]. rewrite !history_after_lookup, rels_after_eq. destruct (ms_rels ms !! id) as [r|]; [|done]. rewrite touches_union. destruct (touches {[nid]} r); [done|].  done.
Qed.
End Purge.

(** ** Chunks and the loop over them *)

Section Loop.
Context (FormatFloat : Z -> Z -> bytes) (ParseFloat : bytes -> option Z) (order : gset Z -> list Z) (axis : ValidAxis) `{Layout}.
(** A range over a map meets every key once. *)
Hypothesis order_perm : forall X, order X ≡ₚ base.elements X.
Notation store_ok := (store_ok FormatFloat ParseFloat).
Implicit Types (ms : memStore) (P V W : gset Z).

(** Exactly the nodes [V] and what hangs on them is gone. *)
Record purged_store P V ms ms' : Prop := {
  ps_ok : store_ok (V ∪ P) ms';
  ps_closed : ms_closed ms' = ms_closed ms;
  ps_nodes : ms_nodes ms' = spared V (ms_nodes ms);
  ps_nodeHistory : nodeHistory ms' = spared V (nodeHistory ms);
  ps_rels : ms_rels ms' = rels_after V (ms_rels ms);
  ps_relHistory : relHistory ms' = history_after V (ms_rels ms) (relHistory ms);
}.

Lemma purged_trans P V W ms ms1 ms2 : purged_store P V ms ms1 -> purged_store (V ∪ P) W ms1 ms2 -> purged_store P (V ∪ W) ms ms2.
Proof.
  intros [A1 A2 A3 A4 A5 A6] [B1 B2 B3 B4 B5 B6]. split.
  - by replace ((V ∪ W) ∪ P) with (W ∪ (V ∪ P)) by set_solver.
  - congruence.
  - rewrite B3, A3. apply map_eq. intros id. rewrite !spared_lookup. repeat case_decide; set_solver.
  - rewrite B4, A4. apply map_eq. intros id. rewrite !spared_lookup. repeat case_decide; set_solver.
  - rewrite B5, A5. apply map_eq. intros id. rewrite !rels_after_eq. destruct (ms_rels ms !! id) as [r|]; [|done]. rewrite touches_union. by destruct (touches V r).
  - rewrite B6, A5, A6. apply map_eq. intros id. rewrite !history_after_lookup, rels_after_eq. destruct (ms_rels ms !! id) as [r|]; [|done]. rewrite touches_union. by destruct (touches V r).
Qed.

(** The nodes of a label that qualify. *)
Definition purgeable (token : Z) (qualifies : Z -> nodeRow -> bool) ms : gset Z := dom (filter (fun p => token ∈ AllLabelTokens p.2 /\ qualifies p.1 p.2 = true) (ms_nodes ms)).

Lemma elem_of_purgeable token qualifies ms id : id ∈ purgeable token qualifies ms <-> exists n, ms_nodes ms !! id = Some n /\ token ∈ AllLabelTokens n /\ qualifies id n = true.
Proof. unfold purgeable. rewrite elem_of_dom. unfold is_Some. setoid_rewrite map_lookup_filter_Some. done. Qed.

Lemma purgeable_spared token qualifies V ms ms' : ms_nodes ms' = spared V (ms_nodes ms) -> purgeable token qualifies ms' = purgeable token qualifies ms ∖ V.
Proof.
  intros E. apply set_eq. intros id. rewrite elem_of_difference, !elem_of_purgeable, E, spared_lookup. destruct (decide (id ∈ V)); naive_solver.
Qed.

Definition wanted_node (qualifies : Z -> nodeRow -> bool) ms (id : Z) : bool := match ms_nodes ms !! id with Some n => qualifies id n | None => false end.

(** The qualifying candidates are the qualifying nodes, each once. *)
Lemma candidates P token qualifies ms (l := List.filter (wanted_node qualifies ms) (order (default ∅ (labelIdx ms !! token)))) : store_ok P ms ->
  NoDup l /\ (forall id, id ∈ l <-> id ∈ purgeable token qualifies ms) /\ length l = size (purgeable token qualifies ms).
Proof.
  intros Hok. assert (Hnd : NoDup l) by (subst l; apply NoDup_ListNoDup, List.NoDup_filter, NoDup_ListNoDup; rewrite order_perm; apply NoDup_elements).
  assert (Hin : forall id, id ∈ l <-> id ∈ purgeable token qualifies ms).
  { intros id. subst l. rewrite elem_of_Lfilter, order_perm, elem_of_elements, elem_of_purgeable. fold (tok_members (labelIdx ms) token). rewrite (proj2 (ok_labels _ _ _ _ Hok)). unfold wanted_node, carries.
    destruct (ms_nodes ms !! id) as [n|]; naive_solver. }
  split; [done|]. split; [done|]. rewrite <- (size_list_to_set (C := gset Z) l Hnd). f_equal. apply set_eq. intros id. by rewrite elem_of_list_to_set.
Qed.

(** One chunk: as many victims as it may take, and [More] when some are left. *)
Lemma purge_chunk_ok P token qualifies chunk ms : store_ok P ms -> ms_closed ms = false -> 0 < chunk ->
  exists ids ms', purgeNodesByLabel FormatFloat ParseFloat order token chunk qualifies ms =
      (inl (mkResult (Z.of_nat (length ids)) (Z.of_nat (size (ms_rels ms)) - Z.of_nat (size (ms_rels ms'))) (chunk <? Z.of_nat (size (purgeable token qualifies ms))) ids), ms') /\
    NoDup ids /\ (forall id, id ∈ ids -> id ∈ purgeable token qualifies ms) /\
    Z.of_nat (length ids) = Z.min chunk (Z.of_nat (size (purgeable token qualifies ms))) /\ purged_store P (list_to_set ids) ms ms'.
Proof.
  intros Hok Hopen Hc. unfold purgeNodesByLabel. rewrite Hopen. destruct (Z.leb_spec chunk 0); [lia|]. fold (wanted_node qualifies ms). rewrite select_spec by (cbn; lia).
  destruct (candidates P token qualifies ms Hok) as (Hnd & Hin & Hlen). set (l := List.filter (wanted_node qualifies ms) (order (default ∅ (labelIdx ms !! token)))) in *.
  cbn [length app]. rewrite Nat.sub_0_r. set (ids := take (Z.to_nat chunk) l).
  assert (Hsub : ids ⊆ l) by (intros id; apply subseteq_take). assert (Hids : NoDup ids) by (apply (sublist_NoDup _ l); [done|apply sublist_take]).
  destruct (purge_victims_ok FormatFloat ParseFloat ids P [] 0 ms Hok Hids) as (ms' & E & H1 & H2 & H3 & H4 & H5 & H6).
  { intros id Hid. apply Hsub, Hin, elem_of_purgeable in Hid as (n & Hn & _). by exists n. }
  exists ids, ms'. rewrite E. cbn [app]. rewrite Z.add_0_l, Hlen. split_and!.
  - do 3 f_equal. destruct (Nat.ltb_spec (Z.to_nat chunk) (size (purgeable token qualifies ms))), (Z.ltb_spec chunk (Z.of_nat (size (purgeable token qualifies ms)))); try done; lia.
  - done.
  - intros id Hid. by apply Hin, Hsub.
  - unfold ids. rewrite length_take, Hlen. lia.
  - split; rewrite <- ?untouched_spared; done.
Qed.

(** What the mode of a purge asks of a node. *)
Definition mode_qualifies (mode : Z) (before : Instant) (id : Z) (n : nodeRow) : bool := if mode =? PurgeByValidTo then ended_before axis before n else minted_before before id.

Notation nodes_before := (Some (fun token before chunk ms => to_core (PurgeNodesByLabelBefore FormatFloat ParseFloat order token before chunk ms))).
Notation nodes_ended := (Some (fun token before chunk ms => to_core (PurgeNodesByLabelValidToBefore FormatFloat ParseFloat order axis token before chunk ms))).

Lemma chunk_answer token before mode ms : 0 < before -> purgeChunk nodes_before nodes_ended token before mode ms = to_core (purgeNodesByLabel FormatFloat ParseFloat order token retentionPurgeChunk (mode_qualifies mode before) ms).
Proof.
  intros Hb. unfold purgeChunk, mode_qualifies. destruct (mode =? PurgeByValidTo); unfold PurgeNodesByLabelValidToBefore, PurgeNodesByLabelBefore; (destruct (Z.leb_spec before 0); [lia|done]).
Qed.

Lemma same_answer {A B C D} (a a' : A) (b b' : B) (c : C) (d : D) : a = a' -> b = b' -> Some (a, b, c, d) = Some (a', b', c, d).
Proof. by intros -> ->. Qed.

(** The loop of a call that is not cut short. *)
Lemma purge_chunks_ok k token before mode excludeTx owners fuel : 0 < before -> (forall n, ctx_done k n = false) -> (forall n, lock_abandoned k n = false) ->
  forall n report reap P ms, store_ok P ms -> ms_closed ms = false -> (0 < fuel)%nat -> Z.of_nat (size (purgeable token (mode_qualifies mode before) ms)) <= 256 * Z.of_nat fuel ->
  exists ms', purge_chunks nodes_before nodes_ended fuel k token before mode excludeTx owners n report reap ms =
    Some (mkReport (NodesPurged report + Z.of_nat (size (purgeable token (mode_qualifies mode before) ms))) (RelsPurged report + (Z.of_nat (size (ms_rels ms)) - Z.of_nat (size (ms_rels ms')))) (Watermark report),
          match owners with Some o => reap ∪ (purgeable token (mode_qualifies mode before) ms ∩ o) | None => reap end, None, ms') /\
    purged_store P (purgeable token (mode_qualifies mode before) ms) ms ms'.
Proof.
  intros Hb Hctx Hlock. induction fuel as [|fuel IH]; intros n report reap P ms Hok Hopen Hf Hsize; [lia|]. cbn [purge_chunks]. rewrite Hctx, Hlock, andb_false_r, chunk_answer by done.
  set (q := mode_qualifies mode before) in *. set (V := purgeable token q ms) in *.
  destruct (purge_chunk_ok P token q retentionPurgeChunk ms Hok Hopen ltac:(done)) as (ids & ms1 & E & Hnd & Hin & Hlen & Hps). fold V in E, Hin, Hlen. rewrite E. cbn [to_core res_NodesPurged res_RelsPurged More PurgedNodeIDs].
  assert (HsV : Z.of_nat (size (list_to_set (C := gset Z) ids)) = Z.min 256 (Z.of_nat (size V))) by (rewrite size_list_to_set by done; exact Hlen).
  assert (Hsub : list_to_set ids ⊆ V) by (intros id Hid; by apply Hin, elem_of_list_to_set in Hid || (apply elem_of_list_to_set in Hid; by apply Hin)).
  assert (Hrest : purgeable token q ms1 = V ∖ list_to_set ids) by (apply purgeable_spared, (ps_nodes _ _ _ _ Hps)).
  assert (HfO : forall o : gset Z, filter (.∈ o) (list_to_set (C := gset Z) ids) = list_to_set ids ∩ o) by (intros o; apply set_eq; intros x; rewrite elem_of_filter; set_solver).
  change retentionPurgeChunk with 256 in *. destruct (Z.ltb_spec 256 (Z.of_nat (size V))) as [Hmore|Hdone]; cbn [negb].
  - pose proof (size_difference V (list_to_set ids) Hsub) as Hd. destruct (IH (S n) (mkReport (NodesPurged report + Z.of_nat (length ids)) (RelsPurged report + (Z.of_nat (size (ms_rels ms)) - Z.of_nat (size (ms_rels ms1)))) (Watermark report))
      (match owners with Some o => reap ∪ filter (.∈ o) (list_to_set ids : gset Z) | None => reap end) (list_to_set ids ∪ P) ms1) as (ms' & E' & Hps').
    + apply Hps.
    + by rewrite (ps_closed _ _ _ _ Hps).
    + lia.
    + fold q. rewrite Hrest, Hd. lia.
    + fold q in E', Hps'. rewrite Hrest in E', Hps'. exists ms'. split.
      * rewrite E'. cbn [NodesPurged RelsPurged Watermark]. rewrite Hd. apply same_answer; [f_equal; lia|]. destruct owners as [o|]; [|done]. rewrite HfO. rewrite (union_difference_L (list_to_set ids) V Hsub) at 2. set_solver.
      * replace V with (list_to_set ids ∪ V ∖ list_to_set ids) by (symmetry; by apply union_difference_L). by apply (purged_trans P _ _ ms ms1).
  - assert (EV : list_to_set ids = V) by (apply set_eq_subseteq_size_l || (apply leibniz_equiv, set_subseteq_size_equiv; [done|lia])).
    exists ms1. split; [|by rewrite <- EV]. apply same_answer; [f_equal; lia|]. destruct owners as [o|]; [by rewrite HfO, EV|done].
Qed.
End Loop.
