(* ===== verification/MemDoors.v ===== *)
(** * The in-memory store: every door keeps the invariant

    One lemma per exported write of the store: whatever it answers, the invariant
    holds of the store it leaves, given that it held before. *)

From stdpp Require Import gmap.
From S2P Require Import Prelude Bytes ValidTime Props Rows ValueKeys PropertyIndex NodeIndexes CompositeIndex AdjSets Retention RetentionPurge Cascade MemRows MemStore MemHistory MemPurge MemInv MemStoreOk MemSteps MemPurgeOk.

(** A door's guards, one after the other. *)
Ltac guards := repeat match goal with
  | |- context [if negb ?b then _ else _] => let E := fresh "G" in destruct b eqn:E; cbn [negb fst]; [|done]
  | |- context [if ?b then (_, Some _) else _] => let E := fresh "G" in destruct b eqn:E; cbn [fst]; [done|]
  | |- context [match ?o with None => (_, Some _) | Some _ => _ end] => let E := fresh "G" in destruct o eqn:E; cbn [fst]; [|done]
  end; rewrite ?andb_true_iff in *.

Section Doors.
Context (FormatFloat : Z -> Z -> bytes) (ParseFloat : bytes -> option Z).
Notation store_ok := (store_ok FormatFloat ParseFloat).
Implicit Types (ms : memStore) (n : nodeRow) (r : relRow) (P : gset Z).

(** ** Nodes *)

Lemma PutNode_ok P n ms : store_ok P ms -> NoDup (AllLabelTokens n) -> store_ok P (fst (PutNode FormatFloat ParseFloat n ms)).
Proof.
  intros Hok Hnd. unfold PutNode. guards. destruct (ms_nodes ms !! n_id n) eqn:E; [done|]. apply insert_node_ok; [done|by apply node_write_checked|done].
Qed.

Lemma ReplaceNode_ok P n ms : store_ok P ms -> store_ok P (fst (ReplaceNode FormatFloat ParseFloat n ms)).
Proof. intros Hok. unfold ReplaceNode. guards. by apply replace_same_labels_ok. Qed.

Lemma RemoveNodeLabelToken_ok P nid tok n ms : store_ok P ms -> store_ok P (fst (RemoveNodeLabelToken FormatFloat ParseFloat nid tok n ms)).
Proof. intros Hok. unfold RemoveNodeLabelToken. guards. by apply remove_label_ok. Qed.

Lemma AddNodeLabelToken_ok P nid tok n ms : store_ok P ms -> store_ok P (fst (AddNodeLabelToken FormatFloat ParseFloat nid tok n ms)).
Proof. intros Hok. unfold AddNodeLabelToken. guards. by apply add_label_ok. Qed.

Lemma DeleteNode_ok P nid ms : store_ok P ms -> store_ok P (fst (DeleteNode FormatFloat ParseFloat nid ms)).
Proof. intros Hok. unfold DeleteNode. guards. apply drop_node_ok; [done..|]. by apply (no_adjacency_free FormatFloat ParseFloat P). Qed.

Lemma drop_nodes_ok P ids : forall ms, store_ok P ms -> (forall id, id ∈ ids -> forall rid r, ms_rels ms !! rid = Some r -> r_startID r <> id /\ r_endID r <> id) ->
  store_ok P (fold_left (fun ms id => match ms_nodes ms !! id with Some n => drop_node FormatFloat ParseFloat id n ms | None => ms end) ids ms).
Proof.
  induction ids as [|id ids IH]; intros ms Hok Hfree; [done|]. cbn [fold_left]. destruct (ms_nodes ms !! id) as [n|] eqn:E; [|apply IH; [done|]; intros x Hx; apply Hfree; by right].
  apply IH; [apply drop_node_ok; [done..|]; apply Hfree; left|]. intros x Hx. rewrite drop_node_eq. cbn [ms_rels]. apply Hfree. by right.
Qed.

Lemma deletable_free P ids ms : store_ok P ms -> deletable_nodes ids ms = None -> forall id, id ∈ ids -> forall rid r, ms_rels ms !! rid = Some r -> r_startID r <> id /\ r_endID r <> id.
Proof.
  intros Hok. induction ids as [|x ids IH]; intros Hd id Hid; [by apply not_elem_of_nil in Hid|]. cbn [deletable_nodes] in Hd. destruct (ms_nodes ms !! x); [|done]. destruct (hasAdjacencyLocked x ms) eqn:Ha; [done|].
  apply elem_of_cons in Hid as [->|Hid]; [by apply (no_adjacency_free FormatFloat ParseFloat P)|by apply IH].
Qed.

Lemma DeleteNodesBatch_ok P ids ms : store_ok P ms -> store_ok P (fst (DeleteNodesBatch FormatFloat ParseFloat ids ms)).
Proof.
  intros Hok. unfold DeleteNodesBatch. destruct (ms_closed ms); [done|]. destruct ids as [|id ids]; [done|]. guards. destruct (deletable_nodes _ ms) eqn:Ed; [done|]. apply drop_nodes_ok; [done|].
  by apply (deletable_free P).
Qed.

Lemma DeleteNodeCascade_ok P nid ms : store_ok P ms -> store_ok P (fst (DeleteNodeCascade FormatFloat ParseFloat nid ms)).
Proof.
  intros Hok. unfold DeleteNodeCascade. guards. destruct (cascade_ok FormatFloat ParseFloat P nid n ms Hok) as (ms' & E & _ & _ & _ & H'); [done|]. by rewrite E.
Qed.

(** ** Relationships *)

Lemma PutRelationship_ok P r ms : store_ok P ms -> store_ok P (fst (PutRelationship FormatFloat ParseFloat r ms)).
Proof.
  intros Hok. unfold PutRelationship. guards. destruct (ms_nodes ms !! r_startID r) eqn:Es; [|done]. destruct (ms_nodes ms !! r_endID r) eqn:Ee; [|done]. destruct (ms_rels ms !! r_id r) eqn:Er; [done|].
  match goal with H : ValidateRelationshipWrite r = true |- _ => apply rel_write_checked in H as [? ?] end. apply insert_rel_ok; try done; by eexists.
Qed.

Lemma with_endpoint_hashes_fields f t r (r' := with_endpoint_hashes f t r) : r_id r' = r_id r /\ r_relType r' = r_relType r /\ r_startID r' = r_startID r /\ r_endID r' = r_endID r.
Proof. subst r'. unfold with_endpoint_hashes, RelSetIntegrity. by destruct (r_frozen r). Qed.

Lemma PutRelationshipGenerated_ok P r ms : store_ok P ms -> store_ok P (fst (PutRelationshipGeneratedIDWithEndpointHashes FormatFloat ParseFloat r ms)).
Proof.
  intros Hok. unfold PutRelationshipGeneratedIDWithEndpointHashes. destruct (ms_closed ms); [done|]. destruct (ValidateRelationshipWrite r) eqn:Ew; [|done]. cbn [negb].
  destruct (ms_nodes ms !! r_startID r) as [s|] eqn:Es; [|done]. destruct (ms_nodes ms !! r_endID r) as [e|] eqn:Ee; [|done]. destruct (ms_rels ms !! r_id r) eqn:Er; [done|]. cbv zeta. cbn [fst].
  apply rel_write_checked in Ew as [? ?]. set (t := if negb _ then _ else _). destruct (with_endpoint_hashes_fields (nodeIntegrityHash s) t r) as (F1 & F2 & F3 & F4).
  apply insert_rel_ok; rewrite ?F1, ?F2, ?F3, ?F4; try done; by eexists.
Qed.

Lemma ReplaceRelationship_ok P r ms : store_ok P ms -> store_ok P (fst (ReplaceRelationship FormatFloat ParseFloat r ms)).
Proof.
  intros Hok. unfold ReplaceRelationship. guards. match goal with H : ValidateRelationshipReplacement _ _ = true |- _ => apply rel_replacement_checked in H as (? & ? & ? & ?) end. by apply replace_rel_ok.
Qed.

Lemma removeRelLocked_ok P id exLeg ms : store_ok P ms -> (exLeg = false -> undoable P id ms) -> store_ok P (fst (removeRelLocked FormatFloat ParseFloat id exLeg ms)).
Proof.
  intros Hok Hu. destruct (ms_rels ms !! id) as [r|] eqn:Er; [|unfold removeRelLocked; by rewrite Er]. destruct (remove_rel_ok FormatFloat ParseFloat P id exLeg ms r Hok Er Hu) as (ms' & E & H'). by rewrite E.
Qed.

Lemma deleteRelationship_ok P id exLeg ms : store_ok P ms -> (exLeg = false -> undoable P id ms) -> store_ok P (fst (deleteRelationshipRouted FormatFloat ParseFloat id exLeg ms)).
Proof. intros Hok Hu. unfold deleteRelationshipRouted. guards. by apply removeRelLocked_ok. Qed.

Lemma insert_rels_ok P rels : forall seen ms ms', creatable_rels seen rels ms = None -> store_ok P ms' -> ms_nodes ms' = ms_nodes ms ->
  (forall id, is_Some (ms_rels ms' !! id) -> is_Some (ms_rels ms !! id) \/ id ∈ seen) -> store_ok P (fold_left (fun ms r => insert_rel FormatFloat ParseFloat r ms) rels ms').
Proof.
  induction rels as [|r rels IH]; intros seen ms ms' Hc Hok Hn Hr; [done|]. cbn [fold_left creatable_rels] in *. destruct (ValidateRelationshipWrite r) eqn:Ew; [|done]. cbn [negb] in Hc.
  destruct (ms_nodes ms !! r_startID r) eqn:Es; [|done]. destruct (ms_nodes ms !! r_endID r) eqn:Ee; [|done]. destruct (ms_rels ms !! r_id r) eqn:Er; [done|]. case_bool_decide as Hs; [done|].
  apply rel_write_checked in Ew as [? ?]. assert (Hno : ms_rels ms' !! r_id r = None).
  { apply eq_None_not_Some. intros Hx. destruct (Hr _ Hx) as [[x Hx']|?]; [congruence|done]. }
  apply (IH ({[r_id r]} ∪ seen) ms); [done|apply insert_rel_ok; rewrite ?Hn; try done; by eexists|rewrite insert_rel_eq; by destruct (next_ordinal _ _ _ _ _)|].
  intros id Hid. rewrite insert_rel_eq in Hid. destruct (next_ordinal _ _ _ _ _) as [o m]. cbn [ms_rels] in Hid. destruct (decide (id = r_id r)) as [->|Hne]; [right; set_solver|]. rewrite lookup_insert_ne in Hid by done. destruct (Hr id Hid); [by left|right; set_solver].
Qed.

Lemma PutRelationshipsBatch_ok P rels ms : store_ok P ms -> store_ok P (fst (PutRelationshipsBatch FormatFloat ParseFloat rels ms)).
Proof. intros Hok. unfold PutRelationshipsBatch. guards. destruct (creatable_rels ∅ rels ms) eqn:Ec; [done|]. apply (insert_rels_ok P rels ∅ ms); try done. by left. Qed.

Lemma DeleteRelationshipsBatch_ok P ids ms : store_ok P ms -> store_ok P (fst (DeleteRelationshipsBatch FormatFloat ParseFloat ids ms)).
Proof.
  intros Hok. unfold DeleteRelationshipsBatch. guards. destruct (forallb _ (uniqueRelIDs ids)) eqn:Ef; [|done]. destruct (unique_ids_spec ids ∅) as [Hnd _].
  destruct (delete_rels_ok FormatFloat ParseFloat (uniqueRelIDs ids) P ms Hok Hnd) as (ms' & _ & E & H' & _); [|by rewrite E].
  intros id Hid. rewrite forallb_forall in Ef. apply (bool_decide_eq_true_1 (is_Some (ms_rels ms !! id))), Ef. by apply list_elem_of_In.
Qed.

(** ** With history *)

Lemma put_node_history_frame nid v n ms (ms' := putNodeHistoryRowLocked nid v n ms) :
  ms_nodes ms' = ms_nodes ms /\ ms_rels ms' = ms_rels ms /\ labelIdx ms' = labelIdx ms /\ outIdx ms' = outIdx ms /\ inIdx ms' = inIdx ms /\ ms_closed ms' = ms_closed ms.
Proof. subst ms'. rewrite put_node_history_eq. by destruct (next_ordinal _ _ _ _ _). Qed.

Lemma put_rel_history_frame id v r ms (ms' := putRelHistoryRowLocked id v r ms) :
  ms_nodes ms' = ms_nodes ms /\ ms_rels ms' = ms_rels ms /\ labelIdx ms' = labelIdx ms /\ outIdx ms' = outIdx ms /\ inIdx ms' = inIdx ms /\ ms_closed ms' = ms_closed ms.
Proof. subst ms'. rewrite put_rel_history_eq. by destruct (next_ordinal _ _ _ _ _). Qed.

Lemma keep_node_row_ok P nid v n ms : store_ok P ms -> ValidateNodeHistoryVersionSnapshot nid v n = true -> store_ok P (putNodeHistoryRowLocked nid v n ms).
Proof. intros Hok (? & ? & ?)%version_checked. by apply put_node_history_ok. Qed.

Lemma keep_rel_row_ok P id v r ms : store_ok P ms -> ValidateRelationshipHistoryVersionSnapshot id v r = true -> store_ok P (putRelHistoryRowLocked id v r ms).
Proof. intros Hok (? & ? & ?)%rel_version_checked. by apply put_rel_history_ok. Qed.

Lemma ReplaceNodeWithHistory_ok P n v prev ms : store_ok P ms -> store_ok P (fst (ReplaceNodeWithHistory FormatFloat ParseFloat n v prev ms)).
Proof.
  intros Hok. unfold ReplaceNodeWithHistory. cbv zeta. guards. destruct_and!. destruct (put_node_history_frame (n_id n) v prev ms) as (F1 & _). apply replace_same_labels_ok; [by apply keep_node_row_ok|by rewrite F1|done].
Qed.

Lemma RemoveNodeLabelTokenWithHistory_ok P nid tok n v prev ms : store_ok P ms -> store_ok P (fst (RemoveNodeLabelTokenWithHistory FormatFloat ParseFloat nid tok n v prev ms)).
Proof.
  intros Hok. unfold RemoveNodeLabelTokenWithHistory. guards. destruct_and!. destruct (put_node_history_frame nid v prev ms) as (F1 & _). apply remove_label_ok; [by apply keep_node_row_ok|by rewrite F1|done].
Qed.

Lemma AddNodeLabelTokenWithHistory_ok P nid tok n v prev ms : store_ok P ms -> store_ok P (fst (AddNodeLabelTokenWithHistory FormatFloat ParseFloat nid tok n v prev ms)).
Proof.
  intros Hok. unfold AddNodeLabelTokenWithHistory. guards. destruct_and!. destruct (put_node_history_frame nid v prev ms) as (F1 & _). apply add_label_ok; [by apply keep_node_row_ok|by rewrite F1|done].
Qed.

Lemma ReplaceRelWithHistory_ok P r v prev ms : store_ok P ms -> store_ok P (fst (ReplaceRelWithHistory FormatFloat ParseFloat r v prev ms)).
Proof.
  intros Hok. unfold ReplaceRelWithHistory. cbv zeta. guards. destruct_and!. match goal with H : ValidateRelationshipReplacement _ r = true |- _ => apply rel_replacement_checked in H as (? & ? & ? & ?) end.
  destruct (put_rel_history_frame (r_id r) v prev ms) as (_ & F2 & _). apply replace_rel_ok; [by apply keep_rel_row_ok|done|by rewrite F2|done..].
Qed.

Lemma DeleteRelWithHistory_ok P id v t ms : store_ok P ms -> store_ok P (fst (DeleteRelWithHistory FormatFloat ParseFloat id v t ms)).
Proof. intros Hok. unfold DeleteRelWithHistory. guards. apply removeRelLocked_ok; [by apply keep_rel_row_ok|done]. Qed.

Lemma keep_tombstones_ok P l : forall ms, store_ok P ms -> forallb (fun rt => ValidateRelationshipHistoryVersionSnapshot (rt_ID rt) (rt_PrevVersion rt) (rt_Tombstone rt)) l = true ->
  let ms' := fold_left (fun ms rt => putRelHistoryRowLocked (rt_ID rt) (rt_PrevVersion rt) (rt_Tombstone rt) ms) l ms in
  store_ok P ms' /\ ms_nodes ms' = ms_nodes ms /\ outIdx ms' = outIdx ms /\ inIdx ms' = inIdx ms.
Proof.
  induction l as [|rt l IH]; intros ms Hok Hv; [done|]. cbn [forallb fold_left] in *. apply andb_true_iff in Hv as [Hv Hl].
  destruct (put_rel_history_frame (rt_ID rt) (rt_PrevVersion rt) (rt_Tombstone rt) ms) as (F1 & _ & _ & F4 & F5 & _). destruct (IH _ (keep_rel_row_ok P _ _ _ ms Hok Hv) Hl) as (H1 & H2 & H3 & H4). split; [done|]. split_and!; congruence.
Qed.

(** Refused with the store as it was, or done whole. *)
Lemma DeleteNodeWithHistory_cases P nid v t l ms : store_ok P ms ->
  (exists e, DeleteNodeWithHistory FormatFloat ParseFloat nid v t l ms = (ms, Some e)) \/ exists ms', DeleteNodeWithHistory FormatFloat ParseFloat nid v t l ms = (ms', None) /\ store_ok P ms'.
Proof.
  intros Hok. unfold DeleteNodeWithHistory. cbv zeta. destruct (ms_closed ms); [eauto|]. destruct (_ && forallb _ l) eqn:Ev; cbn [negb]; [|eauto]. apply andb_true_iff in Ev as [Ev El].
  destruct (ms_nodes ms !! nid) as [n|] eqn:En; [|eauto]. destruct (_ && node_replacement_ok n t); cbn [negb]; [|eauto]. destruct (check_tombstones _ _ _ _); [eauto|]. destruct (all_tombed _ _ _); cbn [negb]; [|eauto].
  destruct (put_node_history_frame nid v t ms) as (F1 & _ & _ & F4 & F5 & _).
  destruct (keep_tombstones_ok P l (putNodeHistoryRowLocked nid v t ms)) as (K1 & K2 & K3 & K4); [by apply keep_node_row_ok|done|].
  set (ms2 := fold_left _ l _) in *. assert (Hc : connected nid ms = connected nid ms2) by (unfold connected; by rewrite K3, K4, F4, F5). rewrite Hc.
  destruct (cascade_ok FormatFloat ParseFloat P nid n ms2 K1) as (ms' & E & _ & _ & _ & H'); [by rewrite K2, F1|]. rewrite E. right. by eexists.
Qed.

Lemma DeleteNodeWithHistory_ok P nid v t l ms : store_ok P ms -> store_ok P (fst (DeleteNodeWithHistory FormatFloat ParseFloat nid v t l ms)).
Proof. intros Hok. by destruct (DeleteNodeWithHistory_cases P nid v t l ms Hok) as [[e ->]|(ms' & -> & ?)]. Qed.

(** ** Versions *)

Lemma truncate_shrinks {T} id keep (h : gmap Z (gmap Z T)) : shrinks (truncate id keep h) h.
Proof.
  intros x v t. unfold truncate. case_bool_decide; [done|]. destruct (keep =? 0); [destruct (decide (x = id)) as [->|]; [by rewrite lookup_delete_eq|by rewrite lookup_delete_ne]|]. destruct (_ <=? keep); [done|].
  destruct (decide (x = id)) as [->|]; [rewrite lookup_insert_eq; cbn [default from_option Datatypes.id]|by rewrite lookup_insert_ne].
  generalize (take (length (sorted_versions (default ∅ (h !! id))) - Z.to_nat keep) (sorted_versions (default ∅ (h !! id)))) as l. generalize (default ∅ (h !! id)) as m.
  intros m l. revert m. induction l as [|w l IH]; intros m; [done|]. cbn [fold_left]. intros Ht%IH. by apply lookup_delete_Some in Ht as [_ Ht].
Qed.

Lemma trim_shrinks {T} id v0 (h : gmap Z (gmap Z T)) : shrinks (trim id v0 h) h.
Proof.
  intros x v t. unfold trim. case_bool_decide; (destruct (decide (x = id)) as [->|]; [rewrite ?lookup_delete_eq, ?lookup_insert_eq|by rewrite ?lookup_delete_ne, ?lookup_insert_ne]); [done|].
  cbn [default from_option Datatypes.id]. rewrite map_lookup_filter_Some. by intros [? _].
Qed.

(** ** Purges *)

Lemma purgeRelLocked_ok P id ms : store_ok P ms -> exists ms', purgeRelLocked FormatFloat ParseFloat id ms = (ms', None) /\ store_ok P ms'.
Proof.
  intros Hok. unfold purgeRelLocked, deleteRelLocked. destruct (ms_rels ms !! id) as [r|] eqn:Er.
  - destruct (remove_rel_ok FormatFloat ParseFloat P id true ms r Hok Er ltac:(done)) as (ms1 & E & Hok1). rewrite E. destruct (forget_rel_ok FormatFloat ParseFloat P id (relRowsLocked id ms) ms1 Hok1) as (o & i & Ed & H'). rewrite Ed. eauto.
  - destruct (forget_rel_ok FormatFloat ParseFloat P id (relRowsLocked id ms) ms Hok) as (o & i & Ed & H'). rewrite Ed. eauto.
Qed.

Lemma purge_rels_ok P ids : forall ms, store_ok P ms -> exists ms', each_write (purgeRelLocked FormatFloat ParseFloat) ids ms = (ms', None) /\ store_ok P ms'.
Proof.
  induction ids as [|id ids IH]; intros ms Hok; [by exists ms|]. cbn [each_write]. destruct (purgeRelLocked_ok P id ms Hok) as (ms1 & E & Hok1). rewrite E. by apply IH.
Qed.

Section Purges.
Context (order : gset Z -> list Z) `{Layout}.
Hypothesis order_perm : forall X, order X ≡ₚ base.elements X.

Lemma PurgeRelsByTypeBefore_ok P token before chunk ms : store_ok P ms -> store_ok P (snd (PurgeRelsByTypeBefore FormatFloat ParseFloat order token before chunk ms)).
Proof.
  intros Hok. unfold PurgeRelsByTypeBefore. destruct ((before <=? 0) || (token =? 0)); [done|]. destruct (ms_closed ms); [done|]. cbv zeta. destruct (select _ _ _ []) as [v1 m1]. destruct (if m1 then (v1, m1) else _) as [v m].
  destruct (purge_rels_ok P v ms Hok) as (ms' & E & H'). by rewrite E.
Qed.

Definition purged_ids (a : (RetentionPurgeResult + memErr) * memStore) : gset Z := match a.1 with inl res => list_to_set (PurgedNodeIDs res) | inr _ => ∅ end.

Lemma purgeNodesByLabel_ok P token chunk q ms (a := purgeNodesByLabel FormatFloat ParseFloat order token chunk q ms) : store_ok P ms -> store_ok (purged_ids a ∪ P) a.2.
Proof.
  intros Hok. subst a. destruct (ms_closed ms) eqn:Ec; [unfold purgeNodesByLabel; rewrite Ec; by apply (purged_mono FormatFloat ParseFloat P); [|set_solver]|].
  assert (Hc : exists c, 0 < c /\ purgeNodesByLabel FormatFloat ParseFloat order token chunk q ms = purgeNodesByLabel FormatFloat ParseFloat order token c q ms).
  { destruct (Z.leb_spec chunk 0) as [Hle|Hgt]; [|by exists chunk]. exists defaultRetentionPurgeChunk. split; [done|]. unfold purgeNodesByLabel. rewrite (proj2 (Z.leb_le chunk 0) Hle). done. }
  destruct Hc as (c & Hc & ->). destruct (purge_chunk_ok FormatFloat ParseFloat order order_perm P token q c ms Hok Ec Hc) as (ids & ms' & E & _ & _ & _ & Hps). rewrite E. apply Hps.
Qed.
End Purges.
End Doors.
