(* ===== verification/MemReads.v ===== *)
(** * The in-memory store: what adjacency reads answer

    A read from an adjacency set answers the current relationships at the node, of the
    type asked for, in ascending order; the degree counts them without reading them;
    a read for several nodes answers what the single reads do. *)

From stdpp Require Import gmap.
From S2P Require Import Prelude Bytes ValidTime Props Rows Pages ValueKeys PropertyIndex NodeIndexes CompositeIndex AdjSets Cascade MemRows MemStore MemHistory MemInv MemStoreOk MemSteps.

(** Keys kept by a partial map are those it is defined on. *)
Lemma omap_keys {A} (key : A -> Z) (f : Z -> option A) l : (forall id x, f id = Some x -> key x = id) -> map key (omap f l) = List.filter (fun id => bool_decide (is_Some (f id))) l.
Proof.
  intros Hk. induction l as [|id l IH]; [done|]. cbn [omap list_omap List.filter]. destruct (f id) as [x|] eqn:E.
  - rewrite bool_decide_eq_true_2 by by eexists. cbn [map]. by rewrite (Hk id x E), IH.
  - rewrite bool_decide_eq_false_2 by by intros [? ?]. exact IH.
Qed.

Lemma Lfilter_NoDup {A} (f : A -> bool) l : NoDup l -> NoDup (List.filter f l).
Proof. rewrite !NoDup_ListNoDup. apply List.NoDup_filter. Qed.

Lemma Lfilter_ext {A} (f g : A -> bool) l : (forall x, x ∈ l -> f x = g x) -> List.filter f l = List.filter g l.
Proof.
  induction l as [|x l IH]; intros H; [done|]. cbn [List.filter]. rewrite (H x) by left. rewrite IH; [done|]. intros y Hy. apply H. by right.
Qed.

Lemma filter_Lfilter {A} (P : A -> Prop) `{!forall x, Decision (P x)} l : filter P l = List.filter (fun x => bool_decide (P x)) l.
Proof. induction l as [|x l IH]; [done|]. rewrite filter_cons. cbn [List.filter]. case_bool_decide; case_decide; by rewrite ?IH. Qed.

Section Reads.
Context (FormatFloat : Z -> Z -> bytes) (ParseFloat : bytes -> option Z).
Notation store_ok := (store_ok FormatFloat ParseFloat).
Implicit Types (ms : memStore) (r : relRow) (P : gset Z).

(** The row of an ID, of the type asked for. *)
Definition typed_row (tok : Z) ms (id : Z) : option relRow :=
  match ms_rels ms !! id with Some r => if (tok =? 0) || (r_relType r =? tok) then Some r else None | None => None end.

Lemma typed_row_key P tok ms id r : store_ok P ms -> typed_row tok ms id = Some r -> r_id r = id.
Proof.
  intros Hok. unfold typed_row. destruct (ms_rels ms !! id) as [x|] eqn:E; [|done]. destruct (_ || _); [|done]. intros [= <-]. by apply (ok_rels _ _ _ _ Hok id x).
Qed.

Lemma in_type_set P tok ms id r : store_ok P ms -> ms_rels ms !! id = Some r -> id ∈ default ∅ (typeIdx ms !! tok) <-> r_relType r = tok.
Proof.
  intros Hok Hr. fold (tok_members (typeIdx ms) tok). rewrite (proj2 (ok_types _ _ _ _ Hok)). unfold carries. rewrite Hr. setoid_rewrite list_elem_of_singleton. naive_solver.
Qed.

Section Side.
Context (leg : relRow -> Z) (idx : gmap Z adjSet) (matches : relRow -> bool) (nid tok : Z) (purged : gset Z) (ms : memStore).
Hypothesis (Hok : store_ok purged ms) (Hidx : adj_exact idx leg (ms_rels ms)).
Hypothesis Hmatch : forall r, matches r = if negb (leg r =? nid) then false else (tok =? 0) || HasTypeTokenRaw tok r.

Lemma at_node id : id ∈ adj_all (idx !! nid) -> exists r, ms_rels ms !! id = Some r /\ leg r = nid.
Proof. intros Hid. apply Hidx. unfold members. by apply elem_of_adj. Qed.

Lemma side_nodup : NoDup (adj_all (idx !! nid)).
Proof. destruct (idx !! nid) as [s|] eqn:E; [|constructor]. apply adj_all_nodup. by destruct (proj1 Hidx nid s E). Qed.

Lemma side_rows : adjacent_rows (idx !! nid) matches tok ms = SortRelsByID (omap (typed_row tok ms) (adj_all (idx !! nid))).
Proof.
  unfold adjacent_rows. cbv zeta. set (typeSet := default ∅ (typeIdx ms !! tok)).
  destruct (Nat.eqb_spec (adj_len (idx !! nid)) 0) as [E|E]; [rewrite adj_len_all in E; by rewrite (nil_length_inv _ E)|].
  destruct (negb (tok =? 0) && bool_decide (typeSet = ∅)) eqn:Et.
  - apply andb_true_iff in Et as [Et Hs]. apply bool_decide_eq_true in Hs. destruct (omap _ _) as [|r l] eqn:Eo; [done|]. exfalso.
    assert (Hr : r ∈ omap (typed_row tok ms) (adj_all (idx !! nid))) by (rewrite Eo; left). apply list_elem_of_omap in Hr as (id & _ & Hr). unfold typed_row in Hr.
    destruct (ms_rels ms !! id) as [x|] eqn:Ex; [|done]. destruct (tok =? 0); [done|]. cbn [orb] in Hr. destruct (Z.eqb_spec (r_relType x) tok) as [Hx|]; [|done].
    apply (in_type_set purged tok ms id x Hok Ex) in Hx. fold typeSet in Hx. set_solver.
  - f_equal. apply list_omap_ext. apply Forall2_same_length_lookup. split; [done|]. intros i x y Hx Hy. rewrite Hx in Hy. injection Hy as <-.
    apply list_elem_of_lookup_2 in Hx. destruct (at_node x Hx) as (r & Hr & Hl). unfold typed_row. rewrite Hr, Hmatch, Hl, Z.eqb_refl. cbn [negb]. unfold HasTypeTokenRaw.
    pose proof (in_type_set purged tok ms x r Hok Hr) as Hin. fold typeSet in Hin. destruct (tok =? 0); cbn [negb andb orb]; [done|].
    destruct (Z.eqb_spec (r_relType r) tok) as [Ht|Ht]; [by rewrite bool_decide_eq_true_2 by tauto|by rewrite bool_decide_eq_false_2 by tauto].
Qed.

Lemma side_sorted : StronglySorted Z.lt (map r_id (adjacent_rows (idx !! nid) matches tok ms)).
Proof.
  rewrite side_rows. unfold SortRelsByID, SortByID. rewrite sort_by_map. apply sort_Z_strict. rewrite omap_keys by by intros; eapply typed_row_key. apply Lfilter_NoDup, side_nodup.
Qed.

Lemma side_exact r : r ∈ adjacent_rows (idx !! nid) matches tok ms <-> ms_rels ms !! r_id r = Some r /\ leg r = nid /\ (tok = 0 \/ r_relType r = tok).
Proof.
  rewrite side_rows. unfold SortRelsByID, SortByID. rewrite elem_of_sort_by, list_elem_of_omap. unfold typed_row. split.
  - intros (id & Hid & Hr). destruct (at_node id Hid) as (x & Hx & Hl). rewrite Hx in Hr. destruct ((tok =? 0) || (r_relType x =? tok)) eqn:Et; [|done]. injection Hr as ->.
    destruct (ok_rels _ _ _ _ Hok id r Hx) as [Hi _]. rewrite Hi. split; [done|]. split; [done|]. apply orb_true_iff in Et as [Et|Et]; [left|right]; by apply Z.eqb_eq.
  - intros (Hr & Hl & Ht). exists (r_id r). split; [apply elem_of_adj; change (r_id r ∈ members idx nid); apply Hidx; eauto|]. rewrite Hr.
    replace ((tok =? 0) || (r_relType r =? tok)) with true; [done|]. symmetry. apply orb_true_iff. by rewrite !Z.eqb_eq.
Qed.

Lemma side_degree : degreeLocked (idx !! nid) tok ms = length (adjacent_rows (idx !! nid) matches tok ms).
Proof.
  rewrite side_rows. unfold SortRelsByID, SortByID. rewrite length_sort_by, <- (length_map r_id), omap_keys by by intros; eapply typed_row_key. unfold degreeLocked. cbv zeta.
  assert (Hkeep : forall id, id ∈ adj_all (idx !! nid) -> bool_decide (is_Some (typed_row tok ms id)) = (tok =? 0) || bool_decide (id ∈ default ∅ (typeIdx ms !! tok))).
  { intros id Hid. destruct (at_node id Hid) as (r & Hr & _). pose proof (in_type_set purged tok ms id r Hok Hr) as Hin. unfold typed_row. rewrite Hr. destruct (tok =? 0); [done|]. cbn [orb].
    destruct (Z.eqb_spec (r_relType r) tok) as [Ht|Ht]; [by rewrite !bool_decide_eq_true_2 by (tauto || by eexists)|rewrite !bool_decide_eq_false_2 by (tauto || by intros [? ?]); done]. }
  rewrite (Lfilter_ext _ _ _ Hkeep). destruct (Nat.eqb_spec (adj_len (idx !! nid)) 0) as [E|E]; [rewrite adj_len_all in E; by rewrite (nil_length_inv _ E)|].
  destruct (tok =? 0); cbn [orb]; [by rewrite adj_len_all, Lfilter_all|]. case_bool_decide as Hs; [|by rewrite filter_Lfilter].
  rewrite Lfilter_none; [done|]. intros id _. apply bool_decide_eq_false_2. rewrite Hs. set_solver.
Qed.
End Side.
End Reads.

(** The nodes a batched read asks for are its arguments, all of them held. *)
Lemma requested_spec ids : forall asked ms A, requested ids asked ms = inl A -> (forall nid, nid ∈ A <-> nid ∈ asked \/ nid ∈ ids) /\ forall nid, nid ∈ ids -> nid ∈ asked \/ ValidateNodeID nid = true /\ is_Some (ms_nodes ms !! nid).
Proof.
  induction ids as [|x ids IH]; intros asked ms A; cbn [requested]; [intros [= <-]; split; [intros; set_solver|intros; set_solver]|].
  destruct (ValidateNodeID x) eqn:Ev; [|done]. cbn [negb]. case_bool_decide as Hx.
  - intros HA. destruct (IH _ _ _ HA) as [H1 H2]. split; [intros nid; rewrite H1; set_solver|]. intros nid [->|Hn]%elem_of_cons; [by left|]. auto.
  - destruct (ms_nodes ms !! x) as [n|] eqn:En; [|done]. intros HA. destruct (IH _ _ _ HA) as [H1 H2]. split; [intros nid; rewrite H1; set_solver|].
    assert (Hn0 : ValidateNodeID x = true /\ is_Some (ms_nodes ms !! x)) by (split; [done|by exists n]).
    intros nid [->|Hn]%elem_of_cons; [by right|]. destruct (H2 nid Hn) as [[->%elem_of_singleton|?]%elem_of_union|?]; auto.
Qed.

Lemma rows_per_node_lookup (rows : Z -> list relRow) (A : gset Z) nid : rows_per_node rows A !! nid = if decide (nid ∈ A) then match rows nid with [] => None | l => Some l end else None.
Proof.
  unfold rows_per_node. assert (Hm : forall l, (set_to_map (fun nid => (nid, rows nid)) A : gmap Z (list relRow)) !! nid = Some l <-> nid ∈ A /\ rows nid = l).
  { intros l. rewrite lookup_set_to_map by done. naive_solver. }
  destruct (decide (nid ∈ A)) as [Hn|Hn].
  - destruct (rows nid) as [|r l] eqn:E; [apply map_lookup_filter_None_2; right; intros l Hl Hne; apply Hm in Hl as [_ Hl]; apply Hne; cbn [snd]; congruence|].
    apply map_lookup_filter_Some_2; [by apply Hm|done].
  - apply map_lookup_filter_None_2. left. apply eq_None_not_Some. intros [l Hl]. apply Hm in Hl as [? _]. done.
Qed.

(** ** Versions *)

Lemma elem_of_versions {T} (inner : gmap Z T) v : v ∈ sorted_versions inner <-> is_Some (inner !! v).
Proof.
  unfold sorted_versions. rewrite elem_of_sort_by, list_elem_of_fmap. split; [intros ([w t] & -> & Ht); apply elem_of_map_to_list in Ht; by exists t|].
  intros [t Ht]. exists (v, t). split; [done|]. by apply elem_of_map_to_list.
Qed.

(** The history in ascending order: every row once, under its version. *)
Lemma history_rows {T} (version : T -> Z) (inner : gmap Z T) (l := rows_at inner (sorted_versions inner)) : (forall v t, inner !! v = Some t -> version t = v) ->
  StronglySorted Z.lt (map version l) /\ forall t, t ∈ l <-> exists v, inner !! v = Some t.
Proof.
  intros Hv. subst l. split.
  - assert (Hm : forall vs, (forall v, v ∈ vs -> is_Some (inner !! v)) -> map version (rows_at inner vs) = vs).
    { induction vs as [|v vs IH]; intros Hs; [done|]. destruct (Hs v ltac:(left)) as [t Ht]. unfold rows_at in *. cbn [omap list_omap]. rewrite Ht. cbn [map]. rewrite (Hv v t Ht), IH; [done|]. intros w Hw. apply Hs. by right. }
    rewrite Hm by by intros v Hin; apply elem_of_versions. apply sort_Z_strict, NoDup_fst_map_to_list.
  - intros t. unfold rows_at. rewrite list_elem_of_omap. split; [intros (v & _ & Ht); by exists v|]. intros [v Ht]. exists v. split; [apply elem_of_versions; by eexists|done].
Qed.

(** A history row read back is the row that was kept, with its ID's ordinal. *)
Lemma history_copy (n : nodeRow) o (h := NodeDeepCopy (NodeFreeze (DeepCopyWithOrdinal o n))) :
  n_id h = n_id n /\ n_version h = n_version n /\ n_properties h = n_properties n /\ AllLabelTokens h = AllLabelTokens n /\ NodeTemporal h = NodeTemporalByValue n /\ NodeIntegrityOf h = NodeIntegrityOf n /\ n_ordinal h = o.
Proof. subst h. unfold DeepCopyWithOrdinal, node_with_ordinal, NodeDeepCopy, NodeFreeze, NodeTemporal, NodeTemporalByValue, NodeIntegrityOf, AllLabelTokens. destruct (n_meta n) as [m|]; cbn; done. Qed.

Lemma copy_version (n : nodeRow) : n_version (NodeDeepCopy n) = n_version n.
Proof. unfold NodeDeepCopy. by destruct (n_meta n). Qed.
