(* ===== verification/MemoryStore.v ===== *)
(** * The in-memory store: what its users rely on

    The operations of the store and the stores they reach from an empty one: their
    invariant, that a failed write changes nothing, that adjacency reads and degrees
    are exact, that a relationship of the past is reached from its ends, and that a
    retention purge ends with exactly the qualifying nodes gone. *)

From stdpp Require Import gmap.
From S2P Require Import Prelude Bytes ValidTime Props Rows Pages ValueKeys PropertyIndex NodeIndexes CompositeIndex AdjSets Retention RetentionPurge Cascade MemRows MemStore MemHistory MemPurge MemInv MemStoreOk MemSteps MemPurgeOk MemDoors MemReads.

(** ** Operations *)

Inductive memOp :=
  | OpPutNode (n : nodeRow)
  | OpReplaceNode (n : nodeRow)
  | OpRemoveLabel (nid tok : Z) (n : nodeRow)
  | OpAddLabel (nid tok : Z) (n : nodeRow)
  | OpDeleteNode (nid : Z)
  | OpDeleteNodes (nids : list Z)
  | OpDeleteNodeCascade (nid : Z)
  | OpPutRel (r : relRow)
  | OpPutGeneratedRel (r : relRow)
  | OpReplaceRel (r : relRow)
  | OpDeleteRel (rid : Z)
  | OpUndoRel (rid : Z)
  | OpPutRels (rels : list relRow)
  | OpDeleteRels (rids : list Z)
  | OpReplaceNodeWithHistory (n : nodeRow) (prevVersion : Z) (prev : nodeRow)
  | OpRemoveLabelWithHistory (nid tok : Z) (n : nodeRow) (prevVersion : Z) (prev : nodeRow)
  | OpAddLabelWithHistory (nid tok : Z) (n : nodeRow) (prevVersion : Z) (prev : nodeRow)
  | OpReplaceRelWithHistory (r : relRow) (prevVersion : Z) (prev : relRow)
  | OpDeleteRelWithHistory (rid prevVersion : Z) (tombstone : relRow)
  | OpDeleteNodeWithHistory (nid prevVersion : Z) (tombstone : nodeRow) (rels : list RelTombstone)
  | OpPutNodeVersion (nid version : Z) (n : nodeRow)
  | OpPutRelVersion (rid version : Z) (r : relRow)
  | OpTruncateNode (nid keep : Z)
  | OpTruncateRel (rid keep : Z)
  | OpTrimNode (nid minVersion : Z)
  | OpTrimRel (rid minVersion : Z)
  | OpNoteExAdjacent (a : addr) (id start end_ : Z)
  | OpPurgeNodes (token : Z) (before : Instant) (chunk : Z)
  | OpPurgeNodesEnded (token : Z) (before : Instant) (chunk : Z)
  | OpPurgeRels (token : Z) (before : Instant) (chunk : Z)
  | OpClear
  | OpClose.

Section Operations.
Context (FormatFloat : Z -> Z -> bytes) (ParseFloat : bytes -> option Z) (order : gset Z -> list Z) (axis : ValidAxis) `{Layout}.
Implicit Types (ms : memStore) (P : gset Z).
Notation FF := FormatFloat (only parsing).
Notation PF := ParseFloat (only parsing).

(** A purge answers its result; the others the store and their error. *)
Definition purge_answer (a : (RetentionPurgeResult + memErr) * memStore) : answer := (a.2, match a.1 with inl _ => None | inr e => Some e end).

Definition generated_answer (a : memStore * (bytes * bytes + memErr)) : answer := (a.1, match a.2 with inl _ => None | inr e => Some e end).

Definition run (o : memOp) ms : answer :=
  match o with
  | OpPutNode n => PutNode FF PF n ms
  | OpReplaceNode n => ReplaceNode FF PF n ms
  | OpRemoveLabel nid tok n => RemoveNodeLabelToken FF PF nid tok n ms
  | OpAddLabel nid tok n => AddNodeLabelToken FF PF nid tok n ms
  | OpDeleteNode nid => DeleteNode FF PF nid ms
  | OpDeleteNodes nids => DeleteNodesBatch FF PF nids ms
  | OpDeleteNodeCascade nid => DeleteNodeCascade FF PF nid ms
  | OpPutRel r => PutRelationship FF PF r ms
  | OpPutGeneratedRel r => generated_answer (PutRelationshipGeneratedIDWithEndpointHashes FF PF r ms)
  | OpReplaceRel r => ReplaceRelationship FF PF r ms
  | OpDeleteRel rid => DeleteRelationship FF PF rid ms
  | OpUndoRel rid => UndoRelationshipCreate FF PF rid ms
  | OpPutRels rels => PutRelationshipsBatch FF PF rels ms
  | OpDeleteRels rids => DeleteRelationshipsBatch FF PF rids ms
  | OpReplaceNodeWithHistory n v prev => ReplaceNodeWithHistory FF PF n v prev ms
  | OpRemoveLabelWithHistory nid tok n v prev => RemoveNodeLabelTokenWithHistory FF PF nid tok n v prev ms
  | OpAddLabelWithHistory nid tok n v prev => AddNodeLabelTokenWithHistory FF PF nid tok n v prev ms
  | OpReplaceRelWithHistory r v prev => ReplaceRelWithHistory FF PF r v prev ms
  | OpDeleteRelWithHistory rid v t => DeleteRelWithHistory FF PF rid v t ms
  | OpDeleteNodeWithHistory nid v t l => DeleteNodeWithHistory FF PF nid v t l ms
  | OpPutNodeVersion nid v n => PutNodeVersion nid v n ms
  | OpPutRelVersion rid v r => PutRelVersion rid v r ms
  | OpTruncateNode nid keep => TruncateNodeHistory nid keep ms
  | OpTruncateRel rid keep => TruncateRelHistory rid keep ms
  | OpTrimNode nid v => TrimNodeHistoryFrom nid v ms
  | OpTrimRel rid v => TrimRelHistoryFrom rid v ms
  | OpNoteExAdjacent a id s e => NoteExAdjacentRel a id s e ms
  | OpPurgeNodes token before chunk => purge_answer (PurgeNodesByLabelBefore FF PF order token before chunk ms)
  | OpPurgeNodesEnded token before chunk => purge_answer (PurgeNodesByLabelValidToBefore FF PF order axis token before chunk ms)
  | OpPurgeRels token before chunk => purge_answer (PurgeRelsByTypeBefore FF PF order token before chunk ms)
  | OpClear => Clear ms
  | OpClose => (Close ms, None)
  end.

(** The nodes an operation purges. *)
Definition gone (o : memOp) ms : gset Z :=
  match o with
  | OpPurgeNodes token before chunk => purged_ids (PurgeNodesByLabelBefore FF PF order token before chunk ms)
  | OpPurgeNodesEnded token before chunk => purged_ids (PurgeNodesByLabelValidToBefore FF PF order axis token before chunk ms)
  | _ => ∅
  end.

(** What the callers keep: a created row's labels are distinct, as every constructor
    of rows makes them, and a create is undone only while its history rows, if any,
    are found without it. *)
Definition allowed P (o : memOp) ms : Prop :=
  match o with
  | OpPutNode n => NoDup (AllLabelTokens n)
  | OpUndoRel rid => undoable P rid ms
  | _ => True
  end.

(** An operation, or an index declared over the current rows or dropped. *)
Inductive mem_step : gset Z * memStore -> gset Z * memStore -> Prop :=
  | step_op P o ms : allowed P o ms -> mem_step (P, ms) (gone o ms ∪ P, fst (run o ms))
  | step_declare P key idx ms : index_ok FormatFloat ParseFloat key (node_entity <$> ms_nodes ms) idx -> mem_step (P, ms) (P, set_propertyIndexes (<[key := idx]> (propertyIndexes ms)) ms)
  | step_drop P key ms : mem_step (P, ms) (P, set_propertyIndexes (delete key (propertyIndexes ms)) ms)
  | step_declare_rel P key idx ms : index_ok FormatFloat ParseFloat key (rel_entity <$> ms_rels ms) idx -> mem_step (P, ms) (P, set_relPropertyIndexes (<[key := idx]> (relPropertyIndexes ms)) ms)
  | step_drop_rel P key ms : mem_step (P, ms) (P, set_relPropertyIndexes (delete key (relPropertyIndexes ms)) ms)
  | step_composites P c ms : comp_ok FormatFloat c (ms_nodes ms) -> mem_step (P, ms) (P, mkMem (ms_closed ms) (ms_nodes ms) (ms_rels ms) (labelIdx ms) (typeIdx ms) (outIdx ms) (inIdx ms) (exOutIdx ms) (exInIdx ms) (nodeHistory ms) (relHistory ms)
      (propertyIndexes ms) (relPropertyIndexes ms) c (maxNodeOrdinal ms) (maxRelOrdinal ms) (ms_alloc ms)).

(** The stores reached from an empty one, with the nodes purged on the way. *)
Definition reached P ms : Prop := rtc mem_step (∅, new_store) (P, ms).
End Operations.

Section Kept.
Context (FormatFloat : Z -> Z -> bytes) (ParseFloat : bytes -> option Z) (order : gset Z -> list Z) (axis : ValidAxis) `{Layout}.
Hypothesis order_perm : forall X, order X ≡ₚ base.elements X.
Notation store_ok := (store_ok FormatFloat ParseFloat).
Implicit Types (ms : memStore) (P : gset Z).

Lemma empty_store_ok P ms : ms_nodes ms = ∅ -> ms_rels ms = ∅ -> labelIdx ms = ∅ -> typeIdx ms = ∅ -> outIdx ms = ∅ -> inIdx ms = ∅ -> exOutIdx ms = ∅ -> exInIdx ms = ∅ ->
  nodeHistory ms = ∅ -> relHistory ms = ∅ -> propertyIndexes ms = ∅ -> relPropertyIndexes ms = ∅ -> composites ms = (∅, ∅) ->
  0 <= maxNodeOrdinal ms <= MaxUint32 -> 0 <= maxRelOrdinal ms <= MaxUint32 -> store_ok P ms.
Proof.
  intros E1 E2 E3 E4 E5 E6 E7 E8 E9 E10 E11 E12 E13 H1 H2.
  assert (Hord : forall T (f : T -> Z) id o, ~ row_ord f ∅ ∅ id o).
  { intros T f id o (t & Ht & _). apply elem_of_rows in Ht as [Ht|[v Ht]]; [by rewrite lookup_empty in Ht|]. rewrite lookup_empty in Ht. cbn in Ht. by rewrite lookup_empty in Ht. }
  assert (Hords : forall T (f : T -> Z) max, 0 <= max <= MaxUint32 -> ordinals (row_ord f ∅ ∅) max) by (intros T f max Hm; split; [done|..]; intros; exfalso; by eapply Hord).
  assert (Hmem : forall T (f : T -> list Z), members_ok ∅ (carries f ∅)).
  { intros T f. eapply members_ok_ext; [apply members_ok_empty|]. intros tok id. split; [|done]. intros (x & Hx & _). by rewrite lookup_empty in Hx. }
  split; rewrite ?E1, ?E2, ?E3, ?E4, ?E5, ?E6, ?E7, ?E8, ?E9, ?E10, ?E11, ?E12, ?E13; auto using adj_exact_empty, empty_idx_ok.
  1,2,3: intros id x Hx; by rewrite lookup_empty in Hx.
  1,2,3: intros id v x Hx; rewrite lookup_empty in Hx; cbn in Hx; by rewrite lookup_empty in Hx.
  1,2: intros key idx Hx; by rewrite lookup_empty in Hx.
  1: split; [intros l k Hk; cbn [snd] in Hk; rewrite lookup_empty in Hk; cbn in Hk; by apply not_elem_of_nil in Hk|intros k idx Hx; cbn [fst] in Hx; by rewrite lookup_empty in Hx].
  intros id x Hx. by rewrite lookup_empty in Hx.
Qed.

Lemma run_ok P o ms : store_ok P ms -> allowed P o ms -> store_ok (gone FormatFloat ParseFloat order axis o ms ∪ P) (fst (run FormatFloat ParseFloat order axis o ms)).
Proof.
  intros Hok Ha. destruct o; cbn [run gone allowed] in *; try rewrite (union_empty_l_L P).
  - by apply PutNode_ok.
  - by apply ReplaceNode_ok.
  - by apply RemoveNodeLabelToken_ok.
  - by apply AddNodeLabelToken_ok.
  - by apply DeleteNode_ok.
  - by apply DeleteNodesBatch_ok.
  - by apply DeleteNodeCascade_ok.
  - by apply PutRelationship_ok.
  - by apply PutRelationshipGenerated_ok.
  - by apply ReplaceRelationship_ok.
  - by apply deleteRelationship_ok.
  - by apply deleteRelationship_ok.
  - by apply PutRelationshipsBatch_ok.
  - by apply DeleteRelationshipsBatch_ok.
  - by apply ReplaceNodeWithHistory_ok.
  - by apply RemoveNodeLabelTokenWithHistory_ok.
  - by apply AddNodeLabelTokenWithHistory_ok.
  - by apply ReplaceRelWithHistory_ok.
  - by apply DeleteRelWithHistory_ok.
  - by apply DeleteNodeWithHistory_ok.
  - unfold PutNodeVersion. guards. by apply keep_node_row_ok.
  - unfold PutRelVersion. guards. by apply keep_rel_row_ok.
  - unfold TruncateNodeHistory. guards. apply shrink_node_history_ok; [done|apply truncate_shrinks].
  - unfold TruncateRelHistory. guards. apply shrink_rel_history_ok; [done|apply truncate_shrinks].
  - unfold TrimNodeHistoryFrom. guards. apply shrink_node_history_ok; [done|apply trim_shrinks].
  - unfold TrimRelHistoryFrom. guards. apply shrink_rel_history_ok; [done|apply trim_shrinks].
  - unfold NoteExAdjacentRel. guards. destruct Hok. unfold addExAdjLocked. cbn [r_startID r_endID NewRelationship].
    split; cbn [set_exAdj ms_nodes ms_rels labelIdx typeIdx outIdx inIdx exOutIdx exInIdx nodeHistory relHistory propertyIndexes relPropertyIndexes composites maxNodeOrdinal maxRelOrdinal]; try done.
    + by apply addAdj_ok.
    + by apply addAdj_ok.
    + intros rid v h Hh. destruct (ok_legs rid v h Hh). split; by apply leg_found_ex.
  - cbn [purge_answer fst]. unfold PurgeNodesByLabelBefore. destruct (before <=? 0); [change (store_ok (∅ ∪ P) ms); by rewrite union_empty_l_L|]. by apply purgeNodesByLabel_ok.
  - cbn [purge_answer fst]. unfold PurgeNodesByLabelValidToBefore. destruct (before <=? 0); [change (store_ok (∅ ∪ P) ms); by rewrite union_empty_l_L|]. by apply purgeNodesByLabel_ok.
  - cbn [purge_answer fst]. by apply PurgeRelsByTypeBefore_ok.
  - unfold Clear. guards. apply empty_store_ok; try done; [apply (ord_max _ _ (ok_nodeOrds _ _ _ _ Hok))|apply (ord_max _ _ (ok_relOrds _ _ _ _ Hok))].
  - by destruct Hok.
Qed.

Lemma step_ok s s' : mem_step FormatFloat ParseFloat order axis s s' -> store_ok s.1 s.2 -> store_ok s'.1 s'.2.
Proof.
  intros Hs Hok. destruct Hs as [P o ms Ha|P key idx ms Hi|P key ms|P key idx ms Hi|P key ms|P c ms Hc]; cbn [fst snd] in *; [by apply run_ok|..]; destruct Hok;
    (split; cbn [set_propertyIndexes set_relPropertyIndexes ms_nodes ms_rels labelIdx typeIdx outIdx inIdx exOutIdx exInIdx nodeHistory relHistory propertyIndexes relPropertyIndexes composites maxNodeOrdinal maxRelOrdinal]; try done).
  - intros k i Hk. destruct (decide (k = key)) as [->|Hne]; [rewrite lookup_insert_eq in Hk; by injection Hk as <-|rewrite lookup_insert_ne in Hk by done; by apply ok_props].
  - intros k i Hk. apply lookup_delete_Some in Hk as [_ Hk]. by apply ok_props.
  - intros k i Hk. destruct (decide (k = key)) as [->|Hne]; [rewrite lookup_insert_eq in Hk; by injection Hk as <-|rewrite lookup_insert_ne in Hk by done; by apply ok_relProps].
  - intros k i Hk. apply lookup_delete_Some in Hk as [_ Hk]. by apply ok_relProps.
Qed.

Lemma reached_ok P ms : reached FormatFloat ParseFloat order axis P ms -> store_ok P ms.
Proof.
  unfold reached. intros Hr. assert (Hinv : forall s s', rtc (mem_step FormatFloat ParseFloat order axis) s s' -> store_ok s.1 s.2 -> store_ok s'.1 s'.2).
  { induction 1 as [|s s1 s' Hs _ IH]; [done|]. intros Hok. apply IH. by eapply step_ok. }
  apply (Hinv _ _ Hr). by apply empty_store_ok.
Qed.

(** ** Failed writes *)

Ltac failing := repeat (case_match; simplify_eq/=; try done).

Lemma purge_nodes_failed P token chunk q ms e : store_ok P ms -> snd (purge_answer (purgeNodesByLabel FormatFloat ParseFloat order token chunk q ms)) = Some e ->
  fst (purge_answer (purgeNodesByLabel FormatFloat ParseFloat order token chunk q ms)) = ms.
Proof.
  intros Hok. destruct (ms_closed ms) eqn:Ec; [unfold purgeNodesByLabel; by rewrite Ec|].
  assert (Hc : exists c, 0 < c /\ purgeNodesByLabel FormatFloat ParseFloat order token chunk q ms = purgeNodesByLabel FormatFloat ParseFloat order token c q ms).
  { destruct (Z.leb_spec chunk 0) as [Hle|Hgt]; [|by exists chunk]. exists defaultRetentionPurgeChunk. split; [done|]. unfold purgeNodesByLabel. rewrite (proj2 (Z.leb_le chunk 0) Hle). done. }
  destruct Hc as (c & Hc & ->). destruct (purge_chunk_ok FormatFloat ParseFloat order order_perm P token q c ms Hok Ec Hc) as (ids & ms' & E & _). by rewrite E.
Qed.

Lemma cascade_failed P nid v t l ms e : store_ok P ms ->
  (snd (DeleteNodeCascade FormatFloat ParseFloat nid ms) = Some e -> fst (DeleteNodeCascade FormatFloat ParseFloat nid ms) = ms) /\
  (snd (DeleteNodeWithHistory FormatFloat ParseFloat nid v t l ms) = Some e -> fst (DeleteNodeWithHistory FormatFloat ParseFloat nid v t l ms) = ms).
Proof.
  intros Hok. split.
  - unfold DeleteNodeCascade. guards. destruct (cascade_ok FormatFloat ParseFloat P nid n ms Hok) as (ms' & E & _); [done|]. by rewrite E.
  - destruct (DeleteNodeWithHistory_cases FormatFloat ParseFloat P nid v t l ms Hok) as [[e' ->]|(ms' & -> & _)]; done.
Qed.

Lemma run_failed P o ms e : store_ok P ms -> snd (run FormatFloat ParseFloat order axis o ms) = Some e -> fst (run FormatFloat ParseFloat order axis o ms) = ms.
Proof.
  intros Hok. destruct o; cbn [run].
  - unfold PutNode. failing.
  - unfold ReplaceNode. failing.
  - unfold RemoveNodeLabelToken. failing.
  - unfold AddNodeLabelToken. failing.
  - unfold DeleteNode. failing.
  - unfold DeleteNodesBatch. failing.
  - by apply (cascade_failed P nid 0 (NewNode ([] : PropertySlice) (Alloc 0) 0 0 []) []).
  - unfold PutRelationship. failing.
  - unfold PutRelationshipGeneratedIDWithEndpointHashes, generated_answer. failing.
  - unfold ReplaceRelationship. failing.
  - unfold DeleteRelationship, deleteRelationshipRouted, removeRelLocked. failing.
  - unfold UndoRelationshipCreate, deleteRelationshipRouted, removeRelLocked. failing.
  - unfold PutRelationshipsBatch. failing.
  - unfold DeleteRelationshipsBatch. guards. destruct (forallb _ (uniqueRelIDs rids)) eqn:Ef; [|done]. destruct (unique_ids_spec rids ∅) as [Hnd _].
    destruct (delete_rels_ok FormatFloat ParseFloat (uniqueRelIDs rids) P ms Hok Hnd) as (ms' & _ & E & _); [|by rewrite E].
    intros id Hid. rewrite forallb_forall in Ef. apply (bool_decide_eq_true_1 (is_Some (ms_rels ms !! id))), Ef. by apply list_elem_of_In.
  - unfold ReplaceNodeWithHistory. failing.
  - unfold RemoveNodeLabelTokenWithHistory. failing.
  - unfold AddNodeLabelTokenWithHistory. failing.
  - unfold ReplaceRelWithHistory. failing.
  - unfold DeleteRelWithHistory. guards. unfold deleteRelLocked, removeRelLocked. destruct (put_rel_history_frame rid prevVersion tombstone ms) as (_ & -> & _). by case_match.
  - by apply (cascade_failed P).
  - unfold PutNodeVersion. failing.
  - unfold PutRelVersion. failing.
  - unfold TruncateNodeHistory. failing.
  - unfold TruncateRelHistory. failing.
  - unfold TrimNodeHistoryFrom. failing.
  - unfold TrimRelHistoryFrom. failing.
  - unfold NoteExAdjacentRel. failing.
  - unfold PurgeNodesByLabelBefore. destruct (before <=? 0); [done|]. by apply (purge_nodes_failed P).
  - unfold PurgeNodesByLabelValidToBefore. destruct (before <=? 0); [done|]. by apply (purge_nodes_failed P).
  - unfold PurgeRelsByTypeBefore. destruct ((before <=? 0) || (token =? 0)); [done|]. destruct (ms_closed ms); [done|]. cbv zeta. destruct (select _ _ _ []) as [v1 m1]. destruct (if m1 then (v1, m1) else _) as [v m].
    destruct (purge_rels_ok FormatFloat ParseFloat P v ms Hok) as (ms' & E & H'). by rewrite E.
  - unfold Clear. failing.
  - done.
Qed.
End Kept.

(** ** What the users rely on *)

Section Relied.
Context (FormatFloat : Z -> Z -> bytes) (ParseFloat : bytes -> option Z) (order : gset Z -> list Z) (axis : ValidAxis) `{Layout}.
Hypothesis order_perm : forall X, order X ≡ₚ base.elements X.
Notation reached := (reached FormatFloat ParseFloat order axis).
Notation run := (run FormatFloat ParseFloat order axis).
Implicit Types (ms : memStore) (P : gset Z).

Lemma live_legs_read P ms nid rid : store_ok FormatFloat ParseFloat P ms -> ms_closed ms = false ->
  (rid ∈ members (outIdx ms) nid -> exists rows, OutgoingRelationships nid 0 ms = inl rows /\ rid ∈ map r_id rows) /\
  (rid ∈ members (inIdx ms) nid -> exists rows, IncomingRelationships nid 0 ms = inl rows /\ rid ∈ map r_id rows).
Proof.
  intros Hok Hopen. pose proof (ok_out _ _ _ _ Hok) as Ho. pose proof (ok_in _ _ _ _ Hok) as Hi. unfold OutgoingRelationships, IncomingRelationships. rewrite Hopen.
  split; [intros (r & Hr & Hl)%Ho|intros (r & Hr & Hl)%Hi]; destruct (ok_rels _ _ _ _ Hok rid r Hr) as [Hid _]; destruct (ok_ends _ _ _ _ Hok rid r Hr) as [[n1 Hn1] [n2 Hn2]]; rewrite Hl in *;
    [destruct (ok_nodes _ _ _ _ Hok nid n1 Hn1) as [E [Hp _]]|destruct (ok_nodes _ _ _ _ Hok nid n2 Hn2) as [E [Hp _]]];
    (replace (ValidateNodeID nid) with true by (unfold ValidateNodeID; lia)); rewrite ?Hn1, ?Hn2; cbn [negb]; eexists; (split; [done|]); apply list_elem_of_fmap; exists r; (split; [done|]).
  - apply (side_exact FormatFloat ParseFloat r_startID (outIdx ms) _ nid 0 P ms Hok Ho); [done|]. rewrite Hid. auto.
  - apply (side_exact FormatFloat ParseFloat r_endID (inIdx ms) _ nid 0 P ms Hok Hi); [done|]. rewrite Hid. auto.
Qed.

Lemma ex_legs_read ms nid incoming rid : ms_closed ms = false -> 0 < nid -> rid ∈ members (if incoming : bool then exInIdx ms else exOutIdx ms) nid ->
  exists ids, ForEachExAdjacentRelID nid incoming ms = inl ids /\ rid ∈ ids.
Proof.
  intros Hopen Hpos Hin. unfold ForEachExAdjacentRelID. rewrite Hopen. replace (ValidateNodeID nid) with true by (unfold ValidateNodeID; lia). eexists. split; [done|]. apply elem_of_adj. by destruct incoming.
Qed.

(** C4: Every store the operations reach from an empty one, whatever they answered on
    the way, is in order: rows are kept under their own ID, a relationship's two ends
    are held, the label and type indexes and both adjacency indexes hold exactly the
    current rows' entries, the property and composite indexes hold exactly the rows'
    values, history rows are kept under their version, every row of an ID has the one
    dense ordinal of that ID and no other ID has it, a relationship's row carries its
    ends' ordinals, and each end of a history row is found from the live adjacency or
    the ex-adjacency unless the node was purged.  The operations are used as their
    callers do ([allowed], [mem_step]): a created node's labels are distinct, the undo
    of a relationship's creation is not used while a history row of it has an end that
    only its live adjacency finds, and an index is declared complete. *)
Theorem memory_store_invariant P ms : reached P ms -> store_ok FormatFloat ParseFloat P ms.
Proof. by apply reached_ok. Qed.

(** C6: An operation on a reached store that answers an error has changed nothing: no
    row, index, ordinal or history row, a cascade and a batch included, which the code
    checks whole before it writes. *)
Theorem memory_failed_write_changes_nothing P ms o e : reached P ms -> snd (run o ms) = Some e -> fst (run o ms) = ms.
Proof. intros Hr. eapply run_failed; [done|]. by eapply reached_ok. Qed.

(** The rows from one side, sorted, all of them, and their number. *)
Definition side_answer (leg : relRow -> Z) nid tok ms (rows : list relRow) (degree : nat + memErr) : Prop :=
  StronglySorted Z.lt (map r_id rows) /\ degree = inl (length rows) /\ forall r, r ∈ rows <-> ms_rels ms !! r_id r = Some r /\ leg r = nid /\ (tok = 0 \/ r_relType r = tok).

(** C5: On an open reached store an adjacency read at a node it holds answers exactly the
    current relationships that start (end) there and have the type asked for, all of
    them for type zero, in strictly ascending order of their IDs; the degree is their
    number, counted from the indexes alone; and a read for several nodes answers, under
    each node asked for, what its single read does, leaving out the empty answers. *)
Theorem adjacency_reads_exact P ms nid tok : reached P ms -> ms_closed ms = false -> 0 < nid -> is_Some (ms_nodes ms !! nid) ->
  exists out inc, OutgoingRelationships nid tok ms = inl out /\ side_answer r_startID nid tok ms out (OutgoingDegree nid tok ms) /\
    IncomingRelationships nid tok ms = inl inc /\ side_answer r_endID nid tok ms inc (IncomingDegree nid tok ms) /\
    (forall ids m, nid ∈ ids -> OutgoingRelationshipsForNodes ids tok ms = inl m -> m !! nid = match out with [] => None | _ => Some out end) /\
    (forall ids m, nid ∈ ids -> IncomingRelationshipsForNodes ids tok ms = inl m -> m !! nid = match inc with [] => None | _ => Some inc end).
Proof.
  intros Hr Hopen Hpos [n Hn]. apply reached_ok in Hr as Hok; [|done]. assert (Hv : ValidateNodeID nid = true) by (unfold ValidateNodeID; lia).
  pose proof (ok_out _ _ _ _ Hok) as Ho. pose proof (ok_in _ _ _ _ Hok) as Hi. do 2 eexists. unfold OutgoingRelationships, IncomingRelationships, OutgoingDegree, IncomingDegree. rewrite Hopen, Hv, Hn. cbn [negb].
  split; [done|]. split; [split_and!; [by eapply side_sorted|f_equal; by eapply side_degree|intros r; by eapply side_exact]|].
  split; [done|]. split; [split_and!; [by eapply side_sorted|f_equal; by eapply side_degree|intros r; by eapply side_exact]|].
  split; intros ids m Hin; unfold OutgoingRelationshipsForNodes, IncomingRelationshipsForNodes; rewrite Hopen; (destruct (requested ids ∅ ms) as [A|] eqn:ER; [|done]); intros [= <-];
    rewrite rows_per_node_lookup, decide_True by (apply (requested_spec _ _ _ _ ER); by right); by destruct (adjacent_rows _ _ _ _).
Qed.

(** C8: A relationship of the past is not lost to its nodes: as long as a history row of
    it is kept, on an open reached store, it is reached from the row's start through
    its current outgoing relationships or the ex-adjacency of that node, and from the
    row's end through the incoming ones, unless that node was itself purged. *)
Theorem past_relationship_reached P ms rid v h : reached P ms -> ms_closed ms = false -> default ∅ (relHistory ms !! rid) !! v = Some h -> 0 < r_startID h -> 0 < r_endID h ->
  ((exists rows, OutgoingRelationships (r_startID h) 0 ms = inl rows /\ rid ∈ map r_id rows) \/ (exists ids, ForEachExAdjacentRelID (r_startID h) false ms = inl ids /\ rid ∈ ids) \/ r_startID h ∈ P) /\
  ((exists rows, IncomingRelationships (r_endID h) 0 ms = inl rows /\ rid ∈ map r_id rows) \/ (exists ids, ForEachExAdjacentRelID (r_endID h) true ms = inl ids /\ rid ∈ ids) \/ r_endID h ∈ P).
Proof.
  intros Hr Hopen Hh Hs He. apply reached_ok in Hr as Hok; [|done]. destruct (ok_legs _ _ _ _ Hok rid v h Hh) as [Hl Hm].
  pose proof (live_legs_read P ms (r_startID h) rid Hok Hopen) as [H1 _]. pose proof (live_legs_read P ms (r_endID h) rid Hok Hopen) as [_ H2].
  split; [destruct Hl as [Hl|[Hl|Hl]]|destruct Hm as [Hm|[Hm|Hm]]]; auto; right; left; by apply ex_legs_read.
Qed.

(** C9: A kept version reads back: after an accepted PutNodeVersion on a reached store the
    version's row has the ID, properties, labels, times and integrity it was handed,
    and the dense ordinal of the current row; every other version of every node reads
    as before; and the node's history lists exactly its versions' rows, in strictly
    ascending order of their versions. *)
Theorem kept_version_reads_back P ms nid v n ms' : reached P ms -> PutNodeVersion nid v n ms = (ms', None) ->
  (exists h, GetNodeVersion nid v ms' = inl h /\ n_id h = nid /\ n_version h = v /\ n_properties h = n_properties n /\ AllLabelTokens h = AllLabelTokens n /\
     NodeTemporal h = NodeTemporalByValue n /\ NodeIntegrityOf h = NodeIntegrityOf n /\ forall cur, ms_nodes ms !! nid = Some cur -> n_ordinal h = n_ordinal cur) /\
  (forall id w, (id, w) <> (nid, v) -> GetNodeVersion id w ms' = GetNodeVersion id w ms) /\
  exists l, GetNodeHistory nid ms' = inl l /\ StronglySorted Z.lt (map n_version l) /\ forall h, h ∈ l <-> exists w, GetNodeVersion nid w ms' = inl h.
Proof.
  intros Hr Hput. apply reached_ok in Hr as Hok; [|done]. unfold PutNodeVersion in Hput. destruct (ms_closed ms) eqn:Hopen; [done|]. destruct (ValidateNodeHistoryVersionSnapshot nid v n) eqn:Ev; [|done]. cbn [negb] in Hput. injection Hput as Hms.
  pose proof (keep_node_row_ok FormatFloat ParseFloat P nid v n ms Hok Ev) as Hok'. rewrite Hms in Hok'. apply version_checked in Ev as (Hid & Hver & Hpos).
  rewrite put_node_history_eq in Hms. destruct (next_ordinal _ _ _ _ _) as [o m] eqn:Eo. assert (Hc : ms_closed ms' = false) by by rewrite <- Hms. assert (Hval : ValidateNodeID nid = true) by (unfold ValidateNodeID; lia).
  assert (Hh : nodeHistory ms' = <[nid := <[v := NodeFreeze (DeepCopyWithOrdinal o n)]> (default ∅ (nodeHistory ms !! nid))]> (nodeHistory ms)) by by rewrite <- Hms.
  split; [|split].
  - exists (NodeDeepCopy (NodeFreeze (DeepCopyWithOrdinal o n))). destruct (history_copy n o) as (-> & -> & -> & -> & -> & -> & ->). split.
    + unfold GetNodeVersion. by rewrite Hc, Hval, Hh, !lookup_insert_eq.
    + split_and!; try done. intros cur Hcur. rewrite Hid, (next_ordinal_cur _ _ _ _ _ cur (ok_nodeOrds _ _ _ _ Hok) Hcur) in Eo. by injection Eo as <-.
  - intros id w Hne. unfold GetNodeVersion. rewrite Hc, Hopen. destruct (ValidateNodeID id); [|done]. cbn [negb]. rewrite Hh. destruct (decide (id = nid)) as [->|Hi]; [|by rewrite lookup_insert_ne].
    rewrite lookup_insert_eq. destruct (decide (w = v)) as [->|Hw]; [done|]. rewrite lookup_insert_ne by done. by destruct (nodeHistory ms !! nid).
  - assert (Hget : forall w h, GetNodeVersion nid w ms' = inl h <-> exists t, default ∅ (nodeHistory ms' !! nid) !! w = Some t /\ h = NodeDeepCopy t).
    { intros w h. unfold GetNodeVersion. rewrite Hc, Hval. cbn [negb]. destruct (nodeHistory ms' !! nid) as [inner|]; cbn [default from_option id]; [destruct (inner !! w) as [t|]; naive_solver|]. rewrite lookup_empty. naive_solver. }
    destruct (history_rows n_version (default ∅ (nodeHistory ms' !! nid))) as [Hs Hin]; [intros w t Ht; by destruct (ok_nodeHistory _ _ _ _ Hok' nid w t Ht) as (_ & -> & _)|].
    unfold GetNodeHistory. rewrite Hc, Hval. cbn [negb]. eexists. split; [done|]. split.
    + rewrite List.map_map. erewrite List.map_ext by apply copy_version. exact Hs.
    + intros h. setoid_rewrite Hget. rewrite list_elem_of_fmap. setoid_rewrite Hin. naive_solver.
Qed.

(** Owners of unique values among the purged nodes are released, and no others. *)
Lemma reap_exact has_meta persists V o owners err : reapForeverOwnersForPurged has_meta persists (match foreverOwnerSnapshot o with Some s => ∅ ∪ (V ∩ s) | None => ∅ end) o = (owners, err) ->
  (forall value id, owners !! value = Some id <-> o !! value = Some id /\ id ∉ V) /\ (persists = true -> err = None).
Proof.
  intros Hreap. set (X := match foreverOwnerSnapshot o with Some s => ∅ ∪ (V ∩ s) | None => ∅ end) in Hreap.
  assert (HX : forall value id, o !! value = Some id -> id ∈ X <-> id ∈ V).
  { intros value id Ho. subst X. unfold foreverOwnerSnapshot. case_bool_decide as Ee; [subst o; by rewrite lookup_empty in Ho|]. assert (id ∈ (map_img o : gset Z)) by (apply elem_of_map_img; eauto). set_solver. }
  unfold reapForeverOwnersForPurged in Hreap. case_bool_decide as Ex.
  - injection Hreap as <- <-. split; [|done]. intros value id. split; [|tauto]. intros Ho. split; [done|]. rewrite <- (HX value id Ho), Ex. set_solver.
  - assert (Howners : owners = filter (fun kv : bytes * Z => kv.2 ∉ X) o) by (destruct (_ || persists); by injection Hreap as <- _). split.
    + intros value id. rewrite Howners, map_lookup_filter_Some. cbn [snd]. split; intros [Ho Hn]; (split; [done|]); by rewrite (HX value id Ho) in *.
    + intros ->. rewrite orb_true_r in Hreap. by injection Hreap as _ <-.
Qed.

Definition store_nodes_before := Some (fun token before chunk ms => to_core (PurgeNodesByLabelBefore FormatFloat ParseFloat order token before chunk ms)).

Definition store_nodes_ended := Some (fun token before chunk ms => to_core (PurgeNodesByLabelValidToBefore FormatFloat ParseFloat order axis token before chunk ms)).

(** C7: The core's loop of purge chunks over an open reached store terminates, one round
    for every 256 purgeable nodes: when it was not cut short, exactly the nodes that
    carry the label and qualify under the mode are gone, with every relationship at
    them and the history of both, everything else is as it was and the store is in
    order; the report counts the nodes and the relationships; and of the unique
    values' owners exactly the purged nodes are released. *)
Theorem memory_purge_exact P (c : core) k token before mode excludeTx fuel (V := purgeable token (mode_qualifies axis mode before) (c_store c)) :
  reached P (c_store c) -> ms_closed (c_store c) = false -> 0 < before -> (forall n, ctx_done k n = false) -> (forall n, lock_abandoned k n = false) ->
  (0 < fuel)%nat -> Z.of_nat (size V) <= 256 * Z.of_nat fuel ->
  exists report err c', purgeRangeAllChunks store_nodes_before store_nodes_ended fuel k token before mode excludeTx c = Some (report, err, c') /\
    purged_store FormatFloat ParseFloat P V (c_store c) (c_store c') /\ (owners_persist k = true -> err = None) /\
    NodesPurged report = Z.of_nat (size V) /\ RelsPurged report = Z.of_nat (size (ms_rels (c_store c))) - Z.of_nat (size (ms_rels (c_store c'))) /\
    forall value id, uniqueOwners c' !! value = Some id <-> uniqueOwners c !! value = Some id /\ id ∉ V.
Proof.
  intros Hr Hopen Hb Hctx Hlock Hf Hsize. apply reached_ok in Hr as Hok; [|done].
  destruct (purge_chunks_ok FormatFloat ParseFloat order axis order_perm k token before mode excludeTx (foreverOwnerSnapshot (uniqueOwners c)) fuel Hb Hctx Hlock 0 noReport ∅ P (c_store c) Hok Hopen Hf Hsize) as (ms' & E & Hps).
  unfold purgeRangeAllChunks, store_nodes_before, store_nodes_ended. rewrite E. fold V. destruct (reapForeverOwnersForPurged _ _ _ _) as [owners rerr] eqn:Er. do 3 eexists. split; [reflexivity|].
  destruct (reap_exact _ _ V _ _ _ Er) as [H1 H2]. split; [exact Hps|]. split; [exact H2|]. cbn [NodesPurged RelsPurged noReport]. rewrite !Z.add_0_l. done.
Qed.
End Relied.

(** ** A store to try the theorems on *)

Section Demo.
Notation FF := demo_format.
Notation PF := (demo_parse 64).
#[local] Existing Instance demo_layout.

Definition demo_order (X : gset Z) : list Z := base.elements X.

Lemma demo_order_perm X : demo_order X ≡ₚ base.elements X.
Proof. done. Qed.

(** Operations that are always allowed. *)
Definition plain (o : memOp) : bool := match o with OpPutNode n => bool_decide (NoDup (AllLabelTokens n)) | OpUndoRel _ => false | _ => true end.

Fixpoint run_all (l : list memOp) (s : gset Z * memStore) : gset Z * memStore :=
  match l with [] => s | o :: l' => run_all l' (gone FF PF demo_order LegacyValidAxis o s.2 ∪ s.1, fst (run FF PF demo_order LegacyValidAxis o s.2)) end.

Lemma run_all_steps l : forall s, forallb plain l = true -> rtc (mem_step FF PF demo_order LegacyValidAxis) s (run_all l s).
Proof.
  induction l as [|o l IH]; intros [P ms] Hl; [apply rtc_refl|]. cbn [forallb] in Hl. apply andb_true_iff in Hl as [Ho Hl]. cbn [run_all]. eapply rtc_l; [|by apply IH]. apply step_op.
  destruct o; cbn in *; try done. by apply bool_decide_eq_true in Ho.
Qed.

Definition demo_row (id label : Z) : nodeRow := NewNode ([] : PropertySlice) (Alloc id) id label [].

Definition demo_edge (id relType start end_ : Z) : relRow := NewRelationship ([] : PropertySlice) (Alloc id) id relType start end_.

(** Nodes 1 and 2 of label 7 and node 3 of label 8; the relationship 10 from 1 to 2 is
    deleted with its history, 11 loops at 3 and 12 goes from 1 to 3. *)
Definition demo_ops : list memOp :=
  [OpPutNode (demo_row 1 7); OpPutNode (demo_row 2 7); OpPutNode (demo_row 3 8); OpPutRel (demo_edge 10 5 1 2); OpPutRel (demo_edge 11 6 3 3); OpPutRel (demo_edge 12 6 1 3);
   OpDeleteRelWithHistory 10 0 (demo_edge 10 5 1 2)].

Definition demo_mem : memStore := (run_all demo_ops (∅, new_store)).2.

Lemma demo_reached : reached FF PF demo_order LegacyValidAxis ∅ demo_mem.
Proof. exact (run_all_steps demo_ops (∅, new_store) eq_refl). Qed.

Lemma memory_store_invariant_witness : reached FF PF demo_order LegacyValidAxis ∅ demo_mem /\ base.elements (dom (ms_rels demo_mem)) = [11; 12] /\ store_ok FF PF ∅ demo_mem.
Proof. split; [exact demo_reached|]. split; [vm_compute; reflexivity|]. exact (memory_store_invariant FF PF demo_order LegacyValidAxis demo_order_perm ∅ demo_mem demo_reached). Defined.

(** Node 1 still has a relationship. *)
Lemma memory_failed_write_changes_nothing_witness :
  snd (run FF PF demo_order LegacyValidAxis (OpDeleteNode 1) demo_mem) = Some ErrInvalidMutation /\ fst (run FF PF demo_order LegacyValidAxis (OpDeleteNode 1) demo_mem) = demo_mem.
Proof.
  assert (E : snd (run FF PF demo_order LegacyValidAxis (OpDeleteNode 1) demo_mem) = Some ErrInvalidMutation) by (vm_compute; reflexivity). split; [exact E|].
  exact (memory_failed_write_changes_nothing FF PF demo_order LegacyValidAxis demo_order_perm ∅ demo_mem (OpDeleteNode 1) ErrInvalidMutation demo_reached E).
Defined.

Lemma adjacency_reads_exact_witness : OutgoingDegree 1 6 demo_mem = inl 1%nat /\
  exists out inc, OutgoingRelationships 1 6 demo_mem = inl out /\ side_answer r_startID 1 6 demo_mem out (OutgoingDegree 1 6 demo_mem) /\
    IncomingRelationships 1 6 demo_mem = inl inc /\ side_answer r_endID 1 6 demo_mem inc (IncomingDegree 1 6 demo_mem) /\
    (forall ids m, 1 ∈ ids -> OutgoingRelationshipsForNodes ids 6 demo_mem = inl m -> m !! 1 = match out with [] => None | _ => Some out end) /\
    (forall ids m, 1 ∈ ids -> IncomingRelationshipsForNodes ids 6 demo_mem = inl m -> m !! 1 = match inc with [] => None | _ => Some inc end).
Proof.
  split; [vm_compute; reflexivity|]. apply (adjacency_reads_exact FF PF demo_order LegacyValidAxis demo_order_perm ∅ demo_mem 1 6 demo_reached); [vm_compute; reflexivity|lia|].
  destruct (ms_nodes demo_mem !! 1) as [n|] eqn:E; [by exists n|]. vm_compute in E. discriminate.
Defined.

(** The relationship deleted above, from node 1. *)
Lemma past_relationship_reached_witness : ForEachExAdjacentRelID 1 false demo_mem = inl [10] /\ exists h, default ∅ (relHistory demo_mem !! 10) !! 0 = Some h /\ r_startID h = 1 /\
  ((exists rows, OutgoingRelationships (r_startID h) 0 demo_mem = inl rows /\ 10 ∈ map r_id rows) \/ (exists ids, ForEachExAdjacentRelID (r_startID h) false demo_mem = inl ids /\ 10 ∈ ids) \/ r_startID h ∈ (∅ : gset Z)).
Proof.
  split; [vm_compute; reflexivity|]. assert (E : (fun h => (r_startID h, r_endID h)) <$> default ∅ (relHistory demo_mem !! 10) !! 0 = Some (1, 2)) by (vm_compute; reflexivity).
  destruct (default ∅ (relHistory demo_mem !! 10) !! 0) as [h|] eqn:Eh; [|discriminate]. injection E as Es Ee. exists h. split; [reflexivity|]. split; [exact Es|].
  apply (past_relationship_reached FF PF demo_order LegacyValidAxis demo_order_perm ∅ demo_mem 10 0 h demo_reached); [vm_compute; reflexivity|exact Eh|lia|lia].
Defined.

Definition demo_kept : memStore := fst (PutNodeVersion 1 0 (demo_row 1 7) demo_mem).

Lemma kept_version_reads_back_witness : PutNodeVersion 1 0 (demo_row 1 7) demo_mem = (demo_kept, None) /\
  exists h, GetNodeVersion 1 0 demo_kept = inl h /\ n_id h = 1 /\ n_version h = 0.
Proof.
  assert (E : PutNodeVersion 1 0 (demo_row 1 7) demo_mem = (demo_kept, None)) by (vm_compute; reflexivity). split; [exact E|].
  destruct (kept_version_reads_back FF PF demo_order LegacyValidAxis demo_order_perm ∅ demo_mem 1 0 (demo_row 1 7) demo_kept demo_reached E) as [(h & H1 & H2 & H3 & _) _]. exists h. exact (conj H1 (conj H2 H3)).
Defined.

(** Nodes 1 and 2, the nodes of label 7 minted before 3; the value "a" is node 1's and
    "b" node 3's. *)
Definition demo_core : core := mkCore (mkRet (Some ∅) 0 0 None 0) demo_mem (<[ [97] := 1 ]> (<[ [98] := 3 ]> ∅)) 0 0.

Lemma memory_purge_exact_witness : exists report err c',
  purgeRangeAllChunks (store_nodes_before FF PF demo_order) (store_nodes_ended FF PF demo_order LegacyValidAxis) 1 run_call 7 3 PurgeByAge false demo_core = Some (report, err, c') /\
  NodesPurged report = 2 /\ RelsPurged report = 1 /\ base.elements (dom (ms_nodes (c_store c'))) = [3] /\ uniqueOwners c' !! [97] = None /\ uniqueOwners c' !! [98] = Some 3.
Proof.
  destruct (memory_purge_exact FF PF demo_order LegacyValidAxis demo_order_perm ∅ demo_core run_call 7 3 PurgeByAge false 1) as (report & err & c' & E & _ & _ & Hn & _);
    [exact demo_reached|vm_compute; reflexivity|lia|reflexivity|reflexivity|lia|vm_compute; discriminate|].
  assert (E' : (fun '(report, err, c') => (RelsPurged report, base.elements (dom (ms_nodes (c_store c'))), uniqueOwners c' !! [97], uniqueOwners c' !! [98])) <$>
    purgeRangeAllChunks (store_nodes_before FF PF demo_order) (store_nodes_ended FF PF demo_order LegacyValidAxis) 1 run_call 7 3 PurgeByAge false demo_core = Some (1, [3], None, Some 3)) by (vm_compute; reflexivity).
  rewrite E in E'. cbn [fmap option_fmap option_map] in E'. injection E' as E1 E2 E3 E4.
  exists report, err, c'. split; [exact E|]. split; [rewrite Hn; vm_compute; reflexivity|]. exact (conj E1 (conj E2 (conj E3 E4))).
Defined.
End Demo.
