(* ===== verification/BitPack.v ===== *)
(** * Bit packing (pkg/graph/internal/segment/bitpack.go)

    Little-endian byte strings and the packer of the segment codec: value [k] of
    a page occupies the bits [k*w, (k+1)*w) of the packed area.  The packer
    flushes a 64-bit accumulator, the unpacker reads an unaligned word and a
    ninth byte; both are specified against the number the bytes spell. *)

From S2P Require Import Prelude.

(** ** Little-endian integers ([encoding/binary]) *)

(** [LittleEndian.AppendUint16/32/64]: the low [n] bytes of [v]. *)
Fixpoint le_bytes (n : nat) (v : Z) : bytes :=
  match n with
  | O => []
  | S n' => Z.land v 255 :: le_bytes n' (Z.shiftr v 8)
  end.

(** The number a byte string spells; [LittleEndian.Uint64(b)] is [le_int] of its
    first eight bytes. *)
Fixpoint le_int (bs : bytes) : Z :=
  match bs with
  | [] => 0
  | b :: bs' => Z.lor b (Z.shiftl (le_int bs') 8)
  end.

Definition le_uint16 (bs : bytes) : Z := le_int (take 2 bs).

Definition le_uint32 (bs : bytes) : Z := le_int (take 4 bs).

Definition le_uint64 (bs : bytes) : Z := le_int (take 8 bs).

(** ** Packing *)

Definition packedLen (n width : Z) : Z := (n * width + 7) / 8.

(** [bits.Len64] *)
Definition bitWidth (maxOffset : Z) : Z := if maxOffset =? 0 then 0 else Z.log2 maxOffset + 1.

(** The value a page stores of [v] at [w] bits. *)
Definition mask_width (w v : Z) : Z := if w <? 64 then Z.land v (Z.shiftl 1 w - 1) else v.

(** The loop over the values: the accumulator, its bit count and the output. *)
Fixpoint pack_loop (w : Z) (vals : list Z) (acc nb : Z) (dst : bytes) : Z * Z * bytes :=
  match vals with
  | [] => (acc, nb, dst)
  | v :: vals' =>
      let v := mask_width w v in
      let acc := Z.lor acc (u64 (Z.shiftl v nb)) in
      let nb := nb + w in
      if nb >=? 64 then
        let nb := nb - 64 in
        pack_loop w vals' (Z.shiftr v (w - nb)) nb (dst ++ le_bytes 8 acc)
      else pack_loop w vals' acc nb dst
  end.

(** The flush: a byte for every eight bits left.  A 64-bit accumulator holds at
    most eight. *)
Fixpoint flush_loop (fuel : nat) (acc nb : Z) (dst : bytes) : bytes :=
  match fuel with
  | O => dst
  | S fuel' =>
      if nb >? 0 then flush_loop fuel' (Z.shiftr acc 8) (nb - Z.min nb 8) (dst ++ [Z.land acc 255])
      else dst
  end.

Definition appendPacked (dst : bytes) (vals : list Z) (width : Z) : bytes :=
  if width =? 0 then dst
  else let '(acc, nb, dst) := pack_loop width vals 0 0 dst in flush_loop 8 acc nb dst.

(** The byte loop at the end of the area: [k] from 0 while in range. *)
Fixpoint tail_loop (fuel : nat) (src : bytes) (b k : nat) (lo : Z) : Z :=
  match fuel with
  | O => lo
  | S fuel' =>
      if (b + k <? length src)%nat then
        tail_loop fuel' src b (S k) (Z.lor lo (u64 (Z.shiftl (nth (b + k) src 0) (8 * Z.of_nat k))))
      else lo
  end.

Definition unpackAt (src : bytes) (i width : Z) : Z :=
  if width =? 0 then 0
  else
    let bit := u64 (i * width) in
    let b := Z.to_nat (Z.shiftr bit 3) in
    let s := Z.land bit 7 in
    let lo := if (b + 8 <=? length src)%nat then le_uint64 (drop b src) else tail_loop 8 src b 0 0 in
    let v := Z.shiftr lo s in
    let v := if (s + width >? 64) && (b + 8 <? length src)%nat
             then Z.lor v (u64 (Z.shiftl (nth (b + 8) src 0) (64 - s))) else v in
    mask_width width v.

(** ** Lemmas on little-endian integers *)

Lemma land_byte v : is_byte (Z.land v 255).
Proof. change 255 with (Z.ones 8). rewrite Z.land_ones by lia. unfold is_byte. pose proof (Z.mod_pos_bound v (2 ^ 8)). lia. Qed.

Lemma land_255 v : Z.land v 255 = v mod 256.
Proof. change 255 with (Z.ones 8). by rewrite Z.land_ones by lia. Qed.

Lemma shiftr_8 v : Z.shiftr v 8 = v / 256.
Proof. by rewrite Z.shiftr_div_pow2 by lia. Qed.

Lemma pow2_8S n : 2 ^ (8 * Z.of_nat (S n)) = 256 * 2 ^ (8 * Z.of_nat n).
Proof. replace (8 * Z.of_nat (S n)) with (8 + 8 * Z.of_nat n) by lia. by rewrite Z.pow_add_r by lia. Qed.

Lemma pow2_pos k : 0 <= k -> 0 < 2 ^ k.
Proof. intros. by apply Z.pow_pos_nonneg. Qed.

Lemma le_int_cons b bs : is_byte b -> le_int (b :: bs) = b + 256 * le_int bs.
Proof.
  intros Hb. cbn [le_int]. rewrite Z.lor_comm, lor_shiftl_add by (unfold is_byte in Hb; lia). change (2 ^ 8) with 256. lia.
Qed.

Lemma length_le_bytes n v : length (le_bytes n v) = n.
Proof. revert v. induction n as [|n IH]; intros v; cbn; [done|]. by rewrite IH. Qed.

Lemma le_bytes_byte n v : Forall is_byte (le_bytes n v).
Proof. revert v. induction n as [|n IH]; intros v; cbn [le_bytes]; constructor; [apply land_byte|apply IH]. Qed.

Lemma le_int_range bs : Forall is_byte bs -> 0 <= le_int bs < 2 ^ (8 * Z.of_nat (length bs)).
Proof.
  induction 1 as [|b bs Hb _ IH]; [cbn; lia|]. rewrite le_int_cons by done. cbn [length]. rewrite pow2_8S. unfold is_byte in Hb. nia.
Qed.

Lemma le_int_app l k : Forall is_byte l -> le_int (l ++ k) = le_int l + 2 ^ (8 * Z.of_nat (length l)) * le_int k.
Proof.
  induction 1 as [|b l Hb _ IH]; [cbn; lia|]. cbn [app length]. rewrite !le_int_cons, IH, pow2_8S by done. lia.
Qed.

Lemma le_int_bytes n v : le_int (le_bytes n v) = v mod 2 ^ (8 * Z.of_nat n).
Proof.
  revert v. induction n as [|n IH]; intros v; [cbn; by rewrite Z.mod_1_r|]. cbn [le_bytes].
  rewrite le_int_cons, IH, land_255, shiftr_8, pow2_8S by apply land_byte.
  rewrite Z.rem_mul_r by (pose proof (pow2_pos (8 * Z.of_nat n)); lia). done.
Qed.

Lemma le_int_take m l : Forall is_byte l -> le_int (take m l) = le_int l mod 2 ^ (8 * Z.of_nat m).
Proof.
  intros Hl. destruct (Nat.le_gt_cases (length l) m) as [Hge|Hlt].
  - rewrite take_ge by done. symmetry. apply Z.mod_small. pose proof (le_int_range l Hl).
    assert (2 ^ (8 * Z.of_nat (length l)) <= 2 ^ (8 * Z.of_nat m)) by (apply Z.pow_le_mono_r; lia). lia.
  - rewrite <- (take_drop m l) at 2. rewrite le_int_app by (by apply Forall_take). rewrite length_take_le by lia.
    rewrite Z.mul_comm, Z.mod_add by (pose proof (pow2_pos (8 * Z.of_nat m)); lia). symmetry. apply Z.mod_small.
    pose proof (le_int_range (take m l) (Forall_take _ _ _ Hl)) as Hr. by rewrite length_take_le in Hr by lia.
Qed.

Lemma le_int_drop m l : Forall is_byte l -> le_int (drop m l) = le_int l / 2 ^ (8 * Z.of_nat m).
Proof.
  intros Hl. destruct (Nat.le_gt_cases (length l) m) as [Hge|Hlt].
  - rewrite drop_ge by done. symmetry. apply Z.div_small. pose proof (le_int_range l Hl).
    assert (2 ^ (8 * Z.of_nat (length l)) <= 2 ^ (8 * Z.of_nat m)) by (apply Z.pow_le_mono_r; lia). lia.
  - rewrite <- (take_drop m l) at 2. rewrite le_int_app by (by apply Forall_take). rewrite length_take_le by lia.
    pose proof (le_int_range (take m l) (Forall_take _ _ _ Hl)) as Hr. rewrite length_take_le in Hr by lia.
    rewrite Z.mul_comm, Z.div_add, Z.div_small by lia. lia.
Qed.

Lemma le_int_nth i l : Forall is_byte l -> nth i l 0 = (le_int l / 2 ^ (8 * Z.of_nat i)) mod 256.
Proof.
  intros Hl. rewrite <- le_int_drop by done. revert i. induction Hl as [|b l Hb Hl IH]; intros i; [by rewrite drop_nil; destruct i|].
  destruct i as [|i]; [|apply IH]. cbn [nth drop]. rewrite le_int_cons by done. unfold is_byte in Hb.
  rewrite Z.mul_comm, Z.mod_add, Z.mod_small by lia. done.
Qed.

#[export] Hint Resolve le_bytes_byte land_byte : tkg.
#[export] Hint Rewrite length_le_bytes : tkg.

(** ** What the packer writes *)

(** The number a packed page spells. *)
Fixpoint pack_value (w : Z) (vals : list Z) : Z :=
  match vals with
  | [] => 0
  | v :: vals' => v mod 2 ^ w + 2 ^ w * pack_value w vals'
  end.

Lemma mask_width_mod w v : 0 <= w <= 64 -> 0 <= v < 2 ^ 64 -> mask_width w v = v mod 2 ^ w.
Proof.
  intros Hw Hv. unfold mask_width. destruct (Z.ltb_spec w 64).
  - by rewrite Z.shiftl_1_l, Z.sub_1_r, <- Z.ones_equiv, Z.land_ones by lia.
  - replace w with 64 by lia. by rewrite Z.mod_small.
Qed.

(** The accumulator takes [v] in at bit [nb]: the low word is written, what did
    not fit stays. *)
Lemma acc_step acc v nb w :
  0 <= nb < 64 -> 0 <= acc < 2 ^ nb -> 0 <= v < 2 ^ w -> 0 < w <= 64 ->
  Z.lor acc (u64 (Z.shiftl v nb)) = (acc + v * 2 ^ nb) mod 2 ^ 64 /\
  (nb + w >= 64 -> Z.shiftr v (w - (nb + w - 64)) = (acc + v * 2 ^ nb) / 2 ^ 64).
Proof.
  intros Hnb Hacc Hv Hw. pose proof (pow2_pos nb ltac:(lia)) as Hp.
  assert (2 ^ 64 = 2 ^ (64 - nb) * 2 ^ nb) as E64 by (rewrite <- Z.pow_add_r by lia; f_equal; lia).
  pose proof (pow2_pos (64 - nb) ltac:(lia)) as Hp2. split.
  - unfold u64. rewrite Z.shiftl_mul_pow2 by lia. rewrite E64, Z.mul_mod_distr_r by lia.
    rewrite <- Z.shiftl_mul_pow2 by lia. rewrite Z.lor_comm, lor_shiftl_add by lia.
    rewrite (Z.mul_comm (2 ^ (64 - nb))), Z.rem_mul_r, Z.mod_add, Z.div_add, (Z.mod_small acc), (Z.div_small acc), Z.add_0_l by lia. ring.
  - intros Hge. replace (w - (nb + w - 64)) with (64 - nb) by lia. rewrite Z.shiftr_div_pow2 by lia.
    rewrite E64, (Z.mul_comm (2 ^ (64 - nb))), <- Z.div_div, Z.div_add, (Z.div_small acc) by lia. done.
Qed.

Lemma pack_loop_spec w vals acc nb dst :
  0 < w <= 64 -> Forall (fun v => 0 <= v < 2 ^ 64) vals -> Forall is_byte dst -> 0 <= nb < 64 -> 0 <= acc < 2 ^ nb ->
  let '(acc', nb', dst') := pack_loop w vals acc nb dst in
  Forall is_byte dst' /\ 0 <= nb' < 64 /\ 0 <= acc' < 2 ^ nb' /\
  8 * Z.of_nat (length dst') + nb' = 8 * Z.of_nat (length dst) + nb + w * Z.of_nat (length vals) /\
  le_int dst' + 2 ^ (8 * Z.of_nat (length dst')) * acc' =
    le_int dst + 2 ^ (8 * Z.of_nat (length dst)) * (acc + 2 ^ nb * pack_value w vals).
Proof.
  intros Hw Hv. revert acc nb dst. induction Hv as [|v vals Hv _ IH]; intros acc nb dst Hd Hnb Hacc; cbn [pack_loop pack_value length].
  { split_and!; try done; lia. }
  rewrite mask_width_mod by lia. set (v' := v mod 2 ^ w). pose proof (Z.mod_pos_bound v (2 ^ w) (pow2_pos w ltac:(lia))) as Hv'. fold v' in Hv'.
  clearbody v'. destruct (acc_step acc v' nb w Hnb Hacc Hv' Hw) as [-> Hhi].
  assert (0 <= acc + v' * 2 ^ nb < 2 ^ (nb + w)) as Hfull by (rewrite Z.pow_add_r by lia; nia).
  assert (2 ^ (nb + w) = 2 ^ nb * 2 ^ w) as Epow by (by rewrite Z.pow_add_r by lia).
  destruct (Z.geb_spec (nb + w) 64) as [Hge|Hlt].
  - rewrite Hhi by lia. set (full := acc + v' * 2 ^ nb) in *.
    assert (0 <= full / 2 ^ 64 < 2 ^ (nb + w - 64)).
    { split; [apply Z.div_pos; lia|]. apply Z.div_lt_upper_bound; [lia|]. rewrite <- Z.pow_add_r by lia. replace (64 + (nb + w - 64)) with (nb + w) by lia. apply Hfull. }
    specialize (IH (full / 2 ^ 64) (nb + w - 64) (dst ++ le_bytes 8 (full mod 2 ^ 64))
      ltac:(apply Forall_app; auto with tkg) ltac:(lia) ltac:(done)).
    destruct (pack_loop w vals _ _ _) as [[acc' nb'] dst']. destruct IH as (H1 & H2 & H3 & H4 & H5).
    rewrite length_app, length_le_bytes in H4, H5. split_and!; try done; [lia|lia..|]. rewrite H5.
    rewrite le_int_app, le_int_bytes by done. change (8 * Z.of_nat 8) with 64. rewrite Z.mod_mod by lia.
    replace (8 * Z.of_nat (length dst + 8)) with (8 * Z.of_nat (length dst) + 64) by lia. rewrite Z.pow_add_r by lia.
    assert (2 ^ 64 * 2 ^ (nb + w - 64) = 2 ^ nb * 2 ^ w) as Esplit by (rewrite <- !Z.pow_add_r by lia; f_equal; lia).
    pose proof (Z.div_mod full (2 ^ 64) ltac:(lia)) as Hdm. subst full.
    set (q := (acc + v' * 2 ^ nb) / 2 ^ 64) in *. set (m := (acc + v' * 2 ^ nb) mod 2 ^ 64) in *. clearbody q m.
    set (D := 2 ^ (8 * Z.of_nat (length dst))). set (X := pack_value w vals).
    transitivity (le_int dst + D * (m + 2 ^ 64 * q + (2 ^ 64 * 2 ^ (nb + w - 64)) * X)); [ring|]. rewrite Esplit. replace (m + 2 ^ 64 * q) with (acc + v' * 2 ^ nb) by lia. ring.
  - assert (2 ^ (nb + w) <= 2 ^ 64) by (apply Z.pow_le_mono_r; lia). rewrite Z.mod_small by lia.
    specialize (IH (acc + v' * 2 ^ nb) (nb + w) dst Hd ltac:(lia) ltac:(lia)).
    destruct (pack_loop w vals _ _ _) as [[acc' nb'] dst']. destruct IH as (H1 & H2 & H3 & H4 & H5).
    split_and!; try done; [lia..|]. rewrite H5, Epow. ring.
Qed.

Lemma flush_loop_spec fuel acc nb dst :
  Forall is_byte dst -> 0 <= nb <= 8 * Z.of_nat fuel -> 0 <= acc < 2 ^ nb ->
  let out := flush_loop fuel acc nb dst in
  Forall is_byte out /\ Z.of_nat (length out) = Z.of_nat (length dst) + (nb + 7) / 8 /\
  le_int out = le_int dst + 2 ^ (8 * Z.of_nat (length dst)) * acc.
Proof.
  revert acc nb dst. induction fuel as [|fuel IH]; intros acc nb dst Hd Hnb Hacc; cbn [flush_loop].
  { assert (nb = 0) as -> by lia. change (2 ^ 0) with 1 in Hacc. assert (acc = 0) as -> by lia. cbv zeta. split_and!; [done|change ((0 + 7) / 8) with 0; lia|lia]. }
  destruct (Z.gtb_spec nb 0) as [Hpos|Hz].
  2: { assert (nb = 0) as -> by lia. change (2 ^ 0) with 1 in Hacc. assert (acc = 0) as -> by lia. cbv zeta. split_and!; [done|change ((0 + 7) / 8) with 0; lia|lia]. }
  rewrite land_255, shiftr_8. destruct (IH (acc / 256) (nb - Z.min nb 8) (dst ++ [acc mod 256])) as (H1 & H2 & H3).
  - apply Forall_app. split; [done|]. constructor; [|done]. unfold is_byte. apply Z.mod_pos_bound. lia.
  - lia.
  - split; [apply Z.div_pos; lia|]. apply Z.div_lt_upper_bound; [lia|].
    destruct (Z.min_spec nb 8) as [[? ->]|[? ->]].
    + assert (2 ^ nb <= 2 ^ 8) by (apply Z.pow_le_mono_r; lia). rewrite Z.sub_diag. lia.
    + replace nb with (8 + (nb - 8)) in Hacc by lia. rewrite Z.pow_add_r in Hacc by lia. lia.
  - rewrite length_app in H2, H3. cbn [length] in H2, H3. set (out := flush_loop fuel _ _ _) in *. clearbody out. cbv zeta.
    split_and!; [done| |].
    + destruct (Z.min_spec nb 8) as [[? E]|[? E]]; rewrite E in H2.
      * replace (nb - nb + 7) with 7 in H2 by lia. change (7 / 8) with 0 in H2. assert (1 = (nb + 7) / 8) by (apply (Z.div_unique _ _ _ (nb - 1)); lia). lia.
      * replace (nb + 7) with ((nb - 8 + 7) + 1 * 8) by lia. rewrite Z.div_add by lia. lia.
    + rewrite H3, le_int_app by done. replace (length dst + 1)%nat with (S (length dst)) by lia. rewrite pow2_8S.
      cbn [le_int]. rewrite Z.shiftl_0_l, Z.lor_0_r.
      pose proof (Z.div_mod acc 256 ltac:(lia)) as Hdm. set (q := acc / 256) in *. set (m := acc mod 256) in *. clearbody q m.
      rewrite Hdm. ring.
Qed.

Lemma packedLen_nonneg n w : 0 <= n -> 0 <= w -> 0 <= packedLen n w.
Proof. intros. unfold packedLen. apply Z.div_pos; nia. Qed.

(** The packed area: its length, and the number it spells. *)
Lemma appendPacked_spec vals w :
  0 <= w <= 64 -> Forall (fun v => 0 <= v < 2 ^ 64) vals ->
  let out := appendPacked [] vals w in
  Forall is_byte out /\ Z.of_nat (length out) = packedLen (Z.of_nat (length vals)) w /\ (w <> 0 -> le_int out = pack_value w vals).
Proof.
  intros Hw Hv. unfold appendPacked, packedLen. destruct (Z.eqb_spec w 0) as [->|Hne].
  { split_and!; [done|by rewrite Z.mul_0_r|done]. }
  pose proof (pack_loop_spec w vals 0 0 [] ltac:(lia) Hv ltac:(done) ltac:(lia) ltac:(lia)) as Hp.
  destruct (pack_loop w vals 0 0 []) as [[acc nb] dst]. destruct Hp as (H1 & H2 & H3 & H4 & H5).
  destruct (flush_loop_spec 8 acc nb dst H1 ltac:(lia) H3) as (F1 & F2 & F3). cbn [length le_int] in H4, H5.
  split_and!; [done| |intros _; rewrite F3, H5; change (2 ^ (8 * Z.of_nat 0)) with 1; change (2 ^ 0) with 1; lia].
  rewrite F2. replace (Z.of_nat (length vals) * w + 7) with (nb + 7 + Z.of_nat (length dst) * 8) by lia.
  rewrite Z.div_add by lia. lia.
Qed.

(** [appendPacked] appends: the area already written is kept. *)
Lemma pack_loop_app w vals acc nb d1 d2 :
  pack_loop w vals acc nb (d1 ++ d2) = let '(acc', nb', d) := pack_loop w vals acc nb d2 in (acc', nb', d1 ++ d).
Proof.
  revert acc nb d2. induction vals as [|v vals IH]; intros acc nb d2; cbn [pack_loop]; [done|].
  destruct (_ >=? 64); [|apply IH]. rewrite <- app_assoc. apply IH.
Qed.

Lemma flush_loop_app fuel acc nb d1 d2 : flush_loop fuel acc nb (d1 ++ d2) = d1 ++ flush_loop fuel acc nb d2.
Proof.
  revert acc nb d2. induction fuel as [|fuel IH]; intros acc nb d2; cbn [flush_loop]; [done|].
  destruct (nb >? 0); [|done]. rewrite <- app_assoc. apply IH.
Qed.

Lemma appendPacked_app dst vals w : appendPacked dst vals w = dst ++ appendPacked [] vals w.
Proof.
  unfold appendPacked. destruct (w =? 0); [by rewrite app_nil_r|].
  rewrite <- (app_nil_r dst) at 1. rewrite pack_loop_app. destruct (pack_loop w vals 0 0 []) as [[acc nb] d]. apply flush_loop_app.
Qed.

(** ** What the unpacker reads *)

Lemma tail_loop_spec fuel src b k lo :
  Forall is_byte src -> 0 <= lo < 2 ^ (8 * Z.of_nat k) -> (k + fuel <= 8)%nat ->
  tail_loop fuel src b k lo = lo + 2 ^ (8 * Z.of_nat k) * le_int (take fuel (drop (b + k) src)).
Proof.
  intros Hs. revert k lo. induction fuel as [|fuel IH]; intros k lo Hlo Hk; cbn [tail_loop]; [rewrite take_0; cbn; lia|].
  destruct (Nat.ltb_spec (b + k) (length src)) as [Hlt|Hge]; [|rewrite (drop_ge src) by lia; rewrite take_nil; cbn; lia].
  destruct (lookup_lt_is_Some_2 src (b + k) Hlt) as [x Hx].
  assert (is_byte x) as Hxb by (by eapply Forall_lookup_1).
  rewrite (nth_lookup_Some _ _ _ _ Hx), (drop_S src x) by done. cbn [take]. rewrite le_int_cons by done.
  unfold is_byte in Hxb. pose proof (pow2_pos (8 * Z.of_nat k) ltac:(lia)).
  assert (0 <= x * 2 ^ (8 * Z.of_nat k) < 2 ^ 64).
  { split; [nia|]. assert (256 * 2 ^ (8 * Z.of_nat k) <= 2 ^ 64).
    { rewrite <- pow2_8S. apply Z.pow_le_mono_r; lia. } nia. }
  assert (Z.lor lo (u64 (Z.shiftl x (8 * Z.of_nat k))) = x * 2 ^ (8 * Z.of_nat k) + lo) as ->.
  { unfold u64. rewrite Z.mod_small by (rewrite Z.shiftl_mul_pow2 by lia; done). rewrite Z.lor_comm. apply lor_shiftl_add; lia. }
  rewrite IH by (rewrite ?pow2_8S; (nia || lia)).
  rewrite pow2_8S. replace (b + S k)%nat with (S (b + k)) by lia. ring.
Qed.

(** An unaligned word with its ninth byte. *)
Lemma word_nine X s :
  0 <= X -> 0 <= s < 8 ->
  Z.lor (Z.shiftr (X mod 2 ^ 64) s) (u64 (Z.shiftl ((X / 2 ^ 64) mod 2 ^ 8) (64 - s))) = (X / 2 ^ s) mod 2 ^ 64.
Proof.
  intros HX Hs. unfold u64. rewrite <- !Z.shiftr_div_pow2 by lia. apply Z.bits_inj'. intros k Hk.
  rewrite Z.lor_spec, Z.shiftr_spec by lia. destruct (Z.lt_ge_cases k 64).
  - rewrite (Z.mod_pow2_bits_low (Z.shiftl _ _)), (Z.mod_pow2_bits_low (Z.shiftr X s)), (Z.shiftr_spec X s) by lia.
    destruct (Z.lt_ge_cases (k + s) 64).
    + rewrite Z.mod_pow2_bits_low, Z.shiftl_spec_low, orb_false_r by lia. done.
    + rewrite Z.mod_pow2_bits_high, Z.shiftl_spec_high, Z.mod_pow2_bits_low, Z.shiftr_spec by lia. cbn [orb]. f_equal. lia.
  - rewrite !Z.mod_pow2_bits_high by lia. done.
Qed.

Lemma shiftr_mod_low X s w : 0 <= X -> 0 <= s -> 0 <= w -> s + w <= 64 \/ X < 2 ^ 64 ->
  (Z.shiftr (X mod 2 ^ 64) s) mod 2 ^ w = (X / 2 ^ s) mod 2 ^ w.
Proof.
  intros HX Hs Hw [Hsw|Hlt]; [|by rewrite (Z.mod_small X), Z.shiftr_div_pow2 by lia].
  rewrite <- Z.shiftr_div_pow2 by lia. apply Z.bits_inj'. intros k Hk. destruct (Z.lt_ge_cases k w).
  - rewrite !(Z.mod_pow2_bits_low _ w), !Z.shiftr_spec, Z.mod_pow2_bits_low by lia. done.
  - by rewrite !Z.mod_pow2_bits_high by lia.
Qed.

Lemma mod_pow2_twice X w : 0 <= w <= 64 -> (X mod 2 ^ 64) mod 2 ^ w = X mod 2 ^ w.
Proof.
  intros Hw. apply Z.bits_inj'. intros k Hk. destruct (Z.lt_ge_cases k w).
  - by rewrite !Z.mod_pow2_bits_low by lia.
  - by rewrite !(Z.mod_pow2_bits_high _ w) by lia.
Qed.

Lemma unpackAt_spec src i w :
  Forall is_byte src -> 0 <= w <= 64 -> 0 <= i -> i * w < 2 ^ 64 -> unpackAt src i w = (le_int src / 2 ^ (i * w)) mod 2 ^ w.
Proof.
  intros Hsrc Hw Hi Hiw. unfold unpackAt. destruct (Z.eqb_spec w 0) as [->|Hne]; [by rewrite Z.pow_0_r, Z.mod_1_r|].
  assert (0 <= i * w) as Hb0 by nia. unfold u64. rewrite (Z.mod_small (i * w)) by lia.
  set (bit := i * w) in *. clearbody bit. rewrite Z.shiftr_div_pow2 by lia. change (2 ^ 3) with 8.
  change 7 with (Z.ones 3). rewrite Z.land_ones by lia. change (2 ^ 3) with 8.
  pose proof (Z.mod_pos_bound bit 8 ltac:(lia)) as Hs. pose proof (Z.div_mod bit 8 ltac:(lia)) as Hbit.
  pose proof (Z.div_pos bit 8 ltac:(lia) ltac:(lia)) as Hbp.
  set (s := bit mod 8) in *. set (b := Z.to_nat (bit / 8)). assert (Z.of_nat b = bit / 8) as Hb by lia.
  set (X := le_int src / 2 ^ (8 * Z.of_nat b)).
  pose proof (le_int_range src Hsrc) as Hr. pose proof (pow2_pos (8 * Z.of_nat b) ltac:(lia)) as Hpb.
  assert (0 <= X) as HX by (apply Z.div_pos; lia).
  assert ((if (b + 8 <=? length src)%nat then le_uint64 (drop b src) else tail_loop 8 src b 0 0) = X mod 2 ^ 64) as ->.
  { transitivity (le_int (take 8 (drop b src))); [destruct (_ <=? _)%nat; [done|]|].
    - rewrite tail_loop_spec by (done || cbn; lia). rewrite Nat.add_0_r. change (2 ^ (8 * Z.of_nat 0)) with 1. lia.
    - by rewrite le_int_take, le_int_drop by (done || by apply Forall_drop). }
  assert (le_int src / 2 ^ bit = X / 2 ^ s) as ->.
  { unfold X. rewrite Z.div_div by (try apply pow2_pos; lia). rewrite <- Z.pow_add_r by lia. do 2 f_equal. lia. }
  assert (0 <= X mod 2 ^ 64 < 2 ^ 64) as Hlo by (apply Z.mod_pos_bound; lia).
  destruct (_ && _) eqn:E.
  - change (Z.ones 3) with 7. rewrite (le_int_nth (b + 8) src Hsrc).
    replace (le_int src / 2 ^ (8 * Z.of_nat (b + 8))) with (X / 2 ^ 64).
    2: { unfold X. rewrite Z.div_div by lia. rewrite <- Z.pow_add_r by lia. do 2 f_equal. lia. }
    change 256 with (2 ^ 8). fold (u64 (Z.shiftl ((X / 2 ^ 64) mod 2 ^ 8) (64 - s))). rewrite word_nine by lia.
    rewrite mask_width_mod by (done || apply Z.mod_pos_bound; lia). by apply mod_pow2_twice.
  - rewrite mask_width_mod; [|lia|].
    + apply shiftr_mod_low; [lia..|]. apply andb_false_iff in E as [E|E]; [left; lia|right].
      apply Nat.ltb_ge in E. unfold X. apply Z.div_lt_upper_bound; [lia|]. rewrite <- Z.pow_add_r by lia.
      eapply Z.lt_le_trans; [apply Hr|]. apply Z.pow_le_mono_r; lia.
    + rewrite Z.shiftr_div_pow2 by lia. pose proof (pow2_pos s ltac:(lia)). split; [apply Z.div_pos; lia|]. apply Z.div_lt_upper_bound; [lia|]. nia.
Qed.

(** ** Round trip *)

Lemma pack_value_at w vals i v :
  0 <= w -> vals !! i = Some v -> (pack_value w vals / 2 ^ (Z.of_nat i * w)) mod 2 ^ w = v mod 2 ^ w.
Proof.
  intros Hw. pose proof (pow2_pos w Hw) as Hp. revert i. induction vals as [|x vals IH]; intros [|i] Hv; cbn in Hv; try done; cbn [pack_value].
  - injection Hv as <-. rewrite Z.mul_0_l, Z.pow_0_r, Z.div_1_r, (Z.mul_comm (2 ^ w)), Z.mod_add, Z.mod_mod by lia. done.
  - replace (Z.of_nat (S i) * w) with (w + Z.of_nat i * w) by lia. rewrite Z.pow_add_r, <- Z.div_div by (try apply pow2_pos; nia).
    rewrite (Z.mul_comm (2 ^ w) (pack_value w vals)), Z.div_add, (Z.div_small (x mod 2 ^ w)) by (try apply Z.mod_pos_bound; lia). by apply IH.
Qed.

Lemma div_mod_low A R l k w : 0 <= w -> 0 <= k -> k + w <= l -> ((A + 2 ^ l * R) / 2 ^ k) mod 2 ^ w = (A / 2 ^ k) mod 2 ^ w.
Proof.
  intros Hw Hk Hl. replace l with (k + (w + (l - k - w))) by lia. rewrite !Z.pow_add_r by lia.
  pose proof (pow2_pos k Hk). pose proof (pow2_pos w Hw).
  replace (A + 2 ^ k * (2 ^ w * 2 ^ (l - k - w)) * R) with (A + (2 ^ (l - k - w) * R * 2 ^ w) * 2 ^ k) by ring.
  rewrite Z.div_add, Z.mod_add by lia. done.
Qed.

Lemma unpack_appended vals w i v rest :
  0 <= w <= 64 -> Forall (fun v => 0 <= v < 2 ^ 64) vals -> Forall is_byte rest ->
  Z.of_nat (length vals) * w < 2 ^ 64 -> vals !! i = Some v ->
  unpackAt (appendPacked [] vals w ++ rest) (Z.of_nat i) w = v mod 2 ^ w /\
  Z.of_nat (length (appendPacked [] vals w)) = packedLen (Z.of_nat (length vals)) w.
Proof.
  intros Hw Hv Hrest Hn Hi. destruct (appendPacked_spec vals w Hw Hv) as (Hb & Hl & Hval). split; [|done].
  pose proof (lookup_lt_Some _ _ _ Hi) as Hlt.
  rewrite unpackAt_spec by (nia || (by apply Forall_app) || lia).
  destruct (Z.eq_dec w 0) as [->|Hne]; [by rewrite !Z.pow_0_r, !Z.mod_1_r|].
  rewrite le_int_app, Hval, Hl by done. rewrite <- (pack_value_at w vals i v) by (done || lia).
  apply div_mod_low; [lia|nia|].
  unfold packedLen. pose proof (Z.div_mod (Z.of_nat (length vals) * w + 7) 8 ltac:(lia)).
  pose proof (Z.mod_pos_bound (Z.of_nat (length vals) * w + 7) 8 ltac:(lia)). nia.
Qed.

Lemma unpack_at_packed vals w i v :
  0 <= w <= 64 -> Forall (fun v => 0 <= v < 2 ^ 64) vals -> Z.of_nat (length vals) * w < 2 ^ 64 -> vals !! i = Some v ->
  unpackAt (appendPacked [] vals w) (Z.of_nat i) w = v mod 2 ^ w /\
  Z.of_nat (length (appendPacked [] vals w)) = packedLen (Z.of_nat (length vals)) w.
Proof. intros. rewrite <- (app_nil_r (appendPacked [] vals w)) at 1. by apply unpack_appended. Qed.

(** Bit packing round-trips at every width: reading value [i] of the packed
    area, at whatever byte and bit it falls and whatever follows it, gives the
    value packed (its low [w] bits), and the area has the length the format
    computes. *)
Theorem unpack_packed vals w i v rest :
  0 <= w <= 64 -> Forall (fun v => 0 <= v < 2 ^ 64) vals -> Forall is_byte rest ->
  Z.of_nat (length vals) * w < 2 ^ 64 -> vals !! i = Some v ->
  unpackAt (appendPacked [] vals w ++ rest) (Z.of_nat i) w = v mod 2 ^ w /\
  Z.of_nat (length (appendPacked [] vals w)) = packedLen (Z.of_nat (length vals)) w.
Proof. apply unpack_appended. Qed.

Lemma unpack_packed_witness :
  unpackAt (appendPacked [] [5; 2 ^ 62 + 1; 1000; 3] 63 ++ [255; 255]) 1 63 = (2 ^ 62 + 1) mod 2 ^ 63 /\
  Z.of_nat (length (appendPacked [] [5; 2 ^ 62 + 1; 1000; 3] 63)) = packedLen 4 63.
Proof.
  apply (unpack_packed [5; 2 ^ 62 + 1; 1000; 3] 63 1 (2 ^ 62 + 1) [255; 255]); [lia| | |cbn; lia|reflexivity].
  - forall_literal ltac:(lia).
  - forall_literal ltac:(unfold is_byte; lia).
Defined.
