(* ===== verification/IntCol.v ===== *)
(** * Integer columns (pkg/graph/internal/segment/intcol.go)

    An int column is a header, a page directory and pages; a page keeps the
    offsets of its transformed values from their minimum, bit-packed.  The
    encoder tries every allowed transform and keeps the smallest page; all
    arithmetic wraps, so every int64 sequence round-trips.  The parser checks
    every length first, so that a later read stays in range. *)

From S2P Require Import Prelude BitPack.

Definition transformNone : Z := 0.
Definition transformMinusRef : Z := 1.
Definition transformDeltaPrev : Z := 2.
Definition transformDeltaRun : Z := 3.

Definition intColHeader : nat := 4 + 2 + 4.
Definition pageHeaderMin : nat := 1 + 1 + 8.

(** [allow]: the bitmask of the transforms. *)
Definition allow (ts : list Z) : Z := fold_left (fun m t => Z.lor m (Z.shiftl 1 t)) ts 0.

Definition allows (allowed t : Z) : bool := negb (Z.land allowed (Z.shiftl 1 t) =? 0).

Record intEncodeCtx := mkIntCtx {
  ic_ref : list Z;
  ic_runStart : nat -> bool;
  ic_allowed : Z;
}.

(** ** Encoding *)

(** The value of an int64 array at an index the code keeps in range. *)
Notation "l .[ k ]" := (nth k l 0) (at level 2, k at level 200, format "l .[ k ]") : tkg_scope.
#[local] Open Scope tkg_scope.

(** The transformed page; the page's first value is [v.[0]]. *)
Definition applyTransform (t : Z) (v : list Z) (lo : nat) (ctx : intEncodeCtx) : list Z :=
  if t =? transformMinusRef then map (fun k => v.[k] -i64 (ic_ref ctx).[(lo + k)]) (seq 0 (length v))
  else if t =? transformDeltaPrev then
    map (fun k => if (k =? 0)%nat then 0 else v.[k] -i64 v.[(k - 1)]) (seq 0 (length v))
  else if t =? transformDeltaRun then
    map (fun k => if (k =? 0)%nat || ic_runStart ctx (lo + k) then v.[k] else v.[k] -i64 v.[(k - 1)]) (seq 0 (length v))
  else v.

(** A candidate page: the transform, its values, their minimum and width. *)
Record pageChoice := mkChoice {
  pc_t : Z;
  pc_w : Z;
  pc_size : Z;
  pc_base : Z;
  pc_d : list Z;
}.

Definition try_transform (v : list Z) (lo : nat) (ctx : intEncodeCtx) (t : Z) : pageChoice :=
  let d := applyTransform t v lo ctx in
  let mn := fold_left Z.min (tail d) d.[0] in
  let mx := fold_left (fun m x => Z.max m (u64 (u64 x - u64 mn))) d 0 in
  let w := bitWidth mx in
  let size := Z.of_nat pageHeaderMin + packedLen (Z.of_nat (length v)) w in
  let size := if t =? transformDeltaPrev then size + 8 else size in
  mkChoice t w size mn d.

(** The loop over the transforms: the first of the smallest pages. *)
Definition best_transform (v : list Z) (lo : nat) (ctx : intEncodeCtx) : option pageChoice :=
  fold_left (fun best t =>
    if allows (ic_allowed ctx) t then
      let c := try_transform v lo ctx t in
      match best with
      | Some b => if pc_size c <? pc_size b then Some c else best
      | None => Some c
      end
    else best) [0; 1; 2; 3; 4; 5; 6; 7] None.

(** One page.  With no transform allowed the source writes the zero choice. *)
Definition encode_page (v : list Z) (lo : nat) (ctx : intEncodeCtx) : bytes :=
  let c := match best_transform v lo ctx with Some c => c | None => mkChoice 0 0 (-1) 0 v end in
  [pc_t c; pc_w c] ++ le_bytes 8 (u64 (pc_base c)) ++
  (if pc_t c =? transformDeltaPrev then le_bytes 8 (u64 v.[0]) else []) ++
  appendPacked [] (map (fun x => u64 (u64 x - u64 (pc_base c))) (pc_d c)) (pc_w c).

(** [vals[lo:hi]] of page [p]. *)
Definition page_vals (vals : list Z) (pageRows p : nat) : list Z := take pageRows (drop (p * pageRows) vals).

Definition page_count (n pageRows : nat) : nat := (n + pageRows - 1) / pageRows.

Definition encode_pages (vals : list Z) (pageRows : nat) (ctx : intEncodeCtx) : list bytes :=
  map (fun p => encode_page (page_vals vals pageRows p) (p * pageRows) ctx) (seq 0 (page_count (length vals) pageRows)).

(** The page directory: where each page starts, and where the last one ends. *)
Definition page_offsets (pages : list bytes) : list nat :=
  map (fun p => length (concat (take p pages))) (seq 0 (S (length pages))).

Definition encodeIntCol (vals : list Z) (pageRows : nat) (ctx : intEncodeCtx) : bytes :=
  let pages := encode_pages vals pageRows ctx in
  le_bytes 4 (Z.of_nat (length vals)) ++ le_bytes 2 (Z.of_nat pageRows) ++
  le_bytes 4 (Z.of_nat (page_count (length vals) pageRows)) ++
  concat (map (fun o => le_bytes 4 (Z.of_nat o)) (page_offsets pages)) ++ concat pages.

(** ** Parsing *)

(** [CorruptError]: the section and the reason. *)
Record CorruptError := corrupt { ce_section : string; ce_reason : string }.

Record intCol := mkIntCol {
  c_name : string;
  c_present : bool;
  c_n : Z;
  c_pageRows : Z;
  c_pageCount : Z;
  c_offs : bytes;
  c_pages : bytes;
}.

(** The zero value: an absent column. *)
Definition absentCol : intCol := mkIntCol "" false 0 0 0 [] [].

(** [b[lo:hi]] *)
Definition slice (b : bytes) (lo hi : Z) : bytes := take (Z.to_nat (hi - lo)) (drop (Z.to_nat lo) b).

Definition len (b : bytes) : Z := Z.of_nat (length b).

Definition pageBounds (c : intCol) (p : Z) : Z * Z :=
  (le_uint32 (drop (Z.to_nat (4 * p)) (c_offs c)), le_uint32 (drop (Z.to_nat (4 * p + 4)) (c_offs c))).

Definition pageLen (c : intCol) (p : Z) : Z :=
  if p =? c_pageCount c - 1 then c_n c - p * c_pageRows c else c_pageRows c.

(** The body of the loop over the pages. *)
Definition check_page (c : intCol) (allowed p : Z) : option CorruptError :=
  let '(lo, hi) := pageBounds c p in
  if (hi <? lo) || (hi >? len (c_pages c)) then Some (corrupt (c_name c) "page offsets out of order")
  else
    let pg := slice (c_pages c) lo hi in
    if len pg <? Z.of_nat pageHeaderMin then Some (corrupt (c_name c) "page header truncated")
    else
      let t := pg.[0] in let w := pg.[1] in
      if (t >? 7) || negb (allows allowed t) then Some (corrupt (c_name c) "page transform not allowed")
      else if w >? 64 then Some (corrupt (c_name c) "page width")
      else
        let hdr := if t =? transformDeltaPrev then Z.of_nat pageHeaderMin + 8 else Z.of_nat pageHeaderMin in
        if negb (len pg =? hdr + packedLen (pageLen c p) w) then Some (corrupt (c_name c) "page length")
        else None.

Fixpoint check_pages (c : intCol) (allowed : Z) (ps : list nat) : option CorruptError :=
  match ps with
  | [] => None
  | p :: ps' => match check_page c allowed (Z.of_nat p) with Some e => Some e | None => check_pages c allowed ps' end
  end.

Definition parseIntCol (name : string) (b : bytes) (want pageRows allowed : Z) : intCol + CorruptError :=
  if len b <? Z.of_nat intColHeader then inr (corrupt name "int column header truncated")
  else
    let n := le_uint32 b in
    let pr := le_uint16 (drop 4 b) in
    let pc := le_uint32 (drop 6 b) in
    if (want >=? 0) && negb (n =? want) then inr (corrupt name "value count")
    else if negb (pr =? pageRows) then inr (corrupt name "page size")
    else if negb (pc =? (n + pageRows - 1) / pageRows) then inr (corrupt name "page count")
    else if (len b - Z.of_nat intColHeader) / 4 <? pc + 1 then inr (corrupt name "page directory truncated")
    else
      let dir := Z.of_nat intColHeader + 4 * (pc + 1) in
      let c := mkIntCol name true n pageRows pc (slice b (Z.of_nat intColHeader) dir) (drop (Z.to_nat dir) b) in
      if negb (le_uint32 (c_offs c) =? 0) || negb (le_uint32 (drop (Z.to_nat (4 * pc)) (c_offs c)) =? len (c_pages c))
      then inr (corrupt name "page directory does not span the pages")
      else match check_pages c allowed (seq 0 (Z.to_nat pc)) with
           | Some e => inr e
           | None => inl c
           end.

(** ** Reading *)

Record pageView := mkView {
  v_transform : Z;
  v_width : Z;
  v_base : Z;
  v_first : Z;
  v_packed : bytes;
  v_n : Z;
}.

(** The view of a page's bytes that hold [n] values. *)
Definition view_of (pg : bytes) (n : Z) : pageView :=
  let t := pg.[0] in
  let rest := drop pageHeaderMin pg in
  let prev := t =? transformDeltaPrev in
  mkView t pg.[1] (i64 (le_uint64 (drop 2 pg))) (if prev then i64 (le_uint64 rest) else 0)
    (if prev then drop 8 rest else rest) n.

Definition page (c : intCol) (p : Z) : pageView :=
  let '(lo, hi) := pageBounds c p in view_of (slice (c_pages c) lo hi) (pageLen c p).

(** The stored value [k] of a page. *)
Definition view_d (v : pageView) (k : nat) : Z := u64 (v_base v) +i64 unpackAt (v_packed v) (Z.of_nat k) (v_width v).

(** The running sums of [decodePage] and [atNoRef]: [cnt] values from row [k] on,
    after the value [prev]. *)
Fixpoint delta_scan (v : pageView) (runStart : nat -> bool) (k cnt : nat) (prev : Z) : list Z :=
  match cnt with
  | O => []
  | S cnt' =>
      let x := if runStart k then view_d v k else prev +i64 view_d v k in
      x :: delta_scan v runStart (S k) cnt' x
  end.

(** The switch of [decodePage] over the page's transform. *)
Definition decode_view (v : pageView) (ref : list Z) (runStart : nat -> bool) : list Z :=
  let cnt := Z.to_nat (v_n v) in
  if v_transform v =? transformMinusRef then map (fun k => view_d v k +i64 ref.[k]) (seq 0 cnt)
  else if v_transform v =? transformDeltaPrev then v_first v :: delta_scan v (fun _ => false) 1 (cnt - 1) (v_first v)
  else if v_transform v =? transformDeltaRun then delta_scan v (fun k => (k =? 0)%nat || runStart k) 0 cnt 0
  else map (view_d v) (seq 0 cnt).

Definition decodePage (c : intCol) (p : Z) (n : nat) (ref : list Z) (runStart : nat -> bool) : list Z :=
  if negb (c_present c) then replicate n 0 else decode_view (page c p) ref runStart.

Definition atNoRef (c : intCol) (i : nat) : Z :=
  if negb (c_present c) then 0
  else
    let p := Z.of_nat i / c_pageRows c in
    let v := page c p in
    let k := Z.to_nat (Z.of_nat i - p * c_pageRows c) in
    if v_transform v =? transformDeltaPrev then
      fold_left (fun x j => x +i64 view_d v j) (seq 1 k) (v_first v)
    else view_d v k.

(** ** One page *)

Lemma fold_min_spec l a : fold_left Z.min l a ∈ a :: l /\ forall x, x ∈ a :: l -> fold_left Z.min l a <= x.
Proof.
  revert a. induction l as [|y l IH]; intros a; cbn [fold_left].
  { split; [left|]. intros x ->%list_elem_of_singleton. lia. }
  destruct (IH (Z.min a y)) as [Hin Hle]. split.
  - apply elem_of_cons in Hin as [->|Hin]; [|by right; right].
    destruct (Z.min_spec a y) as [[_ ->]|[_ ->]]; [left|right; left].
  - pose proof (Hle (Z.min a y) ltac:(left)). intros x [->|[->|Hx]%elem_of_cons]%elem_of_cons; [lia|lia|]. apply Hle. by right.
Qed.

Lemma fold_max_spec (f : Z -> Z) l m :
  m <= fold_left (fun m x => Z.max m (f x)) l m /\
  (forall x, x ∈ l -> f x <= fold_left (fun m x => Z.max m (f x)) l m) /\
  (fold_left (fun m x => Z.max m (f x)) l m = m \/ exists x, x ∈ l /\ fold_left (fun m x => Z.max m (f x)) l m = f x).
Proof.
  revert m. induction l as [|y l IH]; intros m; cbn [fold_left].
  { split_and!; [lia|intros x Hx; by apply not_elem_of_nil in Hx|by left]. }
  destruct (IH (Z.max m (f y))) as (H1 & H2 & H3). split_and!; [lia| |].
  - intros x [->|Hx]%elem_of_cons; [lia|by apply H2].
  - destruct H3 as [->|(x & Hx & ->)]; [|right; exists x; split; [by right|done]].
    destruct (Z.max_spec m (f y)) as [[_ ->]|[_ ->]]; [right; exists y; split; [left|done]|by left].
Qed.

Lemma bitWidth_spec m : 0 <= m < 2 ^ 64 -> 0 <= bitWidth m <= 64 /\ m < 2 ^ bitWidth m.
Proof.
  intros Hm. unfold bitWidth. destruct (Z.eqb_spec m 0) as [->|Hne]; [split; [lia|done]|].
  pose proof (Z.log2_spec m ltac:(lia)) as [_ Hlog]. rewrite Z.add_1_r. pose proof (Z.log2_nonneg m). split; [|done].
  assert (Z.log2 m < 64) by (apply Z.log2_lt_pow2; lia). lia.
Qed.

Lemma i64_sub_add x y : in_i64 x -> i64 (y + i64 (x - y)) = x.
Proof. intros Hx. rewrite i64_add_r. replace (y + (x - y)) with x by lia. by apply i64_id. Qed.

Lemma u64_sub x y : u64 (u64 x - u64 y) = u64 (x - y).
Proof. unfold u64. by rewrite <- Zminus_mod. Qed.

Lemma length_applyTransform t v lo ctx : length (applyTransform t v lo ctx) = length v.
Proof. unfold applyTransform. repeat case_match; by rewrite ?length_map, ?length_seq. Qed.

Lemma applyTransform_i64 t v lo ctx : Forall in_i64 v -> Forall in_i64 (applyTransform t v lo ctx).
Proof.
  intros Hv. unfold applyTransform.
  assert (forall k, in_i64 v.[k]) as Hk.
  { intros k. destruct (nth_in_or_default k v 0) as [Hin| ->]; [|unfold in_i64, MinInt64, MaxInt64; lia].
    rewrite Forall_forall in Hv. by apply Hv, list_elem_of_In. }
  assert (in_i64 0) by (unfold in_i64, MinInt64, MaxInt64; lia).
  repeat case_match; try done; apply Forall_forall; intros x Hx; apply list_elem_of_In, in_map_iff in Hx as (k & <- & _);
    repeat case_match; auto with tkg.
Qed.

(** A candidate's width holds every offset from its minimum. *)
Lemma try_transform_spec v lo ctx t :
  v <> [] -> Forall in_i64 v ->
  let c := try_transform v lo ctx t in
  0 <= pc_w c <= 64 /\ in_i64 (pc_base c) /\ forall x, x ∈ pc_d c -> in_i64 x /\ 0 <= x - pc_base c < 2 ^ pc_w c.
Proof.
  intros Hne Hv. unfold try_transform. set (d := applyTransform t v lo ctx). cbn [pc_w pc_base pc_d].
  pose proof (applyTransform_i64 t v lo ctx Hv) as Hd. fold d in Hd. rewrite Forall_forall in Hd.
  assert (d.[0] :: tail d = d) as Hcons.
  { pose proof (length_applyTransform t v lo ctx) as Hl. fold d in Hl. destruct d; [by destruct v|done]. }
  destruct (fold_min_spec (tail d) d.[0]) as [Hin Hle]. rewrite Hcons in Hin, Hle. set (mn := fold_left Z.min _ _) in *.
  pose proof (Hd mn Hin) as Hmn. clearbody mn. unfold in_i64, MinInt64, MaxInt64 in *.
  assert (forall x, x ∈ d -> u64 (u64 x - u64 mn) = x - mn) as Hu.
  { intros x Hx. rewrite u64_sub. unfold u64. apply Z.mod_small. specialize (Hd x Hx). specialize (Hle x Hx). lia. }
  destruct (fold_max_spec (fun x => u64 (u64 x - u64 mn)) d 0) as (H1 & H2 & H3). set (mx := fold_left _ d 0) in *.
  assert (0 <= mx < 2 ^ 64) as Hmx by (destruct H3 as [->|(x & Hx & ->)]; [lia|apply u64_range]).
  destruct (bitWidth_spec mx Hmx) as [Hw Hlt]. split_and!; try done; [lia..|].
  intros x Hx. specialize (H2 x Hx). rewrite Hu in H2 by done. specialize (Hd x Hx). specialize (Hle x Hx). lia.
Qed.

(** The page written is one of the candidates of an allowed transform. *)
Lemma best_transform_spec v lo ctx t :
  0 <= t <= 7 -> allows (ic_allowed ctx) t = true ->
  exists t', 0 <= t' <= 7 /\ allows (ic_allowed ctx) t' = true /\ best_transform v lo ctx = Some (try_transform v lo ctx t').
Proof.
  intros Ht Ha. unfold best_transform. set (step := fun best t => _).
  assert (forall ts b, (forall t', t' ∈ ts -> 0 <= t' <= 7) ->
    (forall c, b = Some c -> exists t', 0 <= t' <= 7 /\ allows (ic_allowed ctx) t' = true /\ c = try_transform v lo ctx t') ->
    is_Some b \/ t ∈ ts ->
    exists t', 0 <= t' <= 7 /\ allows (ic_allowed ctx) t' = true /\ fold_left step ts b = Some (try_transform v lo ctx t')) as Hgen.
  { induction ts as [|x ts IH]; intros b Hts Hb Hor; cbn [fold_left].
    - destruct Hor as [[c Hc]|Hin]; [|by apply not_elem_of_nil in Hin]. destruct (Hb c Hc) as (t' & ? & ? & ->). by exists t'.
    - assert (forall t', t' ∈ ts -> 0 <= t' <= 7) as Hts' by (intros; apply Hts; by right).
      pose proof (Hts x ltac:(left)) as Hx. unfold step at 2. destruct (allows (ic_allowed ctx) x) eqn:Ex.
      + apply IH; [done| |left; destruct b as [c|]; [destruct (_ <? _)|]; by eexists].
        intros c. destruct b as [c0|]; [destruct (_ <? _)|]; intros [= <-]; [by exists x|by apply Hb|by exists x].
      + apply IH; [done|done|]. destruct Hor as [?|[->|?]%elem_of_cons]; [by left|congruence|by right]. }
  apply (Hgen [0; 1; 2; 3; 4; 5; 6; 7] None).
  - intros t' Ht'. repeat (apply elem_of_cons in Ht' as [->|Ht']; [lia|]). by apply not_elem_of_nil in Ht'.
  - done.
  - right. assert (t = 0 \/ t = 1 \/ t = 2 \/ t = 3 \/ t = 4 \/ t = 5 \/ t = 6 \/ t = 7) as Hc by lia.
    repeat (destruct Hc as [->|Hc]; [set_solver|]). subst. set_solver.
Qed.

(** The bytes of a page. *)
Definition page_bytes (c : pageChoice) (v : list Z) : bytes :=
  [pc_t c; pc_w c] ++ le_bytes 8 (u64 (pc_base c)) ++
  (if pc_t c =? transformDeltaPrev then le_bytes 8 (u64 v.[0]) else []) ++
  appendPacked [] (map (fun x => u64 (u64 x - u64 (pc_base c))) (pc_d c)) (pc_w c).

Lemma encode_page_choice v lo ctx t :
  0 <= t <= 7 -> allows (ic_allowed ctx) t = true ->
  exists t', 0 <= t' <= 7 /\ allows (ic_allowed ctx) t' = true /\
    encode_page v lo ctx = page_bytes (try_transform v lo ctx t') v.
Proof.
  intros Ht Ha. destruct (best_transform_spec v lo ctx t Ht Ha) as (t' & ? & ? & Hb). exists t'. split_and!; [lia..|done|].
  unfold encode_page. by rewrite Hb.
Qed.

Lemma i64_le8 z : in_i64 z -> i64 (le_int (le_bytes 8 (u64 z))) = z.
Proof.
  intros Hz. rewrite le_int_bytes. change (2 ^ (8 * Z.of_nat 8)) with (2 ^ 64). unfold u64. rewrite Z.mod_mod by lia.
  fold (u64 z). rewrite i64_u64. by apply i64_id.
Qed.

(** The view of a page's bytes is the choice that was written. *)
Lemma view_page_bytes v lo ctx t n :
  v <> [] -> Forall in_i64 v ->
  let c := try_transform v lo ctx t in
  view_of (page_bytes c v) n =
    mkView t (pc_w c) (pc_base c) (if t =? transformDeltaPrev then v.[0] else 0)
      (appendPacked [] (map (fun x => u64 (u64 x - u64 (pc_base c))) (pc_d c)) (pc_w c)) n.
Proof.
  intros Hne Hv c. destruct (try_transform_spec v lo ctx t Hne Hv) as (_ & Hb & _). fold c in Hb.
  assert (pc_t c = t) as Et by done. unfold page_bytes. rewrite Et. set (packed := appendPacked _ _ _). clearbody packed.
  assert (in_i64 v.[0]) as Hv0 by (destruct v; [done|]; by apply Forall_cons in Hv as [? _]).
  unfold view_of. cbn [app nth drop]. f_equal.
  - rewrite drop_0. unfold le_uint64. rewrite take_app_length' by (by rewrite length_le_bytes). by apply i64_le8.
  - change (drop pageHeaderMin (?a :: ?b :: ?l)) with (drop 8 l). rewrite drop_app_length' by (by rewrite length_le_bytes).
    destruct (t =? transformDeltaPrev); [|done]. unfold le_uint64. rewrite take_app_length' by (by rewrite length_le_bytes). by apply i64_le8.
  - change (drop pageHeaderMin (?a :: ?b :: ?l)) with (drop 8 l). rewrite drop_app_length' by (by rewrite length_le_bytes).
    destruct (t =? transformDeltaPrev); [|done]. by rewrite drop_app_length' by (by rewrite length_le_bytes).
Qed.

Lemma u64_offsets (d : list Z) base : Forall (fun v => 0 <= v < 2 ^ 64) (map (fun x => u64 (u64 x - u64 base)) d).
Proof. apply Forall_forall. intros y Hy. apply list_elem_of_In, in_map_iff in Hy as (x & <- & _). apply u64_range. Qed.

Lemma view_d_page_bytes v lo ctx t n k :
  v <> [] -> Forall in_i64 v -> Z.of_nat (length v) <= 4096 -> (k < length v)%nat ->
  view_d (view_of (page_bytes (try_transform v lo ctx t) v) n) k = (applyTransform t v lo ctx).[k].
Proof.
  intros Hne Hv Hlen Hk. rewrite view_page_bytes by done. destruct (try_transform_spec v lo ctx t Hne Hv) as (Hw & Hb & Hd).
  change (applyTransform t v lo ctx) with (pc_d (try_transform v lo ctx t)).
  pose proof (length_applyTransform t v lo ctx) as Hl. change (applyTransform t v lo ctx) with (pc_d (try_transform v lo ctx t)) in Hl.
  set (c := try_transform v lo ctx t) in *. clearbody c. unfold view_d. cbn [v_base v_packed v_width].
  destruct (lookup_lt_is_Some_2 (pc_d c) k ltac:(lia)) as [x Hx]. rewrite (nth_lookup_Some _ _ _ _ Hx).
  destruct (Hd x) as [Hxi Hxr]; [by eapply list_elem_of_lookup_2|].
  destruct (unpack_at_packed (map (fun x => u64 (u64 x - u64 (pc_base c))) (pc_d c)) (pc_w c) k (u64 (u64 x - u64 (pc_base c)))) as [-> _];
    [done|apply u64_offsets|rewrite length_map, Hl; nia|by rewrite list_lookup_fmap, Hx|].
  rewrite u64_sub. unfold in_i64, MinInt64, MaxInt64 in *.
  assert (2 ^ pc_w c <= 2 ^ 64) by (apply Z.pow_le_mono_r; lia).
  assert (u64 (x - pc_base c) = x - pc_base c) as -> by (unfold u64; apply Z.mod_small; lia).
  rewrite Z.mod_small by lia. rewrite <- i64_u64. unfold u64. rewrite Zplus_mod_idemp_l. fold (u64 (pc_base c + (x - pc_base c))).
  rewrite i64_u64. replace (pc_base c + (x - pc_base c)) with x by lia. apply i64_id. unfold in_i64, MinInt64, MaxInt64. lia.
Qed.

(** The running sum undoes the differences. *)
Lemma delta_scan_spec vw (rs : nat -> bool) (v : list Z) k cnt prev :
  Forall in_i64 v -> (k + cnt <= length v)%nat ->
  (forall j, (k <= j < k + cnt)%nat -> view_d vw j = if rs j then v.[j] else i64 (v.[j] - v.[(j - 1)])) ->
  (cnt = 0%nat \/ rs k = true \/ prev = v.[(k - 1)]) ->
  delta_scan vw rs k cnt prev = map (fun j => v.[j]) (seq k cnt).
Proof.
  intros Hv. revert k prev. induction cnt as [|cnt IH]; intros k prev Hk Hd Hp; cbn [delta_scan seq map]; [done|].
  assert ((if rs k then view_d vw k else prev +i64 view_d vw k) = v.[k]) as ->.
  { rewrite Hd by lia. destruct (rs k); [done|]. destruct Hp as [?|[?| ->]]; [lia|done|].
    apply i64_sub_add. rewrite Forall_forall in Hv. apply Hv, list_elem_of_In, nth_In. lia. }
  f_equal. apply IH; [lia| |right; right; f_equal; lia]. intros j Hj. apply Hd. lia.
Qed.

Lemma map_nth_seq (v : list Z) : map (fun j => v.[j]) (seq 0 (length v)) = v.
Proof.
  apply list_eq. intros i. rewrite list_lookup_fmap. destruct (Nat.lt_ge_cases i (length v)) as [Hi|Hi].
  - rewrite lookup_seq_lt by done. cbn. destruct (lookup_lt_is_Some_2 v i Hi) as [x Hx]. by rewrite (nth_lookup_Some _ _ _ _ Hx), Hx.
  - rewrite lookup_seq_ge by done. cbn. symmetry. by apply lookup_ge_None.
Qed.

Lemma nth_map_seq (f : nat -> Z) n k : (k < n)%nat -> (map f (seq 0 n)).[k] = f k.
Proof. intros Hk. apply nth_lookup_Some. rewrite list_lookup_fmap, lookup_seq_lt by done. done. Qed.

(** Decoding the bytes of a page gives its values, whichever transform was
    chosen. *)
Lemma decode_page_bytes v lo ctx t ref :
  v <> [] -> Forall in_i64 v -> Z.of_nat (length v) <= 4096 ->
  (forall k, (k < length v)%nat -> ref.[k] = (ic_ref ctx).[(lo + k)]) ->
  decode_view (view_of (page_bytes (try_transform v lo ctx t) v) (Z.of_nat (length v))) ref (fun k => ic_runStart ctx (lo + k)) = v.
Proof.
  intros Hne Hv Hlen Href.
  pose proof (fun k => view_d_page_bytes v lo ctx t (Z.of_nat (length v)) k Hne Hv Hlen) as Hd.
  rewrite view_page_bytes in * by done. set (vw := mkView _ _ _ _ _ _) in *.
  unfold decode_view. change (v_transform vw) with t. change (v_n vw) with (Z.of_nat (length v)). rewrite Nat2Z.id.
  change (v_first vw) with (if t =? transformDeltaPrev then v.[0] else 0). clearbody vw. unfold applyTransform in Hd.
  assert (forall k, (k < length v)%nat -> in_i64 v.[k]) as Hk
    by (intros k ?; rewrite Forall_forall in Hv; apply Hv, list_elem_of_In, nth_In; lia).
  destruct (t =? transformMinusRef).
  { rewrite <- (map_nth_seq v) at 2. apply map_ext_in. intros k Hin%in_seq. rewrite Hd, nth_map_seq, Href, Z.add_comm by lia.
    apply i64_sub_add, Hk. lia. }
  destruct (t =? transformDeltaPrev).
  { destruct v as [|v0 v]; [done|]. transitivity (map (fun j => (v0 :: v).[j]) (seq 0 (length (v0 :: v)))); [|apply map_nth_seq].
    cbn [length seq map]. f_equal.
    replace (S (length v) - 1)%nat with (length v) by lia. apply (delta_scan_spec vw (fun _ => false) (v0 :: v) 1); [done|cbn; lia| |by right; right].
    intros j Hj. rewrite Hd, nth_map_seq by (cbn; lia). by destruct j; [lia|]. }
  destruct (t =? transformDeltaRun).
  { rewrite (delta_scan_spec vw _ v 0); [apply map_nth_seq|done|lia| |by right; left].
    intros j Hj. by rewrite Hd, nth_map_seq by lia. }
  rewrite <- (map_nth_seq v) at 2. apply map_ext_in. intros k Hin%in_seq. apply Hd. lia.
Qed.

(** ** The column *)

Lemma length_page_bytes v lo ctx t :
  v <> [] -> Forall in_i64 v ->
  let c := try_transform v lo ctx t in
  Z.of_nat (length (page_bytes c v)) =
    (if t =? transformDeltaPrev then Z.of_nat pageHeaderMin + 8 else Z.of_nat pageHeaderMin) + packedLen (Z.of_nat (length v)) (pc_w c).
Proof.
  intros Hne Hv c. destruct (try_transform_spec v lo ctx t Hne Hv) as (Hw & _). unfold page_bytes. change (pc_t c) with t.
  rewrite !length_app, length_le_bytes.
  destruct (appendPacked_spec (map (fun x => u64 (u64 x - u64 (pc_base c))) (pc_d c)) (pc_w c) Hw (u64_offsets _ _)) as (_ & Hl & _).
  rewrite length_map in Hl. change (pc_d c) with (applyTransform t v lo ctx) in Hl at 2. rewrite length_applyTransform in Hl.
  destruct (t =? transformDeltaPrev); cbn [length]; rewrite ?length_le_bytes; change (Z.of_nat pageHeaderMin) with 10; lia.
Qed.

Section Pages.
Context (vals : list Z) (pageRows : nat) (ctx : intEncodeCtx) (t : Z).
Hypothesis Hrows : (1 <= pageRows <= 4096)%nat.
Hypothesis Hvals : Forall in_i64 vals.
Hypothesis Ht : 0 <= t <= 7.
Hypothesis Hallow : allows (ic_allowed ctx) t = true.

Let n := length vals.
Let pc := page_count n pageRows.

Lemma page_count_bounds p : (p < pc)%nat -> (p * pageRows < n)%nat /\ (n <= pc * pageRows)%nat /\ ((pc - 1) * pageRows < n)%nat.
Proof.
  intros Hp. subst pc. unfold page_count in *. set (q := ((n + pageRows - 1) / pageRows)%nat) in *.
  pose proof (Nat.div_mod_eq (n + pageRows - 1) pageRows) as Hd. fold q in Hd.
  pose proof (Nat.mod_upper_bound (n + pageRows - 1) pageRows ltac:(lia)) as Hm. set (m := ((n + pageRows - 1) mod pageRows)%nat) in *.
  clearbody q m. split_and!; nia.
Qed.

Lemma page_vals_ok p :
  (p < pc)%nat ->
  let v := page_vals vals pageRows p in
  v <> [] /\ Forall in_i64 v /\ Z.of_nat (length v) <= 4096 /\
  length v = if (p =? pc - 1)%nat then (n - p * pageRows)%nat else pageRows.
Proof.
  intros Hp v. destruct (page_count_bounds p Hp) as (H1 & H2 & H3).
  assert (length v = Nat.min pageRows (n - p * pageRows)) as Hl by (subst v; unfold page_vals; by rewrite length_take, length_drop).
  split_and!; [intros E; rewrite E in Hl; cbn in Hl; lia| |lia|].
  - subst v. unfold page_vals. by apply Forall_take, Forall_drop.
  - rewrite Hl. destruct (Nat.eqb_spec p (pc - 1)) as [->|Hne]; [nia|].
    assert ((p + 1) * pageRows <= (pc - 1) * pageRows)%nat by (apply Nat.mul_le_mono_r; lia). lia.
Qed.

Lemma encode_pages_lookup p :
  (p < pc)%nat ->
  exists t', 0 <= t' <= 7 /\ allows (ic_allowed ctx) t' = true /\
    let v := page_vals vals pageRows p in
    encode_pages vals pageRows ctx !! p = Some (page_bytes (try_transform v (p * pageRows) ctx t') v).
Proof.
  intros Hp. destruct (encode_page_choice (page_vals vals pageRows p) (p * pageRows) ctx t Ht Hallow) as (t' & H1 & H2 & H3).
  exists t'. split_and!; [lia..|done|]. cbv zeta. rewrite <- H3. unfold encode_pages. by rewrite list_lookup_fmap, lookup_seq_lt by done.
Qed.

Lemma length_encode_pages : length (encode_pages vals pageRows ctx) = pc.
Proof. unfold encode_pages. by rewrite length_map, length_seq. Qed.

Lemma concat_page_vals : concat (map (page_vals vals pageRows) (seq 0 pc)) = vals.
Proof.
  assert (forall k, (k <= pc)%nat -> concat (map (page_vals vals pageRows) (seq 0 k)) = take (k * pageRows) vals) as Hk.
  { induction k as [|k IH]; intros Hle; [done|]. rewrite seq_S, map_app, concat_app, IH by lia. cbn [map concat]. rewrite app_nil_r.
    unfold page_vals. rewrite Nat.add_0_l. replace (S k * pageRows)%nat with (k * pageRows + pageRows)%nat by lia.
    by rewrite take_take_drop. }
  rewrite Hk by done. apply take_ge. fold n. destruct pc as [|q] eqn:E; [|pose proof (page_count_bounds q ltac:(lia)); lia].
  subst pc. unfold page_count in E. apply Nat.div_small_iff in E; lia.
Qed.
End Pages.

(** A byte table of little-endian 32-bit words. *)
Lemma le4_table os p o :
  os !! p = Some o -> Z.of_nat o < 2 ^ 32 ->
  le_uint32 (drop (4 * p) (concat (map (fun o => le_bytes 4 (Z.of_nat o)) os))) = Z.of_nat o.
Proof.
  revert p. induction os as [|x os IH]; intros p Hp Ho; [done|]. cbn [map concat]. destruct p as [|p].
  - injection Hp as ->. cbn [Nat.mul drop]. unfold le_uint32. rewrite drop_0, take_app_length' by (by rewrite length_le_bytes).
    rewrite le_int_bytes. apply Z.mod_small. change (2 ^ (8 * Z.of_nat 4)) with (2 ^ 32). lia.
  - rewrite drop_app_ge by (rewrite length_le_bytes; lia). rewrite length_le_bytes. replace (4 * S p - 4)%nat with (4 * p)%nat by lia.
    by apply IH.
Qed.

Lemma length_le4_table os : length (concat (map (fun o => le_bytes 4 (Z.of_nat o)) os)) = (4 * length os)%nat.
Proof. induction os as [|o os IH]; [done|]. cbn [map concat length]. rewrite length_app, IH, length_le_bytes. lia. Qed.

Lemma concat_slice (pages : list bytes) p pg :
  pages !! p = Some pg ->
  slice (concat pages) (Z.of_nat (length (concat (take p pages)))) (Z.of_nat (length (concat (take (S p) pages)))) = pg.
Proof.
  intros Hp. unfold slice. rewrite (take_S_r pages p pg Hp), concat_app, length_app. cbn [concat]. rewrite app_nil_r.
  replace (concat pages) with (concat (take p pages) ++ concat (drop p pages)) by (by rewrite <- concat_app, take_drop).
  rewrite Nat2Z.id, drop_app_length, (drop_S pages pg p Hp). cbn [concat].
  replace (Z.to_nat _) with (length pg) by lia. apply take_app_length.
Qed.

Lemma take_le k z (rest : bytes) m : k = m -> take m (le_bytes k z ++ rest) = le_bytes k z.
Proof. intros <-. by rewrite take_app_length' by (by rewrite length_le_bytes). Qed.

Lemma le_small k z : 0 <= z < 2 ^ (8 * Z.of_nat k) -> le_int (le_bytes k z) = z.
Proof. intros Hz. rewrite le_int_bytes. by apply Z.mod_small. Qed.

(** The parser on an assembled column whose parts fit together. *)
Lemma parse_assembled name n pr pc offs pages allowed :
  0 <= n < 2 ^ 32 -> 0 < pr < 2 ^ 16 -> pc = (n + pr - 1) / pr -> pc < 2 ^ 32 - 1 -> len offs = 4 * (pc + 1) ->
  le_uint32 offs = 0 -> le_uint32 (drop (Z.to_nat (4 * pc)) offs) = len pages ->
  let c := mkIntCol name true n pr pc offs pages in
  check_pages c allowed (seq 0 (Z.to_nat pc)) = None ->
  parseIntCol name (le_bytes 4 n ++ le_bytes 2 pr ++ le_bytes 4 pc ++ offs ++ pages) n pr allowed = inl c.
Proof.
  intros Hn Hpr Hpc Hpc32 Hlo H0 Hend c Hchk. assert (0 <= pc) as Hpc0 by (subst pc; apply Z.div_pos; lia).
  unfold parseIntCol. cbv zeta. set (b := le_bytes 4 n ++ _).
  assert (len b = 10 + len offs + len pages) as Hlen
    by (unfold len, b; rewrite !length_app, !length_le_bytes; lia).
  assert (0 <= len pages) by (unfold len; lia). change (Z.of_nat intColHeader) with 10.
  destruct (Z.ltb_spec (len b) 10); [lia|].
  assert (le_uint32 b = n) as -> by (unfold b, le_uint32; rewrite take_le by done; by apply le_small).
  assert (drop 4 b = le_bytes 2 pr ++ le_bytes 4 pc ++ offs ++ pages) as -> by (unfold b; by rewrite drop_app_length' by (by rewrite length_le_bytes)).
  assert (drop 6 b = le_bytes 4 pc ++ offs ++ pages) as ->.
  { unfold b. rewrite drop_app_ge, drop_app_ge, !length_le_bytes by (rewrite ?length_le_bytes; lia). done. }
  assert (le_uint16 (le_bytes 2 pr ++ le_bytes 4 pc ++ offs ++ pages) = pr) as ->
    by (unfold le_uint16; rewrite take_le by done; apply le_small; cbn; lia).
  assert (le_uint32 (le_bytes 4 pc ++ offs ++ pages) = pc) as ->
    by (unfold le_uint32; rewrite take_le by done; apply le_small; cbn; lia).
  rewrite Z.eqb_refl, andb_false_r, Z.eqb_refl. cbn [negb]. rewrite <- Hpc, Z.eqb_refl. cbn [negb].
  destruct (Z.ltb_spec ((len b - 10) / 4) (pc + 1)) as [Hlt|_].
  { exfalso. apply Z.lt_nge in Hlt. apply Hlt. apply Z.div_le_lower_bound; lia. }
  assert (slice b 10 (10 + 4 * (pc + 1)) = offs) as ->.
  { unfold slice, b. change (Z.to_nat 10) with 10%nat. rewrite !app_assoc. rewrite <- (app_assoc _ offs pages).
    rewrite drop_app_length' by (by rewrite !length_app, !length_le_bytes).
    rewrite take_app_length'; [done|]. unfold len in Hlo. lia. }
  assert (drop (Z.to_nat (10 + 4 * (pc + 1))) b = pages) as ->.
  { unfold b. rewrite !app_assoc. rewrite drop_app_length'; [done|]. rewrite !length_app, !length_le_bytes. unfold len in Hlo. lia. }
  cbv zeta. fold c. change (c_offs c) with offs. change (c_pages c) with pages. rewrite H0, Hend, Z.eqb_refl, Z.eqb_refl. cbn [negb orb].
  by rewrite Hchk.
Qed.

Lemma page_offsets_lookup pages p : (p <= length pages)%nat -> page_offsets pages !! p = Some (length (concat (take p pages))).
Proof. intros Hp. unfold page_offsets. by rewrite list_lookup_fmap, lookup_seq_lt by lia. Qed.

Lemma length_concat_take (pages : list bytes) p : (length (concat (take p pages)) <= length (concat pages))%nat.
Proof.
  replace (concat pages) with (concat (take p pages) ++ concat (drop p pages)) by (by rewrite <- concat_app, take_drop).
  rewrite length_app. lia.
Qed.

Section Column.
Context (name : string) (vals : list Z) (pageRows : nat) (ctx : intEncodeCtx) (t : Z).
Hypothesis Hrows : (1 <= pageRows <= 4096)%nat.
Hypothesis Hvals : Forall in_i64 vals.
Hypothesis Ht : 0 <= t <= 7.
Hypothesis Hallow : allows (ic_allowed ctx) t = true.
Hypothesis Hn : Z.of_nat (length vals) < 2 ^ 32 - 4096.
Hypothesis Hsize : len (concat (encode_pages vals pageRows ctx)) < 2 ^ 32.

Let pages := encode_pages vals pageRows ctx.
Let n := length vals.
Let pc := page_count n pageRows.

(** The column the parser makes of the encoded bytes. *)
Definition parsed : intCol :=
  mkIntCol name true (Z.of_nat n) (Z.of_nat pageRows) (Z.of_nat pc)
    (concat (map (fun o => le_bytes 4 (Z.of_nat o)) (page_offsets pages))) (concat pages).

Lemma parsed_bounds p :
  (p < pc)%nat ->
  pageBounds parsed (Z.of_nat p) =
    (Z.of_nat (length (concat (take p pages))), Z.of_nat (length (concat (take (S p) pages)))).
Proof.
  intros Hp. unfold pageBounds. cbn [parsed c_offs].
  assert (length pages = pc) as Hl by apply length_encode_pages.
  pose proof (length_concat_take pages p). pose proof (length_concat_take pages (S p)). unfold len in Hsize. fold pages in Hsize.
  replace (Z.to_nat (4 * Z.of_nat p)) with (4 * p)%nat by lia. replace (Z.to_nat (4 * Z.of_nat p + 4)) with (4 * S p)%nat by lia.
  f_equal; apply le4_table; try (apply page_offsets_lookup; lia); lia.
Qed.

Lemma parsed_page p :
  (p < pc)%nat ->
  let v := page_vals vals pageRows p in
  exists t', 0 <= t' <= 7 /\ allows (ic_allowed ctx) t' = true /\ pageLen parsed (Z.of_nat p) = Z.of_nat (length v) /\
    slice (concat pages) (fst (pageBounds parsed (Z.of_nat p))) (snd (pageBounds parsed (Z.of_nat p))) =
      page_bytes (try_transform v (p * pageRows) ctx t') v.
Proof.
  intros Hp v. destruct (encode_pages_lookup vals pageRows ctx t Hrows Ht Hallow p Hp) as (t' & H1 & H2 & H3).
  exists t'. split_and!; [lia..|done| |].
  - destruct (page_vals_ok vals pageRows Hrows Hvals p Hp) as (_ & _ & _ & Hl). unfold pageLen, v. rewrite Hl. cbn [parsed c_pageCount c_n c_pageRows].
    fold n pc. pose proof (page_count_bounds vals pageRows Hrows p Hp) as (Hb & _ & _). fold n in Hb.
    destruct (Z.eqb_spec (Z.of_nat p) (Z.of_nat pc - 1)), (Nat.eqb_spec p (pc - 1)); lia.
  - rewrite parsed_bounds by done. cbn [fst snd]. by apply concat_slice.
Qed.

Lemma parsed_check p : (p < pc)%nat -> check_page parsed (ic_allowed ctx) (Z.of_nat p) = None.
Proof.
  intros Hp. destruct (parsed_page p Hp) as (t' & H1 & H2 & H3 & H4). set (v := page_vals vals pageRows p) in *.
  destruct (page_vals_ok vals pageRows Hrows Hvals p Hp) as (Hne & Hv & Hl & _). fold v in Hne, Hv, Hl.
  pose proof (length_page_bytes v (p * pageRows) ctx t' Hne Hv) as Hlen.
  destruct (try_transform_spec v (p * pageRows) ctx t' Hne Hv) as (Hw & _).
  unfold check_page. rewrite parsed_bounds in * by done. cbn [fst snd] in H4. change (c_pages parsed) with (concat pages). rewrite H4.
  pose proof (length_concat_take pages (S p)) as Hle.
  assert (length (concat (take p pages)) <= length (concat (take (S p) pages)))%nat as Hmono.
  { pose proof (length_concat_take (take (S p) pages) p) as Hm. by rewrite take_take, Nat.min_l in Hm by lia. }
  destruct (Z.ltb_spec (Z.of_nat (length (concat (take (S p) pages)))) (Z.of_nat (length (concat (take p pages))))); [lia|].
  destruct (Z.gtb_spec (Z.of_nat (length (concat (take (S p) pages)))) (len (concat pages))) as [Hgt|_]; [unfold len in Hgt; lia|]. cbn [orb].
  set (c := try_transform v (p * pageRows) ctx t') in *. change (page_bytes c v).[0] with t'. change (page_bytes c v).[1] with (pc_w c).
  pose proof (packedLen_nonneg (Z.of_nat (length v)) (pc_w c) ltac:(lia) ltac:(lia)).
  unfold len. rewrite Hlen, H3, H2.
  destruct (Z.ltb_spec ((if t' =? transformDeltaPrev then Z.of_nat pageHeaderMin + 8 else Z.of_nat pageHeaderMin) +
    packedLen (Z.of_nat (length v)) (pc_w c)) (Z.of_nat pageHeaderMin)) as [Hbad|_]; [destruct (t' =? transformDeltaPrev); lia|].
  destruct (Z.gtb_spec t' 7); [lia|]. destruct (Z.gtb_spec (pc_w c) 64); [lia|]. cbn [negb orb]. by rewrite Z.eqb_refl.
Qed.

Lemma parse_encoded :
  parseIntCol name (encodeIntCol vals pageRows ctx) (Z.of_nat n) (Z.of_nat pageRows) (ic_allowed ctx) = inl parsed.
Proof.
  unfold encodeIntCol. fold pages n pc. assert (length pages = pc) as Hl by apply length_encode_pages.
  assert (Z.of_nat pc = (Z.of_nat n + Z.of_nat pageRows - 1) / Z.of_nat pageRows) as Hpc.
  { unfold pc, page_count. rewrite Nat2Z.inj_div. f_equal. lia. }
  assert (length (page_offsets pages) = S pc) as Hlo by (unfold page_offsets; by rewrite length_map, length_seq, Hl).
  apply parse_assembled; try done; fold n in Hn; try lia.
  - rewrite Hpc. apply Z.div_lt_upper_bound; [lia|]. nia.
  - unfold len. rewrite length_le4_table, Hlo. lia.
  - replace (Z.to_nat (4 * Z.of_nat pc)) with (4 * pc)%nat by lia. unfold len. apply le4_table; [|done].
    rewrite page_offsets_lookup by lia. by rewrite take_ge by lia.
  - fold parsed. rewrite Nat2Z.id. assert (forall l, (forall p, p ∈ l -> (p < pc)%nat) -> check_pages parsed (ic_allowed ctx) l = None) as Hall.
    { induction l as [|p l IH]; intros Hin; cbn [check_pages]; [done|]. rewrite parsed_check by (apply Hin; left). apply IH. intros q Hq. apply Hin. by right. }
    apply Hall. intros p [_ Hp]%elem_of_seq. lia.
Qed.

Lemma decode_parsed p :
  (p < pc)%nat ->
  decodePage parsed (Z.of_nat p) pageRows (drop (p * pageRows) (ic_ref ctx)) (fun k => ic_runStart ctx (p * pageRows + k)) =
    page_vals vals pageRows p.
Proof.
  intros Hp. destruct (parsed_page p Hp) as (t' & H1 & H2 & H3 & H4).
  destruct (page_vals_ok vals pageRows Hrows Hvals p Hp) as (Hne & Hv & Hl & _).
  unfold decodePage, page. cbn [parsed c_present negb]. fold parsed. change (c_pages parsed) with (concat pages).
  destruct (pageBounds parsed (Z.of_nat p)) as [lo hi]. cbn [fst snd] in H4. rewrite H4, H3.
  apply decode_page_bytes; [done..|]. intros k _. by rewrite nth_skipn.
Qed.
End Column.

(** C35: an int column round-trips: whatever transforms the encoder is allowed and
    whichever it picks per page, the parser accepts the bytes it wrote and
    decoding page after page gives the values back, for every int64 sequence. *)
Theorem int_column_roundtrip name vals pageRows ctx t :
  (1 <= pageRows <= 4096)%nat -> Forall in_i64 vals -> 0 <= t <= 7 -> allows (ic_allowed ctx) t = true ->
  Z.of_nat (length vals) < 2 ^ 32 - 4096 -> len (concat (encode_pages vals pageRows ctx)) < 2 ^ 32 ->
  exists c, parseIntCol name (encodeIntCol vals pageRows ctx) (Z.of_nat (length vals)) (Z.of_nat pageRows) (ic_allowed ctx) = inl c /\
    concat (map (fun p => decodePage c (Z.of_nat p) pageRows (drop (p * pageRows) (ic_ref ctx))
                            (fun k => ic_runStart ctx (p * pageRows + k)))
              (seq 0 (page_count (length vals) pageRows))) = vals.
Proof.
  intros Hrows Hvals Ht Ha Hn Hsize. exists (parsed name vals pageRows ctx). split; [by apply (parse_encoded name vals pageRows ctx t)|].
  transitivity (concat (map (page_vals vals pageRows) (seq 0 (page_count (length vals) pageRows)))); [|by apply concat_page_vals].
  f_equal. apply map_ext_in. intros p Hp%in_seq.
  apply (decode_parsed name vals pageRows ctx t); try done. lia.
Qed.

Lemma int_column_roundtrip_witness :
  let vals := [100; 102; 104; MinInt64; MaxInt64; 0; -7] in
  let ctx := mkIntCtx [1; 2; 3; 4; 5; 6; 7] (fun k => (k =? 5)%nat) (allow [0; 1; 2; 3]) in
  exists c, parseIntCol "col" (encodeIntCol vals 4 ctx) 7 4 15 = inl c /\
    concat (map (fun p => decodePage c (Z.of_nat p) 4 (drop (p * 4) (ic_ref ctx)) (fun k => ic_runStart ctx (p * 4 + k))) (seq 0 2)) = vals.
Proof.
  intros vals ctx. apply (int_column_roundtrip "col" vals 4 ctx 0); [lia| |lia|reflexivity|cbn; lia|vm_compute; reflexivity].
  forall_literal ltac:(vm_compute; split; discriminate).
Defined.

(** ** Hostile bytes *)

Lemma check_pages_none c allowed ps p : check_pages c allowed ps = None -> p ∈ ps -> check_page c allowed (Z.of_nat p) = None.
Proof.
  induction ps as [|q ps IH]; intros Hc Hp; [by apply not_elem_of_nil in Hp|]. cbn [check_pages] in Hc.
  destruct (check_page c allowed (Z.of_nat q)) eqn:E; [done|]. apply elem_of_cons in Hp as [->|Hp]; [done|by apply IH].
Qed.

Lemma nth_byte k b : Forall is_byte b -> 0 <= b.[k] < 256.
Proof.
  intros Hb. destruct (nth_in_or_default k b 0) as [Hin| ->]; [|lia]. rewrite Forall_forall in Hb. by apply Hb, list_elem_of_In.
Qed.

Lemma le_uint32_range b : Forall is_byte b -> 0 <= le_uint32 b < 2 ^ 32.
Proof.
  intros Hb. unfold le_uint32. pose proof (le_int_range (take 4 b) (Forall_take _ _ _ Hb)) as Hr.
  assert (2 ^ (8 * Z.of_nat (length (take 4 b))) <= 2 ^ 32) by (apply Z.pow_le_mono_r; rewrite ?length_take; lia). lia.
Qed.

(** What a check of a page establishes. *)
Lemma check_page_ok c allowed p :
  Forall is_byte (c_offs c) -> Forall is_byte (c_pages c) -> 0 <= pageLen c p -> check_page c allowed p = None ->
  let '(lo, hi) := pageBounds c p in
  let v := page c p in
  0 <= lo <= hi /\ hi <= len (c_pages c) /\ 0 <= v_width v <= 64 /\ allows allowed (v_transform v) = true /\
  len (v_packed v) = packedLen (v_n v) (v_width v).
Proof.
  intros Ho Hp Hpl Hc. unfold check_page, page in *. destruct (pageBounds c p) as [lo hi] eqn:Eb.
  assert (0 <= lo) as Hlo by (unfold pageBounds in Eb; injection Eb as <- _; apply le_uint32_range; by apply Forall_drop).
  destruct (Z.ltb_spec hi lo), (Z.gtb_spec hi (len (c_pages c))); try done. cbn [orb] in Hc.
  set (pg := slice (c_pages c) lo hi) in *. assert (Forall is_byte pg) as Hpg by (unfold pg, slice; by apply Forall_take, Forall_drop).
  clearbody pg. pose proof (nth_byte 1 pg Hpg) as Hw. change (Z.of_nat pageHeaderMin) with 10 in Hc.
  destruct (Z.ltb_spec (len pg) 10) as [|Hlen]; [done|]. destruct (Z.gtb_spec pg.[0] 7), (allows allowed pg.[0]) eqn:Ea; try done.
  cbn [negb orb] in Hc. destruct (Z.gtb_spec pg.[1] 64); [done|].
  unfold view_of. cbn [v_width v_transform v_packed v_n]. split_and!; try done; try lia.
  destruct (Z.eqb_spec (len pg) ((if pg.[0] =? transformDeltaPrev then 10 + 8 else 10) + packedLen (pageLen c p) pg.[1])) as [E|]; [|done].
  unfold len in *. change pageHeaderMin with 10%nat. pose proof (packedLen_nonneg (pageLen c p) pg.[1] Hpl ltac:(lia)).
  destruct (pg.[0] =? transformDeltaPrev); rewrite ?drop_drop, length_drop; lia.
Qed.

(** C36: the parser is a trust boundary: of any bytes it accepts, every page's
    directory entry lies in the directory, its bounds lie in the page area, its
    transform is allowed, its width is at most 64, and its packed area is exactly
    as long as its value count (at least one, at most a page) needs, so no later
    read leaves the section. *)
Theorem parse_int_col_in_bounds name b want pageRows allowed c p :
  Forall is_byte b -> 0 < pageRows -> parseIntCol name b want pageRows allowed = inl c -> 0 <= p < c_pageCount c ->
  let '(lo, hi) := pageBounds c p in
  let v := page c p in
  4 * p + 8 <= len (c_offs c) /\ 0 <= lo <= hi /\ hi <= len (c_pages c) /\ 0 <= v_width v <= 64 /\
  allows allowed (v_transform v) = true /\ 0 < v_n v <= pageRows /\ len (v_packed v) = packedLen (v_n v) (v_width v).
Proof.
  intros Hb Hpr Hparse Hp. unfold parseIntCol in Hparse. change (Z.of_nat intColHeader) with 10 in Hparse. cbv zeta in Hparse.
  destruct (Z.ltb_spec (len b) 10) as [|Hlen]; [done|]. destruct (_ && _); [done|]. destruct (negb _); [done|].
  destruct (Z.eqb_spec (le_uint32 (drop 6 b)) ((le_uint32 b + pageRows - 1) / pageRows)) as [Hpc|]; [|done]. cbn [negb] in Hparse.
  destruct (Z.ltb_spec ((len b - 10) / 4) (le_uint32 (drop 6 b) + 1)) as [|Hdir]; [done|].
  set (pc := le_uint32 (drop 6 b)) in *. set (n := le_uint32 b) in *. pose proof (le_uint32_range b Hb) as Hn. fold n in Hn.
  set (col := mkIntCol _ _ _ _ _ _ _) in Hparse.
  destruct (negb (le_uint32 (c_offs col) =? 0) || _); [done|].
  destruct (check_pages col allowed (seq 0 (Z.to_nat pc))) eqn:Ec; [done|]. injection Hparse as <-. change (c_pageCount col) with pc in Hp.
  assert (Forall is_byte (c_offs col)) as Ho by (cbn; unfold slice; by apply Forall_take, Forall_drop).
  assert (Forall is_byte (c_pages col)) as Hpg by (cbn; by apply Forall_drop).
  assert (check_page col allowed p = None) as Hck.
  { rewrite <- (Z2Nat.id p) by lia. eapply check_pages_none; [exact Ec|]. apply elem_of_seq. lia. }
  assert (0 < pageLen col p <= pageRows) as Hpl.
  { unfold pageLen. change (c_pageCount col) with pc. change (c_n col) with n. change (c_pageRows col) with pageRows.
    pose proof (Z.div_mod (n + pageRows - 1) pageRows ltac:(lia)) as Hd. rewrite <- Hpc in Hd.
    pose proof (Z.mod_pos_bound (n + pageRows - 1) pageRows ltac:(lia)) as Hm. set (m := (n + pageRows - 1) mod pageRows) in *.
    clearbody m pc n. destruct (Z.eqb_spec p (pc - 1)) as [->|]; nia. }
  pose proof (check_page_ok col allowed p Ho Hpg ltac:(lia) Hck) as Hok. destruct (pageBounds col p) as [lo hi] eqn:Ebd.
  destruct Hok as (H1 & H2 & H3 & H4 & H5).
  assert (v_n (page col p) = pageLen col p) as Hvn by (unfold page; by rewrite Ebd).
  assert (4 * (pc + 1) <= len b - 10) by (pose proof (Z.mul_div_le (len b - 10) 4 ltac:(lia)); lia).
  split_and!; try done; try lia. cbn. unfold len, slice in *. rewrite length_take, length_drop. lia.
Qed.

Lemma parse_int_col_in_bounds_witness :
  let ctx := mkIntCtx [] (fun _ => false) (allow [0; 2]) in
  let b := encodeIntCol [100; 102; 104; 110; 118] 4 ctx in
  exists c, parseIntCol "col" b (-1) 4 5 = inl c /\
  let '(lo, hi) := pageBounds c 1 in
  let v := page c 1 in
  4 * 1 + 8 <= len (c_offs c) /\ 0 <= lo <= hi /\ hi <= len (c_pages c) /\ 0 <= v_width v <= 64 /\
  allows 5 (v_transform v) = true /\ 0 < v_n v <= 4 /\ len (v_packed v) = packedLen (v_n v) (v_width v).
Proof.
  intros ctx b. destruct (parseIntCol "col" b (-1) 4 5) as [c|e] eqn:E; [|vm_compute in E; discriminate].
  exists c. split; [done|]. apply (parse_int_col_in_bounds "col" b (-1) 4 5 c 1); [|lia|exact E|].
  - vm_compute. forall_literal ltac:(split; [discriminate|reflexivity]).
  - vm_compute in E. injection E as <-. split; [discriminate|reflexivity].
Defined.
