(* ===== verification/SegFormat.v ===== *)
(** * Segment header and footer (pkg/graph/internal/segment/format.go)

    The 64-byte header with its CRC32C, and the footer: schema, integrity root
    and the section directory, read back through a cursor that checks every
    length against what is left.  Reading is a trust boundary; the cursor keeps
    the first error and every later read returns the zero value, as in the
    source, and is a small state monad here. *)

From S2P Require Import Prelude BitPack IntCol.

#[local] Open Scope tkg_scope.

(** ** CRC32C ([hash/crc32] with the Castagnoli table) *)

(** One step of the reflected polynomial; a table entry is eight of them. *)
Definition crc_step (c : Z) : Z :=
  if Z.odd c then Z.lxor (Z.shiftr c 1) 2197175160 else Z.shiftr c 1.

Definition crc_byte (c b : Z) : Z := Nat.iter 8 crc_step (Z.lxor c b).

Definition crc32c (bs : bytes) : Z := Z.lxor (fold_left crc_byte bs (2 ^ 32 - 1)) (2 ^ 32 - 1).

(** ** Constants *)

Definition headerSize : nat := 64.
Definition trailerSize : nat := 16.
Definition flagNodeDict : Z := 1.
Definition MaxRows : Z := Z.shiftl 64 20.
Definition MaxColumns : Z := 1024.
Definition CurrentFormatVersion : Z := 1.
Definition CurrentFooterVersion : Z := 1.

Definition headerMagic : bytes := bytes_of_string "TKGSEG" ++ [0; 1].
Definition trailerMagic : bytes := bytes_of_string "TKGSEGFT".

Inductive segError :=
  | ErrCorrupt (e : CorruptError)
  | ErrUnsupportedVersion
  | ErrInvalidSchema.

Definition corruptS (section reason : string) : segError := ErrCorrupt (corrupt section reason).

(** ** Header *)

Record header := mkHeader {
  h_format : Z; h_flags : Z; h_typeToken : Z; h_pageRows : Z;
  h_rows : Z; h_nodes : Z;
  h_idMin : Z; h_idMax : Z; h_vfMin : Z; h_vfMax : Z;
}.

(** The 56 bytes the CRC covers. *)
Definition header_body (h : header) : bytes :=
  headerMagic ++ le_bytes 2 (h_format h) ++ le_bytes 2 (h_flags h) ++ le_bytes 2 (h_typeToken h) ++
  le_bytes 2 (h_pageRows h) ++ le_bytes 4 (h_rows h) ++ le_bytes 4 (h_nodes h) ++
  le_bytes 8 (u64 (h_idMin h)) ++ le_bytes 8 (u64 (h_idMax h)) ++ le_bytes 8 (u64 (h_vfMin h)) ++ le_bytes 8 (u64 (h_vfMax h)).

Definition putHeader (h : header) : bytes :=
  header_body h ++ le_bytes 4 (crc32c (header_body h)) ++ [0; 0; 0; 0].

Definition pow2UpTo4096 (v : Z) : bool := (v >=? 1) && (v <=? 4096) && (Z.land v (v - 1) =? 0).

Definition readHeader (data : bytes) : header + segError :=
  if len data <? Z.of_nat headerSize + Z.of_nat trailerSize then inr (corruptS "header" "shorter than header and trailer")
  else if negb (bool_decide (take 8 data = headerMagic)) then inr (corruptS "header" "bad magic")
  else if negb (crc32c (take 56 data) =? le_uint32 (drop 56 data)) then inr (corruptS "header" "CRC mismatch")
  else
    let h := mkHeader (le_uint16 (drop 8 data)) (le_uint16 (drop 10 data)) (le_uint16 (drop 12 data)) (le_uint16 (drop 14 data))
               (le_uint32 (drop 16 data)) (le_uint32 (drop 20 data))
               (i64 (le_uint64 (drop 24 data))) (i64 (le_uint64 (drop 32 data)))
               (i64 (le_uint64 (drop 40 data))) (i64 (le_uint64 (drop 48 data))) in
    if negb (h_format h =? CurrentFormatVersion) then inr ErrUnsupportedVersion
    else if negb (Z.ldiff (h_flags h) flagNodeDict =? 0) then inr (corruptS "header" "unknown flags")
    else if negb (pow2UpTo4096 (h_pageRows h)) then inr (corruptS "header" "page size")
    else if h_typeToken h =? 0 then inr (corruptS "header" "type token 0")
    else if negb (Bool.eqb (h_rows h =? 0) (h_nodes h =? 0)) || (h_nodes h >? 2 * h_rows h) || (h_rows h >? MaxRows)
    then inr (corruptS "header" "rows over nodes")
    else inl h.

(** ** Footer *)

Record Column := mkColumn { col_Name : bytes; col_Kind : Z }.

Record sectionInfo := mkSection {
  s_name : bytes; s_offset : Z; s_length : Z; s_crc : Z; s_crcAt : Z;
}.

Record footer := mkFooter {
  f_version : Z; f_blockRows : Z; f_typeName : bytes; f_columns : list Column; f_root : bytes; f_sections : list sectionInfo;
}.

Definition appendStr16 (s : bytes) : bytes := le_bytes 2 (len s) ++ s.

Definition put_column (c : Column) : bytes := appendStr16 (col_Name c) ++ [col_Kind c].

Definition put_section (s : sectionInfo) : bytes :=
  appendStr16 (s_name s) ++ le_bytes 8 (s_offset s) ++ le_bytes 8 (s_length s) ++ le_bytes 4 (s_crc s).

Definition putFooter (f : footer) : bytes :=
  le_bytes 2 (f_version f) ++ le_bytes 2 (f_blockRows f) ++ appendStr16 (f_typeName f) ++
  le_bytes 2 (Z.of_nat (length (f_columns f))) ++ concat (map put_column (f_columns f)) ++
  f_root f ++ le_bytes 2 (Z.of_nat (length (f_sections f))) ++ concat (map put_section (f_sections f)).

(** *** The cursor *)

Record cursor := mkCursor { cu_off : nat; cu_err : option CorruptError }.

(** A read: a value and the cursor after it. *)
Definition reader (A : Type) : Type := cursor -> A * cursor.

Definition rret {A} (x : A) : reader A := fun c => (x, c).

Definition rbind {A B} (m : reader A) (k : A -> reader B) : reader B := fun c => let (x, c') := m c in k x c'.

Notation "x <~ m ; k" := (rbind m (fun x => k)) (at level 90, m at next level, k at level 200, right associativity) : tkg_scope.

Section Cursor.
Context (b : bytes).

Definition need (n : Z) : reader bool := fun c =>
  match cu_err c with
  | Some _ => (false, c)
  | None => if (n <? 0) || (n >? len b - Z.of_nat (cu_off c)) then (false, mkCursor (cu_off c) (Some (corrupt "footer" "truncated")))
            else (true, c)
  end.

Definition advance (n : nat) : reader unit := fun c => (tt, mkCursor (cu_off c + n) (cu_err c)).

Definition at_off : reader nat := fun c => (cu_off c, c).

(** [u16], [u32], [u64]: [k] bytes as a little-endian integer. *)
Definition read_uint (k : nat) : reader Z :=
  ok <~ need (Z.of_nat k);
  if ok then o <~ at_off; _ <~ advance k; rret (le_int (take k (drop o b))) else rret 0.

Definition u16 : reader Z := read_uint 2.

Definition u32 : reader Z := read_uint 4.

Definition u64r : reader Z := read_uint 8.

(** [bytes(n)]: nil when it fails. *)
Definition read_bytes (n : Z) : reader (option bytes) :=
  ok <~ need n;
  if ok then o <~ at_off; _ <~ advance (Z.to_nat n); rret (Some (take (Z.to_nat n) (drop o b))) else rret None.

Definition str16 : reader bytes :=
  n <~ u16; s <~ read_bytes n; rret (match s with Some s => s | None => [] end).

Definition read_column : reader Column :=
  name <~ str16; k <~ read_bytes 1;
  rret (mkColumn name (match k with Some bs => bs.[0] | None => 0 end)).

Fixpoint read_columns (n : nat) : reader (list Column) :=
  match n with
  | O => rret []
  | S n' => c <~ read_column; cs <~ read_columns n'; rret (c :: cs)
  end.

(** One directory entry, before its range check. *)
Definition read_section : reader sectionInfo :=
  name <~ str16; off <~ u64r; ln <~ u64r; o <~ at_off; crc <~ u32;
  rret (mkSection name off ln crc (Z.of_nat o)).
End Cursor.

(** The directory loop: it stops at the first error and returns at once on an
    entry out of range of the [dlen] bytes. *)
Fixpoint read_sections (b : bytes) (dlen : Z) (n : nat) (c : cursor) : (list sectionInfo * cursor) + segError :=
  match n with
  | O => inl ([], c)
  | S n' =>
      match cu_err c with
      | Some _ => inl ([], c)
      | None =>
          let (s, c) := read_section b c in
          if (s_offset s >? dlen) || (s_length s >? dlen) then inr (corruptS "footer" "section out of range")
          else match read_sections b dlen n' c with
               | inl (ss, c) => inl (s :: ss, c)
               | inr e => inr e
               end
      end
  end.

(** *** Validation *)

Definition presencePrefix : bytes := bytes_of_string "presence:".

Definition tkg_prefix : bytes := bytes_of_string "tkg_".

Record Schema := mkSchema { sch_TypeName : bytes; sch_TypeToken : Z; sch_Columns : list Column }.

Fixpoint validate_columns (seen : list bytes) (cols : list Column) : bool :=
  match cols with
  | [] => true
  | c :: cols' =>
      if bool_decide (col_Name c = []) || (len (col_Name c) >? 65535 - len presencePrefix) then false
      else if bool_decide (take 4 (col_Name c) = tkg_prefix) then false
      else if (col_Kind c <? 1) || (col_Kind c >? 14) then false
      else if bool_decide (col_Name c ∈ seen) then false
      else validate_columns (col_Name c :: seen) cols'
  end.

Definition Schema_validate (s : Schema) : option segError :=
  if bool_decide (sch_TypeName s = []) || (len (sch_TypeName s) >? 65535) then Some ErrInvalidSchema
  else if sch_TypeToken s =? 0 then Some ErrInvalidSchema
  else if Z.of_nat (length (sch_Columns s)) >? MaxColumns then Some ErrInvalidSchema
  else if validate_columns [] (sch_Columns s) then None else Some ErrInvalidSchema.

(** The sections must tile the bytes from [pos] to [start], in order, under
    distinct names. *)
Fixpoint check_tiling (seen : list bytes) (pos start : Z) (ss : list sectionInfo) : option segError :=
  match ss with
  | [] => if negb (pos =? start) then Some (corruptS "footer" "sections end before the footer") else None
  | s :: ss' =>
      if bool_decide (s_name s ∈ seen) then Some (corruptS "footer" "section twice")
      else if negb (s_offset s =? pos) || (s_length s >? start - pos) || (s_length s =? 0)
      then Some (corruptS "footer" "section does not follow")
      else check_tiling (s_name s :: seen) (pos + s_length s) start ss'
  end.

Definition failed (c : cursor) : bool := match cu_err c with Some _ => true | None => false end.

Definition readFooter (data : bytes) (start end_ : nat) : footer + segError :=
  let b := take end_ data in
  let (version, c) := u16 b (mkCursor start None) in
  if negb (failed c) && negb (version =? CurrentFooterVersion) then inr ErrUnsupportedVersion
  else
    let (blockRows, c) := u16 b c in
    let (typeName, c) := str16 b c in
    let (ncols, c) := u16 b c in
    if negb (failed c) && (ncols >? (Z.of_nat end_ - Z.of_nat (cu_off c)) / 3) then inr (corruptS "footer" "columns")
    else
      let (columns, c) := if negb (failed c) && (ncols >? 0) then read_columns b (Z.to_nat ncols) c else ([], c) in
      let (root, c) := read_bytes b 32 c in
      let root := match root with Some r => r | None => replicate 32 0 end in
      let (nsec, c) := u16 b c in
      if negb (failed c) && (nsec >? (Z.of_nat end_ - Z.of_nat (cu_off c)) / 22) then inr (corruptS "footer" "sections")
      else
        match read_sections b (len data) (Z.to_nat nsec) c with
        | inr e => inr e
        | inl (sections, c) =>
            match cu_err c with
            | Some e => inr (ErrCorrupt e)
            | None =>
                if negb (cu_off c =? end_)%nat then inr (corruptS "footer" "trailing bytes")
                else if negb (pow2UpTo4096 blockRows) then inr (corruptS "footer" "integrity block size")
                else match Schema_validate (mkSchema typeName 1 columns) with
                     | Some _ => inr (corruptS "footer" "schema")
                     | None =>
                         match check_tiling [] (Z.of_nat headerSize) (Z.of_nat start) sections with
                         | Some e => inr e
                         | None => inl (mkFooter version blockRows typeName columns root sections)
                         end
                     end
            end
        end.

Definition locateFooter (data : bytes) : (nat * nat) + segError :=
  let n := length data in
  if (n <? headerSize + trailerSize)%nat then inr (corruptS "trailer" "segment too short")
  else
    let t := drop (n - trailerSize) data in
    if negb (bool_decide (drop 8 t = trailerMagic)) then inr (corruptS "trailer" "bad magic")
    else
      let flen := le_uint32 t in
      if flen >? Z.of_nat (n - headerSize - trailerSize) then inr (corruptS "trailer" "footer length")
      else
        let end_ := (n - trailerSize)%nat in
        let start := (end_ - Z.to_nat flen)%nat in
        if negb (crc32c (take (end_ - start) (drop start data)) =? le_uint32 (drop 4 t)) then inr (corruptS "footer" "CRC mismatch")
        else inl (start, end_).

(** [sections]: locate, then read; the directory is already in offset order. *)
Definition sections (data : bytes) : list sectionInfo + segError :=
  match locateFooter data with
  | inr e => inr e
  | inl (start, end_) =>
      match readFooter data start end_ with
      | inr e => inr e
      | inl f => inl (sort_by (lt_key s_offset) (f_sections f))
      end
  end.

(** ** Lemmas *)

Lemma lxor_range a b n : 0 <= n -> 0 <= a < 2 ^ n -> 0 <= b < 2 ^ n -> 0 <= Z.lxor a b < 2 ^ n.
Proof.
  intros Hn Ha Hb. assert (Z.lxor a b = Z.lxor a b mod 2 ^ n) as ->; [|by apply Z.mod_pos_bound, Z.pow_pos_nonneg].
  apply Z.bits_inj'. intros k Hk. destruct (Z.lt_ge_cases k n); [by rewrite Z.mod_pow2_bits_low|].
  rewrite Z.mod_pow2_bits_high, Z.lxor_spec by lia.
  rewrite <- (Z.mod_small a (2 ^ n)), <- (Z.mod_small b (2 ^ n)), !Z.mod_pow2_bits_high by lia. done.
Qed.

Lemma crc_step_range c : 0 <= c < 2 ^ 32 -> 0 <= crc_step c < 2 ^ 32.
Proof.
  intros Hc. unfold crc_step. assert (0 <= Z.shiftr c 1 < 2 ^ 32) as Hs.
  { rewrite Z.shiftr_div_pow2 by lia. split; [apply Z.div_pos; lia|apply Z.div_lt_upper_bound; lia]. }
  destruct (Z.odd c); [|done]. by apply lxor_range.
Qed.

Lemma crc_byte_range c b : 0 <= c < 2 ^ 32 -> is_byte b -> 0 <= crc_byte c b < 2 ^ 32.
Proof.
  intros Hc Hb. unfold crc_byte, is_byte in *. assert (0 <= Z.lxor c b < 2 ^ 32) as Hx by (apply lxor_range; lia).
  revert Hx. generalize (Z.lxor c b) 8%nat. intros z k Hz. induction k as [|k IH]; [done|]. by apply crc_step_range.
Qed.

Lemma crc32c_range bs : Forall is_byte bs -> 0 <= crc32c bs < 2 ^ 32.
Proof.
  intros Hb. unfold crc32c. apply lxor_range; [lia| |lia]. assert (0 <= 2 ^ 32 - 1 < 2 ^ 32) as H0 by lia. revert H0.
  generalize (2 ^ 32 - 1). induction Hb as [|b bs Hb _ IH]; intros c Hc; [done|]. cbn [fold_left]. by apply IH, crc_byte_range.
Qed.

Lemma le_uint_app k m z rest : k = m -> le_int (take m (le_bytes k z ++ rest)) = z mod 2 ^ (8 * Z.of_nat k).
Proof. intros <-. rewrite take_le by done. apply le_int_bytes. Qed.

Lemma le_bytes_int l : Forall is_byte l -> le_bytes (length l) (le_int l) = l.
Proof.
  induction 1 as [|b l Hb _ IH]; [done|]. cbn [length le_bytes]. rewrite le_int_cons, land_255, shiftr_8 by done. unfold is_byte in Hb.
  rewrite (Z.mul_comm 256), Z.mod_add, Z.div_add, (Z.mod_small b), (Z.div_small b), Z.add_0_l by lia. by rewrite IH.
Qed.

Lemma headerMagic_byte : Forall is_byte headerMagic.
Proof. vm_compute. forall_literal ltac:(split; [discriminate|reflexivity]). Qed.

Lemma header_body_byte h : Forall is_byte (header_body h).
Proof. unfold header_body. rewrite !Forall_app. split_and!; auto using headerMagic_byte with tkg. Qed.

Lemma length_header_body h : length (header_body h) = 56%nat.
Proof. unfold header_body. rewrite !length_app, !length_le_bytes. reflexivity. Qed.

(** What the reader promises of a header. *)
Record header_ok (h : header) : Prop := {
  ho_format : h_format h = CurrentFormatVersion;
  ho_flags : h_flags h = 0 \/ h_flags h = flagNodeDict;
  ho_token : 0 < h_typeToken h < 2 ^ 16;
  ho_page : pow2UpTo4096 (h_pageRows h) = true;
  ho_rows : 0 <= h_rows h <= MaxRows;
  ho_nodes : 0 <= h_nodes h <= 2 * h_rows h;
  ho_zero : h_rows h = 0 <-> h_nodes h = 0;
  ho_times : in_i64 (h_idMin h) /\ in_i64 (h_idMax h) /\ in_i64 (h_vfMin h) /\ in_i64 (h_vfMax h);
}.

Lemma i64_field z : in_i64 z -> i64 (u64 z mod 2 ^ (8 * Z.of_nat 8)) = z.
Proof. intros Hz. change (8 * Z.of_nat 8) with 64. unfold u64. rewrite Z.mod_mod by lia. fold (u64 z). rewrite i64_u64. by apply i64_id. Qed.

Lemma flags_ldiff f : 0 <= f -> (Z.ldiff f flagNodeDict =? 0) = bool_decide (f = 0 \/ f = flagNodeDict).
Proof.
  intros Hf. unfold flagNodeDict. destruct f as [|p|p]; [done| |lia].
  destruct p as [p|p|]; cbn; [| |done]; case_bool_decide as E; try done; destruct E as [E|E]; try done; by destruct p.
Qed.

Lemma eqb_iff_zero x y : Bool.eqb (x =? 0) (y =? 0) = true <-> (x = 0 <-> y = 0).
Proof. destruct (Z.eqb_spec x 0), (Z.eqb_spec y 0); cbn; intuition discriminate. Qed.

(** The header round-trips: what [putHeader] writes, followed by at least a
    trailer, is read back as the same header. *)
Theorem header_roundtrip h rest :
  header_ok h -> (trailerSize <= length rest)%nat -> readHeader (putHeader h ++ rest) = inl h.
Proof.
  intros [H1 H2 H3 H4 H5 H6 H7 (T1 & T2 & T3 & T4)] Hr. unfold readHeader, putHeader. set (crc := crc32c (header_body h)).
  assert (0 <= crc < 2 ^ 32) as Hcrc by apply crc32c_range, header_body_byte.
  rewrite <- !app_assoc. set (tl := le_bytes 4 crc ++ [0; 0; 0; 0] ++ rest).
  assert (len (header_body h ++ tl) <? Z.of_nat headerSize + Z.of_nat trailerSize = false) as ->.
  { unfold len, tl, headerSize, trailerSize in *. apply Z.ltb_ge. rewrite !length_app, length_header_body, length_le_bytes. cbn [length]. lia. }
  change (take 8 (header_body h ++ tl)) with headerMagic. rewrite bool_decide_eq_true_2 by done. cbn [negb].
  rewrite take_app_length', drop_app_length' by (by rewrite length_header_body).
  unfold le_uint32 at 1. unfold tl at 1. rewrite le_uint_app by done. fold crc. rewrite (Z.mod_small crc) by done. rewrite Z.eqb_refl. cbn [negb].
  set (f8 := fun z => le_bytes 8 (u64 z)).
  change (drop 8 (header_body h ++ tl)) with (le_bytes 2 (h_format h) ++ drop 10 (header_body h ++ tl)).
  change (drop 10 (header_body h ++ tl)) with (le_bytes 2 (h_flags h) ++ drop 12 (header_body h ++ tl)).
  change (drop 12 (header_body h ++ tl)) with (le_bytes 2 (h_typeToken h) ++ drop 14 (header_body h ++ tl)).
  change (drop 14 (header_body h ++ tl)) with (le_bytes 2 (h_pageRows h) ++ drop 16 (header_body h ++ tl)).
  change (drop 16 (header_body h ++ tl)) with (le_bytes 4 (h_rows h) ++ drop 20 (header_body h ++ tl)).
  change (drop 20 (header_body h ++ tl)) with (le_bytes 4 (h_nodes h) ++ drop 24 (header_body h ++ tl)).
  change (drop 24 (header_body h ++ tl)) with (f8 (h_idMin h) ++ drop 32 (header_body h ++ tl)).
  change (drop 32 (header_body h ++ tl)) with (f8 (h_idMax h) ++ drop 40 (header_body h ++ tl)).
  change (drop 40 (header_body h ++ tl)) with (f8 (h_vfMin h) ++ drop 48 (header_body h ++ tl)).
  change (drop 48 (header_body h ++ tl)) with (f8 (h_vfMax h) ++ tl).
  unfold le_uint16, le_uint32, le_uint64, f8. rewrite !le_uint_app by done. rewrite !i64_field by done.
  assert (1 <= h_pageRows h <= 4096) as Hpg by (unfold pow2UpTo4096 in H4; lia).
  assert (MaxRows = 67108864) as HM by reflexivity. unfold CurrentFormatVersion, flagNodeDict in *.
  change (8 * Z.of_nat 2) with 16. change (8 * Z.of_nat 4) with 32. rewrite !Z.mod_small by lia.
  cbn [h_format h_flags h_pageRows h_typeToken h_rows h_nodes]. rewrite H1, Z.eqb_refl. cbn [negb].
  rewrite flags_ldiff, bool_decide_eq_true_2 by (done || lia). cbn [negb]. rewrite H4. cbn [negb].
  destruct (Z.eqb_spec (h_typeToken h) 0); [lia|]. rewrite (proj2 (eqb_iff_zero _ _) H7). cbn [negb orb].
  destruct (Z.gtb_spec (h_nodes h) (2 * h_rows h)), (Z.gtb_spec (h_rows h) MaxRows); try lia. cbn [orb].
  rewrite <- H1. by destruct h.
Qed.

Lemma header_roundtrip_witness :
  readHeader (putHeader (mkHeader 1 1 7 4096 100 50 (-5) 10 3 4) ++ replicate 16 0) = inl (mkHeader 1 1 7 4096 100 50 (-5) 10 3 4).
Proof.
  apply header_roundtrip; [|reflexivity].
  split; cbn; [done|by right|lia|done|split; vm_compute; discriminate|lia|lia|unfold in_i64, MinInt64, MaxInt64; lia].
Defined.

Lemma read_field k off data :
  Forall is_byte data -> (off + k <= length data)%nat -> le_bytes k (le_int (take k (drop off data))) = take k (drop off data).
Proof.
  intros Hb Hl. rewrite <- (le_bytes_int (take k (drop off data))) at 2 by (by apply Forall_take, Forall_drop).
  by rewrite length_take, length_drop, Nat.min_l by lia.
Qed.

Lemma read_field_i64 off data :
  Forall is_byte data -> (off + 8 <= length data)%nat ->
  le_bytes 8 (u64 (i64 (le_int (take 8 (drop off data))))) = take 8 (drop off data).
Proof.
  intros Hb Hl. rewrite <- (read_field 8 off data Hb Hl) at 2. f_equal. unfold u64. rewrite i64_mod. apply Z.mod_small.
  pose proof (le_int_range (take 8 (drop off data)) ltac:(by apply Forall_take, Forall_drop)) as Hr.
  rewrite length_take, length_drop, Nat.min_l in Hr by lia. exact Hr.
Qed.

Lemma uint_range k data : Forall is_byte data -> 0 <= le_int (take k data) < 2 ^ (8 * Z.of_nat k).
Proof.
  intros Hb. pose proof (le_int_range (take k data) (Forall_take _ _ _ Hb)) as Hr.
  assert (2 ^ (8 * Z.of_nat (length (take k data))) <= 2 ^ (8 * Z.of_nat k)) by (apply Z.pow_le_mono_r; rewrite ?length_take; lia). lia.
Qed.

(** The header reader accepts only what [putHeader] writes: of any bytes it
    accepts, the header satisfies every bound of the format, and the bytes up to
    the reserved word, CRC included, are those of that header. *)
Theorem read_header_canonical data h :
  Forall is_byte data -> readHeader data = inl h -> header_ok h /\ take 60 data = take 60 (putHeader h).
Proof.
  intros Hb Hread. unfold readHeader in Hread. set (hd := mkHeader _ _ _ _ _ _ _ _ _ _) in Hread.
  destruct (Z.ltb_spec (len data) (Z.of_nat headerSize + Z.of_nat trailerSize)) as [|Hlen]; [done|].
  assert (80 <= length data)%nat as Hl by (unfold len, headerSize, trailerSize in Hlen; lia). clear Hlen.
  destruct (negb (bool_decide (take 8 data = headerMagic))) eqn:Em; [done|]. apply negb_false_iff, bool_decide_eq_true in Em.
  destruct (Z.eqb_spec (crc32c (take 56 data)) (le_uint32 (drop 56 data))) as [Ec|]; [|done]. cbn [negb] in Hread.
  destruct (Z.eqb_spec (h_format hd) CurrentFormatVersion) as [Ef|]; [|done]. cbn [negb] in Hread.
  destruct (negb (Z.ldiff (h_flags hd) flagNodeDict =? 0)) eqn:Efl; [done|]. destruct (negb (pow2UpTo4096 (h_pageRows hd))) eqn:Ep; [done|].
  destruct (Z.eqb_spec (h_typeToken hd) 0) as [|Et]; [done|]. destruct (_ || _) eqn:Er; [done|]. injection Hread as <-.
  apply negb_false_iff in Efl, Ep. apply orb_false_iff in Er as [[Er1 Er2]%orb_false_iff Er3]. apply negb_false_iff, eqb_iff_zero in Er1.
  assert (forall off, Forall is_byte (drop off data)) as Hd by (intros; by apply Forall_drop).
  pose proof (uint_range 2 _ (Hd 10%nat)) as R1. pose proof (uint_range 2 _ (Hd 12%nat)) as R2.
  pose proof (uint_range 4 _ (Hd 16%nat)) as R3. pose proof (uint_range 4 _ (Hd 20%nat)) as R4.
  rewrite flags_ldiff in Efl by apply R1. apply bool_decide_eq_true in Efl. split.
  - split; try done; cbn [hd h_typeToken h_rows h_nodes h_idMin h_idMax h_vfMin h_vfMax] in *; unfold le_uint16, le_uint32 in *;
      [split; [lia|apply R2]|lia|lia|split_and!; apply i64_range].
  - assert (header_body hd = take 56 data) as Hbody.
    { unfold header_body, hd. cbn [h_format h_flags h_typeToken h_pageRows h_rows h_nodes h_idMin h_idMax h_vfMin h_vfMax].
      unfold le_uint16, le_uint32, le_uint64. rewrite !read_field, !read_field_i64, <- Em by (done || lia).
      rewrite !app_assoc, !take_take_drop. done. }
    unfold putHeader. rewrite Hbody, Ec. unfold le_uint32. rewrite (read_field 4 56 data Hb) by lia.
    rewrite app_assoc, take_take_drop. by rewrite take_app_length' by (rewrite length_take; lia).
Qed.

Lemma read_header_canonical_witness :
  let h := mkHeader 1 0 7 64 0 0 0 0 0 0 in
  let data := putHeader h ++ replicate 20 7 in
  header_ok h /\ take 60 data = take 60 (putHeader h).
Proof.
  intros h data. apply (read_header_canonical data h); [|vm_compute; reflexivity].
  unfold data. apply Forall_app. split; [vm_compute; forall_literal ltac:(split; [discriminate|reflexivity])|].
  apply Forall_replicate. unfold is_byte. lia.
Defined.

(** ** The cursor on well-formed bytes *)

Section AtOffset.
Context (b : bytes).

(** The cursor at [off] has [rest] before it. *)
Definition at_rest (off : nat) (rest : bytes) : Prop := (off <= length b)%nat /\ drop off b = rest.

Lemma at_rest_app off x rest : at_rest off (x ++ rest) -> (off + length x <= length b)%nat /\ at_rest (off + length x) rest.
Proof.
  intros [Hle Hd]. pose proof (f_equal length Hd) as Hl. rewrite length_drop, length_app in Hl.
  split; [lia|]. split; [lia|]. rewrite <- drop_drop, Hd. apply drop_app_length.
Qed.

Lemma need_ok off n : 0 <= n -> (off + Z.to_nat n <= length b)%nat -> need b n (mkCursor off None) = (true, mkCursor off None).
Proof.
  intros Hn Hle. unfold need. cbn [cu_err cu_off]. unfold len.
  destruct (Z.ltb_spec n 0), (Z.gtb_spec n (Z.of_nat (length b) - Z.of_nat off)); lia || done.
Qed.

Lemma read_uint_at k z off rest :
  at_rest off (le_bytes k z ++ rest) -> 0 <= z < 2 ^ (8 * Z.of_nat k) ->
  read_uint b k (mkCursor off None) = (z, mkCursor (off + k) None) /\ at_rest (off + k) rest.
Proof.
  intros Ha Hz. destruct (at_rest_app _ _ _ Ha) as [Hle Hr]. rewrite length_le_bytes in Hle, Hr. split; [|done].
  unfold read_uint, rbind. rewrite need_ok by lia. unfold at_off, advance, rret. cbn [cu_off cu_err]. destruct Ha as [_ ->].
  rewrite take_le by done. by rewrite le_small.
Qed.

Lemma read_bytes_at x off rest :
  at_rest off (x ++ rest) ->
  read_bytes b (len x) (mkCursor off None) = (Some x, mkCursor (off + length x) None) /\ at_rest (off + length x) rest.
Proof.
  intros Ha. destruct (at_rest_app _ _ _ Ha) as [Hle Hr]. split; [|done].
  unfold read_bytes, rbind, len. rewrite need_ok by lia. unfold at_off, advance, rret. cbn [cu_off cu_err]. rewrite Nat2Z.id.
  destruct Ha as [_ ->]. by rewrite take_app_length.
Qed.

Lemma str16_at s off rest :
  at_rest off (appendStr16 s ++ rest) -> len s < 2 ^ 16 ->
  str16 b (mkCursor off None) = (s, mkCursor (off + length (appendStr16 s)) None) /\ at_rest (off + length (appendStr16 s)) rest.
Proof.
  intros Ha Hs. unfold appendStr16 in *. rewrite <- app_assoc in Ha.
  destruct (read_uint_at 2 (len s) off _ Ha) as [E1 Ha1]; [unfold len in *; cbn; lia|].
  destruct (read_bytes_at s (off + 2) rest Ha1) as [E2 Ha2].
  rewrite length_app, length_le_bytes, Nat.add_assoc. split; [|done]. unfold str16, rbind, u16. rewrite E1, E2. done.
Qed.

Definition column_ok (c : Column) : Prop := len (col_Name c) < 2 ^ 16 /\ is_byte (col_Kind c).

Lemma read_column_at c off rest :
  at_rest off (put_column c ++ rest) -> column_ok c ->
  read_column b (mkCursor off None) = (c, mkCursor (off + length (put_column c)) None) /\ at_rest (off + length (put_column c)) rest.
Proof.
  intros Ha [Hn _]. unfold put_column in *. rewrite <- app_assoc in Ha.
  destruct (str16_at (col_Name c) off _ Ha Hn) as [E1 Ha1]. destruct (read_bytes_at [col_Kind c] _ rest Ha1) as [E2 Ha2].
  rewrite length_app, Nat.add_assoc. split; [|done]. unfold read_column, rbind. rewrite E1. change 1 with (len [col_Kind c]). rewrite E2.
  by destruct c.
Qed.

Lemma read_columns_at cs off rest :
  at_rest off (concat (map put_column cs) ++ rest) -> Forall column_ok cs ->
  read_columns b (length cs) (mkCursor off None) =
    (cs, mkCursor (off + length (concat (map put_column cs))) None) /\ at_rest (off + length (concat (map put_column cs))) rest.
Proof.
  intros Ha Hc. revert off Ha. induction Hc as [|c cs Hc _ IH]; intros off Ha; cbn [map concat length read_columns] in *.
  { cbn [app] in Ha. rewrite Nat.add_0_r. done. }
  rewrite <- app_assoc in Ha. destruct (read_column_at c off _ Ha Hc) as [E1 Ha1]. destruct (IH _ Ha1) as [E2 Ha2].
  rewrite length_app, Nat.add_assoc. split; [|done]. unfold rbind. by rewrite E1, E2.
Qed.

Definition section_ok (dlen : Z) (s : sectionInfo) : Prop :=
  len (s_name s) < 2 ^ 16 /\ 0 <= s_offset s <= dlen /\ 0 <= s_length s <= dlen /\ 0 <= s_crc s < 2 ^ 32.

(** A directory entry without the position its CRC was read from. *)
Definition erase (s : sectionInfo) : sectionInfo := mkSection (s_name s) (s_offset s) (s_length s) (s_crc s) 0.

Lemma read_section_at dlen s off rest :
  at_rest off (put_section s ++ rest) -> section_ok dlen s -> dlen < 2 ^ 64 ->
  exists s', read_section b (mkCursor off None) = (s', mkCursor (off + length (put_section s)) None) /\ erase s' = erase s /\
    at_rest (off + length (put_section s)) rest.
Proof.
  intros Ha (Hn & Ho & Hl & Hc) Hd. unfold put_section in *. rewrite <- !app_assoc in Ha.
  destruct (str16_at (s_name s) off _ Ha Hn) as [E1 Ha1].
  destruct (read_uint_at 8 (s_offset s) _ _ Ha1) as [E2 Ha2]; [cbn; lia|].
  destruct (read_uint_at 8 (s_length s) _ _ Ha2) as [E3 Ha3]; [cbn; lia|].
  destruct (read_uint_at 4 (s_crc s) _ _ Ha3) as [E4 Ha4]; [cbn; lia|].
  eexists. rewrite !length_app, !length_le_bytes. unfold read_section, rbind, u64r, u32, at_off. rewrite E1, E2, E3, E4.
  split_and!; [unfold rret; do 2 f_equal; lia|done|].
  replace (off + _)%nat with (off + length (appendStr16 (s_name s)) + 8 + 8 + 4)%nat by lia. done.
Qed.

Lemma read_sections_at dlen ss off rest :
  at_rest off (concat (map put_section ss) ++ rest) -> Forall (section_ok dlen) ss -> dlen < 2 ^ 64 ->
  exists ss', read_sections b dlen (length ss) (mkCursor off None) =
      inl (ss', mkCursor (off + length (concat (map put_section ss))) None) /\ map erase ss' = map erase ss.
Proof.
  intros Ha Hs Hd. revert off Ha. induction Hs as [|s ss Hs _ IH]; intros off Ha; cbn [map concat length read_sections] in *.
  { exists []. by rewrite Nat.add_0_r. }
  rewrite <- app_assoc in Ha. destruct (read_section_at dlen s off _ Ha Hs Hd) as (s' & E1 & Hs' & Ha1).
  destruct (IH _ Ha1) as (ss' & E2 & Hss'). exists (s' :: ss'). cbn [cu_err]. rewrite E1, E2, length_app, Nat.add_assoc.
  destruct Hs as (_ & Ho & Hl & _). injection Hs' as En Eo El Ecrc. rewrite Eo, El.
  destruct (Z.gtb_spec (s_offset s) dlen), (Z.gtb_spec (s_length s) dlen); try lia. cbn [orb map].
  split; [done|]. rewrite Hss'. f_equal. unfold erase. by rewrite En, Eo, El, Ecrc.
Qed.
End AtOffset.

(** ** The footer *)

Lemma validate_columns_ok seen cols :
  validate_columns seen cols = true ->
  Forall (fun c => 0 < len (col_Name c) <= 65526 /\ 1 <= col_Kind c <= 14 /\ col_Name c ∉ seen) cols /\ NoDup (map col_Name cols).
Proof.
  revert seen. induction cols as [|c cols IH]; intros seen Hv; cbn [validate_columns map] in *; [split; constructor|].
  destruct (bool_decide (col_Name c = [])) eqn:E0; [done|]. apply bool_decide_eq_false in E0.
  change (65535 - len presencePrefix) with 65526 in Hv.
  destruct (Z.gtb_spec (len (col_Name c)) 65526); [done|]. cbn [orb] in Hv. destruct (bool_decide (take 4 _ = _)); [done|].
  destruct (Z.ltb_spec (col_Kind c) 1), (Z.gtb_spec (col_Kind c) 14); try done. cbn [orb] in Hv.
  destruct (bool_decide (col_Name c ∈ seen)) eqn:Es; [done|]. apply bool_decide_eq_false in Es.
  destruct (IH _ Hv) as [Hf Hnd]. rewrite Forall_forall in Hf. split.
  - assert (0 < len (col_Name c)) by (unfold len; destruct (col_Name c); [done|cbn; lia]). constructor; [split_and!; done || lia|].
    apply Forall_forall. intros c' Hc'. destruct (Hf c' Hc') as (? & ? & Hn). split_and!; try done; try lia. set_solver.
  - apply NoDup_cons. split; [|done]. intros (c' & Hn & Hc')%list_elem_of_fmap. destruct (Hf c' Hc') as (_ & _ & Hs). apply Hs. rewrite <- Hn. left.
Qed.

Lemma Schema_validate_ok name cols :
  Schema_validate (mkSchema name 1 cols) = None ->
  0 < len name <= 65535 /\ Z.of_nat (length cols) <= 1024 /\ validate_columns [] cols = true.
Proof.
  unfold Schema_validate. cbn [sch_TypeName sch_TypeToken sch_Columns].
  destruct (bool_decide (name = [])) eqn:E; [done|]. apply bool_decide_eq_false in E.
  destruct (Z.gtb_spec (len name) 65535); [done|]. cbn [orb Z.eqb]. destruct (Z.gtb_spec (Z.of_nat (length cols)) MaxColumns); [done|].
  destruct (validate_columns [] cols); [|done]. intros _. unfold MaxColumns in *.
  assert (0 < len name) by (unfold len; destruct name; [done|cbn; lia]). split_and!; done || lia.
Qed.

Lemma check_tiling_erase seen pos start ss ss' :
  map erase ss' = map erase ss -> check_tiling seen pos start ss' = check_tiling seen pos start ss.
Proof.
  revert seen pos ss'. induction ss as [|s ss IH]; intros seen pos [|s' ss'] He; try done. cbn [map] in He.
  injection He as En Eo El _ He. cbn [check_tiling]. rewrite En, Eo, El. by rewrite (IH _ _ ss' He).
Qed.

(** The sections of an accepted directory tile the bytes [pos, start). *)
Fixpoint tiles (pos start : Z) (ss : list sectionInfo) : Prop :=
  match ss with
  | [] => pos = start
  | s :: ss' => s_offset s = pos /\ 0 < s_length s /\ tiles (pos + s_length s) start ss'
  end.

Lemma check_tiling_ok seen pos start ss :
  Forall (fun s => 0 <= s_length s) ss -> check_tiling seen pos start ss = None ->
  tiles pos start ss /\ NoDup (map s_name ss) /\ (forall s, s ∈ ss -> s_name s ∉ seen) /\
  Forall (fun s => pos <= s_offset s /\ s_offset s + s_length s <= start) ss.
Proof.
  intros Hs. revert seen pos. induction Hs as [|s ss Hs Hss IH]; intros seen pos Hc; cbn [check_tiling tiles map] in *.
  { destruct (Z.eqb_spec pos start); [|done]. split_and!; try done; [constructor|]. intros s Hs. by apply not_elem_of_nil in Hs. }
  destruct (bool_decide (s_name s ∈ seen)) eqn:Es; [done|]. apply bool_decide_eq_false in Es.
  destruct (Z.eqb_spec (s_offset s) pos); [|done]. destruct (Z.gtb_spec (s_length s) (start - pos)); [done|].
  destruct (Z.eqb_spec (s_length s) 0); [done|]. cbn [negb orb] in Hc.
  destruct (IH _ _ Hc) as (H1 & H2 & H3 & H4). split_and!; try done; try lia.
  - apply NoDup_cons. split; [|done]. intros (s' & Hn & Hs')%list_elem_of_fmap. apply (H3 s' Hs'). rewrite <- Hn. left.
  - intros s' [->|Hs']%elem_of_cons; [done|]. specialize (H3 s' Hs'). set_solver.
  - constructor; [lia|]. eapply Forall_impl; [exact H4|]. cbn. intros s' ?. lia.
Qed.

(** A footer the writer may hand to [putFooter] with its directory starting at
    the header's end and ending at [start]. *)
Record footer_ok (start : nat) (f : footer) : Prop := {
  fo_version : f_version f = CurrentFooterVersion;
  fo_block : pow2UpTo4096 (f_blockRows f) = true;
  fo_schema : Schema_validate (mkSchema (f_typeName f) 1 (f_columns f)) = None;
  fo_root : length (f_root f) = 32%nat;
  fo_count : Z.of_nat (length (f_sections f)) < 2 ^ 16;
  fo_entries : Forall (fun s => len (s_name s) < 2 ^ 16 /\ 0 <= s_length s /\ 0 <= s_crc s < 2 ^ 32) (f_sections f);
  fo_tiling : check_tiling [] (Z.of_nat headerSize) (Z.of_nat start) (f_sections f) = None;
}.

Lemma length_put_columns cs : 3 * Z.of_nat (length cs) <= Z.of_nat (length (concat (map put_column cs))).
Proof.
  induction cs as [|c cs IH]; [done|]. cbn [map concat length]. rewrite length_app. unfold put_column at 1, appendStr16.
  rewrite !length_app, length_le_bytes. cbn [length]. lia.
Qed.

Lemma length_put_sections ss : 22 * Z.of_nat (length ss) <= Z.of_nat (length (concat (map put_section ss))).
Proof.
  induction ss as [|s ss IH]; [done|]. cbn [map concat length]. rewrite length_app. unfold put_section at 1, appendStr16.
  rewrite !length_app, !length_le_bytes. lia.
Qed.

(** A count the bytes can hold passes the plausibility check. *)
Lemma count_fits n k left_ : 0 < k -> k * n <= left_ -> (n >? left_ / k) = false.
Proof. intros Hk Hn. destruct (Z.gtb_spec n (left_ / k)) as [H|]; [|done]. exfalso. apply Z.lt_nge in H. apply H. by apply Z.div_le_lower_bound. Qed.

(** The footer round-trips: the footer bytes after [start] bytes of header
    and sections, whatever trailer follows, are read back with the same schema,
    root and section directory (the recorded CRC positions apart). *)
Theorem footer_roundtrip pre f trailer :
  footer_ok (length pre) f -> len (pre ++ putFooter f ++ trailer) < 2 ^ 63 ->
  exists f', readFooter (pre ++ putFooter f ++ trailer) (length pre) (length pre + length (putFooter f)) = inl f' /\
    f_version f' = f_version f /\ f_blockRows f' = f_blockRows f /\ f_typeName f' = f_typeName f /\
    f_columns f' = f_columns f /\ f_root f' = f_root f /\ map erase (f_sections f') = map erase (f_sections f).
Proof.
  intros [Hv Hb Hsch Hroot Hcnt Hent Htile] Hlen. set (data := pre ++ putFooter f ++ trailer) in *.
  set (start := length pre) in *. set (end_ := (start + length (putFooter f))%nat).
  destruct (Schema_validate_ok _ _ Hsch) as (Hname & Hncols & Hcols). destruct (validate_columns_ok _ _ Hcols) as [Hcok _].
  assert (Forall column_ok (f_columns f)) as Hcok'.
  { eapply Forall_impl; [exact Hcok|]. cbn. intros c (? & ? & _). split; [lia|unfold is_byte; lia]. }
  destruct (check_tiling_ok _ _ _ _ (Forall_impl _ _ _ Hent (fun s H => proj1 (proj2 H))) Htile) as (_ & _ & _ & Hrange).
  assert (Z.of_nat start <= len data) as Hsd by (unfold len, data, start; rewrite length_app; lia).
  assert (Forall (section_ok (len data)) (f_sections f)) as Hsok.
  { rewrite Forall_forall in Hent, Hrange. apply Forall_forall. intros s Hs. destruct (Hent s Hs) as (? & ? & ?), (Hrange s Hs) as (? & ?).
    unfold section_ok, headerSize in *. lia. }
  unfold readFooter. set (b := take end_ data).
  assert (b = pre ++ putFooter f) as Eb by (unfold b, data, end_, start; rewrite app_assoc; by rewrite take_app_length' by (rewrite length_app; lia)).
  assert (at_rest b start (putFooter f ++ [])) as Ha.
  { rewrite Eb, app_nil_r. split; [unfold start; rewrite length_app; lia|apply drop_app_length]. }
  clearbody b. unfold putFooter in Ha. rewrite <- !app_assoc in Ha.
  assert (1 <= f_blockRows f <= 4096) as Hblk by (unfold pow2UpTo4096 in Hb; lia).
  destruct (read_uint_at b 2 (f_version f) start _ Ha) as [E1 A1]; [rewrite Hv; done|].
  destruct (read_uint_at b 2 (f_blockRows f) _ _ A1) as [E2 A2]; [cbn; lia|].
  destruct (str16_at b (f_typeName f) _ _ A2) as [E3 A3]; [lia|].
  destruct (read_uint_at b 2 (Z.of_nat (length (f_columns f))) _ _ A3) as [E4 A4]; [cbn; lia|].
  destruct (read_columns_at b (f_columns f) _ _ A4 Hcok') as [E5 A5].
  destruct (read_bytes_at b (f_root f) _ _ A5) as [E6 A6].
  destruct (read_uint_at b 2 (Z.of_nat (length (f_sections f))) _ _ A6) as [E7 A7]; [cbn; lia|].
  destruct (read_sections_at b (len data) (f_sections f) _ _ A7 Hsok ltac:(lia)) as (ss' & E8 & Hss').
  set (o4 := (start + 2 + 2 + length (appendStr16 (f_typeName f)) + 2)%nat) in *.
  set (o7 := (o4 + length (concat (map put_column (f_columns f))) + length (f_root f) + 2)%nat) in *.
  assert (o7 + length (concat (map put_section (f_sections f))) = end_)%nat as Hend.
  { unfold end_, o7, o4, putFooter. rewrite !length_app, !length_le_bytes. lia. }
  pose proof (length_put_columns (f_columns f)) as Hlc. pose proof (length_put_sections (f_sections f)) as Hls.
  unfold u16. rewrite E1. cbn [failed cu_err negb andb]. rewrite Hv. cbn [CurrentFooterVersion Z.eqb negb]. rewrite E2, E3, E4.
  cbn [failed cu_err cu_off negb andb]. rewrite (count_fits _ 3) by (lia || subst o7; lia).
  rewrite Nat2Z.id. replace (if Z.of_nat (length (f_columns f)) >? 0 then read_columns b (length (f_columns f)) (mkCursor o4 None) else ([], mkCursor o4 None))
    with (f_columns f, mkCursor (o4 + length (concat (map put_column (f_columns f)))) None).
  2: { destruct (Z.gtb_spec (Z.of_nat (length (f_columns f))) 0); [by rewrite E5|].
       destruct (f_columns f); [by rewrite Nat.add_0_r|cbn [length] in *; lia]. }
  assert (len (f_root f) = 32) as Er by (unfold len; lia). rewrite Er in E6. rewrite E6, E7. cbn [failed cu_err cu_off negb andb].
  fold o7. rewrite (count_fits _ 22) by lia. rewrite Nat2Z.id, E8. cbn [cu_err cu_off]. rewrite Hend, Nat.eqb_refl, Hb, Hsch. cbn [negb].
  rewrite (check_tiling_erase _ _ _ _ _ Hss'), Htile. eexists. split; [done|]. by cbn.
Qed.

Lemma footer_roundtrip_witness :
  let f := mkFooter 1 64 (bytes_of_string "KNOWS") [mkColumn (bytes_of_string "since") 6; mkColumn (bytes_of_string "w") 13]
             (replicate 32 9) [mkSection (bytes_of_string "nodes") 64 3 77 0; mkSection (bytes_of_string "outcsr") 67 2 78 0] in
  let pre := replicate 69 0 in
  exists f', readFooter (pre ++ putFooter f ++ [1; 2]) 69 (69 + length (putFooter f)) = inl f' /\
    f_version f' = 1 /\ f_blockRows f' = 64 /\ f_typeName f' = bytes_of_string "KNOWS" /\
    f_columns f' = f_columns f /\ f_root f' = f_root f /\ map erase (f_sections f') = map erase (f_sections f).
Proof.
  intros f pre. apply (footer_roundtrip pre f [1; 2]); [|vm_compute; reflexivity].
  split; [reflexivity|reflexivity|vm_compute; reflexivity|reflexivity|vm_compute; reflexivity| |vm_compute; reflexivity].
  forall_literal ltac:(split; [vm_compute; reflexivity|split; [|split]; vm_compute; (reflexivity || discriminate)]).
Defined.

(** ** Hostile footers *)

(** An error stays: no later read clears it. *)
Definition sticky {A} (m : reader A) : Prop := forall c, failed c = true -> failed (snd (m c)) = true.

Lemma sticky_ret {A} (x : A) : sticky (rret x).
Proof. by intros c. Qed.

Lemma sticky_bind {A B} (m : reader A) (k : A -> reader B) : sticky m -> (forall x, sticky (k x)) -> sticky (rbind m k).
Proof. intros Hm Hk c Hc. unfold rbind. specialize (Hm c Hc). destruct (m c) as [x c']. by apply Hk. Qed.

Lemma sticky_need b n : sticky (need b n).
Proof. intros [off [e|]] Hc; [done|done]. Qed.

Lemma sticky_advance n : sticky (advance n).
Proof. by intros [off [e|]] Hc. Qed.

Lemma sticky_at_off : sticky at_off.
Proof. by intros c. Qed.

#[local] Hint Resolve sticky_ret sticky_bind sticky_need sticky_advance sticky_at_off : tkg.

Lemma sticky_read_uint b k : sticky (read_uint b k).
Proof. unfold read_uint. apply sticky_bind; [auto with tkg|]. intros []; auto 6 with tkg. Qed.

Lemma sticky_read_bytes b n : sticky (read_bytes b n).
Proof. unfold read_bytes. apply sticky_bind; [auto with tkg|]. intros []; auto 6 with tkg. Qed.

#[local] Hint Resolve sticky_read_uint sticky_read_bytes : tkg.

Lemma sticky_str16 b : sticky (str16 b).
Proof. unfold str16, u16. auto 6 with tkg. Qed.

Lemma sticky_read_columns b n : sticky (read_columns b n).
Proof. induction n as [|n IH]; cbn [read_columns]; unfold read_column; auto 8 using sticky_str16 with tkg. Qed.

Lemma sticky_read_section b : sticky (read_section b).
Proof. unfold read_section, u64r, u32. auto 10 using sticky_str16 with tkg. Qed.

Lemma read_uint_nonneg b k c : Forall is_byte b -> 0 <= fst (read_uint b k c).
Proof.
  intros Hb. unfold read_uint, rbind, rret. destruct (need b (Z.of_nat k) c) as [[] c']; cbn; [|lia].
  apply uint_range. by apply Forall_drop.
Qed.

Lemma read_section_nonneg b c : Forall is_byte b -> 0 <= s_length (fst (read_section b c)).
Proof.
  intros Hb. unfold read_section, rbind, rret, u64r, u32, at_off. destruct (str16 b c) as [nm c1].
  destruct (read_uint b 8 c1) as [off c2]. pose proof (read_uint_nonneg b 8 c2 Hb) as Hn.
  destruct (read_uint b 8 c2) as [ln c3]. by destruct (read_uint b 4 c3).
Qed.

Lemma read_sections_nonneg b dlen n c ss c' :
  Forall is_byte b -> read_sections b dlen n c = inl (ss, c') ->
  Forall (fun s => 0 <= s_length s) ss /\ (failed c = true -> failed c' = true).
Proof.
  intros Hb. revert c ss. induction n as [|n IH]; intros c ss Hr; cbn [read_sections] in Hr; [by injection Hr as <- <-|].
  unfold failed at 1. destruct (cu_err c) as [e|] eqn:Ee; [injection Hr as <- <-; split; [done|]; unfold failed; by rewrite Ee|].
  pose proof (read_section_nonneg b c Hb) as Hs. destruct (read_section b c) as [s c1]. destruct (_ || _); [done|].
  destruct (read_sections b dlen n c1) as [[ss1 c2]|] eqn:E; [|done]. injection Hr as <- <-.
  destruct (IH c1 ss1 E) as [Hss _]. split; [by constructor|done].
Qed.

(** An accepted footer is safe to use: its sections lie one after the other
    from the end of the header to the start of the footer, none empty, none
    overlapping, under distinct names; its schema is valid and its columns have
    distinct names and known kinds. *)
Theorem read_footer_sound data start end_ f :
  Forall is_byte data -> readFooter data start end_ = inl f ->
  tiles (Z.of_nat headerSize) (Z.of_nat start) (f_sections f) /\ NoDup (map s_name (f_sections f)) /\
  NoDup (map col_Name (f_columns f)) /\ Forall (fun c => 1 <= col_Kind c <= 14) (f_columns f) /\
  pow2UpTo4096 (f_blockRows f) = true /\ f_version f = CurrentFooterVersion.
Proof.
  intros Hb Hr. unfold readFooter in Hr. set (b := take end_ data) in Hr. assert (Forall is_byte b) as Hb' by (by apply Forall_take).
  clearbody b. destruct (u16 b (mkCursor start None)) as [version c1] eqn:R1.
  destruct (negb (failed c1) && negb (version =? CurrentFooterVersion)) eqn:Ev; [done|].
  pose proof (sticky_read_uint b 2 c1) as K1. fold (u16 b) in K1. destruct (u16 b c1) as [blockRows c2].
  pose proof (sticky_str16 b c2) as K2. destruct (str16 b c2) as [typeName c3].
  pose proof (sticky_read_uint b 2 c3) as K3. fold (u16 b) in K3. destruct (u16 b c3) as [ncols c4]. destruct (negb (failed c4) && (ncols >? _ / 3)); [done|].
  pose proof (sticky_read_columns b (Z.to_nat ncols) c4) as K4.
  assert (failed c4 = true -> failed (snd (if negb (failed c4) && (ncols >? 0) then read_columns b (Z.to_nat ncols) c4 else ([], c4))) = true) as K4'
    by (intros Hf; by rewrite Hf).
  destruct (if negb (failed c4) && (ncols >? 0) then read_columns b (Z.to_nat ncols) c4 else ([], c4)) as [columns c5].
  pose proof (sticky_read_bytes b 32 c5) as K5. destruct (read_bytes b 32 c5) as [root c6].
  pose proof (sticky_read_uint b 2 c6) as K6. fold (u16 b) in K6. destruct (u16 b c6) as [nsec c7]. destruct (negb (failed c7) && (nsec >? _)); [done|].
  destruct (read_sections b (len data) (Z.to_nat nsec) c7) as [[ss c8]|] eqn:Es; [|done].
  destruct (read_sections_nonneg _ _ _ _ _ _ Hb' Es) as [Hnn K7]. cbn [snd] in *.
  destruct (cu_err c8) eqn:Ee; [done|]. assert (failed c8 = false) as Hf8 by (unfold failed; by rewrite Ee).
  destruct (negb (_ =? _)%nat); [done|]. destruct (pow2UpTo4096 blockRows) eqn:Ep; [|done]. cbn [negb] in Hr.
  destruct (Schema_validate _) eqn:Esch; [done|]. destruct (check_tiling _ _ _ ss) eqn:Et; [done|]. injection Hr as <-.
  destruct (check_tiling_ok _ _ _ _ Hnn Et) as (T1 & T2 & _). destruct (Schema_validate_ok _ _ Esch) as (_ & _ & Hvc).
  destruct (validate_columns_ok _ _ Hvc) as [C1 C2]. cbn. split_and!; try done.
  - eapply Forall_impl; [exact C1|]. cbn. tauto.
  - destruct (failed c1) eqn:F1; [rewrite K7 in Hf8; [done|]; auto 10|]. cbn [negb andb] in Ev. by apply negb_false_iff, Z.eqb_eq in Ev.
Qed.

Lemma read_footer_sound_witness :
  let f := mkFooter 1 64 (bytes_of_string "KNOWS") [mkColumn (bytes_of_string "since") 6] (replicate 32 9)
             [mkSection (bytes_of_string "nodes") 64 3 77 145] in
  tiles 64 67 (f_sections f) /\ NoDup (map s_name (f_sections f)) /\ NoDup (map col_Name (f_columns f)) /\
  Forall (fun c => 1 <= col_Kind c <= 14) (f_columns f) /\ pow2UpTo4096 (f_blockRows f) = true /\ f_version f = CurrentFooterVersion.
Proof.
  intros f. apply (read_footer_sound (replicate 67 0 ++ putFooter f) 67 (67 + length (putFooter f)) f); [|vm_compute; reflexivity].
  vm_compute. forall_literal ltac:(split; [discriminate|reflexivity]).
Defined.
